(* ===== verification/_CoqProject ===== *)
-Q . S2P
Prelude.v
GoLib.v
GoSort.v
Bits.v
Chunk.v
Dedup.v
Labels.v
Ring.v
Postings.v
Source.v
ReadEquiv.v
MemStore.v
Batch.v
Text.v
Duration.v
Fence.v
Float.v
FloatInt.v
Engine.v
Quorum.v
Gather.v
Heads.v
Limits.v
Drain.v
Straggler.v
WalCodec.v
SegName.v
Wal.v
WalRecovery.v
WalLogs.v
WalHazard.v
HeadWal.v
Ingester.v
BlockIndex.v
BlockPostings.v
PostingsWritten.v
Block.v
BlockStore.v
BlockCheck.v
BlockIngest.v
BlockCompact.v
Compactor.v
BlockLoad.v
BlockLife.v
GoCodec.v
LogChunk.v
LogStream.v
LogFile.v
LogIndex.v
LogBatch.v
LogStore.v
LogHead.v
LogDisk.v
LogQuery.v
LogQL.v
LogMetric.v
LogHeads.v
