(* ===== verification/Prelude.v ===== *)
(** * A verification library for the observability platform

    The repository is a metrics and logs platform in Go. Samples and log lines are
    pushed to a gateway, which stamps them with the tenant and, samples, with a write
    generation, and routes them to replicated ingesters; an ingester appends them to
    a write-ahead log and to an in-memory head, and flushes to stores, which keep
    samples as immutable blocks and lines as chunk files under an index; queries run
    over the merge of heads and stores. The library models that path operation by
    operation and proves that acknowledged data is kept and read back exactly,
    through every layer, and where it is not.

    ** Layout

    Each file models the code its own header names. From the bottom up:
    - this file: results, machine integers, shared list lemmas and tactics;
      [GoLib], [GoSort], [Float], [FloatInt], [GoCodec]: the parts of Go's standard
      library the code uses (byte order, varints, FNV, UTF-8, sorting and binary
      search, float64, checksums and deflate);
    - formats: [Bits] and [Chunk] (internal/storage/chunk), [Dedup] (the
      last-write-wins rule), [WalCodec], [SegName] (internal/storage/wal, logwal),
      [LogChunk] (internal/storage/logchunk);
    - data: [Labels] (internal/labels, internal/tenant), [Postings]
      (internal/storage/index), [Ring] (internal/ring);
    - reading metrics: [Source] (internal/metrics/source.go, merge.go,
      tenant_source.go), whose class [Implements] is the interface between a store
      and its readers: its answers are those of an abstract database of all writes;
      [MemStore] and [Fence] (store.go) discharge it for the head, [Heads]
      (MergeHeads) for replicated ingesters, and [Engine] (query.go, eval.go,
      expr.go) is proved against it alone;
    - writing: [Quorum] (internal/rpc/router.go, replicated_sink.go), [Limits]
      (internal/limits, tenant overrides), [Drain] (internal/drain), [Straggler]
      (internal/rpc/straggler.go), [Batch] (cutting a flush into requests);
      [Gather]: asking every ingester and deciding how many answers are enough;
    - durability: [Wal], [WalRecovery], [WalLogs] (both write-ahead logs, written
      once over a kind of record), [WalHazard] (the same under every fault), [HeadWal]
      and [Ingester] (walstore.go, headstore.go, the start-up of internal/app);
    - blocks: [BlockIndex], [BlockPostings], [PostingsWritten], [Block]
      (internal/storage/block): the files of a block byte for byte, their writer
      and their reader;
    - the block store (internal/metrics/blockstore.go): [BlockStore] reads over head
      and blocks, [BlockCheck] the checks a block passes before it is trusted,
      [BlockIngest] flushing and ingesting, [BlockCompact] merging and the proof that
      a merge holds its sources (internal/storage/block/compact.go), [Compactor]
      planning, retention and the maintenance pass (internal/compactor), [BlockLoad]
      start-up and the reclaiming of sources, and [BlockLife] the store as a whole
      against its specification. [ReadEquiv] is the equality of databases no read
      can tell apart, with which they are stated;
    - logs (internal/logs): [LogStream] sources and their merge, with the class
      [LogImplements] that plays the part of [Implements]; [LogFile] chunk files,
      [LogIndex] the index and its manifest, [LogBatch] requests, [LogStore] the
      chunk store, [LogHead] the durable head over any sink, given by the class
      [LogSink] that [LogDisk], the two as one store, discharges for the chunk store;
      [LogQuery] and [LogMetric] the two kinds of query, [LogHeads] replicated heads;
    - texts of queries: [Text] the scanners, [LogQL] (logql.go), [Duration]
      (internal/metrics/duration.go).

    ** Conventions

    A definition has the source's name, with a prefix where two sources share one.
    An [int64] or [uint64] is a [Z] and wraps where the code can overflow ([i64],
    [u64]); a [float64] is its 64-bit pattern; a byte slice is a [list Z] of bytes;
    a Go map is a [gmap]; a value and an error are a [result]; an error keeps the
    values of its message. A loop over a slice is a structural recursion; a loop
    that is not carries fuel, and where it does its theorems show that the fuel the
    code's bounds give is enough. A mutex makes the operations it guards one step;
    what interleaves freely is a step relation ([Drain], [Straggler], [Ingester],
    [LogHead]) or an arrival order that theorems quantify over ([Quorum], [Gather]).
    Files and directories are values with what is synced ([Wal]) or with the points
    where an operation can fail ([Block], [LogStore]). Regular expressions, deflate
    and [strconv.Quote] are parameters.

    ** What the theorems show

    - Formats: what was appended to a chunk, logged, or committed as a block or a
      chunk file is what is read back, and whatever bytes a reader accepts it decodes
      consistently.
    - Reads: head, replicated heads, merges and tenants answer for exactly the
      writes they hold, the newest generation winning; the single-pass engine equals
      a per-tick oracle; a log query is one stable sort and one cut of the matching
      lines, and a metric query over logs weighs exactly its windows. Every log query
      the parser accepts is in a grammar stated apart from it, and conversely.
    - Writes: a batch is acknowledged exactly when a quorum holds it, whatever order
      replies come in; an acknowledged write or line is read while fewer ingesters
      than a quorum are down; limits and drains are never passed.
    - Durability: wherever a run of appends, flushes, checkpoints, deletions,
      failures, crashes, kills and restarts stops, every acknowledged sample or line
      is in a store, in the head, or in what the next start replays, if the run was
      spared the faults of [hazard]: a log append cut short after some of its bytes,
      a crash that leaves just the length prefix of a record, a process that dies on
      a running machine with unsynced bytes, two checkpoint files written at once.
      The step relations have these faults too, and take the set of those a run is
      exposed to: [hazards_lose_samples] runs each of the first three to a loss, and
      [WalHazard] shows what the logs keep whatever happens: everything that was
      durable before the first such fault.
    - Stores: flushes, compactions and restarts change no read, retention removes
      only what is older than its tenant keeps, and the loops that compact and
      reclaim end; every block store reached by any run answers as the ledger of
      exactly what that run accepted. Each holds wherever the disk fails.

    ** Not modelled

    HTTP and JSON glue (internal/api, the codecs of internal/rpc), configuration,
    metrics of the process itself (internal/observability), commands and examples:
    they move data between the modelled parts. The parsers of metric queries over
    logs and of constant expressions (internal/logs/metricql.go, scalar.go) and of
    metric expressions (internal/metrics/selector.go, expr_parser.go): the trees they
    build are where the modelled evaluators start. The export of whole blocks to
    another store. Concurrency inside the block store: a pass of [Compactor] runs its
    operations one after the other ([MemStore] interleaves a flush with appends). *)
From stdpp Require Export base tactics list numbers strings gmap fin_maps sorting.
From Stdlib Require Export ZArith Lia.

#[global] Open Scope Z_scope.

(** ** Results: Go's [(value, error)] pairs *)

Inductive result (E A : Type) : Type :=
  | Ok (a : A)
  | Err (e : E).
Arguments Ok {E A} _.
Arguments Err {E A} _.

#[export] Instance result_ret {E} : MRet (result E) := fun A a => Ok a.
#[export] Instance result_bind {E} : MBind (result E) :=
  fun A B f m => match m with Ok a => f a | Err e => Err e end.
#[export] Instance result_fmap {E} : FMap (result E) :=
  fun A B f m => match m with Ok a => Ok (f a) | Err e => Err e end.

Lemma bind_Ok {E A B} (a : A) (f : A -> result E B) : (Ok a ≫= f) = f a.
Proof. done. Qed.
(** [guard_or b e]: the early return [if !b { return e }]. *)
Definition guard_or {E} (b : bool) (e : E) : result E unit :=
  if b then Ok tt else Err e.

(** ** Machine integers: values are [Z], kept in range by the conversions *)

Definition u8 (z : Z) : Z := z mod 2 ^ 8.
Definition u16 (z : Z) : Z := z mod 2 ^ 16.
Definition u32 (z : Z) : Z := z mod 2 ^ 32.
Definition u64 (z : Z) : Z := z mod 2 ^ 64.
Definition i64 (z : Z) : Z := (z + 2 ^ 63) mod 2 ^ 64 - 2 ^ 63.

Definition MaxInt64 : Z := 2 ^ 63 - 1.
Definition MinInt64 : Z := - 2 ^ 63.

Definition in_u8 (z : Z) : Prop := 0 <= z < 2 ^ 8.
Definition in_u32 (z : Z) : Prop := 0 <= z < 2 ^ 32.
Definition in_u64 (z : Z) : Prop := 0 <= z < 2 ^ 64.
Definition in_i64 (z : Z) : Prop := - 2 ^ 63 <= z < 2 ^ 63.

(** Unfold the width predicates and their powers of two, then decide. *)
Ltac width :=
  unfold in_u8, in_u32, in_u64, in_i64, MaxInt64, MinInt64 in *;
  change (2 ^ 7) with 128 in *; change (2 ^ 8) with 256 in *;
  change (2 ^ 16) with 65536 in *; change (2 ^ 32) with 4294967296 in *;
  change (2 ^ 62) with 4611686018427387904 in *;
  change (2 ^ 63) with 9223372036854775808 in *;
  change (2 ^ 64) with 18446744073709551616 in *.
Ltac wsolve := width; lia.
Ltac mod_width := unfold u8, u16, u32, u64, i64 in *; width; Z.to_euclidean_division_equations; lia.

Lemma u64_id z : in_u64 z -> u64 z = z.
Proof. intros; apply Z.mod_small; wsolve. Qed.
Lemma u32_id z : in_u32 z -> u32 z = z.
Proof. intros; apply Z.mod_small; wsolve. Qed.
Lemma u8_id z : in_u8 z -> u8 z = z.
Proof. intros; apply Z.mod_small; wsolve. Qed.
Lemma i64_id z : in_i64 z -> i64 z = z.
Proof. intros. unfold i64. rewrite Z.mod_small; wsolve. Qed.
Lemma i64_wrap z : 2 ^ 63 <= z < 2 ^ 64 + 2 ^ 63 -> i64 z = z - 2 ^ 64.
Proof.
  intros. unfold i64. replace (z + 2 ^ 63) with (z - 2 ^ 63 + 1 * 2 ^ 64) by lia.
  rewrite Z.mod_add, Z.mod_small; wsolve.
Qed.
Lemma in_u64_u64 z : in_u64 (u64 z).
Proof. apply Z.mod_pos_bound; lia. Qed.
Lemma in_u32_u32 z : in_u32 (u32 z).
Proof. apply Z.mod_pos_bound; lia. Qed.
Lemma in_u8_u8 z : in_u8 (u8 z).
Proof. apply Z.mod_pos_bound; lia. Qed.
Lemma in_i64_i64 z : in_i64 (i64 z).
Proof. unfold i64, in_i64. pose proof (Z.mod_pos_bound (z + 2 ^ 63) (2 ^ 64)). lia. Qed.

(** The conversions are ring morphisms up to their modulus, so a wrapped
    intermediate result can be dropped under an outer conversion. *)
Lemma i64_eqm a b : a mod 2 ^ 64 = b mod 2 ^ 64 -> i64 a = i64 b.
Proof.
  intros H. unfold i64. rewrite Z.add_mod, H, <- Z.add_mod by lia. done.
Qed.
Lemma i64_mod a : i64 a mod 2 ^ 64 = a mod 2 ^ 64.
Proof.
  unfold i64. rewrite Zminus_mod_idemp_l. f_equal. lia.
Qed.
Lemma i64_add_l a b : i64 (i64 a + b) = i64 (a + b).
Proof. apply i64_eqm. rewrite <- Z.add_mod_idemp_l, i64_mod, Z.add_mod_idemp_l by lia. done. Qed.
Lemma i64_add_r a b : i64 (a + i64 b) = i64 (a + b).
Proof. rewrite Z.add_comm, i64_add_l, Z.add_comm. done. Qed.
Lemma i64_u64 a : i64 (u64 a) = i64 a.
Proof. apply i64_eqm. unfold u64. apply Z.mod_mod. lia. Qed.
Lemma u64_i64 a : u64 (i64 a) = u64 a.
Proof. apply i64_mod. Qed.
Lemma u64_u64 a : u64 (u64 a) = u64 a.
Proof. apply Z.mod_mod. lia. Qed.

Create HintDb width.
Create Rewrite HintDb width.
#[export] Hint Resolve in_u64_u64 in_u32_u32 in_u8_u8 in_i64_i64 : width.
#[export] Hint Rewrite i64_add_l i64_add_r i64_u64 u64_i64 u64_u64 : width.

(** ** Small list and option lemmas shared by the components *)

Lemma take_drop_app {A} n (l1 l2 : list A) :
  length l1 = n -> take n (l1 ++ l2) = l1 /\ drop n (l1 ++ l2) = l2.
Proof. intros <-. by rewrite take_app_length, drop_app_length. Qed.

Lemma Forall_take_drop {A} (P : A -> Prop) n l : Forall P l -> Forall P (take n l) /\ Forall P (drop n l).
Proof. split; [by apply Forall_take|by apply Forall_drop]. Qed.

(** Destruct every boolean comparison on [Z] in the goal or the context into its
    propositional form. *)
Ltac zbool :=
  repeat match goal with
  | H : context [Z.eqb ?a ?b] |- _ => destruct (Z.eqb_spec a b)
  | |- context [Z.eqb ?a ?b] => destruct (Z.eqb_spec a b)
  | H : context [Z.ltb ?a ?b] |- _ => destruct (Z.ltb_spec a b)
  | |- context [Z.ltb ?a ?b] => destruct (Z.ltb_spec a b)
  | H : context [Z.leb ?a ?b] |- _ => destruct (Z.leb_spec a b)
  | |- context [Z.leb ?a ?b] => destruct (Z.leb_spec a b)
  end.

(** Invert the result of a chain of [x ← m; k] binds that is known to be [Ok]. *)
Ltac bind_ok H :=
  repeat match type of H with
  | mbind _ ?m = Ok _ => let E := fresh "E" in destruct m eqn:E; cbn [mbind result_bind] in H; [|discriminate H]
  end.

Lemma StronglySorted_impl {A} (R S : A -> A -> Prop) l :
  (forall a b, R a b -> S a b) -> StronglySorted R l -> StronglySorted S l.
Proof.
  intros HRS. induction 1 as [|x l Hl IH Hx]; constructor; [done|].
  eapply Forall_impl; [done|]. auto.
Qed.

(** Two lists strictly sorted by the same order and with the same members are
    the same list. *)
Lemma StronglySorted_strict_unique {A} (R : A -> A -> Prop) (l1 l2 : list A) :
  (forall x y, R x y -> R y x -> False) ->
  StronglySorted R l1 -> StronglySorted R l2 -> (forall x, In x l1 <-> In x l2) -> l1 = l2.
Proof.
  intros Hasym H1. revert l2. induction H1 as [|a l1 H1 IH Ha]; intros l2 H2 Hin.
  - destruct l2 as [|b l2]; [done|]. by destruct (proj2 (Hin b) ltac:(by left)).
  - destruct H2 as [|b l2 H2 Hb]; [by destruct (proj1 (Hin a) ltac:(by left))|].
    rewrite Forall_forall in Ha, Hb.
    assert (Heq : a = b).
    { destruct (proj1 (Hin a) ltac:(by left)) as [->|Ha2%list_elem_of_In]; [done|].
      destruct (proj2 (Hin b) ltac:(by left)) as [->|Hb2%list_elem_of_In]; [done|].
      destruct (Hasym a b); [by apply Ha|by apply Hb]. }
    subst b. f_equal. apply IH; [done|]. intros x. specialize (Hin x). cbn in Hin.
    split; intros Hx; pose proof Hx as Hx'%list_elem_of_In.
    + destruct (proj1 Hin (or_intror Hx)) as [E|]; [subst x|done]. destruct (Hasym a a); apply Ha, Hx'.
    + destruct (proj2 Hin (or_intror Hx)) as [E|]; [subst x|done]. destruct (Hasym a a); apply Hb, Hx'.
Qed.

(** Keys that do not repeat tell the members apart. *)
Lemma NoDup_fmap_same {A B} (f : A -> B) l x y : NoDup (f <$> l) -> x ∈ l -> y ∈ l -> f x = f y -> x = y.
Proof.
  intros Hnd [i Hi]%list_elem_of_lookup [j Hj]%list_elem_of_lookup E. assert (i = j) as ->; [|congruence].
  eapply NoDup_lookup; [exact Hnd| |]; rewrite list_lookup_fmap; [by rewrite Hi|by rewrite Hj, E].
Qed.
(** A list strictly sorted on a key has no two members with the same key. *)
Lemma StronglySorted_strict_NoDup {A} (R : A -> A -> Prop) l :
  (forall x, ~ R x x) -> StronglySorted R l -> NoDup l.
Proof.
  intros Hirr. induction 1 as [|a l Hl IH Ha]; constructor; [|done].
  intros Hin. rewrite Forall_forall in Ha. by apply (Hirr a), Ha.
Qed.

Lemma StronglySorted_lookup {A} (R : A -> A -> Prop) l i j a b :
  StronglySorted R l -> (i < j)%nat -> l !! i = Some a -> l !! j = Some b -> R a b.
Proof.
  intros Hs. revert i j. induction Hs as [|x l Hl IH Hx]; intros i j Hij Hi Hj; [done|].
  destruct j as [|j]; [lia|]. destruct i as [|i]; cbn in *.
  - injection Hi as <-. rewrite Forall_forall in Hx. by eapply Hx, list_elem_of_lookup_2.
  - apply (IH i j); [lia|done..].
Qed.

Lemma default_Some_eq {A} (d a : A) : default d (Some a) = a.
Proof. done. Qed.

Lemma omap_ext_in {A B} (f g : A -> option B) (l : list A) : (forall x, x ∈ l -> f x = g x) -> omap f l = omap g l.
Proof.
  induction l as [|x l IH]; intros H; [done|]. cbn [omap list_omap]. rewrite (H x) by (by left).
  rewrite IH by (intros; apply H; by right). done.
Qed.
Lemma omap_none {A B} (f : A -> option B) (l : list A) : (forall x, x ∈ l -> f x = None) -> omap f l = [].
Proof.
  induction l as [|x l IH]; intros H; [done|]. cbn [omap list_omap]. rewrite (H x) by (by left).
  apply IH. intros; apply H; by right.
Qed.

(** ** Filters *)

Lemma filter_all {A} (P : A -> Prop) `{!forall x, Decision (P x)} l : Forall P l -> filter P l = l.
Proof. induction 1; [done|]. rewrite filter_cons_True by done. by f_equal. Qed.
Lemma filter_nothing {A} (P : A -> Prop) `{!forall x, Decision (P x)} l : Forall (fun x => ~ P x) l -> filter P l = [].
Proof. induction 1; [done|]. by rewrite filter_cons_False. Qed.
Lemma filter_sorted {A} (R : A -> A -> Prop) (P : A -> Prop) `{!forall x, Decision (P x)} l :
  StronglySorted R l -> StronglySorted R (filter P l).
Proof.
  induction 1 as [|x l Hl IH Hx]; [constructor|]. rewrite filter_cons. destruct (decide (P x)); [|done].
  constructor; [done|]. rewrite Forall_forall in *. intros y [_ Hy]%list_elem_of_filter. by apply Hx.
Qed.
Lemma filter_ext_in {A} (P1 P2 : A -> Prop) `{!forall x, Decision (P1 x), !forall x, Decision (P2 x)} (l : list A) :
  (forall x, x ∈ l -> P1 x <-> P2 x) -> filter P1 l = filter P2 l.
Proof.
  induction l as [|x l IH]; intros Hx; [done|]. rewrite !filter_cons, IH by (intros; apply Hx; by right).
  pose proof (Hx x (list_elem_of_here _ _)). destruct (decide (P1 x)), (decide (P2 x)); tauto.
Qed.
