(* ===== verification/GoLib.v ===== *)
(** * GoLib: the parts of Go's standard library the repository builds on

    Executable models of the functions of [encoding/binary], [math/bits], [sort]
    and of the conversions between strings and byte slices that the storage
    formats use, with the lemmas the components share. *)
From stdpp Require Import strings.
From S2P Require Import Prelude.

(** ** Byte slices *)

(** A byte is a [Z] in range; a [[]byte] is a [list Z]. *)
Definition byte_ok (b : Z) : Prop := in_u8 b.
Abbreviation bytes_ok := (Forall byte_ok).

Lemma bytes_ok_check l : forallb (fun b => (0 <=? b) && (b <? 256))%bool l = true -> bytes_ok l.
Proof.
  intros H. apply Forall_forall. intros b Hb%list_elem_of_In. apply (proj1 (forallb_forall _ _) H) in Hb. apply andb_true_iff in Hb as [H1 H2].
  unfold byte_ok, in_u8. change (2 ^ 8) with 256. lia.
Qed.
(** [binary.BigEndian.PutUintN]: the [n] low-order bytes of [v], high byte first. *)
Fixpoint be_bytes (n : nat) (v : Z) : list Z :=
  match n with
  | O => []
  | S k => (Z.shiftr v (8 * Z.of_nat k)) mod 256 :: be_bytes k v
  end.

(** [binary.BigEndian.UintN] on a slice of exactly the right length. *)
Definition be_val (l : list Z) : Z := fold_left (fun acc b => acc * 256 + b) l 0.

Lemma length_be_bytes n v : length (be_bytes n v) = n.
Proof. induction n; cbn; congruence. Qed.

Lemma be_bytes_ok n v : bytes_ok (be_bytes n v).
Proof.
  induction n; cbn; constructor; [|done].
  unfold byte_ok, in_u8. change (2 ^ 8) with 256. apply Z.mod_pos_bound. lia.
Qed.
#[export] Hint Resolve be_bytes_ok : width.

Lemma be_val_acc l acc : fold_left (fun acc b => acc * 256 + b) l acc
  = acc * 2 ^ (8 * Z.of_nat (length l)) + be_val l.
Proof.
  revert acc. unfold be_val. induction l as [|b l IH]; intros acc; cbn [fold_left length].
  - rewrite Z.mul_0_r. lia.
  - rewrite IH, (IH (0 * 256 + b)).
    replace (8 * Z.of_nat (S (length l))) with (8 + 8 * Z.of_nat (length l)) by lia.
    rewrite Z.pow_add_r by lia. change (2 ^ 8) with 256. ring.
Qed.

Lemma be_val_cons b l : be_val (b :: l) = b * 2 ^ (8 * Z.of_nat (length l)) + be_val l.
Proof. unfold be_val at 1. cbn [fold_left]. rewrite be_val_acc. lia. Qed.

Lemma be_val_range l : bytes_ok l -> 0 <= be_val l < 2 ^ (8 * Z.of_nat (length l)).
Proof.
  induction l as [|b l IH]; intros H; [cbn; lia|].
  inversion H as [|?? Hb Hl]; subst. rewrite be_val_cons. cbn [length].
  replace (8 * Z.of_nat (S (length l))) with (8 + 8 * Z.of_nat (length l)) by lia.
  rewrite Z.pow_add_r by lia. change (2 ^ 8) with 256 in *.
  unfold byte_ok, in_u8 in Hb. change (2 ^ 8) with 256 in Hb. specialize (IH Hl). nia.
Qed.

Lemma be_val_bytes n v : be_val (be_bytes n v) = v mod 2 ^ (8 * Z.of_nat n).
Proof.
  induction n as [|n IH]; cbn [be_bytes].
  - cbn. by rewrite Z.mod_1_r.
  - rewrite be_val_cons, IH, length_be_bytes.
    replace (8 * Z.of_nat (S n)) with (8 * Z.of_nat n + 8) by lia.
    rewrite Z.pow_add_r, (Z.rem_mul_r v (2 ^ (8 * Z.of_nat n)) (2 ^ 8)), Z.shiftr_div_pow2 by lia.
    change (2 ^ 8) with 256. ring.
Qed.

(** The reading of a big-endian field at the head of a longer slice. *)
Lemma be_val_take n v rest : be_val (take n (be_bytes n v ++ rest)) = v mod 2 ^ (8 * Z.of_nat n).
Proof. rewrite (proj1 (take_drop_app n _ _ (length_be_bytes n v))). apply be_val_bytes. Qed.
Lemma be_drop n v rest : drop n (be_bytes n v ++ rest) = rest.
Proof. apply (take_drop_app n), length_be_bytes. Qed.

Lemma be_val_take_full n v : be_val (take n (be_bytes n v)) = v mod 2 ^ (8 * Z.of_nat n).
Proof. rewrite take_ge by by rewrite length_be_bytes. apply be_val_bytes. Qed.

Lemma be_val_inj l1 l2 : bytes_ok l1 -> bytes_ok l2 -> length l1 = length l2 -> be_val l1 = be_val l2 -> l1 = l2.
Proof.
  revert l2. induction l1 as [|a l1 IH]; intros [|b l2] H1 H2 Hlen E; try done. apply Forall_cons in H1 as [Ha H1]. apply Forall_cons in H2 as [Hb H2].
  injection Hlen as Hlen. rewrite !be_val_cons, Hlen in E. pose proof (be_val_range l1 H1) as R1. pose proof (be_val_range l2 H2) as R2. rewrite Hlen in R1.
  set (k := 2 ^ (8 * Z.of_nat (length l2))) in *. assert (Hab : a = b) by nia. subst b. f_equal. apply IH; [done..|nia].
Qed.
Lemma be_bytes_val l : bytes_ok l -> be_bytes (length l) (be_val l) = l.
Proof.
  intros Hl. apply be_val_inj; [apply be_bytes_ok|done|apply length_be_bytes|]. rewrite be_val_bytes. apply Z.mod_small. by apply be_val_range.
Qed.


(** [b[pos : pos+n]] and what follows it, when the buffer is long enough. *)
Definition cut (n : nat) (b : list Z) : option (list Z * list Z) :=
  if (length b <? n)%nat then None else Some (take n b, drop n b).

Lemma cut_app n l rest : length l = n -> cut n (l ++ rest) = Some (l, rest).
Proof. intros <-. unfold cut. rewrite length_app. destruct (Nat.ltb_spec (length l + length rest) (length l)); [lia|]. by rewrite take_app_length, drop_app_length. Qed.
Lemma cut_some n b l rest : cut n b = Some (l, rest) -> b = l ++ rest /\ length l = n.
Proof.
  unfold cut. destruct (Nat.ltb_spec (length b) n); [done|]. intros [= <- <-]. rewrite take_drop, length_take. split; [done|lia].
Qed.

Lemma be_val_one x : be_val [x] = x.
Proof. cbn. lia. Qed.

(** ** Strings as byte slices *)

Definition str_bytes (s : string) : list Z :=
  map (fun a => Z.of_N (Ascii.N_of_ascii a)) (String.list_ascii_of_string s).
Definition bytes_str (l : list Z) : string :=
  String.string_of_list_ascii (map (fun b => Ascii.ascii_of_N (Z.to_N b)) l).
Definition str_len (s : string) : Z := Z.of_nat (String.length s).

Lemma str_bytes_cons a s : str_bytes (String a s) = Z.of_N (Ascii.N_of_ascii a) :: str_bytes s.
Proof. done. Qed.
Lemma length_str_bytes s : length (str_bytes s) = String.length s.
Proof. induction s; [done|]. rewrite str_bytes_cons. cbn. by rewrite IHs. Qed.
Lemma str_bytes_ok s : bytes_ok (str_bytes s).
Proof.
  induction s as [|a s IH]; [constructor|]. rewrite str_bytes_cons. constructor; [|done].
  unfold byte_ok, in_u8. pose proof (Ascii.N_ascii_bounded a). change (2 ^ 8) with 256. lia.
Qed.
#[export] Hint Resolve str_bytes_ok : width.
Lemma bytes_str_bytes s : bytes_str (str_bytes s) = s.
Proof.
  induction s as [|a s IH]; [done|]. rewrite str_bytes_cons. unfold bytes_str in *. cbn.
  by rewrite N2Z.id, Ascii.ascii_N_embedding, IH.
Qed.
Lemma str_bytes_str l : bytes_ok l -> str_bytes (bytes_str l) = l.
Proof.
  induction 1 as [|b l Hb Hl IH]; [done|]. unfold bytes_str in *. cbn [map String.string_of_list_ascii].
  rewrite str_bytes_cons, IH. f_equal. unfold byte_ok, in_u8 in Hb. change (2 ^ 8) with 256 in Hb.
  rewrite Ascii.N_ascii_embedding by lia. lia.
Qed.
Lemma str_bytes_inj s t : str_bytes s = str_bytes t -> s = t.
Proof. intros H. rewrite <- (bytes_str_bytes s), H. apply bytes_str_bytes. Qed.

(** ** Bit arithmetic *)

(** Or-ing in a value shifted past every set bit of the accumulator is addition. *)
Lemma lor_shiftl_add x y s : 0 <= s -> 0 <= x < 2 ^ s -> Z.lor x (Z.shiftl y s) = x + y * 2 ^ s.
Proof.
  intros Hs Hx. rewrite <- Z.shiftl_mul_pow2, <- Z.add_lor_land by done.
  enough (Z.land x (Z.shiftl y s) = 0) by lia.
  apply Z.bits_inj'. intros i Hi. rewrite Z.land_spec, Z.bits_0.
  destruct (Z.lt_ge_cases i s).
  - rewrite Z.shiftl_spec_low by done. apply andb_false_r.
  - rewrite <- (Z.mod_small x (2 ^ s)) by done. rewrite Z.mod_pow2_bits_high by lia. done.
Qed.

(** ** [encoding/binary] varints *)

Definition MaxVarintLen64 : nat := 10.

(** [binary.PutUvarint]: the bytes written for [x]. *)
Fixpoint put_uvarint_go (fuel : nat) (x : Z) : list Z :=
  match fuel with
  | O => []
  | S f => if x <? 128 then [u8 x] else Z.lor (u8 x mod 128) 128 :: put_uvarint_go f (Z.shiftr x 7)
  end.
Definition PutUvarint (x : Z) : list Z := put_uvarint_go MaxVarintLen64 x.

(** [binary.Uvarint]: (value, bytes read); no byte read means the buffer was too
    short, a negative count that the value overflows 64 bits. *)
Fixpoint uvarint_go (buf : list Z) (i : nat) (x s : Z) : Z * Z :=
  match buf with
  | [] => (0, 0)
  | b :: rest =>
      if (i =? MaxVarintLen64)%nat then (0, - (Z.of_nat i + 1))
      else if b <? 128 then
        if ((i =? MaxVarintLen64 - 1)%nat && (1 <? b))%bool then (0, - (Z.of_nat i + 1))
        else (Z.lor x (u64 (Z.shiftl b s)), Z.of_nat i + 1)
      else uvarint_go rest (S i) (Z.lor x (u64 (Z.shiftl (Z.land b 127) s))) (s + 7)
  end.
Definition Uvarint (buf : list Z) : Z * Z := uvarint_go buf 0 0 0.

(** [binary.PutVarint] and [binary.Varint]: zig-zag over the unsigned form. *)
Definition PutVarint (x : Z) : list Z :=
  let ux := u64 (Z.shiftl (u64 x) 1) in
  PutUvarint (if x <? 0 then u64 (Z.lnot ux) else ux).
Definition Varint (buf : list Z) : Z * Z :=
  let '(ux, n) := Uvarint buf in
  let x := i64 (Z.shiftr ux 1) in
  (if Z.land ux 1 =? 0 then x else Z.lnot x, n).

Lemma lor_128 x : 0 <= x < 128 -> Z.lor x 128 = x + 128.
Proof. intros. change 128 with (Z.shiftl 1 7) at 1. rewrite lor_shiftl_add by lia. lia. Qed.

Lemma land_127 b : Z.land b 127 = b mod 128.
Proof. change 127 with (Z.ones 7). rewrite Z.land_ones by lia. done. Qed.

Lemma put_uvarint_go_ok f x : 0 <= x -> bytes_ok (put_uvarint_go f x).
Proof.
  revert x. induction f as [|f IH]; intros x Hx; cbn; [constructor|].
  destruct (Z.ltb_spec x 128).
  - constructor; [|constructor]. apply in_u8_u8.
  - constructor; [|apply IH; rewrite Z.shiftr_div_pow2 by lia; apply Z.div_pos; lia].
    unfold byte_ok, in_u8. pose proof (Z.mod_pos_bound (u8 x) 128).
    rewrite lor_128 by lia. change (2 ^ 8) with 256. lia.
Qed.
Lemma PutUvarint_ok x : 0 <= x -> bytes_ok (PutUvarint x).
Proof. apply put_uvarint_go_ok. Qed.
Lemma PutVarint_ok x : bytes_ok (PutVarint x).
Proof. apply PutUvarint_ok. destruct (x <? 0); apply in_u64_u64. Qed.
#[export] Hint Resolve PutVarint_ok : width.

(** The decoder undoes the encoder in the middle of the loop: [i] bytes read,
    [x] accumulated so far, [y] still to come. *)
Lemma uvarint_go_put f i x s y rest :
  (f + i = 10)%nat -> s = 7 * Z.of_nat i -> 0 <= x < 2 ^ s -> 0 <= y -> x + y * 2 ^ s < 2 ^ 64 -> (0 < f)%nat ->
  uvarint_go (put_uvarint_go f y ++ rest) i x s
  = (x + y * 2 ^ s, Z.of_nat i + Z.of_nat (length (put_uvarint_go f y))).
Proof.
  revert i x s y. induction f as [|f IH]; intros i x s y Hfi -> Hx Hy Hov Hf; [lia|].
  set (s := 7 * Z.of_nat i) in *. cbn [put_uvarint_go].
  assert (Hs0 : 0 <= s) by lia.
  assert (Hs : 0 < 2 ^ s) by (apply Z.pow_pos_nonneg; lia).
  destruct (Z.ltb_spec y 128) as [Hlt|Hge]; cbn [app uvarint_go length].
  - rewrite u8_id by (unfold in_u8; change (2^8) with 256; lia).
    destruct (Nat.eqb_spec i MaxVarintLen64) as [E|_]; [unfold MaxVarintLen64 in E; lia|].
    rewrite (proj2 (Z.ltb_lt y 128) Hlt).
    assert (((i =? MaxVarintLen64 - 1)%nat && (1 <? y))%bool = false) as ->.
    { destruct (Nat.eqb_spec i (MaxVarintLen64 - 1)) as [E|]; [|done].
      cbn. apply Z.ltb_ge. unfold MaxVarintLen64 in E.
      assert (Hs63 : s = 63) by (subst s; lia). rewrite Hs63 in Hov, Hx. lia. }
    rewrite u64_id. 2:{ unfold in_u64. rewrite Z.shiftl_mul_pow2 by lia. assert (0 <= y * 2 ^ s) by nia. lia. }
    rewrite lor_shiftl_add by lia.
    f_equal.
  - assert (Hu8 : u8 y mod 128 = y mod 128).
    { unfold u8. change (2 ^ 8) with (128 * 2). rewrite Z.rem_mul_r by lia.
      rewrite Z.mul_comm, Z.mod_add by lia. apply Z.mod_mod. lia. }
    rewrite Hu8, lor_128 by (apply Z.mod_pos_bound; lia).
    pose proof (Z.mod_pos_bound y 128). pose proof (Z.div_mod y 128).
    assert (Hi10 : (f <> 0)%nat).
    { intros ->. assert (i = 9%nat) by lia. subst i s. cbn in Hov, Hx. lia. }
    destruct (Nat.eqb_spec i MaxVarintLen64) as [E|_]; [unfold MaxVarintLen64 in E; lia|].
    destruct (Z.ltb_spec (y mod 128 + 128) 128); [lia|].
    rewrite land_127. replace (y mod 128 + 128) with (y mod 128 + 1 * 128) by lia.
    rewrite Z.mod_add, Z.mod_mod by lia.
    assert (Hdv : 0 <= y / 128) by (apply Z.div_pos; lia).
    assert (Hsplit : x + y * 2 ^ s = x + (y mod 128) * 2 ^ s + y / 128 * 2 ^ (s + 7)).
    { rewrite Z.pow_add_r by lia. change (2 ^ 7) with 128. nia. }
    assert (0 < 2 ^ (s + 7)) by (apply Z.pow_pos_nonneg; lia).
    rewrite u64_id.
    2:{ unfold in_u64. rewrite Z.shiftl_mul_pow2 by lia. assert (0 <= (y mod 128) * 2 ^ s) by nia.
        assert (0 <= y / 128 * 2 ^ (s + 7)) by nia. lia. }
    rewrite lor_shiftl_add by lia.
    rewrite Z.shiftr_div_pow2 by lia. change (2 ^ 7) with 128.
    rewrite IH; try lia.
    + f_equal; lia.
    + split; [nia|]. rewrite Z.pow_add_r by lia. change (2 ^ 7) with 128.
      assert (y mod 128 * 2 ^ s <= 127 * 2 ^ s) by (apply Z.mul_le_mono_nonneg_r; lia). lia.
Qed.

Lemma Uvarint_PutUvarint x rest : in_u64 x ->
  Uvarint (PutUvarint x ++ rest) = (x, Z.of_nat (length (PutUvarint x))).
Proof.
  intros [Hx0 Hx]. unfold Uvarint, PutUvarint.
  rewrite uvarint_go_put by (change (2 ^ 0) with 1; unfold MaxVarintLen64; lia).
  f_equal; lia.
Qed.

Lemma PutUvarint_pos x : (0 < length (PutUvarint x))%nat.
Proof. unfold PutUvarint, MaxVarintLen64. cbn. destruct (x <? 128); cbn; lia. Qed.

(** Zig-zag at 64 bits, in the form both varints and the chunk format use. *)
Lemma Varint_PutVarint x rest : in_i64 x ->
  Varint (PutVarint x ++ rest) = (x, Z.of_nat (length (PutVarint x))).
Proof.
  intros Hx. unfold Varint, PutVarint.
  assert (Hux : u64 (Z.shiftl (u64 x) 1) = (2 * x) mod 2 ^ 64).
  { rewrite Z.shiftl_mul_pow2 by lia. unfold u64. rewrite Zmult_mod_idemp_l. f_equal. lia. }
  rewrite Hux. change (Z.land ?a 1) with (Z.land a (Z.ones 1)).
  destruct (Z.ltb_spec x 0).
  - assert (Hm : (2 * x) mod 2 ^ 64 = 2 * x + 2 ^ 64).
    { symmetry. apply (Z.mod_unique_pos _ _ (-1)); wsolve. }
    assert (Hv : u64 (Z.lnot ((2 * x) mod 2 ^ 64)) = - 2 * x - 1).
    { rewrite Hm. unfold Z.lnot, u64. symmetry. apply (Z.mod_unique_pos _ _ (-1)); wsolve. }
    rewrite Hv, Uvarint_PutUvarint by wsolve.
    rewrite Z.shiftr_div_pow2, Z.land_ones by lia. change (2 ^ 1) with 2.
    assert ((- 2 * x - 1) mod 2 = 1) as -> by (symmetry; apply (Z.mod_unique_pos _ _ (- x - 1)); lia).
    assert ((- 2 * x - 1) / 2 = - x - 1) as -> by (symmetry; apply (Z.div_unique_pos _ _ _ 1); lia).
    cbn. rewrite i64_id by wsolve. f_equal. unfold Z.lnot. lia.
  - assert ((2 * x) mod 2 ^ 64 = 2 * x) as -> by (apply Z.mod_small; wsolve).
    rewrite Uvarint_PutUvarint by wsolve.
    rewrite Z.shiftr_div_pow2, Z.land_ones by lia. change (2 ^ 1) with 2.
    rewrite (Z.mul_comm 2 x), Z.div_mul, Z.mod_mul by lia. cbn. by rewrite i64_id.
Qed.
Lemma PutVarint_pos x : (0 < length (PutVarint x))%nat.
Proof. apply PutUvarint_pos. Qed.

Lemma uvarint_go_nonneg buf i x s : 0 <= x -> 0 <= fst (uvarint_go buf i x s).
Proof.
  revert i x s. induction buf as [|b buf IH]; intros i x s Hx; cbn; [done|].
  destruct (_ =? _)%nat; [done|]. destruct (b <? 128).
  - destruct (_ && _)%bool; [done|]. cbn. apply Z.lor_nonneg. split; [done|apply in_u64_u64].
  - apply IH, Z.lor_nonneg. split; [done|apply in_u64_u64].
Qed.
Lemma Uvarint_nonneg buf : 0 <= fst (Uvarint buf).
Proof. by apply uvarint_go_nonneg. Qed.

(** ** [hash/fnv] *)

Definition fnv64_offset : Z := 14695981039346656037.
Definition fnv64_prime : Z := 1099511628211.
Definition fnv64a_from (h : Z) (data : list Z) : Z := fold_left (fun h b => u64 (Z.lxor h b * fnv64_prime)) data h.
Definition fnv64a (data : list Z) : Z := fnv64a_from fnv64_offset data.
Definition fnv32_offset : Z := 2166136261.
Definition fnv32_prime : Z := 16777619.
Definition fnv32a (data : list Z) : Z := fold_left (fun h b => u32 (Z.lxor h b * fnv32_prime)) data fnv32_offset.

Lemma fnv64a_in data : in_u64 (fnv64a data).
Proof.
  unfold fnv64a, fnv64a_from. destruct data as [|b data] using rev_ind; [cbn [fold_left]; unfold fnv64_offset; wsolve|].
  rewrite fold_left_app. apply in_u64_u64.
Qed.

(** ** [unicode/utf8] *)

(** [utf8.ValidString]: no surrogates, no overlong forms, nothing past U+10FFFF. *)
Fixpoint utf8_valid_go (fuel : nat) (l : list Z) : bool :=
  let cont b := ((128 <=? b) && (b <=? 191))%bool in
  match fuel with
  | O => true
  | S f =>
      match l with
      | [] => true
      | b0 :: r0 =>
          if b0 <? 128 then utf8_valid_go f r0
          else match r0 with
          | [] => false
          | b1 :: r1 =>
              if ((194 <=? b0) && (b0 <=? 223))%bool then cont b1 && utf8_valid_go f r1
              else match r1 with
              | [] => false
              | b2 :: r2 =>
                  if b0 =? 224 then (160 <=? b1) && (b1 <=? 191) && cont b2 && utf8_valid_go f r2
                  else if b0 =? 237 then (128 <=? b1) && (b1 <=? 159) && cont b2 && utf8_valid_go f r2
                  else if ((225 <=? b0) && (b0 <=? 239))%bool then cont b1 && cont b2 && utf8_valid_go f r2
                  else match r2 with
                  | [] => false
                  | b3 :: r3 =>
                      if b0 =? 240 then (144 <=? b1) && (b1 <=? 191) && cont b2 && cont b3 && utf8_valid_go f r3
                      else if ((241 <=? b0) && (b0 <=? 243))%bool then cont b1 && cont b2 && cont b3 && utf8_valid_go f r3
                      else if b0 =? 244 then (128 <=? b1) && (b1 <=? 143) && cont b2 && cont b3 && utf8_valid_go f r3
                      else false
                  end
              end
          end
      end
  end%bool.
Definition utf8_ValidString (s : string) : bool := utf8_valid_go (S (String.length s)) (str_bytes s).
