(* ===== verification/GoSort.v ===== *)
(** * GoSort: Go's [sort] package

    [sort.Search] as the binary search it is, and [sort.SliceStable] as a stable
    insertion sort: for a strict weak order the stable result is unique, so any
    stable algorithm has it. *)
From S2P Require Import Prelude.

(** ** [sort.Search] *)

(** [func Search(n int, f func(int) bool) int]: [i], [j] bracket the answer. *)
Fixpoint search_go (fuel : nat) (f : nat -> bool) (i j : nat) : nat :=
  match fuel with
  | O => i
  | S k =>
      if (i <? j)%nat then
        let h := ((i + j) / 2)%nat in
        if f h then search_go k f i h else search_go k f (S h) j
      else i
  end.
Definition Search (n : nat) (f : nat -> bool) : nat := search_go n f 0 n.

Lemma search_go_spec fuel f i j n :
  (j - i <= fuel)%nat -> (i <= j <= n)%nat ->
  (forall a b, (a <= b < n)%nat -> f a = true -> f b = true) ->
  (forall k, (k < i)%nat -> f k = false) -> (forall k, (j <= k < n)%nat -> f k = true) ->
  let r := search_go fuel f i j in
  (r <= n)%nat /\ (forall k, (k < r)%nat -> f k = false) /\ (forall k, (r <= k < n)%nat -> f k = true).
Proof.
  intros Hfuel Hij Hmono. revert i j Hfuel Hij.
  induction fuel as [|fuel IH]; intros i j Hfuel Hij Hlo Hhi; cbn [search_go].
  - assert (i = j) as -> by lia. split; [lia|by split].
  - destruct (Nat.ltb_spec i j) as [Hlt|Hge].
    2:{ assert (i = j) as -> by lia. split; [lia|by split]. }
    assert (Hh : (i <= (i + j) / 2 < j)%nat)
      by (split; [apply Nat.div_le_lower_bound | apply Nat.div_lt_upper_bound]; lia).
    generalize dependent ((i + j) / 2)%nat. intros h Hh. destruct (f h) eqn:Hf; apply IH; try lia; try done.
    + intros k Hk. apply (Hmono h); [lia|done].
    + intros k Hk. destruct (f k) eqn:Hfk; [|done].
      rewrite <- Hf. symmetry. apply (Hmono k); [lia|done].
Qed.

(** With a predicate that stays true once true, [Search] returns the least index
    where it holds, [n] when there is none. *)
Lemma Search_spec n f :
  (forall a b, (a <= b < n)%nat -> f a = true -> f b = true) ->
  let r := Search n f in
  (r <= n)%nat /\ (forall k, (k < r)%nat -> f k = false) /\ (forall k, (r <= k < n)%nat -> f k = true).
Proof. intros Hm. apply search_go_spec; try done; lia. Qed.

(** [Search] over a slice whose elements are split by a predicate. *)
Definition SearchList {A} (p : A -> bool) (l : list A) : nat :=
  Search (length l) (fun i => match l !! i with Some x => p x | None => true end).

Lemma SearchList_split {A} (p : A -> bool) (l1 l2 : list A) :
  Forall (fun x => p x = false) l1 -> Forall (fun x => p x = true) l2 ->
  SearchList p (l1 ++ l2) = length l1.
Proof.
  intros H1 H2. unfold SearchList. set (f := fun i => _).
  assert (Hlo : forall k, (k < length l1)%nat -> f k = false).
  { intros k Hk. unfold f. rewrite lookup_app_l by done.
    destruct (lookup_lt_is_Some_2 l1 k Hk) as [x Hx]. rewrite Hx.
    by apply (Forall_lookup_1 _ _ _ _ H1 Hx). }
  assert (Hhi : forall k, (length l1 <= k)%nat -> f k = true).
  { intros k Hk. unfold f. rewrite lookup_app_r by done.
    destruct (l2 !! _) eqn:Hx; [|done]. by apply (Forall_lookup_1 _ _ _ _ H2 Hx). }
  destruct (Search_spec (length (l1 ++ l2)) f) as (Hle & Hl & Hr).
  { intros a b Hab Ha. destruct (decide (length l1 <= b)%nat); [by apply Hhi|].
    rewrite Hlo in Ha by lia. done. }
  set (r := Search _ f) in *. rewrite length_app in *.
  destruct (lt_eq_lt_dec r (length l1)) as [[Hlt|Heq]|Hgt]; [|done|].
  - pose proof (Hr r ltac:(lia)) as Ht. by rewrite Hlo in Ht.
  - pose proof (Hl (length l1) Hgt) as Ht. by rewrite Hhi in Ht by lia.
Qed.

(** ** [sort.SliceStable] *)

Section SliceStable.
Context {A : Type} (less : A -> A -> bool).

Fixpoint insert_stable (x : A) (l : list A) : list A :=
  match l with
  | [] => [x]
  | y :: l' => if less y x then y :: insert_stable x l' else x :: l
  end.
Definition SliceStable (l : list A) : list A := foldr insert_stable [] l.

Lemma insert_stable_perm x l : insert_stable x l ≡ₚ x :: l.
Proof.
  induction l as [|y l IH]; cbn; [done|]. destruct (less y x); [|done].
  rewrite IH. apply perm_swap.
Qed.
Lemma SliceStable_perm l : SliceStable l ≡ₚ l.
Proof. induction l as [|x l IH]; [done|].
  change (SliceStable (x :: l)) with (insert_stable x (SliceStable l)). by rewrite insert_stable_perm, IH. Qed.

Lemma SliceStable_length l : length (SliceStable l) = length l.
Proof. apply Permutation_length, SliceStable_perm. Qed.

(** Ordering: no later element is less than an earlier one. *)
Definition not_after (a b : A) : Prop := less b a = false.

Context (less_asym : forall a b, less a b = true -> less b a = false)
        (not_less_trans : forall a b c, less b a = false -> less c b = false -> less c a = false).

Lemma insert_stable_sorted x l :
  StronglySorted not_after l -> StronglySorted not_after (insert_stable x l).
Proof.
  induction 1 as [|y l Hl IH Hy]; cbn; [repeat constructor|].
  destruct (less y x) eqn:E; constructor; try done.
  - rewrite insert_stable_perm. constructor; [by apply less_asym|done].
  - by constructor.
  - constructor; [done|]. eapply Forall_impl; [done|]. intros z Hz.
    by apply (not_less_trans _ y).
Qed.
Lemma SliceStable_sorted l : StronglySorted not_after (SliceStable l).
Proof. induction l; [constructor|by apply insert_stable_sorted]. Qed.

(** A slice already in order is left alone. *)
Lemma SliceStable_id l : StronglySorted not_after l -> SliceStable l = l.
Proof.
  induction 1 as [|y l Hl IH Hy]; [done|].
  change (SliceStable (y :: l)) with (insert_stable y (SliceStable l)). rewrite IH.
  destruct l as [|z l]; [done|]. cbn. inversion Hy as [|?? Hz]; subst.
  by rewrite Hz.
Qed.

(** Stability: the elements of one equivalence class keep their order. *)
Lemma insert_stable_filter (P : A -> Prop) `{!forall x, Decision (P x)} x l :
  (forall y, P x -> P y -> less y x = false) ->
  filter P (insert_stable x l) = filter P (x :: l).
Proof.
  intros HP. induction l as [|y l IH]; cbn [insert_stable]; [done|].
  destruct (less y x) eqn:E; [|done].
  rewrite filter_cons, IH, !filter_cons. repeat case_decide; try done.
  rewrite HP in E by done. done.
Qed.
Lemma SliceStable_filter (P : A -> Prop) `{!forall x, Decision (P x)} l :
  (forall x y, P x -> P y -> less y x = false) ->
  filter P (SliceStable l) = filter P l.
Proof.
  intros HP. induction l as [|x l IH]; [done|].
  change (SliceStable (x :: l)) with (insert_stable x (SliceStable l)).
  rewrite insert_stable_filter by auto. by rewrite !filter_cons, IH.
Qed.
End SliceStable.

(** Sorting by an integer key, the shape nearly every call in the repository has. *)
Definition less_by {A} (key : A -> Z) (a b : A) : bool := key a <? key b.
Definition sort_by {A} (key : A -> Z) : list A -> list A := SliceStable (less_by key).
Definition key_le {A} (key : A -> Z) (a b : A) : Prop := key a <= key b.
Definition key_lt {A} (key : A -> Z) (a b : A) : Prop := key a < key b.

Section sort_by.
Context {A : Type} (key : A -> Z).

Lemma sort_by_perm l : sort_by key l ≡ₚ l.
Proof. apply SliceStable_perm. Qed.
Lemma sort_by_sorted l : StronglySorted (key_le key) (sort_by key l).
Proof.
  eapply StronglySorted_impl; [|apply (SliceStable_sorted (less_by key))];
    unfold not_after, less_by, key_le; intros; lia.
Qed.
Lemma sort_by_id l : StronglySorted (key_le key) l -> sort_by key l = l.
Proof.
  intros H. apply SliceStable_id. eapply StronglySorted_impl; [|exact H].
  unfold not_after, less_by, key_le. intros; lia.
Qed.
Lemma sort_by_filter k l : filter (fun x => key x = k) (sort_by key l) = filter (fun x => key x = k) l.
Proof. apply SliceStable_filter. unfold less_by. intros; lia. Qed.
End sort_by.

(** ** Strings: Go compares them bytewise *)

Definition str_lt (a b : string) : Prop := String.ltb a b = true.

Lemma str_compare_le a b : String.leb a b = negb (String.ltb b a).
Proof.
  unfold String.leb, String.ltb. rewrite (String.compare_antisym a b).
  by destruct (String.compare b a).
Qed.
Lemma str_lt_irrefl a : ~ str_lt a a.
Proof.
  unfold str_lt, String.ltb. assert (String.compare a a = Eq) as ->; [|done].
  induction a as [|c a IH]; cbn; [done|]. unfold Ascii.compare. by rewrite N.compare_refl.
Qed.
Lemma str_lt_total a b : str_lt a b \/ a = b \/ str_lt b a.
Proof.
  unfold str_lt, String.ltb. rewrite (String.compare_antisym a b).
  destruct (String.compare b a) eqn:E; cbn; [|by auto..]. apply String.compare_eq_iff in E as ->. auto.
Qed.
Lemma str_not_lt a b : String.ltb a b = false <-> String.le b a.
Proof. unfold String.le. rewrite str_compare_le. by destruct (String.ltb a b). Qed.
Lemma str_lt_flip a b : str_lt a b -> String.ltb b a = false.
Proof.
  unfold str_lt, String.ltb. rewrite (String.compare_antisym a b). by destruct (String.compare b a).
Qed.
Lemma str_lt_le a b : str_lt a b <-> String.le a b /\ a <> b.
Proof.
  split.
  - intros H. split; [by apply str_not_lt, str_lt_flip|intros ->; by apply str_lt_irrefl in H].
  - intros [H Hne]. destruct (str_lt_total a b) as [|[->|Hb]]; [done..|].
    apply str_not_lt in H. unfold str_lt in Hb. congruence.
Qed.
Lemma str_lt_trans a b c : str_lt a b -> str_lt b c -> str_lt a c.
Proof.
  rewrite !str_lt_le. intros [H1 H2] [H3 H4]. split; [by transitivity b|]. intros ->.
  apply H2, (anti_symm String.le); done.
Qed.
Lemma str_lt_asym a b : str_lt a b -> str_lt b a -> False.
Proof. intros H1 H2. exact (str_lt_irrefl a (str_lt_trans _ _ _ H1 H2)). Qed.

(** [sort.Slice] on distinct string keys: the result is strictly sorted and does
    not depend on the order of the input. *)
Section sort_str.
Context {A : Type} (key : A -> string).
Definition str_less (a b : A) : bool := String.ltb (key a) (key b).
Definition sort_str (l : list A) : list A := SliceStable str_less l.
Definition str_key_lt (a b : A) : Prop := str_lt (key a) (key b).

Lemma sort_str_perm l : sort_str l ≡ₚ l.
Proof. apply SliceStable_perm. Qed.
Lemma sort_str_weak l : StronglySorted (fun a b => String.le (key a) (key b)) (sort_str l).
Proof.
  eapply StronglySorted_impl; [|apply (SliceStable_sorted str_less)].
  - intros a b. apply str_not_lt.
  - unfold str_less. intros a b H. apply not_true_iff_false. intros H2. by eapply str_lt_asym.
  - unfold str_less. intros a b c. rewrite !str_not_lt. intros H1 H2. by transitivity (key b).
Qed.
Lemma sort_str_sorted l : NoDup (key <$> l) -> StronglySorted str_key_lt (sort_str l).
Proof.
  intros Hnd. rewrite <- (sort_str_perm l) in Hnd. pose proof (sort_str_weak l) as Hs.
  induction Hs as [|a l' Hl' IH Ha]; constructor; rewrite fmap_cons in Hnd; apply NoDup_cons in Hnd as [Hna Hnd]; [by apply IH|].
  rewrite Forall_forall in *. intros b Hb. unfold str_key_lt. rewrite str_lt_le. split; [by apply Ha|].
  intros E. apply Hna. rewrite E. by apply list_elem_of_fmap_2.
Qed.
Lemma str_key_NoDup l : StronglySorted str_key_lt l -> NoDup (key <$> l).
Proof.
  induction 1 as [|a l _ IH Ha]; [constructor|]. rewrite fmap_cons. constructor; [|done]. intros (b & E & Hb)%list_elem_of_fmap. rewrite Forall_forall in Ha. specialize (Ha b Hb). unfold str_key_lt in Ha. rewrite <- E in Ha. by apply (str_lt_asym (key a) (key a)).
Qed.
Lemma sort_str_unique l l' : NoDup (key <$> l) -> StronglySorted str_key_lt l' -> (forall x, In x l <-> In x l') ->
  sort_str l = l'.
Proof.
  intros Hnd Hs Hin. apply (StronglySorted_strict_unique str_key_lt); [|by apply sort_str_sorted|done|].
  - intros x y. apply str_lt_asym.
  - intros x. rewrite <- Hin. split; apply Permutation_in; [|symmetry]; apply sort_str_perm.
Qed.
End sort_str.

(** [Search] never leaves its range, whatever the predicate. *)
Lemma search_go_le fuel f i j : (i <= j)%nat -> (search_go fuel f i j <= j)%nat.
Proof.
  revert i j. induction fuel as [|fuel IH]; intros i j Hij; cbn [search_go]; [done|].
  destruct (Nat.ltb_spec i j); [|lia].
  assert (Hh : (i <= (i + j) / 2 < j)%nat)
    by (split; [apply Nat.div_le_lower_bound | apply Nat.div_lt_upper_bound]; lia).
  destruct (f _); [etransitivity; [apply IH; lia|lia]|apply IH; lia].
Qed.
