(* ===== verification/Bits.v ===== *)
(** * Bits: the bit stream of a metrics chunk

    [bitsWriter] and [bitsReader] of [internal/storage/chunk/chunk.go]. The
    abstract view of both is a list of booleans, most significant bit first:
    writing appends to it, reading takes from its front. *)
From S2P Require Import Prelude GoLib.

(** ** The writer *)

Record bitsWriter := mkWriter { w_buf : list Z; w_cur : Z; w_nBits : Z }.
Definition emptyWriter : bitsWriter := mkWriter [] 0 0.

Definition writeBit (w : bitsWriter) (b : Z) : bitsWriter :=
  let cur := if b =? 0 then w_cur w else Z.lor (w_cur w) (u8 (Z.shiftl 1 (7 - w_nBits w))) in
  let n := w_nBits w + 1 in
  if n =? 8 then mkWriter (w_buf w ++ [cur]) 0 0 else mkWriter (w_buf w) cur n.

(** [for i := n-1; i >= 0; i--]: the counter is the number of bits still to write. *)
Fixpoint writeBits_go (w : bitsWriter) (val : Z) (n : nat) : bitsWriter :=
  match n with
  | O => w
  | S i => writeBits_go (writeBit w (u8 (Z.land (Z.shiftr val (Z.of_nat i)) 1))) val i
  end.
Definition writeBits (w : bitsWriter) (val n : Z) : bitsWriter :=
  if n =? 0 then w else writeBits_go w val (Z.to_nat n).

Definition writer_bytes (w : bitsWriter) : list Z :=
  if w_nBits w =? 0 then w_buf w else w_buf w ++ [w_cur w].

(** ** The reader *)

Inductive ioErr := EOF.

Record bitsReader := mkReader { r_buf : list Z; r_pos : nat; r_cur : Z; r_nBits : Z }.
Definition newBitsReader (buf : list Z) : bitsReader := mkReader buf 0 0 0.

(** The reload of [readBit]: take the next byte once the current one is used up. *)
Definition loadByte (r : bitsReader) : result ioErr bitsReader :=
  if r_nBits r =? 0 then
    match r_buf r !! r_pos r with
    | None => Err EOF
    | Some c => Ok (mkReader (r_buf r) (S (r_pos r)) c 8)
    end
  else Ok r.

Definition readBit (r : bitsReader) : result ioErr (Z * bitsReader) :=
  r ← loadByte r;
  let b := Z.land (Z.shiftr (r_cur r) 7) 1 in
  Ok (b, mkReader (r_buf r) (r_pos r) (u8 (Z.shiftl (r_cur r) 1)) (r_nBits r - 1)).

Fixpoint readBits_go (r : bitsReader) (val : Z) (n : nat) : result ioErr (Z * bitsReader) :=
  match n with
  | O => Ok (val, r)
  | S k =>
      '(b, r) ← readBit r;
      readBits_go r (Z.lor (u64 (Z.shiftl val 1)) b) k
  end.
Definition readBits (r : bitsReader) (n : Z) : result ioErr (Z * bitsReader) :=
  readBits_go r 0 (Z.to_nat (if 64 <? n then 64 else n)).

(** ** The abstract view *)

(** The [n] low bits of [v], most significant first. *)
Fixpoint zbits (n : nat) (v : Z) : list bool :=
  match n with
  | O => []
  | S k => Z.testbit v (Z.of_nat k) :: zbits k v
  end.
Definition byte_bits (b : Z) : list bool := zbits 8 b.

Definition writer_bits (w : bitsWriter) : list bool :=
  (w_buf w ≫= byte_bits) ++ take (Z.to_nat (w_nBits w)) (byte_bits (w_cur w)).
Definition writer_wf (w : bitsWriter) : Prop :=
  bytes_ok (w_buf w) /\ 0 <= w_nBits w < 8 /\ 0 <= w_cur w /\
  (forall i, 8 <= i -> Z.testbit (w_cur w) i = false) /\
  (forall i, i < 8 - w_nBits w -> Z.testbit (w_cur w) i = false).

Definition reader_bits (r : bitsReader) : list bool :=
  take (Z.to_nat (r_nBits r)) (byte_bits (r_cur r)) ++ (drop (r_pos r) (r_buf r) ≫= byte_bits).
Definition reader_wf (r : bitsReader) : Prop :=
  bytes_ok (r_buf r) /\ 0 <= r_nBits r <= 8.

Lemma length_zbits n v : length (zbits n v) = n.
Proof. induction n; cbn; congruence. Qed.

Lemma zbits_ext n v w : (forall i, 0 <= i < Z.of_nat n -> Z.testbit v i = Z.testbit w i) -> zbits n v = zbits n w.
Proof. induction n as [|n IH]; intros H; cbn; [done|]. f_equal; [apply H; lia|apply IH; intros; apply H; lia]. Qed.

Lemma drop_zbits k n v : drop k (zbits n v) = zbits (n - k) v.
Proof.
  revert k. induction n as [|n IH]; intros k; [by destruct k|].
  destruct k as [|k]; [done|]. cbn [zbits drop]. apply IH.
Qed.
Lemma zbits_false n v : (forall i, 0 <= i < Z.of_nat n -> Z.testbit v i = false) -> zbits n v = replicate n false.
Proof. induction n as [|n IH]; intros H; cbn; [done|]. rewrite H by lia. f_equal. apply IH. intros; apply H; lia. Qed.

(** A number is below [2^n] when all its bits from [n] on are clear. *)
Lemma testbit_lt n c : 0 <= n -> 0 <= c -> (forall i, n <= i -> Z.testbit c i = false) -> c < 2 ^ n.
Proof.
  intros Hn Hc H. destruct (decide (c = 0)) as [->|Hne]; [apply Z.pow_pos_nonneg; lia|].
  destruct (Z.lt_ge_cases c (2 ^ n)); [done|]. exfalso.
  assert (n <= Z.log2 c) by (apply Z.log2_le_pow2; lia).
  assert (Z.testbit c (Z.log2 c) = true) by (apply Z.bit_log2; lia). rewrite H in *; done.
Qed.
Lemma testbit_high n c i : 0 <= c < 2 ^ n -> n <= i -> Z.testbit c i = false.
Proof.
  intros Hc Hi. destruct (Z.lt_ge_cases n 0) as [Hn|Hn].
  { rewrite Z.pow_neg_r in Hc by done. lia. }
  rewrite <- (Z.mod_small c (2 ^ n)) by done. apply Z.mod_pow2_bits_high. lia.
Qed.

(** ** Writing appends *)

Lemma emptyWriter_wf : writer_wf emptyWriter.
Proof. repeat split; cbn; try lia; try constructor; intros; apply Z.testbit_0_l. Qed.

Lemma nbits_cases n : 0 <= n < 8 -> n = 0 \/ n = 1 \/ n = 2 \/ n = 3 \/ n = 4 \/ n = 5 \/ n = 6 \/ n = 7.
Proof. lia. Qed.

Lemma writeBit_spec w (b : Z) : writer_wf w ->
  writer_wf (writeBit w b) /\ writer_bits (writeBit w b) = writer_bits w ++ [negb (b =? 0)].
Proof.
  destruct w as [buf cur n]. unfold writer_wf, writer_bits, writeBit. cbn [w_buf w_cur w_nBits].
  intros (Hbuf & Hn & Hc0 & Hhi & Hlo).
  set (cur' := if b =? 0 then cur else _).
  assert (Hcur' : cur' = if b =? 0 then cur else Z.lor cur (2 ^ (7 - n))).
  { unfold cur'. destruct (b =? 0); [done|]. rewrite Z.shiftl_1_l, u8_id; [done|].
    split; [apply Z.pow_nonneg; lia|apply Z.pow_lt_mono_r; lia]. }
  assert (Hbits : forall i, 0 <= i -> Z.testbit cur' i = if i =? 7 - n then negb (b =? 0) else Z.testbit cur i).
  { intros i Hi. rewrite Hcur'. destruct (b =? 0) eqn:Eb; cbn.
    - destruct (Z.eqb_spec i (7 - n)) as [->|]; [apply Hlo; lia|done].
    - rewrite Z.lor_spec, Z.pow2_bits_eqb, (Z.eqb_sym (7 - n)) by lia.
      destruct (i =? 7 - n); [apply orb_true_r|apply orb_false_r]. }
  assert (H0 : 0 <= cur').
  { rewrite Hcur'. destruct (b =? 0); [done|]. apply Z.lor_nonneg. split; [done|apply Z.pow_nonneg; lia]. }
  assert (Hhi' : forall i, 8 <= i -> Z.testbit cur' i = false).
  { intros i Hi. rewrite Hbits by lia. destruct (Z.eqb_spec i (7 - n)); [lia|by apply Hhi]. }
  assert (Hbyte : byte_ok cur').
  { split; [done|]. by apply testbit_lt. }
  assert (Htake : take (Z.to_nat (n + 1)) (byte_bits cur')
    = take (Z.to_nat n) (byte_bits cur) ++ [negb (b =? 0)]).
  { clearbody cur'. clear Hcur' H0 Hhi' Hbyte Hhi Hlo.
    destruct (nbits_cases n Hn) as [->|[->|[->|[->|[->|[->|[->| ->]]]]]]];
      cbn -[Z.testbit]; rewrite !Hbits by lia; done. }
  destruct (Z.eqb_spec (n + 1) 8) as [E|E]; cbn [w_buf w_cur w_nBits].
  - split.
    + split_and!; try lia; [|intros; apply Z.testbit_0_l..].
      apply Forall_app. split; [done|by apply Forall_singleton].
    + rewrite bind_app. cbn [list_bind mbind]. change (Z.to_nat 0) with 0%nat.
      rewrite take_0, !app_nil_r, <- app_assoc, <- Htake. rewrite E. done.
  - split.
    + split_and!; try done; try lia. intros i Hi. destruct (Z.lt_ge_cases i 0); [by apply Z.testbit_neg_r|].
      rewrite Hbits by lia. destruct (Z.eqb_spec i (7 - n)); [lia|apply Hlo; lia].
    + by rewrite Htake, app_assoc.
Qed.

Lemma bit_as_Z v i : 0 <= i -> negb (u8 (Z.land (Z.shiftr v i) 1) =? 0) = Z.testbit v i.
Proof.
  intros Hi. change 1 with (Z.ones 1). rewrite Z.land_ones by lia. change (2 ^ 1) with 2.
  rewrite <- Z.bit0_mod, Z.shiftr_spec, Z.add_0_l by lia. by destruct (Z.testbit v i).
Qed.

Lemma writeBits_go_spec w val n : writer_wf w ->
  writer_wf (writeBits_go w val n) /\ writer_bits (writeBits_go w val n) = writer_bits w ++ zbits n val.
Proof.
  revert w. induction n as [|n IH]; intros w Hw; cbn [writeBits_go zbits].
  - by rewrite app_nil_r.
  - destruct (writeBit_spec w (u8 (Z.land (Z.shiftr val (Z.of_nat n)) 1)) Hw) as [Hw1 Hb].
    destruct (IH _ Hw1) as [Hw2 Hb2]. split; [done|].
    rewrite Hb2, Hb, bit_as_Z, <- app_assoc by lia. done.
Qed.

(** Writing [n] bits of [val] appends exactly those bits to the stream. *)
Lemma writeBits_spec w val n : writer_wf w -> 0 <= n ->
  writer_wf (writeBits w val n) /\ writer_bits (writeBits w val n) = writer_bits w ++ zbits (Z.to_nat n) val.
Proof.
  intros Hw Hn. unfold writeBits. destruct (Z.eqb_spec n 0) as [->|]; [by rewrite app_nil_r|].
  by apply writeBits_go_spec.
Qed.

(** The serialized bytes are the stream, padded with zeros to a whole byte. *)
Lemma writer_bytes_ok w : writer_wf w -> bytes_ok (writer_bytes w).
Proof.
  intros (Hbuf & Hn & Hc0 & Hhi & Hlo). unfold writer_bytes. destruct (_ =? _); [done|].
  apply Forall_app. split; [done|]. constructor; [|constructor]. split; [done|by apply testbit_lt].
Qed.

Lemma length_byte_bits b : length (byte_bits b) = 8%nat.
Proof. apply length_zbits. Qed.

Lemma writer_bytes_bits w : writer_wf w -> exists k, (k < 8)%nat /\
  writer_bytes w ≫= byte_bits = writer_bits w ++ replicate k false.
Proof.
  intros (Hbuf & Hn & Hc0 & Hhi & Hlo). unfold writer_bytes, writer_bits.
  destruct (Z.eqb_spec (w_nBits w) 0) as [E|E].
  - exists 0%nat. split; [lia|]. rewrite E. change (Z.to_nat 0) with 0%nat. by rewrite take_0, !app_nil_r.
  - exists (8 - Z.to_nat (w_nBits w))%nat. split; [lia|].
    rewrite bind_app. cbn [mbind list_bind]. rewrite app_nil_r, <- app_assoc. f_equal.
    rewrite <- (take_drop (Z.to_nat (w_nBits w)) (byte_bits (w_cur w))) at 1. f_equal.
    unfold byte_bits. rewrite drop_zbits. apply zbits_false. intros i Hi. apply Hlo. lia.
Qed.

(** ** Reading consumes *)

Lemma newBitsReader_wf buf : bytes_ok buf -> reader_wf (newBitsReader buf).
Proof. split; [done|cbn; lia]. Qed.
Lemma newBitsReader_bits buf : reader_bits (newBitsReader buf) = buf ≫= byte_bits.
Proof. done. Qed.

Lemma shiftl_byte_bits n cur : (n < 8)%nat ->
  take n (byte_bits (u8 (Z.shiftl cur 1))) = take n (drop 1 (byte_bits cur)).
Proof.
  intros Hn. assert (Hb : forall i, 1 <= i < 8 -> Z.testbit (u8 (Z.shiftl cur 1)) i = Z.testbit cur (i - 1)).
  { intros i Hi. unfold u8. rewrite Z.mod_pow2_bits_low, Z.shiftl_spec by lia. done. }
  unfold byte_bits. cbn -[Z.testbit take]. rewrite !Hb by lia.
  do 8 (destruct n as [|n]; [done|]). lia.
Qed.

(** What is left to read of a reader whose current byte has [n] bits left. *)
Lemma readBit_cons r b rest : reader_wf r -> reader_bits r = b :: rest ->
  exists r', readBit r = Ok (Z.b2z b, r') /\ reader_wf r' /\ reader_bits r' = rest /\ r_buf r' = r_buf r.
Proof.
  destruct r as [buf pos cur n]. unfold reader_wf, reader_bits, readBit, loadByte. cbn [r_buf r_pos r_cur r_nBits].
  intros [Hbuf Hn] Hbits.
  assert (Hstep : forall c p m, (1 <= m <= 8)%nat ->
    take m (byte_bits c) ++ (drop p buf ≫= byte_bits) = b :: rest ->
    Z.land (Z.shiftr c 7) 1 = Z.b2z b /\
    take (m - 1) (byte_bits (u8 (Z.shiftl c 1))) ++ (drop p buf ≫= byte_bits) = rest).
  { intros c p m Hm Hc. rewrite shiftl_byte_bits by lia.
    destruct m as [|m]; [lia|]. replace (S m - 1)%nat with m by lia.
    unfold byte_bits in *. cbn [zbits take app drop] in Hc. injection Hc as Hb Hr. split.
    - change 1 with (Z.ones 1). rewrite Z.land_ones by lia. change (2 ^ 1) with 2.
      rewrite <- Z.bit0_mod, Z.shiftr_spec, Z.add_0_l by lia. by f_equal.
    - done. }
  destruct (Z.eqb_spec n 0) as [->|Hne].
  - change (Z.to_nat 0) with 0%nat in Hbits. rewrite take_0 in Hbits. cbn [app] in Hbits.
    destruct (buf !! pos) as [c|] eqn:Hc.
    2:{ apply lookup_ge_None in Hc. rewrite drop_ge in Hbits by done. done. }
    rewrite (drop_S _ _ _ Hc) in Hbits. cbn [mbind list_bind] in Hbits.
    destruct (Hstep c (S pos) 8%nat) as [H1 H2]; [lia|by rewrite take_ge by (rewrite length_byte_bits; lia)|].
    eexists. cbn [mbind result_bind r_buf r_pos r_cur r_nBits]. rewrite H1. split_and!; [done|done|cbn; lia|cbn; lia|by rewrite <- H2|done].
  - destruct (Hstep cur pos (Z.to_nat n)) as [H1 H2]; [lia|done|].
    eexists. cbn [mbind result_bind r_buf r_pos r_cur r_nBits]. rewrite H1. split_and!; [done|done|cbn; lia|cbn; lia| |done].
    cbn. rewrite <- H2. do 2 f_equal. lia.
Qed.

Lemma zbits_S n v : zbits (S n) v = Z.testbit v (Z.of_nat n) :: zbits n v.
Proof. done. Qed.

Lemma readBits_go_app r acc n v rest : reader_wf r -> reader_bits r = zbits n v ++ rest ->
  0 <= acc -> acc * 2 ^ Z.of_nat n + v mod 2 ^ Z.of_nat n < 2 ^ 64 ->
  exists r', readBits_go r acc n = Ok (acc * 2 ^ Z.of_nat n + v mod 2 ^ Z.of_nat n, r')
    /\ reader_wf r' /\ reader_bits r' = rest /\ r_buf r' = r_buf r.
Proof.
  revert r acc. induction n as [|n IH]; intros r acc Hr Hb Hacc Hov.
  - exists r. cbn [readBits_go]. change (2 ^ Z.of_nat 0) with 1. rewrite Z.mod_1_r, Z.mul_1_r, Z.add_0_r. done.
  - rewrite zbits_S in Hb. destruct (readBit_cons r _ _ Hr Hb) as (r1 & E & Hr1 & Hb1 & Hbuf1).
    assert (Hp : 0 < 2 ^ Z.of_nat n) by (apply Z.pow_pos_nonneg; lia).
    set (b := Z.testbit v (Z.of_nat n)) in *.
    assert (Hmod : v mod 2 ^ Z.of_nat (S n) = Z.b2z b * 2 ^ Z.of_nat n + v mod 2 ^ Z.of_nat n).
    { replace (Z.of_nat (S n)) with (Z.of_nat n + 1) by lia.
      rewrite Z.pow_add_r, Z.rem_mul_r by lia. change (2 ^ 1) with 2.
      unfold b. rewrite Z.testbit_spec' by lia. lia. }
    pose proof (Z.mod_pos_bound v (2 ^ Z.of_nat n) Hp).
    assert (Hb01 : 0 <= Z.b2z b <= 1) by (destruct b; cbn; lia).
    rewrite Hmod in *. replace (2 ^ Z.of_nat (S n)) with (2 * 2 ^ Z.of_nat n) in *
      by (replace (Z.of_nat (S n)) with (1 + Z.of_nat n) by lia; rewrite Z.pow_add_r by lia; done).
    assert (Hacc2 : Z.lor (u64 (Z.shiftl acc 1)) (Z.b2z b) = 2 * acc + Z.b2z b).
    { rewrite Z.shiftl_mul_pow2 by lia. change (2 ^ 1) with 2. rewrite u64_id by (unfold in_u64; nia).
      rewrite Z.lor_comm. replace (acc * 2) with (Z.shiftl acc 1) by (rewrite Z.shiftl_mul_pow2; lia).
      rewrite lor_shiftl_add by (change (2 ^ 1) with 2; lia). lia. }
    cbn [readBits_go]. rewrite E. cbn [mbind result_bind]. rewrite Hacc2.
    destruct (IH r1 (2 * acc + Z.b2z b)) as (r2 & E2 & Hr2 & Hb2 & Hbuf2); [done|done|lia|nia|].
    exists r2. rewrite E2. split_and!; try done; [|congruence]. do 2 f_equal. lia.
Qed.

(** Reading back [n] bits that were written gives their value. *)
Lemma readBits_app r n v rest : reader_wf r -> 0 <= n <= 64 ->
  reader_bits r = zbits (Z.to_nat n) v ++ rest ->
  exists r', readBits r n = Ok (v mod 2 ^ n, r')
    /\ reader_wf r' /\ reader_bits r' = rest /\ r_buf r' = r_buf r.
Proof.
  intros Hr Hn Hb. unfold readBits. destruct (Z.ltb_spec 64 n); [lia|].
  assert (Hlt : v mod 2 ^ n < 2 ^ 64).
  { apply Z.lt_le_trans with (2 ^ n); [apply Z.mod_pos_bound, Z.pow_pos_nonneg; lia|apply Z.pow_le_mono_r; lia]. }
  destruct (readBits_go_app r 0 (Z.to_nat n) v rest Hr Hb) as (r' & E & H'); rewrite ?Z2Nat.id by lia; [lia|done|].
  exists r'. rewrite E, Z2Nat.id by lia. done.
Qed.

(** ** Composing codecs *)

(** A writer step that appends the bits [e], and a reader step that consumes
    exactly the bits [e] and returns [a]. *)
Definition writes (f : bitsWriter -> bitsWriter) (e : list bool) : Prop :=
  forall w, writer_wf w -> writer_wf (f w) /\ writer_bits (f w) = writer_bits w ++ e.
Definition reads {A} (m : bitsReader -> result ioErr (A * bitsReader)) (e : list bool) (a : A) : Prop :=
  forall r rest, reader_wf r -> reader_bits r = e ++ rest ->
    exists r', m r = Ok (a, r') /\ reader_wf r' /\ reader_bits r' = rest /\ r_buf r' = r_buf r.

Lemma writes_comp f g e1 e2 : writes f e1 -> writes g e2 -> writes (fun w => g (f w)) (e1 ++ e2).
Proof.
  intros Hf Hg w Hw. destruct (Hf w Hw) as [Hw1 H1]. destruct (Hg _ Hw1) as [Hw2 H2].
  split; [done|]. by rewrite H2, H1, app_assoc.
Qed.
Lemma writes_bit b : writes (fun w => writeBit w b) [negb (b =? 0)].
Proof. intros w Hw. by apply writeBit_spec. Qed.
Lemma writes_bits v n : 0 <= n -> writes (fun w => writeBits w v n) (zbits (Z.to_nat n) v).
Proof. intros Hn w Hw. by apply writeBits_spec. Qed.

Lemma reads_ret {A} (a : A) : reads (fun r => Ok (a, r)) [] a.
Proof. intros r rest Hr Hb. by exists r. Qed.
Lemma reads_bind {A B} (m : bitsReader -> result ioErr (A * bitsReader)) (k : A -> bitsReader -> result ioErr (B * bitsReader)) e1 e2 a b :
  reads m e1 a -> reads (k a) e2 b -> reads (fun r => '(x, r') ← m r; k x r') (e1 ++ e2) b.
Proof.
  intros Hm Hk r rest Hr Hb. rewrite <- app_assoc in Hb.
  destruct (Hm r _ Hr Hb) as (r1 & E1 & Hr1 & Hb1 & Hbuf1).
  destruct (Hk r1 _ Hr1 Hb1) as (r2 & E2 & Hr2 & Hb2 & Hbuf2).
  exists r2. rewrite E1. cbn [mbind result_bind]. split_and!; [done..|congruence].
Qed.
Lemma reads_bit b : reads readBit [b] (Z.b2z b).
Proof. intros r rest Hr Hb. by apply readBit_cons. Qed.
Lemma reads_bits n v : 0 <= n <= 64 -> reads (fun r => readBits r n) (zbits (Z.to_nat n) v) (v mod 2 ^ n).
Proof. intros Hn r rest Hr Hb. by apply readBits_app. Qed.
Lemma reads_bits_id n v : 0 <= n <= 64 -> 0 <= v < 2 ^ n ->
  reads (fun r => readBits r n) (zbits (Z.to_nat n) v) v.
Proof. intros Hn Hv. rewrite <- (Z.mod_small v (2 ^ n)) at 2 by done. by apply reads_bits. Qed.
