(* ===== verification/Chunk.v ===== *)
(** * Chunk: the Gorilla/XOR metrics chunk

    [internal/storage/chunk/chunk.go]: appending samples to a chunk, its byte
    format, and the eager validation of [FromBytes]. A [float64] is represented
    by its IEEE-754 bit pattern ([math.Float64bits]), which is what the format
    stores and what every comparison in the package is on. *)
From S2P Require Import Prelude GoLib Bits.

(** ** Data *)

(** Every error the package returns, with the values its message carries. *)
Inductive chunkErr :=
  | ErrChunkFull
  | ErrGeneration (gen : Z)
  | ErrUnrecognized
  | ErrBitstreamLen (bitLen : Z)
  | ErrEmptyBounds (minTs maxTs : Z)
  | ErrEmptyPayload (n : Z)
  | ErrDecode (n : Z) (e : ioErr)
  | ErrCount (got declared : Z)
  | ErrBounds (minTs maxTs gotMin gotMax : Z)
  | ErrTrailing (n : Z)
  | ErrGenVarint
  | ErrGenFirstRange
  | ErrGenDelta (i : Z)
  | ErrGenOverflow (i : Z)
  | ErrGenRange (gen i : Z)
  | ErrGenTrailing (n : Z).

Definition maxSamples : Z := 120.
Definition maxSpanMs : Z := 7200000.
Definition chunkHeaderLen : nat := 26.
Definition MaxGeneration : Z := 2 ^ 62.
Definition chunkMagicV1 : list Z := [156; 67; 72; 1].

Record Chunk := mkChunk {
  minTs : Z; maxTs : Z; numSamples : Z; sealed : bool;
  bw : bitsWriter; gens : list Z; maxGen : Z;
  lastTs : Z; lastDelta : Z; lastVal : Z; lastLeading : Z; lastTrailing : Z }.

Definition NewChunk : Chunk := mkChunk 0 0 0 false emptyWriter [] 0 0 0 0 255 0.

(** One sample as the compaction and read paths see it: the value is its bit
    pattern. *)
Record sample := mkSample { s_ts : Z; s_val : Z; s_gen : Z }.

(** ** Encoding helpers *)

Definition zigzagEncode (v : Z) : Z := u64 (Z.lxor (i64 (Z.shiftl v 1)) (Z.shiftr v 63)).
Definition zigzagDecode (v : Z) : Z := i64 (Z.lxor (Z.shiftr v 1) (u64 (- Z.land v 1))).

(** [bits.LeadingZeros64] and [bits.TrailingZeros64]. *)
Definition LeadingZeros64 (x : Z) : Z := if x =? 0 then 64 else 63 - Z.log2 x.
Fixpoint pos_trailing (p : positive) : Z :=
  match p with xO q => 1 + pos_trailing q | _ => 0 end.
Definition TrailingZeros64 (x : Z) : Z :=
  match x with Z0 => 64 | Zpos p => pos_trailing p | Zneg _ => 0 end.

Definition writeTimestampDod (w : bitsWriter) (dod : Z) : bitsWriter :=
  if dod =? 0 then writeBit w 0
  else if ((-64 <=? dod) && (dod <=? 63))%bool then
    writeBits (writeBits w 2 2) (zigzagEncode dod) 7
  else if ((-256 <=? dod) && (dod <=? 255))%bool then
    writeBits (writeBits w 6 3) (zigzagEncode dod) 9
  else if ((-2048 <=? dod) && (dod <=? 2047))%bool then
    writeBits (writeBits w 14 4) (zigzagEncode dod) 12
  else writeBits (writeBits w 15 4) (zigzagEncode dod) 64.

(** The method mutates [bw], [lastLeading] and [lastTrailing]; [val] is the bit
    pattern. Returns the three new values. *)
Definition writeValueXOR (w : bitsWriter) (lastVal lastLeading lastTrailing val : Z) : bitsWriter * Z * Z :=
  let xor := Z.lxor lastVal val in
  if xor =? 0 then (writeBit w 0, lastLeading, lastTrailing)
  else
    let lz0 := LeadingZeros64 xor in
    let tz := TrailingZeros64 xor in
    let lz := if 31 <? lz0 then 31 else lz0 in
    let sigBits := u8 (64 - lz - tz) in
    let w := writeBit w 1 in
    if (negb (lastLeading =? 255) && (lastLeading <=? lz) && (lastTrailing <=? tz))%bool then
      let w := writeBit w 0 in
      let prevSigBits := u8 (64 - lastLeading - lastTrailing) in
      (writeBits w (Z.shiftr xor lastTrailing) prevSigBits, lastLeading, lastTrailing)
    else
      let w := writeBit w 1 in
      let w := writeBits w lz 5 in
      let w := writeBits w (sigBits - 1) 6 in
      (writeBits w (Z.shiftr xor tz) sigBits, lz, tz).

(** ** Append *)

Definition Append (c : Chunk) (tsMs val gen : Z) : result chunkErr Chunk :=
  if sealed c then Err ErrChunkFull
  else if ((gen <? 0) || (MaxGeneration <? gen))%bool then Err (ErrGeneration gen)
  else
    let gens' := gens c ++ [gen] in
    let maxGen' := if maxGen c <? gen then gen else maxGen c in
    if numSamples c =? 0 then
      Ok (mkChunk tsMs tsMs (u16 (numSamples c + 1)) (sealed c)
            (writeBits (writeBits (bw c) (u64 tsMs) 64) val 64) gens' maxGen'
            tsMs (lastDelta c) val (lastLeading c) (lastTrailing c))
    else
      let delta := i64 (tsMs - lastTs c) in
      let dod := i64 (delta - lastDelta c) in
      let w := writeTimestampDod (bw c) dod in
      let minTs' := if tsMs <? minTs c then tsMs else minTs c in
      let maxTs' := if maxTs c <? tsMs then tsMs else maxTs c in
      let '(w, lead, trail) := writeValueXOR w (lastVal c) (lastLeading c) (lastTrailing c) val in
      let n := u16 (numSamples c + 1) in
      let span := i64 (maxTs' - minTs') in
      let seal := ((maxSamples <=? n) || (span <? 0) || (maxSpanMs <=? span))%bool in
      Ok (mkChunk minTs' maxTs' n (seal || sealed c) w gens' maxGen' tsMs delta val lead trail).

Definition Seal (c : Chunk) : Chunk :=
  mkChunk (minTs c) (maxTs c) (numSamples c) true (bw c) (gens c) (maxGen c)
    (lastTs c) (lastDelta c) (lastVal c) (lastLeading c) (lastTrailing c).

(** ** Iteration *)

Record Iterator := mkIterator {
  it_br : bitsReader; it_total : Z; it_n : Z; it_gens : list Z;
  it_lastTs : Z; it_lastDelta : Z; it_lastVal : Z; it_lastLeading : Z; it_lastTrailing : Z;
  it_curTs : Z; it_curVal : Z; it_err : option ioErr }.

Definition chunk_Iterator (c : Chunk) : Iterator :=
  mkIterator (newBitsReader (writer_bytes (bw c))) (numSamples c) 0 (gens c) 0 0 0 255 0 0 0 None.

Definition decodeTimestamp (r : bitsReader) : result ioErr (Z * bitsReader) :=
  '(b0, r) ← readBit r;
  if b0 =? 0 then Ok (0, r) else
  '(b1, r) ← readBit r;
  if b1 =? 0 then '(v, r) ← readBits r 7; Ok (zigzagDecode v, r) else
  '(b2, r) ← readBit r;
  if b2 =? 0 then '(v, r) ← readBits r 9; Ok (zigzagDecode v, r) else
  '(b3, r) ← readBit r;
  if b3 =? 0 then '(v, r) ← readBits r 12; Ok (zigzagDecode v, r) else
  '(v, r) ← readBits r 64; Ok (zigzagDecode v, r).

(** Returns the value and the new leading/trailing window. *)
Definition decodeValue (lastVal lastLeading lastTrailing : Z) (r : bitsReader)
    : result ioErr ((Z * Z * Z) * bitsReader) :=
  '(b0, r) ← readBit r;
  if b0 =? 0 then Ok ((lastVal, lastLeading, lastTrailing), r) else
  '(b1, r) ← readBit r;
  if b1 =? 0 then
    let sigBits := u8 (64 - lastLeading - lastTrailing) in
    '(v, r) ← readBits r sigBits;
    Ok ((Z.lxor lastVal (u64 (Z.shiftl v lastTrailing)), lastLeading, lastTrailing), r)
  else
    '(lz, r) ← readBits r 5;
    '(sbMinus1, r) ← readBits r 6;
    let sigBits := u8 (u8 sbMinus1 + 1) in
    '(v, r) ← readBits r sigBits;
    let tz := u8 (64 - u8 lz - sigBits) in
    Ok ((Z.lxor lastVal (u64 (Z.shiftl v tz)), u8 lz, tz), r).

Definition it_fail (it : Iterator) (e : ioErr) : bool * Iterator :=
  (false, mkIterator (it_br it) (it_total it) (it_n it) (it_gens it) (it_lastTs it) (it_lastDelta it)
            (it_lastVal it) (it_lastLeading it) (it_lastTrailing it) (it_curTs it) (it_curVal it) (Some e)).

Definition Next (it : Iterator) : bool * Iterator :=
  if ((it_total it <=? it_n it) || bool_decide (it_err it <> None))%bool then (false, it)
  else if it_n it =? 0 then
    match ('(ts, r) ← readBits (it_br it) 64; '(val, r) ← readBits r 64; Ok (ts, val, r)) with
    | Err e => it_fail it e
    | Ok (ts, val, r) =>
        (true, mkIterator r (it_total it) (it_n it + 1) (it_gens it) (i64 ts) (it_lastDelta it) val
                 (it_lastLeading it) (it_lastTrailing it) (i64 ts) val None)
    end
  else
    match ('(dod, r) ← decodeTimestamp (it_br it);
           '(v, r) ← decodeValue (it_lastVal it) (it_lastLeading it) (it_lastTrailing it) r;
           Ok (dod, v, r)) with
    | Err e => it_fail it e
    | Ok (dod, (val, lead, trail), r) =>
        let delta := i64 (it_lastDelta it + dod) in
        let ts := i64 (it_lastTs it + delta) in
        (true, mkIterator r (it_total it) (it_n it + 1) (it_gens it) ts delta val lead trail ts val None)
    end.

Definition At (it : Iterator) : Z * Z := (it_curTs it, it_curVal it).
Definition Gen (it : Iterator) : Z :=
  if it_n it - 1 <? 0 then 0 else default 0 (it_gens it !! Z.to_nat (it_n it - 1)).

(** The loop [for it.Next() { ts, val := it.At(); ... it.Gen() }] every reader of a
    chunk runs: the samples it visits and the iterator it leaves behind. *)
Fixpoint drain (fuel : nat) (it : Iterator) : list sample * Iterator :=
  match fuel with
  | O => ([], it)
  | S f =>
      let '(ok, it) := Next it in
      if ok then
        let '(l, it') := drain f it in
        (mkSample (fst (At it)) (snd (At it)) (Gen it) :: l, it')
      else ([], it)
  end.
Definition drain_all (it : Iterator) : list sample * Iterator := drain (S (Z.to_nat (it_total it))) it.
Definition samples_of (c : Chunk) : list sample := fst (drain_all (chunk_Iterator c)).

(** ** Serialization *)

(** The generation section: the first one as an unsigned varint, then deltas. *)
Fixpoint encodeGens_from (prev : Z) (gs : list Z) : list Z :=
  match gs with
  | [] => []
  | g :: rest => PutVarint (i64 (g - prev)) ++ encodeGens_from g rest
  end.
Definition encodeGens (gs : list Z) : list Z :=
  match gs with
  | [] => []
  | g :: rest => PutUvarint (u64 g) ++ encodeGens_from g rest
  end.

Definition Bytes (c : Chunk) : list Z :=
  let bitstream := writer_bytes (bw c) in
  chunkMagicV1 ++ be_bytes 8 (u64 (minTs c)) ++ be_bytes 8 (u64 (maxTs c)) ++
  be_bytes 2 (numSamples c) ++ be_bytes 4 (u32 (Z.of_nat (length bitstream))) ++
  bitstream ++ encodeGens (gens c).

(** The loop body from the second generation on: [i] is the sample index. *)
Fixpoint decodeGens_from (count : nat) (i prev : Z) (data : list Z) : result chunkErr (list Z * list Z) :=
  match count with
  | O => Ok ([], data)
  | S k =>
      let '(d, n) := Varint data in
      if n <=? 0 then Err (ErrGenDelta i) else
      let sum := i64 (prev + d) in
      if (((0 <? d) && (sum <? prev)) || ((d <? 0) && (prev <? sum)))%bool then Err (ErrGenOverflow i) else
      if ((sum <? 0) || (MaxGeneration <? sum))%bool then Err (ErrGenRange sum i) else
      '(gs, rest) ← decodeGens_from k (i + 1) sum (drop (Z.to_nat n) data);
      Ok (sum :: gs, rest)
  end.
Definition decodeGens (data : list Z) (count : nat) : result chunkErr (list Z) :=
  '(gs, rest) ← match count with
                | O => Ok ([], data)
                | S k =>
                    let '(v, n) := Uvarint data in
                    if n <=? 0 then Err ErrGenVarint else
                    if MaxGeneration <? v then Err ErrGenFirstRange else
                    '(gs, rest) ← decodeGens_from k 1 (i64 v) (drop (Z.to_nat n) data);
                    Ok (i64 v :: gs, rest)
                end;
  match rest with
  | [] => Ok gs
  | _ => Err (ErrGenTrailing (Z.of_nat (length rest)))
  end.

(** The running minimum and maximum of the validation loop. *)
Definition bounds_step (acc : option (Z * Z)) (ts : Z) : option (Z * Z) :=
  match acc with
  | None => Some (ts, ts)
  | Some (lo, hi) => Some (if ts <? lo then ts else lo, if hi <? ts then ts else hi)
  end.

Definition decodeAndValidate (mn mx n : Z) (payload : list Z) : result chunkErr Chunk :=
  let c := mkChunk mn mx n true (mkWriter payload 0 0) [] 0 0 0 0 255 0 in
  if n =? 0 then
    if (negb (mn =? 0) || negb (mx =? 0))%bool then Err (ErrEmptyBounds mn mx) else
    if negb (Z.of_nat (length payload) =? 0) then Err (ErrEmptyPayload (Z.of_nat (length payload))) else
    Ok c
  else
    let '(ss, it) := drain_all (chunk_Iterator c) in
    let got := Z.of_nat (length ss) in
    match it_err it with
    | Some e => Err (ErrDecode got e)
    | None =>
        if negb (got =? n) then Err (ErrCount got n) else
        let '(gotMin, gotMax) := default (0, 0) (fold_left bounds_step (map s_ts ss) None) in
        if (negb (gotMin =? mn) || negb (gotMax =? mx))%bool then Err (ErrBounds mn mx gotMin gotMax) else
        if (r_pos (it_br it) <? length (r_buf (it_br it)))%nat then
          Err (ErrTrailing (Z.of_nat (length (r_buf (it_br it)) - r_pos (it_br it))))
        else Ok c
    end.

Definition max_from (gs : list Z) (m : Z) : Z := fold_left (fun m g => if m <? g then g else m) gs m.

Definition FromBytes (data : list Z) : result chunkErr Chunk :=
  if ((length data <? chunkHeaderLen)%nat || negb (bool_decide (take 4 data = chunkMagicV1)))%bool then
    Err ErrUnrecognized
  else
    let mn := i64 (be_val (take 8 (drop 4 data))) in
    let mx := i64 (be_val (take 8 (drop 12 data))) in
    let n := be_val (take 2 (drop 20 data)) in
    let bitLen := be_val (take 4 (drop 22 data)) in
    if Z.of_nat (length data) <? Z.of_nat chunkHeaderLen + bitLen then Err (ErrBitstreamLen bitLen) else
    let payload := take (Z.to_nat bitLen) (drop chunkHeaderLen data) in
    c ← decodeAndValidate mn mx n payload;
    gs ← decodeGens (drop (chunkHeaderLen + Z.to_nat bitLen) data) (Z.to_nat n);
    Ok (mkChunk (minTs c) (maxTs c) (numSamples c) (sealed c) (bw c) gs (max_from gs (maxGen c))
          (lastTs c) (lastDelta c) (lastVal c) (lastLeading c) (lastTrailing c)).

(** ** Which of two writes survives *)

Definition Outranks (genA valA genB valB : Z) : bool :=
  if negb (genA =? genB) then genB <? genA else valB <? valA.

(** Appending a whole series of writes, stopping at the first error. *)
Definition Append1 (c : Chunk) (s : sample) : result chunkErr Chunk := Append c (s_ts s) (s_val s) (s_gen s).
Fixpoint append_all (c : Chunk) (ss : list sample) : result chunkErr Chunk :=
  match ss with
  | [] => Ok c
  | s :: rest => c' ← Append1 c s; append_all c' rest
  end.

(** ** Zig-zag *)

Lemma zigzagEncode_val v : in_i64 v -> zigzagEncode v = if v <? 0 then - 2 * v - 1 else 2 * v.
Proof.
  intros Hv. unfold zigzagEncode. rewrite Z.shiftl_mul_pow2, Z.shiftr_div_pow2 by lia. change (2 ^ 1) with 2.
  destruct (Z.ltb_spec v 0).
  - assert (v / 2 ^ 63 = -1) as -> by (symmetry; apply (Z.div_unique_pos _ _ _ (v + 2 ^ 63)); wsolve).
    rewrite Z.lxor_m1_r. unfold Z.lnot. mod_width.
  - rewrite Z.div_small, Z.lxor_0_r, u64_i64, u64_id by wsolve. lia.
Qed.

Lemma lxor_ones64 a : in_u64 a -> Z.lxor a (2 ^ 64 - 1) = 2 ^ 64 - 1 - a.
Proof.
  intros Ha. change (2 ^ 64 - 1) with (Z.ones 64).
  assert (Hlow : forall i, Z.testbit a i = true -> 0 <= i < 64).
  { intros i Hi. destruct (Z.lt_ge_cases i 0); [by rewrite Z.testbit_neg_r in Hi|].
    destruct (Z.lt_ge_cases i 64); [lia|]. by rewrite (testbit_high 64) in Hi. }
  rewrite Z.sub_nocarry_ldiff.
  - apply Z.bits_inj'. intros i Hi. rewrite Z.lxor_spec, Z.ldiff_spec, Z.testbit_ones_nonneg by lia.
    specialize (Hlow i). destruct (Z.testbit a i); [|by destruct (i <? 64)].
    destruct (Z.ltb_spec i 64); [done|]. lia.
  - apply Z.bits_inj'. intros i Hi. rewrite Z.ldiff_spec, Z.testbit_ones_nonneg, Z.bits_0 by lia.
    specialize (Hlow i). destruct (Z.testbit a i); [|done]. destruct (Z.ltb_spec i 64); [done|lia].
Qed.

Lemma zigzagDecode_Encode v : in_i64 v -> zigzagDecode (zigzagEncode v) = v.
Proof.
  intros Hv. rewrite zigzagEncode_val by done. unfold zigzagDecode.
  change (Z.land ?a 1) with (Z.land a (Z.ones 1)). rewrite Z.land_ones, Z.shiftr_div_pow2 by lia. change (2 ^ 1) with 2.
  destruct (Z.ltb_spec v 0).
  - assert ((- 2 * v - 1) mod 2 = 1) as -> by (symmetry; apply (Z.mod_unique_pos _ _ (- v - 1)); lia).
    assert ((- 2 * v - 1) / 2 = - v - 1) as -> by (symmetry; apply (Z.div_unique_pos _ _ _ 1); lia).
    change (u64 (-1)) with (2 ^ 64 - 1). rewrite lxor_ones64 by wsolve. mod_width.
  - rewrite (Z.mul_comm 2 v), Z.div_mul, Z.mod_mul by lia. cbn. rewrite Z.lxor_0_r. by apply i64_id.
Qed.

Lemma zigzagEncode_bound v k : in_i64 v -> 0 < k -> - 2 ^ (k - 1) <= v < 2 ^ (k - 1) -> 0 <= zigzagEncode v < 2 ^ k.
Proof.
  intros Hv Hk Hb. rewrite zigzagEncode_val by done. replace k with (1 + (k - 1)) by lia.
  rewrite Z.pow_add_r by lia. change (2 ^ 1) with 2. destruct (Z.ltb_spec v 0); lia.
Qed.

(** ** The two codecs *)

(** The bits of a delta of deltas. *)
Definition dod_bits (dod : Z) : list bool :=
  if dod =? 0 then [false]
  else if ((-64 <=? dod) && (dod <=? 63))%bool then zbits 2 2 ++ zbits 7 (zigzagEncode dod)
  else if ((-256 <=? dod) && (dod <=? 255))%bool then zbits 3 6 ++ zbits 9 (zigzagEncode dod)
  else if ((-2048 <=? dod) && (dod <=? 2047))%bool then zbits 4 14 ++ zbits 12 (zigzagEncode dod)
  else zbits 4 15 ++ zbits 64 (zigzagEncode dod).

Lemma writes_dod dod : writes (fun w => writeTimestampDod w dod) (dod_bits dod).
Proof.
  unfold writeTimestampDod, dod_bits. destruct (dod =? 0); [apply (writes_bit 0)|].
  repeat match goal with |- context [if ?b then _ else _] => destruct b end;
    apply (writes_comp (fun w => writeBits w _ _) (fun w => writeBits w _ _)); by apply writes_bits.
Qed.

Lemma reads_zigzag n dod : 0 < n <= 64 -> in_i64 dod -> - 2 ^ (n - 1) <= dod < 2 ^ (n - 1) ->
  reads (fun r => '(v, r) ← readBits r n; Ok (zigzagDecode v, r)) (zbits (Z.to_nat n) (zigzagEncode dod)) dod.
Proof.
  intros Hn Hd Hb. rewrite <- (app_nil_r (zbits _ _)).
  apply (reads_bind (fun r => readBits r n) (fun v r => Ok (zigzagDecode v, r)) _ _ (zigzagEncode dod)).
  - apply reads_bits_id; [lia|]. apply zigzagEncode_bound; [done|lia|done].
  - rewrite zigzagDecode_Encode by done. apply reads_ret.
Qed.

Ltac read_bit b := apply (reads_bind readBit _ [b] _ (Z.b2z b)); [apply reads_bit|]; cbn [Z.b2z Z.eqb].

Lemma reads_dod dod : in_i64 dod -> reads decodeTimestamp (dod_bits dod) dod.
Proof.
  intros Hd. unfold decodeTimestamp, dod_bits.
  destruct (Z.eqb_spec dod 0) as [->|H0].
  { apply (reads_bind readBit _ [false] [] (Z.b2z false)); [apply reads_bit|apply reads_ret]. }
  destruct (decide (-64 <= dod <= 63)) as [H1|H1].
  { rewrite (proj2 (andb_true_iff _ _)) by lia. read_bit true. read_bit false.
    apply (reads_zigzag 7); [lia|done|cbn; lia]. }
  rewrite (proj2 (andb_false_iff (-64 <=? dod) _)) by lia.
  destruct (decide (-256 <= dod <= 255)) as [H2|H2].
  { rewrite (proj2 (andb_true_iff _ _)) by lia. read_bit true. read_bit true. read_bit false.
    apply (reads_zigzag 9); [lia|done|cbn; lia]. }
  rewrite (proj2 (andb_false_iff (-256 <=? dod) _)) by lia.
  destruct (decide (-2048 <= dod <= 2047)) as [H3|H3].
  { rewrite (proj2 (andb_true_iff _ _)) by lia. read_bit true. read_bit true. read_bit true. read_bit false.
    apply (reads_zigzag 12); [lia|done|cbn; lia]. }
  rewrite (proj2 (andb_false_iff (-2048 <=? dod) _)) by lia.
  read_bit true. read_bit true. read_bit true. read_bit true. apply (reads_zigzag 64); [lia|done|wsolve].
Qed.

(** *** Values *)

Lemma pos_trailing_spec p : 0 <= pos_trailing p <= Z.log2 (Zpos p) /\ (2 ^ pos_trailing p | Zpos p).
Proof.
  induction p as [p IH|p IH|]; cbn [pos_trailing].
  - split; [pose proof (Z.log2_nonneg (Zpos p~1)); lia|]. apply Z.divide_1_l.
  - destruct IH as [Hb [q Hq]]. rewrite (Pos2Z.inj_xO p). split.
    + rewrite Z.log2_double by lia. lia.
    + exists q. rewrite Z.pow_add_r by lia. change (2 ^ 1) with 2. lia.
  - cbn. split; [lia|apply Z.divide_1_l].
Qed.

(** What the two counts say of a non-zero word. *)
Lemma zeros_spec x : in_u64 x -> x <> 0 ->
  0 <= LeadingZeros64 x /\ 0 <= TrailingZeros64 x /\ LeadingZeros64 x + TrailingZeros64 x <= 63 /\
  x < 2 ^ (64 - LeadingZeros64 x) /\ (2 ^ TrailingZeros64 x | x).
Proof.
  intros Hx H0. unfold LeadingZeros64. rewrite (proj2 (Z.eqb_neq x 0)) by done.
  assert (Hlog : Z.log2 x <= 63) by (assert (Z.log2 x < 64) by (apply Z.log2_lt_pow2; wsolve); lia).
  pose proof (Z.log2_nonneg x). destruct (Z.log2_spec x) as [_ Hlt]; [wsolve|].
  destruct x as [|p|p]; [done| |wsolve]. destruct (pos_trailing_spec p) as [Hb Hd].
  cbn [TrailingZeros64]. split_and!; try lia; [|done].
  replace (64 - (63 - Z.log2 (Zpos p))) with (Z.succ (Z.log2 (Zpos p))) by lia. done.
Qed.

Definition window (lead trail : Z) : Prop :=
  0 <= trail /\ (lead = 255 /\ trail = 0 \/ 0 <= lead <= 31 /\ lead + trail <= 63).

(** A word whose [lz] high and [tz] low bits are clear survives the shift. *)
Lemma shift_window x lz tz : 0 <= x < 2 ^ (64 - lz) -> 0 <= lz -> 0 <= tz -> lz + tz <= 63 -> (2 ^ tz | x) ->
  0 <= Z.shiftr x tz < 2 ^ (64 - lz - tz) /\ u64 (Z.shiftl (Z.shiftr x tz) tz) = x.
Proof.
  intros Hx Hlz Htz Hs [q ->]. assert (Hp : 0 < 2 ^ tz) by (apply Z.pow_pos_nonneg; lia).
  rewrite Z.shiftr_div_pow2, Z.div_mul, Z.shiftl_mul_pow2 by lia.
  replace (64 - lz) with ((64 - lz - tz) + tz) in Hx by lia. rewrite Z.pow_add_r in Hx by lia.
  split; [nia|]. apply u64_id. split; [lia|].
  apply Z.lt_le_trans with (2 ^ (64 - lz - tz + tz)); [rewrite Z.pow_add_r by lia; lia|].
  apply Z.pow_le_mono_r; lia.
Qed.

Lemma lxor_lxor a b : Z.lxor a (Z.lxor a b) = b.
Proof. by rewrite <- Z.lxor_assoc, Z.lxor_nilpotent, Z.lxor_0_l. Qed.
Lemma lxor_u64 a b : in_u64 a -> in_u64 b -> in_u64 (Z.lxor a b).
Proof.
  intros Ha Hb. assert (H0 : 0 <= Z.lxor a b) by (apply Z.lxor_nonneg; unfold in_u64 in *; lia).
  split; [done|]. apply testbit_lt; [lia|done|]. intros i Hi.
  by rewrite Z.lxor_spec, !(testbit_high 64) by (unfold in_u64 in *; lia).
Qed.

(** One value: the bits the encoder appends are the bits the decoder consumes,
    and both end in the same window. *)
Definition value_codec (lastVal lead trail val : Z) (e : list bool) (lead' trail' : Z) : Prop :=
  window lead' trail' /\ (length e <= 77)%nat /\
  (forall w, writer_wf w -> exists w', writeValueXOR w lastVal lead trail val = (w', lead', trail') /\
     writer_wf w' /\ writer_bits w' = writer_bits w ++ e) /\
  reads (decodeValue lastVal lead trail) e (val, lead', trail').

Lemma value_same lastVal lead trail : window lead trail -> value_codec lastVal lead trail lastVal [false] lead trail.
Proof.
  intros Hwin. split_and!; [done|cbn; lia| |].
  - intros w Hw. unfold writeValueXOR. rewrite Z.lxor_nilpotent. cbn [Z.eqb].
    destruct (writeBit_spec w 0 Hw). eexists. split; [done|]. done.
  - unfold decodeValue. apply (reads_bind readBit _ [false] [] (Z.b2z false)); [apply reads_bit|apply reads_ret].
Qed.

Lemma value_step lastVal lead trail val : in_u64 lastVal -> in_u64 val -> window lead trail ->
  exists e lead' trail', value_codec lastVal lead trail val e lead' trail'.
Proof.
  intros HL HV [Ht Hwin]. destruct (Z.eq_dec (Z.lxor lastVal val) 0) as [E|E].
  { apply Z.lxor_eq in E as ->. exists [false], lead, trail. by apply value_same. }
  pose proof (lxor_u64 _ _ HL HV) as Hx. set (x := Z.lxor lastVal val) in *.
  destruct (zeros_spec x Hx E) as (Hlz & Htz & Hsum & Hlt & Hdiv).
  set (lz0 := LeadingZeros64 x) in *. set (tz := TrailingZeros64 x) in *.
  set (lz := if 31 <? lz0 then 31 else lz0).
  assert (Hlz' : 0 <= lz <= 31 /\ lz <= lz0) by (subst lz; destruct (Z.ltb_spec 31 lz0); lia).
  assert (Hx64 : forall l, l <= lz0 -> 0 <= x < 2 ^ (64 - l)).
  { intros l Hl. split; [unfold in_u64 in Hx; lia|]. eapply Z.lt_le_trans; [exact Hlt|apply Z.pow_le_mono_r; lia]. }
  assert (Hxor : (x =? 0) = false) by (by apply Z.eqb_neq).
  destruct (negb (lead =? 255) && (lead <=? lz) && (trail <=? tz))%bool eqn:Ereuse.
  - apply andb_true_iff in Ereuse as [Ereuse Et]. apply andb_true_iff in Ereuse as [E255 El].
    assert (Hl : 0 <= lead <= 31 /\ lead <= lz /\ trail <= tz) by (destruct (Z.eqb_spec lead 255); [done|lia]).
    destruct (shift_window x lead trail) as [Hr Hs]; [apply Hx64; lia|lia..| |].
    { transitivity (2 ^ tz); [|done]. exists (2 ^ (tz - trail)). rewrite <- Z.pow_add_r by lia. f_equal. lia. }
    assert (Hu8 : u8 (64 - lead - trail) = 64 - lead - trail) by (apply u8_id; wsolve).
    exists ([true] ++ [false] ++ zbits (Z.to_nat (64 - lead - trail)) (Z.shiftr x trail)), lead, trail.
    split_and!; [split; [done|right; lia]|rewrite !length_app, length_zbits; cbn; lia| |].
    + intros w Hw. unfold writeValueXOR. fold x. fold lz0 tz. fold lz. rewrite Hxor, E255, El, Et, Hu8. cbn [andb].
      destruct (writes_comp _ _ _ _ (writes_bit 1) (writes_comp _ _ _ _ (writes_bit 0)
        (writes_bits (Z.shiftr x trail) (64 - lead - trail) ltac:(lia))) w Hw) as [H1 H2].
      eexists. split; [done|]. split; [exact H1|exact H2].
    + unfold decodeValue. read_bit true. read_bit false.
      rewrite Hu8, <- (app_nil_r (zbits _ _)).
      apply (reads_bind (fun r => readBits r _) (fun v r => Ok (_, r)) _ _ (Z.shiftr x trail));
        [apply reads_bits_id; lia|]. rewrite Hs. unfold x. rewrite lxor_lxor. apply reads_ret.
  - destruct (shift_window x lz tz) as [Hr Hs]; [apply Hx64; lia|lia..|done|].
    assert (Hu8 : u8 (64 - lz - tz) = 64 - lz - tz) by (apply u8_id; wsolve).
    exists ([true] ++ [true] ++ zbits 5 lz ++ zbits 6 (64 - lz - tz - 1) ++ zbits (Z.to_nat (64 - lz - tz)) (Z.shiftr x tz)), lz, tz.
    split_and!; [split; [done|right; lia]|rewrite !length_app, !length_zbits; cbn; lia| |].
    + intros w Hw. unfold writeValueXOR. fold x. fold lz0 tz. fold lz. rewrite Hxor, Ereuse, Hu8.
      destruct (writes_comp _ _ _ _ (writes_bit 1) (writes_comp _ _ _ _ (writes_bit 1)
        (writes_comp _ _ _ _ (writes_bits lz 5 ltac:(lia)) (writes_comp _ _ _ _ (writes_bits (64 - lz - tz - 1) 6 ltac:(lia))
        (writes_bits (Z.shiftr x tz) (64 - lz - tz) ltac:(lia))))) w Hw) as [H1 H2].
      eexists. split; [done|]. split; [exact H1|exact H2].
    + unfold decodeValue. read_bit true. read_bit true.
      apply (reads_bind (fun r => readBits r 5) _ _ _ lz); [apply (reads_bits_id 5); lia|].
      apply (reads_bind (fun r => readBits r 6) _ _ _ (64 - lz - tz - 1)); [apply (reads_bits_id 6); lia|].
      rewrite <- (app_nil_r (zbits (Z.to_nat _) _)).
      rewrite (u8_id (64 - lz - tz - 1)), (u8_id (64 - lz - tz - 1 + 1)), (u8_id lz) by wsolve.
      replace (64 - lz - tz - 1 + 1) with (64 - lz - tz) by lia.
      replace (64 - lz - (64 - lz - tz)) with tz by lia. rewrite (u8_id tz) by wsolve.
      apply (reads_bind (fun r => readBits r _) (fun v r => Ok (_, r)) _ _ (Z.shiftr x tz));
        [apply reads_bits_id; lia|]. rewrite Hs. unfold x. rewrite lxor_lxor. apply reads_ret.
Qed.

(** ** Reading a stream back *)

(** The successful calls of [Next] from one iterator to another, with the
    samples they deliver. *)
Inductive steps : Iterator -> list sample -> Iterator -> Prop :=
  | steps_nil it : steps it [] it
  | steps_cons it it1 it2 ss :
      Next it = (true, it1) -> steps it1 ss it2 ->
      steps it (mkSample (fst (At it1)) (snd (At it1)) (Gen it1) :: ss) it2.

Lemma steps_snoc it ss it1 it2 s :
  steps it ss it1 -> Next it1 = (true, it2) ->
  s_ts s = it_curTs it2 -> s_val s = it_curVal it2 -> s_gen s = Gen it2 -> steps it (ss ++ [s]) it2.
Proof.
  intros Hs Hn Ht Hv Hg. replace s with (mkSample (fst (At it2)) (snd (At it2)) (Gen it2)) by (destruct s; cbn in *; congruence).
  induction Hs as [it|it it1' it2' ss H1 Hs IH]; cbn [app].
  - eapply steps_cons; [done|constructor].
  - eapply steps_cons; [done|by apply IH].
Qed.

Lemma steps_drain it ss it' fuel :
  steps it ss it' -> fst (Next it') = false -> (length ss < fuel)%nat ->
  drain fuel it = (ss, snd (Next it')).
Proof.
  intros Hs Hend. revert fuel. induction Hs as [it|it it1 it2 ss H1 Hs IH]; intros [|fuel] Hf; cbn [length] in Hf; try lia.
  - cbn [drain]. by destruct (Next it) as [[] it'].
  - cbn [drain]. rewrite H1, IH by (done || lia). done.
Qed.

Definition sample_ok (s : sample) : Prop := in_i64 (s_ts s) /\ in_u64 (s_val s) /\ in_i64 (s_gen s).

(** The decoder's registers agree with the encoder's. *)
Record it_at (c : Chunk) (it : Iterator) : Prop := {
  at_n : it_n it = numSamples c;
  at_ts : it_lastTs it = lastTs c;
  at_delta : it_lastDelta it = lastDelta c;
  at_val : it_lastVal it = lastVal c;
  at_lead : it_lastLeading it = lastLeading c;
  at_trail : it_lastTrailing it = lastTrailing c;
  at_err : it_err it = None }.

(** The iterator at the start of any stream that begins with the chunk's bits. *)
Definition start_it (r : bitsReader) (total : Z) (gs : list Z) : Iterator :=
  mkIterator r total 0 gs 0 0 0 255 0 0 0 None.

(** [c] holds exactly the samples [ss], in insertion order. *)
Record chunk_rep (c : Chunk) (ss : list sample) : Prop := {
  rep_wf : writer_wf (bw c);
  rep_n : numSamples c = Z.of_nat (length ss);
  rep_cap : (length ss <= 120)%nat;
  rep_open : sealed c = false -> (length ss < 120)%nat;
  rep_gens : gens c = map s_gen ss;
  rep_gens_ok : Forall (fun g => 0 <= g <= MaxGeneration) (gens c);
  rep_maxGen : maxGen c = max_from (gens c) 0;
  rep_bounds : default (0, 0) (fold_left bounds_step (map s_ts ss) None) = (minTs c, maxTs c);
  rep_some : ss <> [] -> is_Some (fold_left bounds_step (map s_ts ss) None);
  rep_width : in_i64 (minTs c) /\ in_i64 (maxTs c) /\ in_i64 (lastDelta c) /\ in_u64 (lastVal c);
  rep_window : window (lastLeading c) (lastTrailing c);
  rep_len : (length (writer_bits (bw c)) <= 145 * length ss)%nat;
  rep_read : forall r rest total gs more,
    reader_wf r -> reader_bits r = writer_bits (bw c) ++ rest ->
    Z.of_nat (length ss) <= total -> gs = map s_gen ss ++ more ->
    exists it', steps (start_it r total gs) ss it' /\ it_at c it' /\
      reader_wf (it_br it') /\ reader_bits (it_br it') = rest /\ r_buf (it_br it') = r_buf r /\
      it_total it' = total /\ it_gens it' = gs }.

Lemma NewChunk_rep : chunk_rep NewChunk [].
Proof.
  split; cbn -[writer_wf in_i64 in_u64 Z.le]; try done; try (cbn; lia).
  - apply emptyWriter_wf.
  - repeat split; wsolve.
  - intros r rest total gs more Hr Hb Ht Hg. exists (start_it r total gs).
    split; [apply steps_nil|]. by split_and!.
Qed.

(** The samples a well-represented chunk decodes to, and where decoding ends. *)
Lemma rep_drain c ss r rest gs : chunk_rep c ss ->
  reader_wf r -> reader_bits r = writer_bits (bw c) ++ rest -> gs = map s_gen ss ->
  exists it', drain_all (start_it r (numSamples c) gs) = (ss, it') /\ it_err it' = None /\
    reader_bits (it_br it') = rest /\ r_buf (it_br it') = r_buf r.
Proof.
  intros Hc Hr Hb ->.
  destruct (rep_read c ss Hc r rest (numSamples c) (map s_gen ss) []) as (it' & Hs & Hat & Hr' & Hb' & Hbuf & Htot & _);
    [done|done|rewrite (rep_n c ss Hc); lia|by rewrite app_nil_r|].
  assert (Hend : Next it' = (false, it')).
  { unfold Next. rewrite Htot, (at_n c it' Hat), Z.leb_refl. done. }
  exists it'. unfold drain_all. rewrite (steps_drain _ _ _ _ Hs); rewrite ?Hend; cbn [fst snd start_it it_total].
  - rewrite (at_err c it' Hat). done.
  - done.
  - rewrite (rep_n c ss Hc). lia.
Qed.

Lemma default_some {A} (d : A) (o : option A) a : is_Some o -> default d o = a -> o = Some a.
Proof. intros [x ->]. cbn. congruence. Qed.

Lemma gen_lookup gs (ss : list sample) s more :
  gs = map s_gen (ss ++ [s]) ++ more -> default 0 (gs !! length ss) = s_gen s.
Proof.
  intros ->. rewrite map_app, <- app_assoc, lookup_app_r, length_map, Nat.sub_diag by (rewrite length_map; lia). done.
Qed.

Definition first_bits (s : sample) : list bool := zbits 64 (u64 (s_ts s)) ++ zbits 64 (s_val s).

Lemma Next_first it s rest : it_n it = 0 -> 0 < it_total it -> it_err it = None -> sample_ok s ->
  reader_wf (it_br it) -> reader_bits (it_br it) = first_bits s ++ rest ->
  exists r', Next it = (true, mkIterator r' (it_total it) 1 (it_gens it) (s_ts s) (it_lastDelta it) (s_val s)
                          (it_lastLeading it) (it_lastTrailing it) (s_ts s) (s_val s) None) /\
    reader_wf r' /\ reader_bits r' = rest /\ r_buf r' = r_buf (it_br it).
Proof.
  intros Hn Ht He (Hts & Hval & _) Hr Hb. unfold Next.
  rewrite Hn, He. destruct (Z.leb_spec (it_total it) 0); [lia|]. cbn [orb bool_decide].
  destruct (reads_bind (fun r => readBits r 64) (fun ts r => '(val, r) ← readBits r 64; Ok (ts, val, r))
    (zbits 64 (u64 (s_ts s))) (zbits 64 (s_val s)) (u64 (s_ts s)) (u64 (s_ts s), s_val s)) with (r := it_br it) (rest := rest)
    as (r' & E & Hr' & Hb' & Hbuf); [apply (reads_bits_id 64); [lia|apply in_u64_u64]| |done|done|].
  - rewrite <- (app_nil_r (zbits _ _)).
    apply (reads_bind (fun r => readBits r 64) (fun v r => Ok (_, v, r)) _ [] (s_val s)); [by apply (reads_bits_id 64)|apply reads_ret].
  - exists r'. cbv beta in E. rewrite (bool_decide_eq_false_2 (None ≠ None)) by tauto. cbn [Z.eqb]. rewrite E.
    by rewrite i64_u64, i64_id.
Qed.

Lemma Next_later it dod s e lead' trail' rest : it_n it <> 0 -> it_n it < it_total it -> it_err it = None ->
  in_i64 dod -> value_codec (it_lastVal it) (it_lastLeading it) (it_lastTrailing it) (s_val s) e lead' trail' ->
  reader_wf (it_br it) -> reader_bits (it_br it) = (dod_bits dod ++ e) ++ rest ->
  let delta := i64 (it_lastDelta it + dod) in
  let ts := i64 (it_lastTs it + delta) in
  exists r', Next it = (true, mkIterator r' (it_total it) (it_n it + 1) (it_gens it) ts delta (s_val s)
                          lead' trail' ts (s_val s) None) /\
    reader_wf r' /\ reader_bits r' = rest /\ r_buf r' = r_buf (it_br it).
Proof.
  intros Hn Ht He Hd (_ & _ & _ & Hv) Hr Hb delta ts. unfold Next.
  rewrite He. destruct (Z.leb_spec (it_total it) (it_n it)); [lia|]. cbn [orb].
  rewrite (bool_decide_eq_false_2 (None ≠ None)) by tauto. rewrite (proj2 (Z.eqb_neq _ _) Hn).
  destruct (reads_bind decodeTimestamp
    (fun dod r => '(v, r) ← decodeValue (it_lastVal it) (it_lastLeading it) (it_lastTrailing it) r; Ok (dod, v, r))
    (dod_bits dod) e dod (dod, (s_val s, lead', trail'))) with (r := it_br it) (rest := rest)
    as (r' & E & Hr' & Hb' & Hbuf); [by apply reads_dod| |done|done|].
  - rewrite <- (app_nil_r e). apply (reads_bind (decodeValue _ _ _) (fun v r => Ok (dod, v, r)) _ [] _ _ Hv). apply reads_ret.
  - exists r'. cbv beta in E. rewrite E. done.
Qed.

Lemma length_dod_bits d : (length (dod_bits d) <= 68)%nat.
Proof.
  unfold dod_bits. repeat match goal with |- context [if ?b then _ else _] => destruct b end;
    rewrite ?length_app, ?length_zbits; cbn; lia.
Qed.

(** What both branches of [Append] do to the bookkeeping fields. *)
Lemma max_from_app gs g m : max_from (gs ++ [g]) m = (if max_from gs m <? g then g else max_from gs m).
Proof. unfold max_from. by rewrite fold_left_app. Qed.
Lemma bounds_app l t : fold_left bounds_step (l ++ [t]) None = bounds_step (fold_left bounds_step l None) t.
Proof. by rewrite fold_left_app. Qed.

Lemma Append_range c s c' : Append1 c s = Ok c' -> sealed c = false /\ 0 <= s_gen s <= MaxGeneration.
Proof.
  unfold Append1, Append. destruct (sealed c); [done|]. intros H. split; [done|].
  destruct (Z.ltb_spec (s_gen s) 0); [done|]. destruct (Z.ltb_spec MaxGeneration (s_gen s)); [done|]. lia.
Qed.

Lemma Append_first_rep c s c' :
  chunk_rep c [] -> sample_ok s -> Append1 c s = Ok c' -> chunk_rep c' [s].
Proof.
  intros Hc Hs Happ. destruct (Append_range _ _ _ Happ) as [Hopen Hg].
  pose proof Hs as (Hts & Hval & _). unfold Append1, Append in Happ. rewrite Hopen in Happ.
  rewrite (proj2 (orb_false_iff _ _)) in Happ by lia.
  rewrite (rep_n _ _ Hc) in Happ. cbn [Z.eqb length Z.of_nat] in Happ. injection Happ as <-.
  pose proof (rep_gens _ _ Hc) as Hgens. cbn in Hgens. pose proof (rep_maxGen _ _ Hc) as Hmax. rewrite Hgens in Hmax. cbn in Hmax.
  assert (Hw : writes (fun w => writeBits (writeBits w (u64 (s_ts s)) 64) (s_val s) 64) (first_bits s))
    by exact (writes_comp _ _ _ _ (writes_bits (u64 (s_ts s)) 64 ltac:(lia)) (writes_bits (s_val s) 64 ltac:(lia))).
  destruct (Hw _ (rep_wf _ _ Hc)) as [Hwf Hbits].
  pose proof (rep_len _ _ Hc) as Hlen. destruct (writer_bits (bw c)) eqn:Hnil; [|cbn in Hlen; lia]. cbn [app] in Hbits.
  destruct (rep_width _ _ Hc) as (_ & _ & Hdelta & _).
  split; cbn [minTs maxTs numSamples sealed bw gens maxGen lastTs lastDelta lastVal lastLeading lastTrailing
              length map fold_left bounds_step default from_option id]; try done; try lia.
  - by rewrite Hgens.
  - rewrite Hgens. by apply Forall_singleton.
  - rewrite Hgens, Hmax. done.
  - apply (rep_window _ _ Hc).
  - rewrite Hbits. unfold first_bits. rewrite length_app, !length_zbits. lia.
  - intros r rest total gs more Hr Hb Ht Hgs. rewrite Hbits in Hb.
    destruct (rep_read _ _ Hc r (reader_bits r) total gs gs Hr) as (it0 & Hs0 & Hat & _); rewrite ?Hnil; [done|cbn; lia|done|].
    inversion Hs0; subst it0. destruct Hat as [_ _ Hd0 _ Hl0 Ht0 _]. cbn in Hd0, Hl0, Ht0.
    destruct (Next_first (start_it r total gs) s rest) as (r' & E & Hr' & Hb' & Hbuf); [done|cbn; lia|done..|].
    eexists. split; [eapply (steps_snoc _ []); [constructor|exact E|done|done|by cbn; rewrite Hgs]|].
    cbn [it_br it_total it_gens]. by split_and!.
Qed.

Lemma Append_later_rep c ss s c' :
  chunk_rep c ss -> ss <> [] -> sample_ok s -> Append1 c s = Ok c' -> chunk_rep c' (ss ++ [s]).
Proof.
  intros Hc Hne Hs Happ. destruct (Append_range _ _ _ Happ) as [Hopen Hg].
  pose proof (rep_open _ _ Hc Hopen) as Hcap.
  assert (Hpos : (0 < length ss)%nat) by (destruct ss; cbn; [done|lia]).
  pose proof Hs as (Hts & Hval & _). destruct (rep_width _ _ Hc) as (Hmn & Hmx & Hdl & Hlv).
  unfold Append1, Append in Happ. rewrite Hopen in Happ.
  rewrite (proj2 (orb_false_iff _ _)) in Happ by lia.
  rewrite (rep_n _ _ Hc), (proj2 (Z.eqb_neq _ _)) in Happ by lia.
  set (delta := i64 (s_ts s - lastTs c)) in *. set (dod := i64 (delta - lastDelta c)) in *.
  assert (Hdod : in_i64 dod) by apply in_i64_i64.
  destruct (value_step (lastVal c) (lastLeading c) (lastTrailing c) (s_val s) Hlv Hval (rep_window _ _ Hc))
    as (e & lead' & trail' & Hcodec).
  pose proof Hcodec as (Hwin' & Hlen & Hwr & _).
  destruct (writes_dod dod (bw c) (rep_wf _ _ Hc)) as [Hwf1 Hb1].
  destruct (Hwr _ Hwf1) as (w' & Hw' & Hwf & Hbits). rewrite Hw' in Happ.
  rewrite Hb1, <- app_assoc in Hbits.
  assert (Hn : u16 (Z.of_nat (length ss) + 1) = Z.of_nat (length (ss ++ [s]))).
  { rewrite length_app. cbn [length]. unfold u16. rewrite Z.mod_small; [lia|]. change (2 ^ 16) with 65536. lia. }
  rewrite Hn in Happ. injection Happ as <-.
  pose proof (default_some _ _ _ (rep_some _ _ Hc Hne) (rep_bounds _ _ Hc)) as Hbd.
  assert (Hbd' : fold_left bounds_step (map s_ts (ss ++ [s])) None
    = Some (if s_ts s <? minTs c then s_ts s else minTs c, if maxTs c <? s_ts s then s_ts s else maxTs c)).
  { rewrite map_app. cbn [map]. by rewrite bounds_app, Hbd. }
  split; cbn [minTs maxTs numSamples sealed bw gens maxGen lastTs lastDelta lastVal lastLeading lastTrailing].
  - done.
  - done.
  - rewrite length_app. cbn. lia.
  - intros Hop. rewrite orb_false_r in Hop. apply orb_false_iff in Hop as [Hop _]. apply orb_false_iff in Hop as [Hop _].
    unfold maxSamples in Hop. lia.
  - by rewrite (rep_gens _ _ Hc), map_app.
  - apply Forall_app. split; [apply (rep_gens_ok _ _ Hc)|by apply Forall_singleton].
  - by rewrite max_from_app, <- (rep_maxGen _ _ Hc).
  - by rewrite Hbd'.
  - intros _. rewrite Hbd'. done.
  - split; [by destruct (s_ts s <? minTs c)|]. split; [by destruct (maxTs c <? s_ts s)|].
    split; [apply in_i64_i64|done].
  - done.
  - rewrite Hbits, !length_app. pose proof (rep_len _ _ Hc). pose proof (length_dod_bits dod). cbn [length]. lia.
  - intros r rest total gs more Hr Hb Ht Hgs. rewrite length_app in Ht. cbn in Ht.
    rewrite Hbits, <- app_assoc in Hb. rewrite map_app, <- app_assoc in Hgs.
    destruct (rep_read _ _ Hc r _ total gs _ Hr Hb ltac:(lia) Hgs)
      as (it & Hst & Hat & Hr1 & Hb1' & Hbuf1 & Htot & Hig).
    destruct Hat as [An Ats Ad Av Al Atr Ae].
    assert (HAn : it_n it = Z.of_nat (length ss)) by (rewrite An; apply (rep_n _ _ Hc)).
    destruct (Next_later it dod s e lead' trail' rest) as (r' & E & Hr' & Hb' & Hbuf);
      [lia|lia|done|done|by rewrite Av, Al, Atr|done|done|].
    assert (Hd' : i64 (it_lastDelta it + dod) = delta).
    { rewrite Ad. unfold dod. rewrite i64_add_r. replace (_ + _) with delta by lia. apply i64_id, in_i64_i64. }
    assert (Ht' : i64 (it_lastTs it + delta) = s_ts s).
    { rewrite Ats. unfold delta. rewrite i64_add_r. replace (_ + _) with (s_ts s) by lia. by apply i64_id. }
    rewrite Hd', Ht' in E.
    eexists. split; [eapply (steps_snoc _ ss); [exact Hst|exact E|done|done|]|].
    { unfold Gen. cbn [it_n it_gens]. rewrite HAn, Hig. destruct (Z.ltb_spec (Z.of_nat (length ss) + 1 - 1) 0); [lia|].
      replace (Z.to_nat _) with (length ss) by lia. symmetry. apply (gen_lookup _ _ _ more).
      by rewrite map_app, <- app_assoc. }
    cbn [it_br it_total it_gens]. split_and!; try done; [|congruence].
    split; cbn; try done. rewrite HAn, length_app. cbn. lia.
Qed.

Lemma Append_rep c ss s c' :
  chunk_rep c ss -> sample_ok s -> Append1 c s = Ok c' -> chunk_rep c' (ss ++ [s]).
Proof.
  intros Hc Hs Happ. destruct ss; [by eapply Append_first_rep|by eapply Append_later_rep].
Qed.

Lemma append_all_rep c ss0 ss c' :
  chunk_rep c ss0 -> Forall sample_ok ss -> append_all c ss = Ok c' -> chunk_rep c' (ss0 ++ ss).
Proof.
  intros Hc Hss. revert c ss0 Hc. induction Hss as [|s ss Hs Hss IH]; intros c ss0 Hc Happ; cbn in Happ.
  - injection Happ as <-. by rewrite app_nil_r.
  - destruct (Append1 c s) as [c1|] eqn:E; [|done]. cbn in Happ.
    rewrite (cons_middle s), app_assoc. eapply IH; [|exact Happ]. by eapply Append_rep.
Qed.

(** *** The generation section *)

Lemma decodeGens_from_encode gs i prev rest :
  0 <= prev <= MaxGeneration -> Forall (fun g => 0 <= g <= MaxGeneration) gs ->
  decodeGens_from (length gs) i prev (encodeGens_from prev gs ++ rest) = Ok (gs, rest).
Proof.
  intros Hp Hgs. revert i prev Hp. induction Hgs as [|g gs Hg Hgs IH]; intros i prev Hp; [done|].
  cbn [length encodeGens_from decodeGens_from]. rewrite <- app_assoc.
  unfold MaxGeneration in *. rewrite i64_id by wsolve. rewrite Varint_PutVarint by wsolve.
  pose proof (PutVarint_pos (g - prev)). destruct (Z.leb_spec (Z.of_nat (length (PutVarint (g - prev)))) 0); [lia|].
  replace (prev + (g - prev)) with g by lia. rewrite i64_id by wsolve.
  rewrite (proj2 (orb_false_iff _ _)) by (split; apply andb_false_iff; lia).
  rewrite (proj2 (orb_false_iff _ _)) by lia.
  rewrite Nat2Z.id, drop_app_length, IH by lia. done.
Qed.

Lemma decodeGens_encodeGens gs : Forall (fun g => 0 <= g <= MaxGeneration) gs ->
  decodeGens (encodeGens gs) (length gs) = Ok gs.
Proof.
  intros Hgs. destruct Hgs as [|g gs Hg Hgs]; [done|]. unfold decodeGens, encodeGens. cbn [length].
  unfold MaxGeneration in Hg. rewrite u64_id by wsolve. rewrite Uvarint_PutUvarint by wsolve.
  pose proof (PutUvarint_pos g). destruct (Z.leb_spec (Z.of_nat (length (PutUvarint g))) 0); [lia|].
  unfold MaxGeneration at 1. destruct (Z.ltb_spec (2 ^ 62) g); [wsolve|]. rewrite i64_id by wsolve.
  rewrite Nat2Z.id, drop_app_length. rewrite <- (app_nil_r (encodeGens_from g gs)).
  rewrite decodeGens_from_encode; [done|unfold MaxGeneration; wsolve|done].
Qed.

(** *** Serializing and parsing *)

(** The validation pass runs before the generations are known; they do not
    influence anything but [Gen]. *)
Definition set_gens (gs : list Z) (it : Iterator) : Iterator :=
  mkIterator (it_br it) (it_total it) (it_n it) gs (it_lastTs it) (it_lastDelta it)
    (it_lastVal it) (it_lastLeading it) (it_lastTrailing it) (it_curTs it) (it_curVal it) (it_err it).

Lemma Next_set_gens gs it : Next (set_gens gs it) = (fst (Next it), set_gens gs (snd (Next it))).
Proof.
  unfold Next. cbn [set_gens it_br it_total it_n it_gens it_lastTs it_lastDelta it_lastVal it_lastLeading it_lastTrailing it_curTs it_curVal it_err].
  destruct (_ || _)%bool; [done|]. destruct (_ =? 0).
  - match goal with |- context [match ?m with Ok _ => _ | Err _ => _ end] => destruct m as [[[ts val] r]|e] end; done.
  - match goal with |- context [match ?m with Ok _ => _ | Err _ => _ end] => destruct m as [[[dod [[v l] t]] r]|e] end; done.
Qed.

Lemma drain_set_gens gs fuel it :
  map s_ts (fst (drain fuel (set_gens gs it))) = map s_ts (fst (drain fuel it)) /\
  map s_val (fst (drain fuel (set_gens gs it))) = map s_val (fst (drain fuel it)) /\
  snd (drain fuel (set_gens gs it)) = set_gens gs (snd (drain fuel it)).
Proof.
  revert it. induction fuel as [|f IH]; intros it; [done|]. cbn [drain]. rewrite Next_set_gens.
  destruct (Next it) as [ok it1]. cbn [fst snd]. destruct ok; [|done].
  specialize (IH it1). destruct (drain f it1) as [l it'], (drain f (set_gens gs it1)) as [l2 it2]. cbn [fst snd map] in *.
  destruct IH as (H1 & H2 & H3). cbn. by rewrite H1, H2, H3.
Qed.

Lemma length_bytes_bits l : length (l ≫= byte_bits) = (8 * length l)%nat.
Proof. induction l as [|b l IH]; [done|]. cbn [mbind list_bind]. rewrite length_app, IH, length_byte_bits. cbn. lia. Qed.

Lemma rep_bytes_len c ss : chunk_rep c ss -> Z.of_nat (length (writer_bytes (bw c))) < 2 ^ 32.
Proof.
  intros Hc. destruct (writer_bytes_bits _ (rep_wf _ _ Hc)) as (k & Hk & Hb). apply (f_equal length) in Hb.
  rewrite length_app, length_replicate, length_bytes_bits in Hb.
  pose proof (rep_len _ _ Hc). pose proof (rep_cap _ _ Hc). wsolve.
Qed.

(** The iterator of a well-represented chunk delivers its samples and stops in
    the padding of the last byte. *)
Lemma rep_samples c ss gs : chunk_rep c ss -> gs = map s_gen ss ->
  exists it', drain_all (start_it (newBitsReader (writer_bytes (bw c))) (numSamples c) gs) = (ss, it') /\
    it_err it' = None /\ (length (r_buf (it_br it')) <= r_pos (it_br it'))%nat.
Proof.
  intros Hc Hg. destruct (writer_bytes_bits _ (rep_wf _ _ Hc)) as (k & Hk & Hb).
  destruct (rep_drain c ss (newBitsReader (writer_bytes (bw c))) (replicate k false) gs Hc) as (it' & Hd & He & Hb' & Hbuf);
    [apply newBitsReader_wf, writer_bytes_ok, (rep_wf _ _ Hc)|done|done|].
  exists it'. split_and!; [done..|]. destruct (Nat.le_gt_cases (length (r_buf (it_br it'))) (r_pos (it_br it'))) as [|Hlt]; [done|].
  apply (f_equal length) in Hb'. unfold reader_bits in Hb'.
  rewrite length_app, length_replicate, length_bytes_bits, length_drop in Hb'. lia.
Qed.

Lemma samples_of_rep c ss : chunk_rep c ss -> samples_of c = ss.
Proof.
  intros Hc. destruct (rep_samples c ss (gens c) Hc (rep_gens _ _ Hc)) as (it' & Hd & _).
  unfold samples_of. change (chunk_Iterator c) with (start_it (newBitsReader (writer_bytes (bw c))) (numSamples c) (gens c)).
  by rewrite Hd.
Qed.

(** The validation pass accepts the encoder's own bit stream. *)
Lemma decodeAndValidate_rep c ss : chunk_rep c ss -> ss <> [] ->
  decodeAndValidate (minTs c) (maxTs c) (numSamples c) (writer_bytes (bw c))
  = Ok (mkChunk (minTs c) (maxTs c) (numSamples c) true (mkWriter (writer_bytes (bw c)) 0 0) [] 0 0 0 0 255 0).
Proof.
  intros Hc Hne. assert (Hpos : (0 < length ss)%nat) by (destruct ss; cbn; [done|lia]).
  destruct (rep_samples c ss _ Hc eq_refl) as (it' & Hd & He & Hpos').
  unfold decodeAndValidate. rewrite (proj2 (Z.eqb_neq _ _)) by (rewrite (rep_n _ _ Hc); lia).
  set (it0 := start_it (newBitsReader (writer_bytes (bw c))) (numSamples c) (map s_gen ss)) in *.
  change (chunk_Iterator _) with (set_gens [] it0). unfold drain_all in *. cbn [set_gens it_total].
  destruct (drain_set_gens [] (S (Z.to_nat (it_total it0))) it0) as (H1 & _ & H3).
  rewrite Hd in H1, H3. cbn [fst snd] in H1, H3.
  destruct (drain _ (set_gens [] it0)) as [ss2 it2]. cbn [fst snd] in H1, H3. subst it2.
  assert (Hlen : length ss2 = length ss) by (apply (f_equal length) in H1; by rewrite !length_map in H1).
  cbn [set_gens it_err it_br]. rewrite He, Hlen, (rep_n _ _ Hc), Z.eqb_refl, H1, (rep_bounds _ _ Hc), !Z.eqb_refl. cbn [negb orb].
  destruct (Nat.ltb_spec (r_pos (it_br it')) (length (r_buf (it_br it')))); [lia|]. done.
Qed.

Lemma bytes_fields (a b n l : Z) (payload rest : list Z) :
  let data := chunkMagicV1 ++ be_bytes 8 a ++ be_bytes 8 b ++ be_bytes 2 n ++ be_bytes 4 l ++ payload ++ rest in
  take 4 data = chunkMagicV1 /\ take 8 (drop 4 data) = be_bytes 8 a /\ take 8 (drop 12 data) = be_bytes 8 b /\
  take 2 (drop 20 data) = be_bytes 2 n /\ take 4 (drop 22 data) = be_bytes 4 l /\
  drop chunkHeaderLen data = payload ++ rest /\ length data = (chunkHeaderLen + length payload + length rest)%nat.
Proof.
  split_and!; try done. rewrite !length_app, !length_be_bytes. cbn. lia.
Qed.

(** [c'] is the sealed, read-only copy of [c]. *)
Definition same_content (c c' : Chunk) : Prop :=
  sealed c' = true /\ minTs c' = minTs c /\ maxTs c' = maxTs c /\ numSamples c' = numSamples c /\
  gens c' = gens c /\ maxGen c' = maxGen c /\ writer_bytes (bw c') = writer_bytes (bw c).

(** A chunk with fields of the right width reads back when its bit stream does. *)
Lemma FromBytes_Bytes c (p := writer_bytes (bw c)) : Z.of_nat (length p) < 2 ^ 32 -> in_i64 (minTs c) -> in_i64 (maxTs c) -> 0 <= numSamples c < 2 ^ 16 ->
  decodeAndValidate (minTs c) (maxTs c) (numSamples c) p = Ok (mkChunk (minTs c) (maxTs c) (numSamples c) true (mkWriter p 0 0) [] 0 0 0 0 255 0) ->
  length (gens c) = Z.to_nat (numSamples c) -> Forall (fun g => 0 <= g <= MaxGeneration) (gens c) -> maxGen c = max_from (gens c) 0 ->
  exists c', FromBytes (Bytes c) = Ok c' /\ same_content c c'.
Proof.
  intros Hlen Hmn Hmx Hns Hdv Hgl Hgok Hmax. unfold FromBytes, Bytes. fold p.
  destruct (bytes_fields (u64 (minTs c)) (u64 (maxTs c)) (numSamples c) (u32 (Z.of_nat (length p))) p (encodeGens (gens c)))
    as (H1 & H2 & H3 & H4 & H5 & H6 & H7).
  set (data := chunkMagicV1 ++ _) in *.
  rewrite H1, H2, H3, H4, H5, H6, H7, !be_val_bytes.
  rewrite (bool_decide_eq_true_2 (chunkMagicV1 = chunkMagicV1)) by done.
  destruct (Nat.ltb_spec (chunkHeaderLen + length p + length (encodeGens (gens c))) chunkHeaderLen); [lia|].
  cbn [orb negb]. change (8 * Z.of_nat 8) with 64. change (8 * Z.of_nat 4) with 32. change (8 * Z.of_nat 2) with 16.
  assert (Hl32 : u32 (Z.of_nat (length p)) mod 2 ^ 32 = Z.of_nat (length p)).
  { unfold u32. rewrite Z.mod_mod, Z.mod_small by wsolve. done. }
  rewrite Hl32, (Z.mod_small _ _ Hns), Nat2Z.id.
  destruct (Z.ltb_spec (Z.of_nat (chunkHeaderLen + length p + length (encodeGens (gens c)))) (Z.of_nat chunkHeaderLen + Z.of_nat (length p))); [lia|].
  assert (Hi : forall t, in_i64 t -> i64 (u64 t mod 2 ^ 64) = t).
  { intros t Ht. change (u64 t mod 2 ^ 64) with (u64 (u64 t)). by rewrite u64_u64, i64_u64, i64_id. }
  rewrite !Hi by done. rewrite take_app_length.
  replace (drop (chunkHeaderLen + length p) data) with (encodeGens (gens c)).
  2:{ rewrite <- drop_drop, H6. by rewrite drop_app_length. }
  rewrite Hdv. cbn [mbind result_bind]. rewrite <- Hgl, decodeGens_encodeGens by done. cbn [mbind result_bind].
  eexists. split; [reflexivity|]. cbn. split_and!; done.
Qed.
Lemma FromBytes_rep c ss : chunk_rep c ss -> exists c', FromBytes (Bytes c) = Ok c' /\ same_content c c'.
Proof.
  intros Hc. destruct (rep_width _ _ Hc) as (Hmn & Hmx & _). pose proof (rep_n _ _ Hc) as Hn. pose proof (rep_cap _ _ Hc) as Hcap.
  apply FromBytes_Bytes; [by eapply rep_bytes_len|done|done|change (2 ^ 16) with 65536; lia| |rewrite (rep_gens _ _ Hc), length_map; lia|apply (rep_gens_ok _ _ Hc)|apply (rep_maxGen _ _ Hc)].
  destruct ss as [|s ss]; [|by apply (decodeAndValidate_rep c (s :: ss))].
  unfold decodeAndValidate. pose proof (rep_bounds _ _ Hc) as Hb. cbn in Hb. injection Hb as <- <-. cbn in Hn. rewrite Hn. cbn [Z.eqb negb orb].
  destruct (writer_bytes_bits _ (rep_wf _ _ Hc)) as (k & Hk & Hb). pose proof (rep_len _ _ Hc) as Hl. cbn in Hl.
  apply (f_equal length) in Hb. rewrite length_app, length_replicate, length_bytes_bits in Hb.
  assert (length (writer_bytes (bw c)) = 0)%nat as -> by lia. done.
Qed.

(** *** What an accepted payload guarantees *)

Lemma Next_true it it1 : Next it = (true, it1) ->
  it_n it1 = it_n it + 1 /\ it_gens it1 = it_gens it /\ it_total it1 = it_total it /\ it_n it < it_total it.
Proof.
  unfold Next. destruct (Z.leb_spec (it_total it) (it_n it)); [done|]. cbn [orb].
  destruct (bool_decide (it_err it <> None)); [done|]. destruct (it_n it =? 0).
  - match goal with |- context [match ?m with Ok _ => _ | Err _ => _ end] => destruct m as [[[ts val] r]|e] end;
      try done; intros [= <-]; done.
  - match goal with |- context [match ?m with Ok _ => _ | Err _ => _ end] => destruct m as [[[dod [[v l] t]] r]|e] end;
      try done; intros [= <-]; done.
Qed.

(** Whatever the payload, what is delivered is of machine width. *)
Lemma readBits_u64 r n v r' : readBits r n = Ok (v, r') -> in_u64 v.
Proof.
  unfold readBits. assert (H0 : in_u64 0) by wsolve. revert H0. generalize 0 as acc. revert r. generalize (Z.to_nat (if 64 <? n then 64 else n)) as k. induction k as [|k IH]; intros r acc Ha; cbn [readBits_go]; [by intros [= <- _]|].
  destruct (readBit r) as [[b r1]|] eqn:E; [|done]. rewrite bind_Ok. apply IH. unfold readBit in E. destruct (loadByte r) as [r0|]; [|done]. rewrite bind_Ok in E. injection E as <- _.
  pose proof (in_u64_u64 (Z.shiftl acc 1)) as Hu. unfold in_u64 in *. split; [apply Z.lor_nonneg; split; [lia|apply Z.land_nonneg; lia]|].
  apply testbit_lt; [lia|apply Z.lor_nonneg; split; [lia|apply Z.land_nonneg; lia]|]. intros i Hi. rewrite Z.lor_spec, (testbit_high 64) by lia. cbn [orb]. rewrite Z.land_spec. replace 1 with (Z.ones 1) by done. rewrite Z.ones_spec_high by lia. apply andb_false_r.
Qed.
Lemma in_u64_lxor a b : in_u64 a -> in_u64 b -> in_u64 (Z.lxor a b).
Proof.
  unfold in_u64. intros Ha Hb. split; [apply Z.lxor_nonneg; lia|]. apply testbit_lt; [lia|apply Z.lxor_nonneg; lia|]. intros i Hi. by rewrite Z.lxor_spec, !(testbit_high 64) by lia.
Qed.
Lemma decodeValue_u64 lastVal lead trail r v w t r' : in_u64 lastVal -> decodeValue lastVal lead trail r = Ok ((v, w, t), r') -> in_u64 v.
Proof.
  intros Hl. unfold decodeValue. destruct (readBit r) as [[b0 r1]|]; [|done]. rewrite bind_Ok. destruct (b0 =? 0); [by intros [= <- _ _ _]|]. destruct (readBit r1) as [[b1 r2]|]; [|done]. rewrite bind_Ok. destruct (b1 =? 0).
  - destruct (readBits r2 _) as [[x r3]|]; [|done]. rewrite bind_Ok. intros [= <- _ _ _]. by apply in_u64_lxor, in_u64_u64.
  - destruct (readBits r2 5) as [[x r3]|]; [|done]. rewrite bind_Ok. destruct (readBits r3 6) as [[y r4]|]; [|done]. rewrite bind_Ok. destruct (readBits r4 _) as [[z r5]|]; [|done]. rewrite bind_Ok. intros [= <- _ _ _]. by apply in_u64_lxor, in_u64_u64.
Qed.
Lemma Next_width it it1 : in_u64 (it_lastVal it) -> Next it = (true, it1) -> in_u64 (it_lastVal it1) /\ in_i64 (it_curTs it1) /\ in_u64 (it_curVal it1).
Proof.
  intros Hl. unfold Next. destruct (_ || _)%bool; [done|]. destruct (it_n it =? 0).
  - destruct (readBits (it_br it) 64) as [[ts r]|]; [|done]. rewrite bind_Ok. destruct (readBits r 64) as [[val r']|] eqn:E; [|done]. rewrite bind_Ok. intros [= <-]. apply readBits_u64 in E. cbn. split_and!; [done|apply in_i64_i64|done].
  - destruct (decodeTimestamp (it_br it)) as [[dod r]|]; [|done]. rewrite bind_Ok. destruct (decodeValue _ _ _ r) as [[[[v l] t] r']|] eqn:E; [|done]. rewrite bind_Ok. intros [= <-]. apply decodeValue_u64 in E; [|done]. cbn. split_and!; [done|apply in_i64_i64|done].
Qed.
Lemma drain_width fuel it : in_u64 (it_lastVal it) -> Forall (fun s => in_i64 (s_ts s) /\ in_u64 (s_val s)) (fst (drain fuel it)).
Proof.
  revert it. induction fuel as [|f IH]; intros it Hl; cbn [drain]; [constructor|]. destruct (Next it) as [[] it1] eqn:E; [|constructor]. destruct (Next_width _ _ Hl E) as (H1 & H2 & H3).
  specialize (IH it1 H1). destruct (drain f it1) as [l it2]. constructor; done.
Qed.
Lemma samples_width c : Forall (fun s => in_i64 (s_ts s) /\ in_u64 (s_val s)) (samples_of c).
Proof. apply drain_width. cbn. wsolve. Qed.

(** The generations delivered are those of the section, in order. *)
Lemma drain_gens fuel it : 0 <= it_n it -> (Z.of_nat (length (it_gens it)) = it_total it) ->
  let '(ss, _) := drain fuel it in
  map s_gen ss = take (length ss) (drop (Z.to_nat (it_n it)) (it_gens it)).
Proof.
  revert it. induction fuel as [|f IH]; intros it Hn Hl; [done|]. cbn [drain].
  destruct (Next it) as [[] it1] eqn:E; [|done].
  destruct (Next_true _ _ E) as (Hn1 & Hg1 & Ht1 & Hlt).
  specialize (IH it1 ltac:(lia) ltac:(congruence)). destruct (drain f it1) as [l it2]. cbn [map length].
  destruct (it_gens it !! Z.to_nat (it_n it)) as [g|] eqn:Eg; [|apply lookup_ge_None in Eg; lia].
  rewrite (drop_S _ _ _ Eg). cbn [take]. f_equal.
  - cbn [s_gen]. unfold Gen. rewrite Hn1, Hg1. destruct (Z.ltb_spec (it_n it + 1 - 1) 0); [lia|].
    replace (it_n it + 1 - 1) with (it_n it) by lia. by rewrite Eg.
  - rewrite IH, Hn1, Hg1. do 2 f_equal. lia.
Qed.

Lemma bounds_some l o : is_Some o -> is_Some (fold_left bounds_step l o).
Proof. revert o. induction l as [|t l IH]; intros o [[lo hi] ->]; [by eexists|]. apply IH. by eexists. Qed.
Lemma bounds_nonempty l : l <> [] -> is_Some (fold_left bounds_step l None).
Proof. destruct l as [|t l]; [done|]. intros _. apply (bounds_some l (Some (t, t))). done. Qed.

Lemma bounds_fold l lo hi : fold_left bounds_step l None = Some (lo, hi) ->
  In lo l /\ In hi l /\ Forall (fun t => lo <= t <= hi) l.
Proof.
  revert lo hi. induction l as [|t l IH] using rev_ind; intros lo hi H; [done|].
  rewrite bounds_app in H. destruct (fold_left bounds_step l None) as [[lo0 hi0]|] eqn:E.
  - destruct (IH lo0 hi0 eq_refl) as (Hlo & Hhi & HF). cbn in H. injection H as <- <-.
    rewrite !in_app_iff. split_and!; [destruct (t <? lo0); cbn; auto|destruct (hi0 <? t); cbn; auto|].
    apply Forall_app. split; [|constructor; [zbool; lia|done]].
    eapply Forall_impl; [exact HF|]. cbn. intros x Hx. zbool; lia.
  - destruct (decide (l = [])) as [->|Hne]; [|destruct (bounds_nonempty _ Hne); congruence].
    cbn in H. injection H as <- <-. cbn. split_and!; [auto..|]. by repeat constructor.
Qed.

Lemma max_from_spec gs m : m <= max_from gs m /\ Forall (fun g => g <= max_from gs m) gs /\
  (max_from gs m = m \/ In (max_from gs m) gs).
Proof.
  induction gs as [|g gs IH] using rev_ind; [cbn; split_and!; auto; lia|].
  destruct IH as (H1 & H2 & H3). rewrite !max_from_app, in_app_iff. cbn.
  split_and!; [zbool; lia| |zbool; tauto].
  apply Forall_app. split; [|repeat constructor; zbool; lia].
  eapply Forall_impl; [exact H2|]. cbn. intros; zbool; lia.
Qed.

Lemma decodeGens_from_ok k i prev data gs rest : decodeGens_from k i prev data = Ok (gs, rest) ->
  length gs = k /\ Forall (fun g => 0 <= g <= MaxGeneration) gs.
Proof.
  revert i prev data gs. induction k as [|k IH]; intros i prev data gs; cbn [decodeGens_from].
  - intros [= <- <-]. by split; [|constructor].
  - destruct (Varint data) as [d n]. destruct (n <=? 0); [done|].
    destruct (_ || _)%bool; [done|]. destruct (Z.ltb_spec (i64 (prev + d)) 0); [done|].
    destruct (Z.ltb_spec MaxGeneration (i64 (prev + d))); [done|]. cbn [orb].
    destruct (decodeGens_from k _ _ _) as [[gs' rest']|] eqn:E; [|done]. cbn. intros [= <- <-].
    apply IH in E as [Hl HF]. cbn [length]. split; [congruence|]. constructor; [lia|done].
Qed.
Lemma decodeGens_ok data k gs : decodeGens data k = Ok gs ->
  length gs = k /\ Forall (fun g => 0 <= g <= MaxGeneration) gs.
Proof.
  unfold decodeGens. destruct k as [|k].
  - cbn. destruct data; [|done]. intros [= <-]. by split; [|constructor].
  - destruct (Uvarint data) as [v n] eqn:Ev. destruct (n <=? 0); [done|].
    destruct (Z.ltb_spec MaxGeneration v) as [|Hv]; [done|].
    destruct (decodeGens_from k _ _ _) as [[gs' rest]|] eqn:E; [|done]. cbn.
    destruct rest; [|done]. intros [= <-]. apply decodeGens_from_ok in E as [Hl HF]. cbn [length]. split; [congruence|].
    constructor; [|done].
    assert (0 <= v) by (apply (f_equal fst) in Ev; cbn in Ev; subst v; apply Uvarint_nonneg).
    unfold MaxGeneration in *. rewrite i64_id by wsolve. lia.
Qed.

Lemma decodeAndValidate_ok mn mx n payload c : decodeAndValidate mn mx n payload = Ok c ->
  exists ss it, drain_all (chunk_Iterator c) = (ss, it) /\ it_err it = None /\ Z.of_nat (length ss) = n /\
    default (0, 0) (fold_left bounds_step (map s_ts ss) None) = (mn, mx) /\
    c = mkChunk mn mx n true (mkWriter payload 0 0) [] 0 0 0 0 255 0.
Proof.
  unfold decodeAndValidate. destruct (Z.eqb_spec n 0) as [->|Hn].
  - destruct (Z.eqb_spec mn 0) as [->|]; [|done]. destruct (Z.eqb_spec mx 0) as [->|]; [|done]. cbn [negb orb].
    destruct (_ =? 0); [|done]. cbn [negb]. intros [= <-]. by eexists _, _.
  - destruct (drain_all _) as [ss it] eqn:E. destruct (it_err it) eqn:Ee; [done|].
    destruct (Z.eqb_spec (Z.of_nat (length ss)) n); [|done]. cbn [negb].
    destruct (default (0, 0) _) as [lo hi] eqn:Eb.
    destruct (Z.eqb_spec lo mn) as [->|]; [|done]. destruct (Z.eqb_spec hi mx) as [->|]; [|done]. cbn [negb orb].
    destruct (_ <? _)%nat; [done|]. intros [= <-]. by eexists _, _.
Qed.

(** ** Sealing *)

Definition seal_due (c : Chunk) : Prop := 120 <= numSamples c \/ 7200000 <= maxTs c - minTs c.

Lemma Append_seals c ss s c' : chunk_rep c ss -> sample_ok s -> Append1 c s = Ok c' ->
  (sealed c' = true <-> seal_due c').
Proof.
  intros Hc Hs Happ. pose proof (Append_rep _ _ _ _ Hc Hs Happ) as Hc'.
  destruct (Append_range _ _ _ Happ) as [Hopen Hg]. destruct (rep_width _ _ Hc') as (Hmn & Hmx & _).
  unfold seal_due. unfold Append1, Append in Happ. rewrite Hopen in Happ.
  rewrite (proj2 (orb_false_iff _ _)) in Happ by lia.
  destruct (Z.eqb_spec (numSamples c) 0) as [E|E].
  - injection Happ as <-. cbn. rewrite E. change (u16 (0 + 1)) with 1. split; [done|lia].
  - destruct (writeValueXOR _ _ _ _ _) as [[w' l'] t']. injection Happ as <-. cbn in *.
    rewrite orb_false_r, !orb_true_iff, Z.leb_le, Z.ltb_lt, Z.leb_le. unfold maxSamples, maxSpanMs.
    set (mx := if maxTs c <? s_ts s then s_ts s else maxTs c) in *.
    set (mn := if s_ts s <? minTs c then s_ts s else minTs c) in *.
    assert (Hle : mn <= mx).
    { destruct ss as [|s0 ss]; [by rewrite (rep_n _ _ Hc) in E|].
      pose proof (default_some _ _ _ (rep_some _ _ Hc ltac:(done)) (rep_bounds _ _ Hc)) as Hb.
      destruct (bounds_fold _ _ _ Hb) as (Hin & _ & HF). rewrite Forall_forall in HF.
      apply list_elem_of_In in Hin. apply HF in Hin. subst mx mn. zbool; lia. }
    destruct (decide (mx - mn < 2 ^ 63)) as [Hlt|Hlt]; [rewrite i64_id by wsolve; lia|].
    rewrite i64_wrap; [wsolve|]. subst mx mn. wsolve.
Qed.

Lemma append_all_app c ss1 ss2 : append_all c (ss1 ++ ss2) = (c' ← append_all c ss1; append_all c' ss2).
Proof. revert c. induction ss1 as [|s ss1 IH]; intros c; cbn; [done|]. destruct (Append1 c s); cbn; [apply IH|done]. Qed.

(** ** Properties *)

(** A chunk that holds what it decodes to; every stored chunk is one. *)
Definition chunk_ok (c : Chunk) : Prop := chunk_rep c (samples_of c) /\ Forall sample_ok (samples_of c).

Lemma chunk_ok_rep c ss : chunk_rep c ss -> Forall sample_ok ss -> chunk_ok c.
Proof. intros Hc Hs. unfold chunk_ok. by rewrite (samples_of_rep c ss Hc). Qed.
Lemma NewChunk_samples : samples_of NewChunk = [].
Proof. apply samples_of_rep, NewChunk_rep. Qed.
Lemma NewChunk_ok : chunk_ok NewChunk.
Proof. eapply chunk_ok_rep; [apply NewChunk_rep|constructor]. Qed.

Lemma Seal_rep c ss : chunk_rep c ss -> chunk_rep (Seal c) ss.
Proof.
  intros H. split; try (by destruct H).
  intros r rest total gs more H1 H2 H3 H4. destruct (rep_read _ _ H r rest total gs more H1 H2 H3 H4) as (it' & Hs & Hat & Hrest).
  exists it'. split; [done|]. split; [|done]. destruct Hat. by split.
Qed.
Lemma Seal_samples c : chunk_ok c -> samples_of (Seal c) = samples_of c.
Proof. intros [Hc _]. apply samples_of_rep, Seal_rep, Hc. Qed.
Lemma Seal_ok c : chunk_ok c -> chunk_ok (Seal c).
Proof. intros H. pose proof H as [Hc Hs]. eapply chunk_ok_rep; [by apply Seal_rep|done]. Qed.

Lemma Append_ok c x c' : chunk_ok c -> sample_ok x -> Append1 c x = Ok c' ->
  chunk_ok c' /\ samples_of c' = samples_of c ++ [x].
Proof.
  intros [Hc Hs] Hx E. pose proof (Append_rep _ _ _ _ Hc Hx E) as Hc'. split; [|by apply samples_of_rep].
  eapply chunk_ok_rep; [exact Hc'|]. apply Forall_app. split; [done|by constructor].
Qed.

Lemma drained_ok c ss : chunk_rep c ss -> it_err (snd (drain_all (chunk_Iterator c))) = None.
Proof.
  intros Hc. destruct (rep_samples c ss (gens c) Hc (rep_gens _ _ Hc)) as (it' & Hd & Herr & _).
  change (chunk_Iterator c) with (start_it (newBitsReader (writer_bytes (bw c))) (numSamples c) (gens c)). rewrite Hd. exact Herr.
Qed.
(** What a reader may rely on of a chunk, in memory or parsed. *)
Record chunk_sound (c : Chunk) : Prop := {
  cs_len : Z.of_nat (length (samples_of c)) = numSamples c;
  cs_err : it_err (snd (drain_all (chunk_Iterator c))) = None;
  cs_bounds : Forall (fun s => minTs c <= s_ts s <= maxTs c) (samples_of c);
  cs_reached : samples_of c <> [] -> In (minTs c) (map s_ts (samples_of c)) /\ In (maxTs c) (map s_ts (samples_of c));
  cs_gens : map s_gen (samples_of c) = gens c;
  cs_gens_ok : Forall (fun g => 0 <= g <= MaxGeneration) (gens c);
  cs_maxGen : maxGen c = max_from (gens c) 0;
  cs_width : in_i64 (minTs c) /\ in_i64 (maxTs c) }.

Lemma bounds_sound c lo hi : samples_of c <> [] -> fold_left bounds_step (map s_ts (samples_of c)) None = Some (lo, hi) ->
  Forall (fun s => lo <= s_ts s <= hi) (samples_of c) /\ In lo (map s_ts (samples_of c)) /\ In hi (map s_ts (samples_of c)).
Proof. intros _ Hb. by destruct (bounds_fold _ _ _ Hb) as (Hlo & Hhi & HF%Forall_map). Qed.
Lemma chunk_ok_sound c : chunk_ok c -> chunk_sound c.
Proof.
  intros [Hc _]. assert (Hb : samples_of c <> [] -> fold_left bounds_step (map s_ts (samples_of c)) None = Some (minTs c, maxTs c))
    by (intros Hne; exact (default_some _ _ _ (rep_some _ _ Hc Hne) (rep_bounds _ _ Hc))).
  split; [by rewrite (rep_n _ _ Hc)|apply (drained_ok c (samples_of c) Hc)| | |by rewrite (rep_gens _ _ Hc)|apply (rep_gens_ok _ _ Hc)|apply (rep_maxGen _ _ Hc)|by destruct (rep_width _ _ Hc) as (? & ? & _)].
  - destruct (decide (samples_of c = [])) as [->|Hne]; [constructor|]. by apply bounds_sound, Hb.
  - intros Hne. by apply (bounds_sound c _ _ Hne (Hb Hne)).
Qed.
Lemma chunk_bounds c x : chunk_sound c -> x ∈ samples_of c -> minTs c <= s_ts x <= maxTs c.
Proof. intros Hc Hx. pose proof (cs_bounds c Hc) as HF. rewrite Forall_forall in HF. by apply HF. Qed.
Lemma chunk_empty c : chunk_sound c -> numSamples c = 0 -> samples_of c = [].
Proof. intros Hc E. pose proof (cs_len c Hc). destruct (samples_of c); [done|cbn in *; lia]. Qed.

Lemma FromBytes_facts (data : list Z) (c : Chunk) (Hparse : FromBytes data = Ok c) :
  sealed c = true /\ Z.of_nat (length (samples_of c)) = numSamples c /\
  it_err (snd (drain_all (chunk_Iterator c))) = None /\
  Forall (fun s => minTs c <= s_ts s <= maxTs c) (samples_of c) /\
  (samples_of c <> [] -> In (minTs c) (map s_ts (samples_of c)) /\ In (maxTs c) (map s_ts (samples_of c))) /\
  map s_gen (samples_of c) = gens c /\ Forall (fun g => 0 <= g <= MaxGeneration) (gens c) /\ maxGen c = max_from (gens c) 0 /\
  in_i64 (minTs c) /\ in_i64 (maxTs c).
Proof.
  unfold FromBytes in Hparse. destruct (_ || _)%bool; [done|]. destruct (_ <? _); [done|].
  set (n := be_val (take 2 (drop 20 data))) in *. set (bl := be_val (take 4 (drop 22 data))) in *.
  destruct (decodeAndValidate _ _ n _) as [c0|] eqn:Edv; [|done]. cbn [mbind result_bind] in Hparse.
  destruct (decodeGens _ _) as [gs|] eqn:Eg; [|done]. cbn [mbind result_bind] in Hparse.
  apply decodeAndValidate_ok in Edv as (ss0 & it0 & Hd & Herr & Hlen & Hb & ->).
  apply decodeGens_ok in Eg as [Hgl Hgr]. injection Hparse as <-. unfold samples_of.
  match goal with |- context [chunk_Iterator ?x] => set (c := x) end.
  change (chunk_Iterator c) with (set_gens gs (chunk_Iterator (mkChunk (i64 (be_val (take 8 (drop 4 data))))
    (i64 (be_val (take 8 (drop 12 data)))) n true (mkWriter (take (Z.to_nat bl) (drop chunkHeaderLen data)) 0 0) [] 0 0 0 0 255 0))).
  unfold drain_all in *. cbn [set_gens it_total] in *.
  match type of Hd with drain ?f ?i = _ => destruct (drain_set_gens gs f i) as (H1 & _ & H3);
    pose proof (drain_gens f (set_gens gs i)) as Hgens end.
  rewrite Hd in H1, H3. cbn [fst snd] in H1, H3. destruct (drain _ (set_gens gs _)) as [ss it]. cbn [fst snd] in *. subst it.
  assert (Hl : length ss = length ss0) by (apply (f_equal length) in H1; by rewrite !length_map in H1).
  assert (Hbd : ss <> [] -> fold_left bounds_step (map s_ts ss) None
      = Some (i64 (be_val (take 8 (drop 4 data))), i64 (be_val (take 8 (drop 12 data))))).
  { intros Hne. apply (default_some (0, 0)); [apply bounds_nonempty; by destruct ss|congruence]. }
  cbn [sealed numSamples minTs maxTs gens maxGen c]. refine (conj eq_refl (conj _ (conj _ (conj _ (conj _ (conj _ (conj _ (conj eq_refl (conj (in_i64_i64 _) (in_i64_i64 _)))))))))); try done; [congruence|..].
  - destruct (decide (ss = [])) as [->|Hne]; [constructor|].
    by destruct (bounds_fold _ _ _ (Hbd Hne)) as (_ & _ & HF%Forall_map).
  - intros Hne. by destruct (bounds_fold _ _ _ (Hbd Hne)) as (Hlo & Hhi & _).
  - cbn in Hgens. rewrite Hgens by lia. apply take_ge. lia.
Qed.
Lemma FromBytes_parsed data c : FromBytes data = Ok c -> chunk_sound c /\ sealed c = true.
Proof. intros H%FromBytes_facts. split; [|apply H]. split; apply H. Qed.

(** C5. A chunk gives back exactly what was appended to it, and so does the copy
    that survives serialization: whatever samples [Append] accepted, in whatever
    order and with whatever values and generations, iterating the chunk
    ([Iterator], [Next], [At], [Gen]) visits exactly those samples in insertion
    order; [FromBytes] accepts [Bytes] of the chunk; and the parsed chunk is
    sealed and has the same samples, bounds, count, generations and maximum
    generation. *)
Theorem chunk_roundtrip (ss : list sample) (c : Chunk)
  (Hok : Forall sample_ok ss) (Happ : append_all NewChunk ss = Ok c) :
  samples_of c = ss /\
  exists c', FromBytes (Bytes c) = Ok c' /\ same_content c c' /\ samples_of c' = ss.
Proof.
  pose proof (append_all_rep _ _ _ _ NewChunk_rep Hok Happ) as Hc. cbn [app] in Hc.
  split; [by apply samples_of_rep|].
  destruct (FromBytes_rep _ _ Hc) as (c' & Hf & Hsame). exists c'. split_and!; [done..|].
  destruct Hsame as (_ & _ & _ & Hn & Hg & _ & Hb).
  rewrite <- (samples_of_rep _ _ Hc). unfold samples_of, chunk_Iterator. by rewrite Hn, Hg, Hb.
Qed.

(** A parsed chunk serializes to a payload that parses to the same chunk. *)
Lemma FromBytes_again data c : bytes_ok data -> FromBytes data = Ok c -> exists c', FromBytes (Bytes c) = Ok c' /\ same_content c c'.
Proof.
  intros Hb Hparse. pose proof (FromBytes_parsed data c Hparse) as [[_ _ _ _ _ Hgok Hmax _] _]. unfold FromBytes in Hparse. destruct (_ || _)%bool; [done|].
  assert (Hr : forall n m, 0 <= be_val (take n (drop m data)) < 2 ^ (8 * Z.of_nat n)).
  { intros n m. pose proof (be_val_range (take n (drop m data)) ltac:(by apply Forall_take, Forall_drop)) as [H0 H]. split; [done|]. eapply Z.lt_le_trans; [exact H|]. apply Z.pow_le_mono_r; [lia|]. rewrite length_take. lia. }
  pose proof (Hr 2%nat 20%nat) as Hn. pose proof (Hr 4%nat 22%nat) as Hl. set (n := be_val (take 2 (drop 20 data))) in *. set (bl := be_val (take 4 (drop 22 data))) in *.
  destruct (Z.ltb_spec (Z.of_nat (length data)) (Z.of_nat chunkHeaderLen + bl)) as [|Hlen]; [done|].
  destruct (decodeAndValidate _ _ n _) as [c0|] eqn:Edv; [|done]. cbn [mbind result_bind] in Hparse.
  destruct (decodeGens _ _) as [gs|] eqn:Eg; [|done]. cbn [mbind result_bind] in Hparse. pose proof Edv as Edv0.
  apply decodeAndValidate_ok in Edv as (ss0 & it0 & Hd & Herr & Hcnt & Hbd & ->). apply decodeGens_ok in Eg as [Hgl _]. injection Hparse as <-.
  apply FromBytes_Bytes; [|apply in_i64_i64|apply in_i64_i64|exact Hn|exact Edv0|exact Hgl|exact Hgok|exact Hmax].
  change (Z.of_nat (length (take (Z.to_nat bl) (drop chunkHeaderLen data))) < 2 ^ 32). rewrite length_take, length_drop. cbn in Hl. change (2 ^ 32) with 4294967296. lia.
Qed.

Lemma same_content_samples c c' : same_content c c' -> samples_of c' = samples_of c.
Proof. intros (_ & _ & _ & Hn & Hg & _ & Hb). unfold samples_of, chunk_Iterator. by rewrite Hn, Hg, Hb. Qed.
(** Chunks fit to be stored and sent: sound, and read back from their payload. *)
Definition ships (c : Chunk) : Prop := chunk_sound c /\ exists c', FromBytes (Bytes c) = Ok c' /\ same_content c c'.
Lemma chunk_ok_ships c : chunk_ok c -> ships c.
Proof. intros Hc. split; [by apply chunk_ok_sound|]. destruct Hc as [Hc _]. by apply FromBytes_rep in Hc. Qed.
Lemma parsed_ships data c : bytes_ok data -> FromBytes data = Ok c -> ships c.
Proof. intros Hb H. split; [by apply FromBytes_parsed in H as [? _]|by eapply FromBytes_again]. Qed.
Lemma Bytes_long c : (26 <= length (Bytes c))%nat.
Proof. unfold Bytes. rewrite !length_app, !length_be_bytes. cbn. lia. Qed.

(** C23. What [FromBytes] accepts can be trusted by every reader: on an accepted
    payload, whatever its bytes, iteration delivers exactly the declared number of
    samples and never an error, every sample lies within the chunk's bounds and
    both bounds are reached, each sample has its own generation, and generations
    lie in [0, MaxGeneration] and below the chunk's maximum; the chunk is sealed. *)
Theorem FromBytes_sound (data : list Z) (c : Chunk) (Hparse : FromBytes data = Ok c) :
  sealed c = true /\ Z.of_nat (length (samples_of c)) = numSamples c /\
  it_err (snd (drain_all (chunk_Iterator c))) = None /\
  Forall (fun s => minTs c <= s_ts s <= maxTs c) (samples_of c) /\
  (samples_of c <> [] -> In (minTs c) (map s_ts (samples_of c)) /\ In (maxTs c) (map s_ts (samples_of c))) /\
  map s_gen (samples_of c) = gens c /\
  Forall (fun g => 0 <= g <= MaxGeneration /\ g <= maxGen c) (gens c).
Proof.
  destruct (FromBytes_parsed data c Hparse) as [[H1 H2 H3 H4 H5 H6 H7 _] Hs]. split_and!; try done. rewrite H7. destruct (max_from_spec (gens c) 0) as (_ & Hm & _).
  apply Forall_forall. intros g Hg. rewrite Forall_forall in H6, Hm. by split; [apply H6|apply Hm].
Qed.

(** Sealing happens exactly at the documented threshold: after any sequence of
    accepted appends the chunk holds at most 120 samples and is sealed iff it holds
    120 of them or spans at least two hours, the span being the exact difference of
    the bounds even where the 64-bit subtraction in the code wraps; a sealed chunk
    refuses every append with [ErrChunkFull], and an open one accepts every sample
    whose generation is in range. *)
Theorem chunk_seal_threshold (ss : list sample) (c : Chunk)
  (Hok : Forall sample_ok ss) (Happ : append_all NewChunk ss = Ok c) :
  numSamples c = Z.of_nat (length ss) /\ numSamples c <= 120 /\ (sealed c = true <-> seal_due c) /\
  (forall s, sealed c = true -> Append1 c s = Err ErrChunkFull) /\
  (forall s, sealed c = false -> 0 <= s_gen s <= MaxGeneration -> exists c', Append1 c s = Ok c').
Proof.
  pose proof (append_all_rep _ _ _ _ NewChunk_rep Hok Happ) as Hc. cbn [app] in Hc.
  pose proof (rep_cap _ _ Hc) as Hcap. rewrite (rep_n _ _ Hc). split_and!; [done|lia|..].
  - destruct ss as [|s ss _] using rev_ind.
    { injection Happ as <-. unfold seal_due. cbn. split; [done|lia]. }
    apply Forall_app in Hok as [Hok Hs]. apply Forall_inv in Hs.
    rewrite append_all_app in Happ. destruct (append_all NewChunk ss) as [c0|] eqn:E; [|done]. cbn in Happ.
    destruct (Append1 c0 s) as [c1|] eqn:E1; [|done]. injection Happ as ->.
    eapply Append_seals; [|done|done]. exact (append_all_rep _ _ _ _ NewChunk_rep Hok E).
  - intros s Hs. unfold Append1, Append. by rewrite Hs.
  - intros s Hs Hg. unfold Append1, Append. rewrite Hs, (proj2 (orb_false_iff _ _)) by lia.
    destruct (_ =? 0); [by eexists|]. destruct (writeValueXOR _ _ _ _ _) as [[w l] t]. by eexists.
Qed.

(** *** Witnesses: an out-of-order series whose last timestamp wraps the span *)

Definition demo_samples : list sample :=
  [mkSample 1000 4607182418800017408 5; mkSample 2000 4607182418800017408 9; mkSample 1500 4611686018427387904 7;
   mkSample (-5) 77 7; mkSample 9223372036854775807 0 4611686018427387904].
Definition demo_chunk : Chunk := match append_all NewChunk demo_samples with Ok c => c | Err _ => NewChunk end.

Lemma demo_ok : Forall sample_ok demo_samples.
Proof. repeat constructor; cbn; lia. Qed.

Lemma chunk_roundtrip_witness : samples_of demo_chunk = demo_samples /\
  exists c', FromBytes (Bytes demo_chunk) = Ok c' /\ same_content demo_chunk c' /\ samples_of c' = demo_samples.
Proof. apply (chunk_roundtrip demo_samples demo_chunk demo_ok). vm_compute. reflexivity. Defined.

Definition demo_parsed : Chunk := match FromBytes (Bytes demo_chunk) with Ok c => c | Err _ => NewChunk end.
Lemma FromBytes_sound_witness : sealed demo_parsed = true /\ map s_gen (samples_of demo_parsed) = gens demo_parsed.
Proof.
  destruct (FromBytes_sound (Bytes demo_chunk) demo_parsed) as (H1 & _ & _ & _ & _ & H2 & _);
    [vm_compute; reflexivity|]. split; [exact H1|exact H2].
Defined.

Lemma chunk_seal_threshold_witness : sealed demo_chunk = true <-> seal_due demo_chunk.
Proof.
  destruct (chunk_seal_threshold demo_samples demo_chunk demo_ok) as (_ & _ & H & _);
    [vm_compute; reflexivity|exact H].
Defined.
