(* ===== verification/Dedup.v ===== *)
(** * Dedup: one sample per timestamp, the last write winning

    [dedupByGeneration], [sortAndDedup] and [laterSample] of
    [internal/metrics/source.go] and [rechunk] of
    [internal/storage/block/compact.go]: the rule by which every read and every
    compaction decides which of several writes at one timestamp survives.
    A [metrics.Sample] is the [sample] of Chunk.v; its [SeriesID] field is constant
    within a series' answer and no function of this file reads it. *)
From S2P Require Import Prelude GoLib GoSort Bits Chunk.

(** ** Operations *)

Definition outranks (a b : sample) : bool := Outranks (s_gen a) (s_val a) (s_gen b) (s_val b).

(** [dedupByGeneration] works in the input's backing array: [buf] is that array,
    [n] the length of [out] (so [out] is its first [n] cells), [i] the read index.
    Reading [sorted[i]] reads the array as the loop has left it. *)
Fixpoint dedup_loop (fuel : nat) (buf : list sample) (n i : nat) : list sample * nat :=
  match fuel with
  | O => (buf, n)
  | S f =>
      match buf !! i, buf !! (n - 1)%nat with
      | Some cur, Some last =>
          if s_ts cur =? s_ts last then
            if outranks cur last then dedup_loop f (<[(n - 1)%nat := cur]> buf) n (S i)
            else dedup_loop f buf n (S i)
          else dedup_loop f (<[n := cur]> buf) (S n) (S i)
      | _, _ => (buf, n)
      end
  end.
Definition dedupByGeneration (sorted : list sample) : list sample :=
  if (length sorted <=? 1)%nat then sorted
  else let '(buf, n) := dedup_loop (length sorted - 1) sorted 1 1 in take n buf.

Definition sortAndDedup (samples : list sample) : list sample :=
  dedupByGeneration (sort_by s_ts samples).

Definition laterSample (a b : option sample) : option sample :=
  match a, b with
  | None, _ => b
  | _, None => a
  | Some x, Some y =>
      if ((s_ts x <? s_ts y) || ((s_ts y =? s_ts x) && outranks y x))%bool then b else a
  end.

(** The chunking loop of [rechunk]: [done] are the chunks before the current one.
    The result of [Append] is discarded, as in the code. *)
Fixpoint rechunk_loop (closed : list Chunk) (cur : Chunk) (l : list sample) : list Chunk :=
  match l with
  | [] => closed ++ [cur]
  | s :: rest =>
      let '(closed, cur) := if sealed cur then (closed ++ [cur], NewChunk) else (closed, cur) in
      match Append1 cur s with
      | Ok cur' => rechunk_loop closed cur' rest
      | Err _ => rechunk_loop closed cur rest
      end
  end.
Definition rechunk (samples : list sample) : list Chunk :=
  match samples with
  | [] => []
  | _ => rechunk_loop [] NewChunk (sortAndDedup samples)
  end.

(** ** The specification: which writes survive *)

(** [s] is the write of its timestamp that no other write of [l] outranks. *)
Definition survives (l : list sample) (s : sample) : Prop :=
  In s l /\ forall x, In x l -> s_ts x = s_ts s -> x = s \/ outranks s x = true.

(** The loop without the array: what is left of [last :: rest]. *)
Fixpoint dedup_ref (last : sample) (rest : list sample) : list sample :=
  match rest with
  | [] => [last]
  | s :: r =>
      if s_ts s =? s_ts last then dedup_ref (if outranks s last then s else last) r
      else last :: dedup_ref s r
  end.

(** ** Outranks is a strict total order *)

Lemma outranks_spec a b : outranks a b = true <-> s_gen b < s_gen a \/ s_gen a = s_gen b /\ s_val b < s_val a.
Proof. unfold outranks, Outranks. destruct (Z.eqb_spec (s_gen a) (s_gen b)); cbn; rewrite Z.ltb_lt; lia. Qed.
Lemma outranks_trans a b c : outranks a b = true -> outranks b c = true -> outranks a c = true.
Proof. rewrite !outranks_spec. lia. Qed.
Lemma outranks_irrefl a : outranks a a = false.
Proof. apply not_true_iff_false. rewrite outranks_spec. lia. Qed.
Lemma outranks_total a b : s_ts a = s_ts b -> a = b \/ outranks a b = true \/ outranks b a = true.
Proof.
  intros Ht. rewrite !outranks_spec. destruct a as [ta va ga], b as [tb vb gb]; cbn in *. subst tb.
  destruct (Z.eq_dec ga gb) as [->|]; [|lia]. destruct (Z.eq_dec va vb) as [->|]; [by left|lia].
Qed.
Lemma outranks_asym a b : outranks a b = true -> outranks b a = false.
Proof. intros H. apply not_true_iff_false. rewrite outranks_spec in *. lia. Qed.

(** ** The array loop computes the reference *)

Lemma dedup_loop_ref rest out last junk :
  let '(buf, n) := dedup_loop (length rest) (out ++ last :: junk ++ rest) (S (length out)) (S (length out + length junk)) in
  take n buf = out ++ dedup_ref last rest.
Proof.
  revert out last junk. induction rest as [|s rest IH]; intros out last junk.
  - cbn [length dedup_loop dedup_ref]. rewrite app_nil_r, cons_middle, app_assoc.
    apply take_app_length'. rewrite length_app. cbn. lia.
  - cbn [length dedup_loop].
    assert (Hi : (out ++ last :: junk ++ s :: rest) !! S (length out + length junk) = Some s).
    { rewrite cons_middle, !app_assoc, lookup_app_r by (rewrite !length_app; cbn; lia).
      rewrite !length_app. cbn [length]. by replace (_ - _)%nat with 0%nat by lia. }
    assert (Hl : (out ++ last :: junk ++ s :: rest) !! (S (length out) - 1)%nat = Some last).
    { rewrite lookup_app_r by lia. by replace (_ - _)%nat with 0%nat by lia. }
    assert (Hset : forall x, <[(S (length out) - 1)%nat := x]> (out ++ last :: junk ++ s :: rest)
                   = out ++ x :: (junk ++ [s]) ++ rest).
    { intros x. rewrite insert_app_r_alt by lia. replace (_ - _)%nat with 0%nat by lia. cbn. by rewrite <- app_assoc. }
    rewrite Hi, Hl. cbn [dedup_ref].
    assert (Hidx : S (S (length out + length junk)) = S (length out + length (junk ++ [s]))) by (rewrite length_app; cbn; lia).
    destruct (s_ts s =? s_ts last).
    + destruct (outranks s last).
      * rewrite Hset, Hidx. apply IH.
      * replace (out ++ last :: junk ++ s :: rest) with (out ++ last :: (junk ++ [s]) ++ rest) by (by rewrite <- app_assoc).
        rewrite Hidx. apply IH.
    + assert (Hw : exists junk', length junk' = length junk /\
        <[S (length out) := s]> (out ++ last :: junk ++ s :: rest) = (out ++ [last]) ++ s :: junk' ++ rest).
      { destruct junk as [|j junk]; [exists []|exists (junk ++ [s])].
        - split; [done|]. rewrite insert_app_r_alt by lia. replace (_ - _)%nat with 1%nat by lia. cbn. by rewrite <- app_assoc.
        - split; [rewrite length_app; cbn; lia|]. rewrite insert_app_r_alt by lia.
          replace (_ - _)%nat with 1%nat by lia. cbn. by rewrite <- !app_assoc. }
      destruct Hw as (junk' & Hlen & ->). specialize (IH (out ++ [last]) s junk').
      rewrite length_app in IH. cbn [length] in IH. rewrite Hlen in IH.
      replace (length out + 1)%nat with (S (length out)) in IH by lia.
      replace (S (S (length out) + length junk))%nat with (S (S (length out + length junk))) in IH by lia.
      destruct (dedup_loop _ _ _ _) as [buf n]. rewrite IH, <- app_assoc. done.
Qed.

Lemma dedupByGeneration_ref l :
  dedupByGeneration l = match l with [] => [] | s :: rest => dedup_ref s rest end.
Proof.
  unfold dedupByGeneration. destruct l as [|s rest]; [done|].
  destruct rest as [|s2 rest]; [done|]. cbn [length Nat.leb].
  pose proof (dedup_loop_ref (s2 :: rest) [] s []) as H. cbn [app length Nat.add] in H.
  replace (S (S (length rest)) - 1)%nat with (S (length rest)) by lia. destruct (dedup_loop _ _ _ _). exact H.
Qed.

(** ** The survivors *)

Lemma survives_ext l1 l2 s : (forall x, In x l1 <-> In x l2) -> survives l1 s <-> survives l2 s.
Proof. unfold survives. intros H. rewrite H. split; intros [H1 H2]; (split; [done|]); intros x Hx; apply H2, H, Hx. Qed.

(** A write outranked by another of the same timestamp changes nothing. *)
Lemma survives_drop l d k : In k l -> s_ts d = s_ts k -> k = d \/ outranks k d = true ->
  forall s, survives (d :: l) s <-> survives l s.
Proof.
  intros Hk Ht Hd s. unfold survives. split; intros [H1 H2].
  - split; [|intros x Hx; apply H2; by right]. destruct H1 as [->|]; [|done].
    destruct Hd as [->|Hd]; [done|]. destruct (H2 k) as [->|E]; [by right|congruence|done|].
    apply outranks_asym in E. congruence.
  - split; [by right|]. intros x [<-|Hx] Hts; [|by apply H2].
    destruct Hd as [->|Hd]; [by apply H2|]. right.
    destruct (H2 k Hk) as [->|E]; [congruence|done|]. by eapply outranks_trans.
Qed.

(** A write earlier than every other one is a survivor. *)
Lemma survives_cons_lt l d : Forall (fun x => s_ts d < s_ts x) l ->
  forall s, survives (d :: l) s <-> s = d \/ survives l s.
Proof.
  intros Hlt s. rewrite Forall_forall in Hlt. unfold survives.
  assert (Hne : forall x, In x l -> s_ts x <> s_ts d) by (intros x Hx%list_elem_of_In; specialize (Hlt x Hx); lia).
  split.
  - intros [[->|H1] H2]; [by left|right]. split; [done|]. intros x Hx. apply H2. by right.
  - intros [->|[H1 H2]].
    + split; [by left|]. intros x [<-|Hx] Ht; [by left|]. by destruct (Hne x Hx).
    + split; [by right|]. intros x [<-|Hx] Ht; [by destruct (Hne s H1)|by apply H2].
Qed.

Lemma dedup_ref_spec rest last : StronglySorted (key_le s_ts) (last :: rest) ->
  StronglySorted (key_lt s_ts) (dedup_ref last rest) /\
  (forall s, In s (dedup_ref last rest) <-> survives (last :: rest) s) /\
  Forall (fun s => s_ts last <= s_ts s) (dedup_ref last rest).
Proof.
  revert last. induction rest as [|s rest IH]; intros last Hs.
  - cbn. split_and!; [repeat constructor| |by repeat constructor].
    intros x. unfold survives. cbn. split; [intros [<-|[]]; split; [tauto|]; intros ? [<-|[]]; auto|tauto].
  - apply StronglySorted_inv in Hs as [Hs Hle]. apply Forall_cons in Hle as [Hle1 Hle].
    apply StronglySorted_inv in Hs as [Hs Hlts]. unfold key_le in *. cbn [dedup_ref].
    destruct (Z.eqb_spec (s_ts s) (s_ts last)) as [E|E].
    + set (k := if outranks s last then s else last).
      assert (Hk : s_ts k = s_ts last) by (subst k; by destruct (outranks s last)).
      destruct (IH k) as (H1 & H2 & H3).
      { constructor; [done|]. unfold key_le. by rewrite Hk. }
      split_and!; [done| |by rewrite <- Hk]. intros x. rewrite H2. subst k.
      destruct (outranks_total s last E) as [->|[Hw|Hw]].
      * rewrite outranks_irrefl. symmetry. apply (survives_drop _ last last); auto. by left.
      * rewrite Hw. symmetry. apply (survives_drop _ last s); [by left|done|by right].
      * rewrite (outranks_asym _ _ Hw).
        rewrite (survives_ext (last :: s :: rest) (s :: last :: rest)) by (intros y; cbn; tauto).
        symmetry. apply (survives_drop _ s last); [by left|done|by right].
    + assert (Hlt : s_ts last < s_ts s) by lia.
      destruct (IH s) as (H1 & H2 & H3); [by constructor|].
      split_and!.
      * constructor; [done|]. eapply Forall_impl; [exact H3|]. unfold key_lt. intros; lia.
      * intros x. cbn [In]. rewrite H2, (survives_cons_lt (s :: rest) last).
        -- split; (intros [H|H]; [left; by symmetry|by right]).
        -- constructor; [done|]. eapply Forall_impl; [exact Hlts|]. intros; cbn in *; lia.
      * constructor; [lia|]. eapply Forall_impl; [exact H3|]. intros; cbn in *; lia.
Qed.

Lemma sortAndDedup_spec l :
  StronglySorted (key_lt s_ts) (sortAndDedup l) /\ (forall s, In s (sortAndDedup l) <-> survives l s).
Proof.
  unfold sortAndDedup. rewrite dedupByGeneration_ref.
  pose proof (sort_by_sorted s_ts l) as Hs. pose proof (sort_by_perm s_ts l) as Hp.
  assert (Hin : forall s, survives (sort_by s_ts l) s <-> survives l s).
  { intros s. apply survives_ext. intros x. split; apply Permutation_in; [done|by symmetry]. }
  destruct (sort_by s_ts l) as [|a rest].
  - split; [constructor|]. intros s. rewrite <- Hin. unfold survives. cbn. tauto.
  - destruct (dedup_ref_spec rest a Hs) as (H1 & H2 & _). split; [done|].
    intros s. by rewrite H2, Hin.
Qed.

(** Two strictly ascending answers with the same members are the same list. *)
Lemma key_lt_unique {A} (key : A -> Z) (l1 l2 : list A) :
  StronglySorted (key_lt key) l1 -> StronglySorted (key_lt key) l2 ->
  (forall x, In x l1 <-> In x l2) -> l1 = l2.
Proof. apply StronglySorted_strict_unique. unfold key_lt. lia. Qed.

Lemma sortAndDedup_ext l1 l2 : (forall s, survives l1 s <-> survives l2 s) -> sortAndDedup l1 = sortAndDedup l2.
Proof.
  intros H. destruct (sortAndDedup_spec l1) as [S1 M1]. destruct (sortAndDedup_spec l2) as [S2 M2].
  apply (key_lt_unique s_ts); [done..|]. intros x. by rewrite M1, M2.
Qed.

(** Every write is represented by a survivor of its timestamp. *)
Lemma survivor_exists l x : In x l ->
  exists k, survives l k /\ s_ts k = s_ts x /\ (x = k \/ outranks k x = true).
Proof.
  revert x. induction l as [|a l IH]; intros x; [by intros []|]. intros Hx.
  assert (Hstep : forall y, In y l -> exists k, survives (a :: l) k /\ s_ts k = s_ts y /\ (y = k \/ outranks k y = true)).
  { intros y Hy. destruct (IH y Hy) as (k & [Hk1 Hk2] & Hts & Hky).
    destruct (Z.eq_dec (s_ts a) (s_ts k)) as [Ea|Ea].
    - destruct (outranks_total a k Ea) as [->|[Hw|Hw]].
      + exists k. split; [|done]. apply (survives_drop l k k); auto. by split.
      + exists a. split_and!; [|congruence|right; destruct Hky as [->|Hky]; [done|by eapply outranks_trans]].
        split; [by left|]. intros z [<-|Hz] Hzt; [by left|right].
        destruct (Hk2 z Hz) as [->|Hkz]; [congruence|done|by eapply outranks_trans].
      + exists k. split; [|done]. apply (survives_drop l a k); auto. by split.
    - exists k. split; [|done]. split; [by right|]. intros z [<-|Hz] Hzt; [done|by apply Hk2]. }
  destruct Hx as [<-|Hx]; [|by apply Hstep].
  destruct (decide (Exists (fun y => s_ts y = s_ts a) l)) as [Hex|Hno].
  - apply Exists_exists in Hex as (y & Hy%list_elem_of_In & Hyt).
    destruct (Hstep y Hy) as (k & Hk & Hkt & Hky). exists k. split_and!; [done|congruence|].
    destruct Hk as [_ Hk]. destruct (Hk a) as [->|]; [by left|congruence|by left|by right].
  - exists a. split_and!; [|done|by left]. split; [by left|]. intros y [<-|Hy] Hyt; [by left|].
    exfalso. apply Hno, Exists_exists. exists y. by rewrite list_elem_of_In.
Qed.

Lemma survives_merge a b s : survives (sortAndDedup a ++ b) s <-> survives (a ++ b) s.
Proof.
  destruct (sortAndDedup_spec a) as [_ Hmem]. unfold survives at 1 2.
  setoid_rewrite in_app_iff. setoid_rewrite Hmem. split; intros [H1 H2].
  - split; [destruct H1 as [[H1 _]|H1]; auto|]. intros x [Hx|Hx] Ht; [|by apply H2; [right|]].
    destruct (survivor_exists a x Hx) as (k & Hk & Hkt & Hxk).
    destruct (H2 k) as [->|Hsk]; [by left|congruence|..].
    + by destruct Hxk; [left|right].
    + right. destruct Hxk as [->|Hxk]; [done|by eapply outranks_trans].
  - split.
    + destruct H1 as [H1|H1]; [left|by right]. split; [done|]. intros x Hx. apply H2. by left.
    + intros x [[Hx _]|Hx]; apply H2; [by left|by right].
Qed.

(** ** Rechunking *)

Lemma Append1_open c ss s : chunk_rep c ss -> sealed c = false -> 0 <= s_gen s <= MaxGeneration ->
  exists c', Append1 c s = Ok c'.
Proof.
  intros Hc Ho Hg. unfold Append1, Append. rewrite Ho, (proj2 (orb_false_iff _ _)) by lia.
  destruct (_ =? 0); [by eexists|]. destruct (writeValueXOR _ _ _ _ _) as [[w l] t]. by eexists.
Qed.

Definition sample_valid (s : sample) : Prop := sample_ok s /\ 0 <= s_gen s <= MaxGeneration.

Lemma sound_valid c : chunk_sound c -> Forall sample_valid (samples_of c).
Proof.
  intros Hc. pose proof (samples_width c) as Hw. pose proof (cs_gens_ok c Hc) as Hg. rewrite <- (cs_gens c Hc) in Hg. apply Forall_map in Hg. rewrite Forall_forall in *. intros x Hx. specialize (Hw x Hx). specialize (Hg x Hx).
  destruct Hw. unfold sample_valid, sample_ok, MaxGeneration in *. split_and!; try done; wsolve.
Qed.

(** The loop keeps every sample, in order, in well-formed chunks; all but the last
    chunk are sealed and none but the very first can be empty. *)
Lemma rechunk_loop_spec l closed cls cur cs :
  Forall2 chunk_rep closed cls -> Forall (fun c => sealed c = true) closed -> Forall (fun x => x <> []) cls ->
  chunk_rep cur cs -> (sealed cur = true -> cs <> []) -> (cs = [] -> l <> []) -> Forall sample_valid l ->
  exists lists, Forall2 chunk_rep (rechunk_loop closed cur l) lists /\
    concat lists = concat cls ++ cs ++ l /\ Forall (fun x => x <> []) lists /\
    Forall (fun c => sealed c = true) (removelast (rechunk_loop closed cur l)).
Proof.
  revert closed cls cur cs. induction l as [|s l IH]; intros closed cls cur cs Hcl Hseal Hne Hcur Hcs Hnil Hl.
  - cbn [rechunk_loop]. exists (cls ++ [cs]). split_and!.
    + apply Forall2_app; [done|by constructor].
    + rewrite concat_app. cbn. by rewrite !app_nil_r.
    + apply Forall_app. split; [done|]. constructor; [|done]. intros ->. by apply Hnil.
    + by rewrite removelast_last.
  - apply Forall_cons in Hl as [[Hs Hg] Hl]. cbn [rechunk_loop].
    destruct (sealed cur) eqn:Es.
    + destruct (Append1_open NewChunk [] s NewChunk_rep eq_refl Hg) as [c' E]. rewrite E.
      pose proof (Append_rep _ _ _ _ NewChunk_rep Hs E) as Hc'. cbn [app] in Hc'.
      edestruct (IH (closed ++ [cur]) (cls ++ [cs]) c' [s]) as (lists & H1 & H2 & H3 & H4); [| | |done|done|done|done|].
      * apply Forall2_app; [done|by constructor].
      * apply Forall_app. split; [done|by constructor].
      * apply Forall_app. split; [done|]. constructor; [by apply Hcs|done].
      * exists lists. split_and!; [done| |done|done]. rewrite H2, concat_app. cbn. by rewrite app_nil_r, <- app_assoc.
    + destruct (Append1_open cur cs s Hcur Es Hg) as [c' E]. rewrite E.
      pose proof (Append_rep _ _ _ _ Hcur Hs E) as Hc'.
      edestruct (IH closed cls c' (cs ++ [s])) as (lists & H1 & H2 & H3 & H4); [done..|by destruct cs|by destruct cs|done|].
      exists lists. split_and!; [done| |done|done]. by rewrite H2, <- app_assoc.
Qed.

Lemma rechunk_ok (l : list sample) : Forall sample_valid l -> Forall chunk_ok (rechunk l) /\ rechunk l ≫= samples_of = sortAndDedup l.
Proof.
  intros Hl. destruct l as [|x l]; [by split|]. change (rechunk (x :: l)) with (rechunk_loop [] NewChunk (sortAndDedup (x :: l))).
  assert (Hv : Forall sample_valid (sortAndDedup (x :: l))).
  { apply Forall_forall. intros s Hs%list_elem_of_In. apply (proj2 (sortAndDedup_spec (x :: l))) in Hs as [Hs _]. rewrite Forall_forall in Hl. by apply Hl, list_elem_of_In. }
  destruct (rechunk_loop_spec (sortAndDedup (x :: l)) [] [] NewChunk []) as (lists & H1 & H2 & _ & _); [constructor|constructor|constructor|apply NewChunk_rep|done| |exact Hv|].
  { intros _ E. destruct (survivor_exists (x :: l) x) as (k & Hk & _); [by left|]. apply (proj2 (sortAndDedup_spec _)) in Hk. by rewrite E in Hk. }
  cbn [concat app] in H2. rewrite <- H2 in *. clear H2. split.
  - clear -H1 Hv. revert Hv. induction H1 as [|c cs ch ls Hc _ IH]; intros Hv; [constructor|]. cbn [concat] in Hv. apply Forall_app in Hv as [Hv1 Hv2]. constructor; [|by apply IH]. apply (chunk_ok_rep c cs Hc). eapply Forall_impl; [exact Hv1|]. by intros s [? _].
  - clear -H1. induction H1 as [|c cs ch ls Hc _ IH]; [done|]. cbn [concat]. cbn [mbind list_bind] in *. by rewrite (samples_of_rep _ _ Hc), IH.
Qed.
Lemma sortAndDedup_incl l : incl (sortAndDedup l) l.
Proof. intros s Hs. apply (proj2 (sortAndDedup_spec l)) in Hs as [Hs _]. exact Hs. Qed.

Lemma sortAndDedup_nonempty l : l <> [] -> sortAndDedup l <> [].
Proof.
  destruct l as [|x l]; [done|]. intros _. destruct (survivor_exists (x :: l) x) as (k & Hk & _); [by left|].
  apply (proj2 (sortAndDedup_spec _)) in Hk. intros E. by rewrite E in Hk.
Qed.

(** *** The last sample *)

(** [m] is the latest write of [l]: the greatest timestamp, then the survivor there. *)
Definition later_than (m x : sample) : Prop := s_ts x < s_ts m \/ s_ts m = s_ts x /\ outranks m x = true.
Definition latest (l : list sample) (m : sample) : Prop := In m l /\ forall x, In x l -> x = m \/ later_than m x.

Lemma last_sorted (l : list sample) m : StronglySorted (key_lt s_ts) l -> last l = Some m ->
  In m l /\ forall x, In x l -> x = m \/ s_ts x < s_ts m.
Proof.
  intros Hs Hm. apply last_Some in Hm as [l' ->]. split; [rewrite in_app_iff; right; by left|].
  intros x [Hx|[->|[]]]%in_app_iff; [right|by left].
  revert Hs Hx. clear. induction l' as [|y l' IH]; [done|]. cbn.
  intros [Hs Hy]%StronglySorted_inv [->|Hx]; [|by apply IH].
  rewrite Forall_forall in Hy. apply (Hy m), list_elem_of_In, in_app_iff. right. by left.
Qed.

Lemma last_sortAndDedup l m : last (sortAndDedup l) = Some m -> latest l m.
Proof.
  destruct (sortAndDedup_spec l) as [Hs Hin]. intros Hm. destruct (last_sorted _ _ Hs Hm) as [Hm1 Hm2].
  pose proof (proj1 (Hin m) Hm1) as [Hml Hmax].
  split; [done|]. intros x Hx. destruct (survivor_exists l x Hx) as (k & Hk & Hkt & _).
  apply Hin in Hk. destruct (Hm2 k Hk) as [->|Hlt].
  - destruct (Hmax x Hx) as [->|Hw]; [done|by left|]. right. right. by split.
  - right. left. lia.
Qed.

Lemma later_than_asym m x : later_than m x -> later_than x m -> False.
Proof.
  unfold later_than. intros [H1|[H1 H2]] [H3|[H3 H4]]; [lia..|]. apply outranks_asym in H2. congruence.
Qed.
Lemma latest_unique l m m' : latest l m -> latest l m' -> m = m'.
Proof.
  intros [H1 H2] [H3 H4]. destruct (H2 _ H3) as [->|Ha]; [done|]. destruct (H4 _ H1) as [->|Hb]; [done|].
  destruct (later_than_asym _ _ Ha Hb).
Qed.
Lemma later_than_trans a b c : later_than a b -> later_than b c -> later_than a c.
Proof.
  unfold later_than. intros [H1|[H1 H2]] [H3|[H3 H4]]; [left; lia..|right]. split; [lia|by eapply outranks_trans].
Qed.

Lemma laterSample_spec a b m : laterSample (Some a) (Some b) = Some m ->
  (m = a \/ m = b) /\ (a = m \/ later_than m a) /\ (b = m \/ later_than m b).
Proof.
  unfold laterSample, later_than. destruct (Z.ltb_spec (s_ts a) (s_ts b)); cbn [orb].
  - intros [= <-]. auto.
  - destruct (Z.eqb_spec (s_ts b) (s_ts a)) as [E|E]; cbn [andb].
    + destruct (outranks b a) eqn:Ew; intros [= <-]; split_and!; auto.
      destruct (outranks_total b a E) as [->|[?|?]]; [auto|congruence|auto].
    + intros [= <-]. split_and!; auto. right. left. lia.
Qed.

Lemma last_sortAndDedup_None l : last (sortAndDedup l) = None -> l = [].
Proof.
  intros H%last_None. destruct l as [|x l]; [done|]. by destruct (sortAndDedup_nonempty (x :: l)).
Qed.

Lemma laterSample_last a b :
  laterSample (last (sortAndDedup a)) (last (sortAndDedup b)) = last (sortAndDedup (a ++ b)).
Proof.
  destruct (last (sortAndDedup a)) as [ma|] eqn:Ea; [|by apply last_sortAndDedup_None in Ea as ->].
  destruct (last (sortAndDedup b)) as [mb|] eqn:Eb.
  2:{ apply last_sortAndDedup_None in Eb as ->. by rewrite app_nil_r, Ea. }
  apply last_sortAndDedup in Ea as [Ha1 Ha2]. apply last_sortAndDedup in Eb as [Hb1 Hb2].
  destruct (laterSample (Some ma) (Some mb)) as [m|] eqn:Em.
  2:{ cbn in Em. by destruct (_ || _)%bool. }
  destruct (laterSample_spec _ _ _ Em) as (Hor & Hma & Hmb).
  destruct (last (sortAndDedup (a ++ b))) as [m'|] eqn:El.
  2:{ apply last_sortAndDedup_None, app_nil in El as [-> _]. done. }
  apply last_sortAndDedup in El. f_equal. apply (latest_unique (a ++ b)); [|done].
  split; [rewrite in_app_iff; destruct Hor as [->| ->]; auto|].
  intros x [Hx|Hx]%in_app_iff.
  - destruct (Ha2 x Hx) as [->|Hl]; [done|]. right. destruct Hma as [<-|Hma]; [done|by eapply later_than_trans].
  - destruct (Hb2 x Hx) as [->|Hl]; [done|]. right. destruct Hmb as [<-|Hmb]; [done|by eapply later_than_trans].
Qed.

(** *** Algebra of the merge *)

Lemma sortAndDedup_comm a b : sortAndDedup (b ++ a) = sortAndDedup (a ++ b).
Proof. apply sortAndDedup_ext. intros s. apply survives_ext. intros z. rewrite !in_app_iff. tauto. Qed.
Lemma sortAndDedup_absorb_l a b : sortAndDedup (sortAndDedup a ++ b) = sortAndDedup (a ++ b).
Proof. apply sortAndDedup_ext, survives_merge. Qed.
Lemma sortAndDedup_absorb_r a b : sortAndDedup (a ++ sortAndDedup b) = sortAndDedup (a ++ b).
Proof. by rewrite sortAndDedup_comm, sortAndDedup_absorb_l, sortAndDedup_comm. Qed.
Lemma sortAndDedup_idemp a : sortAndDedup (sortAndDedup a) = sortAndDedup a.
Proof. pose proof (sortAndDedup_absorb_l a []) as H. by rewrite !app_nil_r in H. Qed.

(** Restricting to a set of timestamps commutes with the merge rule. *)
Lemma sortAndDedup_filter (P : sample -> Prop) `{!forall x, Decision (P x)} l :
  (forall s s', s_ts s = s_ts s' -> P s -> P s') -> sortAndDedup (filter P l) = filter P (sortAndDedup l).
Proof.
  intros HP. destruct (sortAndDedup_spec l) as [Hs Hin]. destruct (sortAndDedup_spec (filter P l)) as [Hs' Hin'].
  apply (key_lt_unique s_ts); [done| |].
  - clear -Hs. induction Hs as [|x l' Hl IH Hx]; [constructor|]. rewrite filter_cons. destruct (decide (P x)); [|done].
    constructor; [done|]. rewrite Forall_forall in *. intros y [_ Hy]%list_elem_of_filter. by apply Hx.
  - intros s. rewrite Hin'. rewrite <- (list_elem_of_In (filter P (sortAndDedup l))), list_elem_of_filter, list_elem_of_In, Hin.
    unfold survives. setoid_rewrite <- list_elem_of_In. setoid_rewrite list_elem_of_filter. split.
    + intros [[HPs Hl] Hmax]. split_and!; [done..|]. intros x Hx Ht. apply Hmax; [|done]. split; [by eapply HP|done].
    + intros (HPs & Hl & Hmax). split; [done|]. intros x [_ Hx] Ht. by apply Hmax.
Qed.

(** ** Properties *)

(** C6. The answer a read or a compaction keeps is exactly the last writes:
    whatever the order and duplicates of the input, [sortAndDedup] returns
    strictly ascending timestamps, and a sample is in it iff it is one of the
    inputs and outranks every other input of its timestamp; the in-place loop
    therefore neither loses a timestamp nor keeps an overwritten value. *)
Theorem sortAndDedup_last_write (l : list sample) :
  StronglySorted (key_lt s_ts) (sortAndDedup l) /\
  (forall s, In s (sortAndDedup l) <-> survives l s) /\
  (forall x, In x l -> exists k, In k (sortAndDedup l) /\ s_ts k = s_ts x).
Proof.
  destruct (sortAndDedup_spec l) as [H1 H2]. split_and!; [done..|]. intros x Hx.
  destruct (survivor_exists l x Hx) as (k & Hk & Ht & _). exists k. by rewrite H2.
Qed.

(** Replicas that hold the same samples, in any order and with any
    duplicates, answer alike. *)
Theorem dedup_replicas_agree (l1 l2 : list sample) (Hsame : forall s, In s l1 <-> In s l2) :
  sortAndDedup l1 = sortAndDedup l2.
Proof. apply sortAndDedup_ext. intros s. by apply survives_ext. Qed.

(** Compacting early never changes what a read answers: merging part of a
    series first and the rest later gives the same samples as merging everything
    at once, on either side and however the parts overlap. *)
Theorem compaction_transparent (a b : list sample) :
  sortAndDedup (sortAndDedup a ++ b) = sortAndDedup (a ++ b) /\
  sortAndDedup (a ++ sortAndDedup b) = sortAndDedup (a ++ b) /\
  sortAndDedup (b ++ a) = sortAndDedup (a ++ b).
Proof. split_and!; [apply sortAndDedup_absorb_l|apply sortAndDedup_absorb_r|apply sortAndDedup_comm]. Qed.

(** [rechunk] preserves the data: for samples whose generations are in range
    (what every parsed block guarantees, see [FromBytes_sound]) the chunks it
    writes hold, concatenated, exactly the surviving samples in time order; no
    append is refused, no chunk is empty, every chunk but the last is sealed. *)
Theorem rechunk_preserves (l : list sample) (Hl : Forall sample_valid l) :
  concat (map samples_of (rechunk l)) = sortAndDedup l /\
  Forall (fun c => samples_of c <> [] /\ Z.of_nat (length (samples_of c)) = numSamples c) (rechunk l) /\
  Forall (fun c => sealed c = true) (removelast (rechunk l)).
Proof.
  destruct l as [|x l]; [by cbn; auto|].
  change (rechunk (x :: l)) with (rechunk_loop [] NewChunk (sortAndDedup (x :: l))).
  pose proof (sortAndDedup_nonempty (x :: l) ltac:(done)) as Hne.
  destruct (rechunk_loop_spec (sortAndDedup (x :: l)) [] [] NewChunk []) as (lists & H1 & H2 & H3 & H4);
    [constructor|constructor|constructor|apply NewChunk_rep|done|done| |].
  { apply Forall_forall. intros s Hs%list_elem_of_In%sortAndDedup_incl%list_elem_of_In. rewrite Forall_forall in Hl. auto. }
  cbn [concat app] in H2.
  assert (Hmap : map samples_of (rechunk_loop [] NewChunk (sortAndDedup (x :: l))) = lists).
  { clear -H1. induction H1 as [|c cs ch ls Hc _ IH]; [done|]. cbn. by rewrite (samples_of_rep _ _ Hc), IH. }
  split_and!; [by rewrite Hmap| |done].
  clear -H1 H3. induction H1 as [|c cs ch ls Hc _ IH]; [constructor|].
  apply Forall_cons in H3 as [Hn H3]. constructor; [|by apply IH].
  rewrite (samples_of_rep _ _ Hc). split; [done|]. by rewrite (rep_n _ _ Hc).
Qed.

(** The merge of two anchors is the anchor of the merge: the later of the two
    sides' last samples is the last sample of both sides' merged data. *)
Theorem laterSample_merges_anchors (a b : list sample) :
  laterSample (last (sortAndDedup a)) (last (sortAndDedup b)) = last (sortAndDedup (a ++ b)).
Proof. apply laterSample_last. Qed.

(** *** Witnesses *)

Definition replica_a : list sample := [mkSample 10 1 5; mkSample 20 7 6; mkSample 10 2 5].
Definition replica_b : list sample := [mkSample 20 7 6; mkSample 10 2 5; mkSample 10 1 5; mkSample 20 7 6].

Lemma dedup_replicas_agree_witness :
  sortAndDedup replica_a = [mkSample 10 2 5; mkSample 20 7 6] /\ sortAndDedup replica_a = sortAndDedup replica_b.
Proof.
  split; [vm_compute; reflexivity|]. apply (dedup_replicas_agree replica_a replica_b).
  intros s. cbn. tauto.
Defined.

Lemma rechunk_preserves_witness :
  concat (map samples_of (rechunk replica_b)) = [mkSample 10 2 5; mkSample 20 7 6].
Proof.
  destruct (rechunk_preserves replica_b) as [-> _]; [|vm_compute; reflexivity].
  unfold replica_b. repeat (apply Forall_cons_2; [unfold sample_valid, sample_ok, MaxGeneration; cbn [s_ts s_val s_gen]; wsolve|]).
  apply Forall_nil_2.
Defined.
