(* ===== verification/Labels.v ===== *)
(** * Labels: label sets, tenants, identity

    [internal/labels/labels.go], [internal/labels/validation.go],
    [internal/metrics/labels.go], [internal/metrics/validation.go],
    [internal/logs/labels.go] and the ID rules of [internal/tenant/tenant.go].
    A Go [map[string]string] is a [gmap string string]. *)
From S2P Require Import Prelude GoLib GoSort.

(** ** Tenants *)

Definition tenant_Default : string := "anonymous".
Definition tenant_Label : string := "__tenant__".
Definition tenant_MaxLength : Z := 150.

Inductive tenantErr := TenantEmpty | TenantTooLong | TenantReserved (id : string) | TenantChar (id : string) (c : Z).

Definition in_range (c lo hi : Z) : bool := ((lo <=? c) && (c <=? hi))%bool.
(** The bytes of ["!-_.*'()"]. *)
Definition tenant_punct : list Z := [33; 45; 95; 46; 42; 39; 40; 41].
Definition tenant_char (c : Z) : bool :=
  (in_range c 97 122 || in_range c 65 90 || in_range c 48 57 || bool_decide (c ∈ tenant_punct))%bool.

Definition tenant_Validate (id : string) : result tenantErr unit :=
  if String.eqb id "" then Err TenantEmpty else
  if tenant_MaxLength <? str_len id then Err TenantTooLong else
  if (String.eqb id "." || String.eqb id "..")%bool then Err (TenantReserved id) else
  match find (fun c => negb (tenant_char c)) (str_bytes id) with
  | Some c => Err (TenantChar id c)
  | None => Ok tt
  end.

(** The request context carries at most one tenant ID. *)
Definition context := option string.
Definition tenant_Inject (_ : context) (id : string) : context := Some id.
Definition tenant_From (ctx : context) : string :=
  match ctx with Some id => if String.eqb id "" then tenant_Default else id | None => tenant_Default end.

(** ** Label sets *)

Record Label := mkLabel { Name : string; Value : string }.
#[export] Instance Label_eq_dec : EqDecision Label.
Proof. solve_decision. Defined.
Record Labels := mkLabels { pairs : list Label; hash : Z }.
#[export] Instance Labels_eq_dec : EqDecision Labels.
Proof. solve_decision. Defined.

(** The bytes [fingerprint] feeds to FNV-1a. *)
Fixpoint fingerprint_input (ps : list Label) : list Z :=
  match ps with
  | [] => []
  | p :: rest =>
      be_bytes 8 (u64 (str_len (Name p))) ++ str_bytes (Name p) ++
      be_bytes 8 (u64 (str_len (Value p))) ++ str_bytes (Value p) ++ fingerprint_input rest
  end.
Definition fingerprint (ps : list Label) : Z := fnv64a (fingerprint_input ps).

(** Building from the map's entries in the order the range loop visits them. *)
Definition build_entries (es : list (string * string)) : Labels :=
  let ps := sort_str Name ((fun '(k, v) => mkLabel k v) <$> es) in
  mkLabels ps (fingerprint ps).
Definition build (m : gmap string string) : Labels := build_entries (map_to_list m).

Definition Hash (l : Labels) : Z := hash l.
Definition Len (l : Labels) : nat := length (pairs l).

(** The binary search of [Get]; the fuel is the number of pairs. *)
Fixpoint get_loop (fuel : nat) (ps : list Label) (name : string) (lo hi : nat) : option string :=
  match fuel with
  | O => None
  | S f =>
      if (lo <? hi)%nat then
        let mid := ((lo + hi) / 2)%nat in
        match ps !! mid with
        | None => None
        | Some p =>
            if String.eqb (Name p) name then Some (Value p)
            else if String.ltb (Name p) name then get_loop f ps name (S mid) hi
            else get_loop f ps name lo mid
        end
      else None
  end.
Definition Get (l : Labels) (name : string) : option string :=
  get_loop (S (length (pairs l))) (pairs l) name 0 (length (pairs l)).

Definition pair_of (p : Label) : string * string := (Name p, Value p).
Definition labels_Map (l : Labels) : gmap string string :=
  fold_left (fun m p => <[Name p := Value p]> m) (pairs l) ∅.

Definition WithTenant (l : Labels) (id : string) : Labels :=
  if String.eqb id tenant_Default then l else build (<[tenant_Label := id]> (labels_Map l)).
Definition TenantOf (l : Labels) : string := default tenant_Default (Get l tenant_Label).
Definition Without (l : Labels) (name : string) : Labels :=
  match Get l name with None => l | Some _ => build (delete name (labels_Map l)) end.

(** ** Validation *)

Inductive labelErr :=
  | TooManyLabels
  | TenantIsDefault
  | TenantInvalid (e : tenantErr)
  | ReservedName (k : string)
  | InvalidName (k : string)
  | NameTooLong (k : string)
  | ValueNotUTF8 (k : string)
  | ValueTooLong (k : string)
  | MetricNameRequired
  | MetricNameInvalid (name : string)
  | MetricNameTooLong
  | StreamNeedsLabel.

Definition alpha_ (c : Z) : bool := (in_range c 97 122 || in_range c 65 90 || (c =? 95))%bool.
Definition alnum_ (c : Z) : bool := (alpha_ c || in_range c 48 57)%bool.
(** [^[a-zA-Z_][a-zA-Z0-9_]*$] and, with the colon, the metric name pattern. *)
Definition labelNameRe (s : string) : bool :=
  match str_bytes s with [] => false | c :: r => alpha_ c && forallb alnum_ r end.
Definition metricNameRe (s : string) : bool :=
  match str_bytes s with
  | [] => false
  | c :: r => (alpha_ c || (c =? 58)) && forallb (fun d => alnum_ d || (d =? 58)) r
  end.

Definition validate_entry (allowTenant : bool) (k v : string) : result labelErr unit :=
  if (String.eqb k tenant_Label && allowTenant)%bool then
    if String.eqb v tenant_Default then Err TenantIsDefault else
    match tenant_Validate v with Err e => Err (TenantInvalid e) | Ok _ => Ok tt end
  else
    _ ← (if String.eqb k "__name__" then Ok tt
         else if String.prefix "__" k then Err (ReservedName k)
         else guard_or (labelNameRe k) (InvalidName k));
    if 255 <? str_len k then Err (NameTooLong k) else
    if negb (utf8_ValidString v) then Err (ValueNotUTF8 k) else
    if 65535 <? str_len v then Err (ValueTooLong k) else Ok tt.

(** The range loop over the map's entries, in some iteration order. *)
Fixpoint validate_entries (allowTenant : bool) (es : list (string * string)) : result labelErr unit :=
  match es with
  | [] => Ok tt
  | (k, v) :: rest => _ ← validate_entry allowTenant k v; validate_entries allowTenant rest
  end.
Definition validateLabelMap (m : gmap string string) (allowTenant : bool) : result labelErr unit :=
  if 255 <? Z.of_nat (size m) then Err TooManyLabels else validate_entries allowTenant (map_to_list m).

Definition labels_New (m : gmap string string) : result labelErr Labels :=
  _ ← validateLabelMap m false; Ok (build m).
Definition labels_NewStored (m : gmap string string) : result labelErr Labels :=
  _ ← validateLabelMap m true; Ok (build m).
Definition NewUnvalidated (m : gmap string string) : Labels := build m.

Definition validateMetricName (m : gmap string string) : result labelErr unit :=
  match m !! "__name__"%string with
  | None => Err MetricNameRequired
  | Some name =>
      if negb (metricNameRe name) then Err (MetricNameInvalid name) else
      if 65535 <? str_len name then Err MetricNameTooLong else Ok tt
  end.
Definition NewLabels (m : gmap string string) : result labelErr Labels :=
  _ ← validateMetricName m; labels_New m.
Definition NewStoredLabels (m : gmap string string) : result labelErr Labels :=
  _ ← validateMetricName m; labels_NewStored m.
Definition NewStreamLabels (m : gmap string string) : result labelErr Labels :=
  if bool_decide (size m = 0%nat) then Err StreamNeedsLabel else labels_New m.
Definition NewStoredStreamLabels (m : gmap string string) : result labelErr Labels :=
  if bool_decide (size m = 0%nat) then Err StreamNeedsLabel else labels_NewStored m.

(** ** The invariant: what every constructor returns *)

Definition labels_wf (l : Labels) : Prop :=
  StronglySorted (str_key_lt Name) (pairs l) /\ hash l = fingerprint (pairs l).

Lemma names_NoDup ps : StronglySorted (str_key_lt Name) ps -> NoDup (Name <$> ps).
Proof.
  induction 1 as [|p ps Hs IH Hp]; cbn; constructor; [|done].
  intros (q & Hq & Hin)%list_elem_of_fmap. rewrite Forall_forall in Hp. specialize (Hp q Hin).
  unfold str_key_lt in Hp. rewrite Hq in Hp. by apply str_lt_irrefl in Hp.
Qed.

Lemma names_inj ps p q : StronglySorted (str_key_lt Name) ps -> In p ps -> In q ps -> Name p = Name q -> p = q.
Proof.
  induction 1 as [|a ps Hs IH Ha]; [done|]. rewrite Forall_forall in Ha. unfold str_key_lt in Ha.
  intros [->|Hp] [->|Hq] E; [done|..|by apply IH].
  - apply list_elem_of_In in Hq. specialize (Ha q Hq). rewrite E in Ha. by apply str_lt_irrefl in Ha.
  - apply list_elem_of_In in Hp. specialize (Ha p Hp). rewrite E in Ha. by apply str_lt_irrefl in Ha.
Qed.

(** The map of a sorted pair list, both ways. *)
Lemma fold_insert_lookup ps k v : NoDup (Name <$> ps) ->
  fold_left (fun m p => <[Name p := Value p]> m) ps (∅ : gmap string string) !! k = Some v <-> In (mkLabel k v) ps.
Proof.
  induction ps as [|p ps IH] using rev_ind; intros Hnd.
  - cbn. rewrite lookup_empty. split; [done|intros []].
  - rewrite fmap_app in Hnd. apply NoDup_app in Hnd as (Hnd & Hdis & _).
    rewrite fold_left_app, in_app_iff. cbn. specialize (IH Hnd).
    destruct (decide (Name p = k)) as [<-|Hne].
    + rewrite lookup_insert_eq. split.
      * intros [= <-]. right. left. by destruct p.
      * intros [Hin|[->|[]]]; [|done]. exfalso. apply list_elem_of_In in Hin.
        apply (Hdis (Name p)); [|by left]. apply list_elem_of_fmap. by exists (mkLabel (Name p) v).
    + rewrite lookup_insert_ne by done. rewrite IH. split; [by left|]. intros [|[->|[]]]; done.
Qed.
Lemma labels_Map_lookup l k v : StronglySorted (str_key_lt Name) (pairs l) ->
  labels_Map l !! k = Some v <-> In (mkLabel k v) (pairs l).
Proof. intros Hs. by apply fold_insert_lookup, names_NoDup. Qed.

Lemma build_entries_names (m : gmap string string) es : es ≡ₚ map_to_list m ->
  NoDup (Name <$> ((fun '(k, v) => mkLabel k v) <$> es)).
Proof.
  intros Hp. rewrite <- list_fmap_compose.
  assert (E : es.*1 = (Name ∘ (fun '(k, v) => mkLabel k v)) <$> es) by (apply list_fmap_ext; by intros _ [k v] _).
  rewrite <- E, Hp. apply NoDup_fst_map_to_list.
Qed.

(** Whatever order the range loop visits the map in, the label set is the same. *)
Lemma build_order_independent (m : gmap string string) es : es ≡ₚ map_to_list m -> build_entries es = build m.
Proof.
  intros Hp. unfold build, build_entries. cbv zeta.
  rewrite (sort_str_unique Name ((fun '(k, v) => mkLabel k v) <$> es) (sort_str Name ((fun '(k, v) => mkLabel k v) <$> map_to_list m))).
  - done.
  - by apply (build_entries_names m).
  - apply sort_str_sorted. by apply (build_entries_names m).
  - intros x. rewrite <- !list_elem_of_In, sort_str_perm, Hp. done.
Qed.

Lemma build_wf m : labels_wf (build m).
Proof. split; [|done]. apply sort_str_sorted. by apply (build_entries_names m). Qed.

Lemma build_pairs m k v : In (mkLabel k v) (pairs (build m)) <-> m !! k = Some v.
Proof.
  unfold build, build_entries. cbn [pairs]. rewrite <- list_elem_of_In, sort_str_perm, list_elem_of_fmap.
  rewrite <- elem_of_map_to_list. split.
  - intros ([k' v'] & [= -> ->] & H). done.
  - intros H. by exists (k, v).
Qed.

Lemma labels_Map_build m : labels_Map (build m) = m.
Proof.
  apply map_eq. intros k. destruct (build_wf m) as [Hs _]. apply option_eq. intros v.
  by rewrite labels_Map_lookup, build_pairs.
Qed.

Lemma labels_wf_ext l1 l2 : labels_wf l1 -> labels_wf l2 -> labels_Map l1 = labels_Map l2 -> l1 = l2.
Proof.
  intros [H1 E1] [H2 E2] Hm. assert (Hp : pairs l1 = pairs l2).
  { apply (StronglySorted_strict_unique (str_key_lt Name)); [|done..|].
    - intros x y. apply str_lt_asym.
    - intros [k v]. by rewrite <- !labels_Map_lookup, Hm. }
  destruct l1, l2; cbn in *; congruence.
Qed.
Lemma build_labels_Map l : labels_wf l -> build (labels_Map l) = l.
Proof. intros Hl. apply labels_wf_ext; [apply build_wf|done|apply labels_Map_build]. Qed.

(** *** Binary search *)

Lemma get_loop_spec fuel ps name lo hi :
  StronglySorted (str_key_lt Name) ps -> (hi - lo < fuel)%nat -> (hi <= length ps)%nat ->
  (forall i p, (i < lo)%nat -> ps !! i = Some p -> str_lt (Name p) name) ->
  (forall i p, (hi <= i)%nat -> ps !! i = Some p -> str_lt name (Name p)) ->
  forall v, get_loop fuel ps name lo hi = Some v <-> In (mkLabel name v) ps.
Proof.
  intros Hs. revert lo hi. induction fuel as [|f IH]; intros lo hi Hf Hhi Hlow Hup v; [lia|]. cbn [get_loop].
  destruct (Nat.ltb_spec lo hi) as [Hlt|Hge].
  - assert (Hh : (lo <= (lo + hi) / 2 < hi)%nat)
      by (split; [apply Nat.div_le_lower_bound|apply Nat.div_lt_upper_bound]; lia).
    set (mid := ((lo + hi) / 2)%nat) in *.
    destruct (lookup_lt_is_Some_2 ps mid) as [p Hp]; [lia|]. rewrite Hp.
    destruct (String.eqb_spec (Name p) name) as [E|E].
    + assert (Hin : In p ps) by (by apply list_elem_of_In, (list_elem_of_lookup_2 _ mid)).
      split; [intros [= <-]; rewrite <- E; by destruct p|]. intros Hin2.
      by rewrite (names_inj ps p (mkLabel name v) Hs Hin Hin2 E).
    + assert (Hord : forall i j a b, (i < j)%nat -> ps !! i = Some a -> ps !! j = Some b -> str_lt (Name a) (Name b)).
      { intros i j a b Hij Ha Hb. by apply (StronglySorted_lookup (str_key_lt Name) ps i j a b). }
      destruct (String.ltb (Name p) name) eqn:El.
      * apply IH; [lia|lia| |done]. intros i q Hi Hq.
        destruct (decide (i = mid)) as [->|]; [rewrite Hp in Hq; by injection Hq as <-|].
        eapply str_lt_trans; [|exact El]. apply (Hord i mid); [lia|done..].
      * assert (Hgt : str_lt name (Name p)).
        { destruct (str_lt_total (Name p) name) as [H|[H|H]]; [unfold str_lt in H; congruence|done..]. }
        apply IH; [lia|lia|done|]. intros i q Hi Hq.
        destruct (decide (i = mid)) as [->|]; [rewrite Hp in Hq; by injection Hq as <-|].
        eapply str_lt_trans; [exact Hgt|]. apply (Hord mid i); [lia|done..].
  - split; [done|]. intros (i & Hi)%list_elem_of_In%list_elem_of_lookup. exfalso.
    apply (str_lt_irrefl name). destruct (decide (i < lo)%nat); [by apply (Hlow i (mkLabel name v))|]. apply (Hup i (mkLabel name v)); [lia|done].
Qed.

Lemma Get_Map l name : labels_wf l -> Get l name = labels_Map l !! name.
Proof.
  intros [Hs _]. apply option_eq. intros v. rewrite labels_Map_lookup by done.
  apply get_loop_spec; [done|lia|lia|lia|].
  intros i p Hi Hp. apply lookup_lt_Some in Hp. lia.
Qed.
Lemma Get_build m name : Get (build m) name = m !! name.
Proof. by rewrite Get_Map, labels_Map_build by apply build_wf. Qed.

(** *** The fingerprinted bytes determine the label set *)

Lemma length_prefix_inj (s1 s2 : string) r1 r2 : str_len s1 < 2 ^ 64 -> str_len s2 < 2 ^ 64 ->
  be_bytes 8 (u64 (str_len s1)) ++ str_bytes s1 ++ r1 = be_bytes 8 (u64 (str_len s2)) ++ str_bytes s2 ++ r2 ->
  s1 = s2 /\ r1 = r2.
Proof.
  intros H1 H2 E. apply app_inj_1 in E as [Elen E]; [|by rewrite !length_be_bytes].
  apply (f_equal be_val) in Elen. rewrite !be_val_bytes in Elen. change (8 * Z.of_nat 8) with 64 in Elen.
  assert (Hs : forall s, str_len s < 2 ^ 64 -> u64 (str_len s) mod 2 ^ 64 = str_len s).
  { intros s Hs. unfold u64. rewrite Z.mod_mod, Z.mod_small; unfold str_len in *; lia. }
  rewrite !Hs in Elen by done. unfold str_len in Elen.
  apply app_inj_1 in E as [Es ->]; [|rewrite !length_str_bytes; lia]. by apply str_bytes_inj in Es.
Qed.

Definition pairs_short (ps : list Label) : Prop := Forall (fun p => str_len (Name p) < 2 ^ 64 /\ str_len (Value p) < 2 ^ 64) ps.

Lemma be_bytes_cons_ne n v r : be_bytes (S n) v ++ r <> [].
Proof. done. Qed.

Lemma fingerprint_input_inj ps qs : pairs_short ps -> pairs_short qs ->
  fingerprint_input ps = fingerprint_input qs -> ps = qs.
Proof.
  intros Hp. revert qs. induction Hp as [|p ps [Hn Hv] Hp IH]; intros qs Hq E.
  - by destruct Hq as [|q qs].
  - destruct Hq as [|q qs [Hqn Hqv] Hq]; [done|]. cbn [fingerprint_input] in E.
    apply length_prefix_inj in E as [En E]; [|done..]. apply length_prefix_inj in E as [Ev E]; [|done..].
    apply IH in E as ->; [|done]. destruct p, q; cbn in *; congruence.
Qed.

(** *** Validation *)

Definition entry_ok (allowTenant : bool) (k v : string) : Prop := validate_entry allowTenant k v = Ok tt.

Lemma validate_entries_ok b es : validate_entries b es = Ok tt <-> Forall (fun e => entry_ok b e.1 e.2) es.
Proof.
  induction es as [|[k v] es IH]; cbn; [split; [constructor|done]|]. rewrite Forall_cons. unfold entry_ok at 1. cbn.
  destruct (validate_entry b k v) as [[]|e]; cbn; [rewrite IH; tauto|]. split; [done|intros [? _]; done].
Qed.

Lemma validateLabelMap_ok m b : validateLabelMap m b = Ok tt <->
  (size m <= 255)%nat /\ map_Forall (fun k v => entry_ok b k v) m.
Proof.
  unfold validateLabelMap. rewrite map_Forall_to_list. destruct (Z.ltb_spec 255 (Z.of_nat (size m))).
  - split; [done|lia].
  - rewrite validate_entries_ok. split; [intros HF; split; [lia|]|intros [_ HF]]; (eapply Forall_impl; [exact HF|]); by intros [k v].
Qed.

Lemma entry_ok_client k v : entry_ok false k v ->
  k <> tenant_Label /\ str_len k <= 255 /\ str_len v <= 65535 /\ utf8_ValidString v = true.
Proof.
  unfold entry_ok, validate_entry. rewrite andb_false_r. intros H.
  destruct (String.eqb_spec k "__name__") as [->|Hn].
  - cbn [mbind result_bind] in H. destruct (Z.ltb_spec 255 (str_len "__name__")); [done|].
    destruct (utf8_ValidString v); [|done]. cbn [negb] in H. destruct (Z.ltb_spec 65535 (str_len v)); [done|].
    by split_and!.
  - destruct (String.prefix "__" k) eqn:Ep; [done|]. unfold guard_or in H. destruct (labelNameRe k); [|done].
    cbn [mbind result_bind] in H. destruct (Z.ltb_spec 255 (str_len k)); [done|].
    destruct (utf8_ValidString v); [|done]. cbn [negb] in H. destruct (Z.ltb_spec 65535 (str_len v)); [done|].
    split_and!; [|done..]. by intros ->.
Qed.

(** ** Properties *)

(** A label set is its map: whatever order the code visits a map in, it builds
    the same label set; the binary search of [Get] finds exactly the map's
    entries; [Map] gives the map back; and the bytes that are hashed into the
    series ID determine the label set, so two series can only share an ID if
    FNV-1a itself collides. *)
Theorem labels_faithful (m m' : gmap string string) (es : list (string * string)) (Hes : es ≡ₚ map_to_list m)
  (Hs : pairs_short (pairs (build m))) (Hs' : pairs_short (pairs (build m'))) :
  build_entries es = build m /\
  (forall name, Get (build m) name = m !! name) /\
  labels_Map (build m) = m /\
  (fingerprint_input (pairs (build m)) = fingerprint_input (pairs (build m')) -> m = m').
Proof.
  split_and!; [by apply build_order_independent|apply Get_build|apply labels_Map_build|].
  intros E. apply fingerprint_input_inj in E; [|done..].
  rewrite <- (labels_Map_build m), <- (labels_Map_build m'). unfold labels_Map. by rewrite E.
Qed.

(** Tenants never meet in the index: stamping a client's label set with a
    tenant and reading it back are inverse (the reader learns exactly the tenant
    that wrote, and the label set without the internal label is the client's), so
    equal stamped sets come from the same tenant and the same client labels. *)
Theorem tenant_stamp_roundtrip (l l' : Labels) (id id' : string)
  (Hl : labels_wf l) (Hl' : labels_wf l') (Hno : Get l tenant_Label = None) (Hno' : Get l' tenant_Label = None) :
  TenantOf (WithTenant l id) = id /\ Without (WithTenant l id) tenant_Label = l /\
  (WithTenant l id = WithTenant l' id' -> l = l' /\ id = id').
Proof.
  assert (Hrt : forall l id, labels_wf l -> Get l tenant_Label = None ->
    TenantOf (WithTenant l id) = id /\ Without (WithTenant l id) tenant_Label = l).
  { clear. intros l id Hl Hno. unfold WithTenant, TenantOf, Without. destruct (String.eqb_spec id tenant_Default) as [->|].
    - by rewrite Hno.
    - rewrite Get_build, lookup_insert_eq. split; [done|].
      rewrite labels_Map_build, delete_insert_id by (by rewrite <- Get_Map). by apply build_labels_Map. }
  destruct (Hrt l id Hl Hno) as [H1 H2]. destruct (Hrt l' id' Hl' Hno') as [H3 H4].
  split_and!; [done..|]. intros E. split; congruence.
Qed.

(** Validation does not depend on map order and guards the whole pipeline: a
    map is accepted from a client iff it has at most 255 entries and every entry
    passes on its own; and an accepted map never names the internal tenant label
    and fits the write-ahead log's length fields. *)
Theorem labels_New_accepts (m : gmap string string) (l : Labels) :
  labels_New m = Ok l <->
  l = build m /\ (size m <= 255)%nat /\ map_Forall (fun k v => entry_ok false k v) m /\
  m !! tenant_Label = None /\ map_Forall (fun k v => str_len k <= 255 /\ str_len v <= 65535) m.
Proof.
  unfold labels_New. destruct (validateLabelMap m false) as [[]|e] eqn:E; cbn.
  - apply validateLabelMap_ok in E as [Hsz HF]. split; [intros [= <-]|by intros [-> _]]. split_and!; try done.
    + apply eq_None_not_Some. intros [v Hv]. destruct (entry_ok_client _ _ (HF _ _ Hv)) as [? _]. done.
    + intros k v Hkv. destruct (entry_ok_client _ _ (HF _ _ Hkv)) as (_ & ? & ? & _). done.
  - split; [done|]. intros (_ & Hsz & HF & _). rewrite (proj2 (validateLabelMap_ok m false)) in E by done. done.
Qed.

(** *** Witnesses *)

Definition demo_map : gmap string string := <["job" := "api"]> (<["__name__" := "up"]> ∅).
Definition demo_labels : Labels := build demo_map.

Lemma demo_labels_short : pairs_short (pairs (build demo_map)).
Proof.
  replace (pairs (build demo_map)) with [mkLabel "__name__" "up"; mkLabel "job" "api"] by (vm_compute; reflexivity).
  unfold pairs_short. repeat (apply Forall_cons_2; [split; vm_compute; reflexivity|]). apply Forall_nil_2.
Qed.

Lemma labels_faithful_witness : Get (build demo_map) "job" = Some "api"%string /\ Get (build demo_map) "x" = None.
Proof.
  destruct (labels_faithful demo_map demo_map (map_to_list demo_map)) as (_ & H & _);
    [apply Permutation_refl|apply demo_labels_short|apply demo_labels_short|].
  split; [exact (H "job"%string)|exact (H "x"%string)].
Defined.

Lemma tenant_stamp_roundtrip_witness : TenantOf (WithTenant demo_labels "acme") = "acme"%string.
Proof.
  destruct (tenant_stamp_roundtrip demo_labels demo_labels "acme" "anonymous") as [H _];
    [apply build_wf|apply build_wf|vm_compute; reflexivity|vm_compute; reflexivity|exact H].
Defined.
