(* ===== verification/Ring.v ===== *)
(** * Ring: consistent hashing of keys to members

    [internal/ring/ring.go]: the token table, the owner of a key and its replicas. *)
From stdpp Require Import pretty.
From S2P Require Import Prelude GoLib GoSort.

Definition TokensPerMember : nat := 128.

(** ** Operations *)

Record Ring := mkRing { members : list string; tokens : list Z; owners : list nat }.

Inductive ringErr := NoMembers | EmptyMember | DuplicateMember (pos : nat) | BadReplicas (n : Z) (members : nat).

Definition Mix64 (x : Z) : Z :=
  let x := Z.lxor x (Z.shiftr x 30) in
  let x := u64 (x * 13787848793156543929) in
  let x := Z.lxor x (Z.shiftr x 27) in
  let x := u64 (x * 10723151780598845931) in
  Z.lxor x (Z.shiftr x 31).

Definition tokenOf (member : string) (i : nat) : Z :=
  Mix64 (fnv64a (str_bytes (member +:+ "#" +:+ pretty i))).

(** The checks of [New]'s loop over the sorted members, from position [i] on. *)
Fixpoint check_members (i : nat) (prev : option string) (sorted : list string) : result ringErr unit :=
  match sorted with
  | [] => Ok tt
  | m :: rest =>
      if String.eqb m "" then Err EmptyMember else
      if bool_decide (prev = Some m) then Err (DuplicateMember i) else
      check_members (S i) (Some m) rest
  end.

Definition tok_less (a b : Z * nat) : bool :=
  if negb (a.1 =? b.1) then a.1 <? b.1 else (a.2 <? b.2)%nat.

Definition member_toks (i : nat) (m : string) : list (Z * nat) :=
  (fun j => (tokenOf m j, i)) <$> seq 0 TokensPerMember.

Definition New (ms : list string) : result ringErr Ring :=
  match ms with
  | [] => Err NoMembers
  | _ =>
      let sorted := sort_str id ms in
      _ ← check_members 0 None sorted;
      let toks := SliceStable tok_less (concat (imap member_toks sorted)) in
      Ok (mkRing sorted toks.*1 toks.*2)
  end.

Definition position (r : Ring) (h : Z) : nat := SearchList (fun t => h <=? t) (tokens r).

(** Indexing a slice out of range panics in Go; [New] never builds such a table
    (see [ring_wf]), so the default is never taken. *)
Definition member_at (r : Ring) (o : nat) : string := default ""%string (members r !! o).

Definition lookup_pos (r : Ring) (h : Z) : string :=
  let i := position r h in
  let i := if (i =? length (tokens r))%nat then 0%nat else i in
  member_at r (default 0%nat (owners r !! i)).
Definition Owner (r : Ring) (key : Z) : string := lookup_pos r (Mix64 key).

(** [for step := 0; len(out) < n && step < len(r.tokens); step++]. *)
Fixpoint replicas_loop (fuel : nat) (r : Ring) (i n step : nat) (taken : list bool) (out : list string) : list string :=
  match fuel with
  | O => out
  | S f =>
      if ((length out <? n)%nat && (step <? length (tokens r))%nat)%bool then
        let owner := default 0%nat (owners r !! ((i + step) mod length (tokens r))%nat) in
        if default true (taken !! owner) then replicas_loop f r i n (S step) taken out
        else replicas_loop f r i n (S step) (<[owner := true]> taken) (out ++ [member_at r owner])
      else out
  end.
Definition Replicas (r : Ring) (key n : Z) : result ringErr (list string) :=
  if ((n <? 1) || (Z.of_nat (length (members r)) <? n))%bool then Err (BadReplicas n (length (members r))) else
  let i := position r (Mix64 key) in
  Ok (replicas_loop (S (length (tokens r))) r i (Z.to_nat n) 0 (replicate (length (members r)) false) []).

Definition hex_digit (n : Z) : Ascii.ascii := Ascii.ascii_of_N (Z.to_N (if n <? 10 then 48 + n else 87 + n)).
(** [fmt.Sprintf("%08x", v)] of a 32-bit value. *)
Definition hex8 (v : Z) : string :=
  String.string_of_list_ascii ((fun k => hex_digit (Z.land (Z.shiftr v (4 * Z.of_nat k)) 15)) <$> [7; 6; 5; 4; 3; 2; 1; 0]%nat).
Definition ring_Hash (r : Ring) : string :=
  hex8 (fnv32a (str_bytes (String.concat (String (Ascii.ascii_of_nat 10) EmptyString) (members r)))).

(** ** The specification: walking the ring *)

(** Keep the first occurrence of each element, skipping those already [seen]. *)
Fixpoint firsts {A} `{EqDecision A} (seen l : list A) : list A :=
  match l with
  | [] => []
  | x :: r => if decide (x ∈ seen) then firsts seen r else x :: firsts (x :: seen) r
  end.

(** The named tokens, in ring order. *)
Definition named (r : Ring) : list (Z * string) := zip (tokens r) (member_at r <$> owners r).
(** The members met walking clockwise from position [h]: tokens at or after [h],
    then around the top. *)
Definition walk (ts : list (Z * string)) (h : Z) : list string :=
  (filter (fun t => h <= t.1) ts ++ filter (fun t => ~ h <= t.1) ts).*2.

Section firsts.
Context {A : Type} `{EqDecision A}.
Implicit Types (seen l : list A).

Lemma firsts_elem seen l x : x ∈ firsts seen l <-> x ∈ l /\ x ∉ seen.
Proof.
  revert seen. induction l as [|y l IH]; intros seen; cbn.
  - split; [intros []%not_elem_of_nil|intros [[]%not_elem_of_nil _]].
  - destruct (decide (y ∈ seen)) as [Hy|Hy].
    + rewrite IH, elem_of_cons. split; [tauto|]. intros [[->|?] ?]; [done|tauto].
    + rewrite !elem_of_cons, IH, not_elem_of_cons. split.
      * intros [->|(?&?&?)]; tauto.
      * intros [[->|Hx] Hs]; [by left|]. destruct (decide (x = y)); tauto.
Qed.
Lemma firsts_NoDup seen l : NoDup (firsts seen l).
Proof.
  revert seen. induction l as [|y l IH]; intros seen; cbn; [constructor|].
  destruct (decide (y ∈ seen)); [done|]. constructor; [|done]. rewrite firsts_elem. intros [_ H]. apply H. by left.
Qed.
Lemma firsts_filter (P : A -> Prop) `{!forall x, Decision (P x)} seen seen' l :
  (forall x, P x -> x ∈ seen <-> x ∈ seen') -> filter P (firsts seen l) = firsts seen' (filter P l).
Proof.
  revert seen seen'. induction l as [|y l IH]; intros seen seen' Hs; [done|]. cbn [firsts].
  rewrite (filter_cons P y l). destruct (decide (P y)) as [HP|HP].
  - cbn [firsts]. destruct (decide (y ∈ seen)) as [Hy|Hy]; destruct (decide (y ∈ seen')) as [Hy'|Hy'];
      [by apply IH|exfalso; by apply Hy', Hs|exfalso; by apply Hy, Hs|].
    rewrite filter_cons, decide_True by done. f_equal. apply IH. intros x Hx. rewrite !elem_of_cons, (Hs x Hx). done.
  - destruct (decide (y ∈ seen)); [by apply IH|]. rewrite filter_cons, decide_False by done. apply IH.
    intros x Hx. rewrite elem_of_cons, (Hs x Hx). split; [|by right]. intros [->|]; [done|done].
Qed.
End firsts.

Lemma firsts_map {A B} `{EqDecision A, EqDecision B} (f : A -> B) seen l :
  (forall x y, x ∈ seen ++ l -> y ∈ seen ++ l -> f x = f y -> x = y) ->
  firsts (f <$> seen) (f <$> l) = f <$> firsts seen l.
Proof.
  revert seen. induction l as [|y l IH]; intros seen Hinj; [done|]. rewrite fmap_cons. cbn [firsts].
  assert (Hiff : f y ∈ f <$> seen <-> y ∈ seen).
  { split; [|apply list_elem_of_fmap_2]. intros (x & E & Hx)%list_elem_of_fmap.
    rewrite (Hinj y x); [done|set_solver..|done]. }
  destruct (decide (y ∈ seen)) as [Hy|Hy]; destruct (decide (f y ∈ f <$> seen)) as [Hy'|Hy']; try (exfalso; tauto).
  - apply IH. set_solver.
  - rewrite fmap_cons. f_equal. rewrite <- fmap_cons. apply IH. set_solver.
Qed.

(** ** The token table *)

Definition tok_le (a b : Z * string) : Prop := a.1 < b.1 \/ a.1 = b.1 /\ String.le a.2 b.2.
Definition all_named (ms : list string) : list (Z * string) :=
  concat ((fun m => (fun j => (tokenOf m j, m)) <$> seq 0 TokensPerMember) <$> ms).

#[export] Instance tok_le_antisymm : AntiSymm (=) tok_le.
Proof.
  intros [a1 a2] [b1 b2] [H1|[H1 H2]] [H3|[H3 H4]]; cbn in *; try lia. subst. f_equal. by apply (anti_symm String.le).
Qed.
#[export] Instance tok_le_trans : Transitive tok_le.
Proof.
  intros [a1 a2] [b1 b2] [c1 c2] [H1|[H1 H2]] [H3|[H3 H4]]; cbn in *; unfold tok_le; cbn; [left; lia..|right].
  split; [lia|by transitivity b2].
Qed.

(** What [New] guarantees of a ring. *)
Record ring_wf (r : Ring) : Prop := {
  wf_members : StronglySorted str_lt (members r);
  wf_owners : Forall (fun o => (o < length (members r))%nat) (owners r);
  wf_length : length (owners r) = length (tokens r);
  wf_sorted : StronglySorted tok_le (named r);
  wf_named : named r ≡ₚ all_named (members r) }.

Lemma check_members_sorted i prev l :
  StronglySorted String.le l -> (forall p, prev = Some p -> Forall (String.le p) l) -> check_members i prev l = Ok tt ->
  StronglySorted str_lt l /\ (forall p, prev = Some p -> Forall (str_lt p) l) /\ Forall (fun m => m <> ""%string) l.
Proof.
  revert i prev. induction l as [|m l IH]; intros i prev Hs Hprev Hc.
  - by repeat split; constructor.
  - cbn [check_members] in Hc. destruct (String.eqb_spec m ""); [done|].
    destruct (bool_decide_reflect (prev = Some m)) as [|Hne]; [done|].
    apply StronglySorted_inv in Hs as [Hs Hm].
    destruct (IH (S i) (Some m) Hs) as (H1 & H2 & H3); [by intros p [= <-]|done|].
    specialize (H2 m eq_refl). split_and!; [by constructor| |by constructor].
    intros p ->. specialize (Hprev p eq_refl). apply Forall_cons in Hprev as [Hpm _].
    assert (Hlt : str_lt p m) by (apply str_lt_le; split; [done|congruence]).
    constructor; [done|]. eapply Forall_impl; [exact H2|]. intros x. by apply str_lt_trans.
Qed.

Lemma tok_less_sorted toks : StronglySorted (fun a b : Z * nat => a.1 < b.1 \/ a.1 = b.1 /\ (a.2 <= b.2)%nat) (SliceStable tok_less toks).
Proof.
  eapply StronglySorted_impl; [|apply (SliceStable_sorted tok_less)].
  - intros [a1 a2] [b1 b2]. unfold not_after, tok_less. cbn [fst snd].
    destruct (Z.eqb_spec b1 a1); cbn [negb]; [rewrite Nat.ltb_ge|rewrite Z.ltb_ge]; lia.
  - intros [a1 a2] [b1 b2]. unfold tok_less. cbn [fst snd]. destruct (Z.eqb_spec a1 b1), (Z.eqb_spec b1 a1); cbn [negb];
      rewrite ?Nat.ltb_lt, ?Nat.ltb_ge, ?Z.ltb_lt, ?Z.ltb_ge; lia.
  - intros [a1 a2] [b1 b2] [c1 c2]. unfold tok_less. cbn [fst snd].
    destruct (Z.eqb_spec b1 a1), (Z.eqb_spec c1 b1), (Z.eqb_spec c1 a1); cbn [negb];
      rewrite ?Nat.ltb_lt, ?Nat.ltb_ge, ?Z.ltb_lt, ?Z.ltb_ge; lia.
Qed.

Lemma imap_member_toks_owner ms o t : (t, o) ∈ concat (imap member_toks ms) ->
  exists m, ms !! o = Some m /\ t ∈ (fun j => tokenOf m j) <$> seq 0 TokensPerMember.
Proof.
  intros Hin. apply list_elem_of_In, in_concat in Hin as (l & Hl%list_elem_of_In & Ht%list_elem_of_In).
  apply elem_of_lookup_imap in Hl as (i & m & -> & Hm). unfold member_toks in Ht.
  apply list_elem_of_fmap in Ht as (j & [= -> ->] & Hj). exists m. split; [done|]. apply list_elem_of_fmap. by exists j.
Qed.

Lemma named_member_toks ms (f : nat -> string) k : (forall i m, ms !! i = Some m -> f (k + i)%nat = m) ->
  (fun t => (t.1, f t.2)) <$> concat (imap (fun i => member_toks (k + i)) ms) = all_named ms.
Proof.
  revert k. induction ms as [|m ms IH]; intros k Hf; [done|].
  change (all_named (m :: ms)) with (((fun j => (tokenOf m j, m)) <$> seq 0 TokensPerMember) ++ all_named ms).
  cbn [imap concat]. rewrite fmap_app. f_equal.
  - unfold member_toks. rewrite <- list_fmap_compose. apply list_fmap_ext. intros _ j _. cbn.
    by rewrite (Hf 0%nat m).
  - rewrite <- (IH (S k)).
    + do 2 f_equal. apply imap_ext. intros i x _. cbn [compose]. by replace (k + S i)%nat with (S k + i)%nat by lia.
    + intros i x Hx. rewrite <- (Hf (S i) x Hx). f_equal. lia.
Qed.

Lemma zip_fst_snd {A B C} (f : B -> C) (l : list (A * B)) : zip l.*1 (f <$> l.*2) = (fun t => (t.1, f t.2)) <$> l.
Proof. induction l as [|[a b] l IH]; [done|]. cbn. by rewrite <- IH. Qed.

Lemma New_nonempty ms : ms <> [] -> New ms =
  (_ ← check_members 0 None (sort_str id ms);
   let toks := SliceStable tok_less (concat (imap member_toks (sort_str id ms))) in
   Ok (mkRing (sort_str id ms) toks.*1 toks.*2)).
Proof. by destruct ms. Qed.

Lemma New_wf ms r : New ms = Ok r -> ring_wf r /\ members r = sort_str id ms /\ ms <> [] /\ NoDup ms.
Proof.
  intros H. destruct (decide (ms = [])) as [->|Hne]; [done|]. rewrite New_nonempty in H by done.
  destruct (check_members 0 None (sort_str id ms)) as [[]|e] eqn:Ec; [|done]. cbn [mbind result_bind] in H. injection H as <-.
  destruct (check_members_sorted 0 None (sort_str id ms)) as (Hs & _ & _); [apply (sort_str_weak id)|done|done|].
  split_and!; [|done|done|].
  2:{ rewrite <- (sort_str_perm id ms). eapply StronglySorted_strict_NoDup; [|exact Hs]. apply str_lt_irrefl. }
  set (sorted := sort_str id ms) in *. set (raw := concat (imap member_toks sorted)).
  pose proof (SliceStable_perm tok_less raw) as Hperm. set (toks := SliceStable tok_less raw) in *.
  assert (Hown : forall t, t ∈ toks -> exists m, sorted !! t.2 = Some m).
  { intros [t o] Ht. rewrite Hperm in Ht. apply imap_member_toks_owner in Ht as (m & Hm & _). by exists m. }
  assert (Hnamed : forall r, r = mkRing sorted toks.*1 toks.*2 -> named r = (fun t => (t.1, member_at r t.2)) <$> toks).
  { intros r ->. apply zip_fst_snd. }
  split; cbn [members tokens owners].
  - done.
  - apply Forall_forall. intros o (t & -> & Ht)%list_elem_of_fmap. destruct (Hown t Ht) as [m Hm]. by eapply lookup_lt_Some.
  - by rewrite !length_fmap.
  - rewrite Hnamed by done.
    assert (Hin : forall t, t ∈ toks -> exists m, sorted !! t.2 = Some m) by done. revert Hin.
    pose proof (tok_less_sorted raw) as Hst. fold toks in Hst. clear -Hst Hs.
    induction Hst as [|t l Hl IH Ht]; intros Hin; [constructor|].
    rewrite fmap_cons. constructor; [apply IH; intros; apply Hin; by right|].
    apply Forall_forall. intros x (u & -> & Hu)%list_elem_of_fmap. rewrite Forall_forall in Ht. specialize (Ht u Hu).
    destruct (Hin t) as [mt Hmt]; [by left|]. destruct (Hin u) as [mu Hmu]; [by right|].
    unfold tok_le, member_at. cbn [fst snd members]. rewrite Hmt, Hmu. cbn [default from_option id]. destruct Ht as [|[Heq Hle]]; [by left|right]. split; [done|].
    destruct (decide (t.2 = u.2)) as [E|E]; [rewrite E in Hmt; by simplify_eq|].
    eapply str_lt_le, (StronglySorted_lookup _ _ t.2 u.2); [exact Hs|lia|done|done].
  - rewrite Hnamed by done. cbn. rewrite <- (named_member_toks sorted (member_at (mkRing sorted toks.*1 toks.*2)) 0).
    + cbn [Nat.add]. by rewrite Hperm.
    + intros i m Hm. unfold member_at. cbn [members Nat.add]. by rewrite Hm.
Qed.

(** ** The loop of [Replicas] walks the ring *)

(** A sorted table splits at the position [sort.Search] finds. *)
Lemma sorted_split (ts : list (Z * string)) h : StronglySorted tok_le ts ->
  let i := SearchList (fun t => h <=? t) ts.*1 in
  drop i ts = filter (fun t => h <= t.1) ts /\ take i ts = filter (fun t => ~ h <= t.1) ts.
Proof.
  intros Hs. set (lo := filter (fun t => ~ h <= t.1) ts). set (hi := filter (fun t => h <= t.1) ts).
  assert (Hts : ts = lo ++ hi).
  { subst lo hi. induction Hs as [|t ts Hs IH Ht]; [done|]. destruct (decide (h <= t.1)) as [Hle|Hle].
    - rewrite (filter_cons_False (fun t => ~ h <= t.1)) by tauto. rewrite filter_cons_True by done.
      assert (Hall : Forall (fun x => h <= x.1) ts).
      { eapply Forall_impl; [exact Ht|]. intros x [?|[? _]]; lia. }
      rewrite (filter_nothing (fun x => ~ h <= x.1)), (filter_all (fun x => h <= x.1)); [done|done|].
      eapply Forall_impl; [exact Hall|]. cbn. lia.
    - rewrite filter_cons_True, (filter_cons_False (fun t => h <= t.1)) by done. cbn. by f_equal. }
  assert (Hlo : Forall (fun t => ~ h <= t.1) lo) by (apply Forall_forall; intros x [? _]%list_elem_of_filter; done).
  assert (Hhi : Forall (fun t => h <= t.1) hi) by (apply Forall_forall; intros x [? _]%list_elem_of_filter; done).
  clearbody lo hi. subst ts. cbn zeta. rewrite fmap_app, SearchList_split.
  - by rewrite length_fmap, drop_app_length, take_app_length.
  - apply Forall_fmap. eapply Forall_impl; [exact Hlo|]. cbn. intros; lia.
  - apply Forall_fmap. eapply Forall_impl; [exact Hhi|]. cbn. intros; lia.
Qed.

Lemma named_fst r : ring_wf r -> (named r).*1 = tokens r.
Proof. intros Hr. apply fst_zip. rewrite length_fmap. rewrite (wf_length r Hr). lia. Qed.
Lemma named_snd r : ring_wf r -> (named r).*2 = member_at r <$> owners r.
Proof. intros Hr. apply snd_zip. rewrite length_fmap. rewrite (wf_length r Hr). lia. Qed.

Definition rotation (r : Ring) (i : nat) : list nat := drop i (owners r) ++ take i (owners r).

Lemma rotation_perm r i : rotation r i ≡ₚ owners r.
Proof. unfold rotation. by rewrite Permutation_app_comm, take_drop. Qed.

Lemma rotation_valid r i o : ring_wf r -> o ∈ rotation r i -> (o < length (members r))%nat.
Proof. intros Hr. rewrite rotation_perm. pose proof (wf_owners r Hr) as HF. rewrite Forall_forall in HF. apply HF. Qed.

Lemma walk_rotation r h : ring_wf r -> walk (named r) h = member_at r <$> rotation r (position r h).
Proof.
  intros Hr. unfold walk, rotation, position. rewrite <- (named_fst r Hr).
  destruct (sorted_split (named r) h (wf_sorted r Hr)) as [<- <-].
  by rewrite !fmap_app, !fmap_drop, !fmap_take, (named_snd r Hr).
Qed.

Lemma rotation_lookup r i step : (i <= length (owners r))%nat -> (step < length (owners r))%nat ->
  rotation r i !! step = owners r !! ((i + step) mod length (owners r))%nat.
Proof.
  intros Hi Hs. unfold rotation. destruct (decide (step < length (owners r) - i)%nat).
  - rewrite lookup_app_l by (rewrite length_drop; lia). rewrite lookup_drop. f_equal. symmetry. apply Nat.mod_small. lia.
  - rewrite lookup_app_r by (rewrite length_drop; lia). rewrite length_drop, lookup_take_lt by lia. f_equal.
    replace (i + step)%nat with (step - (length (owners r) - i) + 1 * length (owners r))%nat by lia.
    rewrite Nat.Div0.mod_add. symmetry. apply Nat.mod_small. lia.
Qed.

Lemma position_le r h : (position r h <= length (tokens r))%nat.
Proof.
  unfold position, SearchList. set (f := fun i => _).
  apply (search_go_le (length (tokens r)) f 0 (length (tokens r))). lia.
Qed.

(** Invariant of the loop: [seen] are the owners taken so far. *)
Lemma replicas_loop_spec r i n fuel step seen taken out :
  ring_wf r -> (i <= length (owners r))%nat -> (length (owners r) - step < fuel)%nat -> (step <= length (owners r))%nat ->
  length taken = length (members r) ->
  (forall o, taken !! o = Some true <-> o ∈ seen /\ (o < length (members r))%nat) -> (length out <= n)%nat ->
  replicas_loop fuel r i n step taken out
  = out ++ (member_at r <$> take (n - length out) (firsts seen (drop step (rotation r i)))).
Proof.
  intros Hr Hi. revert step seen taken out. induction fuel as [|f IH]; intros step seen taken out Hf Hstep Hlen Htk Hout; [lia|].
  cbn [replicas_loop]. rewrite <- (wf_length r Hr).
  assert (Hrl : length (rotation r i) = length (owners r)).
  { unfold rotation. rewrite length_app, length_drop, length_take. lia. }
  destruct (Nat.ltb_spec (length out) n) as [Hn|Hn]; cbn [andb].
  2:{ replace (n - length out)%nat with 0%nat by lia. by rewrite take_0, app_nil_r. }
  destruct (Nat.ltb_spec step (length (owners r))) as [Hs|Hs].
  2:{ rewrite drop_ge by lia. cbn. by rewrite take_nil, app_nil_r. }
  rewrite <- rotation_lookup by lia.
  destruct (lookup_lt_is_Some_2 (rotation r i) step) as [o Ho]; [lia|]. rewrite Ho. cbn [default from_option id].
  rewrite (drop_S _ _ _ Ho). cbn [firsts].
  assert (Homem : (o < length (members r))%nat).
  { apply (rotation_valid r i); [done|]. by eapply list_elem_of_lookup_2. }
  destruct (taken !! o) as [b|] eqn:Eb; [|apply lookup_ge_None in Eb; lia]. cbn [default from_option id].
  specialize (Htk o) as Hto. rewrite Eb in Hto. destruct b.
  - rewrite decide_True by tauto. apply IH; [lia|lia|done|done|lia].
  - rewrite decide_False by (intros Hin; discriminate (proj2 Hto (conj Hin Homem))).
    rewrite (IH _ (o :: seen)); [|lia|lia|by rewrite length_insert| |rewrite length_app; cbn; lia].
    + rewrite length_app. cbn [length]. rewrite <- app_assoc. f_equal.
      replace (n - length out)%nat with (S (n - (length out + 1))) by lia. done.
    + intros o'. destruct (decide (o' = o)) as [->|Hne].
      * rewrite list_lookup_insert_eq by lia. split; [intros _; split; [by left|done]|done].
      * rewrite list_lookup_insert_ne by done. rewrite Htk, elem_of_cons. split; [tauto|]. intros [[?|?] ?]; [done|tauto].
Qed.

Lemma member_at_inj r o1 o2 : ring_wf r -> (o1 < length (members r))%nat -> (o2 < length (members r))%nat ->
  member_at r o1 = member_at r o2 -> o1 = o2.
Proof.
  intros Hr H1 H2. unfold member_at. destruct (lookup_lt_is_Some_2 _ _ H1) as [m1 E1]. destruct (lookup_lt_is_Some_2 _ _ H2) as [m2 E2].
  rewrite E1, E2. cbn. intros ->. pose proof (StronglySorted_strict_NoDup _ _ str_lt_irrefl (wf_members r Hr)) as Hnd.
  by eapply NoDup_lookup.
Qed.

(** [Replicas] returns the first [n] distinct members met on the walk. *)
Lemma Replicas_walk r key n : ring_wf r -> 1 <= n <= Z.of_nat (length (members r)) ->
  Replicas r key n = Ok (take (Z.to_nat n) (firsts [] (walk (named r) (Mix64 key)))).
Proof.
  intros Hr Hn. unfold Replicas. rewrite (proj2 (orb_false_iff _ _)) by lia. f_equal.
  rewrite (replicas_loop_spec r _ _ _ 0 []); [|done| |rewrite (wf_length r Hr); lia|lia|apply length_replicate| |cbn; lia].
  - cbn [length app drop]. rewrite Nat.sub_0_r, (walk_rotation r _ Hr), fmap_take. f_equal.
    change (@nil string) with (member_at r <$> []). rewrite firsts_map; [done|].
    cbn [app]. intros x y Hx%rotation_valid Hy%rotation_valid; [|done..]. by apply member_at_inj.
  - rewrite (wf_length r Hr). apply position_le.
  - intros o. split.
    + intros [? ?]%lookup_replicate_1. done.
    + intros [[]%not_elem_of_nil _].
Qed.

(** ** Every member is met *)

Lemma all_named_elem ms t : t ∈ all_named ms <-> exists m j, m ∈ ms /\ (j < TokensPerMember)%nat /\ t = (tokenOf m j, m).
Proof.
  unfold all_named. rewrite list_elem_of_In, in_concat. split.
  - intros (l & Hl%list_elem_of_In & Ht%list_elem_of_In). apply list_elem_of_fmap in Hl as (m & -> & Hm).
    apply list_elem_of_fmap in Ht as (j & -> & Hj%elem_of_seq). exists m, j. split_and!; [done|lia|done].
  - intros (m & j & Hm & Hj & ->). eexists. split; [by apply list_elem_of_In, list_elem_of_fmap_2|].
    apply list_elem_of_In, list_elem_of_fmap. exists j. split; [done|]. apply elem_of_seq. lia.
Qed.

Lemma walk_perm ts h : walk ts h ≡ₚ ts.*2.
Proof. unfold walk. by rewrite filter_app_complement. Qed.

Lemma walk_elem r h m : ring_wf r -> m ∈ walk (named r) h <-> m ∈ members r.
Proof.
  intros Hr. rewrite walk_perm, (wf_named r Hr). rewrite list_elem_of_fmap. setoid_rewrite all_named_elem. split.
  - by intros (t & -> & m' & j & Hm & _ & ->).
  - intros Hm. exists (tokenOf m 0, m). split; [done|]. exists m, 0%nat. split_and!; [done|unfold TokensPerMember; lia|done].
Qed.

Lemma firsts_walk_perm r h : ring_wf r -> firsts [] (walk (named r) h) ≡ₚ members r.
Proof.
  intros Hr. apply NoDup_Permutation; [apply firsts_NoDup| |].
  - eapply StronglySorted_strict_NoDup; [apply str_lt_irrefl|apply (wf_members r Hr)].
  - intros m. rewrite firsts_elem, walk_elem by done. split; [tauto|]. intros; split; [done|apply not_elem_of_nil].
Qed.

Lemma Owner_head r key : ring_wf r -> members r <> [] ->
  head (walk (named r) (Mix64 key)) = Some (Owner r key).
Proof.
  intros Hr Hne. rewrite walk_rotation by done. unfold Owner, lookup_pos.
  pose proof (position_le r (Mix64 key)) as Hle. set (i := position r (Mix64 key)) in *. rewrite <- (wf_length r Hr) in *.
  destruct (owners r) as [|o os] eqn:Eo.
  { destruct (members r) as [|m ms] eqn:Em; [done|]. exfalso.
    assert (Hm : m ∈ walk (named r) (Mix64 key)) by (apply walk_elem; [done|]; rewrite Em; by left).
    rewrite walk_rotation in Hm by done. unfold rotation in Hm. rewrite Eo in Hm. rewrite drop_nil, take_nil in Hm. by apply not_elem_of_nil in Hm. }
  rewrite <- Eo in *. assert (Hlen : (0 < length (owners r))%nat) by (rewrite Eo; cbn; lia).
  rewrite head_lookup, list_lookup_fmap, rotation_lookup by lia. rewrite Nat.add_0_r.
  assert (Hidx : (i mod length (owners r))%nat = (if (i =? length (owners r))%nat then 0 else i)%nat).
  { destruct (Nat.eqb_spec i (length (owners r))) as [->|]; [apply Nat.Div0.mod_same|apply Nat.mod_small; lia]. }
  rewrite Hidx. destruct (lookup_lt_is_Some_2 (owners r) (if (i =? length (owners r))%nat then 0 else i)%nat) as [o' Ho'].
  { destruct (Nat.eqb_spec i (length (owners r))); lia. }
  by rewrite Ho'.
Qed.

(** ** Adding a member *)

Lemma all_named_perm ms ms' : ms ≡ₚ ms' -> all_named ms ≡ₚ all_named ms'.
Proof. intros H. unfold all_named. by rewrite H. Qed.

Lemma named_without r r' m : ring_wf r -> ring_wf r' -> members r' ≡ₚ m :: members r ->
  filter (fun t => t.2 <> m) (named r') = named r.
Proof.
  intros Hr Hr' Hm.
  apply (StronglySorted_unique tok_le).
  - apply filter_sorted, (wf_sorted r' Hr').
  - apply (wf_sorted r Hr).
  - rewrite (wf_named r' Hr'), (wf_named r Hr), (all_named_perm _ _ Hm).
    assert (Hnd : NoDup (m :: members r)).
    { rewrite <- Hm. eapply StronglySorted_strict_NoDup; [apply str_lt_irrefl|apply (wf_members r' Hr')]. }
    apply NoDup_cons in Hnd as [Hnin _].
    change (all_named (m :: members r)) with (((fun j => (tokenOf m j, m)) <$> seq 0 TokensPerMember) ++ all_named (members r)).
    rewrite filter_app, filter_nothing, filter_all; [done| |].
    + apply Forall_forall. intros t Ht%all_named_elem. destruct Ht as (m' & j & Hm' & _ & ->). cbn. by intros ->.
    + apply Forall_forall. intros t Ht. apply list_elem_of_fmap in Ht as (j & -> & _). cbn. tauto.
Qed.

Lemma filter_snd (ts : list (Z * string)) m :
  (filter (fun t => t.2 <> m) ts).*2 = filter (fun x => x <> m) ts.*2.
Proof.
  induction ts as [|[v x] ts IH]; [done|]. rewrite fmap_cons. cbn [snd].
  destruct (decide (x = m)) as [E|E].
  - rewrite !filter_cons_False by (cbn; tauto). done.
  - rewrite !filter_cons_True by done. rewrite fmap_cons. by f_equal.
Qed.
Lemma walk_filter ts h m : walk (filter (fun t => t.2 <> m) ts) h = filter (fun x => x <> m) (walk ts h).
Proof.
  unfold walk. rewrite <- filter_snd, filter_app, !list_filter_filter. do 2 f_equal; apply list_filter_iff; tauto.
Qed.

Lemma filter_take_prefix {A} (P : A -> Prop) `{!forall x, Decision (P x)} n l :
  filter P (take n l) `prefix_of` take n (filter P l).
Proof.
  rewrite <- (take_drop n l) at 2. rewrite filter_app, take_app_ge; [by apply prefix_app_r|].
  etransitivity; [apply length_filter|]. rewrite length_take. lia.
Qed.

(** The routing interface: a router asks for the replicas of a key and relies on
    getting [rf] distinct members. *)
Class Routes (route : Z -> result ringErr (list string)) (rf : nat) (ms : list string) : Prop := {
  route_spec : forall key, exists out, route key = Ok out /\ length out = rf /\ NoDup out /\ forall m, m ∈ out -> m ∈ ms }.

#[export] Instance Ring_routes ms r rf : New ms = Ok r -> (1 <= rf <= length ms)%nat -> Routes (fun key => Replicas r key (Z.of_nat rf)) rf ms.
Proof.
  intros Hnew Hrf. destruct (New_wf ms r Hnew) as (Hr & Hm & _ & _). split. intros key.
  assert (Hlen : length (members r) = length ms) by (by rewrite Hm, (Permutation_length (sort_str_perm id ms))).
  eexists. rewrite Replicas_walk by (done || lia). split; [reflexivity|]. rewrite Nat2Z.id.
  pose proof (firsts_walk_perm r (Mix64 key) Hr) as Hp. set (all := firsts [] (walk (named r) (Mix64 key))) in *. split_and!.
  - rewrite length_take, (Permutation_length Hp). lia.
  - eapply sublist_NoDup; [|apply sublist_take]. apply firsts_NoDup.
  - intros m Hin. assert (Hi : m ∈ all) by (eapply elem_of_sublist; [exact Hin|apply sublist_take]).
    rewrite Hp, Hm in Hi. by rewrite (sort_str_perm id ms) in Hi.
Qed.

(** ** Properties *)

Lemma sort_str_perm_eq (l l' : list string) : l ≡ₚ l' -> sort_str id l = sort_str id l'.
Proof.
  intros H. apply (StronglySorted_unique String.le); [apply (sort_str_weak id)..|]. by rewrite !sort_str_perm.
Qed.

(** C32. Every key has its replicas: on any ring [New] builds and for any legal
    count, [Replicas] returns exactly that many members, all different, all of the
    ring, the owner first; other counts are refused. So a write always reaches
    [n] distinct ingesters. *)
Theorem Replicas_distinct (ms : list string) (r : Ring) (key n : Z) (Hnew : New ms = Ok r) :
  (1 <= n <= Z.of_nat (length ms) ->
   exists out, Replicas r key n = Ok out /\ Z.of_nat (length out) = n /\ NoDup out /\
     (forall m, m ∈ out -> m ∈ ms) /\ head out = Some (Owner r key)) /\
  (n < 1 \/ Z.of_nat (length ms) < n -> Replicas r key n = Err (BadReplicas n (length ms))).
Proof.
  destruct (New_wf ms r Hnew) as (Hr & Hm & Hne & Hnd).
  assert (Hlen : length (members r) = length ms) by (by rewrite Hm, (Permutation_length (sort_str_perm id ms))).
  split.
  - intros Hn. eexists. rewrite Replicas_walk by (done || lia). split; [reflexivity|].
    set (all := firsts [] (walk (named r) (Mix64 key))).
    pose proof (firsts_walk_perm r (Mix64 key) Hr) as Hp. fold all in Hp.
    split_and!.
    + rewrite length_take, (Permutation_length Hp). lia.
    + assert (Hall : NoDup all) by apply firsts_NoDup. rewrite <- (take_drop (Z.to_nat n) all) in Hall.
      by apply NoDup_app in Hall as [? _].
    + intros m Hin. assert (m ∈ all) as Ha by (rewrite <- (take_drop (Z.to_nat n) all), elem_of_app; by left).
      rewrite Hp, Hm, sort_str_perm in Ha. done.
    + assert (Hmne : members r <> []) by (destruct (members r); [destruct ms; cbn in *; [done|lia]|done]).
      pose proof (Owner_head r key Hr Hmne) as Hh. subst all.
      destruct (walk (named r) (Mix64 key)) as [|x w]; [done|]. cbn in Hh. injection Hh as ->.
      cbn [firsts]. rewrite decide_False by apply not_elem_of_nil.
      destruct (Z.to_nat n) eqn:En; [lia|]. done.
  - intros Hn. unfold Replicas. rewrite Hlen, (proj2 (orb_true_iff _ _)) by lia. done.
Qed.

(** The ring is a function of the member set: the order in which members are
    listed (two gateways configured differently) changes neither the ring nor the
    error for an invalid list. *)
Theorem New_order_independent (ms ms' : list string) (Hperm : ms ≡ₚ ms') : New ms = New ms'.
Proof.
  destruct (decide (ms = [])) as [->|Hne].
  - by apply Permutation_nil_l in Hperm as ->.
  - assert (Hne' : ms' <> []) by (intros ->; by apply Hne, Permutation_nil_r).
    by rewrite !New_nonempty, (sort_str_perm_eq ms ms' Hperm).
Qed.

(** Consistent hashing: when one member joins, a key changes hands only to
    the newcomer. For every key the owner either stays or becomes the new member,
    and the old members among the new replicas are, in order, the first of the old
    replicas; read from right to left it says what removing a member moves. *)
Theorem ring_minimal_movement (ms ms' : list string) (r r' : Ring) (m : string) (key n : Z) (out out' : list string)
  (Hnew : New ms = Ok r) (Hnew' : New ms' = Ok r') (Hadd : ms' ≡ₚ m :: ms)
  (Hout : Replicas r key n = Ok out) (Hout' : Replicas r' key n = Ok out') :
  (Owner r' key = m \/ Owner r' key = Owner r key) /\
  filter (fun x => x <> m) out' `prefix_of` out.
Proof.
  destruct (New_wf ms r Hnew) as (Hr & Hm & Hne & Hnd). destruct (New_wf ms' r' Hnew') as (Hr' & Hm' & Hne' & Hnd').
  assert (Hperm : members r' ≡ₚ m :: members r) by (by rewrite Hm, Hm', !sort_str_perm).
  assert (Hw : walk (named r) (Mix64 key) = filter (fun x => x <> m) (walk (named r') (Mix64 key)))
    by (by rewrite <- (named_without r r' m Hr Hr' Hperm), walk_filter).
  assert (Hlen : length (members r') = S (length (members r))) by (by rewrite Hperm).
  split.
  - assert (Hmne : members r <> []).
    { intros E. apply Hne, length_zero_iff_nil. rewrite <- (Permutation_length (sort_str_perm id ms)), <- Hm, E. done. }
    pose proof (Owner_head r key Hr Hmne) as Ho. rewrite Hw in Ho.
    pose proof (Owner_head r' key Hr' ltac:(destruct (members r'); done)) as Ho'.
    destruct (walk (named r') (Mix64 key)) as [|x w]; [done|]. injection Ho' as ->.
    destruct (decide (Owner r' key = m)) as [|Hx]; [by left|right].
    rewrite filter_cons_True in Ho by done. by injection Ho.
  - assert (Hn : 1 <= n <= Z.of_nat (length (members r))).
    { unfold Replicas in Hout. destruct (Z.ltb_spec n 1); [done|]. destruct (Z.ltb_spec (Z.of_nat (length (members r))) n); [done|]. lia. }
    rewrite Replicas_walk in Hout, Hout' by (done || lia). injection Hout as <-. injection Hout' as <-.
    rewrite Hw, <- (firsts_filter (fun x => x <> m) []) by done. apply filter_take_prefix.
Qed.

(** *** Witnesses: two members, a third joining (the tokens really are computed) *)

Definition demo_ring (ms : list string) : Ring := match New ms with Ok r => r | Err _ => mkRing [] [] [] end.
Definition demo_ms : list string := ["ing-1"; "ing-0"]%string.

Lemma Replicas_distinct_witness : exists out, Replicas (demo_ring demo_ms) 42 2 = Ok out /\ Z.of_nat (length out) = 2 /\ NoDup out.
Proof.
  destruct (Replicas_distinct demo_ms (demo_ring demo_ms) 42 2) as [H _]; [vm_compute; reflexivity|].
  destruct H as (out & H1 & H2 & H3 & _); [cbn; lia|]. exists out. split; [exact H1|]. split; [exact H2|exact H3].
Defined.

Lemma New_order_independent_witness : New demo_ms = New ["ing-0"; "ing-1"]%string.
Proof. apply (New_order_independent demo_ms). apply Permutation_swap. Defined.

Definition demo_replicas (ms : list string) (key n : Z) : list string :=
  match Replicas (demo_ring ms) key n with Ok out => out | Err _ => [] end.

Definition demo_one : list string := ["ing-0"%string].
Definition demo_two : list string := ["ing-1"; "ing-0"]%string.
Lemma ring_minimal_movement_witness :
  Owner (demo_ring demo_two) 7 = "ing-1"%string \/
  Owner (demo_ring demo_two) 7 = Owner (demo_ring demo_one) 7.
Proof.
  destruct (ring_minimal_movement demo_one demo_two (demo_ring demo_one) (demo_ring demo_two)
    "ing-1" 7 1 (demo_replicas demo_one 7 1) (demo_replicas demo_two 7 1)) as [H _];
    [vm_compute; reflexivity|vm_compute; reflexivity|apply Permutation_refl|vm_compute; reflexivity|vm_compute; reflexivity|exact H].
Defined.
