(* ===== verification/Postings.v ===== *)
(** * Postings: the in-memory inverted label index

    [internal/storage/index/postings.go]: sorted postings lists per label pair,
    their intersection, and the abstract index they implement. *)
From S2P Require Import Prelude GoLib GoSort.

(** ** Sorted lists of series IDs *)

Definition search_ge (s : list Z) (id : Z) : nat := SearchList (fun x => id <=? x) s.

Definition containsSorted (s : list Z) (id : Z) : bool := bool_decide (s !! search_ge s id = Some id).
Definition insertSorted (s : list Z) (id : Z) : list Z :=
  let i := search_ge s id in
  if bool_decide (s !! i = Some id) then s else take i s ++ id :: drop i s.
Definition removeSorted (s : list Z) (id : Z) : list Z :=
  let i := search_ge s id in
  if bool_decide (s !! i = Some id) then take i s ++ drop (S i) s else s.

(** The two-pointer loop; [a] and [b] are what is left from [i] and [j] on. *)
Fixpoint intersectSorted (a : list Z) : list Z -> list Z :=
  match a with
  | [] => fun _ => []
  | x :: a' =>
      fix inner (b : list Z) : list Z :=
        match b with
        | [] => []
        | y :: b' =>
            if x =? y then x :: intersectSorted a' b'
            else if x <? y then intersectSorted a' b
            else inner b'
        end
  end.

(** ** The index *)

Record Pair := mkPair { p_name : string; p_value : string }.
#[export] Instance Pair_eq_dec : EqDecision Pair.
Proof. solve_decision. Defined.

Record MemPostings := mkPostings { p_m : gmap string (gmap string (list Z)); allRefs : list Z }.
Definition NewMemPostings : MemPostings := mkPostings ∅ [].

Definition add_pair (id : Z) (m : gmap string (gmap string (list Z))) (l : Pair) : gmap string (gmap string (list Z)) :=
  let vals := default ∅ (m !! p_name l) in
  <[p_name l := <[p_value l := insertSorted (default [] (vals !! p_value l)) id]> vals]> m.
Definition postings_Add (p : MemPostings) (id : Z) (labels : list Pair) : MemPostings :=
  if containsSorted (allRefs p) id then p
  else mkPostings (fold_left (add_pair id) labels (p_m p)) (insertSorted (allRefs p) id).

Definition delete_pair (id : Z) (m : gmap string (gmap string (list Z))) (l : Pair) : gmap string (gmap string (list Z)) :=
  match m !! p_name l with
  | None => m
  | Some vals =>
      let list := removeSorted (default [] (vals !! p_value l)) id in
      let vals := match list with [] => delete (p_value l) vals | _ => <[p_value l := list]> vals end in
      if bool_decide (vals = ∅) then delete (p_name l) m else <[p_name l := vals]> m
  end.
Definition postings_Delete (p : MemPostings) (id : Z) (labels : list Pair) : MemPostings :=
  mkPostings (fold_left (delete_pair id) labels (p_m p)) (removeSorted (allRefs p) id).

Definition list_at (m : gmap string (gmap string (list Z))) (name value : string) : list Z :=
  default [] (default ∅ (m !! name) !! value).
Definition Postings (p : MemPostings) (name value : string) : list Z :=
  if (String.eqb name "" && String.eqb value "")%bool then allRefs p else list_at (p_m p) name value.

(** The loop that collects the lists; [None] is the early [return nil]. *)
Fixpoint collect_lists (m : gmap string (gmap string (list Z))) (ms : list Pair) : option (list (list Z)) :=
  match ms with
  | [] => Some []
  | x :: rest =>
      match m !! p_name x with
      | None => None
      | Some vals =>
          match default [] (vals !! p_value x) with
          | [] => None
          | l => ls ← collect_lists m rest; Some (l :: ls)
          end
      end
  end.
Fixpoint intersect_all (result : list Z) (lists : list (list Z)) : list Z :=
  match lists with
  | [] => result
  | l :: rest => match intersectSorted result l with [] => [] | r => intersect_all r rest end
  end.
Definition postings_Select (p : MemPostings) (matchers : list Pair) : list Z :=
  match matchers with
  | [] => allRefs p
  | _ =>
      match collect_lists (p_m p) matchers with
      | None => []
      | Some lists =>
          match sort_by (fun l => Z.of_nat (length l)) lists with
          | [] => []
          | l0 :: rest => intersect_all l0 rest
          end
      end
  end.

Definition idx_LabelNames (p : MemPostings) : list string := sort_str id (map_to_list (p_m p)).*1.
Definition idx_LabelValues (p : MemPostings) (name : string) : list string :=
  match p_m p !! name with
  | None => []
  | Some vals => sort_str id (filter (fun e => e.2 <> []) (map_to_list vals)).*1
  end.
Definition SeriesCount (p : MemPostings) : nat := length (allRefs p).
Definition LabelNameCount (p : MemPostings) : nat := size (p_m p).
Definition LabelPairCount (p : MemPostings) : nat :=
  sum_list ((fun e => length (filter (fun x : string * list Z => x.2 <> []) (map_to_list e.2))) <$> map_to_list (p_m p)).

(** ** The abstract index: which series carries which pairs *)

Definition strict (l : list Z) : Prop := StronglySorted Z.lt l.

Record postings_rep (p : MemPostings) (db : gmap Z (list Pair)) : Prop := {
  rep_all : strict (allRefs p) /\ forall id, id ∈ allRefs p <-> is_Some (db !! id);
  rep_list : forall name value, strict (list_at (p_m p) name value) /\
    forall id, id ∈ list_at (p_m p) name value <-> exists ls, db !! id = Some ls /\ mkPair name value ∈ ls;
  rep_pruned : forall name vals, p_m p !! name = Some vals -> vals <> ∅ /\ forall v l, vals !! v = Some l -> l <> [] }.

(** ** Sorted list lemmas *)

Lemma search_ge_split s id : strict s -> exists lo hi, s = lo ++ hi /\ search_ge s id = length lo /\
  Forall (fun x => x < id) lo /\ Forall (fun x => id <= x) hi /\ strict lo /\ strict hi.
Proof.
  intros Hs. assert (H : exists lo hi, s = lo ++ hi /\ Forall (fun x => x < id) lo /\ Forall (fun x => id <= x) hi /\ strict lo /\ strict hi).
  { induction Hs as [|x s Hs IH Hx]; [by exists [], []; repeat split; constructor|].
    destruct (Z.le_gt_cases id x) as [Hle|Hgt].
    - exists [], (x :: s). split_and!; [done|constructor| |constructor|by constructor].
      constructor; [done|]. eapply Forall_impl; [exact Hx|]. cbn. lia.
    - destruct IH as (lo & hi & -> & Hlo & Hhi & Hslo & Hshi). exists (x :: lo), hi.
      split_and!; [done|by constructor|done| |done].
      constructor; [done|]. by apply Forall_app in Hx as [? _]. }
  destruct H as (lo & hi & -> & Hlo & Hhi & Hslo & Hshi). exists lo, hi. split_and!; try done.
  apply SearchList_split; (eapply Forall_impl; [eassumption|]); cbn; intros; lia.
Qed.

Lemma strict_app lo hi : strict lo -> strict hi -> Forall (fun x => Forall (Z.lt x) hi) lo -> strict (lo ++ hi).
Proof.
  intros Hlo Hhi. induction Hlo as [|x lo Hlo IH Hx]; intros HF; [done|]. apply Forall_cons in HF as [HF1 HF].
  cbn. constructor; [by apply IH|]. apply Forall_app. split; [exact Hx|done].
Qed.
Lemma strict_NoDup l : strict l -> NoDup l.
Proof. apply StronglySorted_strict_NoDup. lia. Qed.
Lemma strict_ext l1 l2 : strict l1 -> strict l2 -> (forall x, x ∈ l1 <-> x ∈ l2) -> l1 = l2.
Proof.
  intros H1 H2 H. apply (StronglySorted_strict_unique Z.lt); [lia|done..|]. intros x. by rewrite <- !list_elem_of_In.
Qed.

(** What the search finds: the head of the right part, if it is the ID. *)
Lemma search_hit (lo hi : list Z) (id : Z) : (lo ++ hi) !! length lo = Some id <-> head hi = Some id.
Proof. rewrite lookup_app_r by lia. rewrite Nat.sub_diag. by destruct hi. Qed.

Lemma insertSorted_spec s id : strict s -> strict (insertSorted s id) /\ forall x, x ∈ insertSorted s id <-> x = id \/ x ∈ s.
Proof.
  intros Hs. unfold insertSorted. destruct (search_ge_split s id Hs) as (lo & hi & -> & -> & Hlo & Hhi & Hslo & Hshi).
  rewrite take_app_length, drop_app_length. destruct (bool_decide_reflect ((lo ++ hi) !! length lo = Some id)) as [E|E].
  - split; [done|]. intros x. split; [by right|]. intros [->|]; [|done]. apply list_elem_of_lookup. by exists (length lo).
  - rewrite search_hit in E. assert (Hhi' : Forall (Z.lt id) hi).
    { destruct hi as [|y hi]; [constructor|]. apply Forall_cons in Hhi as [Hy Hhi]. cbn in E.
      apply StronglySorted_inv in Hshi as [_ Hyh]. assert (id < y) by (assert (y <> id) by congruence; lia).
      constructor; [done|]. eapply Forall_impl; [exact Hyh|]. intros; lia. }
    split.
    + apply strict_app; [done|by constructor|]. rewrite Forall_forall in *. intros x Hx. specialize (Hlo x Hx).
      constructor; [done|]. rewrite Forall_forall in *. intros y Hy. specialize (Hhi' y Hy). lia.
    + intros x. rewrite !elem_of_app, elem_of_cons. tauto.
Qed.

Lemma removeSorted_spec s id : strict s -> strict (removeSorted s id) /\ forall x, x ∈ removeSorted s id <-> x <> id /\ x ∈ s.
Proof.
  intros Hs. unfold removeSorted. pose proof (strict_NoDup _ Hs) as Hnd. pose proof Hs as Hs0.
  destruct (search_ge_split s id Hs) as (lo & hi & -> & -> & Hlo & Hhi & Hslo & Hshi).
  rewrite Forall_forall in Hlo, Hhi.
  destruct (bool_decide_reflect ((lo ++ hi) !! length lo = Some id)) as [E|E]; rewrite search_hit in E.
  - destruct hi as [|y hi]; [done|]. cbn in E. injection E as ->. rewrite take_app_length.
    replace (drop (S (length lo)) (lo ++ id :: hi)) with hi by (rewrite drop_app_ge by lia; by replace (S (length lo) - length lo)%nat with 1%nat by lia).
    apply StronglySorted_inv in Hshi as [Hshi Hid]. rewrite Forall_forall in Hid. split.
    + apply strict_app; [done..|]. apply Forall_forall. intros x Hx. apply Forall_forall. intros y Hy.
      specialize (Hlo x Hx). specialize (Hid y Hy). lia.
    + intros x. rewrite !elem_of_app, elem_of_cons. split; [|tauto].
      intros [Hx|Hx]; (split; [|tauto]); intros ->; [specialize (Hlo id Hx)|specialize (Hid id Hx)]; lia.
  - split; [done|]. intros x. split; [|tauto]. intros Hx. split; [|done]. intros ->.
    apply elem_of_app in Hx as [Hx|Hx]; [specialize (Hlo id Hx); lia|].
    destruct hi as [|y hi]; [by apply not_elem_of_nil in Hx|]. apply elem_of_cons in Hx as [->|Hx]; [done|].
    apply StronglySorted_inv in Hshi as [_ Hy]. rewrite Forall_forall in Hy. specialize (Hy id Hx). specialize (Hhi y ltac:(by left)). lia.
Qed.

Lemma containsSorted_spec s id : strict s -> containsSorted s id = true <-> id ∈ s.
Proof.
  intros Hs. unfold containsSorted. rewrite bool_decide_eq_true. split; [intros H; by eapply list_elem_of_lookup_2|].
  destruct (search_ge_split s id Hs) as (lo & hi & -> & -> & Hlo & Hhi & Hslo & Hshi). rewrite search_hit. rewrite Forall_forall in Hlo, Hhi.
  intros [Hx|Hx]%elem_of_app; [specialize (Hlo id Hx); lia|].
  destruct hi as [|y hi]; [by apply not_elem_of_nil in Hx|]. apply elem_of_cons in Hx as [->|Hx]; [done|].
  apply StronglySorted_inv in Hshi as [_ Hy]. rewrite Forall_forall in Hy. specialize (Hy id Hx). specialize (Hhi y ltac:(by left)). lia.
Qed.

Lemma intersectSorted_spec a b : strict a -> strict b ->
  strict (intersectSorted a b) /\ forall x, x ∈ intersectSorted a b <-> x ∈ a /\ x ∈ b.
Proof.
  intros Ha. revert b. induction Ha as [|x a Ha IH Hx]; intros b Hb.
  { split; [constructor|]. intros y. cbn. rewrite elem_of_nil. tauto. }
  rewrite Forall_forall in Hx. induction Hb as [|y b Hb IHb Hy].
  { split; [constructor|]. intros z. cbn. rewrite elem_of_nil. tauto. }
  rewrite Forall_forall in Hy. cbn [intersectSorted]. destruct (Z.eqb_spec x y) as [->|Hne]; [|destruct (Z.ltb_spec x y)].
  - destruct (IH b Hb) as [H1 H2]. split.
    + constructor; [done|]. apply Forall_forall. intros z Hz. apply H2 in Hz as [Hz _]. by apply Hx.
    + intros z. rewrite !elem_of_cons, H2. split; [tauto|]. intros [[?|Hza] [?|Hzb]]; subst; auto.
  - destruct (IH (y :: b)) as [H1 H2]; [constructor; [done|by apply Forall_forall]|]. split; [done|].
    intros z. rewrite H2, !elem_of_cons. split; [tauto|]. intros [[?|Hza] [?|Hzb]]; subst; auto; [lia|specialize (Hy _ Hzb); lia].
  - destruct IHb as [H1 H2]. split; [done|]. intros z.
    change ((fix inner (b0 : list Z) : list Z := _) b) with (intersectSorted (x :: a) b).
    rewrite H2, !elem_of_cons. split; [tauto|]. intros [[?|Hza] [?|Hzb]]; subst; auto; [lia|specialize (Hx _ Hza); lia].
Qed.

(** ** Add and Delete implement the abstract index *)

Lemma list_at_insert m n v l name value :
  list_at (<[n := <[v := l]> (default ∅ (m !! n))]> m) name value
  = if decide (name = n /\ value = v) then l else list_at m name value.
Proof.
  unfold list_at. destruct (decide (name = n)) as [->|Hn].
  - rewrite lookup_insert_eq. cbn [default from_option]. unfold id. destruct (decide (value = v)) as [->|Hv].
    + rewrite lookup_insert_eq, decide_True by done. done.
    + rewrite lookup_insert_ne, decide_False by (done || tauto). done.
  - rewrite lookup_insert_ne by done. by rewrite decide_False by tauto.
Qed.

Lemma pair_eq_iff name value l : mkPair name value = l <-> name = p_name l /\ value = p_value l.
Proof. destruct l; cbn. split; [intros [= -> ->]; done|by intros [-> ->]]. Qed.

Definition pruned (m : gmap string (gmap string (list Z))) : Prop :=
  forall name vals, m !! name = Some vals -> vals <> ∅ /\ forall v l, vals !! v = Some l -> l <> [].

Lemma insertSorted_nonempty s id : insertSorted s id <> [].
Proof.
  unfold insertSorted. destruct (bool_decide_reflect (s !! search_ge s id = Some id)) as [E|_]; [|by destruct (take _ _)].
  by destruct s.
Qed.

Lemma add_pair_spec id m l : (forall n v, strict (list_at m n v)) -> pruned m ->
  pruned (add_pair id m l) /\
  forall n v, strict (list_at (add_pair id m l) n v) /\
    forall x, x ∈ list_at (add_pair id m l) n v <-> x ∈ list_at m n v \/ x = id /\ mkPair n v = l.
Proof.
  intros Hs Hp. unfold add_pair. cbn zeta.
  change (default [] (default ∅ (m !! p_name l) !! p_value l)) with (list_at m (p_name l) (p_value l)).
  destruct (insertSorted_spec _ id (Hs (p_name l) (p_value l))) as [Hi1 Hi2]. split.
  - intros name vals. destruct (decide (name = p_name l)) as [->|Hn].
    + rewrite lookup_insert_eq. intros [= <-]. split; [apply insert_non_empty|].
      intros v l'. destruct (decide (v = p_value l)) as [->|Hv].
      * rewrite lookup_insert_eq. intros [= <-]. apply insertSorted_nonempty.
      * rewrite lookup_insert_ne by done. destruct (m !! p_name l) as [vals|] eqn:E; cbn; [|by rewrite lookup_empty].
        by apply (Hp _ _ E).
    + rewrite lookup_insert_ne by done. apply Hp.
  - intros n v. rewrite list_at_insert. setoid_rewrite pair_eq_iff. destruct (decide _) as [[-> ->]|Hne].
    + split; [done|]. intros x. rewrite Hi2. tauto.
    + split; [done|]. intros x. tauto.
Qed.

Lemma add_pairs_spec id labels m : (forall n v, strict (list_at m n v)) -> pruned m ->
  pruned (fold_left (add_pair id) labels m) /\
  forall n v, strict (list_at (fold_left (add_pair id) labels m) n v) /\
    forall x, x ∈ list_at (fold_left (add_pair id) labels m) n v <-> x ∈ list_at m n v \/ x = id /\ mkPair n v ∈ labels.
Proof.
  revert m. induction labels as [|l labels IH]; intros m Hs Hp; cbn [fold_left].
  - split; [done|]. intros n v. split; [done|]. intros x. rewrite elem_of_nil. tauto.
  - destruct (add_pair_spec id m l Hs Hp) as [Hp1 H1]. destruct (IH (add_pair id m l)) as [Hp2 H2]; [by apply H1|done|].
    split; [done|]. intros n v. destruct (H2 n v) as [H3 H4]. split; [done|]. intros x.
    rewrite H4, (proj2 (H1 n v)), elem_of_cons. tauto.
Qed.

Lemma Add_rep p db id labels : postings_rep p db -> db !! id = None ->
  postings_rep (postings_Add p id labels) (<[id := labels]> db).
Proof.
  intros [[Ha1 Ha2] Hl Hp] Hnew. unfold postings_Add.
  assert (Hnot : containsSorted (allRefs p) id = false).
  { apply not_true_iff_false. rewrite containsSorted_spec, Ha2, Hnew by done. by intros [? ?]. }
  rewrite Hnot. destruct (insertSorted_spec (allRefs p) id Ha1) as [Hi1 Hi2].
  destruct (add_pairs_spec id labels (p_m p)) as [H1 H2]; [by apply Hl|done|].
  split; cbn [allRefs p_m].
  - split; [done|]. intros x. rewrite Hi2, Ha2. destruct (decide (x = id)) as [->|Hne].
    + rewrite lookup_insert_eq. split; [done|by left].
    + rewrite lookup_insert_ne by done. tauto.
  - intros n v. destruct (H2 n v) as [H3 H4]. split; [done|]. intros x. rewrite H4, (proj2 (Hl n v)).
    destruct (decide (x = id)) as [->|Hne].
    + rewrite lookup_insert_eq, Hnew. naive_solver.
    + rewrite lookup_insert_ne by done. naive_solver.
  - exact H1.
Qed.

Lemma Add_present p db id labels : postings_rep p db -> is_Some (db !! id) -> postings_Add p id labels = p.
Proof.
  intros [[Ha1 Ha2] _ _] Hin. unfold postings_Add. by rewrite (proj2 (containsSorted_spec _ _ Ha1)) by (by apply Ha2).
Qed.

Lemma list_at_delete m n v name value vals : m !! n = Some vals ->
  list_at (if bool_decide (delete v vals = ∅) then delete n m else <[n := delete v vals]> m) name value
  = if decide (name = n /\ value = v) then [] else list_at m name value.
Proof.
  intros Hm. unfold list_at. destruct (decide (name = n)) as [->|Hn].
  - rewrite Hm. cbn [default from_option]. unfold id. destruct (bool_decide_reflect (delete v vals = ∅)) as [E|E].
    + rewrite lookup_delete_eq. cbn [default from_option]. rewrite lookup_empty. destruct (decide _) as [[_ ->]|Hne]; [done|].
      rewrite <- (lookup_delete_ne vals v) by (intros ->; tauto). by rewrite E, lookup_empty.
    + rewrite lookup_insert_eq. cbn [default from_option]. unfold id. destruct (decide _) as [[_ ->]|Hne].
      * by rewrite lookup_delete_eq.
      * by rewrite lookup_delete_ne by (intros ->; tauto).
  - rewrite decide_False by tauto. destruct (bool_decide _); [by rewrite lookup_delete_ne|by rewrite lookup_insert_ne].
Qed.

Lemma delete_pair_spec id m l : (forall n v, strict (list_at m n v)) -> pruned m ->
  pruned (delete_pair id m l) /\
  forall n v, strict (list_at (delete_pair id m l) n v) /\
    forall x, x ∈ list_at (delete_pair id m l) n v <-> x ∈ list_at m n v /\ ~ (x = id /\ mkPair n v = l).
Proof.
  intros Hs Hp. unfold delete_pair. destruct (m !! p_name l) as [vals|] eqn:Hm.
  2:{ split; [done|]. intros n v. split; [apply Hs|]. intros x. rewrite pair_eq_iff. split; [|tauto]. intros Hx. split; [done|].
      intros (_ & -> & ->). unfold list_at in Hx. rewrite Hm in Hx. cbn in Hx. rewrite lookup_empty in Hx. by apply not_elem_of_nil in Hx. }
  assert (Hat : default [] (vals !! p_value l) = list_at m (p_name l) (p_value l)) by (unfold list_at; by rewrite Hm).
  rewrite Hat. destruct (removeSorted_spec _ id (Hs (p_name l) (p_value l))) as [Hr1 Hr2].
  destruct (Hp _ _ Hm) as [Hvne Hvl]. destruct (removeSorted _ id) as [|y ys] eqn:Er.
  - split.
    + intros name vals'. destruct (bool_decide_reflect (delete (p_value l) vals = ∅)) as [E|E].
      * intros [_ H]%lookup_delete_Some. by apply (Hp name).
      * destruct (decide (name = p_name l)) as [->|Hn]; [|rewrite lookup_insert_ne by done; apply Hp].
        rewrite lookup_insert_eq. intros [= <-]. split; [done|]. intros v l' [_ H]%lookup_delete_Some. by apply (Hvl v).
    + intros n v. rewrite (list_at_delete m _ _ _ _ vals Hm). setoid_rewrite pair_eq_iff. destruct (decide _) as [[-> ->]|Hne].
      * split; [constructor|]. intros x. rewrite Hr2. tauto.
      * split; [apply Hs|]. intros x. tauto.
  - rewrite bool_decide_false by apply insert_non_empty.
    replace vals with (default ∅ (m !! p_name l)) by (by rewrite Hm). split.
    + intros name vals'. destruct (decide (name = p_name l)) as [->|Hn]; [|rewrite lookup_insert_ne by done; apply Hp].
      rewrite lookup_insert_eq. intros [= <-]. split; [apply insert_non_empty|].
      rewrite Hm, default_Some_eq. intros v l'. destruct (decide (v = p_value l)) as [->|Hv].
      * rewrite lookup_insert_eq. by intros [= <-].
      * rewrite lookup_insert_ne by done. apply Hvl.
    + intros n v. rewrite list_at_insert. setoid_rewrite pair_eq_iff. destruct (decide _) as [[-> ->]|Hne].
      * split; [done|]. intros x. rewrite Hr2. tauto.
      * split; [apply Hs|]. intros x. tauto.
Qed.

Lemma delete_pairs_spec id labels m : (forall n v, strict (list_at m n v)) -> pruned m ->
  pruned (fold_left (delete_pair id) labels m) /\
  forall n v, strict (list_at (fold_left (delete_pair id) labels m) n v) /\
    forall x, x ∈ list_at (fold_left (delete_pair id) labels m) n v <-> x ∈ list_at m n v /\ ~ (x = id /\ mkPair n v ∈ labels).
Proof.
  revert m. induction labels as [|l labels IH]; intros m Hs Hp; cbn [fold_left].
  - split; [done|]. intros n v. split; [done|]. intros x. rewrite elem_of_nil. tauto.
  - destruct (delete_pair_spec id m l Hs Hp) as [Hp1 H1]. destruct (IH (delete_pair id m l)) as [Hp2 H2]; [by apply H1|done|].
    split; [done|]. intros n v. destruct (H2 n v) as [H3 H4]. split; [done|]. intros x.
    rewrite H4, (proj2 (H1 n v)), elem_of_cons. tauto.
Qed.

Lemma Delete_rep p db id ls labels : postings_rep p db -> db !! id = Some ls -> (forall x, x ∈ labels <-> x ∈ ls) ->
  postings_rep (postings_Delete p id labels) (delete id db).
Proof.
  intros [[Ha1 Ha2] Hl Hp] Hdb Hls. unfold postings_Delete.
  destruct (removeSorted_spec (allRefs p) id Ha1) as [Hr1 Hr2].
  destruct (delete_pairs_spec id labels (p_m p)) as [H1 H2]; [by apply Hl|done|].
  split; cbn [allRefs p_m].
  - split; [done|]. intros x. rewrite Hr2, Ha2. destruct (decide (x = id)) as [->|Hne].
    + rewrite lookup_delete_eq. split; [tauto|by intros [? ?]].
    + rewrite lookup_delete_ne by done. tauto.
  - intros n v. destruct (H2 n v) as [H3 H4]. split; [done|]. intros x. rewrite H4, (proj2 (Hl n v)), Hls.
    destruct (decide (x = id)) as [->|Hne].
    + rewrite lookup_delete_eq, Hdb. naive_solver.
    + rewrite lookup_delete_ne by done. naive_solver.
  - exact H1.
Qed.

(** ** Select is the intersection *)

Lemma collect_lists_spec p db ms : postings_rep p db ->
  match collect_lists (p_m p) ms with
  | Some lists => lists = (fun m => list_at (p_m p) (p_name m) (p_value m)) <$> ms
  | None => exists m, m ∈ ms /\ list_at (p_m p) (p_name m) (p_value m) = []
  end.
Proof.
  intros Hp. induction ms as [|m ms IH]; cbn [collect_lists]; [done|].
  destruct (p_m p !! p_name m) as [vals|] eqn:E.
  - assert (Hat : default [] (vals !! p_value m) = list_at (p_m p) (p_name m) (p_value m)) by (unfold list_at; by rewrite E).
    rewrite Hat. destruct (list_at (p_m p) (p_name m) (p_value m)) as [|x l] eqn:El.
    + exists m. split; [by left|done].
    + destruct (collect_lists (p_m p) ms) as [ls|]; cbn.
      * by rewrite IH, El.
      * destruct IH as (m' & Hm' & Hl). exists m'. split; [by right|done].
  - exists m. split; [by left|]. unfold list_at. by rewrite E.
Qed.

Lemma intersect_all_spec lists result : strict result -> Forall strict lists ->
  strict (intersect_all result lists) /\ forall x, x ∈ intersect_all result lists <-> x ∈ result /\ Forall (fun l => x ∈ l) lists.
Proof.
  revert result. induction lists as [|l lists IH]; intros result Hr Hl; cbn [intersect_all].
  - split; [done|]. intros x. rewrite Forall_nil. tauto.
  - apply Forall_cons in Hl as [Hl Hls]. destruct (intersectSorted_spec result l Hr Hl) as [H1 H2].
    destruct (intersectSorted result l) as [|y r] eqn:E.
    + split; [constructor|]. intros x. rewrite Forall_cons. specialize (H2 x). rewrite elem_of_nil in *. tauto.
    + destruct (IH (y :: r) H1 Hls) as [H3 H4]. split; [done|]. intros x. rewrite H4, H2, Forall_cons. tauto.
Qed.

Lemma Select_rep p db ms : postings_rep p db ->
  strict (postings_Select p ms) /\
  forall id, id ∈ postings_Select p ms <-> exists ls, db !! id = Some ls /\ Forall (fun m => m ∈ ls) ms.
Proof.
  intros Hp. unfold postings_Select. destruct ms as [|m0 ms0].
  { destruct Hp as [[H1 H2] _ _]. split; [done|]. intros id. rewrite H2. split.
    - intros [ls Hls]. by exists ls.
    - intros (ls & Hls & _). by exists ls. }
  pose proof (collect_lists_spec p db (m0 :: ms0) Hp) as Hc.
  assert (Hat : forall m id, id ∈ list_at (p_m p) (p_name m) (p_value m) <-> exists ls, db !! id = Some ls /\ m ∈ ls).
  { intros [n v] id. apply (proj2 (rep_list p db Hp n v)). }
  destruct (collect_lists _ _) as [lists|].
  - assert (Hstrict : Forall strict lists).
    { subst lists. apply Forall_fmap, Forall_forall. intros m _. apply (rep_list p db Hp). }
    pose proof (sort_by_perm (fun l => Z.of_nat (length l)) lists) as Hperm.
    destruct (sort_by _ lists) as [|l0 rest] eqn:Es.
    { symmetry in Hperm. apply Permutation_nil_r in Hperm. rewrite Hperm in Hc. done. }
    assert (Hs' : strict l0 /\ Forall strict rest) by (apply Forall_cons; by rewrite Hperm).
    destruct (intersect_all_spec rest l0 (proj1 Hs') (proj2 Hs')) as [H1 H2]. split; [done|].
    intros id. rewrite H2. rewrite <- (Forall_cons (fun l => id ∈ l)), Hperm, Hc, Forall_fmap. split.
    + intros HF. pose proof (Forall_inv HF) as H0. apply Hat in H0 as (ls & Hls & _). exists ls. split; [done|].
      eapply Forall_impl; [exact HF|]. cbn. intros m (ls' & Hls' & Hm)%Hat. by simplify_eq.
    + intros (ls & Hls & HF). eapply Forall_impl; [exact HF|]. cbn. intros m Hm. apply Hat. by exists ls.
  - split; [constructor|]. intros id. rewrite elem_of_nil. split; [done|]. intros (ls & Hls & HF).
    destruct Hc as (m & Hm & Hnil). rewrite Forall_forall in HF.
    apply (not_elem_of_nil id). rewrite <- Hnil. apply Hat. exists ls. split; [done|by apply HF].
Qed.

(** ** Label names and values *)

Lemma list_at_nonempty p db name value : postings_rep p db ->
  list_at (p_m p) name value <> [] <-> exists id ls, db !! id = Some ls /\ mkPair name value ∈ ls.
Proof.
  intros Hp. pose proof (rep_list p db Hp name value) as [_ H]. split.
  - intros Hne. destruct (list_at _ _ _) as [|x l]; [done|]. exists x. apply H. by left.
  - intros (id & Hid) E. apply (not_elem_of_nil id). rewrite <- E. by apply H.
Qed.

Lemma LabelNames_rep p db : postings_rep p db ->
  StronglySorted str_lt (idx_LabelNames p) /\
  forall name, name ∈ idx_LabelNames p <-> exists id ls value, db !! id = Some ls /\ mkPair name value ∈ ls.
Proof.
  intros Hp. unfold idx_LabelNames. split.
  - apply (sort_str_sorted id). rewrite list_fmap_id. apply NoDup_fst_map_to_list.
  - intros name. rewrite sort_str_perm, list_elem_of_fmap. split.
    + intros ([n vals] & -> & Hin%elem_of_map_to_list). cbn.
      destruct (rep_pruned p db Hp _ _ Hin) as [Hne Hl]. apply map_choose in Hne as (v & l & Hv).
      destruct (proj1 (list_at_nonempty p db n v Hp)) as (i & ls & Hi & Hls); [|by exists i, ls, v].
      unfold list_at. rewrite Hin, default_Some_eq, Hv, default_Some_eq. by apply (Hl v).
    + intros (i & ls & v & Hi & Hls). assert (Hne : list_at (p_m p) name v <> []) by (apply (list_at_nonempty p db name v Hp); by exists i, ls).
      unfold list_at in Hne. destruct (p_m p !! name) as [vals|] eqn:E; [|by cbn in Hne; rewrite lookup_empty in Hne].
      exists (name, vals). split; [done|]. by apply elem_of_map_to_list.
Qed.

Lemma LabelValues_rep p db name : postings_rep p db ->
  StronglySorted str_lt (idx_LabelValues p name) /\
  forall v, v ∈ idx_LabelValues p name <-> exists id ls, db !! id = Some ls /\ mkPair name v ∈ ls.
Proof.
  intros Hp. unfold idx_LabelValues. setoid_rewrite <- (fun v => list_at_nonempty p db name v Hp). unfold list_at.
  destruct (p_m p !! name) as [vals|] eqn:E.
  - split.
    + apply (sort_str_sorted id). rewrite list_fmap_id. eapply sublist_NoDup; [exact (NoDup_fst_map_to_list vals)|].
      apply fmap_sublist, sublist_filter.
    + intros v. rewrite sort_str_perm, list_elem_of_fmap, default_Some_eq. split.
      * intros ([v' l] & -> & [Hl Hin%elem_of_map_to_list]%list_elem_of_filter). cbn in *. by rewrite Hin.
      * intros Hne. destruct (vals !! v) as [l|] eqn:Ev; [|done]. exists (v, l). split; [done|].
        apply list_elem_of_filter. split; [done|]. by apply elem_of_map_to_list.
  - split; [constructor|]. intros v. rewrite elem_of_nil. cbn. rewrite lookup_empty. cbn. tauto.
Qed.

(** ** Histories of the index *)

Inductive idx_op := OpAdd (id : Z) (labels : list Pair) | OpDelete (id : Z) (labels : list Pair).
Definition idx_step (p : MemPostings) (op : idx_op) : MemPostings :=
  match op with OpAdd i ls => postings_Add p i ls | OpDelete i ls => postings_Delete p i ls end.
(** What the operations mean: a series keeps the labels of its first [Add]. *)
Definition db_step (db : gmap Z (list Pair)) (op : idx_op) : gmap Z (list Pair) :=
  match op with
  | OpAdd i ls => match db !! i with Some _ => db | None => <[i := ls]> db end
  | OpDelete i _ => delete i db
  end.
(** The stores delete a series with the labels it was added under. *)
Fixpoint deletes_known (db : gmap Z (list Pair)) (ops : list idx_op) : Prop :=
  match ops with
  | [] => True
  | op :: rest =>
      match op with
      | OpDelete i ls => exists ls', db !! i = Some ls' /\ forall x, x ∈ ls <-> x ∈ ls'
      | OpAdd _ _ => True
      end /\ deletes_known (db_step db op) rest
  end.

Lemma NewMemPostings_rep : postings_rep NewMemPostings ∅.
Proof.
  split; cbn [allRefs p_m NewMemPostings].
  - split; [constructor|]. intros id. rewrite lookup_empty, elem_of_nil. split; [done|by intros [? ?]].
  - intros n v. unfold list_at. rewrite lookup_empty. cbn. rewrite lookup_empty. cbn. split; [constructor|].
    intros id. rewrite elem_of_nil, lookup_empty. naive_solver.
  - intros n vals. by rewrite lookup_empty.
Qed.

Lemma history_rep ops p db : postings_rep p db -> deletes_known db ops ->
  postings_rep (fold_left idx_step ops p) (fold_left db_step ops db).
Proof.
  revert p db. induction ops as [|op ops IH]; intros p db Hp Hd; [done|]. destruct Hd as [Hop Hd].
  cbn [fold_left]. apply IH; [|done]. destruct op as [i ls|i ls]; cbn [idx_step db_step].
  - destruct (db !! i) as [ls'|] eqn:E; [|by apply Add_rep]. rewrite (Add_present p db); [done|done|by exists ls'].
  - destruct Hop as (ls' & E & Hiff). by eapply Delete_rep.
Qed.

(** ** Properties *)

(** Index lookups are exact after any history: starting from an empty index,
    after any sequence of adds and deletes (each delete naming the labels its
    series was added under), a select returns, sorted and without duplicates,
    exactly the live series that carry every requested pair, and the label names
    and values listed are exactly those some live series carries. *)
Theorem index_history_exact (ops : list idx_op) (matchers : list Pair) (name : string) (Hops : deletes_known ∅ ops) :
  let p := fold_left idx_step ops NewMemPostings in
  let db := fold_left db_step ops ∅ in
  strict (postings_Select p matchers) /\
  (forall id, id ∈ postings_Select p matchers <-> exists ls, db !! id = Some ls /\ Forall (fun m => m ∈ ls) matchers) /\
  StronglySorted str_lt (idx_LabelNames p) /\
  (forall n, n ∈ idx_LabelNames p <-> exists id ls v, db !! id = Some ls /\ mkPair n v ∈ ls) /\
  StronglySorted str_lt (idx_LabelValues p name) /\
  (forall v, v ∈ idx_LabelValues p name <-> exists id ls, db !! id = Some ls /\ mkPair name v ∈ ls).
Proof.
  intros p db. assert (Hp : postings_rep p db) by (apply history_rep; [apply NewMemPostings_rep|done]).
  destruct (Select_rep p db matchers Hp). destruct (LabelNames_rep p db Hp). destruct (LabelValues_rep p db name Hp). done.
Qed.

Definition demo_ops : list idx_op :=
  [OpAdd 7 [mkPair "job" "api"; mkPair "env" "prod"]; OpAdd 3 [mkPair "job" "api"]; OpAdd 7 []; OpDelete 3 [mkPair "job" "api"]].

Lemma index_history_exact_witness :
  strict (postings_Select (fold_left idx_step demo_ops NewMemPostings) [mkPair "job" "api"]) /\
  postings_Select (fold_left idx_step demo_ops NewMemPostings) [mkPair "job" "api"] = [7].
Proof.
  destruct (index_history_exact demo_ops [mkPair "job" "api"] "job") as [H _]; [|split; [exact H|vm_compute; reflexivity]].
  repeat split. exists [mkPair "job" "api"]. split; [vm_compute; reflexivity|done].
Defined.
