(* ===== verification/Source.v ===== *)
(** * Source: the read interface of the query engine, and what merging preserves

    [internal/metrics/source.go] (parameters, answers), [internal/metrics/merge.go]
    ([Merge]) and [internal/metrics/tenant_source.go]. The interface [Source] is a
    record of its methods; the class [Implements] states what a source promises to
    its clients: its answers are those of an abstract database of all writes. *)
From S2P Require Import Prelude GoLib GoSort Bits Chunk Labels Dedup.

(** ** Data *)

Record Matcher := mkMatcher { mt_name : string; mt_value : string }.
Record Selector := mkSelector { MetricName : string; Matchers : list Matcher }.
Record SelectParams := mkParams {
  p_sel : Selector; MinT : Z; MaxT : Z; Anchor : bool; SeriesOnly : bool; AnyTime : bool }.
Record SeriesData := mkSeries { sd_labels : Labels; sd_anchor : option sample; sd_samples : list sample }.

(** Errors of a select: the two of [Validate], and whatever a store reports. *)
Inductive srcErr := ErrAnyTime | ErrAnchor | ErrStore (code : Z).

Definition Validate (p : SelectParams) : result srcErr unit :=
  if (AnyTime p && negb (SeriesOnly p))%bool then Err ErrAnyTime else
  if (Anchor p && SeriesOnly p)%bool then Err ErrAnchor else Ok tt.

Record Source := mkSource {
  src_Select : context -> SelectParams -> result srcErr (list SeriesData);
  src_LabelNames : context -> result srcErr (list string);
  src_LabelValues : context -> string -> result srcErr (list string) }.

(** ** Merge *)

Definition sd_id (sd : SeriesData) : Z := Hash (sd_labels sd).
Definition combine_series (cur sd : SeriesData) : SeriesData :=
  mkSeries (sd_labels cur) (laterSample (sd_anchor cur) (sd_anchor sd))
    (sortAndDedup (sd_samples cur ++ sd_samples sd)).

(** The loop over [a]: the position of each ID in [out]. *)
Fixpoint merge_positions (i : nat) (pos : gmap Z nat) (a : list SeriesData) : gmap Z nat :=
  match a with
  | [] => pos
  | sd :: rest => merge_positions (S i) (<[sd_id sd := i]> pos) rest
  end.
(** The loop over [b]. *)
Fixpoint merge_second (pos : gmap Z nat) (out b : list SeriesData) : list SeriesData :=
  match b with
  | [] => out
  | sd :: rest =>
      match pos !! sd_id sd with
      | None => merge_second pos (out ++ [sd]) rest
      | Some i => merge_second pos (alter (fun cur => combine_series cur sd) i out) rest
      end
  end.
Definition merge_answers (a b : list SeriesData) : list SeriesData :=
  merge_second (merge_positions 0 ∅ a) a b.

(** [sortedStringSet] and [sortedSet]: the set's members, ascending. *)
Definition sortedStringSet (set : gset string) : list string := sort_str id (elements set).
Definition unionSorted (a b : list string) : list string := sortedStringSet (list_to_set a ∪ list_to_set b).

Definition Merge (first second : Source) : Source := mkSource
  (fun ctx p =>
     _ ← Validate p;
     a ← src_Select first ctx p;
     b ← src_Select second ctx p;
     Ok (merge_answers a b))
  (fun ctx => a ← src_LabelNames first ctx; b ← src_LabelNames second ctx; Ok (unionSorted a b))
  (fun ctx name => a ← src_LabelValues first ctx name; b ← src_LabelValues second ctx name; Ok (unionSorted a b)).

(** ** Tenant isolation *)

(** A named tenant's read adds the matcher on its label. *)
Definition tenant_params (tid : string) (p : SelectParams) : SelectParams :=
  if String.eqb tid tenant_Default then p
  else mkParams (mkSelector (MetricName (p_sel p)) (Matchers (p_sel p) ++ [mkMatcher tenant_Label tid]))
         (MinT p) (MaxT p) (Anchor p) (SeriesOnly p) (AnyTime p).
Definition strip_tenant (sd : SeriesData) : SeriesData :=
  mkSeries (Without (sd_labels sd) tenant_Label) (sd_anchor sd) (sd_samples sd).
Definition tenant_Select (src : Source) (ctx : context) (p : SelectParams) : result srcErr (list SeriesData) :=
  if existsb (fun m => String.eqb (mt_name m) tenant_Label) (Matchers (p_sel p)) then
    match Validate p with Err e => Err e | Ok _ => Ok [] end
  else
    match src_Select src ctx (tenant_params (tenant_From ctx) p) with
    | Err e => Err e
    | Ok got => Ok (strip_tenant <$> filter (fun sd => TenantOf (sd_labels sd) = tenant_From ctx) got)
    end.

Definition all_series : SelectParams := mkParams (mkSelector "" []) 0 0 false true true.
Definition tenantSeries (src : Source) (ctx : context) : result srcErr (list SeriesData) := tenant_Select src ctx all_series.

Definition names_of (series : list SeriesData) : gset string :=
  fold_left (fun set sd => set ∪ dom (labels_Map (sd_labels sd))) series ∅.
Definition values_of (name : string) (series : list SeriesData) : gset string :=
  fold_left (fun set sd => match Get (sd_labels sd) name with Some v => {[v]} ∪ set | None => set end) series ∅.

Definition TenantSource (src : Source) : Source := mkSource
  (tenant_Select src)
  (fun ctx => series ← tenantSeries src ctx; Ok (sortedStringSet (names_of series)))
  (fun ctx name => series ← tenantSeries src ctx; Ok (sortedStringSet (values_of name series))).

(** ** The specification: a database of writes *)

(** Every write of every series; [None] for a series the database has not seen. *)
Definition database := Labels -> option (list sample).

Definition matches (sel : Selector) (l : Labels) : Prop :=
  (MetricName sel <> ""%string -> Get l "__name__" = Some (MetricName sel)) /\
  Forall (fun m => Get l (mt_name m) = Some (mt_value m)) (Matchers sel).

(** The samples in range, and the anchor, of a series with writes [ws]. *)
Definition core (p : SelectParams) (ws : list sample) : list sample * option sample :=
  (filter (fun s => MinT p <= s_ts s <= MaxT p) (sortAndDedup ws),
   if (Anchor p && (MinInt64 <? MinT p))%bool then last (filter (fun s => s_ts s < MinT p) (sortAndDedup ws)) else None).

Definition to_answer (p : SelectParams) (l : Labels) (c : list sample * option sample) : option SeriesData :=
  if (SeriesOnly p && AnyTime p)%bool then Some (mkSeries l None [])
  else if MaxT p <? MinT p then None
  else if SeriesOnly p then match c.1 with [] => None | _ => Some (mkSeries l None []) end
  else match c with ([], None) => None | (ss, a) => Some (mkSeries l a ss) end.
Definition expected (p : SelectParams) (l : Labels) (ws : list sample) : option SeriesData := to_answer p l (core p ws).

Definition answers (db : database) (p : SelectParams) (out : list SeriesData) : Prop :=
  NoDup (sd_labels <$> out) /\
  forall sd, sd ∈ out <-> exists ws, db (sd_labels sd) = Some ws /\ matches (p_sel p) (sd_labels sd) /\
    expected p (sd_labels sd) ws = Some sd.

Definition lists_names (db : database) (out : list string) : Prop :=
  StronglySorted str_lt out /\ forall n, n ∈ out <-> exists l ws, db l = Some ws /\ is_Some (Get l n).
Definition lists_values (db : database) (name : string) (out : list string) : Prop :=
  StronglySorted str_lt out /\ forall v, v ∈ out <-> exists l ws, db l = Some ws /\ Get l name = Some v.

(** What a source promises to a reader acting under [ctx]. *)
Class Implements (src : Source) (ctx : context) (db : database) : Prop := {
  select_refuses : forall p e, Validate p = Err e -> src_Select src ctx p = Err e;
  select_answers : forall p, Validate p = Ok tt -> exists out, src_Select src ctx p = Ok out /\ answers db p out;
  names_answers : exists out, src_LabelNames src ctx = Ok out /\ lists_names db out;
  values_answers : forall name, exists out, src_LabelValues src ctx name = Ok out /\ lists_values db name out }.

(** Label sets are well formed and no two of them share a series ID. *)
Definition db_wf (db : database) : Prop := forall l ws, db l = Some ws -> labels_wf l.
Definition no_collision (dbs : list database) : Prop :=
  forall l1 l2 d1 d2, d1 ∈ dbs -> d2 ∈ dbs -> is_Some (d1 l1) -> is_Some (d2 l2) -> Hash l1 = Hash l2 -> l1 = l2.

Definition db_union (d1 d2 : database) : database := fun l =>
  match d1 l, d2 l with
  | Some a, Some b => Some (a ++ b)
  | Some a, None => Some a
  | None, b => b
  end.

(** A tenant's view: its stamped series, under the client's label sets. *)
Definition db_tenant (db : database) (tid : string) : database := fun l =>
  if decide (l = build (labels_Map l)) then
    match Get l tenant_Label with Some _ => None | None => db (WithTenant l tid) end
  else None.

(** The stored tenant label never names the default tenant ([NewStored] refuses it). *)
Definition tenant_clean (db : database) : Prop :=
  forall l ws, db l = Some ws -> labels_wf l /\ Get l tenant_Label <> Some tenant_Default.

(** Both are side conditions the instances below resolve from the context. *)
Existing Class tenant_clean.
Existing Class no_collision.

(** ** Merging is union of writes *)

Lemma core_samples_sorted p ws : sortAndDedup (core p ws).1 = (core p ws).1.
Proof.
  cbn. rewrite <- (sortAndDedup_filter (fun s => MinT p <= s_ts s <= MaxT p)), sortAndDedup_idemp; [done|]. cbn. intros; lia.
Qed.

Lemma core_app p w1 w2 : core p (w1 ++ w2) =
  (sortAndDedup ((core p w1).1 ++ (core p w2).1), laterSample (core p w1).2 (core p w2).2).
Proof.
  unfold core. cbn [fst snd]. f_equal.
  - rewrite <- !(sortAndDedup_filter (fun s => MinT p <= s_ts s <= MaxT p)) by (cbn; intros; lia).
    by rewrite filter_app, sortAndDedup_absorb_l, sortAndDedup_absorb_r.
  - destruct (_ && _)%bool; [|done].
    rewrite <- !(sortAndDedup_filter (fun s => s_ts s < MinT p)) by (cbn; intros; lia).
    by rewrite filter_app, laterSample_last.
Qed.

Definition opt_merge (a b : option SeriesData) : option SeriesData :=
  match a, b with Some x, Some y => Some (combine_series x y) | Some x, None => Some x | None, o => o end.

Lemma laterSample_None_r a : laterSample a None = a.
Proof. by destruct a. Qed.

Lemma sortAndDedup_app_nil l1 l2 : sortAndDedup (l1 ++ l2) = [] -> l1 = [] /\ l2 = [].
Proof.
  intros H. destruct l1 as [|x l1]; [destruct l2 as [|x l2]; [done|]|];
    exfalso; by eapply sortAndDedup_nonempty; [|exact H].
Qed.

Lemma expected_app p l w1 w2 : expected p l (w1 ++ w2) = opt_merge (expected p l w1) (expected p l w2).
Proof.
  unfold expected. rewrite core_app. pose proof (core_samples_sorted p w1) as H1. pose proof (core_samples_sorted p w2) as H2.
  destruct (core p w1) as [s1 a1], (core p w2) as [s2 a2]. cbn [fst snd] in *. unfold to_answer.
  destruct (SeriesOnly p && AnyTime p)%bool; [done|]. destruct (MaxT p <? MinT p); [done|]. cbn [fst].
  destruct (SeriesOnly p).
  - destruct s1 as [|x1 s1]; [cbn [app]; by rewrite H2; destruct s2|].
    destruct (sortAndDedup ((x1 :: s1) ++ s2)) eqn:E; [by apply sortAndDedup_app_nil in E as [? _]|].
    destruct s2; done.
  - destruct s1 as [|x1 s1].
    + cbn [app]. rewrite H2. destruct a1 as [a1|]; [|cbn [laterSample]; by destruct s2, a2].
      destruct s2 as [|x2 s2].
      * destruct a2 as [a2|]; cbn [opt_merge]; [|done]. unfold combine_series. cbn [sd_labels sd_anchor sd_samples app].
        change (sortAndDedup []) with (@nil sample). by destruct (laterSample (Some a1) (Some a2)) eqn:E; [|cbn in E; destruct (_ || _)%bool].
      * cbn [opt_merge]. unfold combine_series. cbn [sd_labels sd_anchor sd_samples app]. by rewrite H2.
    + destruct (sortAndDedup ((x1 :: s1) ++ s2)) as [|y ys] eqn:E; [by apply sortAndDedup_app_nil in E as [? _]|].
      destruct s2 as [|x2 s2]; [destruct a2 as [a2|]|]; cbn [opt_merge].
      * unfold combine_series. cbn [sd_labels sd_anchor sd_samples]. by rewrite E.
      * rewrite laterSample_None_r. rewrite app_nil_r, H1 in E. by rewrite E.
      * unfold combine_series. cbn [sd_labels sd_anchor sd_samples]. by rewrite E.
Qed.

(** ** The merge loop *)

Definition upd (b : list SeriesData) (sd : SeriesData) : SeriesData :=
  match find (fun x => sd_id x =? sd_id sd) b with Some x => combine_series sd x | None => sd end.

Lemma merge_positions_spec a k pos : NoDup (sd_id <$> a) -> forall h i,
  merge_positions k pos a !! h = Some i <->
  (exists j, (sd_id <$> a) !! j = Some h /\ i = (k + j)%nat) \/ (h ∉ sd_id <$> a /\ pos !! h = Some i).
Proof.
  revert k pos. induction a as [|x a IH]; intros k pos Hnd h i; cbn [merge_positions].
  - split; [right; split; [apply not_elem_of_nil|done]|]. by intros [(j & Hj & _)|[_ H]].
  - rewrite fmap_cons in *. apply NoDup_cons in Hnd as [Hx Hnd]. rewrite IH by done. split.
    + intros [(j & Hj & ->)|[Hh Hp]].
      * left. exists (S j). split; [done|lia].
      * destruct (decide (h = sd_id x)) as [->|Hne].
        -- rewrite lookup_insert_eq in Hp. injection Hp as <-. left. exists 0%nat. split; [done|lia].
        -- rewrite lookup_insert_ne in Hp by done. right. rewrite not_elem_of_cons. done.
    + intros [(j & Hj & ->)|[Hh Hp]].
      * destruct j as [|j]; cbn in Hj.
        -- injection Hj as <-. right. split; [done|]. rewrite lookup_insert_eq. f_equal. lia.
        -- left. exists j. split; [done|lia].
      * apply not_elem_of_cons in Hh as [Hne Hh]. right. by rewrite lookup_insert_ne.
Qed.

Lemma alter_app_l_lt {A} (f : A -> A) (l1 l2 : list A) i : (i < length l1)%nat -> alter f i (l1 ++ l2) = alter f i l1 ++ l2.
Proof. intros. by apply alter_app_l. Qed.

Lemma merge_second_spec pos a' new b :
  NoDup (sd_id <$> a') -> NoDup (sd_id <$> b) ->
  (forall h i, pos !! h = Some i <-> (sd_id <$> a') !! i = Some h) ->
  merge_second pos (a' ++ new) b
  = (upd b <$> a') ++ new ++ filter (fun x => sd_id x ∉ sd_id <$> a') b.
Proof.
  revert a' new. induction b as [|sd b IH]; intros a' new Ha Hb Hpos; cbn [merge_second].
  - rewrite app_nil_r. f_equal. symmetry. apply list_fmap_id.
  - rewrite fmap_cons in Hb. apply NoDup_cons in Hb as [Hsd Hb].
    assert (Hupd : forall x, sd_id x <> sd_id sd -> upd (sd :: b) x = upd b x).
    { intros x Hx. unfold upd. cbn [find]. by rewrite (proj2 (Z.eqb_neq (sd_id sd) (sd_id x))) by congruence. }
    destruct (pos !! sd_id sd) as [i|] eqn:Ei.
    + pose proof (proj1 (Hpos _ _) Ei) as Hi. assert (Hlt : (i < length a')%nat) by (apply lookup_lt_Some in Hi; by rewrite length_fmap in Hi).
      rewrite alter_app_l_lt by done. set (a2 := alter (fun cur => combine_series cur sd) i a').
      assert (Hids : sd_id <$> a2 = sd_id <$> a').
      { apply list_eq. intros j. rewrite !list_lookup_fmap. unfold a2. destruct (decide (i = j)) as [->|Hne].
        - rewrite list_lookup_alter_eq. by destruct (a' !! j).
        - by rewrite list_lookup_alter_ne. }
      rewrite IH by (rewrite ?Hids; done). rewrite Hids. rewrite filter_cons_False by (intros Hn; by apply Hn, (list_elem_of_lookup_2 _ i)).
      f_equal. apply list_eq. intros j. rewrite !list_lookup_fmap. unfold a2. destruct (decide (i = j)) as [->|Hne].
      * rewrite list_lookup_alter_eq. rewrite list_lookup_fmap in Hi. destruct (a' !! j) as [x|]; [|done]. cbn in *. injection Hi as Hi.
        unfold upd. cbn [find]. rewrite Hi, Z.eqb_refl. change (sd_id (combine_series x sd)) with (sd_id x). rewrite Hi.
        destruct (find _ b) as [y|] eqn:Ef; [|done]. exfalso. apply find_some in Ef as [Hy E%Z.eqb_eq].
        apply Hsd. rewrite <- E. by apply list_elem_of_fmap_2, list_elem_of_In.
      * rewrite list_lookup_alter_ne by done. destruct (a' !! j) as [x|] eqn:Ex; [|done]. cbn. f_equal. symmetry. apply Hupd. intros E.
        apply Hne. apply (NoDup_lookup _ _ _ (sd_id sd) Ha Hi). rewrite list_lookup_fmap, Ex. cbn. by rewrite E.
    + assert (Hnin : sd_id sd ∉ sd_id <$> a').
      { intros (i & Hi)%list_elem_of_lookup. apply Hpos in Hi. congruence. }
      rewrite <- app_assoc, IH by done. rewrite filter_cons_True, <- app_assoc by done. cbn [app]. f_equal.
      apply list_fmap_ext. intros i x Hx. symmetry. apply Hupd. intros E. apply Hnin. rewrite <- E.
      by apply list_elem_of_fmap_2, (list_elem_of_lookup_2 _ i).
Qed.

Lemma merge_answers_spec a b : NoDup (sd_id <$> a) -> NoDup (sd_id <$> b) ->
  merge_answers a b = (upd b <$> a) ++ filter (fun x => sd_id x ∉ sd_id <$> a) b.
Proof.
  intros Ha Hb. unfold merge_answers. rewrite <- (app_nil_r a) at 2. rewrite merge_second_spec; [done..|].
  intros h i. rewrite merge_positions_spec by done. split.
  - intros [(j & Hj & ->)|[_ H]]; [done|by rewrite lookup_empty in H].
  - intros Hi. left. exists i. done.
Qed.

Definition wanted (db : database) (p : SelectParams) (l : Labels) : option SeriesData := db l ≫= expected p l.

Lemma answers_wanted db p out sd : answers db p out ->
  sd ∈ out <-> matches (p_sel p) (sd_labels sd) /\ wanted db p (sd_labels sd) = Some sd.
Proof.
  intros [_ H]. rewrite H. unfold wanted. destruct (db (sd_labels sd)) as [ws|]; cbn; naive_solver.
Qed.

Lemma expected_labels p l ws sd : expected p l ws = Some sd -> sd_labels sd = l.
Proof.
  unfold expected, to_answer. destruct (_ && _)%bool; [by intros [= <-]|]. destruct (_ <? _); [done|].
  destruct (SeriesOnly p); [destruct (core p ws).1; [done|by intros [= <-]]|].
  destruct (core p ws) as [[|s ss] [a|]]; [by intros [= <-]|done|by intros [= <-]..].
Qed.
Lemma wanted_labels db p l sd : wanted db p l = Some sd -> sd_labels sd = l.
Proof. unfold wanted. destruct (db l); [apply expected_labels|done]. Qed.
Lemma wanted_some db p l sd : wanted db p l = Some sd -> is_Some (db l).
Proof. unfold wanted. destruct (db l); [done|]. done. Qed.

Lemma wanted_union d1 d2 p l : wanted (db_union d1 d2) p l = opt_merge (wanted d1 p l) (wanted d2 p l).
Proof.
  unfold wanted, db_union. destruct (d1 l) as [w1|], (d2 l) as [w2|]; cbn; [apply expected_app| |done|done].
  by destruct (expected p l w1).
Qed.

Lemma ids_NoDup db p out : no_collision [db] -> answers db p out -> NoDup (sd_id <$> out).
Proof.
  intros Hnc Hans. pose proof Hans as [Hnd _].
  assert (Hinj : forall x y, x ∈ out -> y ∈ out -> sd_id x = sd_id y -> sd_labels x = sd_labels y).
  { intros x y Hx Hy E. apply (answers_wanted _ _ _ _ Hans) in Hx as [_ Hx]. apply (answers_wanted _ _ _ _ Hans) in Hy as [_ Hy].
    apply (Hnc _ _ db db); [by left|by left|by eapply wanted_some|by eapply wanted_some|done]. }
  clear Hans. induction out as [|x out IH]; [constructor|]. rewrite fmap_cons in *. apply NoDup_cons in Hnd as [Hx Hnd].
  constructor; [|apply IH; [done|]; intros; apply Hinj; [by right..|done]].
  intros (y & E & Hy)%list_elem_of_fmap. apply Hx. apply list_elem_of_fmap. exists y. split; [|done].
  apply Hinj; [by left|by right|done].
Qed.

Lemma no_collision_sub ds ds' : (forall d, d ∈ ds' -> d ∈ ds) -> no_collision ds -> no_collision ds'.
Proof. intros Hsub H l1 l2 d1 d2 H1 H2. apply H; by apply Hsub. Qed.

(** What [upd] returns on an element of the first answer. *)
Lemma upd_wanted d1 d2 p a b x : no_collision [d1; d2] -> answers d1 p a -> answers d2 p b -> x ∈ a ->
  wanted (db_union d1 d2) p (sd_labels x) = Some (upd b x).
Proof.
  intros Hnc Ha Hb Hx. pose proof (proj1 (answers_wanted _ _ _ _ Ha) Hx) as [Hm Hw].
  rewrite wanted_union, Hw. unfold upd. destruct (find _ b) as [y|] eqn:Ef.
  - apply find_some in Ef as [Hy%list_elem_of_In E%Z.eqb_eq].
    pose proof (proj1 (answers_wanted _ _ _ _ Hb) Hy) as [Hmy Hwy].
    assert (Hl : sd_labels y = sd_labels x).
    { apply (Hnc _ _ d2 d1); [right; by left|by left|by eapply wanted_some|by eapply wanted_some|done]. }
    rewrite <- Hl, Hwy. done.
  - destruct (wanted d2 p (sd_labels x)) as [y|] eqn:Ey; [|done]. exfalso.
    pose proof (wanted_labels _ _ _ _ Ey) as Hl.
    assert (Hy : y ∈ b) by (apply (answers_wanted _ _ _ _ Hb); rewrite Hl; done).
    apply list_elem_of_In in Hy. pose proof (find_none _ _ Ef _ Hy) as Hne. apply Z.eqb_neq in Hne. apply Hne. unfold sd_id. by rewrite Hl.
Qed.

Lemma upd_labels b x : sd_labels (upd b x) = sd_labels x.
Proof. unfold upd. by destruct (find _ b). Qed.

Lemma merge_answers_union d1 d2 p a b : no_collision [d1; d2] -> answers d1 p a -> answers d2 p b ->
  answers (db_union d1 d2) p (merge_answers a b).
Proof.
  intros Hnc Ha Hb.
  assert (Hida : NoDup (sd_id <$> a)) by (eapply ids_NoDup; [|exact Ha]; eapply no_collision_sub; [|exact Hnc]; set_solver).
  assert (Hidb : NoDup (sd_id <$> b)) by (eapply ids_NoDup; [|exact Hb]; eapply no_collision_sub; [|exact Hnc]; set_solver).
  rewrite merge_answers_spec by done.
  assert (Hmem : forall sd, sd ∈ (upd b <$> a) ++ filter (fun x => sd_id x ∉ sd_id <$> a) b <->
    matches (p_sel p) (sd_labels sd) /\ wanted (db_union d1 d2) p (sd_labels sd) = Some sd).
  { intros sd. rewrite elem_of_app, list_elem_of_fmap, list_elem_of_filter. split.
    - intros [(x & -> & Hx)|[Hn Hy]].
      + rewrite upd_labels. split; [by apply (answers_wanted _ _ _ _ Ha) in Hx as [? _]|by apply (upd_wanted d1 d2 p a)].
      + pose proof (proj1 (answers_wanted _ _ _ _ Hb) Hy) as [Hm Hw]. split; [done|]. rewrite wanted_union, Hw.
        destruct (wanted d1 p (sd_labels sd)) as [x|] eqn:Ex; [|done]. exfalso. apply Hn.
        pose proof (wanted_labels _ _ _ _ Ex) as Hl. apply list_elem_of_fmap. exists x. split; [unfold sd_id; by rewrite Hl|].
        apply (answers_wanted _ _ _ _ Ha). rewrite Hl. done.
    - intros [Hm Hw]. rewrite wanted_union in Hw. destruct (wanted d1 p (sd_labels sd)) as [x|] eqn:Ex.
      + left. pose proof (wanted_labels _ _ _ _ Ex) as Hl. assert (Hx : x ∈ a) by (apply (answers_wanted _ _ _ _ Ha); rewrite Hl; done).
        exists x. split; [|done]. pose proof (upd_wanted d1 d2 p a b x Hnc Ha Hb Hx) as Hu. rewrite Hl, wanted_union, Ex in Hu. congruence.
      + right. cbn in Hw. split; [|by apply (answers_wanted _ _ _ _ Hb)].
        intros (x & E & Hx)%list_elem_of_fmap. pose proof (proj1 (answers_wanted _ _ _ _ Ha) Hx) as [_ Hwx].
        assert (Hl : sd_labels sd = sd_labels x).
        { apply (Hnc _ _ d2 d1); [right; by left|by left|by eapply wanted_some|by eapply wanted_some|done]. }
        rewrite Hl in Ex. congruence. }
  split; [|intros sd; rewrite Hmem; unfold wanted; destruct (db_union d1 d2 (sd_labels sd)); cbn; naive_solver].
  rewrite fmap_app. apply NoDup_app. split_and!.
  - rewrite <- list_fmap_compose, (list_fmap_ext (sd_labels ∘ upd b) sd_labels a); [apply Ha|]. intros _ x _. apply upd_labels.
  - intros l (x & -> & Hx)%list_elem_of_fmap (y & Hl & [Hn Hy]%list_elem_of_filter)%list_elem_of_fmap.
    apply list_elem_of_fmap in Hx as (x0 & -> & Hx0). apply Hn. rewrite upd_labels in Hl. apply list_elem_of_fmap.
    exists x0. split; [unfold sd_id; by rewrite Hl|done].
  - eapply sublist_NoDup; [exact (proj1 Hb)|]. apply fmap_sublist, sublist_filter.
Qed.

(** ** Label names and values *)

Lemma sortedStringSet_spec (X : gset string) :
  StronglySorted str_lt (sortedStringSet X) /\ forall n, n ∈ sortedStringSet X <-> n ∈ X.
Proof.
  unfold sortedStringSet. split.
  - apply (sort_str_sorted id). rewrite list_fmap_id. apply NoDup_elements.
  - intros n. by rewrite sort_str_perm, elem_of_elements.
Qed.
Lemma unionSorted_spec a b : StronglySorted str_lt (unionSorted a b) /\ forall n, n ∈ unionSorted a b <-> n ∈ a \/ n ∈ b.
Proof.
  destruct (sortedStringSet_spec (list_to_set a ∪ list_to_set b)) as [H1 H2]. split; [done|].
  intros n. unfold unionSorted. rewrite H2. set_solver.
Qed.

Lemma db_union_some d1 d2 l : is_Some (db_union d1 d2 l) <-> is_Some (d1 l) \/ is_Some (d2 l).
Proof. unfold db_union. destruct (d1 l), (d2 l); split; eauto; intros [[? ?]|[? ?]]; eauto. Qed.

Lemma lists_names_union d1 d2 a b : lists_names d1 a -> lists_names d2 b -> lists_names (db_union d1 d2) (unionSorted a b).
Proof.
  intros [_ Ha] [_ Hb]. destruct (unionSorted_spec a b) as [H1 H2]. split; [done|]. intros n. rewrite H2, Ha, Hb. split.
  - intros [(l & ws & Hl & Hn)|(l & ws & Hl & Hn)];
      (destruct (proj2 (db_union_some d1 d2 l)) as [w Hw]; [by eauto|by exists l, w]).
  - intros (l & ws & Hl & Hn). destruct (proj1 (db_union_some d1 d2 l)) as [[w Hw]|[w Hw]]; [by eauto|left|right]; by exists l, w.
Qed.
Lemma lists_values_union d1 d2 name a b : lists_values d1 name a -> lists_values d2 name b ->
  lists_values (db_union d1 d2) name (unionSorted a b).
Proof.
  intros [_ Ha] [_ Hb]. destruct (unionSorted_spec a b) as [H1 H2]. split; [done|]. intros n. rewrite H2, Ha, Hb. split.
  - intros [(l & ws & Hl & Hn)|(l & ws & Hl & Hn)];
      (destruct (proj2 (db_union_some d1 d2 l)) as [w Hw]; [by eauto|by exists l, w]).
  - intros (l & ws & Hl & Hn). destruct (proj1 (db_union_some d1 d2 l)) as [[w Hw]|[w Hw]]; [by eauto|left|right]; by exists l, w.
Qed.

(** ** Tenants *)

Lemma Get_Without l name n : labels_wf l -> Get (Without l name) n = if String.eqb n name then None else Get l n.
Proof.
  intros Hl. unfold Without. destruct (Get l name) as [v|] eqn:E.
  - rewrite Get_build, Get_Map by done. destruct (String.eqb_spec n name) as [->|Hne];
      [apply lookup_delete_eq|by apply lookup_delete_ne].
  - destruct (String.eqb_spec n name) as [->|]; done.
Qed.
Lemma Without_wf l name : labels_wf l -> labels_wf (Without l name).
Proof. intros Hl. unfold Without. destruct (Get l name); [apply build_wf|done]. Qed.
Lemma WithTenant_wf l tid : labels_wf l -> labels_wf (WithTenant l tid).
Proof. intros Hl. unfold WithTenant. destruct (String.eqb tid _); [done|apply build_wf]. Qed.
Lemma Get_WithTenant l tid n : labels_wf l -> n <> tenant_Label -> Get (WithTenant l tid) n = Get l n.
Proof.
  intros Hl Hn. unfold WithTenant. destruct (String.eqb tid _); [done|]. rewrite Get_build, lookup_insert_ne by done. by rewrite Get_Map.
Qed.

Lemma restamp l : labels_wf l -> Get l tenant_Label <> Some tenant_Default ->
  WithTenant (Without l tenant_Label) (TenantOf l) = l.
Proof.
  intros Hl Hc. unfold TenantOf, Without, WithTenant. destruct (Get l tenant_Label) as [v|] eqn:E; [|done]. cbn [default from_option id].
  destruct (String.eqb_spec v tenant_Default) as [->|]; [done|].
  rewrite labels_Map_build, insert_delete_eq, insert_id by (by rewrite <- Get_Map). by apply build_labels_Map.
Qed.
Lemma unstamp l tid : labels_wf l -> Get l tenant_Label = None ->
  TenantOf (WithTenant l tid) = tid /\ Without (WithTenant l tid) tenant_Label = l.
Proof.
  intros Hl Hno. unfold WithTenant, TenantOf, Without. destruct (String.eqb_spec tid tenant_Default) as [->|]; [by rewrite Hno|].
  rewrite Get_build, lookup_insert_eq. split; [done|].
  rewrite labels_Map_build, delete_insert_id by (by rewrite <- Get_Map). by apply build_labels_Map.
Qed.

Lemma expected_relabel p p' l l' ws : MinT p' = MinT p -> MaxT p' = MaxT p -> Anchor p' = Anchor p ->
  SeriesOnly p' = SeriesOnly p -> AnyTime p' = AnyTime p ->
  expected p l ws = (fun sd => mkSeries l (sd_anchor sd) (sd_samples sd)) <$> expected p' l' ws.
Proof.
  intros E1 E2 E3 E4 E5. unfold expected. assert (core p' ws = core p ws) as -> by (unfold core; by rewrite E1, E2, E3).
  generalize (core p ws). intros [f a]. unfold to_answer. rewrite E1, E2, E4, E5.
  destruct (SeriesOnly p && AnyTime p)%bool; [done|]. destruct (MaxT p <? MinT p); [done|]. cbn [fst].
  destruct (SeriesOnly p); [by destruct f|]. by destruct f, a.
Qed.

Lemma tenant_params_fields tid p :
  let p' := tenant_params tid p in MinT p' = MinT p /\ MaxT p' = MaxT p /\ Anchor p' = Anchor p /\
  SeriesOnly p' = SeriesOnly p /\ AnyTime p' = AnyTime p.
Proof. unfold tenant_params. by destruct (String.eqb tid _). Qed.

(** A client selector sees a stamped series as it sees the client's label set. *)
Lemma tenant_matches tid p l : labels_wf l -> Get l tenant_Label = None ->
  Forall (fun m => mt_name m <> tenant_Label) (Matchers (p_sel p)) ->
  matches (p_sel (tenant_params tid p)) (WithTenant l tid) <-> matches (p_sel p) l.
Proof.
  intros Hl Hno Hnames.
  assert (Hm : matches (p_sel p) (WithTenant l tid) <-> matches (p_sel p) l).
  { unfold matches. rewrite Get_WithTenant by done. apply and_iff_compat_l.
    split; (intros HF; rewrite Forall_forall in *; intros m Hm; specialize (HF m Hm); specialize (Hnames m Hm));
      [by rewrite <- (Get_WithTenant l tid)|by rewrite Get_WithTenant]. }
  unfold tenant_params. destruct (String.eqb_spec tid tenant_Default) as [->|Hne]; [done|]. rewrite <- Hm.
  unfold matches. cbn [p_sel MetricName Matchers]. rewrite Forall_app, Forall_singleton. cbn [mt_name mt_value].
  assert (Get (WithTenant l tid) tenant_Label = Some tid).
  { unfold WithTenant. rewrite (proj2 (String.eqb_neq _ _) Hne), Get_build. apply lookup_insert_eq. }
  tauto.
Qed.

Lemma db_tenant_some db tid l ws : tenant_clean db ->
  db_tenant db tid l = Some ws <-> labels_wf l /\ Get l tenant_Label = None /\ db (WithTenant l tid) = Some ws.
Proof.
  intros Hc. unfold db_tenant. destruct (decide (l = build (labels_Map l))) as [E|E].
  - destruct (Get l tenant_Label) as [v|] eqn:Eg; [naive_solver|].
    split; [|tauto]. intros H. split_and!; [|done|done]. rewrite E. apply build_wf.
  - split; [done|]. intros (Hl & _). exfalso. apply E. symmetry. by apply build_labels_Map.
Qed.

Lemma existsb_matchers (ms : list Matcher) :
  existsb (fun m => String.eqb (mt_name m) tenant_Label) ms = false <-> Forall (fun m => mt_name m <> tenant_Label) ms.
Proof.
  induction ms as [|m ms IH]; cbn; [split; [constructor|done]|]. rewrite orb_false_iff, IH, Forall_cons, String.eqb_neq. done.
Qed.

Lemma tenant_Select_answers src ctx db p : tenant_clean db -> Implements src ctx db -> Validate p = Ok tt ->
  exists out, tenant_Select src ctx p = Ok out /\ answers (db_tenant db (tenant_From ctx)) p out.
Proof.
  intros Hc Hsrc Hv. unfold tenant_Select. set (tid := tenant_From ctx).
  destruct (existsb _ (Matchers (p_sel p))) eqn:Ex.
  - rewrite Hv. exists []. split; [done|]. split; [constructor|]. intros sd. rewrite elem_of_nil. split; [done|].
    intros (ws & Hdb & [_ HF] & _). apply (db_tenant_some _ _ _ _ Hc) in Hdb as (Hl & Hno & _).
    assert (Hall : Forall (fun m => mt_name m <> tenant_Label) (Matchers (p_sel p))).
    { eapply Forall_impl; [exact HF|]. intros m Hm E. cbv beta in Hm. rewrite E in Hm. congruence. }
    apply existsb_matchers in Hall. congruence.
  - apply existsb_matchers in Ex. destruct (tenant_params_fields tid p) as (E1 & E2 & E3 & E4 & E5). set (p' := tenant_params tid p) in *.
    destruct (select_answers p') as (got & Hgot & Hnd & Hans); [unfold Validate in *; by rewrite E3, E4, E5|].
    rewrite Hgot. eexists. split; [reflexivity|].
    set (keep := filter (fun sd => TenantOf (sd_labels sd) = tid) got).
    assert (Hkeep : forall x, x ∈ keep -> exists ws, db (sd_labels x) = Some ws /\ labels_wf (sd_labels x) /\
      WithTenant (Without (sd_labels x) tenant_Label) tid = sd_labels x /\
      Get (Without (sd_labels x) tenant_Label) tenant_Label = None /\ matches (p_sel p') (sd_labels x) /\ expected p' (sd_labels x) ws = Some x).
    { intros x [Ht Hx]%list_elem_of_filter. apply Hans in Hx as (ws & Hdb & Hm & He). destruct (Hc _ _ Hdb) as [Hwf Hcl].
      exists ws. split_and!; [done..| | |done|done]; [by rewrite <- Ht; apply restamp|by rewrite Get_Without, String.eqb_refl]. }
    split.
    + rewrite <- list_fmap_compose. assert (Hnd' : NoDup (sd_labels <$> keep)).
      { eapply sublist_NoDup; [exact Hnd|]. apply fmap_sublist, sublist_filter. }
      clear Hnd. induction keep as [|x keep IH]; [constructor|]. rewrite fmap_cons in *. apply NoDup_cons in Hnd' as [Hx Hnd'].
      constructor; [|apply IH; [intros; apply Hkeep; by right|done]]. intros (y & E & Hy)%list_elem_of_fmap. cbn in E.
      apply Hx. apply list_elem_of_fmap. exists y. split; [|done].
      destruct (Hkeep x) as (_ & _ & _ & <- & _); [by left|]. destruct (Hkeep y) as (_ & _ & _ & <- & _); [by right|]. by rewrite E.
    + intros sd. rewrite list_elem_of_fmap. split.
      * intros (x & -> & Hx). destruct (Hkeep x Hx) as (ws & Hdb & Hwf & Hst & Hno & Hm & He). exists ws. cbn [strip_tenant sd_labels].
        assert (Hwf' : labels_wf (Without (sd_labels x) tenant_Label)) by (by apply Without_wf).
        split_and!.
        -- apply (db_tenant_some _ _ _ _ Hc). by rewrite Hst.
        -- apply (tenant_matches tid); [done..|]. by rewrite Hst.
        -- rewrite (expected_relabel p p' _ (sd_labels x)) by done. by rewrite He.
      * intros (ws & Hdb & Hm & He). apply (db_tenant_some _ _ _ _ Hc) in Hdb as (Hwf & Hno & Hdb).
        destruct (unstamp (sd_labels sd) tid Hwf Hno) as [Ht Hw].
        rewrite (expected_relabel p p' _ (WithTenant (sd_labels sd) tid)) in He by done.
        destruct (expected p' (WithTenant (sd_labels sd) tid) ws) as [x|] eqn:Ex'; [|done]. cbn in He. injection He as He.
        pose proof (expected_labels _ _ _ _ Ex') as Hlx. exists x. split.
        -- unfold strip_tenant. rewrite Hlx, Hw. by rewrite <- He at 1.
        -- apply list_elem_of_filter. rewrite Hlx. split; [done|]. apply Hans. rewrite Hlx. exists ws. split_and!; [done| |done].
           by apply tenant_matches.
Qed.

Lemma names_of_spec series n : n ∈ names_of series <-> exists sd, sd ∈ series /\ is_Some (labels_Map (sd_labels sd) !! n).
Proof.
  unfold names_of. induction series as [|sd series IH] using rev_ind.
  - cbn [fold_left]. split; [set_solver|]. intros (sd & []%not_elem_of_nil & _).
  - rewrite fold_left_app. cbn [fold_left]. rewrite elem_of_union, IH, elem_of_dom. setoid_rewrite elem_of_app. setoid_rewrite list_elem_of_singleton. naive_solver.
Qed.
Lemma values_of_spec name series v : v ∈ values_of name series <-> exists sd, sd ∈ series /\ Get (sd_labels sd) name = Some v.
Proof.
  unfold values_of. induction series as [|sd series IH] using rev_ind.
  - cbn [fold_left]. split; [set_solver|]. intros (sd & []%not_elem_of_nil & _).
  - rewrite fold_left_app. cbn [fold_left]. setoid_rewrite elem_of_app. setoid_rewrite list_elem_of_singleton.
    destruct (Get (sd_labels sd) name) as [w|] eqn:E; [rewrite elem_of_union, elem_of_singleton|]; rewrite IH; naive_solver.
Qed.

Lemma all_series_answers db out : answers db all_series out ->
  forall l, (exists sd, sd ∈ out /\ sd_labels sd = l) <-> is_Some (db l).
Proof.
  intros [_ H] l. split.
  - intros (sd & Hsd & <-). apply H in Hsd as (ws & Hdb & _). by eexists.
  - intros [ws Hdb]. exists (mkSeries l None []). split; [|done]. apply H. exists ws. cbn. split_and!; [done| |done].
    split; [done|by constructor].
Qed.

(** ** The interface, discharged *)

#[export] Instance Merge_implements first second ctx d1 d2 :
  Implements first ctx d1 -> Implements second ctx d2 -> no_collision [d1; d2] ->
  Implements (Merge first second) ctx (db_union d1 d2).
Proof.
  intros H1 H2 Hnc. split; cbn [Merge src_Select src_LabelNames src_LabelValues].
  - intros p e Hv. by rewrite Hv.
  - intros p Hv. rewrite Hv. cbn. destruct (select_answers (src := first) (ctx := ctx) p Hv) as (a & -> & Ha).
    destruct (select_answers (src := second) (ctx := ctx) p Hv) as (b & -> & Hb). cbn.
    eexists. split; [reflexivity|]. by apply merge_answers_union.
  - destruct (names_answers (src := first) (ctx := ctx)) as (a & -> & Ha). destruct (names_answers (src := second) (ctx := ctx)) as (b & -> & Hb). cbn.
    eexists. split; [reflexivity|]. by apply lists_names_union.
  - intros name. destruct (values_answers (src := first) (ctx := ctx) name) as (a & -> & Ha).
    destruct (values_answers (src := second) (ctx := ctx) name) as (b & -> & Hb). cbn.
    eexists. split; [reflexivity|]. by apply lists_values_union.
Qed.

Lemma Validate_all_series : Validate all_series = Ok tt.
Proof. done. Qed.

#[export] Instance TenantSource_implements src ctx db :
  Implements src ctx db -> tenant_clean db -> Implements (TenantSource src) ctx (db_tenant db (tenant_From ctx)).
Proof.
  intros Hsrc Hc.
  destruct (tenant_Select_answers src ctx db all_series Hc Hsrc Validate_all_series) as (series & Hser & Hans).
  pose proof (all_series_answers _ _ Hans) as Hall.
  split; cbn [TenantSource src_Select src_LabelNames src_LabelValues].
  - intros p e Hv. unfold tenant_Select. destruct (existsb _ _); [by rewrite Hv|].
    rewrite (select_refuses _ e); [done|]. destruct (tenant_params_fields (tenant_From ctx) p) as (_ & _ & E3 & E4 & E5).
    unfold Validate in *. by rewrite E3, E4, E5.
  - intros p Hv. by apply tenant_Select_answers.
  - unfold tenantSeries. rewrite Hser. cbn. eexists. split; [reflexivity|]. destruct (sortedStringSet_spec (names_of series)) as [H1 H2].
    split; [done|]. intros n. rewrite H2, names_of_spec. split.
    + intros (sd & Hsd & Hn). destruct (proj1 (Hall (sd_labels sd))) as [ws Hws]; [by exists sd|].
      exists (sd_labels sd), ws. split; [done|]. rewrite Get_Map; [done|]. by apply (db_tenant_some _ _ _ _ Hc) in Hws as [? _].
    + intros (l & ws & Hdb & Hn). destruct (proj2 (Hall l)) as (sd & Hsd & <-); [by eexists|]. exists sd. split; [done|].
      rewrite <- Get_Map; [done|]. by apply (db_tenant_some _ _ _ _ Hc) in Hdb as [? _].
  - intros name. unfold tenantSeries. rewrite Hser. cbn. eexists. split; [reflexivity|].
    destruct (sortedStringSet_spec (values_of name series)) as [H1 H2]. split; [done|]. intros v. rewrite H2, values_of_spec. split.
    + intros (sd & Hsd & Hn). destruct (proj1 (Hall (sd_labels sd))) as [ws Hws]; [by exists sd|]. by exists (sd_labels sd), ws.
    + intros (l & ws & Hdb & Hn). destruct (proj2 (Hall l)) as (sd & Hsd & <-); [by eexists|]. by exists sd.
Qed.

(** ** A reference source: the specification, executed on a table *)

#[export] Instance matches_dec sel l : Decision (matches sel l).
Proof. unfold matches. solve_decision. Defined.

Definition table := list (Labels * list sample).
Definition db_of (rows : table) : database := fun l => snd <$> find (fun r => bool_decide (r.1 = l)) rows.
Definition ref_select (rows : table) (p : SelectParams) : list SeriesData :=
  omap (fun r => if decide (matches (p_sel p) r.1) then expected p r.1 r.2 else None) rows.
Definition ref_names (rows : table) : list string :=
  sortedStringSet (fold_left (fun set r => set ∪ dom (labels_Map r.1)) rows ∅).
Definition ref_values (rows : table) (name : string) : list string :=
  sortedStringSet (fold_left (fun set r => match Get r.1 name with Some v => {[v]} ∪ set | None => set end) rows ∅).
Definition ref_source (rows : table) : Source := mkSource
  (fun _ p => match Validate p with Err e => Err e | Ok _ => Ok (ref_select rows p) end)
  (fun _ => Ok (ref_names rows)) (fun _ name => Ok (ref_values rows name)).

Lemma db_of_some rows l ws : NoDup rows.*1 -> db_of rows l = Some ws <-> (l, ws) ∈ rows.
Proof.
  unfold db_of. induction rows as [|[l0 w0] rows IH]; intros Hnd; cbn [find fst].
  - cbn. rewrite elem_of_nil. done.
  - rewrite fmap_cons in Hnd. apply NoDup_cons in Hnd as [Hn Hnd]. cbn [fst] in Hn. rewrite elem_of_cons.
    destruct (bool_decide_reflect (l0 = l)) as [->|Hne].
    + cbn. split; [intros [= <-]; by left|]. intros [[= ->]|Hin]; [done|]. exfalso. apply Hn.
      apply list_elem_of_fmap. by exists (l, ws).
    + rewrite IH by done. split; [by right|]. intros [[= -> _]|?]; done.
Qed.

Lemma ref_select_answers rows p : NoDup rows.*1 -> answers (db_of rows) p (ref_select rows p).
Proof.
  intros Hnd.
  assert (Hin : forall sd, sd ∈ ref_select rows p <-> exists ws, db_of rows (sd_labels sd) = Some ws /\
    matches (p_sel p) (sd_labels sd) /\ expected p (sd_labels sd) ws = Some sd).
  { intros sd. unfold ref_select. rewrite list_elem_of_omap. split.
    - intros ([l ws] & Hr & H). cbn [fst snd] in H. destruct (decide (matches (p_sel p) l)) as [Hm|]; [|done].
      pose proof (expected_labels _ _ _ _ H) as Hl. rewrite Hl. exists ws. by rewrite db_of_some.
    - intros (ws & Hdb & Hm & He). apply db_of_some in Hdb; [|done]. exists (sd_labels sd, ws). split; [done|]. cbn [fst snd].
      by rewrite decide_True. }
  split; [|done]. clear Hin. unfold ref_select. induction rows as [|[l ws] rows IH]; [constructor|].
  rewrite fmap_cons in Hnd. apply NoDup_cons in Hnd as [Hn Hnd]. specialize (IH Hnd). cbn [omap list_omap fst snd].
  destruct (decide (matches (p_sel p) l)); [|done]. destruct (expected p l ws) as [sd|] eqn:E; [|done].
  rewrite fmap_cons. constructor; [|done]. intros (x & Hx & Hin)%list_elem_of_fmap. apply Hn.
  pose proof (expected_labels _ _ _ _ E) as Hl. apply list_elem_of_omap in Hin as ([l' ws'] & Hr & H). cbn [fst snd] in *.
  destruct (decide (matches (p_sel p) l')); [|done]. pose proof (expected_labels _ _ _ _ H) as Hl'.
  apply list_elem_of_fmap. exists (l', ws'). split; [cbn; congruence|done].
Qed.

Lemma ref_source_implements rows ctx : NoDup rows.*1 -> Forall (fun r => labels_wf r.1) rows ->
  Implements (ref_source rows) ctx (db_of rows).
Proof.
  intros Hnd Hwf. rewrite Forall_forall in Hwf. split; cbn [ref_source src_Select src_LabelNames src_LabelValues].
  - intros p e ->. done.
  - intros p ->. eexists. split; [reflexivity|]. by apply ref_select_answers.
  - eexists. split; [reflexivity|]. unfold ref_names. destruct (sortedStringSet_spec (fold_left (fun set r => set ∪ dom (labels_Map r.1)) rows (∅ : gset string))) as [H1 H2].
    split; [done|]. intros n. rewrite H2. transitivity (exists r, r ∈ rows /\ is_Some (labels_Map r.1 !! n)).
    + clear. induction rows as [|r rows IH] using rev_ind.
      * cbn [fold_left]. split; [set_solver|]. intros (r & []%not_elem_of_nil & _).
      * rewrite fold_left_app. cbn [fold_left]. rewrite elem_of_union, IH, elem_of_dom. setoid_rewrite elem_of_app.
        setoid_rewrite list_elem_of_singleton. naive_solver.
    + split.
      * intros ([l ws] & Hr & Hn). exists l, ws. split; [by apply db_of_some|]. rewrite Get_Map by (by apply (Hwf (l, ws))). done.
      * intros (l & ws & Hdb & Hn). apply db_of_some in Hdb; [|done]. exists (l, ws). split; [done|].
        cbn [fst]. rewrite <- Get_Map by (by apply (Hwf (l, ws))). done.
  - intros name. eexists. split; [reflexivity|]. unfold ref_values.
    destruct (sortedStringSet_spec (fold_left (fun set r => match Get r.1 name with Some v => {[v]} ∪ set | None => set end) rows (∅ : gset string))) as [H1 H2].
    split; [done|]. intros v. rewrite H2. transitivity (exists r, r ∈ rows /\ Get r.1 name = Some v).
    + clear. induction rows as [|r rows IH] using rev_ind.
      * cbn [fold_left]. split; [set_solver|]. intros (r & []%not_elem_of_nil & _).
      * rewrite fold_left_app. cbn [fold_left]. setoid_rewrite elem_of_app. setoid_rewrite list_elem_of_singleton.
        destruct (Get r.1 name) as [w|] eqn:E; [rewrite elem_of_union, elem_of_singleton|]; rewrite IH; naive_solver.
    + split.
      * intros ([l ws] & Hr & Hn). exists l, ws. split; [by apply db_of_some|done].
      * intros (l & ws & Hdb & Hn). apply db_of_some in Hdb; [|done]. by exists (l, ws).
Qed.

(** ** Properties *)

(** Merging two sources is reading the union of their writes: if each side
    answers for its own database, the merge answers for the database that holds
    both sides' writes, for every legal select (samples, anchors, series-only,
    any-time), for label names and for label values. A series known to both is
    answered once, with the surviving write of each timestamp and the later
    anchor. The one assumption is that no two label sets share a series ID. *)
Theorem merge_reads_union (first second : Source) (ctx : context) (d1 d2 : database)
  (H1 : Implements first ctx d1) (H2 : Implements second ctx d2) (Hnc : no_collision [d1; d2]) :
  Implements (Merge first second) ctx (db_union d1 d2).
Proof. by apply Merge_implements. Qed.

(** C31. Tenant isolation (non-interference): a tenant's read depends on that
    tenant's series only. Over two databases that agree on the tenant's own
    series and differ arbitrarily elsewhere, every select made under the tenant's
    context succeeds on both and returns the same series, and nothing returned
    carries the internal tenant label. *)
Theorem tenant_isolation (s1 s2 : Source) (ctx : context) (d1 d2 : database) (p : SelectParams)
  (H1 : Implements s1 ctx d1) (H2 : Implements s2 ctx d2) (Hc1 : tenant_clean d1) (Hc2 : tenant_clean d2)
  (Hsame : forall l, db_tenant d1 (tenant_From ctx) l = db_tenant d2 (tenant_From ctx) l) (Hp : Validate p = Ok tt) :
  exists out1 out2, src_Select (TenantSource s1) ctx p = Ok out1 /\ src_Select (TenantSource s2) ctx p = Ok out2 /\
    out1 ≡ₚ out2 /\ Forall (fun sd => Get (sd_labels sd) tenant_Label = None) out1.
Proof.
  destruct (select_answers (src := TenantSource s1) (ctx := ctx) p Hp) as (out1 & E1 & Hnd1 & Ha1).
  destruct (select_answers (src := TenantSource s2) (ctx := ctx) p Hp) as (out2 & E2 & Hnd2 & Ha2).
  exists out1, out2. split_and!; [done..| |].
  - apply NoDup_Permutation; [by eapply NoDup_fmap_1|by eapply NoDup_fmap_1|]. intros sd. rewrite Ha1, Ha2. by setoid_rewrite Hsame.
  - apply Forall_forall. intros sd Hsd. apply Ha1 in Hsd as (ws & Hdb & _).
    by apply (db_tenant_some _ _ _ _ Hc1) in Hdb as (_ & Hno & _).
Qed.

(** *** Witnesses *)

Definition row_acme : Labels := build (<["__name__" := "up"]> (<["__tenant__" := "acme"]> ∅)).
Definition row_anon : Labels := build (<["__name__" := "up"]> ∅).
Definition table1 : table := [(row_acme, [mkSample 10 1 5]); (row_anon, [mkSample 10 2 6])].
Definition table2 : table := [(row_acme, [mkSample 10 1 5])].

Lemma table1_nodup : NoDup table1.*1.
Proof. apply (bool_decide_unpack _). vm_compute. exact I. Qed.
Lemma table2_nodup : NoDup table2.*1.
Proof. apply (bool_decide_unpack _). vm_compute. exact I. Qed.
Lemma table1_wf : Forall (fun r => labels_wf r.1) table1.
Proof. repeat (apply Forall_cons_2; [apply build_wf|]). apply Forall_nil_2. Qed.
Lemma table2_wf : Forall (fun r => labels_wf r.1) table2.
Proof. repeat (apply Forall_cons_2; [apply build_wf|]). apply Forall_nil_2. Qed.

Lemma table_cases rows l : is_Some (db_of rows l) -> l ∈ rows.*1.
Proof.
  intros [ws H]. unfold db_of in H. destruct (find _ rows) as [r|] eqn:E; [|done]. apply find_some in E as [Hr%list_elem_of_In Hl%bool_decide_eq_true].
  subst l. by apply list_elem_of_fmap_2.
Qed.

Lemma tables_no_collision : no_collision [db_of table1; db_of table2].
Proof.
  assert (Hdom : forall d l, d ∈ [db_of table1; db_of table2] -> is_Some (d l) -> l ∈ [row_acme; row_anon]).
  { intros d l Hd Hl. rewrite !elem_of_cons in Hd. destruct Hd as [->|[->|[]%not_elem_of_nil]]; apply table_cases in Hl.
    - exact Hl.
    - apply list_elem_of_singleton in Hl as ->. by left. }
  intros l1 l2 e1 e2 He1 He2 Hl1 Hl2 E. pose proof (Hdom _ _ He1 Hl1) as H1. pose proof (Hdom _ _ He2 Hl2) as H2.
  rewrite !elem_of_cons in H1, H2. destruct H1 as [->|[->|[]%not_elem_of_nil]], H2 as [->|[->|[]%not_elem_of_nil]];
    [reflexivity|exfalso; vm_compute in E; discriminate E|exfalso; vm_compute in E; discriminate E|reflexivity].
Qed.

Lemma rows_wf : labels_wf row_acme /\ labels_wf row_anon.
Proof. split; [exact (build_wf _)|exact (build_wf _)]. Qed.
Lemma rows_clean : Get row_acme tenant_Label <> Some tenant_Default /\ Get row_anon tenant_Label <> Some tenant_Default.
Proof.
  unfold row_acme, row_anon. rewrite !Get_build. split.
  - replace (_ !! tenant_Label) with (Some "acme"%string) by (vm_compute; reflexivity). discriminate.
  - replace (_ !! tenant_Label) with (@None string) by (vm_compute; reflexivity). discriminate.
Qed.

Lemma tables_clean : tenant_clean (db_of table1) /\ tenant_clean (db_of table2).
Proof.
  assert (H : forall rows, rows.*1 ⊆ [row_acme; row_anon] -> tenant_clean (db_of rows)).
  { intros rows Hsub l ws Hl. assert (Hin : l ∈ [row_acme; row_anon]) by (apply Hsub, table_cases; by eexists).
    rewrite !elem_of_cons in Hin. destruct Hin as [->|[->|[]%not_elem_of_nil]]; (split; [apply rows_wf|apply rows_clean]). }
  split; apply H; intros x; rewrite ?elem_of_cons; cbn; rewrite ?elem_of_cons; tauto.
Qed.

Lemma demo_same_tenant l : db_of table1 (WithTenant l "acme") = db_of table2 (WithTenant l "acme").
Proof.
  unfold db_of, table1, table2. cbn [find fst]. destruct (bool_decide_reflect (row_acme = WithTenant l "acme")) as [|_]; [done|].
  destruct (bool_decide_reflect (row_anon = WithTenant l "acme")) as [E|_]; [|done]. exfalso.
  assert (Hg : Get (WithTenant l "acme") tenant_Label = Some "acme"%string).
  { change (WithTenant l "acme") with (build (<[tenant_Label := "acme"%string]> (labels_Map l))).
    rewrite Get_build. apply lookup_insert_eq. }
  rewrite <- E in Hg. vm_compute in Hg. discriminate Hg.
Qed.

Definition read_all : SelectParams := mkParams (mkSelector "up" []) 0 100 true false false.

Lemma merge_reads_union_witness : Implements (Merge (ref_source table1) (ref_source table2)) None (db_union (db_of table1) (db_of table2)).
Proof.
  apply (merge_reads_union (ref_source table1) (ref_source table2) None);
    [apply ref_source_implements; [apply table1_nodup|apply table1_wf]
    |apply ref_source_implements; [apply table2_nodup|apply table2_wf]|apply tables_no_collision].
Defined.

Lemma tenant_isolation_witness : exists out1 out2,
  src_Select (TenantSource (ref_source table1)) (Some "acme"%string) read_all = Ok out1 /\
  src_Select (TenantSource (ref_source table2)) (Some "acme"%string) read_all = Ok out2 /\ out1 ≡ₚ out2.
Proof.
  destruct (tenant_isolation (ref_source table1) (ref_source table2) (Some "acme"%string) (db_of table1) (db_of table2) read_all)
    as (o1 & o2 & E1 & E2 & Hp & _);
    [apply ref_source_implements; [apply table1_nodup|apply table1_wf]
    |apply ref_source_implements; [apply table2_nodup|apply table2_wf]
    |apply tables_clean|apply tables_clean| |vm_compute; reflexivity|exists o1, o2; split; [exact E1|split; [exact E2|exact Hp]]].
  intros l. unfold db_tenant. destruct (decide (l = build (labels_Map l))); [|reflexivity].
  destruct (Get l tenant_Label) as [v|]; [reflexivity|]. apply demo_same_tenant.
Defined.
