(* ===== verification/ReadEquiv.v ===== *)
(** * ReadEquiv: databases no read can tell apart

    Flushes, compactions and restarts move samples between head and blocks, repeat
    some and drop overwritten ones. Two databases are equivalent when they know the
    same series and the same write survives at every timestamp: every reader of a
    [Source] ([internal/metrics/source.go]) then gets the same answers. *)
From stdpp Require Import strings.
From S2P Require Import Prelude GoLib Chunk Dedup Labels Source.

Record series_equiv (a b : option (list sample)) : Prop := {
  se_known : is_Some a <-> is_Some b;
  se_samples : sortAndDedup (default [] a) = sortAndDedup (default [] b) }.
Definition db_equiv (d1 d2 : database) : Prop := forall l, series_equiv (d1 l) (d2 l).

#[export] Instance series_equiv_equivalence : Equivalence series_equiv.
Proof.
  split.
  - intros a. by split.
  - intros a b [H1 H2]. by split.
  - intros a b c [H1 H2] [H3 H4]. split; [by rewrite H1|congruence].
Qed.
#[export] Instance db_equiv_equivalence : Equivalence db_equiv.
Proof.
  split.
  - intros d l. reflexivity.
  - intros d1 d2 H l. symmetry. apply H.
  - intros d1 d2 d3 H1 H2 l. etransitivity; [apply H1|apply H2].
Qed.

(** Same samples, in any order and number. *)
Lemma same_samples_equiv (a b : list sample) : (forall x, x ∈ a <-> x ∈ b) -> sortAndDedup a = sortAndDedup b.
Proof. intros H. apply sortAndDedup_ext. intros x. apply survives_ext. intros y. rewrite <- !list_elem_of_In. apply H. Qed.
Lemma series_equiv_ext a b : (is_Some a <-> is_Some b) -> (forall x, x ∈ default [] a <-> x ∈ default [] b) -> series_equiv a b.
Proof. intros H1 H2. split; [done|by apply same_samples_equiv]. Qed.

#[export] Instance db_union_proper : Proper (db_equiv ==> db_equiv ==> db_equiv) db_union.
Proof.
  intros d1 d1' H1 d2 d2' H2 l. destruct (H1 l) as [K1 S1], (H2 l) as [K2 S2]. split; [by rewrite !db_union_some, K1, K2|].
  assert (E : forall d d' : database, default [] (db_union d d' l) = default [] (d l) ++ default [] (d' l)) by (intros d d'; unfold db_union; destruct (d l), (d' l); cbn; by rewrite ?app_nil_r).
  by rewrite !E, <- sortAndDedup_absorb_l, <- sortAndDedup_absorb_r, S1, S2, sortAndDedup_absorb_l, sortAndDedup_absorb_r.
Qed.

Lemma expected_equiv p l ws ws' : sortAndDedup ws = sortAndDedup ws' -> expected p l ws = expected p l ws'.
Proof. intros H. unfold expected, core. by rewrite H. Qed.
(** What a source answers for one database it answers for every equivalent one. *)
#[export] Instance Implements_proper : Proper (eq ==> eq ==> db_equiv ==> iff) Implements.
Proof.
  assert (H : forall src ctx d d', db_equiv d d' -> Implements src ctx d -> Implements src ctx d').
  { intros src ctx d d' He [H1 H2 H3 H4].
    assert (Hsome : forall l, is_Some (d l) <-> is_Some (d' l)) by (intros l; apply (se_known _ _ (He l))). split; [done| | |].
    - intros p Hp. destruct (H2 p Hp) as (out & Ho & Hnd & Hin). exists out. split; [done|]. split; [done|]. intros sd. rewrite Hin.
      assert (Hs : forall ws ws', d (sd_labels sd) = Some ws -> d' (sd_labels sd) = Some ws' -> expected p (sd_labels sd) ws = expected p (sd_labels sd) ws').
      { intros ws ws' E E'. apply expected_equiv. pose proof (se_samples _ _ (He (sd_labels sd))) as Hss. by rewrite E, E' in Hss. }
      split; intros (ws & Hws & Hm & Hx); [destruct (proj1 (Hsome _) (mk_is_Some _ _ Hws)) as [ws' E]|destruct (proj2 (Hsome _) (mk_is_Some _ _ Hws)) as [ws' E]]; exists ws'; (split; [done|]); (split; [done|]).
      + by rewrite <- (Hs ws ws').
      + by rewrite (Hs ws' ws).
    - destruct H3 as (out & Ho & Hs & Hin). exists out. split; [done|]. split; [done|]. intros n. rewrite Hin.
      split; intros (l & ws & Hws & Hg); [destruct (proj1 (Hsome _) (mk_is_Some _ _ Hws)) as [ws' E]|destruct (proj2 (Hsome _) (mk_is_Some _ _ Hws)) as [ws' E]]; by exists l, ws'.
    - intros name. destruct (H4 name) as (out & Ho & Hs & Hin). exists out. split; [done|]. split; [done|]. intros v. rewrite Hin.
      split; intros (l & ws & Hws & Hg); [destruct (proj1 (Hsome _) (mk_is_Some _ _ Hws)) as [ws' E]|destruct (proj2 (Hsome _) (mk_is_Some _ _ Hws)) as [ws' E]]; by exists l, ws'. }
  intros src ? <- ctx ? <- d d' He. split; apply H; [done|by symmetry].
Qed.

(** ** Domination: what one database makes redundant in another *)

(** Every write of [a] has in [b], at its timestamp, itself or one that outranks it. *)
Definition dominated (a b : list sample) : Prop := forall x, x ∈ a -> exists y, y ∈ b /\ s_ts y = s_ts x /\ (y = x \/ outranks y x = true).
#[export] Instance dominated_preorder : PreOrder dominated.
Proof.
  split.
  - intros a x Hx. exists x. split_and!; [done|done|by left].
  - intros a b c H1 H2 x Hx. destruct (H1 x Hx) as (y & Hy & Ty & Oy), (H2 y Hy) as (z & Hz & Tz & Oz). exists z. split_and!; [done|congruence|].
    destruct Oz as [->|Oz]; [done|]. destruct Oy as [->|Oy]; [by right|right; by eapply outranks_trans].
Qed.
Lemma dominated_incl a b : (forall x, x ∈ a -> x ∈ b) -> dominated a b.
Proof. intros H x Hx. exists x. split_and!; [by apply H|done|by left]. Qed.
Lemma dominated_app a b c : dominated a c -> dominated b c -> dominated (a ++ b) c.
Proof. intros H1 H2 x [Hx|Hx]%elem_of_app; [by apply H1|by apply H2]. Qed.
Lemma dominated_survives a b s : dominated a b -> dominated b a -> survives a s -> survives b s.
Proof.
  intros H1 H2 [Hs Hout]. setoid_rewrite <- list_elem_of_In in Hout. apply list_elem_of_In in Hs. split.
  - apply list_elem_of_In. destruct (H1 s Hs) as (y & Hy & Ty & [->|Oy]); [done|]. exfalso. destruct (H2 y Hy) as (z & Hz & Tz & Oz).
    assert (Ozs : outranks z s = true) by (destruct Oz as [->|Oz]; [done|by eapply outranks_trans]).
    destruct (Hout z Hz ltac:(congruence)) as [->|Osz]; [by rewrite outranks_irrefl in Ozs|]. apply outranks_asym in Osz. congruence.
  - intros x Hx%list_elem_of_In Tx. destruct (H2 x Hx) as (z & Hz & Tz & Oz). destruct (Hout z Hz ltac:(congruence)) as [->|Osz].
    + destruct Oz as [->|Oz]; [by left|by right].
    + right. destruct Oz as [->|Oz]; [done|by eapply outranks_trans].
Qed.
(** Lists that dominate each other leave the same survivors. *)
Lemma dominated_antisym a b : dominated a b -> dominated b a -> sortAndDedup a = sortAndDedup b.
Proof. intros H1 H2. apply sortAndDedup_ext. intros s. split; by apply dominated_survives. Qed.
Lemma sortAndDedup_dominates a : dominated a (sortAndDedup a).
Proof.
  intros x Hx. destruct (survivor_exists a x) as (k & Hk & Tk & Ok); [by apply list_elem_of_In|]. exists k. split_and!; [|done|destruct Ok as [->|?]; [by left|by right]].
  apply list_elem_of_In. by apply (sortAndDedup_spec a).
Qed.

(** [d1] adds nothing a read of [d2] could show. *)
Definition db_covered (d1 d2 : database) : Prop := forall l, (is_Some (d1 l) -> is_Some (d2 l)) /\ dominated (default [] (d1 l)) (default [] (d2 l)).
#[export] Instance db_covered_preorder : PreOrder db_covered.
Proof.
  split.
  - intros d l. by split.
  - intros d1 d2 d3 H1 H2 l. destruct (H1 l) as [K1 D1], (H2 l) as [K2 D2]. split; [auto|by etransitivity].
Qed.
Lemma db_covered_antisym d1 d2 : db_covered d1 d2 -> db_covered d2 d1 -> db_equiv d1 d2.
Proof. intros H1 H2 l. destruct (H1 l) as [K1 D1], (H2 l) as [K2 D2]. split; [by split|by apply dominated_antisym]. Qed.
Lemma db_union_default (d1 d2 : database) l : default [] (db_union d1 d2 l) = default [] (d1 l) ++ default [] (d2 l).
Proof. unfold db_union. destruct (d1 l), (d2 l); cbn; by rewrite ?app_nil_r. Qed.
Lemma db_covered_l d1 d2 : db_covered d1 (db_union d1 d2).
Proof. intros l. split; [rewrite db_union_some; tauto|]. rewrite db_union_default. apply dominated_incl. intros x Hx. apply elem_of_app. by left. Qed.
Lemma db_covered_r d1 d2 : db_covered d2 (db_union d1 d2).
Proof. intros l. split; [rewrite db_union_some; tauto|]. rewrite db_union_default. apply dominated_incl. intros x Hx. apply elem_of_app. by right. Qed.
Lemma db_covered_union d1 d2 d : db_covered d1 d -> db_covered d2 d -> db_covered (db_union d1 d2) d.
Proof. intros H1 H2 l. destruct (H1 l) as [K1 D1], (H2 l) as [K2 D2]. rewrite db_union_default, db_union_some. split; [tauto|by apply dominated_app]. Qed.
Lemma db_equiv_covered d1 d2 : db_equiv d1 d2 -> db_covered d1 d2.
Proof.
  intros He l. destruct (He l) as [K S]. split; [by rewrite K|]. etransitivity; [apply sortAndDedup_dominates|]. rewrite S. apply dominated_incl. intros x Hx%list_elem_of_In%sortAndDedup_incl. by apply list_elem_of_In.
Qed.
