(* ===== verification/MemStore.v ===== *)
(** * MemStore: the in-memory head of the metrics store

    [internal/metrics/store.go]: series and their chunks, the label index, the
    per-tenant series counts and the write generations. The lock makes each
    operation one step; a chunk pointer is an allocation number beside the chunk's
    contents, so that [DiscardSealedChunks] can compare pointers. *)
From S2P Require Import Prelude GoLib GoSort Bits Chunk Dedup Labels Postings Source.

(** ** State *)

Inductive storeErr := ErrGenerationExhausted | ErrChunk (e : chunkErr).

Record memorySeries := mkMem { ms_labels : Labels; ms_chunks : list (Z * Chunk); ms_segs : list Z }.
Record MemoryStore := mkStore {
  st_series : gmap Z memorySeries; st_tenants : gmap string Z; st_idx : MemPostings;
  st_nextGen : Z; st_alloc : Z }.

Definition NewMemoryStore : MemoryStore := mkStore ∅ ∅ NewMemPostings 1 0.

Definition labelsToIndexPairs (l : Labels) : list Pair :=
  (fun e => mkPair e.1 e.2) <$> map_to_list (labels_Map l).
Definition selectorToIndexMatchers (sel : Selector) : list Pair :=
  (if String.eqb (MetricName sel) "" then [] else [mkPair "__name__" (MetricName sel)])
  ++ ((fun m => mkPair (mt_name m) (mt_value m)) <$> Matchers sel).

(** ** Generations; [now] is what the generation clock returns *)

Definition set_nextGen (s : MemoryStore) (g : Z) : MemoryStore :=
  mkStore (st_series s) (st_tenants s) (st_idx s) g (st_alloc s).
Definition nextGenerationLocked (s : MemoryStore) (now : Z) : result storeErr (Z * MemoryStore) :=
  let gen := Z.max (st_nextGen s) now in
  if MaxGeneration <? gen then Err ErrGenerationExhausted else Ok (gen, set_nextGen s (gen + 1)).
Definition ReserveGeneration (s : MemoryStore) (now : Z) : result storeErr (Z * MemoryStore) := nextGenerationLocked s now.
Definition EnsureGenFloor (s : MemoryStore) (floor : Z) : MemoryStore :=
  if st_nextGen s <? floor then set_nextGen s floor else s.
Definition NextGeneration (s : MemoryStore) : Z := st_nextGen s.
Definition GenerationExhausted (s : MemoryStore) : bool := MaxGeneration <? st_nextGen s.

(** The generation an append takes: a fresh one for 0, else the given one. *)
Definition settle_gen (s : MemoryStore) (now gen : Z) : result storeErr (Z * MemoryStore) :=
  if gen =? 0 then nextGenerationLocked s now
  else if MaxGeneration <? gen then Err ErrGenerationExhausted
  else Ok (gen, if st_nextGen s <=? gen then set_nextGen s (gen + 1) else s).

(** ** Appending *)

Definition put_series (s : MemoryStore) (id : Z) (ms : memorySeries) : MemoryStore :=
  mkStore (<[id := ms]> (st_series s)) (st_tenants s) (st_idx s) (st_nextGen s) (st_alloc s).

(** The series of [lbls], created and indexed when absent. *)
Definition ensure_series (s : MemoryStore) (lbls : Labels) : memorySeries * MemoryStore :=
  match st_series s !! Hash lbls with
  | Some ms => (ms, s)
  | None =>
      let ms := mkMem lbls [] [] in
      (ms, mkStore (<[Hash lbls := ms]> (st_series s)) (st_tenants s)
             (postings_Add (st_idx s) (Hash lbls) (labelsToIndexPairs lbls)) (st_nextGen s) (st_alloc s))
  end.

Definition count_tenant (s : MemoryStore) (t : string) : MemoryStore :=
  mkStore (st_series s) (<[t := default 0 (st_tenants s !! t) + 1]> (st_tenants s)) (st_idx s) (st_nextGen s) (st_alloc s).

(** The series must end with an open chunk: a new one is allocated otherwise. *)
Definition needs_chunk (ms : memorySeries) : bool :=
  match last (ms_chunks ms) with None => true | Some rc => sealed rc.2 end.
Definition ensure_chunk (s : MemoryStore) (ms : memorySeries) (walSeg : Z) : memorySeries * MemoryStore :=
  if needs_chunk ms then
    (mkMem (ms_labels ms) (ms_chunks ms ++ [(st_alloc s, NewChunk)]) (ms_segs ms ++ [walSeg]),
     mkStore (st_series s) (st_tenants s) (st_idx s) (st_nextGen s) (st_alloc s + 1))
  else (ms, s).

Definition set_last {A} (f : A -> A) (l : list A) : list A := alter f (pred (length l)) l.

Definition appendInternal (s : MemoryStore) (now : Z) (lbls : Labels) (timestampMs value walSeg gen : Z)
  : result storeErr unit * MemoryStore :=
  match settle_gen s now gen with
  | Err e => (Err e, s)
  | Ok (gen, s) =>
      let '(ms, s) := ensure_series s lbls in
      let s := match ms_chunks ms with [] => count_tenant s (TenantOf lbls) | _ => s end in
      let '(ms, s) := ensure_chunk s ms walSeg in
      match last (ms_chunks ms) with
      | None => (Ok tt, put_series s (Hash lbls) ms)
      | Some rc =>
          match Append rc.2 timestampMs value gen with
          | Err e => (Err (ErrChunk e), put_series s (Hash lbls) ms)
          | Ok c' => (Ok tt, put_series s (Hash lbls)
                       (mkMem (ms_labels ms) (set_last (fun _ => (rc.1, c')) (ms_chunks ms)) (ms_segs ms)))
          end
      end
  end.
Definition store_Append (s : MemoryStore) (now : Z) (lbls : Labels) (ts val : Z) := appendInternal s now lbls ts val 0 0.
Definition AppendGen (s : MemoryStore) (now : Z) (lbls : Labels) (ts val gen : Z) := appendInternal s now lbls ts val 0 gen.
Definition AppendTracked (s : MemoryStore) (now : Z) (lbls : Labels) (ts val walSeg : Z) := appendInternal s now lbls ts val walSeg 0.
Definition AppendTrackedGen (s : MemoryStore) (now : Z) (lbls : Labels) (ts val gen walSeg : Z) := appendInternal s now lbls ts val walSeg gen.

(** ** Sealing, fences and flushing *)

(** Seal the open chunk of one series; the flag says whether one was sealed. *)
Definition seal_head (ms : memorySeries) : memorySeries * bool :=
  match last (ms_chunks ms) with
  | Some rc =>
      if (negb (sealed rc.2) && (0 <? numSamples rc.2))%bool
      then (mkMem (ms_labels ms) (set_last (fun rc => (rc.1, Seal rc.2)) (ms_chunks ms)) (ms_segs ms), true)
      else (ms, false)
  | None => (ms, false)
  end.
Definition with_series (s : MemoryStore) (m : gmap Z memorySeries) : MemoryStore :=
  mkStore m (st_tenants s) (st_idx s) (st_nextGen s) (st_alloc s).
Definition SealHeadChunks (s : MemoryStore) : Z * MemoryStore :=
  (Z.of_nat (length (filter (fun e => (seal_head e.2).2 = true) (map_to_list (st_series s)))),
   with_series s ((fun ms => (seal_head ms).1) <$> st_series s)).

Definition oldest_step (oldest seg : Z) : Z := if ((oldest <? 0) || (seg <? oldest))%bool then seg else oldest.
Definition OldestHeadSegment (s : MemoryStore) : Z :=
  fold_left (fun oldest e => fold_left oldest_step (ms_segs e.2) oldest) (map_to_list (st_series s)) (-1).
Definition SetHeadFence (s : MemoryStore) (walSeg : Z) : MemoryStore :=
  with_series s ((fun ms => mkMem (ms_labels ms) (ms_chunks ms) ((fun _ => walSeg) <$> ms_segs ms)) <$> st_series s).

Record SeriesChunks := mkSC { sc_ID : Z; sc_Labels : Labels; sc_Chunks : list (Z * Chunk) }.
Definition SealedChunksSnapshot (s : MemoryStore) : list SeriesChunks :=
  omap (fun e : Z * memorySeries =>
          match filter (fun rc => sealed rc.2 = true) (ms_chunks e.2) with
          | [] => None
          | cs => Some (mkSC e.1 (ms_labels e.2) cs)
          end) (map_to_list (st_series s)).

Definition uncount (tenants : gmap string Z) (l : Labels) : gmap string Z :=
  let t := TenantOf l in
  let v := default 0 (tenants !! t) - 1 in
  if v <=? 0 then delete t tenants else <[t := v]> tenants.

(** What is left of one series. *)
Definition keep_chunks (remove : gset Z) (ms : memorySeries) : memorySeries :=
  let kept := filter (fun e => e.1.1 ∉ remove) (combine (ms_chunks ms) (ms_segs ms)) in
  mkMem (ms_labels ms) kept.*1 kept.*2.
Definition emptied (remove : gset Z) (ms : memorySeries) : bool :=
  match ms_chunks ms, ms_chunks (keep_chunks remove ms) with _ :: _, [] => true | _, _ => false end.
Definition discard_one (remove : gset Z) (s : MemoryStore) (e : Z * memorySeries) : MemoryStore :=
  mkStore (<[e.1 := keep_chunks remove e.2]> (st_series s))
    (if emptied remove e.2 then uncount (st_tenants s) (ms_labels e.2) else st_tenants s)
    (st_idx s) (st_nextGen s) (st_alloc s).
Definition snapshot_refs (snap : list SeriesChunks) : gset Z := list_to_set (snap ≫= fun sc => (sc_Chunks sc).*1).
Definition DiscardSealedChunks (s : MemoryStore) (toDiscard : list SeriesChunks) : MemoryStore :=
  fold_left (discard_one (snapshot_refs toDiscard)) (map_to_list (st_series s)) s.

Definition EmptyHeadSeriesIDs (s : MemoryStore) : list Z :=
  omap (fun e : Z * memorySeries => match ms_chunks e.2 with [] => Some e.1 | _ => None end) (map_to_list (st_series s)).
Definition RemoveEmptySeries (s : MemoryStore) (id : Z) : bool * MemoryStore :=
  match st_series s !! id with
  | None => (false, s)
  | Some ms =>
      match ms_chunks ms with
      | _ :: _ => (false, s)
      | [] => (true, mkStore (delete id (st_series s)) (st_tenants s)
                       (postings_Delete (st_idx s) id (labelsToIndexPairs (ms_labels ms))) (st_nextGen s) (st_alloc s))
      end
  end.

(** ** Reads *)

Definition TenantSeries (s : MemoryStore) (t : string) : Z := default 0 (st_tenants s !! t).
Definition HasSeries (s : MemoryStore) (id : Z) : bool :=
  match st_series s !! id with Some ms => match ms_chunks ms with [] => false | _ => true end | None => false end.
Definition TenantSeriesCounts (s : MemoryStore) : gmap string Z := st_tenants s.
Definition Cardinality (s : MemoryStore) : nat * nat * nat :=
  (SeriesCount (st_idx s), LabelNameCount (st_idx s), LabelPairCount (st_idx s)).
Definition ChunkCount (s : MemoryStore) (id : Z) : nat :=
  match st_series s !! id with Some ms => length (ms_chunks ms) | None => 0%nat end.
Definition SealedChunkCount (s : MemoryStore) : nat :=
  sum_list ((fun e => length (filter (fun rc => sealed rc.2 = true) (ms_chunks e.2))) <$> map_to_list (st_series s)).

Record MatchedSeries := mkMatched { m_id : Z; m_Labels : Labels }.
Definition SelectSeries (s : MemoryStore) (sel : Selector) : list MatchedSeries :=
  omap (fun id => (fun ms => mkMatched id (ms_labels ms)) <$> st_series s !! id)
    (postings_Select (st_idx s) (selectorToIndexMatchers sel)).

(** [for it.Next()] visits the chunk's samples. *)
Definition instant_step (tMs : Z) (best : option sample) (x : sample) : option sample :=
  if tMs <? s_ts x then best
  else match best with
       | None => Some x
       | Some b =>
           if ((s_ts b <? s_ts x) || ((s_ts x =? s_ts b) && Outranks (s_gen x) (s_val x) (s_gen b) (s_val b)))%bool
           then Some x else Some b
       end.
Definition instant_chunk (tMs : Z) (best : option sample) (rc : Z * Chunk) : option sample :=
  if ((numSamples rc.2 =? 0) || (tMs <? minTs rc.2))%bool then best
  else fold_left (instant_step tMs) (samples_of rc.2) best.
Definition QueryInstant (s : MemoryStore) (id tMs : Z) : option sample :=
  match st_series s !! id with None => None | Some ms => fold_left (instant_chunk tMs) (ms_chunks ms) None end.

Definition range_chunk (startMs endMs : Z) (result : list sample) (rc : Z * Chunk) : list sample :=
  if ((numSamples rc.2 =? 0) || (endMs <? minTs rc.2) || (maxTs rc.2 <? startMs))%bool then result
  else fold_left (fun r x => if ((startMs <=? s_ts x) && (s_ts x <=? endMs))%bool then r ++ [x] else r) (samples_of rc.2) result.
Definition QueryRange (s : MemoryStore) (id startMs endMs : Z) : option (list sample) :=
  match st_series s !! id with
  | None => None
  | Some ms => Some (sortAndDedup (fold_left (range_chunk startMs endMs) (ms_chunks ms) []))
  end.

Definition select_step (p : SelectParams) (wantAnchor : bool) (acc : list sample * option sample) (x : sample)
  : list sample * option sample :=
  if ((MinT p <=? s_ts x) && (s_ts x <=? MaxT p))%bool then (acc.1 ++ [x], acc.2)
  else if (wantAnchor && (s_ts x <? MinT p))%bool then (acc.1, laterSample acc.2 (Some x))
  else acc.
Definition select_chunk (p : SelectParams) (wantAnchor : bool) (acc : list sample * option sample) (rc : Z * Chunk)
  : list sample * option sample :=
  if numSamples rc.2 =? 0 then acc
  else if ((MaxT p <? minTs rc.2) || (negb wantAnchor && (maxTs rc.2 <? MinT p)))%bool then acc
  else fold_left (select_step p wantAnchor) (samples_of rc.2) acc.
Definition selectFromChunks (l : Labels) (chunks : list (Z * Chunk)) (p : SelectParams) : option SeriesData :=
  if (SeriesOnly p && AnyTime p)%bool then Some (mkSeries l None [])
  else if MaxT p <? MinT p then None
  else
    let wantAnchor := (Anchor p && (MinInt64 <? MinT p))%bool in
    let '(samples, anchor) := fold_left (select_chunk p wantAnchor) chunks ([], None) in
    if SeriesOnly p then match samples with [] => None | _ => Some (mkSeries l None []) end
    else match samples, anchor with
         | [], None => None
         | _, _ => Some (mkSeries l anchor (sortAndDedup samples))
         end.

(** [ctxErr i] is what [ctx.Err()] returns at the [i]-th check. *)
Fixpoint select_ids (s : MemoryStore) (p : SelectParams) (ctxErr : nat -> option Z) (i : nat) (ids : list Z)
  : result srcErr (list SeriesData) :=
  match ids with
  | [] => Ok []
  | id :: rest =>
      match ctxErr i with
      | Some e => Err (ErrStore e)
      | None =>
          out ← select_ids s p ctxErr (S i) rest;
          Ok match st_series s !! id with
             | None => out
             | Some ms => match selectFromChunks (ms_labels ms) (ms_chunks ms) p with Some sd => sd :: out | None => out end
             end
      end
  end.
Definition store_Select (s : MemoryStore) (ctxErr : nat -> option Z) (p : SelectParams) : result srcErr (list SeriesData) :=
  _ ← Validate p;
  select_ids s p ctxErr 0 (postings_Select (st_idx s) (selectorToIndexMatchers (p_sel p))).
Definition head_source (s : MemoryStore) (ctxErr : nat -> option Z) : Source := mkSource
  (fun _ p => store_Select s ctxErr p)
  (fun _ => Ok (idx_LabelNames (st_idx s)))
  (fun _ name => Ok (idx_LabelValues (st_idx s) name)).

#[local] Arguments samples_of : simpl never.
#[local] Arguments Append : simpl never.

(** ** What a series holds, and the invariant of the store *)

Definition ws_of (ms : memorySeries) : list sample := ms_chunks ms ≫= fun rc => samples_of rc.2.
Definition store_db (s : MemoryStore) : database := fun l =>
  match st_series s !! Hash l with
  | Some ms => if decide (ms_labels ms = l) then Some (ws_of ms) else None
  | None => None
  end.

Record series_wf (s : MemoryStore) (id : Z) (ms : memorySeries) : Prop := {
  sw_id : Hash (ms_labels ms) = id;
  sw_labels : labels_wf (ms_labels ms);
  sw_chunks : Forall (fun rc => chunk_ok rc.2 /\ rc.1 < st_alloc s) (ms_chunks ms);
  sw_segs : length (ms_segs ms) = length (ms_chunks ms);
  sw_sealed : forall pre rc, ms_chunks ms = pre ++ [rc] -> Forall (fun rc => sealed rc.2 = true) pre;
  sw_refs : NoDup (ms_chunks ms).*1;
  sw_gens : Forall (fun x => s_gen x < st_nextGen s) (ws_of ms) }.

(** Active series of a tenant: those whose head holds chunks. *)
Definition active (t : string) (ms : memorySeries) : Prop := ms_chunks ms <> [] /\ TenantOf (ms_labels ms) = t.
#[export] Instance active_dec t ms : Decision (active t ms).
Proof. unfold active. destruct (ms_chunks ms); apply _. Defined.
Definition active_count (m : gmap Z memorySeries) (t : string) : Z := Z.of_nat (size (filter (fun e => active t e.2) m)).

(** The count map holds the counts and no zero entry. *)
Definition counts_rep (tenants : gmap string Z) (f : string -> Z) : Prop :=
  forall t, tenants !! t = if f t =? 0 then None else Some (f t).

Record store_wf (s : MemoryStore) : Prop := {
  st_series_wf : forall id ms, st_series s !! id = Some ms -> series_wf s id ms;
  st_refs : forall id1 ms1 id2 ms2 r, st_series s !! id1 = Some ms1 -> st_series s !! id2 = Some ms2 ->
    r ∈ (ms_chunks ms1).*1 -> r ∈ (ms_chunks ms2).*1 -> id1 = id2;
  st_index : postings_rep (st_idx s) ((fun ms => labelsToIndexPairs (ms_labels ms)) <$> st_series s);
  st_counts : counts_rep (st_tenants s) (active_count (st_series s));
  st_gen1 : 1 <= st_nextGen s }.

Lemma store_db_some s l ws : store_wf s -> store_db s l = Some ws <->
  exists ms, st_series s !! Hash l = Some ms /\ ms_labels ms = l /\ ws_of ms = ws.
Proof.
  intros _. unfold store_db. destruct (st_series s !! Hash l) as [ms|]; [|naive_solver].
  destruct (decide (ms_labels ms = l)); naive_solver.
Qed.

Lemma store_db_series s id ms : store_wf s -> st_series s !! id = Some ms -> store_db s (ms_labels ms) = Some (ws_of ms).
Proof.
  intros Hs E. apply store_db_some; [done|]. exists ms. by rewrite (sw_id _ _ _ (st_series_wf s Hs _ _ E)).
Qed.

(** ** Reads *)

Lemma filter_bind {A B} (P : B -> Prop) `{!forall x, Decision (P x)} (f : A -> list B) l :
  filter P (l ≫= f) = l ≫= (fun x => filter P (f x)).
Proof. induction l as [|x l IH]; cbn; [done|]. by rewrite filter_app, IH. Qed.

Lemma filter_none {A} (P : A -> Prop) `{!forall x, Decision (P x)} l : Forall (fun x => ~ P x) l -> filter P l = [].
Proof. induction 1; [done|]. by rewrite filter_cons_False. Qed.

Lemma range_chunk_spec startMs endMs r rc : chunk_sound rc.2 ->
  range_chunk startMs endMs r rc = r ++ filter (fun x => startMs <= s_ts x <= endMs) (samples_of rc.2).
Proof.
  intros Hc. unfold range_chunk. destruct ((numSamples rc.2 =? 0) || _ || _)%bool eqn:E.
  - rewrite filter_none, app_nil_r; [done|]. apply Forall_forall. intros x Hx.
    destruct (Z.eqb_spec (numSamples rc.2) 0) as [E0|_]; [rewrite (chunk_empty _ Hc E0) in Hx; by apply not_elem_of_nil in Hx|].
    pose proof (chunk_bounds _ _ Hc Hx). cbn in E. zbool; try done; lia.
  - clear E. generalize (samples_of rc.2). intros l. revert r. induction l as [|x l IH]; intros r; cbn [fold_left]; [by rewrite app_nil_r|].
    rewrite IH, filter_cons. destruct (decide _) as [[]|Hn].
    + rewrite (proj2 (Z.leb_le _ _)), (proj2 (Z.leb_le _ _)) by done. cbn. by rewrite <- app_assoc.
    + destruct (_ <=? _)%Z eqn:E1; [|done]. destruct (s_ts x <=? endMs) eqn:E2; [|done]. exfalso. lia.
Qed.

Lemma QueryRange_spec s id ms startMs endMs : store_wf s -> st_series s !! id = Some ms ->
  QueryRange s id startMs endMs = Some (filter (fun x => startMs <= s_ts x <= endMs) (sortAndDedup (ws_of ms))).
Proof.
  intros Hs E. unfold QueryRange. rewrite E. do 2 f_equal.
  rewrite <- (sortAndDedup_filter (fun x => startMs <= s_ts x <= endMs)) by (cbn; intros; lia). f_equal.
  unfold ws_of. rewrite filter_bind. pose proof (sw_chunks _ _ _ (st_series_wf s Hs _ _ E)) as HF. revert HF.
  change (ms_chunks ms ≫= ?f) with ([] ++ (ms_chunks ms ≫= f)). generalize (@nil sample).
  induction (ms_chunks ms) as [|rc l IH]; intros r HF; cbn; [by rewrite app_nil_r|].
  apply Forall_cons in HF as [[Hc%chunk_ok_sound _] HF]. rewrite range_chunk_spec, IH by done. by rewrite <- app_assoc.
Qed.

Lemma instant_step_later tMs best x : s_ts x <= tMs -> instant_step tMs best x = laterSample best (Some x).
Proof. intros H. unfold instant_step. rewrite (proj2 (Z.ltb_ge _ _)) by lia. by destruct best. Qed.

Lemma instant_fold tMs (P := fun x : sample => s_ts x <= tMs) l ws :
  fold_left (instant_step tMs) l (last (sortAndDedup (filter P ws))) = last (sortAndDedup (filter P (ws ++ l))).
Proof.
  revert ws. induction l as [|x l IH]; intros ws; cbn [fold_left]; [by rewrite app_nil_r|].
  rewrite (cons_middle x), app_assoc, <- IH. f_equal. rewrite filter_app.
  destruct (decide (P x)) as [Hx|Hx].
  - rewrite instant_step_later by done. rewrite filter_cons_True by done. by rewrite <- laterSample_last.
  - unfold instant_step. rewrite (proj2 (Z.ltb_lt _ _)) by (unfold P in Hx; lia). rewrite filter_cons_False by done.
    by rewrite app_nil_r.
Qed.

Lemma instant_chunks tMs (P := fun x : sample => s_ts x <= tMs) (l : list (Z * Chunk)) ws : Forall (fun rc => chunk_sound rc.2) l ->
  fold_left (instant_chunk tMs) l (last (sortAndDedup (filter P ws)))
  = last (sortAndDedup (filter P (ws ++ (l ≫= fun rc => samples_of rc.2)))).
Proof.
  revert ws. induction l as [|rc l IH]; intros ws HF; cbn; [by rewrite app_nil_r|]. apply Forall_cons in HF as [Hc HF].
  rewrite app_assoc, <- IH by done. f_equal. unfold instant_chunk. destruct (_ || _)%bool eqn:Eb; [|apply instant_fold].
  rewrite filter_app, (filter_none P (samples_of rc.2)), app_nil_r; [done|]. apply Forall_forall. intros x Hx HP. unfold P in HP.
  destruct (Z.eqb_spec (numSamples rc.2) 0) as [E0|_]; [rewrite (chunk_empty _ Hc E0) in Hx; by apply not_elem_of_nil in Hx|].
  pose proof (chunk_bounds _ _ Hc Hx). cbn in Eb. zbool; try done; lia.
Qed.

Lemma series_chunks_ok s id ms : store_wf s -> st_series s !! id = Some ms -> Forall (fun rc => chunk_sound rc.2) (ms_chunks ms).
Proof. intros Hs E. eapply Forall_impl; [exact (sw_chunks _ _ _ (st_series_wf s Hs _ _ E))|]. intros rc [? _]. by apply chunk_ok_sound. Qed.

Lemma QueryInstant_spec s id ms tMs : store_wf s -> st_series s !! id = Some ms ->
  QueryInstant s id tMs = last (filter (fun x => s_ts x <= tMs) (sortAndDedup (ws_of ms))).
Proof.
  intros Hs E. unfold QueryInstant. rewrite E.
  rewrite <- (sortAndDedup_filter (fun x => s_ts x <= tMs)) by (cbn; intros; lia).
  pose proof (instant_chunks tMs (ms_chunks ms) [] (series_chunks_ok _ _ _ Hs E)) as H. exact H.
Qed.

(** *** Select *)

Lemma select_fold p (want : bool) l acc :
  fold_left (select_step p want) l acc
  = (acc.1 ++ filter (fun x => MinT p <= s_ts x <= MaxT p) l,
     if want then fold_left (fun a x => laterSample a (Some x)) (filter (fun x => s_ts x < MinT p /\ ~ MinT p <= s_ts x <= MaxT p) l) acc.2 else acc.2).
Proof.
  revert acc. induction l as [|x l IH]; intros [ss a]; cbn [fold_left fst snd]; [rewrite app_nil_r; by destruct want|].
  rewrite IH. unfold select_step. rewrite !filter_cons. cbn [fst snd].
  destruct (decide (MinT p <= s_ts x <= MaxT p)) as [[]|Hn].
  - rewrite (proj2 (Z.leb_le _ _)), (proj2 (Z.leb_le _ _)) by done. cbn [andb fst snd]. rewrite <- app_assoc.
    by rewrite decide_False by lia.
  - assert (((MinT p <=? s_ts x) && (s_ts x <=? MaxT p))%bool = false) as -> by (apply andb_false_iff; zbool; auto; lia).
    destruct want; cbn [andb]; [|done]. destruct (Z.ltb_spec (s_ts x) (MinT p)); cbn [fst snd].
    + by rewrite decide_True by done.
    + by rewrite decide_False by lia.
Qed.

Lemma later_fold l a ws : a = last (sortAndDedup ws) ->
  fold_left (fun a x => laterSample a (Some x)) l a = last (sortAndDedup (ws ++ l)).
Proof.
  revert a ws. induction l as [|x l IH]; intros a ws ->; cbn [fold_left]; [by rewrite app_nil_r|].
  rewrite (cons_middle x), app_assoc. apply IH. by rewrite <- laterSample_last.
Qed.

Lemma select_chunks p (want : bool) (l : list (Z * Chunk)) ss ws : MinT p <= MaxT p -> Forall (fun rc => chunk_sound rc.2) l ->
  let all := l ≫= fun rc => samples_of rc.2 in
  fold_left (select_chunk p want) l (ss, if want then last (sortAndDedup ws) else None)
  = (ss ++ filter (fun x => MinT p <= s_ts x <= MaxT p) all,
     if want then last (sortAndDedup (ws ++ filter (fun x => s_ts x < MinT p) all)) else None).
Proof.
  intros Hle. revert ss ws. induction l as [|rc l IH]; intros ss ws HF; cbn [fold_left mbind list_bind].
  { rewrite !filter_nil, !app_nil_r. done. }
  apply Forall_cons in HF as [Hc HF]. cbn zeta in IH.
  set (inr := filter (fun x => MinT p <= s_ts x <= MaxT p) (samples_of rc.2)).
  set (bef := filter (fun x => s_ts x < MinT p) (samples_of rc.2)).
  assert (Hstep : select_chunk p want (ss, if want then last (sortAndDedup ws) else None) rc
    = (ss ++ inr, if want then last (sortAndDedup (ws ++ bef)) else None)).
  { unfold select_chunk. destruct (Z.eqb_spec (numSamples rc.2) 0) as [E0|_].
    { unfold inr, bef. rewrite (chunk_empty _ Hc E0), !filter_nil, !app_nil_r. done. }
    assert (Hb : forall x, x ∈ samples_of rc.2 -> minTs rc.2 <= s_ts x <= maxTs rc.2) by (intros; by apply chunk_bounds).
    destruct (_ || _)%bool eqn:Eb.
    - assert (inr = []) as ->.
      { apply filter_none, Forall_forall. intros x Hx%Hb. destruct want; cbn in Eb; zbool; try done; lia. }
      rewrite app_nil_r. destruct want; [|done]. assert (bef = []) as ->; [|by rewrite app_nil_r].
      apply filter_none, Forall_forall. intros x Hx%Hb. cbn in Eb. zbool; try done; lia.
    - rewrite select_fold. cbn [fst snd]. f_equal. destruct want; [|done].
      rewrite (later_fold _ _ ws) by done. do 3 f_equal. apply list_filter_iff. intros x. lia. }
  rewrite Hstep, IH by done. rewrite !filter_app. fold inr bef. rewrite <- !app_assoc. done.
Qed.

Lemma selectFromChunks_expected l chunks p : Forall (fun rc => chunk_sound rc.2) chunks ->
  selectFromChunks l chunks p = expected p l (chunks ≫= fun rc => samples_of rc.2).
Proof.
  intros Hc. unfold selectFromChunks, expected, to_answer. destruct (SeriesOnly p && AnyTime p)%bool; [done|].
  destruct (Z.ltb_spec (MaxT p) (MinT p)) as [|Hle]; [done|]. set (want := (Anchor p && (MinInt64 <? MinT p))%bool).
  pose proof (select_chunks p want chunks [] [] Hle Hc) as H. cbn zeta in H.
  change (last (sortAndDedup [])) with (@None sample) in H. replace (if want then None else None) with (@None sample) in H by by destruct want.
  rewrite H. cbn [app]. unfold core. cbn [fst]. fold want. set (ws := chunks ≫= _).
  rewrite <- (sortAndDedup_filter (fun x => s_ts x < MinT p)) by (cbn; intros; lia).
  rewrite <- (sortAndDedup_filter (fun x => MinT p <= s_ts x <= MaxT p)) by (cbn; intros; lia).
  set (inr := filter (fun x => MinT p <= s_ts x <= MaxT p) ws). set (anc := if want then _ else None).
  destruct inr as [|x ls] eqn:El; [by destruct (SeriesOnly p), anc|].
  destruct (sortAndDedup (x :: ls)) eqn:Es; [by apply sortAndDedup_nonempty in Es|]. done.
Qed.
Lemma selectFromChunks_spec s id ms p : store_wf s -> st_series s !! id = Some ms ->
  selectFromChunks (ms_labels ms) (ms_chunks ms) p = expected p (ms_labels ms) (ws_of ms).
Proof. intros Hs E. by eapply selectFromChunks_expected, series_chunks_ok. Qed.

(** *** The index *)

Lemma elem_of_index_pairs l n v : labels_wf l -> mkPair n v ∈ labelsToIndexPairs l <-> Get l n = Some v.
Proof.
  intros Hl. rewrite Get_Map by done. unfold labelsToIndexPairs. rewrite list_elem_of_fmap. split.
  - intros ([n' v'] & [= -> ->] & Hin%elem_of_map_to_list). done.
  - intros Hin%elem_of_map_to_list. by exists (n, v).
Qed.

Lemma index_matches sel l : labels_wf l ->
  Forall (fun m => m ∈ labelsToIndexPairs l) (selectorToIndexMatchers sel) <-> matches sel l.
Proof.
  intros Hl. unfold selectorToIndexMatchers, matches. rewrite Forall_app, Forall_fmap.
  apply Morphisms_Prop.and_iff_morphism.
  - destruct (String.eqb_spec (MetricName sel) ""); [split; [done|constructor]|].
    rewrite Forall_singleton, elem_of_index_pairs by done. tauto.
  - split; (intros HF; eapply Forall_impl; [exact HF|]); intros m; cbn; by rewrite elem_of_index_pairs.
Qed.

Lemma Select_ids s sel id : store_wf s ->
  id ∈ postings_Select (st_idx s) (selectorToIndexMatchers sel)
  <-> exists ms, st_series s !! id = Some ms /\ matches sel (ms_labels ms).
Proof.
  intros Hs. rewrite (proj2 (Select_rep _ _ _ (st_index s Hs))). setoid_rewrite lookup_fmap_Some. split.
  - intros (ls & (ms & <- & E) & HF). exists ms. split; [done|]. by apply index_matches; [apply (st_series_wf s Hs _ _ E)|].
  - intros (ms & E & Hm). eexists. split; [by exists ms|]. by apply index_matches; [apply (st_series_wf s Hs _ _ E)|].
Qed.

Definition select_one (s : MemoryStore) (p : SelectParams) (id : Z) : option SeriesData :=
  st_series s !! id ≫= fun ms => selectFromChunks (ms_labels ms) (ms_chunks ms) p.

Lemma select_one_eq s p id : select_one s p id =
  match st_series s !! id with Some ms => selectFromChunks (ms_labels ms) (ms_chunks ms) p | None => None end.
Proof. unfold select_one. by destruct (st_series s !! id). Qed.

Lemma select_ids_ok s p err i ids : (forall j, err j = None) -> select_ids s p err i ids = Ok (omap (select_one s p) ids).
Proof.
  intros He. revert i. induction ids as [|id ids IH]; intros i; [done|]. cbn [select_ids omap list_omap]. rewrite He, IH. cbn.
  rewrite select_one_eq. by destruct (st_series s !! id).
Qed.

(** A cancelled read reports the cancellation; no read returns part of an answer. *)
Lemma select_ids_all_or_error s p err i ids :
  select_ids s p err i ids = Ok (omap (select_one s p) ids) \/
  exists j e, err j = Some e /\ (i <= j < i + length ids)%nat /\ select_ids s p err i ids = Err (ErrStore e).
Proof.
  revert i. induction ids as [|id ids IH]; intros i; [by left|]. cbn [select_ids omap list_omap].
  destruct (err i) as [e|] eqn:E; [right; exists i, e; cbn; split_and!; [done|lia|lia|done]|].
  destruct (IH (S i)) as [-> |(j & e & Hj & Hr & ->)]; [left|right; exists j, e; cbn; split_and!; [done|lia|lia|done]].
  cbn. rewrite select_one_eq. by destruct (st_series s !! id).
Qed.

Lemma select_one_spec s p id sd : store_wf s -> select_one s p id = Some sd <->
  exists ms, st_series s !! id = Some ms /\ expected p (ms_labels ms) (ws_of ms) = Some sd.
Proof.
  intros Hs. unfold select_one. destruct (st_series s !! id) as [ms|] eqn:E; cbn; [|naive_solver].
  rewrite (selectFromChunks_spec s id) by done. naive_solver.
Qed.

Lemma Select_answers s p : store_wf s ->
  answers (store_db s) p (omap (select_one s p) (postings_Select (st_idx s) (selectorToIndexMatchers (p_sel p)))).
Proof.
  intros Hs. assert (Hid : forall id sd, select_one s p id = Some sd -> Hash (sd_labels sd) = id /\
    exists ms, st_series s !! id = Some ms /\ sd_labels sd = ms_labels ms /\ expected p (ms_labels ms) (ws_of ms) = Some sd).
  { intros id sd (ms & E & He)%select_one_spec; [|done]. pose proof (expected_labels _ _ _ _ He) as Hl. rewrite Hl.
    split; [apply (st_series_wf s Hs _ _ E)|]. by exists ms. }
  split.
  - pose proof (strict_NoDup _ (proj1 (Select_rep _ _ (selectorToIndexMatchers (p_sel p)) (st_index s Hs)))) as Hnd.
    induction Hnd as [|id ids Hn Hnd IH]; [constructor|]. cbn [omap list_omap].
    destruct (select_one s p id) as [sd|] eqn:E; [|done]. rewrite fmap_cons. constructor; [|done].
    intros (sd' & Hl & (id' & Hin & E')%list_elem_of_omap)%list_elem_of_fmap. apply Hn.
    apply Hid in E as [<- _]. apply Hid in E' as [<- _]. by rewrite Hl.
  - intros sd. rewrite list_elem_of_omap. split.
    + intros (id & (ms & E & Hm)%Select_ids & H); [|done]. apply Hid in H as (_ & ms' & E' & Hl & He). simplify_eq.
      exists (ws_of ms). rewrite Hl. split; [by eapply store_db_series|]. split; done.
    + intros (ws & (ms & E & Hl & <-)%store_db_some & Hm & He); [|done]. exists (Hash (sd_labels sd)). split.
      * apply Select_ids; [done|]. exists ms. by rewrite Hl.
      * apply select_one_spec; [done|]. exists ms. by rewrite Hl.
Qed.

(** The head, read without interruption, answers for the writes it holds. *)
#[export] Instance head_implements s err ctx : store_wf s -> (forall j, err j = None) ->
  Implements (head_source s err) ctx (store_db s).
Proof.
  intros Hs He. split; cbn [head_source src_Select src_LabelNames src_LabelValues].
  - intros p e Hv. unfold store_Select. by rewrite Hv.
  - intros p Hv. unfold store_Select. rewrite Hv. cbn [mbind result_bind]. rewrite select_ids_ok by done. eexists. split; [reflexivity|].
    by apply Select_answers.
  - destruct (LabelNames_rep _ _ (st_index s Hs)) as [H1 H2]. eexists. split; [reflexivity|]. split; [done|]. intros n. rewrite H2.
    setoid_rewrite lookup_fmap_Some. split.
    + intros (id & ls & v & (ms & <- & E) & Hin). exists (ms_labels ms), (ws_of ms). split; [by eapply store_db_series|].
      exists v. by apply elem_of_index_pairs; [apply (st_series_wf s Hs _ _ E)|].
    + intros (l & ws & (ms & E & <- & _)%store_db_some & [v Hv]); [|done]. exists (Hash (ms_labels ms)), (labelsToIndexPairs (ms_labels ms)), v.
      split; [by exists ms|]. by apply elem_of_index_pairs; [apply (st_series_wf s Hs _ _ E)|].
  - intros name. destruct (LabelValues_rep _ _ name (st_index s Hs)) as [H1 H2]. eexists. split; [reflexivity|]. split; [done|].
    intros v. rewrite H2. setoid_rewrite lookup_fmap_Some. split.
    + intros (id & ls & (ms & <- & E) & Hin). exists (ms_labels ms), (ws_of ms). split; [by eapply store_db_series|].
      by apply elem_of_index_pairs; [apply (st_series_wf s Hs _ _ E)|].
    + intros (l & ws & (ms & E & <- & _)%store_db_some & Hv); [|done]. exists (Hash (ms_labels ms)), (labelsToIndexPairs (ms_labels ms)).
      split; [by exists ms|]. by apply elem_of_index_pairs; [apply (st_series_wf s Hs _ _ E)|].
Qed.

(** ** Well-formedness of the operations *)

Lemma series_wf_mono s s' id ms : st_alloc s <= st_alloc s' -> st_nextGen s <= st_nextGen s' -> series_wf s id ms -> series_wf s' id ms.
Proof.
  intros Ha Hg []. split; try done.
  - eapply Forall_impl; [exact sw_chunks0|]. cbn. intros rc [? ?]. split; [done|lia].
  - eapply Forall_impl; [exact sw_gens0|]. cbn. lia.
Qed.

Lemma set_nextGen_wf s g : store_wf s -> st_nextGen s <= g -> store_wf (set_nextGen s g).
Proof.
  intros Hs Hg. destruct Hs as [H1 H2 H3 H4 H5]. split; cbn [set_nextGen st_series st_idx st_tenants st_nextGen]; try done.
  - intros id ms E. eapply series_wf_mono; [| |by apply H1]; cbn; lia.
  - lia.
Qed.

Lemma settle_wf s now gen g s' : store_wf s -> settle_gen s now gen = Ok (g, s') ->
  store_wf s' /\ st_series s' = st_series s /\ st_alloc s' = st_alloc s /\ st_nextGen s <= st_nextGen s' /\ g < st_nextGen s' /\ g <= MaxGeneration /\
  (gen = 0 -> g = Z.max (st_nextGen s) now) /\ (gen <> 0 -> g = gen).
Proof.
  intros Hs. unfold settle_gen, nextGenerationLocked. pose proof (st_gen1 s Hs).
  destruct (Z.eqb_spec gen 0) as [->|Hne].
  - destruct (Z.ltb_spec MaxGeneration (Z.max (st_nextGen s) now)); [done|]. intros [= <- <-].
    split; [apply set_nextGen_wf; [done|lia]|]. cbn. split_and!; lia || done.
  - destruct (Z.ltb_spec MaxGeneration gen); [done|]. destruct (Z.leb_spec (st_nextGen s) gen); intros [= <- <-].
    + split; [apply set_nextGen_wf; [done|lia]|]. cbn. split_and!; lia || done.
    + split; [done|]. split_and!; lia || done.
Qed.

(** *** Counting active series *)

Definition active1 (t : string) (ms : memorySeries) : Z := if decide (active t ms) then 1 else 0.

Lemma active_count_split m id ms t : m !! id = Some ms -> active_count m t = active_count (delete id m) t + active1 t ms.
Proof.
  intros E. rewrite <- (insert_delete_id m id ms E) at 1. unfold active_count, active1. rewrite map_filter_insert. cbn [snd].
  destruct (decide (active t ms)).
  - rewrite map_size_insert_None; [lia|]. apply map_lookup_filter_None. left. apply lookup_delete_eq.
  - rewrite delete_delete_eq. lia.
Qed.

Lemma active_count_insert m id ms ms' t : m !! id = Some ms ->
  active_count (<[id := ms']> m) t = active_count m t - active1 t ms + active1 t ms'.
Proof.
  intros E. rewrite (active_count_split m id ms) by done.
  rewrite (active_count_split (<[id := ms']> m) id ms') by apply lookup_insert_eq. rewrite delete_insert_eq. lia.
Qed.

Lemma active1_empty t ms : ms_chunks ms = [] -> active1 t ms = 0.
Proof. intros E. unfold active1, active. rewrite decide_False; [done|]. by intros []. Qed.
Lemma active1_full t ms : ms_chunks ms <> [] -> active1 t ms = if decide (TenantOf (ms_labels ms) = t) then 1 else 0.
Proof. intros E. unfold active1, active. repeat case_decide; tauto. Qed.

Lemma active_count_nonneg m t : 0 <= active_count m t.
Proof. unfold active_count. lia. Qed.

Lemma counts_rep_ext m f g : (forall t, f t = g t) -> counts_rep m f -> counts_rep m g.
Proof. intros Hfg Hm t. rewrite <- Hfg. apply Hm. Qed.

Lemma counts_rep_default m f t : counts_rep m f -> default 0 (m !! t) = f t.
Proof. intros Hm. rewrite Hm. by destruct (Z.eqb_spec (f t) 0). Qed.

Lemma counts_rep_incr m f t : counts_rep m f -> (forall t, 0 <= f t) ->
  counts_rep (<[t := default 0 (m !! t) + 1]> m) (fun t' => f t' + if decide (t = t') then 1 else 0).
Proof.
  intros Hm Hf t'. rewrite (counts_rep_default _ f) by done. specialize (Hf t). destruct (decide (t = t')) as [<-|Hne].
  - rewrite lookup_insert_eq. by destruct (Z.eqb_spec (f t + 1) 0); [lia|].
  - by rewrite lookup_insert_ne, Z.add_0_r.
Qed.

Lemma counts_rep_uncount m f l : counts_rep m f -> 0 < f (TenantOf l) ->
  counts_rep (uncount m l) (fun t => f t - if decide (TenantOf l = t) then 1 else 0).
Proof.
  intros Hm Hf t. unfold uncount. rewrite (counts_rep_default _ f) by done. destruct (decide (TenantOf l = t)) as [<-|Hne].
  - destruct (Z.leb_spec (f (TenantOf l) - 1) 0); [rewrite lookup_delete_eq|rewrite lookup_insert_eq]; zbool; done || lia.
  - rewrite Z.sub_0_r. destruct (_ <=? 0); [by rewrite lookup_delete_ne|by rewrite lookup_insert_ne].
Qed.

(** *** Replacing one series *)

Lemma put_wf s s' id ms ms' : store_wf s -> st_series s !! id = Some ms -> ms_labels ms' = ms_labels ms ->
  st_series s' = <[id := ms']> (st_series s) -> st_idx s' = st_idx s -> st_alloc s <= st_alloc s' -> st_nextGen s <= st_nextGen s' ->
  counts_rep (st_tenants s') (active_count (<[id := ms']> (st_series s))) ->
  (forall r, r ∈ (ms_chunks ms').*1 -> r ∈ (ms_chunks ms).*1 \/ st_alloc s <= r) ->
  series_wf s' id ms' -> store_wf s'.
Proof.
  intros Hs E Hl Hser Hidx Ha Hg Hc Hr Hwf. rewrite <- Hser in Hc.
  assert (Hfresh : forall id1 ms1 r, st_series s !! id1 = Some ms1 -> r ∈ (ms_chunks ms1).*1 -> r < st_alloc s).
  { intros id1 ms1 r E1 (rc & -> & Hrc)%list_elem_of_fmap. pose proof (sw_chunks _ _ _ (st_series_wf s Hs _ _ E1)) as HF.
    rewrite Forall_forall in HF. by apply HF in Hrc as [_ ?]. }
  split; [| | |done|pose proof (st_gen1 s Hs); lia].
  - intros i m1. rewrite Hser. destruct (decide (i = id)) as [->|Hne]; [rewrite lookup_insert_eq; by intros [= <-]|].
    rewrite lookup_insert_ne by done. intros E1. eapply series_wf_mono; [exact Ha|exact Hg|]. by apply (st_series_wf s Hs).
  - intros i1 m1 i2 m2 r. rewrite Hser. destruct (decide (i1 = id)) as [->|H1], (decide (i2 = id)) as [->|H2];
      rewrite ?lookup_insert_eq, ?lookup_insert_ne by done; intros E1 E2 R1 R2; simplify_eq; try done.
    + destruct (Hr r R1) as [R1'|R1']; [by eapply (st_refs s Hs)|]. pose proof (Hfresh _ _ _ E2 R2). lia.
    + destruct (Hr r R2) as [R2'|R2']; [by eapply (st_refs s Hs)|]. pose proof (Hfresh _ _ _ E1 R1). lia.
    + by eapply (st_refs s Hs).
  - rewrite Hidx, Hser, fmap_insert, Hl, insert_id; [apply (st_index s Hs)|]. by rewrite lookup_fmap, E.
Qed.

Lemma ensure_series_wf s lbls ms s' : store_wf s -> labels_wf lbls ->
  (forall ms, st_series s !! Hash lbls = Some ms -> ms_labels ms = lbls) ->
  ensure_series s lbls = (ms, s') ->
  store_wf s' /\ st_series s' !! Hash lbls = Some ms /\ ms_labels ms = lbls /\
  st_nextGen s' = st_nextGen s /\ st_alloc s' = st_alloc s /\
  (forall id, id <> Hash lbls -> st_series s' !! id = st_series s !! id) /\
  ws_of ms = default [] (store_db s lbls) /\ ms_chunks ms = default [] (ms_chunks <$> st_series s !! Hash lbls).
Proof.
  intros Hs Hl Hnc. unfold ensure_series, store_db. destruct (st_series s !! Hash lbls) as [m|] eqn:E; intros [= <- <-].
  { rewrite decide_True by (by apply Hnc). split_and!; try done. by apply Hnc. }
  cbn [st_series st_nextGen st_alloc ms_labels]. rewrite lookup_insert_eq.
  split; [|split_and!; try done; intros id Hid; by rewrite lookup_insert_ne].
  split; cbn [st_series st_idx st_tenants st_nextGen]; [| | | |apply (st_gen1 s Hs)].
  - intros i m1. destruct (decide (i = Hash lbls)) as [->|Hne].
    + rewrite lookup_insert_eq. intros [= <-]. split; cbn; try done; try constructor. by intros [] ? [=].
    + rewrite lookup_insert_ne by done. intros E1. eapply series_wf_mono; [| |by apply (st_series_wf s Hs)]; cbn; lia.
  - intros i1 m1 i2 m2 r. destruct (decide (i1 = Hash lbls)) as [->|H1], (decide (i2 = Hash lbls)) as [->|H2];
      rewrite ?lookup_insert_eq, ?lookup_insert_ne by done; intros E1 E2 R1 R2; simplify_eq; try done;
      [by apply not_elem_of_nil in R1|by apply not_elem_of_nil in R2|by eapply (st_refs s Hs)].
  - rewrite fmap_insert. apply Add_rep; [apply (st_index s Hs)|]. by rewrite lookup_fmap, E.
  - eapply counts_rep_ext; [|apply (st_counts s Hs)]. intros t.
    rewrite (active_count_split (<[_ := _]> _) (Hash lbls) (mkMem lbls [] [])) by apply lookup_insert_eq.
    rewrite active1_empty, delete_insert_eq, delete_id by done. lia.
Qed.

(** *** Appending to the open chunk *)

Lemma set_last_app {A} (f : A -> A) l x : set_last f (l ++ [x]) = l ++ [f x].
Proof.
  unfold set_last. rewrite length_app, Nat.add_1_r. cbn [pred]. rewrite <- (Nat.add_0_r (length l)). by rewrite alter_app_r.
Qed.

Lemma ensure_chunk_spec s id ms seg ms1 s1 : series_wf s id ms -> ensure_chunk s ms seg = (ms1, s1) ->
  series_wf s1 id ms1 /\ (exists pre rc, ms_chunks ms1 = pre ++ [rc] /\ sealed rc.2 = false) /\
  ws_of ms1 = ws_of ms /\ ms_labels ms1 = ms_labels ms /\
  st_series s1 = st_series s /\ st_tenants s1 = st_tenants s /\ st_idx s1 = st_idx s /\ st_nextGen s1 = st_nextGen s /\
  st_alloc s <= st_alloc s1 /\ (forall r, r ∈ (ms_chunks ms1).*1 -> r ∈ (ms_chunks ms).*1 \/ st_alloc s <= r) /\
  (exists tl, ms_chunks ms1 = ms_chunks ms ++ tl).
Proof.
  intros Hm. unfold ensure_chunk, needs_chunk.
  destruct (last (ms_chunks ms)) as [rc|] eqn:El.
  - apply last_Some in El as [pre El]. destruct (sealed rc.2) eqn:Eo; intros [= <- <-].
    2:{ split; [done|]. split; [by exists pre, rc|]. split_and!; try done; try lia; [by left|]. exists []. by rewrite app_nil_r. }
    cbn [ms_labels ms_chunks st_series st_tenants st_idx st_nextGen st_alloc].
    split; [|split_and!; try done; try lia].
    + destruct Hm as [H1 H2 H3 H4 H5 H6 H7]. split; cbn [ms_labels ms_chunks ms_segs st_alloc st_nextGen]; try done.
      * apply Forall_app. split; [eapply Forall_impl; [exact H3|]; cbn; intros ? [? ?]; split; [done|lia]|].
        constructor; [|done]. cbn. split; [apply NewChunk_ok|lia].
      * rewrite !length_app. cbn. lia.
      * intros pre' rc' E. apply app_inj_tail in E as [<- _]. rewrite El. apply Forall_app. split; [by eapply H5|by constructor].
      * rewrite fmap_app. apply NoDup_app. split_and!; [done| |apply NoDup_singleton]. intros r Hr. cbn.
        rewrite list_elem_of_singleton. intros ->. apply list_elem_of_fmap in Hr as (x & E & Hx). rewrite Forall_forall in H3. apply H3 in Hx as [_ Hx]. lia.
      * unfold ws_of in *. cbn [ms_chunks]. rewrite bind_app. apply Forall_app. split; [done|]. cbn. rewrite NewChunk_samples. constructor.
    + by eexists _, _.
    + unfold ws_of. cbn [ms_chunks]. rewrite bind_app. cbn. by rewrite NewChunk_samples, !app_nil_r.
    + intros r. rewrite fmap_app, elem_of_app. cbn. rewrite list_elem_of_singleton. intros [?| ->]; [by left|right; lia].
    + by eexists.
  - apply last_None in El. intros [= <- <-]. cbn [ms_labels ms_chunks st_series st_tenants st_idx st_nextGen st_alloc]. rewrite El. cbn [app].
    split; [|split_and!; try done; try lia].
    + destruct Hm as [H1 H2 H3 H4 H5 H6 H7]. rewrite El in H4. split; cbn [ms_labels ms_chunks ms_segs st_alloc st_nextGen]; try done.
      * constructor; [|done]. cbn. split; [apply NewChunk_ok|lia].
      * rewrite length_app, H4. done.
      * intros [|? [|]] rc' [=]. constructor.
      * apply NoDup_singleton.
    + by exists [], (st_alloc s, NewChunk).
    + unfold ws_of. rewrite El. cbn. by rewrite NewChunk_samples.
    + cbn. intros r. rewrite list_elem_of_singleton. intros ->. right. lia.
    + by eexists.
Qed.

Lemma replace_last_wf s id l segs pre rc c' : series_wf s id (mkMem l (pre ++ [rc]) segs) -> chunk_ok c' ->
  Forall (fun x => s_gen x < st_nextGen s) (samples_of c') -> series_wf s id (mkMem l (pre ++ [(rc.1, c')]) segs).
Proof.
  intros [H1 H2 H3 H4 H5 H6 H7] Hc Hg. cbn [ms_labels ms_chunks ms_segs] in *. split; cbn [ms_labels ms_chunks ms_segs]; try done.
  - apply Forall_app in H3 as [H3 H3']. apply Forall_app. split; [done|]. apply Forall_cons in H3' as [[_ ?] _]. by constructor.
  - by rewrite length_app in *.
  - intros pre' rc' E. apply app_inj_tail in E as [<- _]. by eapply H5.
  - by rewrite fmap_app in *.
  - unfold ws_of in *. cbn [ms_chunks] in *. rewrite bind_app in *. apply Forall_app in H7 as [H7 _]. apply Forall_app. split; [done|].
    cbn. by rewrite app_nil_r.
Qed.

(** The error paths of an append: no generation left, or a negative generation
    handed in by the caller. *)
Definition append_ok (s : MemoryStore) (now gen : Z) : Prop :=
  (gen = 0 /\ Z.max (st_nextGen s) now <= MaxGeneration) \/ (0 < gen <= MaxGeneration).
Definition assigned (s : MemoryStore) (now gen : Z) : Z := if gen =? 0 then Z.max (st_nextGen s) now else gen.

Definition no_clash (s : MemoryStore) (lbls : Labels) : Prop :=
  forall ms, st_series s !! Hash lbls = Some ms -> ms_labels ms = lbls.

Lemma settle_ok s now gen : store_wf s -> append_ok s now gen ->
  exists s', settle_gen s now gen = Ok (assigned s now gen, s').
Proof.
  intros Hs H. pose proof (st_gen1 s Hs). unfold settle_gen, assigned, nextGenerationLocked. destruct (Z.eqb_spec gen 0) as [->|].
  - rewrite (proj2 (Z.ltb_ge _ _)) by (destruct H; lia). by eexists.
  - rewrite (proj2 (Z.ltb_ge _ _)) by (destruct H; lia). by eexists.
Qed.
Lemma settle_err s now gen e : settle_gen s now gen = Err e -> e = ErrGenerationExhausted /\ ~ append_ok s now gen.
Proof.
  unfold settle_gen, nextGenerationLocked, append_ok. destruct (Z.eqb_spec gen 0) as [->|].
  - destruct (Z.ltb_spec MaxGeneration (Z.max (st_nextGen s) now)); [|done]. intros [= <-]. split; [done|]. lia.
  - destruct (Z.ltb_spec MaxGeneration gen); [|done]. intros [= <-]. split; [done|]. lia.
Qed.

Definition counted (s : MemoryStore) (ms : memorySeries) (t : string) : MemoryStore :=
  match ms_chunks ms with [] => count_tenant s t | _ => s end.

Lemma series_wf_counted s id ms t m : series_wf s id m -> series_wf (counted s ms t) id m.
Proof. unfold counted. destruct (ms_chunks ms); [|done]. apply series_wf_mono; done. Qed.

Lemma counted_fields s ms t : st_series (counted s ms t) = st_series s /\ st_idx (counted s ms t) = st_idx s /\
  st_nextGen (counted s ms t) = st_nextGen s /\ st_alloc (counted s ms t) = st_alloc s.
Proof. unfold counted. by destruct (ms_chunks ms). Qed.

(** The state an append leaves, whatever became of the last chunk. *)
Lemma append_put s lbls ms seg ms1 s3 pre rc c' : store_wf s -> st_series s !! Hash lbls = Some ms -> ms_labels ms = lbls ->
  ensure_chunk (counted s ms (TenantOf lbls)) ms seg = (ms1, s3) -> ms_chunks ms1 = pre ++ [rc] -> chunk_ok c' ->
  Forall (fun x => s_gen x < st_nextGen s) (samples_of c') ->
  store_wf (put_series s3 (Hash lbls) (mkMem (ms_labels ms1) (pre ++ [(rc.1, c')]) (ms_segs ms1))).
Proof.
  intros Hs E Hl Hens E1 Hc Hg. destruct (counted_fields s ms (TenantOf lbls)) as (F1 & F2 & F3 & F4).
  destruct (ensure_chunk_spec _ (Hash lbls) _ _ _ _ (series_wf_counted _ _ _ _ _ (st_series_wf s Hs _ _ E)) Hens)
    as (Hwf & _ & _ & Hl1 & G1 & G2 & G3 & G4 & G5 & G6 & _).
  rewrite F1 in G1. rewrite F2 in G3. rewrite F3 in G4. rewrite F4 in G5.
  setoid_rewrite F4 in G6.
  apply (put_wf s _ (Hash lbls) ms (mkMem (ms_labels ms1) (pre ++ [(rc.1, c')]) (ms_segs ms1)));
    cbn [put_series st_series st_idx st_alloc st_nextGen st_tenants ms_labels ms_chunks];
    [done|done|done|by rewrite G1|by rewrite G3|done|lia| | |].
  - rewrite G2. eapply counts_rep_ext.
    { intros t. symmetry. apply active_count_insert, E. }
    unfold counted. destruct (ms_chunks ms) as [|x l] eqn:Ec.
    + eapply counts_rep_ext; [|apply counts_rep_incr; [apply (st_counts s Hs)|apply active_count_nonneg]].
      intros t. rewrite active1_empty by done. rewrite active1_full by (cbn; by destruct pre). cbn [ms_labels]. rewrite Hl1, Hl. lia.
    + eapply counts_rep_ext; [|apply (st_counts s Hs)]. intros t. rewrite !active1_full by (rewrite ?Ec; cbn; by destruct pre).
      cbn [ms_labels]. rewrite Hl1. lia.
  - intros r. rewrite fmap_app. intros Hr. apply G6. by rewrite E1, fmap_app.
  - assert (Hmono : series_wf (put_series s3 (Hash lbls) (mkMem (ms_labels ms1) (pre ++ [(rc.1, c')]) (ms_segs ms1))) (Hash lbls) ms1)
      by (eapply series_wf_mono; [..|exact Hwf]; done).
    destruct ms1 as [l1 cs1 sg1]. cbn [ms_chunks ms_labels ms_segs] in *. subst cs1. eapply replace_last_wf; [exact Hmono|done|].
    cbn. by rewrite G4.
Qed.

Definition db_add (db : database) (lbls : Labels) (x : sample) : database := fun l =>
  if decide (l = lbls) then Some (default [] (db l) ++ [x]) else db l.

Lemma store_db_put s s3 lbls ms' : store_wf s -> st_series s3 = st_series s -> ms_labels ms' = lbls ->
  (forall ms, st_series s !! Hash lbls = Some ms -> ms_labels ms = lbls) ->
  forall l, store_db (put_series s3 (Hash lbls) ms') l = if decide (l = lbls) then Some (ws_of ms') else store_db s l.
Proof.
  intros Hs E3 Hl Hnc l. unfold store_db. cbn [put_series st_series]. rewrite E3. destruct (decide (l = lbls)) as [->|Hne].
  - rewrite lookup_insert_eq. by rewrite decide_True.
  - destruct (decide (Hash l = Hash lbls)) as [Eh|Eh]; [|by rewrite lookup_insert_ne].
    rewrite Eh, lookup_insert_eq. destruct (st_series s !! Hash lbls) as [ms|].
    + rewrite !decide_False; [done| |congruence]. rewrite (Hnc ms) by done. congruence.
    + rewrite decide_False; [done|]. congruence.
Qed.

Lemma store_db_settled s s' l : st_series s' = st_series s -> store_db s' l = store_db s l.
Proof. intros E. unfold store_db. by rewrite E. Qed.

Lemma store_db_ensured s lbls ms s' l : ensure_series s lbls = (ms, s') -> no_clash s lbls ->
  store_db s' l = if decide (l = lbls) then Some (default [] (store_db s l)) else store_db s l.
Proof.
  unfold ensure_series, no_clash, store_db. intros E Hnc. destruct (st_series s !! Hash lbls) as [m|] eqn:Em; injection E as <- <-.
  - destruct (decide (l = lbls)) as [->|]; [|done]. rewrite Em. by rewrite decide_True by (by apply Hnc).
  - cbn [st_series]. destruct (decide (l = lbls)) as [->|Hne].
    + rewrite lookup_insert_eq. cbn. by rewrite Em, decide_True.
    + destruct (decide (Hash l = Hash lbls)) as [Eh|Eh]; [|by rewrite lookup_insert_ne].
      rewrite Eh, lookup_insert_eq, Em. cbn. rewrite decide_False; [done|]. congruence.
Qed.

Lemma appendInternal_spec s now lbls ts val seg gen : store_wf s -> labels_wf lbls -> no_clash s lbls -> in_i64 ts -> in_u64 val ->
  let r := appendInternal s now lbls ts val seg gen in
  store_wf r.2 /\ st_nextGen s <= st_nextGen r.2 /\
  (append_ok s now gen -> r.1 = Ok tt /\ assigned s now gen < st_nextGen r.2 /\
     forall l, store_db r.2 l = db_add (store_db s) lbls (mkSample ts val (assigned s now gen)) l) /\
  (~ append_ok s now gen -> (exists e, r.1 = Err e) /\ (0 <= gen -> r.2 = s) /\
     forall l, default [] (store_db r.2 l) = default [] (store_db s l)).
Proof.
  intros Hs Hl Hnc Hts Hval. cbn zeta. unfold appendInternal.
  destruct (settle_gen s now gen) as [[g s1]|e] eqn:Eset.
  2:{ apply settle_err in Eset as [-> Hno]. cbn [fst snd]. split_and!; [done|lia|done|]. intros _. split_and!; [by eexists|done|done]. }
  pose proof (settle_wf _ _ _ _ _ Hs Eset) as (Hs1 & Eser & Ealloc & Hmono & Hg & HgM & Hg0 & Hg1).
  assert (Hnc1 : forall ms, st_series s1 !! Hash lbls = Some ms -> ms_labels ms = lbls) by (rewrite Eser; exact Hnc).
  destruct (ensure_series s1 lbls) as [ms s2] eqn:Eens.
  destruct (ensure_series_wf _ _ _ _ Hs1 Hl Hnc1 Eens) as (Hs2 & Elk & Elb & En2 & Ea2 & _ & _ & _).
  pose proof (fun l => store_db_ensured _ _ _ _ l Eens Hnc1) as Hdb2.
  fold (counted s2 ms (TenantOf lbls)). destruct (counted_fields s2 ms (TenantOf lbls)) as (F1 & F2 & F3 & F4).
  destruct (ensure_chunk (counted s2 ms (TenantOf lbls)) ms seg) as [ms1 s3] eqn:Ech.
  destruct (ensure_chunk_spec _ (Hash lbls) _ _ _ _ (series_wf_counted _ _ _ _ _ (st_series_wf s2 Hs2 _ _ Elk)) Ech)
    as (Hwf & (pre & rc & E1 & Hopen) & Hws & Hl1 & G1 & G2 & G3 & G4 & G5 & G6 & _).
  assert (Hrc : chunk_ok rc.2 /\ Forall (fun x => s_gen x < st_nextGen s2) (samples_of rc.2)).
  { pose proof (sw_chunks _ _ _ Hwf) as HF. rewrite E1 in HF. apply Forall_app in HF as [_ [[? _] _]%Forall_cons]. split; [done|].
    pose proof (sw_gens _ _ _ Hwf) as HG. unfold ws_of in HG. rewrite E1, bind_app in HG. apply Forall_app in HG as [_ HG].
    cbn [mbind list_bind] in HG. rewrite app_nil_r in HG. by rewrite G4, F3 in HG. }
  destruct Hrc as [Hrc Hrcg].
  assert (Hnc2 : forall ms0, st_series s2 !! Hash lbls = Some ms0 -> ms_labels ms0 = lbls) by (intros ms0 E0; by simplify_eq).
  assert (Hold : ws_of ms = default [] (store_db s lbls)).
  { pose proof (store_db_series _ _ _ Hs2 Elk) as H. rewrite Elb, Hdb2, decide_True in H by done. injection H as H.
    by rewrite <- H, (store_db_settled s s1). }
  rewrite E1, last_snoc. destruct (Append rc.2 ts val g) as [c'|e] eqn:Eapp; cbn [fst snd].
  - assert (Happ : Append1 rc.2 (mkSample ts val g) = Ok c') by done.
    destruct (Append_range _ _ _ Happ) as [_ Hgr]. cbn in Hgr.
    assert (Hsok : sample_ok (mkSample ts val g)) by (split; [done|split; [done|cbn; unfold MaxGeneration in *; wsolve]]).
    destruct (Append_ok _ _ _ Hrc Hsok Happ) as [Hok Hsm].
    rewrite set_last_app.
    assert (Hg2 : Forall (fun x => s_gen x < st_nextGen s2) (samples_of c')).
    { rewrite Hsm. apply Forall_app. split; [done|]. constructor; [cbn; lia|done]. }
    assert (Haok : append_ok s now gen).
    { unfold append_ok. destruct (decide (gen = 0)) as [->|Hne]; [left; specialize (Hg0 eq_refl); split; [done|]; by subst g|right; specialize (Hg1 Hne); lia]. }
    split; [by eapply append_put|]. split; [cbn; rewrite G4, F3, En2; lia|]. split; [|done]. intros _. split; [done|].
    assert (Has : assigned s now gen = g).
    { unfold assigned. destruct (Z.eqb_spec gen 0) as [E0|E0]; [symmetry; by apply Hg0|symmetry; by apply Hg1]. }
    split; [cbn; rewrite G4, F3, En2; lia|]. intros l. rewrite (store_db_put s2 s3 lbls) by (done || (cbn; congruence)).
    unfold db_add. rewrite Hdb2. destruct (decide (l = lbls)) as [->|]; [|by apply store_db_settled]. f_equal.
    rewrite Has, <- Hold. unfold ws_of. cbn [ms_chunks]. rewrite bind_app. cbn [mbind list_bind snd]. rewrite Hsm, app_nil_r.
    transitivity (ws_of ms1 ++ [mkSample ts val g]); [|by rewrite Hws].
    unfold ws_of. rewrite E1, bind_app. cbn [mbind list_bind]. by rewrite app_nil_r, app_assoc.
  - assert (Hneg : gen < 0).
    { destruct (Z.lt_ge_cases gen 0); [done|]. exfalso. destruct (Append1_open rc.2 _ (mkSample ts val g) (proj1 Hrc) Hopen) as [c' Hc'].
      - cbn. pose proof (st_gen1 s Hs). destruct (decide (gen = 0)) as [E0|E0]; [specialize (Hg0 E0)|specialize (Hg1 E0)]; lia.
      - unfold Append1 in Hc'. cbn in Hc'. by rewrite Hc' in Eapp. }
    assert (Hput : ms1 = mkMem (ms_labels ms1) (pre ++ [(rc.1, rc.2)]) (ms_segs ms1)).
    { destruct ms1. cbn in *. rewrite E1. by destruct rc. }
    split; [rewrite Hput; by eapply append_put|]. split; [cbn; rewrite G4, F3, En2; lia|].
    split; [unfold append_ok; lia|]. intros _. split; [by eexists|]. split; [lia|]. intros l.
    rewrite (store_db_put s2 s3 lbls) by (done || (cbn; congruence)). rewrite Hdb2. rewrite (store_db_settled s s1) by done.
    destruct (decide (l = lbls)) as [->|]; [|done]. cbn. by rewrite Hws, Hold.
Qed.

(** *** Rewriting every series *)

Lemma map_series_wf s f tenants : store_wf s ->
  (forall id ms, st_series s !! id = Some ms -> series_wf s id (f ms) /\ ms_labels (f ms) = ms_labels ms /\
     (ms_chunks (f ms)).*1 ⊆ (ms_chunks ms).*1) ->
  counts_rep tenants (active_count (f <$> st_series s)) ->
  store_wf (mkStore (f <$> st_series s) tenants (st_idx s) (st_nextGen s) (st_alloc s)).
Proof.
  intros Hs Hf Hc. split; cbn [st_series st_tenants st_idx st_nextGen]; [| | |done|apply (st_gen1 s Hs)].
  - intros id ms. rewrite lookup_fmap_Some. intros (ms0 & <- & E). eapply series_wf_mono; [..|by apply Hf]; done.
  - intros id1 m1 id2 m2 r. rewrite !lookup_fmap_Some. intros (n1 & <- & E1) (n2 & <- & E2) R1 R2.
    eapply (st_refs s Hs); [exact E1|exact E2|by apply (Hf _ _ E1)|by apply (Hf _ _ E2)].
  - rewrite <- map_fmap_compose. erewrite map_fmap_ext; [exact (st_index s Hs)|]. intros id ms E. cbn. f_equal. by apply (Hf _ _ E).
Qed.

Lemma active_count_fmap m f t : (forall id ms, m !! id = Some ms -> active t (f ms) <-> active t ms) ->
  active_count (f <$> m) t = active_count m t.
Proof.
  intros H. unfold active_count. rewrite map_filter_fmap, map_size_fmap. do 2 f_equal. apply map_filter_ext.
  intros id ms E. cbn. by rewrite (H id).
Qed.

Lemma map_same_active s f : store_wf s ->
  (forall id ms, st_series s !! id = Some ms -> ms_labels (f ms) = ms_labels ms /\ (ms_chunks (f ms) = [] <-> ms_chunks ms = [])) ->
  counts_rep (st_tenants s) (active_count (f <$> st_series s)).
Proof.
  intros Hs Hf. eapply counts_rep_ext; [|apply (st_counts s Hs)]. intros t. symmetry. apply active_count_fmap.
  intros id ms E. destruct (Hf _ _ E) as [Hl Hc]. unfold active. rewrite Hl. tauto.
Qed.

(** Sealing keeps every sample and every pointer. *)
Lemma seal_head_wf s id ms : series_wf s id ms ->
  series_wf s id (seal_head ms).1 /\ ms_labels (seal_head ms).1 = ms_labels ms /\ ws_of (seal_head ms).1 = ws_of ms /\
  (ms_chunks (seal_head ms).1).*1 = (ms_chunks ms).*1 /\
  (forall rc, rc ∈ ms_chunks ms -> sealed rc.2 = true -> rc ∈ ms_chunks (seal_head ms).1) /\
  (forall rc, rc ∈ ms_chunks (seal_head ms).1 -> sealed rc.2 = true \/ samples_of rc.2 = []).
Proof.
  intros Hm. unfold seal_head. destruct (last (ms_chunks ms)) as [rc|] eqn:El.
  2:{ apply last_None in El. split_and!; try done. cbn [fst]. rewrite El. intros rc []%not_elem_of_nil. }
  apply last_Some in El as [pre E]. pose proof (sw_sealed _ _ _ Hm _ _ E) as Hpre. rewrite Forall_forall in Hpre.
  assert (Hrc : chunk_ok rc.2).
  { pose proof (sw_chunks _ _ _ Hm) as HF. rewrite E in HF. by apply Forall_app in HF as [_ [[? _] _]%Forall_cons]. }
  destruct (_ && _)%bool eqn:Eb; cbn [fst ms_labels ms_chunks].
  - apply andb_true_iff in Eb as [Eo%negb_true_iff En]. rewrite E, set_last_app.
    split_and!; try done.
    + apply replace_last_wf; [destruct ms; cbn in *; by subst|by apply Seal_ok|]. rewrite Seal_samples by done.
      pose proof (sw_gens _ _ _ Hm) as HG. unfold ws_of in HG. rewrite E, bind_app in HG. apply Forall_app in HG as [_ HG].
      cbn [mbind list_bind] in HG. by rewrite app_nil_r in HG.
    + unfold ws_of. cbn [ms_chunks]. rewrite E, !bind_app. cbn [mbind list_bind snd]. by rewrite Seal_samples.
    + by rewrite !fmap_app.
    + intros x. rewrite !elem_of_app, !list_elem_of_singleton. intros [|Hx]; [by left|]. subst x. congruence.
    + intros x. rewrite !elem_of_app, !list_elem_of_singleton. intros [Hx|Hx]; [left; by apply Hpre|]. subst x. by left.
  - split_and!; try done. intros x. rewrite E, elem_of_app, list_elem_of_singleton. intros [Hx|Hx]; [left; by apply Hpre|]. subst x.
    destruct (sealed rc.2); [by left|]. right. apply chunk_empty; [by apply chunk_ok_sound|]. pose proof (rep_n _ _ (proj1 Hrc)). cbn in Eb. lia.
Qed.

Lemma map_fst_nil {A B} (l1 l2 : list (A * B)) : l1.*1 = l2.*1 -> l1 = [] <-> l2 = [].
Proof. destruct l1, l2; done. Qed.

Lemma store_db_map s s' f l : st_series s' = f <$> st_series s ->
  (forall id ms, st_series s !! id = Some ms -> ms_labels (f ms) = ms_labels ms) ->
  store_db s' l = (fun ms => ws_of (f ms)) <$> (st_series s !! Hash l ≫= fun ms => if decide (ms_labels ms = l) then Some ms else None).
Proof.
  intros E Hf. unfold store_db. rewrite E, lookup_fmap. destruct (st_series s !! Hash l) as [ms|] eqn:Em; cbn; [|done].
  rewrite (Hf _ _ Em). by destruct (decide _).
Qed.

Lemma SealHeadChunks_wf s : store_wf s ->
  store_wf (SealHeadChunks s).2 /\ forall l, store_db (SealHeadChunks s).2 l = store_db s l.
Proof.
  intros Hs. cbn [SealHeadChunks snd]. split.
  - apply map_series_wf; [done| |].
    + intros id ms E. destruct (seal_head_wf s id ms (st_series_wf s Hs _ _ E)) as (H1 & H2 & _ & H4 & _). by rewrite H4.
    + apply map_same_active; [done|]. intros id ms E. destruct (seal_head_wf s id ms (st_series_wf s Hs _ _ E)) as (_ & H2 & _ & H4 & _).
      split; [done|]. by apply map_fst_nil.
  - intros l. rewrite (store_db_map s _ (fun ms => (seal_head ms).1)); [|done|intros id ms E; by apply (seal_head_wf s id ms (st_series_wf s Hs _ _ E))].
    unfold store_db. destruct (st_series s !! Hash l) as [ms|] eqn:E; cbn; [|done]. destruct (decide _); cbn; [|done].
    f_equal. by apply (seal_head_wf s _ ms (st_series_wf s Hs _ _ E)).
Qed.

Lemma fence_wf s walSeg id ms : series_wf s id ms -> series_wf s id (mkMem (ms_labels ms) (ms_chunks ms) ((fun _ => walSeg) <$> ms_segs ms)).
Proof. intros []. split; try done. cbn. by rewrite length_fmap. Qed.

Lemma SetHeadFence_wf s walSeg : store_wf s ->
  store_wf (SetHeadFence s walSeg) /\ forall l, store_db (SetHeadFence s walSeg) l = store_db s l.
Proof.
  intros Hs. split.
  - apply map_series_wf; [done| |].
    + intros id ms E. split; [by apply fence_wf, (st_series_wf s Hs)|done].
    + apply map_same_active; done.
  - intros l. unfold store_db, SetHeadFence, with_series. cbn [st_series]. rewrite lookup_fmap. by destruct (st_series s !! Hash l).
Qed.

(** *** Discarding *)

Lemma keep_pairs (remove : gset Z) (cs : list (Z * Chunk)) (segs : list Z) : length segs = length cs ->
  (filter (fun e => e.1.1 ∉ remove) (combine cs segs)).*1 = filter (fun rc => rc.1 ∉ remove) cs.
Proof.
  revert segs. induction cs as [|rc cs IH]; intros [|sg segs] E; try done. cbn [combine]. rewrite !filter_cons. cbn [fst].
  injection E as E. destruct (decide _); [|by apply IH]. cbn [fmap list_fmap fst]. by rewrite IH.
Qed.

Lemma kept_chunks remove s id ms : series_wf s id ms ->
  ms_chunks (keep_chunks remove ms) = filter (fun rc => rc.1 ∉ remove) (ms_chunks ms).
Proof. intros Hm. cbn. apply keep_pairs, Hm. Qed.

Lemma filter_fst_sublist (remove : gset Z) (l : list (Z * Chunk)) : sublist (filter (fun rc => rc.1 ∉ remove) l).*1 l.*1.
Proof. apply fmap_sublist, sublist_filter. Qed.

Lemma keep_chunks_wf (remove : gset Z) s id ms : series_wf s id ms -> series_wf s id (keep_chunks remove ms).
Proof.
  intros Hm. pose proof (kept_chunks remove s id ms Hm) as Hk. destruct Hm as [H1 H2 H3 H4 H5 H6 H7].
  split; try done.
  - rewrite Hk. apply Forall_forall. intros rc [_ Hrc]%list_elem_of_filter. rewrite Forall_forall in H3. by apply H3.
  - cbn. by rewrite !length_fmap.
  - intros pre rc E. rewrite Hk in E. destruct (last (ms_chunks ms)) as [rcl|] eqn:El.
    2:{ apply last_None in El. rewrite El in E. by destruct pre. }
    apply last_Some in El as [pre' El]. specialize (H5 _ _ El). rewrite El, filter_app in E. rewrite filter_cons, filter_nil in E.
    assert (Hsub : Forall (fun rc : Z * Chunk => sealed rc.2 = true) (filter (fun rc => rc.1 ∉ remove) pre')).
    { apply Forall_forall. intros x [_ Hx]%list_elem_of_filter. rewrite Forall_forall in H5. by apply H5. }
    destruct (decide _).
    + apply app_inj_tail in E as [<- _]. done.
    + rewrite app_nil_r in E. rewrite E in Hsub. by apply Forall_app in Hsub as [? _].
  - rewrite Hk. eapply sublist_NoDup; [exact H6|]. apply filter_fst_sublist.
  - unfold ws_of in *. rewrite Hk. apply Forall_forall. intros x (rc & Hx & [_ Hrc]%list_elem_of_filter)%list_elem_of_bind.
    rewrite Forall_forall in H7. apply H7, list_elem_of_bind. by exists rc.
Qed.

Lemma discard_step_counts remove s id ms : counts_rep (st_tenants s) (active_count (st_series s)) -> st_series s !! id = Some ms ->
  let s' := discard_one remove s (id, ms) in counts_rep (st_tenants s') (active_count (st_series s')).
Proof.
  intros Hc E. cbn [discard_one st_tenants st_series fst snd].
  eapply counts_rep_ext; [intros t; symmetry; apply active_count_insert, E|]. unfold emptied.
  pose proof (fun t => active_count_split _ _ _ t E) as Hsp.
  destruct (ms_chunks ms) as [|rc l] eqn:Ec.
  - eapply counts_rep_ext; [|exact Hc]. intros t. rewrite (active1_empty t ms), (active1_empty t (keep_chunks remove ms)) by (cbn; by rewrite ?Ec). lia.
  - destruct (ms_chunks (keep_chunks remove ms)) as [|rc' l'] eqn:Ek.
    + eapply counts_rep_ext; [|apply counts_rep_uncount; [exact Hc|]].
      * intros t. rewrite (active1_empty t (keep_chunks remove ms)), (active1_full t ms) by congruence. cbn. lia.
      * specialize (Hsp (TenantOf (ms_labels ms))). rewrite Hsp, active1_full by congruence. rewrite decide_True by done.
        pose proof (active_count_nonneg (delete id (st_series s)) (TenantOf (ms_labels ms))). lia.
    + eapply counts_rep_ext; [|exact Hc]. intros t. rewrite !active1_full by congruence. cbn. lia.
Qed.

Lemma discard_loop remove (l : list (Z * memorySeries)) s : NoDup l.*1 -> Forall (fun e => st_series s !! e.1 = Some e.2) l ->
  counts_rep (st_tenants s) (active_count (st_series s)) ->
  let s' := fold_left (discard_one remove) l s in
  (forall id, st_series s' !! id = if decide (id ∈ l.*1) then keep_chunks remove <$> st_series s !! id else st_series s !! id) /\
  counts_rep (st_tenants s') (active_count (st_series s')) /\ st_idx s' = st_idx s /\ st_nextGen s' = st_nextGen s /\ st_alloc s' = st_alloc s.
Proof.
  revert s. induction l as [|[i m] l IH]; intros s Hnd HF Hc; cbn [fold_left].
  { by split_and!. }
  rewrite fmap_cons in Hnd. apply NoDup_cons in Hnd as [Hi Hnd]. apply Forall_cons in HF as [E HF]. cbn [fst snd] in *.
  destruct (IH (discard_one remove s (i, m))) as (H1 & H2 & H3 & H4 & H5); [done| |by apply discard_step_counts|].
  { rewrite Forall_forall in *. intros [i' m'] Hin. pose proof (HF _ Hin) as E'. cbn in *. rewrite lookup_insert_ne; [done|]. intros <-. apply Hi.
    apply list_elem_of_fmap. by exists (i, m'). }
  split_and!; [|done..]. intros id. rewrite H1. cbn [discard_one st_series fst snd]. rewrite fmap_cons. cbn [fst].
  destruct (decide (id = i)) as [->|Hne].
  - rewrite (decide_False (P := i ∈ l.*1)) by done. rewrite decide_True by (by left). by rewrite lookup_insert_eq, E.
  - rewrite lookup_insert_ne by done. destruct (decide (id ∈ l.*1)); [by rewrite decide_True by (by right)|].
    rewrite decide_False; [done|]. by intros [?|?]%elem_of_cons.
Qed.

Lemma DiscardSealedChunks_spec s snap : store_wf s ->
  let s' := DiscardSealedChunks s snap in
  store_wf s' /\ st_series s' = keep_chunks (snapshot_refs snap) <$> st_series s /\ st_nextGen s' = st_nextGen s.
Proof.
  intros Hs. cbn zeta. unfold DiscardSealedChunks. set (remove := snapshot_refs snap).
  destruct (discard_loop remove (map_to_list (st_series s)) s) as (H1 & H2 & H3 & H4 & H5).
  { apply NoDup_fst_map_to_list. }
  { apply Forall_forall. intros [id ms] Hin. by apply elem_of_map_to_list. }
  { apply (st_counts s Hs). }
  set (s' := fold_left _ _ s) in *.
  assert (Hser : st_series s' = keep_chunks remove <$> st_series s).
  { apply map_eq. intros id. rewrite H1, lookup_fmap. case_decide as Hd; [done|].
    destruct (st_series s !! id) as [ms|] eqn:E; [|done]. exfalso. apply Hd, list_elem_of_fmap. exists (id, ms).
    split; [done|]. by apply elem_of_map_to_list. }
  split; [|done]. assert (Hs' : s' = mkStore (keep_chunks remove <$> st_series s) (st_tenants s') (st_idx s) (st_nextGen s) (st_alloc s)).
  { destruct s'. cbn in *. by subst. }
  rewrite Hs'. apply map_series_wf; [done| |by rewrite <- Hser]. intros id ms E. pose proof (st_series_wf s Hs _ _ E) as Hm.
  split; [by apply keep_chunks_wf|]. split; [done|]. rewrite (kept_chunks _ _ _ _ Hm). apply sublist_subseteq, filter_fst_sublist.
Qed.

Lemma RemoveEmptySeries_spec s id : store_wf s ->
  let s' := (RemoveEmptySeries s id).2 in
  store_wf s' /\ st_nextGen s' = st_nextGen s /\
  (forall i ms, st_series s !! i = Some ms -> ms_chunks ms <> [] -> st_series s' !! i = Some ms) /\
  forall l, default [] (store_db s' l) = default [] (store_db s l).
Proof.
  intros Hs. unfold RemoveEmptySeries. destruct (st_series s !! id) as [ms|] eqn:E; [|done].
  destruct (ms_chunks ms) as [|] eqn:Ec; [|done]. cbn [snd st_series st_nextGen].
  split; [split; cbn [st_series st_tenants st_idx st_nextGen]|split_and!].
  - intros i m Ei. apply lookup_delete_Some in Ei as [_ Ei]. eapply series_wf_mono; [..|by apply (st_series_wf s Hs)]; done.
  - intros i1 m1 i2 m2 r E1%lookup_delete_Some E2%lookup_delete_Some. eapply (st_refs s Hs); [apply E1|apply E2].
  - rewrite fmap_delete. eapply Delete_rep; [apply (st_index s Hs)|by rewrite lookup_fmap, E|done].
  - eapply counts_rep_ext; [|apply (st_counts s Hs)]. intros t. rewrite (active_count_split _ _ _ t E), active1_empty by done. lia.
  - apply (st_gen1 s Hs).
  - done.
  - intros i m Ei Hne. rewrite lookup_delete_ne; [done|]. intros ->. congruence.
  - intros l. unfold store_db. cbn [st_series]. destruct (decide (id = Hash l)) as [->|Hne].
    + rewrite lookup_delete_eq, E. destruct (decide _); [|done]. cbn. unfold ws_of. by rewrite Ec.
    + by rewrite lookup_delete_ne.
Qed.

(** ** Histories of the store *)

Inductive store_op :=
  | OpAppend (now : Z) (lbls : Labels) (ts val walSeg gen : Z)
  | OpReserve (now : Z) | OpFloor (floor : Z) | OpSeal | OpFence (walSeg : Z)
  | OpDiscard (snap : list SeriesChunks) | OpRemove (id : Z).
Definition store_step (s : MemoryStore) (op : store_op) : MemoryStore :=
  match op with
  | OpAppend now lbls ts val walSeg gen => (appendInternal s now lbls ts val walSeg gen).2
  | OpReserve now => match ReserveGeneration s now with Ok (_, s') => s' | Err _ => s end
  | OpFloor floor => EnsureGenFloor s floor
  | OpSeal => (SealHeadChunks s).2
  | OpFence walSeg => SetHeadFence s walSeg
  | OpDiscard snap => DiscardSealedChunks s snap
  | OpRemove id => (RemoveEmptySeries s id).2
  end.
(** What callers guarantee: normalized label sets, no hash collision with a
    stored series, and 64-bit timestamps and value bits. *)
Definition op_ok (s : MemoryStore) (op : store_op) : Prop :=
  match op with
  | OpAppend _ lbls ts val _ _ => labels_wf lbls /\ no_clash s lbls /\ in_i64 ts /\ in_u64 val
  | _ => True
  end.
Fixpoint ops_ok (s : MemoryStore) (ops : list store_op) : Prop :=
  match ops with [] => True | op :: rest => op_ok s op /\ ops_ok (store_step s op) rest end.
Definition run (s : MemoryStore) (ops : list store_op) : MemoryStore := fold_left store_step ops s.

Inductive reachable : MemoryStore -> Prop :=
  | reach_new : reachable NewMemoryStore
  | reach_step s op : reachable s -> op_ok s op -> reachable (store_step s op).

Lemma step_wf s op : store_wf s -> op_ok s op -> store_wf (store_step s op) /\ st_nextGen s <= st_nextGen (store_step s op).
Proof.
  intros Hs Hop. destruct op as [now lbls ts val seg gen|now|floor| |seg|snap|id]; cbn [store_step].
  - destruct Hop as (Hl & Hnc & Hts & Hv). destruct (appendInternal_spec s now lbls ts val seg gen Hs Hl Hnc Hts Hv) as (H & H' & _). done.
  - unfold ReserveGeneration. destruct (nextGenerationLocked s now) as [[g s']|e] eqn:E; [|done].
    destruct (settle_wf s now 0 g s' Hs E) as (H & _ & _ & H' & _). done.
  - unfold EnsureGenFloor. destruct (Z.ltb_spec (st_nextGen s) floor); [|done]. split; [apply set_nextGen_wf; [done|lia]|cbn; lia].
  - split; [by apply SealHeadChunks_wf|done].
  - split; [by apply SetHeadFence_wf|done].
  - destruct (DiscardSealedChunks_spec s snap Hs) as (H1 & _ & ->). done.
  - destruct (RemoveEmptySeries_spec s id Hs) as (H1 & -> & _). done.
Qed.

Lemma NewMemoryStore_wf : store_wf NewMemoryStore.
Proof.
  split; cbn [NewMemoryStore st_series st_tenants st_idx st_nextGen].
  - intros id ms. by rewrite lookup_empty.
  - intros id1 m1 id2 m2 r. by rewrite lookup_empty.
  - rewrite fmap_empty. apply NewMemPostings_rep.
  - intros t. rewrite lookup_empty. done.
  - done.
Qed.
Lemma reachable_wf s : reachable s -> store_wf s.
Proof. induction 1; [apply NewMemoryStore_wf|by apply step_wf]. Qed.
Lemma run_wf s ops : store_wf s -> ops_ok s ops -> store_wf (run s ops) /\ st_nextGen s <= st_nextGen (run s ops).
Proof.
  revert s. induction ops as [|op ops IH]; intros s Hs Hok; [done|]. destruct Hok as [H1 H2]. destruct (step_wf s op Hs H1) as [H3 H4].
  destruct (IH _ H3 H2) as [H5 H6]. split; [done|]. etrans; [exact H4|exact H6].
Qed.
Lemma reachable_run s ops : reachable s -> ops_ok s ops -> reachable (run s ops).
Proof. revert s. induction ops as [|op ops IH]; intros s Hs Hok; [done|]. destruct Hok. apply IH; [by constructor|done]. Qed.

(** *** Sealed chunks stay where they are until they are discarded *)

Definition holds (s : MemoryStore) (id : Z) (l : Labels) (rc : Z * Chunk) : Prop :=
  exists ms, st_series s !! id = Some ms /\ ms_labels ms = l /\ rc ∈ ms_chunks ms.

Lemma append_keeps s now lbls ts val seg gen id l rc : store_wf s -> labels_wf lbls -> no_clash s lbls ->
  holds s id l rc -> sealed rc.2 = true -> holds (appendInternal s now lbls ts val seg gen).2 id l rc.
Proof.
  intros Hs Hl Hnc (ms0 & E0 & El0 & Hrc0) Hsealed. unfold appendInternal.
  destruct (settle_gen s now gen) as [[g s1]|e] eqn:Eset; [|by exists ms0].
  pose proof (settle_wf _ _ _ _ _ Hs Eset) as (Hs1 & Eser & _).
  assert (Hnc1 : forall ms, st_series s1 !! Hash lbls = Some ms -> ms_labels ms = lbls) by (rewrite Eser; exact Hnc).
  destruct (ensure_series s1 lbls) as [ms s2] eqn:Eens.
  destruct (ensure_series_wf _ _ _ _ Hs1 Hl Hnc1 Eens) as (Hs2 & Elk & Elb & _ & _ & Hother & _ & Hchunks).
  fold (counted s2 ms (TenantOf lbls)). destruct (counted_fields s2 ms (TenantOf lbls)) as (F1 & _).
  destruct (ensure_chunk (counted s2 ms (TenantOf lbls)) ms seg) as [ms1 s3] eqn:Ech.
  destruct (ensure_chunk_spec _ (Hash lbls) _ _ _ _ (series_wf_counted _ _ _ _ _ (st_series_wf s2 Hs2 _ _ Elk)) Ech)
    as (_ & (pre & rcl & E1 & Hopen) & _ & Hl1 & G1 & _ & _ & _ & _ & _ & [tl Htl]).
  assert (Hput : forall ms', ms_labels ms' = lbls -> (exists c, ms_chunks ms' = pre ++ [c]) -> holds (put_series s3 (Hash lbls) ms') id l rc).
  { intros ms' Hlb [c Hc]. unfold holds. cbn [put_series st_series]. destruct (decide (id = Hash lbls)) as [->|Hne].
    - exists ms'. rewrite lookup_insert_eq. split; [done|]. rewrite <- El0, (Hnc _ E0). split; [done|].
      rewrite Eser, E0 in Hchunks. cbn in Hchunks. rewrite Hc. apply elem_of_app. left.
      assert (Hin : rc ∈ pre ++ [rcl]) by (rewrite <- E1, Htl, Hchunks; apply elem_of_app; by left).
      apply elem_of_app in Hin as [|Hin%list_elem_of_singleton]; [done|]. congruence.
    - exists ms0. rewrite lookup_insert_ne, G1, F1, Hother, Eser by done. done. }
  rewrite E1, last_snoc. destruct (Append rcl.2 ts val g) as [c'|e]; cbn [snd]; apply Hput; cbn [ms_labels ms_chunks].
  - congruence.
  - rewrite set_last_app. by eexists.
  - congruence.
  - by eexists.
Qed.

Definition not_discard (op : store_op) : Prop := match op with OpDiscard _ => False | _ => True end.

Lemma step_keeps s op id l rc : store_wf s -> op_ok s op -> not_discard op ->
  holds s id l rc -> sealed rc.2 = true -> holds (store_step s op) id l rc.
Proof.
  intros Hs Hop Hnd Hh Hsealed. pose proof Hh as (ms & E & El & Hrc).
  destruct op as [now lbls ts val seg gen|now|floor| |seg|snap|i]; cbn [store_step].
  - destruct Hop as (Hl & Hnc & _). by apply append_keeps.
  - unfold ReserveGeneration. destruct (nextGenerationLocked s now) as [[g s']|e] eqn:Er; [|done].
    destruct (settle_wf s now 0 g s' Hs Er) as (_ & Eser & _). exists ms. by rewrite Eser.
  - unfold EnsureGenFloor. by destruct (_ <? _).
  - exists (seal_head ms).1. cbn [SealHeadChunks snd with_series st_series]. rewrite lookup_fmap, E.
    destruct (seal_head_wf s id ms (st_series_wf s Hs _ _ E)) as (_ & Hl & _ & _ & Hkeep & _). split; [done|]. split; [congruence|by apply Hkeep].
  - eexists. cbn [SetHeadFence with_series st_series]. rewrite lookup_fmap, E. split; [reflexivity|]. done.
  - done.
  - destruct (RemoveEmptySeries_spec s i Hs) as (_ & _ & H & _). exists ms. split; [|done]. apply H; [done|]. intros Hn.
    rewrite Hn in Hrc. by apply not_elem_of_nil in Hrc.
Qed.

Lemma run_keeps s ops id l rc : store_wf s -> ops_ok s ops -> Forall not_discard ops ->
  holds s id l rc -> sealed rc.2 = true -> holds (run s ops) id l rc.
Proof.
  revert s. induction ops as [|op ops IH]; intros s Hs Hok Hnd Hh Hsl; [done|]. destruct Hok as [H1 H2].
  apply Forall_cons in Hnd as [Hn Hnd]. apply IH; [by apply step_wf|done|done|by apply step_keeps|done].
Qed.

(** *** Flushing *)

Lemma elem_of_snapshot s sc : sc ∈ SealedChunksSnapshot s <->
  exists ms, st_series s !! sc_ID sc = Some ms /\ sc_Labels sc = ms_labels ms /\
    sc_Chunks sc = filter (fun rc => sealed rc.2 = true) (ms_chunks ms) /\ sc_Chunks sc <> [].
Proof.
  unfold SealedChunksSnapshot. rewrite list_elem_of_omap. split.
  - intros ([id ms] & E%elem_of_map_to_list & H). cbn [fst snd] in H. exists ms.
    destruct (filter _ (ms_chunks ms)) as [|c cs]; [done|]. injection H as <-. done.
  - intros (ms & E & Hl & Hc & Hne). exists (sc_ID sc, ms). split; [by apply elem_of_map_to_list|]. cbn [fst snd].
    rewrite Hc in Hne. destruct sc as [i l cs]. cbn in *. subst l cs. by destruct (filter _ (ms_chunks ms)).
Qed.

Lemma snapshot_NoDup s : NoDup (sc_ID <$> SealedChunksSnapshot s).
Proof.
  unfold SealedChunksSnapshot. pose proof (NoDup_fst_map_to_list (st_series s)) as Hnd.
  induction (map_to_list (st_series s)) as [|[id ms] l IH]; [constructor|]. rewrite fmap_cons in Hnd. apply NoDup_cons in Hnd as [Hn Hnd].
  cbn [omap list_omap fst snd]. destruct (filter _ (ms_chunks ms)) as [|c cs]; [by apply IH|]. rewrite fmap_cons. constructor; [|by apply IH].
  cbn [sc_ID]. intros (sc & Hid & (e & He & H)%list_elem_of_omap)%list_elem_of_fmap. apply Hn. apply list_elem_of_fmap. exists e.
  split; [|done]. rewrite Hid. destruct (filter _ (ms_chunks e.2)); [done|]. by injection H as <-.
Qed.

(** The chunks, and the writes, a snapshot carries for a label set. *)
Definition snapshot_chunks (snap : list SeriesChunks) (l : Labels) : list (Z * Chunk) :=
  snap ≫= fun sc => if decide (sc_Labels sc = l) then sc_Chunks sc else [].
Definition snapshot_samples (snap : list SeriesChunks) (l : Labels) : list sample :=
  snapshot_chunks snap l ≫= fun rc => samples_of rc.2.

Lemma snapshot_holds s sc rc : sc ∈ SealedChunksSnapshot s -> rc ∈ sc_Chunks sc ->
  holds s (sc_ID sc) (sc_Labels sc) rc /\ sealed rc.2 = true.
Proof.
  intros (ms & E & Hl & Hc & _)%elem_of_snapshot Hrc. rewrite Hc in Hrc. apply list_elem_of_filter in Hrc as [Hs Hrc].
  split; [|done]. by exists ms.
Qed.

Lemma holds_ref s id1 l1 rc1 id2 l2 rc2 : store_wf s -> holds s id1 l1 rc1 -> holds s id2 l2 rc2 -> rc1.1 = rc2.1 ->
  id1 = id2 /\ l1 = l2 /\ rc1 = rc2.
Proof.
  intros Hs (m1 & E1 & H1 & R1) (m2 & E2 & H2 & R2) Hr.
  assert (id1 = id2) as ->.
  { eapply (st_refs s Hs); [exact E1|exact E2|by apply list_elem_of_fmap_2|]. rewrite Hr. by apply list_elem_of_fmap_2. }
  simplify_eq. split_and!; try done. pose proof (sw_refs _ _ _ (st_series_wf s Hs _ _ E1)) as Hnd.
  apply list_elem_of_lookup in R1 as [i R1]. apply list_elem_of_lookup in R2 as [j R2].
  assert (i = j) as ->; [|congruence]. eapply NoDup_lookup; [exact Hnd| |]; rewrite list_lookup_fmap; [by rewrite R1|by rewrite R2, Hr].
Qed.

Lemma snapshot_chunks_NoDup s l : store_wf s -> NoDup (snapshot_chunks (SealedChunksSnapshot s) l).
Proof.
  intros Hs. apply NoDup_bind.
  - intros sc1 sc2 rc H1 H2 R1 R2. destruct (decide (sc_Labels sc1 = l)); [|by apply not_elem_of_nil in R1].
    destruct (decide (sc_Labels sc2 = l)); [|by apply not_elem_of_nil in R2].
    destruct (snapshot_holds s sc1 rc H1 R1) as [P1 _]. destruct (snapshot_holds s sc2 rc H2 R2) as [P2 _].
    destruct (holds_ref _ _ _ _ _ _ _ Hs P1 P2 eq_refl) as (Hid & _ & _).
    apply list_elem_of_lookup in H1 as [i H1]. apply list_elem_of_lookup in H2 as [j H2].
    assert (i = j) as ->; [|congruence]. eapply NoDup_lookup; [apply (snapshot_NoDup s)| |]; rewrite list_lookup_fmap; [by rewrite H1|by rewrite H2, Hid].
  - intros sc (ms & E & _ & Hc & _)%elem_of_snapshot. destruct (decide _); [|constructor]. rewrite Hc.
    eapply sublist_NoDup; [|apply sublist_filter]. eapply NoDup_fmap_1, (sw_refs _ _ _ (st_series_wf s Hs _ _ E)).
  - eapply NoDup_fmap_1, snapshot_NoDup.
Qed.

Lemma filter_split_perm {A} (P : A -> Prop) `{!forall x, Decision (P x)} l : l ≡ₚ filter P l ++ filter (fun x => ~ P x) l.
Proof.
  induction l as [|x l IH]; [done|]. rewrite !filter_cons. destruct (decide (P x)).
  - rewrite decide_False by tauto. cbn. by rewrite <- IH.
  - rewrite decide_True by done. rewrite <- Permutation_middle. by rewrite <- IH.
Qed.

Lemma elem_of_refs snap r : r ∈ snapshot_refs snap <-> exists sc rc, sc ∈ snap /\ rc ∈ sc_Chunks sc /\ rc.1 = r.
Proof.
  unfold snapshot_refs. rewrite elem_of_list_to_set, list_elem_of_bind. split.
  - intros (sc & (rc & -> & Hrc)%list_elem_of_fmap & Hsc). by exists sc, rc.
  - intros (sc & rc & Hsc & Hrc & <-). exists sc. split; [by apply list_elem_of_fmap_2|done].
Qed.

Lemma discard_perm s ops l : store_wf s -> ops_ok s ops -> Forall not_discard ops ->
  let snap := SealedChunksSnapshot s in let s2 := run s ops in
  default [] (store_db s2 l) ≡ₚ snapshot_samples snap l ++ default [] (store_db (DiscardSealedChunks s2 snap) l).
Proof.
  intros Hs Hok Hnd snap s2. destruct (run_wf s ops Hs Hok) as [Hs2 _]. fold s2 in Hs2.
  destruct (DiscardSealedChunks_spec s2 snap Hs2) as (_ & Hser & _).
  assert (Hkept : forall sc rc, sc ∈ snap -> rc ∈ sc_Chunks sc -> holds s2 (sc_ID sc) (sc_Labels sc) rc).
  { intros sc rc Hsc Hrc. destruct (snapshot_holds s sc rc Hsc Hrc) as [Hh Hsl]. by apply run_keeps. }
  rewrite (store_db_map s2 _ (keep_chunks (snapshot_refs snap)) l Hser) by done. unfold store_db.
  assert (Hin : forall rc, rc ∈ snapshot_chunks snap l -> holds s2 (Hash l) l rc /\ rc.1 ∈ snapshot_refs snap).
  { intros rc (sc & Hrc & Hsc)%list_elem_of_bind. destruct (decide (sc_Labels sc = l)) as [<-|]; [|by apply not_elem_of_nil in Hrc].
    pose proof (Hkept _ _ Hsc Hrc) as Hh. pose proof Hh as (ms & E & El & _). rewrite <- El. rewrite (sw_id _ _ _ (st_series_wf s2 Hs2 _ _ E)), El.
    split; [done|]. apply elem_of_refs. by exists sc, rc. }
  destruct (st_series s2 !! Hash l) as [ms|] eqn:E; [destruct (decide (ms_labels ms = l)) as [El|Hne]|]; cbn [mbind option_bind fmap option_fmap option_map default].
  - rewrite decide_True by done. cbn [fmap option_fmap option_map default from_option id]. pose proof (st_series_wf s2 Hs2 _ _ E) as Hm.
    unfold ws_of at 2. rewrite (kept_chunks _ _ _ _ Hm).
    unfold ws_of, snapshot_samples. rewrite (bind_Permutation _ _ _ (filter_split_perm (fun rc => rc.1 ∈ snapshot_refs snap) (ms_chunks ms))), bind_app.
    apply Permutation_app; [apply bind_Permutation, NoDup_Permutation|done].
    + eapply sublist_NoDup; [|apply sublist_filter]. eapply NoDup_fmap_1, (sw_refs _ _ _ Hm).
    + by apply snapshot_chunks_NoDup.
    + intros rc. rewrite list_elem_of_filter. split.
      * intros [(sc & rc' & Hsc & Hrc' & Hr)%elem_of_refs Hrc]. assert (Hh : holds s2 (Hash l) l rc) by (by exists ms).
        destruct (holds_ref _ _ _ _ _ _ _ Hs2 (Hkept _ _ Hsc Hrc') Hh Hr) as (_ & Hl & ->).
        apply list_elem_of_bind. exists sc. split; [by rewrite decide_True|done].
      * intros Hrc. destruct (Hin rc Hrc) as [(ms' & E' & _ & Hms) Href]. by simplify_eq.
  - rewrite decide_False by done. cbn. destruct (snapshot_chunks snap l) as [|rc cs] eqn:Ec; [unfold snapshot_samples; by rewrite Ec|].
    destruct (Hin rc ltac:(by left)) as [(ms' & E' & El & _) _]. by simplify_eq.
  - destruct (snapshot_chunks snap l) as [|rc cs] eqn:Ec; [unfold snapshot_samples; by rewrite Ec|].
    destruct (Hin rc ltac:(by left)) as [(ms' & E' & El & _) _]. by simplify_eq.
Qed.

(** *** Segments, and the newest write *)

Lemma oldest_fold segs o : Forall (fun g => 0 <= g) segs -> -1 <= o ->
  let r := fold_left oldest_step segs o in
  (r = -1 <-> o = -1 /\ segs = []) /\ -1 <= r /\ (0 <= o -> r <= o) /\ Forall (fun g => 0 <= r <= g) segs /\ (r = o \/ r ∈ segs).
Proof.
  revert o. induction segs as [|g segs IH]; intros o HF Ho; cbn [fold_left]; [cbn; split_and!; [tauto|lia|lia|constructor|by left]|].
  apply Forall_cons in HF as [Hg HF]. assert (Hstep : 0 <= oldest_step o g <= g /\ (0 <= o -> oldest_step o g <= o) /\ (oldest_step o g = o \/ oldest_step o g = g)).
  { unfold oldest_step. zbool; cbn; lia. }
  destruct (IH (oldest_step o g) HF ltac:(lia)) as (H1 & H2 & H3 & H4 & H5). split_and!; [split; [|by intros [_ ?]]|lia|lia| |].
  - intros Hr. apply H1 in Hr. lia.
  - constructor; [|done]. specialize (H3 ltac:(lia)). split; [|lia]. destruct (Z.eq_dec (fold_left oldest_step segs (oldest_step o g)) (-1)) as [E|]; [|lia].
    apply H1 in E as [E _]. lia.
  - destruct H5 as [->|H5]; [|right; by right]. destruct Hstep as (_ & _ & [->| ->]); [by left|right; by left].
Qed.

Definition head_segments (s : MemoryStore) : list Z := map_to_list (st_series s) ≫= fun e => ms_segs e.2.
Lemma OldestHeadSegment_fold s : OldestHeadSegment s = fold_left oldest_step (head_segments s) (-1).
Proof.
  unfold OldestHeadSegment, head_segments. generalize (-1). induction (map_to_list (st_series s)) as [|e l IH]; intros o; [done|].
  cbn [fold_left mbind list_bind]. by rewrite fold_left_app, IH.
Qed.

Lemma newest_wins ws x : Forall (fun y => s_gen y < s_gen x) ws ->
  last (filter (fun y => s_ts y <= s_ts x) (sortAndDedup (ws ++ [x]))) = Some x.
Proof.
  intros HF. rewrite <- (sortAndDedup_filter (fun y => s_ts y <= s_ts x)) by (cbn; intros; lia).
  rewrite filter_app, filter_cons_True, filter_nil by lia. set (old := filter _ ws).
  destruct (last (sortAndDedup (old ++ [x]))) as [m|] eqn:E.
  2:{ apply last_sortAndDedup_None in E. by destruct old. }
  apply last_sortAndDedup in E. f_equal. eapply latest_unique; [exact E|]. split; [apply in_app_iff; right; by left|].
  intros y [Hy|[->|[]]]%in_app_iff; [right|by left]. apply list_elem_of_In, list_elem_of_filter in Hy as [Hle Hy].
  rewrite Forall_forall in HF. specialize (HF y Hy). unfold later_than. destruct (Z.eq_dec (s_ts y) (s_ts x)) as [E'|]; [right|left; lia].
  split; [done|]. apply outranks_spec. lia.
Qed.

(** ** Properties *)

(** C7. Reads of the head are exact in every reachable state: whatever the history
    of appends, seals, fences, discards and removals, an uninterrupted [Select]
    (samples, anchors, series-only, any-time) and the label listings answer for
    exactly the writes the head holds; [QueryRange] returns the surviving writes
    of its range and [QueryInstant] the latest surviving write at or before its
    time. A read whose context is cancelled reports the cancellation or returns
    the whole answer, never a part of it. *)
Theorem head_reads_exact (s : MemoryStore) (Hs : reachable s) :
  (forall ctxErr ctx, (forall i, ctxErr i = None) -> Implements (head_source s ctxErr) ctx (store_db s)) /\
  (forall l startMs endMs, QueryRange s (Hash l) startMs endMs =
     (fun ms => filter (fun x => startMs <= s_ts x <= endMs) (sortAndDedup (ws_of ms))) <$> st_series s !! Hash l) /\
  (forall l tMs, QueryInstant s (Hash l) tMs =
     st_series s !! Hash l ≫= fun ms => last (filter (fun x => s_ts x <= tMs) (sortAndDedup (ws_of ms)))) /\
  (forall ctxErr p out, store_Select s ctxErr p = Ok out -> answers (store_db s) p out).
Proof.
  pose proof (reachable_wf s Hs) as Hw. split_and!.
  - intros. by apply head_implements.
  - intros l a b. destruct (st_series s !! Hash l) as [ms|] eqn:E; [by apply QueryRange_spec|]. unfold QueryRange. by rewrite E.
  - intros l t. destruct (st_series s !! Hash l) as [ms|] eqn:E; [by apply QueryInstant_spec|]. unfold QueryInstant. by rewrite E.
  - intros err p out H. unfold store_Select in H. destruct (Validate p) as [[]|]; [|done]. cbn [mbind result_bind] in H.
    destruct (select_ids_all_or_error s p err 0 (postings_Select (st_idx s) (selectorToIndexMatchers (p_sel p)))) as [E|(j & e & _ & _ & E)];
      rewrite E in H; [|done]. injection H as <-. by apply Select_answers.
Qed.

(** A new write is the last write: in any reachable state, for any clock
    reading, an append that asks for a generation either fails with
    [ErrGenerationExhausted] and changes nothing, or succeeds, adds exactly that
    sample to exactly that series, and gets a generation above that of every
    stored sample, so that an instant query at its timestamp returns it. *)
Theorem append_newest_wins (s : MemoryStore) (now : Z) (lbls : Labels) (ts val walSeg : Z) (Hs : reachable s)
  (Hl : labels_wf lbls) (Hnc : no_clash s lbls) (Hts : in_i64 ts) (Hval : in_u64 val) :
  let gen := Z.max (NextGeneration s) now in
  let '(res, s') := AppendTracked s now lbls ts val walSeg in
  if MaxGeneration <? gen then res = Err ErrGenerationExhausted /\ s' = s
  else res = Ok tt /\
    (forall l, store_db s' l = db_add (store_db s) lbls (mkSample ts val gen) l) /\
    (forall l ws, store_db s l = Some ws -> Forall (fun x => s_gen x < gen) ws) /\
    QueryInstant s' (Hash lbls) ts = Some (mkSample ts val gen).
Proof.
  pose proof (reachable_wf s Hs) as Hw. cbn zeta. unfold AppendTracked, NextGeneration.
  destruct (appendInternal_spec s now lbls ts val walSeg 0 Hw Hl Hnc Hts Hval) as (Hw' & _ & Hok & _).
  destruct (Z.ltb_spec MaxGeneration (Z.max (st_nextGen s) now)) as [Hlt|Hle].
  - unfold appendInternal, settle_gen, nextGenerationLocked. cbn [Z.eqb]. by rewrite (proj2 (Z.ltb_lt _ _)).
  - destruct (appendInternal s now lbls ts val walSeg 0) as [res s'] eqn:E. cbn [fst snd] in *.
    destruct Hok as (-> & _ & Hdb); [left; split; [done|lia]|]. change (assigned s now 0) with (Z.max (st_nextGen s) now) in Hdb.
    split; [done|]. split; [done|].
    assert (Hgen : forall l ws, store_db s l = Some ws -> Forall (fun x => s_gen x < Z.max (st_nextGen s) now) ws).
    { intros l ws (ms & Em & _ & <-)%store_db_some; [|done]. eapply Forall_impl; [exact (sw_gens _ _ _ (st_series_wf s Hw _ _ Em))|]. cbn. lia. }
    split; [done|]. specialize (Hdb lbls). unfold db_add in Hdb. rewrite decide_True in Hdb by done.
    apply store_db_some in Hdb as (ms & Em & _ & Hws); [|done]. rewrite (QueryInstant_spec s' _ ms) by done. rewrite Hws.
    apply (newest_wins _ (mkSample ts val (Z.max (st_nextGen s) now))). cbn [s_gen].
    destruct (store_db s lbls) as [ws|] eqn:Ed; [by apply (Hgen lbls)|constructor].
Qed.

(** C24. A flush loses nothing and duplicates nothing: the sealed chunks are
    snapshotted, any sequence of appends, seals, reservations, fences and
    removals then runs while the block is being written, and only then are the
    snapshotted chunks discarded. For every series, what the head held just
    before the discard is exactly what the snapshot carries together with what
    the head still holds, so the reads of block and head together are unchanged. *)
Theorem flush_loses_nothing (s : MemoryStore) (ops : list store_op) (l : Labels) (Hs : reachable s)
  (Hok : ops_ok s ops) (Hnd : Forall not_discard ops) :
  let snap := SealedChunksSnapshot s in
  let before := default [] (store_db (run s ops) l) in
  let after := default [] (store_db (DiscardSealedChunks (run s ops) snap) l) in
  before ≡ₚ snapshot_samples snap l ++ after /\
  sortAndDedup (snapshot_samples snap l ++ after) = sortAndDedup before.
Proof.
  intros snap before after. pose proof (discard_perm s ops l (reachable_wf s Hs) Hok Hnd) as H. split; [exact H|].
  apply sortAndDedup_ext. intros x. apply survives_ext. intros y. fold snap in H. cbn zeta in H. fold before after in H.
  rewrite <- !list_elem_of_In. by rewrite H.
Qed.

(** Sealing the head makes the next flush take all of it: after
    [SealHeadChunks], snapshot and discard, no series holds a sample, and the
    snapshot carries all of them. *)
Theorem seal_flush_takes_all (s : MemoryStore) (l : Labels) (Hs : reachable s) :
  let s1 := (SealHeadChunks s).2 in
  let snap := SealedChunksSnapshot s1 in
  default [] (store_db (DiscardSealedChunks s1 snap) l) = [] /\ snapshot_samples snap l ≡ₚ default [] (store_db s l).
Proof.
  intros s1 snap. pose proof (reachable_wf s Hs) as Hw. destruct (SealHeadChunks_wf s Hw) as [Hw1 Hdb]. fold s1 in Hw1, Hdb.
  assert (Hnil : default [] (store_db (DiscardSealedChunks s1 snap) l) = []).
  { destruct (DiscardSealedChunks_spec s1 snap Hw1) as (_ & Hser & _). rewrite (store_db_map s1 _ (keep_chunks (snapshot_refs snap)) l Hser) by done.
    destruct (st_series s1 !! Hash l) as [ms|] eqn:E; cbn [mbind option_bind]; [|done].
    destruct (decide _); cbn [fmap option_fmap option_map default from_option id]; [|done]. unfold ws_of. rewrite (kept_chunks _ _ _ _ (st_series_wf s1 Hw1 _ _ E)).
    destruct (filter _ (ms_chunks ms) ≫= _) as [|x xs] eqn:Ef; [done|]. exfalso.
    assert (Hx : x ∈ filter (fun rc => rc.1 ∉ snapshot_refs snap) (ms_chunks ms) ≫= fun rc => samples_of rc.2) by (rewrite Ef; by left).
    apply list_elem_of_bind in Hx as (rc & Hx & [Hn Hrc]%list_elem_of_filter). apply Hn, elem_of_refs.
    pose proof E as E0. unfold s1 in E0. cbn in E0. apply lookup_fmap_Some in E0 as (ms0 & <- & E0).
    destruct (seal_head_wf s _ ms0 (st_series_wf s Hw _ _ E0)) as (_ & _ & _ & _ & _ & Hsl).
    destruct (Hsl rc Hrc) as [Hsealed|Hempty]; [|rewrite Hempty in Hx; by apply not_elem_of_nil in Hx].
    assert (Hin : rc ∈ filter (fun rc => sealed rc.2 = true) (ms_chunks (seal_head ms0).1)) by (by apply list_elem_of_filter).
    exists (mkSC (Hash l) (ms_labels (seal_head ms0).1) (filter (fun rc => sealed rc.2 = true) (ms_chunks (seal_head ms0).1))), rc.
    split; [|done]. apply elem_of_snapshot. eexists. split; [exact E|]. split_and!; [done..|]. cbn [sc_Chunks]. intros En. rewrite En in Hin.
    by apply not_elem_of_nil in Hin. }
  split; [done|]. pose proof (discard_perm s1 [] l Hw1 I ltac:(constructor)) as H. cbn zeta in H. cbn [run fold_left] in H. fold snap in H.
  rewrite Hnil, app_nil_r, Hdb in H. by rewrite H.
Qed.

(** The per-tenant series counts the admission gate reads are exact in every
    reachable state: a tenant's count is the number of series of that tenant
    whose head holds chunks, tenants without one are absent, and [HasSeries] says
    precisely which series those are. *)
Theorem tenant_counts_exact (s : MemoryStore) (Hs : reachable s) :
  (forall t, TenantSeries s t = Z.of_nat (size (filter (fun e => ms_chunks e.2 <> [] /\ TenantOf (ms_labels e.2) = t) (st_series s)))) /\
  (forall t, TenantSeriesCounts s !! t = None <-> TenantSeries s t = 0) /\
  (forall id, HasSeries s id = true <-> exists ms, st_series s !! id = Some ms /\ ms_chunks ms <> []).
Proof.
  pose proof (reachable_wf s Hs) as Hw.
  assert (Hcount : forall t, TenantSeries s t = active_count (st_series s) t).
  { intros t. unfold TenantSeries. by rewrite (counts_rep_default _ _ _ (st_counts s Hw)). }
  split_and!.
  - intros t. rewrite Hcount. unfold active_count. done.
  - intros t. rewrite Hcount. unfold TenantSeriesCounts. rewrite (st_counts s Hw t). by destruct (Z.eqb_spec (active_count (st_series s) t) 0).
  - intros id. unfold HasSeries. destruct (st_series s !! id) as [ms|]; [|naive_solver]. destruct (ms_chunks ms) eqn:E; [naive_solver|].
    split; [intros _; exists ms; split; [done|congruence]|done].
Qed.

(** The WAL deletion boundary is safe: with segments numbered from zero,
    [OldestHeadSegment] is -1 exactly when no chunk is in memory, and otherwise it
    is the segment of some chunk in memory and at most the segment of every one. *)
Theorem oldest_segment_bounds (s : MemoryStore) (Hseg : Forall (fun g => 0 <= g) (head_segments s)) :
  (OldestHeadSegment s = -1 <-> head_segments s = []) /\
  (head_segments s <> [] -> OldestHeadSegment s ∈ head_segments s) /\
  Forall (fun g => OldestHeadSegment s <= g) (head_segments s).
Proof.
  rewrite OldestHeadSegment_fold. destruct (oldest_fold (head_segments s) (-1) Hseg ltac:(lia)) as (H1 & _ & _ & H4 & H5).
  split_and!; [rewrite H1; tauto| |eapply Forall_impl; [exact H4|]; cbn; lia].
  intros Hne. destruct H5 as [H5|?]; [|done]. apply H1 in H5 as [_ ?]. done.
Qed.

(** *** Witnesses *)

Definition clash_free (s : MemoryStore) (lbls : Labels) : bool :=
  match st_series s !! Hash lbls with Some ms => bool_decide (ms_labels ms = lbls) | None => true end.
Lemma clash_free_ok s lbls : clash_free s lbls = true -> no_clash s lbls.
Proof. unfold clash_free, no_clash. intros H ms E. rewrite E in H. by apply bool_decide_eq_true in H. Qed.

Definition demo_up : Labels := build (<["__name__" := "up"]> (<["__tenant__" := "acme"]> ∅)).
Definition demo_history : list store_op :=
  [OpAppend 100 demo_up 10 1 0 0; OpAppend 100 demo_up 10 2 0 0; OpSeal; OpAppend 100 demo_up 20 3 1 0].
Definition demo_store : MemoryStore := run NewMemoryStore demo_history.
Definition demo_later : list store_op := [OpAppend 100 demo_up 15 4 1 0].

Ltac op_ok_solve :=
  lazymatch goal with
  | |- op_ok _ (OpAppend _ _ _ _ _ _) =>
      split; [exact (build_wf _)|split; [apply clash_free_ok; vm_compute; reflexivity|split; [vm_compute|vm_compute]; split; congruence]]
  | |- op_ok _ _ => exact I
  end.
Lemma demo_history_ok : ops_ok NewMemoryStore demo_history.
Proof. unfold demo_history. repeat (split; [op_ok_solve|]). exact I. Qed.
Lemma demo_store_reachable : reachable demo_store.
Proof. apply reachable_run; [apply reach_new|apply demo_history_ok]. Qed.

Lemma head_reads_exact_witness : QueryInstant demo_store (Hash demo_up) 15 = Some (mkSample 10 2 101) /\
  Implements (head_source demo_store (fun _ => None)) None (store_db demo_store).
Proof.
  destruct (head_reads_exact demo_store demo_store_reachable) as (H & _). split; [vm_compute; reflexivity|].
  apply H. reflexivity.
Defined.

Lemma append_newest_wins_witness :
  QueryInstant (AppendTracked demo_store 50 demo_up 10 9 1).2 (Hash demo_up) 10 = Some (mkSample 10 9 103).
Proof.
  pose proof (append_newest_wins demo_store 50 demo_up 10 9 1 demo_store_reachable) as H. cbn zeta in H.
  assert (Hg : Z.max (NextGeneration demo_store) 50 = 103) by (vm_compute; reflexivity). rewrite Hg in H.
  destruct (AppendTracked demo_store 50 demo_up 10 9 1) as [res s'].
  apply H; [exact (build_wf _)|apply clash_free_ok; vm_compute; reflexivity|vm_compute; split; congruence|vm_compute; split; congruence].
Defined.

Lemma flush_loses_nothing_witness :
  sortAndDedup (snapshot_samples (SealedChunksSnapshot demo_store) demo_up
    ++ default [] (store_db (DiscardSealedChunks (run demo_store demo_later) (SealedChunksSnapshot demo_store)) demo_up))
  = [mkSample 10 2 101; mkSample 15 4 103; mkSample 20 3 102].
Proof.
  destruct (flush_loses_nothing demo_store demo_later demo_up demo_store_reachable) as [_ H];
    [split; [op_ok_solve|exact I]|repeat constructor|]. rewrite H. vm_compute. reflexivity.
Defined.

Lemma seal_flush_takes_all_witness :
  default [] (store_db (DiscardSealedChunks (SealHeadChunks demo_store).2 (SealedChunksSnapshot (SealHeadChunks demo_store).2)) demo_up) = [].
Proof. apply (seal_flush_takes_all demo_store demo_up demo_store_reachable). Defined.

Lemma tenant_counts_exact_witness : TenantSeries demo_store "acme" = 1 /\ HasSeries demo_store (Hash demo_up) = true.
Proof.
  destruct (tenant_counts_exact demo_store demo_store_reachable) as (_ & _ & H). split; [vm_compute; reflexivity|].
  apply H. destruct (st_series demo_store !! Hash demo_up) as [ms|] eqn:E; [|vm_compute in E; discriminate E].
  exists ms. split; [reflexivity|]. intros En. assert (Hc : ChunkCount demo_store (Hash demo_up) = 2%nat) by (vm_compute; reflexivity).
  unfold ChunkCount in Hc. rewrite E, En in Hc. discriminate Hc.
Defined.

Lemma oldest_segment_bounds_witness : OldestHeadSegment demo_store = 0 /\ Forall (fun g => OldestHeadSegment demo_store <= g) (head_segments demo_store).
Proof.
  split; [vm_compute; reflexivity|]. apply (oldest_segment_bounds demo_store).
  replace (head_segments demo_store) with [0; 1] by (vm_compute; reflexivity). repeat constructor; lia.
Defined.
