(* ===== verification/Batch.v ===== *)
(** * Batch: cutting a flush into requests

    [internal/metrics/headstore.go]: the wire-size estimates and
    [batchSeriesChunks], which splits a flush so that no request passes the byte
    limit and no series passes the chunk limit of a block. Sizes are sums of the
    lengths of objects in memory, far from the width of an int. *)
From S2P Require Import Prelude GoLib Labels Chunk MemStore.

(** ** Wire sizes *)

(** The bytes of the first rune of [l]; [None] is an invalid encoding, which
    [utf8.DecodeRuneInString] reports as one byte. *)
Definition cont (b : Z) : bool := (128 <=? b) && (b <=? 191).
Definition rune_len (l : list Z) : option nat :=
  match l with
  | [] => None
  | b0 :: r0 =>
      if b0 <? 128 then Some 1%nat else
      match r0 with
      | [] => None
      | b1 :: r1 =>
          if ((194 <=? b0) && (b0 <=? 223))%bool then (if cont b1 then Some 2%nat else None) else
          match r1 with
          | [] => None
          | b2 :: r2 =>
              if b0 =? 224 then (if ((160 <=? b1) && (b1 <=? 191) && cont b2)%bool then Some 3%nat else None)
              else if b0 =? 237 then (if ((128 <=? b1) && (b1 <=? 159) && cont b2)%bool then Some 3%nat else None)
              else if ((225 <=? b0) && (b0 <=? 239))%bool then (if (cont b1 && cont b2)%bool then Some 3%nat else None)
              else match r2 with
              | [] => None
              | b3 :: _ =>
                  if b0 =? 240 then (if ((144 <=? b1) && (b1 <=? 191) && cont b2 && cont b3)%bool then Some 4%nat else None)
                  else if ((241 <=? b0) && (b0 <=? 243))%bool then (if (cont b1 && cont b2 && cont b3)%bool then Some 4%nat else None)
                  else if b0 =? 244 then (if ((128 <=? b1) && (b1 <=? 143) && cont b2 && cont b3)%bool then Some 4%nat else None)
                  else None
              end
          end
      end
  end.
(** U+2028 and U+2029. *)
Definition line_separator (l : list Z) : bool :=
  match l with b0 :: b1 :: b2 :: _ => ((b0 =? 226) && (b1 =? 128) && ((b2 =? 168) || (b2 =? 169)))%bool | _ => false end.
Definition short_escape (b : Z) : bool := ((b =? 8) || (b =? 9) || (b =? 10) || (b =? 12) || (b =? 13))%bool.
Definition quote_escape (b : Z) : bool := ((b =? 34) || (b =? 92))%bool.

Fixpoint json_bytes_go (fuel : nat) (l : list Z) : Z :=
  match fuel, l with
  | O, _ | _, [] => 0
  | S f, b :: rest =>
      if b <? 128 then
        (if short_escape b then 2 else if quote_escape b then 2 else if b <? 32 then 6 else 1) + json_bytes_go f rest
      else
        let size := default 1%nat (rune_len l) in
        (if line_separator l then 6 else Z.of_nat size) + json_bytes_go f (drop size l)
  end.
Definition jsonStringBytes (s : string) : Z := 2 + json_bytes_go (String.length s) (str_bytes s).

Definition chunkFramingBytes : Z := 2 + 1.
Definition seriesFramingBytes : Z := 32.
Definition labelFramingBytes : Z := 1 + 1.
(** [base64.StdEncoding.EncodedLen] *)
Definition EncodedLen (n : Z) : Z := (n + 2) / 3 * 4.
Definition chunkWireBytes (rawLen : Z) : Z := EncodedLen rawLen + chunkFramingBytes.
Definition seriesOpenWireBytes (l : Labels) : Z :=
  map_fold (fun name value n => n + (labelFramingBytes + jsonStringBytes name + jsonStringBytes value)) seriesFramingBytes (labels_Map l).

(** ** Batches *)

Definition chunk_wire (rc : Z * Chunk) : Z := chunkWireBytes (Z.of_nat (length (Bytes rc.2))).

Record batching := mkBatching { b_batches : list (list SeriesChunks); b_cur : list SeriesChunks; b_size : Z }.
(** The part being filled for series [sc]: its chunks, and what opening it costs
    until its first chunk is charged. *)
Definition add_chunk (limit : Z) (maxChunks : nat) (sc : SeriesChunks) (acc : batching * list (Z * Chunk) * Z) (rc : Z * Chunk)
  : batching * list (Z * Chunk) * Z :=
  let '(st, part, open) := acc in
  let n := chunk_wire rc + open in
  if (((0 <? b_size st) && (limit <? b_size st + n)) || (maxChunks <=? length part)%nat)%bool then
    match part with
    | [] => (mkBatching (b_batches st ++ [b_cur st]) [] n, [rc], 0)
    | _ => (mkBatching (b_batches st ++ [b_cur st ++ [mkSC (sc_ID sc) (sc_Labels sc) part]]) [] (chunk_wire rc + seriesOpenWireBytes (sc_Labels sc)), [rc], 0)
    end
  else (mkBatching (b_batches st) (b_cur st) (b_size st + n), part ++ [rc], 0).
Definition add_series (limit : Z) (maxChunks : nat) (st : batching) (sc : SeriesChunks) : batching :=
  let '(st, part, _) := fold_left (add_chunk limit maxChunks sc) (sc_Chunks sc) (st, [], seriesOpenWireBytes (sc_Labels sc)) in
  match part with
  | [] => st
  | _ => mkBatching (b_batches st) (b_cur st ++ [mkSC (sc_ID sc) (sc_Labels sc) part]) (b_size st)
  end.
Definition batchSeriesChunks (series : list SeriesChunks) (limit : Z) (maxChunks : nat) : list (list SeriesChunks) :=
  let st := fold_left (add_series limit maxChunks) series (mkBatching [] [] 0) in
  match b_cur st with [] => b_batches st | cur => b_batches st ++ [cur] end.
Definition MaxChunksPerSeries : nat := Z.to_nat 10000.
Definition BatchSeriesChunks (series : list SeriesChunks) (limit : Z) : list (list SeriesChunks) :=
  batchSeriesChunks series limit MaxChunksPerSeries.

(** ** What a batch is *)

Definition flat (b : list SeriesChunks) : list (Z * Labels * (Z * Chunk)) := b ≫= fun sc => (fun rc => (sc_ID sc, sc_Labels sc, rc)) <$> sc_Chunks sc.
Fixpoint sum_wire (cs : list (Z * Chunk)) : Z := match cs with [] => 0 | rc :: cs => chunk_wire rc + sum_wire cs end.
Definition part_size (sc : SeriesChunks) : Z := seriesOpenWireBytes (sc_Labels sc) + sum_wire (sc_Chunks sc).
Fixpoint batch_size (b : list SeriesChunks) : Z := match b with [] => 0 | sc :: b => part_size sc + batch_size b end.
(** A request a store accepts: something in it, no series twice, no series past the
    chunk limit, and within the byte limit unless it is a single chunk. *)
Record batch_ok (limit : Z) (maxChunks : nat) (b : list SeriesChunks) : Prop := {
  bo_some : b <> [];
  bo_chunks : Forall (fun sc => (0 < length (sc_Chunks sc) <= maxChunks)%nat) b;
  bo_ids : NoDup (sc_ID <$> b);
  bo_size : batch_size b <= limit \/ length (flat b) = 1%nat }.

Lemma json_bytes_nonneg f l : 0 <= json_bytes_go f l.
Proof.
  revert l. induction f as [|f IH]; intros [|b l]; cbn [json_bytes_go]; try lia. destruct (b <? 128).
  - pose proof (IH l). destruct (short_escape b), (quote_escape b), (b <? 32); lia.
  - pose proof (IH (drop (default 1%nat (rune_len (b :: l))) (b :: l))). destruct (line_separator _); lia.
Qed.
Lemma seriesOpen_pos l : 0 < seriesOpenWireBytes l.
Proof.
  unfold seriesOpenWireBytes. apply (map_fold_weak_ind (fun n _ => 0 < n)); [done|]. intros name value m n _ Hn. unfold jsonStringBytes, labelFramingBytes.
  pose proof (json_bytes_nonneg (String.length name) (str_bytes name)). pose proof (json_bytes_nonneg (String.length value) (str_bytes value)). lia.
Qed.
Lemma chunk_wire_pos rc : 0 < chunk_wire rc.
Proof.
  unfold chunk_wire, chunkWireBytes, EncodedLen, chunkFramingBytes. assert (0 <= (Z.of_nat (length (Bytes rc.2)) + 2) / 3) by (apply Z.div_pos; lia). lia.
Qed.
Lemma sum_wire_nonneg cs : 0 <= sum_wire cs.
Proof. induction cs as [|rc cs IH]; cbn [sum_wire]; [lia|]. pose proof (chunk_wire_pos rc). lia. Qed.
Lemma part_size_pos sc : 0 < part_size sc.
Proof. unfold part_size. pose proof (seriesOpen_pos (sc_Labels sc)). pose proof (sum_wire_nonneg (sc_Chunks sc)). lia. Qed.
Lemma batch_size_nonneg b : 0 <= batch_size b.
Proof. induction b as [|sc b IH]; cbn [batch_size]; [lia|]. pose proof (part_size_pos sc). lia. Qed.
Lemma batch_size_zero b : batch_size b <= 0 -> b = [].
Proof. destruct b as [|sc b]; [done|]. cbn [batch_size]. pose proof (part_size_pos sc). pose proof (batch_size_nonneg b). lia. Qed.
Lemma batch_size_app b b' : batch_size (b ++ b') = batch_size b + batch_size b'.
Proof. induction b as [|sc b IH]; cbn [app batch_size]; lia. Qed.
Lemma sum_wire_app cs cs' : sum_wire (cs ++ cs') = sum_wire cs + sum_wire cs'.
Proof. induction cs as [|rc cs IH]; cbn [app sum_wire]; lia. Qed.
Lemma flat_app b b' : flat (b ++ b') = flat b ++ flat b'.
Proof. apply bind_app. Qed.

Section cutting.
Context (limit : Z) (maxChunks : nat) (Hmax : (0 < maxChunks)%nat).

(** The batch being filled: what is complete of it, and the part of series [sc]. *)
Definition open_part (sc : SeriesChunks) (part : list (Z * Chunk)) : list SeriesChunks :=
  match part with [] => [] | _ => [mkSC (sc_ID sc) (sc_Labels sc) part] end.
Definition open_batch (sc : SeriesChunks) (st : batching) (part : list (Z * Chunk)) : list SeriesChunks := b_cur st ++ open_part sc part.

Record filling (sc : SeriesChunks) (st : batching) (part : list (Z * Chunk)) (open : Z) (done_ : list (Z * Labels * (Z * Chunk))) : Prop := {
  fl_flat : (b_batches st ≫= flat) ++ flat (open_batch sc st part) = done_;
  fl_batches : Forall (batch_ok limit maxChunks) (b_batches st);
  fl_open : open_batch sc st part = [] \/ batch_ok limit maxChunks (open_batch sc st part);
  fl_size : b_size st = batch_size (open_batch sc st part);
  fl_charge : open = match part with [] => seriesOpenWireBytes (sc_Labels sc) | _ => 0 end;
  fl_new : sc_ID sc ∉ sc_ID <$> b_cur st }.

Lemma flat_part sc rcs : flat (open_part sc rcs) = (fun rc => (sc_ID sc, sc_Labels sc, rc)) <$> rcs.
Proof. destruct rcs; [done|]. unfold flat. cbn [open_part mbind list_bind]. apply app_nil_r. Qed.
Lemma open_part_snoc sc part rc : open_part sc (part ++ [rc]) = [mkSC (sc_ID sc) (sc_Labels sc) (part ++ [rc])].
Proof. by destruct part. Qed.
Lemma part_single sc rc : batch_ok limit maxChunks (open_part sc [rc]).
Proof. split; cbn; [done|apply Forall_singleton; cbn; lia|by apply NoDup_singleton|by right]. Qed.

Lemma add_chunk_filling sc st part open done_ rc : filling sc st part open done_ ->
  let '(st', part', open') := add_chunk limit maxChunks sc (st, part, open) rc in filling sc st' part' open' (done_ ++ [(sc_ID sc, sc_Labels sc, rc)]).
Proof.
  intros [Hflat Hb Ho Hs Hc Hn]. unfold add_chunk. set (n := chunk_wire rc + open).
  destruct (((0 <? b_size st) && (limit <? b_size st + n)) || (maxChunks <=? length part)%nat)%bool eqn:Hcut.
  - assert (Hne : open_batch sc st part <> []).
    { intros E. rewrite Hs, E in Hcut. cbn [batch_size] in Hcut. change (0 <? 0) with false in Hcut. cbn [andb orb] in Hcut. apply Nat.leb_le in Hcut.
      unfold open_batch in E. apply app_nil in E as [_ E]. destruct part; [cbn in Hcut; lia|done]. }
    destruct Ho as [|Hok]; [done|]. pose proof (part_single sc rc) as Hnew. unfold open_batch in *.
    destruct part as [|rc0 part]; cbn [open_part] in *; split; cbn [b_batches b_cur b_size open_batch open_part app]; try done.
    + rewrite bind_app, <- Hflat, !app_nil_r. cbn [mbind list_bind]. by rewrite app_nil_r.
    + apply Forall_app. split; [done|]. rewrite app_nil_r in Hok. by apply Forall_singleton.
    + by right.
    + unfold n. rewrite Hc. cbn [batch_size app]. unfold part_size. cbn [sum_wire sc_Labels sc_Chunks]. lia.
    + by apply not_elem_of_nil.
    + rewrite bind_app, <- Hflat. cbn [mbind list_bind]. by rewrite app_nil_r.
    + apply Forall_app. split; [done|]. by apply Forall_singleton.
    + by right.
    + cbn [batch_size app]. unfold part_size. cbn [sum_wire sc_Labels sc_Chunks]. lia.
    + by apply not_elem_of_nil.
  - apply orb_false_iff in Hcut as [Hsz Hlen]. apply Nat.leb_gt in Hlen.
    assert (Hsize : b_size st + n = batch_size (open_batch sc st (part ++ [rc]))).
    { rewrite Hs. unfold open_batch. rewrite !batch_size_app, open_part_snoc. unfold n. destruct part; subst open; unfold open_part; cbn [batch_size]; unfold part_size; cbn [sc_Labels sc_Chunks]; rewrite ?sum_wire_app; cbn [sum_wire app]; lia. }
    split; cbn [b_batches b_cur b_size]; try done.
    + rewrite <- Hflat. unfold open_batch. cbn [b_cur]. by rewrite !flat_app, !flat_part, fmap_app, !app_assoc.
    + right. assert (Hcur : Forall (fun sc => (0 < length (sc_Chunks sc) <= maxChunks)%nat) (b_cur st) /\ NoDup (sc_ID <$> b_cur st)).
      { destruct Ho as [E|[_ H1 H2 _]]; [apply app_nil in E as [-> _]; split; constructor|]. unfold open_batch in H1, H2. apply Forall_app in H1 as [H1 _]. rewrite fmap_app in H2. by apply NoDup_app in H2 as (H2 & _). }
      destruct Hcur as [Hch Hnd]. change (open_batch sc (mkBatching (b_batches st) (b_cur st) (b_size st + n)) (part ++ [rc])) with (open_batch sc st (part ++ [rc])).
      split; unfold open_batch in *; rewrite ?open_part_snoc in *.
      * by destruct (b_cur st).
      * apply Forall_app. split; [done|]. apply Forall_singleton. cbn. rewrite length_app. cbn. lia.
      * rewrite fmap_app. apply NoDup_app. split_and!; [done| |apply NoDup_singleton]. intros x Hx. cbn. rewrite list_elem_of_singleton. by intros ->.
      * rewrite <- Hsize. destruct (Z.ltb_spec 0 (b_size st)) as [Hp|Hp].
        -- left. cbn in Hsz. by apply Z.ltb_ge in Hsz.
        -- right. rewrite Hs in Hp. apply batch_size_zero in Hp. apply app_nil in Hp as [-> E]. by destruct part.
    + destruct part; done.
Qed.

Lemma add_chunks_filling sc rcs st part open done_ : filling sc st part open done_ ->
  let '(st', part', open') := fold_left (add_chunk limit maxChunks sc) rcs (st, part, open) in
  filling sc st' part' open' (done_ ++ ((fun rc => (sc_ID sc, sc_Labels sc, rc)) <$> rcs)).
Proof.
  revert st part open done_. induction rcs as [|rc rcs IH]; intros st part open done_ Hf; cbn [fold_left fmap list_fmap]; [by rewrite app_nil_r|].
  pose proof (add_chunk_filling sc st part open done_ rc Hf) as Hf'. destruct (add_chunk limit maxChunks sc (st, part, open) rc) as [[st1 part1] open1].
  specialize (IH _ _ _ _ Hf'). by rewrite <- app_assoc in IH.
Qed.

(** Between two series: everything so far is in the batches, which are fine. *)
Record filled (st : batching) (seen : list SeriesChunks) : Prop := {
  fd_flat : (b_batches st ≫= flat) ++ flat (b_cur st) = seen ≫= (fun sc => (fun rc => (sc_ID sc, sc_Labels sc, rc)) <$> sc_Chunks sc);
  fd_batches : Forall (batch_ok limit maxChunks) (b_batches st);
  fd_cur : b_cur st = [] \/ batch_ok limit maxChunks (b_cur st);
  fd_size : b_size st = batch_size (b_cur st);
  fd_seen : forall id, id ∈ sc_ID <$> b_cur st -> id ∈ sc_ID <$> seen }.

Lemma add_chunks_ids sc rcs st part open st' part' open' : fold_left (add_chunk limit maxChunks sc) rcs (st, part, open) = (st', part', open') ->
  b_cur st' = b_cur st \/ b_cur st' = [].
Proof.
  revert st part open. induction rcs as [|rc rcs IH]; intros st part open; cbn [fold_left]; [intros [= <- <- <-]; by left|].
  intros H. unfold add_chunk in H at 2. destruct (_ || _)%bool; [destruct part|]; apply IH in H; cbn in H; tauto.
Qed.
Lemma add_series_filled st seen sc : filled st seen -> sc_ID sc ∉ sc_ID <$> seen -> filled (add_series limit maxChunks st sc) (seen ++ [sc]).
Proof.
  intros [Hflat Hb Hc Hs Hse] Hnew. assert (Hf : filling sc st [] (seriesOpenWireBytes (sc_Labels sc)) (seen ≫= fun sc => (fun rc => (sc_ID sc, sc_Labels sc, rc)) <$> sc_Chunks sc)).
  { split; unfold open_batch; cbn [open_part]; rewrite ?app_nil_r; auto. }
  unfold add_series. pose proof (add_chunks_filling sc (sc_Chunks sc) _ _ _ _ Hf) as Hf'.
  destruct (fold_left _ _ _) as [[st' part'] open'] eqn:E. pose proof (add_chunks_ids _ _ _ _ _ _ _ _ E) as Hids. destruct Hf' as [Hflat' Hb' Ho' Hs' _ Hn'].
  assert (Hcur : forall id, id ∈ sc_ID <$> b_cur st' -> id ∈ sc_ID <$> (seen ++ [sc])).
  { intros id. rewrite fmap_app, elem_of_app. destruct Hids as [->| ->]; [auto|]. by intros ?%elem_of_nil. }
  assert (Hbind : (seen ++ [sc]) ≫= (fun sc => (fun rc => (sc_ID sc, sc_Labels sc, rc)) <$> sc_Chunks sc) =
    (seen ≫= fun sc => (fun rc => (sc_ID sc, sc_Labels sc, rc)) <$> sc_Chunks sc) ++ ((fun rc => (sc_ID sc, sc_Labels sc, rc)) <$> sc_Chunks sc)).
  { rewrite bind_app. cbn [mbind list_bind]. by rewrite app_nil_r. }
  unfold open_batch in *. destruct part' as [|rc part']; cbn [open_part] in *.
  - rewrite app_nil_r in *. split; try done. by rewrite Hbind.
  - split; cbn [b_batches b_cur b_size]; try done; [by rewrite Hbind|]. intros id. rewrite fmap_app, elem_of_app. intros [|Hid]; [auto|].
    apply list_elem_of_singleton in Hid as ->. rewrite fmap_app, elem_of_app. right. by apply list_elem_of_singleton.
Qed.
Lemma add_all_filled series st seen : filled st seen -> NoDup (sc_ID <$> (seen ++ series)) -> filled (fold_left (add_series limit maxChunks) series st) (seen ++ series).
Proof.
  revert st seen. induction series as [|sc series IH]; intros st seen Hf Hnd; [by rewrite app_nil_r|]. cbn [fold_left].
  replace (seen ++ sc :: series) with ((seen ++ [sc]) ++ series) in * by (by rewrite <- app_assoc). apply IH; [|done]. apply add_series_filled; [done|].
  rewrite !fmap_app, !NoDup_app in Hnd. destruct Hnd as ((_ & Hd & _) & _). intros Hin. apply (Hd _ Hin). by left.
Qed.

Lemma cut_exact series : NoDup (sc_ID <$> series) ->
  (batchSeriesChunks series limit maxChunks ≫= flat) = flat series /\ Forall (batch_ok limit maxChunks) (batchSeriesChunks series limit maxChunks).
Proof.
  intros Hnd. destruct (add_all_filled series (mkBatching [] [] 0) []) as [Hflat Hb Hc _ _]; [split; cbn; auto; by intros ? ?%elem_of_nil|done|].
  unfold batchSeriesChunks. cbn [app] in Hflat. destruct (b_cur (fold_left _ _ _)) as [|sc cur] eqn:Ecur.
  - cbn [flat mbind list_bind] in Hflat. rewrite app_nil_r in Hflat. done.
  - destruct Hc as [|Hok]; [done|]. split; [|apply Forall_app; split; [done|by apply Forall_singleton]].
    rewrite bind_app. etrans; [|exact Hflat]. f_equal. apply (app_nil_r (flat (sc :: cur))).
Qed.
End cutting.

Lemma flush_batches snap limit : NoDup (sc_ID <$> snap) ->
  (BatchSeriesChunks snap limit ≫= flat) = flat snap /\ Forall (batch_ok limit MaxChunksPerSeries) (BatchSeriesChunks snap limit).
Proof. apply cut_exact. unfold MaxChunksPerSeries. lia. Qed.

(** ** The string sizes are those of the encoder *)

(** [encoding/json]'s [appendString] without HTML escaping: an invalid byte becomes
    the escape of U+FFFD. *)
Definition hex (d : Z) : Z := if d <? 10 then 48 + d else 87 + d.
Definition escape_u (b : Z) : list Z := [92; 117; 48; 48; hex (b / 16); hex (b mod 16)].
Definition escape_byte (b : Z) : list Z :=
  if quote_escape b then [92; b]
  else if b =? 8 then [92; 98] else if b =? 12 then [92; 102] else if b =? 10 then [92; 110] else if b =? 13 then [92; 114] else if b =? 9 then [92; 116]
  else if b <? 32 then escape_u b else [b].
Fixpoint encode_string_go (fuel : nat) (l : list Z) : list Z :=
  match fuel, l with
  | O, _ | _, [] => []
  | S f, b :: rest =>
      if b <? 128 then escape_byte b ++ encode_string_go f rest
      else match rune_len l with
      | None => [92; 117; 102; 102; 102; 100] ++ encode_string_go f rest
      | Some size => (if line_separator l then [92; 117; 50; 48; 50; hex (nth 2 l 0 - 160)] else take size l) ++ encode_string_go f (drop size l)
      end
  end.
Definition encode_string (s : string) : list Z := [34] ++ encode_string_go (String.length s) (str_bytes s) ++ [34].

Lemma escape_byte_length b : Z.of_nat (length (escape_byte b)) = if short_escape b then 2 else if quote_escape b then 2 else if b <? 32 then 6 else 1.
Proof.
  unfold escape_byte, short_escape, quote_escape. destruct (Z.eqb_spec b 8) as [->|]; [done|]. destruct (Z.eqb_spec b 9) as [->|]; [done|]. destruct (Z.eqb_spec b 10) as [->|]; [done|].
  destruct (Z.eqb_spec b 12) as [->|]; [done|]. destruct (Z.eqb_spec b 13) as [->|]; [done|]. cbn [orb]. destruct (_ || _)%bool; [done|]. by destruct (b <? 32).
Qed.
Lemma rune_len_bound l n : rune_len l = Some n -> (1 <= n <= length l)%nat.
Proof.
  destruct l as [|b0 [|b1 [|b2 [|b3 l]]]]; cbn [rune_len]; try done; repeat case_match; intros [= <-]; cbn [length]; lia.
Qed.
(** Go's decoder accepts at every position what [utf8.ValidString] accepts. *)
Lemma utf8_rune f l : l <> [] -> utf8_valid_go (S f) l = true -> exists n, rune_len l = Some n /\ utf8_valid_go f (drop n l) = true.
Proof.
  intros Hl. destruct l as [|b0 [|b1 [|b2 [|b3 l]]]]; [done|..]; cbn [utf8_valid_go rune_len]; unfold cont;
    repeat (match goal with |- context [if ?c then _ else _] => destruct c end); cbn [andb]; try done; intros Hv;
    rewrite ?andb_true_iff in Hv; try (by eexists); exists 2%nat.
Qed.
Lemma encode_string_go_length f l : (length l <= f)%nat -> utf8_valid_go (S f) l = true ->
  Z.of_nat (length (encode_string_go f l)) = json_bytes_go f l.
Proof.
  revert l. induction f as [|f IH]; intros l Hf Hv; [by destruct l|]. destruct l as [|b rest]; [done|]. cbn [encode_string_go json_bytes_go].
  destruct (utf8_rune (S f) (b :: rest) ltac:(done) Hv) as (n & Hn & Hv'). pose proof (rune_len_bound _ _ Hn) as Hb. cbn [length] in *.
  destruct (b <? 128) eqn:Eb.
  - assert (n = 1%nat) as -> by (cbn [rune_len] in Hn; rewrite Eb in Hn; congruence). rewrite length_app, Nat2Z.inj_add, escape_byte_length. f_equal. apply IH; [lia|done].
  - rewrite Hn. change (default 1%nat (Some n)) with n. rewrite length_app, Nat2Z.inj_add. f_equal.
    + destruct (line_separator (b :: rest)); [done|]. rewrite length_take, Nat.min_l by (cbn [length]; lia). done.
    + apply IH; [rewrite length_drop; cbn [length] in *; lia|done].
Qed.

(** The size estimate of a label is what the encoder emits: [jsonStringBytes] is
    the length of the JSON string, for every valid UTF-8 string. *)
Theorem jsonStringBytes_exact s : utf8_ValidString s = true -> jsonStringBytes s = Z.of_nat (length (encode_string s)).
Proof.
  intros Hv. unfold jsonStringBytes, encode_string. rewrite !length_app. cbn [length]. rewrite !Nat2Z.inj_add.
  rewrite encode_string_go_length; [lia|by rewrite length_str_bytes|exact Hv].
Qed.
Lemma jsonStringBytes_exact_witness : jsonStringBytes "a\b" = 6 /\ Z.of_nat (length (encode_string "a\b")) = 6.
Proof. split; [vm_compute; reflexivity|]. rewrite <- (jsonStringBytes_exact "a\b") by (vm_compute; reflexivity). vm_compute. reflexivity. Defined.

(** ** Batches of a flush *)

(** A flush is cut into requests exactly. In order, the requests carry every
    chunk of the flush once, under its series and labels; no request is empty, holds
    a series twice or passes the chunk limit of a block, and each stays within the
    byte limit unless a single chunk alone exceeds it. *)
Theorem batches_exact snap limit : NoDup (sc_ID <$> snap) ->
  (BatchSeriesChunks snap limit ≫= flat) = flat snap /\ Forall (batch_ok limit MaxChunksPerSeries) (BatchSeriesChunks snap limit).
Proof.
  intros Hnd. destruct (flush_batches snap limit Hnd) as [Hflat Hok]. split; [exact Hflat|exact Hok].
Qed.
(** Three empty chunks under a limit that fits two of them. *)
Definition demo_parts : list SeriesChunks := [mkSC 1 demo_up [(0, NewChunk); (1, NewChunk); (2, NewChunk)]].
Lemma batches_exact_witness :
  map (map sc_Chunks) (BatchSeriesChunks demo_parts 160) = [[[(0, NewChunk); (1, NewChunk)]]; [[(2, NewChunk)]]] /\
  Forall (batch_ok 160 MaxChunksPerSeries) (BatchSeriesChunks demo_parts 160).
Proof.
  split; [vm_compute; reflexivity|]. apply batches_exact. vm_compute. constructor; [by intros ?%elem_of_nil|constructor].
Defined.
