(* ===== verification/Text.v ===== *)
(** * Text: scanning what a user typed

    What the parsers of queries share: the scanners of [internal/logs/logql.go] and
    [strings.TrimSpace], on text as a list of bytes. A position is what is left of
    the text: where the code returns a count of bytes consumed, a function here
    returns the rest. *)
From S2P Require Import Prelude GoLib Labels Batch.

Definition text := list Z.

(** ** Scanning *)

Definition is_space (c : Z) : bool := ((c =? 32) || (c =? 9) || (c =? 10) || (c =? 13))%bool.
Fixpoint skipSpace (s : text) : text := match s with c :: r => if is_space c then skipSpace r else s | [] => [] end.
(** The leading bytes [p] holds of, and the rest. *)
Fixpoint span (p : Z -> bool) (s : text) : text * text := match s with c :: r => if p c then let '(a, b) := span p r in (c :: a, b) else ([], s) | [] => ([], []) end.
Definition scanIdent (s : text) : option (text * text) := match span alnum_ s with ([], _) => None | (name, rest) => Some (name, rest) end.
(** [strings.TrimSpace]: the length of the Unicode space [s] starts with, and the one
    it ends with, read backwards. *)
Definition space_at (s : text) : option nat :=
  match s with
  | c :: r =>
      if (in_range c 9 13 || (c =? 32))%bool then Some 1%nat else
      match r with
      | d :: r =>
          if ((c =? 194) && ((d =? 133) || (d =? 160)))%bool then Some 2%nat else
          match r with
          | e :: _ =>
              if (((c =? 225) && (d =? 154) && (e =? 128)) || ((c =? 226) && (d =? 128) && (in_range e 128 138 || (e =? 168) || (e =? 169) || (e =? 175))) ||
                  ((c =? 226) && (d =? 129) && (e =? 159)) || ((c =? 227) && (d =? 128) && (e =? 128)))%bool then Some 3%nat else None
          | [] => None
          end
      | [] => None
      end
  | [] => None
  end.
Definition space_before (s : text) : option nat :=
  match s with
  | e :: r =>
      if bool_decide (space_at [e] = Some 1%nat) then Some 1%nat else
      match r with
      | d :: r =>
          if bool_decide (space_at [d; e] = Some 2%nat) then Some 2%nat else
          match r with c :: _ => if bool_decide (space_at [c; d; e] = Some 3%nat) then Some 3%nat else None | [] => None end
      | [] => None
      end
  | [] => None
  end.
Fixpoint trim_with (f : text -> option nat) (fuel : nat) (s : text) : text :=
  match fuel with O => s | S fuel => match f s with Some n => trim_with f fuel (drop n s) | None => s end end.
Definition TrimSpace (s : text) : text :=
  let s := trim_with space_at (length s) s in rev (trim_with space_before (length s) (rev s)).

(** [utf8.ValidString]. *)
Definition valid_utf8 (s : text) : bool := utf8_valid_go (S (length s)) s.
(** [strings.HasPrefix], and [hasKeyword]: a whole word. *)
Definition begins (kw s : text) : bool := bool_decide (take (length kw) s = kw).
Definition hasKeyword (s kw : text) : bool :=
  begins kw s && match drop (length kw) s with [] => true | c :: _ => ((c =? 40) || is_space c)%bool end.

Definition no_head (p : Z -> bool) (s : text) : Prop := match s with c :: _ => p c = false | [] => True end.
Definition ws (w : text) : Prop := Forall (fun c => is_space c = true) w.

(** ** What scanning finds *)

Lemma skipSpace_ws w s : ws w -> skipSpace (w ++ s) = skipSpace s.
Proof. induction 1 as [|c w Hc Hw IH]; [done|]. cbn [app skipSpace]. by rewrite Hc. Qed.
Lemma skipSpace_stop s : no_head is_space s -> skipSpace s = s.
Proof. destruct s as [|c s]; [done|]. cbn. by intros ->. Qed.
Lemma skipSpace_to w s : ws w -> no_head is_space s -> skipSpace (w ++ s) = s.
Proof. intros Hw Hs. rewrite skipSpace_ws by done. by apply skipSpace_stop. Qed.
Lemma skipSpace_spec s : exists w, ws w /\ s = w ++ skipSpace s /\ no_head is_space (skipSpace s).
Proof.
  induction s as [|c s (w & Hw & E & Hn)]; [by exists []; repeat constructor|]. cbn [skipSpace]. destruct (is_space c) eqn:Ec.
  - exists (c :: w). split; [by constructor|]. split; [cbn; by f_equal|done].
  - exists []. split; [constructor|]. done.
Qed.
Lemma span_app p a b : Forall (fun c => p c = true) a -> no_head p b -> span p (a ++ b) = (a, b).
Proof.
  induction 1 as [|c a Hc Ha IH]; intros Hb.
  - destruct b as [|c b]; [done|]. cbn in *. by rewrite Hb.
  - cbn [app span]. rewrite Hc, IH; done.
Qed.
Lemma span_spec p s a b : span p s = (a, b) -> s = a ++ b /\ Forall (fun c => p c = true) a /\ no_head p b.
Proof.
  revert a b. induction s as [|c s IH]; intros a b; cbn [span]; [intros [= <- <-]; done|]. destruct (p c) eqn:Ec.
  - destruct (span p s) as [x y]. intros [= <- <-]. destruct (IH x y eq_refl) as (-> & H1 & H2). split_and!; [done|by constructor|done].
  - intros [= <- <-]. split_and!; [done|constructor|done].
Qed.
Lemma alnum_bounds c : alnum_ c = true -> 48 <= c <= 122 /\ c <> 61 /\ c <> 91 /\ is_space c = false.
Proof.
  unfold alnum_, alpha_, in_range, is_space. rewrite !orb_true_iff, !andb_true_iff, !Z.leb_le, Z.eqb_eq, !orb_false_iff, !Z.eqb_neq. lia.
Qed.
Lemma space_bounds c : is_space c = true -> c <= 32 /\ alnum_ c = false.
Proof. unfold alnum_, alpha_, in_range, is_space. intros H. assert (Hc : c = 32 \/ c = 9 \/ c = 10 \/ c = 13) by (rewrite !orb_true_iff, !Z.eqb_eq in H; lia). destruct Hc as [->|[->|[->| ->]]]; done. Qed.
Lemma no_head_ws p w s : ws w -> (forall c, is_space c = true -> p c = false) -> no_head p s -> no_head p (w ++ s).
Proof. intros Hw Hp Hs. destruct Hw as [|c w Hc Hw]; [done|]. cbn. by apply Hp. Qed.

(** ** Spaces around it *)

Definition blank (s : text) : Prop := TrimSpace s = [].
Definition printable (c : Z) : Prop := 33 <= c <= 126.
Lemma space_at_printable c r : printable c -> space_at (c :: r) = None.
Proof.
  intros Hc. unfold printable in Hc. cbn [space_at]. unfold in_range. replace ((9 <=? c) && (c <=? 13))%bool with false by (symmetry; apply andb_false_iff; rewrite !Z.leb_gt; lia).
  replace (c =? 32) with false by (symmetry; apply Z.eqb_neq; lia). cbn [orb]. destruct r as [|d [|e r]]; [done|..]; repeat (match goal with |- context [c =? ?n] => replace (c =? n) with false by (symmetry; apply Z.eqb_neq; lia) end); done.
Qed.
Lemma trim_left_stop f c r : printable c -> trim_with space_at f (c :: r) = c :: r.
Proof. intros Hc. destruct f as [|f]; [done|]. cbn [trim_with]. by rewrite space_at_printable. Qed.
Lemma space_before_bound l c n : printable c -> space_before (l ++ [c]) = Some n -> (n <= length l)%nat.
Proof.
  intros Hc H. destruct l as [|e [|d [|b l]]]; cbn [app space_before length] in *; rewrite ?(space_at_printable c _ Hc) in H; repeat case_match; try done; injection H as <-; lia.
Qed.
Lemma trim_right_keeps f l c : printable c -> exists l', trim_with space_before f (l ++ [c]) = l' ++ [c].
Proof.
  intros Hc. revert l. induction f as [|f IH]; intros l; [by exists l|]. cbn [trim_with]. destruct (space_before (l ++ [c])) as [n|] eqn:E; [|by exists l].
  apply space_before_bound in E; [|done]. rewrite drop_app_le by lia. apply IH.
Qed.
Lemma blank_head c r : blank (c :: r) -> ~ printable c.
Proof.
  intros H Hc. unfold blank, TrimSpace in H. rewrite trim_left_stop in H by done. cbn [rev] in H. destruct (trim_right_keeps (length (c :: r)) (rev r) c Hc) as (l' & E).
  rewrite E, rev_app_distr in H. done.
Qed.
Lemma blank_no_head p r : blank r -> (forall c, p c = true -> printable c) -> no_head p r.
Proof. intros Hb Hp. destruct r as [|c r]; [done|]. cbn. destruct (p c) eqn:E; [|done]. exfalso. by eapply blank_head, Hp. Qed.
Lemma TrimSpace_shut c m d : printable c -> printable d -> TrimSpace (c :: m ++ [d]) = c :: m ++ [d].
Proof.
  intros Hc Hd. unfold TrimSpace. rewrite trim_left_stop by done. change (c :: m ++ [d]) with ((c :: m) ++ [d]) at 2. rewrite rev_app_distr. cbn [rev app].
  assert (E : forall f r, trim_with space_before f (d :: r) = d :: r).
  { intros f r. destruct f as [|f]; [done|]. cbn [trim_with]. assert (space_before (d :: r) = None) as ->; [|done]. unfold printable in *.
    unfold space_before. rewrite (space_at_printable d []) by done. rewrite bool_decide_eq_false_2 by done.
    destruct r as [|x [|y r]]; [done|..]; repeat (rewrite bool_decide_eq_false_2; [|cbn [space_at]; unfold in_range; repeat (case_match; try done); rewrite ?andb_true_iff, ?orb_true_iff, ?andb_true_iff, ?Z.eqb_eq, ?Z.leb_le in *; lia]); done. }
  rewrite E. cbn [rev]. rewrite rev_app_distr, rev_involutive. done.
Qed.
Lemma hasKeyword_app kw s : no_head is_space s -> forall w, ws w -> w <> [] -> hasKeyword (kw ++ w ++ s) kw = true.
Proof.
  intros _ w Hw Hne. unfold hasKeyword, begins. rewrite take_app_length, drop_app_length, bool_decide_eq_true_2 by done. destruct Hw as [|c w Hc Hw]; [done|]. cbn. rewrite Hc. by rewrite orb_true_r.
Qed.
