(* ===== verification/Duration.v ===== *)
(** * Duration: durations in queries

    [internal/metrics/duration.go]: the Prometheus grammar. The [int64] sum is
    written with its wrap, and a theorem says none happens. *)
From S2P Require Import Prelude GoLib Labels Text.

(** ** Prometheus durations *)

Definition digit (c : Z) : bool := in_range c 48 57.
Definition dec_val (ds : text) : Z := fold_left (fun v c => v * 10 + (c - 48)) ds 0.
(** [strconv.ParseInt] of digits. *)
Definition ParseInt (ds : text) : option Z := if MaxInt64 <? dec_val ds then None else Some (dec_val ds).
(** [string(c)] of a byte: the byte as a code point, in UTF-8. *)
Definition byte_string (c : Z) : text := if c <? 128 then [c] else [192 + c / 64; 128 + c mod 64].
(** The rank and the nanoseconds of a unit. *)
Definition promDurationUnit (u : text) : option (Z * Z) :=
  if bool_decide (u = [121]) then Some (7, 365 * 24 * 3600 * 10 ^ 9)
  else if bool_decide (u = [119]) then Some (6, 7 * 24 * 3600 * 10 ^ 9)
  else if bool_decide (u = [100]) then Some (5, 24 * 3600 * 10 ^ 9)
  else if bool_decide (u = [104]) then Some (4, 3600 * 10 ^ 9)
  else if bool_decide (u = [109]) then Some (3, 60 * 10 ^ 9)
  else if bool_decide (u = [115]) then Some (2, 10 ^ 9)
  else if bool_decide (u = [109; 115]) then Some (1, 10 ^ 6)
  else None.
(** [DuPanic]: the slice past the unit is out of range. *)
Inductive durErr := DuEmpty | DuDigits | DuNumber (ds : text) | DuNoUnit | DuUnit (u : text) | DuOrder (u : text) | DuOverflow | DuPanic.
Fixpoint prom_loop (fuel : nat) (remaining : text) (total lastRank : Z) : result durErr Z :=
  match fuel, remaining with
  | _, [] => Ok total
  | O, _ => Err DuDigits
  | S f, _ =>
      let '(ds, remaining) := span digit remaining in
      match ds with
      | [] => Err DuDigits
      | _ =>
          match ParseInt ds, remaining with
          | None, _ => Err (DuNumber ds)
          | Some _, [] => Err DuNoUnit
          | Some n, c :: _ =>
              let unit := if begins [109; 115] remaining then [109; 115] else byte_string c in
              if (length remaining <? length unit)%nat then Err DuPanic else
              let remaining := drop (length unit) remaining in
              match promDurationUnit unit with
              | None => Err (DuUnit unit)
              | Some (rank, mult) =>
                  if lastRank <=? rank then Err (DuOrder unit)
                  else if Z.quot (i64 (MaxInt64 - total)) mult <? n then Err DuOverflow
                  else prom_loop f remaining (i64 (total + i64 (n * mult))) rank
              end
          end
      end
  end.
Definition ParsePromDurationNanos (s : text) : result durErr Z :=
  if bool_decide (s = []) then Err DuEmpty else if bool_decide (s = [48]) then Ok 0 else prom_loop (length s) s 0 8.
Definition ParsePromDuration (s : text) : result durErr Z := ns ← ParsePromDurationNanos s; Ok (Z.quot ns 1000000).

(** ** The Prometheus grammar *)

(** Numbers with units of falling rank, and what they add up to. *)
Inductive duration_items : Z -> text -> Z -> Prop :=
  | di_nil r : duration_items r [] 0
  | di_cons r ds u rank mult t v : ds <> [] -> Forall (fun c => digit c = true) ds -> promDurationUnit u = Some (rank, mult) -> rank < r ->
      duration_items rank t v -> duration_items r (ds ++ u ++ t) (dec_val ds * mult + v).

Lemma dec_val_snoc ds c : dec_val (ds ++ [c]) = dec_val ds * 10 + (c - 48).
Proof. unfold dec_val. by rewrite fold_left_app. Qed.
Lemma dec_val_nonneg ds : Forall (fun c => digit c = true) ds -> 0 <= dec_val ds.
Proof.
  induction ds as [|c ds IH] using rev_ind; [done|]. intros [H1 H2]%Forall_app. rewrite dec_val_snoc. apply Forall_cons in H2 as [H2 _]. unfold digit, in_range in H2. rewrite andb_true_iff, !Z.leb_le in H2. specialize (IH H1). lia.
Qed.
Lemma unit_facts u rank mult : promDurationUnit u = Some (rank, mult) -> 1 <= rank <= 7 /\ 0 < mult <= MaxInt64 /\ exists c r, u = c :: r /\ digit c = false /\ c < 128.
Proof.
  unfold promDurationUnit. repeat case_bool_decide; intros [= <- <-]; subst; (split; [lia|]); (split; [unfold MaxInt64; lia|]); eexists _, _; (split; [reflexivity|split; [reflexivity|lia]]).
Qed.
(** A unit is read whole: no number starts with a letter. *)
Lemma unit_read u rank mult t : promDurationUnit u = Some (rank, mult) -> (t = [] \/ exists c r, t = c :: r /\ digit c = true) ->
  exists c r, u ++ t = c :: r /\ (if begins [109; 115] (u ++ t) then [109; 115] else byte_string c) = u.
Proof.
  intros H Ht. assert (Hs : forall c, u = [c] -> c < 128 -> begins [109; 115] (u ++ t) = false -> exists c r, u ++ t = c :: r /\ (if begins [109; 115] (u ++ t) then [109; 115] else byte_string c) = u).
  { intros c -> Hc E. exists c, t. split; [done|]. rewrite E. unfold byte_string. destruct (Z.ltb_spec c 128); [done|lia]. }
  unfold promDurationUnit in H. repeat case_bool_decide; subst; try done; try (apply (Hs _ eq_refl); [lia|]; unfold begins; apply bool_decide_eq_false; cbn; intros [=]).
  - destruct Ht as [->|(c & r & -> & Hc)]; [done|]. cbn in H5. injection H5 as ->. done.
  - exists 109, (115 :: t). split; [done|]. unfold begins. cbn. done.
Qed.
Lemma items_head r t v : duration_items r t v -> t = [] \/ exists c r, t = c :: r /\ digit c = true.
Proof. intros [|r' ds u rank mult t' v' Hne Hd _ _ _]; [by left|]. right. destruct Hd as [|c ds Hc _]; [done|]. cbn. eauto. Qed.
Lemma items_nonneg r t v : duration_items r t v -> 0 <= v.
Proof. induction 1 as [|r ds u rank mult t v Hne Hd Hu Hr Ht IH]; [done|]. apply dec_val_nonneg in Hd. apply unit_facts in Hu as (_ & Hm & _). nia. Qed.
Lemma quot_bound total n mult : 0 <= total <= MaxInt64 -> 0 < mult -> 0 <= n -> (Z.quot (i64 (MaxInt64 - total)) mult <? n) = false <-> total + n * mult <= MaxInt64.
Proof.
  intros Ht Hm Hn. rewrite i64_id by (unfold in_i64, MaxInt64 in *; lia). rewrite Z.ltb_ge, Z.quot_div_nonneg by lia. split; intros H.
  - assert (n * mult <= (MaxInt64 - total) / mult * mult) by nia. pose proof (Z.mul_div_le (MaxInt64 - total) mult Hm). lia.
  - apply Z.div_le_lower_bound; lia.
Qed.
Lemma sum_exact total n mult : 0 <= total -> 0 < mult -> 0 <= n -> total + n * mult <= MaxInt64 -> i64 (total + i64 (n * mult)) = total + n * mult.
Proof. intros Ht Hm Hn H. assert (0 <= n * mult) by nia. rewrite (i64_id (n * mult)) by (unfold in_i64, MaxInt64 in *; lia). apply i64_id. unfold in_i64, MaxInt64 in *. lia. Qed.
Lemma span_digits ds t : Forall (fun c => digit c = true) ds -> no_head digit t -> span digit (ds ++ t) = (ds, t).
Proof. apply span_app. Qed.

(** One number and its unit, as the loop takes them. *)
Lemma prom_step f ds u rank mult t total lastRank : ds <> [] -> Forall (fun c => digit c = true) ds -> promDurationUnit u = Some (rank, mult) -> (t = [] \/ exists c r, t = c :: r /\ digit c = true) ->
  prom_loop (S f) (ds ++ u ++ t) total lastRank =
    match ParseInt ds with
    | None => Err (DuNumber ds)
    | Some n => if lastRank <=? rank then Err (DuOrder u) else if Z.quot (i64 (MaxInt64 - total)) mult <? n then Err DuOverflow else prom_loop f t (i64 (total + i64 (n * mult))) rank
    end.
Proof.
  intros Hne Hd Hu Ht. destruct (unit_facts _ _ _ Hu) as (_ & _ & c & r & Eu & Hc & _). destruct (unit_read u rank mult t Hu Ht) as (c' & r' & Ec & Eq).
  assert (Hsp : span digit (ds ++ u ++ t) = (ds, u ++ t)) by (apply span_digits; [done|]; by rewrite Eu).
  destruct ds as [|x ds]; [done|]. cbn [app prom_loop] in *. rewrite Hsp. destruct (ParseInt (x :: ds)) as [n|]; [|done]. rewrite Ec. rewrite Ec in Eq. rewrite Eq, <- Ec. rewrite length_app.
  destruct (Nat.ltb_spec (length u + length t) (length u)); [lia|]. by rewrite drop_app_length, Hu.
Qed.
Lemma ParseInt_spec ds n : ParseInt ds = Some n <-> n = dec_val ds /\ n <= MaxInt64.
Proof. unfold ParseInt. destruct (Z.ltb_spec MaxInt64 (dec_val ds)); split; [done|lia|intros [= <-]; lia|intros [-> _]; done]. Qed.
Lemma prom_loop_reads lastRank t v : duration_items lastRank t v -> forall f total, (length t <= f)%nat -> 0 <= total -> total + v <= MaxInt64 -> prom_loop f t total lastRank = Ok (total + v).
Proof.
  induction 1 as [r|r ds u rank mult t v Hne Hd Hu Hr Ht IH]; intros f total Hf H0 Hm; [destruct f; cbn [prom_loop]; by rewrite Z.add_0_r|].
  pose proof (dec_val_nonneg _ Hd) as Hn. destruct (unit_facts _ _ _ Hu) as (_ & [Hmu _] & c & x & Eu & _). pose proof (items_nonneg _ _ _ Ht) as Hv. rewrite Eu, !length_app in Hf. cbn [length] in Hf.
  destruct f as [|f]; [lia|]. assert (0 <= dec_val ds * mult) by nia. rewrite (prom_step _ _ _ rank mult) by (try done; by eapply items_head).
  assert (ParseInt ds = Some (dec_val ds)) as -> by (apply ParseInt_spec; split; [done|nia]). destruct (Z.leb_spec r rank); [lia|].
  assert ((Z.quot (i64 (MaxInt64 - total)) mult <? dec_val ds) = false) as -> by (apply quot_bound; lia). rewrite sum_exact by lia. rewrite IH by lia. f_equal. lia.
Qed.
Lemma prom_loop_sound f t total lastRank n : prom_loop f t total lastRank = Ok n -> 0 <= total <= MaxInt64 -> exists v, duration_items lastRank t v /\ n = total + v /\ n <= MaxInt64.
Proof.
  revert t total lastRank. induction f as [|f IH]; intros t total lastRank H Ht; [destruct t; [|done]; injection H as <-; exists 0; split_and!; [constructor|lia..]|].
  destruct t as [|c t]; [injection H as <-; exists 0; split_and!; [constructor|lia..]|]. cbn [prom_loop] in H. destruct (span digit (c :: t)) as [ds rem] eqn:Es. apply span_spec in Es as (Ec & Hd & Hn).
  destruct ds as [|x ds]; [done|]. destruct (ParseInt (x :: ds)) as [k|] eqn:Ep; [|done]. destruct rem as [|y rem]; [done|]. set (u := if begins _ _ then _ else _) in H.
  destruct (Nat.ltb_spec (length (y :: rem)) (length u)) as [|Hl]; [done|]. destruct (promDurationUnit u) as [[rank mult]|] eqn:Eu; [|done]. destruct (Z.leb_spec lastRank rank); [done|].
  destruct (Z.quot _ mult <? k) eqn:Eq; [done|]. apply ParseInt_spec in Ep as [-> Hk]. pose proof (dec_val_nonneg _ Hd) as Hk0. destruct (unit_facts _ _ _ Eu) as (_ & [Hm _] & _).
  apply quot_bound in Eq; [|lia..]. rewrite sum_exact in H by lia. apply IH in H as (v & Hv & -> & Hle); [|nia].
  exists (dec_val (x :: ds) * mult + v). split_and!; [|lia|lia]. rewrite Ec. assert (Eu' : y :: rem = u ++ drop (length u) (y :: rem)).
  { rewrite <- (take_drop (length u) (y :: rem)) at 1. f_equal. unfold u in *. unfold begins in *. case_bool_decide as Hb; [done|]. unfold byte_string in *. destruct (Z.ltb_spec y 128) as [|Hy]; [done|]. exfalso.
    destruct (unit_facts _ _ _ Eu) as (_ & _ & c' & r' & [= <- _] & _ & Hc'). pose proof (Z.div_pos y 64 ltac:(lia) ltac:(lia)). lia. }
  rewrite Eu'. by apply (di_cons _ _ _ rank).
Qed.

(** Prometheus durations are read exactly: the parser accepts ["0"] and the texts
    of numbers with units of falling rank whose true sum of nanoseconds fits 64 bits,
    and answers that sum. Nothing wraps, whatever the digits. *)
Theorem prom_duration_exact s n : ParsePromDurationNanos s = Ok n <-> (s = [48] /\ n = 0) \/ (s <> [] /\ duration_items 8 s n /\ n <= MaxInt64).
Proof.
  unfold ParsePromDurationNanos. case_bool_decide as H1; [split; [done|intros [[-> _]|[? _]]; done]|]. case_bool_decide as H2; split.
  - intros [= <-]. by left.
  - intros [[_ ->]|(_ & H & _)]; [done|]. exfalso. rewrite H2 in H. inversion H as [|r ds u rank mult t v Hne Hd Hu Hr Ht E]; subst. destruct (unit_facts _ _ _ Hu) as (_ & _ & c & r & -> & Hc & _).
    by destruct ds as [|x [|y ds]].
  - intros H. apply prom_loop_sound in H as (v & Hv & -> & Hle); [|unfold MaxInt64; lia]. right. by rewrite Z.add_0_l.
  - intros [[-> _]|(_ & H & Hn)]; [done|]. rewrite (prom_loop_reads _ _ _ H) by (done || lia). by rewrite Z.add_0_l.
Qed.
(** A number that a byte past ASCII ends stops the program: the unit, read as a code
    point, is two bytes, and only one is left. *)
Lemma prom_duration_panics b : 128 <= b -> ParsePromDurationNanos [53; b] = Err DuPanic.
Proof.
  intros Hb. unfold ParsePromDurationNanos. do 2 rewrite bool_decide_eq_false_2 by done. cbn [length prom_loop span]. assert (Hd : digit b = false) by (unfold digit, in_range; apply andb_false_iff; rewrite !Z.leb_gt; lia).
  change (digit 53) with true. rewrite Hd. cbn. unfold begins. rewrite bool_decide_eq_false_2 by done. unfold byte_string. destruct (Z.ltb_spec b 128); [lia|done].
Qed.

(** A day and an hour and a half; the longest day count, and one more. *)
Lemma prom_duration_examples :
  ParsePromDurationNanos (str_bytes "1d1h30m") = Ok 91800000000000 /\ ParsePromDurationNanos (str_bytes "106751d") = Ok (106751 * 86400000000000) /\
  ParsePromDurationNanos (str_bytes "106752d") = Err DuOverflow /\ ParsePromDurationNanos (str_bytes "1m1h") = Err (DuOrder [104]).
Proof. split_and!; vm_compute; reflexivity. Qed.
