(* ===== verification/Fence.v ===== *)
(** * Fence: which log segments the head still needs

    The per-chunk WAL segments of [internal/metrics/store.go]: how appends, seals,
    discards and [SetHeadFence] move them, and that [OldestHeadSegment] never passes
    the segment of a sample the head holds. *)
From S2P Require Import Prelude GoLib Chunk Dedup Labels Postings Source MemStore.

(** A chunk of series [l] in the head, with the segment recorded for it. *)
Definition entry (s : MemoryStore) (l : Labels) (rc : Z * Chunk) (seg : Z) : Prop :=
  exists id ms, st_series s !! id = Some ms /\ ms_labels ms = l /\ (rc, seg) ∈ combine (ms_chunks ms) (ms_segs ms).

Lemma combine_fst {A B} (l : list A) (k : list B) : length k = length l -> (combine l k).*1 = l.
Proof. revert k. induction l as [|a l IH]; intros [|b k] E; try done. cbn. f_equal. apply IH. by injection E. Qed.
Lemma combine_snd {A B} (l : list A) (k : list B) : length k = length l -> (combine l k).*2 = k.
Proof. revert k. induction l as [|a l IH]; intros [|b k] E; try done. cbn. f_equal. apply IH. by injection E. Qed.
Lemma combine_split {A B} (l : list (A * B)) : combine l.*1 l.*2 = l.
Proof. induction l as [|[a b] l IH]; [done|]. cbn. by f_equal. Qed.
Lemma combine_snoc {A B} (l : list A) (k : list B) a b : length k = length l -> combine (l ++ [a]) (k ++ [b]) = combine l k ++ [(a, b)].
Proof. revert k. induction l as [|x l IH]; intros [|y k] E; try done. cbn. f_equal. apply IH. by injection E. Qed.

Lemma entry_segment s seg : store_wf s -> seg ∈ head_segments s <-> exists l rc, entry s l rc seg.
Proof.
  intros Hs. unfold head_segments. rewrite list_elem_of_bind. split.
  - intros ([id ms] & Hseg & Hin%elem_of_map_to_list). cbn in Hseg. pose proof (sw_segs _ _ _ (st_series_wf s Hs _ _ Hin)) as Hlen.
    rewrite <- (combine_snd (ms_chunks ms) (ms_segs ms)) in Hseg by done. apply list_elem_of_fmap in Hseg as ([rc sg] & -> & Hin').
    by exists (ms_labels ms), rc, id, ms.
  - intros (l & rc & id & ms & E & _ & Hin). pose proof (sw_segs _ _ _ (st_series_wf s Hs _ _ E)) as Hlen. exists (id, ms). split; [|by apply elem_of_map_to_list].
    cbn. rewrite <- (combine_snd (ms_chunks ms) (ms_segs ms)) by done. apply list_elem_of_fmap. by exists (rc, seg).
Qed.
Lemma entry_sample s l rc seg x : store_wf s -> entry s l rc seg -> x ∈ samples_of rc.2 -> exists ws, store_db s l = Some ws /\ x ∈ ws.
Proof.
  intros Hs (id & ms & E & <- & Hin) Hx. exists (ws_of ms). split; [by eapply store_db_series|]. unfold ws_of. apply list_elem_of_bind. exists rc. split; [done|].
  pose proof (sw_segs _ _ _ (st_series_wf s Hs _ _ E)) as Hlen. rewrite <- (combine_fst (ms_chunks ms) (ms_segs ms)) by done. apply list_elem_of_fmap. by exists (rc, seg).
Qed.

(** ** Appends *)

Lemma segs_snoc (segs : list Z) (pre : list (Z * Chunk)) rc : length segs = length (pre ++ [rc]) -> exists spre sg, segs = spre ++ [sg] /\ length spre = length pre.
Proof.
  intros E. destruct segs as [|sg segs _] using rev_ind; rewrite length_app in E; [cbn in E; lia|]. rewrite length_app in E. cbn in E. exists segs, sg. split; [done|lia].
Qed.
(** A new chunk records [seg]; an open one keeps its segment. *)
Lemma ensure_chunk_pairs s id ms seg ms1 s1 : series_wf s id ms -> ensure_chunk s ms seg = (ms1, s1) ->
  (forall e, e ∈ combine (ms_chunks ms) (ms_segs ms) -> e ∈ combine (ms_chunks ms1) (ms_segs ms1)) /\
  (forall e, e ∈ combine (ms_chunks ms1) (ms_segs ms1) -> e ∈ combine (ms_chunks ms) (ms_segs ms) \/ e.2 = seg).
Proof.
  intros Hm. unfold ensure_chunk. destruct (needs_chunk ms); intros [= <- <-]; [|by auto]. cbn [ms_chunks ms_segs]. rewrite combine_snoc by apply Hm.
  split; intros e; rewrite elem_of_app; [by left|]. intros [|Hin%list_elem_of_singleton]; [by left|]. right. by subst e.
Qed.
Lemma ensure_series_found s lbls ms s' : ensure_series s lbls = (ms, s') -> ms = default (mkMem lbls [] []) (st_series s !! Hash lbls).
Proof. unfold ensure_series. destruct (st_series s !! Hash lbls); by intros [= <- _]. Qed.

(** Elsewhere than in the series of [lbls]. *)
Definition entry_off (s : MemoryStore) (lbls l : Labels) (rc : Z * Chunk) (seg : Z) : Prop :=
  exists id ms, id <> Hash lbls /\ st_series s !! id = Some ms /\ ms_labels ms = l /\ (rc, seg) ∈ combine (ms_chunks ms) (ms_segs ms).
Lemma entry_cases s lbls l rc seg : no_clash s lbls -> entry s l rc seg <->
  entry_off s lbls l rc seg \/ (l = lbls /\ exists ms, st_series s !! Hash lbls = Some ms /\ (rc, seg) ∈ combine (ms_chunks ms) (ms_segs ms)).
Proof.
  intros Hnc. split.
  - intros (id & ms & E & El & Hin). destruct (decide (id = Hash lbls)) as [->|Hne]; [right|left; by exists id, ms]. split; [|by exists ms].
    rewrite <- El. by apply Hnc.
  - intros [(id & ms & _ & E & El & Hin)|(-> & ms & E & Hin)]; [by exists id, ms|]. exists (Hash lbls), ms. split_and!; [done|by apply Hnc|done].
Qed.
Lemma put_entry s s3 lbls ms' l rc seg : (forall id, id <> Hash lbls -> st_series s3 !! id = st_series s !! id) -> ms_labels ms' = lbls ->
  entry (put_series s3 (Hash lbls) ms') l rc seg <-> entry_off s lbls l rc seg \/ (l = lbls /\ (rc, seg) ∈ combine (ms_chunks ms') (ms_segs ms')).
Proof.
  intros Hother Hl. unfold entry, entry_off. cbn [put_series st_series]. split.
  - intros (id & ms & E & El & Hin). destruct (decide (id = Hash lbls)) as [->|Hne].
    + rewrite lookup_insert_eq in E. injection E as <-. right. by rewrite <- El.
    + rewrite lookup_insert_ne, Hother in E by done. left. by exists id, ms.
  - intros [(id & ms & Hne & E & El & Hin)|[-> Hin]].
    + exists id, ms. by rewrite lookup_insert_ne, Hother by done.
    + exists (Hash lbls), ms'. by rewrite lookup_insert_eq.
Qed.

(** An append drops no sample, files the new one, and records [seg] for a new chunk. *)
Lemma append_entries s now lbls ts val seg gen : store_wf s -> labels_wf lbls -> no_clash s lbls -> in_i64 ts -> in_u64 val ->
  let r := appendInternal s now lbls ts val seg gen in
  (forall l rc sg, entry s l rc sg -> exists rc', entry r.2 l rc' sg /\ samples_of rc.2 ⊆ samples_of rc'.2) /\
  (forall l rc sg, entry r.2 l rc sg -> sg = seg \/ exists rc', entry s l rc' sg) /\
  (r.1 = Ok tt -> exists rc sg, entry r.2 lbls rc sg /\ mkSample ts val (assigned s now gen) ∈ samples_of rc.2).
Proof.
  intros Hs Hl Hnc Hts Hval. cbn zeta. unfold appendInternal.
  destruct (settle_gen s now gen) as [[g s1]|e] eqn:Eset; [|split_and!; [by eauto|by eauto|done]].
  pose proof (settle_wf _ _ _ _ _ Hs Eset) as (Hs1 & Eser & _ & _ & Hg & HgM & Hg0 & Hg1).
  assert (Hnc1 : forall ms, st_series s1 !! Hash lbls = Some ms -> ms_labels ms = lbls) by (rewrite Eser; exact Hnc).
  destruct (ensure_series s1 lbls) as [ms s2] eqn:Eens. apply ensure_series_found in Eens as Efound. rewrite Eser in Efound.
  destruct (ensure_series_wf _ _ _ _ Hs1 Hl Hnc1 Eens) as (Hs2 & Elk & Elb & _ & _ & Hother & _ & _). rewrite Eser in Hother.
  fold (counted s2 ms (TenantOf lbls)). destruct (counted_fields s2 ms (TenantOf lbls)) as (F1 & _).
  destruct (ensure_chunk (counted s2 ms (TenantOf lbls)) ms seg) as [ms1 s3] eqn:Ech.
  pose proof (series_wf_counted s2 (Hash lbls) ms (TenantOf lbls) _ (st_series_wf s2 Hs2 _ _ Elk)) as Hmwf.
  destruct (ensure_chunk_pairs _ _ _ _ _ _ Hmwf Ech) as [Hpairs1 Hpairs2].
  destruct (ensure_chunk_spec _ (Hash lbls) _ _ _ _ Hmwf Ech) as (Hwf & (pre & rc & E1 & Hopen) & _ & Hl1 & G1 & _). rewrite F1 in G1.
  assert (Hother3 : forall id, id <> Hash lbls -> st_series s3 !! id = st_series s !! id) by (intros id Hid; rewrite G1; by apply Hother).
  assert (Hold : forall e, (exists m, st_series s !! Hash lbls = Some m /\ e ∈ combine (ms_chunks m) (ms_segs m)) <-> e ∈ combine (ms_chunks ms) (ms_segs ms)).
  { intros e. subst ms. destruct (st_series s !! Hash lbls) as [m|] eqn:E; cbn; [naive_solver|]. split; [by intros (? & ? & _)|by intros ?%elem_of_nil]. }
  pose proof (sw_segs _ _ _ Hwf) as Hlen. rewrite E1 in Hlen. destruct (segs_snoc _ _ _ Hlen) as (spre & sg0 & Esegs & Hsl).
  rewrite E1, Esegs, combine_snoc in Hpairs1, Hpairs2 by done.
  (* the series after the append, its last chunk [rc'] extending [rc] *)
  assert (Hput : forall rc' ms', ms_labels ms' = lbls -> combine (ms_chunks ms') (ms_segs ms') = combine pre spre ++ [(rc', sg0)] -> samples_of rc.2 ⊆ samples_of rc'.2 ->
    let s' := put_series s3 (Hash lbls) ms' in
    (forall l rc0 sg, entry s l rc0 sg -> exists rc1, entry s' l rc1 sg /\ samples_of rc0.2 ⊆ samples_of rc1.2) /\
    (forall l rc0 sg, entry s' l rc0 sg -> sg = seg \/ exists rc1, entry s l rc1 sg) /\ entry s' lbls rc' sg0).
  { intros rc' ms' Hlm Hcomb Hsub s'. split_and!.
    - intros l rc0 sg [Hoff|(-> & Hin)]%(entry_cases s lbls l rc0 sg Hnc); [exists rc0; split; [|done]; apply (put_entry s); auto|].
      apply Hold, Hpairs1 in Hin. apply elem_of_app in Hin as [Hin|Hin%list_elem_of_singleton].
      + exists rc0. split; [|done]. apply (put_entry s); [done..|]. right. split; [done|]. rewrite Hcomb. apply elem_of_app. by left.
      + injection Hin as -> ->. exists rc'. split; [|done]. apply (put_entry s); [done..|]. right. split; [done|]. rewrite Hcomb. apply elem_of_app. right. by apply list_elem_of_singleton.
    - intros l rc0 sg [Hoff|(-> & Hin)]%(put_entry s s3 lbls ms' l rc0 sg Hother3 Hlm); [right; exists rc0; apply (entry_cases s lbls); auto|].
      rewrite Hcomb in Hin. apply elem_of_app in Hin as [Hin|Hin%list_elem_of_singleton].
      + destruct (Hpairs2 (rc0, sg)) as [Hin'|Heq]; [apply elem_of_app; by left| |by left]. right. exists rc0. apply (entry_cases s lbls); [done|]. right. split; [done|]. by apply Hold.
      + injection Hin as -> ->. destruct (Hpairs2 (rc, sg0)) as [Hin'|Heq]; [apply elem_of_app; right; by apply list_elem_of_singleton| |by left].
        right. exists rc. apply (entry_cases s lbls); [done|]. right. split; [done|]. by apply Hold.
    - apply (put_entry s); [done..|]. right. split; [done|]. rewrite Hcomb. apply elem_of_app. right. by apply list_elem_of_singleton. }
  rewrite E1, last_snoc. assert (Hrc : chunk_ok rc.2).
  { pose proof (sw_chunks _ _ _ Hwf) as HF. rewrite E1 in HF. by apply Forall_app in HF as [_ [[? _] _]%Forall_cons]. }
  destruct (Append rc.2 ts val g) as [c'|e] eqn:Eapp; cbn [fst snd].
  - rewrite set_last_app. assert (Happ : Append1 rc.2 (mkSample ts val g) = Ok c') by done. destruct (Append_range _ _ _ Happ) as [_ Hgr]. cbn in Hgr.
    assert (Hsok : sample_ok (mkSample ts val g)) by (split; [done|split; [done|cbn; unfold MaxGeneration in *; wsolve]]).
    destruct (Append_ok _ _ _ Hrc Hsok Happ) as [_ Hsm].
    destruct (Hput (rc.1, c') (mkMem (ms_labels ms1) (pre ++ [(rc.1, c')]) (ms_segs ms1))) as (H1 & H2 & H3); cbn [ms_labels ms_chunks ms_segs snd]; [congruence|by rewrite Esegs, combine_snoc|rewrite Hsm; intros z Hz; apply elem_of_app; by left|].
    split_and!; [done..|]. intros _. exists (rc.1, c'), sg0. split; [done|]. cbn [snd]. rewrite Hsm. apply elem_of_app. right. apply list_elem_of_singleton. f_equal.
    unfold assigned. destruct (Z.eqb_spec gen 0) as [E0|E0]; [symmetry; by apply Hg0|symmetry; by apply Hg1].
  - destruct (Hput rc ms1) as (H1 & H2 & H3); [congruence|by rewrite E1, Esegs, combine_snoc|done|]. done.
Qed.

(** ** The other operations *)

Lemma combine_set_last (f : Z * Chunk -> Z * Chunk) pre rc (spre : list Z) sg : length spre = length pre ->
  combine (set_last f (pre ++ [rc])) (spre ++ [sg]) = combine pre spre ++ [(f rc, sg)].
Proof. intros Hl. by rewrite set_last_app, combine_snoc. Qed.

(** Sealing changes no sample and no segment. *)
Lemma seal_entries s l rc seg : store_wf s -> entry s l rc seg -> exists rc', entry (SealHeadChunks s).2 l rc' seg /\ samples_of rc'.2 = samples_of rc.2.
Proof.
  intros Hs (id & ms & E & El & Hin). pose proof (st_series_wf s Hs _ _ E) as Hm. cbn [SealHeadChunks snd].
  assert (Hget : forall rc', (rc', seg) ∈ combine (ms_chunks (seal_head ms).1) (ms_segs (seal_head ms).1) ->
    entry (with_series s ((fun ms => (seal_head ms).1) <$> st_series s)) l rc' seg).
  { intros rc' Hin'. exists id, (seal_head ms).1. cbn [with_series st_series]. rewrite lookup_fmap, E. split_and!; [done| |done]. by rewrite (proj1 (proj2 (seal_head_wf s id ms Hm))). }
  unfold seal_head in *. destruct (last (ms_chunks ms)) as [rcl|] eqn:Elast; [|by exists rc; auto].
  destruct (_ && _)%bool; [|by exists rc; auto]. cbn [fst ms_chunks ms_segs] in Hget. apply last_Some in Elast as [pre Ech].
  pose proof (sw_segs _ _ _ Hm) as Hlen. rewrite Ech in Hlen. destruct (segs_snoc _ _ _ Hlen) as (spre & sg & Esegs & Hsl).
  rewrite Ech, Esegs, combine_set_last in Hget by done. rewrite Ech, Esegs, combine_snoc in Hin by done.
  apply elem_of_app in Hin as [Hin|Hin%list_elem_of_singleton].
  - exists rc. split; [|done]. apply Hget, elem_of_app. by left.
  - injection Hin as -> ->. exists (rcl.1, Seal rcl.2). split; [apply Hget, elem_of_app; right; by apply list_elem_of_singleton|]. cbn [snd]. apply Seal_samples.
    pose proof (sw_chunks _ _ _ Hm) as HF. rewrite Ech in HF. by apply Forall_app in HF as [_ [[? _] _]%Forall_cons].
Qed.
Lemma seal_segments s : head_segments (SealHeadChunks s).2 ⊆ head_segments s.
Proof.
  intros seg. unfold head_segments. rewrite !list_elem_of_bind. intros ([id ms'] & Hseg & Hin%elem_of_map_to_list). cbn [SealHeadChunks snd with_series st_series] in Hin.
  apply lookup_fmap_Some in Hin as (ms & <- & E). exists (id, ms). split; [|by apply elem_of_map_to_list]. cbn in *. unfold seal_head in Hseg. by repeat case_match.
Qed.

(** [SetHeadFence] gives every chunk the same segment. *)
Lemma fence_entries s w l rc seg : entry s l rc seg -> entry (SetHeadFence s w) l rc w.
Proof.
  intros (id & ms & E & El & Hin). exists id, (mkMem (ms_labels ms) (ms_chunks ms) ((fun _ => w) <$> ms_segs ms)). cbn [SetHeadFence with_series st_series]. rewrite lookup_fmap, E.
  split_and!; [done..|]. cbn [ms_chunks ms_segs]. revert Hin. generalize (ms_segs ms). induction (ms_chunks ms) as [|c cs IH]; intros [|g gs]; cbn; try by intros ?%elem_of_nil.
  rewrite !elem_of_cons. intros [[= -> ->]|Hin]; [by left|right; by apply (IH gs)].
Qed.
Lemma fence_segments s w : Forall (fun g => g = w) (head_segments (SetHeadFence s w)).
Proof.
  apply Forall_forall. intros seg. unfold head_segments. rewrite list_elem_of_bind. intros ([id ms'] & Hseg & Hin%elem_of_map_to_list).
  cbn [SetHeadFence with_series st_series] in Hin. apply lookup_fmap_Some in Hin as (ms & <- & E). cbn in Hseg. by apply list_elem_of_fmap in Hseg as (_ & -> & _).
Qed.

(** A discard takes the chunks it names and nothing else. *)
Lemma discard_entries s snap l rc seg : store_wf s ->
  entry (DiscardSealedChunks s snap) l rc seg <-> entry s l rc seg /\ rc.1 ∉ snapshot_refs snap.
Proof.
  intros Hs. destruct (DiscardSealedChunks_spec s snap Hs) as (_ & Hser & _). unfold entry. rewrite Hser. split.
  - intros (id & ms' & (ms & <- & E)%lookup_fmap_Some & El & Hin). cbn [keep_chunks ms_chunks ms_segs ms_labels] in *. rewrite combine_split in Hin.
    apply list_elem_of_filter in Hin as [Hr Hin]. split; [|done]. by exists id, ms.
  - intros [(id & ms & E & El & Hin) Hr]. exists id, (keep_chunks (snapshot_refs snap) ms). rewrite lookup_fmap, E. split_and!; [done..|].
    cbn [keep_chunks ms_chunks ms_segs]. rewrite combine_split. by apply list_elem_of_filter.
Qed.
Lemma remove_entries s i l rc seg : store_wf s -> entry (RemoveEmptySeries s i).2 l rc seg <-> entry s l rc seg.
Proof.
  intros Hs. destruct (RemoveEmptySeries_spec s i Hs) as (_ & _ & Hkeep & _). split.
  - intros (id & ms & E & El & Hin). exists id, ms. split; [|done]. unfold RemoveEmptySeries in E. destruct (st_series s !! i) as [m|] eqn:Ei; [|done].
    destruct (ms_chunks m); [|done]. cbn in E. by apply lookup_delete_Some in E as [_ ?].
  - intros (id & ms & E & El & Hin). exists id, ms. split; [|done]. apply Hkeep; [done|]. intros En. rewrite En in Hin. by apply elem_of_nil in Hin.
Qed.
Lemma same_series_entry s s' l rc seg : st_series s' = st_series s -> entry s' l rc seg <-> entry s l rc seg.
Proof. intros E. unfold entry. by rewrite E. Qed.

(** [OldestHeadSegment] is at most the segment of every chunk, and negative only
    for an empty head. *)
Lemma oldest_entry s l rc seg : store_wf s -> Forall (fun g => 0 <= g) (head_segments s) -> entry s l rc seg ->
  0 <= OldestHeadSegment s <= seg.
Proof.
  intros Hs HF He. assert (Hin : seg ∈ head_segments s) by (apply entry_segment; eauto). rewrite OldestHeadSegment_fold.
  destruct (oldest_fold (head_segments s) (-1) HF ltac:(lia)) as (_ & _ & _ & H4 & _). rewrite Forall_forall in H4. by apply H4.
Qed.
