(* ===== verification/Float.v ===== *)
(** * Float: float64 values as their bit patterns

    A value is the [Z] of its 64 bits ([math.Float64bits]); arithmetic decodes it
    to the IEEE 754 binary64 number the Standard Library specifies, rounds to
    nearest even and encodes the result. NaN results are encoded as the quiet NaN
    [math.NaN()] returns: payload propagation is the hardware's and is not
    modelled. *)
From S2P Require Import Prelude.
From Stdlib Require Import SpecFloat.

Definition prec64 : Z := 53.
Definition emax64 : Z := 1024.
Definition NaN_bits : Z := 0x7FF8000000000001.

Definition Float64frombits (b : Z) : spec_float :=
  let s := (2 ^ 63 <=? b) in
  let e := (b / 2 ^ 52) mod 2 ^ 11 in
  let m := b mod 2 ^ 52 in
  if e =? 2047 then (if m =? 0 then S754_infinity s else S754_nan)
  else if e =? 0 then match m with Zpos p => S754_finite s p (-1074) | _ => S754_zero s end
  else match m + 2 ^ 52 with Zpos p => S754_finite s p (e - 1075) | _ => S754_nan end.

Definition sign_bit (s : bool) : Z := if s then 2 ^ 63 else 0.
Definition Float64bits (f : spec_float) : Z :=
  match f with
  | S754_zero s => sign_bit s
  | S754_infinity s => sign_bit s + 2047 * 2 ^ 52
  | S754_nan => NaN_bits
  | S754_finite s m e =>
      if Zpos m <? 2 ^ 52 then sign_bit s + Zpos m
      else sign_bit s + (e + 1075) * 2 ^ 52 + (Zpos m - 2 ^ 52)
  end.

Definition fadd (a b : Z) : Z := Float64bits (SFadd prec64 emax64 (Float64frombits a) (Float64frombits b)).
Definition fsub (a b : Z) : Z := Float64bits (SFsub prec64 emax64 (Float64frombits a) (Float64frombits b)).
Definition fdiv (a b : Z) : Z := Float64bits (SFdiv prec64 emax64 (Float64frombits a) (Float64frombits b)).
(** [float64(n)] for an integer [n]. *)
Definition float64_of_int (n : Z) : Z := Float64bits (binary_normalize prec64 emax64 n 0 false).

Definition is_nan (b : Z) : bool := ((b / 2 ^ 52) mod 2 ^ 11 =? 2047) && negb (b mod 2 ^ 52 =? 0).

(** Decoding and encoding a bit pattern is the identity, NaN payloads aside. *)
Lemma Float64bits_frombits b : in_u64 b -> is_nan b = false -> Float64bits (Float64frombits b) = b.
Proof.
  intros Hb Hn. unfold Float64frombits, is_nan in *. set (e := (b / 2 ^ 52) mod 2 ^ 11) in *. set (m := b mod 2 ^ 52) in *.
  assert (Hsplit : b = sign_bit (2 ^ 63 <=? b) + e * 2 ^ 52 + m /\ 0 <= e < 2048 /\ 0 <= m < 2 ^ 52).
  { subst e m. unfold sign_bit. destruct (Z.leb_spec (2 ^ 63) b); unfold in_u64 in *;
      change (2 ^ 52) with 4503599627370496; change (2 ^ 11) with 2048; width; Z.to_euclidean_division_equations; lia. }
  destruct Hsplit as (Hs & He & Hm). set (s := (2 ^ 63 <=? b)) in *.
  destruct (Z.eqb_spec e 2047) as [E|E].
  - destruct (Z.eqb_spec m 0) as [E0|E0]; [cbn [Float64bits]; lia|].
    exfalso. cbn in Hn. done.
  - destruct (Z.eqb_spec e 0) as [E0|E0].
    + destruct m as [|p|p] eqn:Em; cbn [Float64bits]; [lia| |lia]. rewrite (proj2 (Z.ltb_lt _ _)) by lia. lia.
    + destruct (m + 2 ^ 52) as [|p|p] eqn:Em; [lia| |lia]. cbn [Float64bits]. rewrite (proj2 (Z.ltb_ge _ _)) by lia. lia.
Qed.

(** Checks against the hardware: 0.1 + 0.2, 1 / 3, 60000 / 1000, -0 + 0. *)
Example fadd_tenths : fadd 4591870180066957722 4596373779694328218 = 4599075939470750516.
Proof. vm_compute. reflexivity. Qed.
Example fdiv_third : fdiv (float64_of_int 1) (float64_of_int 3) = 4599676419421066581.
Proof. vm_compute. reflexivity. Qed.
Example fdiv_window : fdiv (float64_of_int 60000) (float64_of_int 1000) = float64_of_int 60.
Proof. vm_compute. reflexivity. Qed.
Example fadd_negzero : fadd (2 ^ 63) 0 = 0.
Proof. vm_compute. reflexivity. Qed.
