(* ===== verification/FloatInt.v ===== *)
(** * FloatInt: integers below 2^53 in float64 arithmetic

    Additions, subtractions and multiplications by one are exact on them. *)
From S2P Require Import Prelude Float.
From Stdlib Require Import SpecFloat.

Definition fmul (a b : Z) : Z := Float64bits (SFmul prec64 emax64 (Float64frombits a) (Float64frombits b)).
Definition small_int (n : Z) : Prop := 0 <= n < 2 ^ 53.

Lemma digits2_log2 p : Zpos (digits2_pos p) = Z.log2 (Zpos p) + 1.
Proof. destruct p as [p|p|]; cbn [Z.log2]; [| |done].
  - induction p as [p IH|p IH|]; cbn [digits2_pos Pos.size] in *; lia.
  - induction p as [p IH|p IH|]; cbn [digits2_pos Pos.size] in *; lia.
Qed.
Lemma shr_1_even x : 0 <= x -> shr_1 (Build_shr_record (2 * x) false false) = Build_shr_record x false false.
Proof. intros H. destruct x as [|p|p]; [done|done|lia]. Qed.
Lemma iter_pos_shr p x : 0 <= x -> iter_pos shr_1 p (Build_shr_record (x * 2 ^ Zpos p) false false) = Build_shr_record x false false.
Proof.
  revert x. induction p as [p IH|p IH|]; intros x Hx; cbn [iter_pos].
  - replace (x * 2 ^ Zpos p~1) with (2 * (x * 2 ^ Zpos p * 2 ^ Zpos p)); [rewrite shr_1_even, !IH; [done|nia..]|].
    replace (Zpos p~1) with (Z.succ (Zpos p + Zpos p)) by lia. rewrite Z.pow_succ_r, Z.pow_add_r by lia. ring.
  - replace (x * 2 ^ Zpos p~0) with (x * 2 ^ Zpos p * 2 ^ Zpos p); [rewrite !IH; [done|nia..]|].
    replace (Zpos p~0) with (Zpos p + Zpos p) by lia. rewrite Z.pow_add_r by lia. ring.
  - rewrite Z.pow_1_r, Z.mul_comm. by apply shr_1_even.
Qed.
Lemma iter_xO d p : Zpos (Pos.iter xO p d) = Zpos p * 2 ^ Zpos d.
Proof.
  induction d as [|d IH] using Pos.peano_ind; [cbn; lia|]. rewrite Pos.iter_succ, Pos2Z.inj_xO, IH, Pos2Z.inj_succ, Z.pow_succ_r by lia. ring.
Qed.

Notation round_aux := (binary_round_aux prec64 emax64).
Lemma Zdigits2_log2 m : 0 < m -> Zdigits2 m = Z.log2 m + 1.
Proof. destruct m as [|p|p]; [lia| |lia]. intros _. apply digits2_log2. Qed.
Lemma shr_fexp_exact X j e : 2 ^ 52 <= X < 2 ^ 53 -> 0 <= j -> -1074 <= e + j ->
  shr_fexp prec64 emax64 (X * 2 ^ j) e loc_Exact = (Build_shr_record X false false, e + j).
Proof.
  intros HX Hj He. assert (Hl : Z.log2 X = 52) by (apply Z.log2_unique; lia). unfold shr_fexp. rewrite Zdigits2_log2 by (assert (0 < 2 ^ j) by (apply Z.pow_pos_nonneg; lia); lia).
  rewrite Z.log2_mul_pow2, Hl by lia. unfold fexp, emin, prec64, emax64. replace (Z.max _ _ - e) with j by lia. unfold shr. cbn [shr_record_of_loc]. destruct j as [|p|p]; [|by rewrite iter_pos_shr by lia|lia].
  by rewrite Z.mul_1_r, Z.add_0_r.
Qed.
Lemma round_exact X j e : 2 ^ 52 <= X < 2 ^ 53 -> 0 <= j -> -1074 <= e + j <= 971 -> round_aux false (X * 2 ^ j) e loc_Exact = S754_finite false (Z.to_pos X) (e + j).
Proof.
  intros HX Hj He. unfold binary_round_aux. rewrite shr_fexp_exact by lia. cbn [shr_m loc_of_shr_record round_nearest_even].
  pose proof (shr_fexp_exact X 0 (e + j) HX ltac:(lia) ltac:(lia)) as H0. rewrite Z.mul_1_r, Z.add_0_r in H0. rewrite H0. cbn [shr_m].
  destruct X as [|p|p]; [lia| |lia]. change (emax64 - prec64) with 971. rewrite (proj2 (Z.leb_le _ _)) by lia. done.
Qed.

(** The binary64 number of a small integer. *)
Definition int_float (n : Z) : spec_float := match n with 0 => S754_zero false | _ => S754_finite false (Z.to_pos (n * 2 ^ (52 - Z.log2 n))) (Z.log2 n - 52) end.
Lemma small_log2 n : 0 < n < 2 ^ 53 -> 0 <= Z.log2 n <= 52.
Proof. intros H. split; [apply Z.log2_nonneg|]. assert (Z.log2 n < 53) by (apply Z.log2_lt_pow2; lia). lia. Qed.
Lemma small_mantissa n : 0 < n < 2 ^ 53 -> 2 ^ 52 <= n * 2 ^ (52 - Z.log2 n) < 2 ^ 53.
Proof.
  intros H. pose proof (small_log2 n H) as Hl. destruct (Z.log2_spec n) as [H1 H2]; [lia|]. replace (2 ^ 52) with (2 ^ Z.log2 n * 2 ^ (52 - Z.log2 n)) by (rewrite <- Z.pow_add_r by lia; f_equal; lia).
  replace (2 ^ 53) with (2 ^ Z.succ (Z.log2 n) * 2 ^ (52 - Z.log2 n)) by (rewrite <- Z.pow_add_r by lia; f_equal; lia). assert (0 < 2 ^ (52 - Z.log2 n)) by (apply Z.pow_pos_nonneg; lia). nia.
Qed.
Lemma normalize_int n k : small_int n -> 0 <= k <= 500 -> binary_normalize prec64 emax64 (n * 2 ^ k) (- k) false = int_float n.
Proof.
  unfold small_int. intros Hn Hk. assert (Hp : 0 < 2 ^ k) by (apply Z.pow_pos_nonneg; lia). destruct (decide (n = 0)) as [->|Hne]; [done|]. assert (Hn' : 0 < n < 2 ^ 53) by lia. pose proof (small_log2 n Hn') as Hl. pose proof (small_mantissa n Hn') as HX.
  assert (Ei : int_float n = S754_finite false (Z.to_pos (n * 2 ^ (52 - Z.log2 n))) (Z.log2 n - 52)) by (destruct n; [lia|done|lia]). rewrite Ei. set (X := n * 2 ^ (52 - Z.log2 n)) in *.
  destruct (n * 2 ^ k) as [|M|M] eqn:EM; [lia| |lia]. cbn [binary_normalize]. unfold binary_round. rewrite digits2_log2, <- EM, Z.log2_mul_pow2 by lia. unfold shl_align.
  assert (Ef : fexp prec64 emax64 (k + Z.log2 n + 1 + - k) - - k = k + Z.log2 n - 52) by (unfold fexp, emin, prec64, emax64; lia).
  destruct (fexp prec64 emax64 (k + Z.log2 n + 1 + - k) - - k) as [|d|d] eqn:Ed.
  - pose proof (round_exact X 0 (- k) HX ltac:(lia) ltac:(lia)) as H. rewrite Z.mul_1_r in H. rewrite <- EM. replace (n * 2 ^ k) with X by (unfold X; f_equal; f_equal; lia). rewrite H. f_equal; lia.
  - rewrite <- EM. replace (n * 2 ^ k) with (X * 2 ^ Zpos d); [rewrite round_exact by lia; f_equal; lia|]. unfold X. rewrite <- Z.mul_assoc, <- Z.pow_add_r by lia. f_equal. f_equal. lia.
  - rewrite iter_xO, <- EM, <- Z.mul_assoc, <- Z.pow_add_r by lia. replace (k + Zpos d) with (52 - Z.log2 n) by lia. fold X.
    pose proof (round_exact X 0 (fexp prec64 emax64 (k + Z.log2 n + 1 + - k)) HX ltac:(lia)) as H. rewrite Z.mul_1_r in H. rewrite H by lia. f_equal; lia.
Qed.

Lemma int_float_pos n : 0 < n -> int_float n = S754_finite false (Z.to_pos (n * 2 ^ (52 - Z.log2 n))) (Z.log2 n - 52).
Proof. by destruct n. Qed.
Lemma bits_int n : small_int n -> Float64frombits (Float64bits (int_float n)) = int_float n.
Proof.
  unfold small_int. intros Hn. destruct (decide (n = 0)) as [->|Hne]; [done|]. assert (Hn' : 0 < n < 2 ^ 53) by lia. pose proof (small_log2 n Hn') as Hl. pose proof (small_mantissa n Hn') as HX.
  rewrite int_float_pos by lia. set (X := n * 2 ^ (52 - Z.log2 n)) in *. set (l := Z.log2 n) in *. clearbody X l. cbn [Float64bits]. rewrite Z2Pos.id by lia. rewrite (proj2 (Z.ltb_ge _ _)) by lia.
  set (b := sign_bit false + (l - 52 + 1075) * 2 ^ 52 + (X - 2 ^ 52)). assert (Eb : b = (l + 1023) * 2 ^ 52 + (X - 2 ^ 52)) by (unfold b, sign_bit; ring). unfold Float64frombits.
  assert (Em : b mod 2 ^ 52 = X - 2 ^ 52) by (rewrite Eb, Z.add_comm, Z.mod_add, Z.mod_small by lia; done).
  assert (Ed : b / 2 ^ 52 = l + 1023) by (rewrite Eb, Z.add_comm, Z.div_add, Z.div_small by lia; lia).
  rewrite Em, Ed. rewrite (Z.mod_small (l + 1023)) by lia. rewrite (proj2 (Z.leb_gt (2 ^ 63) b)) by (rewrite Eb; lia). rewrite !(proj2 (Z.eqb_neq _ _)) by lia.
  replace (X - 2 ^ 52 + 2 ^ 52) with X by lia. destruct X as [|p|p]; [lia| |lia]. cbn [Z.to_pos]. f_equal. lia.
Qed.
Lemma float64_int n : small_int n -> float64_of_int n = Float64bits (int_float n).
Proof. intros H. unfold float64_of_int. pose proof (normalize_int n 0 H ltac:(lia)) as E. rewrite Z.mul_1_r in E. change (- 0) with 0 in E. by rewrite E. Qed.
Lemma float64_int_bits n : small_int n -> Float64frombits (float64_of_int n) = int_float n.
Proof. intros H. by rewrite float64_int, bits_int. Qed.
Lemma align_exact m e ez : ez <= e -> Zpos (fst (shl_align m e ez)) = Zpos m * 2 ^ (e - ez).
Proof.
  intros H. unfold shl_align. destruct (ez - e) as [|d|d] eqn:E; [replace (e - ez) with 0 by lia; cbn [fst]; lia|lia|]. cbn [fst]. rewrite iter_xO. f_equal. f_equal. lia.
Qed.
Lemma int_aligned n ez : 0 < n < 2 ^ 53 -> ez <= Z.log2 n - 52 -> Zpos (fst (shl_align (Z.to_pos (n * 2 ^ (52 - Z.log2 n))) (Z.log2 n - 52) ez)) = n * 2 ^ (- ez).
Proof.
  intros Hn He. pose proof (small_log2 n Hn). pose proof (small_mantissa n Hn). rewrite align_exact, Z2Pos.id, <- Z.mul_assoc, <- Z.pow_add_r by lia. f_equal. f_equal. lia.
Qed.

(** Exact sums, differences and products by one. *)
Lemma fadd_int a b : small_int a -> small_int b -> small_int (a + b) -> fadd (float64_of_int a) (float64_of_int b) = float64_of_int (a + b).
Proof.
  intros Ha Hb Hab. unfold fadd. rewrite !float64_int_bits, float64_int by done. f_equal. unfold small_int in *. destruct (decide (a = 0)) as [->|Ha0].
  - rewrite Z.add_0_l. cbn [int_float SFadd]. destruct b; [done|done|lia].
  - destruct (decide (b = 0)) as [->|Hb0]; [rewrite Z.add_0_r; destruct a; [done|done|lia]|]. rewrite !int_float_pos by lia. cbn [SFadd cond_Zopp]. set (ez := Z.min _ _). pose proof (small_log2 a ltac:(lia)). pose proof (small_log2 b ltac:(lia)).
    rewrite !int_aligned, <- Z.mul_add_distr_r by (unfold ez; lia). rewrite <- int_float_pos by lia. rewrite <- (normalize_int (a + b) (- ez)); [by rewrite Z.opp_involutive|done|unfold ez; lia].
Qed.
Lemma fsub_int a b : small_int a -> 0 <= b <= a -> fsub (float64_of_int a) (float64_of_int b) = float64_of_int (a - b).
Proof.
  intros Ha Hb. unfold fsub. assert (small_int b /\ small_int (a - b)) as [Hb' Hab] by (unfold small_int in *; lia). rewrite !float64_int_bits, float64_int by done. f_equal. unfold small_int in *. destruct (decide (b = 0)) as [->|Hb0].
  - rewrite Z.sub_0_r. destruct a; [done|done|lia].
  - rewrite !int_float_pos by lia. cbn [SFsub cond_Zopp]. set (ez := Z.min _ _). pose proof (small_log2 a ltac:(lia)). pose proof (small_log2 b ltac:(lia)).
    rewrite !int_aligned, <- Z.mul_sub_distr_r by (unfold ez; lia). rewrite <- (normalize_int (a - b) (- ez)); [by rewrite Z.opp_involutive|done|unfold ez; lia].
Qed.
Lemma fmul_one n : small_int n -> fmul (float64_of_int 1) (float64_of_int n) = float64_of_int n.
Proof.
  intros Hn. unfold fmul. rewrite !float64_int_bits, float64_int by (done || (unfold small_int; lia)). f_equal. unfold small_int in Hn. destruct (decide (n = 0)) as [->|Hne]; [done|]. rewrite !int_float_pos by lia. cbn [SFmul xorb].
  pose proof (small_log2 n ltac:(lia)). pose proof (small_mantissa n ltac:(lia)) as HX. set (X := n * 2 ^ (52 - Z.log2 n)) in *. change (Z.to_pos (1 * 2 ^ (52 - Z.log2 1))) with (Z.to_pos (2 ^ 52)). change (Z.log2 1 - 52) with (-52).
  rewrite Pos2Z.inj_mul, !Z2Pos.id, Z.mul_comm by lia. rewrite round_exact by lia. f_equal. lia.
Qed.
