(* ===== verification/Engine.v ===== *)
(** * Engine: instant and range queries, rates, sums and metadata

    [internal/metrics/query.go], [eval.go] and [expr.go]. The engine reads a
    [Source] and nothing else, so every theorem here is proved against the
    interface [Implements]. Values are float64 bit patterns. *)
From S2P Require Import Prelude GoLib GoSort Bits Chunk Dedup Labels Source Float.

(** ** Data *)

Inductive queryErr := ErrStep | ErrEnd | ErrSource (e : srcErr) | ErrRunning.
Record InstantSample := mkInstant { is_labels : Labels; is_ts : Z; is_val : Z }.
Record SamplePoint := mkPoint { pt_ts : Z; pt_val : Z }.
Record RangeSeries := mkRange { rs_labels : Labels; rs_points : list SamplePoint }.

Inductive Expr :=
  | SelectorExpr (sel : Selector)
  | RateExpr (sel : Selector) (WindowMs : Z)
  | SumExpr (Inner : Expr) (By : list string)
  | ScalarExpr (v : Z).

(** ** Instant queries *)

Definition engine_select (src : Source) (ctx : context) (p : SelectParams) : result queryErr (list SeriesData) :=
  match src_Select src ctx p with Ok out => Ok out | Err e => Err (ErrSource e) end.

Definition latestAtOrBefore (sd : SeriesData) (t : Z) : option sample :=
  match SearchList (fun x => t <? s_ts x) (sd_samples sd) with
  | S i => sd_samples sd !! i
  | O => match sd_anchor sd with
         | Some a => if s_ts a <=? t then Some a else None
         | None => None
         end
  end.

Definition instant_of (tMs : Z) (sd : SeriesData) : option InstantSample :=
  s ← latestAtOrBefore sd tMs; Some (mkInstant (sd_labels sd) (s_ts s) (s_val s)).
Definition InstantQuery (src : Source) (ctx : context) (sel : Selector) (tMs : Z) : result queryErr (list InstantSample) :=
  series ← engine_select src ctx (mkParams sel tMs tMs true false false);
  Ok (omap (M := list) (instant_of tMs) series).

(** ** The tick loop: [for t := start; t <= end; t += step]

    [fuel] bounds the number of iterations; [None] means the loop is still
    running when it is used up. The addition wraps as int64 does. *)
Fixpoint tick_loop {S : Type} (fuel : nat) (body : S -> Z -> S) (t endMs stepMs : Z) (s : S) : option S :=
  if endMs <? t then Some s
  else match fuel with
       | O => None
       | Datatypes.S k => tick_loop k body (i64 (t + stepMs)) endMs stepMs (body s t)
       end.

(** [for next < len(samples) && samples[next].TimestampMs <= t]; [rest] is what
    lies from [next] on. *)
Fixpoint advance (t : Z) (cur : option sample) (rest : list sample) : option sample * list sample :=
  match rest with
  | x :: rest' => if s_ts x <=? t then advance t (Some x) rest' else (cur, rest)
  | [] => (cur, [])
  end.
Definition range_body (st : option sample * list sample * list SamplePoint) (t : Z) : option sample * list sample * list SamplePoint :=
  let '(cur, rest, points) := st in
  let '(cur, rest) := advance t cur rest in
  match cur with
  | None => (cur, rest, points)
  | Some x => (cur, rest, points ++ [mkPoint t (s_val x)])
  end.

(** Read every series of an answer; a series without points is dropped. *)
Fixpoint range_series (points : SeriesData -> option (list SamplePoint)) (series : list SeriesData) : result queryErr (list RangeSeries) :=
  match series with
  | [] => Ok []
  | sd :: rest =>
      match points sd with
      | None => Err ErrRunning
      | Some [] => range_series points rest
      | Some pts => out ← range_series points rest; Ok (mkRange (sd_labels sd) pts :: out)
      end
  end.

Definition range_points (fuel : nat) (startMs endMs stepMs : Z) (sd : SeriesData) : option (list SamplePoint) :=
  snd <$> tick_loop fuel range_body startMs endMs stepMs (sd_anchor sd, sd_samples sd, []).
Definition check_range (startMs endMs stepMs : Z) : result queryErr unit :=
  if stepMs <=? 0 then Err ErrStep else if endMs <? startMs then Err ErrEnd else Ok tt.
Definition RangeQuery (fuel : nat) (src : Source) (ctx : context) (sel : Selector) (startMs endMs stepMs : Z)
  : result queryErr (list RangeSeries) :=
  _ ← check_range startMs endMs stepMs;
  series ← engine_select src ctx (mkParams sel startMs endMs true false false);
  range_series (range_points fuel startMs endMs stepMs) series.

(** ** Rates *)

Definition saturatingSub (a b : Z) : Z := if ((0 <? b) && (a <? i64 (MinInt64 + b)))%bool then MinInt64 else i64 (a - b).
Definition windowSec (WindowMs : Z) : Z := fdiv (float64_of_int WindowMs) (float64_of_int 1000).
Definition rate_of (WindowMs : Z) (first last : sample) : Z := fdiv (fsub (s_val last) (s_val first)) (windowSec WindowMs).

Definition rate_instant_of (WindowMs tMs : Z) (sd : SeriesData) : option InstantSample :=
  match sd_samples sd, last (sd_samples sd) with
  | first :: _ :: _, Some last => Some (mkInstant (sd_labels sd) tMs (rate_of WindowMs first last))
  | _, _ => None
  end.
Definition rateInstant (src : Source) (ctx : context) (sel : Selector) (WindowMs tMs : Z) : result queryErr (list InstantSample) :=
  series ← engine_select src ctx (mkParams sel (saturatingSub tMs WindowMs) tMs false false false);
  Ok (omap (M := list) (rate_instant_of WindowMs tMs) series).

(** [for i < bound && ok(samples[i]) { i++ }], with at most [fuel] steps. *)
Fixpoint scan (fuel : nat) (ok : sample -> bool) (samples : list sample) (bound i : nat) : nat :=
  match fuel with
  | O => i
  | S k =>
      if (i <? bound)%nat then
        match samples !! i with Some x => if ok x then scan k ok samples bound (S i) else i | None => i end
      else i
  end.
Definition rate_body (samples : list sample) (WindowMs : Z) (st : nat * nat * list SamplePoint) (t : Z) : nat * nat * list SamplePoint :=
  let '(lo, hi, points) := st in
  let hi := scan (length samples) (fun x => s_ts x <=? t) samples (length samples) hi in
  let lo := scan (length samples) (fun x => s_ts x <? saturatingSub t WindowMs) samples hi lo in
  if (hi - lo <? 2)%nat then (lo, hi, points)
  else match samples !! lo, samples !! pred hi with
       | Some first, Some last => (lo, hi, points ++ [mkPoint t (rate_of WindowMs first last)])
       | _, _ => (lo, hi, points)
       end.
Definition rate_points (fuel : nat) (WindowMs startMs endMs stepMs : Z) (sd : SeriesData) : option (list SamplePoint) :=
  snd <$> tick_loop fuel (rate_body (sd_samples sd) WindowMs) startMs endMs stepMs (0%nat, 0%nat, []).
Definition rateRange (fuel : nat) (src : Source) (ctx : context) (sel : Selector) (WindowMs startMs endMs stepMs : Z)
  : result queryErr (list RangeSeries) :=
  series ← engine_select src ctx (mkParams sel (saturatingSub startMs WindowMs) endMs false false false);
  range_series (rate_points fuel WindowMs startMs endMs stepMs) series.

(** ** Sums *)

Definition newOutputLabels (m : gmap string string) : Labels := NewUnvalidated m.
Definition label_value (l : Labels) (name : string) : string := default ""%string (Get l name).
Definition groupKey (l : Labels) (by_ : list string) : string :=
  bytes_str (by_ ≫= fun name => be_bytes 4 (u32 (str_len (label_value l name))) ++ str_bytes (label_value l name)).
Definition group_labels (l : Labels) (by_ : list string) : gmap string string :=
  fold_left (fun lm name => <[name := label_value l name]> lm) by_ ∅.

Definition instant_group (by_ : list string) (acc : gmap string Z * gmap string (gmap string string)) (s : InstantSample)
  : gmap string Z * gmap string (gmap string string) :=
  let key := groupKey (is_labels s) by_ in
  (<[key := fadd (default 0 (acc.1 !! key)) (is_val s)]> acc.1,
   match acc.2 !! key with Some _ => acc.2 | None => <[key := group_labels (is_labels s) by_]> acc.2 end).
Definition aggregateInstant (samples : list InstantSample) (by_ : list string) (tMs : Z) : list InstantSample :=
  match samples with
  | [] => []
  | _ =>
      match by_ with
      | [] => [mkInstant (newOutputLabels ∅) tMs (fold_left (fun total s => fadd total (is_val s)) samples 0)]
      | _ =>
          let '(values, lbls) := fold_left (instant_group by_) samples (∅, ∅) in
          (fun e : string * Z => mkInstant (newOutputLabels (default ∅ (lbls !! e.1))) tMs e.2) <$> map_to_list values
      end
  end.

Definition add_point (ticks : gmap Z Z) (p : SamplePoint) : gmap Z Z :=
  <[pt_ts p := fadd (default 0 (ticks !! pt_ts p)) (pt_val p)]> ticks.
Definition range_group (by_ : list string) (acc : gmap string (gmap Z Z) * gmap string (gmap string string)) (rs : RangeSeries)
  : gmap string (gmap Z Z) * gmap string (gmap string string) :=
  let key := groupKey (rs_labels rs) by_ in
  let '(ticks, lbls) := match acc.1 !! key with
    | Some _ => acc
    | None => (<[key := ∅]> acc.1, <[key := group_labels (rs_labels rs) by_]> acc.2)
    end in
  (<[key := fold_left add_point (rs_points rs) (default ∅ (ticks !! key))]> ticks, lbls).
Definition sortPoints (pts : list SamplePoint) : list SamplePoint := sort_by pt_ts pts.
Definition aggregateRange (series : list RangeSeries) (by_ : list string) : list RangeSeries :=
  match series with
  | [] => []
  | _ =>
      let '(groups, lbls) := fold_left (range_group by_) series (∅, ∅) in
      (fun e : string * gmap Z Z =>
         mkRange (newOutputLabels (default ∅ (lbls !! e.1)))
           (sortPoints ((fun tv : Z * Z => mkPoint tv.1 tv.2) <$> map_to_list e.2))) <$> map_to_list groups
  end.

(** ** Evaluation *)

Fixpoint EvalInstant (src : Source) (ctx : context) (e : Expr) (tMs : Z) : result queryErr (list InstantSample) :=
  match e with
  | SelectorExpr sel => InstantQuery src ctx sel tMs
  | RateExpr sel w => rateInstant src ctx sel w tMs
  | SumExpr inner by_ => out ← EvalInstant src ctx inner tMs; Ok (aggregateInstant out by_ tMs)
  | ScalarExpr v => Ok [mkInstant (newOutputLabels ∅) tMs v]
  end.
Definition scalarPoints (fuel : nat) (v startMs endMs stepMs : Z) : option (list SamplePoint) :=
  tick_loop fuel (fun pts t => pts ++ [mkPoint t v]) startMs endMs stepMs [].
Fixpoint EvalRange (fuel : nat) (src : Source) (ctx : context) (e : Expr) (startMs endMs stepMs : Z) : result queryErr (list RangeSeries) :=
  _ ← check_range startMs endMs stepMs;
  match e with
  | SelectorExpr sel => RangeQuery fuel src ctx sel startMs endMs stepMs
  | RateExpr sel w => rateRange fuel src ctx sel w startMs endMs stepMs
  | SumExpr inner by_ => out ← EvalRange fuel src ctx inner startMs endMs stepMs; Ok (aggregateRange out by_)
  | ScalarExpr v =>
      match scalarPoints fuel v startMs endMs stepMs with
      | None => Err ErrRunning
      | Some pts => Ok [mkRange (newOutputLabels ∅) (sortPoints pts)]
      end
  end.

(** ** Metadata *)

Record MetadataFilter := mkFilter { Selectors : list Selector; StartMs : Z; EndMs : Z; HasTime : bool }.
Definition isUnfiltered (f : MetadataFilter) : bool := match Selectors f with [] => negb (HasTime f) | _ => false end.

(** The inner loop: series not seen yet are appended. *)
Definition add_unseen (acc : gset Z * list SeriesData) (sd : SeriesData) : gset Z * list SeriesData :=
  if decide (Hash (sd_labels sd) ∈ acc.1) then acc else ({[Hash (sd_labels sd)]} ∪ acc.1, acc.2 ++ [sd]).
Fixpoint matching_loop (src : Source) (ctx : context) (f : MetadataFilter) (sels : list Selector) (acc : gset Z * list SeriesData)
  : result queryErr (gset Z * list SeriesData) :=
  match sels with
  | [] => Ok acc
  | sel :: rest =>
      matched ← engine_select src ctx (mkParams sel (StartMs f) (EndMs f) false true (negb (HasTime f)));
      matching_loop src ctx f rest (fold_left add_unseen matched acc)
  end.
Definition matchingSeries (src : Source) (ctx : context) (f : MetadataFilter) : result queryErr (list SeriesData) :=
  let sels := match Selectors f with [] => [mkSelector "" []] | s => s end in
  acc ← matching_loop src ctx f sels (∅, []); Ok acc.2.

Definition source_list (r : result srcErr (list string)) : result queryErr (list string) :=
  match r with Ok l => Ok l | Err e => Err (ErrSource e) end.
Definition LabelNames (src : Source) (ctx : context) (f : MetadataFilter) : result queryErr (list string) :=
  if isUnfiltered f then source_list (src_LabelNames src ctx)
  else series ← matchingSeries src ctx f; Ok (sortedStringSet (names_of series)).
Definition LabelValues (src : Source) (ctx : context) (name : string) (f : MetadataFilter) : result queryErr (list string) :=
  if isUnfiltered f then source_list (src_LabelValues src ctx name)
  else series ← matchingSeries src ctx f; Ok (sortedStringSet (values_of name series)).

(** The pair comparison of [Series]: [__name__] is skipped on each side. *)
Fixpoint pairs_less (fuel : nat) (pi pj : list Label) : bool :=
  match fuel with
  | O => false
  | S k =>
      match pi with
      | p :: pi' =>
          if String.eqb (Name p) "__name__" then pairs_less k pi' pj else
          match pj with
          | q :: pj' =>
              if String.eqb (Name q) "__name__" then pairs_less k pi pj' else
              if String.eqb (Name p) (Name q) then
                if String.eqb (Value p) (Value q) then pairs_less k pi' pj'
                else String.ltb (Value p) (Value q)
              else String.ltb (Name p) (Name q)
          | [] => false
          end
      | [] =>
          match pj with
          | q :: pj' => if String.eqb (Name q) "__name__" then pairs_less k pi pj' else true
          | [] => false
          end
      end
  end.
Definition sortedPairs (l : Labels) : list Label := sort_str Name ((fun e => mkLabel e.1 e.2) <$> map_to_list (labels_Map l)).
Definition series_less (a b : Labels) : bool :=
  let na := label_value a "__name__" in
  let nb := label_value b "__name__" in
  if String.eqb na nb then pairs_less (S (length (sortedPairs a) + length (sortedPairs b))) (sortedPairs a) (sortedPairs b)
  else String.ltb na nb.
Definition keep_first (seen : gmap Z Labels) (sd : SeriesData) : gmap Z Labels :=
  match seen !! Hash (sd_labels sd) with Some _ => seen | None => <[Hash (sd_labels sd) := sd_labels sd]> seen end.
Definition Series (src : Source) (ctx : context) (f : MetadataFilter) : result queryErr (list Labels) :=
  series ← matchingSeries src ctx f;
  Ok (SliceStable series_less (map_to_list (fold_left keep_first series ∅)).*2).

(** ** The tick loop *)

Definition ticks (startMs endMs stepMs : Z) : list Z :=
  (fun k => startMs + Z.of_nat k * stepMs) <$> seq 0 (Z.to_nat ((endMs - startMs) / stepMs + 1)).

Lemma ticks_nil t endMs stepMs : 0 < stepMs -> endMs < t -> ticks t endMs stepMs = [].
Proof.
  intros Hs Ht. unfold ticks. assert ((endMs - t) / stepMs < 0) by (apply Z.div_lt_upper_bound; lia).
  by replace (Z.to_nat _) with 0%nat by lia.
Qed.
Lemma ticks_cons t endMs stepMs : 0 < stepMs -> t <= endMs -> ticks t endMs stepMs = t :: ticks (t + stepMs) endMs stepMs.
Proof.
  intros Hs Ht. unfold ticks.
  assert (Hd : (endMs - (t + stepMs)) / stepMs = (endMs - t) / stepMs - 1).
  { replace (endMs - (t + stepMs)) with (endMs - t + (-1) * stepMs) by lia. rewrite Z.div_add by lia. lia. }
  assert (0 <= (endMs - t) / stepMs) by (apply Z.div_pos; lia).
  rewrite Hd. replace (Z.to_nat ((endMs - t) / stepMs + 1)) with (S (Z.to_nat ((endMs - t) / stepMs - 1 + 1))) by lia.
  cbn [seq fmap list_fmap]. f_equal; [lia|]. rewrite <- fmap_S_seq, <- list_fmap_compose. apply list_fmap_ext.
  intros i k _. cbn. lia.
Qed.

Lemma elem_of_ticks startMs endMs stepMs t : 0 < stepMs -> t ∈ ticks startMs endMs stepMs -> startMs <= t <= endMs.
Proof.
  intros Hs (k & -> & Hk%elem_of_seq)%list_elem_of_fmap. cbn beta. assert (Z.of_nat k <= (endMs - startMs) / stepMs) by lia.
  assert (Z.of_nat k * stepMs <= endMs - startMs); [|nia].
  transitivity (stepMs * ((endMs - startMs) / stepMs)); [nia|]. by apply Z.mul_div_le.
Qed.

Lemma ticks_sorted startMs endMs stepMs : 0 < stepMs -> StronglySorted Z.lt (ticks startMs endMs stepMs).
Proof.
  intros Hs. remember (Z.to_nat ((endMs - startMs) / stepMs + 1)) as n eqn:En. revert startMs En.
  induction n as [|n IH]; intros t En.
  - unfold ticks. rewrite <- En. constructor.
  - assert (t <= endMs).
    { destruct (Z.le_gt_cases t endMs); [done|]. assert ((endMs - t) / stepMs < 0) by (apply Z.div_lt_upper_bound; lia). lia. }
    rewrite ticks_cons by done. constructor.
    + apply IH. replace (endMs - (t + stepMs)) with (endMs - t + (-1) * stepMs) by lia. rewrite Z.div_add by lia. lia.
    + apply Forall_forall. intros x Hx. apply elem_of_ticks in Hx; [lia|done].
Qed.

(** With [end + step] representable the loop visits the ticks and stops. *)
Lemma tick_loop_ticks {S} (body : S -> Z -> S) fuel t endMs stepMs s :
  0 < stepMs -> MinInt64 <= t -> endMs + stepMs <= MaxInt64 -> (length (ticks t endMs stepMs) <= fuel)%nat ->
  tick_loop fuel body t endMs stepMs s = Some (fold_left body (ticks t endMs stepMs) s).
Proof.
  intros Hs Ht He. revert t Ht s. induction fuel as [|fuel IH]; intros t Ht s Hf; cbn [tick_loop].
  - destruct (Z.ltb_spec endMs t); [by rewrite ticks_nil|]. rewrite ticks_cons in Hf by done. cbn in Hf. lia.
  - destruct (Z.ltb_spec endMs t); [by rewrite ticks_nil|]. rewrite ticks_cons in * by done. cbn [length fold_left] in *.
    rewrite i64_id by wsolve. apply IH; lia.
Qed.

(** A loop over ascending ticks whose state is a function of the last tick seen
    collects one optional point per tick. *)
Lemma fold_points {St} (body : St * list SamplePoint -> Z -> St * list SamplePoint) (Inv : Z -> St -> Prop) (point : Z -> option SamplePoint) lo hi :
  (forall t0 t st pts, t0 < t -> lo <= t <= hi -> Inv t0 st -> exists st', Inv t st' /\
     body (st, pts) t = (st', pts ++ match point t with Some p => [p] | None => [] end)) ->
  forall ts t0 st pts, StronglySorted Z.lt (t0 :: ts) -> Forall (fun t => lo <= t <= hi) ts -> Inv t0 st ->
  snd (fold_left body ts (st, pts)) = pts ++ omap point ts.
Proof.
  intros Hb ts. induction ts as [|t ts IH]; intros t0 st pts Hs HF Hi; cbn [fold_left omap list_omap]; [by rewrite app_nil_r|].
  apply Forall_cons in HF as [Ht HF]. apply StronglySorted_inv in Hs as [Hs H0]. apply Forall_cons in H0 as [H0 _].
  destruct (Hb t0 t st pts H0 Ht Hi) as (st' & Hi' & ->). rewrite (IH t) by done. rewrite <- app_assoc. by destruct (point t).
Qed.

(** ** Sorted samples split at a time *)

Notation sorted_samples := (StronglySorted (key_lt s_ts)).

Lemma sorted_filter (P : sample -> Prop) `{!forall x, Decision (P x)} l : sorted_samples l -> sorted_samples (filter P l).
Proof.
  induction 1 as [|x l Hl IH Hx]; [constructor|]. rewrite filter_cons. destruct (decide (P x)); [|done]. constructor; [done|].
  rewrite Forall_forall in *. intros y [_ Hy]%list_elem_of_filter. by apply Hx.
Qed.

(** The samples at or before [b] are those at or before [a] and then those between. *)
Lemma filter_split l a b : sorted_samples l -> a <= b ->
  filter (fun x => s_ts x <= b) l = filter (fun x => s_ts x <= a) l ++ filter (fun x => a < s_ts x <= b) l.
Proof.
  intros Hl Hab. induction Hl as [|x l Hl IH Hx]; [done|]. rewrite !filter_cons, IH.
  destruct (decide (s_ts x <= a)).
  - rewrite (decide_True (P := s_ts x <= b)) by lia. by rewrite (decide_False (P := a < s_ts x <= b)) by lia.
  - assert (Hnil : filter (fun x => s_ts x <= a) l = []).
    { clear IH. induction Hx as [|y l Hy _ IH']; [done|]. apply StronglySorted_inv in Hl as [Hl _]. unfold key_lt in Hy.
      rewrite filter_cons_False by lia. by apply IH'. }
    rewrite Hnil. cbn [app]. destruct (decide (s_ts x <= b)).
    + by rewrite decide_True by lia.
    + by rewrite decide_False by lia.
Qed.
Lemma filter_le_gt l t : sorted_samples l -> l = filter (fun x => s_ts x <= t) l ++ filter (fun x => t < s_ts x) l.
Proof.
  intros Hl. induction Hl as [|x l Hl IH Hx]; [done|]. rewrite !filter_cons. destruct (decide (s_ts x <= t)).
  - rewrite decide_False by lia. cbn. by f_equal.
  - rewrite decide_True by lia. rewrite IH at 1. f_equal.
    assert (filter (fun x => s_ts x <= t) l = []) as ->; [|done]. clear IH. induction Hx as [|y l Hy _ IH']; [done|].
    apply StronglySorted_inv in Hl as [Hl _]. unfold key_lt in Hy. rewrite filter_cons_False by lia. by apply IH'.
Qed.

(** ** The latest sample at or before a tick *)

Definition latest_in (anchor : option sample) (l : list sample) (t : Z) : option sample :=
  match last (filter (fun x => s_ts x <= t) l) with Some x => Some x | None => anchor end.
(** What the database holds at time [t]: the oracle of the engine's tests. *)
Definition tick_value (ws : list sample) (t : Z) : option sample := last (filter (fun x => s_ts x <= t) (sortAndDedup ws)).

Lemma last_app_or {A} (l1 l2 : list A) : last (l1 ++ l2) = match last l2 with Some x => Some x | None => last l1 end.
Proof. rewrite last_app. by destruct (last l2). Qed.

Lemma advance_spec t c r : sorted_samples r -> advance t c r = (latest_in c r t, filter (fun x => t < s_ts x) r).
Proof.
  intros Hr. revert c. induction Hr as [|x r Hr IH Hx]; intros c; [done|]. cbn [advance].
  destruct (Z.leb_spec (s_ts x) t) as [Hle|Hgt].
  - rewrite IH. unfold latest_in. rewrite !filter_cons_True by done. rewrite filter_cons_False by lia. f_equal.
    rewrite last_cons. by destruct (last (filter _ r)).
  - assert (filter (fun x => t < s_ts x) (x :: r) = x :: r) as ->.
    { apply filter_all. constructor; [done|]. eapply Forall_impl; [exact Hx|]. unfold key_lt. lia. }
    unfold latest_in. rewrite filter_cons_False by lia. assert (filter (fun x => s_ts x <= t) r = []) as ->; [|done].
    clear -Hx Hgt. induction Hx as [|y l Hy _ IH']; [done|]. unfold key_lt in Hy. rewrite filter_cons_False by lia. done.
Qed.

Lemma latest_in_split anchor l t0 t : sorted_samples l -> t0 <= t ->
  latest_in (latest_in anchor l t0) (filter (fun x => t0 < s_ts x) l) t = latest_in anchor l t.
Proof.
  intros Hl Ht. unfold latest_in. rewrite (filter_split l t0 t) by done. rewrite last_app_or, list_filter_filter.
  erewrite (list_filter_iff (fun x => s_ts x <= t /\ t0 < s_ts x) (fun x => t0 < s_ts x <= t)) by (intros; lia).
  by destruct (last (filter _ l)).
Qed.

Lemma filter_gt_gt (l : list sample) t0 t : t0 <= t -> filter (fun x => t < s_ts x) (filter (fun x => t0 < s_ts x) l) = filter (fun x => t < s_ts x) l.
Proof. intros Ht. rewrite list_filter_filter. apply list_filter_iff. intros x. lia. Qed.

Definition range_point (anchor : option sample) (l : list sample) (t : Z) : option SamplePoint :=
  x ← latest_in anchor l t; Some (mkPoint t (s_val x)).

Lemma range_fold anchor l startMs endMs stepMs : sorted_samples l -> 0 < stepMs -> Forall (fun x => startMs <= s_ts x) l ->
  snd (fold_left range_body (ticks startMs endMs stepMs) (anchor, l, [])) = omap (range_point anchor l) (ticks startMs endMs stepMs).
Proof.
  intros Hl Hs HF.
  apply (fold_points range_body (fun t0 st => st = (latest_in anchor l t0, filter (fun x => t0 < s_ts x) l))
           (range_point anchor l) startMs endMs) with (t0 := startMs - 1) (pts := []).
  - intros t0 t st pts Ht _ ->. exists (latest_in anchor l t, filter (fun x => t < s_ts x) l). split; [done|].
    unfold range_body. rewrite advance_spec by (by apply sorted_filter). rewrite latest_in_split, filter_gt_gt by (done || lia).
    unfold range_point. destruct (latest_in anchor l t); cbn; [done|]. by rewrite app_nil_r.
  - constructor; [by apply ticks_sorted|]. apply Forall_forall. intros t Ht%elem_of_ticks; [lia|done].
  - apply Forall_forall. intros t Ht%elem_of_ticks; [lia|done].
  - f_equal.
    + unfold latest_in. assert (filter (fun x => s_ts x <= startMs - 1) l = []) as ->; [|done].
      clear -HF. induction HF; [done|]. rewrite filter_cons_False by lia. done.
    + symmetry. apply filter_all. eapply Forall_impl; [exact HF|]. cbn. lia.
Qed.

(** ** From answers of the source to results of the engine *)

Definition db_i64 (db : database) : Prop := forall l ws, db l = Some ws -> Forall (fun x => in_i64 (s_ts x)) ws.
Definition tick_point (value : Z -> option Z) (t : Z) : option SamplePoint := v ← value t; Some (mkPoint t v).

(** What a range result must hold: one series per matching label set with at
    least one point, one point per tick that has a value. *)
Definition range_answers (db : database) (sel : Selector) (ts : list Z) (value : list sample -> Z -> option Z) (out : list RangeSeries) : Prop :=
  NoDup (rs_labels <$> out) /\
  forall rs, rs ∈ out <-> exists ws, db (rs_labels rs) = Some ws /\ matches sel (rs_labels rs) /\
    rs_points rs = omap (tick_point (value ws)) ts /\ rs_points rs <> [].
(** What an instant result must hold: [value] gives the timestamp and the value. *)
Definition instant_answers (db : database) (sel : Selector) (value : list sample -> option (Z * Z)) (out : list InstantSample) : Prop :=
  NoDup (is_labels <$> out) /\
  forall s, s ∈ out <-> exists ws, db (is_labels s) = Some ws /\ matches sel (is_labels s) /\ value ws = Some (is_ts s, is_val s).

Lemma omap_labels {B} (f : SeriesData -> option B) (key : B -> Labels) series :
  (forall sd b, sd ∈ series -> f sd = Some b -> key b = sd_labels sd) -> NoDup (sd_labels <$> series) -> NoDup (key <$> omap (M := list) f series).
Proof.
  intros Hk Hnd. induction series as [|sd series IH]; [constructor|]. rewrite fmap_cons in Hnd. apply NoDup_cons in Hnd as [Hn Hnd].
  assert (Hk' : forall sd b, sd ∈ series -> f sd = Some b -> key b = sd_labels sd) by (intros; apply Hk; [by right|done]).
  cbn [omap list_omap]. destruct (f sd) as [b|] eqn:E; [|by apply IH]. rewrite fmap_cons. constructor; [|by apply IH].
  intros (b' & E' & (sd' & Hin & Hf)%list_elem_of_omap)%list_elem_of_fmap. apply Hn.
  apply list_elem_of_fmap. exists sd'. split; [|done]. rewrite <- (Hk sd b), <- (Hk' sd' b'); [done|done|done|by left|done].
Qed.

Lemma range_series_ok (points : SeriesData -> option (list SamplePoint)) series :
  (forall sd, sd ∈ series -> is_Some (points sd)) ->
  range_series points series = Ok (omap (M := list) (fun sd => match points sd with None | Some [] => None | Some pts => Some (mkRange (sd_labels sd) pts) end) series).
Proof.
  induction series as [|sd series IH]; intros H; [done|]. cbn [range_series omap list_omap].
  destruct (H sd ltac:(by left)) as [pts ->]. rewrite IH by (intros; apply H; by right). by destruct pts.
Qed.

Lemma range_result db p series points ts value : answers db p series ->
  (forall l ws sd, db l = Some ws -> expected p l ws = Some sd -> points sd = Some (omap (tick_point (value ws)) ts)) ->
  (forall l ws, db l = Some ws -> expected p l ws = None -> omap (tick_point (value ws)) ts = []) ->
  exists out, range_series points series = Ok out /\ range_answers db (p_sel p) ts value out.
Proof.
  intros [Hnd Hin] Hpts Hnone. rewrite range_series_ok.
  2:{ intros sd (ws & Hdb & _ & He)%Hin. rewrite (Hpts _ _ _ Hdb He). by eexists. }
  eexists. split; [reflexivity|]. split.
  - eapply omap_labels; [|exact Hnd]. intros sd rs _ H. destruct (points sd) as [[|pt pts]|]; [done| |done]. by injection H as <-.
  - intros [l pts]. rewrite list_elem_of_omap. cbn [rs_labels rs_points]. split.
    + intros (sd & (ws & Hdb & Hm & He)%Hin & H). rewrite (Hpts _ _ _ Hdb He) in H. destruct (omap _ ts) as [|pt pts'] eqn:Eo; [done|].
      injection H as <- <-. exists ws. by rewrite Eo.
    + intros (ws & Hdb & Hm & -> & Hne). destruct (expected p l ws) as [sd|] eqn:He; [|by rewrite (Hnone _ _ Hdb He) in Hne].
      pose proof (expected_labels _ _ _ _ He) as Hl. exists sd. split; [apply Hin; exists ws; by rewrite Hl|].
      rewrite (Hpts _ _ _ Hdb He), Hl. by destruct (omap _ ts).
Qed.

Lemma instant_result db p series (f : SeriesData -> option InstantSample) value : answers db p series ->
  (forall sd s, f sd = Some s -> is_labels s = sd_labels sd) ->
  (forall l ws sd, db l = Some ws -> expected p l ws = Some sd -> f sd = tv ← value ws; Some (mkInstant l tv.1 tv.2)) ->
  (forall l ws, db l = Some ws -> expected p l ws = None -> value ws = None) ->
  instant_answers db (p_sel p) value (omap (M := list) f series).
Proof.
  intros [Hnd Hin] Hlab Hf Hnone. split; [by apply (omap_labels f is_labels); [intros; by apply Hlab|]|].
  intros [l t v]. rewrite list_elem_of_omap. cbn [is_labels is_ts is_val]. split.
  - intros (sd & (ws & Hdb & Hm & He)%Hin & H). pose proof (Hlab _ _ H) as Hl. cbn in Hl. subst l. rewrite (Hf _ _ _ Hdb He) in H.
    exists ws. split_and!; [done..|]. destruct (value ws) as [[t' v']|]; [|done]. cbn in H. congruence.
  - intros (ws & Hdb & Hm & Hv). destruct (expected p l ws) as [sd|] eqn:He; [|by rewrite (Hnone _ _ Hdb He) in Hv].
    pose proof (expected_labels _ _ _ _ He) as Hl. exists sd. split; [apply Hin; exists ws; by rewrite Hl|].
    rewrite (Hf _ _ _ Hdb He), Hv. done.
Qed.

(** *** Selectors *)

Lemma expected_samples sel a b anchor l ws : a <= b ->
  let p := mkParams sel a b anchor false false in
  expected p l ws = match core p ws with ([], None) => None | (ss, an) => Some (mkSeries l an ss) end.
Proof. intros Hab p. unfold expected, to_answer. cbn. by rewrite (proj2 (Z.ltb_ge _ _)) by lia. Qed.

Lemma core_latest sel a b ws t : a <= t <= b -> Forall (fun x => in_i64 (s_ts x)) ws ->
  let c := core (mkParams sel a b true false false) ws in latest_in c.2 c.1 t = tick_value ws t.
Proof.
  intros Ht Hi. cbn zeta. unfold core, latest_in, tick_value. cbn [p_sel MinT MaxT Anchor fst snd andb].
  destruct (sortAndDedup_spec ws) as [Hs Hin]. set (S := sortAndDedup ws) in *.
  assert (Hi' : Forall (fun x => in_i64 (s_ts x)) S).
  { apply Forall_forall. intros x Hx%list_elem_of_In%Hin. destruct Hx as [Hx _]. rewrite Forall_forall in Hi. by apply Hi, list_elem_of_In. }
  rewrite list_filter_filter. rewrite (filter_split S (a - 1) t) by (done || lia). rewrite last_app_or.
  rewrite (list_filter_iff (fun x => s_ts x <= t /\ a <= s_ts x <= b) (fun x => a - 1 < s_ts x <= t)) by (intros; lia).
  destruct (last (filter _ S)) as [x|]; [done|]. destruct (Z.ltb_spec MinInt64 a).
  - f_equal. apply list_filter_iff. intros x. lia.
  - assert (filter (fun x => s_ts x <= a - 1) S = []) as ->; [|done]. clear -Hi' H. induction Hi' as [|x l Hx _ IH]; [done|].
    rewrite filter_cons_False; [done|]. wsolve.
Qed.

Lemma core_sorted p ws : sorted_samples (core p ws).1.
Proof. cbn. apply sorted_filter, sortAndDedup_spec. Qed.

Definition sel_value (ws : list sample) (t : Z) : option Z := s_val <$> tick_value ws t.

Lemma select_engine src ctx db p : Implements src ctx db -> Validate p = Ok tt ->
  exists series, engine_select src ctx p = Ok series /\ answers db p series.
Proof.
  intros Hsrc Hv. destruct (select_answers (src := src) (ctx := ctx) p Hv) as (out & E & Ha). exists out. unfold engine_select. by rewrite E.
Qed.

Section selector_queries.
Context (src : Source) (ctx : context) (db : database) (Hsrc : Implements src ctx db) (Hi : db_i64 db).

Lemma range_query_spec fuel sel startMs endMs stepMs :
  0 < stepMs -> MinInt64 <= startMs <= endMs -> endMs + stepMs <= MaxInt64 -> (length (ticks startMs endMs stepMs) <= fuel)%nat ->
  exists out, RangeQuery fuel src ctx sel startMs endMs stepMs = Ok out /\ range_answers db sel (ticks startMs endMs stepMs) sel_value out.
Proof.
  intros Hs Hr He Hf. unfold RangeQuery, check_range. rewrite (proj2 (Z.leb_gt _ _)), (proj2 (Z.ltb_ge _ _)) by lia. cbn [mbind result_bind].
  destruct (select_engine src ctx db (mkParams sel startMs endMs true false false) Hsrc eq_refl) as (series & -> & Ha). cbn [mbind result_bind].
  apply (range_result db (mkParams sel startMs endMs true false false)); [done| |].
  - intros l ws sd Hdb Hexp. rewrite expected_samples in Hexp by lia. unfold range_points. rewrite tick_loop_ticks by (done || lia).
    pose proof (core_sorted (mkParams sel startMs endMs true false false) ws) as Hsort.
    pose proof (fun t Ht => core_latest sel startMs endMs ws t Ht (Hi _ _ Hdb)) as Hlat. cbn zeta in Hlat.
    assert (Hge : Forall (fun x => startMs <= s_ts x) (core (mkParams sel startMs endMs true false false) ws).1).
    { apply Forall_forall. intros x [Hx _]%list_elem_of_filter. cbn in Hx. lia. }
    destruct (core _ ws) as [ss an] eqn:Ec. assert (sd = mkSeries l an ss) as -> by (destruct ss, an; congruence).
    cbn [fmap option_fmap option_map sd_anchor sd_samples fst snd] in *. rewrite range_fold by done. f_equal.
    apply omap_ext_in. intros t Ht%elem_of_ticks; [|done]. unfold range_point, tick_point, sel_value. rewrite Hlat by done. by destruct (tick_value ws t).
  - intros l ws Hdb Hexp. rewrite expected_samples in Hexp by lia.
    pose proof (fun t Ht => core_latest sel startMs endMs ws t Ht (Hi _ _ Hdb)) as Hlat. cbn zeta in Hlat.
    destruct (core _ ws) as [[|x ss] [an|]]; try done. cbn [fst snd] in Hlat.
    assert (Hnil : forall t, t ∈ ticks startMs endMs stepMs -> tick_point (sel_value ws) t = None).
    { intros t Ht%elem_of_ticks; [|done]. unfold tick_point, sel_value. by rewrite <- Hlat. }
    by apply omap_none.
Qed.

Lemma latestAtOrBefore_spec l an ss t : sorted_samples ss -> (forall a, an = Some a -> s_ts a <= t) ->
  latestAtOrBefore (mkSeries l an ss) t = latest_in an ss t.
Proof.
  intros Hs Ha. unfold latestAtOrBefore, latest_in. cbn [sd_samples sd_anchor].
  assert (Hsl : SearchList (fun x => t <? s_ts x) ss = length (filter (fun x => s_ts x <= t) ss)).
  { rewrite (filter_le_gt ss t Hs) at 1. apply SearchList_split; apply Forall_forall; intros x [Hx _]%list_elem_of_filter; lia. }
  rewrite Hsl. destruct (filter (fun x => s_ts x <= t) ss) as [|x pre] eqn:Ef.
  - cbn. destruct an as [a|]; [|done]. by rewrite (proj2 (Z.leb_le _ _)) by (by apply Ha).
  - cbn [length]. rewrite (filter_le_gt ss t Hs), Ef, lookup_app_l by (cbn; lia).
    change (length pre) with (pred (length (x :: pre))). rewrite <- last_lookup. by destruct (last (x :: pre)) eqn:El; [|apply last_None in El].
Qed.

Lemma instant_query_spec sel t : MinInt64 <= t ->
  exists out, InstantQuery src ctx sel t = Ok out /\
    instant_answers db sel (fun ws => (fun x => (s_ts x, s_val x)) <$> tick_value ws t) out.
Proof.
  intros Ht. unfold InstantQuery.
  destruct (select_engine src ctx db (mkParams sel t t true false false) Hsrc eq_refl) as (series & -> & Ha). cbn [mbind result_bind].
  eexists. split; [reflexivity|]. apply (instant_result db (mkParams sel t t true false false)); [done| | |].
  - unfold instant_of. intros sd s. destruct (latestAtOrBefore sd t); [|done]. cbn. by intros [= <-].
  - intros l ws sd Hdb Hexp. rewrite expected_samples in Hexp by lia.
    pose proof (core_latest sel t t ws t ltac:(lia) (Hi _ _ Hdb)) as Hlat. cbn zeta in Hlat.
    pose proof (core_sorted (mkParams sel t t true false false) ws) as Hsort.
    assert (Han : forall a, (core (mkParams sel t t true false false) ws).2 = Some a -> s_ts a <= t).
    { intros a. unfold core. cbn [p_sel MinT MaxT Anchor snd]. destruct (_ && _)%bool; [|done].
      intros Ha'. apply last_Some in Ha' as [l' Ha']. assert (Hin : a ∈ filter (fun s => s_ts s < t) (sortAndDedup ws)) by (rewrite Ha'; apply elem_of_app; right; by left).
      apply list_elem_of_filter in Hin as [? _]. lia. }
    destruct (core _ ws) as [ss an]. assert (sd = mkSeries l an ss) as -> by (destruct ss, an; congruence).
    unfold instant_of. cbn [fst snd] in *. rewrite latestAtOrBefore_spec, Hlat by done. by destruct (tick_value ws t).
  - intros l ws Hdb Hexp. rewrite expected_samples in Hexp by lia.
    pose proof (core_latest sel t t ws t ltac:(lia) (Hi _ _ Hdb)) as Hlat. cbn zeta in Hlat.
    destruct (core _ ws) as [[|x ss] [an|]]; try done. cbn [fst snd] in Hlat. by rewrite <- Hlat.
Qed.
End selector_queries.

(** *** Rates *)

Lemma saturatingSub_spec a b : in_i64 a -> 0 < b <= MaxInt64 -> saturatingSub a b = Z.max MinInt64 (a - b).
Proof.
  intros Ha Hb. unfold saturatingSub. rewrite (proj2 (Z.ltb_lt _ _)) by lia. rewrite (i64_id (MinInt64 + b)) by wsolve.
  destruct (Z.ltb_spec a (MinInt64 + b)); cbn [andb]; [lia|]. rewrite i64_id by wsolve. lia.
Qed.

Definition rate_window (ws : list sample) (W t : Z) : list sample :=
  filter (fun x => saturatingSub t W <= s_ts x <= t) (sortAndDedup ws).
Definition window_rate (W : Z) (win : list sample) : option Z :=
  match win, last win with first :: _ :: _, Some last => Some (rate_of W first last) | _, _ => None end.
Definition rate_value (W : Z) (ws : list sample) (t : Z) : option Z := window_rate W (rate_window ws W t).

Lemma scan_spec ok A B i bound fuel : Forall (fun x => ok x = true) A -> Forall (fun x => ok x = false) B ->
  (i <= length A <= bound)%nat -> (length A - i <= fuel)%nat -> scan fuel ok (A ++ B) bound i = length A.
Proof.
  intros HA HB. revert i. induction fuel as [|fuel IH]; intros i Hi Hf; cbn [scan]; [lia|].
  destruct (Nat.ltb_spec i bound); [|lia]. destruct (decide (i < length A)%nat) as [Hlt|Hge].
  - rewrite lookup_app_l by done. destruct (lookup_lt_is_Some_2 A i Hlt) as [x Hx]. rewrite Hx, (Forall_lookup_1 _ _ _ _ HA Hx).
    apply IH; lia.
  - replace i with (length A) by lia. rewrite lookup_app_r, Nat.sub_diag by done. destruct B as [|y B]; [done|]. cbn.
    by apply Forall_cons in HB as [-> _].
Qed.

Lemma filter_lt_ge l t : sorted_samples l -> l = filter (fun x => s_ts x < t) l ++ filter (fun x => t <= s_ts x) l.
Proof.
  intros Hl. rewrite (filter_le_gt l (t - 1) Hl) at 1. f_equal; apply list_filter_iff; intros x; lia.
Qed.

Definition count_below (l : list sample) (t : Z) : nat := length (filter (fun x => s_ts x < t) l).
Definition count_upto (l : list sample) (t : Z) : nat := length (filter (fun x => s_ts x <= t) l).

Lemma count_le (P Q : sample -> Prop) `{!forall x, Decision (P x)} `{!forall x, Decision (Q x)} (l : list sample) :
  (forall x, P x -> Q x) -> (length (filter P l) <= length (filter Q l))%nat.
Proof.
  intros HPQ. induction l as [|x l IH]; [done|]. rewrite !filter_cons. destruct (decide (P x)).
  - rewrite decide_True by auto. cbn. lia.
  - destruct (decide (Q x)); cbn; lia.
Qed.

(** The window is the slice between the two pointers. *)
Lemma window_slice l a t : sorted_samples l -> a <= t ->
  take (count_upto l t - count_below l a) (drop (count_below l a) l) = filter (fun x => a <= s_ts x <= t) l.
Proof.
  intros Hl Hat. unfold count_upto, count_below.
  rewrite (filter_split l (a - 1) t) by (done || lia). rewrite length_app.
  rewrite (list_filter_iff (fun x => s_ts x <= a - 1) (fun x => s_ts x < a)) by (intros; lia).
  rewrite (list_filter_iff (fun x => a - 1 < s_ts x <= t) (fun x => a <= s_ts x <= t)) by (intros; lia).
  set (B := filter (fun x => s_ts x < a) l). set (W := filter (fun x => a <= s_ts x <= t) l).
  replace (length B + length W - length B)%nat with (length W) by lia.
  assert (Hsplit : l = B ++ W ++ filter (fun x => t < s_ts x) l).
  { rewrite (filter_le_gt l t Hl) at 1. rewrite (filter_split l (a - 1) t) by (done || lia). rewrite <- app_assoc. unfold B, W. f_equal; [|f_equal].
    - apply list_filter_iff. intros; lia.
    - apply list_filter_iff. intros; lia. }
  rewrite Hsplit at 1. rewrite drop_app_length, take_app_length. done.
Qed.

Lemma window_rate_slice W (l : list sample) lo hi : (lo <= hi <= length l)%nat ->
  window_rate W (take (hi - lo) (drop lo l)) =
  if (hi - lo <? 2)%nat then None else match l !! lo, l !! pred hi with Some first, Some last => Some (rate_of W first last) | _, _ => None end.
Proof.
  intros Hle. assert (Hlen : length (take (hi - lo) (drop lo l)) = (hi - lo)%nat) by (rewrite length_take, length_drop; lia).
  assert (Hat : forall i, (i < hi - lo)%nat -> take (hi - lo) (drop lo l) !! i = l !! (lo + i)%nat).
  { intros i Hi. by rewrite lookup_take_lt, lookup_drop. }
  unfold window_rate. set (win := take (hi - lo) (drop lo l)) in *. destruct (Nat.ltb_spec (hi - lo) 2) as [Hlt|Hge].
  - destruct win as [|x [|y win]]; [done..|]. cbn in Hlen. lia.
  - destruct (last win) as [z|] eqn:El; [|apply last_None in El; rewrite El in Hlen; cbn in Hlen; lia].
    pose proof El as El'. pose proof (Hat 0%nat ltac:(lia)) as H0. rewrite Nat.add_0_r in H0. rewrite last_lookup, Hlen, Hat in El by lia.
    replace (lo + pred (hi - lo))%nat with (pred hi) in El by lia. rewrite <- H0, El.
    destruct win as [|x [|y win]]; [cbn in Hlen; lia|cbn in Hlen; lia|]. by rewrite El'.
Qed.

Definition rate_point (l : list sample) (W t : Z) : option SamplePoint :=
  v ← window_rate W (filter (fun x => saturatingSub t W <= s_ts x <= t) l); Some (mkPoint t v).

Lemma rate_fold l W startMs endMs stepMs : sorted_samples l -> 0 < stepMs -> 0 < W <= MaxInt64 ->
  MinInt64 <= startMs -> endMs <= MaxInt64 ->
  snd (fold_left (rate_body l W) (ticks startMs endMs stepMs) (0%nat, 0%nat, [])) = omap (rate_point l W) (ticks startMs endMs stepMs).
Proof.
  intros Hl Hs HW Hst Hen.
  apply (fold_points (rate_body l W) (fun t0 st => forall t, t0 < t -> startMs <= t <= endMs ->
             (st.1 <= count_below l (saturatingSub t W))%nat /\ (st.2 <= count_upto l t)%nat)
           (rate_point l W) startMs endMs) with (t0 := startMs - 1) (pts := []).
  - intros t0 t [lo hi] pts Ht Hr Hinv. destruct (Hinv t Ht Hr) as [Hlo Hhi]. cbn [fst snd] in *.
    exists (count_below l (saturatingSub t W), count_upto l t). split.
    + intros t' Ht' Hr'. rewrite !saturatingSub_spec by wsolve. cbn [fst snd]. split; apply count_le; intros x; lia.
    + assert (Hsat : saturatingSub t W <= t) by (rewrite saturatingSub_spec by wsolve; lia).
      assert (Hcle : (count_below l (saturatingSub t W) <= count_upto l t)%nat) by (apply count_le; intros x; lia).
      assert (Hup : (count_upto l t <= length l)%nat) by apply length_filter.
      unfold rate_body.
      assert (scan (length l) (fun x => s_ts x <=? t) l (length l) hi = count_upto l t) as ->.
      { unfold count_upto in *. rewrite (filter_le_gt l t Hl) at 2. apply scan_spec; try lia;
          apply Forall_forall; intros x [Hx _]%list_elem_of_filter; lia. }
      assert (scan (length l) (fun x => s_ts x <? saturatingSub t W) l (count_upto l t) lo = count_below l (saturatingSub t W)) as ->.
      { unfold count_below in *. rewrite (filter_lt_ge l (saturatingSub t W) Hl) at 2. apply scan_spec; try lia;
          apply Forall_forall; intros x [Hx _]%list_elem_of_filter; lia. }
      unfold rate_point. rewrite <- window_slice, window_rate_slice by (done || lia).
      destruct (_ <? 2)%nat; [by rewrite app_nil_r|]. destruct (l !! count_below _ _) as [x|]; [|by rewrite app_nil_r].
      destruct (l !! pred _) as [y|]; [done|by rewrite app_nil_r].
  - constructor; [by apply ticks_sorted|]. apply Forall_forall. intros t Ht%elem_of_ticks; [lia|done].
  - apply Forall_forall. intros t Ht%elem_of_ticks; [lia|done].
  - intros t _ _. cbn. lia.
Qed.

Lemma core_window sel a b ws : (core (mkParams sel a b false false false) ws) = (filter (fun x => a <= s_ts x <= b) (sortAndDedup ws), None).
Proof. done. Qed.

Section rate_queries.
Context (src : Source) (ctx : context) (db : database) (Hsrc : Implements src ctx db).

Lemma rate_instant_spec sel W t : in_i64 t -> 0 < W <= MaxInt64 ->
  exists out, rateInstant src ctx sel W t = Ok out /\
    instant_answers db sel (fun ws => (fun v => (t, v)) <$> rate_value W ws t) out.
Proof.
  intros Ht HW. unfold rateInstant. set (p := mkParams sel (saturatingSub t W) t false false false).
  destruct (select_engine src ctx db p Hsrc eq_refl) as (series & -> & Ha). cbn [mbind result_bind].
  assert (Hle : saturatingSub t W <= t) by (rewrite saturatingSub_spec by done; wsolve).
  eexists. split; [reflexivity|]. apply (instant_result db p); [done| | |].
  - unfold rate_instant_of. intros sd s. destruct (sd_samples sd) as [|x [|y l]]; [done..|]. destruct (last _); [|done]. by intros [= <-].
  - intros l ws sd Hdb Hexp. unfold p in Hexp. rewrite expected_samples, core_window in Hexp by done. unfold rate_value, rate_window.
    destruct (filter _ (sortAndDedup ws)) as [|x w] eqn:E; [done|]. injection Hexp as <-. unfold rate_instant_of, window_rate. cbn [sd_samples sd_labels].
    destruct w as [|y w]; [done|]. by destruct (last (x :: y :: w)).
  - intros l ws Hdb Hexp. unfold p in Hexp. rewrite expected_samples, core_window in Hexp by done. unfold rate_value, rate_window.
    by destruct (filter _ (sortAndDedup ws)).
Qed.

Lemma rate_range_spec fuel sel W startMs endMs stepMs :
  0 < W <= MaxInt64 -> 0 < stepMs -> MinInt64 <= startMs <= endMs -> endMs + stepMs <= MaxInt64 -> (length (ticks startMs endMs stepMs) <= fuel)%nat ->
  exists out, rateRange fuel src ctx sel W startMs endMs stepMs = Ok out /\
    range_answers db sel (ticks startMs endMs stepMs) (rate_value W) out.
Proof.
  intros HW Hs Hr He Hf. unfold rateRange. set (p := mkParams sel (saturatingSub startMs W) endMs false false false).
  destruct (select_engine src ctx db p Hsrc eq_refl) as (series & -> & Ha). cbn [mbind result_bind].
  assert (Hsub : forall t, startMs <= t <= endMs -> saturatingSub startMs W <= saturatingSub t W <= t).
  { intros t Ht. rewrite !saturatingSub_spec by wsolve. wsolve. }
  assert (Hwin : forall ws t, startMs <= t <= endMs ->
    filter (fun x => saturatingSub t W <= s_ts x <= t) (filter (fun x => saturatingSub startMs W <= s_ts x <= endMs) (sortAndDedup ws)) = rate_window ws W t).
  { intros ws t Ht. pose proof (Hsub t Ht). rewrite list_filter_filter. apply list_filter_iff. intros x. lia. }
  apply (range_result db p); [done| |].
  - intros l ws sd Hdb Hexp. unfold p in Hexp. rewrite expected_samples, core_window in Hexp by (pose proof (Hsub startMs); lia).
    unfold rate_points. rewrite tick_loop_ticks by (done || lia).
    set (ss := filter _ (sortAndDedup ws)) in *. assert (sd_samples sd = ss) as -> by (destruct ss; [done|by injection Hexp as <-]).
    cbn [fmap option_fmap option_map]. rewrite rate_fold by (try done; try lia; apply sorted_filter, sortAndDedup_spec). f_equal.
    apply omap_ext_in. intros t Ht%elem_of_ticks; [|done]. unfold rate_point, tick_point, rate_value. by rewrite <- (Hwin ws t Ht).
  - intros l ws Hdb Hexp. unfold p in Hexp. rewrite expected_samples, core_window in Hexp by (pose proof (Hsub startMs); lia).
    apply omap_none. intros t Ht%elem_of_ticks; [|done]. unfold tick_point, rate_value. rewrite <- (Hwin ws t Ht).
    by destruct (filter (fun x => saturatingSub startMs W <= s_ts x <= endMs) (sortAndDedup ws)).
Qed.
End rate_queries.

(** ** Grouping *)

Definition labels_short (by_ : list string) (l : Labels) : Prop := Forall (fun name => str_len (label_value l name) < 2 ^ 32) by_.

Lemma app_inv_len {A} (l1 l2 r1 r2 : list A) : length l1 = length l2 -> l1 ++ r1 = l2 ++ r2 -> l1 = l2 /\ r1 = r2.
Proof. apply app_inj_1. Qed.

Lemma groupKey_inj by_ l1 l2 : labels_short by_ l1 -> labels_short by_ l2 ->
  groupKey l1 by_ = groupKey l2 by_ <-> Forall (fun name => label_value l1 name = label_value l2 name) by_.
Proof.
  intros H1 H2. set (enc := fun l => by_ ≫= fun name => be_bytes 4 (u32 (str_len (label_value l name))) ++ str_bytes (label_value l name)).
  assert (Hok : forall l, bytes_ok (enc l)).
  { intros l. unfold enc. apply Forall_forall. intros b (name & Hb & _)%list_elem_of_bind. apply elem_of_app in Hb as [Hb|Hb].
    - pose proof (be_bytes_ok 4 (u32 (str_len (label_value l name)))) as HF. rewrite Forall_forall in HF. by apply HF.
    - pose proof (str_bytes_ok (label_value l name)) as HF. rewrite Forall_forall in HF. by apply HF. }
  split.
  2:{ intros HF. unfold groupKey. f_equal. induction HF as [|n by_ Hn _ IH]; [done|]. cbn [mbind list_bind]. rewrite Hn. f_equal. apply IH;
      [by apply Forall_cons in H1 as [_ ?]|by apply Forall_cons in H2 as [_ ?]|].
      intros l. eapply Forall_impl; [|done]. clear -Hok. specialize (Hok l). cbn [mbind list_bind] in Hok. by apply Forall_app in Hok as [_ ?]. }
  intros E. assert (Henc : enc l1 = enc l2) by (rewrite <- (str_bytes_str (enc l1)), <- (str_bytes_str (enc l2)) by apply Hok; by f_equal).
  clear E Hok. unfold enc in Henc. clear enc. induction by_ as [|n by_ IH]; [constructor|].
  apply Forall_cons in H1 as [Hs1 H1]. apply Forall_cons in H2 as [Hs2 H2]. cbn [mbind list_bind] in Henc. rewrite <- !app_assoc in Henc.
  apply app_inv_len in Henc as [Hlen Henc]; [|by rewrite !length_be_bytes].
  assert (El : str_len (label_value l1 n) = str_len (label_value l2 n)).
  { apply (f_equal be_val) in Hlen. rewrite !be_val_bytes in Hlen. unfold u32 in Hlen. unfold str_len in *.
    change (8 * Z.of_nat 4) with 32 in Hlen. rewrite !Z.mod_mod, !Z.mod_small in Hlen by lia. done. }
  apply app_inv_len in Henc as [Hv Henc]; [|rewrite !length_str_bytes; unfold str_len in El; lia].
  constructor; [by apply str_bytes_inj|by apply IH].
Qed.

Lemma group_labels_lookup l by_ name :
  group_labels l by_ !! name = if decide (name ∈ by_) then Some (label_value l name) else None.
Proof.
  unfold group_labels. induction by_ as [|n by_ IH] using rev_ind; [done|]. rewrite fold_left_app. cbn [fold_left].
  destruct (decide (n = name)) as [->|Hne].
  - rewrite lookup_insert_eq, decide_True; [done|]. apply elem_of_app. right. by left.
  - rewrite lookup_insert_ne by done. rewrite IH. apply decide_ext. rewrite elem_of_app, list_elem_of_singleton. naive_solver.
Qed.

(** Two series fall in one group exactly when their output labels are equal. *)
Lemma groupKey_labels by_ l1 l2 : labels_short by_ l1 -> labels_short by_ l2 ->
  groupKey l1 by_ = groupKey l2 by_ <-> group_labels l1 by_ = group_labels l2 by_.
Proof.
  intros H1 H2. rewrite groupKey_inj by done. rewrite Forall_forall. split.
  - intros H. apply map_eq. intros name. rewrite !group_labels_lookup. destruct (decide _) as [Hin|]; [|done]. by rewrite H.
  - intros H name Hin. assert (E : group_labels l1 by_ !! name = group_labels l2 by_ !! name) by by rewrite H.
    rewrite !group_labels_lookup, !decide_True in E by done. congruence.
Qed.

(** What a group adds up, in the order of the answer. *)
Definition same_group (by_ : list string) (g : gmap string string) (l : Labels) : Prop := group_labels l by_ = g.
Definition group_sum (by_ : list string) (g : gmap string string) (samples : list InstantSample) : Z :=
  fold_left fadd (is_val <$> filter (fun s => group_labels (is_labels s) by_ = g) samples) 0.

Lemma fold_vals samples z : fold_left (fun total s => fadd total (is_val s)) samples z = fold_left fadd (is_val <$> samples) z.
Proof. revert z. induction samples as [|s samples IH]; intros z; [done|]. apply IH. Qed.

Definition sum_opt (vals : list Z) : option Z := match vals with [] => None | _ => Some (fold_left fadd vals 0) end.
Lemma sum_opt_snoc vals v : sum_opt (vals ++ [v]) = Some (fadd (default 0 (sum_opt vals)) v).
Proof. unfold sum_opt. rewrite fold_left_app. by destruct vals. Qed.

Lemma sum_opt_some vals v : sum_opt vals = Some v <-> vals <> [] /\ v = fold_left fadd vals 0.
Proof. unfold sum_opt. destruct vals; [naive_solver|]. split; [by intros [= <-]|by intros [_ ->]]. Qed.

Lemma instant_group_fold by_ samples :
  let acc := fold_left (instant_group by_) samples (∅, ∅) in
  forall key, acc.1 !! key = sum_opt (is_val <$> filter (fun s => groupKey (is_labels s) by_ = key) samples) /\
    acc.2 !! key = (fun s => group_labels (is_labels s) by_) <$> head (filter (fun s => groupKey (is_labels s) by_ = key) samples).
Proof.
  induction samples as [|s samples IH] using rev_ind; intros acc key; [done|]. subst acc. rewrite fold_left_app. cbn [fold_left].
  set (acc := fold_left _ samples _) in *. rewrite !filter_app, !filter_cons, filter_nil, fmap_app. unfold instant_group. cbn [fst snd].
  destruct (IH (groupKey (is_labels s) by_)) as [I1 I2]. destruct (IH key) as [J1 J2].
  destruct (decide (groupKey (is_labels s) by_ = key)) as [<-|Hne].
  - rewrite lookup_insert_eq, I1. split; [symmetry; apply sum_opt_snoc|]. rewrite I2.
    destruct (filter _ samples) as [|x l]; cbn; [by rewrite lookup_insert_eq|]. by rewrite I2.
  - rewrite lookup_insert_ne by done. cbn [fmap list_fmap]. rewrite !app_nil_r. split; [done|].
    destruct (acc.2 !! groupKey (is_labels s) by_); [done|]. by rewrite lookup_insert_ne.
Qed.

Lemma NoDup_fmap_in {A B} (f : A -> B) l : (forall x y, x ∈ l -> y ∈ l -> f x = f y -> x = y) -> NoDup l -> NoDup (f <$> l).
Proof.
  intros Hinj Hnd. induction Hnd as [|x l Hx Hnd IH]; [constructor|]. rewrite fmap_cons. constructor.
  - intros (y & E & Hy)%list_elem_of_fmap. apply Hx. by rewrite (Hinj x y (list_elem_of_here _ _) (list_elem_of_further _ _ _ Hy) E).
  - apply IH. intros a b Ha Hb. apply Hinj; by right.
Qed.

Lemma build_inj m1 m2 : build m1 = build m2 -> m1 = m2.
Proof. intros E. by rewrite <- (labels_Map_build m1), E, labels_Map_build. Qed.

Lemma filter_eq_iff {A} (P Q : A -> Prop) `{!forall x, Decision (P x)} `{!forall x, Decision (Q x)} (l : list A) :
  (forall x, x ∈ l -> P x <-> Q x) -> filter P l = filter Q l.
Proof.
  induction l as [|x l IH]; intros HPQ; [done|]. rewrite !filter_cons, IH by (intros; apply HPQ; by right).
  destruct (decide (P x)) as [Hp|Hp]; destruct (decide (Q x)) as [Hq|Hq]; try done; exfalso; [apply Hq|apply Hp]; apply HPQ; (by left) || done.
Qed.

Lemma aggregateInstant_spec samples by_ tMs : Forall (fun s => labels_short by_ (is_labels s)) samples ->
  let out := aggregateInstant samples by_ tMs in
  NoDup (is_labels <$> out) /\
  forall o, o ∈ out <-> exists s, s ∈ samples /\
    let g := group_labels (is_labels s) by_ in o = mkInstant (newOutputLabels g) tMs (group_sum by_ g samples).
Proof.
  intros HF. rewrite Forall_forall in HF. destruct samples as [|s0 samples0].
  { split; [constructor|]. intros o. rewrite elem_of_nil. split; [done|]. by intros (s & []%not_elem_of_nil & _). }
  set (samples := s0 :: samples0) in *. assert (Hne : s0 ∈ samples) by by left.
  unfold aggregateInstant. fold samples. change (match samples with [] => [] | _ => ?x end) with x. destruct by_ as [|b by_].
  - split; [apply NoDup_singleton|]. intros o. rewrite list_elem_of_singleton, fold_vals.
    assert (Hall : filter (fun s => group_labels (is_labels s) [] = ∅) samples = samples).
    { clear. induction samples as [|s l IH]; [done|]. rewrite filter_cons_True by done. by f_equal. }
    split.
    + intros ->. exists s0. split; [done|]. unfold group_sum. change (group_labels (is_labels s0) []) with (∅ : gmap string string). by rewrite Hall.
    + intros (s & _ & ->). unfold group_sum. change (group_labels (is_labels s) []) with (∅ : gmap string string). by rewrite Hall.
  - set (bys := b :: by_) in *. pose proof (instant_group_fold bys samples) as Hf. cbn zeta in Hf.
    destruct (fold_left (instant_group bys) samples (∅, ∅)) as [values lbls]. cbn [fst snd] in Hf.
    assert (Hkey : forall key v, values !! key = Some v -> exists s, s ∈ samples /\ groupKey (is_labels s) bys = key /\
      lbls !! key = Some (group_labels (is_labels s) bys) /\ v = group_sum bys (group_labels (is_labels s) bys) samples).
    { intros key v Hv. destruct (Hf key) as [F1 F2]. rewrite F1 in Hv. apply sum_opt_some in Hv as [Hnil ->].
      destruct (filter (fun s => groupKey (is_labels s) bys = key) samples) as [|s l] eqn:E; [done|].
      assert (Hs : s ∈ filter (fun s => groupKey (is_labels s) bys = key) samples) by (rewrite E; by left).
      apply list_elem_of_filter in Hs as [Hk Hs]. exists s. split_and!; [done..|]. rewrite <- E.
      unfold group_sum. do 2 f_equal. apply filter_eq_iff.
      intros x Hx. rewrite <- Hk. apply groupKey_labels; by apply HF. }
    split.
    + apply NoDup_fmap_in; [|apply NoDup_fmap_in; [|apply NoDup_map_to_list]].
      * intros o1 o2 (e1 & -> & H1)%list_elem_of_fmap (e2 & -> & H2)%list_elem_of_fmap. destruct e1 as [k1 v1], e2 as [k2 v2].
        apply elem_of_map_to_list in H1, H2. cbn [is_labels fst snd]. destruct (Hkey _ _ H1) as (s1 & Hs1 & <- & L1 & ->).
        destruct (Hkey _ _ H2) as (s2 & Hs2 & <- & L2 & ->). rewrite L1, L2. cbn. intros E%build_inj. by rewrite E.
      * intros [k1 v1] [k2 v2] H1%elem_of_map_to_list H2%elem_of_map_to_list E. destruct (Hkey _ _ H1) as (s1 & Hs1 & <- & L1 & ->).
        destruct (Hkey _ _ H2) as (s2 & Hs2 & <- & L2 & ->). cbn [fst snd] in E. rewrite L1, L2 in E.
        apply (f_equal is_labels), build_inj in E. cbn [default from_option] in E.
        f_equal; [apply groupKey_labels; [by apply HF..|exact E]|f_equal; exact E].
    + intros o. rewrite list_elem_of_fmap. split.
      * intros ([k v] & -> & H%elem_of_map_to_list). destruct (Hkey _ _ H) as (s & Hs & <- & L & ->). exists s. split; [done|]. cbn [fst snd]. by rewrite L.
      * intros (s & Hs & ->). destruct (Hf (groupKey (is_labels s) bys)) as [F1 F2].
        destruct (values !! groupKey (is_labels s) bys) as [v|] eqn:Ev.
        -- exists (groupKey (is_labels s) bys, v). split; [|by apply elem_of_map_to_list]. cbn [fst snd].
           destruct (Hkey _ _ Ev) as (s' & Hs' & Hk & L & ->). rewrite L. cbn [default from_option id]. apply groupKey_labels in Hk; [|by apply HF..]. by rewrite Hk.
        -- exfalso. destruct (filter (fun s0 => groupKey (is_labels s0) bys = groupKey (is_labels s) bys) samples) as [|x l] eqn:E; [|done].
           assert (Hin : s ∈ filter (fun s' => groupKey (is_labels s') bys = groupKey (is_labels s) bys) samples) by by apply list_elem_of_filter.
           rewrite E in Hin. by apply not_elem_of_nil in Hin.
Qed.

Definition points_at (pts : list SamplePoint) (t : Z) : list Z := pt_val <$> filter (fun p => pt_ts p = t) pts.

Lemma add_points_lookup pts t : fold_left add_point pts ∅ !! t = sum_opt (points_at pts t).
Proof.
  unfold points_at. induction pts as [|p pts IH] using rev_ind; [done|]. rewrite fold_left_app. cbn [fold_left]. unfold add_point at 1.
  rewrite filter_app, filter_cons, filter_nil, fmap_app. destruct (decide (pt_ts p = t)) as [<-|Hne].
  - rewrite lookup_insert_eq, IH. symmetry. apply sum_opt_snoc.
  - rewrite lookup_insert_ne by done. cbn [fmap list_fmap]. by rewrite app_nil_r.
Qed.

Definition group_ticks (l : list RangeSeries) : option (gmap Z Z) :=
  match l with [] => None | _ => Some (fold_left add_point (l ≫= rs_points) ∅) end.

Lemma group_ticks_snoc l rs : group_ticks (l ++ [rs]) = Some (fold_left add_point (rs_points rs) (default ∅ (group_ticks l))).
Proof.
  unfold group_ticks. destruct (l ++ [rs]) as [|x xs] eqn:E; [by destruct l|]. rewrite <- E, bind_app, fold_left_app. cbn [mbind list_bind].
  rewrite app_nil_r. by destruct l.
Qed.

Lemma range_group_fold by_ series :
  let acc := fold_left (range_group by_) series (∅, ∅) in
  forall key, acc.1 !! key = group_ticks (filter (fun rs => groupKey (rs_labels rs) by_ = key) series) /\
    acc.2 !! key = (fun rs => group_labels (rs_labels rs) by_) <$> head (filter (fun rs => groupKey (rs_labels rs) by_ = key) series).
Proof.
  induction series as [|rs series IH] using rev_ind; intros acc key; [done|]. subst acc. rewrite fold_left_app. cbn [fold_left].
  destruct (fold_left _ series _) as [tk lb]. rewrite !filter_app, !filter_cons, filter_nil. unfold range_group. cbn [fst snd] in *.
  destruct (IH (groupKey (rs_labels rs) by_)) as [I1 I2]. destruct (IH key) as [J1 J2].
  destruct (decide (groupKey (rs_labels rs) by_ = key)) as [<-|Hne].
  - rewrite group_ticks_snoc, <- I1. destruct (tk !! groupKey (rs_labels rs) by_) as [m|] eqn:Em; cbn [fst snd].
    + rewrite lookup_insert_eq, Em. split; [done|]. rewrite I2. by destruct (filter _ series).
    + rewrite !lookup_insert_eq. split; [done|]. destruct (filter _ series); [done|]. by cbn in I1.
  - rewrite app_nil_r. destruct (tk !! groupKey (rs_labels rs) by_); cbn [fst snd]; rewrite !lookup_insert_ne by done; done.
Qed.

Definition group_points (by_ : list string) (g : gmap string string) (series : list RangeSeries) : list SamplePoint :=
  filter (fun rs => group_labels (rs_labels rs) by_ = g) series ≫= rs_points.
Definition sorted_ticks (m : gmap Z Z) : list SamplePoint := sortPoints ((fun tv : Z * Z => mkPoint tv.1 tv.2) <$> map_to_list m).

Lemma sorted_ticks_spec m : StronglySorted (key_lt pt_ts) (sorted_ticks m) /\ forall t v, mkPoint t v ∈ sorted_ticks m <-> m !! t = Some v.
Proof.
  unfold sorted_ticks, sortPoints. set (pts := _ <$> map_to_list m).
  assert (Hnd : NoDup (pt_ts <$> pts)).
  { unfold pts. rewrite <- list_fmap_compose. erewrite list_fmap_ext; [apply (NoDup_fst_map_to_list m)|]. intros _ [t v] _. done. }
  split.
  - pose proof (sort_by_sorted pt_ts pts) as Hs. rewrite <- (sort_by_perm pt_ts pts) in Hnd. induction Hs as [|p l Hl IH Hp]; [constructor|].
    rewrite fmap_cons in Hnd. apply NoDup_cons in Hnd as [Hn Hnd]. constructor; [by apply IH|]. rewrite Forall_forall in *. intros q Hq.
    specialize (Hp q Hq). unfold key_le, key_lt in *. assert (pt_ts p <> pt_ts q) by (intros E; apply Hn; rewrite E; by apply list_elem_of_fmap_2). lia.
  - intros t v. rewrite sort_by_perm. unfold pts. rewrite list_elem_of_fmap. split.
    + intros ([t' v'] & [= -> ->] & H%elem_of_map_to_list). done.
    + intros H%elem_of_map_to_list. by exists (t, v).
Qed.

Lemma aggregateRange_spec series by_ : Forall (fun rs => labels_short by_ (rs_labels rs)) series ->
  let out := aggregateRange series by_ in
  NoDup (rs_labels <$> out) /\
  forall o, o ∈ out <-> exists rs, rs ∈ series /\
    let g := group_labels (rs_labels rs) by_ in
    o = mkRange (newOutputLabels g) (sorted_ticks (fold_left add_point (group_points by_ g series) ∅)).
Proof.
  intros HF. rewrite Forall_forall in HF.
  assert (Heq : aggregateRange series by_ = let '(groups, lbls) := fold_left (range_group by_) series (∅, ∅) in
    (fun e : string * gmap Z Z => mkRange (newOutputLabels (default ∅ (lbls !! e.1))) (sorted_ticks e.2)) <$> map_to_list groups) by by destruct series.
  cbn zeta. rewrite Heq. clear Heq. pose proof (range_group_fold by_ series) as Hf. cbn zeta in Hf.
  destruct (fold_left (range_group by_) series (∅, ∅)) as [groups lbls]. cbn [fst snd] in Hf.
  assert (Hkey : forall key m, groups !! key = Some m -> exists rs, rs ∈ series /\ groupKey (rs_labels rs) by_ = key /\
    lbls !! key = Some (group_labels (rs_labels rs) by_) /\ m = fold_left add_point (group_points by_ (group_labels (rs_labels rs) by_) series) ∅).
  { intros key m Hm. destruct (Hf key) as [F1 F2]. rewrite F1 in Hm.
    destruct (filter (fun rs => groupKey (rs_labels rs) by_ = key) series) as [|rs l] eqn:E; [done|].
    assert (Hs : rs ∈ filter (fun rs => groupKey (rs_labels rs) by_ = key) series) by (rewrite E; by left).
    apply list_elem_of_filter in Hs as [Hk Hs]. exists rs. split_and!; [done..|]. assert (Hm' : fold_left add_point ((rs :: l) ≫= rs_points) ∅ = m) by by injection Hm. rewrite <- Hm', <- E.
    unfold group_points. do 2 f_equal. apply filter_eq_iff. intros x Hx. rewrite <- Hk. apply groupKey_labels; by apply HF. }
  split.
  - apply NoDup_fmap_in; [|apply NoDup_fmap_in; [|apply NoDup_map_to_list]].
    + intros o1 o2 (e1 & -> & H1)%list_elem_of_fmap (e2 & -> & H2)%list_elem_of_fmap. destruct e1 as [k1 v1], e2 as [k2 v2].
      apply elem_of_map_to_list in H1, H2. cbn [rs_labels fst snd]. destruct (Hkey _ _ H1) as (s1 & Hs1 & <- & L1 & ->).
      destruct (Hkey _ _ H2) as (s2 & Hs2 & <- & L2 & ->). rewrite L1, L2. cbn [default from_option id]. intros E%build_inj. by rewrite E.
    + intros [k1 v1] [k2 v2] H1%elem_of_map_to_list H2%elem_of_map_to_list E. destruct (Hkey _ _ H1) as (s1 & Hs1 & <- & L1 & ->).
      destruct (Hkey _ _ H2) as (s2 & Hs2 & <- & L2 & ->). cbn [fst snd] in E. rewrite L1, L2 in E.
      apply (f_equal rs_labels), build_inj in E. cbn [default from_option] in E.
      f_equal; [apply groupKey_labels; [by apply HF..|exact E]|do 2 f_equal; exact E].
  - intros o. rewrite list_elem_of_fmap. split.
    + intros ([k v] & -> & H%elem_of_map_to_list). destruct (Hkey _ _ H) as (s & Hs & <- & L & ->). exists s. split; [done|]. cbn [fst snd]. by rewrite L.
    + intros (s & Hs & ->). destruct (Hf (groupKey (rs_labels s) by_)) as [F1 F2].
      destruct (groups !! groupKey (rs_labels s) by_) as [v|] eqn:Ev.
      * exists (groupKey (rs_labels s) by_, v). split; [|by apply elem_of_map_to_list]. cbn [fst snd].
        destruct (Hkey _ _ Ev) as (s' & Hs' & Hk & L & ->). rewrite L. cbn [default from_option id].
        apply groupKey_labels in Hk; [|by apply HF..]. by rewrite Hk.
      * exfalso. destruct (filter (fun s0 => groupKey (rs_labels s0) by_ = groupKey (rs_labels s) by_) series) as [|x l] eqn:E; [|done].
        assert (Hin : s ∈ filter (fun s' => groupKey (rs_labels s') by_ = groupKey (rs_labels s) by_) series) by by apply list_elem_of_filter.
        rewrite E in Hin. by apply not_elem_of_nil in Hin.
Qed.

(** The instant samples a range answer holds at one tick, in its order. *)
Definition at_tick (series : list RangeSeries) (t : Z) : list InstantSample :=
  series ≫= fun rs => (fun p => mkInstant (rs_labels rs) t (pt_val p)) <$> filter (fun p => pt_ts p = t) (rs_points rs).

Lemma at_tick_group by_ g series t :
  is_val <$> filter (fun s => group_labels (is_labels s) by_ = g) (at_tick series t) = points_at (group_points by_ g series) t.
Proof.
  unfold at_tick, points_at, group_points. induction series as [|rs series IH]; [done|]. cbn [mbind list_bind].
  rewrite filter_app, fmap_app, IH, filter_cons. clear IH.
  assert (H : filter (fun s => group_labels (is_labels s) by_ = g) ((fun p => mkInstant (rs_labels rs) t (pt_val p)) <$> filter (fun p => pt_ts p = t) (rs_points rs))
    = if decide (group_labels (rs_labels rs) by_ = g) then (fun p => mkInstant (rs_labels rs) t (pt_val p)) <$> filter (fun p => pt_ts p = t) (rs_points rs) else []).
  { induction (filter _ (rs_points rs)) as [|p l IH]; [by destruct (decide _)|]. cbn [fmap list_fmap]. rewrite filter_cons. cbn [is_labels].
    destruct (decide (group_labels (rs_labels rs) by_ = g)); [by f_equal|done]. }
  rewrite H. destruct (decide (group_labels (rs_labels rs) by_ = g)); [|done].
  cbn [mbind list_bind]. rewrite filter_app, fmap_app. f_equal. by rewrite <- list_fmap_compose.
Qed.

Lemma elem_of_at_tick series t s : s ∈ at_tick series t <-> exists rs, rs ∈ series /\ is_labels s = rs_labels rs /\ is_ts s = t /\ mkPoint t (is_val s) ∈ rs_points rs.
Proof.
  unfold at_tick. rewrite list_elem_of_bind. split.
  - intros (rs & (p & -> & [<- Hp]%list_elem_of_filter)%list_elem_of_fmap & Hrs). exists rs. split_and!; try done. by destruct p.
  - intros (rs & Hrs & Hl & Ht & Hp). exists rs. split; [|done]. apply list_elem_of_fmap. exists (mkPoint t (is_val s)).
    split; [by destruct s; cbn in *; subst|]. by apply list_elem_of_filter.
Qed.

(** ** Metadata queries *)

(** A series the filter selects: one of the selectors matches it and, under a
    time filter, it has a sample in the range. *)
Definition selected (db : database) (f : MetadataFilter) (l : Labels) : Prop :=
  exists ws, db l = Some ws /\ (Selectors f = [] \/ Exists (fun sel => matches sel l) (Selectors f)) /\
    (HasTime f = true -> exists x, x ∈ ws /\ StartMs f <= s_ts x <= EndMs f).

Definition meta_params (f : MetadataFilter) (sel : Selector) : SelectParams :=
  mkParams sel (StartMs f) (EndMs f) false true (negb (HasTime f)).

Lemma survivor_in_range ws a b : (exists x, x ∈ sortAndDedup ws /\ a <= s_ts x <= b) <-> exists x, x ∈ ws /\ a <= s_ts x <= b.
Proof.
  destruct (sortAndDedup_spec ws) as [_ Hin]. split.
  - intros (x & Hx & Hr). exists x. split; [|done]. apply list_elem_of_In, Hin in Hx as [Hx _]. by apply list_elem_of_In.
  - intros (x & Hx & Hr). apply list_elem_of_In in Hx. destruct (survivor_exists ws x Hx) as (y & Hy & Ht & _).
    exists y. split; [by apply list_elem_of_In, Hin|]. by rewrite Ht.
Qed.

Lemma meta_expected f sel l ws sd : expected (meta_params f sel) l ws = Some sd <->
  sd = mkSeries l None [] /\ (HasTime f = true -> exists x, x ∈ ws /\ StartMs f <= s_ts x <= EndMs f).
Proof.
  unfold expected, to_answer, meta_params. cbn [SeriesOnly AnyTime MaxT MinT andb]. rewrite <- survivor_in_range.
  destruct (HasTime f); cbn [negb]; [|naive_solver]. destruct (Z.ltb_spec (EndMs f) (StartMs f)) as [Hlt|Hle].
  - split; [done|]. intros [_ H]. destruct (H eq_refl) as (x & _ & ?). lia.
  - unfold core. cbn [MinT MaxT fst]. destruct (filter _ (sortAndDedup ws)) as [|x l0] eqn:E.
    + split; [done|]. intros [_ H]. destruct (H eq_refl) as (x & Hx & Hr).
      assert (Hin : x ∈ filter (fun s => StartMs f <= s_ts s <= EndMs f) (sortAndDedup ws)) by by apply list_elem_of_filter.
      rewrite E in Hin. by apply not_elem_of_nil in Hin.
    + split; [intros [= <-]; split; [done|]|by intros [-> _]]. intros _. exists x.
      assert (Hin : x ∈ filter (fun s => StartMs f <= s_ts s <= EndMs f) (sortAndDedup ws)) by (rewrite E; by left).
      apply list_elem_of_filter in Hin as [? ?]. done.
Qed.

Record meta_acc (acc : gset Z * list SeriesData) : Prop := {
  ma_ids : forall id, id ∈ acc.1 <-> id ∈ sd_id <$> acc.2;
  ma_nodup : NoDup (sd_id <$> acc.2) }.

Lemma add_unseen_fold matched acc : meta_acc acc ->
  let acc' := fold_left add_unseen matched acc in
  meta_acc acc' /\ (forall sd, sd ∈ acc'.2 -> sd ∈ acc.2 \/ sd ∈ matched) /\
  (forall sd, sd ∈ acc.2 \/ sd ∈ matched -> exists sd', sd' ∈ acc'.2 /\ sd_id sd' = sd_id sd).
Proof.
  revert acc. induction matched as [|m matched IH]; intros acc Hacc; cbn [fold_left].
  { split_and!; [done|auto|]. intros sd [H|[]%not_elem_of_nil]. by exists sd. }
  assert (Hstep : meta_acc (add_unseen acc m) /\ (forall sd, sd ∈ (add_unseen acc m).2 -> sd ∈ acc.2 \/ sd = m) /\
    (forall sd, sd ∈ acc.2 -> sd ∈ (add_unseen acc m).2) /\ exists sd', sd' ∈ (add_unseen acc m).2 /\ sd_id sd' = sd_id m).
  { unfold add_unseen. fold (sd_id m). destruct Hacc as [Hids Hnd]. destruct (decide _) as [Hin|Hnin].
    - split_and!; [done|auto|done|]. apply Hids, list_elem_of_fmap in Hin as (sd' & E & Hin). by exists sd'.
    - cbn [fst snd]. split_and!.
      + split; cbn [fst snd].
        * intros id. rewrite fmap_app, elem_of_app, elem_of_union, elem_of_singleton, Hids. cbn. rewrite list_elem_of_singleton. tauto.
        * rewrite fmap_app. apply NoDup_app. split_and!; [done| |apply NoDup_singleton]. intros id Hid. cbn. rewrite list_elem_of_singleton. intros ->.
          apply Hnin, Hids, Hid.
      + intros sd. rewrite elem_of_app, list_elem_of_singleton. tauto.
      + intros sd ?. apply elem_of_app. by left.
      + exists m. split; [apply elem_of_app; right; by left|done]. }
  destruct Hstep as (H1 & H2 & H3 & m' & Hm' & Em'). destruct (IH _ H1) as (J1 & J2 & J3). split_and!; [done| |].
  - intros sd Hsd. destruct (J2 sd Hsd) as [Ha|Hm]; [|right; by right]. destruct (H2 sd Ha) as [?| ->]; [by left|right; by left].
  - intros sd [Ha|[->|Hm]%elem_of_cons].
    + apply J3. left. by apply H3.
    + destruct (J3 m' (or_introl Hm')) as (sd' & Hsd' & E). exists sd'. split; [done|congruence].
    + apply J3. by right.
Qed.

Section metadata_queries.
Context (src : Source) (ctx : context) (db : database) (Hsrc : Implements src ctx db) (Hnc : no_collision [db]).

Definition meta_hit (f : MetadataFilter) (sels : list Selector) (sd : SeriesData) : Prop :=
  exists ws, db (sd_labels sd) = Some ws /\ sd = mkSeries (sd_labels sd) None [] /\
    Exists (fun sel => matches sel (sd_labels sd)) sels /\ (HasTime f = true -> exists x, x ∈ ws /\ StartMs f <= s_ts x <= EndMs f).

Lemma meta_hit_id f1 f2 s1 s2 sd1 sd2 : meta_hit f1 s1 sd1 -> meta_hit f2 s2 sd2 -> sd_id sd1 = sd_id sd2 -> sd1 = sd2.
Proof.
  intros (w1 & H1 & E1 & _) (w2 & H2 & E2 & _) E. rewrite E1, E2. f_equal. apply (Hnc _ _ db db); [by left|by left|by exists w1|by exists w2|done].
Qed.

Lemma matching_loop_spec f sels done_ acc : meta_acc acc -> (forall sd, sd ∈ acc.2 <-> meta_hit f done_ sd) ->
  exists acc', matching_loop src ctx f sels acc = Ok acc' /\ meta_acc acc' /\ forall sd, sd ∈ acc'.2 <-> meta_hit f (done_ ++ sels) sd.
Proof.
  revert done_ acc. induction sels as [|sel sels IH]; intros done_ acc Hacc Hhit; cbn [matching_loop].
  { exists acc. rewrite app_nil_r. done. }
  fold (meta_params f sel).
  destruct (select_engine src ctx db (meta_params f sel) Hsrc) as (matched & -> & Hnd & Hans).
  { unfold Validate, meta_params. cbn. by rewrite andb_false_r. }
  cbn [mbind result_bind]. destruct (add_unseen_fold matched acc Hacc) as (H1 & H2 & H3).
  assert (Hm : forall sd, sd ∈ matched <-> meta_hit f [sel] sd).
  { intros sd. rewrite Hans. unfold meta_hit. setoid_rewrite meta_expected. setoid_rewrite Exists_cons. setoid_rewrite Exists_nil.
    cbn [p_sel meta_params]. naive_solver. }
  assert (Hor : forall sd, meta_hit f (done_ ++ [sel]) sd <-> meta_hit f done_ sd \/ meta_hit f [sel] sd).
  { intros sd. unfold meta_hit. setoid_rewrite Exists_app. naive_solver. }
  destruct (IH (done_ ++ [sel]) (fold_left add_unseen matched acc) H1) as (acc' & -> & Ha' & Hh').
  { intros sd. rewrite Hor, <- Hhit, <- Hm. split; [apply H2|]. intros Hsd. destruct (H3 sd Hsd) as (sd' & Hsd' & E).
    assert (sd' = sd) as <-; [|done]. rewrite Hhit, Hm, <- Hor in Hsd. apply H2 in Hsd'. rewrite Hhit, Hm, <- Hor in Hsd'. by eapply meta_hit_id. }
  exists acc'. split; [done|]. split; [done|]. by rewrite <- app_assoc in Hh'.
Qed.

Lemma matchingSeries_spec f : exists out, matchingSeries src ctx f = Ok out /\ NoDup (sd_id <$> out) /\
  forall sd, sd ∈ out <-> sd = mkSeries (sd_labels sd) None [] /\ selected db f (sd_labels sd).
Proof.
  unfold matchingSeries. set (sels := match Selectors f with [] => [mkSelector "" []] | s => s end).
  destruct (matching_loop_spec f sels [] (∅, [])) as (acc & -> & Hacc & Hhit).
  - split; cbn [fst snd]; [intros id; set_solver|constructor].
  - intros sd. cbn [snd]. rewrite elem_of_nil. split; [done|]. by intros (ws & _ & _ & H%Exists_nil & _).
  - exists acc.2. split; [done|]. split; [apply Hacc|]. intros sd. rewrite Hhit. cbn [app]. unfold meta_hit, selected.
    assert (Hs : Exists (fun sel => matches sel (sd_labels sd)) sels <-> Selectors f = [] \/ Exists (fun sel => matches sel (sd_labels sd)) (Selectors f)).
    { unfold sels. destruct (Selectors f) as [|s l]; [|naive_solver]. split; [by left|]. intros _. constructor. split; [done|constructor]. }
    setoid_rewrite Hs. naive_solver.
Qed.

Lemma selected_unfiltered f l : isUnfiltered f = true -> selected db f l <-> is_Some (db l).
Proof.
  unfold isUnfiltered, selected. destruct (Selectors f); [|done]. intros Hf%negb_true_iff. rewrite Hf. split.
  - intros (ws & H & _). by eexists.
  - intros [ws H]. exists ws. split_and!; [done|by left|done].
Qed.
End metadata_queries.

(** *** The order of [Series] *)

Fixpoint strs_ltb (a b : list string) : bool :=
  match a, b with
  | [], [] => false
  | [], _ :: _ => true
  | _ :: _, [] => false
  | x :: a', y :: b' => if String.eqb x y then strs_ltb a' b' else String.ltb x y
  end.
Definition flat_pairs (ps : list Label) : list string :=
  filter (fun p => Name p <> "__name__"%string) ps ≫= fun p => [Name p; Value p].
Definition series_key (l : Labels) : list string := label_value l "__name__" :: flat_pairs (sortedPairs l).

Lemma pairs_less_key fuel pi pj : (length pi + length pj < fuel)%nat -> pairs_less fuel pi pj = strs_ltb (flat_pairs pi) (flat_pairs pj).
Proof.
  revert pi pj. induction fuel as [|fuel IH]; intros pi pj Hf; [lia|]. cbn [pairs_less]. unfold flat_pairs in *.
  destruct pi as [|p pi'].
  - destruct pj as [|q pj']; [done|]. rewrite (filter_cons _ q). destruct (String.eqb_spec (Name q) "__name__").
    + rewrite decide_False by tauto. apply IH. cbn in Hf. cbn. lia.
    + by rewrite decide_True by done.
  - rewrite (filter_cons _ p). destruct (String.eqb_spec (Name p) "__name__").
    + rewrite decide_False by tauto. apply IH. cbn in Hf. lia.
    + rewrite decide_True by done. destruct pj as [|q pj']; [done|]. rewrite (filter_cons _ q).
      destruct (String.eqb_spec (Name q) "__name__").
      * rewrite decide_False by tauto. rewrite IH by (cbn in *; lia). by rewrite filter_cons_True.
      * rewrite decide_True by done. cbn [mbind list_bind app strs_ltb]. destruct (String.eqb (Name p) (Name q)); [|done].
        destruct (String.eqb (Value p) (Value q)); [|done]. apply IH. cbn in Hf. lia.
Qed.
Lemma series_less_key a b : series_less a b = strs_ltb (series_key a) (series_key b).
Proof. unfold series_less, series_key. cbn [strs_ltb]. destruct (String.eqb _ _); [|done]. apply pairs_less_key. lia. Qed.

Lemma strs_ltb_asym a b : strs_ltb a b = true -> strs_ltb b a = false.
Proof.
  revert b. induction a as [|x a IH]; intros [|y b]; cbn; try done. rewrite (String.eqb_sym y x).
  destruct (String.eqb_spec x y); [apply IH|]. apply str_lt_flip.
Qed.
Lemma strs_ltb_neg_trans a b c : strs_ltb b a = false -> strs_ltb c b = false -> strs_ltb c a = false.
Proof.
  revert b c. induction a as [|x a IH]; intros [|y b] [|z c]; cbn; try done.
  destruct (String.eqb_spec y x) as [->|Hyx].
  - destruct (String.eqb_spec z x); [apply IH|done].
  - intros H1. destruct (String.eqb_spec z y) as [->|Hzy]; [by rewrite (proj2 (String.eqb_neq _ _)) by done|]. intros H2.
    destruct (str_lt_total x y) as [Hxy|[|Hyx']]; [|congruence|unfold str_lt in Hyx'; congruence].
    destruct (str_lt_total y z) as [Hyz|[|Hzy']]; [|congruence|unfold str_lt in Hzy'; congruence].
    pose proof (str_lt_trans _ _ _ Hxy Hyz) as Hxz. destruct (String.eqb_spec z x) as [->|]; [by apply str_lt_irrefl in Hxz|].
    by apply str_lt_flip.
Qed.

Lemma series_sorted l : StronglySorted (fun a b => series_less b a = false) (SliceStable series_less l).
Proof.
  apply (SliceStable_sorted series_less).
  - intros a b. rewrite !series_less_key. apply strs_ltb_asym.
  - intros a b c. rewrite !series_less_key. apply strs_ltb_neg_trans.
Qed.

Lemma keep_first_fold series : NoDup (sd_id <$> series) ->
  forall k, fold_left keep_first series ∅ !! k = sd_labels <$> find (fun sd => sd_id sd =? k) series.
Proof.
  induction series as [|sd series IH] using rev_ind; intros Hnd k; [done|]. rewrite fmap_app in Hnd.
  apply NoDup_app in Hnd as (Hnd & Hdisj & _). rewrite fold_left_app. cbn [fold_left]. unfold keep_first at 1. fold (sd_id sd).
  rewrite IH by done.
  assert (Happ : find (fun x => sd_id x =? k) (series ++ [sd]) = match find (fun x => sd_id x =? k) series with Some x => Some x | None => if sd_id sd =? k then Some sd else None end).
  { clear. induction series as [|x series IH]; [done|]. cbn [find app]. destruct (sd_id x =? k); [done|apply IH]. }
  destruct (find (fun x => sd_id x =? sd_id sd) series) as [x|] eqn:Ef.
  - apply find_some in Ef as [Hx%list_elem_of_In E%Z.eqb_eq]. exfalso. apply (Hdisj (sd_id x)); [by apply list_elem_of_fmap_2|]. cbn. rewrite E. by left.
  - cbn [fmap option_fmap option_map]. rewrite Happ. destruct (Z.eqb_spec (sd_id sd) k) as [E|Hne].
    + rewrite <- E, lookup_insert_eq, Ef. done.
    + rewrite lookup_insert_ne, IH by done. by destruct (find _ series).
Qed.

(** ** Properties *)

(** C14. The engine's single pass agrees with its oracle, the definition that asks
    the database afresh at every tick: over any source that keeps its promise, a
    range query terminates within its tick count, and for every series its points
    are exactly, tick by tick, the latest surviving write at or before the tick
    (selectors) or the rate between the first and last surviving writes of the
    tick's window (rates); instant queries return the same values at their time. *)
Theorem engine_matches_oracle (src : Source) (ctx : context) (db : database) (sel : Selector) (W startMs endMs stepMs : Z) (fuel : nat)
  (Hsrc : Implements src ctx db) (Hi : db_i64 db) (HW : 0 < W <= MaxInt64) (Hstep : 0 < stepMs)
  (Hrange : MinInt64 <= startMs <= endMs) (Hend : endMs + stepMs <= MaxInt64) (Hfuel : (length (ticks startMs endMs stepMs) <= fuel)%nat) :
  (exists out, RangeQuery fuel src ctx sel startMs endMs stepMs = Ok out /\
     range_answers db sel (ticks startMs endMs stepMs) (fun ws t => s_val <$> tick_value ws t) out) /\
  (exists out, rateRange fuel src ctx sel W startMs endMs stepMs = Ok out /\
     range_answers db sel (ticks startMs endMs stepMs) (rate_value W) out) /\
  (exists out, InstantQuery src ctx sel startMs = Ok out /\
     instant_answers db sel (fun ws => (fun x => (s_ts x, s_val x)) <$> tick_value ws startMs) out) /\
  (exists out, rateInstant src ctx sel W startMs = Ok out /\
     instant_answers db sel (fun ws => (fun v => (startMs, v)) <$> rate_value W ws startMs) out).
Proof.
  split_and!; [by apply range_query_spec|by apply rate_range_spec|apply instant_query_spec; [done..|lia]|].
  apply rate_instant_spec; [done|wsolve|done].
Qed.

Definition leaf (e : Expr) : Prop :=
  match e with SumExpr _ _ => False | RateExpr _ W => 0 < W <= MaxInt64 | _ => True end.

Lemma range_instant_agree db sel ts value ivalue out t io : range_answers db sel ts value out -> instant_answers db sel ivalue io ->
  t ∈ ts -> (forall ws v, value ws t = Some v <-> exists t', ivalue ws = Some (t', v)) ->
  forall l v, (exists rs, rs ∈ out /\ rs_labels rs = l /\ mkPoint t v ∈ rs_points rs) <-> (exists s, s ∈ io /\ is_labels s = l /\ is_val s = v).
Proof.
  intros [_ Hr] [_ Hio] Ht Hv l v. split.
  - intros (rs & Hrs & <- & Hp). apply Hr in Hrs as (ws & Hdb & Hm & Epts & _). rewrite Epts in Hp.
    apply list_elem_of_omap in Hp as (t0 & _ & Hp). unfold tick_point in Hp. destruct (value ws t0) as [v0|] eqn:Ev; [|done].
    injection Hp as -> ->. apply Hv in Ev as [t' Ev]. exists (mkInstant (rs_labels rs) t' v). split; [|done]. apply Hio. by exists ws.
  - intros ([l' t' v'] & Hs & El & Evv). cbn in El, Evv. subst l' v'. apply Hio in Hs as (ws & Hdb & Hm & Ei). cbn in Ei.
    assert (Ev : value ws t = Some v) by (apply Hv; by exists t').
    assert (Hp : mkPoint t v ∈ omap (tick_point (value ws)) ts).
    { apply list_elem_of_omap. exists t. split; [done|]. unfold tick_point. by rewrite Ev. }
    exists (mkRange l (omap (tick_point (value ws)) ts)). split; [|done]. apply Hr. exists ws. cbn. split_and!; try done.
    intros E. rewrite E in Hp. by apply not_elem_of_nil in Hp.
Qed.

Lemma scalar_points_spec v ts pts : fold_left (fun pts t => pts ++ [mkPoint t v]) ts pts = pts ++ ((fun t => mkPoint t v) <$> ts).
Proof. revert pts. induction ts as [|t ts IH]; intros pts; cbn; [by rewrite app_nil_r|]. by rewrite IH, <- app_assoc. Qed.

(** A range query is an instant query at every tick: for selector, rate and
    constant expressions, the range answer has a point at tick [t] with value [v]
    for a label set exactly when evaluating the expression at the instant [t]
    gives that label set the value [v]; and no label set is answered twice. *)
Theorem range_is_instant_per_tick (src : Source) (ctx : context) (db : database) (e : Expr) (startMs endMs stepMs : Z) (fuel : nat)
  (Hsrc : Implements src ctx db) (Hi : db_i64 db) (He : leaf e) (Hstep : 0 < stepMs)
  (Hrange : MinInt64 <= startMs <= endMs) (Hend : endMs + stepMs <= MaxInt64) (Hfuel : (length (ticks startMs endMs stepMs) <= fuel)%nat) :
  exists out, EvalRange fuel src ctx e startMs endMs stepMs = Ok out /\ NoDup (rs_labels <$> out) /\
    forall t, t ∈ ticks startMs endMs stepMs -> exists io, EvalInstant src ctx e t = Ok io /\
      forall l v, (exists rs, rs ∈ out /\ rs_labels rs = l /\ mkPoint t v ∈ rs_points rs) <-> (exists s, s ∈ io /\ is_labels s = l /\ is_val s = v).
Proof.
  assert (Hcheck : check_range startMs endMs stepMs = Ok tt).
  { unfold check_range. by rewrite (proj2 (Z.leb_gt _ _)), (proj2 (Z.ltb_ge _ _)) by lia. }
  destruct e as [sel|sel W|inner by_|v]; [| |done|]; cbn [EvalRange]; rewrite Hcheck; cbn [mbind result_bind].
  - destruct (range_query_spec src ctx db Hsrc Hi fuel sel startMs endMs stepMs) as (out & Eo & Ho); [done..|].
    exists out. split; [done|]. split; [apply Ho|]. intros t Ht. pose proof (elem_of_ticks _ _ _ _ Hstep Ht) as Htr.
    destruct (instant_query_spec src ctx db Hsrc Hi sel t) as (io & Eio & Hio); [lia|]. exists io. split; [done|].
    eapply range_instant_agree; [exact Ho|exact Hio|done|]. intros ws v. unfold sel_value. cbn beta. destruct (tick_value ws t) as [x0|]; cbn; (split; [intros E; try done; exists (s_ts x0); congruence|intros [t' E]; congruence]).
  - destruct (rate_range_spec src ctx db Hsrc fuel sel W startMs endMs stepMs) as (out & Eo & Ho); [done..|].
    exists out. split; [done|]. split; [apply Ho|]. intros t Ht. pose proof (elem_of_ticks _ _ _ _ Hstep Ht) as Htr.
    destruct (rate_instant_spec src ctx db Hsrc sel W t) as (io & Eio & Hio); [wsolve|done|]. exists io. split; [done|].
    eapply range_instant_agree; [exact Ho|exact Hio|done|]. intros ws v. cbn beta. destruct (rate_value W ws t) as [v0|]; cbn; (split; [intros E; try done; exists t; congruence|intros [t' E]; congruence]).
  - unfold scalarPoints. rewrite tick_loop_ticks, scalar_points_spec by (done || lia). cbn [app]. eexists. split; [reflexivity|].
    split; [apply NoDup_singleton|]. intros t Ht. cbn [EvalInstant]. eexists. split; [reflexivity|]. intros l v'. split.
    + intros (rs & ->%list_elem_of_singleton & <- & Hp). cbn [rs_points rs_labels] in *. unfold sortPoints in Hp. rewrite sort_by_perm in Hp.
      apply list_elem_of_fmap in Hp as (t0 & [= -> ->] & _). exists (mkInstant (newOutputLabels ∅) t0 v). split; [by left|done].
    + intros (s & ->%list_elem_of_singleton & <- & <-). eexists. split; [by left|]. split; [done|]. cbn [rs_points is_val].
      unfold sortPoints. rewrite sort_by_perm. apply list_elem_of_fmap. by exists t.
Qed.

(** A sum over a range is the sum at every tick: grouping and adding a range
    answer gives one series per group with strictly ascending ticks, and its point
    at tick [t] is what the instant aggregation gives that group from the values
    at [t], added in the same order; groups are told apart exactly by the values
    of the grouping labels (no value can forge another group's key). *)
Theorem sum_range_is_sum_per_tick (series : list RangeSeries) (by_ : list string) (t : Z)
  (Hshort : Forall (fun rs => labels_short by_ (rs_labels rs)) series) :
  let out := aggregateRange series by_ in
  let inst := aggregateInstant (at_tick series t) by_ t in
  NoDup (rs_labels <$> out) /\ NoDup (is_labels <$> inst) /\
  Forall (fun rs => StronglySorted (key_lt pt_ts) (rs_points rs)) out /\
  forall l v, (exists rs, rs ∈ out /\ rs_labels rs = l /\ mkPoint t v ∈ rs_points rs) <-> mkInstant l t v ∈ inst.
Proof.
  intros out inst. destruct (aggregateRange_spec series by_ Hshort) as [Hnd Hout]. fold out in Hnd, Hout.
  assert (Hshort' : Forall (fun s => labels_short by_ (is_labels s)) (at_tick series t)).
  { apply Forall_forall. intros s (rs & Hrs & -> & _)%elem_of_at_tick. rewrite Forall_forall in Hshort. by apply Hshort. }
  destruct (aggregateInstant_spec (at_tick series t) by_ t Hshort') as [Hnd' Hinst]. fold inst in Hnd', Hinst.
  split; [done|]. split; [done|]. split.
  { apply Forall_forall. intros rs (rs0 & _ & ->)%Hout. apply sorted_ticks_spec. }
  intros l v. rewrite Hinst. split.
  - intros (rs & Hrs & <- & Hp). apply Hout in Hrs as (rs0 & Hrs0 & ->). cbn [rs_labels rs_points] in *.
    set (g := group_labels (rs_labels rs0) by_) in *. apply sorted_ticks_spec in Hp. rewrite add_points_lookup in Hp.
    apply sum_opt_some in Hp as [Hne ->]. rewrite <- (at_tick_group by_ g series t) in Hne |- *.
    destruct (filter (fun s => group_labels (is_labels s) by_ = g) (at_tick series t)) as [|s l] eqn:E; [done|].
    assert (Hs : s ∈ filter (fun s => group_labels (is_labels s) by_ = g) (at_tick series t)) by (rewrite E; by left).
    apply list_elem_of_filter in Hs as [Hg Hs]. exists s. split; [done|]. cbn zeta. unfold group_sum. by rewrite Hg, E.
  - intros (s & Hs & Hg). cbn zeta in Hg. apply (f_equal is_val) in Hg as Hv. apply (f_equal is_labels) in Hg as Hl. cbn [is_val is_labels] in Hv, Hl. clear Hg.
    pose proof Hs as (rs & Hrs & Els & Ets & Hp)%elem_of_at_tick. eexists. split; [apply Hout; by exists rs|]. cbn [rs_labels rs_points].
    rewrite Els in Hl, Hv. split; [done|]. apply sorted_ticks_spec. rewrite add_points_lookup. apply sum_opt_some. rewrite <- at_tick_group.
    split; [|done]. assert (Hin : s ∈ filter (fun s => group_labels (is_labels s) by_ = group_labels (rs_labels rs) by_) (at_tick series t)).
    { apply list_elem_of_filter. split; [by rewrite Els|done]. }
    by destruct (filter _ (at_tick series t)); [apply not_elem_of_nil in Hin|].
Qed.

(** Metadata answers are exact: under any filter (an OR of selectors, with or
    without a time range) [LabelNames] and [LabelValues] list, sorted and without
    duplicates, exactly the names and values some selected series carries, and
    [Series] returns exactly the selected label sets, each once, in its order. *)
Theorem metadata_exact (src : Source) (ctx : context) (db : database) (f : MetadataFilter) (name : string)
  (Hsrc : Implements src ctx db) (Hnc : no_collision [db]) (Hwf : db_wf db) :
  (exists out, LabelNames src ctx f = Ok out /\ StronglySorted str_lt out /\
     forall n, n ∈ out <-> exists l, selected db f l /\ is_Some (Get l n)) /\
  (exists out, LabelValues src ctx name f = Ok out /\ StronglySorted str_lt out /\
     forall v, v ∈ out <-> exists l, selected db f l /\ Get l name = Some v) /\
  (exists out, Series src ctx f = Ok out /\ StronglySorted (fun a b => series_less b a = false) out /\ NoDup out /\
     forall l, l ∈ out <-> selected db f l).
Proof.
  destruct (matchingSeries_spec src ctx db Hsrc Hnc f) as (series & Em & Hnd & Hin).
  assert (Hsel : forall l, selected db f l <-> exists sd, sd ∈ series /\ sd_labels sd = l).
  { intros l. split; [intros H; exists (mkSeries l None []); split; [by apply Hin|done]|]. intros (sd & Hsd & <-). by apply Hin. }
  assert (Hdb : forall l, selected db f l -> labels_wf l) by (intros l (ws & Hl & _); by eapply Hwf).
  split; [|split].
  - unfold LabelNames. destruct (isUnfiltered f) eqn:Eu.
    + destruct (names_answers (src := src) (ctx := ctx)) as (out & -> & Hs & Hout). exists out. split; [done|]. split; [done|].
      intros n. rewrite Hout. setoid_rewrite (selected_unfiltered db f _ Eu). split; [intros (l & ws & Hl & Hn); exists l; eauto|intros (l & [ws Hl] & Hn); eauto].
    + rewrite Em. cbn [mbind result_bind]. eexists. split; [reflexivity|]. destruct (sortedStringSet_spec (names_of series)) as [H1 H2].
      split; [done|]. intros n. rewrite H2, names_of_spec. setoid_rewrite Hsel. split.
      * intros (sd & Hsd & Hn). exists (sd_labels sd). split; [by exists sd|]. rewrite Get_Map; [done|]. apply Hdb, Hsel. by exists sd.
      * intros (l & (sd & Hsd & <-) & Hn). exists sd. split; [done|]. rewrite <- Get_Map; [done|]. apply Hdb, Hsel. by exists sd.
  - unfold LabelValues. destruct (isUnfiltered f) eqn:Eu.
    + destruct (values_answers (src := src) (ctx := ctx) name) as (out & -> & Hs & Hout). exists out. split; [done|]. split; [done|].
      intros v. rewrite Hout. setoid_rewrite (selected_unfiltered db f _ Eu). split; [intros (l & ws & Hl & Hn); exists l; eauto|intros (l & [ws Hl] & Hn); eauto].
    + rewrite Em. cbn [mbind result_bind]. eexists. split; [reflexivity|]. destruct (sortedStringSet_spec (values_of name series)) as [H1 H2].
      split; [done|]. intros v. rewrite H2, values_of_spec. setoid_rewrite Hsel. naive_solver.
  - unfold Series. rewrite Em. cbn [mbind result_bind]. eexists. split; [reflexivity|]. split; [apply series_sorted|].
    assert (Hmem : forall k l, fold_left keep_first series ∅ !! k = Some l <-> k = Hash l /\ exists sd, sd ∈ series /\ sd_labels sd = l).
    { intros k l. rewrite keep_first_fold by done. split.
      - destruct (find _ series) as [sd|] eqn:Ef; [|done]. intros [= <-]. apply find_some in Ef as [Hsd%list_elem_of_In E%Z.eqb_eq].
        split; [by rewrite <- E|by exists sd].
      - intros (-> & sd & Hsd & <-). destruct (find _ series) as [sd'|] eqn:Ef.
        + apply find_some in Ef as [Hsd'%list_elem_of_In E%Z.eqb_eq]. cbn. f_equal.
          apply Hin in Hsd as (_ & ws & Hl & _). apply Hin in Hsd' as (_ & ws' & Hl' & _).
          apply (Hnc _ _ db db); [by left|by left|by eexists|by eexists|done].
        + apply list_elem_of_In in Hsd. pose proof (find_none _ _ Ef _ Hsd) as Hn. unfold sd_id in Hn. by rewrite Z.eqb_refl in Hn. }
    split.
    + rewrite SliceStable_perm. apply NoDup_fmap_in; [|apply NoDup_map_to_list]. intros [k1 l1] [k2 l2] H1%elem_of_map_to_list H2%elem_of_map_to_list E.
      cbn in E. subst l2. apply Hmem in H1 as [-> _]. by apply Hmem in H2 as [-> _].
    + intros l. rewrite SliceStable_perm, list_elem_of_fmap, Hsel. split.
      * intros ([k l'] & -> & H%elem_of_map_to_list). by apply Hmem in H as [_ ?].
      * intros H. exists (Hash l, l). split; [done|]. apply elem_of_map_to_list, Hmem. done.
Qed.

(** *** Witnesses *)

Definition demo_rows : table := [(row_acme, [mkSample 10 4611686018427387904 5; mkSample 30 4613937818241073152 6]); (row_anon, [mkSample 20 0 7])].
Lemma demo_rows_ok : NoDup demo_rows.*1 /\ Forall (fun r => labels_wf r.1) demo_rows.
Proof.
  split; [apply (bool_decide_unpack _); vm_compute; exact I|]. repeat (apply Forall_cons_2; [apply build_wf|]). apply Forall_nil_2.
Qed.
Definition demo_src : Source := ref_source demo_rows.
Lemma demo_src_ok : Implements demo_src None (db_of demo_rows).
Proof. apply ref_source_implements; apply demo_rows_ok. Qed.
Lemma demo_rows_i64 : db_i64 (db_of demo_rows).
Proof.
  intros l ws H. apply db_of_some in H; [|apply demo_rows_ok]. unfold demo_rows in H. rewrite !elem_of_cons in H.
  destruct H as [[= -> ->]|[[= -> ->]|[]%not_elem_of_nil]]; repeat constructor; cbn; lia.
Qed.
Lemma demo_rows_no_collision : no_collision [db_of demo_rows].
Proof.
  intros l1 l2 d1 d2 ->%list_elem_of_singleton ->%list_elem_of_singleton H1%table_cases H2%table_cases E. cbn in H1, H2. rewrite !elem_of_cons in H1, H2.
  destruct H1 as [->|[->|[]%not_elem_of_nil]], H2 as [->|[->|[]%not_elem_of_nil]];
    [reflexivity|exfalso; vm_compute in E; discriminate E|exfalso; vm_compute in E; discriminate E|reflexivity].
Qed.

Lemma engine_matches_oracle_witness : exists out, RangeQuery 4 demo_src None (mkSelector "up" []) 10 40 10 = Ok out /\
  range_answers (db_of demo_rows) (mkSelector "up" []) [10; 20; 30; 40] (fun ws t => s_val <$> tick_value ws t) out.
Proof.
  apply (engine_matches_oracle demo_src None (db_of demo_rows) (mkSelector "up" []) 30 10 40 10 4);
    [apply demo_src_ok|apply demo_rows_i64|vm_compute; split; [reflexivity|discriminate]|reflexivity|vm_compute; split; discriminate|vm_compute; discriminate|vm_compute; constructor].
Defined.

Lemma range_is_instant_per_tick_witness : exists out, EvalRange 4 demo_src None (RateExpr (mkSelector "up" []) 30) 10 40 10 = Ok out /\ NoDup (rs_labels <$> out).
Proof.
  destruct (range_is_instant_per_tick demo_src None (db_of demo_rows) (RateExpr (mkSelector "up" []) 30) 10 40 10 4) as (out & H1 & H2 & _);
    [apply demo_src_ok|apply demo_rows_i64|vm_compute; split; [reflexivity|discriminate]|reflexivity|vm_compute; split; discriminate|vm_compute; discriminate|vm_compute; repeat constructor|exists out; split; [exact H1|exact H2]].
Defined.

Definition demo_ranges : list RangeSeries :=
  [mkRange row_acme [mkPoint 10 4607182418800017408; mkPoint 20 4607182418800017408]; mkRange row_anon [mkPoint 20 4611686018427387904]].
Lemma sum_range_is_sum_per_tick_witness :
  mkInstant (newOutputLabels (<["__name__" := "up"%string]> ∅)) 20 4613937818241073152 ∈ aggregateInstant (at_tick demo_ranges 20) ["__name__"%string] 20.
Proof.
  apply (sum_range_is_sum_per_tick demo_ranges ["__name__"%string] 20).
  - repeat constructor; vm_compute; reflexivity.
  - eexists. split; [vm_compute; left|]. split; vm_compute; [reflexivity|]. right. left.
Defined.

Lemma metadata_exact_witness : exists out, LabelNames demo_src None (mkFilter [mkSelector "up" []] 0 15 true) = Ok out /\ StronglySorted str_lt out.
Proof.
  destruct (metadata_exact demo_src None (db_of demo_rows) (mkFilter [mkSelector "up" []] 0 15 true) "job" demo_src_ok demo_rows_no_collision)
    as ((out & H1 & H2 & _) & _); [|exists out; split; [exact H1|exact H2]].
  intros l ws H. apply db_of_some in H; [|apply demo_rows_ok]. destruct demo_rows_ok as [_ Hwf]. rewrite Forall_forall in Hwf. apply (Hwf (l, ws) H).
Defined.
