(* ===== verification/Quorum.v ===== *)
(** * Quorum: routing writes to replicas and deciding a batch

    [internal/rpc/router.go] (a gateway's writes to ingesters) and
    [internal/rpc/replicated_sink.go] (an ingester's flushes to stores). Pushes run
    concurrently; what reaches the collector is a sequence of results in arrival
    order, and the theorems hold for every order. The network client, and
    [net/url] behind [MemberLabel], are parameters. *)
From S2P Require Import Prelude GoLib GoSort Chunk Labels Ring.

(** ** Errors, as [errors.Is] classifies them *)

(** A push's error: its identity, its classes, and how often it was wrapped in
    "rpc: write routing". *)
Record pushErr := mkErr { pe_id : Z; pe_limited : bool; pe_unavailable : bool; pe_canceled : bool; pe_wraps : nat }.
Definition wrap_routing (e : pushErr) : pushErr :=
  mkErr (pe_id e) (pe_limited e) (pe_unavailable e) (pe_canceled e) (S (pe_wraps e)).

(** The loop of [worst]: a protocol error returns at once. *)
Fixpoint worst_loop (errs : list pushErr) (limited unavailable canceled : option pushErr) : option pushErr :=
  match errs with
  | [] => match limited, unavailable with Some e, _ => Some e | None, Some e => Some e | None, None => canceled end
  | e :: rest =>
      if pe_limited e then worst_loop rest (Some e) unavailable canceled
      else if pe_unavailable e then worst_loop rest limited (Some e) canceled
      else if pe_canceled e then worst_loop rest limited unavailable (Some e)
      else Some (wrap_routing e)
  end.
Definition worst (errs : list pushErr) : option pushErr := worst_loop errs None None None.

(** [storeCause] puts a cancellation before an outage, and does not wrap. *)
Fixpoint cause_loop (errs : list pushErr) (limited unavailable canceled : option pushErr) : option pushErr :=
  match errs with
  | [] => match limited, canceled with Some e, _ => Some e | None, Some e => Some e | None, None => unavailable end
  | e :: rest =>
      if pe_limited e then cause_loop rest (Some e) unavailable canceled
      else if pe_unavailable e then cause_loop rest limited (Some e) canceled
      else if pe_canceled e then cause_loop rest limited unavailable (Some e)
      else Some e
  end.
Definition storeCause (errs : list pushErr) : option pushErr := cause_loop errs None None None.

Inductive outcome := OutOk | OutLimited | OutUnavailable | OutError.
Definition OutcomeOf (e : option pushErr) : outcome :=
  match e with
  | None => OutOk
  | Some e => if pe_limited e then OutLimited else if pe_unavailable e then OutUnavailable else OutError
  end.

(** [slices.Sort] then [slices.Compact]. *)
Fixpoint compact_from (prev : string) (l : list string) : list string :=
  match l with [] => [] | x :: r => if String.eqb x prev then compact_from prev r else x :: compact_from x r end.
Definition Compact (l : list string) : list string := match l with [] => [] | x :: r => x :: compact_from x r end.
Definition sort_compact (l : list string) : list string := Compact (sort_str id l).

(** [quorum] of [rf] replicas, and how many of them may fail. *)
Definition quorum (rf : nat) : nat := (rf / 2 + 1)%nat.
Definition max_fail (rf : nat) : nat := (rf - quorum rf)%nat.

Record QuorumError := mkQE { qe_Failed : nat; qe_Total : nat; qe_Quorum : nat; qe_RF : nat; qe_Ingesters : list string; qe_Cause : option pushErr }.
Inductive BatchOutcome := Full | Degraded | Failed.
Record BatchReport := mkReport { br_Outcome : BatchOutcome; br_Ingesters : list string; br_Err : option QuorumError; br_CallerGone : bool }.

(** ** The routing plan of a batch *)

Section routing.
Context {Item : Type} (key : Item -> Z) (route : Z -> result ringErr (list string)).

Record plan := mkPlan {
  keyIdx : gmap Z nat; replicasOf : list (list string);
  groups : gmap string (list Item); memberKeys : gmap string (list nat) }.
Definition empty_plan : plan := mkPlan ∅ [] ∅ ∅.

Definition push_group (it : Item) (g : gmap string (list Item)) (m : string) : gmap string (list Item) :=
  <[m := default [] (g !! m) ++ [it]]> g.
Definition push_key (ki : nat) (mk : gmap string (list nat)) (m : string) : gmap string (list nat) :=
  <[m := default [] (mk !! m) ++ [ki]]> mk.

(** One item: its key's replicas are looked up the first time the key is seen. *)
Definition plan_item (p : plan) (it : Item) : result ringErr plan :=
  match keyIdx p !! key it with
  | Some ki => Ok (mkPlan (keyIdx p) (replicasOf p) (fold_left (push_group it) (default [] (replicasOf p !! ki)) (groups p)) (memberKeys p))
  | None =>
      reps ← route (key it);
      let ki := length (replicasOf p) in
      Ok (mkPlan (<[key it := ki]> (keyIdx p)) (replicasOf p ++ [reps])
            (fold_left (push_group it) reps (groups p)) (fold_left (push_key ki) reps (memberKeys p)))
  end.
Fixpoint plan_batch (p : plan) (items : list Item) : result ringErr plan :=
  match items with [] => Ok p | it :: rest => p' ← plan_item p it; plan_batch p' rest end.
Definition make_plan (items : list Item) : result ringErr plan := plan_batch empty_plan items.
End routing.
Arguments plan : clear implicits.

(** ** The collector: all quorum state of one batch *)

Section collector.
Context (MemberLabel : string -> string) (rf : nat) (reps : list (list string)) (mkeys : string -> list nat).

Inductive decision := DOk | DQuorum (e : option QuorumError).
Record collector := mkColl {
  acks : list nat; fails : list (list pushErr); failedBy : list (list string);
  pending : Z; anyFailure : bool; answered : option decision }.
Definition new_collector : collector :=
  mkColl (replicate (length reps) 0%nat) (replicate (length reps) []) (replicate (length reps) [])
    (Z.of_nat (length reps)) false None.

Definition failed_keys (c : collector) : list nat :=
  filter (fun ki => (max_fail rf < length (default [] (fails c !! ki)))%nat) (seq 0 (length reps)).
Definition quorumErr (c : collector) : option QuorumError * nat :=
  match failed_keys c with
  | [] => (None, 0%nat)
  | fk =>
      let causes := omap (fun ki => worst (default [] (fails c !! ki))) fk in
      let culprits := fk ≫= fun ki => default [] (failedBy c !! ki) in
      (Some (mkQE (length fk) (length reps) (quorum rf) rf (sort_compact culprits) (worst causes)), length fk)
  end.

(** One key of a member's result; the flag is [keyFailed]. *)
Definition key_result (member : string) (err : option pushErr) (st : collector * bool) (ki : nat) : collector * bool :=
  let '(c, keyFailed) := st in
  match err with
  | Some e =>
      let fails' := alter (fun l => l ++ [e]) ki (fails c) in
      (mkColl (acks c) fails' (alter (fun l => l ++ [MemberLabel member]) ki (failedBy c)) (pending c) (anyFailure c) (answered c),
       keyFailed || bool_decide (length (default [] (fails' !! ki)) = S (max_fail rf)))
  | None =>
      let acks' := alter S ki (acks c) in
      (mkColl acks' (fails c) (failedBy c)
         (if decide (acks' !! ki = Some (quorum rf)) then pending c - 1 else pending c) (anyFailure c) (answered c), keyFailed)
  end.
Definition set_answered (c : collector) (d : decision) : collector :=
  mkColl (acks c) (fails c) (failedBy c) (pending c) (anyFailure c) (Some d).
Definition set_failure (c : collector) (b : bool) : collector :=
  mkColl (acks c) (fails c) (failedBy c) (pending c) b (answered c).
Definition take_result (c : collector) (r : string * option pushErr) : collector :=
  let c := set_failure c (anyFailure c || bool_decide (is_Some r.2)) in
  let '(c, keyFailed) := fold_left (key_result r.1 r.2) (mkeys r.1) (c, false) in
  match answered c with
  | Some _ => c
  | None =>
      if keyFailed then set_answered c (DQuorum (quorumErr c).1)
      else if pending c =? 0 then set_answered c DOk
      else c
  end.
Definition collect_results (results : list (string * option pushErr)) : collector := fold_left take_result results new_collector.

Definition batch_report (c : collector) (callerGone : bool) : BatchReport :=
  let ingesters := sort_compact (concat (failedBy c)) in
  match quorumErr c with
  | (qe, S _) => mkReport Failed ingesters qe callerGone
  | (_, O) => mkReport (if anyFailure c then Degraded else Full) ingesters None callerGone
  end.
End collector.

(** ** Stamping a batch *)

Record PendingSample := mkPending { ps_Labels : Labels; ps_ts : Z; ps_val : Z; ps_gen : Z }.
Definition sample_key (s : PendingSample) : Z * Z := (Hash (ps_Labels s), ps_ts s).
Definition lastWritePerSample (samples : list PendingSample) : list PendingSample :=
  let last := fold_left (fun m e => <[sample_key e.2 := e.1]> m) (imap pair samples) (∅ : gmap (Z * Z) nat) in
  (filter (fun e : nat * PendingSample => last !! sample_key e.2 = Some e.1) (imap pair samples)).*2.
(** The clock reads [now]; the addition wraps as int64 does. *)
Definition stamp (nextGen now : Z) (samples : list PendingSample) : list PendingSample * Z :=
  let gen := Z.max nextGen now in
  ((fun s => mkPending (ps_Labels s) (ps_ts s) (ps_val s) gen) <$> samples, i64 (gen + 1)).

(** ** Answering a batch *)

Inductive routeErr := RouteCaller (e : Z) | RouteRing (e : ringErr) | RouteClosed | RouteQuorum (e : option QuorumError) | RouteUndecided.

(** [replicate]: [ctxErr] is the caller's context error on entry, [closed] the
    router's flag when the batch is admitted, [results] the pushes' outcomes in
    arrival order, and [left] the context error of a caller that leaves before
    the decision. *)
Definition replicate_batch {Item} (MemberLabel : string -> string) (route : Z -> result ringErr (list string)) (rf : nat)
  (key : Item -> Z) (items : list Item) (ctxErr : option Z) (closed : bool) (results : list (string * option pushErr)) (left : option Z)
  : result routeErr unit :=
  match ctxErr with
  | Some e => Err (RouteCaller e)
  | None =>
      match make_plan key route items with
      | Err e => Err (RouteRing e)
      | Ok p =>
          if decide (groups p = ∅) then Ok tt else
          if closed then Err RouteClosed else
          let c := collect_results MemberLabel rf (replicasOf p) (fun m => default [] (memberKeys p !! m)) results in
          match left, answered c with
          | Some e, _ => Err (RouteCaller e)
          | None, Some DOk => Ok tt
          | None, Some (DQuorum qe) => Err (RouteQuorum qe)
          | None, None => Err RouteUndecided
          end
      end
  end.

(** ** Flushing a batch to the stores *)

Inductive flushErr := FlushRing (e : ringErr) | FlushEncode (e : Z)
  | FlushQuorum (failed total need rf : nat) (stores : list string) (cause : option pushErr).

Section flush.
Context (MemberLabel : string -> string) (route : Z -> result ringErr (list string)) (rf : nat).

Fixpoint route_keys (keys : list Z) : result ringErr (list (list string)) :=
  match keys with [] => Ok [] | k :: rest => reps ← route k; out ← route_keys rest; Ok (reps :: out) end.
Definition owned_by (replicas : list (list string)) : gmap string (list nat) :=
  fold_left (fun o e => fold_left (push_key e.1) e.2 o) (imap pair replicas) ∅.

(** [body] encodes the part of one store; [send] is a store's answer to it. *)
Fixpoint encode_all (body : list nat -> result Z (list Z)) (owned : list (string * list nat)) : result Z (list (string * list Z)) :=
  match owned with [] => Ok [] | (s, idx) :: rest => b ← body idx; out ← encode_all body rest; Ok ((s, b) :: out) end.

Definition key_acks (failed : gmap string (list Z * pushErr)) (reps : list string) : nat :=
  length (filter (fun s => failed !! s = None) reps).

(** The result, the batch outcome observed, and what is queued for stragglers. *)
Definition replicateFlush (requireAll : bool) (keys : list Z) (body : list nat -> result Z (list Z)) (send : string -> list Z -> option pushErr)
  : result flushErr unit * option BatchOutcome * list (string * list Z) :=
  match route_keys keys with
  | Err e => (Err (FlushRing e), None, [])
  | Ok replicas =>
      match encode_all body (map_to_list (owned_by replicas)) with
      | Err e => (Err (FlushEncode e), None, [])
      | Ok bodies =>
          let failed : gmap string (list Z * pushErr) :=
            fold_left (fun f sb => match send sb.1 sb.2 with Some e => <[sb.1 := (sb.2, e)]> f | None => f end) bodies ∅ in
          let need := if requireAll then rf else quorum rf in
          let failedKeys := length (filter (fun reps => (key_acks failed reps < need)%nat) replicas) in
          let bad := concat replicas ≫= fun s => match failed !! s with Some be => [(s, be.2)] | None => [] end in
          if decide (failedKeys = 0%nat) then
            (Ok tt, Some (if decide (failed = ∅) then Full else Degraded), (fun e : string * (list Z * pushErr) => (e.1, e.2.1)) <$> map_to_list failed)
          else
            (Err (FlushQuorum failedKeys (length keys) need rf (sort_compact (MemberLabel <$> bad.*1)) (storeCause bad.*2)), Some Failed, [])
      end
  end.
End flush.

(** ** The collector decides what the results say, in whatever order they arrive *)

Definition ack_n (done_ : list (string * option pushErr)) (r : list string) : nat :=
  length (filter (fun x => x.1 ∈ r /\ x.2 = None) done_).
Definition fail_n (done_ : list (string * option pushErr)) (r : list string) : nat :=
  length (filter (fun x => x.1 ∈ r /\ is_Some x.2) done_).

Definition short_of (need : nat) (l : list nat) : Z := Z.of_nat (length (filter (fun a => (a < need)%nat) l)).

Lemma short_of_alter need l ki : (0 < need)%nat ->
  short_of need (alter S ki l) = if decide (alter S ki l !! ki = Some need) then short_of need l - 1 else short_of need l.
Proof.
  intros Hn. unfold short_of. revert ki. induction l as [|a l IH]; intros ki; [by destruct ki|]. destruct ki as [|ki].
  - change (alter S 0%nat (a :: l)) with (S a :: l). cbn [lookup list_lookup]. rewrite !filter_cons.
    destruct (decide (Some (S a) = Some need)) as [E|E].
    + injection E as E. rewrite decide_False by lia. rewrite decide_True by lia. cbn [length]. lia.
    + destruct (decide (S a < need)%nat); [rewrite decide_True by lia; done|]. rewrite decide_False; [done|].
      intros Hlt. apply E. f_equal. lia.
  - change (alter S (S ki) (a :: l)) with (a :: alter S ki l). rewrite !filter_cons. specialize (IH ki). cbn [lookup list_lookup].
    destruct (decide (a < need)%nat); cbn [length]; destruct (decide _); lia.
Qed.

(** Once every replica has answered, the acknowledgements and failures of a key
    add up to its replicas. *)
Lemma complete_n results r : NoDup results.*1 -> NoDup r -> (forall m, m ∈ r -> m ∈ results.*1) -> (ack_n results r + fail_n results r)%nat = length r.
Proof.
  intros Hnd Hr Hin. unfold ack_n, fail_n.
  transitivity (length (filter (fun x : string * option pushErr => x.1 ∈ r) results)).
  - clear Hnd Hin. induction results as [|[m o] l IH]; [done|]. rewrite !filter_cons. cbn [fst snd].
    destruct o as [e1|].
    + rewrite (decide_False (P := m ∈ r /\ Some e1 = None)) by (intros [_ ?]; done).
      destruct (decide (m ∈ r)); [rewrite decide_True by (split; [done|by eexists])|rewrite decide_False by tauto]; cbn [length]; lia.
    + rewrite (decide_False (P := m ∈ r /\ is_Some None)) by (intros [_ [? ?]]; done).
      destruct (decide (m ∈ r)); [rewrite decide_True by done|rewrite decide_False by tauto]; cbn [length]; lia.
  - assert (Hp : (filter (fun x : string * option pushErr => x.1 ∈ r) results).*1 ≡ₚ r).
    { apply NoDup_Permutation; [|done|].
      - eapply sublist_NoDup; [exact Hnd|]. apply fmap_sublist, sublist_filter.
      - intros m. rewrite list_elem_of_fmap. split.
        + intros (x & -> & [Hx _]%list_elem_of_filter). done.
        + intros Hm. pose proof (Hin m Hm) as (x & -> & Hx)%list_elem_of_fmap. exists x. split; [done|]. by apply list_elem_of_filter. }
    by rewrite <- (Permutation_length Hp), length_fmap.
Qed.

Section decision.
Context (MemberLabel : string -> string) (rf : nat) (reps : list (list string)) (mkeys : string -> list nat).
Context (Hrf : (1 <= rf)%nat).
Context (Hreps : Forall (fun r => length r = rf /\ NoDup r) reps).
Context (Hmk : forall m ki, ki ∈ mkeys m <-> exists r, reps !! ki = Some r /\ m ∈ r) (Hmknd : forall m, NoDup (mkeys m)).

Notation key_result := (key_result MemberLabel rf).
Notation take_result := (take_result MemberLabel rf reps mkeys).
Notation quorumErr := (quorumErr rf reps).

Lemma quorum_pos : (0 < quorum rf)%nat /\ (quorum rf + max_fail rf = rf)%nat.
Proof. unfold max_fail, quorum. pose proof (Nat.div_le_upper_bound rf 2 (rf - 1)). split; [lia|]. assert (rf / 2 < rf)%nat by (apply Nat.div_lt; lia). lia. Qed.

Definition sync (c : collector) : Prop := pending c = short_of (quorum rf) (acks c).

Lemma key_fold_ok m kis c b : NoDup kis -> sync c ->
  let st := fold_left (key_result m None) kis (c, b) in
  sync st.1 /\ fails st.1 = fails c /\ failedBy st.1 = failedBy c /\ answered st.1 = answered c /\ anyFailure st.1 = anyFailure c /\ st.2 = b /\
  forall ki, acks st.1 !! ki = if decide (ki ∈ kis) then S <$> acks c !! ki else acks c !! ki.
Proof.
  revert c. induction kis as [|k kis IH]; intros c Hnd Hs; cbn [fold_left]; [done|]. apply NoDup_cons in Hnd as [Hk Hnd].
  set (c1 := (key_result m None (c, b) k).1). assert (Hc1 : key_result m None (c, b) k = (c1, b)) by done. rewrite Hc1.
  assert (Hs1 : sync c1).
  { unfold sync, c1. cbn. rewrite Hs. symmetry. apply short_of_alter, quorum_pos. }
  destruct (IH c1 Hnd Hs1) as (J1 & J2 & J3 & J4 & J5 & J6 & J7). split_and!; try done.
  intros ki. rewrite J7. unfold c1. cbn. destruct (decide (ki = k)) as [->|Hne].
  - rewrite decide_False by done. rewrite decide_True by (by left). apply list_lookup_alter_eq.
  - rewrite list_lookup_alter_ne by done. apply decide_ext. rewrite elem_of_cons. naive_solver.
Qed.

Lemma key_fold_err m e kis c b : NoDup kis ->
  let st := fold_left (key_result m (Some e)) kis (c, b) in
  acks st.1 = acks c /\ pending st.1 = pending c /\ answered st.1 = answered c /\ anyFailure st.1 = anyFailure c /\
  (forall ki, fails st.1 !! ki = if decide (ki ∈ kis) then (fun l => l ++ [e]) <$> fails c !! ki else fails c !! ki) /\
  (st.2 = true <-> b = true \/ exists ki, ki ∈ kis /\ length (default [] ((fun l => l ++ [e]) <$> fails c !! ki)) = S (max_fail rf)).
Proof.
  revert c b. induction kis as [|k kis IH]; intros c b Hnd; cbn [fold_left].
  { split_and!; try done. cbn. split; [by left|]. by intros [?|(ki & []%not_elem_of_nil & _)]. }
  apply NoDup_cons in Hnd as [Hk Hnd]. destruct (key_result m (Some e) (c, b) k) as [c1 b1] eqn:E1. injection E1 as <- <-.
  match goal with |- context [fold_left _ kis (?x, ?y)] => destruct (IH x y Hnd) as (J1 & J2 & J3 & J4 & J5 & J6) end.
  cbn [acks pending answered anyFailure fails] in *. split_and!; try done.
  - intros ki. rewrite J5. destruct (decide (ki = k)) as [->|Hne].
    + rewrite decide_False by done. rewrite decide_True by (by left). apply list_lookup_alter_eq.
    + rewrite list_lookup_alter_ne by done. apply decide_ext. rewrite elem_of_cons. naive_solver.
  - rewrite J6, orb_true_iff, bool_decide_eq_true. setoid_rewrite elem_of_cons. rewrite list_lookup_alter_eq. split.
    + intros [[?|?]|(ki & Hki & Hl)]; [by left|right; exists k; auto|right; exists ki; split; [by right|]].
      rewrite list_lookup_alter_ne in Hl; [done|]. by intros ->.
    + intros [?|(ki & [->|Hki] & Hl)]; [auto|auto|]. right. exists ki. split; [done|]. rewrite list_lookup_alter_ne; [done|]. by intros ->.
Qed.

(** What the collector's counters mean after the results [done_]. *)
Record counts (done_ : list (string * option pushErr)) (c : collector) : Prop := {
  ct_acks : forall ki r, reps !! ki = Some r -> acks c !! ki = Some (ack_n done_ r);
  ct_fails : forall ki r, reps !! ki = Some r -> exists es, fails c !! ki = Some es /\ length es = fail_n done_ r;
  ct_len : length (acks c) = length reps;
  ct_sync : sync c;
  ct_any : anyFailure c = true <-> exists x, x ∈ done_ /\ is_Some x.2 }.

(** What has been answered. *)
Definition answer_ok (done_ : list (string * option pushErr)) (c : collector) : Prop :=
  match answered c with
  | None => Forall (fun r => (fail_n done_ r <= max_fail rf)%nat) reps /\ (done_ = [] \/ pending c <> 0)
  | Some DOk => pending c = 0
  | Some (DQuorum qe) => Exists (fun r => (max_fail rf < fail_n done_ r)%nat) reps /\
      exists e, qe = Some e /\ (0 < qe_Failed e)%nat /\ qe_Quorum e = quorum rf /\ qe_Total e = length reps
  end.

Lemma ack_n_snoc done_ x r : ack_n (done_ ++ [x]) r = (ack_n done_ r + if decide (x.1 ∈ r /\ x.2 = None) then 1 else 0)%nat.
Proof. unfold ack_n. rewrite filter_app, length_app, filter_cons, filter_nil. by destruct (decide _). Qed.
Lemma fail_n_snoc done_ x r : fail_n (done_ ++ [x]) r = (fail_n done_ r + if decide (x.1 ∈ r /\ is_Some x.2) then 1 else 0)%nat.
Proof. unfold fail_n. rewrite filter_app, length_app, filter_cons, filter_nil. by destruct (decide _). Qed.

Lemma in_mkeys m ki r : reps !! ki = Some r -> ki ∈ mkeys m <-> m ∈ r.
Proof. intros E. rewrite Hmk. split; [intros (r' & E' & Hm); by simplify_eq|intros Hm; by exists r]. Qed.

Lemma failed_keys_spec done_ c ki : counts done_ c ->
  ki ∈ failed_keys rf reps c <-> exists r, reps !! ki = Some r /\ (max_fail rf < fail_n done_ r)%nat.
Proof.
  intros Hc. unfold failed_keys. rewrite list_elem_of_filter, elem_of_seq. split.
  - intros [Hlt Hk]. destruct (lookup_lt_is_Some_2 reps ki) as [r Er]; [lia|]. exists r. split; [done|].
    destruct (ct_fails _ _ Hc _ _ Er) as (es & Es & El). rewrite Es in Hlt. cbn in Hlt. lia.
  - intros (r & Er & Hlt). destruct (ct_fails _ _ Hc _ _ Er) as (es & Es & El). rewrite Es. cbn. apply lookup_lt_Some in Er. lia.
Qed.

Lemma quorumErr_spec done_ c : counts done_ c ->
  match quorumErr c with
  | (None, O) => Forall (fun r => (fail_n done_ r <= max_fail rf)%nat) reps
  | (Some e, S n) => Exists (fun r => (max_fail rf < fail_n done_ r)%nat) reps /\ qe_Failed e = S n /\ qe_Quorum e = quorum rf /\ qe_Total e = length reps
  | _ => False
  end.
Proof.
  intros Hc. unfold Quorum.quorumErr. destruct (failed_keys rf reps c) as [|k fk] eqn:E.
  - apply Forall_forall. intros r Hr. apply list_elem_of_lookup in Hr as [ki Er]. destruct (le_lt_dec (fail_n done_ r) (max_fail rf)); [done|].
    exfalso. apply (not_elem_of_nil (A := nat) ki). rewrite <- E. apply (failed_keys_spec _ _ _ Hc). by exists r.
  - split; [|done]. assert (Hk : k ∈ failed_keys rf reps c) by (rewrite E; by left). apply (failed_keys_spec _ _ _ Hc) in Hk as (r & Er & Hlt).
    apply Exists_exists. exists r. split; [by eapply list_elem_of_lookup_2|done].
Qed.

Lemma counts_step done_ c x : counts done_ c -> 
  let st := fold_left (key_result x.1 x.2) (mkeys x.1) (set_failure c (anyFailure c || bool_decide (is_Some x.2)), false) in
  counts (done_ ++ [x]) st.1 /\ answered st.1 = answered c /\
  (st.2 = true <-> is_Some x.2 /\ exists r, r ∈ reps /\ x.1 ∈ r /\ fail_n (done_ ++ [x]) r = S (max_fail rf)).
Proof.
  intros Hc. destruct x as [m o]. cbn [fst snd]. set (c0 := set_failure c _).
  assert (Hany : anyFailure c0 = true <-> exists x, x ∈ done_ ++ [(m, o)] /\ is_Some x.2).
  { cbn. rewrite orb_true_iff, bool_decide_eq_true, (ct_any _ _ Hc). setoid_rewrite elem_of_app. setoid_rewrite list_elem_of_singleton. naive_solver. }
  destruct o as [e|].
  - destruct (key_fold_err m e (mkeys m) c0 false (Hmknd m)) as (J1 & J2 & J3 & J4 & J5 & J6).
    set (st := fold_left _ (mkeys m) (c0, false)) in *. split; [|split; [done|]].
    + split.
      * intros ki r Er. rewrite J1, ack_n_snoc. cbn [fst snd]. rewrite decide_False by naive_solver. rewrite Nat.add_0_r. by apply (ct_acks _ _ Hc).
      * intros ki r Er. destruct (ct_fails _ _ Hc _ _ Er) as (es & Es & El). rewrite J5, fail_n_snoc. cbn [fst snd].
        change (fails c0) with (fails c). rewrite Es. destruct (decide (ki ∈ mkeys m)) as [Hin|Hin]; rewrite (in_mkeys _ _ _ Er) in Hin.
        -- exists (es ++ [e]). split; [done|]. rewrite length_app, decide_True by (split; [done|by eexists]). cbn. lia.
        -- exists es. split; [done|]. rewrite decide_False by tauto. lia.
      * rewrite J1. apply (ct_len _ _ Hc).
      * unfold sync. rewrite J1, J2. apply (ct_sync _ _ Hc).
      * by rewrite J4.
    + rewrite J6. split.
      * intros [?|(ki & Hki & Hl)]; [done|]. split; [by eexists|]. apply Hmk in Hki as (r & Er & Hm). exists r. split; [by eapply list_elem_of_lookup_2|].
        split; [done|]. destruct (ct_fails _ _ Hc _ _ Er) as (es & Es & El). change (fails c0) with (fails c) in Hl. rewrite Es in Hl. cbn in Hl.
        rewrite length_app in Hl. cbn in Hl. rewrite fail_n_snoc. cbn [fst snd]. rewrite decide_True by (split; [done|by eexists]). lia.
      * intros (_ & r & Hr & Hm & Hf). right. apply list_elem_of_lookup in Hr as [ki Er]. exists ki. split; [by apply (in_mkeys m ki r)|].
        destruct (ct_fails _ _ Hc _ _ Er) as (es & Es & El). change (fails c0) with (fails c). rewrite Es. cbn. rewrite length_app. cbn.
        rewrite fail_n_snoc in Hf. cbn [fst snd] in Hf. rewrite decide_True in Hf by (split; [done|by eexists]). lia.
  - destruct (key_fold_ok m (mkeys m) c0 false (Hmknd m) (ct_sync _ _ Hc)) as (J1 & J2 & J3 & J4 & J5 & J6 & J7).
    set (st := fold_left _ (mkeys m) (c0, false)) in *. split; [|split; [done|]].
    + split.
      * intros ki r Er. rewrite J7, ack_n_snoc. cbn [fst snd]. change (acks c0) with (acks c). rewrite (ct_acks _ _ Hc _ _ Er).
        destruct (decide (ki ∈ mkeys m)) as [Hin|Hin]; rewrite (in_mkeys _ _ _ Er) in Hin.
        -- rewrite decide_True by done. cbn. f_equal. lia.
        -- rewrite decide_False by tauto. f_equal. lia.
      * intros ki r Er. rewrite J2, fail_n_snoc. cbn [fst snd]. rewrite decide_False by (intros [_ [? ?]]; done). rewrite Nat.add_0_r.
        by apply (ct_fails _ _ Hc).
      * assert (Hl : forall ki, is_Some (acks st.1 !! ki) <-> is_Some (acks c !! ki)).
        { intros ki. rewrite J7. destruct (decide _); [by rewrite fmap_is_Some|done]. }
        setoid_rewrite lookup_lt_is_Some in Hl. pose proof (ct_len _ _ Hc). pose proof (Hl (length (acks st.1))). pose proof (Hl (length (acks c))). lia.
      * done.
      * by rewrite J5.
    + rewrite J6. split; [done|]. by intros [[? ?] _].
Qed.

Lemma take_result_spec done_ c x : counts done_ c -> answer_ok done_ c ->
  counts (done_ ++ [x]) (take_result c x) /\ answer_ok (done_ ++ [x]) (take_result c x).
Proof.
  intros Hc Ha. destruct (counts_step done_ c x Hc) as (Hc' & Hans & Hkf). unfold Quorum.take_result.
  destruct (fold_left _ (mkeys x.1) _) as [c' kf] eqn:Ef. cbn [fst snd] in *.
  assert (Hset : forall d, counts (done_ ++ [x]) (set_answered c' d)) by (intros d; destruct Hc'; by split).
  assert (Hmono : forall r, (fail_n done_ r <= fail_n (done_ ++ [x]) r)%nat) by (intros r; rewrite fail_n_snoc; lia).
  unfold answer_ok in Ha. rewrite Hans. destruct (answered c) as [[|qe]|] eqn:Ea.
  - split; [done|]. unfold answer_ok. rewrite Hans. rewrite (ct_sync _ _ Hc'). rewrite (ct_sync _ _ Hc) in Ha. unfold short_of in *.
    assert (Hnil : filter (fun a => (a < quorum rf)%nat) (acks c) = []) by (apply length_zero_iff_nil; lia).
    assert (Hnil' : filter (fun a => (a < quorum rf)%nat) (acks c') = []); [|by rewrite Hnil'].
    apply elem_of_nil_inv. intros a Hin. apply list_elem_of_filter in Hin as [Hlt Hin].
    apply list_elem_of_lookup in Hin as [ki Ea']. pose proof (lookup_lt_Some _ _ _ Ea') as Hki. rewrite (ct_len _ _ Hc') in Hki.
    destruct (lookup_lt_is_Some_2 reps ki Hki) as [r Er]. rewrite (ct_acks _ _ Hc' _ _ Er) in Ea'. injection Ea' as <-.
    apply (not_elem_of_nil (ack_n done_ r)). rewrite <- Hnil. apply list_elem_of_filter. rewrite ack_n_snoc in Hlt. split; [lia|].
    eapply list_elem_of_lookup_2, (ct_acks _ _ Hc _ _ Er).
  - split; [done|]. unfold answer_ok. rewrite Hans. destruct Ha as [Hex Hq]. split; [|done]. eapply Exists_impl; [exact Hex|]. cbn. intros r Hr. specialize (Hmono r). lia.
  - destruct Ha as [Hall Hpend]. destruct kf.
    + split; [apply Hset|]. unfold answer_ok. cbn [answered set_answered]. pose proof (quorumErr_spec _ _ Hc') as Hq.
      destruct (proj1 Hkf eq_refl) as (_ & r & Hr & _ & Hf). destruct (quorumErr c') as [[e|] [|n]]; try done.
      * destruct Hq as (Hex & H1 & H2 & H3). split; [done|]. exists e. split_and!; [done|cbn in H1; lia|done|done].
      * exfalso. rewrite Forall_forall in Hq. specialize (Hq r Hr). lia.
    + assert (Hall' : Forall (fun r => (fail_n (done_ ++ [x]) r <= max_fail rf)%nat) reps).
      { apply Forall_forall. intros r Hr. rewrite Forall_forall in Hall. specialize (Hall r Hr). rewrite fail_n_snoc.
        destruct (decide (x.1 ∈ r /\ is_Some x.2)) as [[Hm Hsome]|]; [|lia]. destruct (Nat.eq_dec (fail_n done_ r) (max_fail rf)) as [E|]; [|lia].
        exfalso. assert (false = true); [|done]. apply Hkf. split; [done|]. exists r. split_and!; [done..|]. rewrite fail_n_snoc, decide_True by done. lia. }
      destruct (Z.eqb_spec (pending c') 0) as [E|E].
      * split; [apply Hset|]. done.
      * split; [done|]. unfold answer_ok. rewrite Hans. split; [done|by right].
Qed.

Lemma new_collector_spec : counts [] (new_collector reps) /\ answer_ok [] (new_collector reps).
Proof.
  split; [split|].
  - intros ki r Er. cbn. apply lookup_lt_Some in Er. by apply lookup_replicate_2.
  - intros ki r Er. exists []. split; [|done]. cbn. apply lookup_lt_Some in Er. by apply lookup_replicate_2.
  - cbn. apply length_replicate.
  - unfold sync, short_of. cbn [new_collector pending acks]. f_equal. induction (length reps) as [|n IH]; [done|]. cbn [replicate].
    rewrite filter_cons_True by apply quorum_pos. cbn. by f_equal.
  - split; [done|]. by intros (x & []%not_elem_of_nil & _).
  - split; [|by left]. apply Forall_forall. intros r _. unfold fail_n. cbn. lia.
Qed.

Lemma collect_spec results :
  let c := collect_results MemberLabel rf reps mkeys results in counts results c /\ answer_ok results c.
Proof.
  induction results as [|x results IH] using rev_ind; [apply new_collector_spec|]. cbn zeta. unfold collect_results. rewrite fold_left_app.
  apply take_result_spec; apply IH.
Qed.

Lemma collect_decides results : reps <> [] -> results <> [] -> NoDup results.*1 -> (forall r m, r ∈ reps -> m ∈ r -> m ∈ results.*1) ->
  match answered (collect_results MemberLabel rf reps mkeys results) with
  | Some DOk => Forall (fun r => (quorum rf <= ack_n results r)%nat) reps
  | Some (DQuorum qe) => Exists (fun r => (ack_n results r < quorum rf)%nat) reps /\
      exists e, qe = Some e /\ (0 < qe_Failed e)%nat /\ qe_Quorum e = quorum rf /\ qe_Total e = length reps
  | None => False
  end.
Proof.
  intros Hne Hres Hnd Hcov. destruct (collect_spec results) as [Hc Ha]. set (c := collect_results _ _ _ _ results) in *. unfold answer_ok in Ha.
  destruct quorum_pos as [Hq Hqm]. rewrite Forall_forall in Hreps.
  assert (Hsum : forall r, r ∈ reps -> (ack_n results r + fail_n results r)%nat = rf).
  { intros r Hr. destruct (Hreps r Hr) as [<- Hndr]. apply complete_n; [done|done|]. intros m Hm. by apply (Hcov r). }
  assert (Hacks : pending c = 0 <-> Forall (fun r => (quorum rf <= ack_n results r)%nat) reps).
  { rewrite (ct_sync _ _ Hc). unfold short_of. split.
    - intros Hp. assert (Hnil : filter (fun a => (a < quorum rf)%nat) (acks c) = []) by (apply length_zero_iff_nil; lia).
      apply Forall_forall. intros r Hr. apply list_elem_of_lookup in Hr as [ki Er]. destruct (le_lt_dec (quorum rf) (ack_n results r)); [done|].
      exfalso. apply (not_elem_of_nil (ack_n results r)). rewrite <- Hnil. apply list_elem_of_filter. split; [done|].
      eapply list_elem_of_lookup_2, (ct_acks _ _ Hc _ _ Er).
    - intros HF. assert (filter (fun a => (a < quorum rf)%nat) (acks c) = []) as ->; [|done]. apply elem_of_nil_inv. intros a [Hlt Hin]%list_elem_of_filter.
      apply list_elem_of_lookup in Hin as [ki Ea]. pose proof (lookup_lt_Some _ _ _ Ea) as Hki. rewrite (ct_len _ _ Hc) in Hki.
      destruct (lookup_lt_is_Some_2 reps ki Hki) as [r Er]. rewrite (ct_acks _ _ Hc _ _ Er) in Ea. injection Ea as <-.
      rewrite Forall_forall in HF. pose proof (HF r (list_elem_of_lookup_2 _ _ _ Er)). lia. }
  destruct (answered c) as [[|qe]|].
  - by apply Hacks.
  - destruct Ha as [Hex He]. split; [|done]. apply Exists_exists in Hex as (r & Hr & Hf). apply Exists_exists. exists r. split; [done|].
    pose proof (Hsum r Hr). lia.
  - destruct Ha as [Hall [|Hp]]; [done|]. apply Hp, Hacks. apply Forall_forall. intros r Hr. rewrite Forall_forall in Hall.
    pose proof (Hall r Hr). pose proof (Hsum r Hr). lia.
Qed.
End decision.

(** ** The plan routes every item to its replicas *)

Definition push_to {A} (x : A) (g : gmap string (list A)) (m : string) : gmap string (list A) := <[m := default [] (g !! m) ++ [x]]> g.

Lemma push_all {A} (x : A) ms g m : NoDup ms ->
  fold_left (push_to x) ms g !! m = if decide (m ∈ ms) then Some (default [] (g !! m) ++ [x]) else g !! m.
Proof.
  revert g. induction ms as [|y ms IH]; intros g Hnd; cbn [fold_left]; [done|]. apply NoDup_cons in Hnd as [Hy Hnd]. rewrite IH by done.
  unfold push_to. destruct (decide (m = y)) as [->|Hne].
  - rewrite decide_False by done. rewrite decide_True by (by left). apply lookup_insert_eq.
  - rewrite lookup_insert_ne by done. apply decide_ext. rewrite elem_of_cons. naive_solver.
Qed.

Section plan.
Context {Item : Type} (key : Item -> Z) (route : Z -> result ringErr (list string)) (rf : nat) (ms : list string).
Context `{Hroute : !Routes route rf ms}.

Definition replicas_of (k : Z) : list string := match route k with Ok r => r | Err _ => [] end.
Lemma replicas_of_spec k : route k = Ok (replicas_of k) /\ length (replicas_of k) = rf /\ NoDup (replicas_of k).
Proof. unfold replicas_of. destruct (route_spec k) as (out & -> & H1 & H2 & _). done. Qed.

Record plan_ok (its : list Item) (p : plan Item) : Prop := {
  po_idx : forall k ki, keyIdx p !! k = Some ki -> replicasOf p !! ki = Some (replicas_of k);
  po_keys : forall k, is_Some (keyIdx p !! k) <-> k ∈ key <$> its;
  po_back : forall ki r, replicasOf p !! ki = Some r -> exists k, k ∈ key <$> its /\ r = replicas_of k;
  po_groups : forall m, default [] (groups p !! m) = filter (fun it => m ∈ replicas_of (key it)) its;
  po_full : forall m l, groups p !! m = Some l -> l <> [];
  po_mkeys : forall m ki, ki ∈ default [] (memberKeys p !! m) <-> exists r, replicasOf p !! ki = Some r /\ m ∈ r;
  po_mnodup : forall m, NoDup (default [] (memberKeys p !! m)) }.

Lemma push_group_ok (it : Item) (reps : list string) (g : gmap string (list Item)) m : NoDup reps ->
  default [] (fold_left (push_group it) reps g !! m) = default [] (g !! m) ++ (if decide (m ∈ reps) then [it] else []) /\
  (forall l, fold_left (push_group it) reps g !! m = Some l -> l <> [] \/ g !! m = Some l).
Proof.
  intros Hnd. change (push_group it) with (push_to (A := Item) it). rewrite push_all by done. destruct (decide (m ∈ reps)).
  - split; [done|]. intros l [= <-]. left. by destruct (default [] (g !! m)).
  - rewrite app_nil_r. split; [done|]. intros l. by right.
Qed.

Lemma plan_item_ok its p it : plan_ok its p -> exists p', plan_item key route p it = Ok p' /\ plan_ok (its ++ [it]) p'.
Proof.
  intros Hp. destruct (replicas_of_spec (key it)) as (Hr & Hlen & Hnd). unfold plan_item.
  assert (Hgr : forall m, filter (fun it => m ∈ replicas_of (key it)) (its ++ [it]) = default [] (groups p !! m) ++ (if decide (m ∈ replicas_of (key it)) then [it] else [])).
  { intros m. rewrite filter_app, filter_cons, filter_nil, (po_groups _ _ Hp). by destruct (decide _). }
  destruct (keyIdx p !! key it) as [ki|] eqn:Ek.
  - eexists. split; [reflexivity|]. rewrite (po_idx _ _ Hp _ _ Ek). cbn [default from_option id]. split; cbn [keyIdx replicasOf groups memberKeys].
    + apply (po_idx _ _ Hp).
    + intros k. rewrite (po_keys _ _ Hp), fmap_app, elem_of_app. cbn. rewrite list_elem_of_singleton. split; [by left|]. intros [?| ->]; [done|].
      apply (po_keys _ _ Hp). by eexists.
    + intros i r E. destruct (po_back _ _ Hp _ _ E) as (k & Hk & ->). exists k. split; [|done]. rewrite fmap_app. apply elem_of_app. by left.
    + intros m. rewrite Hgr. by apply push_group_ok.
    + intros m l E. destruct (proj2 (push_group_ok it (replicas_of (key it)) (groups p) m Hnd) l E) as [?|E']; [done|]. by eapply (po_full _ _ Hp).
    + apply (po_mkeys _ _ Hp).
    + apply (po_mnodup _ _ Hp).
  - rewrite Hr. cbn [mbind result_bind]. eexists. split; [reflexivity|]. set (n := length (replicasOf p)).
    assert (Hnew : forall ki r, (replicasOf p ++ [replicas_of (key it)]) !! ki = Some r <-> replicasOf p !! ki = Some r \/ ki = n /\ r = replicas_of (key it)).
    { intros ki r. rewrite lookup_app_Some. split.
      - intros [?|[Hge E]]; [by left|right]. destruct (ki - length (replicasOf p))%nat as [|j] eqn:Ej; [|done]. cbn in E. injection E as <-.
        unfold n. split; [lia|done].
      - intros [?|[-> ->]]; [by left|right]. unfold n. split; [lia|]. by rewrite Nat.sub_diag. }
    split; cbn [keyIdx replicasOf groups memberKeys].
    + intros k ki. destruct (decide (k = key it)) as [->|Hne].
      * rewrite lookup_insert_eq. intros [= <-]. apply Hnew. by right.
      * rewrite lookup_insert_ne by done. intros E. apply Hnew. left. by apply (po_idx _ _ Hp).
    + intros k. rewrite fmap_app, elem_of_app. cbn. rewrite list_elem_of_singleton. destruct (decide (k = key it)) as [->|Hne].
      * rewrite lookup_insert_eq. split; [by right|by eexists].
      * rewrite lookup_insert_ne by done. rewrite (po_keys _ _ Hp). naive_solver.
    + intros ki r [E|[-> ->]]%Hnew.
      * destruct (po_back _ _ Hp _ _ E) as (k & Hk & ->). exists k. split; [|done]. rewrite fmap_app. apply elem_of_app. by left.
      * exists (key it). split; [|done]. rewrite fmap_app. apply elem_of_app. right. by left.
    + intros m. rewrite Hgr. by apply push_group_ok.
    + intros m l E. destruct (proj2 (push_group_ok it (replicas_of (key it)) (groups p) m Hnd) l E) as [?|E']; [done|]. by eapply (po_full _ _ Hp).
    + intros m ki. change (push_key n) with (push_to (A := nat) n). rewrite push_all by done. setoid_rewrite Hnew.
      destruct (decide (m ∈ replicas_of (key it))) as [Hm|Hm].
      * cbn [default from_option id]. rewrite elem_of_app, list_elem_of_singleton, (po_mkeys _ _ Hp). naive_solver.
      * rewrite (po_mkeys _ _ Hp). naive_solver.
    + intros m. change (push_key n) with (push_to (A := nat) n). rewrite push_all by done. destruct (decide _); [|apply (po_mnodup _ _ Hp)].
      cbn [default from_option id]. apply NoDup_app. split_and!; [apply (po_mnodup _ _ Hp)| |apply NoDup_singleton].
      intros ki Hki. rewrite list_elem_of_singleton. intros ->. apply (po_mkeys _ _ Hp) in Hki as (r & E & _). apply lookup_lt_Some in E. unfold n in E. lia.
Qed.

Lemma make_plan_ok items : exists p, make_plan key route items = Ok p /\ plan_ok items p.
Proof.
  unfold make_plan. change items with ([] ++ items) at 2.
  assert (H0 : plan_ok [] empty_plan).
  { split; cbn; try (intros *; rewrite ?lookup_empty, ?lookup_nil; done).
    - intros k. rewrite lookup_empty, elem_of_nil. split; [by intros [? ?]|done].
    - intros m ki. rewrite lookup_empty. cbn. rewrite elem_of_nil. split; [done|]. by intros (r & ? & _).
    - intros m. rewrite lookup_empty. constructor. }
  revert H0. generalize (@nil Item) as done_, (@empty_plan Item) as p. induction items as [|it items IH]; intros done_ p Hp.
  - exists p. by rewrite app_nil_r.
  - cbn [plan_batch]. destruct (plan_item_ok done_ p it Hp) as (p' & -> & Hp'). cbn [mbind result_bind].
    destruct (IH _ _ Hp') as (p'' & E & Hp''). exists p''. split; [done|]. by rewrite <- app_assoc in Hp''.
Qed.

Context (MemberLabel : string -> string) (Hrf : (1 <= rf)%nat).
Notation batch items results := (replicate_batch MemberLabel route rf key items None false results None).
Notation collect p results := (collect_results MemberLabel rf (replicasOf p) (fun m => default [] (memberKeys p !! m)) results).

Lemma plan_reps its p : plan_ok its p -> Forall (fun r => length r = rf /\ NoDup r) (replicasOf p).
Proof.
  intros Hp. apply Forall_forall. intros r [ki E]%list_elem_of_lookup. destruct (po_back _ _ Hp _ _ E) as (k & _ & ->).
  by destruct (replicas_of_spec k) as (_ & ? & ?).
Qed.

Lemma plan_Forall its p (P : list string -> Prop) : plan_ok its p -> Forall P (replicasOf p) <-> Forall (fun it => P (replicas_of (key it))) its.
Proof.
  intros Hp. rewrite !Forall_forall. split.
  - intros H it Hit. assert (Hk : is_Some (keyIdx p !! key it)) by (apply (po_keys _ _ Hp), list_elem_of_fmap; by exists it).
    destruct Hk as [ki Hki]. eapply H, list_elem_of_lookup_2, (po_idx _ _ Hp _ _ Hki).
  - intros H r [ki E]%list_elem_of_lookup. destruct (po_back _ _ Hp _ _ E) as (k & (it & -> & Hit)%list_elem_of_fmap & ->). by apply H.
Qed.

Lemma plan_member its p r m : plan_ok its p -> r ∈ replicasOf p -> m ∈ r -> is_Some (groups p !! m).
Proof.
  intros Hp [ki E]%list_elem_of_lookup Hm. destruct (po_back _ _ Hp _ _ E) as (k & (it & -> & Hit)%list_elem_of_fmap & ->).
  destruct (groups p !! m) as [l|] eqn:El; [by eexists|]. exfalso. pose proof (po_groups _ _ Hp m) as Hg. rewrite El in Hg. cbn in Hg.
  apply (not_elem_of_nil it). rewrite Hg. by apply list_elem_of_filter.
Qed.

Lemma plan_groups_empty its p : plan_ok its p -> groups p = ∅ <-> replicasOf p = [].
Proof.
  intros Hp. split.
  - intros E. apply elem_of_nil_inv. intros r Hr. pose proof (plan_reps _ _ Hp) as HF. rewrite Forall_forall in HF. destruct (HF r Hr) as [Hl _].
    destruct r as [|m r]; [cbn in Hl; lia|]. destruct (plan_member _ _ _ m Hp Hr) as [x Hx]; [by left|]. by rewrite E, lookup_empty in Hx.
  - intros E. apply map_empty. intros m. destruct (groups p !! m) as [l|] eqn:El; [|done]. exfalso. apply (po_full _ _ Hp _ _ El).
    pose proof (po_groups _ _ Hp m) as Hg. rewrite El in Hg. cbn in Hg. rewrite Hg. apply elem_of_nil_inv. intros it [_ Hit]%list_elem_of_filter.
    assert (Hk : is_Some (keyIdx p !! key it)) by (apply (po_keys _ _ Hp), list_elem_of_fmap; by exists it). destruct Hk as [ki Hki].
    apply (po_idx _ _ Hp) in Hki. by rewrite E in Hki.
Qed.

Lemma take_result_answered (p : plan Item) c r d : answered c = Some d ->
  answered (take_result MemberLabel rf (replicasOf p) (fun m => default [] (memberKeys p !! m)) c r) = Some d.
Proof.
  intros E. unfold take_result. assert (Hf : forall l st, answered (fold_left (key_result MemberLabel rf r.1 r.2) l st).1 = answered st.1).
  { induction l as [|k l IH]; intros [c0 b]; [done|]. cbn [fold_left]. rewrite IH. by destruct r.2. }
  pose proof (Hf (default [] (memberKeys p !! r.1)) (set_failure c (anyFailure c || bool_decide (is_Some r.2)), false)) as Ha.
  destruct (fold_left _ _ _) as [c' kf]. cbn in Ha. rewrite E in Ha. by rewrite Ha.
Qed.

Lemma collect_answered_app (p : plan Item) r1 r2 d : answered (collect p r1) = Some d -> answered (collect p (r1 ++ r2)) = Some d.
Proof.
  unfold collect_results. rewrite fold_left_app. generalize (fold_left (take_result MemberLabel rf (replicasOf p) (fun m => default [] (memberKeys p !! m))) r1 (new_collector (replicasOf p))).
  induction r2 as [|r r2 IH]; intros c E; [done|]. cbn [fold_left]. by apply IH, take_result_answered.
Qed.

Lemma Exists_Forall_lt {A} (f : A -> nat) n l : Exists (fun r => (f r < n)%nat) l <-> ~ Forall (fun r => (n <= f r)%nat) l.
Proof.
  split.
  - intros (r & Hr & Hlt)%Exists_exists HF. rewrite Forall_forall in HF. specialize (HF r Hr). lia.
  - intros HF. apply not_Forall_Exists in HF; [|intros r; apply le_dec]. eapply Exists_impl; [exact HF|]. cbn. intros; lia.
Qed.

(** What the collector and the report say of a batch whose pushes have all ended. *)
Lemma batch_parts items p results : plan_ok items p -> results.*1 ≡ₚ (map_to_list (groups p)).*1 ->
  (groups p = ∅ -> replicasOf p = []) /\
  (groups p <> ∅ -> match answered (collect p results) with
    | Some DOk => Forall (fun r => (quorum rf <= ack_n results r)%nat) (replicasOf p)
    | Some (DQuorum qe) => Exists (fun r => (ack_n results r < quorum rf)%nat) (replicasOf p) /\
        exists e, qe = Some e /\ (0 < qe_Failed e)%nat /\ qe_Quorum e = quorum rf /\ qe_Total e = length (replicasOf p)
    | None => False end) /\
  (br_Outcome (batch_report rf (replicasOf p) (collect p results) false) = Failed <-> Exists (fun r => (ack_n results r < quorum rf)%nat) (replicasOf p)) /\
  (br_Outcome (batch_report rf (replicasOf p) (collect p results) false) = Full <-> Forall (fun x => x.2 = None) results).
Proof.
  intros Hp Hres. pose proof (plan_reps _ _ Hp) as HF.
  assert (Hnd : NoDup results.*1) by (rewrite Hres; apply NoDup_fst_map_to_list).
  assert (Hcov : forall r m, r ∈ replicasOf p -> m ∈ r -> m ∈ results.*1).
  { intros r m Hr Hm. destruct (plan_member _ _ _ _ Hp Hr Hm) as [l El]. rewrite Hres. apply list_elem_of_fmap. exists (m, l). split; [done|].
    by apply elem_of_map_to_list. }
  destruct (collect_spec MemberLabel rf _ _ Hrf (po_mkeys _ _ Hp) (po_mnodup _ _ Hp) results) as [Hc _].
  pose proof (quorumErr_spec rf (replicasOf p) Hrf _ _ Hc) as Hq. destruct (quorum_pos rf Hrf) as [Hq1 Hq2].
  assert (Hsum : forall r, r ∈ replicasOf p -> (ack_n results r + fail_n results r)%nat = rf).
  { intros r Hr. rewrite Forall_forall in HF. destruct (HF r Hr) as [<- Hndr]. apply complete_n; [done|done|]. intros m Hm. by apply (Hcov r). }
  split_and!.
  - by apply (plan_groups_empty _ _ Hp).
  - intros Hne. apply collect_decides; try done; try apply Hp.
    + by rewrite <- (plan_groups_empty _ _ Hp).
    + intros ->. cbn in Hres. symmetry in Hres. apply Permutation_nil_r, fmap_nil_inv, map_to_list_empty_iff in Hres. done.
  - unfold batch_report. destruct (quorumErr _ _ _) as [[e|] [|n]]; [done| |  |done]; cbn [br_Outcome].
    + split; [|done]. intros _. destruct Hq as [Hq _]. apply Exists_exists in Hq as (r & Hr & Hlt). apply Exists_exists. exists r. split; [done|].
      specialize (Hsum r Hr). lia.
    + split; [by destruct (anyFailure _)|]. intros (r & Hr & Hlt)%Exists_exists. rewrite Forall_forall in Hq. specialize (Hq r Hr). specialize (Hsum r Hr). lia.
  - pose proof (ct_any _ _ _ _ Hc) as Hany. unfold batch_report. rewrite Forall_forall. destruct (quorumErr _ _ _) as [[e|] [|n]]; [done| | |done]; cbn [br_Outcome].
    + split; [done|]. intros Hall. destruct Hq as [Hq _]. apply Exists_exists in Hq as (r & Hr & Hlt). exfalso.
      unfold fail_n in Hlt. rewrite (elem_of_nil_inv (filter _ results)) in Hlt; [cbn in Hlt; lia|].
      intros x [[_ [? E]] Hx]%list_elem_of_filter. rewrite (Hall x Hx) in E. done.
    + destruct (anyFailure _).
      * split; [done|]. intros Hall. destruct (proj1 Hany eq_refl) as (x & Hx & [? E]). rewrite (Hall x Hx) in E. done.
      * split; [|done]. intros _ x Hx. destruct x.2 eqn:E; [|done]. assert (false = true); [|done]. apply Hany. exists x. split; [done|]. rewrite E. by eexists.
Qed.

(** An acknowledged batch has every item on a majority of its replicas. *)
Lemma batch_acked items p results : plan_ok items p -> make_plan key route items = Ok p -> results.*1 ≡ₚ (map_to_list (groups p)).*1 ->
  batch items results = Ok tt -> forall it, it ∈ items -> (quorum rf <= ack_n results (replicas_of (key it)))%nat.
Proof.
  intros Hp Ep Hres Hok. destruct (batch_parts _ _ _ Hp Hres) as (Hno & Hyes & _ & _). unfold replicate_batch in Hok. rewrite Ep in Hok.
  apply Forall_forall, (plan_Forall items p (fun r => (quorum rf <= ack_n results r)%nat) Hp). destruct (decide (groups p = ∅)) as [E|E].
  - rewrite (Hno E). constructor.
  - specialize (Hyes E). by destruct (answered (collect p results)) as [[|qe]|].
Qed.

(** C22. Routing a write batch. Every replica is sent exactly the items of its
    keys, in order. Whatever order the pushes end in, the batch is acknowledged
    exactly when every item was acknowledged by a majority of its replicas;
    otherwise it answers a quorum error that counts at least one failed key. An
    answer given before every push ended is the final one, and the report of the
    finished batch says "failed" exactly when the answer was an error, and
    "full" exactly when no push failed. *)
Theorem quorum_decides items : exists p, make_plan key route items = Ok p /\
  (forall m, default [] (groups p !! m) = filter (fun it => m ∈ replicas_of (key it)) items) /\
  forall results, results.*1 ≡ₚ (map_to_list (groups p)).*1 ->
    (batch items results = Ok tt <-> Forall (fun it => (quorum rf <= ack_n results (replicas_of (key it)))%nat) items) /\
    (batch items results = Ok tt \/ exists e, batch items results = Err (RouteQuorum (Some e)) /\ (0 < qe_Failed e)%nat /\ qe_Total e = length (replicasOf p)) /\
    (forall before, before `prefix_of` results -> batch items before = Err RouteUndecided \/ batch items before = batch items results) /\
    (br_Outcome (batch_report rf (replicasOf p) (collect p results) false) = Failed <-> batch items results <> Ok tt) /\
    (br_Outcome (batch_report rf (replicasOf p) (collect p results) false) = Full <-> Forall (fun x => x.2 = None) results).
Proof.
  destruct (make_plan_ok items) as (p & Ep & Hp). exists p. split; [done|]. split; [apply (po_groups _ _ Hp)|]. intros results Hres.
  destruct (batch_parts _ _ _ Hp Hres) as (Hno & Hyes & Hfail & Hfull). rewrite Hfail, Hfull.
  rewrite <- (plan_Forall _ _ (fun r => (quorum rf <= ack_n results r)%nat) Hp). unfold replicate_batch. rewrite Ep.
  destruct (decide (groups p = ∅)) as [E|E].
  - rewrite (Hno E). split_and!; [by split; [constructor|]|by left|by right|split; [by intros ?%Exists_nil|done]|done].
  - specialize (Hyes E). destruct (answered (collect p results)) as [[|qe]|] eqn:Ea; [| |done].
    + split_and!; [done|by left| |rewrite Exists_Forall_lt; tauto|done].
      intros before [r2 ->]. destruct (answered (collect p before)) as [d|] eqn:Eb; [|by left]. right.
      rewrite (collect_answered_app p before r2 d Eb) in Ea. by injection Ea as ->.
    + destruct Hyes as [Hex (e & -> & He & _ & Ht)]. split_and!.
      * split; [done|]. rewrite Exists_Forall_lt in Hex. tauto.
      * right. by exists e.
      * intros before [r2 ->]. destruct (answered (collect p before)) as [d|] eqn:Eb; [|by left]. right.
        rewrite (collect_answered_app p before r2 d Eb) in Ea. by injection Ea as ->.
      * done.
      * done.
Qed.
End plan.

(** ** The parts of a flush *)

(** The keys a store owns, by index. *)
Definition owned_idx (replicas : list (list string)) (s : string) : list nat := (filter (fun e => s ∈ e.2) (imap pair replicas)).*1.

Lemma push_pairs (L : list (nat * list string)) s : Forall (fun e => NoDup e.2) L ->
  fold_left (fun o e => fold_left (push_key e.1) e.2 o) L ∅ !! s =
  match (filter (fun e => s ∈ e.2) L).*1 with [] => None | l => Some l end.
Proof.
  induction L as [|e L IH] using rev_ind; intros HF; [done|]. apply Forall_app in HF as [HF [Hnd _]%Forall_cons].
  rewrite fold_left_app. cbn [fold_left]. change (push_key e.1) with (push_to (A := nat) e.1). rewrite push_all, IH by done.
  rewrite filter_app, filter_cons, filter_nil. destruct (decide (s ∈ e.2)).
  - rewrite fmap_app. cbn [fmap list_fmap]. destruct ((filter _ L).*1) as [|i l]; [done|]. cbn. done.
  - by rewrite app_nil_r.
Qed.

Lemma owned_by_spec replicas s : Forall (fun r => NoDup r) replicas ->
  owned_by replicas !! s = match owned_idx replicas s with [] => None | l => Some l end.
Proof.
  intros HF. apply push_pairs. apply Forall_forall. intros [i r] Hin. apply elem_of_lookup_imap in Hin as (j & r' & [= -> ->] & Hj).
  rewrite Forall_forall in HF. by eapply HF, list_elem_of_lookup_2.
Qed.

Lemma owned_idx_nil replicas s : owned_idx replicas s = [] <-> Forall (fun r => s ∉ r) replicas.
Proof.
  unfold owned_idx. rewrite Forall_forall. split.
  - intros E%fmap_nil_inv r Hr Hs. apply list_elem_of_lookup in Hr as [i Hi].
    assert (Hin : (i, r) ∈ filter (fun e => s ∈ e.2) (imap pair replicas)).
    { apply list_elem_of_filter. split; [done|]. apply elem_of_lookup_imap. by exists i, r. }
    rewrite E in Hin. by apply not_elem_of_nil in Hin.
  - intros HF. erewrite (elem_of_nil_inv (filter _ _)); [done|]. intros [i r] [Hs Hin]%list_elem_of_filter. apply elem_of_lookup_imap in Hin as (j & r' & [= -> ->] & Hj).
    by apply (HF r' (list_elem_of_lookup_2 _ _ _ Hj)).
Qed.

Lemma encode_all_ok (body : list nat -> result Z (list Z)) enc owned : (forall idx, body idx = Ok (enc idx)) ->
  encode_all body owned = Ok ((fun e => (e.1, enc e.2)) <$> owned).
Proof. intros H. induction owned as [|[s idx] owned IH]; [done|]. cbn [encode_all]. rewrite H. cbn [mbind result_bind]. by rewrite IH. Qed.

Lemma failed_map (send : string -> list Z -> option pushErr) bodies s be : NoDup bodies.*1 ->
  fold_left (fun f sb => match send sb.1 sb.2 with Some e => <[sb.1 := (sb.2, e)]> f | None => f end) bodies (∅ : gmap string (list Z * pushErr)) !! s = Some be
  <-> (s, be.1) ∈ bodies /\ send s be.1 = Some be.2.
Proof.
  induction bodies as [|[s0 b0] l IH] using rev_ind; intros Hnd; cbn [fold_left].
  { rewrite lookup_empty, elem_of_nil. naive_solver. }
  rewrite fmap_app in Hnd. apply NoDup_app in Hnd as (Hnd & Hdis & _). rewrite fold_left_app. cbn [fold_left fst snd].
  rewrite elem_of_app, list_elem_of_singleton. specialize (IH Hnd).
  assert (Hno : (s0, be.1) ∉ l).
  { intros Hin. apply (Hdis s0); [apply list_elem_of_fmap; by exists (s0, be.1)|by left]. }
  destruct (send s0 b0) as [e|] eqn:E.
  - destruct (decide (s = s0)) as [->|Hne].
    + rewrite lookup_insert_eq. destruct be as [b e']. cbn [fst snd] in *. split; [intros [= -> ->]; split; [by right|done]|].
      intros [[?|[= ->]] Hs]; [done|]. congruence.
    + rewrite lookup_insert_ne by done. rewrite IH. naive_solver.
  - rewrite IH. split; [naive_solver|]. intros [[?|[= -> ->]] Hs]; [done|congruence].
Qed.

Section flush_exact.
Context (MemberLabel : string -> string) (route : Z -> result ringErr (list string)) (rf : nat) (ms : list string).
Context `{Hroute : !Routes route rf ms}.

Lemma route_keys_ok keys : route_keys route keys = Ok (replicas_of route <$> keys).
Proof.
  induction keys as [|k keys IH]; [done|]. cbn [route_keys]. destruct (replicas_of_spec route rf ms k) as (E & _). rewrite E. cbn [mbind result_bind].
  by rewrite IH.
Qed.

Lemma replicas_NoDup keys : Forall (fun r => NoDup r) (replicas_of route <$> keys).
Proof. apply Forall_fmap, Forall_forall. intros k _. apply (replicas_of_spec route rf ms). Qed.

Context (requireAll : bool) (keys : list Z) (body : list nat -> result Z (list Z)) (send : string -> list Z -> option pushErr).
Context (enc : list nat -> list Z) (Henc : forall idx, body idx = Ok (enc idx)).
Notation owners := (replicas_of route <$> keys).
Definition store_answer (s : string) : option pushErr := send s (enc (owned_idx owners s)).
Definition flush_need : nat := if requireAll then rf else quorum rf.
Definition flush_acks (r : list string) : nat := length (filter (fun s => store_answer s = None) r).
Definition flush_bodies : list (string * list Z) := (fun e => (e.1, enc e.2)) <$> map_to_list (owned_by owners).
Definition flush_failed : gmap string (list Z * pushErr) :=
  fold_left (fun f sb => match send sb.1 sb.2 with Some e => <[sb.1 := (sb.2, e)]> f | None => f end) flush_bodies ∅.

Lemma flush_bodies_nodup : NoDup flush_bodies.*1.
Proof. unfold flush_bodies. rewrite <- list_fmap_compose. apply NoDup_fst_map_to_list. Qed.
Lemma flush_bodies_in s b : (s, b) ∈ flush_bodies <-> (exists r, r ∈ owners /\ s ∈ r) /\ b = enc (owned_idx owners s).
Proof.
  unfold flush_bodies. rewrite list_elem_of_fmap. transitivity (exists l, owned_by owners !! s = Some l /\ b = enc l).
  { split.
    - intros ([s' l] & [= -> ->] & Hin). exists l. split; [by apply elem_of_map_to_list|done].
    - intros (l & E & ->). exists (s, l). split; [done|by apply elem_of_map_to_list]. }
  rewrite owned_by_spec by apply replicas_NoDup. destruct (owned_idx owners s) as [|i l] eqn:E.
  - split; [by intros (? & ? & _)|]. intros [(r & Hr & Hs) _]. apply owned_idx_nil in E. rewrite Forall_forall in E. by apply (E r) in Hr.
  - assert (Hne : ~ Forall (fun r => s ∉ r) owners) by (rewrite <- owned_idx_nil, E; done).
    apply not_Forall_Exists in Hne; [|intros ?; apply _]. apply Exists_exists in Hne as (r & Hr & Hs). split.
    + intros (l' & [= <-] & ->). split; [|done]. exists r. split; [done|]. by apply dec_stable.
    + intros [_ ->]. by exists (i :: l).
Qed.
Lemma flush_failed_spec s be : flush_failed !! s = Some be <-> (exists r, r ∈ owners /\ s ∈ r) /\ be.1 = enc (owned_idx owners s) /\ store_answer s = Some be.2.
Proof.
  unfold flush_failed. rewrite failed_map by apply flush_bodies_nodup. rewrite flush_bodies_in. unfold store_answer.
  split; [intros [[H1 H2] H3]; rewrite <- H2; auto|intros (H1 & H2 & H3); rewrite H2; auto].
Qed.
Lemma key_acks_spec r : r ∈ owners -> key_acks flush_failed r = flush_acks r.
Proof.
  intros Hr. unfold key_acks, flush_acks. f_equal. apply filter_ext_in. intros s Hs.
  destruct (flush_failed !! s) as [be|] eqn:E.
  - apply flush_failed_spec in E as (_ & _ & E). split; congruence.
  - destruct (store_answer s) as [e|] eqn:Ea; [|done].
    assert (Hc : flush_failed !! s = Some (enc (owned_idx owners s), e)) by (apply flush_failed_spec; eauto). congruence.
Qed.

Lemma no_failed : flush_failed = ∅ <-> Forall (Forall (fun s => store_answer s = None)) owners.
Proof.
  rewrite Forall_forall. setoid_rewrite Forall_forall. split.
  - intros E r Hr s Hs. destruct (store_answer s) as [e|] eqn:Ea; [|done].
    assert (Hc : flush_failed !! s = Some (enc (owned_idx owners s), e)) by (apply flush_failed_spec; eauto). by rewrite E, lookup_empty in Hc.
  - intros H. apply map_empty. intros s. destruct (flush_failed !! s) as [be|] eqn:E; [|done].
    apply flush_failed_spec in E as ((r & Hr & Hs) & _ & Ha). by rewrite (H r Hr s Hs) in Ha.
Qed.
Lemma no_failed_all : Forall (fun r => (rf <= flush_acks r)%nat) owners -> flush_failed = ∅.
Proof.
  intros HF. apply no_failed. rewrite Forall_forall in *. intros r Hr. specialize (HF r Hr). unfold flush_acks in HF.
  assert (Hl : length r = rf) by (apply list_elem_of_fmap in Hr as (k & -> & _); apply (replicas_of_spec route rf ms)).
  apply Forall_forall. intros s Hs. destruct (decide (store_answer s = None)) as [|Hn]; [done|].
  pose proof (length_filter_lt (fun s => store_answer s = None) r s Hs Hn). lia.
Qed.

(** Flushing a batch to the stores, whose parts [enc] encodes: the flush
    succeeds exactly when every key reached a majority of its stores (every
    store, when all are required), and otherwise reports how many keys did not.
    On success the straggler queue gets, for exactly the owning stores that
    failed, the very part they were sent, and nothing when every store is
    required; a failed flush queues nothing, since the head still holds the
    batch. The outcome is "full" exactly when every owner took its part. *)
Theorem flush_quorum_exact :
  let '(res, out, queue) := replicateFlush MemberLabel route rf requireAll keys body send in
  (res = Ok tt <-> Forall (fun r => (flush_need <= flush_acks r)%nat) owners) /\
  (res = Ok tt \/ exists stores cause, out = Some Failed /\ queue = [] /\
     res = Err (FlushQuorum (length (filter (fun r => (flush_acks r < flush_need)%nat) owners)) (length keys) flush_need rf stores cause)) /\
  (res = Ok tt -> forall s b, (s, b) ∈ queue <->
     (exists r, r ∈ owners /\ s ∈ r) /\ b = enc (owned_idx owners s) /\ is_Some (store_answer s)) /\
  (requireAll = true -> queue = []) /\
  (out = Some Full <-> Forall (Forall (fun s => store_answer s = None)) owners /\ res = Ok tt).
Proof.
  unfold replicateFlush. rewrite route_keys_ok, (encode_all_ok body enc) by done. fold flush_bodies flush_failed flush_need.
  rewrite (filter_ext_in _ (fun r => (flush_acks r < flush_need)%nat) owners) by (intros r Hr; by rewrite key_acks_spec).
  set (short := filter _ owners). assert (Hshort : short = [] <-> Forall (fun r => (flush_need <= flush_acks r)%nat) owners).
  { unfold short. rewrite Forall_forall. split.
    - intros E r Hr. destruct (le_lt_dec flush_need (flush_acks r)) as [|Hlt]; [done|]. exfalso. apply (not_elem_of_nil r). rewrite <- E. by apply list_elem_of_filter.
    - intros H. apply elem_of_nil_inv. intros r [Hlt Hr]%list_elem_of_filter. specialize (H r Hr). lia. }
  destruct (decide (length short = 0%nat)) as [E|E].
  - apply length_zero_iff_nil in E. assert (HF := proj1 Hshort E). split_and!.
    + done.
    + by left.
    + intros _ s b. rewrite list_elem_of_fmap. split.
      * intros ([s' be] & [= -> ->] & Hin%elem_of_map_to_list). apply flush_failed_spec in Hin as (H1 & H2 & H3). cbn. rewrite H3. eauto.
      * intros (H1 & -> & [e He]). exists (s, (enc (owned_idx owners s), e)). split; [done|]. apply elem_of_map_to_list, flush_failed_spec. auto.
    + intros Hall. assert (Hnone : flush_failed = ∅); [|by rewrite Hnone, map_to_list_empty]. apply no_failed_all. unfold flush_need in HF. by rewrite Hall in HF.
    + rewrite <- no_failed. destruct (decide (flush_failed = ∅)); naive_solver.
  - assert (HnF : ~ Forall (fun r => (flush_need <= flush_acks r)%nat) owners) by (rewrite <- Hshort; by intros ->). split_and!; try done.
    + right. do 2 eexists. split_and!; done.
    + split; [done|]. by intros [_ ?].
Qed.
End flush_exact.

(** ** Stamping *)

Lemma last_index_map (L : list (nat * PendingSample)) k :
  fold_left (fun m e => <[sample_key e.2 := e.1]> m) L (∅ : gmap (Z * Z) nat) !! k = fst <$> last (filter (fun e => sample_key e.2 = k) L).
Proof.
  induction L as [|e L IH] using rev_ind; [done|]. rewrite fold_left_app. cbn [fold_left]. rewrite filter_app, filter_cons, filter_nil.
  destruct (decide (sample_key e.2 = k)) as [<-|Hne].
  - by rewrite lookup_insert_eq, last_snoc.
  - by rewrite lookup_insert_ne, IH, app_nil_r.
Qed.

Lemma filter_fmap_snd (P : PendingSample -> Prop) `{!forall x, Decision (P x)} (L : list (nat * PendingSample)) :
  (filter (fun e => P e.2) L).*2 = filter P L.*2.
Proof. induction L as [|e L IH]; [done|]. rewrite fmap_cons, !filter_cons. destruct (decide (P e.2)); cbn; by rewrite IH. Qed.
Lemma imap_pair_snd {A} (l : list A) : (imap pair l).*2 = l.
Proof. rewrite fmap_imap. apply list_eq. intros i. rewrite list_lookup_imap. by destruct (l !! i). Qed.
Lemma imap_pair_nodup {A} (l : list A) : NoDup (imap pair l).*1.
Proof.
  rewrite fmap_imap. apply NoDup_alt. intros i j x Hi Hj. rewrite list_lookup_imap in Hi, Hj. cbn in *.
  destruct (l !! i), (l !! j); cbn in *; congruence.
Qed.

Lemma last_of_filter (F : list (nat * PendingSample)) : NoDup F.*1 -> filter (fun e => fst <$> last F = Some e.1) F = option_list (last F).
Proof.
  destruct F as [|x F _] using rev_ind; [done|]. rewrite last_snoc. cbn [fmap option_fmap option_map option_list]. intros Hnd.
  rewrite fmap_app in Hnd. apply NoDup_app in Hnd as (_ & Hdis & _). rewrite filter_app, filter_cons_True, filter_nil by done.
  rewrite (elem_of_nil_inv (filter _ F)); [done|]. intros e [[= E] He]%list_elem_of_filter. apply (Hdis e.1); [by apply list_elem_of_fmap_2|].
  rewrite <- E. by left.
Qed.

Lemma lastWrite_filter samples k : filter (fun s => sample_key s = k) (lastWritePerSample samples) = option_list (last (filter (fun s => sample_key s = k) samples)).
Proof.
  unfold lastWritePerSample. set (L := imap pair samples). rewrite <- filter_fmap_snd, list_filter_filter.
  rewrite <- (imap_pair_snd samples). fold L. rewrite <- filter_fmap_snd, fmap_last.
  set (F := filter (fun e : nat * PendingSample => sample_key e.2 = k) L).
  assert (Hnd : NoDup F.*1) by (eapply sublist_NoDup; [apply (imap_pair_nodup samples)|apply fmap_sublist, sublist_filter]).
  transitivity ((filter (fun e => fst <$> last F = Some e.1) F).*2).
  - assert (HF : forall c, filter (fun e => c = Some e.1) F = filter (fun e => c = Some e.1 /\ sample_key e.2 = k) L) by (intros; apply list_filter_filter).
    rewrite HF. f_equal. apply list_filter_iff. intros e. rewrite last_index_map. unfold F. naive_solver.
  - rewrite last_of_filter by done. by destruct (last F).
Qed.

Lemma NoDup_fmap_filter {A K} `{EqDecision K} (f : A -> K) (l : list A) : (forall k, (length (filter (fun x => f x = k) l) <= 1)%nat) -> NoDup (f <$> l).
Proof.
  induction l as [|a l IH]; intros H; cbn; constructor.
  - intros (b & Hb & Hin)%list_elem_of_fmap. specialize (H (f a)). rewrite filter_cons_True in H by done. cbn in H.
    assert (Hb' : b ∈ filter (fun x => f x = f a) l) by (by apply list_elem_of_filter). destruct (filter _ l); [by apply not_elem_of_nil in Hb'|cbn in H; lia].
  - apply IH. intros k. specialize (H k). rewrite filter_cons in H. destruct (decide _); cbn in H; lia.
Qed.

Lemma filter_stamped g k (l : list PendingSample) :
  filter (fun s => sample_key s = k) ((fun s => mkPending (ps_Labels s) (ps_ts s) (ps_val s) g) <$> l) =
  (fun s => mkPending (ps_Labels s) (ps_ts s) (ps_val s) g) <$> filter (fun s => sample_key s = k) l.
Proof. induction l as [|x l IH]; [done|]. rewrite !fmap_cons, !filter_cons. change (sample_key (mkPending _ _ _ _)) with (sample_key x). destruct (decide _); cbn; by rewrite IH. Qed.

(** The generations successive batches get, one per clock reading. *)
Fixpoint stamp_run (nextGen : Z) (batches : list (Z * list PendingSample)) : list (list PendingSample) :=
  match batches with
  | [] => []
  | (now, b) :: rest => let '(s, n) := stamp nextGen now (lastWritePerSample b) in s :: stamp_run n rest
  end.

Lemma stamp_run_above nextGen batches bound : nextGen <= bound -> Forall (fun b => b.1 <= bound) batches ->
  - 2 ^ 63 <= nextGen -> bound + Z.of_nat (length batches) < 2 ^ 63 ->
  Forall (Forall (fun s => nextGen <= ps_gen s)) (stamp_run nextGen batches).
Proof.
  revert nextGen bound. induction batches as [|[now b] rest IH]; intros n bound H1 H2 H3 H4; [constructor|]. apply Forall_cons in H2 as [Hb H2].
  cbn [fst length] in *. cbn [stamp_run]. unfold stamp. rewrite i64_id by wsolve. constructor.
  - apply Forall_fmap, Forall_forall. intros s _. cbn. lia.
  - assert (H : Forall (Forall (fun s => Z.max n now + 1 <= ps_gen s)) (stamp_run (Z.max n now + 1) rest)).
    { apply (IH _ (bound + 1)); [lia| |lia|lia]. eapply Forall_impl; [exact H2|]. cbn. intros; lia. }
    eapply Forall_impl; [exact H|]. cbn. intros l Hl. eapply Forall_impl; [exact Hl|]. cbn. intros; lia.
Qed.

(** A routed batch keeps, per series and timestamp, exactly the batch's
    last sample, and all its samples share one generation; of two batches the
    router stamps, every sample of the later one has the higher generation, so
    an overwrite outranks what it overwrites whatever the clock reads (while
    the counter stays inside int64). *)
Theorem later_batch_outranks nextGen batches bound :
  - 2 ^ 63 <= nextGen <= bound -> Forall (fun b => b.1 <= bound) batches -> bound + Z.of_nat (length batches) < 2 ^ 63 ->
  length (stamp_run nextGen batches) = length batches /\
  (forall i b s, batches !! i = Some b -> stamp_run nextGen batches !! i = Some s ->
    NoDup (sample_key <$> s) /\
    (forall k, (fun x => (ps_Labels x, ps_val x)) <$> filter (fun x => sample_key x = k) s =
               (fun x => (ps_Labels x, ps_val x)) <$> option_list (last (filter (fun x => sample_key x = k) b.2))) /\
    exists g, Forall (fun x => ps_gen x = g) s /\ b.1 <= g) /\
  (forall i j si sj x y, (i < j)%nat -> stamp_run nextGen batches !! i = Some si -> stamp_run nextGen batches !! j = Some sj ->
    x ∈ si -> y ∈ sj -> ps_gen x < ps_gen y).
Proof.
  revert nextGen bound. induction batches as [|[now b] rest IH]; intros n bound [H1 H1'] H2 H3; [done|]. apply Forall_cons in H2 as [Hb H2].
  cbn [fst length] in *. cbn [stamp_run]. unfold stamp. rewrite i64_id by wsolve. set (g := Z.max n now).
  assert (H2' : Forall (fun b : Z * list PendingSample => b.1 <= bound + 1) rest) by (eapply Forall_impl; [exact H2|]; cbn; intros; lia).
  destruct (IH (g + 1) (bound + 1)) as (J1 & J2 & J3); [lia|done|lia|]. split_and!.
  - cbn. by rewrite J1.
  - intros [|i] b' s Eb Es; cbn in Eb, Es; [|by apply (J2 i)]. simplify_eq. split_and!.
    + apply NoDup_fmap_filter. intros k. rewrite filter_stamped, length_fmap, lastWrite_filter. destruct (last _); cbn; lia.
    + intros k. rewrite filter_stamped, lastWrite_filter, <- list_fmap_compose. done.
    + exists g. split; [|cbn; lia]. apply Forall_fmap, Forall_forall. by intros x _.
  - intros [|i] [|j] si sj x y Hij Ei Ej Hx Hy; try lia; cbn in Ei, Ej; [|apply (J3 i j si sj); [lia|done..]].
    simplify_eq. apply list_elem_of_fmap in Hx as (x0 & -> & _). cbn.
    pose proof (stamp_run_above (g + 1) rest (bound + 1)) as Hab. rewrite !Forall_forall in Hab.
    specialize (Hab ltac:(lia)). rewrite Forall_forall in H2'. specialize (Hab H2' ltac:(lia) ltac:(lia) sj (list_elem_of_lookup_2 _ _ _ Ej)).
    rewrite Forall_forall in Hab. specialize (Hab y Hy). lia.
Qed.

(** ** Concrete instances *)

Definition trio (_ : Z) : result ringErr (list string) := Ok ["a"; "b"; "c"]%string.
#[export] Instance trio_routes : Routes trio 3 ["a"; "b"; "c"]%string.
Proof. split. intros k. exists ["a"; "b"; "c"]%string. split_and!; [done|done| |done]. repeat (constructor; [by set_solver|]). constructor. Qed.

Definition an_outage : pushErr := mkErr 7 false true false 0.
Example one_down : replicate_batch (fun s => s) trio 3 (fun x : Z => x) [5; 6; 5] None false
  [("c"%string, None); ("a"%string, Some an_outage); ("b"%string, None)] None = Ok tt.
Proof. reflexivity. Qed.

Lemma quorum_decides_witness : exists p, make_plan (fun x : Z => x) trio [5; 6; 5] = Ok p /\
  (forall m, default [] (groups p !! m) = filter (fun it => m ∈ replicas_of trio it) [5; 6; 5]) /\ exists results,
  results.*1 ≡ₚ (map_to_list (groups p)).*1 /\ replicate_batch (fun s => s) trio 3 (fun x : Z => x) [5; 6; 5] None false results None <> Ok tt.
Proof.
  destruct (quorum_decides (fun x : Z => x) trio 3 ["a"; "b"; "c"]%string (fun s => s) ltac:(lia) [5; 6; 5]) as (p & E & Hg & H).
  exists p. split; [exact E|]. split; [exact Hg|]. vm_compute in E. injection E as <-.
  exists [("c"%string, None); ("a"%string, Some an_outage); ("b"%string, Some an_outage)].
  match goal with |- ?P /\ _ => assert (Hp : P) by (vm_compute; reflexivity) end.
  split; [exact Hp|]. destruct (H _ Hp) as (H1 & _). rewrite H1. intros HF. inversion HF as [|? ? Hc]. vm_compute in Hc. lia.
Defined.

Definition a_sample (v : Z) : PendingSample := mkPending (mkLabels [mkLabel "x"%string "y"%string] 9) 1000 v 0.
Lemma later_batch_outranks_witness :
  stamp_run 1 [(500, [a_sample 1; a_sample 2]); (400, [a_sample 3])] =
    [[mkPending (ps_Labels (a_sample 2)) 1000 2 500]; [mkPending (ps_Labels (a_sample 3)) 1000 3 501]] /\
  forall i j si sj x y, (i < j)%nat -> stamp_run 1 [(500, [a_sample 1; a_sample 2]); (400, [a_sample 3])] !! i = Some si ->
    stamp_run 1 [(500, [a_sample 1; a_sample 2]); (400, [a_sample 3])] !! j = Some sj -> x ∈ si -> y ∈ sj -> ps_gen x < ps_gen y.
Proof.
  split; [vm_compute; reflexivity|].
  apply (later_batch_outranks 1 [(500, [a_sample 1; a_sample 2]); (400, [a_sample 3])] 500); [lia|repeat constructor; cbn; lia|cbn; lia].
Defined.

Definition down_send (s : string) (b : list Z) : option pushErr := if String.eqb s "b" then Some an_outage else None.
Lemma flush_quorum_exact_witness :
  replicateFlush (fun s => s) trio 3 false [5; 6] (fun idx => Ok (Z.of_nat <$> idx)) down_send = (Ok tt, Some Degraded, [("b"%string, [0; 1])]) /\
  (forall res out queue, replicateFlush (fun s => s) trio 3 false [5; 6] (fun idx => Ok (Z.of_nat <$> idx)) down_send = (res, out, queue) ->
    res = Ok tt <-> Forall (fun r => (flush_need 3 false <= flush_acks trio [5; 6]%Z down_send (fun idx => Z.of_nat <$> idx) r)%nat) (replicas_of trio <$> ([5; 6] : list Z))).
Proof.
  split; [vm_compute; reflexivity|]. intros res out queue E.
  pose proof (flush_quorum_exact (fun s => s) trio 3 ["a"; "b"; "c"]%string false [5; 6] (fun idx => Ok (Z.of_nat <$> idx)) down_send (fun idx => Z.of_nat <$> idx) (fun _ => eq_refl)) as H.
  rewrite E in H. exact (proj1 H).
Defined.
