(* ===== verification/Gather.v ===== *)
(** * Gather: reading several heads at once, some of which may be down

    What [internal/metrics/merge.go] and [internal/logs/merge.go] share, written once
    over the kind of source, its errors and its merge: [collect] and [gather]. The
    heads are read concurrently; what the code sees of that is the order in which
    their results arrive, which a [schedule] fixes, and the lemmas hold for every
    schedule. *)
From S2P Require Import Prelude GoLib GoSort.

(** ** The code *)

(** [Observe] and [OnSkip] are observations: [collect] returns what they are told. *)
Record HeadsOptions (F : Type) := mkHeadsOptions { Tolerate : Z; Skippable : option (F -> bool) }.
Arguments mkHeadsOptions {F}.
Arguments Tolerate {F}.
Arguments Skippable {F}.

(** The order in which results arrive, each with whether the read's context is
    done when it is taken; and how many results are queued when the read is
    decided. *)
Record schedule := mkSchedule { arrivals : list (nat * bool); queued : nat }.

(** [slices.Sort] of head indexes. *)
Definition sort_heads (l : list nat) : list nat := sort_by Z.of_nat l.

Section gather.
Context {F Src : Type} (canceled : F -> bool) (opts : HeadsOptions F) {A : Type} (wrap : A -> Src).

Record headResult := mkHR { hr_i : nat; hr_a : result F A; hr_gone : bool }.
Record gst := mkGst {
  g_answers : list (option Src); g_skipped : list nat; g_lastOutage : option F; g_fatal : option F;
  g_observed : list (nat * option F) }.
Definition new_gst (n : nat) : gst := mkGst (replicate n None) [] None None [].

Definition skip (gone : bool) (err : F) : bool :=
  if gone || canceled err then false else match Skippable opts with Some f => f err | None => false end.

Definition take (st : gst) (r : headResult) : gst :=
  let seen := match hr_a r with
    | Ok _ => g_observed st ++ [(hr_i r, None)]
    | Err e => if canceled e then g_observed st else g_observed st ++ [(hr_i r, Some e)]
    end in
  match hr_a r with
  | Ok a => mkGst (<[hr_i r := Some (wrap a)]> (g_answers st)) (g_skipped st) (g_lastOutage st) (g_fatal st) seen
  | Err e =>
      if negb (skip (hr_gone r) e) then
        mkGst (g_answers st) (g_skipped st) (g_lastOutage st) (match g_fatal st with None => Some e | f => f end) seen
      else mkGst (g_answers st) (g_skipped st ++ [hr_i r]) (Some e) (g_fatal st) seen
  end.

(** Answers, skipped heads, the last outage, the error that decided the read, and
    what was observed. *)
Definition gathered := (list (option Src) * list nat * option F * option F * list (nat * option F))%type.
Fixpoint gather (queued : nat) (st : gst) (results : list headResult) : gathered :=
  match results with
  | [] => (g_answers st, g_skipped st, g_lastOutage st, None, g_observed st)
  | r :: rest =>
      let st := take st r in
      if bool_decide (g_fatal st = None) && (Z.of_nat (length (g_skipped st)) <=? Tolerate opts) then gather queued st rest
      else
        let decidedBy := g_lastOutage st in
        let st := fold_left take (firstn queued rest) st in
        match g_fatal st with
        | Some e => ([], [], None, Some e, g_observed st)
        | None => ([], [], None, decidedBy, g_observed st)
        end
  end.
End gather.
Arguments headResult : clear implicits.
Arguments gst : clear implicits.
Arguments gathered : clear implicits.

Section collect.
Context {F Src : Type} (merge : Src -> Src -> Src).
(** [acc = Merge(folded[i], acc)], from the last head down. *)
Fixpoint fold_heads (first : Src) (rest : list Src) : Src :=
  match rest with [] => first | next :: rest => merge first (fold_heads next rest) end.

(** The answer, and the skipped heads reported to [OnSkip]. *)
Definition collect {A} (canceled : F -> bool) (opts : HeadsOptions F) (sched : schedule) (heads : list Src)
  (readHead : Src -> result F A) (wrap : A -> Src) (read : Src -> result F A) (zero : A) : result F (A * list nat) :=
  let results := omap (fun e : nat * bool => match heads !! e.1 with Some h => Some (mkHR e.1 (readHead h) e.2) | None => None end) (arrivals sched) in
  let '(answers, skipped, lastOutage, err, _) := gather canceled opts wrap (queued sched) (new_gst (length heads)) results in
  match err with
  | Some e => Err e
  | None =>
      match omap id answers with
      | [] => match lastOutage with Some e => Err e | None => Ok (zero, []) end
      | first :: rest => out ← read (fold_heads first rest); Ok (out, sort_heads skipped)
      end
  end.
End collect.

(** ** What [gather] decides *)

Section gather_spec.
Context {F Src : Type} (canceled : F -> bool) (opts : HeadsOptions F) {A : Type} (wrap : A -> Src).
Abbreviation take := (take canceled opts wrap).
Abbreviation gather := (gather canceled opts wrap).
Implicit Types r : headResult F A.

(** A result a read may skip, and one that ends it. *)
Definition outage r : Prop := match hr_a r with Err e => skip canceled opts (hr_gone r) e = true | Ok _ => False end.
Definition protocol r : Prop := match hr_a r with Err e => skip canceled opts (hr_gone r) e = false | Ok _ => False end.
#[export] Instance outage_dec r : Decision (outage r).
Proof. unfold outage. destruct (hr_a r); apply _. Defined.
#[export] Instance protocol_dec r : Decision (protocol r).
Proof. unfold protocol. destruct (hr_a r); apply _. Defined.

Definition put_answer (out : list (option Src)) r : list (option Src) :=
  match hr_a r with Ok a => <[hr_i r := Some (wrap a)]> out | Err _ => out end.

Lemma take_state n done_ : let st := fold_left take done_ (new_gst n) in
  g_answers st = fold_left put_answer done_ (replicate n None) /\ g_skipped st = hr_i <$> filter outage done_ /\
  (g_lastOutage st = None <-> filter outage done_ = []) /\ (g_fatal st = None <-> filter protocol done_ = []).
Proof.
  induction done_ as [|r l IH] using rev_ind; [done|]. destruct IH as (I1 & I2 & I3 & I4). cbn zeta. rewrite !fold_left_app, !filter_app, !fmap_app. cbn [fold_left].
  set (st := fold_left take l (new_gst n)) in *. set (ans := fold_left put_answer l _) in *. unfold put_answer, Gather.take. rewrite !filter_cons, !filter_nil.
  destruct (hr_a r) as [a|e] eqn:Er; cbn [g_answers g_skipped g_lastOutage g_fatal].
  - rewrite !decide_False by (unfold outage, protocol; rewrite Er; tauto). rewrite !app_nil_r. by rewrite I1, I2.
  - destruct (skip canceled opts (hr_gone r) e) eqn:Es; cbn [negb g_answers g_skipped g_lastOutage g_fatal].
    + rewrite decide_True by (unfold outage; by rewrite Er). rewrite decide_False by (unfold protocol; rewrite Er; congruence). rewrite app_nil_r, I2.
      split_and!; [done|done|split; [done|by intros [_ ?]%app_nil]|done].
    + rewrite decide_False by (unfold outage; rewrite Er; congruence). rewrite decide_True by (unfold protocol; by rewrite Er). rewrite !app_nil_r.
      split_and!; [done|done|done|]. destruct (g_fatal _); split; try done; by intros [_ ?]%app_nil.
Qed.

Definition tolerated (l : list (headResult F A)) : Prop := filter protocol l = [] /\ Z.of_nat (length (filter outage l)) <= Tolerate opts.

#[export] Instance tolerated_dec l : Decision (tolerated l).
Proof. unfold tolerated. apply _. Defined.

Lemma tolerated_app l1 l2 : tolerated (l1 ++ l2) -> tolerated l1.
Proof. unfold tolerated. rewrite !filter_app, length_app. intros [[H1 _]%app_nil H2]. split; [done|lia]. Qed.

Lemma gather_step n done_ r : bool_decide (g_fatal (fold_left take (done_ ++ [r]) (new_gst n)) = None) &&
  (Z.of_nat (length (g_skipped (fold_left take (done_ ++ [r]) (new_gst n)))) <=? Tolerate opts) = true <-> tolerated (done_ ++ [r]).
Proof.
  destruct (take_state n (done_ ++ [r])) as (_ & H2 & _ & H4). rewrite andb_true_iff, bool_decide_eq_true, Z.leb_le, H4, H2, length_fmap. done.
Qed.

Lemma gather_ok n q rest : forall done_, tolerated (done_ ++ rest) -> exists last obs,
  gather q (fold_left take done_ (new_gst n)) rest = (fold_left put_answer (done_ ++ rest) (replicate n None), hr_i <$> filter outage (done_ ++ rest), last, None, obs) /\
  (last = None <-> filter outage (done_ ++ rest) = []).
Proof.
  induction rest as [|r rest IH]; intros done_ Ht.
  - rewrite app_nil_r. destruct (take_state n done_) as (H1 & H2 & H3 & _). cbn [Gather.gather]. rewrite H1, H2. by do 2 eexists.
  - cbn [Gather.gather]. change (take (fold_left take done_ (new_gst n)) r) with (fold_left take [r] (fold_left take done_ (new_gst n))).
    rewrite <- fold_left_app. replace (done_ ++ r :: rest) with ((done_ ++ [r]) ++ rest) in * by by rewrite <- app_assoc.
    rewrite (proj2 (gather_step n done_ r)) by by eapply tolerated_app. by apply IH.
Qed.

Lemma fatal_kept l st : g_fatal st <> None -> g_fatal (fold_left take l st) <> None.
Proof.
  revert st. induction l as [|r l IH]; intros st H; [done|]. cbn [fold_left]. apply IH. unfold Gather.take.
  destruct (hr_a r); [done|]. destruct (negb _); [|done]. cbn. by destruct (g_fatal st).
Qed.

Lemma gather_err n q rest : 0 <= Tolerate opts -> forall done_, tolerated done_ -> ~ tolerated (done_ ++ rest) -> exists ans sk last e obs,
  gather q (fold_left take done_ (new_gst n)) rest = (ans, sk, last, Some e, obs).
Proof.
  intros HT. induction rest as [|r rest IH]; intros done_ Hd Hn; [by rewrite app_nil_r in Hn|].
  cbn [Gather.gather]. change (take (fold_left take done_ (new_gst n)) r) with (fold_left take [r] (fold_left take done_ (new_gst n))).
  rewrite <- fold_left_app. replace (done_ ++ r :: rest) with ((done_ ++ [r]) ++ rest) in Hn by by rewrite <- app_assoc.
  destruct (_ && _) eqn:E; [apply (IH (done_ ++ [r])); [by apply gather_step in E|done]|].
  assert (Hns : ~ tolerated (done_ ++ [r])) by (intros H; apply (gather_step n) in H; congruence).
  destruct (take_state n (done_ ++ [r])) as (H1 & H2 & H3 & H4). set (st := fold_left take (done_ ++ [r]) (new_gst n)) in *.
  destruct (g_fatal (fold_left take (firstn q rest) st)) as [e|] eqn:Ef; [by do 5 eexists|].
  destruct (g_lastOutage st) as [e|] eqn:El; [by do 5 eexists|]. exfalso. apply Hns. split.
  - apply H4. destruct (g_fatal st) eqn:Eg; [|done]. exfalso. by apply (fatal_kept (firstn q rest) st); rewrite ?Eg.
  - rewrite (proj1 H3 eq_refl). done.
Qed.
End gather_spec.

(** ** A whole read *)

Definition ok_of {F A} (o : result F A) : option A := match o with Ok a => Some a | Err _ => None end.

Section collect_spec.
Context {F Src : Type} (merge : Src -> Src -> Src) (canceled : F -> bool) (opts : HeadsOptions F) (sched : schedule) (heads : list Src).
Context {A : Type} (readHead : Src -> result F A) (wrap : A -> Src) (read : Src -> result F A) (zero : A).

(** Every head's result arrives once, while the reader is still there. *)
Definition live_schedule : Prop := (arrivals sched).*1 ≡ₚ seq 0 (length heads) /\ Forall (fun e => e.2 = false) (arrivals sched).
Context (Hsched : live_schedule).

(** The failing heads, and whether the options let a read do without them. *)
Definition failing : list nat := filter (fun i => (heads !! i) ≫= (fun h => ok_of (readHead h)) = None) (seq 0 (length heads)).
Definition survivable : Prop :=
  Forall (fun h => match readHead h with Err e => skip canceled opts false e = true | Ok _ => True end) heads /\ Z.of_nat (length failing) <= Tolerate opts.

Abbreviation results := (omap (fun e : nat * bool => match heads !! e.1 with Some h => Some (mkHR e.1 (readHead h) e.2) | None => None end) (arrivals sched)).

Lemma result_in r : r ∈ results <-> exists h, heads !! hr_i r = Some h /\ r = mkHR (hr_i r) (readHead h) false.
Proof.
  destruct Hsched as [Hperm Hlive]. rewrite list_elem_of_omap. split.
  - intros ([i g] & Hin & E). cbn in E. destruct (heads !! i) as [h|] eqn:Eh; [|done]. injection E as <-. exists h. split; [done|].
    rewrite Forall_forall in Hlive. cbn. by rewrite <- (Hlive _ Hin).
  - intros (h & Eh & Er). assert (Hi : hr_i r ∈ (arrivals sched).*1).
    { rewrite Hperm. apply elem_of_seq. apply lookup_lt_Some in Eh. lia. }
    apply list_elem_of_fmap in Hi as ([i g] & Ei & Hin). cbn in Ei. subst i. exists (hr_i r, g). split; [done|]. cbn. rewrite Eh.
    rewrite Forall_forall in Hlive. specialize (Hlive _ Hin). cbn in Hlive. subst g. by rewrite <- Er.
Qed.

Lemma results_nodup : NoDup (hr_i <$> results).
Proof.
  destruct Hsched as [Hperm _]. assert (H : NoDup (arrivals sched).*1) by (rewrite Hperm; apply NoDup_seq). revert H. generalize (arrivals sched).
  induction l as [|[i g] l IH]; intros H; [constructor|]. rewrite fmap_cons in H. apply NoDup_cons in H as [Hi H]. cbn [omap list_omap fst].
  destruct (heads !! i) as [h|]; [|by apply IH]. rewrite fmap_cons. constructor; [|by apply IH].
  intros (r & Er & (e & He & Ee)%list_elem_of_omap)%list_elem_of_fmap. apply Hi. apply list_elem_of_fmap. exists e. split; [|done].
  destruct (heads !! e.1); [|done]. injection Ee as <-. by cbn in Er.
Qed.

Lemma put_fold (l : list (headResult F A)) out i : NoDup (hr_i <$> l) -> (forall r, r ∈ l -> (hr_i r < length out)%nat) ->
  fold_left (put_answer wrap) l out !! i =
  match find (fun r => Nat.eqb (hr_i r) i) l with
  | Some r => match hr_a r with Ok a => Some (Some (wrap a)) | Err _ => out !! i end
  | None => out !! i
  end.
Proof.
  revert out. induction l as [|r l IH]; intros out Hnd Hlt; [done|]. rewrite fmap_cons in Hnd. apply NoDup_cons in Hnd as [Hr Hnd]. cbn [fold_left find].
  assert (Hlen : length (put_answer wrap out r) = length out) by (unfold put_answer; destruct (hr_a r); rewrite ?length_insert; done).
  rewrite IH by (done || (intros x Hx; rewrite Hlen; apply Hlt; by right)). pose proof (Hlt r (list_elem_of_here _ _)) as Hr0.
  destruct (Nat.eqb_spec (hr_i r) i) as [<-|Hne].
  - assert (Hf : find (fun r0 => Nat.eqb (hr_i r0) (hr_i r)) l = None).
    { destruct (find _ l) as [x|] eqn:E; [|done]. apply find_some in E as [Hx Ex%Nat.eqb_eq]. exfalso. apply Hr. rewrite <- Ex.
      apply list_elem_of_fmap_2. by apply list_elem_of_In. }
    rewrite Hf. unfold put_answer. destruct (hr_a r); [|done]. by rewrite list_lookup_insert_eq.
  - assert (Hout : put_answer wrap out r !! i = out !! i) by (unfold put_answer; destruct (hr_a r); [by rewrite list_lookup_insert_ne|done]).
    by rewrite Hout.
Qed.

Lemma answers_in_order : fold_left (put_answer wrap) results (replicate (length heads) None) = (fun h => wrap <$> ok_of (readHead h)) <$> heads.
Proof.
  apply list_eq. intros i. rewrite put_fold; [|apply results_nodup|].
  2:{ intros r (h & Eh & _)%result_in. rewrite length_replicate. by apply lookup_lt_Some in Eh. }
  rewrite list_lookup_fmap. destruct (heads !! i) as [h|] eqn:Eh; cbn.
  - destruct (find _ results) as [r|] eqn:Ef.
    + apply find_some in Ef as [Hr Ei%Nat.eqb_eq]. apply list_elem_of_In, result_in in Hr as (h' & Eh' & ->). cbn in *. subst i. simplify_eq.
      destruct (readHead h); [|apply lookup_lt_Some in Eh; by apply lookup_replicate_2]. done.
    + exfalso. assert (Hr : mkHR i (readHead h) false ∈ results) by (apply result_in; by exists h). apply list_elem_of_In in Hr.
      apply (find_none _ _ Ef) in Hr. cbn in Hr. by rewrite Nat.eqb_refl in Hr.
  - rewrite (lookup_ge_None_2 (replicate _ _)) by (rewrite length_replicate; by apply lookup_ge_None). destruct (find _ results) as [r|] eqn:Ef; [|done].
    apply find_some in Ef as [Hr Ei%Nat.eqb_eq]. apply list_elem_of_In, result_in in Hr as (h' & Eh' & _). congruence.
Qed.

Lemma skipped_heads : (forall h, h ∈ heads -> match readHead h with Err e => skip canceled opts false e = true | Ok _ => True end) ->
  hr_i <$> filter (outage canceled opts) results ≡ₚ failing.
Proof.
  intros Hall. apply NoDup_Permutation.
  - eapply sublist_NoDup; [apply results_nodup|]. apply fmap_sublist, sublist_filter.
  - apply NoDup_filter, NoDup_seq.
  - intros i. unfold failing. rewrite list_elem_of_fmap, list_elem_of_filter, elem_of_seq. split.
    + intros (r & -> & [Ho (h & Eh & Er)%result_in]%list_elem_of_filter). rewrite Eh, Er in *. cbn in *. pose proof (lookup_lt_Some _ _ _ Eh).
      split; [|lia]. unfold outage in Ho. cbn in Ho. by destruct (readHead h).
    + intros [Hn Hi]. destruct (lookup_lt_is_Some_2 heads i) as [h Eh]; [lia|]. rewrite Eh in Hn. cbn in Hn. exists (mkHR i (readHead h) false).
      split; [done|]. apply list_elem_of_filter. split; [|apply result_in; by exists h]. unfold outage. cbn.
      specialize (Hall h (list_elem_of_lookup_2 _ _ _ Eh)). by destruct (readHead h).
Qed.

Lemma survivable_tolerated : survivable <-> tolerated canceled opts results.
Proof.
  unfold survivable, tolerated. rewrite Forall_forall. split.
  - intros [Hall Hlen]. split; [|by rewrite <- (Permutation_length (skipped_heads Hall)), length_fmap in Hlen].
    apply elem_of_nil_inv. intros r [Hp (h & Eh & Er)%result_in]%list_elem_of_filter. unfold protocol in Hp. rewrite Er in Hp. cbn in Hp.
    specialize (Hall h (list_elem_of_lookup_2 _ _ _ Eh)). destruct (readHead h); [done|congruence].
  - intros [Hp Hlen]. assert (Hall : forall h, h ∈ heads -> match readHead h with Err e => skip canceled opts false e = true | Ok _ => True end).
    { intros h [i Eh]%list_elem_of_lookup. destruct (readHead h) as [a|e] eqn:E; [done|]. destruct (skip _ _ _ e) eqn:Es; [done|].
      exfalso. apply (not_elem_of_nil (mkHR i (readHead h) false)). rewrite <- Hp. apply list_elem_of_filter. split; [|apply result_in; by exists h].
      unfold protocol. cbn. by rewrite E. }
    split; [done|]. by rewrite <- (Permutation_length (skipped_heads Hall)), length_fmap.
Qed.

Lemma sort_heads_failing l : l ≡ₚ failing -> sort_heads l = failing.
Proof.
  intros Hl. apply (StronglySorted_unique_strong (key_le Z.of_nat)).
  - unfold key_le. intros; lia.
  - apply sort_by_sorted.
  - apply filter_sorted. generalize 0%nat. induction (length heads) as [|n IH]; intros k; cbn; constructor; [apply IH|].
    apply Forall_forall. intros x Hx%elem_of_seq. unfold key_le. lia.
  - unfold sort_heads. by rewrite sort_by_perm.
Qed.

Lemma collect_survives : survivable ->
  collect merge canceled opts sched heads readHead wrap read zero =
  match omap (fun h => ok_of (readHead h)) heads with
  | a :: rest => out ← read (fold_heads merge (wrap a) (wrap <$> rest)); Ok (out, failing)
  | [] => collect merge canceled opts sched heads readHead wrap read zero
  end.
Proof.
  intros Hs. pose proof Hs as [Hall _]. rewrite Forall_forall in Hall. apply survivable_tolerated in Hs. unfold collect.
  pose proof (gather_ok canceled opts wrap (length heads) (queued sched) results [] Hs) as Hg. cbn [fold_left app] in Hg. destruct Hg as (lst & obs & -> & _).
  rewrite answers_in_order, (sort_heads_failing _ (skipped_heads Hall)).
  assert (Ho : omap id ((fun h => wrap <$> ok_of (readHead h)) <$> heads) = wrap <$> omap (fun h => ok_of (readHead h)) heads).
  { clear. induction heads as [|h l IH]; [done|]. cbn. destruct (readHead h); cbn; by rewrite IH. }
  rewrite Ho. by destruct (omap _ heads).
Qed.

Lemma collect_untolerated : 0 <= Tolerate opts -> ~ tolerated canceled opts results ->
  exists e, collect merge canceled opts sched heads readHead wrap read zero = Err e.
Proof.
  intros HT Hn. pose proof (gather_err canceled opts wrap (length heads) (queued sched) results HT [] ltac:(by split) Hn) as Hg.
  cbn [fold_left app] in Hg. destruct Hg as (ans & sk & lst & e & obs & Hg). unfold collect. rewrite Hg. by exists e.
Qed.

(** With every head down there is no answer to give. *)
Lemma collect_all_down : heads <> [] -> omap (fun h => ok_of (readHead h)) heads = [] -> 0 <= Tolerate opts ->
  exists e, collect merge canceled opts sched heads readHead wrap read zero = Err e.
Proof.
  intros Hne Hnone HT. destruct (decide (tolerated canceled opts results)) as [Ht|Ht].
  - unfold collect. pose proof (gather_ok canceled opts wrap (length heads) (queued sched) results [] Ht) as Hg. cbn [fold_left app] in Hg. destruct Hg as (lst & obs & -> & Hl).
    assert (Ho : omap id (fold_left (put_answer wrap) results (replicate (length heads) None)) = []).
    { rewrite answers_in_order. revert Hnone. clear. induction heads as [|h l IH]; [done|]. cbn. destruct (readHead h); [done|]. apply IH. }
    rewrite Ho. destruct lst as [e|]; [by exists e|]. exfalso. pose proof (proj1 Hl eq_refl) as Hf. apply survivable_tolerated in Ht as [Hall _].
    rewrite Forall_forall in Hall. assert (H0 : 0%nat ∈ failing).
    { unfold failing. apply list_elem_of_filter. destruct heads as [|h l]; [done|]. cbn in Hnone. cbn [lookup list_lookup mbind option_bind].
      split; [by destruct (ok_of (readHead h))|]. apply elem_of_seq. cbn. lia. }
    rewrite <- (skipped_heads Hall), Hf in H0. by apply not_elem_of_nil in H0.
  - by apply collect_untolerated.
Qed.

Lemma collect_lost : 0 <= Tolerate opts -> ~ survivable -> exists e, collect merge canceled opts sched heads readHead wrap read zero = Err e.
Proof.
  intros HT Hns. rewrite survivable_tolerated in Hns. by apply collect_untolerated.
Qed.
End collect_spec.

(** ** Replicas *)

(** An ingester: its reads, what it holds, and whether it is up. *)
Record Ingester (Src Db : Type) := mkIngester { ing_name : string; ing_source : Src; ing_db : Db; ing_up : bool }.
Arguments mkIngester {Src Db}.
Arguments ing_name {Src Db}.
Arguments ing_source {Src Db}.
Arguments ing_db {Src Db}.
Arguments ing_up {Src Db}.

Lemma failing_length {F Src A} (heads : list Src) (readHead : Src -> result F A) :
  length (failing heads readHead) = length (filter (fun h => ok_of (readHead h) = None) heads).
Proof.
  unfold failing. induction heads as [|h heads IH] using rev_ind; [done|]. rewrite length_app, seq_app, !filter_app, !length_app. cbn [length seq Nat.add].
  f_equal.
  - rewrite <- IH. f_equal. apply filter_ext_in. intros i Hi%elem_of_seq. by rewrite lookup_app_l by lia.
  - rewrite !filter_cons, !filter_nil. rewrite lookup_app_r, Nat.sub_diag by lia. cbn [lookup list_lookup mbind option_bind].
    by destruct (ok_of (readHead h)).
Qed.

Section replicas.
Context {F Src Db : Type} (canceled : F -> bool) (opts : HeadsOptions F) (ings : list (Ingester Src Db)).
Abbreviation heads := (ing_source <$> ings).
Abbreviation down := (filter (fun x => ing_up x = false) ings).
Abbreviation alive := (ing_db <$> filter (fun x => ing_up x = true) ings).

Definition skippable_error {A} (o : result F A) : Prop := exists e, o = Err e /\ skip canceled opts false e = true.
Context (Hdown : Z.of_nat (length down) <= Tolerate opts) (Hup : exists x, x ∈ ings /\ ing_up x = true).

(** One read of every head: an answer from those that are up, a skippable error
    from the others. *)
Lemma read_every {A} (readHead : Src -> result F A) (Q : Db -> A -> Prop) :
  (forall x, x ∈ ings -> ing_up x = true -> exists a, readHead (ing_source x) = Ok a /\ Q (ing_db x) a) ->
  (forall x, x ∈ ings -> ing_up x = false -> skippable_error (readHead (ing_source x))) ->
  survivable canceled opts heads readHead /\ exists d ds a outs,
  alive = d :: ds /\ omap (fun h => ok_of (readHead h)) heads = a :: outs /\ Q d a /\ Forall2 Q ds outs.
Proof.
  intros Hok Herr. split.
  - split.
    + apply Forall_fmap, Forall_forall. intros x Hx. cbn. destruct (ing_up x) eqn:E.
      * destruct (Hok x Hx E) as (a & -> & _). done.
      * destruct (Herr x Hx E) as (e & -> & Hs). done.
    + rewrite failing_length. etransitivity; [|exact Hdown]. apply inj_le. clear Hdown Hup.
      induction ings as [|x l IH]; [done|]. rewrite fmap_cons, !filter_cons. assert (IH' := IH (fun y Hy => Hok y (list_elem_of_further _ _ _ Hy)) (fun y Hy => Herr y (list_elem_of_further _ _ _ Hy))).
      destruct (ing_up x) eqn:E.
      * destruct (Hok x (list_elem_of_here _ _) E) as (a & -> & _). by rewrite !decide_False.
      * destruct (Herr x (list_elem_of_here _ _) E) as (e & -> & _). rewrite !decide_True by done. cbn. lia.
  - assert (HF : Forall2 Q alive (omap (fun h => ok_of (readHead h)) heads)).
    { clear Hdown Hup. induction ings as [|x l IH]; [constructor|]. rewrite fmap_cons, filter_cons.
      assert (IH' := IH (fun y Hy => Hok y (list_elem_of_further _ _ _ Hy)) (fun y Hy => Herr y (list_elem_of_further _ _ _ Hy))).
      cbn [omap list_omap]. destruct (ing_up x) eqn:E.
      - destruct (Hok x (list_elem_of_here _ _) E) as (a & -> & Ha). rewrite decide_True by done. cbn. by constructor.
      - destruct (Herr x (list_elem_of_here _ _) E) as (e & -> & _). by rewrite decide_False. }
    destruct Hup as (x & Hx & Ex). inversion HF as [Hn|d a ds outs HQ HF' Hd Ha].
    + exfalso. symmetry in Hn. apply fmap_nil_inv in Hn. apply (not_elem_of_nil x). rewrite <- Hn. by apply list_elem_of_filter.
    + by exists d, ds, a, outs.
Qed.

End replicas.

(** [w] ingesters of distinct names satisfy [P]. *)
Definition replicated_on {Src Db} (ings : list (Ingester Src Db)) (w : nat) (P : Ingester Src Db -> Prop) : Prop :=
  exists names, NoDup names /\ (w <= length names)%nat /\ forall n, n ∈ names -> exists x, x ∈ ings /\ ing_name x = n /\ P x.

(** With fewer ingesters down than replicas, one replica is up. *)
Lemma up_replica {Src Db} (ings : list (Ingester Src Db)) w P : NoDup (ing_name <$> ings) -> (length (filter (fun x => ing_up x = false) ings) < w)%nat -> replicated_on ings w P ->
  exists x, x ∈ ings /\ ing_up x = true /\ P x.
Proof.
  intros Hnd Hlt (names & Hn & Hlen & Hall). set (downs := ing_name <$> filter (fun x => ing_up x = false) ings).
  assert (Hex : exists n, n ∈ names /\ n ∉ downs).
  { destruct (decide (Forall (fun n => n ∈ downs) names)) as [HF|HF].
    - exfalso. rewrite Forall_forall in HF. pose proof (submseteq_length _ _ (NoDup_submseteq names downs Hn HF)) as Hl. unfold downs in Hl. rewrite length_fmap in Hl. lia.
    - apply not_Forall_Exists in HF; [|apply _]. apply Exists_exists in HF as (n & Hin & Hout). by exists n. }
  destruct Hex as (n & Hin & Hout). destruct (Hall n Hin) as (x & Hx & <- & HP). exists x. split_and!; [done| |done].
  destruct (ing_up x) eqn:E; [done|]. exfalso. apply Hout. apply list_elem_of_fmap_2. by apply list_elem_of_filter.
Qed.
