(* ===== verification/Heads.v ===== *)
(** * Heads: reading replicated ingesters, some of which may be down

    [internal/metrics/merge.go]: [MergeHeads] and [MergeHeadsWith], the concurrent
    read of [Gather] over metrics sources, and the databases it answers for. *)
From S2P Require Import Prelude GoLib GoSort Chunk Labels Dedup Ring Source Quorum Gather.

(** ** The code *)

Definition fixedSource (series : list SeriesData) (strs : list string) : Source :=
  mkSource (fun _ _ => Ok series) (fun _ => Ok strs) (fun _ _ => Ok strs).

Definition heads_Select (canceled : srcErr -> bool) (opts : HeadsOptions srcErr) (sched : schedule) (heads : list Source) (ctx : context) (p : SelectParams)
  : result srcErr (list SeriesData * list nat) :=
  _ ← Validate p;
  collect Merge canceled opts sched heads (fun h => src_Select h ctx p) (fun a => fixedSource a []) (fun s => src_Select s ctx p) [].
Definition heads_LabelNames (canceled : srcErr -> bool) (opts : HeadsOptions srcErr) (sched : schedule) (heads : list Source) (ctx : context) : result srcErr (list string * list nat) :=
  collect Merge canceled opts sched heads (fun h => src_LabelNames h ctx) (fun a => fixedSource [] a) (fun s => src_LabelNames s ctx) [].
Definition heads_LabelValues (canceled : srcErr -> bool) (opts : HeadsOptions srcErr) (sched : schedule) (heads : list Source) (ctx : context) (name : string) : result srcErr (list string * list nat) :=
  collect Merge canceled opts sched heads (fun h => src_LabelValues h ctx name) (fun a => fixedSource [] a) (fun s => src_LabelValues s ctx name) [].

(** [MergeHeadsWith], as a [Source]. *)
Definition tolerantHeads (canceled : srcErr -> bool) (opts : HeadsOptions srcErr) (sched : schedule) (heads : list Source) : Source := mkSource
  (fun ctx p => out ← heads_Select canceled opts sched heads ctx p; Ok out.1)
  (fun ctx => out ← heads_LabelNames canceled opts sched heads ctx; Ok out.1)
  (fun ctx name => out ← heads_LabelValues canceled opts sched heads ctx name; Ok out.1).
Definition MergeHeads (canceled : srcErr -> bool) (sched : schedule) (heads : list Source) : option Source :=
  match heads with
  | [] => None
  | [h] => Some h
  | _ => Some (tolerantHeads canceled (mkHeadsOptions 0 None) sched heads)
  end.

(** ** Databases up to the order and repetition of writes *)

Definition db_equiv (d1 d2 : database) : Prop := forall l,
  match d1 l, d2 l with Some a, Some b => forall s, In s a <-> In s b | None, None => True | _, _ => False end.
#[export] Instance db_equiv_equivalence : Equivalence db_equiv.
Proof.
  split.
  - intros d l. by destruct (d l).
  - intros d1 d2 H l. specialize (H l). destruct (d1 l), (d2 l); done.
  - intros d1 d2 d3 H12 H23 l. specialize (H12 l). specialize (H23 l). destruct (d1 l), (d2 l), (d3 l); try done.
    intros s. by rewrite H12.
Qed.

Lemma db_equiv_expected d1 d2 p l : db_equiv d1 d2 -> wanted d1 p l = wanted d2 p l.
Proof.
  intros H. specialize (H l). unfold wanted. destruct (d1 l) as [a|], (d2 l) as [b|]; try done. cbn. unfold expected, core.
  by rewrite (sortAndDedup_ext a b) by (intros s; by apply survives_ext).
Qed.
Lemma db_equiv_some d1 d2 l : db_equiv d1 d2 -> is_Some (d1 l) <-> is_Some (d2 l).
Proof. intros H. specialize (H l). destruct (d1 l), (d2 l); try done; split; by intros [? ?]. Qed.

Lemma some_ws (d : database) (P : Labels -> Prop) : (exists l ws, d l = Some ws /\ P l) <-> exists l, is_Some (d l) /\ P l.
Proof. split; [intros (l & ws & E & H); exists l; split; [by eexists|done]|intros (l & [ws E] & H); eauto]. Qed.

Lemma answers_equiv d1 d2 p out : db_equiv d1 d2 -> answers d1 p out -> answers d2 p out.
Proof.
  intros Hd [Hnd H]. split; [done|]. intros sd. rewrite H.
  pose proof (db_equiv_expected d1 d2 p (sd_labels sd) Hd) as Hw. unfold wanted in Hw. split.
  - intros (ws & E & Hm & He). rewrite E in Hw. cbn in Hw. destruct (d2 (sd_labels sd)) as [ws2|]; cbn in Hw; [|congruence]. exists ws2. by rewrite <- Hw.
  - intros (ws & E & Hm & He). rewrite E in Hw. cbn in Hw. destruct (d1 (sd_labels sd)) as [ws1|]; cbn in Hw; [|congruence]. exists ws1. by rewrite Hw.
Qed.
#[export] Instance answers_proper : Proper (db_equiv ==> eq ==> eq ==> iff) answers.
Proof. intros d1 d2 Hd p ? <- out ? <-. split; apply answers_equiv; [done|by symmetry]. Qed.
#[export] Instance lists_names_proper : Proper (db_equiv ==> eq ==> iff) lists_names.
Proof.
  intros d1 d2 Hd out ? <-. unfold lists_names. setoid_rewrite some_ws. by setoid_rewrite (db_equiv_some d1 d2 _ Hd).
Qed.
#[export] Instance lists_values_proper : Proper (db_equiv ==> eq ==> eq ==> iff) lists_values.
Proof.
  intros d1 d2 Hd name ? <- out ? <-. unfold lists_values. setoid_rewrite some_ws. by setoid_rewrite (db_equiv_some d1 d2 _ Hd).
Qed.
#[export] Instance Implements_proper : Proper (eq ==> eq ==> db_equiv ==> iff) Implements.
Proof.
  assert (Hone : forall src ctx d1 d2, db_equiv d1 d2 -> Implements src ctx d1 -> Implements src ctx d2).
  { intros src ctx d1 d2 Hd Hi. split.
    - apply Hi.
    - intros p Hv. destruct (select_answers (src := src) (ctx := ctx) p Hv) as (out & E & H). exists out. by rewrite <- Hd.
    - destruct (names_answers (src := src) (ctx := ctx)) as (out & E & H). exists out. by rewrite <- Hd.
    - intros name. destruct (values_answers (src := src) (ctx := ctx) name) as (out & E & H). exists out. by rewrite <- Hd. }
  intros src ? <- ctx ? <- d1 d2 Hd. split; apply Hone; [done|by symmetry].
Qed.

(** All the writes of several databases. *)
Fixpoint db_all (ds : list database) : database :=
  match ds with [] => fun _ => None | d :: rest => db_union d (db_all rest) end.

Definition holds (d : database) (l : Labels) (s : sample) : Prop := match d l with Some ws => In s ws | None => False end.

Lemma db_all_some ds l : is_Some (db_all ds l) <-> exists d, d ∈ ds /\ is_Some (d l).
Proof.
  induction ds as [|d ds IH]; cbn [db_all].
  - split; [by intros [? ?]|]. by intros (? & []%not_elem_of_nil & _).
  - rewrite db_union_some, IH. setoid_rewrite elem_of_cons. naive_solver.
Qed.
Lemma db_all_holds ds l s : holds (db_all ds) l s <-> exists d, d ∈ ds /\ holds d l s.
Proof.
  induction ds as [|d ds IH]; cbn [db_all].
  - split; [done|]. by intros (? & []%not_elem_of_nil & _).
  - setoid_rewrite elem_of_cons. unfold holds in *. unfold db_union. transitivity (match d l with Some ws => In s ws | None => False end \/ exists d, d ∈ ds /\ match d l with Some ws => In s ws | None => False end); [|naive_solver].
    rewrite <- IH. destruct (d l), (db_all ds l); rewrite ?in_app_iff; tauto.
Qed.
Lemma db_equiv_holds d1 d2 : (forall l, is_Some (d1 l) <-> is_Some (d2 l)) -> (forall l s, holds d1 l s <-> holds d2 l s) -> db_equiv d1 d2.
Proof.
  intros Hs Hh l. specialize (Hs l). specialize (Hh l). unfold holds in Hh. destruct (d1 l), (d2 l); try done.
  - by destruct (proj1 Hs ltac:(by eexists)).
  - by destruct (proj2 Hs ltac:(by eexists)).
Qed.

(** ** Replicated ingesters *)

Abbreviation ingester := (Ingester Source database).

Section replicated.
Context (canceled : srcErr -> bool) (opts : HeadsOptions srcErr) (sched : schedule) (ings : list ingester) (ctx : context).
Abbreviation heads := (ing_source <$> ings).
Abbreviation down := (filter (fun x => ing_up x = false) ings).
Abbreviation alive := (ing_db <$> filter (fun x => ing_up x = true) ings).

(** A head that is down fails every read with an error the options may skip. *)
Definition Down (src : Source) : Prop :=
  (forall p, Validate p = Ok tt -> skippable_error canceled opts (src_Select src ctx p)) /\ skippable_error canceled opts (src_LabelNames src ctx) /\
  forall name, skippable_error canceled opts (src_LabelValues src ctx name).
Definition behaves (x : ingester) : Prop := if ing_up x then Implements (ing_source x) ctx (ing_db x) else Down (ing_source x).

Context (Hsched : live_schedule sched heads) (Hbehave : Forall behaves ings) (Hnc : no_collision (ing_db <$> ings)).
Context (Hdown : Z.of_nat (length down) <= Tolerate opts) (Hup : exists x, x ∈ ings /\ ing_up x = true).

Lemma no_collision_all d ds : no_collision (d :: ds) -> no_collision [d; db_all ds].
Proof.
  intros H l1 l2 d1 d2 H1 H2 S1 S2.
  assert (Hin : forall d' l, d' ∈ [d; db_all ds] -> is_Some (d' l) -> exists d0, d0 ∈ d :: ds /\ is_Some (d0 l)).
  { intros d' l [->|[->|[]%not_elem_of_nil]%elem_of_cons]%elem_of_cons Hs; [exists d; split; [by left|done]|].
    apply db_all_some in Hs as (d0 & Hd & Hs). exists d0. split; [by right|done]. }
  destruct (Hin d1 l1 H1 S1) as (e1 & E1 & F1). destruct (Hin d2 l2 H2 S2) as (e2 & E2 & F2). by apply (H l1 l2 e1 e2).
Qed.

Lemma db_union_nil d : db_equiv (db_union d (db_all [])) d.
Proof. intros l. unfold db_union. cbn. by destruct (d l). Qed.

Lemma fold_select p d ds a outs : Validate p = Ok tt -> no_collision (d :: ds) -> answers d p a -> Forall2 (fun d a => answers d p a) ds outs ->
  exists out, src_Select (fold_heads Merge (fixedSource a []) ((fun a => fixedSource a []) <$> outs)) ctx p = Ok out /\ answers (db_all (d :: ds)) p out.
Proof.
  intros Hv Hn Ha HF. revert d a Hn Ha. induction HF as [|d' a' ds outs Ha' HF IH]; intros d a Hn Ha.
  - exists a. split; [done|]. cbn [db_all]. by rewrite db_union_nil.
  - destruct (IH d' a') as (b & Eb & Hb); [by eapply no_collision_sub, Hn; intros ? ?; right|done|].
    exists (merge_answers a b). cbn [fmap list_fmap fold_heads Merge src_Select]. rewrite Hv. cbn [mbind result_bind]. rewrite Eb. split; [done|].
    change (db_all (d :: d' :: ds)) with (db_union d (db_all (d' :: ds))). apply merge_answers_union; [by apply no_collision_all|done|done].
Qed.
Lemma fold_names d ds a outs : lists_names d a -> Forall2 lists_names ds outs ->
  exists out, src_LabelNames (fold_heads Merge (fixedSource [] a) ((fun a => fixedSource [] a) <$> outs)) ctx = Ok out /\ lists_names (db_all (d :: ds)) out.
Proof.
  intros Ha HF. revert d a Ha. induction HF as [|d' a' ds outs Ha' HF IH]; intros d a Ha.
  - exists a. split; [done|]. cbn [db_all]. by rewrite db_union_nil.
  - destruct (IH d' a' Ha') as (b & Eb & Hb). exists (unionSorted a b). cbn [fmap list_fmap fold_heads Merge src_LabelNames mbind result_bind].
    rewrite Eb. split; [done|]. by apply lists_names_union.
Qed.
Lemma fold_values name d ds a outs : lists_values d name a -> Forall2 (fun d a => lists_values d name a) ds outs ->
  exists out, src_LabelValues (fold_heads Merge (fixedSource [] a) ((fun a => fixedSource [] a) <$> outs)) ctx name = Ok out /\ lists_values (db_all (d :: ds)) name out.
Proof.
  intros Ha HF. revert d a Ha. induction HF as [|d' a' ds outs Ha' HF IH]; intros d a Ha.
  - exists a. split; [done|]. cbn [db_all]. by rewrite db_union_nil.
  - destruct (IH d' a' Ha') as (b & Eb & Hb). exists (unionSorted a b). cbn [fmap list_fmap fold_heads Merge src_LabelValues mbind result_bind].
    rewrite Eb. split; [done|]. by apply lists_values_union.
Qed.

Lemma alive_no_collision : no_collision alive.
Proof. eapply no_collision_sub, Hnc. intros d (x & -> & [_ Hx]%list_elem_of_filter)%list_elem_of_fmap. by apply list_elem_of_fmap_2. Qed.

Lemma behaves_up x : x ∈ ings -> ing_up x = true -> Implements (ing_source x) ctx (ing_db x).
Proof. intros Hx E. rewrite Forall_forall in Hbehave. specialize (Hbehave x Hx). unfold behaves in Hbehave. by rewrite E in Hbehave. Qed.
Lemma behaves_down x : x ∈ ings -> ing_up x = false -> Down (ing_source x).
Proof. intros Hx E. rewrite Forall_forall in Hbehave. specialize (Hbehave x Hx). unfold behaves in Hbehave. by rewrite E in Hbehave. Qed.

(** Within the tolerance, the reader is the merge of the heads that are up. *)
Lemma tolerantHeads_implements : Implements (tolerantHeads canceled opts sched heads) ctx (db_all alive).
Proof.
  pose proof alive_no_collision as Hanc. split; cbn [tolerantHeads src_Select src_LabelNames src_LabelValues].
  - intros p e Hv. unfold heads_Select. by rewrite Hv.
  - intros p Hv. unfold heads_Select. rewrite Hv. cbn [mbind result_bind].
    destruct (read_every canceled opts ings Hdown Hup (fun h => src_Select h ctx p) (fun d a => answers d p a)) as (Hs & d & ds & a & outs & Ed & Eo & Ha & HF).
    { intros x Hx E. pose proof (behaves_up x Hx E) as Hi. by apply select_answers. }
    { intros x Hx E. by apply (behaves_down x Hx E). }
    rewrite (collect_survives Merge canceled opts sched heads _ _ _ _ Hsched Hs), Eo. rewrite Ed in *.
    destruct (fold_select p d ds a outs Hv Hanc Ha HF) as (out & -> & Hout). by exists out.
  - unfold heads_LabelNames. destruct (read_every canceled opts ings Hdown Hup (fun h => src_LabelNames h ctx) lists_names) as (Hs & d & ds & a & outs & Ed & Eo & Ha & HF).
    { intros x Hx E. pose proof (behaves_up x Hx E) as Hi. by apply names_answers. }
    { intros x Hx E. by apply (behaves_down x Hx E). }
    rewrite (collect_survives Merge canceled opts sched heads _ _ _ _ Hsched Hs), Eo. rewrite Ed.
    destruct (fold_names d ds a outs Ha HF) as (out & -> & Hout). by exists out.
  - intros name. unfold heads_LabelValues. destruct (read_every canceled opts ings Hdown Hup (fun h => src_LabelValues h ctx name) (fun d a => lists_values d name a)) as (Hs & d & ds & a & outs & Ed & Eo & Ha & HF).
    { intros x Hx E. pose proof (behaves_up x Hx E) as Hi. by apply values_answers. }
    { intros x Hx E. by apply (behaves_down x Hx E). }
    rewrite (collect_survives Merge canceled opts sched heads _ _ _ _ Hsched Hs), Eo. rewrite Ed.
    destruct (fold_values name d ds a outs Ha HF) as (out & -> & Hout). by exists out.
Qed.
End replicated.

Lemma fold_select_ok ctx p a outs : Validate p = Ok tt ->
  exists out, src_Select (fold_heads Merge (fixedSource a []) ((fun a => fixedSource a []) <$> outs)) ctx p = Ok out.
Proof.
  intros Hv. revert a. induction outs as [|a' outs IH]; intros a; [by exists a|]. destruct (IH a') as (out & E).
  cbn [fmap list_fmap fold_heads Merge src_Select]. rewrite Hv. cbn [mbind result_bind]. rewrite E. by eexists.
Qed.

(** ** Properties *)

(** The order in which heads answer does not show: for any two arrival
    orders (and any number of results queued when a read is decided) a valid read
    either answers the same data and reports the same skipped heads, namely the
    failing ones, or fails in both. It answers exactly when every failure is
    skippable, no more heads failed than tolerated, and some head answered; one
    failure more, or one that is not an outage, fails the read. *)
Theorem heads_order_independent (canceled : srcErr -> bool) (opts : HeadsOptions srcErr) (heads : list Source) (ctx : context) (p : SelectParams) (s1 s2 : schedule) :
  0 <= Tolerate opts -> heads <> [] -> Validate p = Ok tt -> live_schedule s1 heads -> live_schedule s2 heads ->
  let readHead := fun h => src_Select h ctx p in
  match heads_Select canceled opts s1 heads ctx p, heads_Select canceled opts s2 heads ctx p with
  | Ok a, Ok b => a = b /\ a.2 = failing heads readHead /\ survivable canceled opts heads readHead /\ exists h x, h ∈ heads /\ readHead h = Ok x
  | Err _, Err _ => ~ survivable canceled opts heads readHead \/ forall h, h ∈ heads -> exists e, readHead h = Err e
  | _, _ => False
  end.
Proof.
  intros HT Hne Hv H1 H2. set (readHead := fun h => src_Select h ctx p). cbn zeta. unfold heads_Select. rewrite Hv. cbn [mbind result_bind]. fold readHead.
  assert (Hdec : Decision (survivable canceled opts heads readHead)).
  { destruct (decide (tolerated canceled opts (omap (fun e : nat * bool => match heads !! e.1 with Some h => Some (mkHR e.1 (readHead h) e.2) | None => None end) (arrivals s1)))) as [Ht|Ht];
      [left|right]; by rewrite (survivable_tolerated canceled opts s1 heads readHead H1). }
  destruct Hdec as [Hs|Hs].
  - destruct (omap (fun h => ok_of (readHead h)) heads) as [|a outs] eqn:Eo.
    + destruct (collect_all_down Merge canceled opts s1 heads readHead (fun a => fixedSource a []) readHead [] H1 Hne Eo HT) as (e1 & ->).
      destruct (collect_all_down Merge canceled opts s2 heads readHead (fun a => fixedSource a []) readHead [] H2 Hne Eo HT) as (e2 & ->).
      right. intros h Hh. destruct (readHead h) as [a|e] eqn:E; [|by exists e]. exfalso. apply (not_elem_of_nil a). rewrite <- Eo.
      apply list_elem_of_omap. exists h. by rewrite E.
    + rewrite (collect_survives Merge canceled opts s1 heads readHead _ _ _ H1 Hs), (collect_survives Merge canceled opts s2 heads readHead _ _ _ H2 Hs), Eo.
      destruct (fold_select_ok ctx p a outs Hv) as (out & Eout). change (src_Select ?h ctx p) with (readHead h) in Eout. rewrite Eout. cbn [mbind result_bind]. split_and!; try done.
      assert (Ha : a ∈ omap (fun h => ok_of (readHead h)) heads) by (rewrite Eo; by left). apply list_elem_of_omap in Ha as (h & Hh & E).
      exists h. destruct (readHead h) as [x|] eqn:Eh; [|done]. by exists x.
  - destruct (collect_lost Merge canceled opts s1 heads readHead (fun a => fixedSource a []) readHead [] H1 HT Hs) as (e1 & ->).
    destruct (collect_lost Merge canceled opts s2 heads readHead (fun a => fixedSource a []) readHead [] H2 HT Hs) as (e2 & ->). by left.
Qed.

(** Skipping loses nothing: if every series and every write of the complete
    database [full] is held by at least [w] ingesters of distinct names, and at
    most [Tolerate < w] of the ingesters are down, then reading the ones that are
    up answers exactly for [full] — select, label names and label values, in any
    order of arrival. *)
Theorem heads_complete (canceled : srcErr -> bool) (opts : HeadsOptions srcErr) (sched : schedule) (ings : list ingester) (ctx : context) (full : database) (w : nat) :
  live_schedule sched (ing_source <$> ings) -> Forall (behaves canceled opts ctx) ings -> no_collision (ing_db <$> ings) -> NoDup (ing_name <$> ings) -> ings <> [] ->
  Z.of_nat (length (filter (fun x => ing_up x = false) ings)) <= Tolerate opts -> Tolerate opts < Z.of_nat w ->
  (exists l, is_Some (full l)) ->
  (forall x : ingester, x ∈ ings -> (forall l, is_Some (ing_db x l) -> is_Some (full l)) /\ forall l s, holds (ing_db x) l s -> holds full l s) ->
  (forall l, is_Some (full l) -> replicated_on ings w (fun x : ingester => is_Some (ing_db x l))) ->
  (forall l s, holds full l s -> replicated_on ings w (fun x : ingester => holds (ing_db x) l s)) ->
  Implements (tolerantHeads canceled opts sched (ing_source <$> ings)) ctx full.
Proof.
  intros Hsched Hb Hnc Hnd Hne Hdown Hw [l0 Hl0] Hsub Hser Hwr.
  assert (Hup : exists x, x ∈ ings /\ ing_up x = true).
  { destruct (up_replica ings w _ Hnd ltac:(lia) (Hser l0 Hl0)) as (x & Hx & E & _). by exists x. }
  rewrite <- (db_equiv_holds (db_all (ing_db <$> filter (fun x => ing_up x = true) ings)) full).
  - by apply tolerantHeads_implements.
  - intros l. rewrite db_all_some. split.
    + intros (d & (x & -> & [_ Hx]%list_elem_of_filter)%list_elem_of_fmap & Hd). by apply (Hsub x Hx).
    + intros Hl. destruct (up_replica ings w _ Hnd ltac:(lia) (Hser l Hl)) as (x & Hx & E & Hd). exists (ing_db x). split; [|done].
      apply list_elem_of_fmap_2. by apply list_elem_of_filter.
  - intros l s. rewrite db_all_holds. split.
    + intros (d & (x & -> & [_ Hx]%list_elem_of_filter)%list_elem_of_fmap & Hd). by apply (Hsub x Hx).
    + intros Hl. destruct (up_replica ings w _ Hnd ltac:(lia) (Hwr l s Hl)) as (x & Hx & E & Hd). exists (ing_db x). split; [|done].
      apply list_elem_of_fmap_2. by apply list_elem_of_filter.
Qed.

Definition sample_of (it : PendingSample) : sample := mkSample (ps_ts it) (ps_val it) (ps_gen it).

(** The members that acknowledged an item's replica set, from the pushes' results. *)
Lemma acked_names results r : NoDup results.*1 ->
  let names := (filter (fun x : string * option pushErr => x.1 ∈ r /\ x.2 = None) results).*1 in
  NoDup names /\ length names = ack_n results r /\ forall n, n ∈ names -> n ∈ r /\ (n, None) ∈ results.
Proof.
  intros Hnd names. split_and!.
  - eapply sublist_NoDup; [exact Hnd|]. apply fmap_sublist, sublist_filter.
  - apply length_fmap.
  - intros n ([n' o] & -> & [[Hn Ho] Hin]%list_elem_of_filter)%list_elem_of_fmap. cbn in *. by subst o.
Qed.

(** A write some database holds is in every select that covers it, unless a later
    write of its timestamp outranks it. *)
Lemma select_shows src ctx db l s q : Implements src ctx db -> holds db l s -> Validate q = Ok tt -> SeriesOnly q = false ->
  matches (p_sel q) l -> MinT q <= s_ts s <= MaxT q ->
  exists out sd k, src_Select src ctx q = Ok out /\ sd ∈ out /\ sd_labels sd = l /\ k ∈ sd_samples sd /\ s_ts k = s_ts s /\ (s = k \/ outranks k s = true).
Proof.
  intros Hi Hh Hv Hso Hm Hr. destruct (select_answers (src := src) (ctx := ctx) q Hv) as (out & E & Hnd & Hout).
  unfold holds in Hh. destruct (db l) as [ws|] eqn:El; [|done]. destruct (survivor_exists ws s Hh) as (k & Hk & Hkt & Hks).
  assert (Hin : k ∈ (core q ws).1).
  { cbn. apply list_elem_of_filter. split; [lia|]. apply list_elem_of_In, sortAndDedup_spec, Hk. }
  exists out, (mkSeries l (core q ws).2 (core q ws).1), k. split_and!; try done. apply Hout. exists ws. split_and!; [done|done|].
  unfold expected, to_answer. rewrite Hso. cbn [andb]. destruct (Z.ltb_spec (MaxT q) (MinT q)); [lia|].
  destruct (core q ws) as [[|x ss] a]; [by apply not_elem_of_nil in Hin|done].
Qed.

(** C3. An acknowledged write is readable while a minority is down. The gateway
    answered OK to the batch; each ingester that acknowledged its push holds the
    items it was sent. Then, with fewer ingesters down than a quorum and a reader
    that tolerates at most that, every read covering a sample of the batch
    returns it, or a write of the same timestamp that outranks it. *)
Theorem acknowledged_write_is_read (MemberLabel : string -> string) (route : Z -> result ringErr (list string)) (rf : nat) (ms : list string)
  (canceled : srcErr -> bool) (opts : HeadsOptions srcErr) (sched : schedule) (ings : list ingester) (ctx : context)
  (items : list PendingSample) (p : plan PendingSample) (results : list (string * option pushErr)) :
  let key := fun it => Hash (ps_Labels it) in
  Routes route rf ms -> (1 <= rf)%nat -> make_plan key route items = Ok p -> results.*1 ≡ₚ (map_to_list (groups p)).*1 ->
  replicate_batch MemberLabel route rf key items None false results None = Ok tt ->
  (forall m, m ∈ ms -> exists x, x ∈ ings /\ ing_name x = m) -> NoDup (ing_name <$> ings) ->
  (forall x : ingester, x ∈ ings -> (ing_name x, None) ∈ results -> forall it, it ∈ default [] (groups p !! ing_name x) -> holds (ing_db x) (ps_Labels it) (sample_of it)) ->
  live_schedule sched (ing_source <$> ings) -> Forall (behaves canceled opts ctx) ings -> no_collision (ing_db <$> ings) ->
  Z.of_nat (length (filter (fun x => ing_up x = false) ings)) <= Tolerate opts -> Tolerate opts < Z.of_nat (quorum rf) ->
  forall it q, it ∈ items -> Validate q = Ok tt -> SeriesOnly q = false -> matches (p_sel q) (ps_Labels it) -> MinT q <= ps_ts it <= MaxT q ->
  exists out sd k, src_Select (tolerantHeads canceled opts sched (ing_source <$> ings)) ctx q = Ok out /\ sd ∈ out /\ sd_labels sd = ps_Labels it /\
    k ∈ sd_samples sd /\ s_ts k = ps_ts it /\ (sample_of it = k \/ outranks k (sample_of it) = true).
Proof.
  intros key Hroute Hrf Ep Hres Hok Hmem Hnd Hstored Hsched Hb Hnc Hdown Hw it q Hit Hv Hso Hm Hr.
  destruct (make_plan_ok key route rf ms items) as (p' & Ep' & Hp). rewrite Ep in Ep'. injection Ep' as <-.
  assert (Hrnd : NoDup results.*1) by (rewrite Hres; apply NoDup_fst_map_to_list).
  pose proof (batch_acked key route rf ms MemberLabel Hrf items p results Hp Ep Hres Hok it Hit) as Hack.
  destruct (acked_names results (replicas_of route (key it)) Hrnd) as (An & Al & Ain). set (names := (filter _ results).*1) in *.
  assert (Hrep : replicated_on ings (quorum rf) (fun x : ingester => holds (ing_db x) (ps_Labels it) (sample_of it))).
  { exists names. split_and!; [done|by rewrite Al|]. intros n Hn. destruct (Ain n Hn) as [Hnr Hnres].
    destruct (route_spec (key it)) as (reps & Er & _ & _ & Hsub). assert (Hreps : replicas_of route (key it) = reps) by (unfold replicas_of; by rewrite Er).
    rewrite Hreps in Hnr. destruct (Hmem n (Hsub n Hnr)) as (x & Hx & En). exists x. split_and!; [done|done|].
    apply (Hstored x Hx); [by rewrite En|]. rewrite (po_groups _ _ _ _ Hp), En. apply list_elem_of_filter. by rewrite Hreps. }
  destruct (up_replica ings (quorum rf) _ Hnd ltac:(lia) Hrep) as (x & Hx & Eu & Hh).
  apply (select_shows _ ctx (db_all (ing_db <$> filter (fun x => ing_up x = true) ings)) (ps_Labels it) (sample_of it) q); try done.
  - apply tolerantHeads_implements; try done. by exists x.
  - apply db_all_holds. exists (ing_db x). split; [|done]. apply list_elem_of_fmap_2. by apply list_elem_of_filter.
Qed.

(** *** Witnesses *)

Definition no_cancel (e : srcErr) : bool := false.
Definition outage_only : HeadsOptions srcErr := mkHeadsOptions 1 (Some (fun e => match e with ErrStore _ => true | _ => false end)).
Definition dead_source : Source := mkSource
  (fun _ p => _ ← Validate p; Err (ErrStore 503)) (fun _ => Err (ErrStore 503)) (fun _ _ => Err (ErrStore 503)).
Definition three (mid_up : bool) : list ingester :=
  [mkIngester "a" (ref_source table1) (db_of table1) true;
   mkIngester "b" (if mid_up then ref_source table1 else dead_source) (db_of table1) mid_up;
   mkIngester "c" (ref_source table1) (db_of table1) true].
Definition late_b : schedule := mkSchedule [(2%nat, false); (0%nat, false); (1%nat, false)] 5.
Definition early_b : schedule := mkSchedule [(1%nat, false); (2%nat, false); (0%nat, false)] 0.

Lemma three_live s : s ∈ [late_b; early_b] -> live_schedule s (ing_source <$> three false).
Proof.
  intros [->|[->|[]%not_elem_of_nil]%elem_of_cons]%elem_of_cons; (split; [|repeat constructor]); cbn.
  - change [0%nat; 1%nat; 2%nat] with ([0%nat; 1%nat] ++ [2%nat]). apply Permutation_cons_append.
  - symmetry. change [1%nat; 2%nat; 0%nat] with ([1%nat; 2%nat] ++ [0%nat]). apply Permutation_cons_append.
Qed.
Lemma three_behave : Forall (behaves no_cancel outage_only None) (three false).
Proof.
  assert (Hr : Implements (ref_source table1) None (db_of table1)) by (apply ref_source_implements; [apply table1_nodup|apply table1_wf]).
  repeat (apply Forall_cons_2); [exact Hr| |exact Hr|constructor]. split_and!.
  - intros p Hv. exists (ErrStore 503). cbn. by rewrite Hv.
  - by exists (ErrStore 503).
  - intros name. by exists (ErrStore 503).
Qed.
Lemma three_no_collision b : no_collision (ing_db <$> three b).
Proof. eapply no_collision_sub, tables_no_collision. intros d Hd. cbn in Hd. set_solver. Qed.
Lemma three_names b : NoDup (ing_name <$> three b).
Proof. apply (bool_decide_unpack _). by vm_compute. Qed.

Lemma heads_order_independent_witness : exists out,
  heads_Select no_cancel outage_only late_b (ing_source <$> three false) None read_all = Ok out /\
  heads_Select no_cancel outage_only early_b (ing_source <$> three false) None read_all = Ok out /\ out.2 = [1%nat].
Proof.
  assert (Hne : ing_source <$> three false <> []) by (intros E%fmap_nil_inv; discriminate E).
  pose proof (heads_order_independent no_cancel outage_only (ing_source <$> three false) None read_all late_b early_b ltac:(cbn; lia) Hne eq_refl
    (three_live late_b ltac:(by left)) (three_live early_b ltac:(by right; left))) as H. cbn zeta in H.
  destruct (heads_Select no_cancel outage_only late_b _ _ _) as [a|e] eqn:E1.
  - destruct (heads_Select no_cancel outage_only early_b _ _ _) as [b|e2]; [|contradiction]. destruct H as (<- & Hf & _). exists a.
    split; [reflexivity|]. split; [reflexivity|]. rewrite Hf. vm_compute. reflexivity.
  - assert (Hok : match heads_Select no_cancel outage_only late_b (ing_source <$> three false) None read_all with Ok _ => true | Err _ => false end = true) by (vm_compute; reflexivity).
    rewrite E1 in Hok. discriminate Hok.
Defined.

Lemma heads_complete_witness : Implements (tolerantHeads no_cancel outage_only late_b (ing_source <$> three false)) None (db_of table1).
Proof.
  assert (Hall : forall P : ingester -> Prop, (forall x, x ∈ three false -> ing_db x = db_of table1 -> P x) -> replicated_on (three false) 2 P).
  { intros P HP. exists ["a"; "b"]%string. split; [apply (bool_decide_unpack _); by vm_compute|]. split; [cbn; lia|].
    intros n Hn. destruct (list_elem_of_lookup_1 _ _ Hn) as [i Hi]. destruct i as [|[|i]]; cbn in Hi; [| |done]; injection Hi as <-.
    - eexists. split; [by left|]. split; [done|]. apply HP; [by left|done].
    - eexists. split; [by right; left|]. split; [done|]. apply HP; [by right; left|done]. }
  assert (Hdb : forall x, x ∈ three false -> ing_db x = db_of table1).
  { intros x Hx. cbn in Hx. repeat (apply elem_of_cons in Hx as [->|Hx]; [done|]). by apply not_elem_of_nil in Hx. }
  apply (heads_complete no_cancel outage_only late_b (three false) None (db_of table1) 2).
  - apply three_live. by left.
  - apply three_behave.
  - apply three_no_collision.
  - apply three_names.
  - done.
  - vm_compute. discriminate.
  - vm_compute. reflexivity.
  - exists row_acme. vm_compute. by eexists.
  - intros x Hx. rewrite (Hdb x Hx). done.
  - intros l Hl. apply Hall. intros x _ E. by rewrite E.
  - intros l s Hl. apply Hall. intros x _ E. by rewrite E.
Defined.

Definition acme_item : PendingSample := mkPending row_acme 10 1 5.
Definition acme_plan : plan PendingSample :=
  match make_plan (fun it => Hash (ps_Labels it)) trio [acme_item] with Ok p => p | Err _ => empty_plan end.
Definition acme_results : list (string * option pushErr) := [("c"%string, None); ("a"%string, None); ("b"%string, Some an_outage)].

Lemma acknowledged_write_is_read_witness : exists out sd k,
  src_Select (tolerantHeads no_cancel outage_only late_b (ing_source <$> three false)) None read_all = Ok out /\ sd ∈ out /\ sd_labels sd = row_acme /\
  k ∈ sd_samples sd /\ s_ts k = 10 /\ (mkSample 10 1 5 = k \/ outranks k (mkSample 10 1 5) = true).
Proof.
  apply (acknowledged_write_is_read (fun s => s) trio 3 ["a"; "b"; "c"]%string no_cancel outage_only late_b (three false) None [acme_item] acme_plan acme_results) with (it := acme_item) (q := read_all).
  - apply trio_routes.
  - lia.
  - reflexivity.
  - vm_compute. reflexivity.
  - vm_compute. reflexivity.
  - intros m Hm. destruct (list_elem_of_lookup_1 _ _ Hm) as [i Hi]. destruct i as [|[|[|i]]]; cbn in Hi; [| | |done]; injection Hi as <-.
    + eexists. split; [by left|done].
    + eexists. split; [by right; left|done].
    + eexists. split; [by right; right; left|done].
  - apply three_names.
  - intros x Hx _ it Hit. assert (E : it = acme_item).
    { cbn in Hx. repeat (apply elem_of_cons in Hx as [->|Hx]; [vm_compute in Hit; apply list_elem_of_singleton in Hit; exact Hit|]). by apply not_elem_of_nil in Hx. }
    rewrite E. cbn in Hx. repeat (apply elem_of_cons in Hx as [->|Hx]; [vm_compute; by left|]). by apply not_elem_of_nil in Hx.
  - apply three_live. by left.
  - apply three_behave.
  - apply three_no_collision.
  - vm_compute. discriminate.
  - vm_compute. reflexivity.
  - by left.
  - reflexivity.
  - reflexivity.
  - apply (bool_decide_unpack _). by vm_compute.
  - vm_compute. split; discriminate.
Defined.
