(* ===== verification/Limits.v ===== *)
(** * Limits: per-tenant limits and the admission of pushes

    [internal/limits/gate.go] ([Share], [Gate.Admit]), the batch keys and append
    loop its callers give it ([internal/rpc/server.go]), and the limits a tenant has
    ([internal/tenant/overrides.go]). A gate holds every limited tenant's mutex from
    its check through the append, so one push is one step, and pushes that share a
    tenant are a sequence of steps. *)
From stdpp Require Import fin_sets.
From S2P Require Import Prelude GoLib GoSort Chunk Labels Source MemStore Quorum.

(** ** A tenant's limits *)

Record Override := mkOverride {
  o_Retention : option Z; o_MaxActiveSeries : option Z; o_MaxActiveStreams : option Z;
  o_MaxMetricsPushBytes : option Z; o_MaxLogsPushBytes : option Z }.
Record Defaults := mkDefaults {
  d_Retention : Z; d_MaxActiveSeries : Z; d_MaxActiveStreams : Z; d_MaxMetricsPushBytes : Z; d_MaxLogsPushBytes : Z }.
Record Limits := mkLimits { lim_d : Defaults; lim_o : gmap string Override }.

Definition Retention (l : Limits) (id : string) : Z :=
  match lim_o l !! id with Some o => match o_Retention o with Some d => d | None => d_Retention (lim_d l) end | None => d_Retention (lim_d l) end.
Definition MaxActiveSeries (l : Limits) (id : string) : Z :=
  match lim_o l !! id with Some o => match o_MaxActiveSeries o with Some d => d | None => d_MaxActiveSeries (lim_d l) end | None => d_MaxActiveSeries (lim_d l) end.
Definition MaxActiveStreams (l : Limits) (id : string) : Z :=
  match lim_o l !! id with Some o => match o_MaxActiveStreams o with Some d => d | None => d_MaxActiveStreams (lim_d l) end | None => d_MaxActiveStreams (lim_d l) end.
Definition MaxMetricsPushBytes (l : Limits) (id : string) : Z :=
  match lim_o l !! id with Some o => match o_MaxMetricsPushBytes o with Some d => d | None => d_MaxMetricsPushBytes (lim_d l) end | None => d_MaxMetricsPushBytes (lim_d l) end.
Definition MaxLogsPushBytes (l : Limits) (id : string) : Z :=
  match lim_o l !! id with Some o => match o_MaxLogsPushBytes o with Some d => d | None => d_MaxLogsPushBytes (lim_d l) end | None => d_MaxLogsPushBytes (lim_d l) end.

Record RetentionPolicy := mkPolicy { rp_Default : Z; rp_Overrides : gmap string Z }.
Definition For (p : RetentionPolicy) (id : string) : Z := match rp_Overrides p !! id with Some d => d | None => rp_Default p end.
Definition retention_policy (l : Limits) : RetentionPolicy :=
  mkPolicy (d_Retention (lim_d l))
    (fold_left (fun m (e : string * Override) => match o_Retention e.2 with Some d => <[e.1 := d]> m | None => m end) (map_to_list (lim_o l)) ∅).

(** ** An ingester's share of a limit *)

(** [bits.Mul64], [bits.Add64] and [bits.Div64], which panics when the quotient
    does not fit. *)
Definition Mul64 (x y : Z) : Z * Z := (Z.shiftr (x * y) 64, u64 (x * y)).
Definition Add64 (x y carry : Z) : Z * Z := (u64 (x + y + carry), Z.shiftr (x + y + carry) 64).
Definition Div64 (hi lo y : Z) : option (Z * Z) :=
  if ((y =? 0) || (y <=? hi))%bool then None else Some ((hi * 2 ^ 64 + lo) / y, (hi * 2 ^ 64 + lo) mod y).

(** [None] is a panic. *)
Definition Share (limit rf n : Z) : option Z :=
  if limit <=? 0 then Some 0 else
  let n := if n <=? 0 then 1 else n in
  if n <=? rf then Some limit else
  let rf := Z.max rf 1 in
  let q := Z.quot limit n in
  let r := Z.rem limit n in
  let '(hi, lo) := Mul64 (u64 r) (u64 rf) in
  let '(lo, carry) := Add64 lo (u64 (i64 (n - 1))) 0 in
  match Div64 (u64 (hi + carry)) lo (u64 n) with
  | None => None
  | Some (extra, _) => let share := i64 (i64 (q * rf) + i64 extra) in Some (Z.min (Z.max share 1) limit)
  end.

(** ** Admission *)

Record LimitError := mkLimitError { le_Tenant : string; le_Limit : Z }.

Section admit_push.
Context {S E : Type} (Count : S -> string -> Z) (Has : S -> Z -> bool) (limit : string -> Z).

(** The loop over one tenant's keys. *)
Fixpoint fresh_loop (s : S) (seen : gset Z) (fresh : Z) (ids : list Z) : Z :=
  match ids with
  | [] => fresh
  | id :: rest =>
      if bool_decide (id ∈ seen) then fresh_loop s seen fresh rest
      else fresh_loop s ({[id]} ∪ seen) (if Has s id then fresh else fresh + 1) rest
  end.
(** The loop over the limited tenants, in sorted order. *)
Fixpoint check_tenants (s : S) (keys : gmap string (list Z)) (limited : list string) : option LimitError :=
  match limited with
  | [] => None
  | t :: rest =>
      let fresh := fresh_loop s ∅ 0 (default [] (keys !! t)) in
      if ((0 <? fresh) && (limit t <? Count s t + fresh))%bool then Some (mkLimitError t (limit t)) else check_tenants s keys rest
  end.
Definition limited_tenants (keys : gmap string (list Z)) : list string :=
  sort_str id (filter (fun t => 0 < limit t) (map_to_list keys).*1).
Definition Admit (s : S) (keys : gmap string (list Z)) (fn : S -> result E unit * S) : result (LimitError + E) unit * S :=
  match check_tenants s keys (limited_tenants keys) with
  | Some le => (Err (inl le), s)
  | None => match fn s with (Ok u, s') => (Ok u, s') | (Err e, s') => (Err (inr e), s') end
  end.

(** What [metricsPush] gives the gate: the batch's keys by tenant, and the loop
    that appends the batch until an append fails. *)
Context (append1 : S -> PendingSample -> result E unit * S).
Fixpoint appendAll (s : S) (batch : list PendingSample) : result E unit * S :=
  match batch with
  | [] => (Ok tt, s)
  | p :: rest => match append1 s p with (Ok _, s') => appendAll s' rest | (Err e, s') => (Err e, s') end
  end.
Definition batch_keys (batch : list PendingSample) : gmap string (list Z) :=
  fold_left (fun keys p => let t := TenantOf (ps_Labels p) in <[t := default [] (keys !! t) ++ [Hash (ps_Labels p)]]> keys) batch ∅.
Definition push_batch (s : S) (batch : list PendingSample) : result (LimitError + E) unit * S :=
  Admit s (batch_keys batch) (fun s => appendAll s batch).
End admit_push.

(** What the head promises the gate: an append either leaves what is counted as it
    was, or makes its series active and counts it once, for its tenant. *)
Class Counts {S E : Type} (Count : S -> string -> Z) (Has : S -> Z -> bool) (append1 : S -> PendingSample -> result E unit * S) (inv : S -> Prop) : Prop := {
  append_inv : forall s p r s', inv s -> append1 s p = (r, s') -> inv s';
  append_counts : forall s p r s', inv s -> append1 s p = (r, s') ->
    ((forall id, Has s' id = Has s id) /\ (forall t, Count s' t = Count s t)) \/
    ((forall id, Has s' id = ((id =? Hash (ps_Labels p)) || Has s id)%bool) /\
     forall t, Count s' t = Count s t + (if decide (TenantOf (ps_Labels p) = t /\ Has s (Hash (ps_Labels p)) = false) then 1 else 0)) }.

(** The head's append, as [AppendWithGeneration] and [Append] reach it. *)
Definition head_append (now : Z) (s : MemoryStore) (p : PendingSample) : result storeErr unit * MemoryStore :=
  if ps_gen p =? 0 then store_Append s now (ps_Labels p) (ps_ts p) (ps_val p) else AppendGen s now (ps_Labels p) (ps_ts p) (ps_val p) (ps_gen p).

(** ** The share is exact *)

Lemma shiftr_64 x : Z.shiftr x 64 = x / 2 ^ 64.
Proof. by rewrite Z.shiftr_div_pow2. Qed.

Lemma share_extra r rf n : 0 <= r < n -> 1 <= rf <= n -> n < 2 ^ 63 ->
  let '(hi, lo) := Mul64 (u64 r) (u64 rf) in let '(lo, carry) := Add64 lo (u64 (i64 (n - 1))) 0 in
  exists rem, Div64 (u64 (hi + carry)) lo (u64 n) = Some ((r * rf + n - 1) / n, rem).
Proof.
  intros Hr Hrf Hn. unfold Mul64, Add64, Div64. rewrite !shiftr_64, !(u64_id r), !(u64_id rf), (i64_id (n - 1)), (u64_id (n - 1)), (u64_id n) by wsolve.
  assert (Hprod : 0 <= r * rf < n * n) by nia. rewrite Z.add_0_r. set (P := r * rf) in *.
  assert (HP : P = 2 ^ 64 * (P / 2 ^ 64) + u64 P) by (unfold u64; apply Z.div_mod; lia).
  assert (Hlo : 0 <= u64 P < 2 ^ 64) by apply in_u64_u64. set (hi := P / 2 ^ 64) in *. set (lo := u64 P) in *.
  assert (Hsum : lo + (n - 1) = 2 ^ 64 * ((lo + (n - 1)) / 2 ^ 64) + u64 (lo + (n - 1))) by (unfold u64; apply Z.div_mod; lia).
  set (c := (lo + (n - 1)) / 2 ^ 64) in *. assert (Hc : 0 <= c <= 1) by (unfold c; split; [apply Z.div_pos; lia|apply Z.lt_succ_r, Z.div_lt_upper_bound; lia]).
  assert (Hl2 : 0 <= u64 (lo + (n - 1)) < 2 ^ 64) by apply in_u64_u64. set (l2 := u64 (lo + (n - 1))) in *.
  assert (Hhi : 0 <= hi + c) by nia. assert (Htot : (hi + c) * 2 ^ 64 + l2 = P + n - 1) by lia.
  assert (Hlt : hi + c < n) by nia. rewrite u64_id by wsolve.
  rewrite (proj2 (Z.eqb_neq n 0)), (proj2 (Z.leb_gt n (hi + c))) by lia. cbn [orb]. rewrite Htot. by eexists.
Qed.

(** An ingester's share of a limit: on every input of an int the computation
    neither panics nor overflows, and is exactly the limit times the replication
    factor over the ring size, rounded up: at least one, never above the limit,
    and enough that the shares of all ingesters cover the limit on every replica. *)
Theorem Share_exact limit rf n : in_i64 limit -> in_i64 rf -> in_i64 n ->
  exists s, Share limit rf n = Some s /\
  (limit <= 0 -> s = 0) /\
  (0 < limit -> Z.max n 1 <= rf -> s = limit) /\
  (0 < limit -> rf < Z.max n 1 -> let n' := Z.max n 1 in let rf' := Z.max rf 1 in
    s = (limit * rf' + n' - 1) / n' /\ 1 <= s <= limit /\ limit * rf' <= n' * s < limit * rf' + n') /\
  in_i64 s.
Proof.
  intros Hl Hrf Hn. unfold Share. destruct (Z.leb_spec limit 0).
  { exists 0. split_and!; try done; try lia. }
  assert (En : (if n <=? 0 then 1 else n) = Z.max n 1) by (destruct (Z.leb_spec n 0); lia). rewrite En. set (n' := Z.max n 1) in *.
  destruct (Z.leb_spec n' rf). { exists limit. split_and!; try done; try lia. }
  set (rf' := Z.max rf 1) in *. assert (Hrf' : 1 <= rf' <= n') by lia.
  assert (Hq : 0 <= limit / n' < 2 ^ 63) by (split; [apply Z.div_pos; lia|apply Z.div_lt_upper_bound; wsolve; nia]).
  assert (Hr : 0 <= limit mod n' < n') by (apply Z.mod_pos_bound; lia). rewrite Z.quot_div_nonneg, Z.rem_mod_nonneg by lia.
  assert (Hlim : limit = n' * (limit / n') + limit mod n') by (apply Z.div_mod; lia).
  set (q := limit / n') in *. set (r := limit mod n') in *.
  pose proof (share_extra r rf' n' ltac:(lia) ltac:(lia) ltac:(wsolve)) as He. destruct (Mul64 _ _) as [hi lo]. destruct (Add64 _ _ _) as [lo2 carry].
  destruct He as (rem & ->). set (x := (r * rf' + n' - 1) / n') in *.
  assert (Hx : n' * x <= r * rf' + n' - 1 < n' * x + n') by (unfold x; pose proof (Z.div_mod (r * rf' + n' - 1) n'); pose proof (Z.mod_pos_bound (r * rf' + n' - 1) n'); lia).
  assert (Hx1 : 0 <= x <= r) by nia.
  assert (Hs : (limit * rf' + n' - 1) / n' = q * rf' + x).
  { symmetry. apply (Z.div_unique_pos _ _ _ (r * rf' + n' - 1 - n' * x)); [lia|]. rewrite Hlim. ring. }
  assert (Hsle : 1 <= q * rf' + x <= limit) by nia.
  rewrite (i64_id (q * rf')), (i64_id x), i64_id by wsolve. rewrite Z.max_l, Z.min_l by lia. exists (q * rf' + x).
  split; [done|]. split; [lia|]. split; [lia|]. split; [|wsolve]. intros _ _. cbn zeta. split; [by rewrite Hs|]. split; [lia|]. nia.
Qed.

(** ** Admission keeps every tenant within its limit *)

Lemma size_add (h : Z) (X : gset Z) : h ∉ X -> size ({[h]} ∪ X) = (1 + size X)%nat.
Proof.
  intros Hh. rewrite (@size_union Z (gset Z) _ _ _ _ _ _ _ numbers.Z.eq_dec gset_fin_set) by set_solver.
  by rewrite (@size_singleton Z (gset Z) _ _ _ _ _ _ _ numbers.Z.eq_dec gset_fin_set).
Qed.

Section within.
Context {S E : Type} (Count : S -> string -> Z) (Has : S -> Z -> bool) (limit : string -> Z)
  (append1 : S -> PendingSample -> result E unit * S) (inv : S -> Prop) `{Hc : !Counts Count Has append1 inv}.
Notation push_batch := (push_batch Count Has limit append1).
Notation appendAll := (appendAll append1).

(** The series IDs of a batch's tenant, and those among them not yet active. *)
Definition ids_of (t : string) (batch : list PendingSample) : list Z := (fun p => Hash (ps_Labels p)) <$> filter (fun p => TenantOf (ps_Labels p) = t) batch.
Definition fresh_set (s : S) (ids : list Z) : gset Z := filter (fun id => Has s id = false) (list_to_set ids).
Definition fresh_count (s : S) (ids : list Z) : Z := Z.of_nat (size (fresh_set s ids)).

Lemma fresh_count_nil s : fresh_count s [] = 0.
Proof. unfold fresh_count. assert (fresh_set s [] = ∅) as -> by (unfold fresh_set; cbn; set_solver). by rewrite size_empty. Qed.

Lemma fresh_loop_spec s ids seen n : fresh_loop Has s seen n ids = n + Z.of_nat (size (fresh_set s ids ∖ seen)).
Proof.
  revert seen n. induction ids as [|h ids IH]; intros seen n; cbn [fresh_loop].
  { assert (fresh_set s [] ∖ seen = ∅) as -> by (unfold fresh_set; cbn; set_solver). rewrite size_empty. lia. }
  destruct (bool_decide_reflect (h ∈ seen)) as [Hin|Hin].
  - rewrite IH. do 3 f_equal. unfold fresh_set. cbn. set_solver.
  - rewrite IH. destruct (Has s h) eqn:Eh.
    + do 3 f_equal. apply set_eq. intros x. unfold fresh_set. cbn. rewrite !elem_of_difference, !elem_of_filter, !elem_of_union, !elem_of_singleton.
      destruct (decide (x = h)) as [->|]; [|tauto]. rewrite Eh. naive_solver.
    + assert (fresh_set s (h :: ids) ∖ seen = {[h]} ∪ (fresh_set s ids ∖ ({[h]} ∪ seen))) as ->.
      { apply set_eq. intros x. unfold fresh_set. cbn. rewrite !elem_of_difference, !elem_of_union, !elem_of_difference, !elem_of_filter, !elem_of_union, !elem_of_singleton.
        destruct (decide (x = h)) as [->|]; [|tauto]. naive_solver. }
      rewrite size_add by set_solver. lia.
Qed.

Lemma batch_keys_spec batch t : default [] (batch_keys batch !! t) = ids_of t batch.
Proof.
  unfold batch_keys. induction batch as [|p batch IH] using rev_ind; [done|]. rewrite fold_left_app. cbn [fold_left].
  unfold ids_of. rewrite filter_app, fmap_app, filter_cons, filter_nil. fold (ids_of t batch). destruct (decide (TenantOf (ps_Labels p) = t)) as [<-|Hne].
  - rewrite lookup_insert_eq, default_Some_eq, IH. done.
  - rewrite lookup_insert_ne, app_nil_r by done. done.
Qed.
Lemma batch_keys_dom batch t : t ∈ (map_to_list (batch_keys batch)).*1 <-> ids_of t batch <> [].
Proof.
  rewrite list_elem_of_fmap. transitivity (is_Some (batch_keys batch !! t)).
  - split; [intros ([t' l] & -> & H%elem_of_map_to_list); by eexists|]. intros [l H]. exists (t, l). split; [done|by apply elem_of_map_to_list].
  - unfold batch_keys. induction batch as [|p batch IH] using rev_ind; [split; [by intros [? ?]|done]|]. rewrite fold_left_app. cbn [fold_left].
    unfold ids_of in *. rewrite filter_app, fmap_app, filter_cons, filter_nil. destruct (decide (TenantOf (ps_Labels p) = t)) as [<-|Hne].
    + rewrite lookup_insert_eq. split; [by intros _ [_ ?]%app_nil|by eexists].
    + by rewrite lookup_insert_ne, app_nil_r.
Qed.

Lemma append_bound batch t : forall s r s', inv s -> appendAll s batch = (r, s') -> inv s' /\ Count s' t <= Count s t + fresh_count s (ids_of t batch).
Proof.
  induction batch as [|p batch IH]; intros s r s' Hi; cbn [Limits.appendAll].
  { intros [= <- <-]. split; [done|]. unfold fresh_count. lia. }
  destruct (append1 s p) as [o s1] eqn:E1. pose proof (append_inv _ _ _ _ Hi E1) as Hi1.
  assert (Hstep : Count s1 t + fresh_count s1 (ids_of t batch) <= Count s t + fresh_count s (ids_of t (p :: batch))).
  { unfold fresh_count. destruct (append_counts _ _ _ _ Hi E1) as [[Hh Hn]|[Hh Hn]]; rewrite Hn.
    - assert (Hsub : fresh_set s1 (ids_of t batch) ⊆ fresh_set s (ids_of t (p :: batch))).
      { intros x. unfold fresh_set. rewrite !elem_of_filter, Hh, !elem_of_list_to_set. intros [H1 H2]. split; [done|].
        unfold ids_of in *. rewrite filter_cons. destruct (decide _); [by right|done]. }
      apply subseteq_size in Hsub. lia.
    - set (h := Hash (ps_Labels p)) in *.
      assert (Hsub : fresh_set s1 (ids_of t batch) ⊆ fresh_set s (ids_of t (p :: batch)) /\ h ∉ fresh_set s1 (ids_of t batch)).
      { unfold fresh_set. split.
        - intros x. rewrite !elem_of_filter, Hh, !elem_of_list_to_set. intros [[_ H1]%orb_false_iff H2]. split; [done|].
          unfold ids_of in *. rewrite filter_cons. destruct (decide _); [by right|done].
        - rewrite elem_of_filter, Hh, Z.eqb_refl. by intros [? _]. }
      destruct Hsub as [Hsub Hnot]. destruct (decide (TenantOf (ps_Labels p) = t /\ Has s h = false)) as [[Ht Hf]|_].
      + assert (Hsub2 : {[h]} ∪ fresh_set s1 (ids_of t batch) ⊆ fresh_set s (ids_of t (p :: batch))).
        { apply union_subseteq. split; [|done]. apply singleton_subseteq_l. unfold fresh_set. apply elem_of_filter. split; [done|].
          apply elem_of_list_to_set. unfold ids_of. rewrite filter_cons_True by done. by left. }
        apply subseteq_size in Hsub2. rewrite size_add in Hsub2 by done. lia.
      + apply subseteq_size in Hsub. lia. }
  destruct o as [u|e].
  - intros E2. destruct (IH _ _ _ Hi1 E2) as [H1 H2]. split; [done|lia].
  - intros [= <- <-]. split; [done|]. pose proof (Hstep). unfold fresh_count in *. lia.
Qed.

Lemma check_tenants_spec s keys limited :
  match check_tenants Count Has limit s keys limited with
  | None => forall t, t ∈ limited -> fresh_count s (default [] (keys !! t)) = 0 \/ Count s t + fresh_count s (default [] (keys !! t)) <= limit t
  | Some le => le_Tenant le ∈ limited /\ le_Limit le = limit (le_Tenant le) /\
      0 < fresh_count s (default [] (keys !! le_Tenant le)) /\ limit (le_Tenant le) < Count s (le_Tenant le) + fresh_count s (default [] (keys !! le_Tenant le))
  end.
Proof.
  induction limited as [|t limited IH]; cbn [check_tenants]; [by intros t []%not_elem_of_nil|].
  assert (Hf : fresh_loop Has s ∅ 0 (default [] (keys !! t)) = fresh_count s (default [] (keys !! t))).
  { rewrite fresh_loop_spec, difference_empty_L. unfold fresh_count. lia. }
  rewrite Hf. destruct (_ && _)%bool eqn:Eb.
  - apply andb_true_iff in Eb as [E1%Z.ltb_lt E2%Z.ltb_lt]. cbn. split; [by left|]. done.
  - destruct (check_tenants _ _ _ _ _ _) as [le|].
    + destruct IH as (H1 & H2). split; [by right|done].
    + intros t' [->|Ht]%elem_of_cons; [|by apply IH]. apply andb_false_iff in Eb as [Eb%Z.ltb_ge|Eb%Z.ltb_ge]; [left|by right].
      assert (0 <= fresh_count s (default [] (keys !! t))) by (unfold fresh_count; lia). lia.
Qed.

Lemma limited_in batch t : t ∈ limited_tenants limit (batch_keys batch) <-> 0 < limit t /\ ids_of t batch <> [].
Proof. unfold limited_tenants. rewrite sort_str_perm, list_elem_of_filter, batch_keys_dom. done. Qed.

(** C33. Admission. A push whose new series would take a limited tenant past its
    limit is refused whole, naming that tenant and limit, and changes nothing. A
    push that is admitted leaves every limited tenant within its limit, or where
    it was if it was already above (a batch without new series is never refused).
    So any sequence of pushes, admitted or not and failing midway or not, keeps
    each limited tenant's active series within the larger of its limit and what it
    started from. *)
Theorem admit_within_limit (s : S) (batches : list (list PendingSample)) : inv s ->
  (forall batch le s', push_batch s batch = (Err (inl le), s') ->
     s' = s /\ le_Limit le = limit (le_Tenant le) /\ 0 < le_Limit le /\
     0 < fresh_count s (ids_of (le_Tenant le) batch) /\ le_Limit le < Count s (le_Tenant le) + fresh_count s (ids_of (le_Tenant le) batch)) /\
  (forall batch, (forall t, 0 < limit t -> fresh_count s (ids_of t batch) = 0 \/ Count s t + fresh_count s (ids_of t batch) <= limit t) ->
     forall le, (push_batch s batch).1 <> Err (inl le)) /\
  forall t, 0 < limit t ->
    Count (fold_left (fun s b => (push_batch s b).2) batches s) t <= Z.max (limit t) (Count s t).
Proof.
  intros Hi. split_and!.
  - intros batch le s'. unfold Limits.push_batch, Admit. pose proof (check_tenants_spec s (batch_keys batch) (limited_tenants limit (batch_keys batch))) as H.
    destruct (check_tenants _ _ _ _ _ _) as [le'|].
    + intros [= -> <-]. destruct H as (H1 & H2 & H3 & H4). rewrite batch_keys_spec in *. apply limited_in in H1 as [H1 _]. by rewrite H2.
    + by destruct (Limits.appendAll _ _ _) as [[?|?] ?].
  - intros batch Hok le. unfold Limits.push_batch, Admit. pose proof (check_tenants_spec s (batch_keys batch) (limited_tenants limit (batch_keys batch))) as H.
    destruct (check_tenants _ _ _ _ _ _) as [le'|].
    + destruct H as (H1 & H2 & H3 & H4). rewrite batch_keys_spec in *. apply limited_in in H1 as [H1 _]. destruct (Hok _ H1); lia.
    + by destruct (Limits.appendAll _ _ _) as [[?|?] ?].
  - intros t Ht. revert s Hi. induction batches as [|batch batches IH]; intros s Hi; cbn [fold_left]; [lia|].
    assert (Hstep : inv (push_batch s batch).2 /\ Count (push_batch s batch).2 t <= Z.max (limit t) (Count s t)).
    { unfold Limits.push_batch, Admit. pose proof (check_tenants_spec s (batch_keys batch) (limited_tenants limit (batch_keys batch))) as H.
      destruct (check_tenants _ _ _ _ _ _) as [le|]; [split; [done|cbn; lia]|].
      destruct (Limits.appendAll append1 s batch) as [o s1] eqn:Ea. destruct (append_bound batch t _ _ _ Hi Ea) as [Hi1 Hb].
      assert (Hs1 : inv s1 /\ Count s1 t <= Z.max (limit t) (Count s t)); [|by destruct o]. split; [done|].
      destruct (ids_of t batch) as [|x l] eqn:El.
      - rewrite fresh_count_nil in Hb. lia.
      - specialize (H t ltac:(apply limited_in; rewrite El; done)). rewrite batch_keys_spec, El in H. lia. }
    destruct Hstep as [Hi1 Hs1]. specialize (IH _ Hi1). lia.
Qed.
End within.

(** ** The head keeps the gate's promise *)

Lemma appendInternal_counts s now lbls ts v seg gen r s' : appendInternal s now lbls ts v seg gen = (r, s') ->
  ((forall id, HasSeries s' id = HasSeries s id) /\ (forall t, TenantSeries s' t = TenantSeries s t)) \/
  ((forall id, HasSeries s' id = ((id =? Hash lbls) || HasSeries s id)%bool) /\
   forall t, TenantSeries s' t = TenantSeries s t + (if decide (TenantOf lbls = t /\ HasSeries s (Hash lbls) = false) then 1 else 0)).
Proof.
  unfold appendInternal. destruct (settle_gen s now gen) as [[g s1]|e] eqn:Eg; [|intros [= <- <-]; by left].
  assert (H1 : st_series s1 = st_series s /\ st_tenants s1 = st_tenants s).
  { unfold settle_gen, nextGenerationLocked in Eg. destruct (gen =? 0).
    - cbn zeta in Eg. destruct (_ <? _) in Eg; [done|]. by injection Eg as _ <-.
    - destruct (_ <? _) in Eg; [done|]. injection Eg as _ <-. by destruct (_ <=? _). }
  destruct H1 as [Hser Hten]. destruct (ensure_series s1 lbls) as [ms s2] eqn:Es.
  assert (H2 : st_tenants s2 = st_tenants s /\ st_series s2 !! Hash lbls = Some ms /\ (forall id, id <> Hash lbls -> st_series s2 !! id = st_series s !! id) /\
    HasSeries s (Hash lbls) = match ms_chunks ms with [] => false | _ => true end).
  { unfold ensure_series in Es. unfold HasSeries. rewrite Hser in Es. destruct (st_series s !! Hash lbls) as [ms0|] eqn:El; injection Es as <- <-.
    - rewrite Hser, Hten. split_and!; done.
    - cbn. rewrite lookup_insert_eq. split_and!; try done. intros id Hne. by rewrite lookup_insert_ne. }
  destruct H2 as (T2 & L2 & O2 & Has2).
  set (s3 := match ms_chunks ms with [] => count_tenant s2 (TenantOf lbls) | _ => s2 end).
  assert (H3 : st_series s3 = st_series s2 /\ forall t, TenantSeries s3 t = TenantSeries s t + (if decide (TenantOf lbls = t /\ HasSeries s (Hash lbls) = false) then 1 else 0)).
  { unfold s3. rewrite Has2. unfold TenantSeries. destruct (ms_chunks ms) as [|c cs]; cbn.
    - split; [done|]. intros t. rewrite T2. destruct (decide (TenantOf lbls = t)) as [<-|Hne].
      + rewrite lookup_insert_eq, decide_True by done. done.
      + rewrite lookup_insert_ne, decide_False by naive_solver. lia.
    - split; [done|]. intros t. rewrite T2, decide_False by naive_solver. lia. }
  destruct H3 as [S3 C3]. destruct (ensure_chunk s3 ms seg) as [ms4 s4] eqn:Ec.
  assert (H4 : st_series s4 = st_series s3 /\ st_tenants s4 = st_tenants s3 /\ ms_chunks ms4 <> []).
  { unfold ensure_chunk, needs_chunk in Ec. destruct (last (ms_chunks ms)) as [rc|] eqn:El.
    - destruct (sealed rc.2); injection Ec as <- <-; split_and!; try done; cbn; [by intros [_ ?]%app_nil|]. intros Hn. by rewrite Hn in El.
    - injection Ec as <- <-. split_and!; try done. cbn. by intros [_ ?]%app_nil. }
  destruct H4 as (S4 & T4 & Hne). destruct (last (ms_chunks ms4)) as [rc|] eqn:El; [|by apply last_None in El].
  assert (Hput : forall ms', ms_chunks ms' <> [] -> (forall id, HasSeries (put_series s4 (Hash lbls) ms') id = ((id =? Hash lbls) || HasSeries s id)%bool) /\
    forall t, TenantSeries (put_series s4 (Hash lbls) ms') t = TenantSeries s t + (if decide (TenantOf lbls = t /\ HasSeries s (Hash lbls) = false) then 1 else 0)).
  { intros ms' Hne'. split.
    - intros id. unfold HasSeries. cbn. destruct (Z.eqb_spec id (Hash lbls)) as [->|Hid].
      + rewrite lookup_insert_eq. by destruct (ms_chunks ms').
      + rewrite lookup_insert_ne by done. by rewrite S4, S3, O2.
    - intros t. rewrite <- C3. unfold TenantSeries. cbn. by rewrite T4. }
  destruct (Append rc.2 ts v g) as [c'|e]; intros [= <- <-]; right; apply Hput; [|done]. cbn. intros Hn.
  apply (f_equal length) in Hn. unfold set_last in Hn. rewrite length_alter in Hn. by destruct (ms_chunks ms4).
Qed.

#[export] Instance head_counts now : Counts TenantSeries HasSeries (head_append now) (fun _ => True).
Proof.
  split; [done|]. intros s p r s' _. unfold head_append, store_Append, AppendGen. destruct (ps_gen p =? 0); apply appendInternal_counts.
Qed.

(** The retention policy handed to the compactor is each tenant's retention. *)
Theorem retention_policy_exact (l : Limits) (id : string) : For (retention_policy l) id = Retention l id.
Proof.
  unfold For, Retention, retention_policy. cbn.
  set (f := fun m (e : string * Override) => match o_Retention e.2 with Some d => <[e.1 := d]> m | None => m end).
  assert (H : forall L, NoDup L.*1 -> fold_left f L (∅ : gmap string Z) !! id = (list_to_map L : gmap string Override) !! id ≫= o_Retention).
  { induction L as [|[k o] L IH] using rev_ind; intros Hnd; [done|]. rewrite fold_left_app. cbn [fold_left]. unfold f at 1. cbn [fst snd].
    rewrite fmap_app in Hnd. apply NoDup_app in Hnd as (Hnd & Hdis & _). rewrite list_to_map_app.
    assert (Hk : (list_to_map L : gmap string Override) !! k = None) by (apply not_elem_of_list_to_map_1; intros Hin; apply (Hdis k Hin); by left).
    cbn [list_to_map foldr]. destruct (decide (id = k)) as [->|Hne].
    - rewrite lookup_union_r, lookup_insert_eq by done. cbn. destruct (o_Retention o); [by rewrite lookup_insert_eq|].
      rewrite IH by done. by rewrite Hk.
    - rewrite lookup_union, lookup_insert_ne, lookup_empty by done. rewrite (right_id_L None _).
      destruct (o_Retention o); [rewrite lookup_insert_ne by done|]; by apply IH. }
  rewrite H by apply NoDup_fst_map_to_list. rewrite list_to_map_to_list. destruct (lim_o l !! id) as [o|]; [|done]. cbn. by destruct (o_Retention o).
Qed.

(** *** Witnesses *)

Lemma Share_exact_witness : exists s, Share (2 ^ 63 - 1) 3 (2 ^ 62) = Some s /\ s = 6 /\
  (2 ^ 63 - 1) * 3 <= 2 ^ 62 * s < (2 ^ 63 - 1) * 3 + 2 ^ 62.
Proof.
  destruct (Share_exact (2 ^ 63 - 1) 3 (2 ^ 62)) as (s & E & _ & _ & H & _); [wsolve|wsolve|wsolve|].
  destruct (H ltac:(lia) ltac:(lia)) as (_ & _ & Hb). exists s. split; [exact E|]. split; [|exact Hb].
  assert (Es : Share (2 ^ 63 - 1) 3 (2 ^ 62) = Some 6) by (vm_compute; reflexivity). congruence.
Defined.

Definition two_series : list PendingSample :=
  [mkPending (build (<["__name__" := "a"]> ∅)) 1000 1 0; mkPending (build (<["__name__" := "b"]> ∅)) 1000 1 0].
Lemma admit_within_limit_witness :
  (exists s, push_batch TenantSeries HasSeries (fun _ => 1) (head_append 7) NewMemoryStore two_series = (Err (inl (mkLimitError tenant_Default 1)), s)) /\
  (push_batch TenantSeries HasSeries (fun _ => 2) (head_append 7) NewMemoryStore two_series).1 = Ok tt /\
  forall t, TenantSeries (fold_left (fun s b => (push_batch TenantSeries HasSeries (fun _ => 1) (head_append 7) s b).2) [two_series; firstn 1 two_series; two_series] NewMemoryStore) t
    <= Z.max 1 (TenantSeries NewMemoryStore t).
Proof.
  split; [eexists; vm_compute; reflexivity|]. split; [vm_compute; reflexivity|]. intros t.
  destruct (admit_within_limit TenantSeries HasSeries (fun _ => 1) (head_append 7) (fun _ => True) NewMemoryStore [two_series; firstn 1 two_series; two_series] I) as (_ & _ & H).
  apply H. lia.
Defined.
