(* ===== verification/Drain.v ===== *)
(** * Drain: the ingester's write barrier

    [internal/drain/gate.go]. The gate's operations run under its mutex and are
    single steps; what surrounds them (a writer between [enter] and [leave], a
    drain waiting in [Close]) interleaves freely, which the step relation [step]
    describes. *)
From stdpp Require Import fin_maps gmap.
From S2P Require Import Prelude.

Record Gate := mkGate { closed : bool; inflight : Z; idle : bool }.
Definition NewGate : Gate := mkGate false 0 false.

Inductive gateErr := ErrDraining.
Definition enter (g : Gate) : result gateErr Gate :=
  if closed g then Err ErrDraining else Ok (mkGate (closed g) (inflight g + 1) (idle g)).
(** [None] is the panic of closing a channel twice. *)
Definition close_idle (g : Gate) : option Gate := if idle g then None else Some (mkGate (closed g) (inflight g) true).
Definition leave (g : Gate) : option Gate :=
  let g := mkGate (closed g) (inflight g - 1) (idle g) in
  if (closed g && (inflight g =? 0))%bool then close_idle g else Some g.
(** The locked part of [Close], and what its [select] may answer. *)
Definition Close_begin (g : Gate) : option Gate :=
  if negb (closed g) then
    let g := mkGate true (inflight g) (idle g) in
    if inflight g =? 0 then close_idle g else Some g
  else Some g.
Inductive close_answer (g : Gate) (ctx_done : bool) : result Z unit -> Prop :=
| close_nil : idle g = true -> close_answer g ctx_done (Ok tt)
| close_ctx e : ctx_done = true -> close_answer g ctx_done (Err e).

(** The append a gated ingester makes: [gi] says whether the ingester behind it
    takes a writer's generation. *)
Inductive call := CallAppend | CallWithGeneration (gen : Z).
Definition gated_AppendWithGeneration (gi : bool) (gen : Z) : call := if (negb gi || (gen =? 0))%bool then CallAppend else CallWithGeneration gen.

(** ** Writers and drains, interleaved *)

Section system.
Context (gi : bool).

(** A writer that was admitted, with the generation of its write: about to append,
    or about to leave. *)
Inductive phase := Entered (gen : Z) | Appended.
Record system := mkSystem { gate : Gate; writers : gmap nat phase }.
Definition start : system := mkSystem NewGate ∅.

Inductive event := EvEnter (w : nat) | EvRefused (w : nat) | EvAppend (w : nat) (c : call) | EvLeave (w : nat) | EvClose | EvClosed (r : result Z unit).

Inductive step : system -> event -> system -> Prop :=
| step_enter s w gen g : writers s !! w = None -> enter (gate s) = Ok g -> step s (EvEnter w) (mkSystem g (<[w := Entered gen]> (writers s)))
| step_refused s w e : enter (gate s) = Err e -> step s (EvRefused w) s
| step_append s w gen : writers s !! w = Some (Entered gen) ->
    step s (EvAppend w (gated_AppendWithGeneration gi gen)) (mkSystem (gate s) (<[w := Appended]> (writers s)))
| step_leave s w g : writers s !! w = Some Appended -> leave (gate s) = Some g -> step s (EvLeave w) (mkSystem g (delete w (writers s)))
| step_close s g : Close_begin (gate s) = Some g -> step s EvClose (mkSystem g (writers s))
| step_closed s ctx_done r : close_answer (gate s) ctx_done r -> closed (gate s) = true -> step s (EvClosed r) s.

Inductive run : system -> list event -> system -> Prop :=
| run_nil s : run s [] s
| run_cons s e s' es s'' : step s e s' -> run s' es s'' -> run s (e :: es) s''.

Record wf (s : system) : Prop := {
  wf_count : inflight (gate s) = Z.of_nat (size (writers s));
  wf_idle : idle (gate s) = true <-> closed (gate s) = true /\ writers s = ∅ }.

Lemma start_wf : wf start.
Proof. split; [done|]. cbn. split; [done|]. by intros [? _]. Qed.

Lemma size_delete {A} (m : gmap nat A) w x : m !! w = Some x -> size m = S (size (delete w m)).
Proof. intros E. rewrite <- (insert_delete_id m w x E) at 1. apply map_size_insert_None, lookup_delete_eq. Qed.

Lemma leave_ok s w : wf s -> writers s !! w = Some Appended -> exists g, leave (gate s) = Some g /\ wf (mkSystem g (delete w (writers s))).
Proof.
  intros [Hc Hi] Hw. assert (Hsz : size (writers s) = S (size (delete w (writers s)))) by by eapply size_delete.
  unfold leave. cbn [closed inflight idle]. destruct (closed (gate s)) eqn:Ec; cbn [andb].
  - assert (Hid : idle (gate s) = false).
    { destruct (idle (gate s)); [|done]. destruct (proj1 Hi eq_refl) as [_ E]. by rewrite E, lookup_empty in Hw. }
    destruct (Z.eqb_spec (inflight (gate s) - 1) 0) as [E|E].
    + unfold close_idle. cbn [idle]. rewrite Hid. eexists. split; [done|]. assert (Hn : size (delete w (writers s)) = 0%nat) by lia.
      split; cbn; [lia|]. split; [split; [done|]|done]. by apply map_size_empty_iff.
    + eexists. split; [done|]. split; cbn; [lia|]. rewrite Hid. split; [done|]. intros [_ En]. rewrite En, map_size_empty in Hsz. lia.
  - eexists. split; [done|]. split; cbn; [lia|]. split; [|by intros [? _]]. intros H. by apply Hi in H as [? _].
Qed.
Lemma close_ok s : wf s -> exists g, Close_begin (gate s) = Some g /\ wf (mkSystem g (writers s)) /\ closed g = true.
Proof.
  intros [Hc Hi]. unfold Close_begin. destruct (closed (gate s)) eqn:Ec; cbn [negb].
  - exists (gate s). split; [done|]. split; [|done]. split; cbn; [done|]. by rewrite Ec.
  - assert (Hid : idle (gate s) = false) by (destruct (idle (gate s)); [by destruct (proj1 Hi eq_refl)|done]). cbn [inflight].
    destruct (Z.eqb_spec (inflight (gate s)) 0) as [E|E].
    + unfold close_idle. cbn [idle]. rewrite Hid. eexists. split; [done|]. split; [|done]. split; cbn; [done|].
      split; [intros _; split; [done|]|done]. apply map_size_empty_iff. lia.
    + eexists. split; [done|]. split; [|done]. split; cbn; [done|]. rewrite Hid. split; [done|]. intros [_ En]. rewrite En, map_size_empty in Hc. lia.
Qed.

Lemma gate_step_wf s e s' : wf s -> step s e s' -> wf s'.
Proof.
  intros Hs H. destruct H as [s w gen g Hw He|s w e He|s w gen Hw|s w g Hw Hl|s g Hcl|s cd r Hr Hc]; try done.
  - destruct Hs as [Hc Hi]. unfold enter in He. destruct (closed (gate s)) eqn:Ec; [done|]. injection He as <-. split; cbn.
    + rewrite map_size_insert_None by done. lia.
    + split; [|by intros [? _]]. intros H. by apply Hi in H as [? _].
  - destruct Hs as [Hc Hi]. split; cbn.
    + rewrite map_size_insert_Some by by eexists. done.
    + rewrite Hi. split; intros [H1 H2]; (split; [done|]); [by rewrite H2, lookup_empty in Hw|]. by apply insert_non_empty in H2.
  - destruct (leave_ok s w Hs Hw) as (g' & E & Hg). congruence.
  - destruct (close_ok s Hs) as (g' & E & Hg & _). congruence.
Qed.
Lemma gate_run_wf s es s' : wf s -> run s es s' -> wf s'.
Proof. intros Hs H. induction H; [done|]. apply IHrun. by eapply gate_step_wf. Qed.

Lemma step_closed_stays s e s' : step s e s' -> closed (gate s) = true -> closed (gate s') = true /\ (forall w, e <> EvEnter w) /\
  (idle (gate s) = true -> wf s -> (forall w c, e <> EvAppend w c) /\ s' = s).
Proof.
  intros H Hcl. destruct H as [s w gen g Hw He|s w e He|s w gen Hw|s w g Hw Hl|s g Hc|s cd r Hr Hc].
  - unfold enter in He. by rewrite Hcl in He.
  - done.
  - split_and!; [done|done|]. intros Hid Hwf. exfalso. destruct (proj1 (wf_idle _ Hwf) Hid) as [_ E]. by rewrite E, lookup_empty in Hw.
  - split_and!; [|done|].
    + unfold leave in Hl. cbn in Hl. rewrite Hcl in Hl. cbn in Hl. destruct (_ =? 0) in Hl; [|by injection Hl as <-].
      unfold close_idle in Hl. cbn in Hl. destruct (idle (gate s)); [done|]. by injection Hl as <-.
    + intros Hid Hwf. exfalso. destruct (proj1 (wf_idle _ Hwf) Hid) as [_ E]. by rewrite E, lookup_empty in Hw.
  - unfold Close_begin in Hc. rewrite Hcl in Hc. cbn in Hc. injection Hc as <-. split_and!; [done|done|]. intros _ _. split; [done|]. by destruct s.
  - done.
Qed.

(** How often a writer did something. *)
Definition count (P : event -> bool) (es : list event) : nat := length (List.filter P es).
Definition entering (w : nat) (e : event) : bool := match e with EvEnter v => Nat.eqb v w | _ => false end.
Definition appending (w : nat) (e : event) : bool := match e with EvAppend v _ => Nat.eqb v w | _ => false end.
Definition working (e : event) : bool := match e with EvAppend _ _ | EvLeave _ => true | _ => false end.

Definition owes (s : system) (w : nat) : nat := match writers s !! w with Some (Entered _) => 1 | _ => 0 end.

Lemma step_owes s e s' w : step s e s' ->
  (owes s w + count (entering w) [e] = owes s' w + count (appending w) [e])%nat.
Proof.
  intros H. unfold owes, count. destruct H as [s v gen g Hw He|s v e He|s v gen Hw|s v g Hw Hl|s g Hc|s cd r Hr Hc]; cbn; try done.
  - destruct (Nat.eqb_spec v w) as [->|Hne]; cbn; [by rewrite Hw, lookup_insert_eq|by rewrite lookup_insert_ne].
  - destruct (Nat.eqb_spec v w) as [->|Hne]; cbn; [by rewrite Hw, lookup_insert_eq|by rewrite lookup_insert_ne].
  - destruct (decide (v = w)) as [->|Hne]; [by rewrite Hw, lookup_delete_eq|by rewrite lookup_delete_ne].
Qed.
Lemma run_owes s es s' w : run s es s' -> (owes s w + count (entering w) es = owes s' w + count (appending w) es)%nat.
Proof.
  induction 1 as [s|s e s' es s'' Hs Hr IH]; [done|]. pose proof (step_owes _ _ _ w Hs) as H. unfold count in *. cbn [List.filter] in *.
  destruct (entering w e), (appending w e); cbn [length List.filter] in *; lia.
Qed.
Lemma run_app s es1 es2 s' : run s (es1 ++ es2) s' -> exists s1, run s es1 s1 /\ run s1 es2 s'.
Proof.
  revert s. induction es1 as [|e es1 IH]; intros s H; [exists s; split; [constructor|done]|]. inversion H as [|? ? s1 ? ? Hs Hr]; subst.
  destruct (IH _ Hr) as (s2 & H1 & H2). exists s2. split; [by econstructor|done].
Qed.

Lemma run_drained s es s' : wf s -> closed (gate s) = true -> idle (gate s) = true -> run s es s' ->
  Forall (fun e => (forall w, e <> EvEnter w) /\ forall w c, e <> EvAppend w c) es.
Proof.
  intros Hwf Hcl Hid H. induction H as [s|s e s' es s'' Hs Hr IH]; constructor.
  - destruct (step_closed_stays _ _ _ Hs Hcl) as (_ & H1 & H2). split; [done|by apply H2].
  - destruct (step_closed_stays _ _ _ Hs Hcl) as (_ & _ & H2). destruct (H2 Hid Hwf) as [_ ->]. by apply IH.
Qed.

(** What is left to do for the admitted writers: two steps, or one. *)
Definition weight (p : phase) : nat := match p with Entered _ => 2 | Appended => 1 end.
Definition add_weight (_ : nat) (p : phase) (n : nat) : nat := (weight p + n)%nat.
Definition weights (m : gmap nat phase) : nat := map_fold add_weight 0%nat m.
Definition todo (s : system) : nat := weights (writers s).

Lemma todo_insert w p (m : gmap nat phase) : m !! w = None -> weights (<[w := p]> m) = (weight p + weights m)%nat.
Proof. intros E. unfold weights. rewrite (map_fold_insert_L add_weight 0%nat w p m); [done| |done]. unfold add_weight. intros; lia. Qed.
Lemma todo_delete w p (m : gmap nat phase) : m !! w = Some p -> weights m = (weight p + weights (delete w m))%nat.
Proof. intros E. rewrite <- (insert_delete_id m w p E) at 1. apply todo_insert, lookup_delete_eq. Qed.

Lemma todo_bound s : (todo s <= 2 * size (writers s))%nat.
Proof.
  unfold todo. induction (writers s) as [|w p m Hm IH] using map_ind; [done|]. rewrite todo_insert, map_size_insert_None by done.
  destruct p; cbn; lia.
Qed.
Lemma todo_zero s : todo s = 0%nat -> writers s = ∅.
Proof.
  intros H. apply map_empty. intros w. destruct (writers s !! w) as [p|] eqn:E; [|done]. exfalso. unfold todo in H. rewrite (todo_delete w p) in H by done.
  destruct p; cbn in *; lia.
Qed.

Lemma step_todo s e s' : step s e s' -> closed (gate s) = true -> (todo s' + count working [e] = todo s)%nat.
Proof.
  intros H Hcl. unfold count, todo. destruct H as [s v gen g Hw He|s v e He|s v gen Hw|s v g Hw Hl|s g Hc|s cd r Hr Hc]; cbn; try lia.
  - unfold enter in He. by rewrite Hcl in He.
  - rewrite <- insert_delete_eq, todo_insert by apply lookup_delete_eq. rewrite (todo_delete v _ (writers s) Hw). cbn [weight]. lia.
  - rewrite (todo_delete v _ (writers s) Hw). cbn [weight]. lia.
Qed.
Lemma run_todo s es s' : run s es s' -> closed (gate s) = true -> (todo s' + count working es = todo s)%nat /\ closed (gate s') = true.
Proof.
  induction 1 as [s|s e s' es s'' Hs Hr IH]; intros Hcl; [split; [unfold count; cbn; lia|done]|]. pose proof (step_todo _ _ _ Hs Hcl) as H.
  destruct (step_closed_stays _ _ _ Hs Hcl) as (Hcl' & _). destruct (IH Hcl') as [H1 H2]. split; [|done]. unfold count in *. cbn [List.filter] in *.
  destruct (working e); cbn [length] in *; lia.
Qed.

Lemma progress s : wf s -> todo s <> 0%nat -> exists e s', step s e s' /\ working e = true.
Proof.
  intros Hwf Hn. destruct (map_choose (writers s)) as (w & p & Hw).
  { intros E. apply Hn. unfold todo. by rewrite E. }
  destruct p as [gen|].
  - do 2 eexists. split; [by eapply step_append|done].
  - destruct (leave_ok s w Hwf Hw) as (g & E & _). do 2 eexists. split; [by eapply step_leave|done].
Qed.

Lemma drains n : forall s, wf s -> closed (gate s) = true -> todo s = n -> exists es s', run s es s' /\ forallb working es = true /\ idle (gate s') = true.
Proof.
  induction n as [|n IH]; intros s Hwf Hcl Hn.
  - exists [], s. split; [constructor|]. split; [done|]. apply (wf_idle _ Hwf). split; [done|by apply todo_zero].
  - destruct (progress s Hwf ltac:(lia)) as (e & s1 & Hs & He). pose proof (step_todo _ _ _ Hs Hcl) as Ht. unfold count in Ht. cbn in Ht. rewrite He in Ht. cbn in Ht.
    destruct (IH s1) as (es & s' & Hr & Hw & Hid); [by eapply gate_step_wf|by apply (step_closed_stays _ _ _ Hs Hcl)|lia|].
    exists (e :: es), s'. split; [by econstructor|]. split; [|done]. cbn. by rewrite He.
Qed.

(** ** Properties *)

(** C34. Once a drain's [Close] has answered nil, no write is admitted and none
    reaches the ingester any more; and every write admitted before it had already
    been appended (each writer appended as often as it was admitted). *)
Theorem drain_flushes_admitted es1 es2 s : run start (es1 ++ EvClosed (Ok tt) :: es2) s ->
  (forall w, count (entering w) es1 = count (appending w) es1) /\
  Forall (fun e => (forall w, e <> EvEnter w) /\ forall w c, e <> EvAppend w c) es2.
Proof.
  intros H. destruct (run_app _ _ _ _ H) as (s1 & H1 & H2). pose proof (gate_run_wf _ _ _ start_wf H1) as Hwf.
  inversion H2 as [|? ? s2 ? ? Hs Hr]; subst. inversion Hs as [| | | | |? cd r Hans Hcl]; subst.
  assert (Hid : idle (gate s2) = true) by by inversion Hans.
  split; [|by eapply run_drained]. intros w. pose proof (run_owes _ _ _ w H1) as Ho. destruct (proj1 (wf_idle _ Hwf) Hid) as [_ E].
  unfold owes in Ho. rewrite E in Ho. cbn in Ho. lia.
Qed.

(** A drain ends. In every reachable state the gate never closes its channel
    twice: a writer may leave and a drain may start. Once the gate is closed,
    the admitted writers have at most two steps each left, whatever else is tried
    in between; while any has, one of those steps can be taken; and when none is
    left, [Close] can answer nil. *)
Theorem drain_terminates es s : run start es s ->
  (exists g, Close_begin (gate s) = Some g) /\
  (forall w, writers s !! w = Some Appended -> exists g, leave (gate s) = Some g) /\
  (closed (gate s) = true ->
    (forall es' s', run s es' s' -> (count working es' <= 2 * Z.to_nat (inflight (gate s)))%nat /\
       ((exists e s'', step s' e s'' /\ working e = true) \/ forall cd, close_answer (gate s') cd (Ok tt))) /\
    exists es' s', run s es' s' /\ forallb working es' = true /\ idle (gate s') = true).
Proof.
  intros H. pose proof (gate_run_wf _ _ _ start_wf H) as Hwf. split_and!.
  - destruct (close_ok s Hwf) as (g & E & _). by exists g.
  - intros w Hw. destruct (leave_ok s w Hwf Hw) as (g & E & _). by exists g.
  - intros Hcl. split; [|by eapply drains]. intros es' s' Hr. destruct (run_todo _ _ _ Hr Hcl) as [Ht Hcl']. pose proof (todo_bound s) as Hb.
    split; [rewrite (wf_count _ Hwf), Nat2Z.id; lia|]. pose proof (gate_run_wf _ _ _ Hwf Hr) as Hwf'. destruct (decide (todo s' = 0%nat)) as [E|E].
    + right. intros cd. constructor. apply (wf_idle _ Hwf'). split; [done|by apply todo_zero].
    + left. by apply progress.
Qed.
End system.

(** *** Witnesses *)

Definition one_write : list event := [EvEnter 1; EvClose; EvRefused 2; EvAppend 1 (CallWithGeneration 7); EvLeave 1].
Lemma one_write_runs : run true start one_write (mkSystem (mkGate true 0 true) ∅).
Proof.
  set (m1 := <[1%nat := Entered 7]> ∅ : gmap nat phase). set (m2 := <[1%nat := Appended]> m1).
  assert (E3 : mkSystem (mkGate true 0 true) ∅ = mkSystem (mkGate true 0 true) (delete 1%nat m2)) by (f_equal; by vm_compute). rewrite E3.
  refine (run_cons _ _ _ (mkSystem (mkGate false 1 false) m1) _ _ (step_enter _ start 1%nat 7 _ eq_refl eq_refl) _).
  refine (run_cons _ _ _ (mkSystem (mkGate true 1 false) m1) _ _ (step_close _ (mkSystem (mkGate false 1 false) m1) _ eq_refl) _).
  refine (run_cons _ _ _ (mkSystem (mkGate true 1 false) m1) _ _ (step_refused _ (mkSystem (mkGate true 1 false) m1) 2%nat ErrDraining eq_refl) _).
  refine (run_cons _ _ _ (mkSystem (mkGate true 1 false) m2) _ _ (step_append true (mkSystem (mkGate true 1 false) m1) 1%nat 7 eq_refl) _).
  refine (run_cons _ _ _ _ _ _ (step_leave _ (mkSystem (mkGate true 1 false) m2) 1%nat (mkGate true 0 true) eq_refl eq_refl) (run_nil _ _)).
Qed.
Lemma drain_flushes_admitted_witness : count (entering 1) one_write = count (appending 1) one_write.
Proof.
  apply (drain_flushes_admitted true one_write [] (mkSystem (mkGate true 0 true) ∅)).
  assert (Happ : forall gi s es s' e s'', run gi s es s' -> step gi s' e s'' -> run gi s (es ++ [e]) s'').
  { intros gi s es s' e s'' Hr Hs. induction Hr; cbn; [econstructor; [done|constructor]|econstructor; [done|by apply IHHr]]. }
  eapply Happ; [apply one_write_runs|]. apply (step_closed _ _ false); [by constructor|done].
Defined.
Lemma drain_terminates_witness : (exists g, Close_begin (mkGate true 0 true) = Some g) /\
  exists es' s', run true (mkSystem (mkGate true 0 true) ∅) es' s' /\ forallb working es' = true /\ idle (gate s') = true.
Proof.
  destruct (drain_terminates true one_write _ one_write_runs) as (H1 & _ & H2). split; [exact H1|]. by apply H2.
Defined.
