(* ===== verification/Straggler.v ===== *)
(** * Straggler: the queue of store copies a quorum flush left behind

    [internal/rpc/straggler.go]. [Add] and the locked parts of [Retry] are steps on
    the queue; between them other calls run, so a retry's due items are the ones its
    first step picked, by identity, whatever has happened to the queue since. Times
    are nanoseconds, as [time.Time] and [time.Duration] compare them. *)
From stdpp Require Import sorting.
From S2P Require Import Prelude.

Definition stragglerBackoffStart : Z := 1000000000.
Definition stragglerBackoffCap : Z := 60 * 1000000000.
Record StragglerOptions := mkOptions { MaxBytes : Z; MaxAge : Z }.

(** [it_id] is the item's identity, a pointer in the code. *)
Record stragglerItem := mkItem { it_id : nat; store : string; path : string; body : list Z; added : Z; due : Z; backoff : Z }.
Record StragglerQueue := mkQueue { items : list stragglerItem; bytes : Z; next_id : nat }.
Definition NewStragglerQueue : StragglerQueue := mkQueue [] 0 0.
Inductive outcome := ok | failed | dropped.

Definition size_of (it : stragglerItem) : Z := Z.of_nat (length (body it)).

(** The loop of [Add]: evict the oldest items while over the bound. *)
Fixpoint evict (max : Z) (items : list stragglerItem) (bytes : Z) : list stragglerItem * Z * list outcome :=
  if bytes <=? max then (items, bytes, []) else
  match items with
  | [] => ([], bytes, [])
  | old :: rest => let '(items, bytes, seen) := evict max rest (i64 (bytes - size_of old)) in (items, bytes, dropped :: seen)
  end.
Definition Add (opts : StragglerOptions) (now : Z) (q : StragglerQueue) (st path_ : string) (b : list Z) : StragglerQueue * list outcome :=
  if MaxBytes opts <=? 0 then (q, [dropped]) else
  if MaxBytes opts <? Z.of_nat (length b) then (q, [dropped]) else
  let it := mkItem (next_id q) st path_ b now now stragglerBackoffStart in
  let '(its, n, seen) := evict (MaxBytes opts) (items q ++ [it]) (i64 (bytes q + Z.of_nat (length b))) in
  (mkQueue its n (S (next_id q)), seen).

(** [Retry]'s first locked part: expired items go, the due ones are picked. *)
Fixpoint sweep (opts : StragglerOptions) (now : Z) (items : list stragglerItem) (bytes : Z) : list stragglerItem * list stragglerItem * Z * list outcome :=
  match items with
  | [] => ([], [], bytes, [])
  | it :: rest =>
      if MaxAge opts <? now - added it then
        let '(kept, picked, bytes, seen) := sweep opts now rest (i64 (bytes - size_of it)) in (kept, picked, bytes, dropped :: seen)
      else
        let '(kept, picked, bytes, seen) := sweep opts now rest bytes in
        (it :: kept, if now <? due it then picked else it :: picked, bytes, seen)
  end.
Definition Retry_begin (opts : StragglerOptions) (now : Z) (q : StragglerQueue) : StragglerQueue * list stragglerItem * list outcome :=
  let '(kept, picked, n, seen) := sweep opts now (items q) (bytes q) in (mkQueue kept n (next_id q), picked, seen).

(** Its locked part after one item was sent, with the send's success. *)
Fixpoint remove_item (id : nat) (items : list stragglerItem) : option (stragglerItem * list stragglerItem) :=
  match items with
  | [] => None
  | x :: rest => if Nat.eqb (it_id x) id then Some (x, rest) else
      match remove_item id rest with Some (y, rest') => Some (y, x :: rest') | None => None end
  end.
Definition delay (now : Z) (it : stragglerItem) : stragglerItem :=
  mkItem (it_id it) (store it) (path it) (body it) (added it) (now + backoff it) (Z.min (backoff it * 2) stragglerBackoffCap).
Definition Retry_item (now : Z) (q : StragglerQueue) (it : stragglerItem) (sent : bool) : StragglerQueue * outcome :=
  if sent then
    (match remove_item (it_id it) (items q) with
     | Some (_, rest) => mkQueue rest (i64 (bytes q - size_of it)) (next_id q)
     | None => q
     end, ok)
  else (mkQueue ((fun x => if Nat.eqb (it_id x) (it_id it) then delay now x else x) <$> items q) (bytes q) (next_id q), failed).

(** ** Runs: calls and retries interleaved *)

Inductive call := CAdd (now : Z) (st path_ : string) (b : list Z) | CBegin (now : Z) | CItem (now : Z) (k : nat) (sent : bool).
(** The queue, and the items some retry has picked and may still report on. *)
Definition do_call (opts : StragglerOptions) (s : StragglerQueue * list stragglerItem) (c : call) : StragglerQueue * list stragglerItem :=
  match c with
  | CAdd now st p b => ((Add opts now s.1 st p b).1, s.2)
  | CBegin now => let '(q, picked, _) := Retry_begin opts now s.1 in (q, s.2 ++ picked)
  | CItem now k sent => match s.2 !! k with Some it => ((Retry_item now s.1 it sent).1, s.2) | None => s end
  end.
Definition do_calls (opts : StragglerOptions) (cs : list call) : StragglerQueue * list stragglerItem := fold_left (do_call opts) cs (NewStragglerQueue, []).

Definition total (l : list stragglerItem) : Z := foldr (fun it n => size_of it + n) 0 l.

(** ** Accounting *)

Lemma total_cons x l : total (x :: l) = size_of x + total l.
Proof. done. Qed.
Lemma total_app l1 l2 : total (l1 ++ l2) = total l1 + total l2.
Proof. induction l1 as [|x l IH]; [done|]. cbn [app]. rewrite !total_cons, IH. lia. Qed.
Lemma total_nonneg l : 0 <= total l.
Proof. induction l as [|x l IH]; [done|]. rewrite total_cons. unfold size_of. lia. Qed.
Lemma total_one x : total [x] = size_of x.
Proof. rewrite total_cons. unfold total. cbn. lia. Qed.
#[local] Arguments total : simpl never.

Lemma evict_spec max l n : 0 <= max -> n = total l -> n < 2 ^ 63 ->
  let '(l', n', seen) := evict max l n in
  exists old, l = old ++ l' /\ n' = total l' /\ n' <= max /\ length seen = length old /\
    (forall x rest, old = rest ++ [x] -> max < size_of x + total l').
Proof.
  intros Hm. revert n. induction l as [|x l IH]; intros n -> Hn; cbn [evict].
  - destruct (Z.leb_spec (total []) max); (exists []; split_and!; try done); by intros x [|? ?].
  - destruct (Z.leb_spec (total (x :: l)) max) as [Hle|Hgt].
    + exists []. split_and!; try done. by intros y [|? ?].
    + rewrite total_cons in *. replace (size_of x + total l - size_of x) with (total l) by lia. pose proof (total_nonneg l).
      assert (Hx : 0 <= size_of x) by (unfold size_of; lia). rewrite i64_id by wsolve. specialize (IH (total l) eq_refl). destruct (evict max l (total l)) as [[l' n'] seen].
      destruct (IH ltac:(lia)) as (old & -> & H1 & H2 & H3 & H4). exists (x :: old). split_and!; try done; [by cbn; rewrite H3|].
      intros y rest E. destruct rest as [|z rest]; [|injection E as -> ->; by eapply H4].
      injection E as -> ->. cbn [app] in Hgt. done.
Qed.

Lemma evict_seen max l n : let '(_, _, seen) := evict max l n in seen = replicate (length seen) dropped.
Proof.
  revert n. induction l as [|x l IH]; intros n; cbn [evict]; destruct (n <=? max); try done.
  specialize (IH (i64 (n - size_of x))). destruct (evict max l _) as [[l' n'] seen]. cbn. by f_equal.
Qed.

Lemma sweep_spec opts now l : forall n extra, n = total l + extra -> 0 <= extra -> n < 2 ^ 63 ->
  let '(kept, picked, n', _) := sweep opts now l n in
  kept = filter (fun it => now - added it <= MaxAge opts) l /\ picked = filter (fun it => due it <= now) kept /\ n' = total kept + extra.
Proof.
  induction l as [|x l IH]; intros n extra -> He Hn; cbn [sweep]; [done|]. rewrite total_cons in *. pose proof (total_nonneg l).
  assert (Hx : 0 <= size_of x) by (unfold size_of; lia). rewrite filter_cons. destruct (Z.ltb_spec (MaxAge opts) (now - added x)) as [Hlt|Hge].
  - rewrite i64_id by wsolve. rewrite decide_False by lia. specialize (IH (size_of x + total l + extra - size_of x) extra ltac:(lia) He ltac:(lia)).
    destruct (sweep opts now l _) as [[[kept picked] n'] seen]. done.
  - rewrite decide_True by lia. specialize (IH (size_of x + total l + extra) (size_of x + extra) ltac:(lia) ltac:(lia) ltac:(lia)).
    destruct (sweep opts now l _) as [[[kept picked] n'] seen]. destruct IH as (-> & -> & ->). rewrite filter_cons, total_cons.
    split_and!; [done| |lia]. destruct (Z.ltb_spec now (due x)); [by rewrite decide_False by lia|by rewrite decide_True by lia].
Qed.

Lemma remove_item_spec id l :
  match remove_item id l with
  | Some (x, rest) => exists l1 l2, l = l1 ++ x :: l2 /\ rest = l1 ++ l2 /\ it_id x = id
  | None => id ∉ it_id <$> l
  end.
Proof.
  induction l as [|x l IH]; cbn [remove_item]; [apply not_elem_of_nil|]. destruct (Nat.eqb_spec (it_id x) id) as [<-|Hne].
  - by exists [], l.
  - destruct (remove_item id l) as [[y rest]|].
    + destruct IH as (l1 & l2 & -> & -> & Hy). by exists (x :: l1), l2.
    + rewrite fmap_cons. by apply not_elem_of_cons.
Qed.

(** The invariant of every run: the byte count is the queued bodies' exactly, it is
    within the bound, identities are unique and an item keeps its body. *)
Record queue_ok (opts : StragglerOptions) (s : StragglerQueue * list stragglerItem) : Prop := {
  ok_bytes : bytes s.1 = total (items s.1);
  ok_bound : bytes s.1 <= Z.max 0 (MaxBytes opts);
  ok_ids : NoDup (it_id <$> items s.1);
  ok_fresh : forall x, x ∈ items s.1 ++ s.2 -> (it_id x < next_id s.1)%nat;
  ok_body : forall x y, x ∈ items s.1 ++ s.2 -> y ∈ items s.1 ++ s.2 -> it_id x = it_id y -> body x = body y;
  ok_backoff : forall x, x ∈ items s.1 -> stragglerBackoffStart <= backoff x <= stragglerBackoffCap }.

Section runs.
Context (opts : StragglerOptions) (Hmax : MaxBytes opts < 2 ^ 62).

Lemma new_ok : queue_ok opts (NewStragglerQueue, []).
Proof.
  split; cbn; try lia; try done; try (by intros x ?%not_elem_of_nil); try (by intros x y ?%not_elem_of_nil). by apply NoDup_nil.
Qed.

Lemma Add_ok now s st p b : queue_ok opts s -> queue_ok opts ((Add opts now s.1 st p b).1, s.2).
Proof.
  intros Hs. unfold Add. destruct (Z.leb_spec (MaxBytes opts) 0); [by destruct s|]. destruct (Z.ltb_spec (MaxBytes opts) (Z.of_nat (length b))); [by destruct s|].
  destruct Hs as [Hb Hbd Hid Hfr Hbody Hbk]. rewrite Z.max_r in Hbd by lia. set (it := mkItem _ _ _ _ _ _ _).
  pose proof (total_nonneg (items s.1)) as Htn.
  pose proof (evict_spec (MaxBytes opts) (items s.1 ++ [it]) (i64 (bytes s.1 + Z.of_nat (length b)))) as He.
  rewrite i64_id in * by wsolve. destruct (evict _ _ _) as [[l' n'] seen].
  destruct He as (old & El & Hn' & Hle & _ & _); [lia|rewrite total_app, Hb, total_one; reflexivity|wsolve|].
  assert (Hin : forall x, x ∈ l' -> x = it \/ x ∈ items s.1).
  { intros x Hx. assert (Hx' : x ∈ items s.1 ++ [it]) by (rewrite El; apply elem_of_app; by right). apply elem_of_app in Hx' as [?|Hx'%list_elem_of_singleton]; auto. }
  assert (Hin2 : forall x, x ∈ l' ++ s.2 -> x = it \/ x ∈ items s.1 ++ s.2).
  { intros x [Hx|Hx]%elem_of_app; [|right; apply elem_of_app; by right]. destruct (Hin x Hx) as [?|?]; [by left|right; apply elem_of_app; by left]. }
  assert (Hit : forall x, x ∈ items s.1 ++ s.2 -> it_id x <> it_id it) by (intros x Hx; specialize (Hfr x Hx); cbn; lia).
  split; cbn.
  - done.
  - lia.
  - assert (Hnd : NoDup (it_id <$> items s.1 ++ [it])).
    { rewrite fmap_app. apply NoDup_app. split_and!; [done| |apply NoDup_singleton]. intros i (x & -> & Hx)%list_elem_of_fmap Ei%list_elem_of_singleton.
      apply (Hit x); [apply elem_of_app; by left|exact Ei]. }
    rewrite El, fmap_app in Hnd. by apply NoDup_app in Hnd as (_ & _ & ?).
  - intros x Hx. destruct (Hin2 x Hx) as [->|Hx']; [cbn; lia|]. specialize (Hfr x Hx'). lia.
  - intros x y Hx Hy E. destruct (Hin2 x Hx) as [->|Hx']; destruct (Hin2 y Hy) as [->|Hy']; try done; [by symmetry in E; apply Hit in E|by apply Hit in E|by apply Hbody].
  - intros x Hx. destruct (Hin x Hx) as [->|Hx']; [by vm_compute|by apply Hbk].
Qed.

Lemma Begin_ok now s : queue_ok opts s -> let '(q, picked, _) := Retry_begin opts now s.1 in queue_ok opts (q, s.2 ++ picked).
Proof.
  intros [Hb Hbd Hid Hfr Hbody Hbk]. unfold Retry_begin. pose proof (sweep_spec opts now (items s.1) (bytes s.1) 0) as Hsw. pose proof (total_nonneg (items s.1)) as Htn.
  destruct (sweep _ _ _ _) as [[[kept picked] n'] seen]. destruct Hsw as (Hk & Hp & Hn'); [lia|lia|wsolve|].
  assert (Hsub : kept `sublist_of` items s.1) by (rewrite Hk; apply sublist_filter).
  assert (Hkin : forall x, x ∈ kept -> x ∈ items s.1) by (intros x; rewrite Hk; by intros [_ ?]%list_elem_of_filter).
  assert (Hpin : forall x, x ∈ picked -> x ∈ items s.1) by (intros x; rewrite Hp; intros [_ ?]%list_elem_of_filter; by apply Hkin).
  assert (Hin : forall x, x ∈ kept ++ s.2 ++ picked -> x ∈ items s.1 ++ s.2).
  { intros x [Hx|[Hx|Hx]%elem_of_app]%elem_of_app; apply elem_of_app; [left; by apply Hkin|by right|left; by apply Hpin]. }
  split; cbn.
  - lia.
  - assert (Hle : total kept <= total (items s.1)).
    { clear -Hsub. induction Hsub as [|x l1 l2 _ IH|x l1 l2 _ IH]; [done|rewrite !total_cons; lia|rewrite total_cons; unfold size_of; lia]. }
    lia.
  - eapply sublist_NoDup; [exact Hid|]. by apply fmap_sublist.
  - intros x Hx. by apply Hfr, Hin.
  - intros x y Hx Hy. apply Hbody; by apply Hin.
  - intros x Hx. by apply Hbk, Hkin.
Qed.

Lemma Item_ok now s it sent : it ∈ s.2 -> queue_ok opts s -> queue_ok opts ((Retry_item now s.1 it sent).1, s.2).
Proof.
  intros Hit [Hb Hbd Hid Hfr Hbody Hbk]. unfold Retry_item. destruct sent.
  - pose proof (remove_item_spec (it_id it) (items s.1)) as Hr. destruct (remove_item _ _) as [[x rest]|]; [|by split].
    destruct Hr as (l1 & l2 & El & -> & Hx). assert (Hxin : x ∈ items s.1) by (rewrite El; apply elem_of_app; right; by left).
    assert (Hsz : size_of x = size_of it).
    { unfold size_of. rewrite (Hbody x it); [done|apply elem_of_app; by left|apply elem_of_app; by right|done]. }
    assert (Hin : forall y, y ∈ l1 ++ l2 -> y ∈ items s.1) by (intros y; rewrite El, !elem_of_app, elem_of_cons; tauto).
    assert (Hin2 : forall y, y ∈ (l1 ++ l2) ++ s.2 -> y ∈ items s.1 ++ s.2) by (intros y; rewrite !(elem_of_app _ s.2); intros [?|?]; [left; by apply Hin|by right]).
    assert (Htot : total (items s.1) = size_of x + total (l1 ++ l2)) by (rewrite El, !total_app, total_cons; lia).
    pose proof (total_nonneg (l1 ++ l2)). assert (0 <= size_of it) by (unfold size_of; lia). split; cbn.
    + rewrite i64_id by wsolve. lia.
    + rewrite i64_id by wsolve. lia.
    + eapply sublist_NoDup; [exact Hid|]. apply fmap_sublist. rewrite El. apply sublist_app; [done|by apply sublist_cons].
    + intros y Hy. by apply Hfr, Hin2.
    + intros y z Hy Hz. apply Hbody; by apply Hin2.
    + intros y Hy. by apply Hbk, Hin.
  - set (f := fun x => if Nat.eqb (it_id x) (it_id it) then delay now x else x).
    assert (Hf : forall x, it_id (f x) = it_id x /\ body (f x) = body x) by (intros x; unfold f; by destruct (Nat.eqb _ _)).
    assert (Htot : forall l, total (f <$> l) = total l).
    { intros l. induction l as [|x l IH]; [done|]. rewrite fmap_cons, !total_cons, IH. unfold size_of. by rewrite (proj2 (Hf x)). }
    assert (Hin : forall y, y ∈ (f <$> items s.1) ++ s.2 -> exists x, x ∈ items s.1 ++ s.2 /\ it_id y = it_id x /\ body y = body x).
    { intros y [(x & -> & Hx)%list_elem_of_fmap|Hy]%elem_of_app; [exists x|exists y]; (split; [apply elem_of_app; auto|]); [apply Hf|done]. }
    split; cbn.
    + by rewrite Htot.
    + done.
    + rewrite <- list_fmap_compose. erewrite list_fmap_ext; [exact Hid|]. intros i x _. apply Hf.
    + intros y Hy. destruct (Hin y Hy) as (x & Hx & -> & _). by apply Hfr.
    + intros y z Hy Hz E. destruct (Hin y Hy) as (x & Hx & Ex & ->). destruct (Hin z Hz) as (w & Hw & Ew & ->). apply Hbody; [done..|congruence].
    + intros y (x & -> & Hx)%list_elem_of_fmap. specialize (Hbk x Hx). unfold f. destruct (Nat.eqb _ _); [|done]. cbn. unfold stragglerBackoffStart, stragglerBackoffCap in *. lia.
Qed.

Lemma do_call_ok s c : queue_ok opts s -> queue_ok opts (do_call opts s c).
Proof.
  intros Hs. destruct c as [now st p b|now|now k sent]; cbn [do_call].
  - by apply Add_ok.
  - pose proof (Begin_ok now s Hs) as H. by destruct (Retry_begin _ _ _) as [[q picked] seen].
  - destruct (s.2 !! k) as [it|] eqn:E; [|done]. apply Item_ok; [by eapply list_elem_of_lookup_2|done].
Qed.
Lemma do_calls_ok cs : queue_ok opts (do_calls opts cs).
Proof.
  unfold do_calls. generalize new_ok. generalize (NewStragglerQueue, @nil stragglerItem). induction cs as [|c cs IH]; intros s Hs; [done|]. by apply IH, do_call_ok.
Qed.

(** C35. However adds and retries interleave, the queue's byte count is exactly the
    bytes of the bodies it holds and never passes its bound; adding evicts oldest
    first and no more than needed, and keeps the new copy; a retry drops exactly
    the expired items and sends exactly those due; a copy that was sent leaves the
    queue once, even when it was evicted while being sent; and a backoff stays
    between one second and one minute. *)
Theorem straggler_bounded cs : let s := do_calls opts cs in
  bytes s.1 = total (items s.1) /\ 0 <= bytes s.1 <= Z.max 0 (MaxBytes opts) /\
  (forall x, x ∈ items s.1 -> stragglerBackoffStart <= backoff x <= stragglerBackoffCap) /\
  (forall now st p b, 0 < MaxBytes opts -> Z.of_nat (length b) <= MaxBytes opts ->
     exists old it, items s.1 ++ [it] = old ++ items (Add opts now s.1 st p b).1 /\ store it = st /\ path it = p /\ body it = b /\
       (Add opts now s.1 st p b).2 = replicate (length old) dropped /\ (length old <= length (items s.1))%nat /\
       forall x rest, old = rest ++ [x] -> MaxBytes opts < size_of x + bytes (Add opts now s.1 st p b).1) /\
  (forall now, let '(q, picked, _) := Retry_begin opts now s.1 in
     items q = filter (fun it => now - added it <= MaxAge opts) (items s.1) /\ picked = filter (fun it => due it <= now) (items q)) /\
  (forall now it, it ∈ s.2 -> it_id it ∉ it_id <$> items (Retry_item now s.1 it true).1 /\
     forall x, x ∈ items s.1 -> it_id x <> it_id it -> x ∈ items (Retry_item now s.1 it true).1).
Proof.
  intros s. pose proof (do_calls_ok cs) as Hok. fold s in Hok. destruct Hok as [Hb Hbd Hid Hfr Hbody Hbk]. pose proof (total_nonneg (items s.1)) as Htn.
  split_and!; [done|lia|lia|done| | |].
  - intros now st p b Hpos Hlen. unfold Add. rewrite (proj2 (Z.leb_gt _ 0)), (proj2 (Z.ltb_ge _ _)) by lia. set (it := mkItem _ _ _ _ _ _ _).
    rewrite Z.max_r in Hbd by lia. rewrite i64_id by wsolve.
    pose proof (evict_spec (MaxBytes opts) (items s.1 ++ [it]) (bytes s.1 + Z.of_nat (length b))) as He.
    pose proof (evict_seen (MaxBytes opts) (items s.1 ++ [it]) (bytes s.1 + Z.of_nat (length b))) as Hseen.
    destruct (evict _ _ _) as [[l' n'] seen]. destruct He as (old & El & Hn' & Hle & Hl & Hmin); [lia|rewrite total_app, Hb, total_one; reflexivity|wsolve|].
    exists old, it. cbn. split_and!; try done; [by rewrite Hseen, Hl| |].
    + destruct l' as [|y l'].
      * exfalso. rewrite app_nil_r in El. specialize (Hmin it (items s.1) (eq_sym El)). change (total []) with 0 in Hmin. unfold size_of in Hmin. cbn in Hmin. lia.
      * apply (f_equal length) in El. rewrite !length_app in El. cbn in El. lia.
    + intros x rest E. rewrite Hn'. by eapply Hmin.
  - intros now. unfold Retry_begin. pose proof (sweep_spec opts now (items s.1) (bytes s.1) 0) as Hsw.
    destruct (sweep _ _ _ _) as [[[kept picked] n'] seen]. destruct Hsw as (Hk & Hp & Hn'); [lia|lia|wsolve|]. done.
  - intros now it Hit. unfold Retry_item. pose proof (remove_item_spec (it_id it) (items s.1)) as Hr. destruct (remove_item _ _) as [[x rest]|]; [|done].
    destruct Hr as (l1 & l2 & El & -> & Hx). cbn. split.
    + rewrite El, fmap_app, fmap_cons, Hx in Hid. rewrite fmap_app. apply NoDup_app in Hid as (_ & H1 & [H2 _]%NoDup_cons).
      intros [Hi|Hi]%elem_of_app; [apply (H1 _ Hi); by left|done].
    + intros y Hy Hne. rewrite El in Hy. apply elem_of_app in Hy as [?|[->|?]%elem_of_cons]; [apply elem_of_app; by left|done|apply elem_of_app; by right].
Qed.
End runs.

(** *** Witnesses *)

Definition small_queue : StragglerOptions := mkOptions 4 1000.
Definition busy : list call := [CAdd 0 "a" "metrics/flush" [1; 2; 3]; CBegin 5; CAdd 6 "b" "metrics/flush" [4; 5]; CItem 7 0 true].
Lemma straggler_bounded_witness :
  it_id <$> items (do_calls small_queue busy).1 = [1%nat] /\ bytes (do_calls small_queue busy).1 = 2 /\
  bytes (do_calls small_queue busy).1 = total (items (do_calls small_queue busy).1).
Proof.
  split; [vm_compute; reflexivity|]. split; [vm_compute; reflexivity|].
  assert (Hm : MaxBytes small_queue < 2 ^ 62) by (cbn; lia). exact (proj1 (straggler_bounded small_queue Hm busy)).
Defined.
