(* ===== verification/WalCodec.v ===== *)
(** * WalCodec: the records of the two write-ahead logs

    [internal/storage/wal/record.go] and [internal/storage/logwal/record.go]. A
    position into a buffer is the rest of the list from that position on. *)
From stdpp Require Import strings.
From S2P Require Import Prelude GoLib.

Record LabelPair := mkLP { lp_Name : string; lp_Value : string }.
#[export] Instance LabelPair_eq_dec : EqDecision LabelPair.
Proof. solve_decision. Defined.

Inductive labelErr := ErrLabelCount (n : Z) | ErrNameLength (name : string) | ErrValueLength (name : string).
Fixpoint validate_pairs (labels : list LabelPair) : option labelErr :=
  match labels with
  | [] => None
  | lp :: rest =>
      if 255 <? str_len (lp_Name lp) then Some (ErrNameLength (lp_Name lp))
      else if 65535 <? str_len (lp_Value lp) then Some (ErrValueLength (lp_Name lp))
      else validate_pairs rest
  end.
Definition validateLabels (labels : list LabelPair) : option labelErr :=
  if 255 <? Z.of_nat (length labels) then Some (ErrLabelCount (Z.of_nat (length labels))) else validate_pairs labels.

(** ** Encoding *)

Definition encode_pair (lp : LabelPair) : list Z :=
  u8 (str_len (lp_Name lp)) :: str_bytes (lp_Name lp) ++ be_bytes 2 (u16 (str_len (lp_Value lp))) ++ str_bytes (lp_Value lp).
Definition encode_labels (labels : list LabelPair) : list Z := u8 (Z.of_nat (length labels)) :: (labels ≫= encode_pair).

Definition recordTypeSample : Z := 1.
Definition recordTypeSampleGen : Z := 2.
Definition maxRecordBodyBytes : Z := 255 * (1 + 255 + 2 + 65535) + 2 + 16 + 8.
(** A sample record: labels, timestamp, value bits, generation. *)
Record walRecord := mkWal { wr_labels : list LabelPair; wr_ts : Z; wr_val : Z; wr_gen : Z }.

(** The body; the frame puts its length in front. *)
Definition encodeBody (typ : Z) (r : walRecord) : list Z :=
  typ :: encode_labels (wr_labels r) ++ be_bytes 8 (u64 (wr_ts r)) ++ be_bytes 8 (wr_val r) ++
  (if typ =? recordTypeSampleGen then be_bytes 8 (u64 (wr_gen r)) else []).
Definition frame (body : list Z) : list Z := be_bytes 4 (u32 (Z.of_nat (length body))) ++ body.
Definition encodeRecord (r : walRecord) : list Z := frame (encodeBody recordTypeSample r).
Definition encodeRecordGen (r : walRecord) : list Z := frame (encodeBody recordTypeSampleGen r).

(** ** Decoding *)

Fixpoint decode_pairs (count : nat) (b : list Z) : option (list LabelPair * list Z) :=
  match count with
  | O => Some ([], b)
  | S count =>
      '(l, b) ← cut 1 b; '(name, b) ← cut (Z.to_nat (be_val l)) b;
      '(vl, b) ← cut 2 b; '(val, b) ← cut (Z.to_nat (be_val vl)) b;
      '(labels, b) ← decode_pairs count b;
      Some (mkLP (bytes_str name) (bytes_str val) :: labels, b)
  end.

Definition decodeRecord (b : list Z) : option walRecord :=
  match b with
  | typ :: count :: rest =>
      if negb ((typ =? recordTypeSample) || (typ =? recordTypeSampleGen)) then None else
      '(labels, rest) ← decode_pairs (Z.to_nat count) rest;
      let tail := if typ =? recordTypeSampleGen then 24%nat else 16%nat in
      if negb (length rest =? tail)%nat then None else
      Some (mkWal labels (i64 (be_val (take 8 rest))) (be_val (take 8 (drop 8 rest)))
              (if typ =? recordTypeSampleGen then i64 (be_val (take 8 (drop 16 rest))) else 0))
  | _ => None
  end.

(** *** Log records *)

Definition recordTypeLog : Z := 1.
Definition log_maxRecordBodyBytes : Z := 255 * (1 + 255 + 2 + 65535) + 2 + 8 + 4 + 256 * 1024.
Record logRecord := mkLog { lr_labels : list LabelPair; lr_ts : Z; lr_line : string }.
Definition log_encodeBody (r : logRecord) : list Z :=
  recordTypeLog :: encode_labels (lr_labels r) ++ be_bytes 8 (u64 (lr_ts r)) ++ be_bytes 4 (u32 (str_len (lr_line r))) ++ str_bytes (lr_line r).
Definition log_encodeRecord (r : logRecord) : list Z := frame (log_encodeBody r).
Definition log_decodeRecord (b : list Z) : option logRecord :=
  match b with
  | typ :: count :: rest =>
      if negb (typ =? recordTypeLog) then None else
      '(labels, rest) ← decode_pairs (Z.to_nat count) rest;
      '(ts, rest) ← cut 8 rest; '(len, rest) ← cut 4 rest;
      if negb (Z.of_nat (length rest) =? be_val len) then None else
      Some (mkLog labels (i64 (be_val ts)) (bytes_str rest))
  | _ => None
  end.

(** ** Round trips *)

Lemma validate_pairs_ok labels : validate_pairs labels = None <->
  Forall (fun lp => str_len (lp_Name lp) <= 255 /\ str_len (lp_Value lp) <= 65535) labels.
Proof.
  induction labels as [|lp labels IH]; cbn [validate_pairs]; [done|]. rewrite Forall_cons.
  destruct (Z.ltb_spec 255 (str_len (lp_Name lp))); [split; [done|lia]|]. destruct (Z.ltb_spec 65535 (str_len (lp_Value lp))); [split; [done|lia]|].
  rewrite IH. naive_solver lia.
Qed.
Lemma validateLabels_ok labels : validateLabels labels = None <->
  Z.of_nat (length labels) <= 255 /\ Forall (fun lp => str_len (lp_Name lp) <= 255 /\ str_len (lp_Value lp) <= 65535) labels.
Proof. unfold validateLabels. destruct (Z.ltb_spec 255 (Z.of_nat (length labels))); [split; [done|lia]|]. rewrite validate_pairs_ok. naive_solver. Qed.

Lemma decode_encode_pairs labels rest :
  Forall (fun lp => str_len (lp_Name lp) <= 255 /\ str_len (lp_Value lp) <= 65535) labels ->
  decode_pairs (length labels) ((labels ≫= encode_pair) ++ rest) = Some (labels, rest).
Proof.
  induction labels as [|lp labels IH]; intros HF; [done|]. apply Forall_cons in HF as [[Hn Hv] HF]. cbn [length decode_pairs mbind list_bind].
  assert (Hn0 : 0 <= str_len (lp_Name lp)) by (unfold str_len; lia). assert (Hv0 : 0 <= str_len (lp_Value lp)) by (unfold str_len; lia).
  unfold encode_pair at 1. rewrite <- !app_assoc. cbn [app]. unfold u8, u16. rewrite !Z.mod_small by lia.
  change (?x :: ?l) with ([x] ++ l). rewrite cut_app by done. cbn [mbind option_bind]. rewrite be_val_one. rewrite <- !app_assoc.
  rewrite cut_app by (rewrite length_str_bytes; unfold str_len; lia). cbn [mbind option_bind].
  rewrite cut_app by apply length_be_bytes. cbn [mbind option_bind]. rewrite be_val_bytes, Z.mod_small by (change (8 * Z.of_nat 2) with 16; lia).
  rewrite cut_app by (rewrite length_str_bytes; unfold str_len; lia). cbn [mbind option_bind].
  change (list_bind _ _ encode_pair labels) with (labels ≫= encode_pair). rewrite IH by done. cbn [mbind option_bind].
  rewrite !bytes_str_bytes. by destruct lp.
Qed.

(** Decoding consumes the encoding of what it returns, and nothing else. *)
Lemma decode_pairs_sound count b labels rest : bytes_ok b -> decode_pairs count b = Some (labels, rest) ->
  length labels = count /\ b = (labels ≫= encode_pair) ++ rest /\ bytes_ok rest.
Proof.
  revert b labels. induction count as [|count IH]; intros b labels Hb; cbn [decode_pairs].
  { by intros [= <- <-]. }
  destruct (cut 1 b) as [[l b1]|] eqn:E1; [|done]. apply cut_some in E1 as [-> L1]. apply Forall_app in Hb as [Hl Hb]. cbn [mbind option_bind].
  destruct l as [|x [|? ?]]; try done. rewrite be_val_one. apply Forall_cons in Hl as [Hx _]. unfold byte_ok, in_u8 in Hx. change (2 ^ 8) with 256 in Hx.
  destruct (cut _ b1) as [[name b2]|] eqn:E2; [|done]. apply cut_some in E2 as [-> L2]. apply Forall_app in Hb as [Hname Hb]. cbn [mbind option_bind].
  destruct (cut 2 b2) as [[vl b3]|] eqn:E3; [|done]. apply cut_some in E3 as [-> L3]. apply Forall_app in Hb as [Hvl Hb]. cbn [mbind option_bind].
  pose proof (be_val_range vl Hvl) as Hr. rewrite L3 in Hr. change (8 * Z.of_nat 2) with 16 in Hr.
  destruct (cut _ b3) as [[val b4]|] eqn:E4; [|done]. apply cut_some in E4 as [-> L4]. apply Forall_app in Hb as [Hval Hb]. cbn [mbind option_bind].
  destruct (decode_pairs count b4) as [[ls b5]|] eqn:E5; [|done]. cbn [mbind option_bind]. intros [= <- <-].
  destruct (IH _ _ Hb E5) as (<- & -> & Hrest). split_and!; [done| |done]. cbn [mbind list_bind].
  assert (Henc : encode_pair (mkLP (bytes_str name) (bytes_str val)) = x :: name ++ vl ++ val).
  { unfold encode_pair, str_len. cbn [lp_Name lp_Value]. rewrite !str_bytes_str by done.
    assert (Hsl : forall l, bytes_ok l -> String.length (bytes_str l) = length l) by (intros l0 Hl0; by rewrite <- length_str_bytes, str_bytes_str).
    rewrite !Hsl by done. rewrite L2, L4, !Z2Nat.id by lia. unfold u8, u16. rewrite !Z.mod_small by (change (2 ^ 8) with 256; lia). f_equal. f_equal. f_equal.
    rewrite <- L3. by apply be_bytes_val. }
  rewrite Henc. cbn [app]. by rewrite <- !app_assoc.
Qed.

Definition pairs_ok (labels : list LabelPair) : Prop := validateLabels labels = None.
Definition wal_ok (r : walRecord) : Prop := in_i64 (wr_ts r) /\ in_u64 (wr_val r) /\ in_i64 (wr_gen r).

Lemma label_count labels : pairs_ok labels -> Z.to_nat (u8 (Z.of_nat (length labels))) = length labels /\
  Forall (fun lp => str_len (lp_Name lp) <= 255 /\ str_len (lp_Value lp) <= 65535) labels.
Proof. intros [H HF]%validateLabels_ok. unfold u8. rewrite Z.mod_small by (change (2 ^ 8) with 256; lia). split; [lia|done]. Qed.

Lemma sample_tail ts v g : in_i64 ts -> in_u64 v -> in_i64 g -> forall rest,
  let t := be_bytes 8 (u64 ts) ++ be_bytes 8 v ++ rest in
  i64 (be_val (take 8 t)) = ts /\ be_val (take 8 (drop 8 t)) = v /\ drop 16 t = rest.
Proof.
  intros Hts Hv Hg rest t. unfold t. rewrite be_val_take, be_drop, be_val_take. change (8 * Z.of_nat 8) with 64.
  split_and!.
  - change ((u64 ts) mod 2 ^ 64) with (u64 (u64 ts)). rewrite u64_u64, i64_u64. by apply i64_id.
  - by apply Z.mod_small.
  - change 16%nat with (8 + 8)%nat. rewrite <- drop_drop, be_drop, be_drop. done.
Qed.

Lemma u64_i64_val v : in_u64 v -> u64 (i64 v) = v.
Proof. intros H. by rewrite u64_i64, u64_id. Qed.

(** Both record types decode to what was encoded; a type-1 record has generation 0. *)
Lemma decode_encode typ r : typ = recordTypeSample \/ typ = recordTypeSampleGen -> pairs_ok (wr_labels r) -> wal_ok r ->
  decodeRecord (encodeBody typ r) = Some (mkWal (wr_labels r) (wr_ts r) (wr_val r) (if typ =? recordTypeSampleGen then wr_gen r else 0)).
Proof.
  intros Ht Hp (Hts & Hv & Hg). destruct (label_count _ Hp) as [Hc HF]. unfold encodeBody, encode_labels, decodeRecord. cbn [app].
  assert (Htyp : negb ((typ =? recordTypeSample) || (typ =? recordTypeSampleGen)) = false) by (destruct Ht as [->| ->]; done). rewrite Htyp, Hc.
  rewrite decode_encode_pairs by done. cbn [mbind option_bind].
  destruct (sample_tail (wr_ts r) (wr_val r) (wr_gen r) Hts Hv Hg (if typ =? recordTypeSampleGen then be_bytes 8 (u64 (wr_gen r)) else [])) as (T1 & T2 & T3).
  rewrite T1, T2, T3. rewrite !length_app, !length_be_bytes. destruct Ht as [->| ->]; cbn [Z.eqb Pos.eqb recordTypeSample recordTypeSampleGen].
  - done.
  - rewrite length_be_bytes. cbn [Nat.add Nat.eqb negb]. rewrite be_val_take_full. change ((u64 (wr_gen r)) mod 2 ^ (8 * Z.of_nat 8)) with (u64 (u64 (wr_gen r))).
    by rewrite u64_u64, i64_u64, i64_id.
Qed.

(** Whatever decodes is the encoding of what it decodes to: no two bodies stand for
    one record, and no truncated or padded body is accepted. *)
Lemma encode_decode b r : bytes_ok b -> decodeRecord b = Some r ->
  exists typ, (typ = recordTypeSample \/ typ = recordTypeSampleGen) /\ b = encodeBody typ r /\ wal_ok r /\ Z.of_nat (length (wr_labels r)) <= 255 /\
    (typ = recordTypeSample -> wr_gen r = 0).
Proof.
  intros Hb. unfold decodeRecord. destruct b as [|typ [|count rest]]; try done. apply Forall_cons in Hb as [Htb Hb]. apply Forall_cons in Hb as [Hcb Hb].
  destruct (negb _) eqn:Et; [done|]. apply negb_false_iff, orb_true_iff in Et. rewrite !Z.eqb_eq in Et. destruct (decode_pairs _ rest) as [[labels tl]|] eqn:Ep; [|done].
  cbn [mbind option_bind]. destruct (decode_pairs_sound _ _ _ _ Hb Ep) as (Hlen & -> & Htl). destruct (negb (length tl =? _)%nat) eqn:El; [done|].
  apply negb_false_iff, Nat.eqb_eq in El. intros [= <-]. exists typ. split; [done|]. unfold byte_ok, in_u8 in Hcb. change (2 ^ 8) with 256 in Hcb.
  assert (H8 : forall l, bytes_ok l -> length l = 8%nat -> in_u64 (be_val l) /\ be_bytes 8 (be_val l) = l).
  { intros l Hl L. pose proof (be_val_range l Hl) as Hr. rewrite L in Hr. split; [exact Hr|]. rewrite <- L at 1. by apply be_bytes_val. }
  assert (Hlong : (16 <= length tl)%nat) by (rewrite El; destruct (_ =? _); lia).
  destruct (H8 (take 8 tl)) as [R1 B1]; [by apply Forall_take|rewrite length_take; lia|].
  destruct (H8 (take 8 (drop 8 tl))) as [R2 B2]; [by apply Forall_take, Forall_drop|rewrite length_take, length_drop; lia|].
  split_and!.
  - unfold encodeBody, encode_labels. cbn [wr_labels wr_ts wr_val wr_gen]. unfold u8. rewrite Hlen, Z2Nat.id, Z.mod_small by (change (2 ^ 8) with 256; lia).
    cbn [app]. do 3 f_equal. rewrite u64_i64_val, B1, B2 by done. rewrite <- (take_drop 8 tl) at 1. f_equal. rewrite <- (take_drop 8 (drop 8 tl)) at 1. f_equal.
    rewrite drop_drop. cbn [Nat.add]. destruct (typ =? recordTypeSampleGen) eqn:E.
    + destruct (H8 (take 8 (drop 16 tl))) as [R3 B3]; [by apply Forall_take, Forall_drop|rewrite length_take, length_drop; lia|].
      rewrite u64_i64_val, B3 by done. symmetry. apply take_ge. rewrite length_drop. lia.
    + apply nil_length_inv. rewrite length_drop. lia.
  - split_and!; cbn; [apply in_i64_i64|done|]. destruct (_ =? _); [apply in_i64_i64|done].
  - cbn. lia.
  - cbn. intros ->. done.
Qed.

(** Log records. *)
Definition log_ok (r : logRecord) : Prop := in_i64 (lr_ts r) /\ str_len (lr_line r) < 2 ^ 32.
Lemma log_decode_encode r : pairs_ok (lr_labels r) -> log_ok r -> log_decodeRecord (log_encodeBody r) = Some r.
Proof.
  intros Hp (Hts & Hl). destruct (label_count _ Hp) as [Hc HF]. unfold log_encodeBody, encode_labels, log_decodeRecord. cbn [app].
  change (negb (recordTypeLog =? recordTypeLog)) with false. rewrite Hc, decode_encode_pairs by done. cbn [mbind option_bind].
  rewrite cut_app by apply length_be_bytes. cbn [mbind option_bind]. rewrite cut_app by apply length_be_bytes. cbn [mbind option_bind].
  rewrite !be_val_bytes. change (8 * Z.of_nat 8) with 64. change (8 * Z.of_nat 4) with 32. assert (0 <= str_len (lr_line r)) by (unfold str_len; lia).
  rewrite length_str_bytes. unfold u32. rewrite Z.mod_mod, (Z.mod_small (str_len _)) by lia. fold (str_len (lr_line r)). rewrite Z.eqb_refl. cbn [negb].
  change ((u64 (lr_ts r)) mod 2 ^ 64) with (u64 (u64 (lr_ts r))). rewrite u64_u64, i64_u64, i64_id, bytes_str_bytes by done. by destruct r.
Qed.
Lemma log_encode_decode b r : bytes_ok b -> log_decodeRecord b = Some r ->
  b = log_encodeBody r /\ log_ok r /\ Z.of_nat (length (lr_labels r)) <= 255.
Proof.
  intros Hb. unfold log_decodeRecord. destruct b as [|typ [|count rest]]; try done. apply Forall_cons in Hb as [Htb Hb]. apply Forall_cons in Hb as [Hcb Hb].
  destruct (negb _) eqn:Et; [done|]. apply negb_false_iff, Z.eqb_eq in Et. subst typ. destruct (decode_pairs _ rest) as [[labels tl]|] eqn:Ep; [|done].
  cbn [mbind option_bind]. destruct (decode_pairs_sound _ _ _ _ Hb Ep) as (Hlen & -> & Htl).
  destruct (cut 8 tl) as [[ts t1]|] eqn:E1; [|done]. apply cut_some in E1 as [-> L1]. apply Forall_app in Htl as [Hts Htl]. cbn [mbind option_bind].
  destruct (cut 4 t1) as [[len line]|] eqn:E2; [|done]. apply cut_some in E2 as [-> L2]. apply Forall_app in Htl as [Hln Htl]. cbn [mbind option_bind].
  destruct (negb _) eqn:El; [done|]. apply negb_false_iff, Z.eqb_eq in El. intros [= <-]. unfold byte_ok, in_u8 in Hcb. change (2 ^ 8) with 256 in Hcb.
  pose proof (be_val_range ts Hts) as R1. rewrite L1 in R1. pose proof (be_val_range len Hln) as R2. rewrite L2 in R2. change (8 * Z.of_nat 4) with 32 in R2.
  assert (Hsl : str_len (bytes_str line) = Z.of_nat (length line)) by (unfold str_len; by rewrite <- length_str_bytes, str_bytes_str).
  split_and!.
  - unfold log_encodeBody, encode_labels. cbn [lr_labels lr_ts lr_line app]. unfold u8. rewrite Hlen, Z2Nat.id, Z.mod_small by (change (2 ^ 8) with 256; lia).
    rewrite u64_i64_val by exact R1. rewrite Hsl, El, str_bytes_str by done. unfold u32. rewrite Z.mod_small by lia. rewrite <- L1 at 1. rewrite <- L2 at 1.
    by rewrite !be_bytes_val.
  - split; cbn; [apply in_i64_i64|]. rewrite Hsl. lia.
  - cbn. lia.
Qed.

(** The record codecs are exact. For labels within the encoding's limits, a body
    of bytes decodes to a record if and only if it is that record's encoding: nothing
    is lost or changed, no two bodies stand for one record of a type, and truncated,
    padded or foreign bodies are refused, for samples of both types and for lines. *)
Theorem record_codecs_exact b r lr : bytes_ok b -> pairs_ok (wr_labels r) -> pairs_ok (lr_labels lr) ->
  (decodeRecord b = Some r <-> wal_ok r /\ (b = encodeBody recordTypeSampleGen r \/ b = encodeBody recordTypeSample r /\ wr_gen r = 0)) /\
  (log_decodeRecord b = Some lr <-> log_ok lr /\ b = log_encodeBody lr).
Proof.
  intros Hb Hp Hlp. split; split.
  - intros H. destruct (encode_decode _ _ Hb H) as (typ & [->| ->] & -> & Hok & _ & Hg); [|by split; [|left]]. split; [done|right]. split; [done|by apply Hg].
  - intros [Hok [->|[-> Hg]]]; rewrite decode_encode by (first [by left|by right|done]); destruct r; cbn in *; by rewrite ?Hg.
  - intros H. by destruct (log_encode_decode _ _ Hb H) as (-> & ? & _).
  - intros [Hok ->]. by apply log_decode_encode.
Qed.
Definition a_record : walRecord := mkWal [mkLP "host" "a"] (-5) 4607182418800017408 9.
Definition a_line : logRecord := mkLog [mkLP "app" "api"] 77 "hello".
Lemma record_codecs_exact_witness :
  (decodeRecord (encodeBody recordTypeSampleGen a_record) = Some a_record <-> wal_ok a_record /\
    (encodeBody recordTypeSampleGen a_record = encodeBody recordTypeSampleGen a_record \/ encodeBody recordTypeSampleGen a_record = encodeBody recordTypeSample a_record /\ wr_gen a_record = 0)) /\
  (log_decodeRecord (encodeBody recordTypeSampleGen a_record) = Some a_line <-> log_ok a_line /\ encodeBody recordTypeSampleGen a_record = log_encodeBody a_line).
Proof.
  apply (record_codecs_exact (encodeBody recordTypeSampleGen a_record) a_record a_line); [|reflexivity..].
  vm_compute. repeat constructor; discriminate.
Defined.
