(* ===== verification/SegName.v ===== *)
(** * SegName: the names of write-ahead log segments

    [fmt.Sprintf("%06d.wal", idx)], [strings.HasSuffix]/[TrimSuffix] and
    [strconv.Atoi] as both logs use them, with what replay relies on: a name reads
    back as its index, and names below the seventh digit sort like their indexes. *)
From stdpp Require Import strings.
From S2P Require Import Prelude GoLib GoSort.

Definition digit (d : Z) : Ascii.ascii := Ascii.ascii_of_N (Z.to_N (48 + d)).
Fixpoint pad_digits (k : nat) (n : Z) : string :=
  match k with O => EmptyString | S k => String (digit (n / 10 ^ Z.of_nat k mod 10)) (pad_digits k n) end.
Fixpoint ndigits (fuel : nat) (n : Z) : nat :=
  match fuel with O => 1%nat | S f => if n <? 10 then 1%nat else S (ndigits f (n / 10)) end.
(** [fmt.Sprintf("%06d", n)] of a non-negative int: six is only a minimum. *)
Definition fmt_06d (n : Z) : string := pad_digits (Nat.max 6 (ndigits 19 n)) n.
Definition wal_ext : string := ".wal"%string.
Definition segmentPath (idx : Z) : string := fmt_06d idx +:+ wal_ext.

Definition HasSuffix (s suffix : string) : bool :=
  ((String.length suffix <=? String.length s)%nat &&
   String.eqb (String.substring (String.length s - String.length suffix) (String.length suffix) s) suffix)%bool.
Definition TrimSuffix (s suffix : string) : string :=
  if HasSuffix s suffix then String.substring 0 (String.length s - String.length suffix) s else s.

(** The bytes 43 and 45. *)
Definition plus_sign : Ascii.ascii := Ascii.ascii_of_N 43.
Definition minus_sign : Ascii.ascii := Ascii.ascii_of_N 45.
Definition digit_val (c : Ascii.ascii) : option Z :=
  let v := Z.of_N (Ascii.N_of_ascii c) in if ((48 <=? v) && (v <=? 57))%bool then Some (v - 48) else None.
Fixpoint digits_val (acc : Z) (s : string) : option Z :=
  match s with EmptyString => Some acc | String c s => d ← digit_val c; digits_val (acc * 10 + d) s end.
(** [strconv.Atoi]: an optional sign, at least one digit, and a value in range. *)
Definition Atoi_digits (neg : bool) (s : string) : option Z :=
  match s with
  | EmptyString => None
  | _ => v ← digits_val 0 s; let v := if neg then - v else v in if ((MinInt64 <=? v) && (v <=? MaxInt64))%bool then Some v else None
  end.
Definition Atoi (s : string) : option Z :=
  match s with
  | EmptyString => None
  | String c rest =>
      if Ascii.eqb c plus_sign then Atoi_digits false rest else if Ascii.eqb c minus_sign then Atoi_digits true rest else Atoi_digits false s
  end.

(** ** A name reads back as its index *)

Lemma digit_code d : 0 <= d < 10 -> Z.of_N (Ascii.N_of_ascii (digit d)) = 48 + d.
Proof. intros H. unfold digit. rewrite Ascii.N_ascii_embedding by lia. lia. Qed.
Lemma digit_val_digit d : 0 <= d < 10 -> digit_val (digit d) = Some d.
Proof.
  intros H. unfold digit_val. rewrite digit_code by done. destruct (Z.leb_spec 48 (48 + d)); [|lia]. destruct (Z.leb_spec (48 + d) 57); [|lia].
  cbn. f_equal. lia.
Qed.
Lemma digit_not_sign d : 0 <= d < 10 -> Ascii.eqb (digit d) plus_sign = false /\ Ascii.eqb (digit d) minus_sign = false.
Proof.
  intros H. split; apply Ascii.eqb_neq; intros E; apply (f_equal (fun c => Z.of_N (Ascii.N_of_ascii c))) in E; rewrite digit_code in E by done.
  - change (48 + d = 43) in E. lia.
  - change (48 + d = 45) in E. lia.
Qed.

Lemma pow10_pos k : 0 < 10 ^ Z.of_nat k.
Proof. apply Z.pow_pos_nonneg; lia. Qed.
Lemma pow10_S k : 10 ^ Z.of_nat (S k) = 10 * 10 ^ Z.of_nat k.
Proof. rewrite Nat2Z.inj_succ, Z.pow_succ_r; lia. Qed.
#[local] Hint Resolve pow10_pos : core.
Lemma mod_pow10_S n k : n mod 10 ^ Z.of_nat (S k) = (n / 10 ^ Z.of_nat k mod 10) * 10 ^ Z.of_nat k + n mod 10 ^ Z.of_nat k.
Proof. pose proof (pow10_pos k). rewrite pow10_S, (Z.mul_comm 10), Z.rem_mul_r by lia. lia. Qed.

Lemma digits_val_pad k n acc : digits_val acc (pad_digits k n) = Some (acc * 10 ^ Z.of_nat k + n mod 10 ^ Z.of_nat k).
Proof.
  revert acc. induction k as [|k IH]; intros acc; cbn [pad_digits digits_val].
  - rewrite Z.mod_1_r. f_equal. cbn. lia.
  - rewrite digit_val_digit by (apply Z.mod_pos_bound; lia). cbn [mbind option_bind]. rewrite IH, mod_pow10_S, pow10_S. f_equal. lia.
Qed.
Lemma length_pad k n : String.length (pad_digits k n) = k.
Proof. induction k as [|k IH]; cbn; [done|]. by rewrite IH. Qed.

Lemma ndigits_bound f n : 0 <= n < 10 ^ Z.of_nat (S f) -> n < 10 ^ Z.of_nat (ndigits f n).
Proof.
  revert n. induction f as [|f IH]; intros n Hn; cbn [ndigits]; [lia|]. destruct (Z.ltb_spec n 10); [change (10 ^ Z.of_nat 1) with 10; lia|].
  rewrite (pow10_S (S f)) in Hn. rewrite pow10_S. assert (n / 10 < 10 ^ Z.of_nat (ndigits f (n / 10))).
  { apply IH. split; [apply Z.div_pos; lia|]. apply Z.div_lt_upper_bound; [lia|tauto]. }
  pose proof (Z.div_mod n 10). pose proof (Z.mod_pos_bound n 10). lia.
Qed.
Lemma fmt_width n : 0 <= n <= MaxInt64 -> n < 10 ^ Z.of_nat (Nat.max 6 (ndigits 19 n)).
Proof.
  intros Hn. eapply Z.lt_le_trans; [apply (ndigits_bound 19 n)|apply Z.pow_le_mono_r; lia]. split; [lia|]. unfold MaxInt64 in Hn.
  change (10 ^ Z.of_nat 20) with 100000000000000000000. lia.
Qed.
Lemma Atoi_fmt n : 0 <= n <= MaxInt64 -> Atoi (fmt_06d n) = Some n.
Proof.
  intros Hn. pose proof (fmt_width n Hn) as Hw. unfold fmt_06d in *. destruct (Nat.max 6 (ndigits 19 n)) as [|k] eqn:Ek; [lia|]. cbn [pad_digits Atoi].
  destruct (digit_not_sign (n / 10 ^ Z.of_nat k mod 10)) as [-> ->]; [apply Z.mod_pos_bound; lia|].
  change (String _ _) with (pad_digits (S k) n). unfold Atoi_digits. rewrite digits_val_pad. cbn [pad_digits mbind option_bind].
  rewrite Z.mul_0_l, Z.add_0_l, Z.mod_small by lia. unfold MinInt64. destruct (Z.leb_spec (- 2 ^ 63) n); [|lia]. destruct (Z.leb_spec n MaxInt64); [done|lia].
Qed.

(** ** The suffix *)

Lemma substring_app_l s t : String.substring 0 (String.length s) (s +:+ t) = s.
Proof. induction s as [|c s IH]; [by destruct t|]. exact (f_equal (String c) IH). Qed.
Lemma substring_app_r s t : String.substring (String.length s) (String.length t) (s +:+ t) = t.
Proof. induction s as [|c s IH]; [|exact IH]. induction t as [|d t IH]; [done|]. exact (f_equal (String d) IH). Qed.
Lemma length_sapp s t : String.length (s +:+ t) = (String.length s + String.length t)%nat.
Proof. induction s as [|c s IH]; [done|]. exact (f_equal S IH). Qed.
Lemma HasSuffix_app s t : HasSuffix (s +:+ t) t = true.
Proof.
  unfold HasSuffix. rewrite length_sapp. destruct (Nat.leb_spec (String.length t) (String.length s + String.length t)); [|lia].
  replace (String.length s + String.length t - String.length t)%nat with (String.length s) by lia. rewrite substring_app_r. cbn. apply String.eqb_refl.
Qed.
Lemma TrimSuffix_app s t : TrimSuffix (s +:+ t) t = s.
Proof.
  unfold TrimSuffix. rewrite HasSuffix_app, length_sapp. replace (String.length s + String.length t - String.length t)%nat with (String.length s) by lia. apply substring_app_l.
Qed.

Definition segment_index (path : string) : option Z := Atoi (TrimSuffix path wal_ext).
Lemma segment_index_path n : 0 <= n <= MaxInt64 -> segment_index (segmentPath n) = Some n.
Proof. intros Hn. unfold segment_index, segmentPath. rewrite TrimSuffix_app. by apply Atoi_fmt. Qed.
Lemma HasSuffix_path n : HasSuffix (segmentPath n) wal_ext = true.
Proof. apply HasSuffix_app. Qed.
Lemma segmentPath_inj n m : 0 <= n <= MaxInt64 -> 0 <= m <= MaxInt64 -> segmentPath n = segmentPath m -> n = m.
Proof. intros Hn Hm E. apply (f_equal segment_index) in E. rewrite !segment_index_path in E by done. congruence. Qed.

(** ** Names of up to six digits sort like their indexes *)

Lemma ltb_cons c s d t : String.ltb (String c s) (String d t) =
  match N.compare (Ascii.N_of_ascii c) (Ascii.N_of_ascii d) with Lt => true | Eq => String.ltb s t | Gt => false end.
Proof. unfold String.ltb. cbn. unfold Ascii.compare. by destruct (N.compare _ _). Qed.
Lemma pad_lt k n m s t : n mod 10 ^ Z.of_nat k < m mod 10 ^ Z.of_nat k -> str_lt (pad_digits k n +:+ s) (pad_digits k m +:+ t).
Proof.
  induction k as [|k IH]; [rewrite !Z.mod_1_r; lia|]. rewrite !mod_pow10_S. unfold str_lt in *. cbn [pad_digits]. pose proof (pow10_pos k) as Hp.
  pose proof (Z.mod_pos_bound (n / 10 ^ Z.of_nat k) 10) as B1. pose proof (Z.mod_pos_bound (m / 10 ^ Z.of_nat k) 10) as B2.
  pose proof (Z.mod_pos_bound n (10 ^ Z.of_nat k)) as R1. pose proof (Z.mod_pos_bound m (10 ^ Z.of_nat k)) as R2.
  set (a := n / 10 ^ Z.of_nat k mod 10) in *. set (b := m / 10 ^ Z.of_nat k mod 10) in *. intros H. cbn [String.append].
  pose proof (digit_code a ltac:(lia)) as Ca. pose proof (digit_code b ltac:(lia)) as Cb.
  change (String.ltb (String (digit a) (pad_digits k n +:+ s)) (String (digit b) (pad_digits k m +:+ t)) = true).
  rewrite ltb_cons. destruct (N.compare_spec (Ascii.N_of_ascii (digit a)) (Ascii.N_of_ascii (digit b))) as [E|E|E]; [|done|].
  - apply IH. assert (a = b) by lia. nia.
  - assert (b < a) by lia. nia.
Qed.
Lemma ndigits_small f n k : 0 <= n < 10 ^ Z.of_nat (S k) -> (ndigits f n <= S k)%nat.
Proof.
  revert n k. induction f as [|f IH]; intros n k Hn; cbn [ndigits]; [lia|]. destruct (Z.ltb_spec n 10); [lia|]. destruct k as [|k]; [cbn in Hn; lia|].
  apply le_n_S, IH. rewrite pow10_S in Hn. split; [apply Z.div_pos; lia|]. apply Z.div_lt_upper_bound; lia.
Qed.
Lemma segmentPath_lt n m : 0 <= n < m -> m < 1000000 -> str_lt (segmentPath n) (segmentPath m).
Proof.
  intros Hn Hm. unfold segmentPath, fmt_06d. pose proof (ndigits_small 19 n 5) as H1. pose proof (ndigits_small 19 m 5) as H2.
  change (10 ^ Z.of_nat 6) with 1000000 in *. rewrite !Nat.max_l by (first [apply H1|apply H2]; lia). apply pad_lt. change (10 ^ Z.of_nat 6) with 1000000. rewrite !Z.mod_small by lia. lia.
Qed.
(** ... and the seventh digit breaks it. *)
Example seventh_digit_sorts_first : str_lt (segmentPath 1000000) (segmentPath 999999).
Proof. vm_compute. reflexivity. Qed.
