(* ===== verification/Wal.v ===== *)
(** * Wal: the write-ahead logs of samples and log lines

    [internal/storage/wal] (wal.go, replay.go, size.go) and
    [internal/storage/logwal] (logwal.go, replay.go), which share their design: a
    directory of numbered segments, appends to the last one, fsync every few
    records, rotation by size, and a replay that repairs a torn tail. The machine
    is written once over a kind of record; the two logs are its instances. Of every
    file the disk keeps how much has been synced: a crash may lose or tear the rest. *)
From stdpp Require Import strings.
From S2P Require Import Prelude GoLib GoSort WalCodec SegName.

(** ** The disk *)

Record file := mkFile { f_data : list Z; f_synced : nat }.
#[export] Instance file_eq_dec : EqDecision file.
Proof. solve_decision. Defined.
Abbreviation disk := (gmap string file).

Definition f_append (f : file) (b : list Z) : file := mkFile (f_data f ++ b) (f_synced f).
Definition f_sync (f : file) : file := mkFile (f_data f) (length (f_data f)).
Definition disk_append (d : disk) (name : string) (b : list Z) : disk := alter (fun f => f_append f b) name d.
Definition disk_sync (d : disk) (name : string) : disk := alter f_sync name d.
Definition truncateAndSync (d : disk) (path : string) (size : nat) : disk := alter (fun f => mkFile (take size (f_data f)) size) path d.

(** ** Segments of a directory *)

Definition wal_files (d : disk) : list string := filter (fun n => HasSuffix n wal_ext = true) (map_to_list d).*1.
(** [wal.segmentPaths] sorts the names; [logwal.segmentPaths] sorts by index and
    skips names that are not numbers. *)
Definition segmentPaths (d : disk) : list string := sort_str id (wal_files d).
Definition indexed (p : string) : option (Z * string) := i ← segment_index p; Some (i, p).
Definition log_segmentPaths (d : disk) : list string := (sort_by fst (omap indexed (wal_files d))).*2.
(** The paths [wal.ReplayFromGen] walks. *)
Definition paths_after (afterSegment : Z) (paths : list string) : list string :=
  filter (fun p => match segment_index p with Some i => afterSegment <? i | None => false end = true) paths.

(** What the operating system may do to an operation. *)
Inductive fault := NoFault | FailWrite (done : nat) | FailSync | FailRotSync | FailClose | FailCreate | FailSyncDir.
#[export] Instance fault_eq_dec : EqDecision fault.
Proof. solve_decision. Defined.

Definition short_write (flt : fault) : option nat := match flt with FailWrite k => Some k | _ => None end.

Inductive walErr := ErrBroken | ErrLabels (e : labelErr) | ErrIO (what : fault) | ErrClosed
  | ErrReadLength (path : string) | ErrOversized (path : string) | ErrReadBody (path : string) | ErrCorrupt (path : string).
#[export] Instance labelErr_eq_dec : EqDecision labelErr.
Proof. solve_decision. Defined.
#[export] Instance walErr_eq_dec : EqDecision walErr.
Proof. solve_decision. Defined.

(** A kind of record, and how its log lists segments. *)
Class RecordKind (R : Type) := {
  rk_encode : R -> list Z;
  rk_decode : list Z -> option R;
  rk_labels : R -> list LabelPair;
  rk_maxBody : Z;
  rk_paths : disk -> list string;       (** [segmentPaths] *)
  rk_replayed : disk -> list string;    (** those [Replay] walks *)
  rk_forgets : bool                     (** [Close] sets [current] to nil *) }.

(** The [*os.File] of the writer. *)
Inductive handle := NoFile | ClosedFile | OpenFile.
#[export] Instance handle_eq_dec : EqDecision handle.
Proof. solve_decision. Defined.

Record WAL := mkWAL {
  segMaxBytes : Z; syncEveryN : Z; current : handle; segIndex : Z; written : Z; sinceSynced : Z; broken : bool;
  autoSyncs : Z; preRotationSyncs : Z }.
Definition set_current (h : handle) (w : WAL) : WAL :=
  mkWAL (segMaxBytes w) (syncEveryN w) h (segIndex w) (written w) (sinceSynced w) (broken w) (autoSyncs w) (preRotationSyncs w).
Definition set_broken (b : bool) (w : WAL) : WAL :=
  mkWAL (segMaxBytes w) (syncEveryN w) (current w) (segIndex w) (written w) (sinceSynced w) b (autoSyncs w) (preRotationSyncs w).
Definition fresh_segment (idx : Z) (w : WAL) : WAL :=
  mkWAL (segMaxBytes w) (syncEveryN w) OpenFile idx 0 0 (broken w) (autoSyncs w) (preRotationSyncs w).
Definition count_written (n : Z) (w : WAL) : WAL :=
  mkWAL (segMaxBytes w) (syncEveryN w) (current w) (segIndex w) (i64 (written w + n)) (i64 (sinceSynced w + 1)) (broken w) (autoSyncs w) (preRotationSyncs w).
Definition count_auto_sync (w : WAL) : WAL :=
  mkWAL (segMaxBytes w) (syncEveryN w) (current w) (segIndex w) (written w) 0 (broken w) (i64 (autoSyncs w + 1)) (preRotationSyncs w).
Definition count_rotation_sync (w : WAL) : WAL :=
  mkWAL (segMaxBytes w) (syncEveryN w) (current w) (segIndex w) (written w) (sinceSynced w) (broken w) (autoSyncs w) (i64 (preRotationSyncs w + 1)).

Section machine.
Context {R : Type} `{RecordKind R}.
Implicit Types (w : WAL) (d : disk).

(** ** The writer *)

Definition openSegment w d (idx : Z) (flt : fault) : result walErr unit * WAL * disk :=
  if decide (flt = FailCreate) then (Err (ErrIO flt), w, d) else
  let d := match d !! segmentPath idx with Some _ => d | None => <[segmentPath idx := mkFile [] 0]> d end in
  if decide (flt = FailSyncDir) then (Err (ErrIO flt), w, d) else (Ok tt, fresh_segment idx w, d).

Definition max_index (paths : list string) : Z :=
  fold_left (fun m p => match segment_index p with Some i => if m <? i then i else m | None => m end) paths 0.
Definition Open d (segMax syncEvery : Z) (flt : fault) : result walErr WAL * disk :=
  let w := mkWAL segMax syncEvery NoFile (i64 (max_index (rk_paths d) + 1)) 0 0 false 0 0 in
  match openSegment w d (segIndex w) flt with
  | (Ok _, w, d) => (Ok w, d)
  | (Err e, _, d) => (Err e, d)
  end.

(** Sync the outgoing segment, close it, open the next one. *)
Definition rotate w d (flt : fault) : result walErr unit * WAL * disk :=
  if decide (flt = FailRotSync) then (Err (ErrIO flt), w, d) else
  let d := disk_sync d (segmentPath (segIndex w)) in
  let w := set_current ClosedFile (count_rotation_sync w) in
  if decide (flt = FailClose) then (Err (ErrIO flt), w, d) else
  let w := set_broken true w in
  match openSegment w d (i64 (segIndex w + 1)) flt with
  | (Ok _, w, d) => (Ok tt, set_broken false w, d)
  | (Err e, w, d) => (Err e, w, d)
  end.

(** The fsync every [syncEveryN] records. *)
Definition sync_due w : bool := (0 <? syncEveryN w) && (syncEveryN w <=? sinceSynced w).
Definition write_synced w d (flt : fault) : result walErr unit * WAL * disk :=
  if sync_due w then
    if decide (flt = FailSync) then (Err (ErrIO flt), w, d)
    else (Ok tt, count_auto_sync w, disk_sync d (segmentPath (segIndex w)))
  else (Ok tt, w, d).

Definition WriteRecord w d (r : R) (flt : fault) : result walErr unit * WAL * disk :=
  if decide (current w = NoFile) then (Err ErrClosed, w, d) else
  if broken w then (Err ErrBroken, w, d) else
  match validateLabels (rk_labels r) with
  | Some e => (Err (ErrLabels e), w, d)
  | None =>
      let path := segmentPath (segIndex w) in
      let data := frame (rk_encode r) in
      if decide (current w = ClosedFile) then (Err ErrClosed, w, d) else
      match short_write flt with
      | Some k => (Err (ErrIO flt), w, disk_append d path (take k data))
      | None =>
          match write_synced (count_written (Z.of_nat (length data)) w) (disk_append d path data) flt with
          | (Ok _, w, d) => if segMaxBytes w <=? written w then rotate w d flt else (Ok tt, w, d)
          | (Err e, w, d) => (Err e, w, d)
          end
      end
  end.

Definition Sync w d (flt : fault) : result walErr unit * disk :=
  if decide (current w = NoFile) then (Err ErrClosed, d) else
  if broken w then (Err ErrBroken, d) else
  if decide (current w = ClosedFile) then (Err ErrClosed, d) else
  if decide (flt = FailSync) then (Err (ErrIO flt), d) else (Ok tt, disk_sync d (segmentPath (segIndex w))).
Definition SegmentIndex w : Z := segIndex w.
Definition Close w d (flt : fault) : result walErr unit * WAL * disk :=
  match current w with
  | NoFile => (Ok tt, w, d)
  | ClosedFile => (Err ErrClosed, set_current (if rk_forgets then NoFile else ClosedFile) w, d)
  | OpenFile =>
      let w' := set_current (if rk_forgets then NoFile else ClosedFile) w in
      if decide (flt = FailSync) then (Err (ErrIO flt), w', d) else
      let d := disk_sync d (segmentPath (segIndex w)) in
      if decide (flt = FailClose) then (Err (ErrIO flt), w', d) else (Ok tt, w', d)
  end.

(** ** Replay *)

(** One segment, of which [offset] bytes are consumed: the records decoded, and
    nil, the offset a torn tail is truncated to, or an error. *)
Inductive segEnd := SegClean | SegTorn (offset : nat) | SegErr (e : walErr).
Fixpoint replaySegment (fuel : nat) (path : string) (isLast : bool) (data : list Z) (offset : nat) : list R * segEnd :=
  match fuel with
  | O => ([], SegErr (ErrCorrupt path))
  | S f =>
      if (length data =? 0)%nat then ([], SegClean) else
      if (length data <? 4)%nat then ([], if isLast then SegTorn offset else SegErr (ErrReadLength path)) else
      let bodyLen := be_val (take 4 data) in
      let rest := drop 4 data in
      if rk_maxBody <? bodyLen then ([], if isLast then SegTorn offset else SegErr (ErrOversized path)) else
      let n := Z.to_nat bodyLen in
      if (length rest <? n)%nat then
        ([], if (negb (length rest =? 0)%nat && isLast)%bool then SegTorn offset else SegErr (ErrReadBody path))
      else
        match rk_decode (take n rest) with
        | None => ([], SegErr (ErrCorrupt path))
        | Some r => let '(rs, e) := replaySegment f path isLast (drop n rest) (offset + 4 + n) in (r :: rs, e)
        end
  end.

(** The segments in turn; the last one may be torn. *)
Fixpoint replay_paths (paths : list string) d : list R * result walErr unit * disk :=
  match paths with
  | [] => ([], Ok tt, d)
  | path :: rest =>
      let data := match d !! path with Some f => f_data f | None => [] end in
      let isLast := match rest with [] => true | _ => false end in
      match replaySegment (S (length data)) path isLast data 0 with
      | (rs, SegErr e) => (rs, Err e, d)
      | (rs, SegTorn off) => let '(rs', o, d) := replay_paths rest (truncateAndSync d path off) in (rs ++ rs', o, d)
      | (rs, SegClean) => let '(rs', o, d) := replay_paths rest d in (rs ++ rs', o, d)
      end
  end.
Definition Replay d : list R * result walErr unit * disk := replay_paths (rk_replayed d) d.
End machine.

(** ** The two logs *)

#[export] Instance wal_kind : RecordKind walRecord := {|
  rk_encode := encodeBody recordTypeSampleGen; rk_decode := decodeRecord; rk_labels := wr_labels; rk_maxBody := maxRecordBodyBytes;
  rk_paths := segmentPaths; rk_replayed := fun d => paths_after 0 (segmentPaths d); rk_forgets := false |}.
#[export] Instance log_kind : RecordKind logRecord := {|
  rk_encode := log_encodeBody; rk_decode := log_decodeRecord; rk_labels := lr_labels; rk_maxBody := log_maxRecordBodyBytes;
  rk_paths := log_segmentPaths; rk_replayed := log_segmentPaths; rk_forgets := true |}.

(** [wal.ReplayFromGen]: the segments after a checkpoint. *)
Definition ReplayFromGen (d : disk) (afterSegment : Z) : list walRecord * result walErr unit * disk :=
  replay_paths (paths_after afterSegment (segmentPaths d)) d.

(** [logwal.Checkpoint]: sync and close the segment, remove every segment, start at
    1 again. [rm] is how many removals succeed before one fails, if one does. *)
Definition remove_all (paths : list string) (d : disk) : disk := fold_left (fun d p => delete p d) paths d.
Definition Checkpoint (w : WAL) (d : disk) (flt : fault) (rm : option nat) : result walErr unit * WAL * disk :=
  if decide (current w = NoFile) then (Err ErrClosed, w, d) else
  if broken w then (Err ErrBroken, w, d) else
  if decide (current w = ClosedFile) then (Err ErrClosed, w, d) else
  if decide (flt = FailSync) then (Err (ErrIO flt), w, d) else
  let d := disk_sync d (segmentPath (segIndex w)) in
  if decide (flt = FailClose) then (Err (ErrIO flt), set_current ClosedFile w, d) else
  let w := set_current NoFile w in
  let paths := log_segmentPaths d in
  match rm with
  | Some k => (Err (ErrIO FailSyncDir), w, remove_all (take k paths) d)
  | None =>
      let d := remove_all paths d in
      if decide (flt = FailSyncDir) then (Err (ErrIO flt), w, d) else
      openSegment (set_broken false w) d 1 flt
  end.

(** [wal.DirStats]: bytes and segments of the directory. *)
Definition DirStats (d : disk) : Z * Z :=
  fold_left (fun acc (e : string * file) => if HasSuffix e.1 wal_ext then (i64 (acc.1 + Z.of_nat (length (f_data e.2))), i64 (acc.2 + 1)) else acc) (map_to_list d) (0, 0).
Definition DirSize (d : disk) : Z := (DirStats d).1.
