(* ===== verification/WalRecovery.v ===== *)
(** * WalRecovery: what the write-ahead logs survive

    A run of a log is a sequence of writes, syncs, closes, machine crashes and
    restarts, with the operating system failing any operation. After every crash,
    replay succeeds and returns a prefix of what was written that holds every
    record known to be synced. The runs of this file meet none of the faults of
    [hazard]; [WalHazard] lets them happen. The proofs use a record kind through
    [RecordLaws]. *)
From stdpp Require Import strings.
From S2P Require Import Prelude GoLib GoSort WalCodec SegName Wal.

Definition seg_names (lo : Z) (n : nat) : list string := (fun k => segmentPath (lo + Z.of_nat k)) <$> seq 0 n.
Definition segments_are (d : disk) (lo : Z) (n : nat) : Prop := forall p, is_Some (d !! p) <-> p ∈ seg_names lo n.

(** What replay needs of a kind of record: its codec is a round trip within the
    bound replay allocates, and segments are listed in index order below [bound]. *)
Class RecordLaws (R : Type) `{RecordKind R} (rl_ok : R -> Prop) (bound : Z) := {
  rl_roundtrip r : rl_ok r -> validateLabels (rk_labels r) = None -> rk_decode (rk_encode r) = Some r;
  rl_length r : rl_ok r -> validateLabels (rk_labels r) = None -> (0 < length (rk_encode r))%nat /\ Z.of_nat (length (rk_encode r)) <= rk_maxBody;
  rl_width : rk_maxBody < 2 ^ 32;
  rl_bound : 2 <= bound <= MaxInt64;
  rl_paths d lo n : 1 <= lo -> lo + Z.of_nat n <= bound -> segments_are d lo n -> rk_paths d = seg_names lo n /\ rk_replayed d = seg_names lo n }.

(** A machine crash keeps of every file the synced part and some of what follows. *)
Definition crash_file (f f' : file) : Prop := exists n, (f_synced f <= n <= length (f_data f))%nat /\ f' = mkFile (take n (f_data f)) n.
Definition crash (d d' : disk) : Prop := forall p, option_Forall2 crash_file (d !! p) (d' !! p).
Definition all_synced (d : disk) : Prop := map_Forall (fun _ f => f_synced f = length (f_data f)) d.

(** The faults that the code does not survive. An append cut short leaves part of a
    frame in the segment and the writer goes on behind it ([wal.go], [logwal.go]:
    the error returns without truncating or closing). A crash that leaves exactly a
    record's length prefix makes replay fail ([replay.go]: a body read that hits the
    end of the file at once is not taken for a torn tail). A process that dies with
    unsynced bytes leaves a segment that the next start accepts without an fsync,
    and a later machine crash tears it though it is no longer the last. And two
    flushes that write the checkpoint file at once can leave a number neither wrote. *)
Inductive hazard := ShortWrite | PrefixTear | UnsyncedKill | SharedCheckpoint.
(** A run that meets none of them. *)
Definition spared : hazard -> Prop := fun _ => False.

Section recovery.
Context {R : Type} `{KR : RecordKind R} (rl_ok : R -> Prop) (bound : Z) `{!RecordLaws R rl_ok bound}.
Implicit Types (w : WAL) (d : disk) (r : R) (rs : list R).

(** ** Runs *)

(** The log as its owner sees it: the writer, when the process is up, the
    directory, every record written so far that a restart has not dropped with the
    segment it was written to, and how many of them are known to be synced. *)
Record sys := mkSys { s_wal : option WAL; s_disk : disk; s_hist : list (Z * R); s_dur : nat }.

Definition durable (d : disk) (hist : list (Z * R)) (dur : nat) : nat := if decide (all_synced d) then length hist else dur.
(** Whether the write reached the file, even if a later sync or rotation failed. *)
Definition reached_file (res : result walErr unit) : bool :=
  match res with Ok _ | Err (ErrIO (FailSync | FailRotSync | FailClose | FailCreate | FailSyncDir)) => true | _ => false end.
Definition frame_len (r : R) : nat := length (frame (rk_encode r)).
Definition writable r : Prop := rl_ok r /\ validateLabels (rk_labels r) = None.
(** A tear right after the four bytes of a length prefix: see
    [prefix_tear_breaks_replay]. *)
Definition seg_bytes rs : list Z := rs ≫= (fun r => frame (rk_encode r)).
Definition prefix_tear (data : list Z) : Prop := exists rs r, Forall writable rs /\ writable r /\ data = seg_bytes rs ++ take 4 (frame (rk_encode r)).
Definition prefix_torn (d : disk) : Prop := exists p f, d !! p = Some f /\ prefix_tear (f_data f).

Definition start : sys := mkSys None ∅ [] 0.
(** The steps of a run that meets no [hazard]: a failed append wrote nothing, a crash
    leaves no bare length prefix, and a process goes down with the machine. *)
Inductive step : sys -> sys -> Prop :=
  | step_write w d hist dur r flt res w' d' :
      rl_ok r -> (forall k, flt <> FailWrite (S k)) -> segIndex w + 2 <= bound -> sinceSynced w < MaxInt64 ->
      WriteRecord w d r flt = (res, w', d') ->
      let hist' := if reached_file res then hist ++ [(segIndex w, r)] else hist in
      step (mkSys (Some w) d hist dur) (mkSys (Some w') d' hist' (durable d' hist' dur))
  | step_sync w d hist dur flt res d' :
      Sync w d flt = (res, d') -> step (mkSys (Some w) d hist dur) (mkSys (Some w) d' hist (durable d' hist dur))
  | step_close w d hist dur flt res w' d' :
      Close w d flt = (res, w', d') -> step (mkSys (Some w) d hist dur) (mkSys (Some w') d' hist (durable d' hist dur))
  | step_crash o d d' hist dur :
      crash d d' -> map_Forall (fun _ f => ~ prefix_tear (f_data f)) d' -> step (mkSys o d hist dur) (mkSys None d' hist dur)
  | step_restart d hist dur rs d1 segMax syncEvery flt o d2 :
      (forall i, 0 <= i <= MaxInt64 -> is_Some (d !! segmentPath i) -> i + 2 <= bound) ->
      Replay d = (rs, Ok tt, d1) -> Open d1 segMax syncEvery flt = (o, d2) ->
      step (mkSys None d hist dur) (mkSys (match o with Ok w => Some w | Err _ => None end) d2 (take (length rs) hist) (length rs)).
Definition reachable : sys -> Prop := rtc step start.

(** ** One segment *)

Lemma seg_bytes_app rs rs' : seg_bytes (rs ++ rs') = seg_bytes rs ++ seg_bytes rs'.
Proof. apply bind_app. Qed.
Lemma seg_bytes_one r : seg_bytes [r] = frame (rk_encode r).
Proof. apply (app_nil_r (frame (rk_encode r))). Qed.
Lemma frame_split r : frame (rk_encode r) = be_bytes 4 (u32 (Z.of_nat (length (rk_encode r)))) ++ rk_encode r.
Proof. done. Qed.
Lemma frame_len_eq r : frame_len r = (4 + length (rk_encode r))%nat.
Proof. unfold frame_len. by rewrite frame_split, length_app, length_be_bytes. Qed.

(** The length prefix of a record, whole or not followed by all of its body. *)
Lemma prefix_val r rest : writable r -> be_val (take 4 (be_bytes 4 (u32 (Z.of_nat (length (rk_encode r)))) ++ rest)) = Z.of_nat (length (rk_encode r)).
Proof.
  intros [Hok Hv]. destruct (rl_length r Hok Hv) as [_ Hl]. pose proof (rl_width (bound := bound)). rewrite be_val_take. change (8 * Z.of_nat 4) with 32.
  unfold u32. rewrite Z.mod_mod, Z.mod_small by lia. done.
Qed.

Lemma replaySegment_cons f path isLast r rest off : writable r ->
  replaySegment (S f) path isLast (frame (rk_encode r) ++ rest) off =
  let '(rs, e) := replaySegment f path isLast rest (off + frame_len r) in (r :: rs, e).
Proof.
  intros Hr. pose proof Hr as [Hok Hv]. destruct (rl_length r Hok Hv) as [Hpos Hl]. cbn [replaySegment]. rewrite frame_len_eq, frame_split, <- app_assoc, prefix_val by done.
  rewrite be_drop, !length_app, length_be_bytes. set (n := length (rk_encode r)) in *. set (m := length rest).
  destruct (Nat.eqb_spec (4 + (n + m)) 0); [lia|]. destruct (Nat.ltb_spec (4 + (n + m)) 4); [lia|]. destruct (Z.ltb_spec rk_maxBody (Z.of_nat n)); [lia|].
  subst n m. rewrite Nat2Z.id. destruct (Nat.ltb_spec (length (rk_encode r) + length rest) (length (rk_encode r))); [lia|].
  rewrite take_app_length, drop_app_length, rl_roundtrip by done.
  by replace (off + (4 + length (rk_encode r)))%nat with (off + 4 + length (rk_encode r))%nat by lia.
Qed.

(** The end of a segment: nothing, or part of a record. *)
Definition torn (tail : list Z) : Prop :=
  tail = [] \/ exists r k, writable r /\ tail = take k (frame (rk_encode r)) /\ (0 < k < frame_len r)%nat /\ k <> 4%nat.
Definition tail_end (isLast : bool) (tail : list Z) (off : nat) : segEnd := match tail with [] => SegClean | _ => SegTorn off end.

Lemma replay_tail f path tail off : torn tail -> @replaySegment R _ (S f) path true tail off = ([], tail_end true tail off).
Proof.
  intros [->|(r & k & Hr & -> & Hk & H4)]; [done|]. pose proof (frame_len_eq r) as Hfl. assert (Hlen : length (take k (frame (rk_encode r))) = k).
  { rewrite length_take. unfold frame_len in *. lia. }
  assert (Hend : tail_end true (take k (frame (rk_encode r))) off = SegTorn off) by (destruct (take k _); [cbn in Hlen; lia|done]). rewrite Hend. clear Hend.
  cbn [replaySegment]. rewrite Hlen. destruct (Nat.eqb_spec k 0); [lia|]. destruct (Nat.ltb_spec k 4); [done|].
  rewrite frame_split. rewrite take_app_ge by (rewrite length_be_bytes; lia). rewrite length_be_bytes, prefix_val, be_drop, length_take by done.
  pose proof Hr as [Hok Hv]. destruct (rl_length r Hok Hv) as [Hpos Hl]. destruct (Z.ltb_spec rk_maxBody (Z.of_nat (length (rk_encode r)))); [lia|].
  rewrite Nat2Z.id. destruct (Nat.ltb_spec (Nat.min (k - 4) (length (rk_encode r))) (length (rk_encode r))); [|lia].
  destruct (Nat.eqb_spec (Nat.min (k - 4) (length (rk_encode r))) 0); [lia|done].
Qed.

Lemma replay_segment path isLast rs tail off f : Forall writable rs -> torn tail -> (isLast = true \/ tail = []) -> (length rs < f)%nat ->
  replaySegment f path isLast (seg_bytes rs ++ tail) off = (rs, tail_end isLast tail (off + length (seg_bytes rs))).
Proof.
  intros Hrs Ht Hl. revert f off. induction Hrs as [|r rs Hr Hrs IH]; intros f off Hf.
  - destruct f as [|f]; [cbn in Hf; lia|]. cbn [seg_bytes mbind list_bind app length]. rewrite Nat.add_0_r. destruct Hl as [->| ->]; [by apply replay_tail|done].
  - destruct f as [|f]; [lia|]. cbn in Hf. change (seg_bytes (r :: rs)) with (frame (rk_encode r) ++ seg_bytes rs). rewrite <- app_assoc, replaySegment_cons by done.
    rewrite IH by lia. f_equal. f_equal. rewrite length_app. unfold frame_len. lia.
Qed.
Lemma replay_prefix_tear path rs r off f : Forall writable rs -> writable r -> (length rs < f)%nat ->
  replaySegment f path true (seg_bytes rs ++ take 4 (frame (rk_encode r))) off = (rs, SegErr (ErrReadBody path)).
Proof.
  intros Hrs Hr. revert f off. induction Hrs as [|r0 rs Hr0 Hrs IH]; intros f off Hf.
  - destruct f as [|f]; [cbn in Hf; lia|]. pose proof Hr as [Hok Hv]. destruct (rl_length r Hok Hv) as [Hpos Hl]. change (seg_bytes [] ++ ?l) with l.
    assert (Hlen : length (take 4 (frame (rk_encode r))) = 4%nat) by (rewrite length_take; pose proof (frame_len_eq r); unfold frame_len in *; lia).
    cbn [replaySegment]. rewrite Hlen. cbn [Nat.eqb Nat.ltb Nat.leb]. rewrite (drop_ge (take 4 _)) by lia. rewrite take_take. cbn [Nat.min]. rewrite frame_split, prefix_val by done.
    destruct (Z.ltb_spec rk_maxBody (Z.of_nat (length (rk_encode r)))); [lia|]. rewrite Nat2Z.id. by destruct (length (rk_encode r)); [lia|].
  - destruct f as [|f]; [lia|]. cbn in Hf. change (seg_bytes (r0 :: rs)) with (frame (rk_encode r0) ++ seg_bytes rs). rewrite <- app_assoc, replaySegment_cons by done.
    by rewrite IH by lia.
Qed.
Lemma seg_bytes_long rs : (length rs <= length (seg_bytes rs))%nat.
Proof.
  induction rs as [|r rs IH]; [done|]. change (seg_bytes (r :: rs)) with (frame (rk_encode r) ++ seg_bytes rs). rewrite length_app.
  pose proof (frame_len_eq r). unfold frame_len in *. cbn. lia.
Qed.

Lemma not_prefix_tear rs tail : Forall writable rs -> torn tail -> ~ prefix_tear (seg_bytes rs ++ tail).
Proof.
  intros Hrs Ht (rs' & r & Hrs' & Hr & E). set (n := S (length (rs ++ rs'))).
  pose proof (replay_segment EmptyString true rs tail 0 n Hrs Ht (or_introl eq_refl) ltac:(unfold n; rewrite length_app; lia)) as H1.
  pose proof (replay_prefix_tear EmptyString rs' r 0 n Hrs' Hr ltac:(unfold n; rewrite length_app; lia)) as H2. rewrite E, H2 in H1. by destruct tail.
Qed.

(** Cutting a segment anywhere leaves whole records and part of one. *)
Lemma take_seg_bytes rs n : (n <= length (seg_bytes rs))%nat ->
  exists j tail, take n (seg_bytes rs) = seg_bytes (take j rs) ++ tail /\ (j <= length rs)%nat /\ (length (seg_bytes (take j rs)) <= n)%nat /\
    (tail = [] \/ exists r k, rs !! j = Some r /\ tail = take k (frame (rk_encode r)) /\ (0 < k < frame_len r)%nat).
Proof.
  revert n. induction rs as [|r rs IH]; intros n Hn.
  - exists 0%nat, []. cbn in *. rewrite take_nil. split_and!; [done|lia|cbn; lia|by left].
  - change (seg_bytes (r :: rs)) with (frame (rk_encode r) ++ seg_bytes rs) in *. rewrite length_app in Hn. fold (frame_len r) in Hn.
    destruct (decide (n < frame_len r)%nat) as [Hlt|Hge].
    + exists 0%nat, (take n (frame (rk_encode r))). cbn [take seg_bytes mbind list_bind app length]. split_and!; [apply take_app_le; unfold frame_len in *; lia|lia|lia|].
      destruct n as [|n]; [by left|right]. exists r, (S n). split_and!; [done|done|lia|lia].
    + destruct (IH (n - frame_len r)%nat) as (j & tail & E & Hj & Hjn & Ht); [lia|]. exists (S j), tail. cbn [take length]. 
      change (seg_bytes (r :: take j rs)) with (frame (rk_encode r) ++ seg_bytes (take j rs)). rewrite take_app_ge by (unfold frame_len in *; lia).
      fold (frame_len r). rewrite E, <- app_assoc, length_app. fold (frame_len r). split_and!; [done|lia|lia|done].
Qed.

(** ** A directory of consecutive segments *)

#[local] Arguments seg_bytes : simpl never.
Record seg := mkSeg { sg_recs : list R; sg_synced : nat; sg_tail : list Z }.
Definition seg_file (s : seg) : file := mkFile (seg_bytes (sg_recs s) ++ sg_tail s) (sg_synced s).
Fixpoint layout (lo : Z) (segs : list seg) : disk :=
  match segs with [] => ∅ | s :: segs => <[segmentPath lo := seg_file s]> (layout (lo + 1) segs) end.
Definition fits (lo : Z) (segs : list seg) : Prop := 1 <= lo /\ lo + Z.of_nat (length segs) <= bound.

Lemma path_inj i j : 0 <= i <= bound -> 0 <= j <= bound -> segmentPath i = segmentPath j -> i = j.
Proof. pose proof (rl_bound (bound := bound)). intros Hi Hj. apply segmentPath_inj; lia. Qed.

Lemma seg_names_cons lo n : seg_names lo (S n) = segmentPath lo :: seg_names (lo + 1) n.
Proof.
  unfold seg_names. cbn [seq fmap list_fmap]. rewrite Z.add_0_r. f_equal. rewrite <- fmap_S_seq, <- list_fmap_compose. apply list_fmap_ext. intros i x _.
  cbn. f_equal. lia.
Qed.
Lemma seg_names_lookup lo n p : p ∈ seg_names lo n <-> exists k, (k < n)%nat /\ p = segmentPath (lo + Z.of_nat k).
Proof. unfold seg_names. rewrite list_elem_of_fmap. setoid_rewrite elem_of_seq. naive_solver lia. Qed.
Lemma seg_names_snoc lo n : seg_names lo (S n) = seg_names lo n ++ [segmentPath (lo + Z.of_nat n)].
Proof. unfold seg_names. by rewrite seq_S, fmap_app. Qed.
Lemma layout_dom lo segs : segments_are (layout lo segs) lo (length segs).
Proof.
  revert lo. induction segs as [|s segs IH]; intros lo p; cbn [layout length]; [rewrite lookup_empty; split; [by intros [? ?]|by intros ?%elem_of_nil]|].
  rewrite seg_names_cons, elem_of_cons, lookup_insert_is_Some, (IH (lo + 1) p). destruct (decide (p = segmentPath lo)); naive_solver.
Qed.
Lemma layout_lookup lo segs k : fits lo segs -> (k <= length segs)%nat -> layout lo segs !! segmentPath (lo + Z.of_nat k) = seg_file <$> segs !! k.
Proof.
  revert lo k. induction segs as [|s segs IH]; intros lo k [Hlo Hb] Hk; cbn [layout length] in *; [by rewrite lookup_empty|]. destruct k as [|k].
  - rewrite Z.add_0_r, lookup_insert_eq. done.
  - rewrite lookup_insert_ne by (intros E%path_inj; lia). replace (lo + Z.of_nat (S k)) with (lo + 1 + Z.of_nat k) by lia. rewrite IH; [done|split; lia|lia].
Qed.
Lemma layout_snoc lo segs s : fits lo (segs ++ [s]) -> layout lo (segs ++ [s]) = <[segmentPath (lo + Z.of_nat (length segs)) := seg_file s]> (layout lo segs).
Proof.
  revert lo. induction segs as [|s' segs IH]; intros lo [Hlo Hb]; cbn [app layout length] in *; [by rewrite Z.add_0_r|]. rewrite length_app in Hb. cbn in Hb.
  rewrite IH by (split; rewrite ?length_app; cbn; lia). replace (lo + Z.of_nat (S (length segs))) with (lo + 1 + Z.of_nat (length segs)) by lia.
  apply insert_insert_ne. intros E%path_inj; lia.
Qed.
Lemma layout_alter lo segs s s' f : fits lo (segs ++ [s]) -> f (seg_file s) = seg_file s' ->
  alter f (segmentPath (lo + Z.of_nat (length segs))) (layout lo (segs ++ [s])) = layout lo (segs ++ [s']).
Proof.
  intros Hf E. assert (Hf' : fits lo (segs ++ [s'])) by (destruct Hf; split; [done|]; rewrite length_app in *; done).
  rewrite !layout_snoc by done. by rewrite alter_insert_eq, E.
Qed.
Lemma remove_prefix lo segs k : fits lo segs -> (k <= length segs)%nat ->
  remove_all (take k (seg_names lo (length segs))) (layout lo segs) = layout (lo + Z.of_nat k) (drop k segs).
Proof.
  revert lo segs. induction k as [|k IH]; intros lo segs [Hlo Hb] Hk; [by rewrite Z.add_0_r|]. destruct segs as [|s segs]; [cbn in Hk; lia|].
  cbn [length drop layout] in *. rewrite seg_names_cons. cbn [take]. change (remove_all (?p :: ?l) ?d) with (remove_all l (delete p d)).
  rewrite delete_insert_id.
  - rewrite (IH (lo + 1) segs) by (first [lia|split; lia]). f_equal. lia.
  - apply eq_None_not_Some. intros Hin. apply layout_dom in Hin. apply seg_names_lookup in Hin as (i & Hi & E%path_inj); lia.
Qed.
Lemma fits_app lo segs s : fits lo (segs ++ [s]) -> fits lo segs /\ 1 <= lo + Z.of_nat (length segs) < bound.
Proof. intros [? H]. rewrite length_app in H. cbn in H. unfold fits. lia. Qed.

Definition vals (segs : list seg) : list R := segs ≫= sg_recs.
Definition sealed (s : seg) : Prop := sg_tail s = [] /\ sg_synced s = length (seg_bytes (sg_recs s)) /\ Forall writable (sg_recs s).
(** A crash or a repair leaves everything synced, the last segment perhaps torn. *)
Definition left_over (s : seg) : Prop := torn (sg_tail s) /\ sg_synced s = length (f_data (seg_file s)) /\ Forall writable (sg_recs s).
Lemma sealed_left_over s : sealed s -> left_over s.
Proof. intros (Ht & Hs & Hw). unfold left_over. cbn. rewrite Ht, app_nil_r. split_and!; [by left|done..]. Qed.
(** The same with the segment each record is in. *)
Fixpoint recs (lo : Z) (segs : list seg) : list (Z * R) :=
  match segs with [] => [] | s :: segs => (pair lo <$> sg_recs s) ++ recs (lo + 1) segs end.
Lemma recs_vals lo segs : (recs lo segs).*2 = vals segs.
Proof.
  revert lo. induction segs as [|s segs IH]; intros lo; [done|]. cbn [recs]. rewrite fmap_app, IH, <- list_fmap_compose. change (vals (s :: segs)) with (sg_recs s ++ vals segs).
  f_equal. by rewrite list_fmap_id.
Qed.
Lemma recs_snoc lo segs s : recs lo (segs ++ [s]) = recs lo segs ++ (pair (lo + Z.of_nat (length segs)) <$> sg_recs s).
Proof.
  revert lo. induction segs as [|s0 segs IH]; intros lo; cbn [app recs length]; [by rewrite app_nil_r, Z.add_0_r|]. rewrite IH, app_assoc. do 3 f_equal. lia.
Qed.
Lemma recs_length lo segs : length (recs lo segs) = length (vals segs).
Proof. by rewrite <- (recs_vals lo), length_fmap. Qed.
Lemma recs_app lo segs segs' : recs lo (segs ++ segs') = recs lo segs ++ recs (lo + Z.of_nat (length segs)) segs'.
Proof.
  revert lo. induction segs as [|s segs IH]; intros lo; cbn [app recs length]; [by rewrite Z.add_0_r|]. rewrite IH, app_assoc. do 2 f_equal. lia.
Qed.
(** Records in segments after [c], as the segments from some position on. *)
Lemma recs_after c lo segs : filter (fun e => c < e.1) (recs lo segs) = recs (lo + Z.of_nat (Z.to_nat (c + 1 - lo))) (drop (Z.to_nat (c + 1 - lo)) segs).
Proof.
  revert lo. induction segs as [|s segs IH]; intros lo; [by rewrite drop_nil|]. cbn [recs]. rewrite filter_app, IH. destruct (decide (c < lo)) as [Hlt|Hge].
  - replace (Z.to_nat (c + 1 - lo)) with 0%nat by lia. replace (Z.to_nat (c + 1 - (lo + 1))) with 0%nat by lia. rewrite !Z.add_0_r. cbn [drop recs]. f_equal.
    apply filter_all, Forall_fmap, Forall_forall. intros r _. exact Hlt.
  - replace (Z.to_nat (c + 1 - lo)) with (S (Z.to_nat (c + 1 - (lo + 1)))) by lia. cbn [drop]. rewrite filter_nothing, app_nil_l.
    + f_equal. lia.
    + apply Forall_fmap, Forall_forall. intros r _ H. cbn in H. lia.
Qed.
Lemma recs_empty lo segs n : recs lo (segs ++ [mkSeg [] n []]) = recs lo segs.
Proof. rewrite recs_snoc. apply app_nil_r. Qed.
Lemma vals_snoc segs s : vals (segs ++ [s]) = vals segs ++ sg_recs s.
Proof. unfold vals. rewrite bind_app. f_equal. apply (app_nil_r (sg_recs s)). Qed.

(** ** Replaying a directory *)

(** The whole segments before the last one. *)
Lemma replay_sealed lo segs d paths : Forall sealed segs -> paths <> [] ->
  (forall k s, segs !! k = Some s -> d !! segmentPath (lo + Z.of_nat k) = Some (seg_file s)) ->
  replay_paths (seg_names lo (length segs) ++ paths) d = let '(rs, o, d') := replay_paths paths d in (vals segs ++ rs, o, d').
Proof.
  intros HF Hne. revert lo. induction HF as [|s segs (Ht & Hsy & Hw) HF IH]; intros lo Hd; cbn [length].
  - unfold seg_names. cbn [seq fmap list_fmap app vals mbind list_bind]. by destruct (replay_paths paths d) as [[rs o] d'].
  - rewrite seg_names_cons. cbn [app replay_paths]. pose proof (Hd 0%nat s eq_refl) as Hd0. rewrite Z.add_0_r in Hd0. rewrite Hd0. cbn [seg_file f_data].
    assert (Hlast : match seg_names (lo + 1) (length segs) ++ paths with [] => true | _ => false end = false) by (destruct (seg_names _ _); [by destruct paths|done]).
    rewrite Hlast, replay_segment; [|done|rewrite Ht; by left|by right|rewrite length_app; pose proof (seg_bytes_long (sg_recs s)); lia].
    rewrite Ht. cbn [tail_end]. rewrite IH. 2:{ intros k s' Hk. rewrite <- (Hd (S k) s') by done. f_equal. f_equal. lia. }
    destruct (replay_paths paths d) as [[rs o] d']. change (vals (s :: segs)) with (sg_recs s ++ vals segs). by rewrite <- app_assoc.
Qed.

Definition repaired (s : seg) : seg := mkSeg (sg_recs s) (length (seg_bytes (sg_recs s))) [].
(** Replay reads exactly the whole records and cuts the torn one off. *)
Lemma replay_from k lo segs s : (k <= length segs)%nat -> fits lo (segs ++ [s]) -> Forall sealed segs -> torn (sg_tail s) -> Forall writable (sg_recs s) ->
  replay_paths (seg_names (lo + Z.of_nat k) (S (length segs - k))) (layout lo (segs ++ [s])) =
  (vals (drop k segs ++ [s]), Ok tt, match sg_tail s with [] => layout lo (segs ++ [s]) | _ => layout lo (segs ++ [repaired s]) end).
Proof.
  intros Hk Hf HF Ht Hw. pose proof Hf as [Hlo Hb]. rewrite seg_names_snoc. replace (length segs - k)%nat with (length (drop k segs)) by (by rewrite length_drop).
  rewrite replay_sealed; [|by apply Forall_drop|done|]. 2:{
    intros i s' Hi. rewrite lookup_drop in Hi. apply lookup_lt_Some in Hi as Hlt. replace (lo + Z.of_nat k + Z.of_nat i) with (lo + Z.of_nat (k + i)) by lia.
    rewrite layout_lookup by (first [done|rewrite length_app; lia]). by rewrite lookup_app_l, Hi. }
  replace (lo + Z.of_nat k + Z.of_nat (length (drop k segs))) with (lo + Z.of_nat (length segs)) by (rewrite length_drop; lia).
  cbn [replay_paths]. rewrite layout_lookup by (first [done|rewrite length_app; lia]). rewrite lookup_app_r, Nat.sub_diag by lia. cbn [fmap option_fmap option_map lookup list_lookup seg_file f_data].
  rewrite replay_segment; [|done|done|by left|rewrite length_app; pose proof (seg_bytes_long (sg_recs s)); lia]. rewrite vals_snoc. cbn [Nat.add].
  destruct (sg_tail s) as [|b tl] eqn:Etl; cbn [tail_end]; rewrite ?app_nil_r; f_equal.
  apply layout_alter; [done|]. unfold seg_file, repaired. cbn. rewrite Etl, app_nil_r. f_equal. by rewrite take_app_length.
Qed.
Lemma replay_last lo segs s : fits lo (segs ++ [s]) -> Forall sealed segs -> torn (sg_tail s) -> Forall writable (sg_recs s) ->
  Replay (layout lo (segs ++ [s])) =
  (vals (segs ++ [s]), Ok tt, match sg_tail s with [] => layout lo (segs ++ [s]) | _ => layout lo (segs ++ [repaired s]) end).
Proof.
  intros Hf HF Ht Hw. unfold Replay. pose proof Hf as [Hlo Hb]. destruct (rl_paths _ lo _ Hlo Hb (layout_dom lo (segs ++ [s]))) as [_ Hp].
  pose proof (replay_from 0 lo segs s ltac:(lia) Hf HF Ht Hw) as Hr. rewrite Z.add_0_r, Nat.sub_0_r in Hr. rewrite Hp, length_app, Nat.add_comm. exact Hr.
Qed.
Lemma replay_layout lo segs s : fits lo (segs ++ [s]) -> Forall sealed segs -> left_over s ->
  Replay (layout lo (segs ++ [s])) = (vals (segs ++ [s]), Ok tt, layout lo (segs ++ [repaired s])).
Proof.
  intros Hf HF (Ht & Hsy & Hw). rewrite replay_last by done. f_equal. destruct (sg_tail s) as [|b tl] eqn:Etl; [|done].
  f_equal. f_equal. f_equal. destruct s as [rs n tl]. cbn in *. subst tl. rewrite app_nil_r in Hsy. by subst n.
Qed.
Lemma replay_empty : Replay (R := R) ∅ = ([], Ok tt, ∅).
Proof.
  unfold Replay. pose proof (rl_bound (bound := bound)). destruct (rl_paths (R := R) (bound := bound) ∅ 1 0) as [_ Hp]; [lia|lia|apply (layout_dom 1 [])|].
  by rewrite Hp.
Qed.

(** ** The state of a running log *)

Definition open_seg (s : seg) (j : nat) : Prop :=
  sg_tail s = [] /\ (j <= length (sg_recs s))%nat /\ sg_synced s = length (seg_bytes (take j (sg_recs s))) /\ Forall writable (sg_recs s).
(** The directory holds [hist], every record in its segment, the first [u] records
    synced, in segments up to [idx]. *)
Definition holds d (idx : Z) (hist : list (Z * R)) (u : nat) : Prop := exists lo init s j,
  d = layout lo (init ++ [s]) /\ fits lo (init ++ [s]) /\ Forall sealed init /\ open_seg s j /\
  idx = lo + Z.of_nat (length init) /\ hist = recs lo (init ++ [s]) /\ u = (length (vals init) + j)%nat.

Lemma seg_bytes_lt rs j : (j < length rs)%nat -> (length (seg_bytes (take j rs)) < length (seg_bytes rs))%nat.
Proof.
  intros Hj. rewrite <- (take_drop j rs) at 2. rewrite seg_bytes_app, length_app. destruct (drop j rs) as [|r l] eqn:E.
  - apply (f_equal length) in E. rewrite length_drop in E. cbn in E. lia.
  - pose proof (seg_bytes_long (r :: l)). cbn [length] in *. lia.
Qed.
Lemma open_sealed s : open_seg s (length (sg_recs s)) -> sealed s.
Proof. intros (Ht & _ & Hs & Hw). rewrite take_ge in Hs by lia. done. Qed.
Lemma holds_le d idx hist u : holds d idx hist u -> (u <= length hist)%nat.
Proof. intros (lo & init & s & j & _ & _ & _ & (_ & Hj & _) & _ & -> & ->). rewrite recs_length, vals_snoc, length_app. lia. Qed.
Lemma holds_sealed lo init s j : length (recs lo (init ++ [s])) = (length (vals init) + j)%nat -> Forall sealed init -> open_seg s j -> Forall sealed (init ++ [s]).
Proof.
  intros E HF Ho. rewrite recs_length, vals_snoc, length_app in E. apply Forall_app. split; [done|]. apply Forall_singleton, open_sealed. by replace (length (sg_recs s)) with j by lia.
Qed.
Lemma holds_synced d idx hist u : holds d idx hist u -> all_synced d <-> u = length hist.
Proof.
  intros (lo & init & s & j & -> & Hf & HF & Ho & -> & -> & ->). pose proof Ho as (Ht & Hj & Hs & Hw). split.
  - intros Hall. pose proof (layout_lookup lo (init ++ [s]) (length init) Hf ltac:(rewrite length_app; lia)) as Hl. rewrite lookup_app_r, Nat.sub_diag in Hl by lia.
    apply Hall in Hl. cbn in Hl. rewrite Ht, app_nil_r, Hs in Hl. rewrite recs_length, vals_snoc, length_app. destruct (decide (j < length (sg_recs s))%nat) as [Hlt|]; [|lia]. apply seg_bytes_lt in Hlt. lia.
  - intros Hju p f Hp. assert (Hk : is_Some (layout lo (init ++ [s]) !! p)) by eauto. apply layout_dom in Hk. unfold seg_names in Hk.
    apply list_elem_of_fmap in Hk as (k & -> & Hk%elem_of_seq). rewrite layout_lookup in Hp by (done || lia). apply fmap_Some in Hp as (s' & Hs' & ->).
    pose proof (Forall_lookup_1 _ _ _ _ (holds_sealed lo init s j (eq_sym Hju) HF Ho) Hs') as (Ht' & Hs'' & _). cbn. by rewrite Ht', app_nil_r.
Qed.

(** The three things a writer does to the directory. *)
Lemma holds_append d idx hist u r : holds d idx hist u -> writable r ->
  holds (disk_append d (segmentPath idx) (frame (rk_encode r))) idx (hist ++ [(idx, r)]) u.
Proof.
  intros (lo & init & s & j & -> & Hf & HF & (Ht & Hj & Hs & Hw) & -> & -> & ->) Hr.
  exists lo, init, (mkSeg (sg_recs s ++ [r]) (sg_synced s) []), j. assert (Hf' : fits lo (init ++ [mkSeg (sg_recs s ++ [r]) (sg_synced s) []])) by (unfold fits in *; rewrite length_app in *; tauto).
  split_and!; try done.
  - apply layout_alter; [done|]. unfold f_append, seg_file. cbn. rewrite Ht, !app_nil_r. f_equal. by rewrite seg_bytes_app, seg_bytes_one.
  - split_and!; cbn; [done|rewrite length_app; lia|cbn; rewrite take_app_le by lia; exact Hs|]. apply Forall_app. split; [done|by apply Forall_singleton].
  - rewrite !recs_snoc. cbn [sg_recs]. by rewrite fmap_app, app_assoc.
Qed.
Lemma holds_sync d idx hist u : holds d idx hist u -> holds (disk_sync d (segmentPath idx)) idx hist (length hist).
Proof.
  intros (lo & init & s & j & -> & Hf & HF & (Ht & Hj & Hs & Hw) & -> & -> & ->).
  set (s' := mkSeg (sg_recs s) (length (seg_bytes (sg_recs s))) []). exists lo, init, s', (length (sg_recs s)).
  assert (Hf' : fits lo (init ++ [s'])) by (unfold fits in *; rewrite length_app in *; tauto). split_and!; try done.
  - apply layout_alter; [done|]. unfold f_sync, seg_file, s'. cbn. by rewrite Ht, app_nil_r.
  - split_and!; cbn; [done|lia|by rewrite take_ge by lia|done].
  - by rewrite !recs_snoc.
  - by rewrite recs_length, vals_snoc, length_app.
Qed.
Lemma layout_open lo segs : Forall sealed segs -> 1 <= lo -> lo + Z.of_nat (length segs) + 1 <= bound ->
  let idx := lo + Z.of_nat (length segs) in
  layout lo segs !! segmentPath idx = None /\ <[segmentPath idx := mkFile [] 0]> (layout lo segs) = layout lo (segs ++ [mkSeg [] 0 []]) /\
  fits lo (segs ++ [mkSeg [] 0 []]) /\ holds (layout lo (segs ++ [mkSeg [] 0 []])) idx (recs lo segs) (length (recs lo segs)).
Proof.
  intros HF Hlo Hb idx. assert (Hf' : fits lo (segs ++ [mkSeg [] 0 []])) by (split; rewrite ?length_app; cbn; lia). split_and!; [|by rewrite layout_snoc|done|].
  - unfold idx. rewrite layout_lookup by (first [lia|split; lia]). by rewrite (lookup_ge_None_2 segs) by lia.
  - exists lo, segs, (mkSeg [] 0 []), 0%nat. split_and!; try done; [by rewrite recs_empty|by rewrite recs_length, Nat.add_0_r].
Qed.
Lemma holds_layout d idx hist : holds d idx hist (length hist) -> exists lo segs, Forall sealed segs /\ fits lo segs /\ d = layout lo segs /\ idx + 1 = lo + Z.of_nat (length segs) /\ hist = recs lo segs.
Proof.
  intros (lo & init & s & j & -> & Hf & HF & Ho & -> & -> & Hu). exists lo, (init ++ [s]). split_and!; [by eapply holds_sealed|done|done| |done].
  rewrite length_app. cbn. lia.
Qed.
Lemma openSegment_layout w lo segs flt res w' d' : Forall sealed segs -> 1 <= lo -> lo + Z.of_nat (length segs) + 1 <= bound ->
  let idx := lo + Z.of_nat (length segs) in
  openSegment w (layout lo segs) idx flt = (res, w', d') ->
  (res = Ok tt /\ w' = fresh_segment idx w /\ holds d' idx (recs lo segs) (length (recs lo segs))) \/
  (res = Err (ErrIO flt) /\ (flt = FailCreate \/ flt = FailSyncDir) /\ w' = w /\ (d' = layout lo segs \/ d' = layout lo (segs ++ [mkSeg [] 0 []]) /\ fits lo (segs ++ [mkSeg [] 0 []]))).
Proof.
  intros HF Hlo Hb idx. destruct (layout_open lo segs HF Hlo Hb) as (Hnone & Hins & Hf & Hnew). fold idx in Hnone, Hins, Hnew. unfold openSegment. rewrite Hnone, Hins.
  destruct (decide (flt = FailCreate)) as [->|].
  - intros [= <- <- <-]. right. split_and!; eauto.
  - destruct (decide (flt = FailSyncDir)) as [->|]; intros [= <- <- <-]; [right|left]; split_and!; eauto.
Qed.
Lemma openSegment_holds w d idx hist flt res w' d' : holds d idx hist (length hist) -> idx + 2 <= bound ->
  openSegment w d (idx + 1) flt = (res, w', d') ->
  (res = Ok tt /\ w' = fresh_segment (idx + 1) w /\ holds d' (idx + 1) hist (length hist)) \/
  (res = Err (ErrIO flt) /\ (flt = FailCreate \/ flt = FailSyncDir) /\ w' = w /\ exists idx', idx <= idx' /\ holds d' idx' hist (length hist)).
Proof.
  intros Hh Hb. destruct (holds_layout _ _ _ Hh) as (lo & segs & HF & [Hlo _] & -> & E & ->). rewrite E in *. intros Hr.
  assert (Hb' : lo + Z.of_nat (length segs) + 1 <= bound) by lia. destruct (layout_open lo segs HF Hlo Hb') as (_ & _ & _ & Hn).
  destruct (openSegment_layout _ _ _ _ _ _ _ HF Hlo Hb' Hr) as [|(? & ? & ? & [->|[-> _]])]; [by left|right; split_and!; [done..|]|right; split_and!; [done..|]].
  - exists idx. split; [lia|exact Hh].
  - exists (lo + Z.of_nat (length segs)). split; [lia|exact Hn].
Qed.
Lemma holds_index d idx hist u : holds d idx hist u -> 1 <= idx.
Proof. intros (lo & init & s & j & _ & [Hlo _] & _ & _ & E & _). lia. Qed.

(** [w] may go on writing only to the last segment. *)
Definition tracks w (idx : Z) : Prop := segIndex w <= idx /\ (current w = OpenFile -> broken w = false /\ segIndex w = idx).

Lemma rotate_effect w d hist u flt res w' d' : holds d (segIndex w) hist u -> segIndex w + 2 <= bound -> 1 <= segIndex w -> broken w = false ->
  rotate w d flt = (res, w', d') ->
  (exists u' idx, holds d' idx hist u' /\ tracks w' idx /\ (u <= u')%nat /\ segIndex w <= idx) /\ syncEveryN w' = syncEveryN w /\ reached_file res = true /\
  (res = Ok tt -> all_synced d' /\ sinceSynced w' = 0) /\ (sinceSynced w' = sinceSynced w \/ res = Ok tt).
Proof.
  intros Hh Hb Hi Hbr. apply holds_le in Hh as Hle. unfold rotate. destruct (decide (flt = FailRotSync)) as [->|H1].
  { intros [= <- <- <-]. split_and!; [exists u, (segIndex w); split_and!; [done|split; [lia|done]|done|lia]|done..|by left]. }
  pose proof (holds_sync _ _ _ _ Hh) as Hs. destruct (decide (flt = FailClose)) as [->|H2].
  { intros [= <- <- <-]. split_and!; [exists (length hist), (segIndex w); split_and!; [done|by split|done|lia]|done..|by left]. }
  cbn [set_broken set_current count_rotation_sync segIndex]. rewrite i64_id by (pose proof (rl_bound (bound := bound)); unfold MaxInt64 in *; wsolve).
  destruct (openSegment _ _ _ flt) as [[res1 w1] d1] eqn:Eo. destruct (openSegment_holds _ _ _ _ _ _ _ _ Hs Hb Eo) as [(-> & -> & Hn)|(-> & Hflt & -> & idx' & Hidx & Hn)].
  - intros [= <- <- <-]. split_and!; [exists (length hist), (segIndex w + 1); split_and!; [done|by split|done|lia]|done|done| |by right]. intros _. split; [|done]. by apply (holds_synced _ _ _ _ Hn).
  - intros [= <- <- <-]. split_and!; [exists (length hist), idx'; split_and!; [done|by split|done|lia]|done|by destruct Hflt as [->| ->]|done|by left].
Qed.

Lemma append_nothing d p : disk_append d p [] = d.
Proof. unfold disk_append. apply map_eq. intros p'. rewrite lookup_alter. destruct (decide (p = p')) as [->|]; [|done]. destruct (d !! p') as [[b n]|] eqn:E; [|done]. cbn. unfold f_append. cbn. by rewrite app_nil_r. Qed.
Lemma holds_synced_mono d idx hist u : holds d idx hist u -> (length hist <= u)%nat -> all_synced d.
Proof. intros Hh Hu. pose proof (holds_le _ _ _ _ Hh). apply (holds_synced _ _ _ _ Hh). lia. Qed.

(** A write keeps the directory in order. It reports success only when no more
    records than the policy allows are waiting for a sync. *)
Definition write_outcome w idx hist u r (res : result walErr unit) w' d' : Prop :=
  let hist' := if reached_file res then hist ++ [(segIndex w, r)] else hist in
  (exists u' idx', holds d' idx' hist' u' /\ tracks w' idx' /\ (u <= u')%nat /\ idx <= idx') /\ syncEveryN w' = syncEveryN w /\
  (if reached_file res then sinceSynced w' = sinceSynced w + 1 \/ (all_synced d' /\ sinceSynced w' = 0) else sinceSynced w' = sinceSynced w) /\
  (res = Ok tt -> 0 < syncEveryN w -> all_synced d' \/ sinceSynced w' < syncEveryN w).
Lemma WriteRecord_effect w d idx hist u r flt res w' d' :
  holds d idx hist u -> tracks w idx -> rl_ok r -> (forall k, flt <> FailWrite (S k)) -> segIndex w + 2 <= bound -> 0 <= sinceSynced w < MaxInt64 ->
  WriteRecord w d r flt = (res, w', d') -> write_outcome w idx hist u r res w' d'.
Proof.
  intros Hh Ht Hok Hflt Hb Hs. unfold WriteRecord.
  assert (Hsame : forall e, reached_file (Err e) = false -> (Err e, w, d) = (res, w', d') -> write_outcome w idx hist u r res w' d').
  { unfold write_outcome. intros e Er [= <- <- <-]. rewrite Er. split_and!; [exists u, idx; by split_and!|done..]. }
  destruct (decide (current w = NoFile)); [by apply Hsame|]. destruct (broken w) eqn:Hbr; [by apply Hsame|].
  destruct (validateLabels (rk_labels r)) as [e|] eqn:Hv; [by apply Hsame|]. destruct (decide (current w = ClosedFile)); [by apply Hsame|].
  assert (Hlive : current w = OpenFile) by (by destruct (current w)). destruct (proj2 Ht Hlive) as [_ Hidx]. subst idx. assert (Hw : writable r) by done.
  destruct (decide (flt = FailWrite 0)) as [->|Hf0].
  { cbv zeta. cbn [short_write take]. rewrite append_nothing. by apply Hsame. }
  assert (Hcase : short_write flt = None) by (destruct flt as [| [|k]| | | | |]; try done; by destruct (Hflt k)). cbv zeta. rewrite Hcase. clear Hcase Hsame Hflt. unfold write_outcome.
  pose proof (holds_append _ _ _ _ r Hh Hw) as Ha. set (d1 := disk_append _ _ _) in *. set (w1 := count_written _ w).
  assert (Ht1 : tracks w1 (segIndex w)) by done. assert (Ht2 : tracks (count_auto_sync w1) (segIndex w)) by done. clear Ht.
  assert (Hs1 : sinceSynced w1 = sinceSynced w + 1) by (apply i64_id; unfold in_i64, MaxInt64 in *; lia).
  assert (Hi : 1 <= segIndex w) by by eapply holds_index.
  unfold write_synced. destruct (sync_due w1) eqn:Hdue.
  - destruct (decide (flt = FailSync)) as [->|].
    { intros [= <- <- <-]. cbn [reached_file]. split_and!; [exists u, (segIndex w); split_and!; [done|done|lia|lia]|done|by left|done]. }
    change (segIndex w1) with (segIndex w). pose proof (holds_sync _ _ _ _ Ha) as Hy. apply holds_le in Ha as Hle. set (d2 := disk_sync _ _) in *.
    assert (Hall : forall idx' d' u', holds d' idx' (hist ++ [(segIndex w, r)]) u' -> (length (hist ++ [(segIndex w, r)]) <= u')%nat -> all_synced d') by (intros; by eapply holds_synced_mono).
    destruct (_ <=? _).
    + intros Hr. destruct (rotate_effect (count_auto_sync w1) d2 _ _ _ _ _ _ Hy Hb Hi Hbr Hr) as ((u' & idx' & Hh' & Ht' & Hu' & Hix) & Hn & Hre & Hok' & Hsi). rewrite Hre.
      split_and!; [exists u', idx'; split_and!; [done|done|lia|exact Hix]|done| |intros _ _; left; by eapply Hall]. right. split; [by eapply Hall|]. destruct Hsi as [->|Hr0]; [done|by apply Hok'].
    + intros [= <- <- <-]. cbn [reached_file]. split_and!; [exists (length (hist ++ [(segIndex w, r)])), (segIndex w); split_and!; [done|done|lia|lia]|done|right; split; [by eapply Hall|done]|intros _ _; left; by eapply Hall].
  - assert (Hnd : 0 < syncEveryN w -> sinceSynced w1 < syncEveryN w).
    { intros Hp. unfold sync_due in Hdue. change (syncEveryN w1) with (syncEveryN w) in Hdue. destruct (Z.ltb_spec 0 (syncEveryN w)); [|lia]. cbn in Hdue. apply Z.leb_gt in Hdue. done. }
    destruct (_ <=? _).
    + intros Hr. destruct (rotate_effect w1 d1 _ _ _ _ _ _ Ha Hb Hi Hbr Hr) as ((u' & idx' & Hh' & Ht' & Hu' & Hix) & Hn & Hre & Hok' & Hsi). rewrite Hre.
      split_and!; [exists u', idx'; by split_and!|done| |intros Hr0 _; left; by apply Hok']. destruct Hsi as [->|Hr0]; [by left|right; by apply Hok'].
    + intros [= <- <- <-]. cbn [reached_file]. split_and!; [exists u, (segIndex w); split_and!; [done|done|lia|lia]|done|by left|intros _ Hp; right; auto].
Qed.

(** A log that is read without a crash in between gives back all of it. *)
Lemma replay_holds d idx hist u : holds d idx hist u -> Replay d = (hist.*2, Ok tt, d).
Proof.
  intros (lo & init & s & j & -> & Hf & HF & (Ht & Hj & Hs & Hw) & -> & -> & ->). rewrite replay_last by (first [done|rewrite Ht; by left]). by rewrite Ht, recs_vals.
Qed.

(** A crash that leaves exactly the four bytes of a record's length prefix
    defeats recovery: the body read hits the end of the file, which replay reports
    as an error instead of discarding the tail, although one byte fewer or one more
    would have been repaired. *)
Theorem prefix_tear_breaks_replay d idx hist u r : holds d idx hist u -> writable r ->
  Replay (disk_append d (segmentPath idx) (take 4 (frame (rk_encode r)))) =
    (hist.*2, Err (ErrReadBody (segmentPath idx)), disk_append d (segmentPath idx) (take 4 (frame (rk_encode r)))).
Proof.
  intros (lo & init & s & j & -> & Hf & HF & (Ht & Hj & Hs & Hw) & -> & -> & ->) Hr. pose proof Hr as [Hok Hv]. destruct (rl_length r Hok Hv) as [Hpos Hl].
  set (tail := take 4 (frame (rk_encode r))). set (s' := mkSeg (sg_recs s) (sg_synced s) tail).
  assert (Hf' : fits lo (init ++ [s'])) by (unfold fits in *; rewrite length_app in *; done). pose proof Hf' as [Hlo Hb].
  unfold disk_append. rewrite (layout_alter lo init s s') by (first [done|unfold f_append, seg_file; cbn; by rewrite Ht, app_nil_r]).
  unfold Replay. destruct (rl_paths _ lo _ Hlo Hb (layout_dom lo (init ++ [s']))) as [_ Hp].
  rewrite Hp, length_app, Nat.add_comm. cbn [length Nat.add]. rewrite seg_names_snoc, replay_sealed; [|done..|]. 2:{
    intros k s1 Hk. apply lookup_lt_Some in Hk as Hlt. rewrite layout_lookup by (first [done|rewrite length_app; lia]). by rewrite lookup_app_l, Hk. }
  cbn [replay_paths]. rewrite layout_lookup by (first [done|rewrite length_app; lia]). rewrite lookup_app_r, Nat.sub_diag by lia. cbn [fmap option_fmap option_map lookup list_lookup seg_file f_data].
  subst s' tail. cbn [sg_recs sg_tail]. rewrite recs_vals, vals_snoc. rewrite replay_prefix_tear; [|done..|rewrite length_app; pose proof (seg_bytes_long (sg_recs s)); lia]. done.
Qed.

(** ** Crashes and restarts *)

Lemma layout_synced lo segs : Forall left_over segs -> all_synced (layout lo segs).
Proof. intros HF. revert lo. induction HF as [|s segs (_ & Hs & _) HF IH]; intros lo; cbn [layout]; [apply map_Forall_empty|]. apply map_Forall_insert_2; [done|apply IH]. Qed.
Lemma crash_file_synced f f' : f_synced f = length (f_data f) -> crash_file f f' -> f' = f.
Proof. intros E (n & Hn & ->). destruct f as [data m]. cbn in *. subst m. replace n with (length data) by lia. by rewrite firstn_all. Qed.
Lemma crash_synced d d' : all_synced d -> crash d d' -> d' = d.
Proof.
  intros Hs Hc. apply map_eq. intros p. specialize (Hc p). destruct (d !! p) as [f|] eqn:E; inversion Hc as [? f' Hf|]; subst; [|done].
  f_equal. apply crash_file_synced; [by eapply Hs|done].
Qed.

Lemma crash_refl d : all_synced d -> crash d d.
Proof.
  intros Hs p. destruct (d !! p) as [f|] eqn:E; constructor. exists (length (f_data f)). pose proof (Hs _ _ E) as Hf. cbn in Hf. split; [lia|]. rewrite firstn_all. destruct f as [b n]. cbn in *. by rewrite Hf.
Qed.
Lemma crash_cut d p n f : d !! p = Some f -> (f_synced f <= n <= length (f_data f))%nat -> all_synced (delete p d) -> crash d (<[p := mkFile (take n (f_data f)) n]> d).
Proof.
  intros Hp Hn Hs q. destruct (decide (q = p)) as [->|Hne]; [rewrite lookup_insert_eq, Hp; constructor; by exists n|]. rewrite lookup_insert_ne by done. pose proof (crash_refl _ Hs q) as Hq. by rewrite lookup_delete_ne in Hq by done.
Qed.
Lemma not_torn d : ~ prefix_torn d -> map_Forall (fun _ f => ~ prefix_tear (f_data f)) d.
Proof. intros H p f Hf Ht. apply H. by exists p, f. Qed.
(** No log that is running, or that a crash outside the hazards left, is torn at a
    length prefix. *)
Lemma layout_not_torn lo segs : fits lo segs -> Forall (fun s => torn (sg_tail s) /\ Forall writable (sg_recs s)) segs -> ~ prefix_torn (layout lo segs).
Proof.
  intros Hf HF (p & f & Hp & Htear). assert (Hk : is_Some (layout lo segs !! p)) by eauto. apply layout_dom, seg_names_lookup in Hk as (k & Hk & ->).
  rewrite layout_lookup in Hp by (done || lia). apply fmap_Some in Hp as (s' & Hs' & ->). rewrite Forall_lookup in HF. destruct (HF _ _ Hs') as [Ht Hws]. by apply (not_prefix_tear (sg_recs s') (sg_tail s')) in Htear.
Qed.
Lemma sealed_torn segs : Forall sealed segs -> Forall (fun s => torn (sg_tail s) /\ Forall writable (sg_recs s)) segs.
Proof. intros HF. eapply Forall_impl; [exact HF|]. intros s (Ht & _ & Hw). split; [by left|done]. Qed.
Lemma holds_not_torn d idx hist u : holds d idx hist u -> ~ prefix_torn d.
Proof.
  intros (lo & init & s & j & -> & Hf & HF & (Ht & _ & _ & Hw) & _). apply layout_not_torn; [done|]. apply Forall_app. split; [by apply sealed_torn|]. apply Forall_singleton. split; [by left|done].
Qed.

Lemma seg_bytes_mono rs a b : (a <= b)%nat -> (length (seg_bytes (take a rs)) <= length (seg_bytes (take b rs)))%nat.
Proof.
  intros Hab. destruct (decide (a < length (take b rs))%nat) as [Hlt|Hge].
  - apply seg_bytes_lt in Hlt. rewrite take_take, Nat.min_l in Hlt by lia. lia.
  - rewrite length_take in Hge. destruct (decide (length rs <= a)%nat); [by rewrite !take_ge by lia|]. by replace a with b by lia.
Qed.

Definition torn_log d (idx : Z) (hist : list (Z * R)) (u : nat) : Prop :=
  exists lo init s, d = layout lo (init ++ [s]) /\ fits lo (init ++ [s]) /\ Forall sealed init /\ left_over s /\
    recs lo (init ++ [s]) `prefix_of` hist /\ (u <= length (recs lo (init ++ [s])))%nat /\ idx = lo + Z.of_nat (length init).
(** What a machine that is down has: nothing, or whole segments and a last one that
    may be torn, which read as a prefix of [hist] of at least [u] records. *)
Definition down d (hist : list (Z * R)) (u : nat) : Prop :=
  (d = ∅ /\ u = 0%nat) \/ exists idx, torn_log d idx hist u.

Lemma down_synced d hist u : down d hist u -> all_synced d.
Proof.
  intros [[-> _]|(idx & lo & init & s & -> & _ & HF & Hs & _)]; [apply map_Forall_empty|]. apply layout_synced, Forall_app. split; [|by apply Forall_singleton].
  eapply Forall_impl; [done|]. apply sealed_left_over.
Qed.
Lemma down_not_torn d hist u : down d hist u -> ~ prefix_torn d.
Proof.
  intros [[-> _]|(idx & lo & init & s & -> & Hf & HF & (Ht & _ & Hw) & _)]; [intros (p & f & Hp & _); by rewrite lookup_empty in Hp|].
  apply layout_not_torn; [done|]. apply Forall_app. split; [by apply sealed_torn|]. by apply Forall_singleton.
Qed.
Lemma sealed_down lo segs : Forall sealed segs -> fits lo segs -> down (layout lo segs) (recs lo segs) (length (recs lo segs)).
Proof.
  intros HF Hf. destruct segs as [|s segs _] using rev_ind; [by left|right]. apply Forall_app in HF as [HF Hs%Forall_singleton%sealed_left_over].
  by exists (lo + Z.of_nat (length segs)), lo, segs, s.
Qed.

Lemma crash_last s j f' : open_seg s j -> crash_file (seg_file s) f' -> ~ prefix_tear (f_data f') ->
  exists y, f' = seg_file y /\ left_over y /\ exists j', sg_recs y = take j' (sg_recs s) /\ (j <= j' <= length (sg_recs s))%nat.
Proof.
  intros (Ht & Hj & Hs & Hw) (n & Hn & ->) Hp. cbn [seg_file f_data f_synced] in *. rewrite Ht, app_nil_r, Hs in *.
  destruct (take_seg_bytes (sg_recs s) n ltac:(lia)) as (j' & tail & E & Hj' & Hjn & Htl). rewrite E in *.
  exists (mkSeg (take j' (sg_recs s)) n tail). split_and!; [done| |].
  - unfold left_over. cbn. split_and!; [|by rewrite <- E, length_take; lia|by apply Forall_take].
    destruct Htl as [->|(r & k & Hr & -> & Hk)]; [by left|right]. exists r, k. split_and!; try lia; [by eapply Forall_lookup_1|done|].
    intros ->. apply Hp. exists (take j' (sg_recs s)), r. split_and!; [by apply Forall_take|by eapply Forall_lookup_1|done].
  - exists j'. split; [done|]. split; [|done]. destruct (decide (j <= j')%nat) as [|Hlt]; [done|exfalso].
    assert (Hn' : n = (length (seg_bytes (take j' (sg_recs s))) + length tail)%nat) by (rewrite <- length_app, <- E, length_take; lia).
    destruct (lookup_lt_is_Some_2 (sg_recs s) j') as [r Hr]; [lia|]. pose proof (seg_bytes_mono (sg_recs s) (S j') j ltac:(lia)) as Hm.
    rewrite (take_S_r _ _ _ Hr), seg_bytes_app, length_app, seg_bytes_one in Hm. fold (frame_len r) in Hm. pose proof (frame_len_eq r).
    destruct Htl as [->|(r' & k & Hr' & -> & Hk)]; [cbn in *; lia|]. rewrite Hr in Hr'. injection Hr' as <-. rewrite length_take in Hn'. fold (frame_len r) in Hn'. lia.
Qed.

Lemma crash_holds d d' idx hist u : holds d idx hist u -> crash d d' -> map_Forall (fun _ f => ~ prefix_tear (f_data f)) d' -> torn_log d' idx hist u.
Proof.
  intros (lo & init & s & j & -> & Hf & HF & Ho & -> & -> & ->) Hc Hp. set (path := segmentPath (lo + Z.of_nat (length init))).
  assert (Hl : layout lo (init ++ [s]) !! path = Some (seg_file s)) by (rewrite layout_snoc by done; apply lookup_insert_eq).
  pose proof (Hc path) as Hcp. rewrite Hl in Hcp. inversion Hcp as [? f' Hcf Ef E'|]; subst. symmetry in E'.
  destruct (crash_last s j f' Ho Hcf (Hp _ _ E')) as (y & -> & Hy & j' & Hrec & Hj').
  assert (Hfy : fits lo (init ++ [y])) by (unfold fits in *; rewrite length_app in *; done). exists lo, init, y. split_and!; try done.
  - apply map_eq. intros p. rewrite layout_snoc by done. fold path. destruct (decide (p = path)) as [->|Hne]; [by rewrite lookup_insert_eq|].
    rewrite lookup_insert_ne by done. pose proof (Hc p) as Hcq. rewrite layout_snoc, lookup_insert_ne in Hcq by done.
    destruct (layout lo init !! p) as [f|] eqn:E; inversion Hcq as [? f' Hcf'|]; subst; [|done]. f_equal. apply crash_file_synced; [|done].
    eapply (layout_synced lo init); [|done]. eapply Forall_impl; [done|]. apply sealed_left_over.
  - rewrite !recs_snoc, Hrec. apply prefix_app. exists (pair (lo + Z.of_nat (length init)) <$> drop j' (sg_recs s)). by rewrite <- fmap_app, take_drop.
  - rewrite recs_length, vals_snoc, length_app, Hrec, length_take. lia.
Qed.

Lemma max_index_names lo n : 1 <= lo -> lo + Z.of_nat n <= bound -> max_index (seg_names lo n) = match n with O => 0 | _ => lo + Z.of_nat n - 1 end.
Proof.
  intros Hlo. induction n as [|n IH]; intros Hb; [done|]. rewrite seg_names_snoc. unfold max_index in *. rewrite fold_left_app, IH by lia. cbn [fold_left].
  rewrite segment_index_path by (pose proof (rl_bound (bound := bound)); lia). destruct n; zbool; lia.
Qed.

Lemma replay_down d hist u : down d hist u -> exists rs lo segs, rs `prefix_of` hist.*2 /\ (u <= length rs)%nat /\
  Replay d = (rs, Ok tt, layout lo segs) /\ Replay (layout lo segs) = (rs, Ok tt, layout lo segs) /\
  Forall sealed segs /\ fits lo segs /\ (segs = [] -> lo = 1) /\ rs = vals segs /\ recs lo segs = take (length rs) hist /\
  (forall k, (k < length segs)%nat -> is_Some (d !! segmentPath (lo + Z.of_nat k))).
Proof.
  pose proof (rl_bound (bound := bound)) as HB. intros [[-> ->]|(idx & lo & init & s & -> & Hf & HF & Hs & Hpre & Hu & _)].
  - exists [], 1, []. pose proof replay_empty. split_and!; try done; [apply prefix_nil|split; cbn; lia|cbn; lia].
  - assert (Hrep : sealed (repaired s)) by (destruct Hs as (_ & _ & ?); by split_and!).
    assert (Hf' : fits lo (init ++ [repaired s])) by (unfold fits in *; rewrite length_app in *; done).
    exists (vals (init ++ [s])), lo, (init ++ [repaired s]). split_and!; try done.
    + rewrite <- (recs_vals lo). destruct Hpre as [k ->]. rewrite fmap_app. by apply prefix_app_r.
    + by rewrite <- (recs_length lo).
    + by apply replay_layout.
    + rewrite replay_layout by (first [done|by apply sealed_left_over]). by rewrite !vals_snoc.
    + apply Forall_app. split; [done|by apply Forall_singleton].
    + intros E. by destruct init.
    + by rewrite !vals_snoc.
    + rewrite <- (recs_length lo). destruct Hpre as [k ->]. by rewrite take_app_length, !recs_snoc.
    + intros k Hk. rewrite length_app in Hk. cbn in Hk. rewrite layout_lookup by (first [done|rewrite length_app; cbn; lia]).
      apply fmap_is_Some, lookup_lt_is_Some_2. rewrite length_app. cbn. lia.
Qed.

(** ** The theorems *)

Definition sys_inv (s : sys) : Prop :=
  match s_wal s with
  | None => down (s_disk s) (s_hist s) (s_dur s)
  | Some w => exists idx u, holds (s_disk s) idx (s_hist s) u /\ tracks w idx /\ (s_dur s <= u)%nat /\
      0 <= sinceSynced w /\ Z.of_nat (length (s_hist s)) <= Z.of_nat (s_dur s) + sinceSynced w
  end.

Lemma durable_le d idx hist u dur : holds d idx hist u -> (dur <= u)%nat -> (durable d hist dur <= u)%nat.
Proof. intros Hh Hu. unfold durable. destruct (decide _) as [Hs|]; [|done]. by rewrite <- (proj1 (holds_synced _ _ _ _ Hh) Hs). Qed.
Lemma durable_ge d hist dur : (dur <= length hist)%nat -> (dur <= durable d hist dur)%nat.
Proof. unfold durable. destruct (decide _); lia. Qed.
Lemma durable_synced d hist dur : all_synced d -> durable d hist dur = length hist.
Proof. unfold durable. by destruct (decide _). Qed.

Lemma Sync_effect w d idx hist u flt res d' : holds d idx hist u -> tracks w idx -> Sync w d flt = (res, d') ->
  exists u', holds d' idx hist u' /\ (u <= u')%nat /\ (res = Ok tt -> all_synced d').
Proof.
  intros Hh Ht. unfold Sync.
  assert (Hsame : forall e, (Err e, d) = (res, d') -> exists u', holds d' idx hist u' /\ (u <= u')%nat /\ (res = Ok tt -> all_synced d')).
  { intros e [= <- <-]. by exists u. }
  destruct (decide (current w = NoFile)); [by apply Hsame|]. destruct (broken w) eqn:Hb; [by apply Hsame|].
  destruct (decide (current w = ClosedFile)); [by apply Hsame|]. destruct (decide (flt = FailSync)); [by apply Hsame|]. intros [= <- <-].
  destruct (proj2 Ht) as [_ ->]; [by destruct (current w)|]. apply holds_sync in Hh as Hs. pose proof (holds_le _ _ _ _ Hh). exists (length hist). split_and!; [done..|]. intros _.
  by eapply holds_synced_mono.
Qed.
Lemma Close_effect w d idx hist u flt res w' d' : holds d idx hist u -> tracks w idx -> Close w d flt = (res, w', d') ->
  exists u', holds d' idx hist u' /\ (u <= u')%nat /\ tracks w' idx /\ sinceSynced w' = sinceSynced w.
Proof.
  intros Hh Ht. unfold Close. assert (Hc : forall b : bool, tracks (set_current (if b then NoFile else ClosedFile) w) idx) by (intros b; split; [apply Ht|by destruct b]).
  destruct (current w) eqn:Ec; [intros [= <- <- <-]; by eauto 10|intros [= <- <- <-]; by eauto 10|].
  destruct (decide (flt = FailSync)); [intros [= <- <- <-]; by eauto 10|]. destruct (proj2 Ht Ec) as [_ ->].
  apply holds_sync in Hh as Hs. pose proof (holds_le _ _ _ _ Hh). destruct (decide (flt = FailClose)); intros [= <- <- <-]; by eauto 10.
Qed.

Lemma Open_effect lo segs segMax syncEvery flt o d2 : Forall sealed segs -> fits lo segs -> lo + Z.of_nat (length segs) + 1 <= bound -> (segs = [] -> lo = 1) ->
  Open (layout lo segs) segMax syncEvery flt = (o, d2) ->
  let idx := lo + Z.of_nat (length segs) in
  match o with
  | Ok w => holds d2 idx (recs lo segs) (length (recs lo segs)) /\ w = fresh_segment idx (mkWAL segMax syncEvery NoFile idx 0 0 false 0 0)
  | Err _ => flt <> NoFault /\ exists segs', (segs' = segs \/ segs' = segs ++ [mkSeg [] 0 []]) /\ d2 = layout lo segs' /\ fits lo segs'
  end.
Proof.
  intros HF Hf Hroom Hlo1 Ho. pose proof (rl_bound (bound := bound)) as HB. pose proof Hf as [Hlo Hb].
  unfold Open in Ho. destruct (rl_paths (R := R) (bound := bound) (layout lo segs) lo (length segs)) as [Hp _]; [done|done|apply layout_dom|]. rewrite Hp, max_index_names in Ho by done.
  assert (Hidx : i64 (match length segs with O => 0 | S _ => lo + Z.of_nat (length segs) - 1 end + 1) = lo + Z.of_nat (length segs)).
  { rewrite i64_id; destruct segs; cbn [length] in *; try (rewrite Hlo1 by done); unfold MaxInt64, in_i64 in *; lia. }
  cbn [segIndex] in Ho. rewrite Hidx in Ho. destruct (openSegment _ _ _ flt) as [[res w1] d3] eqn:Eo.
  destruct (openSegment_layout _ _ _ _ _ _ _ HF Hlo Hroom Eo) as [(-> & -> & Hh)|(-> & Hflt & -> & Hd)]; injection Ho as <- <-; [done|].
  split; [by destruct Hflt as [->| ->]|]. destruct Hd as [->|[-> Hf']]; eauto 10.
Qed.
Lemma Open_layout lo segs segMax syncEvery flt o d2 : Forall sealed segs -> fits lo segs -> lo + Z.of_nat (length segs) + 1 <= bound -> (segs = [] -> lo = 1) ->
  Open (layout lo segs) segMax syncEvery flt = (o, d2) ->
  let idx := lo + Z.of_nat (length segs) in
  match o with
  | Ok w => holds d2 idx (recs lo segs) (length (recs lo segs)) /\ w = fresh_segment idx (mkWAL segMax syncEvery NoFile idx 0 0 false 0 0)
  | Err _ => down d2 (recs lo segs) (length (recs lo segs))
  end.
Proof.
  intros HF Hf Hroom Hlo1 Ho. pose proof (Open_effect _ _ _ _ _ _ _ HF Hf Hroom Hlo1 Ho) as He. destruct o as [w|e]; [done|].
  destruct He as (_ & segs' & [->| ->] & -> & Hf'); [by apply sealed_down|].
  pose proof (sealed_down lo (segs ++ [mkSeg [] 0 []])) as Hsd. rewrite recs_empty in Hsd. apply Hsd; [|done]. apply Forall_app. split; [done|]. by apply Forall_singleton.
Qed.

Lemma restart_inv d hist u rs d1 segMax syncEvery flt o d2 : down d hist u ->
  (forall i, 0 <= i <= MaxInt64 -> is_Some (d !! segmentPath i) -> i + 2 <= bound) ->
  Replay d = (rs, Ok tt, d1) -> Open d1 segMax syncEvery flt = (o, d2) ->
  sys_inv (mkSys (match o with Ok w => Some w | Err _ => None end) d2 (take (length rs) hist) (length rs)) /\ rs `prefix_of` hist.*2 /\ (u <= length rs)%nat.
Proof.
  intros Hd Hroom Hr Ho. pose proof (rl_bound (bound := bound)) as HB. destruct (replay_down d hist u Hd) as (rs' & lo & segs & Hpre & Hu & Hr' & _ & HF & Hf & Hlo1 & Hrs & Hrecs & Hin).
  rewrite Hr in Hr'. injection Hr' as -> ->. split; [|done].
  assert (Hroom' : lo + Z.of_nat (length segs) + 1 <= bound).
  { destruct segs as [|s0 segs0] eqn:Es; [rewrite Hlo1 by done; cbn; lia|]. rewrite <- Es in *. specialize (Hin (length segs - 1)%nat ltac:(subst segs; cbn; lia)).
    destruct Hf. apply Hroom in Hin; subst segs; cbn [length] in *; lia. }
  assert (Hlen : length rs' = length (recs lo segs)) by (by rewrite recs_length, Hrs). pose proof (Open_layout _ _ _ _ _ _ _ HF Hf Hroom' Hlo1 Ho) as Hop. rewrite <- Hrecs, Hlen.
  destruct o as [w|e]; [|done]. destruct Hop as [Hh ->]. exists (lo + Z.of_nat (length segs)), (length (recs lo segs)). split_and!; cbn; try done; lia.
Qed.

Lemma take_prefix_mono {A} (l l' : list A) a b : l `prefix_of` l' -> (a <= b)%nat -> (a <= length l)%nat -> take a l `prefix_of` take b l'.
Proof.
  intros [k ->] Hab Ha. exists (take (b - a) (drop a (l ++ k))). rewrite <- (take_app_le l k a) by lia. rewrite take_take_drop. f_equal. lia.
Qed.
Definition kept (s : sys) : list (Z * R) := take (s_dur s) (s_hist s).

Lemma up_step w w' d d' idx idx' hist hist' u u' dur :
  holds d idx hist u -> (dur <= u)%nat -> holds d' idx' hist' u' -> tracks w' idx' -> (u <= u')%nat -> hist `prefix_of` hist' -> 0 <= sinceSynced w' ->
  Z.of_nat (length hist') <= Z.of_nat (durable d' hist' dur) + sinceSynced w' ->
  sys_inv (mkSys (Some w') d' hist' (durable d' hist' dur)) /\ kept (mkSys (Some w) d hist dur) `prefix_of` kept (mkSys (Some w') d' hist' (durable d' hist' dur)).
Proof.
  intros Hh Hdu Hh' Ht' Hu Hp Hs Hl. pose proof (holds_le _ _ _ _ Hh). split.
  - exists idx', u'. split_and!; try done. cbn. eapply durable_le; [done|lia].
  - apply take_prefix_mono; cbn; [done| |lia]. apply durable_ge. apply prefix_length in Hp. lia.
Qed.

Lemma prefix_fmap {A B} (f : A -> B) (l l' : list A) : l `prefix_of` l' -> f <$> l `prefix_of` f <$> l'.
Proof. intros [k ->]. rewrite fmap_app. by apply prefix_app_r. Qed.

(** One step keeps the invariant, and never gives up a durable record. *)
Lemma step_inv s s' : sys_inv s -> step s s' -> sys_inv s' /\ kept s `prefix_of` kept s'.
Proof.
  intros Hi Hst. destruct Hst as [w d hist dur r flt res w' d' Hok Hflt Hb Hmax Hw hist'|w d hist dur flt res d' Hs|w d hist dur flt res w' d' Hc|o d d' hist dur Hc Hp|d hist dur rs d1 segMax syncEvery flt o d2 Hroom Hr Ho].
  - destruct Hi as (idx & u & Hh & Ht & Hdu & Hs0 & Hl). cbn in *. pose proof (holds_le _ _ _ _ Hh) as Hle.
    destruct (WriteRecord_effect _ _ _ _ _ _ _ _ _ _ Hh Ht Hok Hflt Hb (conj Hs0 Hmax) Hw) as ((u' & idx' & Hh' & Ht' & Hu & _) & _ & Hsi & _). fold hist' in Hh'.
    assert (Hge : (dur <= durable d' hist' dur)%nat) by (apply durable_ge; unfold hist'; destruct (reached_file res); rewrite ?length_app; lia).
    apply (up_step w w' d d' idx idx' hist hist' u u' dur); try done; unfold hist' in *; destruct (reached_file res); try done.
    + by apply prefix_app_r.
    + destruct Hsi as [-> | [_ ->]]; lia.
    + by rewrite Hsi.
    + rewrite length_app in *. cbn [length]. destruct Hsi as [-> | [Hall ->]]; [lia|]. rewrite (durable_synced _ _ _ Hall), length_app. cbn. lia.
    + lia.
  - destruct Hi as (idx & u & Hh & Ht & Hdu & Hs0 & Hl). cbn in *. pose proof (holds_le _ _ _ _ Hh) as Hle. destruct (Sync_effect _ _ _ _ _ _ _ _ Hh Ht Hs) as (u' & Hh' & Hu & _).
    pose proof (durable_ge d' hist dur ltac:(lia)). apply (up_step w w d d' idx idx hist hist u u' dur); try done. lia.
  - destruct Hi as (idx & u & Hh & Ht & Hdu & Hs0 & Hl). cbn in *. pose proof (holds_le _ _ _ _ Hh) as Hle. destruct (Close_effect _ _ _ _ _ _ _ _ _ Hh Ht Hc) as (u' & Hh' & Hu & Ht' & Hsi).
    pose proof (durable_ge d' hist dur ltac:(lia)). apply (up_step w w' d d' idx idx hist hist u u' dur); try done; rewrite Hsi; lia.
  - split; [|done]. destruct o as [w|]; [|by rewrite (crash_synced d d' (down_synced _ _ _ Hi) Hc)]. destruct Hi as (idx & u & Hh & _ & Hdu & _). cbn in *.
    apply (crash_holds _ _ _ _ _ Hh Hc) in Hp as (lo & init & y & -> & Hf & HF & Hy & Hpre & Hu & _). right.
    exists (lo + Z.of_nat (length init)), lo, init, y. split_and!; try done. cbn. lia.
  - destruct (restart_inv _ _ _ _ _ _ _ _ _ _ Hi Hroom Hr Ho) as (Hi' & Hpre & Hu). split; [done|]. unfold kept. cbn in *. rewrite take_take, Nat.min_id.
    apply prefix_length in Hpre as Hlen. rewrite length_fmap in Hlen. apply take_prefix_mono; [done|lia|lia].
Qed.
Lemma steps_inv s s' : rtc step s s' -> sys_inv s -> sys_inv s' /\ kept s `prefix_of` kept s'.
Proof. induction 1 as [s|s s1 s2 Hs Hrs IH]; intros Hi; [done|]. destruct (step_inv _ _ Hi Hs) as [Hi1 Hk1]. destruct (IH Hi1) as [Hi2 Hk2]. split; [done|]. by trans (kept s1). Qed.
Lemma reachable_inv s : reachable s -> sys_inv s.
Proof. intros Hr. apply (steps_inv start s Hr). by left. Qed.
Lemma replay_inv s : sys_inv s -> s_wal s = None ->
  exists rs d', Replay (s_disk s) = (rs, Ok tt, d') /\ rs `prefix_of` (s_hist s).*2 /\ (kept s).*2 `prefix_of` rs /\ Replay d' = (rs, Ok tt, d').
Proof.
  intros Hi Hw. unfold sys_inv in Hi. rewrite Hw in Hi. destruct (replay_down _ _ _ Hi) as (rs & lo & segs & Hpre & Hu & Hr & Hr' & _).
  exists rs, (layout lo segs). split_and!; try done. unfold kept. rewrite fmap_take. destruct Hpre as [k ->]. rewrite take_app_le by lia. apply prefix_take.
Qed.

(** An acknowledged record survives. After a write that returned nil with an
    fsync every [syncEveryN] records, whatever happens later, every replay returns
    all records up to and including it but at most the last [syncEveryN - 1]: with
    [syncEveryN = 1], all of them. *)
Theorem acknowledged_record_survives w d hist dur r flt w' d' s :
  reachable (mkSys (Some w) d hist dur) -> rl_ok r -> (forall k, flt <> FailWrite (S k)) -> segIndex w + 2 <= bound -> sinceSynced w < MaxInt64 ->
  WriteRecord w d r flt = (Ok tt, w', d') -> 0 < syncEveryN w ->
  let hist' := hist ++ [(segIndex w, r)] in
  rtc step (mkSys (Some w') d' hist' (durable d' hist' dur)) s -> s_wal s = None ->
  exists rs d'', Replay (s_disk s) = (rs, Ok tt, d'') /\ (take (length hist' - Z.to_nat (syncEveryN w - 1)) hist').*2 `prefix_of` rs.
Proof.
  intros Hr Hok Hflt Hb Hmax Hw HN hist' Hs Hnone. apply reachable_inv in Hr as Hi. pose proof (step_write w d hist dur r flt (Ok tt) w' d' Hok Hflt Hb Hmax Hw) as Hst.
  change (step (mkSys (Some w) d hist dur) (mkSys (Some w') d' hist' (durable d' hist' dur))) in Hst. destruct (step_inv _ _ Hi Hst) as [Hi1 _]. pose proof (steps_inv _ _ Hs Hi1) as [Hi2 Hk].
  destruct (replay_inv s Hi2 Hnone) as (rs & d'' & Hrep & _ & Hkr & _). exists rs, d''. split; [done|]. trans (kept s).*2; [|done]. apply prefix_fmap. etrans; [|apply Hk]. unfold kept. cbn [s_dur s_hist].
  destruct Hi as (idx & u & Hh & Ht & _ & Hs0 & _). destruct (WriteRecord_effect _ _ _ _ _ _ _ _ _ _ Hh Ht Hok Hflt Hb (conj Hs0 Hmax) Hw) as (_ & _ & _ & Hack). fold hist' in Hack.
  destruct Hi1 as (_ & _ & _ & _ & _ & _ & Hl1). cbn in Hl1. destruct (Hack eq_refl HN) as [Hall|Hlt].
  - rewrite (durable_synced _ _ _ Hall), firstn_all. apply prefix_take.
  - apply take_prefix_mono; [done|lia|lia].
Qed.
End recovery.
