(* ===== verification/WalLogs.v ===== *)
(** * WalLogs: the sample log and the line log recover

    The laws [WalRecovery] asks of a kind of record, for the two logs of the
    repository; the checkpoint of the line log; and the runs the design does not
    cover (a short write, an interrupted restart, the seventh digit). *)
From stdpp Require Import strings.
From S2P Require Import Prelude GoLib GoSort WalCodec SegName Wal WalRecovery.

(** ** Record sizes *)

Definition pair_max : Z := 1 + 255 + 2 + 65535.
Lemma length_encode_pairs labels : Forall (fun lp => str_len (lp_Name lp) <= 255 /\ str_len (lp_Value lp) <= 65535) labels ->
  Z.of_nat (length (labels ≫= encode_pair)) <= Z.of_nat (length labels) * pair_max.
Proof.
  induction 1 as [|lp labels [Hn Hv] HF IH]; [done|]. cbn [mbind list_bind]. change (list_bind _ _ encode_pair labels) with (labels ≫= encode_pair).
  unfold encode_pair at 1. rewrite length_app. cbn [length]. rewrite !length_app, length_be_bytes, !length_str_bytes. unfold str_len, pair_max in *. lia.
Qed.
Lemma length_encode_labels labels : validateLabels labels = None -> Z.of_nat (length (encode_labels labels)) <= 1 + 255 * pair_max.
Proof.
  intros [Hc HF]%validateLabels_ok. unfold encode_labels. cbn [length]. pose proof (length_encode_pairs labels HF). unfold pair_max in *. lia.
Qed.

(** ** Listing segments *)

Lemma seg_names_NoDup lo n : 1 <= lo -> lo + Z.of_nat n <= MaxInt64 -> NoDup (seg_names lo n).
Proof.
  intros Hlo Hb. unfold seg_names. apply NoDup_fmap_2_strong; [|apply NoDup_seq]. intros i j Hi%elem_of_seq Hj%elem_of_seq E%segmentPath_inj; lia.
Qed.
Lemma wal_files_perm d lo n : 1 <= lo -> lo + Z.of_nat n <= MaxInt64 -> segments_are d lo n -> wal_files d ≡ₚ seg_names lo n.
Proof.
  intros Hlo Hb Hd. apply NoDup_Permutation; [apply NoDup_filter, NoDup_fst_map_to_list|by apply seg_names_NoDup|]. intros p. unfold wal_files.
  rewrite list_elem_of_filter, list_elem_of_fmap. split.
  - intros (_ & [p' f] & -> & Hin%elem_of_map_to_list). apply Hd. eauto.
  - intros Hp. pose proof Hp as [f Hf]%Hd. split; [apply seg_names_lookup in Hp as (k & _ & ->); apply HasSuffix_path|]. exists (p, f). split; [done|by apply elem_of_map_to_list].
Qed.
Lemma indexed_names lo n : 1 <= lo -> lo + Z.of_nat n <= MaxInt64 ->
  omap indexed (seg_names lo n) = (fun k => (lo + Z.of_nat k, segmentPath (lo + Z.of_nat k))) <$> seq 0 n.
Proof.
  intros Hlo. induction n as [|n IH]; intros Hb; [done|]. rewrite seg_names_snoc, omap_app, IH by lia. rewrite seq_S, fmap_app. f_equal.
  cbn. unfold indexed. rewrite segment_index_path by lia. done.
Qed.

Lemma sort_by_distinct {A} (key : A -> Z) (l l' : list A) : l ≡ₚ l' -> NoDup (key <$> l) -> StronglySorted (key_lt key) l' -> sort_by key l = l'.
Proof.
  intros Hp Hnd Hs. apply (StronglySorted_strict_unique (key_lt key)); [unfold key_lt; lia| |done|].
  - pose proof (sort_by_sorted key l) as Hw. assert (Hnd' : NoDup (key <$> sort_by key l)) by (rewrite (sort_by_perm key l); done). revert Hw Hnd'.
    induction 1 as [|a m Hm IH Ha]; [constructor|]. rewrite fmap_cons, NoDup_cons. intros [Hni Hnd']. constructor; [by apply IH|].
    apply Forall_forall. intros b Hb. rewrite Forall_forall in Ha. specialize (Ha b Hb). unfold key_le, key_lt in *.
    destruct (decide (key a = key b)) as [E|]; [|lia]. destruct Hni. rewrite E. by apply list_elem_of_fmap_2.
  - intros x. rewrite <- !list_elem_of_In, (sort_by_perm key l). by rewrite Hp.
Qed.

Lemma fmap_seq_sorted {A} (f : nat -> A) (R : A -> A -> Prop) i n : (forall a b, (i <= a < b)%nat -> (b < i + n)%nat -> R (f a) (f b)) -> StronglySorted R (f <$> seq i n).
Proof.
  revert i. induction n as [|n IH]; intros i Hf; cbn; constructor; [apply IH; intros; apply Hf; lia|].
  apply Forall_fmap, Forall_forall. intros k Hk%elem_of_seq. apply Hf; lia.
Qed.

Lemma wal_paths d lo n : 1 <= lo -> lo + Z.of_nat n <= 1000000 -> segments_are d lo n -> segmentPaths d = seg_names lo n /\ paths_after 0 (segmentPaths d) = seg_names lo n.
Proof.
  intros Hlo Hb Hd. assert (HM : lo + Z.of_nat n <= MaxInt64) by (unfold MaxInt64; lia). pose proof (wal_files_perm d lo n Hlo HM Hd) as Hp.
  assert (E : segmentPaths d = seg_names lo n).
  { unfold segmentPaths. apply sort_str_unique; [rewrite Hp, list_fmap_id; by apply seg_names_NoDup| |intros x; by rewrite <- !list_elem_of_In, Hp].
    apply fmap_seq_sorted. intros a b Hab Hbn. unfold str_key_lt, id. apply segmentPath_lt; lia. }
  split; [done|]. rewrite E. apply filter_all, Forall_forall. intros p (k & Hk & ->)%seg_names_lookup. rewrite segment_index_path by lia. apply Z.ltb_lt. lia.
Qed.
Lemma log_paths d lo n : 1 <= lo -> lo + Z.of_nat n <= MaxInt64 -> segments_are d lo n -> log_segmentPaths d = seg_names lo n.
Proof.
  intros Hlo Hb Hd. pose proof (wal_files_perm d lo n Hlo Hb Hd) as Hp. unfold log_segmentPaths.
  rewrite (sort_by_distinct fst _ (omap indexed (seg_names lo n))); [|by rewrite Hp| |].
  - rewrite indexed_names by done. by rewrite <- list_fmap_compose.
  - assert (Hnd : NoDup (fst <$> omap indexed (seg_names lo n))); [|by rewrite Hp].
    rewrite indexed_names, <- list_fmap_compose by done. apply NoDup_fmap_2_strong; [|apply NoDup_seq]. cbn. intros; lia.
  - rewrite indexed_names by done. apply fmap_seq_sorted. unfold key_lt. cbn. intros; lia.
Qed.

(** ** The two instances *)

#[export] Instance wal_laws : RecordLaws walRecord wal_ok 1000000.
Proof.
  split; cbn [rk_encode rk_decode rk_labels rk_maxBody rk_paths rk_replayed wal_kind].
  - intros r Hok Hv. rewrite decode_encode by first [by right|done]. by destruct r.
  - intros r Hok Hv. pose proof (length_encode_labels _ Hv) as Hl. unfold encodeBody. cbn [length]. split; [lia|].
    change (recordTypeSampleGen =? recordTypeSampleGen) with true. rewrite !length_app, !length_be_bytes. unfold maxRecordBodyBytes, pair_max in *. lia.
  - done.
  - unfold MaxInt64. lia.
  - apply wal_paths.
Qed.

Definition line_ok (r : logRecord) : Prop := in_i64 (lr_ts r) /\ str_len (lr_line r) <= 256 * 1024.
#[export] Instance log_laws : RecordLaws logRecord line_ok MaxInt64.
Proof.
  split; cbn [rk_encode rk_decode rk_labels rk_maxBody rk_paths rk_replayed log_kind].
  - intros r [Hts Hl] Hv. apply log_decode_encode; [done|split; [done|lia]].
  - intros r [Hts Hl] Hv. pose proof (length_encode_labels _ Hv) as Hll. unfold log_encodeBody. cbn [length]. split; [lia|].
    rewrite !length_app, !length_be_bytes, length_str_bytes. unfold log_maxRecordBodyBytes, pair_max, str_len in *. lia.
  - done.
  - unfold MaxInt64. lia.
  - intros d lo n H1 H2 H3. split; by apply log_paths.
Qed.

(** ** A run, crashed and recovered *)

Definition demo_rec (ts : Z) : walRecord := mkWal [mkLP "host" "a"] ts 4607182418800017408 ts.
Definition wr (s : WAL * disk) (r : walRecord) : WAL * disk := let '(_, w, d) := WriteRecord s.1 s.2 r NoFault in (w, d).
(** Opened with an fsync every two records and segments of 60 bytes. *)
Definition demo_open : WAL * disk := match Open (R := walRecord) ∅ 60 2 NoFault with (Ok w, d) => (w, d) | (_, d) => (mkWAL 0 0 NoFile 0 0 0 true 0 0, d) end.
Definition demo_one : WAL * disk := wr demo_open (demo_rec 1).
Definition demo_two : WAL * disk := wr demo_one (demo_rec 2).
Definition demo_three : WAL * disk := wr demo_two (demo_rec 3).
(** The machine goes down with three bytes of the third record on the disk. *)
Definition demo_crashed : disk := <[segmentPath 2 := mkFile (take 3 (frame (encodeBody recordTypeSampleGen (demo_rec 3)))) 3]> (demo_three.2).

Lemma demo_write s s' r hist dur hist' dur' : s' = wr s r -> segIndex s.1 + 2 <= 1000000 -> sinceSynced s.1 < MaxInt64 -> wal_ok r ->
  (WriteRecord s.1 s.2 r NoFault).1.1 = Ok tt -> hist ++ [(segIndex s.1, r)] = hist' -> durable s'.2 hist' dur = dur' ->
  step wal_ok 1000000 (mkSys (Some s.1) s.2 hist dur) (mkSys (Some s'.1) s'.2 hist' dur').
Proof.
  intros -> Hi Hs Hr E <- <-. unfold wr. destruct (WriteRecord s.1 s.2 r NoFault) as [[res w'] d'] eqn:Ew. cbn in *. subst res.
  exact (step_write wal_ok 1000000 s.1 s.2 hist dur r NoFault (Ok tt) w' d' Hr ltac:(done) Hi Hs Ew).
Qed.
Lemma demo_opened : step wal_ok 1000000 start (mkSys (Some demo_open.1) demo_open.2 [] 0).
Proof.
  apply (step_restart wal_ok 1000000 ∅ [] 0 [] ∅ 60 2 NoFault (Ok demo_open.1) demo_open.2); [intros i _ [f Hf]; by rewrite lookup_empty in Hf|vm_compute; reflexivity|vm_compute; reflexivity].
Qed.
Lemma demo_rec_ok ts : in_i64 ts -> wal_ok (demo_rec ts).
Proof. intros H. split_and!; [done|cbn; wsolve|done]. Qed.
Lemma demo_writable ts : in_i64 ts -> writable wal_ok (demo_rec ts).
Proof. intros H. split; [by apply demo_rec_ok|done]. Qed.
Lemma demo_reachable : reachable wal_ok 1000000 (mkSys (Some demo_three.1) demo_three.2 [(1, demo_rec 1); (1, demo_rec 2); (2, demo_rec 3)] 2).
Proof.
  eapply rtc_l; [exact demo_opened|]. 
  eapply rtc_l; [apply (demo_write demo_open demo_one (demo_rec 1) [] 0 [(1, demo_rec 1)] 0); [reflexivity| | |apply demo_rec_ok; wsolve| |done|]; by vm_compute|].
  eapply rtc_l; [apply (demo_write demo_one demo_two (demo_rec 2) _ 0 [(1, demo_rec 1); (1, demo_rec 2)] 2); [reflexivity| | |apply demo_rec_ok; wsolve| |done|]; by vm_compute|].
  eapply rtc_l; [apply (demo_write demo_two demo_three (demo_rec 3) _ 2 [(1, demo_rec 1); (1, demo_rec 2); (2, demo_rec 3)] 2); [reflexivity| | |apply demo_rec_ok; wsolve| |done|]; by vm_compute|].
  apply rtc_refl.
Qed.
Lemma demo_disk : demo_three.2 = <[segmentPath 2 := mkFile (seg_bytes [demo_rec 3]) 0]> {[segmentPath 1 := mkFile (seg_bytes [demo_rec 1; demo_rec 2]) (length (seg_bytes [demo_rec 1; demo_rec 2]))]}.
Proof. vm_compute. reflexivity. Qed.
Lemma demo_crash : crash demo_three.2 demo_crashed.
Proof.
  rewrite demo_disk. unfold demo_crashed. rewrite demo_disk, insert_insert_eq. intros p. destruct (decide (p = segmentPath 2)) as [->|Hne].
  - rewrite !lookup_insert_eq. constructor. exists 3%nat. split; [cbn; lia|]. vm_compute. reflexivity.
  - rewrite !lookup_insert_ne by done. destruct (decide (p = segmentPath 1)) as [->|Hne']; [|by rewrite !lookup_singleton_ne by done; constructor].
    rewrite !lookup_singleton_eq. constructor. eexists. split; [split; [apply le_n|done]|]. cbn [f_data f_synced]. by rewrite firstn_all.
Qed.
Lemma demo_no_tear : map_Forall (fun _ f => ~ prefix_tear wal_ok (f_data f)) demo_crashed.
Proof.
  assert (Hw : forall ts, 0 <= ts < 10 -> writable wal_ok (demo_rec ts)) by (intros; apply demo_writable; wsolve).
  unfold demo_crashed. rewrite demo_disk, insert_insert_eq. apply map_Forall_insert_2; [|apply map_Forall_singleton]; cbn [f_data].
  - apply (not_prefix_tear wal_ok 1000000 []); [done|]. right. exists (demo_rec 3), 3%nat. split_and!; [by apply Hw|done|lia|by vm_compute; lia|done].
  - rewrite <- (app_nil_r (seg_bytes _)). apply (not_prefix_tear wal_ok 1000000); [|by left]. repeat constructor; apply demo_writable; wsolve.
Qed.
Lemma demo_crash_step : step wal_ok 1000000 (mkSys (Some demo_three.1) demo_three.2 [(1, demo_rec 1); (1, demo_rec 2); (2, demo_rec 3)] 2) (mkSys None demo_crashed [(1, demo_rec 1); (1, demo_rec 2); (2, demo_rec 3)] 2).
Proof. apply step_crash; [exact demo_crash|exact demo_no_tear]. Qed.
Lemma demo_down : reachable wal_ok 1000000 (mkSys None demo_crashed [(1, demo_rec 1); (1, demo_rec 2); (2, demo_rec 3)] 2).
Proof. eapply rtc_r; [exact demo_reachable|exact demo_crash_step]. Qed.

#[local] Strategy 100 [demo_crashed demo_three demo_two demo_one demo_open].
Lemma demo_reachable_two : reachable wal_ok 1000000 (mkSys (Some demo_two.1) demo_two.2 [(1, demo_rec 1); (1, demo_rec 2)] 2).
Proof.
  eapply rtc_l; [exact demo_opened|].
  eapply rtc_l; [apply (demo_write demo_open demo_one (demo_rec 1) [] 0 [(1, demo_rec 1)] 0); [reflexivity| | |apply demo_rec_ok; wsolve| |done|]; by vm_compute|].
  eapply rtc_l; [apply (demo_write demo_one demo_two (demo_rec 2) _ 0 [(1, demo_rec 1); (1, demo_rec 2)] 2); [reflexivity| | |apply demo_rec_ok; wsolve| |done|]; by vm_compute|].
  apply rtc_refl.
Qed.
Lemma demo_third_write : WriteRecord demo_two.1 demo_two.2 (demo_rec 3) NoFault = (Ok tt, demo_three.1, demo_three.2).
Proof. vm_compute. reflexivity. Qed.
Lemma demo_third_durable : durable demo_three.2 ([(1, demo_rec 1); (1, demo_rec 2)] ++ [(2, demo_rec 3)]) 2 = 2%nat.
Proof. by vm_compute. Qed.
Lemma demo_third_crash : rtc (step wal_ok 1000000)
  (mkSys (Some demo_three.1) demo_three.2 ([(1, demo_rec 1); (1, demo_rec 2)] ++ [(2, demo_rec 3)]) (durable demo_three.2 ([(1, demo_rec 1); (1, demo_rec 2)] ++ [(2, demo_rec 3)]) 2))
  (mkSys None demo_crashed [(1, demo_rec 1); (1, demo_rec 2); (2, demo_rec 3)] 2).
Proof. rewrite demo_third_durable. apply rtc_once. exact demo_crash_step. Qed.
(** One record is at risk with an fsync every two: the third is torn away. *)
Lemma acknowledged_record_survives_witness : exists rs d'', Replay demo_crashed = (rs, Ok tt, d'') /\ [demo_rec 1; demo_rec 2] `prefix_of` rs.
Proof.
  exact (acknowledged_record_survives wal_ok 1000000 demo_two.1 demo_two.2 [(1, demo_rec 1); (1, demo_rec 2)] 2 (demo_rec 3) NoFault demo_three.1 demo_three.2
    (mkSys None demo_crashed [(1, demo_rec 1); (1, demo_rec 2); (2, demo_rec 3)] 2)
    demo_reachable_two (demo_rec_ok 3 ltac:(wsolve)) ltac:(discriminate) ltac:(vm_compute; discriminate) ltac:(vm_compute; reflexivity) demo_third_write ltac:(vm_compute; reflexivity) demo_third_crash eq_refl).
Defined.

Lemma demo_holds : holds wal_ok 1000000 (layout 1 [mkSeg [] 0 []]) 1 [] 0.
Proof. exists 1, [], (mkSeg [] 0 []), 0%nat. split_and!; try done; split; cbn; lia. Qed.
Lemma prefix_tear_breaks_replay_witness :
  let d := disk_append (layout 1 [mkSeg [] 0 []]) (segmentPath 1) (take 4 (frame (rk_encode (demo_rec 1)))) in
  Replay (R := walRecord) d = ([], Err (ErrReadBody (segmentPath 1)), d).
Proof. exact (prefix_tear_breaks_replay wal_ok 1000000 (layout 1 [mkSeg [] 0 []]) 1 [] 0 (demo_rec 1) demo_holds (demo_writable 1 ltac:(wsolve))). Defined.

(** ** The hazards

    What each does to a log; [WalHazard] shows what they spare. *)

(** A write that fails after a few bytes leaves them in the segment, and the writer
    goes on: the next record is acknowledged and synced behind them, and replay
    stops at the garbage. *)
Example short_write_poisons_segment :
  let '(e1, w1, d1) := WriteRecord demo_open.1 demo_open.2 (demo_rec 1) (FailWrite 10) in
  let '(e2, w2, d2) := WriteRecord w1 d1 (demo_rec 2) NoFault in
  let '(e3, d3) := Sync w2 d2 NoFault in
  e1 = Err (ErrIO (FailWrite 10)) /\ e2 = Ok tt /\ e3 = Ok tt /\ (Replay (R := walRecord) d3).1 = ([], Err (ErrCorrupt (segmentPath 1))).
Proof. vm_compute. split_and!; reflexivity. Qed.

(** The process is killed (nothing is lost) with an unsynced record in its segment,
    restarts, and then the machine goes down: the segment loses part of the record
    although it is no longer the last, and replay refuses it. Replay fsyncs a
    segment it truncates, but not one it accepts whole. *)
Example restart_leaves_old_segment_unsynced :
  let d := demo_one.2 in
  let '(rs, e, d1) := Replay (R := walRecord) d in
  let '(o, d2) := Open (R := walRecord) d1 60 2 NoFault in
  let d3 := <[segmentPath 1 := mkFile (take 10 (frame (encodeBody recordTypeSampleGen (demo_rec 1)))) 10]> d2 in
  rs = [demo_rec 1] /\ e = Ok tt /\ (forall f, d2 !! segmentPath 1 = Some f -> (f_synced f <= 10)%nat) /\
  (Replay (R := walRecord) d3).1 = ([], Err (ErrReadBody (segmentPath 1))).
Proof. vm_compute. split_and!; [reflexivity|reflexivity|intros f [= <-]; vm_compute; lia|reflexivity]. Qed.

(** Past segment 999999 the sample log replays out of order (its paths are sorted as
    strings), the line log does not. *)
Definition rollover : disk :=
  {[segmentPath 999999 := mkFile (seg_bytes [demo_rec 1]) 0; segmentPath 1000000 := mkFile (seg_bytes [demo_rec 2]) 0]}.
Example wal_rollover_reorders : (Replay (R := walRecord) rollover).1.1 = [demo_rec 2; demo_rec 1] /\ log_segmentPaths rollover = [segmentPath 999999; segmentPath 1000000].
Proof. vm_compute. split; reflexivity. Qed.

(** ** The line log's checkpoint *)

Section checkpoint.
Implicit Types (w : WAL) (d : disk).

Lemma replay_sealed_layout lo (segs : list (seg (R := logRecord))) : Forall (sealed line_ok) segs -> fits MaxInt64 lo segs ->
  exists d', Replay (layout lo segs) = (vals segs, Ok tt, d').
Proof.
  intros HF Hf. pose proof (sealed_down line_ok MaxInt64 lo segs HF Hf) as Hd. destruct (replay_down line_ok MaxInt64 _ _ _ Hd) as (rs & lo' & segs' & Hp & Hl & Hr & _).
  exists (layout lo' segs'). rewrite recs_vals in Hp. destruct Hp as [k Hk]. rewrite Hr. rewrite recs_length in Hl. destruct k as [|x k]; [by rewrite app_nil_r in Hk; rewrite Hk|].
  rewrite Hk, length_app in Hl. cbn in Hl. lia.
Qed.
Lemma vals_drop (segs : list (seg (R := logRecord))) k : vals (drop k segs) `suffix_of` vals segs.
Proof. exists (vals (take k segs)). unfold vals. by rewrite <- bind_app, take_drop. Qed.

Lemma empty_log_holds : holds line_ok MaxInt64 (layout 1 [mkSeg (R := logRecord) [] 0 []]) 1 [] 0.
Proof. exists 1, [], (mkSeg [] 0 []), 0%nat. split_and!; try done. Qed.

Lemma down_replay d (hist : list (Z * logRecord)) : down line_ok MaxInt64 d hist (length hist) -> exists d'', Replay (R := logRecord) d = (hist.*2, Ok tt, d'').
Proof.
  intros Hd. destruct (replay_down line_ok MaxInt64 _ _ _ Hd) as (rs & lo & segs & [k Hk] & Hl & Hr & _). exists (layout lo segs). rewrite Hr. repeat f_equal.
  assert (E : length hist = length (rs ++ k)) by (by rewrite <- Hk, length_fmap). rewrite length_app in E. destruct k; [by rewrite app_nil_r in Hk|cbn in E; lia].
Qed.
Lemma recs_vals_suffix lo (segs : list (seg (R := logRecord))) k : (recs (lo + Z.of_nat k) (drop k segs)).*2 `suffix_of` (recs lo segs).*2.
Proof. rewrite !recs_vals. apply vals_drop. Qed.

(** Everything a checkpoint can leave: a fresh log; the log and the writer as they
    were; or a closed writer and whole segments of a suffix of the log. *)
Lemma Checkpoint_effect w d idx hist u flt rm res w' d' : holds line_ok MaxInt64 d idx hist u -> tracks w idx ->
  Checkpoint w d flt rm = (res, w', d') ->
  match res with
  | Ok _ => holds line_ok MaxInt64 d' 1 [] 0 /\ current w' = OpenFile /\ tracks w' 1 /\ syncEveryN w' = syncEveryN w /\ sinceSynced w' = 0
  | Err _ => (w' = w /\ d' = d) \/ (current w' <> OpenFile /\ exists h, h.*2 `suffix_of` hist.*2 /\ down line_ok MaxInt64 d' h (length h))
  end.
Proof.
  intros Hh Ht. unfold Checkpoint. destruct (decide (current w = NoFile)); [intros [= <- <- <-]; by left|]. destruct (broken w) eqn:Hb; [intros [= <- <- <-]; by left|].
  destruct (decide (current w = ClosedFile)); [intros [= <- <- <-]; by left|]. destruct (decide (flt = FailSync)); [intros [= <- <- <-]; by left|].
  assert (Ho : current w = OpenFile) by (by destruct (current w)). destruct (proj2 Ht Ho) as [_ ->].
  apply (holds_sync line_ok MaxInt64) in Hh as Hs. destruct (holds_layout line_ok MaxInt64 _ _ _ Hs) as (lo & segs & HF & Hf & Hd & _ & ->). rewrite Hd. pose proof Hf as [Hlo Hbd].
  assert (Hsuf : forall k, exists h, h.*2 `suffix_of` (recs lo segs).*2 /\ down line_ok MaxInt64 (layout (lo + Z.of_nat k) (drop k segs)) h (length h)).
  { intros k. exists (recs (lo + Z.of_nat k) (drop k segs)). split; [apply recs_vals_suffix|]. destruct (decide (k <= length segs)%nat); [|rewrite drop_ge by lia; by left].
    apply (sealed_down line_ok MaxInt64); [by apply Forall_drop|]. split; rewrite ?length_drop; lia. }
  assert (Hempty : exists h, h.*2 `suffix_of` (recs lo segs).*2 /\ down line_ok MaxInt64 ∅ h (length h)) by (exists []; split; [apply suffix_nil|by left]).
  destruct (decide (flt = FailClose)) as [->|]; [intros [= <- <- <-]; right; split; [done|]; specialize (Hsuf 0%nat); by rewrite Z.add_0_r in Hsuf|].
  rewrite (log_paths _ lo (length segs) Hlo Hbd (layout_dom lo segs)).
  assert (Hrm : forall k, exists h, h.*2 `suffix_of` (recs lo segs).*2 /\ down line_ok MaxInt64 (remove_all (take k (seg_names lo (length segs))) (layout lo segs)) h (length h)).
  { intros k. destruct (decide (k <= length segs)%nat) as [Hk|Hk]; [rewrite (remove_prefix line_ok MaxInt64) by done; apply Hsuf|].
    rewrite take_ge by (unfold seg_names; rewrite ?length_fmap, ?length_seq; lia). pose proof (remove_prefix line_ok MaxInt64 lo segs (length segs) Hf ltac:(lia)) as Hr. rewrite take_ge, drop_ge in Hr by (unfold seg_names; rewrite ?length_fmap, ?length_seq; lia). by rewrite Hr. }
  destruct rm as [k|]; [intros [= <- <- <-]; right; split; [done|apply Hrm]|].
  pose proof (remove_prefix line_ok MaxInt64 lo segs (length segs) Hf ltac:(lia)) as Hr. rewrite take_ge, drop_ge in Hr by (unfold seg_names; rewrite ?length_fmap, ?length_seq; lia). cbn [layout] in Hr. rewrite Hr.
  destruct (decide (flt = FailSyncDir)); [intros [= <- <- <-]; by right|]. destruct (openSegment _ ∅ 1 flt) as [[res1 w1] d1] eqn:Eo.
  destruct (openSegment_layout line_ok MaxInt64 (set_broken false (set_current NoFile w)) 1 [] flt res1 w1 d1) as [(-> & -> & Hn)|(-> & _ & -> & [->|[-> Hf']])]; try done.
  - by intros [= <- <- <-].
  - intros [= <- <- <-]. by right.
  - intros [= <- <- <-]. right. split; [done|]. exists []. split; [apply suffix_nil|]. apply (sealed_down line_ok MaxInt64 1 [mkSeg [] 0 []]); [by apply Forall_singleton|done].
Qed.

(** A checkpoint of the line log empties it and starts again at segment 1. When
    it fails, either the log and its writer are as they were, or the writer is
    closed; and what replay then finds is always a suffix of what the log held, read
    without error, all of it already flushed. *)
Theorem checkpoint_fails_closed w d idx hist u flt rm res w' d' : holds line_ok MaxInt64 d idx hist u -> tracks w idx ->
  Checkpoint w d flt rm = (res, w', d') ->
  match res with
  | Ok _ => holds line_ok MaxInt64 d' 1 [] 0 /\ current w' = OpenFile /\ tracks w' 1
  | Err _ => (exists rs d'', Replay (R := logRecord) d' = (rs, Ok tt, d'') /\ rs `suffix_of` hist.*2) /\ (current w' = OpenFile -> w' = w /\ d' = d)
  end.
Proof.
  intros Hh Ht Hc. pose proof (Checkpoint_effect _ _ _ _ _ _ _ _ _ _ Hh Ht Hc) as He. destruct res as [[]|e]; [tauto|]. destruct He as [[-> ->]|(Hn & h & Hsuf & Hd)].
  - split; [|done]. exists hist.*2, d. split; [by eapply (replay_holds line_ok MaxInt64)|done].
  - split; [|done]. destruct (down_replay _ _ Hd) as [d'' Hr]. by exists h.*2, d''.
Qed.

End checkpoint.

Definition demo_line : logRecord := mkLog [mkLP "app" "api"] 5 "hello".
Definition demo_log_writer : WAL := fresh_segment 1 (mkWAL 1000 1 NoFile 1 0 0 false 0 0).
Definition demo_log_disk : disk := disk_append (layout 1 [mkSeg (R := logRecord) [] 0 []]) (segmentPath 1) (frame (rk_encode demo_line)).
Definition demo_checkpoint : result walErr unit * WAL * disk := Checkpoint demo_log_writer demo_log_disk NoFault None.
Lemma demo_line_writable : writable line_ok demo_line.
Proof. split; [split; [cbn; wsolve|by vm_compute]|done]. Qed.
Lemma demo_checkpoint_ok : demo_checkpoint = (Ok tt, demo_checkpoint.1.2, demo_checkpoint.2).
Proof. vm_compute. reflexivity. Qed.
#[local] Strategy 100 [demo_checkpoint demo_log_disk].
Lemma checkpoint_fails_closed_witness :
  holds line_ok MaxInt64 demo_checkpoint.2 1 [] 0 /\ current demo_checkpoint.1.2 = OpenFile /\ tracks demo_checkpoint.1.2 1.
Proof.
  exact (checkpoint_fails_closed demo_log_writer demo_log_disk 1 [(1, demo_line)] 0 NoFault None (Ok tt) demo_checkpoint.1.2 demo_checkpoint.2
    (holds_append line_ok MaxInt64 _ 1 [] 0 demo_line empty_log_holds demo_line_writable) (conj (Z.le_refl 1) (fun _ => conj eq_refl eq_refl)) demo_checkpoint_ok).
Defined.
