(* ===== verification/WalHazard.v ===== *)
(** * WalHazard: the write-ahead logs under every fault

    [WalRecovery] follows runs in which replay puts the log back in order. Three
    faults lie outside them: an append that fails after some of its bytes, a crash
    that leaves just the length prefix of a record, and a process that dies with
    unsynced bytes which the next start takes for durable. Here any of them may
    happen, any number of times: the log can then refuse to start and can lose what
    was written after the fault, but never what was durable before it. *)
From stdpp Require Import strings.
From S2P Require Import Prelude GoLib GoSort WalCodec SegName Wal WalRecovery WalLogs.

Section hazards.
Context {R : Type} `{KR : RecordKind R} (rl_ok : R -> Prop) (bound : Z) `{!RecordLaws R rl_ok bound}.
Implicit Types (w : WAL) (d : disk) (r : R) (rs P : list R).

(** ** Runs with any fault *)

(** The writer, when the process is up, and the directory. *)
Definition machine : Type := option WAL * disk.
Inductive any_step : machine -> machine -> Prop :=
  (** A write that does what it can, short ones included. *)
  | any_write w d r flt res w' d' : segIndex w + 2 <= bound -> WriteRecord w d r flt = (res, w', d') -> any_step (Some w, d) (Some w', d')
  | any_sync w d flt res d' : Sync w d flt = (res, d') -> any_step (Some w, d) (Some w, d')
  | any_close w d flt res w' d' : Close w d flt = (res, w', d') -> any_step (Some w, d) (Some w', d')
  (** The machine goes down, wherever the unsynced bytes are cut. *)
  | any_crash o d d' : crash d d' -> any_step (o, d) (None, d')
  (** The process dies and the machine stays up: every byte is still there, synced or not. *)
  | any_kill o d : any_step (o, d) (None, d)
  (** A start that replay refuses, and one it lets through. *)
  | any_refused d rs e d1 : Replay d = (rs, Err e, d1) -> any_step (None, d) (None, d1)
  | any_start d rs d1 segMax syncEvery flt o d2 :
      (forall i, 0 <= i <= MaxInt64 -> is_Some (d !! segmentPath i) -> i + 2 <= bound) ->
      Replay d = (rs, Ok tt, d1) -> Open d1 segMax syncEvery flt = (o, d2) ->
      any_step (None, d) (match o with Ok w => Some w | Err _ => None end, d2).

(** ** What every fault spares *)

(** A segment that begins with [rs], all of it synced. *)
Definition begins (f : file) rs : Prop := (length (seg_bytes rs) <= f_synced f)%nat /\ take (length (seg_bytes rs)) (f_data f) = seg_bytes rs.
(** The directory is [n] segments from [lo] on, of which the first are [init], whole,
    and the next one begins with [tl]. *)
Record guards d (lo : Z) (n : nat) (init : list (seg (R := R))) (tl : list R) : Prop := {
  gd_names : segments_are d lo n;
  gd_room : 1 <= lo /\ lo + Z.of_nat n <= bound;
  gd_whole : Forall (sealed rl_ok) init;
  gd_files : forall k s, init !! k = Some s -> d !! segmentPath (lo + Z.of_nat k) = Some (seg_file s);
  gd_tail : Forall (writable rl_ok) tl;
  gd_next : (length init < n)%nat /\ exists f, d !! segmentPath (lo + Z.of_nat (length init)) = Some f /\ begins f tl }.
(** A running writer appends to the last segment only. *)
Definition aims w (lo : Z) (n : nat) : Prop := current w = OpenFile -> broken w = false -> segIndex w = lo + Z.of_nat n - 1.
Definition guarded (m : machine) P : Prop := exists lo n init tl, guards m.2 lo n init tl /\ P = vals init ++ tl /\
  match m.1 with Some w => aims w lo n | None => True end.

Lemma begins_append f tl b : begins f tl -> begins (f_append f b) tl.
Proof. intros [H1 H2]. split; [done|]. cbn. rewrite take_app_le; [done|]. apply (f_equal length) in H2. rewrite length_take in H2. lia. Qed.
Lemma begins_sync f tl : begins f tl -> begins (f_sync f) tl.
Proof. intros [H1 H2]. split; [|done]. cbn. apply (f_equal length) in H2. rewrite length_take in H2. lia. Qed.
Lemma begins_cut f tl n : begins f tl -> (length (seg_bytes tl) <= n)%nat -> begins (mkFile (take n (f_data f)) n) tl.
Proof. intros [H1 H2] Hn. split; [done|]. cbn. by rewrite take_take, Nat.min_l. Qed.
Lemma begins_crash f f' tl : begins f tl -> crash_file f f' -> begins f' tl.
Proof. intros Hb (n & Hn & ->). apply begins_cut; [done|]. destruct Hb. lia. Qed.

Lemma path_eq d lo n init tl i j : guards d lo n init tl -> lo <= i < lo + Z.of_nat n -> lo <= j < lo + Z.of_nat n -> segmentPath i = segmentPath j -> i = j.
Proof. intros [] Hi Hj E. eapply (path_inj rl_ok bound); [| |exact E]; lia. Qed.

(** A change of one file that keeps the directory's guard: nothing the guard reads
    of another segment changes. *)
Lemma guards_alter d lo n init tl (f : file -> file) p : guards d lo n init tl ->
  (forall k s, init !! k = Some s -> p = segmentPath (lo + Z.of_nat k) -> f (seg_file s) = seg_file s) ->
  (forall x, p = segmentPath (lo + Z.of_nat (length init)) -> d !! p = Some x -> begins x tl -> begins (f x) tl) -> guards (alter f p d) lo n init tl.
Proof.
  intros G Hinit Hnext. pose proof G as []. split; try done.
  - intros q. rewrite <- (gd_names0 q), lookup_alter. destruct (decide (p = q)) as [->|]; [by rewrite fmap_is_Some|done].
  - intros k s Hk. rewrite lookup_alter. destruct (decide (p = _)) as [->|]; [|by apply gd_files0]. rewrite (gd_files0 k s Hk). cbn. f_equal. by eapply Hinit.
  - destruct gd_next0 as (Hn & x & Hx & Hb). split; [done|]. rewrite lookup_alter. destruct (decide (p = _)) as [->|]; [|by exists x]. rewrite Hx. exists (f x). split; [done|by apply Hnext].
Qed.
Lemma guards_sync d lo n init tl p : guards d lo n init tl -> guards (disk_sync d p) lo n init tl.
Proof.
  intros G. apply guards_alter; [done| |intros x _ _; apply begins_sync]. intros k s Hk _. pose proof G as []. rewrite Forall_lookup in gd_whole0. destruct (gd_whole0 k s Hk) as (Ht & Hs & _).
  unfold f_sync, seg_file. cbn. by rewrite Ht, app_nil_r, Hs.
Qed.
(** Bytes go to the last segment. *)
Lemma guards_append d lo n init tl b : guards d lo n init tl -> guards (disk_append d (segmentPath (lo + Z.of_nat n - 1)) b) lo n init tl.
Proof.
  intros G. apply guards_alter; [done| |intros x _ _; apply begins_append]. intros k s Hk E. pose proof G as []. apply lookup_lt_Some in Hk.
  eapply path_eq in E; [|exact G|lia..]. lia.
Qed.
Lemma guards_crash d d' lo n init tl : guards d lo n init tl -> crash d d' -> guards d' lo n init tl.
Proof.
  intros [] Hc. split; try done.
  - intros p. rewrite <- (gd_names0 p). specialize (Hc p). inversion Hc; split; by intros [? ?]; eauto.
  - intros k s Hk. pose proof (gd_files0 k s Hk) as Hd. specialize (Hc (segmentPath (lo + Z.of_nat k))). rewrite Hd in Hc. inversion Hc as [? f' Hf E1 E2|]; subst. f_equal.
    rewrite Forall_lookup in gd_whole0. destruct (gd_whole0 k s Hk) as (Ht & Hs & _). apply crash_file_synced; [|done]. cbn. by rewrite Ht, app_nil_r.
  - destruct gd_next0 as (Hn & x & Hx & Hb). split; [done|]. specialize (Hc (segmentPath (lo + Z.of_nat (length init)))). rewrite Hx in Hc. inversion Hc as [? f' Hf|]; subst. exists f'. split; [done|by eapply begins_crash].
Qed.
(** A new segment after the last one. *)
Lemma guards_create d lo n init tl f : guards d lo n init tl -> lo + Z.of_nat n + 1 <= bound -> guards (<[segmentPath (lo + Z.of_nat n) := f]> d) lo (S n) init tl.
Proof.
  intros [] Hb. assert (Hne : forall k, (k < n)%nat -> segmentPath (lo + Z.of_nat n) <> segmentPath (lo + Z.of_nat k)) by (intros k Hk E%(path_inj rl_ok bound); lia). split; try done.
  - intros p. rewrite lookup_insert_is_Some, seg_names_snoc, elem_of_app, list_elem_of_singleton, <- (gd_names0 p). destruct (decide (p = segmentPath (lo + Z.of_nat n))); naive_solver.
  - lia.
  - intros k s Hk. apply lookup_lt_Some in Hk as Hlt. rewrite lookup_insert_ne by (apply Hne; lia). by apply gd_files0.
  - destruct gd_next0 as (Hn & x & Hx & Hbx). split; [lia|]. exists x. by rewrite lookup_insert_ne by (apply Hne; lia).
Qed.

(** ** The writer *)

Lemma guards_fresh d lo n init tl : guards d lo n init tl -> d !! segmentPath (lo + Z.of_nat n) = None.
Proof.
  intros []. apply eq_None_not_Some. rewrite (gd_names0 _). intros (k & Hk & E%(path_inj rl_ok bound))%seg_names_lookup; lia.
Qed.
Lemma guards_rotate w d flt res w' d' lo n init tl : guards d lo n init tl -> segIndex w = lo + Z.of_nat n - 1 -> segIndex w + 2 <= bound ->
  rotate w d flt = (res, w', d') -> exists n', guards d' lo n' init tl /\ (aims w lo n -> aims w' lo n').
Proof.
  intros G Hi Hb. unfold rotate. destruct (decide (flt = FailRotSync)); [intros [= <- <- <-]; by exists n|]. pose proof (guards_sync _ _ _ _ _ (segmentPath (segIndex w)) G) as Gs.
  destruct (decide (flt = FailClose)); [intros [= <- <- <-]; by exists n|]. cbn [set_broken set_current count_rotation_sync segIndex].
  pose proof (rl_bound (bound := bound)). pose proof (gd_room _ _ _ _ _ G). rewrite i64_id by (unfold MaxInt64, in_i64 in *; lia). replace (segIndex w + 1) with (lo + Z.of_nat n) by lia.
  unfold openSegment. destruct (decide (flt = FailCreate)); [intros [= <- <- <-]; by exists n|]. rewrite (guards_fresh _ _ _ _ _ Gs).
  pose proof (guards_create _ _ _ _ _ (mkFile [] 0) Gs ltac:(lia)) as Gc. destruct (decide (flt = FailSyncDir)); intros [= <- <- <-]; exists (S n); (split; [done|]); intros _ ? ?; cbn in *; [done|lia].
Qed.
Lemma guards_write w d r flt res w' d' lo n init tl : guards d lo n init tl -> aims w lo n -> segIndex w + 2 <= bound ->
  WriteRecord w d r flt = (res, w', d') -> exists n', guards d' lo n' init tl /\ aims w' lo n'.
Proof.
  intros G Ha Hb. unfold WriteRecord. destruct (decide (current w = NoFile)); [intros [= <- <- <-]; by exists n|]. destruct (broken w) eqn:Hbr; [intros [= <- <- <-]; by exists n|].
  destruct (validateLabels _); [intros [= <- <- <-]; by exists n|]. destruct (decide (current w = ClosedFile)); [intros [= <- <- <-]; by exists n|].
  assert (Hi : segIndex w = lo + Z.of_nat n - 1) by (apply Ha; [by destruct (current w)|done]). rewrite Hi.
  destruct (short_write flt); [intros [= <- <- <-]; exists n; split; [by apply guards_append|done]|].
  pose proof (guards_append _ _ _ _ _ (frame (rk_encode r)) G) as G1. set (w1 := count_written _ w). assert (Ha1 : aims w1 lo n) by (intros ? ?; exact Hi).
  assert (Hrot : forall w2 d2, guards d2 lo n init tl -> segIndex w2 = segIndex w -> (if segMaxBytes w2 <=? written w2 then rotate w2 d2 flt else (Ok tt, w2, d2)) = (res, w', d') -> exists n', guards d' lo n' init tl /\ aims w' lo n').
  { intros w2 d2 G2 E2. assert (Ha2 : aims w2 lo n) by (intros ? ?; lia). destruct (_ <=? _); [|intros [= <- <- <-]; by exists n]. intros Hr. apply (guards_rotate _ _ _ _ _ _ _ _ _ _ G2) in Hr as (n' & ? & ?); [|lia..]. exists n'. auto. }
  unfold write_synced. destruct (sync_due w1); [|by apply Hrot]. destruct (decide (flt = FailSync)); [intros [= <- <- <-]; by exists n|]. apply Hrot; [by apply guards_sync|done].
Qed.

(** ** Replay *)

Lemma torn_last f path isLast data off rs o : @replaySegment R _ f path isLast data off = (rs, SegTorn o) -> isLast = true /\ (off <= o)%nat.
Proof.
  revert data off rs. induction f as [|f IH]; intros data off rs; cbn [replaySegment]; [done|]. destruct (_ =? _)%nat; [done|]. destruct (_ <? _)%nat; [destruct isLast; [intros [= <- <-]; by split|done]|].
  destruct (_ <? _); [destruct isLast; [intros [= <- <-]; by split|done]|]. destruct (_ <? _)%nat; [destruct (negb _), isLast; cbn [andb]; try done; intros [= <- <-]; by split|].
  destruct (rk_decode _); [|done]. destruct (replaySegment f _ _ _ _) as [rs' e] eqn:E. intros [= <- ->]. apply IH in E as [? ?]. split; [done|lia].
Qed.
(** What a segment begins with is read first, and never cut off. *)
Lemma replay_begins f path isLast tl junk off rs e : Forall (writable rl_ok) tl -> (length tl < f)%nat ->
  replaySegment f path isLast (seg_bytes tl ++ junk) off = (rs, e) -> tl `prefix_of` rs /\ forall o, e = SegTorn o -> (off + length (seg_bytes tl) <= o)%nat.
Proof.
  intros HF. revert f off rs. induction HF as [|r tl Hr HF IH]; intros f off rs Hf.
  - intros E. split; [apply prefix_nil|]. intros o ->. apply torn_last in E as [_ ?]. cbn. lia.
  - destruct f as [|f]; [lia|]. change (seg_bytes (r :: tl)) with (frame (rk_encode r) ++ seg_bytes tl). rewrite <- app_assoc, (replaySegment_cons rl_ok bound) by done.
    destruct (replaySegment f _ _ _ _) as [rs' e'] eqn:E. intros [= <- <-]. apply IH in E as [Hp Ho]; [|cbn in Hf; lia]. split; [by apply prefix_cons|]. intros o Heq. specialize (Ho o Heq). rewrite length_app. unfold frame_len in *. lia.
Qed.
Lemma replay_touches paths d rs res d' : replay_paths (R := R) paths d = (rs, res, d') -> d' = d \/ exists p o, p ∈ paths /\ d' = truncateAndSync d p o.
Proof.
  revert d rs res. induction paths as [|p paths IH]; intros d rs res; cbn [replay_paths]; [intros [= <- <- <-]; by left|]. destruct (replaySegment _ p _ _ _) as [rs1 e] eqn:E. destruct e as [|o|e].
  - destruct (replay_paths paths d) as [[rs2 o2] d2] eqn:E2. intros [= <- <- <-]. apply IH in E2 as [->|(q & o & Hq & ->)]; [by left|right]. exists q, o. split; [by right|done].
  - apply torn_last in E as [El _]. destruct paths; [|done]. cbn [replay_paths]. intros [= <- <- <-]. right. exists p, o. split; [by left|done].
  - intros [= <- <- <-]. by left.
Qed.
Lemma guards_cut d lo n init tl i o : guards d lo n init tl -> lo + Z.of_nat (length init) <= i < lo + Z.of_nat n ->
  (i = lo + Z.of_nat (length init) -> (length (seg_bytes tl) <= o)%nat) -> guards (truncateAndSync d (segmentPath i) o) lo n init tl.
Proof.
  intros G Hi Ho. apply guards_alter; [done|..].
  - intros k s Hk E. apply lookup_lt_Some in Hk. eapply path_eq in E; [|exact G|lia..]. lia.
  - intros x E _ Hb. eapply path_eq in E; [|exact G|lia..]. apply begins_cut; [done|by apply Ho].
Qed.
Lemma seg_names_app lo a b : seg_names lo (a + b) = seg_names lo a ++ seg_names (lo + Z.of_nat a) b.
Proof.
  revert lo. induction a as [|a IH]; intros lo; [by rewrite Z.add_0_r|]. cbn [Nat.add]. rewrite !seg_names_cons, IH. cbn [app]. do 3 f_equal. lia.
Qed.
(** A replay, whatever it answers, reads what is guarded and keeps it. *)
Lemma replay_guards d lo n init tl rs res d' : guards d lo n init tl -> Replay d = (rs, res, d') -> (vals init ++ tl) `prefix_of` rs /\ guards d' lo n init tl.
Proof.
  intros G. pose proof G as []. destruct gd_next0 as (Hn & x & Hx & Hbeg). unfold Replay. destruct (rl_paths d lo n) as [_ ->]; [lia|lia|done|].
  destruct (n - length init)%nat as [|m] eqn:Em; [lia|]. replace n with (length init + S m)%nat at 1 by lia. rewrite seg_names_app, (replay_sealed rl_ok bound) by done. rewrite seg_names_cons. cbn [replay_paths]. rewrite Hx.
  set (i := lo + Z.of_nat (length init)) in *. set (last := match seg_names (i + 1) m with [] => true | _ => false end). destruct (replaySegment _ _ last _ _) as [rs1 e] eqn:E.
  assert (Hd : f_data x = seg_bytes tl ++ drop (length (seg_bytes tl)) (f_data x)) by (destruct Hbeg as [_ H2]; rewrite <- H2 at 1; symmetry; apply take_drop).
  assert (Hfuel : (length tl < S (length (f_data x)))%nat) by (rewrite Hd, length_app; pose proof (seg_bytes_long tl); lia).
  rewrite Hd in E at 2. apply replay_begins in E as Hp; [|done..]. destruct Hp as [Hp Ho]. destruct e as [|o|e].
  - destruct (replay_paths (seg_names (i + 1) m) d) as [[rs2 o2] d2] eqn:E2. intros [= <- <- <-]. split; [by apply prefix_app, prefix_app_r|].
    apply replay_touches in E2 as [->|(p & o & (k & Hk & ->)%seg_names_lookup & ->)]; [done|]. replace (i + 1 + Z.of_nat k) with (i + Z.of_nat (S k)) by lia. apply guards_cut; [done|lia|lia].
  - apply torn_last in E as [El _]. subst last. destruct m as [|m]; [|by rewrite seg_names_cons in El]. intros [= <- <- <-]. rewrite app_nil_r. split; [by apply prefix_app|]. apply guards_cut; [done|lia|]. intros _. by apply Ho.
  - intros [= <- <- <-]. split; [by apply prefix_app|done].
Qed.
Lemma guards_open d lo n init tl segMax syncEvery flt o d2 : guards d lo n init tl -> lo + Z.of_nat n + 1 <= bound -> Open d segMax syncEvery flt = (o, d2) ->
  exists n', guards d2 lo n' init tl /\ match o with Ok w => aims w lo n' | Err _ => True end.
Proof.
  intros G Hb. unfold Open. pose proof G as []. pose proof (rl_bound (bound := bound)). destruct (rl_paths d lo n) as [-> _]; [lia|lia|done|]. rewrite (max_index_names rl_ok bound) by lia.
  destruct gd_next0 as [Hn _]. destruct n as [|n]; [lia|]. cbn [segIndex]. rewrite i64_id by (unfold MaxInt64, in_i64 in *; lia). replace (lo + Z.of_nat (S n) - 1 + 1) with (lo + Z.of_nat (S n)) by lia.
  unfold openSegment. destruct (decide (flt = FailCreate)); [intros [= <- <-]; by exists (S n)|]. rewrite (guards_fresh _ _ _ _ _ G). pose proof (guards_create _ _ _ _ _ (mkFile [] 0) G ltac:(lia)) as Gc.
  destruct (decide (flt = FailSyncDir)); intros [= <- <-]; exists (S (S n)); (split; [done|]); [done|]. intros _ _. cbn. lia.
Qed.

(** ** Every step spares the durable part *)

Lemma any_step_guarded m m' P : any_step m m' -> guarded m P -> guarded m' P.
Proof.
  intros Hst (lo & n & init & tl & G & -> & Ha). destruct Hst as [w d r flt res w' d' Hb Hw|w d flt res d' Hs|w d flt res w' d' Hc|o d d' Hc|o d|d rs e d1 Hr|d rs d1 segMax syncEvery flt o d2 Hroom Hr Ho]; cbn [fst snd] in *.
  - destruct (guards_write _ _ _ _ _ _ _ _ _ _ _ G Ha Hb Hw) as (n' & G' & Ha'). by exists lo, n', init, tl.
  - exists lo, n, init, tl. split_and!; [|done|done]. unfold Sync in Hs. cbn. repeat (destruct (decide _) || destruct (broken _)); simplify_eq; try done; by apply guards_sync.
  - exists lo, n, init, tl. unfold Close in Hc. destruct (current w) eqn:Ec; [by simplify_eq| |].
    + simplify_eq. split_and!; [done|done|]. intros Hcur. cbn in Hcur. by destruct rk_forgets.
    + assert (Hw' : w' = set_current (if rk_forgets then NoFile else ClosedFile) w) by (repeat destruct (decide _); by simplify_eq). subst w'. split_and!; [|done|intros Hcur; cbn in Hcur; by destruct rk_forgets].
      repeat destruct (decide _); simplify_eq; try done; by apply guards_sync.
  - exists lo, n, init, tl. split_and!; [by eapply guards_crash|done|done].
  - by exists lo, n, init, tl.
  - pose proof (replay_guards _ _ _ _ _ _ _ _ G Hr) as [_ G1]. by exists lo, n, init, tl.
  - pose proof (replay_guards _ _ _ _ _ _ _ _ G Hr) as [_ G1]. assert (Hrm : lo + Z.of_nat n + 1 <= bound).
    { pose proof G as []. destruct gd_next0 as [Hn _]. assert (Hin : is_Some (d !! segmentPath (lo + Z.of_nat (n - 1)))) by (apply gd_names0, seg_names_lookup; exists (n - 1)%nat; split; [lia|done]).
      pose proof (rl_bound (bound := bound)). apply Hroom in Hin; lia. }
    destruct (guards_open _ _ _ _ _ _ _ _ _ _ G1 Hrm Ho) as (n' & G2 & Ha'). exists lo, n', init, tl. split_and!; [done|done|by destruct o].
Qed.
Lemma any_steps_guarded m m' P : rtc any_step m m' -> guarded m P -> guarded m' P.
Proof. induction 1 as [|m m1 m2 Hs _ IH]; [done|]. intros Hg. apply IH. by eapply any_step_guarded. Qed.

(** What the log has known to be durable is guarded. *)
Lemma inv_guarded s : sys_inv rl_ok bound s -> (kept s).*2 = [] \/ exists P, (kept s).*2 `prefix_of` P /\ guarded (s_wal s, s_disk s) P.
Proof.
  unfold sys_inv, kept. destruct s as [[w|] d hist dur]; cbn [s_wal s_disk s_hist s_dur].
  - intros (idx & u & (lo & init & s & j & -> & [Hlo Hb] & HF & (Ht & Hj & Hs & Hw) & -> & -> & ->) & [_ Htr] & Hdu & _). right. exists (vals init ++ take j (sg_recs s)). split.
    { rewrite fmap_take, recs_vals, vals_snoc, <- (take_app_add (vals init)). apply take_prefix_mono; [done|lia|rewrite length_app; lia]. }
    assert (Hf : fits bound lo (init ++ [s])) by (by split). exists lo, (length (init ++ [s])), init, (take j (sg_recs s)). rewrite length_app in *. cbn [length] in *. split_and!; [|done|intros Hc _; destruct (Htr Hc); lia]. split.
    + pose proof (layout_dom lo (init ++ [s])) as Hd. by rewrite length_app in Hd.
    + lia.
    + done.
    + intros k s' Hk. apply lookup_lt_Some in Hk as Hlt. cbn. rewrite (layout_lookup rl_ok bound) by (exact Hf || rewrite length_app; cbn; lia). by rewrite lookup_app_l, Hk.
    + by apply Forall_take.
    + split; [lia|]. exists (seg_file s). cbn. rewrite (layout_lookup rl_ok bound) by (exact Hf || rewrite length_app; cbn; lia). rewrite lookup_app_r, Nat.sub_diag by lia. split; [done|].
      split; cbn; [lia|]. assert (E : seg_bytes (sg_recs s) = seg_bytes (take j (sg_recs s)) ++ seg_bytes (drop j (sg_recs s))) by (by rewrite <- seg_bytes_app, take_drop).
      rewrite Ht, app_nil_r, E. apply take_app_length.
  - intros [[-> ->]|(idx & lo & init & s & -> & [Hlo Hb] & HF & (Ht & Hs & Hw) & Hpre & Hu & ->)]; [by left|right]. exists (vals init ++ sg_recs s). split.
    { rewrite <- vals_snoc, <- (recs_vals lo). rewrite fmap_take. destruct Hpre as [k ->]. rewrite fmap_app, take_app_le by (rewrite length_fmap; lia). apply prefix_take. }
    assert (Hf : fits bound lo (init ++ [s])) by (by split). exists lo, (length (init ++ [s])), init, (sg_recs s). rewrite length_app in *. cbn [length] in *. split_and!; [|done|done]. split.
    + pose proof (layout_dom lo (init ++ [s])) as Hd. by rewrite length_app in Hd.
    + lia.
    + done.
    + intros k s' Hk. apply lookup_lt_Some in Hk as Hlt. cbn. rewrite (layout_lookup rl_ok bound) by (exact Hf || rewrite length_app; cbn; lia). by rewrite lookup_app_l, Hk.
    + done.
    + split; [lia|]. exists (seg_file s). cbn. rewrite (layout_lookup rl_ok bound) by (exact Hf || rewrite length_app; cbn; lia). rewrite lookup_app_r, Nat.sub_diag by lia. split; [done|].
      split; cbn; [rewrite Hs; cbn; rewrite length_app; lia|by rewrite take_app_length].
Qed.

(** C16. The write-ahead log keeps what was durable, whatever happens to it.
    Take any state the log can reach by writes, syncs, closes, machine crashes and
    restarts, failing wherever the operating system may fail them, as long as no
    append was cut short, no crash left just a length prefix, and no process died
    with unsynced bytes. If its process is down, replay succeeds: it returns a prefix
    of what was written, holding every record known to be synced, repairs the torn
    tail, and a second replay of the repaired directory returns the same. And from
    that state on anything at all may happen, those three faults included, in any
    number and order: every later replay, even one that ends in an error, still
    returns the records that were durable, in order, at its beginning. *)
Theorem wal_survives s : reachable rl_ok bound s ->
  (s_wal s = None -> exists rs d', Replay (s_disk s) = (rs, Ok tt, d') /\ rs `prefix_of` (s_hist s).*2 /\ (take (s_dur s) (s_hist s)).*2 `prefix_of` rs /\ Replay d' = (rs, Ok tt, d')) /\
  (forall d, rtc any_step (s_wal s, s_disk s) (None, d) -> exists rs res d', Replay d = (rs, res, d') /\ (take (s_dur s) (s_hist s)).*2 `prefix_of` rs).
Proof.
  intros Hr%(reachable_inv rl_ok bound). split; [by apply (replay_inv rl_ok bound)|]. intros d Hs. destruct (Replay d) as [[rs res] d'] eqn:E. exists rs, res, d'. split; [done|].
  destruct (inv_guarded s Hr) as [Hn|(P & Hp & Hg)]; [unfold kept in Hn; rewrite Hn; apply prefix_nil|]. destruct (any_steps_guarded _ _ _ Hs Hg) as (lo & n & init & tl & G & -> & _).
  destruct (replay_guards _ _ _ _ _ _ _ _ G E) as [Hp' _]. by etrans.
Qed.
End hazards.

(** ** A run with a fault *)

(** The machine goes down with just the length prefix of the third record on the disk. *)
Definition demo_prefix_torn : disk := <[segmentPath 2 := mkFile (take 4 (frame (encodeBody recordTypeSampleGen (demo_rec 3)))) 4]> (demo_three.2).
Lemma demo_prefix_crash : crash demo_three.2 demo_prefix_torn.
Proof.
  unfold demo_prefix_torn. rewrite demo_disk, insert_insert_eq. intros p. destruct (decide (p = segmentPath 2)) as [->|Hne].
  - rewrite !lookup_insert_eq. constructor. exists 4%nat. split; [cbn; lia|]. vm_compute. reflexivity.
  - rewrite !lookup_insert_ne by done. destruct (decide (p = segmentPath 1)) as [->|Hne']; [|by rewrite !lookup_singleton_ne by done; constructor].
    rewrite !lookup_singleton_eq. constructor. eexists. split; [split; [apply le_n|done]|]. cbn [f_data f_synced]. by rewrite firstn_all.
Qed.
#[local] Strategy 100 [demo_crashed demo_prefix_torn demo_three demo_two demo_one demo_open].
Lemma wal_survives_witness :
  (exists rs d', Replay demo_crashed = (rs, Ok tt, d') /\ [demo_rec 1; demo_rec 2] `prefix_of` rs /\ Replay d' = (rs, Ok tt, d')) /\
  exists rs res d', Replay demo_prefix_torn = (rs, res, d') /\ [demo_rec 1; demo_rec 2] `prefix_of` rs.
Proof.
  split.
  - destruct (proj1 (wal_survives wal_ok 1000000 (mkSys None demo_crashed [(1, demo_rec 1); (1, demo_rec 2); (2, demo_rec 3)] 2) demo_down) eq_refl) as (rs & d' & H1 & _ & H2 & H3). exists rs, d'. exact (conj H1 (conj H2 H3)).
  - exact (proj2 (wal_survives wal_ok 1000000 (mkSys (Some demo_three.1) demo_three.2 [(1, demo_rec 1); (1, demo_rec 2); (2, demo_rec 3)] 2) demo_reachable)
      demo_prefix_torn (rtc_once _ _ (any_crash 1000000 (Some demo_three.1) demo_three.2 demo_prefix_torn demo_prefix_crash))).
Defined.
