(* ===== verification/HeadWal.v ===== *)
(** * HeadWal: the durable head of an ingester

    [internal/metrics/walstore.go] (the log in front of the head),
    [replayMetricsWAL] of [internal/app/storage.go], the checkpoint functions of
    [internal/metrics/blockstore.go], the flush of [internal/metrics/headstore.go]
    and the start-up of [internal/app/ingester.go]. What a replay after a checkpoint
    reads and what the deletion of covered segments leaves. *)
From stdpp Require Import strings.
From S2P Require Import Prelude GoLib GoSort Chunk Dedup Labels MemStore Batch WalCodec SegName Wal WalRecovery WalLogs.

(** ** Appending *)

Definition labelsToWALPairs (l : Labels) : list LabelPair :=
  sort_str lp_Name ((fun e : string * string => mkLP e.1 e.2) <$> map_to_list (labels_Map l)).
Definition sample_record (lbls : Labels) (ts val gen : Z) : walRecord := mkWal (labelsToWALPairs lbls) ts val gen.

Inductive ingestErr := ErrHead (e : storeErr) | ErrWAL (e : walErr) | ErrGenerationRange.
(** Write the record, then append to the head with the segment it went to. *)
Definition logged_append (s : MemoryStore) (w : WAL) (d : disk) (now : Z) (lbls : Labels) (ts val gen : Z) (flt : fault)
  : result ingestErr unit * MemoryStore * WAL * disk :=
  let walSeg := SegmentIndex w in
  match WriteRecord w d (sample_record lbls ts val gen) flt with
  | (Err e, w, d) => (Err (ErrWAL e), s, w, d)
  | (Ok _, w, d) =>
      match AppendTrackedGen s now lbls ts val gen walSeg with
      | (Err e, s) => (Err (ErrHead e), s, w, d)
      | (Ok _, s) => (Ok tt, s, w, d)
      end
  end.
Definition WALStore_Append (s : MemoryStore) (w : WAL) (d : disk) (now : Z) (lbls : Labels) (ts val : Z) (flt : fault)
  : result ingestErr unit * MemoryStore * WAL * disk :=
  match ReserveGeneration s now with
  | Err e => (Err (ErrHead e), s, w, d)
  | Ok (gen, s) => logged_append s w d now lbls ts val gen flt
  end.
Definition AppendWithGeneration (s : MemoryStore) (w : WAL) (d : disk) (now : Z) (lbls : Labels) (ts val gen : Z) (flt : fault)
  : result ingestErr unit * MemoryStore * WAL * disk :=
  if gen =? 0 then WALStore_Append s w d now lbls ts val flt
  else if ((gen <? 0) || (MaxGeneration <? gen))%bool then (Err ErrGenerationRange, s, w, d)
  else logged_append s w d now lbls ts val gen flt.

(** ** Starting up *)

Definition pairs_map (ps : list LabelPair) : gmap string string := fold_left (fun m p => <[lp_Name p := lp_Value p]> m) ps ∅.
(** The callback of [replayMetricsWAL], over the records in turn: how many were
    restored, and the head. [clock k] is the clock when [k] records follow. *)
Fixpoint restore_records (clock : nat -> Z) (s : MemoryStore) (rs : list walRecord) : nat * MemoryStore :=
  match rs with
  | [] => (0%nat, s)
  | r :: rs =>
      match NewStoredLabels (pairs_map (wr_labels r)) with
      | Err _ => restore_records clock s rs
      | Ok lbls =>
          match AppendGen s (clock (length rs)) lbls (wr_ts r) (wr_val r) (wr_gen r) with
          | (Err _, s) => restore_records clock s rs
          | (Ok _, s) => let '(n, s) := restore_records clock s rs in (S n, s)
          end
      end
  end.
Definition replayMetricsWAL (clock : nat -> Z) (d : disk) (checkpoint : Z) (s : MemoryStore) : nat * result walErr unit * MemoryStore * disk :=
  let '(rs, res, d) := ReplayFromGen d checkpoint in
  let '(n, s) := restore_records clock s rs in (n, res, s, d).

(** [OpenHeadStore], [floor] being what the floor file holds (1 without one). *)
Definition OpenHeadStore (floor : Z) : MemoryStore := EnsureGenFloor NewMemoryStore floor.
(** The metrics part of [newIngester]: head, replay, fence, log. *)
Definition boot (clock : nat -> Z) (segMax syncEvery : Z) (d : disk) (checkpoint floor : Z) (flt : fault)
  : result walErr (MemoryStore * WAL) * disk :=
  match replayMetricsWAL clock d checkpoint (OpenHeadStore floor) with
  | (_, Err e, _, d) => (Err e, d)
  | (_, Ok _, s, d) =>
      let s := SetHeadFence s (checkpoint + 1) in
      match Open (R := walRecord) d segMax syncEvery flt with
      | (Err e, d) => (Err e, d)
      | (Ok w, d) => (Ok (s, w), d)
      end
  end.

(** ** Flushing *)

Definition DefaultFlushBatchBytes : Z := Z.shiftl 16 20.
(** The boundary [flushBlock] computes under [appendMu]. *)
Definition safe_delete (s : MemoryStore) (w : WAL) : Z :=
  let headFence := OldestHeadSegment s in
  if headFence <? 0 then SegmentIndex w - 1 else headFence - 1.
(** [deleteWALSegmentsUpTo]; [rm] removals succeed before one fails, if one does. *)
Definition covered_paths (maxIdx : Z) (paths : list string) : list string :=
  filter (fun p => match segment_index p with Some i => i <=? maxIdx | None => false end = true) paths.
Definition deleteWALSegmentsUpTo (d : disk) (maxIdx : Z) (rm : option nat) : result walErr unit * disk :=
  let paths := covered_paths maxIdx (segmentPaths d) in
  match rm with
  | Some k => (Err (ErrIO FailSyncDir), remove_all (take k paths) d)
  | None => (Ok tt, remove_all paths d)
  end.

(** ** A record carries its label set *)

Lemma fold_insert_map (ps : list LabelPair) : NoDup (lp_Name <$> ps) -> pairs_map ps = list_to_map ((fun p => (lp_Name p, lp_Value p)) <$> ps).
Proof.
  unfold pairs_map. induction ps as [|p ps IH] using rev_ind; [done|]. rewrite !fmap_app, fold_left_app. intros (Hnd & Hdis & _)%NoDup_app. cbn [fold_left].
  rewrite IH by done. rewrite list_to_map_app. cbn. rewrite insert_empty, map_union_comm.
  - by rewrite <- insert_union_singleton_l.
  - apply map_disjoint_singleton_r_2. apply not_elem_of_list_to_map_1. rewrite <- list_fmap_compose. intros Hin. apply (Hdis (lp_Name p)); [exact Hin|by left].
Qed.
Lemma WALPairs_names l : NoDup (lp_Name <$> labelsToWALPairs l).
Proof.
  unfold labelsToWALPairs. rewrite (sort_str_perm lp_Name), <- list_fmap_compose. apply (NoDup_fst_map_to_list (labels_Map l)).
Qed.
Lemma pairs_map_labels l : pairs_map (labelsToWALPairs l) = labels_Map l.
Proof.
  rewrite fold_insert_map by apply WALPairs_names. transitivity (list_to_map (M := gmap string string) (map_to_list (labels_Map l))); [|apply list_to_map_to_list].
  assert (Hp : (fun p => (lp_Name p, lp_Value p)) <$> labelsToWALPairs l ≡ₚ map_to_list (labels_Map l)).
  { unfold labelsToWALPairs. rewrite (sort_str_perm lp_Name), <- list_fmap_compose. generalize (map_to_list (labels_Map l)). intros es. induction es as [|[n v] es IH]; [done|]. cbn. by rewrite IH. }
  apply list_to_map_proper; [|done]. rewrite <- list_fmap_compose. apply (WALPairs_names l).
Qed.

(** ** Replay after a checkpoint, deletion up to one *)

Lemma after_names c lo n : 1 <= lo -> lo + Z.of_nat n <= 1000000 ->
  paths_after c (seg_names lo n) = seg_names (lo + Z.of_nat (Z.to_nat (c + 1 - lo))) (n - Z.to_nat (c + 1 - lo)).
Proof.
  revert lo. induction n as [|n IH]; intros lo Hlo Hb; [done|]. rewrite seg_names_cons. unfold paths_after. rewrite filter_cons, segment_index_path by (unfold MaxInt64; lia).
  fold (paths_after c (seg_names (lo + 1) n)). rewrite IH by lia. destruct (Z.ltb_spec c lo).
  - rewrite decide_True by done. replace (Z.to_nat (c + 1 - lo)) with 0%nat by lia. replace (Z.to_nat (c + 1 - (lo + 1))) with 0%nat by lia.
    rewrite Z.add_0_r, Z.add_0_r, !Nat.sub_0_r. by rewrite seg_names_cons.
  - rewrite decide_False by done. replace (Z.to_nat (c + 1 - lo)) with (S (Z.to_nat (c + 1 - (lo + 1)))) by lia. cbn [Nat.sub]. f_equal. lia.
Qed.
Lemma covered_names c lo n : 1 <= lo -> lo + Z.of_nat n <= 1000000 ->
  covered_paths c (seg_names lo n) = take (Z.to_nat (c + 1 - lo)) (seg_names lo n).
Proof.
  revert lo. induction n as [|n IH]; intros lo Hlo Hb; [by destruct (Z.to_nat _)|]. rewrite seg_names_cons. unfold covered_paths. rewrite filter_cons, segment_index_path by (unfold MaxInt64; lia).
  fold (covered_paths c (seg_names (lo + 1) n)). rewrite IH by lia. destruct (Z.leb_spec lo c).
  - rewrite decide_True by done. replace (Z.to_nat (c + 1 - lo)) with (S (Z.to_nat (c + 1 - (lo + 1)))) by lia. done.
  - rewrite decide_False by done. replace (Z.to_nat (c + 1 - lo)) with 0%nat by lia. by replace (Z.to_nat (c + 1 - (lo + 1))) with 0%nat by lia.
Qed.

Abbreviation wal_holds := (WalRecovery.holds wal_ok 1000000).
Abbreviation wal_torn := (torn_log wal_ok 1000000).
Abbreviation whole := (WalRecovery.sealed wal_ok).

(** The log of a machine that went down, in full. *)
Lemma replay_after d idx hist c : wal_torn d idx hist (length hist) -> c < idx ->
  exists lo segs, Forall whole segs /\ fits 1000000 lo segs /\ segs <> [] /\ segments_are d lo (length segs) /\ recs lo segs = hist /\ idx + 1 = lo + Z.of_nat (length segs) /\
    ReplayFromGen d c = ((filter (fun e => c < e.1) hist).*2, Ok tt, layout lo segs).
Proof.
  intros (lo & init & s & -> & Hf & HF & (Ht & Hsy & Hw) & [tl Hpre] & Hu & ->) Hc.
  assert (Hh : recs lo (init ++ [s]) = hist).
  { rewrite Hpre, length_app in Hu. destruct tl; [by rewrite Hpre, app_nil_r|cbn in Hu; lia]. }
  clear Hpre Hu tl. pose proof Hf as [Hlo Hb]. rewrite length_app in Hb. cbn in Hb.
  set (k := Z.to_nat (c + 1 - lo)). assert (Hk : (k <= length init)%nat) by lia.
  pose proof (replay_from wal_ok 1000000 k lo init s Hk Hf HF Ht Hw) as Hr.
  assert (Hfr : fits 1000000 lo (init ++ [repaired s])) by (unfold fits; rewrite length_app; cbn; lia).
  assert (Hpaths : paths_after c (segmentPaths (layout lo (init ++ [s]))) = seg_names (lo + Z.of_nat k) (S (length init - k))).
  { destruct (wal_paths _ lo (length (init ++ [s])) Hlo ltac:(rewrite length_app; cbn; lia) (layout_dom lo (init ++ [s]))) as [-> _]. rewrite length_app, after_names by (cbn; lia). fold k. f_equal. cbn. lia. }
  assert (Hvals : vals (drop k init ++ [s]) = (filter (fun e => c < e.1) hist).*2).
  { rewrite <- Hh, recs_after. fold k. rewrite drop_app_le by done. by rewrite recs_vals. }
  unfold ReplayFromGen. rewrite Hpaths, Hr, Hvals. destruct (sg_tail s) as [|b tl] eqn:Etl.
  - exists lo, (init ++ [s]). split_and!; try done; [|by destruct init|apply layout_dom|rewrite length_app; cbn; lia]. apply Forall_app. split; [done|]. apply Forall_singleton.
    cbn in Hsy. rewrite Etl, app_nil_r in Hsy. done.
  - exists lo, (init ++ [repaired s]). split_and!; try done; [|by destruct init| |by rewrite <- Hh, !recs_snoc|rewrite length_app; cbn; lia].
    2:{ rewrite length_app. pose proof (layout_dom lo (init ++ [s])) as Hdom. by rewrite length_app in Hdom. }
    apply Forall_app. split; [done|]. apply Forall_singleton. done.
Qed.

(** Deleting covered segments drops records of those segments only. *)
Lemma delete_holds d idx hist u c rm res d' : wal_holds d idx hist u -> c < idx -> deleteWALSegmentsUpTo d c rm = (res, d') ->
  exists j, Forall (fun e => e.1 <= c) (take j hist) /\ (j <= u)%nat /\ wal_holds d' idx (drop j hist) (u - j).
Proof.
  intros (lo & init & s & jj & -> & Hf & HF & Ho & -> & -> & ->) Hc Hdel. pose proof Hf as [Hlo Hb]. rewrite length_app in Hb. cbn in Hb.
  set (k := Z.to_nat (c + 1 - lo)).
  assert (Hpaths : covered_paths c (segmentPaths (layout lo (init ++ [s]))) = take k (seg_names lo (length (init ++ [s])))).
  { destruct (wal_paths _ lo (length (init ++ [s])) Hlo ltac:(rewrite length_app; cbn; lia) (layout_dom lo (init ++ [s]))) as [-> _]. apply covered_names; [done|rewrite length_app; cbn; lia]. }
  assert (Hd : exists m, (m <= k)%nat /\ (m <= length init)%nat /\ d' = layout (lo + Z.of_nat m) (drop m (init ++ [s]))).
  { unfold deleteWALSegmentsUpTo in Hdel. rewrite Hpaths in Hdel. destruct rm as [r|]; injection Hdel as _ <-.
    - exists (Nat.min r k). rewrite take_take, (remove_prefix wal_ok 1000000) by (first [done|rewrite length_app; lia]). split_and!; [lia|lia|done].
    - exists k. rewrite (remove_prefix wal_ok 1000000) by (first [done|rewrite length_app; lia]). split_and!; [lia|lia|done]. }
  destruct Hd as (m & Hmk & Hmi & ->). rewrite drop_app_le by done. exists (length (vals (take m init))).
  assert (Hsplit : recs lo (init ++ [s]) = recs lo (take m init) ++ recs (lo + Z.of_nat m) (drop m init ++ [s])).
  { rewrite <- (take_drop m init) at 1. rewrite <- app_assoc, recs_app, length_take. do 3 f_equal. lia. }
  assert (Hv : vals init = vals (take m init) ++ vals (drop m init)) by (unfold vals; by rewrite <- bind_app, take_drop).
  rewrite Hsplit, <- (recs_length lo), take_app_length, drop_app_length, recs_length, Hv, length_app. split_and!; [|lia|].
  - apply Forall_forall. intros e He. assert (Hlt : forall x l0, e ∈ recs l0 (take x init) -> e.1 < l0 + Z.of_nat x).
    { clear. intros x. generalize init. induction x as [|x IH]; intros segs l0; [by intros ?%elem_of_nil|]. destruct segs as [|s0 segs]; [by intros ?%elem_of_nil|]. cbn [take recs].
      rewrite elem_of_app. intros [(r & -> & _)%list_elem_of_fmap|H%IH]; cbn; lia. }
    destruct m as [|m]; [by apply elem_of_nil in He|]. apply Hlt in He. lia.
  - exists (lo + Z.of_nat m), (drop m init), s, jj. split_and!; try done; [split; [lia|]|by apply Forall_drop|rewrite length_drop; lia|lia].
    rewrite length_app, length_drop. cbn. lia.
Qed.

(** What a start finds: nothing yet, or a log perhaps torn at its end. *)
Definition log_down (d : disk) (idx : Z) (hist : list (Z * walRecord)) : Prop :=
  (d = ∅ /\ idx = 1 /\ hist = []) \/ wal_torn d idx hist (length hist).
Lemma log_down_synced d idx hist : log_down d idx hist -> all_synced d.
Proof. intros [(-> & _)|H]; [apply map_Forall_empty|]. apply (down_synced wal_ok 1000000 d hist (length hist)). right. by exists idx. Qed.
Lemma fits_nonempty lo (segs : list (seg (R := walRecord))) : fits 1000000 lo segs -> segs <> [] -> 1 <= lo + Z.of_nat (length segs) - 1.
Proof. intros [? _] ?. destruct segs; [done|cbn; lia]. Qed.
Lemma replay_log_down d idx hist c : log_down d idx hist -> c < idx ->
  exists lo segs, Forall whole segs /\ fits 1000000 lo segs /\ (segs = [] -> lo = 1) /\ segments_are d lo (length segs) /\ recs lo segs = hist /\
    idx = Z.max 1 (lo + Z.of_nat (length segs) - 1) /\ ReplayFromGen d c = ((filter (fun e => c < e.1) hist).*2, Ok tt, layout lo segs).
Proof.
  intros [(-> & -> & ->)|Ht] Hc.
  - exists 1, []. split_and!; try done; apply (layout_dom 1 []).
  - destruct (replay_after d idx hist c Ht Hc) as (lo & segs & HF & Hf & Hne & Hd & Hr & Hi & E). exists lo, segs. pose proof (fits_nonempty lo segs Hf Hne). split_and!; try done. lia.
Qed.
Lemma layout_log_down lo segs : Forall whole segs -> fits 1000000 lo segs -> (segs = [] -> lo = 1) ->
  log_down (layout lo segs) (Z.max 1 (lo + Z.of_nat (length segs) - 1)) (recs lo segs).
Proof.
  intros HF Hf Hlo1. destruct segs as [|s segs _] using rev_ind; [left; by rewrite Hlo1|].
  apply Forall_app in HF as [HF [Hs _]%Forall_cons]. right.
  exists lo, segs, s. split_and!; [done..|by apply sealed_left_over|done|done|]. destruct Hf. rewrite length_app. cbn. lia.
Qed.
