(* ===== verification/Ingester.v ===== *)
(** * Ingester: an acknowledged sample survives

    The metrics side of an ingester as a transition system: logged appends, seals,
    flushes to the store, checkpoints, deletion of log segments, crashes and starts,
    interleaved as the locks of [WALStore] and [HeadStore] allow, with every failure
    of the log, the store and the machine. Wherever a run stops that met no
    [hazard], every acknowledged sample is in the store, in the head, or in what the
    next start replays. The hazards are steps of the system too: the steps take the
    set of those a run is exposed to. *)
From stdpp Require Import strings pretty.
From S2P Require Import Prelude GoLib GoSort Chunk Dedup Labels MemStore Batch Fence WalCodec SegName Wal WalRecovery WalLogs HeadWal.

(** ** State and steps *)

(** [HeadStore.FlushBlockContext] while it holds [flushMu]; [flushBlock] after it. *)
Inductive flushing := Flooring (snapshot : list SeriesChunks) | Sending (batches : list (list SeriesChunks)) | Removing (ids : list Z).
Inductive ckpt_phase := Bounding | Publishing (c : Z) | Deleting (c : Z).
(** [g_ckpt] and [g_floor] are the checkpoint and floor files; [g_shipped] is what
    the store acknowledged and [g_acked] what the ingester did. *)
Record ingester := mkIng {
  g_up : option (MemoryStore * WAL); g_flush : option flushing; g_tails : list ckpt_phase;
  g_disk : disk; g_ckpt : Z; g_floor : Z; g_shipped : list (Labels * sample); g_acked : list (Labels * sample) }.
Definition batch_samples (b : list SeriesChunks) : list (Labels * sample) :=
  b ≫= fun sc => sc_Chunks sc ≫= fun rc => pair (sc_Labels sc) <$> samples_of rc.2.
Definition fresh : ingester := mkIng None None [] ∅ 0 1 [] [].
Definition record_of (l : Labels) (x : sample) : walRecord := sample_record l (s_ts x) (s_val x) (s_gen x).
(** [os.WriteFile] truncates, then writes from the start: when two writers both
    truncate before either writes, the later number overwrites the start of the other. *)
Definition Itoa (n : Z) : string := pretty n.
Definition pwrite (content new : string) : string := (new ++ String.substring (String.length new) (String.length content) content)%string.
(** What [Drain] answers once nothing is left to flush. *)
Definition drained (s : MemoryStore) : bool := OldestHeadSegment s <? 0.

Section ingester.
Context (U : Labels -> Prop) (batchBytes : Z).
(** The label sets in play: constructed ones, accepted on replay, without a
    fingerprint collision. *)
Record universe : Prop := {
  U_wf l : U l -> labels_wf l; U_stored l : U l -> NewStoredLabels (labels_Map l) = Ok l;
  U_hash l l' : U l -> U l' -> Hash l = Hash l' -> l = l' }.
Definition room (d : disk) : Prop := forall i, 0 <= i <= MaxInt64 -> is_Some (d !! segmentPath i) -> i + 2 <= 1000000.

(** [exposed] is the set of hazards the run may meet. *)
Inductive step (exposed : hazard -> Prop) : ingester -> ingester -> Prop :=
  | step_append s w fl ts d ck flo sh ac now lbls t v gen flt res s' w' d' :
      U lbls -> in_i64 t -> in_u64 v -> (forall k, flt = FailWrite (S k) -> exposed ShortWrite) -> segIndex w + 2 <= 1000000 -> sinceSynced w < MaxInt64 ->
      AppendWithGeneration s w d now lbls t v gen flt = (res, s', w', d') ->
      step exposed (mkIng (Some (s, w)) fl ts d ck flo sh ac)
        (mkIng (Some (s', w')) fl ts d' ck flo sh (match res with Ok _ => ac ++ [(lbls, mkSample t v (assigned s now gen))] | Err _ => ac end))
  | step_seal s w fl ts d ck flo sh ac :
      step exposed (mkIng (Some (s, w)) fl ts d ck flo sh ac) (mkIng (Some ((SealHeadChunks s).2, w)) fl ts d ck flo sh ac)
  | step_snapshot s w ts d ck flo sh ac :
      SealedChunksSnapshot s <> [] ->
      step exposed (mkIng (Some (s, w)) None ts d ck flo sh ac) (mkIng (Some (s, w)) (Some (Flooring (SealedChunksSnapshot s))) ts d ck flo sh ac)
  | step_floor s w snap ts d ck flo sh ac :
      step exposed (mkIng (Some (s, w)) (Some (Flooring snap)) ts d ck flo sh ac)
        (mkIng (Some (s, w)) (Some (Sending (BatchSeriesChunks snap batchBytes))) ts d ck (NextGeneration s) sh ac)
  | step_floor_failed s w snap ts d ck flo sh ac floor' : (** before or after the rename *)
      floor' = flo \/ floor' = NextGeneration s ->
      step exposed (mkIng (Some (s, w)) (Some (Flooring snap)) ts d ck flo sh ac) (mkIng (Some (s, w)) None ts d ck floor' sh ac)
  | step_send s w b bs ts d ck flo sh ac :
      step exposed (mkIng (Some (s, w)) (Some (Sending (b :: bs))) ts d ck flo sh ac)
        (mkIng (Some (DiscardSealedChunks s b, w)) (Some (Sending bs)) ts d ck flo (sh ++ batch_samples b) ac)
  | step_send_failed s w bs ts d ck flo sh ac :
      step exposed (mkIng (Some (s, w)) (Some (Sending bs)) ts d ck flo sh ac) (mkIng (Some (s, w)) None ts d ck flo sh ac)
  | step_sent s w ts d ck flo sh ac :
      step exposed (mkIng (Some (s, w)) (Some (Sending [])) ts d ck flo sh ac) (mkIng (Some (s, w)) (Some (Removing (EmptyHeadSeriesIDs s))) ts d ck flo sh ac)
  | step_remove s w i ids ts d ck flo sh ac :
      step exposed (mkIng (Some (s, w)) (Some (Removing (i :: ids))) ts d ck flo sh ac)
        (mkIng (Some ((RemoveEmptySeries s i).2, w)) (Some (Removing ids)) ts d ck flo sh ac)
  | step_removed s w ts d ck flo sh ac :
      step exposed (mkIng (Some (s, w)) (Some (Removing [])) ts d ck flo sh ac) (mkIng (Some (s, w)) None (ts ++ [Bounding]) d ck flo sh ac)
  | step_bound s w fl ts1 ts2 d ck flo sh ac :
      step exposed (mkIng (Some (s, w)) fl (ts1 ++ Bounding :: ts2) d ck flo sh ac)
        (mkIng (Some (s, w)) fl (ts1 ++ Publishing (safe_delete s w) :: ts2) d ck flo sh ac)
  | step_publish s w fl ts1 c ts2 d ck flo sh ac :
      step exposed (mkIng (Some (s, w)) fl (ts1 ++ Publishing c :: ts2) d ck flo sh ac)
        (mkIng (Some (s, w)) fl (ts1 ++ Deleting c :: ts2) d c flo sh ac)
  | step_publish_failed s w fl ts1 c ts2 d ck flo sh ac ck' : (** the file is left short *)
      0 <= ck' <= c ->
      step exposed (mkIng (Some (s, w)) fl (ts1 ++ Publishing c :: ts2) d ck flo sh ac) (mkIng (Some (s, w)) fl (ts1 ++ ts2) d ck' flo sh ac)
  | step_publish_shared s w fl ts1 c ts2 c' ts3 d ck flo sh ac ck' : (** two writers truncate, then both write *)
      exposed SharedCheckpoint -> Atoi (pwrite (Itoa c) (Itoa c')) = Some ck' \/ Atoi (pwrite (Itoa c') (Itoa c)) = Some ck' ->
      step exposed (mkIng (Some (s, w)) fl (ts1 ++ Publishing c :: ts2 ++ Publishing c' :: ts3) d ck flo sh ac)
        (mkIng (Some (s, w)) fl (ts1 ++ Deleting c :: ts2 ++ Deleting c' :: ts3) d ck' flo sh ac)
  | step_delete s w fl ts1 c ts2 d ck flo sh ac rm res d' :
      deleteWALSegmentsUpTo d c rm = (res, d') ->
      step exposed (mkIng (Some (s, w)) fl (ts1 ++ Deleting c :: ts2) d ck flo sh ac) (mkIng (Some (s, w)) fl (ts1 ++ ts2) d' ck flo sh ac)
  | step_close s w fl ts d ck flo sh ac flt res w' d' :
      Close (R := walRecord) w d flt = (res, w', d') ->
      step exposed (mkIng (Some (s, w)) fl ts d ck flo sh ac) (mkIng (Some (s, w')) fl ts d' ck flo sh ac)
  | step_crash o fl ts d ck flo sh ac d' ck' : (** the checkpoint file is not synced *)
      crash d d' -> (prefix_torn wal_ok d' -> exposed PrefixTear) -> 0 <= ck' <= ck ->
      step exposed (mkIng o fl ts d ck flo sh ac) (mkIng None None [] d' ck' flo sh ac)
  | step_kill o fl ts d ck flo sh ac : (** the process dies, the machine stays up *)
      (~ all_synced d -> exposed UnsyncedKill) -> step exposed (mkIng o fl ts d ck flo sh ac) (mkIng None None [] d ck flo sh ac)
  | step_boot d ck flo sh ac clock segMax flt o d' :
      room d -> boot clock segMax 1 d ck flo flt = (o, d') ->
      step exposed (mkIng None None [] d ck flo sh ac) (mkIng (match o with Ok sw => Some sw | Err _ => None end) None [] d' ck flo sh ac).
Definition reachable (exposed : hazard -> Prop) : ingester -> Prop := rtc (step exposed) fresh.

(** ** The head *)

Definition labels_in (s : MemoryStore) : Prop := forall id ms, st_series s !! id = Some ms -> U (ms_labels ms).
Lemma labels_in_clash s l : universe -> store_wf s -> labels_in s -> U l -> no_clash s l.
Proof.
  intros HU Hs Hin Hl ms E. apply (U_hash HU); [by eapply Hin|done|]. apply (sw_id _ _ _ (st_series_wf s Hs _ _ E)).
Qed.
Lemma labels_in_fmap s s' (f : memorySeries -> memorySeries) : st_series s' = f <$> st_series s -> (forall ms, ms_labels (f ms) = ms_labels ms) -> labels_in s -> labels_in s'.
Proof. intros E Hf Hin id ms. rewrite E, lookup_fmap_Some. intros (m & <- & Em). rewrite Hf. by eapply Hin. Qed.
Lemma labels_in_append s now lbls ts val seg gen : U lbls -> labels_in s -> no_clash s lbls -> labels_in (appendInternal s now lbls ts val seg gen).2.
Proof.
  intros Hl Hin Hnc. unfold appendInternal. destruct (settle_gen s now gen) as [[g s1]|e] eqn:Eset; [|done].
  assert (E1 : st_series s1 = st_series s).
  { unfold settle_gen, nextGenerationLocked in Eset. repeat case_match; by simplify_eq. }
  destruct (ensure_series s1 lbls) as [ms s2] eqn:Eens. assert (E2 : ms_labels ms = lbls /\ labels_in s2).
  { unfold ensure_series in Eens. rewrite E1 in Eens. destruct (st_series s !! Hash lbls) as [m|] eqn:E; injection Eens as <- <-.
    - split; [by apply Hnc|]. intros id m' E'. rewrite E1 in E'. by eapply Hin.
    - split; [done|]. intros id m'. cbn [st_series]. rewrite lookup_insert_Some. intros [[_ <-]|[_ H]]; [done|by eapply Hin]. }
  destruct E2 as [El Hin2]. set (s2' := match ms_chunks ms with [] => _ | _ => _ end). assert (Hin2' : labels_in s2') by (subst s2'; by destruct (ms_chunks ms)).
  destruct (ensure_chunk s2' ms seg) as [ms1 s3] eqn:Ech. assert (E3 : ms_labels ms1 = lbls /\ st_series s3 = st_series s2').
  { unfold ensure_chunk in Ech. destruct (needs_chunk ms); by injection Ech as <- <-. }
  destruct E3 as [El1 E3]. assert (Hput : forall m, ms_labels m = lbls -> labels_in (put_series s3 (Hash lbls) m)).
  { intros m Em id ms'. cbn [put_series st_series]. rewrite lookup_insert_Some, E3. intros [[_ <-]|[_ H]]; [by rewrite Em|by eapply Hin2']. }
  destruct (last (ms_chunks ms1)); [|by apply Hput]. destruct (Append _ _ _ _); by apply Hput.
Qed.
Lemma labels_in_step s op : universe -> store_wf s -> labels_in s -> (forall now l ts v seg gen, op = OpAppend now l ts v seg gen -> U l) -> labels_in (store_step s op).
Proof.
  intros HU Hs Hin Hop. destruct op as [now lbls ts v seg gen|now|floor| |seg|snap|id]; cbn [store_step].
  - apply labels_in_append; [by eapply Hop|done|]. apply labels_in_clash; [done..|by eapply Hop].
  - unfold ReserveGeneration, nextGenerationLocked. by destruct (_ <? _).
  - unfold EnsureGenFloor. by destruct (_ <? _).
  - eapply (labels_in_fmap s _ (fun ms => (seal_head ms).1)); [done| |done]. intros ms. unfold seal_head. by repeat case_match.
  - eapply (labels_in_fmap s); [done|done|done].
  - destruct (DiscardSealedChunks_spec s snap Hs) as (_ & E & _). eapply (labels_in_fmap s); [exact E|done|done].
  - unfold RemoveEmptySeries. destruct (st_series s !! id) as [m|]; [|done]. destruct (ms_chunks m); [|done]. intros i ms. cbn [snd st_series].
    rewrite lookup_delete_Some. intros [_ H]. by eapply Hin.
Qed.

(** ** Replaying records into a head *)

Definition rec_ok (r : walRecord) : Prop := exists l x, r = record_of l x /\ U l /\ in_i64 (s_ts x) /\ in_u64 (s_val x) /\ 1 <= s_gen x <= MaxGeneration.
Lemma record_of_inj l x l' x' : universe -> U l -> U l' -> record_of l x = record_of l' x' -> l = l' /\ x = x'.
Proof.
  intros HU Hl Hl' [= E1 E2 E3 E4]. split; [|destruct x, x'; by f_equal]. apply (f_equal pairs_map) in E1. rewrite !pairs_map_labels in E1.
  apply labels_wf_ext; [by apply U_wf..|done].
Qed.
Lemma restore_one s now l x : universe -> store_wf s -> labels_in s -> U l -> in_i64 (s_ts x) -> in_u64 (s_val x) -> 1 <= s_gen x <= MaxGeneration ->
  exists s', AppendGen s now l (s_ts x) (s_val x) (s_gen x) = (Ok tt, s') /\ store_wf s' /\ labels_in s' /\ st_nextGen s <= st_nextGen s' /\
    (forall l' rc sg, entry s l' rc sg -> exists rc', entry s' l' rc' sg /\ samples_of rc.2 ⊆ samples_of rc'.2) /\
    exists rc sg, entry s' l rc sg /\ x ∈ samples_of rc.2.
Proof.
  intros HU Hs Hin Hl Hts Hv Hg. unfold AppendGen. pose proof (labels_in_clash s l HU Hs Hin Hl) as Hnc. pose proof (U_wf HU l Hl) as Hwf.
  destruct (appendInternal_spec s now l (s_ts x) (s_val x) 0 (s_gen x) Hs Hwf Hnc Hts Hv) as (H1 & H2 & H3 & _).
  destruct H3 as (H3 & _); [right; lia|]. destruct (append_entries s now l (s_ts x) (s_val x) 0 (s_gen x) Hs Hwf Hnc Hts Hv) as (H4 & _ & H5).
  pose proof (labels_in_append s now l (s_ts x) (s_val x) 0 (s_gen x) Hl Hin Hnc) as H6. destruct (appendInternal _ _ _ _ _ _ _) as [res s']. cbn [fst snd] in *. subst res.
  exists s'. split_and!; try done. destruct (H5 eq_refl) as (rc & sg & He & Hx). exists rc, sg. split; [done|]. unfold assigned in Hx. destruct (Z.eqb_spec (s_gen x) 0); [lia|]. by destruct x.
Qed.
Lemma restore_spec clock rs s : universe -> store_wf s -> labels_in s -> Forall rec_ok rs ->
  let '(n, s') := restore_records clock s rs in
  n = length rs /\ store_wf s' /\ labels_in s' /\ st_nextGen s <= st_nextGen s' /\
  (forall l rc sg, entry s l rc sg -> exists rc', entry s' l rc' sg /\ samples_of rc.2 ⊆ samples_of rc'.2) /\
  (forall l x, U l -> record_of l x ∈ rs -> exists rc sg, entry s' l rc sg /\ x ∈ samples_of rc.2).
Proof.
  intros HU. revert s. induction rs as [|r rs IH]; intros s Hs Hin HF; cbn [restore_records].
  { split_and!; try done; [by eauto|]. by intros l x _ ?%elem_of_nil. }
  apply Forall_cons in HF as [(l & x & -> & Hl & Hts & Hv & Hg) HF]. cbn [record_of sample_record wr_labels wr_ts wr_val wr_gen]. rewrite pairs_map_labels, (U_stored HU) by done.
  destruct (restore_one s (clock (length rs)) l x HU Hs Hin Hl Hts Hv Hg) as (s1 & -> & Hs1 & Hin1 & Hn1 & Hkeep1 & (rc & sg & He & Hx)).
  specialize (IH s1 Hs1 Hin1 HF). destruct (restore_records clock s1 rs) as [n s']. destruct IH as (-> & Hs' & Hin' & Hn' & Hkeep & Hnew). split_and!; try done; [lia| |].
  - intros l' rc0 sg0 (rc1 & H1 & Hsub1)%Hkeep1. apply Hkeep in H1 as (rc2 & H2 & Hsub2). exists rc2. split; [done|]. by etrans.
  - intros l' x' Hl' [E|Hrest]%elem_of_cons; [|by apply Hnew]. apply record_of_inj in E as [-> ->]; [|done..]. apply Hkeep in He as (rc' & He' & Hsub). exists rc', sg. auto.
Qed.

Lemma fence_has s g l rc seg : store_wf s -> entry s l rc seg -> Forall (fun x => x = g) (head_segments (SetHeadFence s g)) /\ entry (SetHeadFence s g) l rc g.
Proof. intros Hs He. split; [apply fence_segments|by eapply fence_entries]. Qed.
Lemma OpenHeadStore_ok floor : store_wf (OpenHeadStore floor) /\ labels_in (OpenHeadStore floor) /\ floor <= st_nextGen (OpenHeadStore floor).
Proof.
  unfold OpenHeadStore. pose proof (step_wf NewMemoryStore (OpFloor floor) NewMemoryStore_wf I) as [Hs _]. cbn [store_step] in Hs. split_and!; [done| |].
  - unfold EnsureGenFloor. intros id ms. destruct (_ <? _); cbn; by rewrite lookup_empty.
  - unfold EnsureGenFloor. destruct (Z.ltb_spec (st_nextGen NewMemoryStore) floor); cbn in *; lia.
Qed.

(** A start over a log that went down: the records after the checkpoint are in the
    head, behind a fence that keeps their segments. *)
Lemma boot_spec clock segMax d idx hist ck flo flt o d' : universe -> log_down d idx hist -> ck < idx -> room d -> Forall (fun e => rec_ok e.2) hist ->
  boot clock segMax 1 d ck flo flt = (o, d') ->
  match o with
  | Ok (s, w) => exists idx', ck + 1 <= idx' /\ wal_holds d' idx' hist (length hist) /\ w = fresh_segment idx' (mkWAL segMax 1 NoFile idx' 0 0 false 0 0) /\
      store_wf s /\ labels_in s /\ Forall (fun g => g = ck + 1) (head_segments s) /\ flo <= st_nextGen s /\
      (forall k l x, (k, record_of l x) ∈ hist -> U l -> ck < k -> exists rc, entry s l rc (ck + 1) /\ x ∈ samples_of rc.2)
  | Err _ => flt <> NoFault /\ exists idx', log_down d' idx' hist /\ ck < idx'
  end.
Proof.
  intros HU Hdown Hck Hroom Hrecs. destruct (replay_log_down d idx hist ck Hdown Hck) as (lo & segs & HF & Hf & Hlo1 & Hd & Hr & Hc & Hrep).
  unfold boot, replayMetricsWAL. rewrite Hrep. set (rs := (filter _ hist).*2).
  assert (Hrs : Forall rec_ok rs) by (apply Forall_fmap, Forall_forall; intros e [_ He]%list_elem_of_filter; rewrite Forall_forall in Hrecs; by apply Hrecs). destruct (OpenHeadStore_ok flo) as (H1 & H2 & H3).
  pose proof (restore_spec clock rs _ HU H1 H2 Hrs) as Hspec. destruct (restore_records clock (OpenHeadStore flo) rs) as [n s]. destruct Hspec as (_ & Hs & Hin & Hn & _ & Hnew).
  assert (Hroom' : lo + Z.of_nat (length segs) + 1 <= 1000000).
  { destruct Hf as [Hlo Hb]. destruct segs as [|s0 segs0] eqn:Es; [rewrite Hlo1 by done; cbn; lia|]. rewrite <- Es in *. assert (Hl : (1 <= length segs)%nat) by (subst segs; cbn; lia).
    enough (lo + Z.of_nat (length segs - 1) + 2 <= 1000000) by lia. apply Hroom; [unfold MaxInt64; lia|]. apply Hd, seg_names_lookup. exists (length segs - 1)%nat. split; [lia|done]. }
  destruct (Open (layout lo segs) segMax 1 flt) as [o1 d1] eqn:Eo. pose proof (Open_effect wal_ok 1000000 lo segs segMax 1 flt o1 d1 HF Hf Hroom' Hlo1 Eo) as Hop. rewrite Hr in Hop.
  destruct o1 as [w|e]; intros [= <- <-].
  - destruct Hop as [Hh Hw]. exists (lo + Z.of_nat (length segs)). split_and!; [destruct Hf; lia|done|done| | |apply fence_segments|exact (Z.le_trans _ _ _ H3 Hn)|].
    + by apply SetHeadFence_wf.
    + by eapply (labels_in_step s (OpFence (ck + 1))).
    + intros k l x Hin' Hl Hk. destruct (Hnew l x Hl) as (rc & sg & He & Hx).
      { apply list_elem_of_fmap. exists (k, record_of l x). split; [done|]. by apply list_elem_of_filter. }
      exists rc. split; [by eapply fence_entries|done].
  - destruct Hop as (Hflt & segs' & Hsegs & -> & Hf'). split; [done|].
    assert (Hs' : Forall whole segs' /\ (segs' = [] -> lo = 1) /\ recs lo segs' = hist /\ (length segs <= length segs')%nat).
    { destruct Hsegs as [->| ->]; [done|]. rewrite recs_empty, length_app. split_and!; [|by destruct segs|done|lia]. apply Forall_app. split; [done|]. by apply Forall_singleton. }
    destruct Hs' as (HF' & Hlo' & Hr' & Hlen). pose proof (layout_log_down lo segs' HF' Hf' Hlo') as Hld. rewrite Hr' in Hld. eexists. split; [exact Hld|lia].
Qed.

(** ** The invariant of a running ingester *)

Definition chunk_held (s : MemoryStore) (gens : Z) (e : Z * Labels * (Z * Chunk)) : Prop :=
  MemStore.holds s e.1.1 e.1.2 e.2 /\ Chunk.sealed e.2.2 = true /\ Forall (fun x => s_gen x < gens) (samples_of e.2.2).
(** A chunk to send is still in the head, once, and older than the floor. *)
Definition chunk_refs (es : list (Z * Labels * (Z * Chunk))) : list Z := (fun e => e.2.1) <$> es.
Definition flush_ok (s : MemoryStore) (floor : Z) (fl : option flushing) : Prop :=
  match fl with
  | Some (Flooring snap) => NoDup (sc_ID <$> snap) /\ NoDup (chunk_refs (flat snap)) /\ Forall (chunk_held s (st_nextGen s)) (flat snap)
  | Some (Sending bs) => NoDup (chunk_refs (bs ≫= flat)) /\ Forall (chunk_held s floor) (bs ≫= flat)
  | _ => True
  end.
(** In the head behind a fence no later than its log record, which is synced and in
    no segment a checkpoint covers. *)
Definition safe (s : MemoryStore) (hist : list (Z * walRecord)) (u : nat) (bs : list Z) (e : Labels * sample) : Prop :=
  exists rc seg i k, entry s e.1 rc seg /\ e.2 ∈ samples_of rc.2 /\ hist !! i = Some (k, record_of e.1 e.2) /\ (i < u)%nat /\ seg <= k /\
    Forall (fun c => c < k) bs /\ U e.1.
Definition boundary (p : ckpt_phase) : option Z := match p with Bounding => None | Publishing c | Deleting c => Some c end.
Definition bounds (ck : Z) (ts : list ckpt_phase) : list Z := ck :: omap boundary ts.

Record live s w d fl bs floor sh ac idx hist u : Prop := {
  lv_log : wal_holds d idx hist u;
  lv_tracks : tracks w idx;
  lv_writer : 1 <= segIndex w /\ syncEveryN w = 1 /\ 0 <= sinceSynced w;
  lv_recs : Forall (fun e => rec_ok e.2) hist;
  lv_wf : store_wf s;
  lv_labels : labels_in s;
  lv_segs : Forall (fun g => 1 <= g <= idx) (head_segments s);
  lv_bounds : Forall (fun c => 0 <= c < idx) bs;
  lv_acked : Forall (fun e => e ∈ sh \/ safe s hist u bs e) ac;
  lv_flush : flush_ok s floor fl;
  lv_floor : floor <= st_nextGen s;
  lv_shipped : Forall (fun e => s_gen e.2 < floor) sh }.

Lemma chunk_held_mono s s' g g' e : (forall id l rc, MemStore.holds s id l rc -> Chunk.sealed rc.2 = true -> MemStore.holds s' id l rc) -> g <= g' -> chunk_held s g e -> chunk_held s' g' e.
Proof. intros Hk Hg (H1 & H2 & H3). split_and!; [by apply Hk|done|]. eapply Forall_impl; [exact H3|]. cbn. lia. Qed.
Lemma flush_ok_mono s s' floor fl : (forall id l rc, MemStore.holds s id l rc -> Chunk.sealed rc.2 = true -> MemStore.holds s' id l rc) -> st_nextGen s <= st_nextGen s' ->
  flush_ok s floor fl -> flush_ok s' floor fl.
Proof.
  intros Hk Hg. destruct fl as [[snap|bs|ids]|]; [intros (H1 & H2 & H3)|intros (H2 & H3)|done|done].
  - split_and!; [done..|]. eapply Forall_impl; [exact H3|]. intros e. by apply chunk_held_mono.
  - split; [done|]. eapply Forall_impl; [exact H3|]. intros e. by apply chunk_held_mono.
Qed.
Lemma safe_mono s s' hist hist' u u' bs bs' e :
  (forall rc sg, entry s e.1 rc sg -> exists rc', entry s' e.1 rc' sg /\ samples_of rc.2 ⊆ samples_of rc'.2) ->
  hist `prefix_of` hist' -> (u <= u')%nat -> (forall c', c' ∈ bs' -> exists c, c ∈ bs /\ c' <= c) -> safe s hist u bs e -> safe s' hist' u' bs' e.
Proof.
  intros He Hp Hu Hb (rc & seg & i & k & H1 & H2 & H3 & H4 & H5 & H6 & H7). apply He in H1 as (rc' & H1 & Hsub). exists rc', seg, i, k.
  split_and!; [done|by apply Hsub|by eapply prefix_lookup_Some|lia|done| |done]. apply Forall_forall. intros c' (c & Hc & Hle)%Hb. rewrite Forall_forall in H6. specialize (H6 c Hc). cbn in H6. lia.
Qed.
Lemma entry_refl s l : forall rc sg, entry s l rc sg -> exists rc', entry s l rc' sg /\ samples_of rc.2 ⊆ samples_of rc'.2.
Proof. intros rc sg He. by exists rc. Qed.
Lemma bounds_refl (bs : list Z) : forall c', c' ∈ bs -> exists c, c ∈ bs /\ c' <= c.
Proof. intros c' Hc. exists c'. split; [done|lia]. Qed.
Lemma safe_head s s' hist u bs e : (forall rc sg, entry s e.1 rc sg -> exists rc', entry s' e.1 rc' sg /\ samples_of rc.2 ⊆ samples_of rc'.2) ->
  safe s hist u bs e -> safe s' hist u bs e.
Proof. intros He. apply safe_mono; [done..|apply bounds_refl]. Qed.

(** Fewer or smaller boundaries. *)
Lemma live_bounds s w d fl bs bs' floor sh ac idx hist u : live s w d fl bs floor sh ac idx hist u ->
  (forall c', c' ∈ bs' -> 0 <= c' /\ exists c, c ∈ bs /\ c' <= c) -> live s w d fl bs' floor sh ac idx hist u.
Proof.
  intros [] Hb. split; try done.
  - apply Forall_forall. intros c' (H0 & c & Hc & Hle)%Hb. rewrite Forall_forall in lv_bounds0. specialize (lv_bounds0 c Hc). cbn in *. lia.
  - eapply Forall_impl; [exact lv_acked0|]. intros e [?|Hs]; [by left|right]. eapply safe_mono; [apply entry_refl|done|done| |exact Hs]. intros c' Hc. by apply Hb in Hc as [_ ?].
Qed.
Lemma live_bounds_sub s w d fl bs bs' floor sh ac idx hist u : live s w d fl bs floor sh ac idx hist u -> bs' ⊆ bs -> live s w d fl bs' floor sh ac idx hist u.
Proof.
  intros HL Hsub. apply (live_bounds _ _ _ _ bs); [done|]. intros c Hc%Hsub. pose proof (lv_bounds _ _ _ _ _ _ _ _ _ _ _ HL) as HB. rewrite Forall_forall in HB.
  specialize (HB c Hc). cbn in HB. split; [lia|]. by apply bounds_refl.
Qed.

(** An operation of the head that drops no sample. *)
Lemma live_head s s' w d fl bs floor sh ac idx hist u : live s w d fl bs floor sh ac idx hist u ->
  store_wf s' -> labels_in s' -> st_nextGen s <= st_nextGen s' -> head_segments s' ⊆ head_segments s ->
  (forall l rc sg, entry s l rc sg -> exists rc', entry s' l rc' sg /\ samples_of rc.2 ⊆ samples_of rc'.2) ->
  (forall id l rc, MemStore.holds s id l rc -> Chunk.sealed rc.2 = true -> MemStore.holds s' id l rc) -> live s' w d fl bs floor sh ac idx hist u.
Proof.
  intros [] Hs Hl Hn Hseg He Hk. split; try done.
  - apply Forall_forall. intros g Hg%Hseg. rewrite Forall_forall in lv_segs0. by apply lv_segs0.
  - eapply Forall_impl; [exact lv_acked0|]. intros e [?|Hsf]; [by left|right]. eapply safe_head; [intros; by apply He|exact Hsf].
  - by eapply flush_ok_mono.
  - lia.
Qed.
Lemma live_flush s w d fl fl' bs floor floor' sh ac idx hist u : live s w d fl bs floor sh ac idx hist u -> floor <= floor' <= st_nextGen s -> flush_ok s floor' fl' ->
  live s w d fl' bs floor' sh ac idx hist u.
Proof. intros [] Hf Hfl. split; try done; [lia|]. eapply Forall_impl; [exact lv_shipped0|]. cbn. lia. Qed.

(** *** Flushing *)

Lemma elem_of_flat b id l rc : (id, l, rc) ∈ flat b <-> exists sc, sc ∈ b /\ sc_ID sc = id /\ sc_Labels sc = l /\ rc ∈ sc_Chunks sc.
Proof.
  unfold flat. rewrite list_elem_of_bind. split.
  - intros (sc & (rc' & [= -> -> ->] & Hrc)%list_elem_of_fmap & Hsc). by exists sc.
  - intros (sc & Hsc & <- & <- & Hrc). exists sc. split; [|done]. by apply list_elem_of_fmap_2.
Qed.
Lemma snapshot_held s : store_wf s -> Forall (chunk_held s (st_nextGen s)) (flat (SealedChunksSnapshot s)).
Proof.
  intros Hs. apply Forall_forall. intros [[id l] rc] (sc & Hsc & <- & <- & Hrc)%elem_of_flat. destruct (snapshot_holds s sc rc Hsc Hrc) as [Hh Hsl]. split_and!; [done..|].
  destruct Hh as (ms & E & _ & Hin). pose proof (sw_gens _ _ _ (st_series_wf s Hs _ _ E)) as Hg. apply Forall_forall. intros x Hx. rewrite Forall_forall in Hg. apply Hg.
  apply list_elem_of_bind. by exists rc.
Qed.
Lemma snapshot_refs_NoDup s : store_wf s -> NoDup (chunk_refs (flat (SealedChunksSnapshot s))).
Proof.
  intros Hs. assert (E : chunk_refs (flat (SealedChunksSnapshot s)) = SealedChunksSnapshot s ≫= fun sc => (sc_Chunks sc).*1).
  { unfold chunk_refs, flat. induction (SealedChunksSnapshot s) as [|sc b IH]; [done|]. cbn [mbind list_bind] in *. by rewrite fmap_app, <- list_fmap_compose, IH. }
  rewrite E. apply NoDup_bind.
  - intros sc1 sc2 r H1 H2 (rc1 & -> & R1)%list_elem_of_fmap (rc2 & Er & R2)%list_elem_of_fmap. destruct (snapshot_holds s sc1 rc1 H1 R1) as [P1 _]. destruct (snapshot_holds s sc2 rc2 H2 R2) as [P2 _].
    destruct (holds_ref _ _ _ _ _ _ _ Hs P1 P2 Er) as (Hid & _ & _). apply list_elem_of_lookup in H1 as [i H1]. apply list_elem_of_lookup in H2 as [j H2].
    assert (i = j) as ->; [|congruence]. eapply NoDup_lookup; [apply (snapshot_NoDup s)| |]; rewrite list_lookup_fmap; [by rewrite H1|by rewrite H2, Hid].
  - intros sc (ms & Em & _ & Hc & _)%elem_of_snapshot. rewrite Hc. eapply sublist_NoDup; [apply (sw_refs _ _ _ (st_series_wf s Hs _ _ Em))|].
    clear. induction (ms_chunks ms) as [|rc l IH]; [constructor|]. rewrite filter_cons. destruct (decide _); cbn; by constructor.
  - eapply NoDup_fmap_1, snapshot_NoDup.
Qed.
Lemma live_snapshot s w d bs floor sh ac idx hist u : live s w d None bs floor sh ac idx hist u -> live s w d (Some (Flooring (SealedChunksSnapshot s))) bs floor sh ac idx hist u.
Proof.
  intros HL. eapply live_flush; [exact HL|pose proof (lv_floor _ _ _ _ _ _ _ _ _ _ _ HL); lia|]. pose proof (lv_wf _ _ _ _ _ _ _ _ _ _ _ HL) as Hs.
  split_and!; [apply snapshot_NoDup|by apply snapshot_refs_NoDup|by apply snapshot_held].
Qed.
Lemma live_floored s w d snap bs floor sh ac idx hist u : live s w d (Some (Flooring snap)) bs floor sh ac idx hist u ->
  live s w d (Some (Sending (BatchSeriesChunks snap batchBytes))) bs (NextGeneration s) sh ac idx hist u.
Proof.
  intros HL. pose proof (lv_flush _ _ _ _ _ _ _ _ _ _ _ HL) as (H1 & H2 & H3). eapply live_flush; [exact HL|pose proof (lv_floor _ _ _ _ _ _ _ _ _ _ _ HL); unfold NextGeneration; lia|].
  destruct (flush_batches snap batchBytes H1) as [E _]. cbn [flush_ok]. by rewrite E.
Qed.

Lemma holds_entry s l rc seg : entry s l rc seg -> exists id, MemStore.holds s id l rc.
Proof. intros (id & ms & E & El & Hin). exists id, ms. split_and!; [done..|]. apply list_elem_of_In in Hin. apply list_elem_of_In. by eapply in_combine_l. Qed.
Lemma batch_samples_elem b id l rc x : (id, l, rc) ∈ flat b -> x ∈ samples_of rc.2 -> (l, x) ∈ batch_samples b.
Proof.
  intros (sc & Hsc & <- & <- & Hrc)%elem_of_flat Hx. apply list_elem_of_bind. exists sc. split; [|done]. apply list_elem_of_bind. exists rc. split; [|done]. by apply list_elem_of_fmap_2.
Qed.
Lemma batch_samples_from b l x : (l, x) ∈ batch_samples b -> exists id rc, (id, l, rc) ∈ flat b /\ x ∈ samples_of rc.2.
Proof.
  intros (sc & (rc & (y & [= -> ->] & Hx)%list_elem_of_fmap & Hrc)%list_elem_of_bind & Hsc)%list_elem_of_bind. exists (sc_ID sc), rc. split; [|done]. apply elem_of_flat. by exists sc.
Qed.
Lemma refs_flat b r : r ∈ snapshot_refs b <-> r ∈ chunk_refs (flat b).
Proof.
  rewrite elem_of_refs. unfold chunk_refs. rewrite list_elem_of_fmap. split.
  - intros (sc & rc & Hsc & Hrc & <-). exists (sc_ID sc, sc_Labels sc, rc). split; [done|]. apply elem_of_flat. by exists sc.
  - intros ([[id l] rc] & -> & (sc & Hsc & _ & _ & Hrc)%elem_of_flat). by exists sc, rc.
Qed.
Lemma discard_holds s snap id l rc : store_wf s -> MemStore.holds s id l rc -> rc.1 ∉ snapshot_refs snap -> MemStore.holds (DiscardSealedChunks s snap) id l rc.
Proof.
  intros Hs (ms & E & El & Hin) Hr. destruct (DiscardSealedChunks_spec s snap Hs) as (_ & Hser & _). exists (keep_chunks (snapshot_refs snap) ms).
  rewrite Hser, lookup_fmap, E. split_and!; [done..|]. cbn [keep_chunks ms_chunks]. pose proof (sw_segs _ _ _ (st_series_wf s Hs _ _ E)) as Hlen.
  rewrite <- (combine_fst (ms_chunks ms) (ms_segs ms)) in Hin by done. apply list_elem_of_fmap in Hin as ([rc' sg] & -> & Hin). apply list_elem_of_fmap. exists (rc', sg). split; [done|].
  by apply list_elem_of_filter.
Qed.
(** A batch the store has: its samples leave the head, all of them shipped. *)
Lemma live_send s w d b bs cks floor sh ac idx hist u : universe -> live s w d (Some (Sending (b :: bs))) cks floor sh ac idx hist u ->
  live (DiscardSealedChunks s b) w d (Some (Sending bs)) cks floor (sh ++ batch_samples b) ac idx hist u.
Proof.
  intros HU []. destruct lv_flush0 as [Hnd Hheld]. change ((b :: bs) ≫= flat) with (flat b ++ (bs ≫= flat)) in *. unfold chunk_refs in Hnd. rewrite fmap_app in Hnd.
  apply NoDup_app in Hnd as (_ & Hdis & Hnd). apply Forall_app in Hheld as [Hb Hbs]. destruct (DiscardSealedChunks_spec s b lv_wf0) as (Hs' & Hser & Hn). split; try done.
  - by eapply (labels_in_step s (OpDiscard b)).
  - apply Forall_forall. intros g Hg%entry_segment; [|done]. destruct Hg as (l & rc & [He _]%discard_entries); [|done]. rewrite Forall_forall in lv_segs0. apply lv_segs0, entry_segment; eauto.
  - eapply Forall_impl; [exact lv_acked0|]. intros [l x] [Hsh|Hsf]; [left; apply elem_of_app; by left|]. destruct Hsf as (rc & seg & i & k & He & Hx & Hrest). cbn [fst snd] in *.
    destruct (decide (rc.1 ∈ snapshot_refs b)) as [Hr|Hr]; [left|right].
    + apply elem_of_app. right. apply refs_flat in Hr. apply list_elem_of_fmap in Hr as ([[id' l'] rc'] & Er & Hin). pose proof (proj1 (Forall_forall _ _) Hb _ Hin) as (Hh' & _). cbn in Er, Hh'.
      destruct (holds_entry _ _ _ _ He) as [id Hh]. destruct (holds_ref _ _ _ _ _ _ _ lv_wf0 Hh Hh' Er) as (-> & -> & ->). by eapply batch_samples_elem.
    + exists rc, seg, i, k. split; [by apply discard_entries|done].
  - split; [exact Hnd|]. rewrite Forall_forall in Hbs |- *. intros [[id l] rc] Hin. destruct (Hbs _ Hin) as (H1 & H2 & H3). split_and!; [|done..]. cbn [fst snd] in *.
    apply discard_holds; [done..|]. intros Hr%refs_flat. apply (Hdis _ Hr). apply list_elem_of_fmap. by exists (id, l, rc).
  - by rewrite Hn.
  - apply Forall_app. split; [done|]. apply Forall_forall. intros [l x] (id & rc & Hin & Hx)%batch_samples_from. rewrite Forall_forall in Hb. destruct (Hb _ Hin) as (_ & _ & Hg). rewrite Forall_forall in Hg. by apply Hg.
Qed.

(** *** Checkpoints *)

Lemma live_safe_delete s w d fl bs floor sh ac idx hist u : live s w d fl bs floor sh ac idx hist u ->
  live s w d fl (safe_delete s w :: bs) floor sh ac idx hist u.
Proof.
  intros []. destruct lv_tracks0 as [Hti Hto]. assert (H0 : Forall (fun g => 0 <= g) (head_segments s)) by (eapply Forall_impl; [exact lv_segs0|]; cbn; lia).
  destruct (oldest_fold (head_segments s) (-1) H0 ltac:(lia)) as (H1 & H2 & _ & H4 & H5). rewrite <- OldestHeadSegment_fold in *.
  assert (Hc : 0 <= safe_delete s w < idx /\ forall l rc seg, entry s l rc seg -> safe_delete s w < seg).
  { unfold safe_delete, SegmentIndex. destruct (Z.ltb_spec (OldestHeadSegment s) 0) as [Hlt|Hge].
    - split; [lia|]. intros l rc seg He. pose proof (oldest_entry s l rc seg lv_wf0 H0 He). lia.
    - destruct H5 as [H5|H5]; [lia|]. rewrite Forall_forall in lv_segs0. specialize (lv_segs0 _ H5). cbn in lv_segs0. split; [lia|].
      intros l rc seg He. pose proof (oldest_entry s l rc seg lv_wf0 H0 He). lia. }
  destruct Hc as [Hc Hold]. split; try done; [by constructor|]. eapply Forall_impl; [exact lv_acked0|]. intros e [?|(rc & seg & i & k & He & Hx & Hh & Hi & Hk & Hb & HUe)]; [by left|right].
  exists rc, seg, i, k. split_and!; try done. constructor; [|done]. apply Hold in He. lia.
Qed.
Lemma live_delete s w d fl bs floor sh ac idx hist u c rm res d' : live s w d fl bs floor sh ac idx hist u -> c ∈ bs ->
  deleteWALSegmentsUpTo d c rm = (res, d') -> exists hist' u', live s w d' fl bs floor sh ac idx hist' u'.
Proof.
  intros [] Hc Hdel. pose proof (proj1 (Forall_forall _ _) lv_bounds0 c Hc) as Hci. destruct (delete_holds d idx hist u c rm res d' lv_log0 ltac:(cbn in Hci; lia) Hdel) as (j & Hj & Hju & Hh).
  exists (drop j hist), (u - j)%nat. split; try done; [by apply Forall_drop|]. eapply Forall_impl; [exact lv_acked0|]. intros e [?|(rc & seg & i & k & He & Hx & Hl & Hi & Hk & Hb & HUe)]; [by left|right].
  assert (Hji : (j <= i)%nat).
  { destruct (decide (j <= i)%nat); [done|]. exfalso. assert (Ht : take j hist !! i = Some (k, record_of e.1 e.2)) by (rewrite lookup_take_lt by lia; done).
    rewrite Forall_lookup in Hj. specialize (Hj _ _ Ht). rewrite Forall_forall in Hb. specialize (Hb c Hc). cbn in *. lia. }
  exists rc, seg, (i - j)%nat, k. split_and!; try done; [|lia]. rewrite lookup_drop. by replace (j + (i - j))%nat with i by lia.
Qed.

(** *** Appends *)

Lemma WriteRecord_open w d r flt res w' d' : WriteRecord (R := walRecord) w d r flt = (res, w', d') ->
  (reached_file res = true -> current w = OpenFile) /\ (segIndex w' = segIndex w \/ segIndex w' = i64 (segIndex w + 1)).
Proof.
  unfold WriteRecord. destruct (decide (current w = NoFile)); [intros [= <- <- <-]; by split; [|left]|]. destruct (broken w); [intros [= <- <- <-]; by split; [|left]|].
  destruct (validateLabels _); [intros [= <- <- <-]; by split; [|left]|]. destruct (decide (current w = ClosedFile)); [intros [= <- <- <-]; by split; [|left]|].
  intros E. split; [intros _; by destruct (current w)|]. revert E. destruct (short_write flt); [intros [= <- <- <-]; by auto|].
  unfold write_synced. set (w1 := count_written _ w).
  assert (Hrot : forall w2 d2, segIndex w2 = segIndex w -> rotate w2 d2 flt = (res, w', d') -> segIndex w' = segIndex w \/ segIndex w' = i64 (segIndex w + 1)).
  { intros w2 d2 E2. unfold rotate, openSegment. cbn [set_broken set_current count_rotation_sync segIndex]. rewrite E2. repeat (destruct (decide _); [intros [= <- <- <-]; cbn; rewrite ?E2; by auto|]).
    intros [= <- <- <-]. by right. }
  destruct (sync_due w1).
  - destruct (decide _); [intros [= <- <- <-]; by auto|]. destruct (_ <=? _); [by apply Hrot|intros [= <- <- <-]; by auto].
  - destruct (_ <=? _); [by apply Hrot|intros [= <- <- <-]; by auto].
Qed.

(** The head after a write to the log that may be longer and later. *)
Lemma live_written s w d fl bs floor sh ac idx hist u w' d' idx' hist' u' : live s w d fl bs floor sh ac idx hist u ->
  wal_holds d' idx' hist' u' -> tracks w' idx' -> 1 <= segIndex w' /\ syncEveryN w' = 1 /\ 0 <= sinceSynced w' -> Forall (fun e => rec_ok e.2) hist' ->
  hist `prefix_of` hist' -> (u <= u')%nat -> idx <= idx' -> live s w' d' fl bs floor sh ac idx' hist' u'.
Proof.
  intros [] Hh Ht Hw Hr Hp Hu Hi. split; try done.
  - eapply Forall_impl; [exact lv_segs0|]. cbn. lia.
  - eapply Forall_impl; [exact lv_bounds0|]. cbn. lia.
  - eapply Forall_impl; [exact lv_acked0|]. intros e [?|Hsf]; [by left|right]. eapply safe_mono; [apply entry_refl|done|done|apply bounds_refl|exact Hsf].
Qed.

Lemma live_appended s w d fl bs floor sh ac idx hist u now lbls t v gen seg r i k : universe -> live s w d fl bs floor sh ac idx hist u ->
  U lbls -> in_i64 t -> in_u64 v -> 1 <= gen <= MaxGeneration -> 1 <= seg <= k -> k <= idx -> Forall (fun g => g <= k) (head_segments s) -> Forall (fun c => c < k) bs -> hist !! i = Some (k, r) -> (i < u)%nat -> r = record_of lbls (mkSample t v gen) ->
  exists s', AppendTrackedGen s now lbls t v gen seg = (Ok tt, s') /\ live s' w d fl bs floor sh (ac ++ [(lbls, mkSample t v gen)]) idx hist u.
Proof.
  intros HU HL Hl Ht Hv Hg Hseg Hki Hsk Hbk Hi Hiu ->. pose proof HL as []. pose proof (labels_in_clash s lbls HU lv_wf0 lv_labels0 Hl) as Hnc. pose proof (U_wf HU lbls Hl) as Hwf.
  unfold AppendTrackedGen. destruct (appendInternal_spec s now lbls t v seg gen lv_wf0 Hwf Hnc Ht Hv) as (H1 & H2 & H3 & _). destruct H3 as (H3 & _); [right; lia|].
  destruct (append_entries s now lbls t v seg gen lv_wf0 Hwf Hnc Ht Hv) as (H4 & H5 & H6). pose proof (labels_in_append s now lbls t v seg gen Hl lv_labels0 Hnc) as H7.
  pose proof (fun id l rc => append_keeps s now lbls t v seg gen id l rc lv_wf0 Hwf Hnc) as H8. destruct (appendInternal s now lbls t v seg gen) as [res s']. cbn [fst snd] in *. subst res.
  exists s'. split; [done|]. assert (Hsegs : Forall (fun g => 1 <= g <= k) (head_segments s')).
  { apply Forall_forall. intros g (l & rc & He)%entry_segment; [|done]. apply H5 in He as [->|[rc' He]]; [done|]. rewrite Forall_forall in lv_segs0, Hsk. assert (Hin : g ∈ head_segments s) by (apply entry_segment; eauto).
    specialize (lv_segs0 g Hin). specialize (Hsk g Hin). cbn in *. lia. }
  split; try done; [eapply Forall_impl; [exact Hsegs|]; cbn; lia| |by eapply flush_ok_mono|lia]. apply Forall_app. split.
  - eapply Forall_impl; [exact lv_acked0|]. intros e [?|Hsf]; [by left|right]. eapply safe_head; [intros; by apply H4|exact Hsf].
  - apply Forall_singleton. right. destruct (H6 eq_refl) as (rc & sg & He & Hx). exists rc, sg, i, k. unfold assigned in Hx. destruct (Z.eqb_spec gen 0); [lia|]. split_and!; try done.
    rewrite Forall_forall in Hsegs. apply Hsegs, entry_segment; eauto.
Qed.

Definition ack (res : result ingestErr unit) (ac : list (Labels * sample)) (e : Labels * sample) : list (Labels * sample) :=
  match res with Ok _ => ac ++ [e] | Err _ => ac end.
Lemma live_logged s w d fl bs floor sh ac idx hist u now lbls t v gen flt res s' w' d' : universe -> live s w d fl bs floor sh ac idx hist u ->
  U lbls -> in_i64 t -> in_u64 v -> 1 <= gen <= MaxGeneration -> (forall k, flt <> FailWrite (S k)) -> segIndex w + 2 <= 1000000 -> sinceSynced w < MaxInt64 ->
  logged_append s w d now lbls t v gen flt = (res, s', w', d') ->
  exists idx' hist' u', live s' w' d' fl bs floor sh (ack res ac (lbls, mkSample t v gen)) idx' hist' u'.
Proof.
  intros HU HL Hl Ht Hv Hg Hflt Hroom Hsi. pose proof HL as []. unfold logged_append, SegmentIndex. set (r := sample_record lbls t v gen).
  destruct (WriteRecord w d r flt) as [[res1 w1] d1] eqn:Ew. destruct lv_writer0 as (Hw1 & Hw2 & Hw3). assert (Hok : wal_ok r).
  { split_and!; [done|done|]. cbn. unfold MaxGeneration in Hg. wsolve. }
  pose proof (WriteRecord_open _ _ _ _ _ _ _ Ew) as [Hopen Hidx]. pose proof (WriteRecord_effect wal_ok 1000000 w d idx hist u r flt res1 w1 d1 lv_log0 lv_tracks0 Hok Hflt Hroom (conj Hw3 Hsi) Ew) as Hout.
  destruct Hout as ((u' & idx' & Hh & Htr & Hu & Hi) & He & Hs & Hsync). set (hist' := if reached_file res1 then _ else _) in *.
  assert (Hp : hist `prefix_of` hist') by (subst hist'; destruct (reached_file res1); [by apply prefix_app_r|done]).
  assert (Hrec : rec_ok r) by (by exists lbls, (mkSample t v gen)).
  assert (HL1 : live s w1 d1 fl bs floor sh ac idx' hist' u').
  { eapply live_written; [exact HL|done..| | |done|done|done].
    - split_and!; [|lia|].
      + destruct Hidx as [->| ->]; [done|]. rewrite i64_id; [lia|unfold in_i64; lia].
      + destruct (reached_file res1); [destruct Hs as [->|[_ ->]]|rewrite Hs]; lia.
    - subst hist'. destruct (reached_file res1); [|done]. apply Forall_app. split; [done|]. by apply Forall_singleton. }
  destruct res1 as [[]|e]; [|intros [= <- <- <- <-]; by eauto].
  cbn [reached_file] in *. destruct (proj2 lv_tracks0 (Hopen eq_refl)) as [_ Hsg]. assert (Hu' : u' = length hist').
  { apply (holds_synced wal_ok 1000000 _ _ _ _ Hh). destruct (Hsync eq_refl ltac:(lia)) as [?|Hlt]; [done|]. destruct Hs as [Hs|[? _]]; [lia|done]. }
  destruct (live_appended s w1 d1 fl bs floor sh ac idx' hist' u' now lbls t v gen (segIndex w) r (length hist) (segIndex w)) as (s1 & -> & HL2); try done.
  - lia.
  - eapply Forall_impl; [exact lv_segs0|]. cbn. lia.
  - eapply Forall_impl; [exact lv_bounds0|]. cbn. lia.
  - subst hist'. by rewrite lookup_app_r, Nat.sub_diag by lia.
  - subst hist' u'. rewrite length_app. cbn. lia.
  - intros [= <- <- <- <-]. by eauto.
Qed.
Lemma live_append s w d fl bs floor sh ac idx hist u now lbls t v gen flt res s' w' d' : universe -> live s w d fl bs floor sh ac idx hist u ->
  U lbls -> in_i64 t -> in_u64 v -> (forall k, flt <> FailWrite (S k)) -> segIndex w + 2 <= 1000000 -> sinceSynced w < MaxInt64 ->
  AppendWithGeneration s w d now lbls t v gen flt = (res, s', w', d') ->
  exists idx' hist' u', live s' w' d' fl bs floor sh (ack res ac (lbls, mkSample t v (assigned s now gen))) idx' hist' u'.
Proof.
  intros HU HL Hl Ht Hv Hflt Hroom Hsi. pose proof (lv_wf _ _ _ _ _ _ _ _ _ _ _ HL) as Hs. unfold AppendWithGeneration, assigned. destruct (Z.eqb_spec gen 0) as [->|Hne].
  - unfold WALStore_Append, ReserveGeneration. destruct (nextGenerationLocked s now) as [[g s1]|e] eqn:Eg; [|intros [= <- <- <- <-]; by eauto].
    destruct (settle_wf s now 0 g s1 Hs Eg) as (Hs1 & Eser & _ & Hn & Hlt & HM & Hg0 & _). specialize (Hg0 eq_refl). pose proof (st_gen1 s Hs).
    rewrite <- Hg0. assert (HL1 : live s1 w d fl bs floor sh ac idx hist u); [|apply (live_logged s1 w d fl bs floor sh ac idx hist u); (done || lia)].
    eapply live_head; [exact HL|done| |done| | |].
    + intros id ms. rewrite Eser. apply (lv_labels _ _ _ _ _ _ _ _ _ _ _ HL).
    + unfold head_segments. by rewrite Eser.
    + intros l rc sg He. exists rc. split; [|done]. by apply (same_series_entry s).
    + intros id l rc (ms & Em & Hr) _. exists ms. by rewrite Eser.
  - destruct (_ || _)%bool eqn:Eb; [intros [= <- <- <- <-]; by eauto|]. apply orb_false_iff in Eb as [E1%Z.ltb_ge E2%Z.ltb_ge].
    apply (live_logged s w d fl bs floor sh ac idx hist u); (done || lia).
Qed.

(** *** Crashes and starts *)

Definition asleep (d : disk) (ck floor : Z) (sh ac : list (Labels * sample)) : Prop := exists idx hist,
  log_down d idx hist /\ 0 <= ck < idx /\ Forall (fun e => rec_ok e.2) hist /\ Forall (fun e => s_gen e.2 < floor) sh /\
  Forall (fun e => e ∈ sh \/ U e.1 /\ exists k, (k, record_of e.1 e.2) ∈ hist /\ ck < k) ac.
Definition inv (g : ingester) : Prop :=
  match g_up g with
  | Some (s, w) => exists idx hist u, live s w (g_disk g) (g_flush g) (bounds (g_ckpt g) (g_tails g)) (g_floor g) (g_shipped g) (g_acked g) idx hist u
  | None => asleep (g_disk g) (g_ckpt g) (g_floor g) (g_shipped g) (g_acked g)
  end.

Lemma crash_live s w d fl ck ts floor sh ac idx hist u d' ck' : live s w d fl (bounds ck ts) floor sh ac idx hist u ->
  crash d d' -> map_Forall (fun _ f => ~ prefix_tear wal_ok (f_data f)) d' -> 0 <= ck' <= ck -> asleep d' ck' floor sh ac.
Proof.
  intros [] Hc Hp Hck. apply Forall_cons in lv_bounds0 as [Hcki _]. destruct (crash_holds wal_ok 1000000 _ _ _ _ _ lv_log0 Hc Hp) as (lo & init & y & -> & Hf & HF & Hy & Hpre & Hu & ->).
  exists (lo + Z.of_nat (length init)), (recs lo (init ++ [y])). split_and!; [|lia|lia| |done|].
  - right. by exists lo, init, y.
  - destruct Hpre as [k Hk]. rewrite Hk in lv_recs0. by apply Forall_app in lv_recs0 as [? _].
  - eapply Forall_impl; [exact lv_acked0|]. intros e [?|(rc & seg & i & k & _ & _ & Hi & Hiu & _ & Hb & HUe)]; [by left|right]. split; [done|]. exists k.
    apply Forall_cons in Hb as [Hb _]. split; [|lia]. destruct Hpre as [tl Htl]. rewrite Htl, lookup_app_l in Hi by lia. by eapply list_elem_of_lookup_2.
Qed.
Lemma crash_asleep d ck floor sh ac d' ck' : asleep d ck floor sh ac -> crash d d' -> 0 <= ck' <= ck -> asleep d' ck' floor sh ac.
Proof.
  intros (idx & hist & Hd & Hck & Hr & Hsh & Hac) Hc Hck'. rewrite (crash_synced d d') by (done || by eapply log_down_synced). exists idx, hist. split_and!; try done; [lia|lia|].
  eapply Forall_impl; [exact Hac|]. intros e [?|(? & k & ? & ?)]; [by left|right]. split; [done|]. exists k. split; [done|lia].
Qed.
Lemma boot_live clock segMax d ck floor sh ac flt s w d' : universe -> asleep d ck floor sh ac -> room d -> boot clock segMax 1 d ck floor flt = (Ok (s, w), d') ->
  exists idx hist u, live s w d' None (bounds ck []) floor sh ac idx hist u.
Proof.
  intros HU (idx & hist & Hd & Hck & Hr & Hsh & Hac) Hroom Hb. destruct (boot_spec clock segMax d idx hist ck floor flt _ d' HU Hd ltac:(lia) Hroom Hr Hb) as (idx' & Hi & Hh & -> & Hs & Hl & Hseg & Hfl & Hhead).
  exists idx', hist, (length hist). split; try done; cbn [fresh_segment segIndex syncEveryN sinceSynced current broken].
  - split_and!; lia.
  - eapply Forall_impl; [exact Hseg|]. cbn. lia.
  - constructor; [lia|constructor].
  - eapply Forall_impl; [exact Hac|]. intros [l x] [?|(HUl & k & Hin & Hk)]; [by left|right]. cbn [fst snd] in *. destruct (Hhead k l x Hin HUl Hk) as (rc & He & Hx).
    apply list_elem_of_lookup in Hin as [i Hin]. exists rc, (ck + 1), i, k. split_and!; try done; [by eapply lookup_lt_Some|lia|by constructor].
Qed.
Lemma boot_asleep clock segMax d ck floor sh ac flt e d' : universe -> asleep d ck floor sh ac -> room d -> boot clock segMax 1 d ck floor flt = (Err e, d') ->
  flt <> NoFault /\ asleep d' ck floor sh ac.
Proof.
  intros HU (idx & hist & Hd & Hck & Hr & Hsh & Hac) Hroom Hb. destruct (boot_spec clock segMax d idx hist ck floor flt _ d' HU Hd ltac:(lia) Hroom Hr Hb) as (Hflt & idx' & Hd' & Hi).
  split; [done|]. exists idx', hist. split_and!; try done; lia.
Qed.

(** ** Every step *)

Lemma bounds_mid ck ts1 p ts2 : bounds ck (ts1 ++ p :: ts2) ⊆ bounds ck (ts1 ++ ts2) ++ option_list (boundary p) /\
  bounds ck (ts1 ++ ts2) ++ option_list (boundary p) ⊆ bounds ck (ts1 ++ p :: ts2).
Proof. unfold bounds. rewrite !omap_app. cbn [omap list_omap]. destruct (boundary p); cbn; split; set_solver. Qed.
Lemma live_tails s w d fl ck ts1 p ts2 ck' ts' floor sh ac idx hist u : live s w d fl (bounds ck (ts1 ++ p :: ts2)) floor sh ac idx hist u ->
  bounds ck' ts' ⊆ bounds ck (ts1 ++ ts2) ++ option_list (boundary p) -> live s w d fl (bounds ck' ts') floor sh ac idx hist u.
Proof. intros HL Hsub. eapply live_bounds_sub; [exact HL|]. etrans; [exact Hsub|]. apply bounds_mid. Qed.

Lemma live_op s w d fl bs floor sh ac idx hist u op : universe -> live s w d fl bs floor sh ac idx hist u -> op = OpSeal \/ (exists i, op = OpRemove i) ->
  live (store_step s op) w d fl bs floor sh ac idx hist u.
Proof.
  intros HU HL Hop. pose proof (lv_wf _ _ _ _ _ _ _ _ _ _ _ HL) as Hs. assert (Hok : op_ok s op /\ not_discard op) by (destruct Hop as [->|[i ->]]; done). destruct Hok as [Hok Hnd].
  destruct (step_wf s op Hs Hok) as [Hs' Hn]. eapply live_head; [exact HL|done| |done| | |].
  - apply labels_in_step; [done..|apply (lv_labels _ _ _ _ _ _ _ _ _ _ _ HL)|]. intros * ->. by destruct Hop as [|[? ?]].
  - destruct Hop as [->|[i ->]]; [apply seal_segments|]. intros g Hg%entry_segment; [|done]. destruct Hg as (l & rc & He%remove_entries); [|done]. apply entry_segment; eauto.
  - destruct Hop as [->|[i ->]]; intros l rc sg He.
    + destruct (seal_entries s l rc sg Hs He) as (rc' & He' & E). exists rc'. by rewrite E.
    + exists rc. split; [|done]. by apply remove_entries.
  - intros id l rc. by apply step_keeps.
Qed.

Lemma ingester_step_inv g g' : universe -> step spared g g' -> inv g -> inv g'.
Proof.
  intros HU Hst. destruct Hst; unfold inv; cbn [g_up g_disk g_flush g_ckpt g_tails g_floor g_shipped g_acked]; try intros (idx & hist & u & HL).
  - by eapply live_append in HL as (idx' & hist' & u' & HL'); [exists idx', hist', u'|..].
  - exists idx, hist, u. by apply (live_op _ _ _ _ _ _ _ _ _ _ _ OpSeal); [..|left].
  - exists idx, hist, u. by apply live_snapshot.
  - exists idx, hist, u. by eapply live_floored.
  - exists idx, hist, u. pose proof (lv_floor _ _ _ _ _ _ _ _ _ _ _ HL). eapply live_flush; [exact HL| |done]. unfold NextGeneration in *. lia.
  - exists idx, hist, u. by apply live_send.
  - exists idx, hist, u. pose proof (lv_floor _ _ _ _ _ _ _ _ _ _ _ HL). eapply live_flush; [exact HL|lia|done].
  - exists idx, hist, u. pose proof (lv_floor _ _ _ _ _ _ _ _ _ _ _ HL). eapply live_flush; [exact HL|lia|done].
  - exists idx, hist, u. apply (live_op _ _ _ _ _ _ _ _ _ _ _ (OpRemove i)) in HL; [|done|eauto]. cbn [store_step] in HL. pose proof (lv_floor _ _ _ _ _ _ _ _ _ _ _ HL). eapply live_flush; [exact HL|lia|done].
  - exists idx, hist, u. pose proof (lv_floor _ _ _ _ _ _ _ _ _ _ _ HL). eapply live_bounds_sub; [eapply live_flush; [exact HL|lia|done]|]. unfold bounds. rewrite omap_app, app_nil_r. done.
  - exists idx, hist, u. apply live_safe_delete in HL. eapply live_bounds_sub; [exact HL|]. destruct (bounds_mid ck ts1 (Publishing (safe_delete s w)) ts2) as [Hs _].
    destruct (bounds_mid ck ts1 Bounding ts2) as [_ Hb]. cbn in *. rewrite app_nil_r in Hb. set_solver.
  - exists idx, hist, u. eapply live_tails; [exact HL|]. destruct (bounds_mid ck ts1 (Deleting c) ts2) as [Hs _]. cbn [boundary option_list] in *. intros c' Hc.
    assert (c' = c \/ c' ∈ bounds ck (ts1 ++ Deleting c :: ts2)) as [->|Hc'%Hs] by (unfold bounds in *; rewrite !elem_of_cons in *; tauto); [|done]. apply elem_of_app. right. by left.
  - exists idx, hist, u. eapply live_bounds; [exact HL|]. destruct (bounds_mid ck ts1 (Publishing c) ts2) as [_ Hs]. cbn [boundary option_list] in *. pose proof (lv_bounds _ _ _ _ _ _ _ _ _ _ _ HL) as HB.
    rewrite Forall_forall in HB. intros c' [->|Hc]%elem_of_cons.
    + split; [lia|]. exists c. split; [|lia]. apply Hs, elem_of_app. right. by left.
    + assert (Hin : c' ∈ bounds ck (ts1 ++ Publishing c :: ts2)) by (apply Hs, elem_of_app; left; by right). specialize (HB _ Hin). cbn in HB. split; [lia|]. by apply bounds_refl.
  - done.
  - eapply live_delete in HL as (hist' & u' & HL); [| |done].
    + exists idx, hist', u'. eapply live_tails; [exact HL|]. apply list_subseteq_app_l. done.
    + destruct (bounds_mid ck ts1 (Deleting c) ts2) as [_ Hs]. apply Hs, elem_of_app. right. by left.
  - pose proof HL as []. destruct (Close_effect wal_ok 1000000 _ _ _ _ _ _ _ _ _ lv_log0 lv_tracks0 H) as (u' & Hh & Hu & Ht & Hsi). exists idx, hist, u'.
    eapply live_written; [exact HL|done..| |done|done|done|lia]. assert (segIndex w' = segIndex w /\ syncEveryN w' = syncEveryN w) as [-> ->]; [|by rewrite Hsi].
    unfold Close in H. destruct (current w); [by simplify_eq| |]; repeat case_match; by simplify_eq.
  - assert (Hp : map_Forall (fun _ f => ~ prefix_tear wal_ok (f_data f)) d') by (apply not_torn; unfold spared in *; tauto). destruct o as [[s w]|]; [intros (idx & hist & u & HL); by eapply crash_live|]. intros Ha. by eapply crash_asleep.
  - assert (Hall : all_synced d) by (destruct (decide (all_synced d)); unfold spared in *; tauto). pose proof (crash_refl d Hall) as Hcr. destruct o as [[s w]|]; [|done]. intros (idx & hist & u & HL).
    pose proof (lv_bounds _ _ _ _ _ _ _ _ _ _ _ HL) as HB. unfold bounds in HB. apply Forall_cons in HB as [HB _]. eapply crash_live; [exact HL|exact Hcr| |lia]. apply not_torn. exact (holds_not_torn wal_ok 1000000 _ _ _ _ (lv_log _ _ _ _ _ _ _ _ _ _ _ HL)).
  - assert (Ha : asleep d ck flo sh ac) by (by exists idx, hist). destruct o as [[s w]|e]; [by eapply boot_live|]. by eapply boot_asleep.
Qed.
Lemma ingester_inv g : universe -> reachable spared g -> inv g.
Proof.
  intros HU Hr. assert (H0 : inv fresh) by (exists 1, []; split_and!; [by left|done|done|constructor..]).
  revert H0. unfold reachable in Hr. revert Hr. generalize fresh. intros g0 Hr0. induction Hr0 as [|g1 g2 g3 Hs _ IH]; [done|]. intros Hi. apply IH. by eapply ingester_step_inv.
Qed.

(** ** What the invariant gives *)

(** C1. No acknowledged sample is lost in a run that is spared four hazards: no
    append to the log cut short after some of its bytes, no crash that leaves just
    the length prefix of a record, no process that dies on a running machine with
    unsynced bytes in its log, no two flushes that write the checkpoint file at once
    (the code survives none of the four: [hazards_lose_samples] and
    [overlapping_checkpoints] below). However appends, seals, flushes, store failures,
    checkpoints, deletions of log segments, log failures, machine crashes, processes
    killed and starts follow one another otherwise, an acknowledged sample has been
    acknowledged by the store, or it is in the head and a query can read it; and
    while the ingester is down its next start that the operating system does not fail
    succeeds and brings the sample back into the head. *)
Theorem no_acknowledged_sample_lost g l x : universe -> reachable spared g -> (l, x) ∈ g_acked g ->
  (l, x) ∈ g_shipped g \/
  match g_up g with
  | Some (s, _) => exists ws, store_db s l = Some ws /\ x ∈ ws
  | None => room (g_disk g) -> forall clock segMax, exists s w d', boot clock segMax 1 (g_disk g) (g_ckpt g) (g_floor g) NoFault = (Ok (s, w), d') /\
      exists ws, store_db s l = Some ws /\ x ∈ ws
  end.
Proof.
  intros HU Hr Hin. assert (Hhead : forall s w d fl bs floor sh ac idx hist u, live s w d fl bs floor sh ac idx hist u -> (l, x) ∈ ac -> (l, x) ∈ sh \/ exists ws, store_db s l = Some ws /\ x ∈ ws).
  { intros * [] Ha. rewrite Forall_forall in lv_acked0. destruct (lv_acked0 _ Ha) as [?|(rc & seg & i & k & He & Hx & _)]; [by left|right]. by eapply entry_sample. }
  pose proof (ingester_inv g HU Hr) as Hi. unfold inv in Hi. destruct (g_up g) as [[s w]|]; [destruct Hi as (idx & hist & u & HL); by eapply Hhead|].
  destruct Hi as (idx & hist & Hd & Hck & Hrec & _ & Hac). rewrite Forall_forall in Hac. destruct (Hac _ Hin) as [?|Hrest]; [by left|right]. intros Hroom clock segMax.
  (* only this sample matters from here *)
  assert (Hone : asleep (g_disk g) (g_ckpt g) (g_floor g) [] [(l, x)]).
  { exists idx, hist. split_and!; [done|lia|lia|done|constructor|]. apply Forall_singleton. by right. }
  destruct (boot clock segMax 1 (g_disk g) (g_ckpt g) (g_floor g) NoFault) as [[[s w]|e] d'] eqn:Eb; [|by destruct (boot_asleep _ _ _ _ _ _ _ _ _ _ HU Hone Hroom Eb)].
  exists s, w, d'. split; [done|]. destruct (boot_live _ _ _ _ _ _ _ _ _ _ _ HU Hone Hroom Eb) as (idx' & hist' & u & HL).
  destruct (Hhead _ _ _ _ _ _ _ _ _ _ _ HL) as [?%elem_of_nil|?]; [by left|done..].
Qed.

(** C29. Generations survive restarts. The next write the ingester stamps itself
    outranks every sample it acknowledged before, across crashes, starts and flushes
    to a store whose blocks it cannot see, in a run spared the hazards. *)
Theorem generations_survive_restarts g s w l x now : universe -> reachable spared g -> g_up g = Some (s, w) -> (l, x) ∈ g_acked g ->
  s_gen x < assigned s now 0.
Proof.
  intros HU Hr Hup Hin. pose proof (ingester_inv g HU Hr) as Hi. unfold inv in Hi. rewrite Hup in Hi. destruct Hi as (idx & hist & u & []).
  assert (Hlt : s_gen x < st_nextGen s); [|unfold assigned; cbn; lia]. rewrite Forall_forall in lv_acked0, lv_shipped0.
  destruct (lv_acked0 _ Hin) as [Hsh|(rc & seg & i & k & (id & ms & E & _ & Hc) & Hx & _)]; [specialize (lv_shipped0 _ Hsh); cbn in *; lia|].
  pose proof (sw_gens _ _ _ (st_series_wf s lv_wf0 _ _ E)) as Hg. rewrite Forall_forall in Hg. apply Hg. apply list_elem_of_bind. exists rc. split; [done|].
  apply list_elem_of_In in Hc. apply list_elem_of_In. by eapply in_combine_l.
Qed.

(** C30. A drain that succeeds has shipped everything: when [Drain] finds the head
    empty, the store has acknowledged every sample the ingester ever acknowledged,
    in this life and all earlier ones, so its volume can be thrown away; in a run
    spared the hazards. *)
Theorem drained_ingester_shipped_all g s w : universe -> reachable spared g -> g_up g = Some (s, w) -> drained s = true ->
  g_acked g ⊆ g_shipped g.
Proof.
  intros HU Hr Hup Hd [l x] Hin. pose proof (ingester_inv g HU Hr) as Hi. unfold inv in Hi. rewrite Hup in Hi. destruct Hi as (idx & hist & u & []).
  rewrite Forall_forall in lv_acked0. destruct (lv_acked0 _ Hin) as [?|(rc & seg & i & k & He & _)]; [done|]. exfalso.
  assert (H0 : Forall (fun g => 0 <= g) (head_segments s)) by (eapply Forall_impl; [exact lv_segs0|]; cbn; lia).
  pose proof (oldest_entry s l rc seg lv_wf0 H0 He). unfold drained in Hd. apply Z.ltb_lt in Hd. lia.
Qed.
End ingester.

(** ** A life of an ingester *)

Definition demo_U (l : Labels) : Prop := l = demo_up.
Definition demo_boot : result walErr (MemoryStore * WAL) * disk := boot (fun _ => 0) 1000 1 ∅ 0 1 NoFault.
Definition up_of (o : result walErr (MemoryStore * WAL)) : MemoryStore * WAL := match o with Ok sw => sw | Err _ => (NewMemoryStore, mkWAL 0 0 NoFile 0 0 0 true 0 0) end.
Definition demo_up0 : MemoryStore * WAL := up_of demo_boot.1.
Definition demo_append : result ingestErr unit * MemoryStore * WAL * disk := AppendWithGeneration demo_up0.1 demo_up0.2 demo_boot.2 100 demo_up 5 7 0 NoFault.
Definition demo_head : MemoryStore := demo_append.1.1.2.
Definition demo_writer : WAL := demo_append.1.2.
Definition demo_wal : disk := demo_append.2.
Definition demo_sample : sample := mkSample 5 7 100.
Definition demo_sealed : MemoryStore := (SealHeadChunks demo_head).2.
Definition demo_batches : list (list SeriesChunks) := BatchSeriesChunks (SealedChunksSnapshot demo_sealed) DefaultFlushBatchBytes.
Definition demo_batch : list SeriesChunks := default [] (head demo_batches).
Definition demo_flushed : MemoryStore := DiscardSealedChunks demo_sealed demo_batch.
Definition demo_batchBytes : Z := DefaultFlushBatchBytes.

Lemma demo_universe : universe demo_U.
Proof. split; unfold demo_U; [intros l ->; apply build_wf|intros l ->; vm_compute; reflexivity|by intros l l' -> ->]. Qed.
Definition ing0 : ingester := mkIng (Some demo_up0) None [] demo_boot.2 0 1 [] [].
Definition ing1 : ingester := mkIng (Some (demo_head, demo_writer)) None [] demo_wal 0 1 [] [(demo_up, demo_sample)].
Definition ing_down : ingester := mkIng None None [] demo_wal 0 1 [] [(demo_up, demo_sample)].
Definition ing2 : ingester := mkIng (Some (demo_flushed, demo_writer)) (Some (Sending [])) [] demo_wal 0 101 [(demo_up, demo_sample)] [(demo_up, demo_sample)].

Lemma demo_boot_step exposed : step demo_U demo_batchBytes exposed fresh ing0.
Proof.
  apply (step_boot demo_U demo_batchBytes exposed ∅ 0 1 [] [] (fun _ => 0) 1000 NoFault (Ok demo_up0) demo_boot.2); [|vm_compute; reflexivity].
  intros i _ [f Hf]. by rewrite lookup_empty in Hf.
Qed.
Lemma demo_append_eq : AppendWithGeneration demo_up0.1 demo_up0.2 demo_boot.2 100 demo_up 5 7 0 NoFault = (Ok tt, demo_head, demo_writer, demo_wal).
Proof. vm_compute. reflexivity. Qed.
Lemma demo_assigned : mkSample 5 7 (assigned demo_up0.1 100 0) = demo_sample.
Proof. vm_compute. reflexivity. Qed.
Lemma demo_append_step : step demo_U demo_batchBytes spared ing0 ing1.
Proof.
  pose proof (step_append demo_U demo_batchBytes spared demo_up0.1 demo_up0.2 None [] demo_boot.2 0 1 [] [] 100 demo_up 5 7 0 NoFault (Ok tt) demo_head demo_writer demo_wal eq_refl) as H.
  rewrite demo_assigned in H. apply H; [wsolve|wsolve|discriminate|vm_compute; discriminate|vm_compute; reflexivity|exact demo_append_eq].
Qed.
Lemma demo_ing1 : reachable demo_U demo_batchBytes spared ing1.
Proof. eapply rtc_l; [apply demo_boot_step|]. apply rtc_once. exact demo_append_step. Qed.
Lemma demo_wal_synced : demo_wal = {[segmentPath 1 := mkFile (seg_bytes [record_of demo_up demo_sample]) (length (seg_bytes [record_of demo_up demo_sample]))]}.
Proof. vm_compute. reflexivity. Qed.
Lemma demo_record_ok : writable wal_ok (record_of demo_up demo_sample).
Proof. split; [split_and!; cbn; wsolve|vm_compute; reflexivity]. Qed.
Lemma demo_ing_down : reachable demo_U demo_batchBytes spared ing_down.
Proof.
  eapply rtc_r; [exact demo_ing1|]. apply step_crash; [|intros (p & f & Hp & Ht)|lia].
  - rewrite demo_wal_synced. intros p. destruct (decide (p = segmentPath 1)) as [->|Hne].
    + rewrite lookup_singleton_eq. constructor. eexists. split; [split; [apply le_n|done]|]. cbn [f_data f_synced]. by rewrite firstn_all.
    + rewrite lookup_singleton_ne by done. constructor.
  - rewrite demo_wal_synced in Hp. apply lookup_singleton_Some in Hp as [_ <-]. cbn [f_data] in Ht. rewrite <- (app_nil_r (seg_bytes _)) in Ht. apply (not_prefix_tear wal_ok 1000000) in Ht; [done| |by left]. constructor; [exact demo_record_ok|constructor].
Qed.
Lemma demo_room : room demo_wal.
Proof.
  rewrite demo_wal_synced. intros i Hi [f Hf]. apply lookup_singleton_Some in Hf as [Hp _]. apply segmentPath_inj in Hp; unfold MaxInt64 in *; lia.
Qed.
#[local] Strategy 100 [demo_wal demo_head demo_writer demo_boot demo_append demo_sealed demo_batches demo_batch demo_flushed].
(** Killed after one acknowledged write: the next start has it again. *)
Lemma no_acknowledged_sample_lost_witness : exists s w d', boot (fun _ => 0) 1000 1 demo_wal 0 1 NoFault = (Ok (s, w), d') /\
  exists ws, store_db s demo_up = Some ws /\ demo_sample ∈ ws.
Proof.
  destruct (no_acknowledged_sample_lost demo_U demo_batchBytes ing_down demo_up demo_sample demo_universe demo_ing_down) as [Hno|Hyes]; [by left|by apply elem_of_nil in Hno|].
  exact (Hyes demo_room (fun _ => 0) 1000).
Defined.
Lemma generations_survive_restarts_witness : 100 < assigned demo_head 3 0.
Proof. exact (generations_survive_restarts demo_U demo_batchBytes ing1 demo_head demo_writer demo_up demo_sample 3 demo_universe demo_ing1 eq_refl ltac:(by left)). Defined.

Lemma demo_begin : (SealedChunksSnapshot demo_sealed <> []) /\ NextGeneration demo_sealed = 101 /\ demo_batches = [demo_batch] /\ batch_samples demo_batch = [(demo_up, demo_sample)].
Proof. split_and!; [vm_compute; discriminate|vm_compute; reflexivity..]. Qed.
Lemma demo_ing2 : reachable demo_U demo_batchBytes spared ing2.
Proof.
  destruct demo_begin as (Hne & Hg & Hb & Hs). eapply rtc_l; [apply demo_boot_step|]. eapply rtc_l; [exact demo_append_step|]. eapply rtc_l; [apply step_seal|]. fold demo_sealed. eapply rtc_l; [by apply step_snapshot|]. eapply rtc_l; [apply step_floor|].
  fold demo_batches. rewrite Hg. change (BatchSeriesChunks (SealedChunksSnapshot demo_sealed) demo_batchBytes) with demo_batches. rewrite Hb. eapply rtc_l; [apply step_send|]. rewrite Hs. apply rtc_refl.
Qed.
Lemma demo_drained : drained demo_flushed = true.
Proof. vm_compute. reflexivity. Qed.
Lemma drained_ingester_shipped_all_witness : [(demo_up, demo_sample)] ⊆ g_shipped ing2.
Proof. exact (drained_ingester_shipped_all demo_U demo_batchBytes ing2 demo_flushed demo_writer demo_universe demo_ing2 eq_refl demo_drained). Defined.

(** ** What the hazards do *)

(** A run that meets one hazard only and ends with nothing shipped, a sample
    acknowledged, and a log that the next start refuses. *)
Definition stuck (g : ingester) : Prop := g_up g = None /\ g_shipped g = [] /\ g_acked g <> [] /\ room (g_disk g) /\
  exists e, (boot (fun _ => 0) 1000 1 (g_disk g) (g_ckpt g) (g_floor g) NoFault).1 = Err e.
Definition only (h : hazard) : hazard -> Prop := fun h' => h' = h.
Definition loses (h : hazard) : Prop := exists g, reachable demo_U demo_batchBytes (only h) g /\ stuck g.

(** Appends one after the other: head, writer, log, what was acknowledged. *)
Definition trial : Type := (MemoryStore * WAL) * disk * list (Labels * sample).
Definition running (x : trial) : ingester := mkIng (Some x.1.1) None [] x.1.2 0 1 [] x.2.
Definition gone (d : disk) (x : trial) : ingester := mkIng None None [] d 0 1 [] x.2.
Definition try_append (t : Z) (flt : fault) (x : trial) : trial :=
  let '(res, s, w, d) := AppendWithGeneration x.1.1.1 x.1.1.2 x.1.2 100 demo_up t 7 0 flt in
  ((s, w), d, match res with Ok _ => x.2 ++ [(demo_up, mkSample t 7 (assigned x.1.1.1 100 0))] | Err _ => x.2 end).
Definition try_boot (x : trial) : trial := let '(o, d) := boot (fun _ => 0) 1000 1 x.1.2 0 1 NoFault in (up_of o, d, x.2).
Lemma try_append_step h t flt x : in_i64 t -> (forall k, flt = FailWrite (S k) -> h = ShortWrite) -> segIndex x.1.1.2 + 2 <= 1000000 -> sinceSynced x.1.1.2 < MaxInt64 ->
  step demo_U demo_batchBytes (only h) (running x) (running (try_append t flt x)).
Proof.
  intros Ht Hf Hr Hs. destruct x as [[[s w] d] ac]. unfold running, try_append. cbn [fst snd] in *. destruct (AppendWithGeneration s w d 100 demo_up t 7 0 flt) as [[[res s'] w'] d'] eqn:E.
  eapply step_append; [reflexivity|done|wsolve| |done..|exact E]. intros k ->. symmetry. by eapply Hf.
Qed.
Lemma room_two (d : disk) : map_Forall (fun p _ => p = segmentPath 1 \/ p = segmentPath 2) d -> room d.
Proof. intros H i Hi [f Hf]. destruct (H _ _ Hf) as [E|E]; apply segmentPath_inj in E; unfold MaxInt64 in *; lia. Qed.

Definition trial0 : trial := (demo_up0, demo_boot.2, []).
(** Ten bytes of a record, then a whole one behind them. *)
Definition short_trial : trial := try_append 6 NoFault (try_append 5 (FailWrite 10) trial0).
(** A record, then one written but not synced. *)
Definition torn_trial : trial := try_append 6 FailSync (try_append 5 NoFault trial0).
(** A record not synced; the process is killed and started again, and appends. *)
Definition killed_trial : trial := try_append 5 FailSync trial0.
Definition again_trial : trial := try_append 6 NoFault (try_boot killed_trial).
Definition cut (n : nat) (d : disk) : disk := match d !! segmentPath 1 with Some f => <[segmentPath 1 := mkFile (take n (f_data f)) n]> d | None => d end.
Lemma stuck_gone (d : disk) (x : trial) (e : walErr) : bool_decide (x.2 <> []) = true -> bool_decide (map_Forall (fun p _ => p = segmentPath 1 \/ p = segmentPath 2) d) = true ->
  (boot (fun _ => 0) 1000 1 d 0 1 NoFault).1 = Err e -> stuck (gone d x).
Proof. intros Ha Hr Hb. split_and!; [done|done|by apply bool_decide_eq_true in Ha|apply room_two; by apply bool_decide_eq_true in Hr|by exists e]. Qed.
Lemma trial_start h : reachable demo_U demo_batchBytes (only h) (running trial0).
Proof. apply rtc_once. apply (demo_boot_step (only h)). Qed.
#[local] Strategy 100 [trial0 short_trial torn_trial killed_trial again_trial cut].
Lemma short_write_loses : loses ShortWrite.
Proof.
  exists (gone short_trial.1.2 short_trial). split; [|apply (stuck_gone _ _ (ErrCorrupt (segmentPath 1))); vm_compute; reflexivity].
  eapply rtc_r; [eapply rtc_r; [eapply rtc_r; [apply trial_start|]|]|].
  - apply (try_append_step _ 5 (FailWrite 10) trial0); [wsolve|done|vm_compute; discriminate|vm_compute; reflexivity].
  - apply (try_append_step _ 6 NoFault (try_append 5 (FailWrite 10) trial0)); [wsolve|done|vm_compute; discriminate|vm_compute; reflexivity].
  - apply step_kill. intros H. exfalso. apply H. apply (bool_decide_eq_true_1 _). vm_compute. reflexivity.
Qed.
Lemma cut_crash n (d : disk) f : d !! segmentPath 1 = Some f -> bool_decide (f_synced f <= n <= length (f_data f))%nat = true -> bool_decide (all_synced (delete (segmentPath 1) d)) = true -> crash d (cut n d).
Proof. intros Hf Hn%bool_decide_eq_true Hs%bool_decide_eq_true. unfold cut. rewrite Hf. by apply crash_cut. Qed.
Lemma prefix_tear_loses : loses PrefixTear.
Proof.
  exists (gone (cut 64 torn_trial.1.2) torn_trial). split; [|apply (stuck_gone _ _ (ErrReadBody (segmentPath 1))); vm_compute; reflexivity].
  eapply rtc_r; [eapply rtc_r; [eapply rtc_r; [apply trial_start|]|]|].
  - apply (try_append_step _ 5 NoFault trial0); [wsolve|done|vm_compute; discriminate|vm_compute; reflexivity].
  - apply (try_append_step _ 6 FailSync (try_append 5 NoFault trial0)); [wsolve|done|vm_compute; discriminate|vm_compute; reflexivity].
  - apply step_crash; [|done|lia]. eapply cut_crash; vm_compute; reflexivity.
Qed.
Lemma unsynced_kill_loses : loses UnsyncedKill.
Proof.
  exists (gone (cut 10 again_trial.1.2) again_trial). split; [|apply (stuck_gone _ _ (ErrReadBody (segmentPath 1))); vm_compute; reflexivity].
  eapply rtc_r; [eapply rtc_r; [eapply rtc_r; [eapply rtc_r; [eapply rtc_r; [apply trial_start|]|]|]|]|].
  - apply (try_append_step _ 5 FailSync trial0); [wsolve|done|vm_compute; discriminate|vm_compute; reflexivity].
  - apply (step_kill _ _ _ (Some killed_trial.1.1) None [] killed_trial.1.2). done.
  - apply (step_boot _ _ _ killed_trial.1.2 0 1 [] killed_trial.2 (fun _ => 0) 1000 NoFault (Ok (try_boot killed_trial).1.1) (try_boot killed_trial).1.2).
    + apply room_two, (bool_decide_eq_true_1 _). vm_compute. reflexivity.
    + vm_compute. reflexivity.
  - apply (try_append_step _ 6 NoFault (try_boot killed_trial)); [wsolve|done|vm_compute; discriminate|vm_compute; reflexivity].
  - apply step_crash; [|intros Ht; exfalso; revert Ht|lia]; [eapply cut_crash; vm_compute; reflexivity|].
    set (r1 := record_of demo_up (mkSample 5 7 100)). set (r2 := record_of demo_up (mkSample 6 7 101)).
    assert (E : cut 10 again_trial.1.2 = layout 1 [mkSeg (R := walRecord) [] 10 (take 10 (frame (rk_encode r1))); mkSeg [r2] 60 []]) by (vm_compute; reflexivity).
    rewrite E. apply (layout_not_torn wal_ok 1000000); [by split|]. assert (Hw : forall t g, in_i64 t -> in_i64 g -> writable wal_ok (record_of demo_up (mkSample t 7 g))) by (intros; split; [split_and!; cbn; [done|wsolve|done]|vm_compute; reflexivity]).
    constructor; [|constructor; [|constructor]]; (split; [|cbn [sg_recs]]).
    + right. exists r1, 10%nat. split_and!; [apply Hw; wsolve|done|lia|vm_compute; lia|done].
    + constructor.
    + by left.
    + constructor; [apply Hw; wsolve|constructor].
Qed.

(** Each hazard of the log is one the code does not survive: met alone, in a short
    run, it ends with an acknowledged sample that is nowhere but in a log the next
    start refuses. *)
Lemma hazards_lose_samples h : h <> SharedCheckpoint -> loses h.
Proof. destruct h; [intros _; exact short_write_loses|intros _; exact prefix_tear_loses|intros _; exact unsynced_kill_loses|done]. Qed.
(** Two flushes that publish at once (the maintenance loop's and a drain's, whose
    checkpoint phases no lock orders): 10 and 9 leave 90, and the next start skips
    every segment up to it. *)
Example overlapping_checkpoints : Atoi (pwrite (Itoa 10) (Itoa 9)) = Some 90.
Proof. vm_compute. reflexivity. Qed.
