(* ===== verification/BlockIndex.v ===== *)
(** * BlockIndex: the chunks file and the index of a block

    [writeChunksAndIndex] and [encodeLabelSet] of [internal/storage/block/writer.go],
    [readIndex] and [decodeLabelSet] of [reader.go]. A position in the index is the
    rest of the file from it on. *)
From stdpp Require Import strings.
From S2P Require Import Prelude GoLib GoSort Chunk.

(** A label of a block is an [index.Pair] in shape; the index has its own type. *)
Record BlockLabel := mkBL { bl_Name : string; bl_Value : string }.
#[export] Instance BlockLabel_eq_dec : EqDecision BlockLabel.
Proof. solve_decision. Defined.
Record ChunkRef := mkRef { ref_Offset : Z; ref_Length : Z }.
Record SeriesEntry := mkEntry { se_ID : Z; se_Labels : list BlockLabel; se_Chunks : list ChunkRef }.
Record seriesData := mkSD { sd_id : Z; sd_labels : list BlockLabel; sd_chunks : list Chunk }.

Inductive indexErr :=
  | IndexTooShort | IndexEntries (n : Z) | IndexSeriesID | IndexLabelLength | IndexLabelData | IndexChunkCount
  | IndexChunks (id n : Z) | IndexChunkRef | LabelNameLength | LabelNameData | LabelValueLength | LabelValueData
  | LabelOrder (name prev : string).

(** ** Writing *)

Definition encode_lenstr (s : string) : list Z := be_bytes 4 (u32 (str_len s)) ++ str_bytes s.
Definition encode_label (p : BlockLabel) : list Z := encode_lenstr (bl_Name p) ++ encode_lenstr (bl_Value p).
Definition encodeLabelSet (pairs : list BlockLabel) : list Z := pairs ≫= encode_label.

(** One chunk in the chunks file: series, length, payload. *)
Definition chunk_record (id : Z) (c : Chunk) : list Z := be_bytes 8 id ++ be_bytes 4 (u32 (Z.of_nat (length (Bytes c)))) ++ Bytes c.
Fixpoint write_chunks (id : Z) (fileOffset : Z) (cs : list Chunk) : list ChunkRef * list Z * Z :=
  match cs with
  | [] => ([], [], fileOffset)
  | c :: cs =>
      let n := Z.of_nat (length (Bytes c)) in
      let '(locs, bytes, off) := write_chunks id (i64 (fileOffset + i64 (12 + n))) cs in
      (mkRef (i64 (fileOffset + 12)) (u32 n) :: locs, chunk_record id c ++ bytes, off)
  end.
Fixpoint write_series (fileOffset : Z) (series : list seriesData) : list (list ChunkRef) * list Z :=
  match series with
  | [] => ([], [])
  | sd :: series =>
      let '(locs, bytes, off) := write_chunks (sd_id sd) fileOffset (sd_chunks sd) in
      let '(allLocs, rest) := write_series off series in
      (locs :: allLocs, bytes ++ rest)
  end.
Definition encode_ref (r : ChunkRef) : list Z := be_bytes 8 (u64 (ref_Offset r)) ++ be_bytes 4 (ref_Length r).
Definition encode_entry (id : Z) (labels : list BlockLabel) (locs : list ChunkRef) : list Z :=
  let labelData := encodeLabelSet labels in
  be_bytes 8 id ++ be_bytes 4 (u32 (Z.of_nat (length labelData))) ++ labelData ++
  be_bytes 4 (u32 (Z.of_nat (length locs))) ++ (locs ≫= encode_ref).
(** The two files. *)
Definition writeChunksAndIndex (series : list seriesData) : list Z * list Z :=
  let '(allLocs, chunks) := write_series 0 series in
  (chunks, be_bytes 4 (u32 (Z.of_nat (length series))) ++
           (zip series allLocs ≫= fun e => encode_entry (sd_id e.1) (sd_labels e.1) e.2)).

(** ** Reading *)

Definition cut_or {E} (n : nat) (b : list Z) (e : E) : result E (list Z * list Z) :=
  match cut n b with Some r => Ok r | None => Err e end.
(** A length field and the bytes it counts. *)
Definition cut_counted {E} (b : list Z) (eLen eData : E) : result E (list Z * list Z) :=
  '(n, b) ← cut_or 4 b eLen; cut_or (Z.to_nat (be_val n)) b eData.

(** [last] is the name decoded before; each turn consumes at least eight bytes. *)
Fixpoint decode_labels (fuel : nat) (last : option string) (data : list Z) : result indexErr (list BlockLabel) :=
  match fuel, data with
  | _, [] => Ok []
  | O, _ => Err LabelNameLength
  | S f, _ =>
      '(name, data) ← cut_counted data LabelNameLength LabelNameData;
      '(value, data) ← cut_counted data LabelValueLength LabelValueData;
      match last with
      | Some prev => if String.leb (bytes_str name) prev then Err (LabelOrder (bytes_str name) prev) else Ok tt
      | None => Ok tt
      end ≫= fun _ =>
      rest ← decode_labels f (Some (bytes_str name)) data;
      Ok (mkBL (bytes_str name) (bytes_str value) :: rest)
  end.
Definition decodeLabelSet (data : list Z) : result indexErr (list BlockLabel) := decode_labels (length data) None data.

Fixpoint read_refs (n : nat) (data : list Z) : result indexErr (list ChunkRef * list Z) :=
  match n with
  | O => Ok ([], data)
  | S n =>
      '(r, data) ← cut_or 12 data IndexChunkRef;
      '(refs, data) ← read_refs n data;
      Ok (mkRef (i64 (be_val (take 8 r))) (be_val (drop 8 r)) :: refs, data)
  end.
Definition max_chunks : Z := 10000.
Definition read_entry (data : list Z) : result indexErr (SeriesEntry * list Z) :=
  '(id, data) ← cut_or 8 data IndexSeriesID;
  '(labelData, data) ← cut_counted data IndexLabelLength IndexLabelData;
  labels ← decodeLabelSet labelData;
  '(n, data) ← cut_or 4 data IndexChunkCount;
  _ ← guard_or (negb (max_chunks <? be_val n)) (IndexChunks (be_val id) (be_val n));
  '(refs, data) ← read_refs (Z.to_nat (be_val n)) data;
  Ok (mkEntry (be_val id) labels refs, data).
Fixpoint read_entries (n : nat) (data : list Z) : result indexErr (list SeriesEntry * list Z) :=
  match n with
  | O => Ok ([], data)
  | S n => '(e, data) ← read_entry data; '(es, data) ← read_entries n data; Ok (e :: es, data)
  end.
Definition readIndex (data : list Z) : result indexErr (list SeriesEntry) :=
  '(n, data) ← cut_or 4 data IndexTooShort;
  _ ← guard_or (negb (1000000 <? be_val n)) (IndexEntries (be_val n));
  '(es, _) ← read_entries (Z.to_nat (be_val n)) data; Ok es.

(** ** The codec *)

#[local] Arguments be_bytes : simpl never.
#[local] Arguments be_val : simpl never.
#[local] Arguments cut_counted : simpl never.

Lemma cut_or_app {E} n l rest (e : E) : length l = n -> cut_or n (l ++ rest) e = Ok (l, rest).
Proof. intros Hl. unfold cut_or. by rewrite cut_app. Qed.
Lemma cut_or_ok {E} n b l rest (e : E) : bytes_ok b -> cut_or n b e = Ok (l, rest) -> b = l ++ rest /\ length l = n /\ bytes_ok l /\ bytes_ok rest.
Proof.
  intros Hb. unfold cut_or. destruct (cut n b) as [[l' r']|] eqn:Ec; [|done]. intros [= -> ->]. apply cut_some in Ec as [-> Hl]. apply Forall_app in Hb as [? ?]. done.
Qed.
Lemma be_val_u32 n : 0 <= n < 2 ^ 32 -> be_val (be_bytes 4 (u32 n)) = n.
Proof. intros Hn. rewrite be_val_bytes. change (8 * Z.of_nat 4) with 32. rewrite u32_id by (unfold in_u32; lia). by apply Z.mod_small. Qed.
Lemma be_4_val l : bytes_ok l -> length l = 4%nat -> be_bytes 4 (u32 (be_val l)) = l /\ 0 <= be_val l < 2 ^ 32.
Proof.
  intros Hb Hl. pose proof (be_val_range l Hb) as Hr. rewrite Hl in Hr. change (8 * Z.of_nat 4) with 32 in Hr. split; [|done].
  rewrite u32_id by (unfold in_u32; lia). rewrite <- Hl at 1. by apply be_bytes_val.
Qed.
Lemma cut_counted_app {E} l rest (e1 e2 : E) : Z.of_nat (length l) < 2 ^ 32 -> cut_counted (be_bytes 4 (u32 (Z.of_nat (length l))) ++ l ++ rest) e1 e2 = Ok (l, rest).
Proof.
  intros Hl. unfold cut_counted. rewrite cut_or_app by apply length_be_bytes. cbn [mbind result_bind]. rewrite be_val_u32 by lia. rewrite Nat2Z.id. by apply cut_or_app.
Qed.
Lemma cut_counted_ok {E} b l rest (e1 e2 : E) : bytes_ok b -> cut_counted b e1 e2 = Ok (l, rest) ->
  b = be_bytes 4 (u32 (Z.of_nat (length l))) ++ l ++ rest /\ Z.of_nat (length l) < 2 ^ 32 /\ bytes_ok l /\ bytes_ok rest.
Proof.
  intros Hb. unfold cut_counted. destruct (cut_or 4 b e1) as [[n b1]|e] eqn:E1; [|done]. apply cut_or_ok in E1 as (-> & Hn & Hnb & Hb1); [|done]. cbn [mbind result_bind]. intros E2.
  apply cut_or_ok in E2 as (-> & Hl & Hlb & Hrest); [|done]. destruct (be_4_val n Hnb Hn) as [Hv Hr]. rewrite Hl, Z2Nat.id, Hv by lia. split_and!; (done || lia).
Qed.
Lemma length_bytes_str l : bytes_ok l -> String.length (bytes_str l) = length l.
Proof. intros Hl. by rewrite <- length_str_bytes, str_bytes_str. Qed.
Lemma encode_lenstr_bytes l : bytes_ok l -> encode_lenstr (bytes_str l) = be_bytes 4 (u32 (Z.of_nat (length l))) ++ l.
Proof. intros Hl. unfold encode_lenstr, str_len. by rewrite length_bytes_str, str_bytes_str. Qed.

Lemma nonempty_cons {A} (l : list A) : (0 < length l)%nat -> exists b tl, l = b :: tl.
Proof. destruct l; [cbn; lia|eauto]. Qed.

(** *** Label sets *)

Definition label_fits (p : BlockLabel) : Prop := str_len (bl_Name p) < 2 ^ 32 /\ str_len (bl_Value p) < 2 ^ 32.
Definition ascending (last : option string) (pairs : list BlockLabel) : Prop :=
  StronglySorted (str_key_lt bl_Name) pairs /\ match last with Some prev => Forall (fun p => str_lt prev (bl_Name p)) pairs | None => True end.
Lemma ascending_cons last p pairs : ascending last (p :: pairs) <->
  match last with Some prev => str_lt prev (bl_Name p) | None => True end /\ ascending (Some (bl_Name p)) pairs.
Proof.
  unfold ascending. split.
  - intros [Hs Hl]. apply StronglySorted_inv in Hs as [Hs Hp]. split_and!; [|done|done]. destruct last; [|done]. by apply Forall_cons in Hl as [? _].
  - intros (Hl & Hs & Hp). split; [by constructor|]. destruct last as [prev|]; [|done]. constructor; [done|]. eapply Forall_impl; [exact Hp|]. intros q Hq. by eapply str_lt_trans.
Qed.

Lemma ascending_nil last : ascending last [].
Proof. split; [constructor|by destruct last]. Qed.

Lemma decode_encode_labels fuel last pairs : Forall label_fits pairs -> ascending last pairs -> (length (encodeLabelSet pairs) <= fuel)%nat ->
  decode_labels fuel last (encodeLabelSet pairs) = Ok pairs.
Proof.
  revert last fuel. induction pairs as [|p pairs IH]; intros last fuel HF Hs Hf; [by destruct fuel|]. apply Forall_cons in HF as [[Hn Hv] HF]. apply ascending_cons in Hs as [Hl Hs].
  change (encodeLabelSet (p :: pairs)) with (encode_label p ++ encodeLabelSet pairs) in *. unfold encode_label, encode_lenstr in *. rewrite <- !app_assoc in *. rewrite !length_app, !length_be_bytes in Hf.
  destruct fuel as [|fuel]; [lia|]. assert (Hne : exists b tl, be_bytes 4 (u32 (str_len (bl_Name p))) ++ str_bytes (bl_Name p) ++ be_bytes 4 (u32 (str_len (bl_Value p))) ++ str_bytes (bl_Value p) ++ encodeLabelSet pairs = b :: tl) by (apply nonempty_cons; rewrite length_app, length_be_bytes; lia).
  cbn [decode_labels]. destruct Hne as (b & tl & Hne). rewrite Hne, <- Hne. unfold str_len in *. rewrite <- !length_str_bytes in *. rewrite cut_counted_app by done. cbn [mbind result_bind].
  rewrite cut_counted_app by done. cbn [mbind result_bind]. rewrite !bytes_str_bytes.
  assert (Hord : (match last with Some prev => if String.leb (bl_Name p) prev then Err (LabelOrder (bl_Name p) prev) else Ok tt | None => Ok tt end) = (Ok tt : result indexErr unit)).
  { destruct last as [prev|]; [|done]. rewrite str_compare_le. unfold str_lt in Hl. by rewrite Hl. }
  rewrite Hord. cbn [mbind result_bind]. rewrite IH by (done || lia). cbn [mbind result_bind]. by destruct p.
Qed.
Lemma decode_labels_ok fuel last data pairs : bytes_ok data -> decode_labels fuel last data = Ok pairs ->
  data = encodeLabelSet pairs /\ Forall label_fits pairs /\ ascending last pairs.
Proof.
  revert last data pairs. induction fuel as [|fuel IH]; intros last data pairs Hb; cbn [decode_labels].
  { destruct data; [|done]. intros [= <-]. split_and!; [done|done|apply ascending_nil]. }
  destruct data as [|b0 tl] eqn:Ed; [intros [= <-]; split_and!; [done|done|apply ascending_nil]|]. rewrite <- Ed in *. clear Ed b0 tl.
  destruct (cut_counted data _ _) as [[name d1]|e] eqn:E1; [|done]. apply cut_counted_ok in E1 as (-> & Hn & Hnb & Hb1); [|done]. cbn [mbind result_bind].
  destruct (cut_counted d1 _ _) as [[value d2]|e] eqn:E2; [|done]. apply cut_counted_ok in E2 as (-> & Hv & Hvb & Hb2); [|done]. cbn [mbind result_bind].
  destruct (match last with Some prev => _ | None => _ end) as [[]|e] eqn:Eo; [|done]. cbn [mbind result_bind]. destruct (decode_labels fuel _ d2) as [rest|e] eqn:Er; [|done]. intros [= <-].
  destruct (IH _ _ _ Hb2 Er) as (-> & HF & Hs). split_and!.
  - change (encodeLabelSet (?p :: ?l)) with (encode_label p ++ encodeLabelSet l). unfold encode_label. cbn [bl_Name bl_Value]. rewrite !encode_lenstr_bytes by done. by rewrite <- !app_assoc.
  - constructor; [|done]. unfold label_fits, str_len. cbn [bl_Name bl_Value]. by rewrite !length_bytes_str.
  - apply ascending_cons. split; [|done]. destruct last as [prev|]; [|done]. cbn [bl_Name]. rewrite str_compare_le in Eo. unfold str_lt. by destruct (String.ltb prev (bytes_str name)).
Qed.

(** *** Entries *)

Definition ref_fits (r : ChunkRef) : Prop := in_i64 (ref_Offset r) /\ in_u32 (ref_Length r).
Record entry_fits (e : SeriesEntry) : Prop := {
  ef_id : in_u64 (se_ID e);
  ef_labels : Forall label_fits (se_Labels e) /\ StronglySorted (str_key_lt bl_Name) (se_Labels e);
  ef_data : Z.of_nat (length (encodeLabelSet (se_Labels e))) < 2 ^ 32;
  ef_chunks : Z.of_nat (length (se_Chunks e)) <= max_chunks /\ Forall ref_fits (se_Chunks e) }.
Definition entry_bytes (e : SeriesEntry) : list Z := encode_entry (se_ID e) (se_Labels e) (se_Chunks e).
(** The index that lists [es]. *)
Definition index_bytes (es : list SeriesEntry) : list Z := be_bytes 4 (u32 (Z.of_nat (length es))) ++ (es ≫= entry_bytes).

Lemma be_val_u64 v : in_u64 v -> be_val (be_bytes 8 v) = v.
Proof. intros Hv. rewrite be_val_bytes. apply Z.mod_small. exact Hv. Qed.
Lemma be_8_val l : bytes_ok l -> length l = 8%nat -> be_bytes 8 (be_val l) = l /\ in_u64 (be_val l).
Proof.
  intros Hb Hl. pose proof (be_val_range l Hb) as Hr. rewrite Hl in Hr. split; [|exact Hr]. rewrite <- Hl at 1. by apply be_bytes_val.
Qed.

Lemma read_refs_app refs rest : Forall ref_fits refs -> read_refs (length refs) ((refs ≫= encode_ref) ++ rest) = Ok (refs, rest).
Proof.
  induction refs as [|r refs IH]; intros HF; [done|]. apply Forall_cons in HF as [[Ho Hl] HF]. cbn [length read_refs mbind list_bind]. change (list_bind _ _ encode_ref refs) with (refs ≫= encode_ref).
  rewrite <- app_assoc, cut_or_app by (unfold encode_ref; rewrite length_app, !length_be_bytes; done). cbn [mbind result_bind]. rewrite IH by done. cbn [mbind result_bind].
  unfold encode_ref. rewrite (take_app_length' _ _ 8), (drop_app_length' _ _ 8) by (by rewrite length_be_bytes). rewrite be_val_u64 by apply in_u64_u64.
  rewrite i64_u64, i64_id by done. rewrite be_val_bytes, Z.mod_small by exact Hl. by destruct r.
Qed.
Lemma read_refs_ok n data refs rest : bytes_ok data -> read_refs n data = Ok (refs, rest) ->
  data = (refs ≫= encode_ref) ++ rest /\ length refs = n /\ Forall ref_fits refs /\ bytes_ok rest.
Proof.
  revert data refs. induction n as [|n IH]; intros data refs Hb; cbn [read_refs]; [by intros [= <- <-]|].
  destruct (cut_or 12 data _) as [[r d1]|e] eqn:E1; [|done]. apply cut_or_ok in E1 as (-> & Hr & Hrb & Hb1); [|done]. cbn [mbind result_bind].
  destruct (read_refs n d1) as [[refs1 d2]|e] eqn:E2; [|done]. cbn [mbind result_bind]. intros [= <- <-]. destruct (IH _ _ Hb1 E2) as (-> & <- & HF & Hrest).
  apply Forall_take_drop with (n := 8%nat) in Hrb as [Hb8 Hb4]. destruct (be_8_val (take 8 r) Hb8) as [Hv8 Hr8]; [rewrite length_take; lia|].
  destruct (be_4_val (drop 8 r) Hb4) as [Hv4 Hr4]; [rewrite length_drop; lia|]. split_and!; [|done|constructor; [split; [apply in_i64_i64|exact Hr4]|done]|done].
  cbn [mbind list_bind]. rewrite <- app_assoc. f_equal. unfold encode_ref. cbn [ref_Offset ref_Length]. rewrite u64_i64, u64_id by done. rewrite Hv8.
  rewrite u32_id in Hv4 by exact Hr4. by rewrite Hv4, take_drop.
Qed.

Lemma read_entry_app e rest : entry_fits e -> read_entry (entry_bytes e ++ rest) = Ok (e, rest).
Proof.
  intros [Hid [HF Hs] Hd [Hc Hr]]. unfold read_entry, entry_bytes, encode_entry. rewrite <- !app_assoc. rewrite cut_or_app by apply length_be_bytes. cbn [mbind result_bind].
  rewrite cut_counted_app by done. cbn [mbind result_bind]. unfold decodeLabelSet. rewrite decode_encode_labels by (done || split; done). cbn [mbind result_bind].
  rewrite cut_or_app by apply length_be_bytes. cbn [mbind result_bind]. unfold max_chunks in Hc. rewrite be_val_u32 by lia. unfold max_chunks. rewrite (proj2 (Z.ltb_ge _ _)) by lia. cbn [negb guard_or mbind result_bind].
  rewrite Nat2Z.id, read_refs_app by done. cbn [mbind result_bind]. rewrite be_val_u64 by done. by destruct e.
Qed.
Lemma read_entry_ok data e rest : bytes_ok data -> read_entry data = Ok (e, rest) -> data = entry_bytes e ++ rest /\ entry_fits e /\ bytes_ok rest.
Proof.
  intros Hb. unfold read_entry. destruct (cut_or 8 data _) as [[idb d1]|x] eqn:E1; [|done]. apply cut_or_ok in E1 as (-> & Hl1 & Hidb & Hb1); [|done]. cbn [mbind result_bind].
  destruct (cut_counted d1 _ _) as [[ld d2]|x] eqn:E2; [|done]. apply cut_counted_ok in E2 as (-> & Hld & Hldb & Hb2); [|done]. cbn [mbind result_bind].
  unfold decodeLabelSet. destruct (decode_labels _ None ld) as [labels|x] eqn:E3; [|done]. apply decode_labels_ok in E3 as (-> & HF & Hs & _); [|done]. cbn [mbind result_bind].
  destruct (cut_or 4 d2 _) as [[nb d3]|x] eqn:E4; [|done]. apply cut_or_ok in E4 as (-> & Hl4 & Hnb & Hb3); [|done]. cbn [mbind result_bind].
  destruct (Z.ltb_spec max_chunks (be_val nb)) as [|Hmax]; [done|]. cbn [negb guard_or mbind result_bind].
  destruct (read_refs _ d3) as [[refs d4]|x] eqn:E5; [|done]. apply read_refs_ok in E5 as (-> & Hn & HR & Hb4); [|done]. cbn [mbind result_bind]. intros [= <- <-].
  destruct (be_8_val idb Hidb Hl1) as [Hv8 Hr8]. destruct (be_4_val nb Hnb Hl4) as [Hv4 Hr4].
  split_and!; [|split; cbn [se_ID se_Labels se_Chunks]; try done; split; [lia|done]|done].
  unfold entry_bytes, encode_entry. cbn [se_ID se_Labels se_Chunks]. rewrite Hn, Z2Nat.id, Hv8, Hv4 by lia. by rewrite <- !app_assoc.
Qed.
Lemma read_entries_app es rest : Forall entry_fits es -> read_entries (length es) ((es ≫= entry_bytes) ++ rest) = Ok (es, rest).
Proof.
  induction es as [|e es IH]; intros HF; [done|]. apply Forall_cons in HF as [He HF]. cbn [length read_entries mbind list_bind]. change (list_bind _ _ entry_bytes es) with (es ≫= entry_bytes).
  rewrite <- app_assoc, read_entry_app by done. cbn [mbind result_bind]. rewrite IH by done. done.
Qed.
Lemma read_entries_ok n data es rest : bytes_ok data -> read_entries n data = Ok (es, rest) ->
  data = (es ≫= entry_bytes) ++ rest /\ length es = n /\ Forall entry_fits es /\ bytes_ok rest.
Proof.
  revert data es. induction n as [|n IH]; intros data es Hb; cbn [read_entries]; [by intros [= <- <-]|].
  destruct (read_entry data) as [[e d1]|x] eqn:E1; [|done]. apply read_entry_ok in E1 as (-> & He & Hb1); [|done]. cbn [mbind result_bind].
  destruct (read_entries n d1) as [[es1 d2]|x] eqn:E2; [|done]. cbn [mbind result_bind]. intros [= <- <-]. destruct (IH _ _ Hb1 E2) as (-> & <- & HF & Hrest).
  split_and!; [|done|by constructor|done]. cbn [mbind list_bind]. by rewrite <- app_assoc.
Qed.

Lemma readIndex_app es rest : Z.of_nat (length es) <= 1000000 -> Forall entry_fits es -> readIndex (index_bytes es ++ rest) = Ok es.
Proof.
  intros Hn HF. unfold readIndex, index_bytes. rewrite <- app_assoc, cut_or_app by apply length_be_bytes. cbn [mbind result_bind]. rewrite be_val_u32 by lia.
  rewrite (proj2 (Z.ltb_ge _ _)) by lia. cbn [negb guard_or mbind result_bind]. by rewrite Nat2Z.id, read_entries_app.
Qed.
Lemma readIndex_ok data es : bytes_ok data -> readIndex data = Ok es ->
  Z.of_nat (length es) <= 1000000 /\ Forall entry_fits es /\ index_bytes es `prefix_of` data.
Proof.
  intros Hb. unfold readIndex. destruct (cut_or 4 data _) as [[nb d1]|x] eqn:E1; [|done]. apply cut_or_ok in E1 as (-> & Hl & Hnb & Hb1); [|done]. cbn [mbind result_bind].
  destruct (Z.ltb_spec 1000000 (be_val nb)) as [|Hmax]; [done|]. cbn [negb guard_or mbind result_bind]. destruct (be_4_val nb Hnb Hl) as [Hv Hr].
  destruct (read_entries _ d1) as [[es1 rest]|x] eqn:E2; [|done]. apply read_entries_ok in E2 as (-> & Hn & HF & Hrest); [|done]. cbn [mbind result_bind]. intros [= <-].
  split_and!; [lia|done|]. exists rest. unfold index_bytes. rewrite Hn, Z2Nat.id, Hv by lia. by rewrite <- app_assoc.
Qed.

(** The index of a block reads back exactly. A file is accepted, with entries
    [es], exactly when it starts with the encoding of [es], these are at most a
    million, every label set is strictly ascending by name, and no series has more
    chunks than a reader takes: what the writer writes is read back unchanged, and
    what is accepted has one reading. *)
Theorem index_codec_exact data es : bytes_ok data ->
  readIndex data = Ok es <->
  Z.of_nat (length es) <= 1000000 /\ Forall entry_fits es /\ index_bytes es `prefix_of` data.
Proof. intros Hb. split; [by apply readIndex_ok|]. intros (Hn & HF & [rest ->]). by apply readIndex_app. Qed.
Definition demo_entry : SeriesEntry := mkEntry 7 [mkBL "__name__" "up"; mkBL "job" "api"] [mkRef 12 40; mkRef 64 52].
Lemma demo_entry_fits : entry_fits demo_entry.
Proof.
  split; cbn [demo_entry se_ID se_Labels se_Chunks].
  - wsolve.
  - split; [repeat (constructor; [split; vm_compute; reflexivity|]); constructor|]. repeat (constructor; [|repeat (constructor; [vm_compute; reflexivity|]); constructor]). constructor.
  - vm_compute. reflexivity.
  - split; [vm_compute; discriminate|]. repeat (constructor; [split; cbn; wsolve|]). constructor.
Qed.
Lemma index_codec_exact_witness : readIndex (index_bytes [demo_entry] ++ [1; 2]) = Ok [demo_entry].
Proof.
  apply (index_codec_exact (index_bytes [demo_entry] ++ [1; 2]) [demo_entry]).
  - apply bytes_ok_check. vm_compute. reflexivity.
  - split_and!; [done|constructor; [exact demo_entry_fits|constructor]|by apply prefix_app_r].
Defined.
