(* ===== verification/BlockPostings.v ===== *)
(** * BlockPostings: the persisted label index of a block

    [internal/storage/block/postings.go]: the postings file a writer produces, and
    the reader that checks it, list by list, against the index implied by the
    series of the block before any query may use it. *)
From stdpp Require Import strings.
From S2P Require Import Prelude GoLib GoSort Postings BlockIndex.

(** [f.ReadAt] of [n] bytes at [off]. *)
Definition read_at (data : list Z) (off : Z) (n : nat) : option (list Z) :=
  if ((off <? 0) || (Z.of_nat (length data) <? off))%bool then None
  else l ← cut n (drop (Z.to_nat off) data); Some l.1.

Inductive postingsErr :=
  | PostingsShort | PostingsRead | PostingsMagic | PostingsVersion (v : Z) | PostingsTableOffset (o : Z) | PostingsTableCount
  | PostingsStringLength | PostingsStringData | PostingsTableOffsets | PostingsListOffset (o : Z) | PostingsDuplicateAll
  | PostingsDuplicate (name value : string) | PostingsTrailing (n : nat) | PostingsNoAll | PostingsMissing (name value : string)
  | PostingsPairs (got want : nat) | PostingsBoundary (off n : Z) | PostingsTooMany (off n : Z) | PostingsMismatch (name value : string) | PostingsClosed.

Definition postingsMagic : list Z := [79; 80; 80; 73].
Definition postingsVersion : Z := 1.
Definition postingsHeaderSz : Z := 5.
Definition postingsFooterSz : Z := 8.

(** ** Writing *)

Definition label_pair (p : BlockLabel) : Pair := mkPair (bl_Name p) (bl_Value p).
Definition buildMemPostings (entries : list (Z * list BlockLabel)) : MemPostings :=
  fold_left (fun mp e => postings_Add mp e.1 (label_pair <$> e.2)) entries NewMemPostings.
(** The lists in file order: every series, then each pair by name and value. *)
Definition file_pairs (mp : MemPostings) : list (string * string) :=
  idx_LabelNames mp ≫= fun name => pair name <$> idx_LabelValues mp name.
Definition file_entries (mp : MemPostings) : list (string * string) := ("", "")%string :: file_pairs mp.
Definition encode_ids (ids : list Z) : list Z := be_bytes 4 (u32 (Z.of_nat (length ids))) ++ (ids ≫= be_bytes 8).
Fixpoint list_offsets (off : Z) (lists : list (list Z)) : list Z :=
  match lists with [] => [] | l :: lists => off :: list_offsets (off + Z.of_nat (length (encode_ids l))) lists end.
Definition encode_offset (e : string * string) (off : Z) : list Z := encode_lenstr e.1 ++ encode_lenstr e.2 ++ be_bytes 8 (u64 off).
Definition writePostings (series : list (Z * list BlockLabel)) : list Z :=
  let mp := buildMemPostings series in
  let entries := file_entries mp in
  let lists := (fun e => Postings mp e.1 e.2) <$> entries in
  let body := postingsMagic ++ [postingsVersion] ++ (lists ≫= encode_ids) in
  let offsetTableOffset := Z.of_nat (length body) in
  body ++ be_bytes 4 (u32 (Z.of_nat (length entries))) ++
  (zip entries (list_offsets postingsHeaderSz lists) ≫= fun e => encode_offset e.1 e.2) ++
  be_bytes 8 (u64 offsetTableOffset).

(** ** Reading *)

Record filePostings := mkFP {
  fp_data : list Z; fp_closed : bool; fp_offsets : gmap string (gmap string Z); fp_allRefs : Z; fp_otOffset : Z;
  fp_names : list string; fp_values : gmap string (list string) }.

(** The loop over the offset table: offsets, sentinel, values, and the rest. *)
Record table := mkTable { t_offsets : gmap string (gmap string Z); t_allRefs : Z; t_values : gmap string (list string); t_names : gset string }.
Definition table_entry (otOffset : Z) (t : table) (name val : string) (off : Z) : result postingsErr table :=
  if ((off <? postingsHeaderSz) || (otOffset <? i64 (off + 4)))%bool then Err (PostingsListOffset off) else
  if (String.eqb name "" && String.eqb val "")%bool then
    if 0 <=? t_allRefs t then Err PostingsDuplicateAll else Ok (mkTable (t_offsets t) off (t_values t) (t_names t))
  else
    let vals := default ∅ (t_offsets t !! name) in
    match vals !! val with
    | Some _ => Err (PostingsDuplicate name val)
    | None => Ok (mkTable (<[name := <[val := off]> vals]> (t_offsets t)) (t_allRefs t)
                    (<[name := default [] (t_values t !! name) ++ [val]]> (t_values t)) ({[name]} ∪ t_names t))
    end.
Fixpoint read_table (n : nat) (otOffset : Z) (t : table) (ot : list Z) : result postingsErr (table * list Z) :=
  match n with
  | O => Ok (t, ot)
  | S n =>
      '(name, ot) ← cut_counted ot PostingsStringLength PostingsStringData;
      '(val, ot) ← cut_counted ot PostingsStringLength PostingsStringData;
      '(o, ot) ← cut_or 8 ot PostingsTableOffsets;
      t ← table_entry otOffset t (bytes_str name) (bytes_str val) (i64 (be_val o));
      read_table n otOffset t ot
  end.

Fixpoint read_ids (n : nat) (b : list Z) : list Z :=
  match n with O => [] | S n => be_val (take 8 b) :: read_ids n (drop 8 b) end.
Definition read_or (data : list Z) (off : Z) (n : nat) : result postingsErr (list Z) :=
  match read_at data off n with Some b => Ok b | None => Err PostingsRead end.
Definition readListBounded (data : list Z) (off end_ : Z) (maxCount : nat) : result postingsErr (list Z) :=
  c ← read_or data off 4;
  let cnt := be_val c in
  if negb (i64 (i64 (off + 4) + cnt * 8) =? end_) then Err (PostingsBoundary off cnt) else
  if Z.of_nat maxCount <? cnt then Err (PostingsTooMany off cnt) else
  if cnt =? 0 then Ok [] else
  b ← read_or data (i64 (off + 4)) (Z.to_nat (cnt * 8)); Ok (read_ids (Z.to_nat cnt) b).

Fixpoint check_names (offsets : gmap string (gmap string Z)) (pairs : list (string * string)) : result postingsErr unit :=
  match pairs with
  | [] => Ok tt
  | (name, value) :: rest =>
      match offsets !! name with
      | None => Err (PostingsMissing name value)
      | Some vals => match vals !! value with None => Err (PostingsMissing name value) | Some _ => check_names offsets rest end
      end
  end.
Definition validatePairKeySet (expected : MemPostings) (offsets : gmap string (gmap string Z)) : result postingsErr unit :=
  _ ← check_names offsets (file_pairs expected);
  let filePairs := sum_list ((fun e : string * gmap string Z => size e.2) <$> map_to_list offsets) in
  if (filePairs =? length (file_pairs expected))%nat then Ok tt else Err (PostingsPairs filePairs (length (file_pairs expected))).

(** A list of the file: where it is, and whose. *)
Record listRef := mkLR { lr_off : Z; lr_name : string; lr_value : string }.
Definition refs_of (offsets : gmap string (gmap string Z)) : list listRef :=
  map_to_list offsets ≫= fun e => (fun v : string * Z => mkLR v.2 e.1 v.1) <$> map_to_list e.2.
Fixpoint check_lists (data : list Z) (otOffset : Z) (expected : MemPostings) (refs : list listRef) : result postingsErr unit :=
  match refs with
  | [] => Ok tt
  | r :: rest =>
      let end_ := match rest with [] => otOffset | r' :: _ => lr_off r' end in
      ids ← readListBounded data (lr_off r) end_ (SeriesCount expected);
      if bool_decide (ids = Postings expected (lr_name r) (lr_value r)) then check_lists data otOffset expected rest
      else Err (PostingsMismatch (lr_name r) (lr_value r))
  end.
(** The sort is not stable in Go; two lists at one offset are refused in any order. *)
Definition fp_validate (data : list Z) (otOffset : Z) (t : table) (expected : MemPostings) : result postingsErr unit :=
  let refs := mkLR (t_allRefs t) "" "" :: refs_of (t_offsets t) in
  _ ← validatePairKeySet expected (t_offsets t);
  check_lists data otOffset expected (sort_by lr_off refs).

Definition newFilePostings (data : list Z) (expected : MemPostings) : result postingsErr filePostings :=
  let size := Z.of_nat (length data) in
  if size <? postingsHeaderSz + postingsFooterSz then Err PostingsShort else
  hdr ← read_or data 0 (Z.to_nat postingsHeaderSz);
  if negb (bool_decide (take 4 hdr = postingsMagic)) then Err PostingsMagic else
  if negb (bool_decide (drop 4 hdr = [postingsVersion])) then Err (PostingsVersion (be_val (drop 4 hdr))) else
  footer ← read_or data (size - postingsFooterSz) (Z.to_nat postingsFooterSz);
  let otOffset := i64 (be_val footer) in
  if ((otOffset <? postingsHeaderSz) || (size - postingsFooterSz <? otOffset))%bool then Err (PostingsTableOffset otOffset) else
  ot ← read_or data otOffset (Z.to_nat (size - postingsFooterSz - otOffset));
  '(n, ot) ← cut_or 4 ot PostingsTableCount;
  '(t, rest) ← read_table (Z.to_nat (be_val n)) otOffset (mkTable ∅ (-1) ∅ ∅) ot;
  if negb (length rest =? 0)%nat then Err (PostingsTrailing (length rest)) else
  if t_allRefs t <? 0 then Err PostingsNoAll else
  _ ← fp_validate data otOffset t expected;
  Ok (mkFP data false (t_offsets t) (t_allRefs t) otOffset (sort_str id (elements (t_names t))) (sort_str id <$> t_values t)).

(** ** Queries *)

Definition readList (fp : filePostings) (off : Z) : result postingsErr (list Z) :=
  c ← read_or (fp_data fp) off 4;
  let cnt := be_val c in
  if cnt =? 0 then Ok [] else
  if fp_otOffset fp <? i64 (i64 (off + 4) + cnt * 8) then Err (PostingsTooMany off cnt) else
  b ← read_or (fp_data fp) (i64 (off + 4)) (Z.to_nat (cnt * 8)); Ok (read_ids (Z.to_nat cnt) b).
(** The lists of the matchers; [None] when one matches nothing. *)
Fixpoint matcher_lists (fp : filePostings) (ms : list Pair) : result postingsErr (option (list (list Z))) :=
  match ms with
  | [] => Ok (Some [])
  | m :: rest =>
      match fp_offsets fp !! p_name m with
      | None => Ok None
      | Some vals =>
          match vals !! p_value m with
          | None => Ok None
          | Some off =>
              l ← readList fp off;
              match l with
              | [] => Ok None
              | _ => ls ← matcher_lists fp rest; Ok (option_map (cons l) ls)
              end
          end
      end
  end.
Definition fp_Select (fp : filePostings) (matchers : list Pair) : result postingsErr (list Z) :=
  if fp_closed fp then Err PostingsClosed else
  match matchers with
  | [] => readList fp (fp_allRefs fp)
  | _ =>
      ls ← matcher_lists fp matchers;
      Ok match ls with
         | None => []
         | Some lists => match sort_by (fun l => Z.of_nat (length l)) lists with [] => [] | l0 :: rest => intersect_all l0 rest end
         end
  end.
Definition fp_LabelNames (fp : filePostings) : list string := fp_names fp.
Definition fp_LabelValues (fp : filePostings) (name : string) : list string := default [] (fp_values fp !! name).
Definition fp_Close (fp : filePostings) : filePostings := mkFP (fp_data fp) true (fp_offsets fp) (fp_allRefs fp) (fp_otOffset fp) (fp_names fp) (fp_values fp).

(** ** What the reader's checks establish *)

Definition off_at (offsets : gmap string (gmap string Z)) (n v : string) : option Z := vals ← offsets !! n; vals !! v.
Definition in_region (otOffset off : Z) : Prop := postingsHeaderSz <= off /\ i64 (off + 4) <= otOffset.
Record table_ok (otOffset : Z) (t : table) : Prop := {
  to_offsets : forall n v off, off_at (t_offsets t) n v = Some off -> in_region otOffset off /\ (n, v) <> ("", "")%string;
  to_names : forall n, n ∈ t_names t <-> exists v, is_Some (off_at (t_offsets t) n v);
  to_values : forall n, NoDup (default [] (t_values t !! n)) /\ forall v, v ∈ default [] (t_values t !! n) <-> is_Some (off_at (t_offsets t) n v);
  to_all : 0 <= t_allRefs t -> in_region otOffset (t_allRefs t) }.

Lemma off_at_insert offsets name val off n v :
  off_at (<[name := <[val := off]> (default ∅ (offsets !! name))]> offsets) n v = if decide (n = name /\ v = val) then Some off else off_at offsets n v.
Proof.
  unfold off_at. destruct (decide (n = name)) as [->|Hn].
  - rewrite lookup_insert_eq. cbn [mbind option_bind]. destruct (decide (v = val)) as [->|Hv].
    + rewrite lookup_insert_eq, decide_True; done.
    + rewrite lookup_insert_ne, decide_False by naive_solver. destruct (offsets !! name); cbn; [done|by rewrite lookup_empty].
  - rewrite lookup_insert_ne, decide_False by naive_solver. done.
Qed.
Lemma table_entry_ok otOffset t name val off t' : table_ok otOffset t -> table_entry otOffset t name val off = Ok t' -> table_ok otOffset t'.
Proof.
  intros []. unfold table_entry. destruct (_ || _)%bool eqn:Eb; [done|]. apply orb_false_iff in Eb as [E1%Z.ltb_ge E2%Z.ltb_ge]. destruct (_ && _)%bool eqn:Es.
  - destruct (0 <=? t_allRefs t); [done|]. intros [= <-]. by split.
  - assert (Hne : (name, val) <> ("", "")%string) by (intros [= -> ->]; done).
    destruct (default ∅ (t_offsets t !! name) !! val) eqn:Ev; [done|]. intros [= <-].
    assert (Hnone : off_at (t_offsets t) name val = None) by (unfold off_at; by destruct (t_offsets t !! name)). split; cbn [t_offsets t_names t_values t_allRefs]; [| | |done].
    + intros n v o. rewrite off_at_insert. destruct (decide _) as [[-> ->]|]; [intros [= <-]; by split|apply to_offsets0].
    + intros n. rewrite elem_of_union, elem_of_singleton, to_names0. setoid_rewrite off_at_insert. split.
      * intros [->|[v Hv]]; [exists val; by rewrite decide_True|exists v; by destruct (decide _)].
      * intros [v Hv]. destruct (decide _) as [[-> ->]|]; [by left|right; eauto].
    + intros n. destruct (decide (n = name)) as [->|Hn].
      * rewrite lookup_insert_eq, default_Some_eq. destruct (to_values0 name) as [Hnd Hin]. split.
        -- apply NoDup_app. split_and!; [done| |apply NoDup_singleton]. intros v Hv%Hin ->%list_elem_of_singleton. rewrite Hnone in Hv. by destruct Hv.
        -- intros v. rewrite off_at_insert, elem_of_app, list_elem_of_singleton, Hin. destruct (decide (name = name /\ v = val)) as [[_ ->]|Hd]; [naive_solver|]. split; [|by left]. intros [?| ->]; [done|naive_solver].
      * rewrite lookup_insert_ne by done. destruct (to_values0 n) as [Hnd Hin]. split; [done|]. intros v. rewrite Hin, off_at_insert, decide_False by naive_solver. done.
Qed.
Lemma read_table_ok n otOffset t ot t' rest : table_ok otOffset t -> read_table n otOffset t ot = Ok (t', rest) -> table_ok otOffset t'.
Proof.
  revert t ot. induction n as [|n IH]; intros t ot Ht; cbn [read_table]; [by intros [= <- <-]|].
  destruct (cut_counted ot _ _) as [[name o1]|]; [|done]. cbn [mbind result_bind]. destruct (cut_counted o1 _ _) as [[val o2]|]; [|done]. cbn [mbind result_bind].
  destruct (cut_or 8 o2 _) as [[o o3]|]; [|done]. cbn [mbind result_bind]. destruct (table_entry _ _ _ _ _) as [t1|] eqn:Et; [|done]. cbn [mbind result_bind].
  apply IH. by eapply table_entry_ok.
Qed.
Lemma table_empty otOffset : table_ok otOffset (mkTable ∅ (-1) ∅ ∅).
Proof.
  assert (Hn : forall n v, off_at ∅ n v = None) by (intros; unfold off_at; by rewrite lookup_empty). split; cbn [t_offsets t_names t_values t_allRefs].
  - intros n v off. by rewrite Hn.
  - intros n. split; [by intros ?%elem_of_empty|]. intros [v [? Hv]]. by rewrite Hn in Hv.
  - intros n. rewrite lookup_empty. split; [constructor|]. intros v. rewrite Hn. split; [by intros ?%elem_of_nil|by intros [? ?]].
  - lia.
Qed.

(** *** The pairs of the file are those of the series *)

Definition table_pairs (offsets : gmap string (gmap string Z)) : list (string * string) :=
  map_to_list offsets ≫= fun e => (fun v : string * Z => (e.1, v.1)) <$> map_to_list e.2.
Lemma elem_of_table_pairs offsets n v : (n, v) ∈ table_pairs offsets <-> is_Some (off_at offsets n v).
Proof.
  unfold table_pairs, off_at. rewrite list_elem_of_bind. split.
  - intros ([n' vals] & ([v' o] & [= -> ->] & Hv%elem_of_map_to_list)%list_elem_of_fmap & Hn%elem_of_map_to_list). cbn in *. rewrite Hn. cbn. by rewrite Hv.
  - intros [o Ho]. destruct (offsets !! n) as [vals|] eqn:En; [|done]. cbn in Ho. exists (n, vals). split; [|by apply elem_of_map_to_list].
    apply list_elem_of_fmap. exists (v, o). split; [done|]. by apply elem_of_map_to_list.
Qed.
Lemma table_pairs_NoDup offsets : NoDup (table_pairs offsets).
Proof.
  unfold table_pairs. apply NoDup_bind.
  - intros [n1 v1] [n2 v2] [n v] H1%elem_of_map_to_list H2%elem_of_map_to_list (? & [= -> _] & _)%list_elem_of_fmap (? & [= -> _] & _)%list_elem_of_fmap. cbn in *. congruence.
  - intros [n vals] _. cbn. assert (E : (fun v : string * Z => (n, v.1)) <$> map_to_list vals = pair n <$> (map_to_list vals).*1) by (by rewrite <- list_fmap_compose).
    rewrite E. apply NoDup_fmap_2; [by intros ? ? [= ->]|apply NoDup_fst_map_to_list].
  - eapply NoDup_fmap_1, NoDup_fst_map_to_list.
Qed.
Lemma table_pairs_length offsets : length (table_pairs offsets) = sum_list ((fun e : string * gmap string Z => size e.2) <$> map_to_list offsets).
Proof.
  unfold table_pairs. induction (map_to_list offsets) as [|e l IH]; [done|]. cbn [mbind list_bind fmap list_fmap sum_list_with sum_list]. rewrite length_app, length_fmap, length_map_to_list.
  cbn. f_equal. exact IH.
Qed.
Lemma sorted_str_NoDup l : StronglySorted str_lt l -> NoDup l.
Proof.
  induction 1 as [|a l Hs IH Ha]; constructor; [|done]. intros Hin. rewrite Forall_forall in Ha. specialize (Ha a Hin). by apply str_lt_irrefl in Ha.
Qed.
Lemma file_pairs_NoDup mp db : postings_rep mp db -> NoDup (file_pairs mp).
Proof.
  intros Hp. unfold file_pairs. apply NoDup_bind.
  - by intros n1 n2 [n v] _ _ (? & [= -> _] & _)%list_elem_of_fmap (? & [= -> _] & _)%list_elem_of_fmap.
  - intros n _. apply NoDup_fmap_2; [by intros ? ? [= ->]|]. by apply sorted_str_NoDup, (LabelValues_rep mp db).
  - by apply sorted_str_NoDup, (LabelNames_rep mp db).
Qed.
Lemma elem_of_file_pairs mp db n v : postings_rep mp db -> (n, v) ∈ file_pairs mp <-> exists id ls, db !! id = Some ls /\ mkPair n v ∈ ls.
Proof.
  intros Hp. unfold file_pairs. rewrite list_elem_of_bind. split.
  - intros (n' & (v' & [= -> ->] & Hv)%list_elem_of_fmap & _). by apply (LabelValues_rep mp db) in Hv.
  - intros (id & ls & Hid & Hin). exists n. split; [|apply (LabelNames_rep mp db Hp); eauto]. apply list_elem_of_fmap_2, (LabelValues_rep mp db n Hp). eauto.
Qed.
Lemma file_pairs_list mp db n v : postings_rep mp db -> (n, v) ∈ file_pairs mp <-> list_at (p_m mp) n v <> [].
Proof. intros Hp. by rewrite (elem_of_file_pairs mp db), (list_at_nonempty mp db). Qed.

Lemma check_names_ok offsets pairs : check_names offsets pairs = Ok tt <-> Forall (fun e => is_Some (off_at offsets e.1 e.2)) pairs.
Proof.
  induction pairs as [|[n v] pairs IH]; cbn [check_names]; [done|]. rewrite Forall_cons, <- IH. unfold off_at. cbn [fst snd].
  destruct (offsets !! n) as [vals|]; cbn; [|split; [done|by intros [[? ?] _]]]. destruct (vals !! v); [naive_solver|]. split; [done|by intros [[? ?] _]].
Qed.
Lemma key_sets_agree mp db offsets : postings_rep mp db -> validatePairKeySet mp offsets = Ok tt <->
  forall n v, is_Some (off_at offsets n v) <-> (n, v) ∈ file_pairs mp.
Proof.
  intros Hp. unfold validatePairKeySet. pose proof (file_pairs_NoDup mp db Hp) as Hnd. pose proof (table_pairs_NoDup offsets) as Hnd'. rewrite <- table_pairs_length.
  setoid_rewrite <- elem_of_table_pairs. split.
  - destruct (check_names offsets (file_pairs mp)) as [[]|] eqn:Ec; [|done]. cbn [mbind result_bind]. destruct (Nat.eqb_spec (length (table_pairs offsets)) (length (file_pairs mp))) as [Hl|]; [|done]. intros _.
    apply check_names_ok in Ec. assert (Hsub : file_pairs mp ⊆+ table_pairs offsets).
    { apply NoDup_submseteq; [done|]. intros [n v] Hin. rewrite Forall_forall in Ec. by apply elem_of_table_pairs, (Ec (n, v)). }
    intros n v. by rewrite (submseteq_length_Permutation _ _ Hsub) by lia.
  - intros Heq. assert (Hperm : table_pairs offsets ≡ₚ file_pairs mp) by (apply NoDup_Permutation; [done..|]; intros [n v]; apply Heq).
    rewrite (proj2 (check_names_ok offsets (file_pairs mp))).
    + cbn [mbind result_bind]. by rewrite Hperm, Nat.eqb_refl.
    + apply Forall_forall. intros [n v] Hin. by apply elem_of_table_pairs, Heq.
Qed.

(** *** Every list is the expected one *)

Lemma read_at_some data off n b : read_at data off n = Some b -> 0 <= off /\ off + Z.of_nat n <= Z.of_nat (length data) /\ b = take n (drop (Z.to_nat off) data).
Proof.
  unfold read_at. destruct (_ || _)%bool eqn:Eb; [done|]. apply orb_false_iff in Eb as [E1%Z.ltb_ge E2%Z.ltb_ge]. unfold cut. rewrite length_drop.
  destruct (Nat.ltb_spec (length data - Z.to_nat off) n); [done|]. cbn. intros [= <-]. split_and!; [done|lia|done].
Qed.
Lemma read_at_app pre l rest : read_at (pre ++ l ++ rest) (Z.of_nat (length pre)) (length l) = Some l.
Proof.
  unfold read_at. rewrite (proj2 (Z.ltb_ge (Z.of_nat (length pre)) 0)), (proj2 (Z.ltb_ge (Z.of_nat (length (pre ++ l ++ rest))) _)) by (rewrite ?length_app; lia).
  cbn [orb]. rewrite Nat2Z.id, drop_app_length, cut_app by done. done.
Qed.

(** A list the validation read within bounds reads the same in a query. *)
Lemma readListBounded_readList data off end_ maxCount ids offs all ot names values closed : readListBounded data off end_ maxCount = Ok ids -> end_ <= ot ->
  readList (mkFP data closed offs all ot names values) off = Ok ids.
Proof.
  unfold readListBounded, readList. cbn [fp_data fp_otOffset]. destruct (read_or data off 4) as [c|]; [|done]. cbn [mbind result_bind]. destruct (Z.eqb_spec (i64 (i64 (off + 4) + be_val c * 8)) end_) as [E|]; [|done]. cbn [negb].
  destruct (Z.ltb_spec (Z.of_nat maxCount) (be_val c)); [done|]. destruct (Z.eqb_spec (be_val c) 0); [done|]. intros Hr Hle. rewrite (proj2 (Z.ltb_ge ot _)) by lia. exact Hr.
Qed.
Lemma readListBounded_fits data off end_ maxCount ids : readListBounded data off end_ maxCount = Ok ids -> 0 <= off /\ off + 4 <= Z.of_nat (length data).
Proof.
  unfold readListBounded, read_or. destruct (read_at data off 4) as [c|] eqn:Ec; [|done]. apply read_at_some in Ec as (H1 & H2 & _). intros _. split; [done|lia].
Qed.
Lemma check_lists_ok data ot expected refs : Z.of_nat (length data) <= MaxInt64 -> Forall (fun r => in_region ot (lr_off r)) refs -> check_lists data ot expected refs = Ok tt ->
  Forall (fun r => exists end_, end_ <= ot /\ readListBounded data (lr_off r) end_ (SeriesCount expected) = Ok (Postings expected (lr_name r) (lr_value r))) refs.
Proof.
  intros Hlen. induction refs as [|r rest IH]; intros HF; cbn [check_lists]; [by constructor|]. apply Forall_cons in HF as [Hr HF].
  destruct (readListBounded _ _ _ _) as [ids|] eqn:El; [|done]. cbn [mbind result_bind]. destruct (bool_decide_reflect (ids = Postings expected (lr_name r) (lr_value r))) as [->|]; [|done]. intros Hrest.
  specialize (IH HF Hrest). constructor; [|done]. eexists. split; [|exact El]. destruct rest as [|r' rest]; [done|].
  apply Forall_cons in IH as [(e & _ & Hb) _]. apply readListBounded_fits in Hb as [H0 H4]. apply Forall_cons in HF as [[_ Hle] _]. rewrite i64_id in Hle by (unfold in_i64, MaxInt64 in *; lia). lia.
Qed.
Lemma elem_of_refs_of offsets r : r ∈ refs_of offsets <-> off_at offsets (lr_name r) (lr_value r) = Some (lr_off r).
Proof.
  unfold refs_of, off_at. rewrite list_elem_of_bind. split.
  - intros ([n vals] & ([v o] & -> & Hv%elem_of_map_to_list)%list_elem_of_fmap & Hn%elem_of_map_to_list). cbn in *. rewrite Hn. exact Hv.
  - intros H. destruct (offsets !! lr_name r) as [vals|] eqn:En; [|done]. cbn in H. exists (lr_name r, vals). split; [|by apply elem_of_map_to_list].
    apply list_elem_of_fmap. exists (lr_value r, lr_off r). split; [by destruct r|]. by apply elem_of_map_to_list.
Qed.

(** What a reader knows of an accepted file. *)
Record accepted (fp : filePostings) (mp : MemPostings) : Prop := {
  ac_open : fp_closed fp = false;
  ac_keys : forall n v, is_Some (off_at (fp_offsets fp) n v) <-> list_at (p_m mp) n v <> [];
  ac_lists : forall n v off, off_at (fp_offsets fp) n v = Some off -> readList fp off = Ok (list_at (p_m mp) n v);
  ac_all : readList fp (fp_allRefs fp) = Ok (allRefs mp);
  ac_names : fp_names fp = idx_LabelNames mp;
  ac_values : forall n, fp_LabelValues fp n = idx_LabelValues mp n }.

Lemma sorted_strs_eq l l' : StronglySorted str_lt l -> StronglySorted str_lt l' -> (forall x, x ∈ l <-> x ∈ l') -> l = l'.
Proof.
  intros Hs Hs' Hin. apply (StronglySorted_strict_unique str_lt); [intros x y; apply str_lt_asym|done|done|]. intros x. rewrite <- !list_elem_of_In. apply Hin.
Qed.
Lemma sort_strings_sorted l : NoDup l -> StronglySorted str_lt (sort_str id l).
Proof. intros Hnd. apply (sort_str_sorted id). by rewrite list_fmap_id. Qed.

Lemma validated data ot t mp db fp : postings_rep mp db -> Z.of_nat (length data) <= MaxInt64 -> table_ok ot t -> 0 <= t_allRefs t -> fp_validate data ot t mp = Ok tt ->
  fp = mkFP data false (t_offsets t) (t_allRefs t) ot (sort_str id (elements (t_names t))) (sort_str id <$> t_values t) -> accepted fp mp.
Proof.
  intros Hp Hlen Ht Hall. unfold fp_validate. destruct (validatePairKeySet mp (t_offsets t)) as [[]|] eqn:Ek; [|done]. cbn [mbind result_bind]. intros Hcl ->.
  rewrite (key_sets_agree mp db _ Hp) in Ek. pose proof Ht as []. set (refs := mkLR (t_allRefs t) "" "" :: refs_of (t_offsets t)) in *.
  assert (Hreg : Forall (fun r => in_region ot (lr_off r)) (sort_by lr_off refs)).
  { apply Forall_forall. intros r. rewrite (sort_by_perm lr_off refs). intros [->|Hr]%elem_of_cons; [by apply to_all0|]. apply elem_of_refs_of in Hr. by apply to_offsets0 in Hr as [? _]. }
  pose proof (check_lists_ok _ _ _ _ Hlen Hreg Hcl) as Hlists. rewrite Forall_forall in Hlists. setoid_rewrite (sort_by_perm lr_off refs) in Hlists.
  assert (Hread : forall r, r ∈ refs -> readList (mkFP data false (t_offsets t) (t_allRefs t) ot (sort_str id (elements (t_names t))) (sort_str id <$> t_values t)) (lr_off r) = Ok (Postings mp (lr_name r) (lr_value r))).
  { intros r Hr. destruct (Hlists r Hr) as (e & He & Hb). by eapply readListBounded_readList. }
  split; cbn [fp_closed fp_offsets fp_allRefs fp_names]; [done| | | | |].
  - intros n v. by rewrite Ek, (file_pairs_list mp db).
  - intros n v off Hoff. pose proof (proj2 (to_offsets0 _ _ _ Hoff)) as Hne. 
    assert (Hr : mkLR off n v ∈ refs) by (right; by apply elem_of_refs_of). apply Hread in Hr. cbn [lr_off lr_name lr_value] in Hr. rewrite Hr. unfold Postings.
    destruct (String.eqb_spec n ""), (String.eqb_spec v ""); try done. by subst.
  - assert (Hr : mkLR (t_allRefs t) "" "" ∈ refs) by left. by apply Hread in Hr.
  - apply sorted_strs_eq; [apply sort_strings_sorted, NoDup_elements|by apply (LabelNames_rep mp db)|]. intros n. rewrite sort_str_perm, elem_of_elements, to_names0, (proj2 (LabelNames_rep mp db Hp) n).
    setoid_rewrite Ek. setoid_rewrite (elem_of_file_pairs mp db); [|done]. naive_solver.
  - intros n. unfold fp_LabelValues. cbn [fp_values]. rewrite lookup_fmap. destruct (to_values0 n) as [Hnd Hin].
    assert (E : default [] (sort_str id <$> t_values t !! n) = sort_str id (default [] (t_values t !! n))) by (by destruct (t_values t !! n)). rewrite E.
    apply sorted_strs_eq; [by apply sort_strings_sorted|by apply (LabelValues_rep mp db)|]. intros v. rewrite sort_str_perm, Hin, Ek, (elem_of_file_pairs mp db), (proj2 (LabelValues_rep mp db n Hp) v) by done. done.
Qed.
Lemma newFilePostings_accepted data mp db fp : postings_rep mp db -> Z.of_nat (length data) <= MaxInt64 -> newFilePostings data mp = Ok fp -> accepted fp mp.
Proof.
  intros Hp Hlen. unfold newFilePostings. destruct (_ <? _); [done|]. destruct (read_or data 0 _) as [hdr|]; [|done]. cbn [mbind result_bind]. destruct (negb _); [done|]. destruct (negb _); [done|].
  destruct (read_or data _ _) as [footer|]; [|done]. cbn [mbind result_bind]. destruct (_ || _)%bool; [done|]. destruct (read_or data _ _) as [ot|]; [|done]. cbn [mbind result_bind].
  destruct (cut_or 4 ot _) as [[n ot1]|]; [|done]. cbn [mbind result_bind]. destruct (read_table _ _ _ ot1) as [[t rest]|] eqn:Et; [|done]. cbn [mbind result_bind]. destruct (negb _); [done|].
  destruct (Z.ltb_spec (t_allRefs t) 0); [done|]. destruct (fp_validate _ _ _ _) as [[]|] eqn:Ev; [|done]. cbn [mbind result_bind]. intros [= <-].
  eapply validated; [exact Hp|exact Hlen| |done|exact Ev|done]. eapply read_table_ok; [apply table_empty|exact Et].
Qed.

Lemma matcher_lists_accepted fp mp ms : accepted fp mp -> matcher_lists fp ms = Ok (collect_lists (p_m mp) ms).
Proof.
  intros [_ Hk Hl _ _ _]. induction ms as [|m ms IH]; [done|]. cbn [matcher_lists collect_lists]. specialize (Hk (p_name m) (p_value m)). specialize (Hl (p_name m) (p_value m)).
  unfold off_at, list_at in Hk, Hl. destruct (fp_offsets fp !! p_name m) as [vals|]; cbn [mbind option_bind] in Hk, Hl.
  - destruct (vals !! p_value m) as [off|].
    + rewrite (Hl off) by done. cbn [mbind result_bind]. assert (Hne := proj1 Hk ltac:(by eexists)). destruct (p_m mp !! p_name m) as [vs|]; [|done].
      change (default ∅ (Some vs)) with vs in *. destruct (default [] (vs !! p_value m)) as [|x l]; [done|]. rewrite IH. cbn [mbind result_bind]. by destruct (collect_lists _ ms).
    + destruct (p_m mp !! p_name m) as [vs|]; [|done]. change (default ∅ (Some vs)) with vs in Hk. destruct (default [] (vs !! p_value m)); [done|]. by destruct (proj2 Hk ltac:(done)).
  - destruct (p_m mp !! p_name m) as [vs|]; [|done]. change (default ∅ (Some vs)) with vs in Hk. destruct (default [] (vs !! p_value m)); [done|]. by destruct (proj2 Hk ltac:(done)).
Qed.

Lemma accepted_queries fp mp ms name : accepted fp mp ->
  fp_Select fp ms = Ok (postings_Select mp ms) /\ fp_LabelNames fp = idx_LabelNames mp /\ fp_LabelValues fp name = idx_LabelValues mp name.
Proof.
  intros Ha. pose proof Ha as [Ho _ _ Hall Hn Hv]. split_and!; [|exact Hn|apply Hv].
  unfold fp_Select, postings_Select. rewrite Ho. destruct ms as [|m ms]; [done|]. rewrite (matcher_lists_accepted fp mp) by done. cbn [mbind result_bind]. by destruct (collect_lists _ _).
Qed.
