(* ===== verification/PostingsWritten.v ===== *)
(** * PostingsWritten: a written postings file is accepted

    The converse of [BlockPostings.accepted_postings_exact]: the reader takes the
    file that [writePostings] writes for the series of a block, so that file
    answers every query exactly. *)
From stdpp Require Import strings.
From S2P Require Import Prelude GoLib GoSort Postings BlockIndex BlockPostings.

(** ** The index implied by the series *)

Definition series_ops (entries : list (Z * list BlockLabel)) : list idx_op := (fun e => OpAdd e.1 (label_pair <$> e.2)) <$> entries.
Definition series_db (entries : list (Z * list BlockLabel)) : gmap Z (list Pair) := fold_left db_step (series_ops entries) ∅.

Lemma deletes_known_adds entries db : deletes_known db (series_ops entries).
Proof. revert db. induction entries as [|e entries IH]; intros db; [done|]. split; [done|apply IH]. Qed.
Lemma buildMemPostings_rep entries : postings_rep (buildMemPostings entries) (series_db entries).
Proof.
  assert (E : buildMemPostings entries = fold_left idx_step (series_ops entries) NewMemPostings).
  { unfold buildMemPostings, series_ops. generalize NewMemPostings. induction entries as [|e l IH]; intros mp; [done|]. apply IH. }
  rewrite E. apply history_rep; [apply NewMemPostings_rep|apply deletes_known_adds].
Qed.
Lemma series_db_in entries id ls : series_db entries !! id = Some ls -> exists labels, (id, labels) ∈ entries /\ ls = label_pair <$> labels.
Proof.
  unfold series_db. induction entries as [|[i labels] entries IH] using rev_ind; [cbn; by rewrite lookup_empty|].
  unfold series_ops in *. rewrite fmap_app, fold_left_app. cbn [fmap list_fmap fold_left db_step fst snd].
  assert (Hold : fold_left db_step ((fun e : Z * list BlockLabel => OpAdd e.1 (label_pair <$> e.2)) <$> entries) ∅ !! id = Some ls ->
    exists ls0, (id, ls0) ∈ entries ++ [(i, labels)] /\ ls = label_pair <$> ls0) by (intros H; destruct (IH H) as (l & Hin & ->); exists l; split; [apply elem_of_app; by left|done]).
  destruct (fold_left _ _ _ !! i) eqn:Ei; [exact Hold|]. destruct (decide (id = i)) as [->|Hne]; [|by rewrite lookup_insert_ne].
  rewrite lookup_insert_eq. intros [= <-]. exists labels. split; [|done]. apply elem_of_app. right. by left.
Qed.
Lemma series_db_NoDup entries id ls : NoDup entries.*1 -> series_db entries !! id = Some ls <-> exists labels, (id, labels) ∈ entries /\ ls = label_pair <$> labels.
Proof.
  intros Hnd. split; [apply series_db_in|]. intros (labels & Hin & ->). revert Hin. unfold series_db, series_ops.
  induction entries as [|[i lb] entries IH] using rev_ind; [by intros ?%elem_of_nil|]. rewrite fmap_app in Hnd. apply NoDup_app in Hnd as (Hnd & Hdis & _).
  rewrite fmap_app, fold_left_app, elem_of_app, list_elem_of_singleton. cbn [fmap list_fmap fold_left db_step fst snd]. fold (series_ops entries). fold (series_db entries).
  assert (Hi : series_db entries !! i = None).
  { destruct (series_db entries !! i) as [ls|] eqn:E; [|done]. apply series_db_in in E as (l0 & Hin & _). destruct (Hdis i); [by apply (list_elem_of_fmap_2 fst) in Hin|by left]. }
  rewrite Hi. intros [Hin|[= -> ->]]; [|by rewrite lookup_insert_eq]. rewrite lookup_insert_ne; [by apply IH|]. intros ->. unfold series_db, series_ops in Hi. by rewrite IH in Hi.
Qed.
Lemma SeriesCount_le entries : (SeriesCount (buildMemPostings entries) <= length entries)%nat.
Proof.
  destruct (buildMemPostings_rep entries) as [[Hs Hin] _ _]. unfold SeriesCount.
  assert (Hnd : NoDup (allRefs (buildMemPostings entries))) by (apply (StronglySorted_strict_NoDup Z.lt); [lia|done]).
  rewrite <- (length_fmap fst entries). apply submseteq_length, NoDup_submseteq; [done|]. intros i [ls Hi]%Hin.
  apply series_db_in in Hi as (labels & Hl & _). by apply (list_elem_of_fmap_2 fst) in Hl.
Qed.
Lemma Postings_strict mp db n v : postings_rep mp db -> strict (Postings mp n v) /\ forall id, id ∈ Postings mp n v -> is_Some (db !! id).
Proof.
  intros [[Ha Hin] Hl _]. unfold Postings. destruct (_ && _)%bool; [split; [done|by intros i ?%Hin]|]. destruct (Hl n v) as [Hs Hi]. split; [done|]. intros i (ls & -> & _)%Hi. by eexists.
Qed.
Lemma Postings_le_count mp db n v : postings_rep mp db -> (length (Postings mp n v) <= SeriesCount mp)%nat.
Proof.
  intros Hp. destruct (Postings_strict mp db n v Hp) as [Hs Hin]. apply submseteq_length, NoDup_submseteq; [apply (StronglySorted_strict_NoDup Z.lt); [lia|done]|].
  intros i Hi. by apply (rep_all mp db Hp), Hin.
Qed.

(** ** Lists and table, as written *)

Lemma read_or_at data off n pre l rest : data = pre ++ l ++ rest -> off = Z.of_nat (length pre) -> n = length l -> read_or data off n = Ok l.
Proof. intros -> -> ->. unfold read_or. by rewrite read_at_app. Qed.
Lemma length_ids ids : length (ids ≫= be_bytes 8) = (8 * length ids)%nat.
Proof. induction ids as [|i ids IH]; [done|]. cbn [mbind list_bind length]. rewrite length_app, IH, length_be_bytes. lia. Qed.
Lemma length_encode_ids ids : Z.of_nat (length (encode_ids ids)) = 4 + 8 * Z.of_nat (length ids).
Proof. unfold encode_ids. rewrite length_app, length_be_bytes, length_ids. lia. Qed.
Lemma read_ids_written ids : Forall in_u64 ids -> read_ids (length ids) (ids ≫= be_bytes 8) = ids.
Proof.
  induction 1 as [|i ids Hi _ IH]; [done|]. cbn [mbind list_bind length read_ids]. rewrite be_val_take, be_drop, IH. f_equal. by apply u64_id.
Qed.

Lemma readListBounded_written pre ids rest end_ maxCount : Forall in_u64 ids -> Z.of_nat (length ids) < 2 ^ 32 -> (length ids <= maxCount)%nat ->
  Z.of_nat (length (pre ++ encode_ids ids ++ rest)) <= MaxInt64 -> end_ = Z.of_nat (length pre) + Z.of_nat (length (encode_ids ids)) ->
  readListBounded (pre ++ encode_ids ids ++ rest) (Z.of_nat (length pre)) end_ maxCount = Ok ids.
Proof.
  intros Hids Hn Hmax Hlen ->. rewrite !length_app, !Nat2Z.inj_add, length_encode_ids in Hlen. rewrite length_encode_ids. unfold readListBounded.
  rewrite (read_or_at _ _ _ pre (be_bytes 4 (u32 (Z.of_nat (length ids)))) ((ids ≫= be_bytes 8) ++ rest)); [|unfold encode_ids; by rewrite <- app_assoc|done|by rewrite length_be_bytes].
  cbn [mbind result_bind]. rewrite be_val_u32 by lia. unfold MaxInt64 in Hlen. rewrite !i64_id by (rewrite ?i64_id; unfold in_i64; lia).
  rewrite (proj2 (Z.eqb_eq _ _)) by lia. cbn [negb]. rewrite (proj2 (Z.ltb_ge _ _)) by lia. destruct (Z.eqb_spec (Z.of_nat (length ids)) 0); [by destruct ids|].
  rewrite (read_or_at _ _ _ (pre ++ be_bytes 4 (u32 (Z.of_nat (length ids)))) (ids ≫= be_bytes 8) rest).
  - cbn [mbind result_bind]. by rewrite Nat2Z.id, read_ids_written.
  - unfold encode_ids. by rewrite <- !app_assoc.
  - rewrite length_app, length_be_bytes. lia.
  - rewrite length_ids. lia.
Qed.

(** The lists of the file in file order, with their offsets. *)
Definition placed (off : Z) (mp : MemPostings) (entries : list (string * string)) : list listRef :=
  zip_with (fun e o => mkLR o e.1 e.2) entries (list_offsets off ((fun e => Postings mp e.1 e.2) <$> entries)).
Definition list_bytes (mp : MemPostings) (entries : list (string * string)) : list Z := ((fun e => Postings mp e.1 e.2) <$> entries) ≫= encode_ids.
Lemma placed_cons off mp e entries : placed off mp (e :: entries) = mkLR off e.1 e.2 :: placed (off + Z.of_nat (length (encode_ids (Postings mp e.1 e.2)))) mp entries.
Proof. done. Qed.
Lemma list_bytes_cons mp e entries : list_bytes mp (e :: entries) = encode_ids (Postings mp e.1 e.2) ++ list_bytes mp entries.
Proof. done. Qed.

Lemma placed_ge off mp entries : Forall (fun r => off <= lr_off r /\ lr_off r + 4 <= off + Z.of_nat (length (list_bytes mp entries))) (placed off mp entries).
Proof.
  revert off. induction entries as [|e entries IH]; intros off; [constructor|]. rewrite placed_cons, list_bytes_cons, length_app. pose proof (length_encode_ids (Postings mp e.1 e.2)). constructor; [cbn; lia|].
  eapply Forall_impl; [apply IH|]. cbn. lia.
Qed.
Lemma placed_sorted off mp entries : StronglySorted (key_lt lr_off) (placed off mp entries).
Proof.
  revert off. induction entries as [|e entries IH]; intros off; [constructor|]. rewrite placed_cons. constructor; [apply IH|].
  eapply Forall_impl; [apply placed_ge|]. intros r [Hr _]. pose proof (length_encode_ids (Postings mp e.1 e.2)). unfold key_lt. cbn [lr_off] in *. lia.
Qed.
Lemma placed_names off mp entries : (fun r => (lr_name r, lr_value r)) <$> placed off mp entries = entries.
Proof. revert off. induction entries as [|[n v] entries IH]; intros off; [done|]. rewrite placed_cons, fmap_cons. f_equal. apply IH. Qed.

Section written.
Context (entries : list (Z * list BlockLabel)).
Notation mp := (buildMemPostings entries).
Context (Hids : Forall (fun e => in_u64 e.1) entries) (Hcount : Z.of_nat (length entries) < 2 ^ 32).

Lemma Postings_u64 n v : Forall in_u64 (Postings mp n v).
Proof.
  apply Forall_forall. intros i Hi. destruct (Postings_strict mp _ n v (buildMemPostings_rep entries)) as [_ H]. destruct (H i Hi) as [ls Hl].
  apply series_db_in in Hl as (labels & Hin & _). rewrite Forall_forall in Hids. by apply (Hids (i, labels)).
Qed.
Lemma Postings_few n v : Z.of_nat (length (Postings mp n v)) < 2 ^ 32.
Proof. pose proof (Postings_le_count mp _ n v (buildMemPostings_rep entries)). pose proof (SeriesCount_le entries). lia. Qed.

Lemma check_lists_written pre es rest : Z.of_nat (length (pre ++ list_bytes mp es ++ rest)) <= MaxInt64 ->
  check_lists (pre ++ list_bytes mp es ++ rest) (Z.of_nat (length pre) + Z.of_nat (length (list_bytes mp es))) mp (placed (Z.of_nat (length pre)) mp es) = Ok tt.
Proof.
  revert pre. induction es as [|e es IH]; intros pre Hlen; [done|]. rewrite placed_cons, list_bytes_cons in *. cbn [check_lists lr_off lr_name lr_value].
  rewrite <- (app_assoc (encode_ids _)) in *. erewrite readListBounded_written; [|apply Postings_u64|apply Postings_few|apply (Postings_le_count mp _ _ _ (buildMemPostings_rep entries))|exact Hlen|].
  - cbn [mbind result_bind]. rewrite bool_decide_true by done. specialize (IH (pre ++ encode_ids (Postings mp e.1 e.2))). rewrite (length_app pre), Nat2Z.inj_add, <- app_assoc in IH.
    rewrite (length_app (encode_ids _)), Nat2Z.inj_add, Z.add_assoc. by apply IH.
  - destruct es as [|e' es]; [cbn; rewrite length_app; cbn; lia|]. by rewrite placed_cons.
Qed.
End written.

(** ** The offset table, as written *)

Definition row_bytes (r : listRef) : list Z := encode_offset (lr_name r, lr_value r) (lr_off r).
Record row_fits (otOffset : Z) (r : listRef) : Prop := {
  rf_name : str_len (lr_name r) < 2 ^ 32;
  rf_value : str_len (lr_value r) < 2 ^ 32;
  rf_off : postingsHeaderSz <= lr_off r /\ lr_off r + 4 <= otOffset }.
Definition row_key (r : listRef) : string * string := (lr_name r, lr_value r).

Lemma cut_counted_str {E} s rest (e1 e2 : E) : str_len s < 2 ^ 32 -> cut_counted (encode_lenstr s ++ rest) e1 e2 = Ok (str_bytes s, rest).
Proof.
  intros Hs. unfold encode_lenstr, str_len in *. rewrite <- app_assoc, <- length_str_bytes. apply cut_counted_app. by rewrite length_str_bytes.
Qed.
Lemma read_table_S n otOffset t ot : read_table (S n) otOffset t ot =
  '(name, ot) ← cut_counted ot PostingsStringLength PostingsStringData;
  '(val, ot) ← cut_counted ot PostingsStringLength PostingsStringData;
  '(o, ot) ← cut_or 8 ot PostingsTableOffsets;
  t ← table_entry otOffset t (bytes_str name) (bytes_str val) (i64 (be_val o));
  read_table n otOffset t ot.
Proof. done. Qed.
Lemma read_table_row n otOffset t r rest : otOffset <= MaxInt64 -> row_fits otOffset r ->
  read_table (S n) otOffset t (row_bytes r ++ rest) = t' ← table_entry otOffset t (lr_name r) (lr_value r) (lr_off r); read_table n otOffset t' rest.
Proof.
  intros Hot [Hn Hv Ho]. rewrite read_table_S. unfold row_bytes, encode_offset. cbn [fst snd]. rewrite <- !app_assoc, !cut_counted_str, bind_Ok, cut_counted_str, bind_Ok by done.
  rewrite cut_or_app, bind_Ok by apply length_be_bytes. rewrite be_val_u64, i64_u64, i64_id, !bytes_str_bytes; [done| |apply in_u64_u64].
  unfold postingsHeaderSz, MaxInt64 in *. unfold in_i64. lia.
Qed.
Lemma table_entry_row otOffset t r : otOffset <= MaxInt64 -> row_fits otOffset r -> row_key r <> ("", "")%string -> off_at (t_offsets t) (lr_name r) (lr_value r) = None ->
  exists t', table_entry otOffset t (lr_name r) (lr_value r) (lr_off r) = Ok t' /\ t_allRefs t' = t_allRefs t /\
    forall n v, off_at (t_offsets t') n v = if decide (n = lr_name r /\ v = lr_value r) then Some (lr_off r) else off_at (t_offsets t) n v.
Proof.
  intros Hot [_ _ Ho] Hne Hnone. unfold table_entry, postingsHeaderSz, MaxInt64 in *. rewrite i64_id by (unfold in_i64; lia). rewrite (proj2 (Z.ltb_ge (lr_off r) _)), (proj2 (Z.ltb_ge otOffset _)) by lia.
  cbn [orb]. destruct (String.eqb_spec (lr_name r) "") as [En|En], (String.eqb_spec (lr_value r) "") as [Ev|Ev]; cbn [andb]; [by destruct Hne; unfold row_key; rewrite En, Ev| | |];
    (assert (Hl : default ∅ (t_offsets t !! lr_name r) !! lr_value r = None) by (unfold off_at in Hnone; by destruct (t_offsets t !! lr_name r)));
    rewrite Hl; (eexists; split; [done|split; [done|]]); cbn [t_offsets]; intros n v; apply off_at_insert.
Qed.
Lemma read_table_rows otOffset rows t rest : otOffset <= MaxInt64 -> Forall (row_fits otOffset) rows -> ("", "")%string ∉ row_key <$> rows -> NoDup (row_key <$> rows) ->
  Forall (fun r => off_at (t_offsets t) (lr_name r) (lr_value r) = None) rows ->
  exists t', read_table (length rows) otOffset t ((rows ≫= row_bytes) ++ rest) = Ok (t', rest) /\ t_allRefs t' = t_allRefs t /\
    forall n v o, off_at (t_offsets t') n v = Some o <-> mkLR o n v ∈ rows \/ off_at (t_offsets t) n v = Some o.
Proof.
  intros Hot. revert t. induction rows as [|r rows IH]; intros t HF Hno Hnd Hnew.
  - exists t. split; [done|]. split; [done|]. intros n v o. rewrite elem_of_nil. tauto.
  - apply Forall_cons in HF as [Hr HF]. apply Forall_cons in Hnew as [Hr' Hnew]. rewrite fmap_cons, not_elem_of_cons in Hno. destruct Hno as [Hk Hno]. rewrite fmap_cons, NoDup_cons in Hnd. destruct Hnd as [Hni Hnd].
    cbn [length mbind list_bind]. rewrite <- app_assoc, read_table_row by done. destruct (table_entry_row otOffset t r) as (t1 & -> & Ha & H1); [done|done|by intros E; apply Hk|done|]. cbn [mbind result_bind].
    destruct (IH t1) as (t2 & Ht2 & Ha2 & H2); [done|done|done| |].
    { rewrite Forall_forall in *. intros r' Hin. rewrite H1, decide_False; [by apply Hnew|]. intros [E1 E2]. apply Hni. apply list_elem_of_fmap. exists r'. split; [|done]. unfold row_key. by rewrite E1, E2. }
    exists t2. split; [exact Ht2|]. split; [by rewrite Ha2|]. intros n v o. rewrite H2, H1, elem_of_cons. destruct (decide _) as [[-> ->]|Hd].
    + rewrite Hr'. split; [intros [?|[= <-]]; [by left; right|left; left; by destruct r]|intros [[E|?]|?]; [|by left|done]]. right. by rewrite <- E.
    + split; [intros [?|?]; [by left; right|by right]|]. intros [[E|?]|?]; [|by left|by right]. exfalso. apply Hd. by rewrite <- E.
Qed.

(** ** The whole file *)

Record writable (entries : list (Z * list BlockLabel)) : Prop := {
  w_ids : Forall (fun e => in_u64 e.1) entries;
  w_labels : Forall (fun e => Forall (fun p => bl_Name p <> ""%string /\ label_fits p) e.2) entries;
  w_count : Z.of_nat (length entries) < 2 ^ 32;
  w_pairs : Z.of_nat (length (file_entries (buildMemPostings entries))) < 2 ^ 32;
  w_size : Z.of_nat (length (writePostings entries)) <= MaxInt64 }.

Lemma table_bytes_placed off mp entries :
  (zip entries (list_offsets off ((fun e => Postings mp e.1 e.2) <$> entries)) ≫= fun e => encode_offset e.1 e.2) = placed off mp entries ≫= row_bytes.
Proof. revert off. induction entries as [|[n v] entries IH]; intros off; [done|]. rewrite placed_cons. cbn [fmap list_fmap list_offsets zip_with mbind list_bind fst snd]. f_equal. apply IH. Qed.
Definition file_header : list Z := postingsMagic ++ [postingsVersion].
Lemma writePostings_layout entries : let mp := buildMemPostings entries in let es := file_entries mp in
  let body := list_bytes mp es in let otOffset := 5 + Z.of_nat (length body) in
  writePostings entries = file_header ++ body ++ (be_bytes 4 (u32 (Z.of_nat (length es))) ++ (placed 5 mp es ≫= row_bytes)) ++ be_bytes 8 (u64 otOffset).
Proof.
  cbn zeta. unfold writePostings. rewrite table_bytes_placed. fold (list_bytes (buildMemPostings entries) (file_entries (buildMemPostings entries))). cbv zeta.
  unfold file_header, postingsHeaderSz. rewrite <- !app_assoc. rewrite !(length_app postingsMagic). cbn [postingsMagic length]. rewrite (length_app [postingsVersion]). cbn [length].
  repeat f_equal. lia.
Qed.
Lemma refs_of_NoDup offsets : NoDup (refs_of offsets).
Proof.
  apply (NoDup_fmap_1 row_key). assert (E : row_key <$> refs_of offsets = table_pairs offsets); [|rewrite E; apply table_pairs_NoDup].
  unfold refs_of, table_pairs. induction (map_to_list offsets) as [|e l IH]; [done|]. cbn [mbind list_bind]. rewrite fmap_app, <- list_fmap_compose. f_equal. exact IH.
Qed.
Lemma refs_sorted off mp es offsets r0 : placed off mp es = r0 :: drop 1 (placed off mp es) ->
  (forall n v o, off_at offsets n v = Some o <-> mkLR o n v ∈ drop 1 (placed off mp es)) ->
  sort_by lr_off (r0 :: refs_of offsets) = placed off mp es.
Proof.
  intros E Hin. pose proof (placed_sorted off mp es) as Hs.
  assert (Hperm : r0 :: refs_of offsets ≡ₚ placed off mp es).
  { rewrite E. f_equiv. assert (HndP : NoDup (placed off mp es)) by (apply (StronglySorted_strict_NoDup (key_lt lr_off)); [unfold key_lt; lia|done]).
    rewrite E in HndP. apply NoDup_cons in HndP as [_ HndP]. apply NoDup_Permutation; [apply refs_of_NoDup|done|]. intros r. rewrite elem_of_refs_of, Hin. by destruct r. }
  apply (StronglySorted_unique_strong (key_le lr_off)).
  - intros x y Hx Hy Hxy Hyx. rewrite (sort_by_perm lr_off), Hperm in Hx. apply list_elem_of_lookup in Hx as [i Hi], Hy as [j Hj].
    destruct (lt_eq_lt_dec i j) as [[Hlt| ->]|Hlt]; [|congruence|]; pose proof (StronglySorted_lookup _ _ _ _ _ _ Hs Hlt ltac:(eassumption) ltac:(eassumption)); unfold key_le, key_lt in *; lia.
  - apply sort_by_sorted.
  - eapply StronglySorted_impl; [|exact Hs]. unfold key_le, key_lt. lia.
  - by rewrite sort_by_perm.
Qed.

Section accepted.
Context (entries : list (Z * list BlockLabel)) (Hw : writable entries).
Notation mp := (buildMemPostings entries).
Notation body := (list_bytes mp (file_entries mp)).
Notation otOffset := (5 + Z.of_nat (length body)).
Notation rows := (placed 5 mp (file_entries mp)).
Notation pairs_rows := (placed (5 + Z.of_nat (length (encode_ids (Postings mp "" "")))) mp (file_pairs mp)).

Lemma entries_pairs n v : (n, v) ∈ file_pairs mp -> n <> ""%string /\ str_len n < 2 ^ 32 /\ str_len v < 2 ^ 32.
Proof.
  rewrite (elem_of_file_pairs mp _ _ _ (buildMemPostings_rep entries)). intros (i & ls & (labels & Hin & ->)%series_db_in & Hp).
  apply list_elem_of_fmap in Hp as (p & [= -> ->] & Hp). pose proof (w_labels _ Hw) as HF. rewrite Forall_forall in HF. specialize (HF _ Hin). rewrite Forall_forall in HF. destruct (HF p Hp) as [? [? ?]]. done.
Qed.
Lemma rows_cons : rows = mkLR 5 "" "" :: pairs_rows.
Proof. apply placed_cons. Qed.
Lemma size_bounds : Z.of_nat (length (writePostings entries)) = otOffset + 4 + Z.of_nat (length (rows ≫= row_bytes)) + 8 /\ otOffset + 12 <= MaxInt64.
Proof.
  pose proof (w_size _ Hw) as H. rewrite writePostings_layout in *. cbv zeta in *. rewrite !length_app, !length_be_bytes in *. cbn [file_header postingsMagic length app] in *. lia.
Qed.
Lemma rows_fit : Forall (row_fits otOffset) rows.
Proof.
  apply Forall_forall. intros r Hr. pose proof (placed_ge 5 mp (file_entries mp)) as HF. rewrite Forall_forall in HF. specialize (HF r Hr).
  assert (Hk : row_key r ∈ file_entries mp) by (rewrite <- (placed_names 5 mp (file_entries mp)); by apply (list_elem_of_fmap_2 row_key)).
  destruct r as [o n v]. unfold row_key in Hk. cbn [lr_off lr_name lr_value] in *. unfold file_entries in Hk. apply elem_of_cons in Hk as [[= -> ->]|Hk%entries_pairs]; split; cbn [lr_off lr_name lr_value]; unfold postingsHeaderSz; try lia; try done; apply Hk.
Qed.
Lemma read_written_table : exists t,
  read_table (length rows) otOffset (mkTable ∅ (-1) ∅ ∅) (rows ≫= row_bytes) = Ok (t, []) /\ t_allRefs t = 5 /\
  forall n v o, off_at (t_offsets t) n v = Some o <-> mkLR o n v ∈ pairs_rows.
Proof.
  pose proof rows_fit as HF. destruct size_bounds as [_ Hot]. rewrite rows_cons in *. apply Forall_cons in HF as [H0 HF]. cbn [length].
  rewrite bind_cons, <- (app_nil_r (pairs_rows ≫= row_bytes)). rewrite read_table_row by (done || lia). cbn [lr_name lr_value lr_off].
  unfold table_entry. destruct H0 as [_ _ H0]. cbn [lr_off] in H0. rewrite i64_id by (unfold in_i64, MaxInt64 in *; lia). unfold postingsHeaderSz in *. rewrite (proj2 (Z.ltb_ge 5 5)), (proj2 (Z.ltb_ge otOffset (5 + 4))) by lia.
  cbn [orb String.eqb andb t_allRefs Z.leb Z.compare t_offsets t_values t_names]. rewrite bind_Ok.
  assert (Hkeys : row_key <$> pairs_rows = file_pairs mp) by apply placed_names.
  destruct (read_table_rows otOffset pairs_rows (mkTable ∅ 5 ∅ ∅) []) as (t & Ht & Ha & Hoff); [lia|done| | | |].
  - rewrite Hkeys. by intros [? _]%entries_pairs.
  - rewrite Hkeys. apply (file_pairs_NoDup mp _ (buildMemPostings_rep entries)).
  - apply Forall_forall. intros r _. unfold off_at. cbn. by rewrite lookup_empty.
  - exists t. split; [exact Ht|]. split; [done|]. intros n v o. rewrite Hoff. unfold off_at at 1. cbn. rewrite lookup_empty. cbn. naive_solver.
Qed.
Lemma validate_written t data : t_allRefs t = 5 -> (forall n v o, off_at (t_offsets t) n v = Some o <-> mkLR o n v ∈ pairs_rows) ->
  data = writePostings entries -> fp_validate data otOffset t mp = Ok tt.
Proof.
  intros Ha Hoff ->. unfold fp_validate. rewrite Ha. rewrite (proj2 (key_sets_agree mp _ (t_offsets t) (buildMemPostings_rep entries))), bind_Ok.
  - rewrite (refs_sorted 5 mp (file_entries mp)); [|by rewrite rows_cons|intros n v o; rewrite rows_cons; apply Hoff].
    pose proof (w_size _ Hw) as Hsz. rewrite writePostings_layout in *. cbv zeta in *.
    apply (check_lists_written entries (w_ids _ Hw) (w_count _ Hw) file_header (file_entries mp)). exact Hsz.
  - intros n v. rewrite <- (placed_names (5 + Z.of_nat (length (encode_ids (Postings mp "" "")))) mp (file_pairs mp)), list_elem_of_fmap. split.
    + intros [o Ho%Hoff]. by exists (mkLR o n v).
    + intros ([o n' v'] & [= -> ->] & Hin). exists o. by apply Hoff.
Qed.
Lemma written_accepted : exists fp, newFilePostings (writePostings entries) mp = Ok fp.
Proof.
  destruct size_bounds as [Hsz Hot]. destruct read_written_table as (t & Ht & Ha & Hoff). pose proof (writePostings_layout entries) as HL. cbv zeta in HL. unfold newFilePostings.
  assert (Hlen : Z.of_nat (length (rows ≫= row_bytes)) >= 0) by lia. unfold postingsHeaderSz, postingsFooterSz, MaxInt64 in *.
  rewrite (proj2 (Z.ltb_ge _ _)) by lia. rewrite (read_or_at _ 0 _ [] file_header _ HL), bind_Ok by done. cbn [file_header postingsMagic app take drop].
  rewrite !bool_decide_true by done. cbn [negb].
  rewrite (read_or_at _ _ _ (file_header ++ body ++ be_bytes 4 (u32 (Z.of_nat (length (file_entries mp)))) ++ (rows ≫= row_bytes)) (be_bytes 8 (u64 otOffset)) []), bind_Ok.
  2:{ rewrite HL, app_nil_r. by rewrite <- !app_assoc. }
  2:{ rewrite Hsz, !length_app, length_be_bytes. cbn [file_header postingsMagic length app]. lia. }
  2: by rewrite length_be_bytes.
  rewrite be_val_u64, i64_u64, i64_id by (try apply in_u64_u64; unfold in_i64; lia). rewrite (proj2 (Z.ltb_ge otOffset 5)), (proj2 (Z.ltb_ge (_ - 8) _)) by lia. cbn [orb].
  rewrite (read_or_at _ _ _ (file_header ++ body) (be_bytes 4 (u32 (Z.of_nat (length (file_entries mp)))) ++ (rows ≫= row_bytes)) (be_bytes 8 (u64 otOffset))), bind_Ok.
  2:{ rewrite HL. by rewrite <- !app_assoc. }
  2:{ rewrite length_app. cbn [file_header postingsMagic length app]. lia. }
  2:{ rewrite Hsz, length_app, length_be_bytes. lia. }
  rewrite cut_or_app, bind_Ok by apply length_be_bytes. rewrite be_val_u32, Nat2Z.id by (pose proof (w_pairs _ Hw); lia).
  assert (El : length (file_entries mp) = length rows) by (by rewrite <- (placed_names 5 mp (file_entries mp)), length_fmap at 1). rewrite El, Ht, bind_Ok. cbn [length Nat.eqb negb].
  rewrite Ha. cbn [Z.ltb Z.compare]. rewrite (validate_written t) by done. rewrite bind_Ok. by eexists.
Qed.
End accepted.

(** No accepted postings file can lie. Whatever bytes are in the file, if the
    reader accepts it against the index implied by the series of the block, then
    every select, label-name and label-value query on the file gives exactly what
    that index gives, and none fails. *)
Theorem accepted_postings_exact data mp db fp ms name : postings_rep mp db -> Z.of_nat (length data) <= MaxInt64 -> newFilePostings data mp = Ok fp ->
  fp_Select fp ms = Ok (postings_Select mp ms) /\ fp_LabelNames fp = idx_LabelNames mp /\ fp_LabelValues fp name = idx_LabelValues mp name.
Proof. intros Hp Hlen Hacc. by eapply accepted_queries, newFilePostings_accepted. Qed.

Definition demo_series : list (Z * list BlockLabel) := [(9, [mkBL "env" "prod"; mkBL "job" "api"]); (4, [mkBL "job" "api"])].
Lemma accepted_postings_exact_witness : exists fp, newFilePostings (writePostings demo_series) (buildMemPostings demo_series) = Ok fp /\
  fp_Select fp [mkPair "job" "api"] = Ok (postings_Select (buildMemPostings demo_series) [mkPair "job" "api"]) /\ fp_Select fp [mkPair "job" "api"] = Ok [4; 9].
Proof.
  destruct (newFilePostings (writePostings demo_series) (buildMemPostings demo_series)) as [fp|] eqn:E; [|vm_compute in E; discriminate E].
  exists fp. split; [done|]. pose proof (accepted_postings_exact (writePostings demo_series) (buildMemPostings demo_series) (series_db demo_series) fp [mkPair "job" "api"] "job"
    (buildMemPostings_rep demo_series) ltac:(vm_compute; discriminate) E) as [H _]. split; [exact H|]. rewrite H. vm_compute. reflexivity.
Defined.
