(* ===== verification/Block.v ===== *)
(** * Block: block directories, their writer and their reader

    [internal/storage/block/writer.go], [reader.go] and [meta.go]: a writer takes
    series with their sealed chunks and commits them as one directory of four
    files; a reader opens such a directory, binds every chunk reference to its
    record, and hands the chunks back. [meta.json] is its [Meta] value: its text is
    [encoding/json]'s. *)
From stdpp Require Import strings.
From S2P Require Import Prelude GoLib GoSort Bits Chunk Postings BlockIndex BlockPostings PostingsWritten.

(** ** Metadata and directories *)

Record Meta := mkMeta {
  m_BlockID : string; m_MinTime : Z; m_MaxTime : Z; m_NumSeries : Z; m_NumSamples : Z; m_CreatedAt : Z;
  m_Level : Z; m_Sources : list string; m_MaxGen : Z; m_Tenant : string }.
Definition EffectiveLevel (m : Meta) : Z := if m_Level m <=? 0 then 1 else m_Level m.

(** The files of a block directory; [None] is a file that is not there (for
    [meta.json], also one that does not parse). *)
Record blockDir := mkDir { d_chunks : option (list Z); d_index : option (list Z); d_postings : option (list Z); d_meta : option Meta }.

(** ** The writer *)

Record Writer := mkWriter {
  w_blockID : string; w_tenant : string; w_open : bool; w_series : list seriesData; w_seriesIDs : gset Z;
  w_minTime : Z; w_maxTime : Z; w_numSamples : Z; w_level : Z; w_sources : list string; w_maxGen : Z }.
Inductive writerErr :=
  | DuplicateSeries (id : Z) | EmptyLabelName (id : Z) | DuplicateLabel (name : string) (id : Z)
  | WriterClosed | WriteFailed.

Definition NewWriter (blockID : string) : Writer := mkWriter blockID "" true [] ∅ MaxInt64 MinInt64 0 0 [] 0.
Definition SetCompaction (level : Z) (sources : list string) (w : Writer) : Writer :=
  mkWriter (w_blockID w) (w_tenant w) (w_open w) (w_series w) (w_seriesIDs w) (w_minTime w) (w_maxTime w) (w_numSamples w) level sources (w_maxGen w).
Definition SetTenant (id : string) (w : Writer) : Writer :=
  mkWriter (w_blockID w) id (w_open w) (w_series w) (w_seriesIDs w) (w_minTime w) (w_maxTime w) (w_numSamples w) (w_level w) (w_sources w) (w_maxGen w).

Definition canonicalizeLabels (pairs : list BlockLabel) : list BlockLabel := sort_str bl_Name pairs.
Fixpoint check_label_names (id : Z) (prev : option string) (labels : list BlockLabel) : result writerErr unit :=
  match labels with
  | [] => Ok tt
  | l :: rest =>
      if String.eqb (bl_Name l) "" then Err (EmptyLabelName id) else
      if bool_decide (prev = Some (bl_Name l)) then Err (DuplicateLabel (bl_Name l) id) else
      check_label_names id (Some (bl_Name l)) rest
  end.
(** The loop over a series' chunks: counts, bounds and the largest generation. *)
Record figures := mkFigures { f_numSamples : Z; f_minTime : Z; f_maxTime : Z; f_maxGen : Z }.
Definition count_chunk (f : figures) (c : Chunk) : figures :=
  if numSamples c =? 0 then f else
  mkFigures (i64 (f_numSamples f + numSamples c))
    (if minTs c <? f_minTime f then minTs c else f_minTime f)
    (if f_maxTime f <? maxTs c then maxTs c else f_maxTime f)
    (if f_maxGen f <? maxGen c then maxGen c else f_maxGen f).
Definition AddSeries (w : Writer) (id : Z) (labels : list BlockLabel) (chunks : list Chunk) : result writerErr Writer :=
  if bool_decide (id ∈ w_seriesIDs w) then Err (DuplicateSeries id) else
  let labels := canonicalizeLabels labels in
  _ ← check_label_names id None labels;
  let f := fold_left count_chunk chunks (mkFigures (w_numSamples w) (w_minTime w) (w_maxTime w) (w_maxGen w)) in
  Ok (mkWriter (w_blockID w) (w_tenant w) (w_open w) (w_series w ++ [mkSD id labels chunks]) ({[id]} ∪ w_seriesIDs w)
        (f_minTime f) (f_maxTime f) (f_numSamples f) (w_level w) (w_sources w) (f_maxGen f)).

(** Where [Commit] fails: writing or syncing a file of the temporary directory, or
    making the parent; the rename; or the sync of the parent after it. *)
Inductive commit_fault := FaultBeforeRename | FaultAfterRename.
Definition sd_entry (sd : seriesData) : Z * list BlockLabel := (sd_id sd, sd_labels sd).
Definition commit_meta (w : Writer) (now : Z) : Meta :=
  let '(mn, mx) := if w_numSamples w =? 0 then (0, 0) else (w_minTime w, w_maxTime w) in
  mkMeta (w_blockID w) mn mx (Z.of_nat (length (w_series w))) (w_numSamples w) now
    (if w_level w <=? 0 then 1 else w_level w) (w_sources w) (w_maxGen w) (w_tenant w).
Definition commit_dir (w : Writer) (now : Z) : blockDir :=
  let '(chunks, index) := writeChunksAndIndex (w_series w) in
  mkDir (Some chunks) (Some index) (Some (writePostings (sd_entry <$> w_series w))) (Some (commit_meta w now)).
Definition close_writer (w : Writer) : Writer :=
  mkWriter (w_blockID w) (w_tenant w) false (w_series w) (w_seriesIDs w) (w_minTime w) (w_maxTime w) (w_numSamples w) (w_level w) (w_sources w) (w_maxGen w).
(** [blocks] is the block directory: the committed blocks by ID. The rename fails
    when the destination is already there, since a block directory is not empty. *)
Definition Commit (fault : option commit_fault) (now : Z) (w : Writer) (blocks : gmap string blockDir) :
    result writerErr Meta * Writer * gmap string blockDir :=
  if negb (w_open w) then (Err WriterClosed, w, blocks) else
  let published := <[w_blockID w := commit_dir w now]> blocks in
  match fault, blocks !! w_blockID w with
  | Some FaultBeforeRename, _ | _, Some _ => (Err WriteFailed, w, blocks)
  | Some FaultAfterRename, None => (Err WriteFailed, w, published)
  | None, None => (Ok (commit_meta w now), close_writer w, published)
  end.
Definition Abort (w : Writer) : Writer := close_writer w.

(** ** The reader *)

Inductive readerErr :=
  | MetaUnreadable | BlockIDMismatch (id dir : string) | IndexMissing | IndexBad (e : indexErr) | DuplicateSeriesID (id : Z)
  | PostingsBad (e : postingsErr) | ZeroLength (off : Z) | ReaderClosed | ChunksMissing | ChunkRead (off : Z) | ChunkBad (e : chunkErr)
  | RefBounds (id : Z) | RefHeader (id : Z) | RefSeries (id got : Z) | RefLength (id : Z).
Inductive blockPostings := FilePostings (fp : filePostings) | MemPostingsOf (mp : MemPostings).
Record Reader := mkReader {
  r_meta : Meta; r_entries : list SeriesEntry; r_byID : gmap Z nat; r_postings : blockPostings; r_chunks : option (list Z); r_closed : bool }.

Definition se_entry (se : SeriesEntry) : Z * list BlockLabel := (se_ID se, se_Labels se).
Fixpoint buildSeriesByID_from (i : nat) (byID : gmap Z nat) (entries : list SeriesEntry) : result readerErr (gmap Z nat) :=
  match entries with
  | [] => Ok byID
  | se :: rest =>
      match byID !! se_ID se with
      | Some _ => Err (DuplicateSeriesID (se_ID se))
      | None => buildSeriesByID_from (S i) (<[se_ID se := i]> byID) rest
      end
  end.
Definition buildSeriesByID (entries : list SeriesEntry) : result readerErr (gmap Z nat) := buildSeriesByID_from 0 ∅ entries.
Definition loadPostings (file : option (list Z)) (entries : list SeriesEntry) : result readerErr blockPostings :=
  let mp := buildMemPostings (se_entry <$> entries) in
  match file with
  | None => Ok (MemPostingsOf mp)
  | Some data => match newFilePostings data mp with Ok fp => Ok (FilePostings fp) | Err e => Err (PostingsBad e) end
  end.
Definition OpenReader (name : string) (d : blockDir) : result readerErr Reader :=
  match d_meta d with
  | None => Err MetaUnreadable
  | Some meta =>
      if negb (String.eqb (m_BlockID meta) name) then Err (BlockIDMismatch (m_BlockID meta) name) else
      match d_index d with
      | None => Err IndexMissing
      | Some index =>
          match readIndex index with
          | Err e => Err (IndexBad e)
          | Ok entries =>
              byID ← buildSeriesByID entries;
              postings ← loadPostings (d_postings d) entries;
              Ok (mkReader meta entries byID postings (d_chunks d) false)
          end
      end
  end.

Definition SetReconciledMeta (r : Reader) (m : Meta) : result readerErr Reader :=
  if negb (String.eqb (m_BlockID m) (m_BlockID (r_meta r))) then Err (BlockIDMismatch (m_BlockID m) (m_BlockID (r_meta r)))
  else Ok (mkReader m (r_entries r) (r_byID r) (r_postings r) (r_chunks r) (r_closed r)).
Definition SeriesByID (r : Reader) (id : Z) : option SeriesEntry := i ← r_byID r !! id; r_entries r !! i.
Definition r_Select (r : Reader) (matchers : list Pair) : result readerErr (list Z) :=
  match r_postings r with
  | FilePostings fp => match fp_Select fp matchers with Ok ids => Ok ids | Err e => Err (PostingsBad e) end
  | MemPostingsOf mp => Ok (postings_Select mp matchers)
  end.
Definition r_LabelNames (r : Reader) : list string :=
  match r_postings r with FilePostings fp => fp_LabelNames fp | MemPostingsOf mp => idx_LabelNames mp end.
Definition r_LabelValues (r : Reader) (name : string) : list string :=
  match r_postings r with FilePostings fp => fp_LabelValues fp name | MemPostingsOf mp => idx_LabelValues mp name end.
Definition ReadChunk (r : Reader) (ref : ChunkRef) : result readerErr Chunk :=
  if ref_Length ref =? 0 then Err (ZeroLength (ref_Offset ref)) else
  if r_closed r then Err ReaderClosed else
  match r_chunks r with
  | None => Err ChunksMissing
  | Some data =>
      match read_at data (ref_Offset ref) (Z.to_nat (ref_Length ref)) with
      | None => Err (ChunkRead (ref_Offset ref))
      | Some buf => match FromBytes buf with Ok c => Ok c | Err e => Err (ChunkBad e) end
      end
  end.
(** One reference: it lies in the file, behind a header that names its series and
    its length. *)
Definition validate_ref (data : list Z) (id : Z) (ref : ChunkRef) : result readerErr unit :=
  let size := Z.of_nat (length data) in
  if ((ref_Offset ref <? 12) || (ref_Length ref =? 0) || (size <? i64 (ref_Offset ref + ref_Length ref)))%bool then Err (RefBounds id) else
  match read_at data (i64 (ref_Offset ref - 12)) 12 with
  | None => Err (RefHeader id)
  | Some hdr =>
      let gotID := be_val (take 8 hdr) in
      let gotLen := be_val (drop 8 hdr) in
      if negb (gotID =? id) then Err (RefSeries id gotID) else
      if negb (gotLen =? ref_Length ref) then Err (RefLength id) else Ok tt
  end.
Fixpoint validate_refs (data : list Z) (refs : list (Z * ChunkRef)) : result readerErr unit :=
  match refs with [] => Ok tt | (id, ref) :: rest => _ ← validate_ref data id ref; validate_refs data rest end.
Definition chunk_refs (entries : list SeriesEntry) : list (Z * ChunkRef) := entries ≫= fun se => pair (se_ID se) <$> se_Chunks se.
Definition ValidateChunkRefs (r : Reader) : result readerErr unit :=
  if r_closed r then Err ReaderClosed else
  match r_chunks r with None => Err ChunksMissing | Some data => validate_refs data (chunk_refs (r_entries r)) end.
Definition r_Close (r : Reader) : Reader :=
  mkReader (r_meta r) (r_entries r) (r_byID r)
    match r_postings r with FilePostings fp => FilePostings (fp_Close fp) | MemPostingsOf mp => MemPostingsOf mp end (r_chunks r) true.

(** ** Layout of the chunks file *)

(** [ref] is where [c] lies in the chunks file, behind a header naming [id]. *)
Definition placed_ref (data : list Z) (id : Z) (c : Chunk) (ref : ChunkRef) : Prop := exists pre post,
  data = pre ++ chunk_record id c ++ post /\ ref = mkRef (Z.of_nat (length pre) + 12) (Z.of_nat (length (Bytes c))).
Definition chunk_fits (c : Chunk) : Prop := ships c /\ Z.of_nat (length (Bytes c)) < 2 ^ 32.

Lemma length_chunk_record id c : length (chunk_record id c) = (12 + length (Bytes c))%nat.
Proof. unfold chunk_record. rewrite !length_app, !length_be_bytes. lia. Qed.

Lemma write_chunks_placed data id cs pre rest refs bytes off : Forall chunk_fits cs -> Z.of_nat (length data) <= MaxInt64 ->
  write_chunks id (Z.of_nat (length pre)) cs = (refs, bytes, off) -> data = pre ++ bytes ++ rest ->
  off = Z.of_nat (length (pre ++ bytes)) /\ Forall2 (placed_ref data id) cs refs.
Proof.
  intros HF Hlen. revert pre refs bytes off. induction HF as [|c cs [_ Hc] HF IH]; intros pre refs bytes off; cbn [write_chunks]; [intros [= <- <- <-] _; by rewrite app_nil_r|].
  destruct (write_chunks _ _ cs) as [[locs bs] o] eqn:E. intros [[<- <-]%pair_equal_spec <-]%pair_equal_spec Hd. rewrite <- app_assoc in Hd.
  assert (Hl : Z.of_nat (length (pre ++ chunk_record id c)) = Z.of_nat (length pre) + 12 + Z.of_nat (length (Bytes c))) by (rewrite length_app, length_chunk_record; lia).
  assert (Hmax : Z.of_nat (length (pre ++ chunk_record id c)) <= MaxInt64) by (rewrite Hd, app_assoc, length_app in Hlen; lia).
  rewrite Hl in Hmax. unfold MaxInt64 in Hmax. rewrite i64_add_r in E. rewrite i64_id in E by (unfold in_i64; lia). rewrite i64_id by (unfold in_i64; lia).
  replace (Z.of_nat (length pre) + (12 + Z.of_nat (length (Bytes c)))) with (Z.of_nat (length (pre ++ chunk_record id c))) in E by lia.
  destruct (IH _ _ _ _ E) as [-> IHF]; [by rewrite Hd, <- app_assoc|]. rewrite <- app_assoc. split; [done|]. constructor; [|done].
  exists pre, (bs ++ rest). split; [exact Hd|]. by rewrite u32_id by (unfold in_u32; lia).
Qed.
Definition series_fits (sd : seriesData) : Prop := Forall chunk_fits (sd_chunks sd).
Lemma write_series_placed data series pre rest allLocs bytes : Forall series_fits series -> Z.of_nat (length data) <= MaxInt64 ->
  write_series (Z.of_nat (length pre)) series = (allLocs, bytes) -> data = pre ++ bytes ++ rest ->
  Forall2 (fun sd refs => Forall2 (placed_ref data (sd_id sd)) (sd_chunks sd) refs) series allLocs.
Proof.
  intros HF Hlen. revert pre allLocs bytes. induction HF as [|sd series Hsd HF IH]; intros pre allLocs bytes; cbn [write_series]; [intros [= <- <-] _; constructor|].
  destruct (write_chunks _ _ _) as [[locs bs] off] eqn:E. destruct (write_series off series) as [als rs] eqn:E2. intros [<- <-]%pair_equal_spec Hd. rewrite <- app_assoc in Hd.
  destruct (write_chunks_placed _ _ _ _ _ _ _ _ Hsd Hlen E Hd) as [-> Hp]. constructor; [exact Hp|]. apply (IH _ _ _ E2). by rewrite Hd, <- app_assoc.
Qed.

Lemma placed_validates data id c ref : chunk_fits c -> in_u64 id -> Z.of_nat (length data) <= MaxInt64 -> placed_ref data id c ref -> validate_ref data id ref = Ok tt.
Proof.
  intros [_ Hc] Hid Hlen (pre & post & -> & ->). unfold validate_ref. cbn [ref_Offset ref_Length]. pose proof (Bytes_long c). rewrite !length_app, length_chunk_record in *. unfold MaxInt64 in *.
  rewrite !i64_id by (unfold in_i64; lia). rewrite (proj2 (Z.ltb_ge _ 12)), (proj2 (Z.eqb_neq _ 0)), (proj2 (Z.ltb_ge _ _)) by lia. cbn [orb].
  unfold chunk_record. replace (Z.of_nat (length pre) + 12 - 12) with (Z.of_nat (length pre)) by lia. rewrite <- !app_assoc, (app_assoc (be_bytes 8 id)).
  change 12%nat with (length (be_bytes 8 id ++ be_bytes 4 (u32 (Z.of_nat (length (Bytes c)))))). rewrite read_at_app.
  rewrite (proj1 (take_drop_app 8 _ _ (length_be_bytes 8 id))), (proj2 (take_drop_app 8 _ _ (length_be_bytes 8 id))), be_val_u64, be_val_u32 by (done || lia). by rewrite !Z.eqb_refl.
Qed.
Lemma placed_reads r data id c ref : chunk_fits c -> r_closed r = false -> r_chunks r = Some data -> placed_ref data id c ref ->
  exists c', ReadChunk r ref = Ok c' /\ same_content c c'.
Proof.
  intros [[_ (c' & Hp & Hsame)] _] Ho Hd (pre & post & -> & ->). exists c'. split; [|exact Hsame]. unfold ReadChunk. rewrite Ho, Hd. cbn [ref_Offset ref_Length]. pose proof (Bytes_long c).
  rewrite (proj2 (Z.eqb_neq _ 0)) by lia. unfold chunk_record. rewrite Nat2Z.id, <- !app_assoc, (app_assoc (be_bytes 8 id)), (app_assoc pre).
  assert (E : Z.of_nat (length pre) + 12 = Z.of_nat (length (pre ++ be_bytes 8 id ++ be_bytes 4 (u32 (Z.of_nat (length (Bytes c))))))) by (rewrite !length_app, !length_be_bytes; lia).
  by rewrite E, read_at_app, Hp.
Qed.

(** ** What a writer accumulates *)

(** The figures of a set of samples. *)
Record figures_of (ws : list sample) (f : figures) : Prop := {
  fo_count : f_numSamples f = Z.of_nat (length ws);
  fo_none : ws = [] -> f_minTime f = MaxInt64 /\ f_maxTime f = MinInt64;
  fo_some : ws <> [] -> Forall (fun x => f_minTime f <= s_ts x <= f_maxTime f) ws /\ f_minTime f ∈ s_ts <$> ws /\ f_maxTime f ∈ s_ts <$> ws;
  fo_gen : f_maxGen f = max_from (s_gen <$> ws) 0 }.

Lemma max_from_app_list gs gs' m : max_from (gs ++ gs') m = max_from gs' (max_from gs m).
Proof. unfold max_from. by rewrite fold_left_app. Qed.
Lemma max_from_max gs m : 0 <= m -> max_from gs m = Z.max m (max_from gs 0).
Proof. induction gs as [|g gs IH] using rev_ind; intros Hm; [cbn; lia|]. rewrite !max_from_app, IH by done. zbool; lia. Qed.
Lemma count_chunk_figures ws f c : chunk_sound c -> figures_of ws f -> Z.of_nat (length (ws ++ samples_of c)) <= MaxInt64 -> figures_of (ws ++ samples_of c) (count_chunk f c).
Proof.
  intros Hc Hf Hmax. unfold count_chunk. destruct (Z.eqb_spec (numSamples c) 0) as [E|E]; [by rewrite (chunk_empty c Hc E), app_nil_r|].
  assert (Hne : samples_of c <> []) by (intros H; apply E; by rewrite <- (cs_len c Hc), H). destruct Hf as [H1 H2 H3 H4]. destruct (cs_reached c Hc Hne) as [Hlo Hhi]. apply list_elem_of_In in Hlo, Hhi.
  destruct (cs_width c Hc) as [Hw1 Hw2]. pose proof (cs_bounds c Hc) as HB. pose proof (cs_len c Hc). rewrite length_app in Hmax.
  split; cbn [f_numSamples f_minTime f_maxTime f_maxGen].
  - rewrite H1, length_app, i64_id by (unfold MaxInt64, in_i64 in *; lia). lia.
  - intros [_ Hx]%app_eq_nil. done.
  - intros _. rewrite fmap_app, Forall_app, !elem_of_app. change (map s_ts (samples_of c)) with (s_ts <$> samples_of c) in *. destruct (decide (ws = [])) as [->|Hws].
    + destruct (H2 eq_refl) as [-> ->]. assert (E1 : (if minTs c <? MaxInt64 then minTs c else MaxInt64) = minTs c) by (unfold MaxInt64, in_i64 in *; zbool; lia).
      assert (E2 : (if MinInt64 <? maxTs c then maxTs c else MinInt64) = maxTs c) by (unfold MinInt64, in_i64 in *; zbool; lia). rewrite E1, E2. split_and!; [constructor|done|by right|by right].
    + destruct (H3 Hws) as (HF & Hmn & Hmx). split_and!.
      * eapply Forall_impl; [exact HF|]. cbn. intros x Hx. zbool; lia.
      * eapply Forall_impl; [exact HB|]. cbn. intros x Hx. zbool; lia.
      * destruct (minTs c <? f_minTime f); [by right|by left].
      * destruct (f_maxTime f <? maxTs c); [by right|by left].
  - rewrite fmap_app, max_from_app_list, H4, (cs_maxGen c Hc), <- (cs_gens c Hc). destruct (max_from_spec (s_gen <$> ws) 0) as (H0 & _). change (map s_gen (samples_of c)) with (s_gen <$> samples_of c). rewrite (max_from_max _ (max_from (s_gen <$> ws) 0)) by done. zbool; lia.
Qed.
Lemma count_chunks_figures cs ws f : Forall chunk_sound cs -> figures_of ws f -> Z.of_nat (length (ws ++ (cs ≫= samples_of))) <= MaxInt64 ->
  figures_of (ws ++ (cs ≫= samples_of)) (fold_left count_chunk cs f).
Proof.
  intros HF. revert ws f. induction HF as [|c cs Hc HF IH]; intros ws f Hf Hmax; cbn [fold_left]; [by rewrite app_nil_r|].
  rewrite bind_cons, app_assoc in *. apply IH; [|done]. apply count_chunk_figures; [done..|]. rewrite length_app in Hmax. lia.
Qed.

(** ** A series of calls to [AddSeries] *)

Fixpoint add_all (w : Writer) (l : list seriesData) : result writerErr Writer :=
  match l with [] => Ok w | sd :: l => w' ← AddSeries w (sd_id sd) (sd_labels sd) (sd_chunks sd); add_all w' l end.
Definition canonical (sd : seriesData) : seriesData := mkSD (sd_id sd) (canonicalizeLabels (sd_labels sd)) (sd_chunks sd).
Definition series_samples (sd : seriesData) : list sample := sd_chunks sd ≫= samples_of.
Definition named (p : BlockLabel) : Prop := bl_Name p <> ""%string.

Record writer_rep (w : Writer) (l : list seriesData) : Prop := {
  wr_series : w_series w = canonical <$> l;
  wr_ids : (forall i, i ∈ w_seriesIDs w <-> i ∈ sd_id <$> l) /\ NoDup (sd_id <$> l);
  wr_names : Forall (fun sd => StronglySorted (str_key_lt bl_Name) (sd_labels (canonical sd)) /\ Forall named (sd_labels (canonical sd))) l;
  wr_figures : figures_of (l ≫= series_samples) (mkFigures (w_numSamples w) (w_minTime w) (w_maxTime w) (w_maxGen w)) }.

Lemma bind_snoc {A B} (f : A -> list B) l x : (l ++ [x]) ≫= f = (l ≫= f) ++ f x.
Proof. rewrite bind_app. f_equal. apply app_nil_r. Qed.
Lemma NewWriter_rep id : writer_rep (NewWriter id) [].
Proof. split; cbn; [done|split; [set_solver|constructor]|constructor|by split]. Qed.
Lemma check_label_names_ok id prev l : StronglySorted (fun a b => String.le (bl_Name a) (bl_Name b)) l ->
  match prev with Some p => Forall (fun b => String.le p (bl_Name b)) l | None => True end ->
  check_label_names id prev l = Ok tt -> ascending prev l /\ Forall named l.
Proof.
  intros Hs. revert prev. induction Hs as [|a l Hs IH Ha]; intros prev Hp; cbn [check_label_names]; [split; [apply ascending_nil|constructor]|].
  destruct (String.eqb_spec (bl_Name a) "") as [|Hne]; [done|]. destruct (bool_decide_reflect (prev = Some (bl_Name a))) as [|Hd]; [done|]. intros Hc.
  destruct (IH (Some (bl_Name a)) Ha Hc) as [Has HN]. split; [|by constructor]. apply ascending_cons. split; [|done]. destruct prev as [p|]; [|done].
  apply Forall_cons in Hp as [Hp _]. apply str_lt_le. split; [done|]. intros ->. by apply Hd.
Qed.
Lemma AddSeries_rep w l sd w' : writer_rep w l -> Forall chunk_sound (sd_chunks sd) -> Z.of_nat (length ((l ++ [sd]) ≫= series_samples)) <= MaxInt64 ->
  AddSeries w (sd_id sd) (sd_labels sd) (sd_chunks sd) = Ok w' ->
  writer_rep w' (l ++ [sd]) /\ w_blockID w' = w_blockID w /\ w_open w' = w_open w /\ w_level w' = w_level w /\ w_sources w' = w_sources w /\ w_tenant w' = w_tenant w.
Proof.
  intros [H1 [H2 H2'] H3 H4] Hc Hmax. unfold AddSeries. destruct (bool_decide_reflect (sd_id sd ∈ w_seriesIDs w)) as [|Hnew]; [done|].
  destruct (check_label_names _ _ _) as [[]|] eqn:Ec; [|done]. rewrite bind_Ok. intros [= <-]. split; [|done].
  apply check_label_names_ok in Ec as [Has HN]; [|apply sort_str_weak|done]. rewrite bind_snoc in *.
  split; cbn [w_series w_seriesIDs w_numSamples w_minTime w_maxTime w_maxGen].
  - rewrite H1, fmap_app. done.
  - rewrite fmap_app. split; [intros i; rewrite elem_of_union, elem_of_singleton, elem_of_app, H2; cbn; rewrite list_elem_of_singleton; tauto|].
    apply NoDup_app. split_and!; [done| |apply NoDup_singleton]. intros i Hi ->%list_elem_of_singleton. by apply Hnew, H2.
  - apply Forall_app. split; [done|]. constructor; [|constructor]. split; [apply Has|done].
  - rewrite bind_snoc. pose proof (count_chunks_figures (sd_chunks sd) _ _ Hc H4 Hmax) as Hf. by destruct (fold_left count_chunk _ _).
Qed.
Lemma add_all_rep w l0 l w' : writer_rep w l0 -> Forall (fun sd => Forall chunk_sound (sd_chunks sd)) l -> Z.of_nat (length ((l0 ++ l) ≫= series_samples)) <= MaxInt64 ->
  add_all w l = Ok w' ->
  writer_rep w' (l0 ++ l) /\ w_blockID w' = w_blockID w /\ w_open w' = w_open w /\ w_level w' = w_level w /\ w_sources w' = w_sources w /\ w_tenant w' = w_tenant w.
Proof.
  intros Hw HF. revert w l0 Hw. induction HF as [|sd l Hsd HF IH]; intros w l0 Hw Hmax; cbn [add_all]; [intros [= <-]; by rewrite app_nil_r|].
  destruct (AddSeries _ _ _ _) as [w1|] eqn:E; [|done]. rewrite bind_Ok. intros Hadd. rewrite (cons_middle sd), app_assoc in *.
  destruct (AddSeries_rep w l0 sd w1 Hw Hsd) as (Hw1 & E1 & E2 & E3 & E4 & E5); [rewrite bind_app, length_app in Hmax; lia|done|].
  destruct (IH w1 _ Hw1 Hmax Hadd) as (Hw2 & F1 & F2 & F3 & F4 & F5). split_and!; [exact Hw2|congruence..].
Qed.

(** ** What an open, intact block promises to the store above it *)

Definition refs_read (r : Reader) (refs : list ChunkRef) (cs : list Chunk) : Prop :=
  Forall2 (fun ref c => exists c', ReadChunk r ref = Ok c' /\ same_content c c') refs cs.
Record holds (r : Reader) (l : list seriesData) : Prop := {
  h_series : Forall2 (fun se sd => se_ID se = sd_id sd /\ se_Labels se ≡ₚ sd_labels sd /\ refs_read r (se_Chunks se) (sd_chunks sd)) (r_entries r) l;
  h_ids : NoDup (sd_id <$> l);
  h_byID : forall i se, SeriesByID r i = Some se <-> se ∈ r_entries r /\ se_ID se = i;
  h_refs : ValidateChunkRefs r = Ok tt;
  h_select : forall ms, exists ids, r_Select r ms = Ok ids /\ StronglySorted Z.lt ids /\
    forall i, i ∈ ids <-> exists sd, sd ∈ l /\ sd_id sd = i /\ Forall (fun m => m ∈ label_pair <$> sd_labels sd) ms;
  h_names : StronglySorted str_lt (r_LabelNames r) /\ forall n, n ∈ r_LabelNames r <-> exists sd v, sd ∈ l /\ mkPair n v ∈ label_pair <$> sd_labels sd;
  h_values : forall n, StronglySorted str_lt (r_LabelValues r n) /\ forall v, v ∈ r_LabelValues r n <-> exists sd, sd ∈ l /\ mkPair n v ∈ label_pair <$> sd_labels sd }.

(** ** Opening what was committed *)

Lemma buildSeriesByID_from_ok entries i byID : NoDup (se_ID <$> entries) -> Forall (fun se => byID !! se_ID se = None) entries ->
  exists byID', buildSeriesByID_from i byID entries = Ok byID' /\
    forall id k, byID' !! id = Some k <-> byID !! id = Some k \/ exists j se, k = (i + j)%nat /\ entries !! j = Some se /\ se_ID se = id.
Proof.
  revert i byID. induction entries as [|se entries IH]; intros i byID Hnd HF; cbn [buildSeriesByID_from].
  { exists byID. split; [done|]. intros id k. split; [by left|]. intros [?|(j & se & _ & ? & _)]; done. }
  apply Forall_cons in HF as [Hnone HF]. rewrite Hnone. rewrite fmap_cons in Hnd. apply NoDup_cons in Hnd as [Hni Hnd]. destruct (IH (S i) (<[se_ID se := i]> byID) Hnd) as (m & -> & Hm).
  { rewrite Forall_forall in *. intros se' Hin. rewrite lookup_insert_ne; [by apply HF|]. intros E. apply Hni. rewrite E. by apply list_elem_of_fmap_2. }
  exists m. split; [done|]. intros id k. rewrite Hm. destruct (decide (id = se_ID se)) as [->|Hne].
  - rewrite lookup_insert_eq. split.
    + intros [[= <-]|(j & se' & -> & Hj & Hid)]; right; [exists 0%nat, se; split_and!; [lia|done..]|exists (S j), se'; split_and!; [lia|done..]].
    + intros [E|([|j] & se' & -> & Hj & Hid)]; [| |right; exists j, se'; split_and!; [lia|done..]].
      * congruence.
      * left. f_equal. lia.
  - rewrite lookup_insert_ne by done. split.
    + intros [?|(j & se' & -> & Hj & Hid)]; [by left|right]. exists (S j), se'. split_and!; [lia|done..].
    + intros [?|([|j] & se' & -> & Hj & Hid)]; [by left| |right; exists j, se'; split_and!; [lia|done..]]. cbn in Hj. congruence.
Qed.
Lemma SeriesByID_spec r : NoDup (se_ID <$> r_entries r) -> buildSeriesByID (r_entries r) = Ok (r_byID r) -> forall i se, SeriesByID r i = Some se <-> se ∈ r_entries r /\ se_ID se = i.
Proof.
  intros Hnd Hb i se. destruct (buildSeriesByID_from_ok (r_entries r) 0 ∅ Hnd) as (m & E & Hm); [apply Forall_forall; intros; apply lookup_empty|].
  unfold buildSeriesByID in Hb. rewrite E in Hb. injection Hb as Hb. unfold SeriesByID. rewrite <- Hb. split.
  - destruct (m !! i) as [k|] eqn:Ek; [|done]. cbn. intros Hk. apply Hm in Ek as [Ek|(j & se' & -> & Hj & Hid)]; [by rewrite lookup_empty in Ek|]. cbn in Hk. replace se with se' by congruence. split; [by eapply list_elem_of_lookup_2|done].
  - intros [[k Hk]%list_elem_of_lookup Hid]. rewrite (proj2 (Hm i k)); [exact Hk|]. right. by exists k, se.
Qed.

Definition entry_of (sd : seriesData) (locs : list ChunkRef) : SeriesEntry := mkEntry (sd_id sd) (sd_labels sd) locs.
(** The index entries of the block a writer with these series commits. *)
Definition committed_entries (series : list seriesData) : list SeriesEntry :=
  zip_with entry_of series (write_series 0 series).1.
Record series_small (sd : seriesData) : Prop := {
  ss_id : in_u64 (sd_id sd);
  ss_labels : Forall label_fits (sd_labels sd);
  ss_data : Z.of_nat (length (encodeLabelSet (sd_labels sd))) < 2 ^ 32;
  ss_count : Z.of_nat (length (sd_chunks sd)) <= max_chunks;
  ss_chunks : series_fits sd }.
(** The sizes a block must keep to. *)
Record block_fits (series : list seriesData) : Prop := {
  bf_count : Z.of_nat (length series) <= 1000000;
  bf_series : Forall series_small series;
  bf_chunks : Z.of_nat (length (writeChunksAndIndex series).1) <= MaxInt64;
  bf_pairs : Z.of_nat (length (file_entries (buildMemPostings (sd_entry <$> series)))) < 2 ^ 32;
  bf_postings : Z.of_nat (length (writePostings (sd_entry <$> series))) <= MaxInt64 }.

Definition entry_placed (data : list Z) (se : SeriesEntry) (sd : seriesData) : Prop :=
  se_ID se = sd_id sd /\ se_Labels se = sd_labels sd /\ Forall2 (placed_ref data (sd_id sd)) (sd_chunks sd) (se_Chunks se).
Lemma entries_placed data series locs : Forall2 (fun sd refs => Forall2 (placed_ref data (sd_id sd)) (sd_chunks sd) refs) series locs ->
  Forall2 (entry_placed data) (zip_with entry_of series locs) series.
Proof. induction 1 as [|sd refs l ls Hp HF IH]; [constructor|]. cbn [zip_with]. constructor; [by split_and!|exact IH]. Qed.
Lemma entries_bytes series locs : zip_with entry_of series locs ≫= entry_bytes = zip series locs ≫= fun e => encode_entry (sd_id e.1) (sd_labels e.1) e.2.
Proof. revert locs. induction series as [|sd l IH]; intros [|refs ls]; try done. cbn [zip_with]. rewrite !bind_cons. f_equal. apply IH. Qed.
Lemma placed_ref_fits data id c ref : chunk_fits c -> Z.of_nat (length data) <= MaxInt64 -> placed_ref data id c ref -> ref_fits ref.
Proof. intros [_ Hc] Hmax (pre & post & -> & ->). rewrite !length_app, length_chunk_record in Hmax. unfold MaxInt64 in Hmax. split; cbn [ref_Offset ref_Length]; [unfold in_i64|unfold in_u32]; lia. Qed.
Lemma placed_refs_fit data id cs refs : Forall chunk_fits cs -> Z.of_nat (length data) <= MaxInt64 -> Forall2 (placed_ref data id) cs refs -> Forall ref_fits refs.
Proof. intros HF Hmax. induction 1 as [|c ref cs refs Hp HP IH]; [constructor|]. apply Forall_cons in HF as [Hc HF]. constructor; [by eapply placed_ref_fits|by apply IH]. Qed.
Lemma entry_placed_fits data se sd : series_small sd -> StronglySorted (str_key_lt bl_Name) (sd_labels sd) -> Z.of_nat (length data) <= MaxInt64 -> entry_placed data se sd -> entry_fits se.
Proof.
  intros [S1 S2 S3 S4 S5] HN Hmax (E1 & E2 & E3). split; [by rewrite E1|by rewrite E2|by rewrite E2|]. rewrite <- (Forall2_length _ _ _ E3). split; [done|]. by eapply placed_refs_fit.
Qed.
Section committed.
Context (series : list seriesData) (Hfits : block_fits series) (Hnd : NoDup (sd_id <$> series)).
Context (Hnames : Forall (fun sd => StronglySorted (str_key_lt bl_Name) (sd_labels sd) /\ Forall named (sd_labels sd)) series).
Notation data := (writeChunksAndIndex series).1.
Notation entries := (committed_entries series).

Lemma committed_placed : Forall2 (fun sd refs => Forall2 (placed_ref data (sd_id sd)) (sd_chunks sd) refs) series (write_series 0 series).1.
Proof.
  destruct (write_series 0 series) as [allLocs bytes] eqn:E. assert (Hd : data = [] ++ bytes ++ []) by (unfold writeChunksAndIndex; rewrite E; cbn; by rewrite app_nil_r).
  apply (write_series_placed data series [] [] allLocs bytes); [|apply (bf_chunks _ Hfits)|exact E|exact Hd].
  eapply Forall_impl; [apply (bf_series _ Hfits)|]. intros sd Hs. apply (ss_chunks sd Hs).
Qed.
Lemma committed_entries_all : Forall2 (entry_placed data) entries series.
Proof. apply entries_placed, committed_placed. Qed.
Lemma committed_index : readIndex (writeChunksAndIndex series).2 = Ok entries.
Proof.
  pose proof committed_entries_all as HE. assert (E : (writeChunksAndIndex series).2 = index_bytes entries ++ []).
  { rewrite app_nil_r. unfold index_bytes, committed_entries. rewrite entries_bytes. fold entries. rewrite (Forall2_length _ _ _ HE). unfold writeChunksAndIndex. by destruct (write_series 0 series). }
  rewrite E. apply readIndex_app.
  - rewrite (Forall2_length _ _ _ HE). apply (bf_count _ Hfits).
  - apply Forall_forall. intros se [k Hk]%list_elem_of_lookup. destruct (Forall2_lookup_l _ _ _ _ _ HE Hk) as (sd & Hsd & Hp). apply list_elem_of_lookup_2 in Hsd.
    pose proof (bf_series _ Hfits) as HS. rewrite Forall_forall in HS, Hnames. eapply entry_placed_fits; [by apply HS|by apply Hnames|apply (bf_chunks _ Hfits)|exact Hp].
Qed.
Lemma committed_se_entry : se_entry <$> entries = sd_entry <$> series.
Proof. pose proof committed_entries_all as HE. revert HE. generalize entries. induction 1 as [|se sd es l (E1 & E2 & _) HE IH]; [done|]. rewrite !fmap_cons, IH. unfold se_entry, sd_entry. by rewrite E1, E2. Qed.
Lemma committed_ids : se_ID <$> entries = sd_id <$> series.
Proof. pose proof (f_equal (fmap fst) committed_se_entry) as H. by rewrite <- !list_fmap_compose in H. Qed.
Lemma committed_writable : writable (sd_entry <$> series).
Proof.
  pose proof (bf_series _ Hfits) as HS. split; [| | |apply (bf_pairs _ Hfits)|apply (bf_postings _ Hfits)].
  - apply Forall_fmap. eapply Forall_impl; [exact HS|]. intros sd Hs. apply (ss_id _ Hs).
  - apply Forall_fmap. rewrite Forall_forall in HS, Hnames |- *. intros sd Hin. destruct (HS sd Hin) as [_ S2 _ _ _]. destruct (Hnames sd Hin) as [_ HN]. unfold sd_entry. cbn. rewrite Forall_forall in S2, HN |- *. intros p Hp. split; [by apply HN|by apply S2].
  - rewrite length_fmap. pose proof (bf_count _ Hfits). lia.
Qed.
End committed.

Lemma Forall2_with_r {A B} (P : A -> B -> Prop) (Q : B -> Prop) l k : Forall2 P l k -> Forall Q k -> Forall2 (fun x y => P x y /\ Q y) l k.
Proof. induction 1 as [|x y l k Hx H IH]; intros HF; [constructor|]. apply Forall_cons in HF as [Hy HF]. constructor; [done|by apply IH]. Qed.
(** A reader opened on intact files holds the series that were written. *)
Lemma refs_validated data entries series : Forall series_small series -> Z.of_nat (length data) <= MaxInt64 -> Forall2 (entry_placed data) entries series ->
  validate_refs data (chunk_refs entries) = Ok tt.
Proof.
  intros HS Hmax HE. assert (HF : Forall (fun e => validate_ref data e.1 e.2 = Ok tt) (chunk_refs entries)).
  { unfold chunk_refs. apply Forall_forall. intros [i ref] (se & (ref' & [= -> ->] & Href)%list_elem_of_fmap & [k Hk]%list_elem_of_lookup)%list_elem_of_bind. cbn [fst snd].
    destruct (Forall2_lookup_l _ _ _ _ _ HE Hk) as (sd & Hsd & E1 & _ & Hp). apply list_elem_of_lookup_2 in Hsd. rewrite Forall_forall in HS. destruct (HS sd Hsd) as [S1 _ _ _ S5].
    apply list_elem_of_lookup in Href as [j Hj]. destruct (Forall2_lookup_r _ _ _ _ _ Hp Hj) as (c & Hc & Hpl). apply list_elem_of_lookup_2 in Hc. rewrite E1.
    apply (placed_validates data _ c); [|done..]. unfold series_fits in S5. rewrite Forall_forall in S5. by apply S5. }
  induction (chunk_refs entries) as [|[i ref] l IH]; [done|]. apply Forall_cons in HF as [Hr HF]. cbn [validate_refs fst snd] in *. rewrite Hr, bind_Ok. by apply IH.
Qed.
Lemma refs_all_read r data id cs refs : Forall chunk_fits cs -> r_closed r = false -> r_chunks r = Some data -> Forall2 (placed_ref data id) cs refs -> refs_read r refs cs.
Proof.
  intros HF Ho Hd. unfold refs_read. induction 1 as [|c ref cs refs Hp HP IH]; [constructor|]. apply Forall_cons in HF as [Hc HF]. constructor; [by eapply placed_reads|by apply IH].
Qed.

Lemma index_holds series ms : NoDup (sd_id <$> series) -> let mp := buildMemPostings (sd_entry <$> series) in
  (StronglySorted Z.lt (postings_Select mp ms) /\ forall i, i ∈ postings_Select mp ms <-> exists sd, sd ∈ series /\ sd_id sd = i /\ Forall (fun m => m ∈ label_pair <$> sd_labels sd) ms) /\
  (StronglySorted str_lt (idx_LabelNames mp) /\ forall n, n ∈ idx_LabelNames mp <-> exists sd v, sd ∈ series /\ mkPair n v ∈ label_pair <$> sd_labels sd) /\
  (forall n, StronglySorted str_lt (idx_LabelValues mp n) /\ forall v, v ∈ idx_LabelValues mp n <-> exists sd, sd ∈ series /\ mkPair n v ∈ label_pair <$> sd_labels sd).
Proof.
  intros Hnd mp. pose proof (buildMemPostings_rep (sd_entry <$> series)) as Hp.
  assert (Hdb : forall i ls, series_db (sd_entry <$> series) !! i = Some ls <-> exists sd, sd ∈ series /\ sd_id sd = i /\ ls = label_pair <$> sd_labels sd).
  { intros i ls. rewrite series_db_NoDup by (by rewrite <- list_fmap_compose). split.
    - intros (lb & (sd & [= -> ->] & Hin)%list_elem_of_fmap & ->). by exists sd.
    - intros (sd & Hin & <- & ->). exists (sd_labels sd). split; [|done]. by apply (list_elem_of_fmap_2 sd_entry). }
  split_and!.
  - apply (Select_rep mp _ ms Hp).
  - intros i. rewrite (proj2 (Select_rep mp _ ms Hp)). setoid_rewrite Hdb. naive_solver.
  - apply (LabelNames_rep mp _ Hp).
  - intros n. rewrite (proj2 (LabelNames_rep mp _ Hp)). setoid_rewrite Hdb. naive_solver.
  - intros n. destruct (LabelValues_rep mp _ n Hp) as [H1 H2]. split; [done|]. intros v. rewrite H2. setoid_rewrite Hdb. naive_solver.
Qed.
Lemma committed_holds w now : block_fits (w_series w) -> NoDup (sd_id <$> w_series w) ->
  Forall (fun sd => StronglySorted (str_key_lt bl_Name) (sd_labels sd) /\ Forall named (sd_labels sd)) (w_series w) ->
  exists r, OpenReader (w_blockID w) (commit_dir w now) = Ok r /\ r_meta r = commit_meta w now /\ holds r (w_series w).
Proof.
  intros Hfits Hnd Hnames. set (series := w_series w) in *. set (mp := buildMemPostings (sd_entry <$> series)).
  destruct (written_accepted _ (committed_writable series Hfits Hnames)) as [fp Hfp].
  assert (Hacc : accepted fp mp) by (eapply newFilePostings_accepted; [apply buildMemPostings_rep|apply (bf_postings _ Hfits)|exact Hfp]).
  pose proof (committed_entries_all series Hfits) as HE. set (es := committed_entries series) in *.
  assert (Hnde : NoDup (se_ID <$> es)) by (unfold es; by rewrite committed_ids).
  destruct (buildSeriesByID_from_ok es 0 ∅ Hnde) as (byID & Eby & _); [apply Forall_forall; intros; apply lookup_empty|].
  set (r := mkReader (commit_meta w now) es byID (FilePostings fp) (Some (writeChunksAndIndex series).1) false). exists r.
  assert (Hopen : OpenReader (w_blockID w) (commit_dir w now) = Ok r).
  { unfold OpenReader, commit_dir. fold series. pose proof (committed_index series Hfits Hnames) as Hidx. destruct (writeChunksAndIndex series) as [chunks index] eqn:Ew. cbn [d_meta d_index d_postings d_chunks fst snd] in *.
    unfold commit_meta. destruct (if w_numSamples w =? 0 then _ else _) as [mn mx] eqn:Em. cbn [m_BlockID]. rewrite String.eqb_refl. cbn [negb]. rewrite Hidx. fold es. unfold buildSeriesByID. rewrite Eby, bind_Ok. unfold loadPostings, es. rewrite committed_se_entry, Hfp, bind_Ok by done.
    unfold r, commit_meta. by rewrite Em. }
  split; [exact Hopen|]. split; [done|]. destruct (index_holds series [] Hnd) as (_ & HN & HV). fold mp in HN, HV. split.
  - cbn [r_entries r]. eapply Forall2_impl; [exact (Forall2_with_r _ _ _ _ HE (bf_series _ Hfits))|]. cbn. intros se sd [(E1 & E2 & E3) HS]. split_and!; [done|by rewrite E2|].
    eapply (refs_all_read r _ (sd_id sd)); [apply (ss_chunks _ HS)|done|done|exact E3].
  - exact Hnd.
  - by apply SeriesByID_spec.
  - unfold ValidateChunkRefs. cbn [r_closed r_chunks r_entries r]. eapply refs_validated; [apply (bf_series _ Hfits)|apply (bf_chunks _ Hfits)|exact HE].
  - intros ms. exists (postings_Select mp ms). split; [|apply (index_holds series ms Hnd)]. unfold r_Select. cbn [r_postings r]. by rewrite (proj1 (accepted_queries fp mp ms "" Hacc)).
  - unfold r_LabelNames. cbn [r_postings r]. by rewrite (proj1 (proj2 (accepted_queries fp mp [] "" Hacc))).
  - intros n. unfold r_LabelValues. cbn [r_postings r]. rewrite (proj2 (proj2 (accepted_queries fp mp [] n Hacc))). apply HV.
Qed.

(** The labels a writer sorts are the labels it was given. *)
Lemma canonical_labels sd p : p ∈ label_pair <$> sd_labels (canonical sd) <-> p ∈ label_pair <$> sd_labels sd.
Proof. unfold canonical, canonicalizeLabels. cbn [sd_labels]. by rewrite (sort_str_perm bl_Name (sd_labels sd)). Qed.
Lemma canonical_in (P : seriesData -> Prop) (l : list seriesData) : (forall sd, P (canonical sd) <-> P sd) -> (exists sd, sd ∈ canonical <$> l /\ P sd) <-> exists sd, sd ∈ l /\ P sd.
Proof.
  intros HP. split.
  - intros (? & (sd & -> & Hin)%list_elem_of_fmap & H). exists sd. split; [done|by apply HP].
  - intros (sd & Hin & H). exists (canonical sd). split; [by apply list_elem_of_fmap_2|by apply HP].
Qed.
Lemma holds_canonical r l : holds r (canonical <$> l) -> holds r l.
Proof.
  intros [H1 H2 H3 H4 H5 H6 H7]. split; [| |exact H3|exact H4| | |].
  - rewrite Forall2_fmap_r in H1. eapply Forall2_impl; [exact H1|]. cbn. intros se sd (E1 & E2 & E3). split_and!; [done| |done].
    rewrite E2. apply (sort_str_perm bl_Name).
  - by rewrite <- list_fmap_compose in H2.
  - intros ms. destruct (H5 ms) as (ids & E & Hs & Hin). exists ids. split; [done|]. split; [done|]. intros i. rewrite Hin. apply (canonical_in (fun sd => sd_id sd = i /\ Forall (fun m => m ∈ label_pair <$> sd_labels sd) ms)).
    intros sd. by setoid_rewrite canonical_labels.
  - destruct H6 as [Hs Hn]. split; [done|]. intros n. rewrite Hn.
    assert (HC : (exists sd, sd ∈ canonical <$> l /\ exists v, mkPair n v ∈ label_pair <$> sd_labels sd) <-> exists sd, sd ∈ l /\ exists v, mkPair n v ∈ label_pair <$> sd_labels sd).
    { apply (canonical_in (fun sd => exists v, mkPair n v ∈ label_pair <$> sd_labels sd)). intros sd. by setoid_rewrite canonical_labels. }
    naive_solver.
  - intros n. destruct (H7 n) as [Hs Hv]. split; [done|]. intros v. rewrite Hv. apply (canonical_in (fun sd => mkPair n v ∈ label_pair <$> sd_labels sd)). intros sd. by rewrite canonical_labels.
Qed.

(** The metadata of a block is that of its samples. *)
Record meta_exact (m : Meta) (l : list seriesData) : Prop := {
  me_series : m_NumSeries m = Z.of_nat (length l);
  me_samples : m_NumSamples m = Z.of_nat (length (l ≫= series_samples));
  me_bounds : Forall (fun x => m_MinTime m <= s_ts x <= m_MaxTime m) (l ≫= series_samples);
  me_reached : l ≫= series_samples <> [] -> m_MinTime m ∈ s_ts <$> (l ≫= series_samples) /\ m_MaxTime m ∈ s_ts <$> (l ≫= series_samples);
  me_gen : m_MaxGen m = max_from (s_gen <$> (l ≫= series_samples)) 0;
  me_level : EffectiveLevel m = m_Level m }.
Lemma commit_meta_exact w l now : writer_rep w l -> meta_exact (commit_meta w now) l.
Proof.
  intros [H1 _ _ [F1 F2 F3 F4]]. cbn [f_numSamples f_minTime f_maxTime f_maxGen] in *. unfold commit_meta.
  assert (Hlev : forall mn mx, EffectiveLevel (mkMeta (w_blockID w) mn mx (Z.of_nat (length (w_series w))) (w_numSamples w) now (if w_level w <=? 0 then 1 else w_level w) (w_sources w) (w_maxGen w) (w_tenant w))
    = if w_level w <=? 0 then 1 else w_level w) by (intros; unfold EffectiveLevel; cbn; zbool; lia).
  destruct (Z.eqb_spec (w_numSamples w) 0) as [E|E]; (split; cbn [m_NumSeries m_NumSamples m_MinTime m_MaxTime m_MaxGen m_Level]; [by rewrite H1, length_fmap|done| | |done|apply Hlev]).
  - rewrite F1 in E. by destruct (l ≫= series_samples).
  - rewrite F1 in E. intros Hne. by destruct (l ≫= series_samples).
  - destruct (decide (l ≫= series_samples = [])) as [Hn|Hne]; [by rewrite Hn|]. apply (F3 Hne).
  - intros Hne. apply (F3 Hne).
Qed.
Lemma writer_opens w l now : writer_rep w l -> block_fits (canonical <$> l) -> exists r, OpenReader (w_blockID w) (commit_dir w now) = Ok r /\ r_meta r = commit_meta w now /\ holds r l.
Proof.
  intros [H1 [_ H2] H3 _] Hf. destruct (committed_holds w now) as (r & Ho & Hm & Hr).
  - by rewrite H1.
  - rewrite H1. by rewrite <- list_fmap_compose.
  - rewrite H1. by apply Forall_fmap.
  - exists r. split; [done|]. split; [done|]. rewrite H1 in Hr. by apply holds_canonical.
Qed.

(** C17. A committed block is read back whole. Whatever series a writer accepted,
    once [Commit] has succeeded the directory opens: it serves exactly those series,
    every chunk reads back with its samples and generations, every chunk reference
    is bound to its record, label selects are exact, and the metadata states exactly
    the bounds, counts and largest generation of the samples. A commit that fails
    before its rename, or whose name is taken, leaves the block directory as it was,
    and one that fails later has published the whole block: none is ever half there. *)
Theorem block_roundtrip id tenant level sources l w now blocks fault :
  add_all (SetTenant tenant (SetCompaction level sources (NewWriter id))) l = Ok w ->
  Forall (fun sd => Forall chunk_sound (sd_chunks sd)) l -> block_fits (canonical <$> l) -> Z.of_nat (length (l ≫= series_samples)) <= MaxInt64 ->
  let '(res, _, blocks') := Commit fault now w blocks in
  exists r, OpenReader id (commit_dir w now) = Ok r /\ holds r l /\ meta_exact (r_meta r) l /\ m_Tenant (r_meta r) = tenant /\
    (blocks' = blocks \/ blocks' = <[id := commit_dir w now]> blocks) /\
    (forall m, res = Ok m -> m = r_meta r /\ blocks' = <[id := commit_dir w now]> blocks) /\
    (fault = None -> blocks !! id = None -> res = Ok (r_meta r)).
Proof.
  intros Hadd HF Hfits Hmax. destruct (add_all_rep (SetTenant tenant (SetCompaction level sources (NewWriter id))) [] l w) as (Hw & Eid & Eo & _ & _ & Et); [by destruct (NewWriter_rep id); split|done..|].
  cbn in Eid, Eo, Et. destruct (writer_opens w l now Hw Hfits) as (r & Hr & Hm & Hh). rewrite Eid in Hr.
  assert (Hten : m_Tenant (commit_meta w now) = tenant) by (unfold commit_meta; destruct (if w_numSamples w =? 0 then _ else _); by rewrite <- Et).
  unfold Commit. rewrite Eo, Eid. cbn [negb]. destruct (blocks !! id) eqn:Et', fault as [[]|]; exists r; rewrite Hm; (split; [exact Hr|split; [exact Hh|split; [by apply commit_meta_exact|split; [exact Hten|]]]]); split_and!; try done; try (by left); try (by right).
  by intros m [= <-].
Qed.

Definition demo_block : list seriesData := [mkSD 7 [mkBL "job" "api"; mkBL "__name__" "up"] [demo_chunk]; mkSD 3 [mkBL "job" "db"] []].
Lemma demo_chunk_ok : chunk_ok demo_chunk.
Proof. apply (chunk_ok_rep _ demo_samples); [|exact demo_ok]. apply (append_all_rep NewChunk [] demo_samples); [apply NewChunk_rep|exact demo_ok|vm_compute; reflexivity]. Qed.
Lemma demo_block_fits : block_fits (canonical <$> demo_block).
Proof.
  split; [vm_compute; discriminate| |vm_compute; discriminate|vm_compute; reflexivity|vm_compute; discriminate].
  repeat (apply Forall_cons; split); [| |constructor]; (split; [vm_compute; split; [discriminate|reflexivity]|repeat (apply Forall_cons; split); try constructor; vm_compute; reflexivity|vm_compute; reflexivity|vm_compute; discriminate|]).
  - constructor; [|constructor]. split; [apply chunk_ok_ships, demo_chunk_ok|vm_compute; reflexivity].
  - constructor.
Qed.
Lemma block_roundtrip_witness : exists w r, add_all (SetTenant "" (SetCompaction 0 [] (NewWriter "b1"))) demo_block = Ok w /\
  OpenReader "b1" (commit_dir w 5) = Ok r /\ holds r demo_block /\ meta_exact (r_meta r) demo_block.
Proof.
  destruct (add_all (SetTenant "" (SetCompaction 0 [] (NewWriter "b1"))) demo_block) as [w|] eqn:E; [|vm_compute in E; discriminate E]. exists w.
  pose proof (block_roundtrip "b1" "" 0 [] demo_block w 5 ∅ None E ltac:(repeat (apply Forall_cons; split); try constructor; apply chunk_ok_sound, demo_chunk_ok) demo_block_fits ltac:(vm_compute; discriminate)) as H.
  destruct (Commit None 5 w ∅) as [[res w'] blocks']. destruct H as (r & Hr & Hh & Hm & _). exists r. by split_and!.
Defined.
