(* ===== verification/BlockStore.v ===== *)
(** * BlockStore: head and blocks read as one store

    [internal/metrics/blockstore.go]: the checks a block passes before it is
    trusted, and the reads over the in-memory head and every loaded block. A query
    holds the read lock throughout, so it sees one state. *)
From stdpp Require Import strings.
From S2P Require Import Prelude GoLib GoSort Bits Chunk Dedup Labels Postings BlockIndex BlockPostings PostingsWritten Block Source MemStore.

(** ** Labels of a block *)

Definition pairs_to_map (ps : list BlockLabel) : gmap string string := fold_left (fun m p => <[bl_Name p := bl_Value p]> m) ps ∅.
Definition blockPairsToLabels (ps : list BlockLabel) : result labelErr Labels := NewStoredLabels (pairs_to_map ps).
Definition labelsToPairs (l : Labels) : list BlockLabel := sort_str bl_Name ((fun e => mkBL e.1 e.2) <$> map_to_list (labels_Map l)).

(** ** Checks before a block is trusted *)

Inductive blockErr :=
  | BadLabels (id : Z) (e : labelErr) | BadFingerprint (id fp : Z) | BadTenant (id : Z) (owner want : string) | BadReader (e : readerErr).
Definition lift_reader {A} (m : result readerErr A) : result blockErr A := match m with Ok a => Ok a | Err e => Err (BadReader e) end.
(** The tenant a block records: the default one is the empty string. *)
Definition block_tenant (l : Labels) : string := if String.eqb (TenantOf l) tenant_Default then "" else TenantOf l.
Definition displayTenant (t : string) : string := if String.eqb t "" then tenant_Default else t.
Fixpoint validate_series (want : string) (entries : list SeriesEntry) : result blockErr unit :=
  match entries with
  | [] => Ok tt
  | se :: rest =>
      match blockPairsToLabels (se_Labels se) with
      | Err e => Err (BadLabels (se_ID se) e)
      | Ok l =>
          if negb (Hash l =? se_ID se) then Err (BadFingerprint (se_ID se) (Hash l)) else
          if negb (String.eqb (block_tenant l) want) then Err (BadTenant (se_ID se) (displayTenant (block_tenant l)) (displayTenant want)) else
          validate_series want rest
      end
  end.
Definition validateBlockSeries (r : Reader) : result blockErr unit := validate_series (m_Tenant (r_meta r)) (r_entries r).

(** The chunks of one series, in order; the first failing read is the answer. *)
Fixpoint read_chunks (r : Reader) (refs : list ChunkRef) : result readerErr (list Chunk) :=
  match refs with [] => Ok [] | ref :: rest => c ← ReadChunk r ref; cs ← read_chunks r rest; Ok (c :: cs) end.

Record blockChunkStats := mkStats { bcs_maxGen : Z; bcs_minTs : Z; bcs_maxTs : Z; bcs_numSamples : Z; bcs_numSeries : Z; bcs_hasSamples : bool }.
Definition stats_chunk (st : blockChunkStats) (c : Chunk) : blockChunkStats :=
  if numSamples c =? 0 then st else
  let g := if bcs_maxGen st <? maxGen c then maxGen c else bcs_maxGen st in
  let '(mn, mx) := if negb (bcs_hasSamples st) then (minTs c, maxTs c)
                   else (if minTs c <? bcs_minTs st then minTs c else bcs_minTs st, if bcs_maxTs st <? maxTs c then maxTs c else bcs_maxTs st) in
  mkStats g mn mx (i64 (bcs_numSamples st + numSamples c)) (bcs_numSeries st) true.
Fixpoint stats_series (r : Reader) (st : blockChunkStats) (entries : list SeriesEntry) : result readerErr blockChunkStats :=
  match entries with
  | [] => Ok st
  | se :: rest => cs ← read_chunks r (se_Chunks se); stats_series r (fold_left stats_chunk cs st) rest
  end.
Definition validateBlockChunks (r : Reader) : result blockErr blockChunkStats :=
  lift_reader (stats_series r (mkStats 0 0 0 0 (Z.of_nat (length (r_entries r))) false) (r_entries r)).
Definition reconcileBlockMeta (r : Reader) (st : blockChunkStats) : result blockErr Reader :=
  let m := r_meta r in
  let '(mn, mx) := if bcs_hasSamples st then (bcs_minTs st, bcs_maxTs st) else (0, 0) in
  lift_reader (SetReconciledMeta r (mkMeta (m_BlockID m) mn mx (bcs_numSeries st) (bcs_numSamples st) (m_CreatedAt m) (m_Level m) (m_Sources m) (m_MaxGen m) (m_Tenant m))).

(** ** Reads over head and blocks *)

Record BlockStore := mkBlockStore { bs_mem : MemoryStore; bs_blocks : list Reader }.

(** One series of an answer while it is gathered. *)
Record acc := mkAcc { a_labels : Labels; a_samples : list sample; a_anchor : option sample }.
Record gathered := mkGathered { g_order : list Z; g_byID : gmap Z acc }.
Definition get_acc (l : Labels) (g : gathered) : gathered :=
  match g_byID g !! Hash l with
  | Some _ => g
  | None => mkGathered (g_order g ++ [Hash l]) (<[Hash l := mkAcc l [] None]> (g_byID g))
  end.
Definition add_found (l : Labels) (found : option SeriesData) (g : gathered) : gathered :=
  match found with
  | None => g
  | Some sd => mkGathered (g_order g) (alter (fun a => mkAcc (a_labels a) (a_samples a ++ sd_samples sd) (laterSample (a_anchor a) (sd_anchor sd))) (Hash l) (g_byID g))
  end.
Definition plain (p : SelectParams) : SelectParams := mkParams (mkSelector "" []) (MinT p) (MaxT p) (Anchor p) false false.
Definition any_time (p : SelectParams) : bool := (SeriesOnly p && AnyTime p)%bool.

Definition select_head (s : MemoryStore) (p : SelectParams) (g : gathered) (id : Z) : gathered :=
  match st_series s !! id with
  | None => g
  | Some ms =>
      let g := get_acc (ms_labels ms) g in
      if any_time p then g else add_found (ms_labels ms) (selectFromChunks (ms_labels ms) (ms_chunks ms) (plain p)) g
  end.
Definition reads_chunks (p : SelectParams) (m : Meta) : bool :=
  let wantAnchor := (Anchor p && (MinInt64 <? MinT p))%bool in
  (negb (any_time p) && (MinT p <=? MaxT p) && (m_MinTime m <=? MaxT p) && (wantAnchor || (MinT p <=? m_MaxTime m)))%bool.
(** A parsed chunk has no pointer that matters; it takes the number 0. *)
Definition parsed (cs : list Chunk) : list (Z * Chunk) := pair 0 <$> cs.
Inductive bsErr := BsSource (e : srcErr) | BsCtx (e : Z) | BsReader (e : readerErr) | BsLabels (id : Z) (e : labelErr).
Fixpoint select_block (r : Reader) (p : SelectParams) (g : gathered) (ids : list Z) : result bsErr gathered :=
  match ids with
  | [] => Ok g
  | id :: rest =>
      match SeriesByID r id with
      | None => select_block r p g rest
      | Some se =>
          match blockPairsToLabels (se_Labels se) with
          | Err e => Err (BsLabels (se_ID se) e)
          | Ok l =>
              let g := get_acc l g in
              if negb (reads_chunks p (r_meta r)) then select_block r p g rest else
              match read_chunks r (se_Chunks se) with
              | Err e => Err (BsReader e)
              | Ok cs => select_block r p (add_found l (selectFromChunks l (parsed cs) (plain p)) g) rest
              end
          end
      end
  end.
(** [ctxErr i] is what [ctx.Err()] returns before the [i]-th block. *)
Fixpoint select_blocks (ctxErr : nat -> option Z) (p : SelectParams) (i : nat) (g : gathered) (blocks : list Reader) : result bsErr gathered :=
  match blocks with
  | [] => Ok g
  | r :: rest =>
      match ctxErr i with
      | Some e => Err (BsCtx e)
      | None =>
          match r_Select r (selectorToIndexMatchers (p_sel p)) with
          | Err e => Err (BsReader e)
          | Ok ids => g ← select_block r p g ids; select_blocks ctxErr p (S i) g rest
          end
      end
  end.
Definition finish (p : SelectParams) (a : acc) : option SeriesData :=
  if any_time p then Some (mkSeries (a_labels a) None []) else
  if SeriesOnly p then match a_samples a with [] => None | _ => Some (mkSeries (a_labels a) None []) end else
  match a_samples a, a_anchor a with
  | [], None => None
  | _, _ => Some (mkSeries (a_labels a) (a_anchor a) (sortAndDedup (a_samples a)))
  end.
Definition bs_Select (bs : BlockStore) (ctxErr : nat -> option Z) (p : SelectParams) : result bsErr (list SeriesData) :=
  match Validate p with
  | Err e => Err (BsSource e)
  | Ok _ =>
      let g := fold_left (select_head (bs_mem bs) p) (postings_Select (st_idx (bs_mem bs)) (selectorToIndexMatchers (p_sel p))) (mkGathered [] ∅) in
      g ← select_blocks ctxErr p 0 g (bs_blocks bs);
      Ok (omap (fun id => a ← g_byID g !! id; finish p a) (g_order g))
  end.

Definition bs_LabelNames (bs : BlockStore) : list string :=
  sortedStringSet (fold_left (fun set r => set ∪ list_to_set (r_LabelNames r)) (bs_blocks bs) (list_to_set (idx_LabelNames (st_idx (bs_mem bs))))).
Definition bs_LabelValues (bs : BlockStore) (name : string) : list string :=
  sortedStringSet (fold_left (fun set r => set ∪ list_to_set (r_LabelValues r name)) (bs_blocks bs) (list_to_set (idx_LabelValues (st_idx (bs_mem bs)) name))).

(** [SelectSeries]: head series first, then those only blocks hold. *)
Fixpoint series_block (r : Reader) (seen : gset Z) (out : list MatchedSeries) (ids : list Z) : result bsErr (gset Z * list MatchedSeries) :=
  match ids with
  | [] => Ok (seen, out)
  | id :: rest =>
      match SeriesByID r id with
      | None => series_block r seen out rest
      | Some se =>
          match blockPairsToLabels (se_Labels se) with
          | Err e => Err (BsLabels (se_ID se) e)
          | Ok l =>
              if bool_decide (Hash l ∈ seen) then series_block r seen out rest
              else series_block r ({[Hash l]} ∪ seen) (out ++ [mkMatched (se_ID se) l]) rest
          end
      end
  end.
Fixpoint series_blocks (matchers : list Pair) (seen : gset Z) (out : list MatchedSeries) (blocks : list Reader) : result bsErr (list MatchedSeries) :=
  match blocks with
  | [] => Ok out
  | r :: rest =>
      match r_Select r matchers with
      | Err e => Err (BsReader e)
      | Ok ids => '(seen, out) ← series_block r seen out ids; series_blocks matchers seen out rest
      end
  end.
Definition bs_SelectSeries (bs : BlockStore) (sel : Selector) : result bsErr (list MatchedSeries) :=
  let result := SelectSeries (bs_mem bs) sel in
  series_blocks (selectorToIndexMatchers sel) (list_to_set ((fun ms => Hash (m_Labels ms)) <$> result)) result (bs_blocks bs).

Fixpoint instant_blocks (id tMs : Z) (best : option sample) (blocks : list Reader) : result bsErr (option sample) :=
  match blocks with
  | [] => Ok best
  | r :: rest =>
      if tMs <? m_MinTime (r_meta r) then instant_blocks id tMs best rest else
      match SeriesByID r id with
      | None => instant_blocks id tMs best rest
      | Some se =>
          match read_chunks r (se_Chunks se) with
          | Err e => Err (BsReader e)
          | Ok cs => instant_blocks id tMs (fold_left (instant_step tMs) (cs ≫= samples_of) best) rest
          end
      end
  end.
Definition bs_QueryInstant (bs : BlockStore) (id tMs : Z) : result bsErr (option sample) :=
  instant_blocks id tMs (QueryInstant (bs_mem bs) id tMs) (bs_blocks bs).

(** The flag says whether some block in range holds the series. *)
Fixpoint range_blocks (id startMs endMs : Z) (found : bool) (out : list sample) (blocks : list Reader) : result bsErr (bool * list sample) :=
  match blocks with
  | [] => Ok (found, out)
  | r :: rest =>
      if ((m_MaxTime (r_meta r) <? startMs) || (endMs <? m_MinTime (r_meta r)))%bool then range_blocks id startMs endMs found out rest else
      match SeriesByID r id with
      | None => range_blocks id startMs endMs found out rest
      | Some se =>
          match read_chunks r (se_Chunks se) with
          | Err e => Err (BsReader e)
          | Ok cs => range_blocks id startMs endMs true (out ++ filter (fun x => startMs <= s_ts x <= endMs) (cs ≫= samples_of)) rest
          end
      end
  end.
(** [None] is the nil slice of an unknown series. *)
Definition range_result (found : bool) (inBlocks : list sample) (memResult : option (list sample)) : option (list sample) :=
  let all := inBlocks ++ default [] memResult in
  match all with
  | [] => if (found || bool_decide (is_Some memResult))%bool then Some [] else None
  | [x] => Some [x]
  | _ => Some (sortAndDedup all)
  end.
Definition bs_QueryRange (bs : BlockStore) (id startMs endMs : Z) : result bsErr (option (list sample)) :=
  '(found, inBlocks) ← range_blocks id startMs endMs false [] (bs_blocks bs);
  Ok (range_result found inBlocks (QueryRange (bs_mem bs) id startMs endMs)).

(** ** What a good block promises *)

Definition single (l : Labels) (ws : list sample) : database := fun l' => if decide (l' = l) then Some ws else None.
Record good_entry (r : Reader) (se : SeriesEntry) (l : Labels) (cs : list Chunk) : Prop := {
  ge_sorted : StronglySorted (str_key_lt bl_Name) (se_Labels se);
  ge_labels : blockPairsToLabels (se_Labels se) = Ok l;
  ge_hash : Hash l = se_ID se;
  ge_wf : labels_wf l;
  ge_pairs : forall n v, mkPair n v ∈ label_pair <$> se_Labels se <-> Get l n = Some v;
  ge_read : read_chunks r (se_Chunks se) = Ok cs;
  ge_sound : Forall chunk_sound cs;
  ge_bounds : Forall (fun x => m_MinTime (r_meta r) <= s_ts x <= m_MaxTime (r_meta r)) (cs ≫= samples_of) }.
Record block_good (r : Reader) : Prop := {
  bg_ids : NoDup (se_ID <$> r_entries r);
  bg_entries : Forall (fun se => exists l cs, good_entry r se l cs) (r_entries r);
  bg_byID : forall i se, SeriesByID r i = Some se <-> se ∈ r_entries r /\ se_ID se = i;
  bg_select : forall ms, exists ids, r_Select r ms = Ok ids /\ NoDup ids /\
    forall i, i ∈ ids <-> exists se, se ∈ r_entries r /\ se_ID se = i /\ Forall (fun m => m ∈ label_pair <$> se_Labels se) ms;
  bg_names : forall n, n ∈ r_LabelNames r <-> exists se v, se ∈ r_entries r /\ mkPair n v ∈ label_pair <$> se_Labels se;
  bg_values : forall n v, v ∈ r_LabelValues r n <-> exists se, se ∈ r_entries r /\ mkPair n v ∈ label_pair <$> se_Labels se }.

(** The writes a block holds. *)
Definition block_db (r : Reader) : database := fun l =>
  match SeriesByID r (Hash l) with
  | None => None
  | Some se =>
      match blockPairsToLabels (se_Labels se), read_chunks r (se_Chunks se) with
      | Ok l', Ok cs => if decide (l' = l) then Some (cs ≫= samples_of) else None
      | _, _ => None
      end
  end.
Definition blocks_db (d : database) (blocks : list Reader) : database := fold_left (fun d r => db_union d (block_db r)) blocks d.
Definition bs_db (bs : BlockStore) : database := blocks_db (store_db (bs_mem bs)) (bs_blocks bs).

Lemma good_entry_at r i se : block_good r -> SeriesByID r i = Some se -> exists l cs, good_entry r se l cs /\ Hash l = i /\ block_db r l = Some (cs ≫= samples_of).
Proof.
  intros Hr Hse. pose proof (proj1 (bg_byID r Hr i se) Hse) as [Hin Hi]. pose proof (bg_entries r Hr) as HF. rewrite Forall_forall in HF. destruct (HF se Hin) as (l & cs & Hg).
  exists l, cs. split; [done|]. assert (Hh : Hash l = i) by (by rewrite (ge_hash _ _ _ _ Hg)). split; [done|]. unfold block_db. rewrite Hh, Hse, (ge_labels _ _ _ _ Hg), (ge_read _ _ _ _ Hg). by rewrite decide_True.
Qed.
Lemma block_db_some r l ws : block_good r -> block_db r l = Some ws -> exists se cs, SeriesByID r (Hash l) = Some se /\ good_entry r se l cs /\ ws = cs ≫= samples_of.
Proof.
  intros Hr. unfold block_db. destruct (SeriesByID r (Hash l)) as [se|] eqn:E; [|done]. destruct (good_entry_at r _ se Hr E) as (l' & cs & Hg & Hh & _).
  rewrite (ge_labels _ _ _ _ Hg), (ge_read _ _ _ _ Hg). destruct (decide (l' = l)) as [->|]; [|done]. intros [= <-]. by exists se, cs.
Qed.
Lemma good_entry_matches r se l cs sel : good_entry r se l cs -> Forall (fun m => m ∈ label_pair <$> se_Labels se) (selectorToIndexMatchers sel) <-> matches sel l.
Proof.
  intros Hg. rewrite <- (index_matches sel l (ge_wf _ _ _ _ Hg)). split; (intros HF; eapply Forall_impl; [exact HF|]); intros [n v]; cbn;
    by rewrite (ge_pairs _ _ _ _ Hg), (elem_of_index_pairs l n v (ge_wf _ _ _ _ Hg)).
Qed.

(** ** Gathering an answer *)

Section gathers.
Context (p : SelectParams).

(** What a gathered series amounts to. *)
Definition acc_data (a : acc) : option SeriesData :=
  match a_samples a, a_anchor a with [], None => None | _, _ => Some (mkSeries (a_labels a) (a_anchor a) (sortAndDedup (a_samples a))) end.
Record gathers (db : database) (g : gathered) : Prop := {
  ga_nodup : NoDup (g_order g);
  ga_order : forall id, id ∈ g_order g <-> is_Some (g_byID g !! id);
  ga_in : forall id a, g_byID g !! id = Some a -> Hash (a_labels a) = id /\ exists ws, db (a_labels a) = Some ws /\ matches (p_sel p) (a_labels a) /\
    (any_time p = false -> acc_data a = expected (plain p) (a_labels a) ws);
  ga_all : forall l ws, db l = Some ws -> matches (p_sel p) l -> exists a, g_byID g !! Hash l = Some a /\ a_labels a = l }.

Lemma gathers_ext db db' g : (forall l, matches (p_sel p) l -> db l = db' l) -> gathers db g -> gathers db' g.
Proof.
  intros He [H1 H2 H3 H4]. split; [done|done| |].
  - intros id a Ha. destruct (H3 id a Ha) as (Hh & ws & Hd & Hm & Hx). split; [done|]. exists ws. rewrite <- He by done. done.
  - intros l ws Hd Hm. apply (H4 l ws); [by rewrite He|done].
Qed.
Lemma acc_data_merge a sd : sortAndDedup (sd_samples sd) = sd_samples sd -> (sd_samples sd <> [] \/ sd_anchor sd <> None) -> sd_labels sd = a_labels a ->
  acc_data (mkAcc (a_labels a) (a_samples a ++ sd_samples sd) (laterSample (a_anchor a) (sd_anchor sd))) = opt_merge (acc_data a) (Some sd).
Proof.
  intros Hs Hne Hl. unfold acc_data. cbn [a_samples a_anchor a_labels]. destruct a as [l ss an], sd as [l' an' ss']. cbn [sd_samples sd_anchor sd_labels a_samples a_anchor a_labels] in *. subst l'.
  destruct ss as [|x ss]; cbn [app].
  - destruct an as [x|]; cbn [opt_merge].
    + unfold combine_series. cbn [sd_labels sd_anchor sd_samples app]. change (sortAndDedup []) with (@nil sample). cbn [app].
      destruct ss' as [|y ss'], an' as [z|]; try done; cbn [laterSample]; by destruct (_ || _)%bool.
    + cbn [laterSample]. rewrite Hs. destruct ss' as [|y ss'], an' as [z|]; try done. by destruct Hne.
  - cbn [opt_merge]. unfold combine_series. cbn [sd_labels sd_anchor sd_samples]. by rewrite sortAndDedup_absorb_l.
Qed.
Lemma expected_plain l ws sd : expected (plain p) l ws = Some sd -> sortAndDedup (sd_samples sd) = sd_samples sd /\ (sd_samples sd <> [] \/ sd_anchor sd <> None) /\ sd_labels sd = l.
Proof.
  unfold expected, to_answer, plain. cbn [SeriesOnly AnyTime MinT MaxT andb]. destruct (_ <? _); [done|].
  match goal with |- context [core ?q ws] => pose proof (core_samples_sorted q ws) as Hc; destruct (core q ws) as [ss a] end. cbn [fst] in Hc.
  destruct ss as [|x ss], a as [y|]; intros [= <-] || intros H; try done; cbn; split_and!; try done; try (by left); by right.
Qed.

(** One series found somewhere: known, or new. *)
Lemma gathers_found db g l ws found : gathers db g -> (forall l', is_Some (db l') -> Hash l' = Hash l -> l' = l) -> matches (p_sel p) l ->
  (any_time p = false -> found = expected (plain p) l ws) -> (any_time p = true -> found = None) ->
  gathers (db_union db (single l ws)) (add_found l found (get_acc l g)).
Proof.
  intros [H1 H2 H3 H4] Hnc Hm Hf Hf'. set (d := db_union db (single l ws)).
  assert (Hd : forall l', l' <> l -> d l' = db l') by (intros l' Hne; unfold d, db_union, single; rewrite decide_False by done; by destruct (db l')).
  assert (Hdl : d l = Some (default [] (db l) ++ ws)) by (unfold d, db_union, single; rewrite decide_True by done; by destruct (db l)).
  (* the entry of [l] before the find *)
  assert (Hget : exists a, g_byID (get_acc l g) !! Hash l = Some a /\ a_labels a = l /\ (any_time p = false -> opt_merge (acc_data a) (expected (plain p) l ws) = expected (plain p) l (default [] (db l) ++ ws)) /\
    NoDup (g_order (get_acc l g)) /\ (forall id, id ∈ g_order (get_acc l g) <-> is_Some (g_byID (get_acc l g) !! id)) /\ (forall id, id <> Hash l -> g_byID (get_acc l g) !! id = g_byID g !! id)).
  { unfold get_acc. destruct (g_byID g !! Hash l) as [a|] eqn:Ea.
    - destruct (H3 _ _ Ea) as (Hh & ws0 & Hws & _ & Hx). assert (El : a_labels a = l) by (apply Hnc; [by rewrite Hws|done]). exists a. split_and!; try done.
      intros Hat. rewrite El in *. rewrite Hx, Hws by done. cbn [default from_option]. unfold id. by rewrite expected_app.
    - exists (mkAcc l [] None). cbn [g_byID g_order]. rewrite lookup_insert_eq. split_and!; try done.
      + intros _. cbn [acc_data a_samples a_anchor opt_merge]. destruct (db l) as [ws0|] eqn:Edb; [|done]. destruct (H4 l ws0 Edb Hm) as (a & Ha & _). congruence.
      + apply NoDup_app. split_and!; [done| |apply NoDup_singleton]. intros id Hid ->%list_elem_of_singleton. apply H2 in Hid. rewrite Ea in Hid. by destruct Hid.
      + intros id. rewrite elem_of_app, list_elem_of_singleton, H2. destruct (decide (id = Hash l)) as [->|Hne]; [rewrite lookup_insert_eq; split; [done|by right]|rewrite lookup_insert_ne by done; tauto].
      + intros id Hne. by rewrite lookup_insert_ne. }
  destruct Hget as (a & Ha & El & Hx & G1 & G2 & G3). set (g1 := get_acc l g) in *.
  (* the entry of [l] after it *)
  assert (Hadd : exists a', g_byID (add_found l found g1) !! Hash l = Some a' /\ a_labels a' = l /\ (any_time p = false -> acc_data a' = expected (plain p) l (default [] (db l) ++ ws)) /\
    g_order (add_found l found g1) = g_order g1 /\ (forall id, id <> Hash l -> g_byID (add_found l found g1) !! id = g_byID g1 !! id)).
  { unfold add_found. destruct found as [sd|].
    - cbn [g_byID g_order]. rewrite lookup_alter_eq, Ha. cbn [fmap option_fmap option_map]. eexists. split; [done|]. cbn [a_labels]. split_and!; [done| |done|intros id Hne; by rewrite lookup_alter_ne].
      intros Hat. rewrite <- Hx by done. rewrite <- (Hf Hat). destruct (expected_plain l ws sd) as (S1 & S2 & S3); [by rewrite <- Hf|]. by apply acc_data_merge; rewrite ?El.
    - exists a. split_and!; try done. intros Hat. rewrite <- Hx by done. rewrite <- (Hf Hat). by destruct (acc_data a). }
  destruct Hadd as (a' & Ha' & El' & Hx' & Eo & G4). split.
  - by rewrite Eo.
  - intros id. rewrite Eo, G2. destruct (decide (id = Hash l)) as [->|Hne]; [rewrite Ha, Ha'; done|by rewrite G4].
  - intros id b Hb. destruct (decide (id = Hash l)) as [->|Hne].
    + rewrite Ha' in Hb. injection Hb as <-. rewrite El'. split; [done|]. eexists. split; [exact Hdl|]. split; [done|exact Hx'].
    + rewrite G4, G3 in Hb by done. destruct (H3 id b Hb) as (Hh & ws0 & Hws & Hm' & Hx0). split; [done|]. exists ws0. rewrite Hd; [done|]. intros E. apply Hne. by rewrite <- Hh, E.
  - intros l' ws' Hl' Hm'. destruct (decide (l' = l)) as [->|Hne]; [by exists a'|]. rewrite Hd in Hl' by done. destruct (H4 l' ws' Hl' Hm') as (b & Hb & Eb). exists b. split; [|done].
    rewrite G4, G3; [done|..]; intros E; apply Hne, Hnc; try done; by rewrite Hl'.
Qed.
End gathers.

(** ** The loops of [Select] *)

(** [db], and what [d] holds of the series whose IDs are listed. *)
Definition with_ids (db d : database) (ids : list Z) : database := fun l => if decide (Hash l ∈ ids) then db_union db d l else db l.
Lemma with_ids_cons db d i ids l0 : i ∉ ids -> (forall l ws, d l = Some ws -> Hash l = i -> l = l0) -> Hash l0 = i ->
  forall l, with_ids (db_union db (single l0 (default [] (d l0)))) d ids l = (if decide (is_Some (d l0)) then with_ids db d (i :: ids) l else with_ids (db_union db (single l0 (default [] (d l0)))) d ids l).
Proof.
  intros Hni Hnc Hh l. destruct (decide (is_Some (d l0))) as [[ws Hws]|]; [|done]. unfold with_ids. rewrite Hws. cbn [default from_option]. unfold id, single.
  destruct (decide (Hash l ∈ i :: ids)) as [Hin|Hin]; rewrite elem_of_cons in Hin.
  - destruct (decide (Hash l ∈ ids)) as [Hin'|Hin'].
    + unfold db_union at 1. unfold db_union at 1. destruct (decide (l = l0)) as [->|Hne]; [by rewrite Hh in Hin'|]. unfold db_union. by destruct (db l), (d l).
    + destruct Hin as [Hi|]; [|done]. unfold db_union. destruct (decide (l = l0)) as [->|Hne]; [by rewrite Hws|].
      assert (d l = None) as ->; [|by destruct (db l)]. destruct (d l) as [ws'|] eqn:E; [|done]. by destruct Hne; apply (Hnc l ws').
  - destruct (decide (Hash l ∈ ids)); [tauto|]. unfold db_union. destruct (decide (l = l0)) as [->|Hne]; [tauto|]. by destruct (db l).
Qed.

Section select.
Context (p : SelectParams).
Notation sel := (p_sel p).

Lemma skipped_empty r se l cs : good_entry r se l cs -> any_time p = false -> reads_chunks p (r_meta r) = false -> expected (plain p) l (cs ≫= samples_of) = None.
Proof.
  intros Hg Hat Hr. unfold expected, to_answer, plain. cbn [SeriesOnly AnyTime MinT MaxT andb]. destruct (Z.ltb_spec (MaxT p) (MinT p)) as [|Hle]; [done|].
  unfold reads_chunks in Hr. rewrite Hat, (proj2 (Z.leb_le _ _) Hle) in Hr. cbn [negb andb] in Hr. pose proof (ge_bounds _ _ _ _ Hg) as HB. rewrite Forall_forall in HB.
  assert (Hin : forall x, x ∈ sortAndDedup (cs ≫= samples_of) -> m_MinTime (r_meta r) <= s_ts x <= m_MaxTime (r_meta r)) by (intros x Hx; apply HB, list_elem_of_In, sortAndDedup_incl; by apply list_elem_of_In).
  unfold core. cbn [MinT MaxT Anchor].
  assert (E : filter (fun s => MinT p <= s_ts s <= MaxT p) (sortAndDedup (cs ≫= samples_of)) = [] /\
    (if (Anchor p && (MinInt64 <? MinT p))%bool then last (filter (fun s => s_ts s < MinT p) (sortAndDedup (cs ≫= samples_of))) else None) = None).
  { destruct (Z.leb_spec (m_MinTime (r_meta r)) (MaxT p)) as [H1|H1]; cbn [andb] in Hr.
    - destruct (Anchor p && (MinInt64 <? MinT p))%bool; cbn [orb] in Hr; [done|]. apply Z.leb_gt in Hr. split; [|done].
      apply filter_nothing, Forall_forall. intros x Hx%Hin. lia.
    - split; [apply filter_nothing, Forall_forall; intros x Hx%Hin; lia|]. rewrite filter_nothing; [by destruct (_ && _)%bool|]. apply Forall_forall. intros x Hx%Hin. lia. }
  by destruct E as [-> ->].
Qed.
Lemma parsed_samples cs : parsed cs ≫= (fun rc => samples_of rc.2) = cs ≫= samples_of.
Proof. unfold parsed. induction cs as [|c cs IH]; [done|]. rewrite fmap_cons, !bind_cons, IH. done. Qed.
Lemma select_parsed l cs : Forall chunk_sound cs -> selectFromChunks l (parsed cs) (plain p) = expected (plain p) l (cs ≫= samples_of).
Proof. intros HF. rewrite <- parsed_samples. apply selectFromChunks_expected. unfold parsed. by apply Forall_fmap. Qed.

Lemma select_block_gathers r ids db g : block_good r -> no_collision [db; block_db r] -> NoDup ids -> gathers p db g ->
  (forall i, i ∈ ids -> exists se, SeriesByID r i = Some se /\ Forall (fun m => m ∈ label_pair <$> se_Labels se) (selectorToIndexMatchers sel)) ->
  exists g', select_block r p g ids = Ok g' /\ gathers p (with_ids db (block_db r) ids) g'.
Proof.
  intros Hr Hnc Hnd. revert db g Hnc. induction Hnd as [|i ids Hni Hnd IH]; intros db g Hnc Hg Hids; cbn [select_block].
  { exists g. split; [done|]. apply (gathers_ext p db); [|done]. intros l _. unfold with_ids. rewrite decide_False; [done|apply not_elem_of_nil]. }
  destruct (Hids i) as (se & Hse & Hm); [by left|]. destruct (good_entry_at r i se Hr Hse) as (l & cs & Hge & Hh & Hdb). rewrite Hse, (ge_labels _ _ _ _ Hge).
  apply (good_entry_matches _ _ _ _ sel Hge) in Hm. set (ws := cs ≫= samples_of) in *.
  assert (Hclash : forall l', is_Some (db l') -> Hash l' = Hash l -> l' = l) by (intros l' Hl' E; apply (Hnc l' l db (block_db r)); [by left|right; by left|done|by rewrite Hdb|done]).
  set (found := if negb (reads_chunks p (r_meta r)) then None else selectFromChunks l (parsed cs) (plain p)).
  assert (Hf : gathers p (db_union db (single l ws)) (add_found l found (get_acc l g))).
  { apply gathers_found; [done..| |].
    - intros Hat. unfold found. destruct (reads_chunks p (r_meta r)) eqn:Er; cbn [negb]; [by rewrite select_parsed by apply (ge_sound _ _ _ _ Hge)|]. symmetry. by eapply skipped_empty.
    - intros Hat. unfold found, reads_chunks. by rewrite Hat. }
  destruct (IH (db_union db (single l ws)) (add_found l found (get_acc l g))) as (g' & Hg' & Hgg).
  - intros l1 l2 d1 d2 Hd1 Hd2 H1 H2. assert (Hsub : forall d x, d ∈ [db_union db (single l ws); block_db r] -> is_Some (d x) -> is_Some (db x) \/ is_Some (block_db r x)).
    { intros d x [->|[->|[]%not_elem_of_nil]%elem_of_cons]%elem_of_cons Hx; [|by right]. unfold db_union, single in Hx. destruct (db x); [by left|]. destruct (decide (x = l)) as [->|]; [right; by rewrite Hdb|by destruct Hx]. }
    destruct (Hsub d1 l1 Hd1 H1), (Hsub d2 l2 Hd2 H2); [apply (Hnc l1 l2 db db)|apply (Hnc l1 l2 db (block_db r))|apply (Hnc l1 l2 (block_db r) db)|apply (Hnc l1 l2 (block_db r) (block_db r))]; try done; set_solver.
  - exact Hf.
  - intros j Hj. apply Hids. by right.
  - exists g'. split.
    + destruct (reads_chunks p (r_meta r)) eqn:Er; unfold found in Hg'; cbn [negb] in Hg' |- *; [by rewrite (ge_read _ _ _ _ Hge)|exact Hg'].
    + eapply gathers_ext; [|exact Hgg]. intros l' _. pose proof (with_ids_cons db (block_db r) i ids l Hni) as HW. rewrite Hdb in HW. cbn [default from_option] in HW. unfold id in HW. rewrite HW; [by rewrite decide_True by done| |done].
      intros l2 ws2 Hl2 E. apply (Hnc l2 l (block_db r) (block_db r)); [set_solver|set_solver|by rewrite Hl2|by rewrite Hdb|by rewrite E].
Qed.
End select.

Lemma no_collision_covered ds ds' : (forall d l, d ∈ ds' -> is_Some (d l) -> exists d0, d0 ∈ ds /\ is_Some (d0 l)) -> no_collision ds -> no_collision ds'.
Proof.
  intros Hc Hnc l1 l2 d1 d2 H1 H2 S1 S2. destruct (Hc d1 l1 H1 S1) as (e1 & He1 & F1), (Hc d2 l2 H2 S2) as (e2 & He2 & F2). by apply (Hnc l1 l2 e1 e2).
Qed.
Lemma with_ids_some db d ids l : is_Some (with_ids db d ids l) -> is_Some (db l) \/ is_Some (d l).
Proof. unfold with_ids. destruct (decide _); [apply db_union_some|by left]. Qed.
Lemma db_union_none_l d l : db_union (fun _ => None) d l = d l.
Proof. done. Qed.

Section select_all.
Context (p : SelectParams).
Notation sel := (p_sel p).

Lemma select_head_gathers s ids db g : store_wf s -> no_collision [db; store_db s] -> NoDup ids -> gathers p db g ->
  (forall i, i ∈ ids -> exists ms, st_series s !! i = Some ms /\ matches sel (ms_labels ms)) ->
  gathers p (with_ids db (store_db s) ids) (fold_left (select_head s p) ids g).
Proof.
  intros Hs Hnc Hnd. revert db g Hnc. induction Hnd as [|i ids Hni Hnd IH]; intros db g Hnc Hg Hids; cbn [fold_left].
  { apply (gathers_ext p db); [|done]. intros l _. unfold with_ids. rewrite decide_False; [done|apply not_elem_of_nil]. }
  destruct (Hids i) as (ms & Hms & Hm); [by left|]. pose proof (store_db_series s i ms Hs Hms) as Hdb. pose proof (sw_id _ _ _ (st_series_wf s Hs _ _ Hms)) as Hh. set (l := ms_labels ms) in *. set (ws := ws_of ms) in *.
  assert (Hstep : select_head s p g i = add_found l (if any_time p then None else selectFromChunks l (ms_chunks ms) (plain p)) (get_acc l g)) by (unfold select_head; rewrite Hms; by destruct (any_time p)).
  rewrite Hstep. assert (Hf : gathers p (db_union db (single l ws)) (add_found l (if any_time p then None else selectFromChunks l (ms_chunks ms) (plain p)) (get_acc l g))).
  { apply gathers_found; [done| |done|intros ->; by apply (selectFromChunks_spec s i)|by intros ->].
    intros l' Hl' E. apply (Hnc l' l db (store_db s)); [by left|right; by left|done|by rewrite Hdb|done]. }
  eapply gathers_ext; [|apply (IH (db_union db (single l ws))); [|exact Hf|intros j Hj; apply Hids; by right]].
  - intros l' _. pose proof (with_ids_cons db (store_db s) i ids l Hni) as HW. rewrite Hdb in HW. cbn [default from_option] in HW. unfold id in HW. rewrite HW; [by rewrite decide_True by done| |done].
    intros l2 ws2 Hl2 E. apply (Hnc l2 l (store_db s) (store_db s)); [set_solver|set_solver|by rewrite Hl2|by rewrite Hdb|by rewrite E].
  - apply (no_collision_covered [db; store_db s]); [|done]. intros d x [->|[->|[]%not_elem_of_nil]%elem_of_cons]%elem_of_cons Hx; [|exists (store_db s); split; [set_solver|done]].
    apply db_union_some in Hx as [Hx|Hx]; [exists db; split; [set_solver|done]|]. unfold single in Hx. destruct (decide (x = l)) as [->|]; [|by destruct Hx]. exists (store_db s). split; [set_solver|by rewrite Hdb].
Qed.

Lemma select_blocks_gathers ctxErr i db g blocks : (forall j, ctxErr j = None) -> Forall block_good blocks -> no_collision (db :: (block_db <$> blocks)) -> gathers p db g ->
  exists g', select_blocks ctxErr p i g blocks = Ok g' /\ gathers p (blocks_db db blocks) g'.
Proof.
  intros Hctx HF. revert i db g. induction HF as [|r blocks Hr HF IH]; intros i db g Hnc Hg; cbn [select_blocks]; [by exists g|]. rewrite Hctx.
  destruct (bg_select r Hr (selectorToIndexMatchers sel)) as (ids & -> & Hnd & Hids).
  destruct (select_block_gathers p r ids db g Hr) as (g1 & -> & Hg1); [|done|done| |].
  - eapply no_collision_sub; [|exact Hnc]. intros d. rewrite fmap_cons, !elem_of_cons. intros [?|[?|[]%not_elem_of_nil]]; tauto.
  - intros j (se & Hin & Hj & Hm)%Hids. exists se. split; [|done]. by apply (bg_byID r Hr).
  - rewrite bind_Ok. apply IH.
    + eapply no_collision_covered; [|exact Hnc]. intros d l [->|Hd]%elem_of_cons Hx; [|exists d; split; [rewrite fmap_cons; by right; right|done]].
      apply db_union_some in Hx as [Hx|Hx]; [exists db|exists (block_db r)]; (split; [rewrite fmap_cons, !elem_of_cons; tauto|done]).
    + eapply gathers_ext; [|exact Hg1]. intros l Hm. unfold with_ids. destruct (decide (Hash l ∈ ids)) as [|Hn]; [done|]. unfold db_union. destruct (block_db r l) as [ws|] eqn:E; [|by destruct (db l)].
      exfalso. apply block_db_some in E as (se & cs & Hse & Hge & _); [|done]. apply Hn, Hids. exists se. pose proof (proj1 (bg_byID r Hr _ _) Hse) as [? ?]. split_and!; [done..|]. by apply (good_entry_matches _ _ _ _ sel Hge).
Qed.

Lemma finish_expected a ws : Validate p = Ok tt -> (any_time p = false -> acc_data a = expected (plain p) (a_labels a) ws) -> finish p a = expected p (a_labels a) ws.
Proof.
  intros Hv Hx. unfold finish, expected, to_answer. fold (any_time p). destruct (any_time p) eqn:Hat; [done|]. specialize (Hx eq_refl). unfold expected, to_answer, plain in Hx. cbn [SeriesOnly AnyTime andb MinT MaxT] in Hx.
  assert (Ec : core (mkParams (mkSelector "" []) (MinT p) (MaxT p) (Anchor p) false false) ws = core p ws) by done. rewrite Ec in Hx. clear Ec.
  unfold acc_data in Hx. destruct (MaxT p <? MinT p).
  - destruct (a_samples a) as [|x ss]; [|by destruct (a_anchor a)]. destruct (a_anchor a); [done|]. by destruct (SeriesOnly p).
  - destruct (core p ws) as [cs ca]. cbn [fst]. destruct (SeriesOnly p) eqn:Hso.
    + destruct (a_samples a) as [|x ss] eqn:Es; [|destruct (a_anchor a), cs, ca; simplify_eq; try done; exfalso; eapply sortAndDedup_nonempty; [|eassumption]; done].
      destruct cs as [|y cs]; [done|]. destruct (a_anchor a), ca; simplify_eq.
    + exact Hx.
Qed.
Lemma select_gathered bs ctxErr : store_wf (bs_mem bs) -> Forall block_good (bs_blocks bs) -> no_collision (store_db (bs_mem bs) :: (block_db <$> bs_blocks bs)) -> (forall j, ctxErr j = None) ->
  Validate p = Ok tt -> exists out, bs_Select bs ctxErr p = Ok out /\ answers (bs_db bs) p out.
Proof.
  intros Hs HF Hnc Hctx Hv. unfold bs_Select. rewrite Hv. set (ids := postings_Select _ _). set (g0 := mkGathered [] ∅).
  assert (H0 : gathers p (fun _ => None) g0) by (split; cbn; [constructor|intros i; rewrite lookup_empty; split; [by intros ?%elem_of_nil|by intros [? ?]]|intros i a; by rewrite lookup_empty|done]).
  assert (Hnd : NoDup ids) by (apply strict_NoDup, (Select_rep _ _ _ (st_index _ Hs))).
  pose proof (select_head_gathers (bs_mem bs) ids (fun _ => None) g0 Hs) as Hh.
  assert (Hhead : gathers p (store_db (bs_mem bs)) (fold_left (select_head (bs_mem bs) p) ids g0)).
  { eapply gathers_ext; [|apply Hh; [|done|done|intros j Hj; by apply Select_ids in Hj]].
    - intros l Hm. unfold with_ids. destruct (decide (Hash l ∈ ids)) as [|Hn]; [done|]. destruct (store_db (bs_mem bs) l) as [ws|] eqn:E; [|done]. exfalso. apply store_db_some in E as (ms & Hms & <- & _); [|done].
      apply Hn, Select_ids; [done|]. by exists ms.
    - eapply no_collision_covered; [|exact Hnc]. intros d l [->|[->|[]%not_elem_of_nil]%elem_of_cons]%elem_of_cons Hx; [by destruct Hx|]. exists (store_db (bs_mem bs)). split; [by left|done]. }
  destruct (select_blocks_gathers ctxErr 0 _ _ (bs_blocks bs) Hctx HF Hnc Hhead) as (g & -> & Hg). rewrite bind_Ok. eexists. split; [reflexivity|]. destruct Hg as [G1 G2 G3 G4]. fold (bs_db bs) in G3, G4.
  assert (Hfin : forall i sd, (a ← g_byID g !! i; finish p a) = Some sd -> Hash (sd_labels sd) = i /\ exists a ws, g_byID g !! i = Some a /\ sd_labels sd = a_labels a /\ bs_db bs (a_labels a) = Some ws /\ matches sel (a_labels a) /\ expected p (a_labels a) ws = Some sd).
  { intros i sd. destruct (g_byID g !! i) as [a|] eqn:Ea; [|done]. cbn. intros Hsd. destruct (G3 i a Ea) as (Hi & ws & Hws & Hm & Hx). rewrite (finish_expected a ws Hv Hx) in Hsd. pose proof (expected_labels _ _ _ _ Hsd) as El. rewrite El. split; [done|]. by exists a, ws. }
  split.
  - clear G2. induction G1 as [|i l Hi Hnd' IH]; [constructor|]. cbn [omap list_omap]. destruct (g_byID g !! i ≫= finish p) as [sd|] eqn:E; [|done]. rewrite fmap_cons. constructor; [|done].
    intros (sd' & El & (j & Hj & E')%list_elem_of_omap)%list_elem_of_fmap. apply Hfin in E as [<- _]. apply Hfin in E' as [<- _]. apply Hi. by rewrite El.
  - intros sd. rewrite list_elem_of_omap. split.
    + intros (i & _ & Hsd). apply Hfin in Hsd as (_ & a & ws & _ & El & Hws & Hm & Hx). exists ws. by rewrite El.
    + intros (ws & Hws & Hm & Hx). destruct (G4 _ _ Hws Hm) as (a & Ha & El). exists (Hash (sd_labels sd)). split; [apply G2; by rewrite Ha|]. rewrite Ha. cbn. destruct (G3 _ a Ha) as (_ & ws' & Hws' & _ & Hx'). rewrite El in *. rewrite (finish_expected a ws' Hv) by (by rewrite El). rewrite El. congruence.
Qed.
End select_all.

(** ** Names, values, instants and ranges *)

Lemma names_union d r (X : gset string) : block_good r -> (forall n, n ∈ X <-> exists l ws, d l = Some ws /\ is_Some (Get l n)) ->
  forall n, n ∈ X ∪ list_to_set (r_LabelNames r) <-> exists l ws, db_union d (block_db r) l = Some ws /\ is_Some (Get l n).
Proof.
  intros Hr HX n. rewrite elem_of_union, elem_of_list_to_set, HX, (bg_names r Hr). split.
  - intros [(l & ws & Hl & Hn)|(se & v & Hin & Hp)].
    + destruct (proj2 (db_union_some d (block_db r) l)) as [w Hw]; [left; by rewrite Hl|]. by exists l, w.
    + destruct (good_entry_at r (se_ID se) se Hr) as (l & cs & Hge & _ & Hdb); [by apply (bg_byID r Hr)|]. destruct (proj2 (db_union_some d (block_db r) l)) as [w Hw]; [right; by rewrite Hdb|].
      exists l, w. split; [done|]. exists v. by apply (ge_pairs _ _ _ _ Hge).
  - intros (l & ws & Hl & [v Hv]). destruct (proj1 (db_union_some d (block_db r) l)) as [[w Hw]|[w Hw]]; [by rewrite Hl|left; by exists l, w|right].
    apply block_db_some in Hw as (se & cs & Hse & Hge & _); [|done]. exists se, v. split; [by apply (bg_byID r Hr) in Hse as [? _]|]. by apply (ge_pairs _ _ _ _ Hge).
Qed.
Lemma values_union d r name (X : gset string) : block_good r -> (forall v, v ∈ X <-> exists l ws, d l = Some ws /\ Get l name = Some v) ->
  forall v, v ∈ X ∪ list_to_set (r_LabelValues r name) <-> exists l ws, db_union d (block_db r) l = Some ws /\ Get l name = Some v.
Proof.
  intros Hr HX v. rewrite elem_of_union, elem_of_list_to_set, HX, (bg_values r Hr). split.
  - intros [(l & ws & Hl & Hn)|(se & Hin & Hp)].
    + destruct (proj2 (db_union_some d (block_db r) l)) as [w Hw]; [left; by rewrite Hl|]. by exists l, w.
    + destruct (good_entry_at r (se_ID se) se Hr) as (l & cs & Hge & _ & Hdb); [by apply (bg_byID r Hr)|]. destruct (proj2 (db_union_some d (block_db r) l)) as [w Hw]; [right; by rewrite Hdb|].
      exists l, w. split; [done|]. by apply (ge_pairs _ _ _ _ Hge).
  - intros (l & ws & Hl & Hv). destruct (proj1 (db_union_some d (block_db r) l)) as [[w Hw]|[w Hw]]; [by rewrite Hl|left; by exists l, w|right].
    apply block_db_some in Hw as (se & cs & Hse & Hge & _); [|done]. exists se. split; [by apply (bg_byID r Hr) in Hse as [? _]|]. by apply (ge_pairs _ _ _ _ Hge).
Qed.

(** What one block adds to the series [i]. *)
Definition id_samples (r : Reader) (i : Z) : list sample :=
  match SeriesByID r i with None => [] | Some se => match read_chunks r (se_Chunks se) with Ok cs => cs ≫= samples_of | Err _ => [] end end.
Lemma id_samples_db r l : block_good r -> (forall l', is_Some (block_db r l') -> Hash l' = Hash l -> l' = l) -> id_samples r (Hash l) = default [] (block_db r l).
Proof.
  intros Hr Hnc. unfold id_samples. destruct (SeriesByID r (Hash l)) as [se|] eqn:E.
  - destruct (good_entry_at r _ se Hr E) as (l' & cs & Hge & Hh & Hdb). rewrite (ge_read _ _ _ _ Hge). assert (l' = l) as -> by (apply Hnc; [by rewrite Hdb|done]). by rewrite Hdb.
  - unfold block_db. by rewrite E.
Qed.
Lemma instant_blocks_spec tMs i blocks ws : Forall block_good blocks ->
  instant_blocks i tMs (last (sortAndDedup (filter (fun x => s_ts x <= tMs) ws))) blocks = Ok (last (sortAndDedup (filter (fun x => s_ts x <= tMs) (ws ++ (blocks ≫= fun r => id_samples r i))))).
Proof.
  intros HF. revert ws. induction HF as [|r blocks Hr HF IH]; intros ws; cbn [instant_blocks]; [by rewrite app_nil_r|]. rewrite bind_cons, app_assoc.
  assert (Hskip : Forall (fun x => ~ s_ts x <= tMs) (id_samples r i) -> instant_blocks i tMs (last (sortAndDedup (filter (fun x => s_ts x <= tMs) ws))) blocks = Ok (last (sortAndDedup (filter (fun x => s_ts x <= tMs) ((ws ++ id_samples r i) ++ (blocks ≫= fun r => id_samples r i)))))).
  { intros HN. rewrite <- IH. do 3 f_equal. by rewrite filter_app, (filter_nothing _ (id_samples r i)), app_nil_r. }
  destruct (SeriesByID r i) as [se|] eqn:E.
  - destruct (good_entry_at r i se Hr E) as (l & cs & Hge & _ & _). assert (Eid : id_samples r i = cs ≫= samples_of) by (unfold id_samples; by rewrite E, (ge_read _ _ _ _ Hge)).
    destruct (Z.ltb_spec tMs (m_MinTime (r_meta r))).
    + apply Hskip. rewrite Eid. eapply Forall_impl; [apply (ge_bounds _ _ _ _ Hge)|]. cbn. lia.
    + rewrite (ge_read _ _ _ _ Hge), <- Eid. rewrite <- IH. f_equal. apply instant_fold.
  - destruct (_ <? _); apply Hskip; unfold id_samples; rewrite E; constructor.
Qed.
Lemma range_blocks_spec a b i blocks found out : Forall block_good blocks ->
  exists f, range_blocks i a b found out blocks = Ok (f, out ++ filter (fun x => a <= s_ts x <= b) (blocks ≫= fun r => id_samples r i)).
Proof.
  intros HF. revert found out. induction HF as [|r blocks Hr HF IH]; intros found out; cbn [range_blocks]; [exists found; by rewrite app_nil_r|]. rewrite bind_cons, filter_app.
  assert (Hskip : Forall (fun x => ~ a <= s_ts x <= b) (id_samples r i) -> exists f, range_blocks i a b found out blocks = Ok (f, out ++ filter (fun x => a <= s_ts x <= b) (id_samples r i) ++ filter (fun x => a <= s_ts x <= b) (blocks ≫= fun r => id_samples r i))).
  { intros HN. rewrite (filter_nothing _ (id_samples r i)) by done. apply IH. }
  destruct (SeriesByID r i) as [se|] eqn:E.
  - destruct (good_entry_at r i se Hr E) as (l & cs & Hge & _ & _). assert (Eid : id_samples r i = cs ≫= samples_of) by (unfold id_samples; by rewrite E, (ge_read _ _ _ _ Hge)).
    destruct (_ || _)%bool eqn:Eb.
    + apply Hskip. rewrite Eid. eapply Forall_impl; [apply (ge_bounds _ _ _ _ Hge)|]. cbn. intros x Hx. apply orb_true_iff in Eb as [Eb%Z.ltb_lt|Eb%Z.ltb_lt]; lia.
    + rewrite (ge_read _ _ _ _ Hge), <- Eid. destruct (IH true (out ++ filter (fun x => a <= s_ts x <= b) (id_samples r i))) as [f Hf]. exists f. by rewrite Hf, <- app_assoc.
  - destruct (_ || _)%bool; apply Hskip; unfold id_samples; rewrite E; constructor.
Qed.
Lemma blocks_db_some d blocks l : is_Some (blocks_db d blocks l) <-> exists e, e ∈ d :: (block_db <$> blocks) /\ is_Some (e l).
Proof.
  revert d. induction blocks as [|r blocks IH]; intros d; cbn [blocks_db fold_left].
  { split; [intros H; exists d; split; [by left|done]|]. intros (e & [->|[]%not_elem_of_nil]%elem_of_cons & H). done. }
  fold (blocks_db (db_union d (block_db r)) blocks). rewrite IH, fmap_cons. split.
  - intros (e & [->|He]%elem_of_cons & H); [apply db_union_some in H as [H|H]; eexists; (split; [|exact H]); rewrite !elem_of_cons; tauto|exists e; split; [|done]; rewrite !elem_of_cons; tauto].
  - intros (e & [->|[->|He]%elem_of_cons]%elem_of_cons & H); [| |exists e; split; [by right|done]]; (exists (db_union d (block_db r)); split; [by left|]); apply db_union_some; tauto.
Qed.
Lemma blocks_samples d l blocks ws : Forall block_good blocks -> no_collision (d :: (block_db <$> blocks)) -> blocks_db d blocks l = Some ws ->
  ws = default [] (d l) ++ (blocks ≫= fun r => id_samples r (Hash l)).
Proof.
  intros HF. revert d ws. induction HF as [|r blocks Hr HF IH]; intros d ws Hnc; cbn [blocks_db fold_left]; [intros ->; by rewrite app_nil_r|]. intros Hws.
  assert (Hex : exists e, e ∈ d :: (block_db <$> r :: blocks) /\ is_Some (e l)) by (apply blocks_db_some; by exists ws).
  destruct Hex as (e & He & Hel). apply IH in Hws as ->.
  - rewrite bind_cons, app_assoc. f_equal. rewrite id_samples_db; [|done|].
    + unfold db_union. destruct (d l), (block_db r l); cbn; unfold id; by rewrite ?app_nil_r.
    + intros l' Hl' E. apply (Hnc l' l (block_db r) e); try done. rewrite fmap_cons. right; by left.
  - eapply no_collision_covered; [|exact Hnc]. intros d' x [->|Hd]%elem_of_cons Hx; [|exists d'; rewrite fmap_cons, !elem_of_cons; tauto].
    apply db_union_some in Hx as [Hx|Hx]; eexists; (split; [|exact Hx]); rewrite fmap_cons, !elem_of_cons; tauto.
Qed.
Lemma names_blocks d blocks (X : gset string) : Forall block_good blocks -> (forall n, n ∈ X <-> exists l ws, d l = Some ws /\ is_Some (Get l n)) ->
  forall n, n ∈ fold_left (fun set r => set ∪ list_to_set (r_LabelNames r)) blocks X <-> exists l ws, blocks_db d blocks l = Some ws /\ is_Some (Get l n).
Proof. intros HF. revert d X. induction HF as [|r blocks Hr HF IH]; intros d X HX; cbn [fold_left]; [done|]. apply IH. by apply names_union. Qed.
Lemma values_blocks d blocks name (X : gset string) : Forall block_good blocks -> (forall v, v ∈ X <-> exists l ws, d l = Some ws /\ Get l name = Some v) ->
  forall v, v ∈ fold_left (fun set r => set ∪ list_to_set (r_LabelValues r name)) blocks X <-> exists l ws, blocks_db d blocks l = Some ws /\ Get l name = Some v.
Proof. intros HF. revert d X. induction HF as [|r blocks Hr HF IH]; intros d X HX; cbn [fold_left]; [done|]. apply IH. by apply values_union. Qed.

(** ** The store as a source *)

(** What the store's readers rely on: a well-formed head, good blocks, and no two series that share an ID. *)
Record bs_ok (bs : BlockStore) : Prop := {
  bo_mem : store_wf (bs_mem bs);
  bo_blocks : Forall block_good (bs_blocks bs);
  bo_clash : no_collision (store_db (bs_mem bs) :: (block_db <$> bs_blocks bs)) }.

(** The store behind the sources' interface; [enc] renders its read errors. *)
Definition bs_enc (enc : bsErr -> srcErr) (e : bsErr) : srcErr := match e with BsSource e => e | _ => enc e end.
Definition bs_source (enc : bsErr -> srcErr) (bs : BlockStore) (ctxErr : nat -> option Z) : Source := mkSource
  (fun _ p => match bs_Select bs ctxErr p with Ok out => Ok out | Err e => Err (bs_enc enc e) end)
  (fun _ => Ok (bs_LabelNames bs)) (fun _ name => Ok (bs_LabelValues bs name)).

#[export] Instance bs_implements enc bs ctxErr ctx : bs_ok bs -> (forall j, ctxErr j = None) -> Implements (bs_source enc bs ctxErr) ctx (bs_db bs).
Proof.
  intros [Hs HF Hnc] Hctx. pose proof (head_implements (bs_mem bs) (fun _ => None) ctx Hs (fun _ => eq_refl)) as [_ _ Hn Hv].
  split; cbn [bs_source src_Select src_LabelNames src_LabelValues].
  - intros p e He. unfold bs_Select. by rewrite He.
  - intros p Hp. destruct (select_gathered p bs ctxErr Hs HF Hnc Hctx Hp) as (out & -> & Ha). by exists out.
  - eexists. split; [reflexivity|]. split; [apply sortedStringSet_spec|]. intros n. unfold bs_LabelNames. rewrite (proj2 (sortedStringSet_spec _)).
    apply names_blocks; [done|]. intros x. rewrite elem_of_list_to_set. destruct Hn as (out & [= <-] & _ & Hn). apply Hn.
  - intros name. eexists. split; [reflexivity|]. split; [apply sortedStringSet_spec|]. intros v. unfold bs_LabelValues. rewrite (proj2 (sortedStringSet_spec _)).
    apply values_blocks; [done|]. intros x. rewrite elem_of_list_to_set. destruct (Hv name) as (out & [= <-] & _ & Hv'). apply Hv'.
Qed.

Lemma store_samples s l ws : store_wf s -> store_db s l = Some ws ->
  (forall tMs, QueryInstant s (Hash l) tMs = last (filter (fun x => s_ts x <= tMs) (sortAndDedup ws))) /\
  (forall a b, QueryRange s (Hash l) a b = Some (filter (fun x => a <= s_ts x <= b) (sortAndDedup ws))).
Proof. intros Hs (ms & E & _ & <-)%store_db_some; [|done]. split; intros; [by apply QueryInstant_spec|by apply QueryRange_spec]. Qed.
Lemma store_no_samples s l : store_wf s -> (forall l', is_Some (store_db s l') -> Hash l' = Hash l -> l' = l) -> store_db s l = None -> st_series s !! Hash l = None.
Proof.
  intros Hs Hc Hn. destruct (st_series s !! Hash l) as [ms|] eqn:E; [|done]. pose proof (store_db_series s _ _ Hs E) as Hd.
  assert (ms_labels ms = l) as El; [|by rewrite El, Hn in Hd]. apply Hc; [by rewrite Hd|]. exact (sw_id _ _ _ (st_series_wf s Hs _ _ E)).
Qed.

Lemma range_result_samples found inb mem : default [] (range_result found inb mem) = sortAndDedup (inb ++ default [] mem).
Proof. unfold range_result. destruct (inb ++ default [] mem) as [|x [|y l]]; [by destruct (_ || _)%bool|done|done]. Qed.
Lemma bs_QueryRange_samples bs i a b ws : Forall block_good (bs_blocks bs) -> default [] (QueryRange (bs_mem bs) i a b) = filter (fun x => a <= s_ts x <= b) (sortAndDedup ws) ->
  exists out, bs_QueryRange bs i a b = Ok out /\ default [] out = filter (fun x => a <= s_ts x <= b) (sortAndDedup (ws ++ (bs_blocks bs ≫= fun r => id_samples r i))).
Proof.
  intros HF HR. unfold bs_QueryRange. destruct (range_blocks_spec a b i (bs_blocks bs) false [] HF) as [f ->]. rewrite bind_Ok. eexists. split; [reflexivity|].
  rewrite range_result_samples, HR, sortAndDedup_comm. cbn [app]. rewrite <- !(sortAndDedup_filter (fun x => a <= s_ts x <= b)) by (cbn; intros; lia).
  by rewrite filter_app, sortAndDedup_absorb_l.
Qed.
Lemma bs_QueryInstant_samples bs i tMs ws : Forall block_good (bs_blocks bs) -> QueryInstant (bs_mem bs) i tMs = last (filter (fun x => s_ts x <= tMs) (sortAndDedup ws)) ->
  bs_QueryInstant bs i tMs = Ok (last (filter (fun x => s_ts x <= tMs) (sortAndDedup (ws ++ (bs_blocks bs ≫= fun r => id_samples r i))))).
Proof.
  intros HF HI. unfold bs_QueryInstant. rewrite HI. rewrite <- !(sortAndDedup_filter (fun x => s_ts x <= tMs)) by (cbn; intros; lia). by apply instant_blocks_spec.
Qed.
