(* ===== verification/BlockCheck.v ===== *)
(** * BlockCheck: what the checks of a block guarantee

    A directory whose files hold any bytes at all, once it passes the checks the
    block store runs before publishing a block ([OpenReader], [validateBlockSeries],
    [ValidateChunkRefs], [validateBlockChunks], [reconcileBlockMeta] of
    [internal/metrics/blockstore.go]), answers every read as a good block. *)
From stdpp Require Import strings.
From S2P Require Import Prelude GoLib GoSort Bits Chunk Dedup Labels Postings Source MemStore BlockIndex BlockPostings PostingsWritten Block BlockStore.

(** ** The checks *)

(** The checks on index, postings and references. *)
Definition open_block (name : string) (d : blockDir) : result blockErr Reader :=
  r ← lift_reader (OpenReader name d);
  _ ← validateBlockSeries r;
  _ ← lift_reader (ValidateChunkRefs r);
  Ok r.
Inductive loadErr := LoadBlock (e : blockErr) | LoadMaxGen (meta stored : Z).
Definition lift_block {A} (m : result blockErr A) : result loadErr A := match m with Ok a => Ok a | Err e => Err (LoadBlock e) end.
(** The deep check of start-up: every chunk is decoded, the metadata reconciled, and
    a survivor's recorded generation compared with the stored ones. *)
Definition deep_check (r : Reader) : result loadErr (Reader * Z) :=
  st ← lift_block (validateBlockChunks r);
  r' ← lift_block (reconcileBlockMeta r st);
  if (negb (bool_decide (m_Sources (r_meta r') = [])) && negb (bcs_maxGen st =? m_MaxGen (r_meta r')))%bool
  then Err (LoadMaxGen (m_MaxGen (r_meta r')) (bcs_maxGen st)) else Ok (r', bcs_maxGen st).

(** ** Statistics *)

Record stats_of (ws : list sample) (st : blockChunkStats) : Prop := {
  so_gen : bcs_maxGen st = max_from (s_gen <$> ws) 0;
  so_some : bcs_hasSamples st = bool_decide (ws <> []);
  so_bounds : ws <> [] -> Forall (fun x => bcs_minTs st <= s_ts x <= bcs_maxTs st) ws /\ bcs_minTs st ∈ s_ts <$> ws /\ bcs_maxTs st ∈ s_ts <$> ws;
  so_count : Z.of_nat (length ws) <= MaxInt64 -> bcs_numSamples st = Z.of_nat (length ws) }.

Lemma stats_chunk_of ws st c : chunk_sound c -> stats_of ws st -> stats_of (ws ++ samples_of c) (stats_chunk st c).
Proof.
  intros Hc [H1 H2 H3 H4]. unfold stats_chunk. destruct (Z.eqb_spec (numSamples c) 0) as [E|E]; [by rewrite (chunk_empty c Hc E), app_nil_r|].
  assert (Hne : samples_of c <> []) by (intros H; apply E; by rewrite <- (cs_len c Hc), H). destruct (cs_reached c Hc Hne) as [Hlo Hhi]. apply list_elem_of_In in Hlo, Hhi.
  change (map s_ts (samples_of c)) with (s_ts <$> samples_of c) in *. pose proof (cs_bounds c Hc) as HB. pose proof (cs_len c Hc) as Hlen.
  assert (Hne' : ws ++ samples_of c <> []) by (by intros [_ ?]%app_eq_nil).
  assert (Hg : (if bcs_maxGen st <? maxGen c then maxGen c else bcs_maxGen st) = max_from (s_gen <$> ws ++ samples_of c) 0).
  { rewrite fmap_app, max_from_app_list, H1, (cs_maxGen c Hc), <- (cs_gens c Hc). destruct (max_from_spec (s_gen <$> ws) 0) as (H0 & _).
    change (map s_gen (samples_of c)) with (s_gen <$> samples_of c). rewrite (max_from_max _ (max_from (s_gen <$> ws) 0)) by done. zbool; lia. }
  assert (Hn : Z.of_nat (length (ws ++ samples_of c)) <= MaxInt64 -> i64 (bcs_numSamples st + numSamples c) = Z.of_nat (length (ws ++ samples_of c))).
  { rewrite length_app. intros Hm. rewrite H4, i64_id by (unfold MaxInt64, in_i64 in *; lia). lia. }
  rewrite H2. destruct (bool_decide_reflect (ws <> [])) as [Hws|Hws]; cbn [negb]; (split; cbn [bcs_maxGen bcs_hasSamples bcs_minTs bcs_maxTs bcs_numSamples]; [exact Hg|by rewrite bool_decide_true| |exact Hn]); intros _.
  - destruct (H3 Hws) as (HF & Hmn & Hmx). rewrite fmap_app, Forall_app, !elem_of_app. split_and!.
    + eapply Forall_impl; [exact HF|]. cbn. intros x Hx. zbool; lia.
    + eapply Forall_impl; [exact HB|]. cbn. intros x Hx. zbool; lia.
    + destruct (minTs c <? bcs_minTs st); [by right|by left].
    + destruct (bcs_maxTs st <? maxTs c); [by right|by left].
  - apply dec_stable in Hws. subst ws. done.
Qed.
Lemma stats_chunks_of cs ws st : Forall chunk_sound cs -> stats_of ws st -> stats_of (ws ++ (cs ≫= samples_of)) (fold_left stats_chunk cs st).
Proof.
  intros HF. revert ws st. induction HF as [|c cs Hc HF IH]; intros ws st Hs; cbn [fold_left]; [by rewrite app_nil_r|]. rewrite bind_cons, app_assoc. by apply IH, stats_chunk_of.
Qed.

(** Chunks a reader hands back were parsed, so they are sound. *)
Lemma ReadChunk_sound r ref c : ReadChunk r ref = Ok c -> chunk_sound c.
Proof.
  unfold ReadChunk. destruct (_ =? _); [done|]. destruct (r_closed r); [done|]. destruct (r_chunks r) as [data|]; [|done]. destruct (read_at _ _ _) as [buf|]; [|done].
  destruct (FromBytes buf) as [c'|] eqn:E; [|done]. intros [= <-]. by apply FromBytes_parsed in E as [? _].
Qed.
Lemma read_chunks_sound r refs cs : read_chunks r refs = Ok cs -> Forall chunk_sound cs.
Proof.
  revert cs. induction refs as [|ref refs IH]; intros cs; cbn [read_chunks]; [intros [= <-]; constructor|]. destruct (ReadChunk r ref) as [c|] eqn:E; [|done]. rewrite bind_Ok.
  destruct (read_chunks r refs) as [cs'|]; [|done]. rewrite bind_Ok. intros [= <-]. constructor; [by eapply ReadChunk_sound|by apply IH].
Qed.

(** Every sample of a block, entry by entry. *)
Definition entry_samples (r : Reader) (se : SeriesEntry) : list sample := match read_chunks r (se_Chunks se) with Ok cs => cs ≫= samples_of | Err _ => [] end.
Definition reader_samples (r : Reader) : list sample := r_entries r ≫= entry_samples r.
Lemma stats_series_of r entries ws st st' : stats_of ws st -> stats_series r st entries = Ok st' ->
  stats_of (ws ++ (entries ≫= entry_samples r)) st' /\ Forall (fun se => exists cs, read_chunks r (se_Chunks se) = Ok cs) entries /\ bcs_numSeries st' = bcs_numSeries st.
Proof.
  revert ws st. induction entries as [|se entries IH]; intros ws st Hs; cbn [stats_series]; [intros [= <-]; rewrite app_nil_r; by split_and!|].
  destruct (read_chunks r (se_Chunks se)) as [cs|] eqn:E; [|done]. rewrite bind_Ok. intros Hst. pose proof (read_chunks_sound _ _ _ E) as HF.
  destruct (IH _ _ (stats_chunks_of cs ws st HF Hs) Hst) as (H1 & H2 & H3). rewrite bind_cons, app_assoc. unfold entry_samples at 1. rewrite E. split_and!; [exact H1|constructor; [by exists cs|done]|].
  rewrite H3. clear. revert st. induction cs as [|c cs IH]; intros st; cbn [fold_left]; [done|]. rewrite IH. unfold stats_chunk. destruct (_ =? _); [done|]. by destruct (negb _).
Qed.
Lemma validateBlockChunks_of r st : validateBlockChunks r = Ok st ->
  stats_of (reader_samples r) st /\ Forall (fun se => exists cs, read_chunks r (se_Chunks se) = Ok cs) (r_entries r) /\ bcs_numSeries st = Z.of_nat (length (r_entries r)).
Proof.
  unfold validateBlockChunks. destruct (stats_series _ _ _) as [st'|] eqn:E; [|done]. intros [= <-]. eapply (stats_series_of r _ []) in E; [exact E|]. by split.
Qed.

(** ** Labels *)

Lemma pairs_to_map_lookup ps n v : StronglySorted (str_key_lt bl_Name) ps -> pairs_to_map ps !! n = Some v <-> mkBL n v ∈ ps.
Proof.
  unfold pairs_to_map. intros Hs. assert (H : forall m : gmap string string, fold_left (fun m p => <[bl_Name p := bl_Value p]> m) ps m !! n = Some v <-> mkBL n v ∈ ps \/ (n ∉ bl_Name <$> ps) /\ m !! n = Some v).
  { induction Hs as [|p ps Hs IH Hp]; intros m; cbn [fold_left]; [split; [right; split; [apply not_elem_of_nil|done]|by intros [?%not_elem_of_nil|[_ ?]]]|].
    rewrite IH, fmap_cons, not_elem_of_cons, !elem_of_cons. destruct (decide (n = bl_Name p)) as [->|Hne].
    - rewrite lookup_insert_eq. assert (Hni : bl_Name p ∉ bl_Name <$> ps) by (intros (q & Eq & Hq)%list_elem_of_fmap; rewrite Forall_forall in Hp; specialize (Hp q Hq); unfold str_key_lt in Hp; rewrite Eq in Hp; by apply (str_lt_asym (bl_Name q) (bl_Name q))).
      split; [intros [?|[_ [= <-]]]; [by left; right|left; left; by destruct p]|]. intros [[E|?]|[[? _] _]]; [right; destruct p; by injection E as <-|by left|done].
    - rewrite lookup_insert_ne by done. split; [intros [?|[? ?]]; [by left; right|by right]|]. intros [[E|?]|[[_ ?] ?]]; [destruct p; by injection E as -> ->|by left|by right]. }
  rewrite H, lookup_empty. split; [by intros [?|[_ ?]]|by left].
Qed.
Lemma blockPairsToLabels_spec ps l : StronglySorted (str_key_lt bl_Name) ps -> blockPairsToLabels ps = Ok l ->
  l = build (pairs_to_map ps) /\ labels_wf l /\ forall n v, mkPair n v ∈ label_pair <$> ps <-> Get l n = Some v.
Proof.
  intros Hs. unfold blockPairsToLabels, NewStoredLabels, labels_NewStored. destruct (validateMetricName _); [|done]. rewrite bind_Ok. destruct (validateLabelMap _ _); [|done]. rewrite bind_Ok. intros [= <-].
  split; [done|]. split; [apply build_wf|]. intros n v. rewrite Get_Map by apply build_wf. rewrite labels_Map_build, pairs_to_map_lookup by done.
  rewrite list_elem_of_fmap. split; [intros ([n' v'] & [= -> ->] & Hin); done|intros Hin; by exists (mkBL n v)].
Qed.
Lemma validate_series_ok want entries : validate_series want entries = Ok tt ->
  Forall (fun se => exists l, blockPairsToLabels (se_Labels se) = Ok l /\ Hash l = se_ID se /\ block_tenant l = want) entries.
Proof.
  induction entries as [|se entries IH]; cbn [validate_series]; [constructor|]. destruct (blockPairsToLabels _) as [l|] eqn:E; [|done].
  destruct (Z.eqb_spec (Hash l) (se_ID se)) as [Hh|]; [|done]. cbn [negb]. destruct (String.eqb_spec (block_tenant l) want) as [Ht|]; [|done]. cbn [negb]. intros H. constructor; [by exists l|by apply IH].
Qed.

(** ** Index and postings *)

Definition bare (se : SeriesEntry) : seriesData := mkSD (se_ID se) (se_Labels se) [].
Lemma buildSeriesByID_from_NoDup entries i byID byID' : buildSeriesByID_from i byID entries = Ok byID' ->
  NoDup (se_ID <$> entries) /\ Forall (fun se => byID !! se_ID se = None) entries.
Proof.
  revert i byID. induction entries as [|se entries IH]; intros i byID; cbn [buildSeriesByID_from]; [split; constructor|]. destruct (byID !! se_ID se) eqn:E; [done|]. intros H%IH. destruct H as [Hnd HF]. rewrite fmap_cons.
  assert (Hne : Forall (fun se' => se_ID se' <> se_ID se) entries) by (eapply Forall_impl; [exact HF|]; cbn; intros se' Hs Heq; by rewrite Heq, lookup_insert_eq in Hs). split.
  - constructor; [|done]. intros (se' & Eq & Hin)%list_elem_of_fmap. rewrite Forall_forall in Hne. by destruct (Hne se' Hin).
  - constructor; [done|]. rewrite Forall_forall in *. intros se' Hin. specialize (HF se' Hin). specialize (Hne se' Hin). by rewrite lookup_insert_ne in HF by done.
Qed.
(** A file is a sequence of bytes, of a length a machine can state. *)
Record dir_ok (d : blockDir) : Prop := {
  do_index : match d_index d with Some b => bytes_ok b | None => True end;
  do_postings : match d_postings d with Some b => Z.of_nat (length b) <= MaxInt64 | None => True end }.
(** What a reader's queries are answered from. *)
Record opened (r : Reader) : Prop := {
  op_ids : NoDup (se_ID <$> r_entries r);
  op_byID : buildSeriesByID (r_entries r) = Ok (r_byID r);
  op_sorted : Forall entry_fits (r_entries r);
  op_count : Z.of_nat (length (r_entries r)) <= 1000000;
  op_queries : forall ms n, let mp := buildMemPostings (se_entry <$> r_entries r) in
    r_Select r ms = Ok (postings_Select mp ms) /\ r_LabelNames r = idx_LabelNames mp /\ r_LabelValues r n = idx_LabelValues mp n }.
Lemma OpenReader_opened name d r : dir_ok d -> OpenReader name d = Ok r ->
  opened r /\ d_meta d = Some (r_meta r) /\ m_BlockID (r_meta r) = name /\ r_chunks r = d_chunks d /\ r_closed r = false.
Proof.
  intros [Hi Hp]. unfold OpenReader. destruct (d_meta d) as [m|]; [|done]. destruct (String.eqb_spec (m_BlockID m) name) as [Hn|]; [|done]. cbn [negb]. destruct (d_index d) as [index|]; [|done].
  destruct (readIndex index) as [es|] eqn:Ei; [|done]. apply readIndex_ok in Ei as (Hc & HF & _); [|done]. destruct (buildSeriesByID es) as [byID|] eqn:Eb; [|done]. rewrite bind_Ok.
  destruct (loadPostings _ es) as [ps|] eqn:Ep; [|done]. rewrite bind_Ok. intros [= <-]. split; [|done].
  split; cbn [r_entries r_byID]; [by apply buildSeriesByID_from_NoDup in Eb as [? _]|done|done|done|]. intros ms n. cbn zeta. unfold r_Select, r_LabelNames, r_LabelValues. cbn [r_postings]. unfold loadPostings in Ep.
  destruct (d_postings d) as [data|]; [|by injection Ep as <-]. destruct (newFilePostings data _) as [fp|] eqn:Ef; [|done]. injection Ep as <-.
  pose proof (newFilePostings_accepted _ _ _ _ (buildMemPostings_rep _) Hp Ef) as Hacc. destruct (accepted_queries _ _ ms n Hacc) as (-> & -> & ->). done.
Qed.

(** ** Checked blocks are good *)

Lemma bare_entry (entries : list SeriesEntry) : sd_entry <$> (bare <$> entries) = se_entry <$> entries.
Proof. by rewrite <- list_fmap_compose. Qed.
Lemma bare_in (P : Z -> list BlockLabel -> Prop) (entries : list SeriesEntry) : (exists sd : seriesData, sd ∈ bare <$> entries /\ P (sd_id sd) (sd_labels sd)) <-> exists se, se ∈ entries /\ P (se_ID se) (se_Labels se).
Proof. split; [intros (? & (se & -> & Hin)%list_elem_of_fmap & H); by exists se|intros (se & Hin & H); exists (bare se); split; [by apply list_elem_of_fmap_2|done]]. Qed.
Lemma opened_good r : opened r -> validate_series (m_Tenant (r_meta r)) (r_entries r) = Ok tt -> Forall (fun se => exists cs, read_chunks r (se_Chunks se) = Ok cs) (r_entries r) ->
  Forall (fun x => m_MinTime (r_meta r) <= s_ts x <= m_MaxTime (r_meta r)) (reader_samples r) -> block_good r.
Proof.
  intros Ho Hv%validate_series_ok Hread Hb. destruct (index_holds (bare <$> r_entries r) []) as (_ & HN & HV); [rewrite <- list_fmap_compose; apply (op_ids r Ho)|].
  assert (HS : forall ms, (StronglySorted Z.lt (postings_Select (buildMemPostings (se_entry <$> r_entries r)) ms)) /\ forall i, i ∈ postings_Select (buildMemPostings (se_entry <$> r_entries r)) ms <-> exists se, se ∈ r_entries r /\ se_ID se = i /\ Forall (fun m => m ∈ label_pair <$> se_Labels se) ms).
  { intros ms. destruct (index_holds (bare <$> r_entries r) ms) as ([HS1 HS2] & _ & _); [rewrite <- list_fmap_compose; apply (op_ids r Ho)|]. rewrite bare_entry in HS1, HS2. split; [done|]. intros i. rewrite HS2.
    apply (bare_in (fun id ls => id = i /\ Forall (fun m => m ∈ label_pair <$> ls) ms)). }
  rewrite bare_entry in HN, HV. split.
  - apply (op_ids r Ho).
  - apply Forall_forall. intros se Hin. rewrite Forall_forall in Hv, Hread. destruct (Hv se Hin) as (l & Hl & Hh & Ht). destruct (Hread se Hin) as [cs Hcs]. exists l, cs.
    pose proof (op_sorted r Ho) as HF. rewrite Forall_forall in HF. destruct (ef_labels _ (HF se Hin)) as [_ Hsort]. destruct (blockPairsToLabels_spec _ _ Hsort Hl) as (_ & Hwf & Hp).
    split; [done|done|done|done|exact Hp|done|by eapply read_chunks_sound|]. rewrite Forall_forall in Hb |- *. intros x Hx. apply Hb. unfold reader_samples. rewrite list_elem_of_bind. exists se. split; [|done]. unfold entry_samples. by rewrite Hcs.
  - apply SeriesByID_spec; [apply (op_ids r Ho)|apply (op_byID r Ho)].
  - intros ms. destruct (HS ms) as [HS1 HS2]. eexists. split; [apply (op_queries r Ho ms "")|]. split; [by apply strict_NoDup|done].
  - intros n. rewrite (proj1 (proj2 (op_queries r Ho [] ""))), (proj2 HN). split.
    + intros (sd & v & (se & -> & Hin)%list_elem_of_fmap & H). by exists se, v.
    + intros (se & v & Hin & H). exists (bare se), v. split; [by apply list_elem_of_fmap_2|done].
  - intros n v. rewrite (proj2 (proj2 (op_queries r Ho [] n))), (proj2 (HV n)). apply (bare_in (fun _ ls => mkPair n v ∈ label_pair <$> ls)).
Qed.

Lemma open_block_ok name d r : open_block name d = Ok r -> OpenReader name d = Ok r /\ validate_series (m_Tenant (r_meta r)) (r_entries r) = Ok tt /\ ValidateChunkRefs r = Ok tt.
Proof.
  unfold open_block. destruct (OpenReader name d) as [r0|] eqn:E; [|done]. cbn [lift_reader]. rewrite bind_Ok. unfold validateBlockSeries. destruct (validate_series _ _) as [[]|] eqn:Ev; [|done]. rewrite bind_Ok.
  destruct (ValidateChunkRefs r0) as [[]|] eqn:Er; [|done]. cbn [lift_reader]. rewrite bind_Ok. by intros [= <-].
Qed.
Lemma reconcile_ok r st r' : reconcileBlockMeta r st = Ok r' -> let '(mn, mx) := if bcs_hasSamples st then (bcs_minTs st, bcs_maxTs st) else (0, 0) in let m := r_meta r in
  r' = mkReader (mkMeta (m_BlockID m) mn mx (bcs_numSeries st) (bcs_numSamples st) (m_CreatedAt m) (m_Level m) (m_Sources m) (m_MaxGen m) (m_Tenant m)) (r_entries r) (r_byID r) (r_postings r) (r_chunks r) (r_closed r).
Proof. unfold reconcileBlockMeta, SetReconciledMeta. destruct (bcs_hasSamples st); cbn [m_BlockID]; rewrite String.eqb_refl; cbn [negb lift_reader]; by intros [= <-]. Qed.
(** A reader that differs from another in its metadata alone. *)
Record same_files (r r' : Reader) : Prop := {
  sf_entries : r_entries r' = r_entries r; sf_byID : r_byID r' = r_byID r; sf_postings : r_postings r' = r_postings r;
  sf_chunks : r_chunks r' = r_chunks r; sf_closed : r_closed r' = r_closed r }.
Lemma same_ReadChunk r r' ref : same_files r r' -> ReadChunk r' ref = ReadChunk r ref.
Proof. intros [_ _ _ H1 H2]. unfold ReadChunk. by rewrite H1, H2. Qed.
Lemma same_read_chunks r r' refs : same_files r r' -> read_chunks r' refs = read_chunks r refs.
Proof. intros Hs. induction refs as [|ref refs IH]; [done|]. cbn [read_chunks]. by rewrite (same_ReadChunk r r'), IH. Qed.
Lemma same_samples r r' : same_files r r' -> reader_samples r' = reader_samples r.
Proof. intros Hs. unfold reader_samples. rewrite (sf_entries _ _ Hs). apply list_bind_ext; [|done]. intros se. unfold entry_samples. by rewrite (same_read_chunks r r'). Qed.
Lemma same_block_db r r' l : same_files r r' -> block_db r' l = block_db r l.
Proof.
  intros Hs. unfold block_db, SeriesByID. rewrite (sf_entries _ _ Hs), (sf_byID _ _ Hs). destruct (_ ≫= _) as [se|]; [|done]. by rewrite (same_read_chunks r r').
Qed.
Lemma same_opened r r' : same_files r r' -> opened r -> opened r'.
Proof.
  intros [H1 H2 H3 _ _] [O1 O2 O3 O4 O5]. unfold r_Select, r_LabelNames, r_LabelValues in O5. split; unfold r_Select, r_LabelNames, r_LabelValues; rewrite ?H1, ?H2, ?H3; done.
Qed.

(** The metadata of a reader states the figures of its samples. *)
Record figures_true (r : Reader) : Prop := {
  ft_series : m_NumSeries (r_meta r) = Z.of_nat (length (r_entries r));
  ft_samples : Z.of_nat (length (reader_samples r)) <= MaxInt64 -> m_NumSamples (r_meta r) = Z.of_nat (length (reader_samples r));
  ft_bounds : Forall (fun x => m_MinTime (r_meta r) <= s_ts x <= m_MaxTime (r_meta r)) (reader_samples r);
  ft_reached : reader_samples r <> [] -> m_MinTime (r_meta r) ∈ s_ts <$> reader_samples r /\ m_MaxTime (r_meta r) ∈ s_ts <$> reader_samples r }.
Definition block_gen (r : Reader) : Z := max_from (s_gen <$> reader_samples r) 0.

Lemma deep_check_spec r r' g : opened r -> validate_series (m_Tenant (r_meta r)) (r_entries r) = Ok tt -> deep_check r = Ok (r', g) ->
  block_good r' /\ figures_true r' /\ same_files r r' /\ g = block_gen r' /\ (m_Sources (r_meta r) <> [] -> m_MaxGen (r_meta r) = g) /\
  (m_BlockID (r_meta r') = m_BlockID (r_meta r) /\ m_Sources (r_meta r') = m_Sources (r_meta r) /\ m_Tenant (r_meta r') = m_Tenant (r_meta r) /\ m_Level (r_meta r') = m_Level (r_meta r) /\ m_MaxGen (r_meta r') = m_MaxGen (r_meta r)).
Proof.
  intros Ho Hv. unfold deep_check. destruct (validateBlockChunks r) as [st|] eqn:Es; [|done]. cbn [lift_block]. rewrite bind_Ok. apply validateBlockChunks_of in Es as ([S1 S2 S3 S4] & Hread & Hn).
  destruct (reconcileBlockMeta r st) as [r1|] eqn:Er; [|done]. cbn [lift_block]. rewrite bind_Ok. apply reconcile_ok in Er. destruct (if bcs_hasSamples st then _ else _) as [mn mx] eqn:Em.
  destruct (_ && _)%bool eqn:Eg; [done|]. intros [= <- <-]. cbn zeta in Er. assert (Hs : same_files r r1) by (by rewrite Er).
  assert (Hbounds : Forall (fun x => mn <= s_ts x <= mx) (reader_samples r) /\ (reader_samples r <> [] -> mn ∈ s_ts <$> reader_samples r /\ mx ∈ s_ts <$> reader_samples r)).
  { rewrite S2 in Em. destruct (bool_decide_reflect (reader_samples r <> [])) as [Hne|Hne]; [injection Em as <- <-; split; [by apply S3|intros _; by apply S3]|]. apply dec_stable in Hne. by rewrite Hne. }
  assert (Hf : figures_true r1).
  { split; rewrite ?(same_samples r r1) by done; rewrite Er; cbn [r_meta m_NumSeries m_NumSamples m_MinTime m_MaxTime r_entries]; [exact Hn|exact S4|apply Hbounds|apply Hbounds]. }
  split_and!; [|exact Hf|exact Hs|by unfold block_gen; rewrite (same_samples r r1)| |by rewrite Er..].
  - apply opened_good; [by eapply same_opened| | |apply (ft_bounds _ Hf)]; rewrite (sf_entries _ _ Hs); [by rewrite Er|]. eapply Forall_impl; [exact Hread|]. intros se [cs Hcs]. exists cs. by rewrite (same_read_chunks r r1).
  - intros Hsrc. rewrite Er in Eg. cbn [r_meta m_Sources m_MaxGen] in Eg. rewrite bool_decide_false in Eg by done. cbn [negb andb] in Eg. apply negb_false_iff, Z.eqb_eq in Eg. done.
Qed.

(** C38. The checks are enough. Whatever bytes a block directory holds, a block that
    opens, passes the series and reference checks and whose chunks all decode
    answers every read as a good block does: label sets are well formed and belong
    to the series ID and the tenant they are filed under, selects and listings are
    exact over the index entries, every chunk reads back sound, and the reconciled
    metadata bounds and counts the samples, so no time-bounded read can skip one
    and no retention can expire one early. The samples served are those of the
    chunks file, and the generation reported is the largest stored. *)
Theorem checked_block_exact name d r r' g (Hd : dir_ok d) (Ho : open_block name d = Ok r) (Hc : deep_check r = Ok (r', g)) :
  block_good r' /\ figures_true r' /\ (forall l, block_db r' l = block_db r l) /\ g = block_gen r' /\ m_BlockID (r_meta r') = name /\
  Forall (fun se => exists l, blockPairsToLabels (se_Labels se) = Ok l /\ Hash l = se_ID se /\ block_tenant l = m_Tenant (r_meta r')) (r_entries r').
Proof.
  apply open_block_ok in Ho as (Ho & Hv & _). apply OpenReader_opened in Ho as (Hop & _ & Hid & _); [|done]. destruct (deep_check_spec r r' g Hop Hv Hc) as (H1 & H2 & H3 & H4 & _ & E1 & _ & E3 & _).
  split_and!; [done|done|intros l; by apply same_block_db|done|by rewrite E1|]. rewrite (sf_entries _ _ H3), E3. by apply validate_series_ok.
Qed.

Definition demo_set : Labels := build (<["__name__" := "up"]> {["job" := "api"]})%string.
Definition demo_written : list seriesData := [mkSD (Hash demo_set) (labelsToPairs demo_set) [demo_chunk]].
Definition demo_files : blockDir := match add_all (NewWriter "b1") demo_written with Ok w => commit_dir w 5 | Err _ => mkDir None None None None end.
Lemma dir_ok_check d : (forallb (fun x => (0 <=? x) && (x <? 256)) (default [] (d_index d)) && (Z.of_nat (length (default [] (d_postings d))) <=? MaxInt64))%bool = true -> dir_ok d.
Proof.
  intros [H1 H2]%andb_true_iff. split; [destruct (d_index d); [by apply bytes_ok_check|done]|]. destruct (d_postings d); [by apply Z.leb_le|done].
Qed.
Lemma demo_files_ok : dir_ok demo_files.
Proof. apply dir_ok_check. vm_compute. reflexivity. Qed.
Lemma checked_block_exact_witness : exists r r' g, open_block "b1" demo_files = Ok r /\ deep_check r = Ok (r', g) /\ block_good r' /\ g = block_gen r' /\ length (reader_samples r') = 5%nat.
Proof.
  destruct (open_block "b1" demo_files) as [r|] eqn:Eo; [|vm_compute in Eo; discriminate Eo]. exists r. destruct (deep_check r) as [[r' g]|] eqn:Ec.
  2:{ exfalso. assert (E : match open_block "b1" demo_files with Ok r => match deep_check r with Ok _ => true | _ => false end | _ => false end = true) by (vm_compute; reflexivity). by rewrite Eo, Ec in E. }
  exists r', g. destruct (checked_block_exact "b1" demo_files r r' g demo_files_ok Eo Ec) as (H1 & _ & _ & H2 & _). refine (conj eq_refl (conj eq_refl (conj H1 (conj H2 _)))).
  assert (E : match open_block "b1" demo_files with Ok r => match deep_check r with Ok (r', _) => length (reader_samples r') | _ => 0%nat end | _ => 0%nat end = 5%nat) by (vm_compute; reflexivity). by rewrite Eo, Ec in E.
Defined.

(** ** Reads of a store whose blocks were checked *)

(** C8. Reads over head and blocks are exact: for every state whose blocks are
    good, [Select], [LabelNames] and [LabelValues] answer for the union of the
    writes the head and the blocks hold, whichever of them holds which sample and
    however often; [QueryInstant] returns the latest surviving write at or before
    its time and [QueryRange] the surviving writes of its range, the highest
    write generation winning each timestamp, though a block out of range is never
    opened. *)
Theorem block_reads_exact (enc : bsErr -> srcErr) (bs : BlockStore) (Hbs : bs_ok bs) :
  (forall ctxErr ctx, (forall i, ctxErr i = None) -> Implements (bs_source enc bs ctxErr) ctx (bs_db bs)) /\
  (forall l ws, bs_db bs l = Some ws ->
     (forall tMs, bs_QueryInstant bs (Hash l) tMs = Ok (last (filter (fun x => s_ts x <= tMs) (sortAndDedup ws)))) /\
     (forall a b, exists out, bs_QueryRange bs (Hash l) a b = Ok out /\ default [] out = filter (fun x => a <= s_ts x <= b) (sortAndDedup ws))).
Proof.
  split; [intros; by apply bs_implements|]. intros l ws Hws. destruct Hbs as [Hs HF Hnc].
  assert (Hclash : forall l', is_Some (store_db (bs_mem bs) l') -> Hash l' = Hash l -> l' = l).
  { intros l' Hl' E. destruct (proj1 (blocks_db_some _ _ l) (mk_is_Some _ _ Hws)) as (e & He & Hel). apply (Hnc l' l (store_db (bs_mem bs)) e); try done. by left. }
  apply blocks_samples in Hws as ->; [|done..]. destruct (store_db (bs_mem bs) l) as [ws|] eqn:E; cbn [default from_option]; unfold id.
  - split; [intros tMs; apply bs_QueryInstant_samples|intros a b; apply bs_QueryRange_samples]; try done; by eapply store_samples in E as [HI HR]; rewrite ?HI, ?HR.
  - pose proof (store_no_samples _ l Hs Hclash E) as Hn. split; [intros tMs; apply bs_QueryInstant_samples|intros a b; apply bs_QueryRange_samples]; try done; unfold QueryInstant, QueryRange; by rewrite Hn.
Qed.

Definition demo_reader : Reader := match open_block "b1" demo_files with Ok r => match deep_check r with Ok (r', _) => r' | Err _ => r end | Err _ => mkReader (mkMeta "" 0 0 0 0 0 0 [] 0 "") [] ∅ (MemPostingsOf (buildMemPostings [])) None true end.
Lemma demo_reader_good : block_good demo_reader.
Proof.
  destruct (open_block "b1" demo_files) as [r|] eqn:Eo; [|vm_compute in Eo; discriminate Eo]. destruct (deep_check r) as [[r' g]|] eqn:Ec.
  - assert (E : demo_reader = r') by (unfold demo_reader; by rewrite Eo, Ec). rewrite E. 
    apply open_block_ok in Eo as (Ho & Hv & _). apply OpenReader_opened in Ho as (Hop & _); [|exact demo_files_ok]. exact (proj1 (deep_check_spec r r' g Hop Hv Ec)).
  - exfalso. assert (E : match open_block "b1" demo_files with Ok r => match deep_check r with Ok _ => true | _ => false end | _ => false end = true) by (vm_compute; reflexivity). by rewrite Eo, Ec in E.
Qed.

(** A store that holds one series only. *)
Lemma one_series_no_collision (l0 : Labels) (dbs : list database) : Forall (fun db : database => forall l, is_Some (db l) -> l = l0) dbs -> no_collision dbs.
Proof. rewrite Forall_forall. intros HF l1 l2 d1 d2 H1 H2 S1 S2 _. by rewrite (HF d1 H1 l1 S1), (HF d2 H2 l2 S2). Qed.
Lemma store_one_series s l0 : store_wf s -> forallb (fun e => bool_decide (ms_labels e.2 = l0)) (map_to_list (st_series s)) = true -> forall l, is_Some (store_db s l) -> l = l0.
Proof.
  intros Hs HF l [ws (ms & E & <- & _)%store_db_some]; [|done]. rewrite forallb_forall in HF. specialize (HF (Hash (ms_labels ms), ms)). cbn in HF. apply bool_decide_eq_true in HF; [done|]. by apply list_elem_of_In, elem_of_map_to_list.
Qed.
Lemma block_one_series r l0 : block_good r -> forallb (fun se => match blockPairsToLabels (se_Labels se) with Ok l => bool_decide (l = l0) | Err _ => false end) (r_entries r) = true -> forall l, is_Some (block_db r l) -> l = l0.
Proof.
  intros Hr HF l [ws (se & cs & Hse & Hg & _)%block_db_some]; [|done]. apply (bg_byID r Hr) in Hse as [Hin _]. rewrite forallb_forall in HF. specialize (HF se (proj1 (list_elem_of_In _ _) Hin)).
  rewrite (ge_labels _ _ _ _ Hg) in HF. by apply bool_decide_eq_true in HF.
Qed.
Definition demo_head : MemoryStore := run NewMemoryStore [OpAppend 100 demo_set 1500 7 0 0].
Lemma demo_head_wf : store_wf demo_head.
Proof. apply reachable_wf, reachable_run; [apply reach_new|]. unfold demo_set. split; [op_ok_solve|exact I]. Qed.
Definition demo_bs : BlockStore := mkBlockStore demo_head [demo_reader].
Lemma demo_bs_ok : bs_ok demo_bs.
Proof.
  split; [apply demo_head_wf|apply Forall_singleton, demo_reader_good|]. apply (one_series_no_collision demo_set). apply Forall_cons; split; [|apply Forall_singleton].
  - apply store_one_series; [apply demo_head_wf|vm_compute; reflexivity].
  - apply block_one_series; [apply demo_reader_good|vm_compute; reflexivity].
Qed.
Lemma block_reads_exact_witness : exists ws, bs_db demo_bs demo_set = Some ws /\ length ws = 6%nat /\ bs_QueryInstant demo_bs (Hash demo_set) MaxInt64 = Ok (last (filter (fun x => s_ts x <= MaxInt64) (sortAndDedup ws))).
Proof.
  destruct (bs_db demo_bs demo_set) as [ws|] eqn:E; [|vm_compute in E; discriminate E]. exists ws. destruct (block_reads_exact (fun _ => ErrStore 0) demo_bs demo_bs_ok) as [_ H].
  destruct (H demo_set ws E) as [HI _]. split; [reflexivity|]. split; [|apply HI]. assert (Hl : match bs_db demo_bs demo_set with Some ws => length ws | None => 0%nat end = 6%nat) by (vm_compute; reflexivity). by rewrite E in Hl.
Defined.
