(* ===== verification/BlockIngest.v ===== *)
(** * BlockIngest: writing and publishing blocks

    [FlushBlock], [IngestSeriesChunks] and what they share in
    [internal/metrics/blockstore.go]: series are grouped by tenant, each group is
    written as one block, the block is read back and checked, and only then joins
    the blocks queries see. *)
From stdpp Require Import strings pretty.
From S2P Require Import Prelude GoLib GoSort Bits Chunk Dedup Labels Postings Source ReadEquiv MemStore BlockIndex BlockPostings PostingsWritten Block BlockStore BlockCheck.

(** ** The store with its directories *)

(** [b_blockDir] and [b_tmpDir] hold the block directories under [blocks/] and
    [tmp/]; a writer's unfinished work directory is in neither. *)
Record bstate := mkBState { b_mem : MemoryStore; b_blocks : list Reader; b_blockDir : gmap string blockDir; b_tmpDir : gmap string blockDir }.
Definition b_store (st : bstate) : BlockStore := mkBlockStore (b_mem st) (b_blocks st).
Definition set_mem (mem : MemoryStore) (st : bstate) : bstate := mkBState mem (b_blocks st) (b_blockDir st) (b_tmpDir st).
Definition set_dirs (blocks tmp : gmap string blockDir) (st : bstate) : bstate := mkBState (b_mem st) (b_blocks st) blocks tmp.
Definition publish (r : Reader) (st : bstate) : bstate := mkBState (b_mem st) (b_blocks st ++ [r]) (b_blockDir st) (b_tmpDir st).

Inductive delete_fault := RenameFails | RemoveFails.
(** The flag is false when an error is returned. *)
Definition safeDeleteBlock (fault : option delete_fault) (id : string) (st : bstate) : bool * bstate :=
  let tmp := delete id (b_tmpDir st) in
  match b_blockDir st !! id, fault with
  | None, _ => (true, set_dirs (b_blockDir st) tmp st)
  | Some _, Some RenameFails => (false, set_dirs (b_blockDir st) tmp st)
  | Some d, Some RemoveFails => (false, set_dirs (delete id (b_blockDir st)) (<[id := d]> tmp) st)
  | Some _, None => (true, set_dirs (delete id (b_blockDir st)) tmp st)
  end.

(** ** One block *)

(** What the system does for one block: the random ID ([None] when the writer cannot
    be made), the clock, and where it fails. *)
Record write_io := mkIO { io_id : option string; io_now : Z; io_commit : option commit_fault; io_delete : option delete_fault }.
Inductive ingestErr :=
  | CtxDone (e : Z) | ZeroSeries | DuplicateID (id : Z) | NoChunks (id : Z) | EmptyChunk (id : Z) | WrongFingerprint (id fp : Z)
  | NewWriterFailed | AddFailed (e : writerErr) | CommitFailed (e : writerErr) | BlockRejected (e : blockErr).

Definition to_seriesData (sc : SeriesChunks) : seriesData := mkSD (sc_ID sc) (labelsToPairs (sc_Labels sc)) (sc_Chunks sc).*2.
(** The checks before a written block is published. *)
Definition check_written (id : string) (d : blockDir) : result blockErr Reader :=
  r ← open_block id d; _ ← validateBlockChunks r; Ok r.
Definition writeOneBlock (io : write_io) (series : list SeriesChunks) (tenantID : string) (st : bstate) : result ingestErr Meta * bstate :=
  match io_id io with
  | None => (Err NewWriterFailed, st)
  | Some id =>
      match add_all (SetTenant tenantID (NewWriter id)) (to_seriesData <$> series) with
      | Err e => (Err (AddFailed e), st)
      | Ok w =>
          let '(res, _, blocks) := Commit (io_commit io) (io_now io) w (b_blockDir st) in
          let st := set_dirs blocks (b_tmpDir st) st in
          match res with
          | Err e => (Err (CommitFailed e), st)
          | Ok meta =>
              match default (Err (BadReader MetaUnreadable)) (check_written id <$> blocks !! id) with
              | Err e => (Err (BlockRejected e), (safeDeleteBlock (io_delete io) id st).2)
              | Ok r => (Ok meta, publish r st)
              end
          end
      end
  end.

(** ** A batch *)

Definition tenant_group (t : string) (series : list SeriesChunks) : list SeriesChunks := filter (fun sc => block_tenant (sc_Labels sc) = t) series.
Definition tenant_ids (series : list SeriesChunks) : list string := sort_str id (elements (list_to_set (block_tenant <$> (sc_Labels <$> series)) : gset string)).
Definition add_counts (a b : Meta) : Meta :=
  mkMeta (m_BlockID a) (m_MinTime a) (m_MaxTime a) (i64 (m_NumSeries a + m_NumSeries b)) (i64 (m_NumSamples a + m_NumSamples b)) (m_CreatedAt a) (m_Level a) (m_Sources a) (m_MaxGen a) (m_Tenant a).
Definition zero_meta : Meta := mkMeta "" 0 0 0 0 0 0 [] 0 "".
(** [ios i] is what the system does for the [i]-th block of the batch. *)
Fixpoint write_groups (ios : nat -> write_io) (series : list SeriesChunks) (i : nat) (first : Meta) (tenants : list string) (st : bstate) : result ingestErr Meta * bstate :=
  match tenants with
  | [] => (Ok first, st)
  | t :: rest =>
      match writeOneBlock (ios i) (tenant_group t series) t st with
      | (Err e, st) => (Err e, st)
      | (Ok meta, st) => write_groups ios series (S i) (if (i =? 0)%nat then meta else add_counts first meta) rest st
      end
  end.
Definition ingestLocked (ios : nat -> write_io) (series : list SeriesChunks) (st : bstate) : result ingestErr Meta * bstate :=
  write_groups ios series 0 zero_meta (tenant_ids series) st.

(** [ops] is what the head's other callers do after the snapshot, while the blocks
    are written: the head is locked only for the snapshot and for the discard. *)
Definition FlushBlock (ios : nat -> write_io) (ops : list store_op) (st : bstate) : result ingestErr bool * bstate :=
  match SealedChunksSnapshot (b_mem st) with
  | [] => (Ok false, set_mem (run (b_mem st) ops) st)
  | snapshot =>
      let '(res, st) := ingestLocked ios snapshot st in
      let st := set_mem (run (b_mem st) ops) st in
      match res with
      | Err e => (Err e, st)
      | Ok _ => (Ok true, set_mem (DiscardSealedChunks (b_mem st) snapshot) st)
      end
  end.

(** The model's chunks are values, so none is nil. *)
Fixpoint validate_chunks (seen : gset Z) (series : list SeriesChunks) : result ingestErr unit :=
  match series with
  | [] => Ok tt
  | sc :: rest =>
      if bool_decide (sc_ID sc ∈ seen) then Err (DuplicateID (sc_ID sc)) else
      match sc_Chunks sc with
      | [] => Err (NoChunks (sc_ID sc))
      | cs =>
          if existsb (fun rc => numSamples rc.2 =? 0) cs then Err (EmptyChunk (sc_ID sc)) else
          if negb (Hash (sc_Labels sc) =? sc_ID sc) then Err (WrongFingerprint (sc_ID sc) (Hash (sc_Labels sc))) else
          validate_chunks ({[sc_ID sc]} ∪ seen) rest
      end
  end.
Definition validateSeriesChunks (series : list SeriesChunks) : result ingestErr unit :=
  match series with [] => Err ZeroSeries | _ => validate_chunks ∅ series end.
(** The context is read before the checks and again once the lock is held. *)
Definition IngestSeriesChunks (ctx0 ctx1 : option Z) (ios : nat -> write_io) (series : list SeriesChunks) (st : bstate) : result ingestErr Meta * bstate :=
  match ctx0 with
  | Some e => (Err (CtxDone e), st)
  | None =>
      match validateSeriesChunks series with
      | Err e => (Err e, st)
      | Ok _ => match ctx1 with Some e => (Err (CtxDone e), st) | None => ingestLocked ios series st end
      end
  end.

(** ** Labels as pairs *)

Lemma labelsToPairs_sorted l : labels_wf l -> StronglySorted (str_key_lt bl_Name) (labelsToPairs l).
Proof.
  intros Hl. unfold labelsToPairs. apply sort_str_sorted. rewrite <- list_fmap_compose. apply (NoDup_fst_map_to_list (labels_Map l)).
Qed.
Lemma elem_of_labelsToPairs l n v : mkBL n v ∈ labelsToPairs l <-> labels_Map l !! n = Some v.
Proof.
  unfold labelsToPairs. rewrite (sort_str_perm bl_Name), list_elem_of_fmap, <- elem_of_map_to_list. split; [intros ([n' v'] & [= -> ->] & H); done|intros H; by exists (n, v)].
Qed.
Lemma pairs_to_map_labelsToPairs l : labels_wf l -> pairs_to_map (labelsToPairs l) = labels_Map l.
Proof.
  intros Hl. apply map_eq. intros n. apply option_eq. intros v. rewrite pairs_to_map_lookup by (by apply labelsToPairs_sorted). apply elem_of_labelsToPairs.
Qed.
(** Every label set that can be stored comes back from its pairs. *)
Definition storable (l : Labels) : Prop := labels_wf l /\ NewStoredLabels (labels_Map l) = Ok l.
Lemma storable_pairs l : storable l -> blockPairsToLabels (labelsToPairs l) = Ok l.
Proof. intros [Hl Hs]. unfold blockPairsToLabels. by rewrite pairs_to_map_labelsToPairs. Qed.
Lemma canonical_pairs sc : labels_wf (sc_Labels sc) -> canonical (to_seriesData sc) = to_seriesData sc.
Proof.
  intros Hl. unfold canonical, to_seriesData, canonicalizeLabels. cbn [sd_id sd_labels sd_chunks]. f_equal. apply sort_str_unique; [|by apply labelsToPairs_sorted|done].
  by apply (str_key_NoDup bl_Name), labelsToPairs_sorted.
Qed.

(** ** What one written block holds *)

(** The writes of a batch. *)
Definition ingest_db (series : list SeriesChunks) : database := fun l => if decide (l ∈ sc_Labels <$> series) then Some (snapshot_samples series l) else None.
Record batch_ready (series : list SeriesChunks) : Prop := {
  br_ids : NoDup (sc_ID <$> series);
  br_labels : Forall (fun sc => labels_wf (sc_Labels sc) /\ Hash (sc_Labels sc) = sc_ID sc) series;
  br_fits : block_fits (to_seriesData <$> series);
  br_count : Z.of_nat (length ((to_seriesData <$> series) ≫= series_samples)) <= MaxInt64 }.

Lemma snapshot_samples_at series sc : NoDup (sc_ID <$> series) -> Forall (fun sc => Hash (sc_Labels sc) = sc_ID sc) series -> sc ∈ series ->
  snapshot_samples series (sc_Labels sc) = (sc_Chunks sc).*2 ≫= samples_of.
Proof.
  unfold snapshot_samples, snapshot_chunks. intros Hnd HF Hin. assert (E : (series ≫= fun sc' => if decide (sc_Labels sc' = sc_Labels sc) then sc_Chunks sc' else []) = sc_Chunks sc).
  { induction series as [|sc' series IH]; [by apply not_elem_of_nil in Hin|]. rewrite fmap_cons in Hnd. apply NoDup_cons in Hnd as [Hni Hnd]. apply Forall_cons in HF as [Hh HF]. rewrite bind_cons.
    assert (Hout : forall sc0, sc0 ∈ series -> sc_Labels sc0 <> sc_Labels sc' ) by (intros sc0 H0 E; apply Hni; rewrite Forall_forall in HF; rewrite <- Hh, <- E, (HF sc0 H0); by apply list_elem_of_fmap_2).
    apply elem_of_cons in Hin as [->|Hin].
    - rewrite decide_True by done. assert (En : (series ≫= fun sc0 => if decide (sc_Labels sc0 = sc_Labels sc') then sc_Chunks sc0 else []) = []); [|by rewrite En, app_nil_r].
      clear IH Hnd HF Hni. induction series as [|x series IH]; [done|]. rewrite bind_cons, decide_False by (apply Hout; by left). apply IH. intros y Hy. apply Hout. by right.
    - rewrite decide_False by (intros E; by destruct (Hout sc Hin)). by apply IH. }
  rewrite E. clear. induction (sc_Chunks sc) as [|rc cs IH]; [done|]. rewrite fmap_cons, !bind_cons. f_equal. exact IH.
Qed.
Lemma refs_read_chunks r refs cs : refs_read r refs cs -> exists cs', read_chunks r refs = Ok cs' /\ cs' ≫= samples_of = cs ≫= samples_of.
Proof.
  induction 1 as [|ref c refs cs (c' & Hc & Hs) _ (cs' & IH & Hss)]; [by exists []|]. exists (c' :: cs'). cbn [read_chunks]. rewrite Hc, bind_Ok, IH, bind_Ok. split; [done|].
  rewrite !bind_cons, Hss. f_equal. by apply same_content_samples.
Qed.
Lemma pairs_to_map_perm ps l : StronglySorted (str_key_lt bl_Name) ps -> labels_wf l -> ps ≡ₚ labelsToPairs l -> pairs_to_map ps = labels_Map l.
Proof. intros Hs Hl Hp. apply map_eq. intros n. apply option_eq. intros v. rewrite pairs_to_map_lookup, Hp by done. apply elem_of_labelsToPairs. Qed.

Lemma holds_block_db r series : block_good r -> Forall entry_fits (r_entries r) -> holds r (to_seriesData <$> series) -> batch_ready series -> forall l, block_db r l = ingest_db series l.
Proof.
  intros Hr Hfits [H1 _ _ _ _ _ _] [B1 B2 _ _] l. rewrite Forall2_fmap_r in H1.
  assert (Hat : forall se, se ∈ r_entries r -> exists sc, sc ∈ series /\ se_ID se = sc_ID sc /\ block_db r (sc_Labels sc) = Some (snapshot_samples series (sc_Labels sc))).
  { intros se Hse. pose proof Hse as [k Hk]%list_elem_of_lookup. destruct (Forall2_lookup_l _ _ _ _ _ H1 Hk) as (sc & Hsc & E1 & E2 & E3). apply list_elem_of_lookup_2 in Hsc. cbn [to_seriesData sd_id sd_labels sd_chunks] in *.
    rewrite Forall_forall in B2. destruct (B2 sc Hsc) as [Hwf Hh]. exists sc. split; [done|]. split; [done|].
    destruct (good_entry_at r (se_ID se) se Hr) as (l' & cs & Hg & Hh' & Hdb); [by apply (bg_byID r Hr)|]. rewrite Forall_forall in Hfits. destruct (ef_labels _ (Hfits se Hse)) as [_ Hsort].
    destruct (blockPairsToLabels_spec _ _ Hsort (ge_labels _ _ _ _ Hg)) as (El & Hwf' & _). rewrite (pairs_to_map_perm _ (sc_Labels sc)), build_labels_Map in El by done. rewrite <- El, Hdb. f_equal.
    destruct (refs_read_chunks _ _ _ E3) as (cs' & Hcs & Hss). rewrite (ge_read _ _ _ _ Hg) in Hcs. injection Hcs as <-. rewrite Hss, El. symmetry. apply snapshot_samples_at; [done| |done]. apply Forall_forall. intros x Hx. by apply B2. }
  unfold ingest_db. destruct (decide (l ∈ sc_Labels <$> series)) as [(sc & -> & Hsc)%list_elem_of_fmap|Hn].
  - pose proof Hsc as [k Hk]%list_elem_of_lookup. destruct (Forall2_lookup_r _ _ _ _ _ H1 Hk) as (se & Hse%list_elem_of_lookup_2 & E1 & _). destruct (Hat se Hse) as (sc' & Hsc' & E' & Hdb). cbn in E1.
    assert (sc' = sc) as ->; [|done]. eapply (NoDup_fmap_same sc_ID); try done. congruence.
  - destruct (block_db r l) as [ws|] eqn:E; [|done]. exfalso. apply block_db_some in E as (se & cs & Hse & Hg & _); [|done]. apply (bg_byID r Hr) in Hse as [Hin Hid]. destruct (Hat se Hin) as (sc & Hsc & E1 & Hdb).
    apply block_db_some in Hdb as (se' & cs' & Hse' & Hg' & _); [|done]. apply (bg_byID r Hr) in Hse' as [Hin' Hid']. rewrite Forall_forall in B2. destruct (B2 sc Hsc) as [_ Hh].
    assert (Hse2 : SeriesByID r (se_ID se) = Some se) by (by apply (bg_byID r Hr)). assert (Hse3 : SeriesByID r (se_ID se) = Some se') by (apply (bg_byID r Hr); split; [done|congruence]). assert (se' = se) as -> by congruence.
    apply Hn. pose proof (ge_labels _ _ _ _ Hg). pose proof (ge_labels _ _ _ _ Hg'). assert (l = sc_Labels sc) as -> by congruence. by apply list_elem_of_fmap_2.
Qed.

(** ** Writing one block *)

Lemma written_index_ok series : bytes_ok (writeChunksAndIndex series).2.
Proof.
  unfold writeChunksAndIndex. destruct (write_series 0 series) as [allLocs bytes]. cbn [snd]. apply Forall_app. split; [apply be_bytes_ok|].
  apply Forall_forall. intros b (e & Hb & _)%list_elem_of_bind. revert b Hb. apply Forall_forall. unfold encode_entry.
  assert (Hls : forall ls, bytes_ok (encodeLabelSet ls)).
  { intros ls. apply Forall_forall. intros b (p & Hb & _)%list_elem_of_bind. revert b Hb. apply Forall_forall. unfold encode_label, encode_lenstr. rewrite !Forall_app. split_and!; apply be_bytes_ok || apply str_bytes_ok. }
  assert (Hrs : forall rs : list ChunkRef, bytes_ok (rs ≫= encode_ref)).
  { intros rs. apply Forall_forall. intros b (p & Hb & _)%list_elem_of_bind. revert b Hb. apply Forall_forall. unfold encode_ref. rewrite !Forall_app. split; apply be_bytes_ok. }
  rewrite !Forall_app. split_and!; try apply be_bytes_ok; [apply Hls|apply Hrs].
Qed.
Lemma series_samples_sound series : Forall (fun sd => Forall chunk_fits (sd_chunks sd)) series -> Forall (fun sd => Forall chunk_sound (sd_chunks sd)) series.
Proof. intros HF. eapply Forall_impl; [exact HF|]. intros sd Hs. eapply Forall_impl; [exact Hs|]. by intros c [[? _] _]. Qed.
Lemma fits_chunks series : block_fits series -> Forall (fun sd => Forall chunk_fits (sd_chunks sd)) series.
Proof. intros Hf. eapply Forall_impl; [apply (bf_series _ Hf)|]. intros sd Hs. apply (ss_chunks _ Hs). Qed.
Lemma ready_canonical series : batch_ready series -> canonical <$> (to_seriesData <$> series) = to_seriesData <$> series.
Proof.
  intros [_ HL _ _]. rewrite <- list_fmap_compose. apply list_fmap_ext. intros i sc Hi%list_elem_of_lookup_2. rewrite Forall_forall in HL. by apply canonical_pairs, HL.
Qed.
Lemma stats_series_reads r st entries : Forall (fun se => exists cs, read_chunks r (se_Chunks se) = Ok cs) entries -> exists st', stats_series r st entries = Ok st'.
Proof. intros HF. revert st. induction HF as [|se entries [cs Hcs] _ IH]; intros st; cbn [stats_series]; [by exists st|]. rewrite Hcs, bind_Ok. apply IH. Qed.

(** The reader of a block a batch was written to. *)
Record written (series : list SeriesChunks) (t id : string) (now : Z) (w : Writer) (r : Reader) : Prop := {
  wt_open : OpenReader id (commit_dir w now) = Ok r;
  wt_dir : dir_ok (commit_dir w now);
  wt_opened : opened r;
  wt_holds : holds r (to_seriesData <$> series);
  wt_meta : meta_exact (r_meta r) (to_seriesData <$> series);
  wt_id : m_BlockID (r_meta r) = id;
  wt_tenant : m_Tenant (r_meta r) = t;
  wt_commit : r_meta r = commit_meta w now;
  wt_chunks : exists st, validateBlockChunks r = Ok st;
  wt_samples : forall x, x ∈ reader_samples r <-> x ∈ (to_seriesData <$> series) ≫= series_samples }.
Lemma holds_reads r l : holds r l -> Forall (fun se => exists cs, read_chunks r (se_Chunks se) = Ok cs) (r_entries r).
Proof.
  intros Hh. apply Forall_forall. intros se [k Hk]%list_elem_of_lookup. destruct (Forall2_lookup_l _ _ _ _ _ (h_series _ _ Hh) Hk) as (sd & _ & _ & _ & Hr). apply refs_read_chunks in Hr as (cs & Hcs & _). by exists cs.
Qed.
Lemma holds_samples r l : holds r l -> reader_samples r = l ≫= series_samples.
Proof.
  intros [H1 _ _ _ _ _ _]. unfold reader_samples. induction H1 as [|se sd es l (_ & _ & Hr) _ IH]; [done|]. rewrite !bind_cons, IH. f_equal. unfold entry_samples, series_samples.
  by apply refs_read_chunks in Hr as (cs & -> & Hs).
Qed.
Lemma batch_written id t level sources series now w : batch_ready series -> add_all (SetTenant t (SetCompaction level sources (NewWriter id))) (to_seriesData <$> series) = Ok w ->
  exists r, written series t id now w r /\ m_Sources (r_meta r) = sources /\ w_open w = true /\ w_blockID w = id.
Proof.
  intros Hb Hadd. pose proof (br_fits _ Hb) as Hfits.
  destruct (add_all_rep (SetTenant t (SetCompaction level sources (NewWriter id))) [] (to_seriesData <$> series) w) as (Hw & Eid & Eo & _ & Es & Et);
    [by destruct (NewWriter_rep id); split|apply series_samples_sound, fits_chunks, Hfits|apply (br_count _ Hb)|done|]. cbn in Eid, Eo, Es, Et. cbn [app] in Hw.
  destruct (writer_opens w _ now Hw) as (r & Hr & Hm & Hh); [by rewrite ready_canonical|]. rewrite Eid in Hr. exists r.
  assert (Hd : dir_ok (commit_dir w now)).
  { unfold commit_dir. rewrite (wr_series _ _ Hw), ready_canonical by done. pose proof (written_index_ok (to_seriesData <$> series)) as Hi. destruct (writeChunksAndIndex _) as [chunks index]. split; cbn [d_index d_postings]; [exact Hi|apply (bf_postings _ Hfits)]. }
  destruct (OpenReader_opened _ _ _ Hd Hr) as (Hop & _ & Hid & _). destruct (stats_series_reads r (mkStats 0 0 0 0 (Z.of_nat (length (r_entries r))) false) (r_entries r) (holds_reads _ _ Hh)) as [st Hst].
  assert (Hmeta : m_Tenant (commit_meta w now) = t /\ m_Sources (commit_meta w now) = sources) by (unfold commit_meta; destruct (if w_numSamples w =? 0 then _ else _); by rewrite <- Et, <- Es).
  rewrite Hm. split; [|split_and!; [apply Hmeta|done|done]]. split; try done; rewrite ?Hm.
  - by apply commit_meta_exact.
  - apply Hmeta.
  - exists st. unfold validateBlockChunks. by rewrite Hst.
  - by rewrite (holds_samples _ _ Hh).
Qed.

(** A directory the start-up checks read as [r], up to the metadata they reconcile. *)
Definition serves (d : blockDir) (r : Reader) : Prop :=
  exists r0 r' g, open_block (m_BlockID (r_meta r)) d = Ok r0 /\ deep_check r0 = Ok (r', g) /\ same_files r r' /\ m_Tenant (r_meta r) = m_Tenant (r_meta r0).
Lemma checked_serves id d r st : open_block id d = Ok r -> m_BlockID (r_meta r) = id -> validateBlockChunks r = Ok st -> (m_Sources (r_meta r) = [] \/ m_MaxGen (r_meta r) = bcs_maxGen st) -> serves d r.
Proof.
  intros Ho <- Hst Hsrc. unfold serves. exists r. unfold deep_check. rewrite Hst. cbn [lift_block]. rewrite bind_Ok. unfold reconcileBlockMeta, SetReconciledMeta.
  destruct (if bcs_hasSamples st then _ else _) as [mn mx]. cbn [m_BlockID]. rewrite String.eqb_refl. cbn [negb lift_reader lift_block]. rewrite bind_Ok. cbn [r_meta m_Sources m_MaxGen].
  assert (E : (negb (bool_decide (m_Sources (r_meta r) = [])) && negb (bcs_maxGen st =? m_MaxGen (r_meta r)))%bool = false).
  { destruct Hsrc as [->| ->]; [done|]. rewrite Z.eqb_refl. apply andb_false_r. }
  rewrite E. eexists _, _. split; [done|]. split; [done|]. split; [by split|done].
Qed.
(** Every series of a served block belongs to the tenant its metadata names. *)
Lemma serves_tenant d r l : serves d r -> is_Some (block_db r l) -> block_tenant l = m_Tenant (r_meta r).
Proof.
  intros (r0 & r' & g & (_ & Hv%validate_series_ok & _)%open_block_ok & Hc & [Hf _ _ _ _] & ->) [ws Hws]. rewrite Forall_forall in Hv.
  assert (He : r_entries r' = r_entries r0).
  { unfold deep_check in Hc. destruct (validateBlockChunks r0) as [st|]; [|done]. cbn [lift_block] in Hc. rewrite bind_Ok in Hc. destruct (reconcileBlockMeta r0 st) as [r1|] eqn:Er; [|done]. cbn [lift_block] in Hc. rewrite bind_Ok in Hc.
    apply reconcile_ok in Er. destruct (if bcs_hasSamples st then _ else _) as [mn mx]. cbn zeta in Er. destruct (_ && _)%bool; [done|]. injection Hc as <- <-. by rewrite Er. }
  unfold block_db, SeriesByID in Hws. destruct (r_byID r !! Hash l) as [i|]; [|done]. cbn [mbind option_bind] in Hws. destruct (r_entries r !! i) as [se|] eqn:Ese; [|done].
  rewrite <- Hf, He in Ese. apply list_elem_of_lookup_2 in Ese. destruct (Hv se Ese) as (l' & El & _ & Ht). rewrite El in Hws. destruct (read_chunks _ _); [|done]. destruct (decide (l' = l)) as [<-|]; [exact Ht|done].
Qed.
Lemma written_good series t id now w r : batch_ready series -> written series t id now w r -> validateBlockSeries r = Ok tt -> 
  open_block id (commit_dir w now) = Ok r /\ block_good r /\ figures_true r /\ (forall l, block_db r l = ingest_db series l).
Proof.
  intros Hb [W1 _ W2 W3 W4 W5 W6 W7 [st W8] W9] Hv. split; [unfold open_block; by rewrite W1; cbn [lift_reader]; rewrite bind_Ok, Hv, bind_Ok, (h_refs _ _ W3); cbn [lift_reader]; rewrite bind_Ok|].
  assert (Hf : figures_true r).
  { destruct W4 as [M1 M2 M3 M4 _ _]. pose proof (holds_samples _ _ W3) as E. split; rewrite ?E; [|done|done|done]. by rewrite M1, (Forall2_length _ _ _ (h_series _ _ W3)). }
  assert (Hg : block_good r) by (apply opened_good; [done|done|apply (holds_reads _ _ W3)|apply (ft_bounds _ Hf)]). split; [done|]. split; [done|].
  apply holds_block_db; [done|apply (op_sorted _ W2)|done|done].
Qed.

(** *** What writing a block changes *)

(** Directories under other names are as before. *)
Definition others_kept (id : option string) (st st' : bstate) : Prop :=
  forall x, id <> Some x -> b_blockDir st' !! x = b_blockDir st !! x /\ b_tmpDir st' !! x = b_tmpDir st !! x.
Record block_written (io : write_io) (series : list SeriesChunks) (t : string) (st st' : bstate) (r : Reader) : Prop := {
  bw_blocks : b_blocks st' = b_blocks st ++ [r];
  bw_good : block_good r;
  bw_figures : figures_true r;
  bw_db : forall l, block_db r l = ingest_db series l;
  bw_meta : m_Tenant (r_meta r) = t /\ m_Sources (r_meta r) = [] /\ m_MaxGen (r_meta r) = block_gen r;
  bw_id : io_id io = Some (m_BlockID (r_meta r));
  bw_new : b_blockDir st !! m_BlockID (r_meta r) = None;
  bw_disk : exists d, b_blockDir st' !! m_BlockID (r_meta r) = Some d /\ serves d r }.
Lemma safeDeleteBlock_kept fault id st : b_mem (safeDeleteBlock fault id st).2 = b_mem st /\ b_blocks (safeDeleteBlock fault id st).2 = b_blocks st /\ others_kept (Some id) st (safeDeleteBlock fault id st).2.
Proof.
  unfold safeDeleteBlock. destruct (b_blockDir st !! id), fault as [[]|]; cbn [snd]; (split; [done|]; split; [done|]); intros x Hx; cbn [b_blockDir b_tmpDir set_dirs];
    assert (id <> x) by congruence; rewrite ?lookup_insert_ne, ?lookup_delete_ne by done; done.
Qed.
Lemma others_trans id st1 st2 st3 : others_kept id st1 st2 -> others_kept id st2 st3 -> others_kept id st1 st3.
Proof. intros H1 H2 x Hx. destruct (H1 x Hx) as [<- <-]. by apply H2. Qed.
Lemma check_written_ok id d r : check_written id d = Ok r -> open_block id d = Ok r /\ exists st, validateBlockChunks r = Ok st.
Proof. unfold check_written. destruct (open_block id d) as [r0|]; [|done]. rewrite bind_Ok. destruct (validateBlockChunks r0) as [st|] eqn:E; [|done]. rewrite bind_Ok. intros [= <-]. split; [done|by exists st]. Qed.

Lemma writeOneBlock_spec io series t st res st' : batch_ready series -> writeOneBlock io series t st = (res, st') ->
  b_mem st' = b_mem st /\ others_kept (io_id io) st st' /\
  match res with Ok meta => exists r, r_meta r = meta /\ block_written io series t st st' r | Err _ => b_blocks st' = b_blocks st end.
Proof.
  intros Hb. unfold writeOneBlock. destruct (io_id io) as [id|] eqn:Eid; [|by intros [= <- <-]]. destruct (add_all _ _) as [w|] eqn:Ew; [|by intros [= <- <-]].
  assert (Hadd : add_all (SetTenant t (SetCompaction 0 [] (NewWriter id))) (to_seriesData <$> series) = Ok w) by (by destruct series).
  destruct (batch_written id t 0 [] series (io_now io) w Hb Hadd) as (r & Hr & Hsrc & Hopen & Hid). unfold Commit. rewrite Hopen, Hid. cbn [negb].
  assert (Hins : forall tmp, tmp = b_tmpDir st -> others_kept (Some id) st (set_dirs (<[id := commit_dir w (io_now io)]> (b_blockDir st)) tmp st)).
  { intros tmp -> x Hx. cbn [b_blockDir b_tmpDir set_dirs]. by rewrite lookup_insert_ne by congruence. }
  destruct (b_blockDir st !! id) eqn:Enew; [by destruct (io_commit io) as [[]|]; intros [= <- <-]; destruct st|]. destruct (io_commit io) as [[]|]; [intros [= <- <-]; by destruct st|intros [= <- <-]; split_and!; [done|by apply Hins|done]|].
  rewrite lookup_insert_eq. change (default ?e (?f <$> Some ?d)) with (f d). destruct (check_written id _) as [r'|e] eqn:Ec.
  - intros [= <- <-]. apply check_written_ok in Ec as (Ho & st0 & Hst). assert (r' = r) as -> by (apply open_block_ok in Ho as (Ho & _); pose proof (wt_open _ _ _ _ _ _ Hr); congruence).
    assert (Hv : validateBlockSeries r = Ok tt) by (by apply open_block_ok in Ho as (_ & ? & _)).
    destruct (written_good _ _ _ _ _ _ Hb Hr Hv) as (_ & Hg & Hf & Hdb). split; [done|]. split; [by apply (Hins (b_tmpDir st))|]. exists r. split; [apply (wt_commit _ _ _ _ _ _ Hr)|].
    split; try done; [|by rewrite (wt_id _ _ _ _ _ _ Hr), Eid|by rewrite (wt_id _ _ _ _ _ _ Hr)|].
    + split_and!; [apply (wt_tenant _ _ _ _ _ _ Hr)|done|]. rewrite (me_gen _ _ (wt_meta _ _ _ _ _ _ Hr)). unfold block_gen. by rewrite (holds_samples _ _ (wt_holds _ _ _ _ _ _ Hr)).
    + exists (commit_dir w (io_now io)). cbn [publish b_blockDir set_dirs]. rewrite (wt_id _ _ _ _ _ _ Hr), lookup_insert_eq. split; [done|]. eapply checked_serves; [exact Ho|apply (wt_id _ _ _ _ _ _ Hr)|exact Hst|by left].
  - intros [= <- <-]. match goal with |- context [safeDeleteBlock ?f ?i ?s] => destruct (safeDeleteBlock_kept f i s) as (H1 & H2 & H3) end. split_and!; [by rewrite H1|eapply others_trans; [by apply (Hins (b_tmpDir st))|exact H3]|by rewrite H2].
Qed.

(** Directories that were there stay. *)
Definition dirs_kept (st st' : bstate) : Prop := forall x d, b_blockDir st !! x = Some d -> b_blockDir st' !! x = Some d.
Lemma add_all_id w l w' : add_all w l = Ok w' -> w_blockID w' = w_blockID w.
Proof.
  revert w. induction l as [|sd l IH]; intros w; cbn [add_all]; [by intros [= <-]|]. unfold AddSeries. destruct (bool_decide _); [done|]. destruct (check_label_names _ _ _); [|done].
  rewrite !bind_Ok. intros ->%IH. done.
Qed.
Lemma writeOneBlock_dirs io series t st res st' : writeOneBlock io series t st = (res, st') -> dirs_kept st st'.
Proof.
  unfold writeOneBlock. destruct (io_id io) as [id|]; [|by intros [= <- <-] x d Hx]. destruct (add_all _ _) as [w|] eqn:Ew; [|by intros [= <- <-] x d Hx]. apply add_all_id in Ew. cbn in Ew. unfold Commit. rewrite Ew.
  destruct (w_open w); cbn [negb]; [|by intros [= <- <-] x d Hx]. destruct (b_blockDir st !! id) eqn:En; [destruct (io_commit io) as [[]|]; by intros [= <- <-] x d Hx|].
  assert (Hins : forall x d d', b_blockDir st !! x = Some d -> <[id := d']> (b_blockDir st) !! x = Some d) by (intros x d d' Hx; rewrite lookup_insert_ne by congruence; done).
  destruct (io_commit io) as [[]|]; [by intros [= <- <-] x d Hx|intros [= <- <-] x d Hx; by apply Hins|].
  destruct (default _ _) as [r|e]; intros [= <- <-] x d Hx; [by apply Hins|]. unfold safeDeleteBlock. cbn [b_blockDir b_tmpDir set_dirs]. rewrite lookup_insert_eq.
  destruct (io_delete io) as [[]|]; cbn [snd b_blockDir set_dirs]; [by apply Hins| |]; rewrite lookup_delete_ne by congruence; by apply Hins.
Qed.

(** ** A batch *)

Record flush_ready (series : list SeriesChunks) : Prop := {
  fr_ids : NoDup (sc_ID <$> series);
  fr_labels : Forall (fun sc => labels_wf (sc_Labels sc) /\ Hash (sc_Labels sc) = sc_ID sc) series;
  fr_fits : forall t, block_fits (to_seriesData <$> tenant_group t series);
  fr_count : forall t, Z.of_nat (length ((to_seriesData <$> tenant_group t series) ≫= series_samples)) <= MaxInt64 }.
Lemma group_sublist t series : tenant_group t series `sublist_of` series.
Proof. apply sublist_filter. Qed.
Lemma group_ready t series : flush_ready series -> batch_ready (tenant_group t series).
Proof.
  intros [F1 F2 F3 F4]. split; [|apply Forall_forall; intros sc [_ Hsc]%list_elem_of_filter; rewrite Forall_forall in F2; by apply F2|apply F3|apply F4]. eapply sublist_NoDup; [exact F1|]. apply fmap_sublist, group_sublist.
Qed.
(** Block [r] holds the group of tenant [t] and is on disk. *)
Record group_written (series : list SeriesChunks) (st : bstate) (t : string) (r : Reader) : Prop := {
  gw_good : block_good r;
  gw_figures : figures_true r;
  gw_db : forall l, block_db r l = ingest_db (tenant_group t series) l;
  gw_meta : m_Tenant (r_meta r) = t /\ m_Sources (r_meta r) = [] /\ m_MaxGen (r_meta r) = block_gen r;
  gw_disk : exists d, b_blockDir st !! m_BlockID (r_meta r) = Some d /\ serves d r }.
Lemma write_groups_spec ios series i first ts st res st' : flush_ready series -> write_groups ios series i first ts st = (res, st') ->
  b_mem st' = b_mem st /\ dirs_kept st st' /\ exists rs done_, b_blocks st' = b_blocks st ++ rs /\ Forall2 (group_written series st') done_ rs /\ done_ `prefix_of` ts /\ ((exists m, res = Ok m) -> done_ = ts) /\
    Forall (fun r => b_blockDir st !! m_BlockID (r_meta r) = None) rs /\ NoDup ((fun r => m_BlockID (r_meta r)) <$> rs).
Proof.
  intros Hf. revert i first st. induction ts as [|t ts IH]; intros i first st; cbn [write_groups].
  { intros [= <- <-]. split_and!; [done|by intros x d|]. exists [], []. split_and!; [by rewrite app_nil_r|constructor|done|done|constructor|constructor]. }
  destruct (writeOneBlock (ios i) _ t st) as [r1 st1] eqn:Ew. pose proof (writeOneBlock_dirs _ _ _ _ _ _ Ew) as Hd1. destruct (writeOneBlock_spec _ _ _ _ _ _ (group_ready t series Hf) Ew) as (Hm & _ & Hr).
  destruct r1 as [meta|e].
  - destruct Hr as (r & _ & [W1 W2 W3 W4 W5 _ Wn W7]). intros Hg. destruct (IH _ _ _ Hg) as (Hm2 & Hd2 & rs & dn & H1 & H2 & H3 & H4 & H5 & H6). split_and!; [by rewrite Hm2|intros x d Hx; by apply Hd2, Hd1|].
    assert (Hold : forall x, b_blockDir st1 !! x = None -> b_blockDir st !! x = None) by (intros x Hx; destruct (b_blockDir st !! x) as [d|] eqn:E; [apply Hd1 in E; congruence|done]).
    exists (r :: rs), (t :: dn). split_and!; [by rewrite H1, W1, <- app_assoc| |by apply prefix_cons|intros Hok; by rewrite (H4 Hok)|constructor; [done|eapply Forall_impl; [exact H5|]; intros x Hx; by apply Hold]|].
    2:{ rewrite fmap_cons. constructor; [|done]. intros (x & E & Hx)%list_elem_of_fmap. rewrite Forall_forall in H5. specialize (H5 x Hx). rewrite <- E in H5. destruct W7 as (d & Hd & _). congruence. }
    constructor; [|exact H2]. split; [done..|]. destruct W7 as (d & Hx & Hs). exists d. split; [by apply Hd2|done].
  - intros [= <- <-]. split_and!; [done|done|]. exists [], []. split_and!; [by rewrite app_nil_r|constructor|apply prefix_nil|by intros [? ?]|constructor|constructor].
Qed.

Lemma elem_of_tenant_ids t series : t ∈ tenant_ids series <-> exists sc, sc ∈ series /\ block_tenant (sc_Labels sc) = t.
Proof.
  unfold tenant_ids. rewrite (sort_str_perm id), elem_of_elements, elem_of_list_to_set, <- list_fmap_compose, list_elem_of_fmap. naive_solver.
Qed.
Lemma ingest_db_samples series l x : x ∈ default [] (ingest_db series l) <-> x ∈ snapshot_samples series l.
Proof.
  unfold ingest_db. destruct (decide _) as [|Hn]; [done|]. split; [by intros ?%not_elem_of_nil|]. unfold snapshot_samples, snapshot_chunks. intros (rc & _ & (sc & Hrc & Hsc)%list_elem_of_bind)%list_elem_of_bind.
  destruct (decide (sc_Labels sc = l)) as [<-|]; [|by apply not_elem_of_nil in Hrc]. destruct Hn. by apply list_elem_of_fmap_2.
Qed.
Lemma elem_of_snapshot_samples series l x : x ∈ snapshot_samples series l <-> exists sc rc, sc ∈ series /\ sc_Labels sc = l /\ rc ∈ sc_Chunks sc /\ x ∈ samples_of rc.2.
Proof.
  unfold snapshot_samples, snapshot_chunks. rewrite list_elem_of_bind. setoid_rewrite list_elem_of_bind. split.
  - intros (rc & Hx & sc & Hrc & Hsc). exists sc, rc. destruct (decide (sc_Labels sc = l)) as [<-|]; [done|by apply not_elem_of_nil in Hrc].
  - intros (sc & rc & Hsc & <- & Hrc & Hx). exists rc. split; [done|]. exists sc. by rewrite decide_True.
Qed.
Lemma samples_known series l x : x ∈ snapshot_samples series l -> is_Some (ingest_db series l).
Proof. intros (sc & rc & Hsc & <- & _)%elem_of_snapshot_samples. unfold ingest_db. rewrite decide_True; [done|by apply list_elem_of_fmap_2]. Qed.
(** The group of a label set's tenant holds all of its samples, any other none. *)
Lemma group_samples t series l x : x ∈ snapshot_samples (tenant_group t series) l <-> block_tenant l = t /\ x ∈ snapshot_samples series l.
Proof.
  rewrite !elem_of_snapshot_samples. unfold tenant_group. setoid_rewrite list_elem_of_filter. split.
  - intros (sc & rc & [Ht Hsc] & <- & Hrc & Hx). split; [done|]. by exists sc, rc.
  - intros (<- & sc & rc & Hsc & <- & Hrc & Hx). by exists sc, rc.
Qed.
Lemma group_known t series l : is_Some (ingest_db (tenant_group t series) l) <-> block_tenant l = t /\ is_Some (ingest_db series l).
Proof.
  unfold ingest_db. assert (E : l ∈ sc_Labels <$> tenant_group t series <-> block_tenant l = t /\ l ∈ sc_Labels <$> series).
  { rewrite !list_elem_of_fmap. unfold tenant_group. setoid_rewrite list_elem_of_filter. split; [intros (sc & -> & Ht & Hsc); split; [done|by exists sc]|intros (Ht & sc & -> & Hsc); by exists sc]. }
  destruct (decide _) as [H|H], (decide (l ∈ sc_Labels <$> series)) as [H'|H']; rewrite E in H; split; try (by intros [? ?]); try (by intros [? [? ?]]); try done; intros; naive_solver.
Qed.

Lemma blocks_db_app d b1 b2 : blocks_db d (b1 ++ b2) = blocks_db (blocks_db d b1) b2.
Proof. unfold blocks_db. apply fold_left_app. Qed.
Lemma blocks_db_samples d blocks l x : x ∈ default [] (blocks_db d blocks l) <-> x ∈ default [] (d l) \/ exists r, r ∈ blocks /\ x ∈ default [] (block_db r l).
Proof.
  revert d. induction blocks as [|r blocks IH]; intros d; cbn [blocks_db fold_left].
  { split; [by left|]. intros [?|(r & []%not_elem_of_nil & _)]; done. }
  fold (blocks_db (db_union d (block_db r)) blocks). rewrite IH.
  rewrite db_union_default, elem_of_app. setoid_rewrite elem_of_cons. naive_solver.
Qed.

(** What a batch leaves behind: some tenants' blocks, all of them on success. *)
Record batch_left (series : list SeriesChunks) (st st' : bstate) (rs : list Reader) (all : Prop) : Prop := {
  ba_mem : b_mem st' = b_mem st;
  ba_dirs : dirs_kept st st';
  ba_blocks : b_blocks st' = b_blocks st ++ rs;
  ba_good : Forall (fun r => block_good r /\ figures_true r /\ m_Sources (r_meta r) = [] /\ m_MaxGen (r_meta r) = block_gen r) rs;
  ba_disk : Forall (fun r => exists d, b_blockDir st' !! m_BlockID (r_meta r) = Some d /\ serves d r) rs;
  ba_new : Forall (fun r => b_blockDir st !! m_BlockID (r_meta r) = None) rs /\ NoDup ((fun r => m_BlockID (r_meta r)) <$> rs);
  ba_samples : forall r l, r ∈ rs -> is_Some (block_db r l) -> is_Some (ingest_db series l) /\ forall x, x ∈ default [] (block_db r l) -> x ∈ snapshot_samples series l;
  ba_all : all -> forall l, is_Some (ingest_db series l) -> exists r, r ∈ rs /\ is_Some (block_db r l) /\ forall x, x ∈ snapshot_samples series l -> x ∈ default [] (block_db r l) }.
Lemma ingestLocked_spec ios series st res st' : flush_ready series -> ingestLocked ios series st = (res, st') -> exists rs, batch_left series st st' rs (exists m, res = Ok m).
Proof.
  intros Hf Hi. destruct (write_groups_spec _ _ _ _ _ _ _ _ Hf Hi) as (H1 & H2 & rs & dn & H3 & H4 & H5 & H6 & H7 & H8). exists rs.
  assert (Hall : forall P : Reader -> Prop, (forall t r, group_written series st' t r -> P r) -> Forall P rs).
  { intros P HP. apply Forall_forall. intros r [k Hk]%list_elem_of_lookup. destruct (Forall2_lookup_r _ _ _ _ _ H4 Hk) as (t & _ & Hg). by eapply HP. }
  split; [done|done|done| | |done| |].
  - apply Hall. intros t r [G1 G2 _ (_ & G4 & G5) _]. done.
  - apply Hall. intros t r [_ _ _ _ G]. done.
  - intros r l Hr. pose proof (Hall (fun r => exists t, forall l, block_db r l = ingest_db (tenant_group t series) l) ltac:(intros t r' G; exists t; apply G)) as HF. rewrite Forall_forall in HF. destruct (HF r Hr) as [t Hdb].
    rewrite Hdb. intros Hs. split; [by apply group_known in Hs as [_ ?]|]. intros x Hx. apply ingest_db_samples in Hx. by apply group_samples in Hx as [_ ?].
  - intros Hok l Hl. rewrite (H6 Hok) in H4. assert (Ht : block_tenant l ∈ tenant_ids series).
    { apply elem_of_tenant_ids. unfold ingest_db in Hl. destruct (decide _) as [(sc & -> & Hsc)%list_elem_of_fmap|]; [by exists sc|by destruct Hl]. }
    apply list_elem_of_lookup in Ht as [k Hk]. destruct (Forall2_lookup_l _ _ _ _ _ H4 Hk) as (r & Hr%list_elem_of_lookup_2 & [_ _ G _ _]). exists r. split; [done|]. rewrite G. split; [by apply group_known|].
    intros x Hx. apply ingest_db_samples, group_samples. done.
Qed.

(** Batches written on their own add exactly their samples. *)
Lemma batch_adds series st st' rs (all : Prop) d : batch_left series st st' rs all -> all -> db_equiv (blocks_db d (b_blocks st')) (db_union (blocks_db d (b_blocks st)) (ingest_db series)).
Proof.
  intros Hw Hok l. rewrite (ba_blocks _ _ _ _ _ Hw), blocks_db_app. set (d' := blocks_db d (b_blocks st)). apply series_equiv_ext.
  - rewrite blocks_db_some, db_union_some. split.
    + intros (e & [->|(r & -> & Hr)%list_elem_of_fmap]%elem_of_cons & H); [by left|right; by apply (ba_samples _ _ _ _ _ Hw r l)].
    + intros [H|H]; [exists d'; split; [by left|done]|]. destruct (ba_all _ _ _ _ _ Hw Hok l H) as (r & Hr & Hs & _). exists (block_db r). split; [right; by apply list_elem_of_fmap_2|done].
  - intros x. rewrite blocks_db_samples.
    rewrite db_union_default, elem_of_app, ingest_db_samples. split; (intros [H|H]; [by left|right]).
    + destruct H as (r & Hr & Hx). destruct (block_db r l) as [ws|] eqn:Edb; [|by apply not_elem_of_nil in Hx]. apply (ba_samples _ _ _ _ _ Hw r l Hr); [by rewrite Edb|by rewrite Edb].
    + destruct (ba_all _ _ _ _ _ Hw Hok l) as (r & Hr & _ & Hx); [by eapply samples_known|exists r; split; [done|by apply Hx]].
Qed.
(** A batch whose series are held elsewhere changes no read, however much of it was written. *)
Lemma batch_repeats series st st' rs (all : Prop) d : batch_left series st st' rs all ->
  (forall l, is_Some (ingest_db series l) -> is_Some (blocks_db d (b_blocks st) l)) -> (forall l x, x ∈ snapshot_samples series l -> x ∈ default [] (blocks_db d (b_blocks st) l)) ->
  db_equiv (blocks_db d (b_blocks st)) (blocks_db d (b_blocks st')).
Proof.
  intros Hw Hk Hs l. rewrite (ba_blocks _ _ _ _ _ Hw), blocks_db_app. set (d' := blocks_db d (b_blocks st)) in *. apply series_equiv_ext.
  - rewrite blocks_db_some. split; [intros H; exists d'; split; [by left|done]|]. intros (e & [->|(r & -> & Hr)%list_elem_of_fmap]%elem_of_cons & H); [done|]. by apply Hk, (ba_samples _ _ _ _ _ Hw r l).
  - intros x. rewrite blocks_db_samples. split; [by left|]. intros [?|(r & Hr & Hx)]; [done|]. destruct (block_db r l) as [ws|] eqn:Edb; [|by apply not_elem_of_nil in Hx].
    apply Hs. apply (ba_samples _ _ _ _ _ Hw r l Hr); [by rewrite Edb|by rewrite Edb].
Qed.

(** ** The invariant of the store *)

(** The invariant of a store whose blocks were all checked and written down. *)
Record store_ok (st : bstate) : Prop := {
  sk_bs : bs_ok (b_store st);
  sk_ids : NoDup ((fun r => m_BlockID (r_meta r)) <$> b_blocks st);
  sk_figures : Forall (fun r => figures_true r) (b_blocks st);
  sk_disk : Forall (fun r => exists d, b_blockDir st !! m_BlockID (r_meta r) = Some d /\ serves d r) (b_blocks st) }.

Lemma left_ids series st st' rs (all : Prop) : store_ok st -> batch_left series st st' rs all -> NoDup ((fun r => m_BlockID (r_meta r)) <$> b_blocks st').
Proof.
  intros Hst Hw. rewrite (ba_blocks _ _ _ _ _ Hw), fmap_app. destruct (ba_new _ _ _ _ _ Hw) as [Hn Hnd]. apply NoDup_app. split_and!; [apply (sk_ids _ Hst)| |done].
  intros i (r & -> & Hr)%list_elem_of_fmap (r' & E & Hr')%list_elem_of_fmap. pose proof (sk_disk _ Hst) as HF. rewrite Forall_forall in HF, Hn. destruct (HF r Hr) as (d & Hd & _). specialize (Hn r' Hr'). rewrite <- E in Hn. congruence.
Qed.

(** ** Flushing *)

Lemma snapshot_ready s : store_wf s -> (forall t, block_fits (to_seriesData <$> tenant_group t (SealedChunksSnapshot s))) ->
  (forall t, Z.of_nat (length ((to_seriesData <$> tenant_group t (SealedChunksSnapshot s)) ≫= series_samples)) <= MaxInt64) -> flush_ready (SealedChunksSnapshot s).
Proof.
  intros Hs H3 H4. split; [apply snapshot_NoDup| |done|done]. apply Forall_forall. intros sc (ms & E & -> & _)%elem_of_snapshot. split; [apply (sw_labels _ _ _ (st_series_wf s Hs _ _ E))|apply (sw_id _ _ _ (st_series_wf s Hs _ _ E))].
Qed.
(** What a snapshot carries stays in the head until it is discarded. *)
Lemma snapshot_in_head s ops : store_wf s -> ops_ok s ops -> Forall not_discard ops ->
  let snap := SealedChunksSnapshot s in let s2 := run s ops in
  (forall l, is_Some (ingest_db snap l) -> is_Some (store_db s2 l)) /\ (forall l x, x ∈ snapshot_samples snap l -> x ∈ default [] (store_db s2 l)) /\
  (forall l, is_Some (store_db (DiscardSealedChunks s2 snap) l) <-> is_Some (store_db s2 l)).
Proof.
  intros Hs Hok Hnd snap s2. destruct (run_wf s ops Hs Hok) as [Hs2 _]. fold s2 in Hs2. split_and!.
  - intros l. unfold ingest_db. destruct (decide _) as [(sc & -> & Hsc)%list_elem_of_fmap|]; [|by intros [? ?]]. intros _. pose proof Hsc as (ms & _ & _ & _ & Hne)%elem_of_snapshot. destruct (sc_Chunks sc) as [|rc cs] eqn:Ec; [done|].
    destruct (snapshot_holds s sc rc Hsc) as [Hh Hsl]; [rewrite Ec; by left|]. destruct (run_keeps s ops _ _ _ Hs Hok Hnd Hh Hsl) as (ms2 & E2 & <- & _). by rewrite (store_db_series s2 _ _ Hs2 E2).
  - intros l x Hx. pose proof (discard_perm s ops l Hs Hok Hnd) as Hp. cbn zeta in Hp. fold s2 snap in Hp. rewrite Hp, elem_of_app. by left.
  - intros l. destruct (DiscardSealedChunks_spec s2 snap Hs2) as (_ & Hser & _). rewrite (store_db_map s2 _ (keep_chunks (snapshot_refs snap)) l Hser) by done. unfold store_db.
    destruct (_ ≫= _) eqn:E; cbn; destruct (st_series s2 !! Hash l) as [ms|]; cbn in E; try done; destruct (decide _); simplify_eq; try done; split; by eexists.
Qed.

Lemma flush_spec ios ops st res st' (Hst : store_ok st) (Hok : ops_ok (b_mem st) ops) (Hnd : Forall not_discard ops)
  (Hready : flush_ready (SealedChunksSnapshot (b_mem st))) (Hnc : no_collision (store_db (run (b_mem st) ops) :: (block_db <$> b_blocks st)))
  (Hflush : FlushBlock ios ops st = (res, st')) :
  store_ok st' /\ db_equiv (bs_db (b_store st')) (bs_db (b_store (set_mem (run (b_mem st) ops) st))) /\ dirs_kept st st' /\
  (forall e, res = Err e -> b_mem st' = run (b_mem st) ops) /\
  (forall l x, res = Ok true -> x ∈ snapshot_samples (SealedChunksSnapshot (b_mem st)) l -> exists r, r ∈ b_blocks st' /\ x ∈ default [] (block_db r l)).
Proof.
  pose proof (bo_mem _ (sk_bs _ Hst)) as Hs. cbn in Hs. destruct (run_wf _ ops Hs Hok) as [Hs2 _]. destruct (snapshot_in_head _ ops Hs Hok Hnd) as (Hin1 & Hin2 & Hin3). set (s2 := run (b_mem st) ops) in *. cbn zeta in Hin1, Hin2, Hin3.
  assert (Hbase : store_ok (set_mem s2 st)) by (split; [split; [exact Hs2|apply (bo_blocks _ (sk_bs _ Hst))|exact Hnc]|apply (sk_ids _ Hst)|apply (sk_figures _ Hst)|apply (sk_disk _ Hst)]).
  unfold FlushBlock in Hflush. destruct (SealedChunksSnapshot (b_mem st)) as [|sc0 snap0] eqn:Esnap; [injection Hflush as <- <-; split_and!; [done|done|by intros x d|done|done]|].
  rewrite <- Esnap in *. clear Esnap sc0 snap0. set (snap := SealedChunksSnapshot (b_mem st)) in *. destruct (ingestLocked ios snap st) as [r st1] eqn:Ei. destruct (ingestLocked_spec _ _ _ _ _ Hready Ei) as (rs & Hw). pose proof (ba_mem _ _ _ _ _ Hw) as Em.
  assert (Hcov : forall mem, store_wf mem -> (forall l, is_Some (store_db mem l) -> is_Some (store_db s2 l)) -> store_ok (set_mem mem st1)).
  { intros mem Hm Hsub. split; [split|..]; cbn [b_store set_mem bs_mem bs_blocks b_mem b_blocks b_blockDir]; rewrite ?(ba_blocks _ _ _ _ _ Hw).
    - exact Hm.
    - apply Forall_app. split; [apply (bo_blocks _ (sk_bs _ Hst))|]. eapply Forall_impl; [apply (ba_good _ _ _ _ _ Hw)|]. by intros x (? & _).
    - eapply no_collision_covered; [|exact Hnc]. intros d l [->|(x & -> & [Hx|Hx]%elem_of_app)%list_elem_of_fmap]%elem_of_cons Hd.
      + exists (store_db s2). split; [by left|by apply Hsub].
      + exists (block_db x). split; [right; by apply list_elem_of_fmap_2|done].
      + exists (store_db s2). split; [by left|]. by apply Hin1, (ba_samples _ _ _ _ _ Hw x l).
    - pose proof (left_ids _ _ _ _ _ Hst Hw) as Hnd'. by rewrite (ba_blocks _ _ _ _ _ Hw) in Hnd'.
    - apply Forall_app. split; [apply (sk_figures _ Hst)|]. eapply Forall_impl; [apply (ba_good _ _ _ _ _ Hw)|]. by intros x (_ & ? & _).
    - apply Forall_app. split; [|apply (ba_disk _ _ _ _ _ Hw)]. eapply Forall_impl; [apply (sk_disk _ Hst)|]. intros x (d & Hd & Hx). exists d. split; [by apply (ba_dirs _ _ _ _ _ Hw)|done]. }
  assert (Hrep : db_equiv (blocks_db (store_db s2) (b_blocks st)) (blocks_db (store_db s2) (b_blocks st1))).
  { eapply batch_repeats; [exact Hw| |].
    - intros l Hl. apply blocks_db_some. exists (store_db s2). split; [by left|by apply Hin1].
    - intros l x Hx. apply blocks_db_samples. left. by apply Hin2. }
  rewrite Em in Hflush. fold s2 in Hflush. destruct r as [m|e]; injection Hflush as <- <-; (split_and!; [|unfold bs_db; cbn [b_store set_mem bs_mem bs_blocks b_mem b_blocks]|intros x d Hx; by apply (ba_dirs _ _ _ _ _ Hw)| |]); try done.
  - apply Hcov; [by apply DiscardSealedChunks_spec|]. intros l. apply Hin3.
  - rewrite Hrep. intros l. apply series_equiv_ext.
    + rewrite !blocks_db_some. setoid_rewrite elem_of_cons. split; intros (d & [->|Hd] & H); (eexists; split; [by left|by apply Hin3]) || (exists d; split; [by right|done]).
    + intros x. rewrite !blocks_db_samples. pose proof (discard_perm _ ops l Hs Hok Hnd) as Hp. cbn zeta in Hp. fold s2 snap in Hp. rewrite Hp, elem_of_app. split; [tauto|]. intros [[Hx|Hx]|Hx]; [|by left|by right].
      right. destruct (ba_all _ _ _ _ _ Hw (ex_intro _ m eq_refl) l) as (r & Hr & _ & Hx'); [by eapply samples_known|exists r; split; [rewrite (ba_blocks _ _ _ _ _ Hw); by apply elem_of_app; right|by apply Hx']].
  - intros l x _ Hx. destruct (ba_all _ _ _ _ _ Hw (ex_intro _ m eq_refl) l) as (r & Hr & _ & Hx'); [by eapply samples_known|exists r; split; [cbn; rewrite (ba_blocks _ _ _ _ _ Hw); by apply elem_of_app; right|by apply Hx']].
  - apply Hcov; [done|done].
Qed.

(** A flush changes no read. Whatever the head's other callers do while the
    blocks are written, and wherever the disk fails, the store after [FlushBlock]
    answers every query as the same store would without it: a failed flush leaves
    the head as its callers left it and has at most published whole blocks of what
    the head still holds, a successful one moves every snapshotted sample into a
    checked block that is on disk and passes the checks of a restart. No block
    directory that was there is lost. *)
Theorem flush_keeps_reads ios ops st res st' (Hst : store_ok st) (Hok : ops_ok (b_mem st) ops) (Hnd : Forall not_discard ops)
  (Hready : flush_ready (SealedChunksSnapshot (b_mem st))) (Hnc : no_collision (store_db (run (b_mem st) ops) :: (block_db <$> b_blocks st)))
  (Hflush : FlushBlock ios ops st = (res, st')) :
  store_ok st' /\ db_equiv (bs_db (b_store st')) (bs_db (b_store (set_mem (run (b_mem st) ops) st))) /\ dirs_kept st st' /\
  (forall e, res = Err e -> b_mem st' = run (b_mem st) ops) /\
  (forall l x, res = Ok true -> x ∈ snapshot_samples (SealedChunksSnapshot (b_mem st)) l -> exists r, r ∈ b_blocks st' /\ x ∈ default [] (block_db r l)).
Proof. exact (flush_spec ios ops st res st' Hst Hok Hnd Hready Hnc Hflush). Qed.

(** ** Ingesting *)

Lemma validate_chunks_ok seen series : validate_chunks seen series = Ok tt ->
  NoDup (sc_ID <$> series) /\ Forall (fun sc => sc_ID sc ∉ seen /\ sc_Chunks sc <> [] /\ Forall (fun rc => numSamples rc.2 <> 0) (sc_Chunks sc) /\ Hash (sc_Labels sc) = sc_ID sc) series.
Proof.
  revert seen. induction series as [|sc series IH]; intros seen; cbn [validate_chunks]; [split; constructor|]. destruct (bool_decide_reflect (sc_ID sc ∈ seen)) as [|Hn]; [done|]. destruct (sc_Chunks sc) as [|rc cs] eqn:Ec; [done|]. assert (Hne : sc_Chunks sc <> []) by congruence. rewrite <- Ec in *. clear Ec rc cs.
  destruct (existsb _ (sc_Chunks sc)) eqn:Ee; [done|]. destruct (Z.eqb_spec (Hash (sc_Labels sc)) (sc_ID sc)) as [Hh|]; [|done]. cbn [negb]. intros (Hnd & HF)%IH. rewrite fmap_cons. split.
  - constructor; [|done]. intros (sc' & E & Hin)%list_elem_of_fmap. rewrite Forall_forall in HF. destruct (HF sc' Hin) as (Hni & _). rewrite <- E in Hni. set_solver.
  - constructor; [|eapply Forall_impl; [exact HF|]; cbn; intros sc' (? & ?); split; [set_solver|done]]. split; [done|]. split_and!; [done| |done].
    apply Forall_forall. intros rc Hrc E. apply not_true_iff_false in Ee. apply Ee, existsb_exists. exists rc. split; [by apply list_elem_of_In|]. by apply Z.eqb_eq.
Qed.
Lemma batch_ok series st st' rs (all : Prop) : store_ok st -> batch_left series st st' rs all -> no_collision (ingest_db series :: store_db (b_mem st) :: (block_db <$> b_blocks st)) -> store_ok st'.
Proof.
  intros Hst Hw Hnc. split; [split|..]; cbn [b_store bs_mem bs_blocks]; rewrite ?(ba_blocks _ _ _ _ _ Hw), ?(ba_mem _ _ _ _ _ Hw).
  - apply (bo_mem _ (sk_bs _ Hst)).
  - apply Forall_app. split; [apply (bo_blocks _ (sk_bs _ Hst))|]. eapply Forall_impl; [apply (ba_good _ _ _ _ _ Hw)|]. by intros x (? & _).
  - eapply no_collision_covered; [|exact Hnc]. intros d l [->|(x & -> & [Hx|Hx]%elem_of_app)%list_elem_of_fmap]%elem_of_cons Hd.
    + exists (store_db (b_mem st)). split; [right; by left|done].
    + exists (block_db x). split; [right; right; by apply list_elem_of_fmap_2|done].
    + exists (ingest_db series). split; [by left|by apply (ba_samples _ _ _ _ _ Hw x l)].
  - pose proof (left_ids _ _ _ _ _ Hst Hw) as Hnd'. by rewrite (ba_blocks _ _ _ _ _ Hw) in Hnd'.
  - apply Forall_app. split; [apply (sk_figures _ Hst)|]. eapply Forall_impl; [apply (ba_good _ _ _ _ _ Hw)|]. by intros x (_ & ? & _).
  - apply Forall_app. split; [|apply (ba_disk _ _ _ _ _ Hw)]. eapply Forall_impl; [apply (sk_disk _ Hst)|]. intros x (d & Hd & Hx). exists d. split; [by apply (ba_dirs _ _ _ _ _ Hw)|done].
Qed.
(** However much of a batch was written, writing all of it gives the same reads. *)
Lemma batch_retry series st st' rs (all : Prop) d : batch_left series st st' rs all ->
  db_equiv (db_union (blocks_db d (b_blocks st')) (ingest_db series)) (db_union (blocks_db d (b_blocks st)) (ingest_db series)).
Proof.
  intros Hw l. rewrite (ba_blocks _ _ _ _ _ Hw), blocks_db_app. set (d' := blocks_db d (b_blocks st)).
  apply series_equiv_ext.
  - rewrite !db_union_some, blocks_db_some. split; [|intros [H|H]; [left; exists d'; split; [by left|done]|by right]]. intros [(e & [->|(r & -> & Hr)%list_elem_of_fmap]%elem_of_cons & H)|H]; [by left| |by right]. right. by apply (ba_samples _ _ _ _ _ Hw r l).
  - intros x. rewrite !db_union_default, !elem_of_app, blocks_db_samples. split; [|tauto]. intros [[?|(r & Hr & Hx)]|?]; [by left| |by right]. right. destruct (block_db r l) as [ws|] eqn:Edb; [|by apply not_elem_of_nil in Hx].
    apply ingest_db_samples, (ba_samples _ _ _ _ _ Hw r l Hr); [by rewrite Edb|by rewrite Edb].
Qed.

(** Ingested chunks are served at once, exactly, and can be sent again. After a
    successful [IngestSeriesChunks] every query sees the store's writes and the
    batch's and nothing else; a malformed or cancelled request changes nothing; a
    failure part way leaves a state from which sending the batch again gives the
    reads one success would have given. *)
Theorem ingest_exact c0 c1 ios series st res st' (Hst : store_ok st) (Hlabels : Forall (fun sc => labels_wf (sc_Labels sc)) series)
  (Hfits : forall t, block_fits (to_seriesData <$> tenant_group t series)) (Hcount : forall t, Z.of_nat (length ((to_seriesData <$> tenant_group t series) ≫= series_samples)) <= MaxInt64)
  (Hnc : no_collision (ingest_db series :: store_db (b_mem st) :: (block_db <$> b_blocks st))) (Hi : IngestSeriesChunks c0 c1 ios series st = (res, st')) :
  store_ok st' /\ dirs_kept st st' /\ b_mem st' = b_mem st /\ b_blocks st `prefix_of` b_blocks st' /\
  (forall m, res = Ok m -> db_equiv (bs_db (b_store st')) (db_union (bs_db (b_store st)) (ingest_db series))) /\
  db_equiv (db_union (bs_db (b_store st')) (ingest_db series)) (db_union (bs_db (b_store st)) (ingest_db series)) /\
  (validateSeriesChunks series <> Ok tt \/ is_Some c0 \/ is_Some c1 -> st' = st /\ forall m, res <> Ok m).
Proof.
  unfold IngestSeriesChunks in Hi. assert (Hsame : forall e, (Err e, st) = (res, st') -> store_ok st' /\ dirs_kept st st' /\ b_mem st' = b_mem st /\ b_blocks st `prefix_of` b_blocks st' /\
    (forall m, res = Ok m -> db_equiv (bs_db (b_store st')) (db_union (bs_db (b_store st)) (ingest_db series))) /\
    db_equiv (db_union (bs_db (b_store st')) (ingest_db series)) (db_union (bs_db (b_store st)) (ingest_db series)) /\ (validateSeriesChunks series <> Ok tt \/ is_Some c0 \/ is_Some c1 -> st' = st /\ forall m, res <> Ok m)).
  { intros e [= <- <-]. split_and!; try done. by intros x d. }
  destruct c0 as [e|]; [by apply Hsame in Hi|]. destruct (validateSeriesChunks series) as [[]|e] eqn:Ev; [|by apply Hsame in Hi]. destruct c1 as [e|]; [by apply Hsame in Hi|]. clear Hsame.
  assert (Hready : flush_ready series).
  { destruct series as [|sc series]; [done|]. unfold validateSeriesChunks in Ev. apply validate_chunks_ok in Ev as [Hnd HF]. split; [done| |done|done]. rewrite Forall_forall in *. intros x Hx. split; [by apply Hlabels|by apply HF]. }
  destruct (ingestLocked_spec _ _ _ _ _ Hready Hi) as (rs & Hw). unfold bs_db. cbn [b_store bs_mem bs_blocks]. rewrite (ba_mem _ _ _ _ _ Hw).
  split_and!; [by eapply batch_ok|apply (ba_dirs _ _ _ _ _ Hw)|done|exists rs; apply (ba_blocks _ _ _ _ _ Hw)| |by eapply batch_retry|].
  - intros m ->. eapply batch_adds; [exact Hw|by exists m].
  - intros [?|[[? ?]|[? ?]]]; done.
Qed.

(** ** A healthy disk *)

Lemma storable_named l p : storable l -> p ∈ labelsToPairs l -> bl_Name p <> ""%string.
Proof.
  intros [Hl Hs] Hp Hn. destruct p as [n v]. cbn in Hn. subst n. apply elem_of_labelsToPairs in Hp. unfold NewStoredLabels, labels_NewStored in Hs. destruct (validateMetricName _); [|done]. rewrite bind_Ok in Hs.
  destruct (validateLabelMap _ _) as [[]|] eqn:E; [|done]. apply validateLabelMap_ok in E as [_ HF]. apply (HF _ _) in Hp. unfold entry_ok, validate_entry in Hp. by vm_compute in Hp.
Qed.
Lemma check_label_names_named id prev l : ascending prev l -> Forall named l -> check_label_names id prev l = Ok tt.
Proof.
  revert prev. induction l as [|p l IH]; intros prev Ha HF; cbn [check_label_names]; [done|]. apply Forall_cons in HF as [Hp HF]. apply ascending_cons in Ha as [Hprev Ha].
  destruct (String.eqb_spec (bl_Name p) "") as [|]; [done|]. rewrite bool_decide_false; [by apply IH|]. intros ->. by apply (str_lt_asym (bl_Name p) (bl_Name p)).
Qed.
Lemma add_all_ok l w : NoDup (sd_id <$> l) -> (forall i, i ∈ w_seriesIDs w -> i ∉ sd_id <$> l) -> Forall (fun sd => StronglySorted (str_key_lt bl_Name) (canonicalizeLabels (sd_labels sd)) /\ Forall named (canonicalizeLabels (sd_labels sd))) l -> exists w', add_all w l = Ok w'.
Proof.
  revert w. induction l as [|sd l IH]; intros w Hnd Hout HF; cbn [add_all]; [by exists w|]. rewrite fmap_cons in Hnd, Hout. apply NoDup_cons in Hnd as [Hni Hnd]. apply Forall_cons in HF as [[Hs Hn] HF].
  unfold AddSeries. rewrite bool_decide_false by (intros H; apply Hout in H; apply H; by left). rewrite check_label_names_named by done. rewrite !bind_Ok. apply IH; [done| |done].
  cbn [w_seriesIDs]. intros i [->%elem_of_singleton|Hi]%elem_of_union; [done|]. apply Hout in Hi. intros ?. apply Hi. by right.
Qed.
Definition healthy_io (io : write_io) (st : bstate) : Prop := exists id, io_id io = Some id /\ b_blockDir st !! id = None /\ io_commit io = None.
Lemma writeOneBlock_succeeds io series t st : batch_ready series -> Forall (fun sc => storable (sc_Labels sc) /\ block_tenant (sc_Labels sc) = t) series -> healthy_io io st -> exists meta st', writeOneBlock io series t st = (Ok meta, st').
Proof.
  intros Hb HS (id & Eid & Enew & Ecom). unfold writeOneBlock. rewrite Eid.
  destruct (add_all_ok (to_seriesData <$> series) (SetTenant t (NewWriter id))) as [w Ew].
  { rewrite <- list_fmap_compose. apply (br_ids _ Hb). }
  { intros i []%not_elem_of_empty. }
  { apply Forall_fmap. eapply Forall_impl; [exact HS|]. intros sc [Hs _]. cbn. pose proof (f_equal sd_labels (canonical_pairs sc (proj1 Hs))) as E. cbn in E. rewrite E. split; [apply labelsToPairs_sorted, Hs|]. apply Forall_forall. intros p Hp. by eapply storable_named. }
  rewrite Ew. assert (Hadd : add_all (SetTenant t (SetCompaction 0 [] (NewWriter id))) (to_seriesData <$> series) = Ok w) by (by destruct series).
  destruct (batch_written id t 0 [] series (io_now io) w Hb Hadd) as (r & Hr & _ & Hopen & Hid). unfold Commit. rewrite Hopen, Hid, Enew, Ecom. cbn [negb]. rewrite lookup_insert_eq. change (default ?e (?f <$> Some ?d)) with (f d).
  assert (Hv : validateBlockSeries r = Ok tt).
  { unfold validateBlockSeries. rewrite (wt_tenant _ _ _ _ _ _ Hr). pose proof (h_series _ _ (wt_holds _ _ _ _ _ _ Hr)) as H1. rewrite Forall2_fmap_r in H1. pose proof (op_sorted _ (wt_opened _ _ _ _ _ _ Hr)) as HF.
    pose proof (br_labels _ Hb) as HL. clear -H1 HS HF HL. revert HS HF HL. induction H1 as [|se sc es l (E1 & E2 & _) _ IH]; intros HS HF HL; [done|]. apply Forall_cons in HS as [[Hst Ht] HS]. apply Forall_cons in HL as [[_ Hh] HL]. apply Forall_cons in HF as [Hfit HF]. cbn [validate_series]. cbn [to_seriesData sd_id sd_labels] in E1, E2.
    assert (E : blockPairsToLabels (se_Labels se) = Ok (sc_Labels sc)). { unfold blockPairsToLabels. destruct Hst as [Hl Hst]. rewrite (pairs_to_map_perm _ (sc_Labels sc)); [done|apply (ef_labels _ Hfit)|done|done]. }
    rewrite E, E1, Hh, Z.eqb_refl, Ht, String.eqb_refl. cbn [negb]. by apply IH. }
  destruct (written_good _ _ _ _ _ _ Hb Hr Hv) as (Ho & _). destruct (wt_chunks _ _ _ _ _ _ Hr) as [st0 Hst0]. unfold check_written. rewrite Ho, bind_Ok, Hst0, bind_Ok. by eexists _, _.
Qed.
(** Every block gets its own unused ID, and nothing fails. *)
Definition healthy (ios : nat -> write_io) (st : bstate) : Prop := (forall i, healthy_io (ios i) st) /\ forall i j, io_id (ios i) = io_id (ios j) -> i = j.
Lemma write_groups_succeeds ios series i first ts st : flush_ready series -> Forall (fun sc => storable (sc_Labels sc)) series -> (forall j, (i <= j)%nat -> healthy_io (ios j) st) -> (forall i j, io_id (ios i) = io_id (ios j) -> i = j) ->
  exists meta st', write_groups ios series i first ts st = (Ok meta, st').
Proof.
  intros Hf HS Hio Hinj. revert i first st Hio. induction ts as [|t ts IH]; intros i first st Hio; cbn [write_groups]; [by eexists _, _|].
  destruct (writeOneBlock_succeeds (ios i) (tenant_group t series) t st) as (meta & st1 & Ew); [by apply group_ready| |by apply Hio|].
  { apply Forall_forall. intros sc [Ht Hsc]%list_elem_of_filter. rewrite Forall_forall in HS. split; [by apply HS|done]. }
  rewrite Ew. apply IH. intros j Hj. destruct (Hio j ltac:(lia)) as (id & E1 & E2 & E3). exists id. split; [done|]. split; [|done].
  destruct (writeOneBlock_spec _ _ _ _ _ _ (group_ready t series Hf) Ew) as (_ & Hk & _). destruct (Hk id) as [-> _]; [|done]. intros E. rewrite <- E1 in E. apply Hinj in E. lia.
Qed.

(** On a healthy disk a flush succeeds. When the sealed chunks keep to the sizes a
    block can state and their label sets are ones a client can store, a flush whose
    writes do not fail publishes them all: the snapshot's chunks leave the head, and
    the next snapshot is empty unless the head has sealed more. *)
Theorem flush_succeeds ios st (Hst : store_ok st) (Hready : flush_ready (SealedChunksSnapshot (b_mem st)))
  (Hlabels : Forall (fun sc => storable (sc_Labels sc)) (SealedChunksSnapshot (b_mem st))) (Hio : healthy ios st) :
  exists b st', FlushBlock ios [] st = (Ok b, st') /\ (b = true <-> SealedChunksSnapshot (b_mem st) <> []) /\ SealedChunksSnapshot (b_mem st') = [].
Proof.
  unfold FlushBlock. destruct (SealedChunksSnapshot (b_mem st)) as [|sc0 snap0] eqn:Esnap; [by eexists _, _|]. rewrite <- Esnap in *. destruct Hio as [Hio Hinj].
  destruct (write_groups_succeeds ios _ 0 zero_meta (tenant_ids (SealedChunksSnapshot (b_mem st))) st Hready Hlabels (fun j _ => Hio j) Hinj) as (m & st1 & Ew). unfold ingestLocked. rewrite Ew.
  destruct (write_groups_spec _ _ _ _ _ _ _ _ Hready Ew) as (Em & _). eexists _, _. split; [reflexivity|]. split; [by rewrite Esnap|]. cbn [set_mem b_mem run fold_left]. rewrite Em.
  pose proof (bo_mem _ (sk_bs _ Hst)) as Hs. cbn in Hs. set (s := b_mem st) in *. destruct (DiscardSealedChunks_spec s (SealedChunksSnapshot s) Hs) as (_ & Hser & _).
  destruct (SealedChunksSnapshot (DiscardSealedChunks s _)) as [|sc l] eqn:E; [done|]. exfalso. assert (Hin : sc ∈ SealedChunksSnapshot (DiscardSealedChunks s (SealedChunksSnapshot s))) by (rewrite E; by left).
  apply elem_of_snapshot in Hin as (ms & Hms & _ & Hc & Hne). rewrite Hser in Hms. apply lookup_fmap_Some in Hms as (ms0 & <- & Hms0).
  destruct (sc_Chunks sc) as [|rc cs]; [done|]. assert (Hrc : rc ∈ filter (fun rc => sealed rc.2 = true) (ms_chunks (keep_chunks (snapshot_refs (SealedChunksSnapshot s)) ms0))) by (rewrite <- Hc; by left).
  apply list_elem_of_filter in Hrc as [Hsl Hrc]. rewrite (kept_chunks _ _ _ _ (st_series_wf s Hs _ _ Hms0)) in Hrc. apply list_elem_of_filter in Hrc as [Hn Hrc]. apply Hn, elem_of_refs.
  assert (Hf : rc ∈ filter (fun rc => sealed rc.2 = true) (ms_chunks ms0)) by (by apply list_elem_of_filter).
  exists (mkSC (sc_ID sc) (ms_labels ms0) (filter (fun rc => sealed rc.2 = true) (ms_chunks ms0))), rc. split; [|done]. apply elem_of_snapshot. exists ms0. split_and!; [done..|]. cbn [sc_Chunks]. intros En. rewrite En in Hf. by apply not_elem_of_nil in Hf.
Qed.

(** ** A store with one sealed chunk *)

Definition flush_head : MemoryStore := run NewMemoryStore [OpAppend 100 demo_set 1500 7 0 0; OpSeal].
Definition flush_st : bstate := mkBState flush_head [] ∅ ∅.
Definition flush_ios (i : nat) : write_io := mkIO (Some (pretty i)) 5 None None.
Lemma flush_head_wf : store_wf flush_head.
Proof. apply reachable_wf, reachable_run; [apply reach_new|]. unfold demo_set. split; [op_ok_solve|split; [op_ok_solve|exact I]]. Qed.
Lemma no_blocks_ok s : store_wf s -> no_collision [store_db s] -> store_ok (mkBState s [] ∅ ∅).
Proof. intros Hs Hnc. split; [split; [exact Hs|constructor|exact Hnc]|constructor|constructor|constructor]. Qed.
Lemma flush_st_ok : store_ok flush_st.
Proof.
  apply no_blocks_ok; [apply flush_head_wf|]. apply (one_series_no_collision demo_set), Forall_singleton. apply store_one_series; [apply flush_head_wf|vm_compute; reflexivity].
Qed.
Lemma block_fits_nil : block_fits [].
Proof. split; [cbn; lia|constructor|vm_compute; discriminate|vm_compute; reflexivity|vm_compute; discriminate]. Qed.
Lemma group_one t sc : tenant_group t [sc] = [sc] \/ tenant_group t [sc] = [].
Proof. unfold tenant_group. rewrite filter_cons. destruct (decide _); [by left|by right]. Qed.
(** What [vm_compute] can tell of a series' size. *)
Definition series_smallb (sd : seriesData) : bool :=
  ((0 <=? sd_id sd) && (sd_id sd <? 2 ^ 64) && forallb (fun p => (str_len (bl_Name p) <? 2 ^ 32) && (str_len (bl_Value p) <? 2 ^ 32)) (sd_labels sd) &&
   (Z.of_nat (length (encodeLabelSet (sd_labels sd))) <? 2 ^ 32) && (Z.of_nat (length (sd_chunks sd)) <=? max_chunks) && forallb (fun c => Z.of_nat (length (Bytes c)) <? 2 ^ 32) (sd_chunks sd))%bool.
Lemma series_small_check sd : series_smallb sd = true -> Forall ships (sd_chunks sd) -> series_small sd.
Proof.
  unfold series_smallb. rewrite !andb_true_iff, !forallb_forall. intros [[[[[H0 H1] H2] H3] H4] H5] HF. split.
  - split; [by apply Z.leb_le|by apply Z.ltb_lt].
  - apply Forall_forall. intros p Hp%list_elem_of_In. specialize (H2 p Hp). apply andb_true_iff in H2 as [?%Z.ltb_lt ?%Z.ltb_lt]. done.
  - by apply Z.ltb_lt.
  - by apply Z.leb_le.
  - apply Forall_forall. intros c Hc. rewrite Forall_forall in HF. split; [by apply HF|]. by apply Z.ltb_lt, H5, list_elem_of_In.
Qed.
Lemma snapshot_ships s sc : store_wf s -> sc ∈ SealedChunksSnapshot s -> Forall ships (sc_Chunks sc).*2.
Proof.
  intros Hs (ms & E & _ & -> & _)%elem_of_snapshot. apply Forall_fmap, Forall_forall. intros rc [_ Hrc]%list_elem_of_filter. pose proof (sw_chunks _ _ _ (st_series_wf s Hs _ _ E)) as HF. rewrite Forall_forall in HF.
  destruct (HF rc Hrc) as [Hc _]. by apply chunk_ok_ships.
Qed.
Definition flush_sc : SeriesChunks := default (mkSC 0 demo_set []) (head (SealedChunksSnapshot flush_head)).
Lemma flush_snapshot : SealedChunksSnapshot flush_head = [flush_sc].
Proof. vm_compute. reflexivity. Qed.
Lemma flush_st_ready : flush_ready (SealedChunksSnapshot (b_mem flush_st)).
Proof.
  apply snapshot_ready; [apply flush_head_wf| |]; cbn [flush_st b_mem]; rewrite flush_snapshot; intros t; destruct (group_one t flush_sc) as [->| ->].
  - assert (Hsc : flush_sc ∈ SealedChunksSnapshot flush_head) by (rewrite flush_snapshot; by left). split; [vm_compute; discriminate| |vm_compute; discriminate|vm_compute; reflexivity|vm_compute; discriminate].
    apply Forall_singleton, series_small_check; [vm_compute; reflexivity|]. apply (snapshot_ships flush_head); [apply flush_head_wf|exact Hsc].
  - apply block_fits_nil.
  - vm_compute. discriminate.
  - vm_compute. discriminate.
Qed.
Lemma demo_set_storable : storable demo_set.
Proof. split; [apply build_wf|vm_compute; reflexivity]. Qed.
Lemma flush_healthy : healthy flush_ios flush_st.
Proof. split; [intros i; by exists (pretty i)|]. cbn. by intros i j [= E%(inj pretty)]. Qed.

Definition flush_ops : list store_op := [OpAppend 200 demo_set 2500 9 0 0].
Lemma flush_ops_ok : ops_ok (b_mem flush_st) flush_ops.
Proof. unfold flush_ops, demo_set. split; [op_ok_solve|exact I]. Qed.
Lemma flush_run_wf : store_wf (run flush_head flush_ops).
Proof. apply (run_wf flush_head flush_ops flush_head_wf flush_ops_ok). Qed.
Definition flush_after : bstate := (FlushBlock flush_ios flush_ops flush_st).2.
Lemma flush_done : (FlushBlock flush_ios flush_ops flush_st).1 = Ok true /\ length (b_blocks flush_after) = 1%nat.
Proof. split; vm_compute; reflexivity. Qed.
Lemma flush_keeps_reads_witness : store_ok flush_after /\ length (b_blocks flush_after) = 1%nat /\ db_equiv (bs_db (b_store flush_after)) (bs_db (b_store (set_mem (run flush_head flush_ops) flush_st))).
Proof.
  destruct (flush_keeps_reads flush_ios flush_ops flush_st (Ok true) flush_after flush_st_ok flush_ops_ok ltac:(repeat constructor) flush_st_ready) as (H1 & H2 & _).
  - apply (one_series_no_collision demo_set), Forall_singleton. apply store_one_series; [apply flush_run_wf|vm_compute; reflexivity].
  - unfold flush_after. rewrite <- (proj1 flush_done). apply surjective_pairing.
  - split; [exact H1|]. split; [apply flush_done|exact H2].
Defined.
Lemma flush_succeeds_witness : exists b st', FlushBlock flush_ios [] flush_st = (Ok b, st') /\ SealedChunksSnapshot (b_mem st') = [].
Proof.
  destruct (flush_succeeds flush_ios flush_st flush_st_ok flush_st_ready) as (b & st' & H1 & _ & H2).
  - cbn [flush_st b_mem]. rewrite flush_snapshot. apply Forall_singleton. exact demo_set_storable.
  - exact flush_healthy.
  - exists b, st'. by split.
Defined.

(** The store ingests a chunk its head also holds. *)
Lemma ingest_exact_witness : exists res st', IngestSeriesChunks None None flush_ios [flush_sc] flush_st = (res, st') /\ store_ok st' /\ (forall m, res = Ok m -> db_equiv (bs_db (b_store st')) (db_union (bs_db (b_store flush_st)) (ingest_db [flush_sc]))).
Proof.
  destruct (IngestSeriesChunks None None flush_ios [flush_sc] flush_st) as [res st'] eqn:E. exists res, st'. pose proof flush_st_ready as [_ HL HF HC]. cbn [flush_st b_mem] in HL, HF, HC. rewrite flush_snapshot in HL, HF, HC.
  destruct (ingest_exact None None flush_ios [flush_sc] flush_st res st' flush_st_ok) as (H1 & _ & _ & _ & H2 & _); [|exact HF|exact HC| |exact E|by split_and!].
  - eapply Forall_impl; [exact HL|]. by intros sc [? _].
  - apply (one_series_no_collision demo_set). apply Forall_cons; split; [|apply Forall_singleton].
    + intros l. unfold ingest_db. destruct (decide _) as [Hl|]; [|by intros [? ?]]. intros _. apply list_elem_of_fmap in Hl as (sc & -> & ->%list_elem_of_singleton). vm_compute. reflexivity.
    + apply store_one_series; [apply flush_head_wf|vm_compute; reflexivity].
Defined.
