(* ===== verification/BlockCompact.v ===== *)
(** * BlockCompact: merging blocks, and proving a merge before its sources go

    [internal/storage/block/compact.go], and [CompactOnce], [decodeBlockGens],
    [survivorSupersedesSource], [blocksAttest] and [retireBlocks] of
    [internal/metrics/blockstore.go]. *)
From stdpp Require Import strings.
From S2P Require Import Prelude GoLib GoSort Bits Chunk Dedup Labels Postings Source ReadEquiv MemStore BlockIndex BlockPostings PostingsWritten Block BlockStore BlockCheck BlockIngest.

(** ** Merging the sources *)

Inductive compactErr :=
  | TooFewSources (n : Z) | TenantMix (t1 t2 : string) | LabelConflict (id : Z) | CompactRead (e : readerErr) | CompactDecode (id : Z)
  | CompactWriter | CompactAdd (e : writerErr) | CompactCommit (e : writerErr).
Record seriesAgg := mkAgg { ag_labels : list BlockLabel; ag_samples : list sample }.
Record aggs := mkAggs { aggByID : gmap Z seriesAgg; ag_order : list Z; ag_level : Z; ag_sources : list string }.

(** The chunks of one series: each is decoded, and its decoding error checked, before the next is read. *)
Fixpoint agg_chunks (r : Reader) (id : Z) (samples : list sample) (refs : list ChunkRef) : result compactErr (list sample) :=
  match refs with
  | [] => Ok samples
  | ref :: rest =>
      match ReadChunk r ref with
      | Err e => Err (CompactRead e)
      | Ok c =>
          match it_err (snd (drain_all (chunk_Iterator c))) with
          | Some _ => Err (CompactDecode id)
          | None => agg_chunks r id (samples ++ samples_of c) rest
          end
      end
  end.
Fixpoint agg_series (r : Reader) (a : aggs) (entries : list SeriesEntry) : result compactErr aggs :=
  match entries with
  | [] => Ok a
  | se :: rest =>
      '(agg, order) ← (match aggByID a !! se_ID se with
                        | None => Ok (mkAgg (se_Labels se) [], ag_order a ++ [se_ID se])
                        | Some agg => if bool_decide (ag_labels agg = se_Labels se) then Ok (agg, ag_order a) else Err (LabelConflict (se_ID se))
                        end);
      samples ← agg_chunks r (se_ID se) (ag_samples agg) (se_Chunks se);
      agg_series r (mkAggs (<[se_ID se := mkAgg (ag_labels agg) samples]> (aggByID a)) order (ag_level a) (ag_sources a)) rest
  end.
Fixpoint agg_blocks (a : aggs) (sources : list Reader) : result compactErr aggs :=
  match sources with
  | [] => Ok a
  | r :: rest =>
      let level := if ag_level a <? EffectiveLevel (r_meta r) then EffectiveLevel (r_meta r) else ag_level a in
      a ← agg_series r (mkAggs (aggByID a) (ag_order a) level (ag_sources a ++ [m_BlockID (r_meta r)])) (r_entries r);
      agg_blocks a rest
  end.
Fixpoint check_tenants (t : string) (sources : list Reader) : result compactErr unit :=
  match sources with [] => Ok tt | r :: rest => if String.eqb (m_Tenant (r_meta r)) t then check_tenants t rest else Err (TenantMix t (m_Tenant (r_meta r))) end.
Fixpoint add_merged (w : Writer) (a : aggs) (order : list Z) : result compactErr Writer :=
  match order with
  | [] => Ok w
  | id :: rest =>
      let agg := default (mkAgg [] []) (aggByID a !! id) in
      match rechunk (ag_samples agg) with
      | [] => add_merged w a rest
      | chunks => match AddSeries w id (ag_labels agg) chunks with Err e => Err (CompactAdd e) | Ok w => add_merged w a rest end
      end
  end.
Definition by_minTime : list Reader -> list Reader := SliceStable (fun a b => m_MinTime (r_meta a) <? m_MinTime (r_meta b)).
Definition Compact (io : write_io) (sources : list Reader) (blocks : gmap string blockDir) : result compactErr Meta * gmap string blockDir :=
  match sources with
  | first :: (_ :: _) as others =>
      let tenantID := m_Tenant (r_meta first) in
      match (_ ← check_tenants tenantID others; agg_blocks (mkAggs ∅ [] 0 []) (by_minTime sources)) with
      | Err e => (Err e, blocks)
      | Ok a =>
          match io_id io with
          | None => (Err CompactWriter, blocks)
          | Some id =>
              match add_merged (SetTenant tenantID (SetCompaction (i64 (ag_level a + 1)) (ag_sources a) (NewWriter id))) a (ag_order a) with
              | Err e => (Err e, blocks)
              | Ok w =>
                  let '(res, _, blocks) := Commit (io_commit io) (io_now io) w blocks in
                  (match res with Ok m => Ok m | Err e => Err (CompactCommit e) end, blocks)
              end
          end
      end
  | _ => (Err (TooFewSources (Z.of_nat (length sources))), blocks)
  end.

(** ** Proving a survivor *)

(** Generation and value bits of a winner. *)
Definition sampleGV := (Z * Z)%type.
Definition gens_add (m : gmap Z sampleGV) (x : sample) : gmap Z sampleGV :=
  match m !! s_ts x with
  | Some (g, bits) => if Outranks (s_gen x) (s_val x) g bits then <[s_ts x := (s_gen x, s_val x)]> m else m
  | None => <[s_ts x := (s_gen x, s_val x)]> m
  end.
Notation blockGens := (gmap Z (gmap Z sampleGV)).
Fixpoint decode_gens (r : Reader) (out : blockGens) (entries : list SeriesEntry) : result readerErr blockGens :=
  match entries with
  | [] => Ok out
  | se :: rest => cs ← read_chunks r (se_Chunks se); decode_gens r (<[se_ID se := fold_left gens_add (cs ≫= samples_of) ∅]> out) rest
  end.
Definition decodeBlockGens (r : Reader) : result readerErr blockGens := decode_gens r ∅ (r_entries r).

Definition attestor := Z -> Z -> sampleGV -> bool.
Definition blocksAttest (readers : list Reader) (excludeID : string) : attestor := fun series ts gv =>
  existsb (fun r => (negb (String.eqb (m_BlockID (r_meta r)) excludeID) && match decodeBlockGens r with Ok g => bool_decide (g !! series ≫= (.!! ts) = Some gv) | Err _ => false end)%bool) readers.
(** One source sample against the survivor's winners of its series. *)
Definition superseded (sg : gmap Z sampleGV) (id : Z) (attested : attestor) (x : sample) : bool :=
  match sg !! s_ts x with
  | None => false
  | Some (g, bits) =>
      if g <? s_gen x then false else
      if ((g =? s_gen x) && negb (bits =? s_val x))%bool
      then (Outranks g bits (s_gen x) (s_val x) && attested id (s_ts x) (g, bits))%bool
      else true
  end.
Fixpoint supersedes_chunks (r : Reader) (sg : gmap Z sampleGV) (id : Z) (attested : attestor) (refs : list ChunkRef) : result readerErr bool :=
  match refs with
  | [] => Ok true
  | ref :: rest => c ← ReadChunk r ref; if forallb (superseded sg id attested) (samples_of c) then supersedes_chunks r sg id attested rest else Ok false
  end.
Fixpoint supersedes_series (r : Reader) (survivorGens : blockGens) (attested : attestor) (entries : list SeriesEntry) : result readerErr bool :=
  match entries with
  | [] => Ok true
  | se :: rest =>
      match survivorGens !! se_ID se with
      | None => Ok false
      | Some sg => ok ← supersedes_chunks r sg (se_ID se) attested (se_Chunks se); if (ok : bool) then supersedes_series r survivorGens attested rest else Ok false
      end
  end.
Definition survivorSupersedesSource (survivorGens : blockGens) (survivorID : string) (source : Reader) (attested : attestor) : result readerErr bool :=
  if String.eqb survivorID (m_BlockID (r_meta source)) then Ok false else supersedes_series source survivorGens attested (r_entries source).

(** ** Retiring sources *)

(** Where moving, moving back and removing a directory fail. *)
Record retire_io := mkRetire { ri_move : string -> bool; ri_back : string -> bool; ri_remove : string -> bool }.
Definition move_back (io : retire_io) (st : bstate) (id : string) : bstate :=
  match b_tmpDir st !! id with
  | Some d => if ri_back io id then st else set_dirs (<[id := d]> (b_blockDir st)) (delete id (b_tmpDir st)) st
  | None => st
  end.
(** [Err] holds the state after the moves were undone. *)
Fixpoint retire_move (io : retire_io) (moved ids : list string) (st : bstate) : result bstate (list string * bstate) :=
  match ids with
  | [] => Ok (moved, st)
  | id :: rest =>
      match b_blockDir st !! id with
      | None => retire_move io moved rest st
      | Some d =>
          let tmp := delete id (b_tmpDir st) in
          if ri_move io id then Err (fold_left (move_back io) moved (set_dirs (b_blockDir st) tmp st))
          else retire_move io (moved ++ [id]) rest (set_dirs (delete id (b_blockDir st)) (<[id := d]> tmp) st)
      end
  end.
(** Whether all were moved, whether an error is returned, and the state left. *)
Definition retireBlocks (io : retire_io) (ids : list string) (st : bstate) : bool * bool * bstate :=
  match retire_move io [] ids st with
  | Err st => (false, true, st)
  | Ok (moved, st) =>
      (true, existsb (ri_remove io) moved, fold_left (fun st id => if ri_remove io id then st else set_dirs (b_blockDir st) (delete id (b_tmpDir st)) st) moved st)
  end.

(** ** One group, and a pass *)

Inductive onceErr :=
  | OnceCompact (e : compactErr) | OnceRejected (e : blockErr) | OnceMaxGen (meta stored : Z) | OnceDecode (e : readerErr)
  | OnceVerify (src : string) (e : readerErr) | OnceNotSuperseded (src : string) | OnceDelete.
Fixpoint check_sources (gens : blockGens) (id : string) (attested : attestor) (sources : list Reader) : result onceErr unit :=
  match sources with
  | [] => Ok tt
  | src :: rest =>
      match survivorSupersedesSource gens id src attested with
      | Err e => Err (OnceVerify (m_BlockID (r_meta src)) e)
      | Ok false => Err (OnceNotSuperseded (m_BlockID (r_meta src)))
      | Ok true => check_sources gens id attested rest
      end
  end.
Definition lift_once {A} (m : result blockErr A) : result onceErr A := match m with Ok a => Ok a | Err e => Err (OnceRejected e) end.
(** Every check before the merged block replaces its sources. *)
Definition check_compacted (id : string) (d : blockDir) (sources : list Reader) : result onceErr Reader :=
  r ← lift_once (open_block id d);
  st ← lift_once (validateBlockChunks r);
  if negb (bcs_maxGen st =? m_MaxGen (r_meta r)) then Err (OnceMaxGen (m_MaxGen (r_meta r)) (bcs_maxGen st)) else
  r' ← lift_once (reconcileBlockMeta r st);
  match decodeBlockGens r' with
  | Err e => Err (OnceDecode e)
  | Ok gens => _ ← check_sources gens id (blocksAttest sources id) sources; Ok r'
  end.
Definition readerByID (blocks : list Reader) (id : string) : option Reader := find (fun r => String.eqb (m_BlockID (r_meta r)) id) blocks.
Definition swap_blocks (group : list string) (r : Reader) (st : bstate) : bstate :=
  mkBState (b_mem st) (filter (fun x => m_BlockID (r_meta x) ∉ group) (b_blocks st) ++ [r]) (b_blockDir st) (b_tmpDir st).
Definition removed_ids (group : list string) (st : bstate) : list string := (fun x => m_BlockID (r_meta x)) <$> filter (fun x => m_BlockID (r_meta x) ∈ group) (b_blocks st).
(** [Ok true] when the group was compacted. *)
Definition compact_group (io : write_io) (rio : retire_io) (group : list string) (st : bstate) : result onceErr bool * bstate :=
  if (length group <? 2)%nat then (Ok false, st) else
  match mapM (readerByID (b_blocks st)) group with
  | None => (Ok false, st)
  | Some sources =>
      let '(res, blocks) := Compact io sources (b_blockDir st) in
      let st := set_dirs blocks (b_tmpDir st) st in
      match res with
      | Err e => (Err (OnceCompact e), st)
      | Ok meta =>
          let id := m_BlockID meta in
          match default (Err (OnceRejected (BadReader MetaUnreadable))) ((fun d => check_compacted id d sources) <$> blocks !! id) with
          | Err e => (Err e, (safeDeleteBlock (io_delete io) id st).2)
          | Ok r =>
              let '(_, failed, st') := retireBlocks rio (removed_ids group st) (swap_blocks group r st) in
              if (failed : bool) then (Err OnceDelete, st') else (Ok true, st')
          end
      end
  end.
Record BlockInfo := mkInfo { bi_ID : string; bi_Level : Z; bi_MinTime : Z; bi_MaxTime : Z; bi_Tenant : string }.
Definition block_info (r : Reader) : BlockInfo := mkInfo (m_BlockID (r_meta r)) (EffectiveLevel (r_meta r)) (m_MinTime (r_meta r)) (m_MaxTime (r_meta r)) (m_Tenant (r_meta r)).
(** Infos come back ordered by start; what sorts equal is in some order. *)
Definition BlockInfos (st : bstate) : list BlockInfo := SliceStable (fun a b => bi_MinTime a <? bi_MinTime b) (block_info <$> b_blocks st).
Fixpoint compact_groups (ios : nat -> write_io) (rios : nat -> retire_io) (i : nat) (compacted : Z) (groups : list (list string)) (st : bstate) : Z * option onceErr * bstate :=
  match groups with
  | [] => (compacted, None, st)
  | g :: rest =>
      match compact_group (ios i) (rios i) g st with
      | (Err e, st) => (compacted, Some e, st)
      | (Ok done, st) => compact_groups ios rios (S i) (if (done : bool) then compacted + 1 else compacted) rest st
      end
  end.
(** The count of groups compacted, and the error that stopped the pass. *)
Definition CompactOnce (ios : nat -> write_io) (rios : nat -> retire_io) (plan : list BlockInfo -> list (list string)) (st : bstate) : Z * option onceErr * bstate :=
  compact_groups ios rios 0 0 (plan (BlockInfos st)) st.

(** ** Winners *)

Lemma gens_add_spec l m x : (forall ts, match m !! ts with Some (g, v) => survives l (mkSample ts v g) | None => forall y, y ∈ l -> s_ts y <> ts end) ->
  forall ts, match gens_add m x !! ts with Some (g, v) => survives (l ++ [x]) (mkSample ts v g) | None => forall y, y ∈ l ++ [x] -> s_ts y <> ts end.
Proof.
  intros Hm ts. destruct x as [t v g]. unfold gens_add. cbn [s_ts s_val s_gen]. pose proof (Hm t) as Ht.
  assert (Hother : ts <> t -> match m !! ts with Some (g0, v0) => survives (l ++ [mkSample t v g]) (mkSample ts v0 g0) | None => forall y, y ∈ l ++ [mkSample t v g] -> s_ts y <> ts end).
  { intros Hne. specialize (Hm ts). destruct (m !! ts) as [[g0 v0]|].
    - destruct Hm as [H1 H2]. split; [apply in_app_iff; by left|]. intros y [Hy|[<-|[]]]%in_app_iff Ty; [by apply H2|by cbn in Ty].
    - intros y [Hy| ->%list_elem_of_singleton]%elem_of_app; [by apply Hm|done]. }
  assert (Hnew : (forall y, y ∈ l -> s_ts y = t -> y = mkSample t v g \/ outranks (mkSample t v g) y = true) -> survives (l ++ [mkSample t v g]) (mkSample t v g)).
  { intros Hout. split; [apply in_app_iff; right; by left|]. intros y [Hy%list_elem_of_In|[<-|[]]]%in_app_iff Ty; [by apply Hout|by left]. }
  destruct (decide (ts = t)) as [->|Hne].
  - destruct (m !! t) as [[g0 v0]|] eqn:E.
    + destruct Ht as [H1 H2]. destruct (Outranks g v g0 v0) eqn:Eo.
      * rewrite lookup_insert_eq. apply Hnew. intros y Hy%list_elem_of_In Ty. right. destruct (H2 y Hy Ty) as [->|Hw]; [done|]. by apply (outranks_trans _ (mkSample t v0 g0)).
      * rewrite E. split; [apply in_app_iff; by left|]. intros y [Hy|[<-|[]]]%in_app_iff Ty; [by apply H2|]. destruct (outranks_total (mkSample t v g) (mkSample t v0 g0)) as [->|[Hw|Hw]]; [done|by left| |by right]. unfold outranks in Hw. cbn in Hw. congruence.
    + rewrite lookup_insert_eq. apply Hnew. intros y Hy Ty. by destruct (Ht y Hy).
  - destruct (m !! t) as [[g0 v0]|]; [destruct (Outranks g v g0 v0)|]; rewrite ?lookup_insert_ne by done; by apply Hother.
Qed.
(** The winners of a list are its survivors. *)
Lemma gens_winners l ts : match fold_left gens_add l ∅ !! ts with Some (g, v) => survives l (mkSample ts v g) | None => forall y, y ∈ l -> s_ts y <> ts end.
Proof.
  revert ts. induction l as [|x l IH] using rev_ind; intros ts; [cbn; rewrite lookup_empty; by intros y ?%not_elem_of_nil|]. rewrite fold_left_app. cbn [fold_left]. by apply gens_add_spec.
Qed.
Lemma gens_lookup l x : survives l x -> fold_left gens_add l ∅ !! s_ts x = Some (s_gen x, s_val x).
Proof.
  intros Hx. pose proof (gens_winners l (s_ts x)) as H. destruct (_ !! s_ts x) as [[g v]|].
  - destruct Hx as [Hx1 Hx2], H as [H1 H2]. destruct (Hx2 _ H1 eq_refl) as [<-|Hw]; [done|]. destruct (H2 x Hx1 eq_refl) as [->|Hw']; [done|]. apply outranks_asym in Hw. congruence.
  - destruct Hx as [Hx%list_elem_of_In _]. by destruct (H x Hx).
Qed.

Lemma decode_gens_spec r out entries gens : NoDup (se_ID <$> entries) -> decode_gens r out entries = Ok gens ->
  forall i, gens !! i = match find (fun se => se_ID se =? i) entries with Some se => Some (fold_left gens_add (entry_samples r se) ∅) | None => out !! i end.
Proof.
  revert out. induction entries as [|se entries IH]; intros out Hnd; cbn [decode_gens find]; [by intros [= <-]|]. rewrite fmap_cons in Hnd. apply NoDup_cons in Hnd as [Hni Hnd].
  destruct (read_chunks r (se_Chunks se)) as [cs|] eqn:Ecs; [|done]. rewrite bind_Ok. intros Hd i. rewrite (IH _ Hnd Hd i). destruct (Z.eqb_spec (se_ID se) i) as [<-|Hne].
  - destruct (find _ entries) as [se'|] eqn:Ef; [|rewrite lookup_insert_eq; unfold entry_samples; by rewrite Ecs]. apply find_some in Ef as [Hin E%Z.eqb_eq]. destruct Hni. rewrite <- E. apply list_elem_of_fmap_2. by apply list_elem_of_In.
  - destruct (find _ entries); [done|]. by rewrite lookup_insert_ne.
Qed.
Lemma decode_gens_reads r out entries : Forall (fun se => exists cs, read_chunks r (se_Chunks se) = Ok cs) entries -> exists gens, decode_gens r out entries = Ok gens.
Proof. intros HF. revert out. induction HF as [|se entries [cs Hcs] _ IH]; intros out; cbn [decode_gens]; [by eexists|]. rewrite Hcs, bind_Ok. apply IH. Qed.
Lemma good_reads r : block_good r -> Forall (fun se => exists cs, read_chunks r (se_Chunks se) = Ok cs) (r_entries r).
Proof. intros Hr. eapply Forall_impl; [apply (bg_entries r Hr)|]. intros se (l & cs & Hg). exists cs. apply (ge_read _ _ _ _ Hg). Qed.
Lemma find_entry r se : block_good r -> se ∈ r_entries r -> find (fun x => se_ID x =? se_ID se) (r_entries r) = Some se.
Proof.
  intros Hr Hin. destruct (find _ _) as [se'|] eqn:Ef.
  - apply find_some in Ef as [Hin'%list_elem_of_In E%Z.eqb_eq]. f_equal. by apply (NoDup_fmap_same se_ID (r_entries r)); [apply (bg_ids r Hr)|..].
  - apply list_elem_of_In in Hin. pose proof (find_none _ _ Ef se Hin) as Hf. cbn in Hf. by rewrite Z.eqb_refl in Hf.
Qed.
(** The winners of a good block are those of its database. *)
Lemma decodeBlockGens_good r : block_good r -> exists gens, decodeBlockGens r = Ok gens /\
  (forall se, se ∈ r_entries r -> gens !! se_ID se = Some (fold_left gens_add (entry_samples r se) ∅)) /\
  (forall i sg, gens !! i = Some sg -> exists se, se ∈ r_entries r /\ se_ID se = i /\ sg = fold_left gens_add (entry_samples r se) ∅).
Proof.
  intros Hr. destruct (decode_gens_reads r ∅ (r_entries r) (good_reads r Hr)) as [gens Hg]. exists gens. split; [exact Hg|]. pose proof (decode_gens_spec _ _ _ _ (bg_ids r Hr) Hg) as Hs. split.
  - intros se Hin. rewrite Hs. by rewrite find_entry.
  - intros i sg. rewrite Hs. destruct (find _ _) as [se|] eqn:Ef; [|by rewrite lookup_empty]. apply find_some in Ef as [Hin%list_elem_of_In E%Z.eqb_eq]. intros [= <-]. by exists se.
Qed.
Lemma entry_db r se l cs : good_entry r se l cs -> entry_samples r se = cs ≫= samples_of.
Proof. intros Hg. unfold entry_samples. by rewrite (ge_read _ _ _ _ Hg). Qed.

(** ** A source proven redundant *)

Lemma superseded_spec ws sg id attested x : sg = fold_left gens_add ws ∅ -> superseded sg id attested x = true -> exists y, y ∈ ws /\ s_ts y = s_ts x /\ (y = x \/ outranks y x = true).
Proof.
  intros -> H. unfold superseded in H. pose proof (gens_winners ws (s_ts x)) as Hw. destruct (_ !! s_ts x) as [[g v]|]; [|done]. destruct Hw as [Hin%list_elem_of_In _]. exists (mkSample (s_ts x) v g). split; [done|]. split; [done|].
  destruct (Z.ltb_spec g (s_gen x)); [done|]. destruct (Z.eqb_spec g (s_gen x)) as [->|Hne]; cbn [andb] in H.
  - destruct (Z.eqb_spec v (s_val x)) as [Ev|Hv]; [left; rewrite Ev; by destruct x|]. cbn [negb] in H. apply andb_true_iff in H as [H _]. right. unfold outranks. cbn [s_gen s_val]. exact H.
  - right. apply outranks_spec. cbn. lia.
Qed.
Lemma supersedes_chunks_spec r sg id attested refs ws : sg = fold_left gens_add ws ∅ -> supersedes_chunks r sg id attested refs = Ok true ->
  exists cs, read_chunks r refs = Ok cs /\ dominated (cs ≫= samples_of) ws.
Proof.
  intros Hsg. induction refs as [|ref refs IH]; cbn [supersedes_chunks read_chunks]; [intros _; exists []; split; [done|]; by intros x ?%not_elem_of_nil|].
  destruct (ReadChunk r ref) as [c|] eqn:Ec; [|done]. rewrite bind_Ok. destruct (forallb _ _) eqn:Ef; [|done]. intros (cs & Hcs & Hd)%IH. exists (c :: cs). rewrite bind_Ok, Hcs, bind_Ok. split; [done|].
  rewrite bind_cons. apply dominated_app; [|exact Hd]. intros x Hx%list_elem_of_In. rewrite forallb_forall in Ef. by eapply superseded_spec, Ef.
Qed.
Lemma supersedes_series_spec r gens attested entries : supersedes_series r gens attested entries = Ok true ->
  Forall (fun se => exists sg, gens !! se_ID se = Some sg /\ forall ws, sg = fold_left gens_add ws ∅ -> dominated (entry_samples r se) ws) entries.
Proof.
  induction entries as [|se entries IH]; cbn [supersedes_series]; [constructor|]. destruct (gens !! se_ID se) as [sg|] eqn:Eg; [|done]. destruct (supersedes_chunks _ _ _ _ _) as [[]|] eqn:Ec; [|done..]. rewrite bind_Ok. intros HF%IH.
  constructor; [|done]. exists sg. split; [done|]. intros ws Hws. destruct (supersedes_chunks_spec _ _ _ _ _ ws Hws Ec) as (cs & Hcs & Hd). unfold entry_samples. by rewrite Hcs.
Qed.
(** What the check accepts adds nothing to the survivor, whatever is in either block. *)
Lemma supersedes_covers sv src gens id attested : block_good sv -> block_good src -> no_collision [block_db sv; block_db src] -> decodeBlockGens sv = Ok gens -> survivorSupersedesSource gens id src attested = Ok true ->
  db_covered (block_db src) (block_db sv).
Proof.
  intros Hsv Hsrc Hnc Hg. unfold survivorSupersedesSource. destruct (String.eqb _ _); [done|]. intros HF%supersedes_series_spec. destruct (decodeBlockGens_good sv Hsv) as (gens' & Hg' & _ & G2). assert (gens' = gens) as -> by congruence.
  assert (Hcov : forall l ws, block_db src l = Some ws -> exists ws', block_db sv l = Some ws' /\ dominated ws ws').
  { intros l ws Hdb. pose proof Hdb as (se & cs & Hse & Hge & ->)%block_db_some; [|done]. apply (bg_byID src Hsrc) in Hse as [Hin Hid]. rewrite Forall_forall in HF. destruct (HF se Hin) as (sg & Hsg & Hdom).
    destruct (G2 _ _ Hsg) as (se' & Hin' & Hid' & Hws). specialize (Hdom _ Hws). rewrite (entry_db _ _ _ _ Hge) in Hdom.
    destruct (good_entry_at sv (se_ID se') se' Hsv) as (l' & cs' & Hge' & Hh' & Hdb'); [by apply (bg_byID sv Hsv)|]. rewrite (entry_db _ _ _ _ Hge') in Hdom.
    assert (l' = l) as ->; [|by exists (cs' ≫= samples_of)]. apply (Hnc l' l (block_db sv) (block_db src)); [by left|right; by left|by rewrite Hdb'|by rewrite Hdb|congruence]. }
  intros l. destruct (block_db src l) as [ws|] eqn:E; [|split; [by intros [? ?]|by intros x ?%not_elem_of_nil]]. destruct (Hcov l ws E) as (ws' & -> & Hd). split; [done|exact Hd].
Qed.

(** ** What the merge gathers *)

Lemma agg_chunks_spec r id samples refs : agg_chunks r id samples refs = match read_chunks r refs with Ok cs => Ok (samples ++ (cs ≫= samples_of)) | Err e => Err (CompactRead e) end.
Proof.
  revert samples. induction refs as [|ref refs IH]; intros samples; cbn [agg_chunks read_chunks]; [by rewrite app_nil_r|]. destruct (ReadChunk r ref) as [c|] eqn:E; [|done]. rewrite bind_Ok.
  apply ReadChunk_sound in E. rewrite (cs_err _ E), IH. destruct (read_chunks r refs) as [cs|]; [|done]. rewrite bind_Ok, bind_cons. by rewrite app_assoc.
Qed.
(** What is gathered after the entries [es], each with its samples. *)
Record agg_rep (a : aggs) (es : list (SeriesEntry * list sample)) : Prop := {
  ar_nodup : NoDup (ag_order a);
  ar_order : forall i, i ∈ ag_order a <-> is_Some (aggByID a !! i);
  ar_known : forall i, is_Some (aggByID a !! i) <-> exists e, e ∈ es /\ se_ID e.1 = i;
  ar_agg : forall i agg, aggByID a !! i = Some agg ->
    (forall e, e ∈ es -> se_ID e.1 = i -> ag_labels agg = se_Labels e.1) /\ forall x, x ∈ ag_samples agg <-> exists e, e ∈ es /\ se_ID e.1 = i /\ x ∈ e.2 }.
Lemma agg_rep_add a es se samples agg order : agg_rep a es ->
  (match aggByID a !! se_ID se with
   | None => Ok (mkAgg (se_Labels se) [], ag_order a ++ [se_ID se])
   | Some agg => if bool_decide (ag_labels agg = se_Labels se) then Ok (agg, ag_order a) else Err (LabelConflict (se_ID se))
   end) = Ok (agg, order) ->
  agg_rep (mkAggs (<[se_ID se := mkAgg (ag_labels agg) (ag_samples agg ++ samples)]> (aggByID a)) order (ag_level a) (ag_sources a)) (es ++ [(se, samples)]).
Proof.
  intros [A1 A2 A3 A4] Hagg. set (i := se_ID se) in *.
  assert (Hcase : ag_labels agg = se_Labels se /\ NoDup order /\ (forall j, j ∈ order <-> j = i \/ j ∈ ag_order a) /\
    (forall e, e ∈ es -> se_ID e.1 = i -> ag_labels agg = se_Labels e.1) /\ (forall x, x ∈ ag_samples agg <-> exists e, e ∈ es /\ se_ID e.1 = i /\ x ∈ e.2)).
  { destruct (aggByID a !! i) as [agg0|] eqn:E.
    - destruct (bool_decide_reflect (ag_labels agg0 = se_Labels se)) as [El|]; [|done]. injection Hagg as <- <-. destruct (A4 i agg0 E) as [B1 B2]. split_and!; [done|done| |exact B1|exact B2].
      intros j. split; [by right|]. intros [->|?]; [|done]. apply A2. by rewrite E.
    - injection Hagg as <- <-. assert (Hni : i ∉ ag_order a) by (rewrite A2, E; by intros [? ?]). assert (Hne : forall e, e ∈ es -> se_ID e.1 <> i) by (intros e He Ei; assert (is_Some (aggByID a !! i)) as [? ?] by (apply A3; by exists e); congruence).
      split_and!; [done| | |intros e He Ei; by destruct (Hne e He)|].
      + apply NoDup_app. split_and!; [done| |apply NoDup_singleton]. by intros j Hj ->%list_elem_of_singleton.
      + intros j. rewrite elem_of_app, list_elem_of_singleton. tauto.
      + intros x. split; [by intros ?%not_elem_of_nil|]. intros (e & He & Ei & _). by destruct (Hne e He). }
  destruct Hcase as (C1 & C2 & C3 & C4 & C5).
  assert (Hin : forall P : SeriesEntry * list sample -> Prop, (exists e, e ∈ es ++ [(se, samples)] /\ P e) <-> (exists e, e ∈ es /\ P e) \/ P (se, samples)).
  { intros P. setoid_rewrite elem_of_app. setoid_rewrite list_elem_of_singleton. split; [intros (e & [?| ->] & ?); [left; by exists e|by right]|intros [(e & ? & ?)|?]; [exists e; tauto|exists (se, samples); tauto]]. }
  split; cbn [aggByID ag_order]; [exact C2| | |].
  - intros j. rewrite C3. destruct (decide (j = i)) as [->|Hne]; [rewrite lookup_insert_eq; split; [done|by left]|]. rewrite lookup_insert_ne, <- A2 by done. tauto.
  - intros j. rewrite (Hin (fun e => se_ID e.1 = j)). destruct (decide (j = i)) as [->|Hne]; [rewrite lookup_insert_eq; split; [by right|done]|]. rewrite lookup_insert_ne, A3 by done. cbn [fst]. split; [by left|]. intros [?|E]; [done|by destruct Hne].
  - intros j agg' Hj. destruct (decide (j = i)) as [->|Hne].
    + rewrite lookup_insert_eq in Hj. injection Hj as <-. cbn [ag_labels ag_samples]. split.
      * intros e [He| ->%list_elem_of_singleton]%elem_of_app Ei; [by apply C4|done].
      * intros x. rewrite elem_of_app, C5, (Hin (fun e => se_ID e.1 = i /\ x ∈ e.2)). cbn [fst snd]. split; [intros [?|?]; [by left|by right]|intros [?|[_ ?]]; [by left|by right]].
    + rewrite lookup_insert_ne in Hj by done. destruct (A4 j agg' Hj) as [B1 B2]. split.
      * intros e [He| ->%list_elem_of_singleton]%elem_of_app Ei; [by apply B1|by destruct Hne].
      * intros x. rewrite B2, (Hin (fun e => se_ID e.1 = j /\ x ∈ e.2)). cbn [fst snd]. split; [by left|]. intros [?|[E _]]; [done|by destruct Hne].
Qed.
Definition with_samples (r : Reader) (se : SeriesEntry) : SeriesEntry * list sample := (se, entry_samples r se).
Lemma agg_series_rep r entries a es a' : agg_rep a es -> agg_series r a entries = Ok a' -> agg_rep a' (es ++ (with_samples r <$> entries)) /\ ag_level a' = ag_level a /\ ag_sources a' = ag_sources a.
Proof.
  revert a es. induction entries as [|se entries IH]; intros a es Ha; cbn [agg_series]; [intros [= <-]; by rewrite app_nil_r|].
  match goal with |- ((?m ≫= _) = _) -> _ => destruct m as [[agg order]|] eqn:Em end; [|done]. rewrite bind_Ok. rewrite agg_chunks_spec. destruct (read_chunks r (se_Chunks se)) as [cs|] eqn:Ecs; [|done]. rewrite bind_Ok. intros Hs.
  pose proof (agg_rep_add a es se (entry_samples r se) agg order Ha Em) as Ha'. unfold entry_samples in Ha' at 1. rewrite Ecs in Ha'. destruct (IH _ _ Ha' Hs) as (H1 & H2 & H3). split; [|by split]. rewrite fmap_cons. by rewrite <- app_assoc in H1.
Qed.
Definition all_entries (rs : list Reader) : list (SeriesEntry * list sample) := rs ≫= fun r => with_samples r <$> r_entries r.
Lemma agg_blocks_rep rs a es a' : agg_rep a es -> agg_blocks a rs = Ok a' -> agg_rep a' (es ++ all_entries rs) /\ ag_sources a' = ag_sources a ++ ((fun r => m_BlockID (r_meta r)) <$> rs).
Proof.
  revert a es. induction rs as [|r rs IH]; intros a es Ha; cbn [agg_blocks]; [intros [= <-]; by rewrite !app_nil_r|].
  destruct (agg_series r _ (r_entries r)) as [a1|] eqn:Es; [|done]. rewrite bind_Ok. intros Hb. apply (agg_series_rep r _ _ es) in Es as (H1 & _ & H3); [|destruct Ha as [A1 A2 A3 A4]; by split].
  destruct (IH _ _ H1 Hb) as [H4 H5]. unfold all_entries. rewrite bind_cons, app_assoc. split; [exact H4|]. rewrite H5, H3. cbn [ag_sources]. by rewrite fmap_cons, <- app_assoc.
Qed.
Lemma agg_rep_nil level : agg_rep (mkAggs ∅ [] level []) [].
Proof.
  split; cbn [aggByID ag_order]; [constructor|..]; intros i; rewrite lookup_empty; [split; [by intros ?%not_elem_of_nil|by intros [? ?]]|split; [by intros [? ?]|by intros (e & ?%not_elem_of_nil & _)]|done].
Qed.

(** ** What the merge writes *)

(** The series written, in order; one without samples is left out. *)
Definition merged_of (a : aggs) (order : list Z) : list SeriesChunks :=
  omap (fun i => agg ← aggByID a !! i;
          match rechunk (ag_samples agg) with [] => None | cs => Some (mkSC i (build (pairs_to_map (ag_labels agg))) (pair 0 <$> cs)) end) order.
Definition merged (a : aggs) : list SeriesChunks := merged_of a (ag_order a).
Lemma labelsToPairs_build ls : StronglySorted (str_key_lt bl_Name) ls -> labelsToPairs (build (pairs_to_map ls)) = ls.
Proof.
  intros Hs. apply (StronglySorted_strict_unique (str_key_lt bl_Name)); [intros x y; apply str_lt_asym|apply labelsToPairs_sorted, build_wf|done|].
  intros [n v]. rewrite <- !list_elem_of_In, elem_of_labelsToPairs, labels_Map_build. by apply pairs_to_map_lookup.
Qed.
Lemma pair_snd {A} (l : list A) : (pair 0 <$> l).*2 = l.
Proof. rewrite <- list_fmap_compose. by apply list_fmap_id. Qed.
Lemma add_merged_all w a order w' : (forall i, i ∈ order -> exists agg, aggByID a !! i = Some agg /\ StronglySorted (str_key_lt bl_Name) (ag_labels agg)) ->
  add_merged w a order = Ok w' -> add_all w (to_seriesData <$> merged_of a order) = Ok w'.
Proof.
  revert w. induction order as [|i order IH]; intros w Hk; cbn [add_merged]; [by intros [= <-]|]. destruct (Hk i) as (agg & Hagg & Hs); [by left|]. unfold merged_of. cbn [omap list_omap]. rewrite Hagg. cbn [mbind option_bind default from_option]. unfold id.
  assert (Hk' : forall j, j ∈ order -> exists agg, aggByID a !! j = Some agg /\ StronglySorted (str_key_lt bl_Name) (ag_labels agg)) by (intros j Hj; apply Hk; by right).
  destruct (rechunk (ag_samples agg)) as [|c cs]; [by apply IH|]. rewrite fmap_cons. cbn [add_all to_seriesData sd_id sd_labels sd_chunks sc_ID sc_Labels sc_Chunks]. rewrite pair_snd, labelsToPairs_build by done.
  destruct (AddSeries w i (ag_labels agg) (c :: cs)) as [w1|]; [|done]. rewrite bind_Ok. by apply IH.
Qed.
Lemma elem_of_merged a order sc : sc ∈ merged_of a order <-> exists i agg, i ∈ order /\ aggByID a !! i = Some agg /\ rechunk (ag_samples agg) <> [] /\ sc = mkSC i (build (pairs_to_map (ag_labels agg))) (pair 0 <$> rechunk (ag_samples agg)).
Proof.
  unfold merged_of. rewrite list_elem_of_omap. split.
  - intros (i & Hi & E). destruct (aggByID a !! i) as [agg|] eqn:Ei; [|done]. cbn [mbind option_bind] in E. exists i, agg. destruct (rechunk (ag_samples agg)); [done|]. injection E as <-. done.
  - intros (i & agg & Hi & E & Hne & ->). exists i. split; [done|]. rewrite E. cbn [mbind option_bind]. by destruct (rechunk (ag_samples agg)).
Qed.
Lemma merged_ids a order : NoDup order -> NoDup (sc_ID <$> merged_of a order) .
Proof.
  induction 1 as [|i order Hi Hnd IH]; [constructor|]. unfold merged_of. cbn [omap list_omap]. destruct (aggByID a !! i) as [agg|]; [|exact IH]. cbn [mbind option_bind]. destruct (rechunk (ag_samples agg)) as [|c cs]; [exact IH|]. rewrite fmap_cons. constructor; [|exact IH].
  intros (sc & E & (j & agg' & Hj & _ & _ & ->)%elem_of_merged)%list_elem_of_fmap. cbn in E. by subst j.
Qed.

Section sources.
Context (sources : list Reader) (Hgood : Forall block_good sources).

(** The entries gathered are those of the sources' databases. *)
Lemma all_entries_db e rs : (forall r, r ∈ rs -> r ∈ sources) -> e ∈ all_entries rs -> exists r l, r ∈ rs /\ e.1 ∈ r_entries r /\ labels_wf l /\ l = build (pairs_to_map (se_Labels e.1)) /\ Hash l = se_ID e.1 /\
  StronglySorted (str_key_lt bl_Name) (se_Labels e.1) /\ block_db r l = Some e.2 /\ Forall sample_valid e.2.
Proof.
  intros Hsub (r & (se & -> & Hse)%list_elem_of_fmap & Hr)%list_elem_of_bind. cbn [with_samples fst snd]. rewrite Forall_forall in Hgood. pose proof (Hgood r (Hsub r Hr)) as Hg.
  destruct (good_entry_at r (se_ID se) se Hg) as (l & cs & Hge & Hh & Hdb); [by apply (bg_byID r Hg)|]. exists r, l. pose proof (ge_sorted _ _ _ _ Hge) as Hs. destruct (blockPairsToLabels_spec _ _ Hs (ge_labels _ _ _ _ Hge)) as (El & _ & _).
  split_and!; try done; [apply (ge_wf _ _ _ _ Hge)|by rewrite (entry_db _ _ _ _ Hge)|]. rewrite (entry_db _ _ _ _ Hge). apply Forall_forall. intros x (c & Hx & Hc)%list_elem_of_bind. pose proof (ge_sound _ _ _ _ Hge) as HF. rewrite Forall_forall in HF.
  pose proof (sound_valid c (HF c Hc)) as HV. rewrite Forall_forall in HV. by apply HV.
Qed.
Section gathered.
Context (a : aggs) (Ha : agg_rep a (all_entries (by_minTime sources))).

Lemma ordered_in r : r ∈ by_minTime sources -> r ∈ sources.
Proof. unfold by_minTime. by rewrite SliceStable_perm. Qed.
Lemma agg_entry i agg : aggByID a !! i = Some agg -> exists l, labels_wf l /\ l = build (pairs_to_map (ag_labels agg)) /\ Hash l = i /\ StronglySorted (str_key_lt bl_Name) (ag_labels agg) /\ Forall sample_valid (ag_samples agg) /\
  (forall x, x ∈ ag_samples agg -> exists r, r ∈ sources /\ x ∈ default [] (block_db r l)) /\ exists r, r ∈ sources /\ is_Some (block_db r l).
Proof.
  intros Hi. destruct (proj1 (ar_known _ _ Ha i) (mk_is_Some _ _ Hi)) as (e & He & Ei). destruct (ar_agg _ _ Ha i agg Hi) as [H1 H2].
  assert (Hall : forall e', e' ∈ all_entries (by_minTime sources) -> se_ID e'.1 = i -> exists r, r ∈ sources /\ labels_wf (build (pairs_to_map (ag_labels agg))) /\ Hash (build (pairs_to_map (ag_labels agg))) = i /\ StronglySorted (str_key_lt bl_Name) (ag_labels agg) /\
    block_db r (build (pairs_to_map (ag_labels agg))) = Some e'.2 /\ Forall sample_valid e'.2).
  { intros e' He' Ei'. destruct (all_entries_db e' _ ordered_in He') as (r & l & Hr & _ & Hwf & El & Hh & Hs & Hdb & Hv). rewrite <- (H1 e' He' Ei') in *. rewrite <- El. exists r. split_and!; try done; [by apply ordered_in|congruence]. }
  exists (build (pairs_to_map (ag_labels agg))). destruct (Hall e He Ei) as (r & Hr & Hwf & Hh & Hs & Hdb & Hv). split_and!; try done.
  - apply Forall_forall. intros x (e' & He' & Ei' & Hx)%H2. destruct (Hall e' He' Ei') as (_ & _ & _ & _ & _ & _ & HV). rewrite Forall_forall in HV. by apply HV.
  - intros x (e' & He' & Ei' & Hx)%H2. destruct (Hall e' He' Ei') as (r' & Hr' & _ & _ & _ & Hdb' & _). exists r'. by rewrite Hdb'.
  - exists r. by rewrite Hdb.
Qed.
Lemma merged_ready : block_fits (to_seriesData <$> merged a) -> Z.of_nat (length ((to_seriesData <$> merged a) ≫= series_samples)) <= MaxInt64 -> batch_ready (merged a).
Proof.
  intros H1 H2. split; [apply merged_ids, (ar_nodup _ _ Ha)| |done|done]. apply Forall_forall. intros sc (i & agg & _ & Hi & _ & ->)%elem_of_merged. destruct (agg_entry i agg Hi) as (l & Hwf & -> & Hh & _). done.
Qed.
Lemma merged_ships : Forall (fun sd => Forall ships (sd_chunks sd)) (to_seriesData <$> merged a).
Proof.
  apply Forall_fmap, Forall_forall. intros sc (i & agg & _ & Hi & _ & ->)%elem_of_merged. destruct (agg_entry i agg Hi) as (_ & _ & _ & _ & _ & Hv & _). cbn. rewrite pair_snd.
  eapply Forall_impl; [apply (rechunk_ok _ Hv)|]. intros c. apply chunk_ok_ships.
Qed.
(** What is written was in a source. *)
Lemma merged_in_sources l : (is_Some (ingest_db (merged a) l) -> exists r, r ∈ sources /\ is_Some (block_db r l)) /\ forall x, x ∈ snapshot_samples (merged a) l -> exists r, r ∈ sources /\ x ∈ default [] (block_db r l).
Proof.
  assert (Hsc : forall sc, sc ∈ merged a -> (exists r, r ∈ sources /\ is_Some (block_db r (sc_Labels sc))) /\ forall rc x, rc ∈ sc_Chunks sc -> x ∈ samples_of rc.2 -> exists r, r ∈ sources /\ x ∈ default [] (block_db r (sc_Labels sc))).
  { intros sc (i & agg & _ & Hi & _ & ->)%elem_of_merged. destruct (agg_entry i agg Hi) as (l' & _ & -> & _ & _ & Hv & Hin & Hex). cbn [sc_Labels sc_Chunks]. split; [done|]. intros rc x (c & -> & Hc)%list_elem_of_fmap Hx. apply Hin.
    apply list_elem_of_In, sortAndDedup_incl, list_elem_of_In. rewrite <- (proj2 (rechunk_ok _ Hv)). apply list_elem_of_bind. by exists c. }
  split.
  - unfold ingest_db. destruct (decide _) as [(sc & -> & Hin)%list_elem_of_fmap|]; [intros _; by apply Hsc|by intros [? ?]].
  - intros x (sc & rc & Hin & <- & Hrc & Hx)%elem_of_snapshot_samples. by apply (proj2 (Hsc sc Hin) rc).
Qed.
End gathered.
End sources.

(** The sizes a merge keeps to. *)
Definition merge_fits (sources : list Reader) : Prop := forall a, agg_blocks (mkAggs ∅ [] 0 []) (by_minTime sources) = Ok a ->
  block_fits (to_seriesData <$> merged a) /\ Z.of_nat (length ((to_seriesData <$> merged a) ≫= series_samples)) <= MaxInt64.
Lemma Compact_ok io sources blocks res blocks' : Forall block_good sources -> merge_fits sources -> Compact io sources blocks = (res, blocks') ->
  (forall x d, blocks !! x = Some d -> blocks' !! x = Some d) /\ (forall x, io_id io <> Some x -> blocks' !! x = blocks !! x) /\
  match res with
  | Err _ => True
  | Ok meta => exists id t a w r, io_id io = Some id /\ blocks !! id = None /\ blocks' = <[id := commit_dir w (io_now io)]> blocks /\ agg_rep a (all_entries (by_minTime sources)) /\ batch_ready (merged a) /\
      written (merged a) t id (io_now io) w r /\ meta = r_meta r /\ m_Sources (r_meta r) = (fun r => m_BlockID (r_meta r)) <$> by_minTime sources /\ (2 <= length sources)%nat
  end.
Proof.
  intros Hgood Hfits. unfold Compact. destruct sources as [|first [|second rest]]; [by intros [= <- <-]..|]. set (sources := first :: second :: rest) in *.
  destruct (check_tenants _ _) as [[]|]; [|by intros [= <- <-]]. rewrite bind_Ok. destruct (agg_blocks _ _) as [a|] eqn:Ea; [|by intros [= <- <-]]. destruct (io_id io) as [id|] eqn:Eid; [|by intros [= <- <-]].
  destruct (add_merged _ a _) as [w|] eqn:Ew; [|by intros [= <- <-]]. destruct (Hfits a Ea) as [Hf Hc]. apply (agg_blocks_rep _ _ [] _ (agg_rep_nil 0)) in Ea as [Hrep Hsrc]. cbn [app ag_sources] in Hrep, Hsrc.
  apply add_merged_all in Ew. 2:{ intros i [agg Hi]%(ar_order _ _ Hrep). exists agg. split; [done|]. destruct (agg_entry sources Hgood a Hrep i agg Hi) as (_ & _ & _ & _ & Hs & _). exact Hs. }
  pose proof (merged_ready sources Hgood a Hrep Hf Hc) as Hb. destruct (batch_written _ _ _ _ _ (io_now io) w Hb Ew) as (r & Hr & Es & Hopen & Hid). unfold Commit. rewrite Hopen, Hid. cbn [negb].
  destruct (blocks !! id) as [d|] eqn:Enew; [destruct (io_commit io) as [[]|]; by intros [= <- <-]|].
  assert (Hins : (forall x d, blocks !! x = Some d -> <[id := commit_dir w (io_now io)]> blocks !! x = Some d) /\ (forall x, Some id <> Some x -> <[id := commit_dir w (io_now io)]> blocks !! x = blocks !! x)).
  { split; intros x; [intros d Hx|intros Hx]; rewrite lookup_insert_ne by congruence; done. }
  destruct (io_commit io) as [[]|]; [by intros [= <- <-]|intros [= <- <-]; split_and!; try done; apply Hins|]. intros [= <- <-]. split; [apply Hins|]. split; [apply Hins|].
  exists id, (m_Tenant (r_meta first)), a, w, r. split_and!; try done; [symmetry; apply (wt_commit _ _ _ _ _ _ Hr)|by rewrite Es, Hsrc|cbn; lia].
Qed.

(** ** Retiring keeps everything until all is moved *)

Notation block_id r := (m_BlockID (r_meta r)).
(** Where a block's directory can be found again. *)
Definition held_in (st : bstate) (x : string) (d : blockDir) : Prop := b_blockDir st !! x = Some d \/ b_tmpDir st !! x = Some d.
Record moving (ids : list string) (st st' : bstate) : Prop := {
  mv_mem : b_mem st' = b_mem st;
  mv_blocks : b_blocks st' = b_blocks st;
  mv_others : forall x, x ∉ ids -> b_blockDir st' !! x = b_blockDir st !! x /\ b_tmpDir st' !! x = b_tmpDir st !! x;
  mv_held : forall x d, b_blockDir st !! x = Some d -> held_in st' x d }.
Lemma moving_refl ids st : moving ids st st.
Proof. split; [done|done|done|]. intros x d Hx. by left. Qed.
(** Moved away: gone from [blocks/], whole in [tmp/]. *)
Definition away (st0 st : bstate) (x : string) : Prop := b_blockDir st !! x = None /\ exists d, b_blockDir st0 !! x = Some d /\ b_tmpDir st !! x = Some d.
Lemma move_back_moving io ids moved st0 st : (forall i, i ∈ moved -> i ∈ ids /\ away st0 st i) -> moving ids st0 st -> NoDup moved -> moving ids st0 (fold_left (move_back io) moved st).
Proof.
  intros Haw Hm Hnd. revert st Haw Hm. induction Hnd as [|i moved Hi Hnd IH]; intros st Haw Hm; cbn [fold_left]; [done|]. destruct (Haw i) as (Hii & Hb & d & Hd0 & Hdt); [by left|].
  assert (Haw' : forall j, j ∈ moved -> j ∈ ids /\ away st0 st j) by (intros j Hj; apply Haw; by right). unfold move_back at 2. rewrite Hdt. destruct (ri_back io i); [by apply IH|]. destruct Hm as [M1 M2 M3 M4]. apply IH.
  - intros j Hj. destruct (Haw' j Hj) as (Hjj & Hjb & d' & Hj0 & Hjt). split; [done|]. assert (j <> i) by congruence. split; cbn [b_blockDir b_tmpDir set_dirs]; [by rewrite lookup_insert_ne|]. exists d'. by rewrite lookup_delete_ne.
  - split; cbn [b_mem b_blocks set_dirs]; [done|done| |].
    + intros x Hx. cbn [b_blockDir b_tmpDir set_dirs]. rewrite lookup_insert_ne, lookup_delete_ne by (intros ->; done). by apply M3.
    + intros x d' Hx. unfold held_in. cbn [b_blockDir b_tmpDir set_dirs]. destruct (decide (x = i)) as [->|Hne]; [left; rewrite lookup_insert_eq; congruence|]. rewrite lookup_insert_ne, lookup_delete_ne by done. by apply M4.
Qed.
Record staged (ids moved : list string) (st0 st : bstate) : Prop := {
  sg_moving : moving ids st0 st;
  sg_kept : forall x d, b_blockDir st !! x = Some d -> b_blockDir st0 !! x = Some d;
  sg_gone : forall x, b_blockDir st !! x = None -> b_blockDir st0 !! x = None \/ x ∈ moved;
  sg_away : forall x, x ∈ moved -> x ∈ ids /\ away st0 st x;
  sg_nodup : NoDup moved }.
Lemma staged_clear ids moved st0 st i d : i ∈ ids -> staged ids moved st0 st -> b_blockDir st !! i = Some d -> staged ids moved st0 (set_dirs (b_blockDir st) (delete i (b_tmpDir st)) st).
Proof.
  intros Hi [[M1 M2 M3 M4] S2 S3 S4 S5] Hd. assert (Hni : i ∉ moved) by (intros Hin; destruct (S4 i Hin) as (_ & E & _); congruence). split; [|done|done| |done].
  - split; cbn [b_mem b_blocks set_dirs]; [done|done| |]; unfold held_in; cbn [b_blockDir b_tmpDir set_dirs].
    + intros x Hx. rewrite lookup_delete_ne by (intros ->; done). by apply M3.
    + intros x d' Hx. destruct (decide (x = i)) as [->|Hne]; [left; pose proof (S2 _ _ Hd); congruence|]. rewrite lookup_delete_ne by done. by apply M4.
  - intros x Hx. destruct (S4 x Hx) as (Hxi & Hb & d' & H0 & Ht). split; [done|]. split; [done|]. exists d'. cbn [b_tmpDir set_dirs]. rewrite lookup_delete_ne by congruence. done.
Qed.
Lemma staged_move ids moved st0 st i d : i ∈ ids -> staged ids moved st0 st -> b_blockDir st !! i = Some d -> staged ids (moved ++ [i]) st0 (set_dirs (delete i (b_blockDir st)) (<[i := d]> (delete i (b_tmpDir st))) st).
Proof.
  intros Hi [[M1 M2 M3 M4] S2 S3 S4 S5] Hd. assert (Hni : i ∉ moved) by (intros Hin; destruct (S4 i Hin) as (_ & E & _); congruence). pose proof (S2 _ _ Hd) as Hd0. split.
  - split; cbn [b_mem b_blocks set_dirs]; [done|done| |]; unfold held_in; cbn [b_blockDir b_tmpDir set_dirs]; intros x.
    + intros Hx. assert (i <> x) by (intros ->; done). rewrite lookup_delete_ne, lookup_insert_ne, lookup_delete_ne by done. by apply M3.
    + intros d' Hx. destruct (decide (x = i)) as [->|Hne]; [right; rewrite lookup_insert_eq; congruence|]. rewrite lookup_delete_ne, lookup_insert_ne, lookup_delete_ne by done. by apply M4.
  - intros x d'. cbn [b_blockDir set_dirs]. intros [_ Hx]%lookup_delete_Some. by apply S2.
  - intros x. cbn [b_blockDir set_dirs]. destruct (decide (x = i)) as [->|Hne]; [intros _; right; apply elem_of_app; right; by left|]. rewrite lookup_delete_ne by done. intros Hx.
    destruct (S3 x Hx) as [?|?]; [by left|right; apply elem_of_app; by left].
  - intros x [Hx| ->%list_elem_of_singleton]%elem_of_app.
    + destruct (S4 x Hx) as (Hxi & Hb & d' & H0 & Ht). assert (i <> x) by congruence. split; [done|]. split; cbn [b_blockDir b_tmpDir set_dirs]; [by rewrite lookup_delete_ne|]. exists d'. by rewrite lookup_insert_ne, lookup_delete_ne.
    + split; [done|]. split; cbn [b_blockDir b_tmpDir set_dirs]; [apply lookup_delete_eq|]. exists d. by rewrite lookup_insert_eq.
  - apply NoDup_app. split_and!; [done| |apply NoDup_singleton]. by intros x Hx ->%list_elem_of_singleton.
Qed.
Lemma retire_move_spec io ids0 ids moved st0 st : (forall i, i ∈ ids -> i ∈ ids0) -> staged ids0 moved st0 st ->
  match retire_move io moved ids st with
  | Err st' => moving ids0 st0 st'
  | Ok (moved', st') => staged ids0 moved' st0 st' /\ (forall i, i ∈ ids -> b_blockDir st' !! i = None) /\ forall x, b_blockDir st !! x = None -> b_blockDir st' !! x = None
  end.
Proof.
  revert moved st. induction ids as [|i ids IH]; intros moved st Hsub Hs; cbn [retire_move]; [split_and!; [done|by intros i ?%not_elem_of_nil|done]|].
  assert (Hii : i ∈ ids0) by (apply Hsub; by left). assert (Hsub' : forall j, j ∈ ids -> j ∈ ids0) by (intros j Hj; apply Hsub; by right). destruct (b_blockDir st !! i) as [d|] eqn:Ei.
  - pose proof (staged_clear _ _ _ _ i d Hii Hs Ei) as Hc. destruct (ri_move io i).
    + destruct Hc as [C1 C2 C3 C4 C5]. by apply move_back_moving.
    + specialize (IH _ _ Hsub' (staged_move _ _ _ _ i d Hii Hs Ei)). destruct (retire_move _ _ ids _) as [[moved' st']|st']; [|done]. destruct IH as (H1 & H2 & H3).
      assert (Hdel : forall x, b_blockDir st !! x = None \/ x = i -> b_blockDir st' !! x = None) by (intros x Hx; apply H3; cbn [b_blockDir set_dirs]; destruct (decide (x = i)) as [->|Hne]; [apply lookup_delete_eq|rewrite lookup_delete_ne by done; by destruct Hx]).
      split_and!; [done| |intros x Hx; apply Hdel; by left]. intros j [->|Hj]%elem_of_cons; [apply Hdel; by right|by apply H2].
  - specialize (IH _ _ Hsub' Hs). destruct (retire_move _ _ ids _) as [[moved' st']|st']; [|done]. destruct IH as (H1 & H2 & H3). split_and!; [done| |done]. intros j [->|Hj]%elem_of_cons; [by apply H3|by apply H2].
Qed.
Lemma retireBlocks_spec io ids st : let '(allMoved, failed, st') := retireBlocks io ids st in
  b_mem st' = b_mem st /\ b_blocks st' = b_blocks st /\ (forall x, x ∉ ids -> b_blockDir st' !! x = b_blockDir st !! x /\ b_tmpDir st' !! x = b_tmpDir st !! x) /\
  (if (allMoved : bool) then forall i, i ∈ ids -> b_blockDir st' !! i = None else failed = true /\ forall x d, b_blockDir st !! x = Some d -> held_in st' x d).
Proof.
  unfold retireBlocks. assert (Hs : staged ids [] st st) by (split; [apply moving_refl|done|by left|by intros x ?%not_elem_of_nil|constructor]).
  pose proof (retire_move_spec io ids ids [] st st (fun _ H => H) Hs) as H. destruct (retire_move io [] ids st) as [[moved st1]|st1]; [|destruct H as [M1 M2 M3 M4]; by split_and!].
  destruct H as ([[M1 M2 M3 M4] _ _ S4 _] & H2 & _). assert (Hmoved : forall i, i ∈ moved -> i ∈ ids) by (intros i Hi; by apply S4). clear S4 M4.
  revert st1 M1 M2 M3 H2. induction moved as [|i moved IH]; intros st1 M1 M2 M3 H2; cbn [fold_left]; [by split_and!|].
  assert (Hmoved' : forall j, j ∈ moved -> j ∈ ids) by (intros j Hj; apply Hmoved; by right). specialize (IH Hmoved'). destruct (ri_remove io i); [by apply IH|]. apply IH; try done.
  intros x Hx. cbn [b_blockDir b_tmpDir set_dirs]. rewrite lookup_delete_ne by (intros ->; apply Hx, Hmoved; by left). by apply M3.
Qed.

(** ** Replacing the sources *)

Lemma readerByID_in blocks id r : readerByID blocks id = Some r -> r ∈ blocks /\ block_id r = id.
Proof. unfold readerByID. intros [Hin E%String.eqb_eq]%find_some. split; [by apply list_elem_of_In|done]. Qed.
Lemma check_sources_ok gens id att sources : check_sources gens id att sources = Ok tt -> forall src, src ∈ sources -> survivorSupersedesSource gens id src att = Ok true.
Proof.
  induction sources as [|s sources IH]; cbn [check_sources]; [by intros _ src ?%not_elem_of_nil|]. destruct (survivorSupersedesSource _ _ s _) as [[]|] eqn:E; [|done..]. intros H src [->|Hin]%elem_of_cons; [done|by apply IH].
Qed.
(** A merged block that passes every check is good, covers each source and is on disk as it is served. *)
Record merge_checked (id : string) (d : blockDir) (sources : list Reader) (r : Reader) : Prop := {
  mc_good : block_good r;
  mc_figures : figures_true r;
  mc_id : block_id r = id;
  mc_serves : serves d r;
  mc_covers : (forall src, src ∈ sources -> no_collision [block_db r; block_db src]) -> forall src, src ∈ sources -> db_covered (block_db src) (block_db r);
  mc_open : exists r0, open_block id d = Ok r0 /\ same_files r0 r }.
Lemma check_compacted_ok id d sources r : dir_ok d -> Forall block_good sources -> check_compacted id d sources = Ok r -> merge_checked id d sources r.
Proof.
  intros Hd Hgood. unfold check_compacted. destruct (open_block id d) as [r0|] eqn:Eo; [|done]. cbn [lift_once]. rewrite bind_Ok. destruct (validateBlockChunks r0) as [st|] eqn:Es; [|done]. cbn [lift_once]. rewrite bind_Ok.
  destruct (Z.eqb_spec (bcs_maxGen st) (m_MaxGen (r_meta r0))) as [Eg|]; [|done]. cbn [negb]. destruct (reconcileBlockMeta r0 st) as [r1|] eqn:Er; [|done]. cbn [lift_once]. rewrite bind_Ok.
  destruct (decodeBlockGens r1) as [gens|] eqn:Ed; [|done]. destruct (check_sources _ _ _ _) as [[]|] eqn:Ec; [|done]. rewrite bind_Ok. intros [= <-].
  pose proof Eo as (Hopen & Hv & _)%open_block_ok. destruct (OpenReader_opened _ _ _ Hd Hopen) as (Hop & _ & Hid & _).
  assert (Hdeep : deep_check r0 = Ok (r1, bcs_maxGen st)).
  { unfold deep_check. rewrite Es. cbn [lift_block]. rewrite bind_Ok, Er. cbn [lift_block]. rewrite bind_Ok. apply reconcile_ok in Er. destruct (if bcs_hasSamples st then _ else _) as [mn mx]. cbn zeta in Er.
    assert (E : m_MaxGen (r_meta r1) = bcs_maxGen st) by (by rewrite Er). rewrite E, Z.eqb_refl. cbn [negb]. by rewrite andb_false_r. }
  destruct (deep_check_spec r0 r1 _ Hop Hv Hdeep) as (H1 & H2 & H3 & _ & _ & E1). split; try done.
  - by rewrite (proj1 E1).
  - exists r0, r1, (bcs_maxGen st). destruct E1 as (E1 & _ & E2 & _). rewrite E1, E2, Hid. split_and!; [done|done|by split|done].
  - intros Hnc src Hsrc. eapply supersedes_covers; [done| |by apply Hnc|exact Ed|by eapply check_sources_ok]. rewrite Forall_forall in Hgood. by apply Hgood.
  - by exists r0.
Qed.
Lemma blocks_covered d bl D : db_covered d D -> (forall r, r ∈ bl -> db_covered (block_db r) D) -> db_covered (blocks_db d bl) D.
Proof.
  revert d. induction bl as [|r bl IH]; intros d Hd Hr; cbn [blocks_db fold_left]; [done|]. apply IH; [|intros x Hx; apply Hr; by right]. apply db_covered_union; [done|apply Hr; by left].
Qed.
Lemma covered_head d bl : db_covered d (blocks_db d bl).
Proof. intros l. split; [intros H; apply blocks_db_some; exists d; split; [by left|done]|]. apply dominated_incl. intros x Hx. apply blocks_db_samples. by left. Qed.
Lemma covered_block d bl r : r ∈ bl -> db_covered (block_db r) (blocks_db d bl).
Proof. intros Hr l. split; [intros H; apply blocks_db_some; exists (block_db r); split; [right; by apply list_elem_of_fmap_2|done]|]. apply dominated_incl. intros x Hx. apply blocks_db_samples. right. by exists r. Qed.

(** The store after the swap, before the sources are retired. *)
Section swap.
Context (st : bstate) (group : list string) (sources : list Reader) (r : Reader).
Context (Hst : store_ok st) (Hsrc : forall x, x ∈ sources <-> x ∈ b_blocks st /\ block_id x ∈ group) (Hr : block_good r).
Context (Hin : forall l, (is_Some (block_db r l) -> exists s, s ∈ sources /\ is_Some (block_db s l)) /\ forall x, x ∈ default [] (block_db r l) -> exists s, s ∈ sources /\ x ∈ default [] (block_db s l)).
Context (Hcov : (forall src, src ∈ sources -> no_collision [block_db r; block_db src]) -> forall src, src ∈ sources -> db_covered (block_db src) (block_db r)).
Notation kept := (filter (fun x => block_id x ∉ group) (b_blocks st)).

Lemma swap_collision : no_collision (block_db r :: store_db (b_mem st) :: (block_db <$> b_blocks st)).
Proof.
  eapply no_collision_covered; [|exact (bo_clash _ (sk_bs _ Hst))]. cbn [b_store bs_mem bs_blocks]. intros d l [->|Hd]%elem_of_cons Hl; [|by exists d].
  destruct (proj1 (Hin l) Hl) as (s & [Hs _]%Hsrc & Hsl). exists (block_db s). split; [right; by apply list_elem_of_fmap_2|done].
Qed.
Lemma swap_equiv : db_equiv (blocks_db (store_db (b_mem st)) (kept ++ [r])) (blocks_db (store_db (b_mem st)) (b_blocks st)).
Proof.
  assert (Hc : forall src, src ∈ sources -> db_covered (block_db src) (block_db r)).
  { apply Hcov. intros src Hs. eapply no_collision_sub; [|exact swap_collision]. intros d [->|[->|[]%not_elem_of_nil]%elem_of_cons]%elem_of_cons; [by left|]. apply Hsrc in Hs as [Hs _]. right; right. by apply list_elem_of_fmap_2. }
  apply db_covered_antisym; apply blocks_covered; try apply covered_head.
  - intros x [[_ Hx]%list_elem_of_filter| ->%list_elem_of_singleton]%elem_of_app; [by apply covered_block|]. intros l. destruct (Hin l) as [H1 H2]. split.
    + intros Hl. destruct (H1 Hl) as (s & [Hs _]%Hsrc & Hsl). by apply (covered_block _ _ _ Hs).
    + apply dominated_incl. intros y Hy. destruct (H2 y Hy) as (s & [Hs _]%Hsrc & Hsy). apply blocks_db_samples. right. by exists s.
  - intros x Hx. destruct (decide (block_id x ∈ group)) as [Hg|Hg]; [etransitivity; [apply Hc, Hsrc; by split|]|]; apply covered_block, elem_of_app; [right; by left|left; by apply list_elem_of_filter].
Qed.
End swap.

Lemma group_sources st group sources : store_ok st -> mapM (readerByID (b_blocks st)) group = Some sources -> (forall x, x ∈ sources <-> x ∈ b_blocks st /\ block_id x ∈ group) /\ (fun x => block_id x) <$> sources = group.
Proof.
  intros Hst HM%mapM_Some. assert (E : (fun x => block_id x) <$> sources = group).
  { induction HM as [|i s group sources Hs _ IH]; [done|]. rewrite fmap_cons, IH. f_equal. by apply readerByID_in in Hs as [_ ?]. }
  split; [|exact E]. intros x. split.
  - intros [k Hk]%list_elem_of_lookup. destruct (Forall2_lookup_r _ _ _ _ _ HM Hk) as (i & Hi%list_elem_of_lookup_2 & Hx). apply readerByID_in in Hx as [Hx <-]. by split.
  - intros [Hx [k Hk]%list_elem_of_lookup]. destruct (Forall2_lookup_l _ _ _ _ _ HM Hk) as (s & Hs%list_elem_of_lookup_2 & Hf). apply readerByID_in in Hf as [Hf E']. assert (s = x) as ->; [|done]. by apply (NoDup_fmap_same (fun x => block_id x) (b_blocks st)); [apply (sk_ids _ Hst)|..].
Qed.

(** What a step of compaction may change: directories of other blocks stay, and
    queries see the same. *)
Record same_reads (group : list string) (st st' : bstate) : Prop := {
  sr_ok : store_ok st';
  sr_equiv : db_equiv (bs_db (b_store st')) (bs_db (b_store st));
  sr_mem : b_mem st' = b_mem st;
  sr_dirs : forall x d, x ∉ group -> b_blockDir st !! x = Some d -> b_blockDir st' !! x = Some d }.
Lemma same_reads_dirs group st blocks tmp : store_ok st -> (forall x d, b_blockDir st !! x = Some d -> blocks !! x = Some d) -> same_reads group st (set_dirs blocks tmp st).
Proof.
  intros [S1 S2 S3 S4] Hb. split; [|reflexivity|done|intros x d _; apply Hb]. split; [exact S1|exact S2|exact S3|]. cbn [b_blocks b_blockDir set_dirs]. eapply Forall_impl; [exact S4|]. intros r (d & Hd & Hs). exists d. split; [by apply Hb|done].
Qed.
Lemma safeDelete_fresh fault id d st blocks : b_blockDir st !! id = None -> blocks = <[id := d]> (b_blockDir st) -> exists blocks' tmp', (safeDeleteBlock fault id (set_dirs blocks (b_tmpDir st) st)).2 = set_dirs blocks' tmp' st /\ forall x dx, b_blockDir st !! x = Some dx -> blocks' !! x = Some dx.
Proof.
  intros Hn ->. unfold safeDeleteBlock. cbn [b_blockDir b_tmpDir set_dirs]. rewrite lookup_insert_eq. destruct fault as [[]|]; cbn [snd]; eexists _, _; (split; [reflexivity|]); intros x dx Hx; rewrite ?lookup_delete_ne, ?lookup_insert_ne by congruence; done.
Qed.
Lemma filter_shorter {A} (P : A -> Prop) `{!forall x, Decision (P x)} (l : list A) : (length (filter P l) + length (filter (fun x => ~ P x) l) = length l)%nat.
Proof. induction l as [|x l IH]; [done|]. rewrite !filter_cons. destruct (decide (P x)); [rewrite decide_False by tauto|rewrite decide_True by done]; cbn [length]; lia. Qed.

Lemma compact_group_spec io rio group st res st' : store_ok st -> (forall sources, mapM (readerByID (b_blocks st)) group = Some sources -> merge_fits sources) -> compact_group io rio group st = (res, st') ->
  same_reads group st st' /\ (res = Ok false -> st' = st) /\ (NoDup group -> (length (b_blocks st') <= length (b_blocks st))%nat /\ (res = Ok true -> (length (b_blocks st') < length (b_blocks st))%nat)).
Proof.
  intros Hst Hfits. assert (Hrefl : same_reads group st st) by (by split). unfold compact_group. destruct (Nat.ltb_spec (length group) 2) as [|Hlen]; [by intros [= <- <-]|].
  destruct (mapM _ group) as [sources|] eqn:EM; [|by intros [= <- <-]]. destruct (group_sources st group sources Hst EM) as [Hsrc Hids]. pose proof (Hfits sources eq_refl) as Hfit. clear Hfits.
  assert (Hgood : Forall block_good sources).
  { apply Forall_forall. intros s [Hs _]%Hsrc. pose proof (bo_blocks _ (sk_bs _ Hst)) as HF. rewrite Forall_forall in HF. by apply HF. }
  destruct (Compact io sources (b_blockDir st)) as [rc blocks] eqn:EC. destruct (Compact_ok _ _ _ _ _ Hgood Hfit EC) as (Hkeep & _ & Hrc). destruct rc as [meta|e]; [|intros [= <- <-]; split_and!; [by apply same_reads_dirs|done|done]].
  destruct Hrc as (id & t & a & w & r0 & Eid & Enew & -> & Hrep & Hb & Hw & -> & _ & _). rewrite (wt_id _ _ _ _ _ _ Hw), lookup_insert_eq. change (default ?e (?f <$> Some ?d)) with (f d). cbv beta.
  destruct (check_compacted id _ sources) as [r|e] eqn:Ecc.
  2:{ intros [= <- <-]. destruct (safeDelete_fresh (io_delete io) id (commit_dir w (io_now io)) st _ Enew eq_refl) as (blocks' & tmp' & -> & Hk). split_and!; [by apply same_reads_dirs|done|done]. }
  destruct (check_compacted_ok _ _ _ _ (wt_dir _ _ _ _ _ _ Hw) Hgood Ecc) as [C1 C2 C3 C4 C5 (r1 & Ho & Hsame)].
  assert (r1 = r0) as -> by (apply open_block_ok in Ho as (Ho & _); pose proof (wt_open _ _ _ _ _ _ Hw); congruence).
  assert (Hv : validateBlockSeries r0 = Ok tt) by (by apply open_block_ok in Ho as (_ & ? & _)). destruct (written_good _ _ _ _ _ _ Hb Hw Hv) as (_ & _ & _ & Hdb).
  assert (Hin : forall l, (is_Some (block_db r l) -> exists s, s ∈ sources /\ is_Some (block_db s l)) /\ forall x, x ∈ default [] (block_db r l) -> exists s, s ∈ sources /\ x ∈ default [] (block_db s l)).
  { intros l. rewrite (same_block_db r0 r l Hsame), Hdb. destruct (merged_in_sources sources Hgood a Hrep l) as [M1 M2]. split; [done|]. intros x Hx%ingest_db_samples. by apply M2. }
  set (st1 := set_dirs (<[id:=commit_dir w (io_now io)]> (b_blockDir st)) (b_tmpDir st) st). pose proof (retireBlocks_spec rio (removed_ids group st1) (swap_blocks group r st1)) as HR. destruct (retireBlocks _ _ _) as [[allMoved failed] st2].
  destruct HR as (R1 & R2 & R3 & _). cbn [swap_blocks b_mem b_blocks st1 set_dirs b_blockDir b_tmpDir] in R1, R2, R3.
  assert (Hrem : forall x, x ∉ group -> x ∉ removed_ids group st1) by (intros x Hx (y & -> & [Hy _]%list_elem_of_filter)%list_elem_of_fmap; done).
  assert (Hlive : forall x, x ∈ b_blocks st -> exists d, b_blockDir st !! block_id x = Some d /\ serves d x) by (intros x Hx; pose proof (sk_disk _ Hst) as HF; rewrite Forall_forall in HF; by apply HF).
  assert (Hidg : id ∉ group).
  { intros Hg. rewrite <- Hids in Hg. apply list_elem_of_fmap in Hg as (s & -> & [Hs _]%Hsrc). destruct (Hlive s Hs) as (d & Hd & _). congruence. }
  assert (Hdirs : forall x d, x ∉ group -> b_blockDir st !! x = Some d -> b_blockDir st2 !! x = Some d).
  { intros x d Hx Hd. rewrite (proj1 (R3 x (Hrem x Hx))). by apply Hkeep. }
  assert (Hok : same_reads group st st2).
  { split; [split| |exact R1|exact Hdirs].
    - split; cbn [b_store bs_mem bs_blocks]; rewrite ?R1, ?R2.
      + apply (bo_mem _ (sk_bs _ Hst)).
      + apply Forall_app. split; [|by apply Forall_singleton]. apply Forall_forall. intros x [_ Hx]%list_elem_of_filter. pose proof (bo_blocks _ (sk_bs _ Hst)) as HF. rewrite Forall_forall in HF. by apply HF.
      + eapply no_collision_sub; [|exact (swap_collision st group sources r Hst Hsrc Hin)]. intros d [->|(x & -> & [[_ Hx]%list_elem_of_filter| ->%list_elem_of_singleton]%elem_of_app)%list_elem_of_fmap]%elem_of_cons; [right; by left|right; right; by apply list_elem_of_fmap_2|by left].
    - rewrite R2, fmap_app. apply NoDup_app. split_and!; [|intros i (x & -> & [_ Hx]%list_elem_of_filter)%list_elem_of_fmap E%list_elem_of_singleton|apply NoDup_singleton].
      + eapply sublist_NoDup; [apply (sk_ids _ Hst)|]. apply fmap_sublist, sublist_filter.
      + destruct (Hlive x Hx) as (d & Hd & _). congruence.
    - rewrite R2. apply Forall_app. split; [|by apply Forall_singleton]. apply Forall_forall. intros x [_ Hx]%list_elem_of_filter. pose proof (sk_figures _ Hst) as HF. rewrite Forall_forall in HF. by apply HF.
    - rewrite R2. apply Forall_app. split.
      + apply Forall_forall. intros x [Hg Hx]%list_elem_of_filter. destruct (Hlive x Hx) as (d & Hd & Hs). exists d. split; [by apply Hdirs|done].
      + apply Forall_singleton. exists (commit_dir w (io_now io)). rewrite C3. split; [|done]. by rewrite (proj1 (R3 id (Hrem id Hidg))), lookup_insert_eq.
    - unfold bs_db. cbn [b_store bs_mem bs_blocks]. rewrite R1, R2. exact (swap_equiv st group sources r Hst Hsrc Hin C5). }
  assert (Hshort : NoDup group -> (length (b_blocks st2) < length (b_blocks st))%nat); [|destruct failed; intros [= <- <-]; (split_and!; [exact Hok|done|]); intros Hnd; specialize (Hshort Hnd); split; (done || lia)].
  intros Hnd. rewrite R2, length_app. cbn [length].
  assert (Hsub : (2 <= length (filter (fun x => ~ (block_id x ∉ group)) (b_blocks st)))%nat).
  { rewrite <- (length_fmap (fun x => block_id x)). etransitivity; [exact Hlen|]. apply submseteq_length, NoDup_submseteq; [done|]. intros i Hi. rewrite <- Hids in Hi. apply list_elem_of_fmap in Hi as (s & -> & [Hs Hg]%Hsrc). apply (list_elem_of_fmap_2 (fun x => block_id x)). apply list_elem_of_filter. split; [tauto|done]. }
  pose proof (filter_shorter (fun x => block_id x ∉ group) (b_blocks st)). lia.
Qed.

(** ** A pass *)

(** Every merge the pass attempts keeps to the sizes. *)
Fixpoint groups_fit (ios : nat -> write_io) (rios : nat -> retire_io) (i : nat) (groups : list (list string)) (st : bstate) : Prop :=
  match groups with
  | [] => True
  | g :: rest => (forall sources, mapM (readerByID (b_blocks st)) g = Some sources -> merge_fits sources) /\
      match compact_group (ios i) (rios i) g st with (Ok _, st) => groups_fit ios rios (S i) rest st | (Err _, _) => True end
  end.
Lemma compact_groups_spec ios rios i n groups st n' e st' : store_ok st -> groups_fit ios rios i groups st -> compact_groups ios rios i n groups st = (n', e, st') ->
  same_reads (concat groups) st st' /\ n <= n' /\ (Forall (fun g => NoDup g) groups -> (length (b_blocks st') <= length (b_blocks st))%nat /\ (n < n' -> (length (b_blocks st') < length (b_blocks st))%nat)).
Proof.
  revert i n st. induction groups as [|g groups IH]; intros i n st Hst Hfit; cbn [compact_groups]; [intros [= <- <- <-]; split_and!; [by split|lia|intros _; lia]|].
  destruct Hfit as [Hf1 Hf2]. destruct (compact_group (ios i) (rios i) g st) as [[done_|err] st1] eqn:Eg; destruct (compact_group_spec _ _ _ _ _ _ Hst Hf1 Eg) as ([S1 S2 S3 S4] & _ & Hlen).
  - intros Hrest. destruct (IH _ _ _ S1 Hf2 Hrest) as ([T1 T2 T3 T4] & Hle & Hlen'). cbn [concat].
    assert (Hr : same_reads (g ++ concat groups) st st').
    { split; [done|by rewrite T2, S2|congruence|]. intros x d Hx Hd. apply T4; [|apply S4]; try done; intros ?; apply Hx, elem_of_app; tauto. }
    split; [exact Hr|]. split; [destruct done_; lia|]. intros [Hg HF]%Forall_cons. destruct (Hlen Hg) as [L1 L2], (Hlen' HF) as [L3 L4]. split; [lia|]. intros Hn. destruct done_; [specialize (L2 eq_refl); lia|specialize (L4 Hn); lia].
  - intros [= <- <- <-]. cbn [concat]. split; [split; try done; intros x d Hx; apply S4; intros ?; apply Hx, elem_of_app; by left|]. split; [lia|]. intros [Hg HF]%Forall_cons. destruct (Hlen Hg) as [L1 _]. lia.
Qed.

Lemma pair_no_collision bs r1 r2 : bs_ok bs -> r1 ∈ bs_blocks bs -> r2 ∈ bs_blocks bs -> no_collision [block_db r1; block_db r2].
Proof.
  intros Hok H1 H2. eapply no_collision_sub; [|exact (bo_clash _ Hok)]. intros x [->| ->%list_elem_of_singleton]%elem_of_cons; right; by apply (list_elem_of_fmap_2 block_db).
Qed.
(** What the supersede check accepts is redundant. Whatever two blocks hold, if
    [survivorSupersedesSource] accepts the source against the survivor's decoded
    winners, no read can tell the survivor from survivor and source together:
    deleting the source loses no series, no sample, and revives no overwritten
    value. A block never passes as its own source. *)
Theorem superseded_source_redundant sv src gens att (Hsv : block_good sv) (Hsrc : block_good src) (Hnc : no_collision [block_db sv; block_db src]) (Hgens : decodeBlockGens sv = Ok gens)
  (Hok : survivorSupersedesSource gens (block_id sv) src att = Ok true) :
  db_equiv (db_union (block_db sv) (block_db src)) (block_db sv) /\ block_id sv <> block_id src.
Proof.
  split; [|unfold survivorSupersedesSource in Hok; by destruct (String.eqb_spec (block_id sv) (block_id src))].
  pose proof (supersedes_covers _ _ _ _ _ Hsv Hsrc Hnc Hgens Hok) as Hc. apply db_covered_antisym; [by apply db_covered_union|apply db_covered_l].
Qed.

(** C10. Compaction changes no read. For any plan, whichever groups it names, and
    wherever writing, checking, moving or deleting fails, the store after
    [CompactOnce] answers every query as before and keeps its invariant: the blocks
    it serves are good and on disk. Every directory outside the named groups is
    untouched; the head is. When the pass reports groups compacted, it serves
    strictly fewer blocks. *)
Theorem compaction_keeps_reads ios rios plan st n e st' (Hst : store_ok st) (Hfit : groups_fit ios rios 0 (plan (BlockInfos st)) st)
  (Hpass : CompactOnce ios rios plan st = (n, e, st')) :
  store_ok st' /\ db_equiv (bs_db (b_store st')) (bs_db (b_store st)) /\ b_mem st' = b_mem st /\
  (forall x d, x ∉ concat (plan (BlockInfos st)) -> b_blockDir st !! x = Some d -> b_blockDir st' !! x = Some d) /\
  0 <= n /\ (Forall (fun g => NoDup g) (plan (BlockInfos st)) -> 0 < n -> (length (b_blocks st') < length (b_blocks st))%nat).
Proof.
  destruct (compact_groups_spec _ _ _ _ _ _ _ _ _ Hst Hfit Hpass) as ([S1 S2 S3 S4] & Hn & Hlen). split_and!; try done. intros HF. by apply Hlen.
Qed.

(** ** Two blocks of one series *)

Definition ingest_at (id : string) (series : list SeriesChunks) (st : bstate) : bstate := (ingestLocked (fun _ => mkIO (Some id) 5 None None) series st).2.
Lemma ingest_at_ok id series st : store_ok st -> flush_ready series -> no_collision (ingest_db series :: store_db (b_mem st) :: (block_db <$> b_blocks st)) -> store_ok (ingest_at id series st).
Proof.
  intros Hst Hf Hnc. unfold ingest_at. destruct (ingestLocked _ series st) as [res st'] eqn:E. destruct (ingestLocked_spec _ _ _ _ _ Hf E) as (rs & Hw). by eapply batch_ok.
Qed.
Lemma ingest_one_series sc l : is_Some (ingest_db [sc] l) -> l = sc_Labels sc.
Proof. unfold ingest_db. destruct (decide _) as [H|]; [|by intros [? ?]]. intros _. by apply list_elem_of_fmap in H as (sc' & -> & ->%list_elem_of_singleton). Qed.
Lemma flush_sc_ready : flush_ready [flush_sc].
Proof. rewrite <- flush_snapshot. exact flush_st_ready. Qed.
Definition empty_st : bstate := mkBState NewMemoryStore [] ∅ ∅.
Definition one_block : bstate := ingest_at "a" [flush_sc] empty_st.
Definition two_blocks : bstate := ingest_at "b" [flush_sc] one_block.
Lemma empty_st_ok : store_ok empty_st.
Proof. apply no_blocks_ok; [apply NewMemoryStore_wf|]. intros l1 l2 d1 d2 ->%list_elem_of_singleton _ [ws Hws]. unfold store_db in Hws. cbn in Hws. rewrite lookup_empty in Hws. done. Qed.
(** Only [demo_set] is stored. *)
Definition one_set (st : bstate) : Prop := forall db, db ∈ store_db (b_mem st) :: (block_db <$> b_blocks st) -> forall l, is_Some (db l) -> l = demo_set.
Lemma ingest_at_one id st : store_ok st -> one_set st -> store_ok (ingest_at id [flush_sc] st) /\ one_set (ingest_at id [flush_sc] st).
Proof.
  intros Hst H1. assert (Hl : forall l, is_Some (ingest_db [flush_sc] l) -> l = demo_set) by (intros l Hl%ingest_one_series; rewrite Hl; vm_compute; reflexivity). split.
  - apply ingest_at_ok; [done|exact flush_sc_ready|]. apply (one_series_no_collision demo_set), Forall_forall. intros db [->|Hdb]%elem_of_cons; [exact Hl|by apply H1].
  - unfold ingest_at. destruct (ingestLocked _ _ st) as [res st'] eqn:E. destruct (ingestLocked_spec _ _ _ _ _ flush_sc_ready E) as (rs & Hw). cbn [snd]. intros db. rewrite (ba_mem _ _ _ _ _ Hw), (ba_blocks _ _ _ _ _ Hw), fmap_app.
    intros [->|[Hd|(r & -> & Hr)%list_elem_of_fmap]%elem_of_app]%elem_of_cons l Hs; [apply (H1 (store_db (b_mem st))); [by left|done]|apply (H1 db); [by right|done]|]. by apply Hl, (ba_samples _ _ _ _ _ Hw r l).
Qed.
Lemma one_block_ok : store_ok one_block /\ one_set one_block.
Proof.
  apply ingest_at_one; [apply empty_st_ok|]. intros db [->|Hdb]%elem_of_cons l [ws Hws]; [|by apply not_elem_of_nil in Hdb].
  unfold store_db in Hws. cbn in Hws. by rewrite lookup_empty in Hws.
Qed.
Lemma two_blocks_ok : store_ok two_blocks /\ one_set two_blocks.
Proof. destruct one_block_ok as [H1 H2]. exact (ingest_at_one "b" one_block H1 H2). Qed.
Lemma all_small (sds : list seriesData) : forallb series_smallb sds = true -> Forall (fun sd => Forall ships (sd_chunks sd)) sds -> Forall series_small sds.
Proof. rewrite forallb_forall, !Forall_forall. intros Hb HS sd Hin. apply series_small_check; [by apply Hb, list_elem_of_In|by apply HS]. Qed.
Definition demo_group : list string := ["a"; "b"]%string.
Definition demo_sources : list Reader := default [] (mapM (readerByID (b_blocks two_blocks)) demo_group).
Definition demo_agg : aggs := match agg_blocks (mkAggs ∅ [] 0 []) (by_minTime demo_sources) with Ok a => a | Err _ => mkAggs ∅ [] 0 [] end.
Lemma demo_merge_fits sources : mapM (readerByID (b_blocks two_blocks)) demo_group = Some sources -> merge_fits sources.
Proof.
  intros HM. assert (E : demo_sources = sources) by (unfold demo_sources; by rewrite HM). intros a Ha. assert (Ea : demo_agg = a) by (unfold demo_agg; by rewrite E, Ha).
  assert (Hg : Forall block_good sources).
  { destruct (group_sources _ _ _ (proj1 two_blocks_ok) HM) as [Hs _]. apply Forall_forall. intros s [Hin _]%Hs. pose proof (bo_blocks _ (sk_bs _ (proj1 two_blocks_ok))) as HF. rewrite Forall_forall in HF. by apply HF. }
  destruct (agg_blocks_rep _ _ [] _ (agg_rep_nil 0) Ha) as [Hrep _]. pose proof (merged_ships sources Hg a Hrep) as HS. rewrite <- Ea in *. split; [|vm_compute; discriminate].
  split; [vm_compute; discriminate| |vm_compute; discriminate|vm_compute; reflexivity|vm_compute; discriminate].
  assert (Hb : forallb series_smallb (to_seriesData <$> merged demo_agg) = true) by (vm_compute; reflexivity). exact (all_small _ Hb HS).
Qed.

Definition demo_ios : nat -> write_io := fun _ => mkIO (Some "c"%string) 9 None None.
Definition demo_rios : nat -> retire_io := fun _ => mkRetire (fun _ => false) (fun _ => false) (fun _ => false).
Definition demo_plan : list BlockInfo -> list (list string) := fun _ => [demo_group].
Lemma demo_groups_fit : groups_fit demo_ios demo_rios 0 [demo_group] two_blocks.
Proof. split; [exact demo_merge_fits|]. by destruct (compact_group _ _ _ _) as [[]]. Qed.
Definition demo_pass := CompactOnce demo_ios demo_rios demo_plan two_blocks.
Example demo_pass_merges : (demo_pass.1.1, (fun x => block_id x) <$> b_blocks demo_pass.2) = (1, ["c"%string]).
Proof. vm_compute. reflexivity. Qed.
(** The pass on two blocks of one series merges them. *)
Lemma compaction_keeps_reads_witness : store_ok demo_pass.2 /\ db_equiv (bs_db (b_store demo_pass.2)) (bs_db (b_store two_blocks)) /\ (length (b_blocks demo_pass.2) < length (b_blocks two_blocks))%nat.
Proof.
  destruct demo_pass as [[n e] st'] eqn:E. destruct (compaction_keeps_reads demo_ios demo_rios demo_plan two_blocks n e st' (proj1 two_blocks_ok) demo_groups_fit E) as (H1 & H2 & _ & _ & _ & H3).
  assert (En : n = 1) by (pose proof demo_pass_merges as H; rewrite E in H; exact (f_equal fst H)).
  refine (conj H1 (conj H2 (H3 _ _))); [|rewrite En; reflexivity]. apply Forall_singleton. exact (bool_decide_unpack (NoDup demo_group) I).
Defined.
Definition demo_src : Reader := default demo_reader (readerByID (b_blocks two_blocks) "a").
Definition demo_sv : Reader := default demo_reader (readerByID (b_blocks two_blocks) "b").
Lemma demo_blocks_read : readerByID (b_blocks two_blocks) "a" = Some demo_src /\ readerByID (b_blocks two_blocks) "b" = Some demo_sv.
Proof. unfold demo_src, demo_sv. split; destruct (readerByID _ _) eqn:E; try reflexivity; vm_compute in E; discriminate E. Qed.
Lemma superseded_source_redundant_witness : db_equiv (db_union (block_db demo_sv) (block_db demo_src)) (block_db demo_sv) /\ block_id demo_sv <> block_id demo_src.
Proof.
  destruct demo_blocks_read as [[Ha _]%readerByID_in [Hb _]%readerByID_in]. pose proof (sk_bs _ (proj1 two_blocks_ok)) as Hok. pose proof (bo_blocks _ Hok) as HF. rewrite Forall_forall in HF.
  destruct (decodeBlockGens demo_sv) as [gens|] eqn:Eg; [|vm_compute in Eg; discriminate Eg].
  apply (superseded_source_redundant demo_sv demo_src gens (fun _ _ _ => false) (HF _ Hb) (HF _ Ha)); [|exact Eg|].
  - exact (pair_no_collision _ _ _ Hok Hb Ha).
  - assert (E : match decodeBlockGens demo_sv with Ok g => survivorSupersedesSource g (block_id demo_sv) demo_src (fun _ _ _ => false) | Err e => Err e end = Ok true) by (vm_compute; reflexivity). by rewrite Eg in E.
Defined.
