(* ===== verification/Compactor.v ===== *)
(** * Compactor: planning merges, retention and the maintenance pass

    [internal/compactor/planner.go] and [internal/compactor/compactor.go],
    [internal/compactor/multi.go], and [ApplyRetention] with its helpers of
    [internal/metrics/blockstore.go]. *)
From stdpp Require Import strings.
From S2P Require Import Prelude GoLib GoSort Chunk Dedup Labels Source ReadEquiv MemStore Limits BlockIndex Block BlockStore BlockCheck BlockIngest BlockCompact.

(** ** Planning *)

Fixpoint ranges_from (r multiplier : Z) (levels : nat) : list Z :=
  match levels with O => [] | S levels => r :: ranges_from (i64 (r * multiplier)) multiplier levels end.
Definition Ranges (base multiplier levels : Z) : list Z :=
  ranges_from base (if multiplier <? 2 then 2 else multiplier) (Z.to_nat (if levels <? 1 then 1 else levels)).

(** Go's division truncates toward zero. *)
Definition floorDiv (a b : Z) : Z :=
  let q := i64 (Z.quot a b) in
  if (negb (Z.rem a b =? 0) && negb (Bool.eqb (a <? 0) (b <? 0)))%bool then i64 (q - 1) else q.
Definition windowKey := (string * Z)%type.
(** The window of a block at range [r], if it has one. *)
Definition window (r : Z) (b : BlockInfo) : option windowKey :=
  let span := i64 (bi_MaxTime b - bi_MinTime b) in
  if ((span <? 0) || (r <=? span))%bool then None else
  if negb (floorDiv (bi_MinTime b) r =? floorDiv (bi_MaxTime b) r) then None else
  Some (bi_Tenant b, floorDiv (bi_MinTime b) r).
Record windows := mkWindows { w_groups : gmap windowKey (list string); w_order : list windowKey }.
Definition add_window (r : Z) (ws : windows) (b : BlockInfo) : windows :=
  match window r b with
  | None => ws
  | Some k =>
      let order := match w_groups ws !! k with Some _ => w_order ws | None => w_order ws ++ [k] end in
      mkWindows (<[k := default [] (w_groups ws !! k) ++ [bi_ID b]]> (w_groups ws)) order
  end.
Definition plan_range (r : Z) (sorted : list BlockInfo) : option (list string) :=
  let ws := fold_left (add_window r) sorted (mkWindows ∅ []) in
  find (fun g => (2 <=? length g)%nat) ((fun k => default [] (w_groups ws !! k)) <$> w_order ws).
Fixpoint plan_ranges (ranges : list Z) (sorted : list BlockInfo) : list (list string) :=
  match ranges with
  | [] => []
  | r :: rest =>
      if r <=? 0 then plan_ranges rest sorted else
      match plan_range r sorted with Some g => [g] | None => plan_ranges rest sorted end
  end.
Definition Plan (infos : list BlockInfo) (ranges : list Z) : list (list string) :=
  plan_ranges ranges (SliceStable (fun a b => bi_MinTime a <? bi_MinTime b) infos).

(** ** Retention *)

Definition blockExpired (m : Meta) (nowMs : Z) (policy : RetentionPolicy) : bool :=
  let ret := For policy (displayTenant (m_Tenant m)) in
  if ret <=? 0 then false else m_MaxTime m <? i64 (nowMs - Z.quot ret 1000000).
(** Where moving a block out, removing it and sweeping a leftover fail. *)
Record expire_io := mkExpire { ei_move : string -> bool; ei_remove : string -> bool; ei_sweep : string -> bool }.
Definition sweepTmpDir (keeps : string -> bool) (st : bstate) : bstate :=
  set_dirs (b_blockDir st) (filter (fun e : string * blockDir => keeps e.1 = true) (b_tmpDir st)) st.
Record expiring := mkExpiring { x_kept : list Reader; x_reclaimed : list Reader; x_firstErr : option string; x_blocks : gmap string blockDir; x_tmp : gmap string blockDir }.
Definition expire_block (io : expire_io) (nowMs : Z) (policy : RetentionPolicy) (x : expiring) (r : Reader) : expiring :=
  if (bool_decide (is_Some (x_firstErr x)) || negb (blockExpired (r_meta r) nowMs policy))%bool
  then mkExpiring (x_kept x ++ [r]) (x_reclaimed x) (x_firstErr x) (x_blocks x) (x_tmp x) else
  let id := m_BlockID (r_meta r) in
  let tmp := delete id (x_tmp x) in
  match x_blocks x !! id with
  | None => mkExpiring (x_kept x) (x_reclaimed x ++ [r]) None (x_blocks x) tmp
  | Some d =>
      if ei_move io id then mkExpiring (x_kept x ++ [r]) (x_reclaimed x) (Some id) (x_blocks x) tmp
      else mkExpiring (x_kept x) (x_reclaimed x ++ [r]) None (delete id (x_blocks x)) (<[id := d]> tmp)
  end.
(** Series of the head without samples that no block holds either. *)
Definition gc_series (blocks : list Reader) (s : MemoryStore) (id : Z) : MemoryStore :=
  if existsb (fun r => bool_decide (is_Some (SeriesByID r id))) blocks then s else (RemoveEmptySeries s id).2.
Definition gcEmptyHeadSeries (st : bstate) : bstate :=
  set_mem (fold_left (gc_series (b_blocks st)) (EmptyHeadSeriesIDs (b_mem st)) (b_mem st)) st.
Inductive retentionErr := RetainRename (id : string) | RetainRemove (id : string).
Definition ApplyRetention (io : expire_io) (nowMs : Z) (policy : RetentionPolicy) (st : bstate) : Z * option retentionErr * bstate :=
  let st := sweepTmpDir (ei_sweep io) st in
  let x := fold_left (expire_block io nowMs policy) (b_blocks st) (mkExpiring [] [] None (b_blockDir st) (b_tmpDir st)) in
  let ids := (fun r => m_BlockID (r_meta r)) <$> x_reclaimed x in
  let tmp := fold_left (fun tmp id => if ei_remove io id then tmp else delete id tmp) ids (x_tmp x) in
  let st := mkBState (b_mem st) (x_kept x) (x_blocks x) tmp in
  let st := match x_reclaimed x with [] => st | _ => gcEmptyHeadSeries st end in
  (Z.of_nat (length (x_reclaimed x)),
   match x_firstErr x with Some id => Some (RetainRename id) | None => RetainRemove <$> find (ei_remove io) ids end, st).

(** ** To a stable block set *)

Inductive stopped (E : Type) := Cancelled | Failed (e : E) | Stable.
Arguments Cancelled {E}.
Arguments Failed {E} _.
Arguments Stable {E}.
Section ToStable.
Context {St E : Type} (once : nat -> St -> Z * option E * St).
(** [cancelled i] is what the context says before call [i]. *)
Fixpoint compactToStable (cancelled : nat -> bool) (fuel i : nat) (st : St) : option (stopped E * St) :=
  match fuel with
  | O => None
  | S fuel =>
      if cancelled i then Some (Cancelled, st) else
      let '(n, err, st) := once i st in
      match err with
      | Some e => Some (Failed e, st)
      | None => if n =? 0 then Some (Stable, st) else compactToStable cancelled fuel (S i) st
      end
  end.
(** One store of [MultiBlockManager.CompactOnce]. *)
Fixpoint store_to_stable (fuel i : nat) (total : Z) (st : St) : option (Z * option E * St) :=
  match fuel with
  | O => None
  | S fuel =>
      let '(n, err, st) := once i st in
      let total := total + n in
      if (bool_decide (is_Some err) || (n =? 0))%bool then Some (total, err, st) else store_to_stable fuel (S i) total st
  end.
End ToStable.
(** [MultiBlockManager.each]: every store is called, the counts summed and the first error kept. *)
Fixpoint each {St E : Type} (call : nat -> St -> option (Z * option E * St)) (i : nat) (total : Z) (first : option E) (stores : list St) : option (Z * option E * list St) :=
  match stores with
  | [] => Some (total, first, [])
  | st :: rest =>
      '(n, err, st) ← call i st;
      '(total, first, rest) ← each call (S i) (total + n) (match first with Some e => Some e | None => err end) rest;
      Some (total, first, st :: rest)
  end.

(** ** The maintenance pass *)

Record Config := mkConfig { FlushInterval : Z; FlushSealedChunks : Z; FlushWALBytes : Z; cfg_Ranges : list Z; cfg_Policy : RetentionPolicy }.
(** [time.Time.Sub] saturates. *)
Definition time_Sub (a b : Z) : Z := Z.max MinInt64 (Z.min MaxInt64 (a - b)).
(** [walBytes] is [None] without a log, or when its size cannot be read. *)
Definition flush_due (cfg : Config) (elapsed sealed : Z) (walBytes : option Z) : bool :=
  ((FlushInterval cfg <=? elapsed) || ((0 <? FlushSealedChunks cfg) && (FlushSealedChunks cfg <=? sealed)) ||
   ((0 <? FlushWALBytes cfg) && match walBytes with Some n => FlushWALBytes cfg <=? n | None => false end))%bool.
Record pass_io := mkPass {
  pi_now : nat -> Z; pi_walBytes : option Z; pi_cancelled : nat -> bool; pi_flush : nat -> write_io;
  pi_compact : nat -> nat -> write_io; pi_retire : nat -> nat -> retire_io; pi_expire : expire_io }.
Record maintenance := mkMaintenance { lastFlush : Z; c_store : bstate }.
(** One pass of the planner over the store. *)
Definition plan_pass (ranges : list Z) (ios : nat -> nat -> write_io) (rios : nat -> nat -> retire_io) (i : nat) : bstate -> Z * option onceErr * bstate :=
  CompactOnce (ios i) (rios i) (fun infos => Plan infos ranges).
Definition multi_CompactOnce (ranges : list Z) (ios : nat -> nat -> nat -> write_io) (rios : nat -> nat -> nat -> retire_io) (stores : list bstate) : option (Z * option onceErr * list bstate) :=
  each (fun k st => store_to_stable (plan_pass ranges (ios k) (rios k)) (S (length (b_blocks st))) 0 0 st) 0 0 None stores.
Definition multi_ApplyRetention (ios : nat -> expire_io) (nowMs : Z) (policy : RetentionPolicy) (stores : list bstate) : option (Z * option retentionErr * list bstate) :=
  each (fun k st => Some (ApplyRetention (ios k) nowMs policy st)) 0 0 None stores.
Definition maybeFlush (cfg : Config) (io : pass_io) (c : maintenance) : maintenance :=
  if negb (flush_due cfg (time_Sub (pi_now io 0) (lastFlush c)) (Z.of_nat (SealedChunkCount (b_mem (c_store c)))) (pi_walBytes io)) then c else
  match FlushBlock (pi_flush io) [] (c_store c) with
  | (Err _, st) => mkMaintenance (lastFlush c) st
  | (Ok _, st) => mkMaintenance (pi_now io 1) st
  end.
Definition applyRetention (cfg : Config) (io : pass_io) (c : maintenance) : maintenance :=
  mkMaintenance (lastFlush c) (ApplyRetention (pi_expire io) (pi_now io 2 / 1000000) (cfg_Policy cfg) (c_store c)).2.
(** [LogManager]: the stores whose logs the pass expires, the answer and the error
    only logged. [logs] is [None] where the compactor has none. *)
Section WithLogs.
Context {L E : Type} (ApplyLogsRetention : Z -> RetentionPolicy -> L -> Z * option E * L).
Definition applyLogsRetention (cfg : Config) (io : pass_io) (logs : option L) : option L :=
  match logs with None => None | Some l => Some (ApplyLogsRetention (pi_now io 3) (cfg_Policy cfg) l).2 end.
(** [MultiLogManager]: every store, the counts summed, the first error kept. *)
Definition multi_ApplyLogsRetention (now : Z) (policy : RetentionPolicy) (stores : list L) : option (Z * option E * list L) :=
  each (fun _ l => Some (ApplyLogsRetention now policy l)) 0 0 None stores.
(** [None] would be a compaction loop that does not end. *)
Definition RunOnce (cfg : Config) (io : pass_io) (fuel : nat) (c : maintenance) (logs : option L) : option (maintenance * option L) :=
  let c := maybeFlush cfg io c in
  '(_, st) ← compactToStable (plan_pass (cfg_Ranges cfg) (pi_compact io) (pi_retire io)) (pi_cancelled io) fuel 0 (c_store c);
  Some (applyRetention cfg io (mkMaintenance (lastFlush c) st), applyLogsRetention cfg io logs).
End WithLogs.

(** ** What a plan is *)

Lemma floorDiv_floor a b : in_i64 a -> 0 < b -> floorDiv a b = a / b.
Proof.
  intros Ha Hb. unfold floorDiv. assert (Hq : in_i64 (Z.quot a b) /\ in_i64 (a / b)).
  { unfold in_i64 in *. split; [destruct (Z.le_gt_cases 0 a); [pose proof (Z.quot_pos a b); pose proof (Z.quot_le_upper_bound a b (2 ^ 63 - 1)); nia|]|].
    - pose proof (Z.quot_opp_l a b). pose proof (Z.quot_pos (- a) b). pose proof (Z.quot_le_upper_bound (- a) b (2 ^ 63)). nia.
    - pose proof (Z.div_le_upper_bound a b (2 ^ 63 - 1)). pose proof (Z.div_le_lower_bound a b (- 2 ^ 63)). nia. }
  destruct Hq as [Hq Hd]. rewrite (i64_id (Z.quot a b)) by done. rewrite (proj2 (Z.ltb_ge b 0)) by lia.
  pose proof (Z.quot_rem' a b) as Hqr. pose proof (Z.div_mod a b) as Hdm. pose proof (Z.mod_pos_bound a b Hb) as Hm.
  destruct (Z.eqb_spec (Z.rem a b) 0) as [E|E]; cbn [negb andb].
  - apply (Z.div_unique a b _ 0); lia.
  - destruct (Z.ltb_spec a 0) as [Hn|Hn]; cbn [Bool.eqb negb].
    + pose proof (Z.rem_nonpos a b ltac:(lia) ltac:(lia)). pose proof (Z.rem_bound_abs a b ltac:(lia)).
      assert (Ed : a / b = Z.quot a b - 1) by (symmetry; apply (Z.div_unique a b _ (Z.rem a b + b)); lia). rewrite <- Ed. by apply i64_id.
    + pose proof (Z.rem_bound_pos_pos a b ltac:(lia) ltac:(lia)). apply (Z.div_unique a b _ (Z.rem a b)); lia.
Qed.
Lemma div_in_window a w r : 0 < r -> w * r <= a -> a < (w + 1) * r -> a / r = w.
Proof. intros H0 H1 H2. symmetry. apply (Z.div_unique a r w (a - w * r)); lia. Qed.
(** A block of the data model: both ends are 64-bit timestamps. *)
Definition info_fits (b : BlockInfo) : Prop := in_i64 (bi_MinTime b) /\ in_i64 (bi_MaxTime b).
(** Block [b] lies within window [k] of range [r]. *)
Definition lies_in (r : Z) (k : windowKey) (b : BlockInfo) : Prop :=
  bi_Tenant b = k.1 /\ k.2 * r <= bi_MinTime b /\ bi_MinTime b <= bi_MaxTime b /\ bi_MaxTime b < (k.2 + 1) * r.
#[export] Instance lies_in_dec r k b : Decision (lies_in r k b).
Proof. unfold lies_in. apply _. Defined.
Lemma window_exact r b k : info_fits b -> in_i64 r -> 0 < r -> window r b = Some k <-> lies_in r k b.
Proof.
  intros [H1 H2] Hr H0. destruct k as [t w]. unfold window, lies_in. cbn [fst snd]. rewrite !floorDiv_floor by done.
  pose proof (Z.div_mod (bi_MinTime b) r ltac:(lia)) as D1. pose proof (Z.mod_pos_bound (bi_MinTime b) r H0) as M1.
  pose proof (Z.div_mod (bi_MaxTime b) r ltac:(lia)) as D2. pose proof (Z.mod_pos_bound (bi_MaxTime b) r H0) as M2.
  destruct (Z.eqb_spec (bi_MinTime b / r) (bi_MaxTime b / r)) as [E|E]; cbn [negb].
  - rewrite <- E in D2. set (q := bi_MinTime b / r) in *. assert (Hs : i64 (bi_MaxTime b - bi_MinTime b) = bi_MaxTime b - bi_MinTime b) by (apply i64_id; unfold in_i64 in *; lia). rewrite Hs.
    destruct (Z.ltb_spec (bi_MaxTime b - bi_MinTime b) 0), (Z.leb_spec r (bi_MaxTime b - bi_MinTime b)); cbn [orb]; split; try done; try nia.
    + intros [= <- <-]. split_and!; [done|..]; fold q; lia.
    + intros (-> & ? & ? & ?). rewrite <- (div_in_window (bi_MinTime b) w r) by lia. done.
  - destruct (_ || _)%bool; (split; [done|]); intros (_ & ? & ? & ?); exfalso; apply E; by rewrite !(div_in_window _ w r) by lia.
Qed.

(** The IDs of window [k], in the order of the infos. *)
Definition members (r : Z) (k : windowKey) (bs : list BlockInfo) : list string := bi_ID <$> filter (fun b => window r b = Some k) bs.
Record windows_rep (r : Z) (bs : list BlockInfo) (ws : windows) : Prop := {
  wr_order : forall k, k ∈ w_order ws <-> members r k bs <> [];
  wr_groups : forall k, w_groups ws !! k = match members r k bs with [] => None | g => Some g end }.
Lemma members_snoc r k bs b : members r k (bs ++ [b]) = members r k bs ++ (if decide (window r b = Some k) then [bi_ID b] else []).
Proof. unfold members. rewrite filter_app, fmap_app, filter_cons, filter_nil. by destruct (decide _). Qed.
Lemma add_window_rep r bs ws b : windows_rep r bs ws -> windows_rep r (bs ++ [b]) (add_window r ws b).
Proof.
  intros [H1 H2]. unfold add_window. destruct (window r b) as [k|] eqn:E.
  - assert (Hk : default [] (w_groups ws !! k) = members r k bs) by (rewrite H2; by destruct (members r k bs)).
    split; intros k'; cbn [w_order w_groups]; rewrite members_snoc, E.
    + destruct (decide (Some k = Some k')) as [[= <-]|Hne].
      * split; [intros _ Hn; by apply app_nil in Hn as [_ ?]|intros _]. rewrite H2. specialize (H1 k). destruct (members r k bs); [apply elem_of_app; right; by left|by apply H1].
      * rewrite app_nil_r, <- H1. destruct (w_groups ws !! k); [done|]. rewrite elem_of_app, list_elem_of_singleton. split; [intros [?| ->]; [done|congruence]|by left].
    + destruct (decide (Some k = Some k')) as [[= <-]|Hne]; [rewrite lookup_insert_eq, Hk; by destruct (members r k bs)|]. rewrite lookup_insert_ne, app_nil_r by congruence. apply H2.
  - split; intros k'; rewrite members_snoc, E, decide_False, app_nil_r by done; [apply H1|apply H2].
Qed.
Lemma windows_all r bs : windows_rep r bs (fold_left (add_window r) bs (mkWindows ∅ [])).
Proof.
  change bs with ([] ++ bs) at 1. assert (H0 : windows_rep r [] (mkWindows ∅ [])) by (split; intros k; [by rewrite elem_of_nil|done]). revert H0. generalize (mkWindows ∅ []). generalize (@nil BlockInfo).
  induction bs as [|b bs IH]; intros done_ ws Hr; [by rewrite app_nil_r|]. cbn [fold_left]. rewrite cons_middle, app_assoc. by apply IH, add_window_rep.
Qed.
Lemma plan_range_exact r bs : match plan_range r bs with Some g => exists k, g = members r k bs /\ (2 <= length g)%nat | None => forall k, (length (members r k bs) < 2)%nat end.
Proof.
  unfold plan_range. destruct (windows_all r bs) as [H1 H2]. set (ws := fold_left _ _ _) in *. destruct (find _ _) as [g|] eqn:E.
  - apply find_some in E as [(k & -> & Hk)%list_elem_of_In%list_elem_of_fmap Hl%Nat.leb_le]. exists k. split; [|done]. rewrite H2. by destruct (members r k bs).
  - intros k. destruct (members r k bs) as [|x g] eqn:Em; [cbn; lia|]. apply Nat.nle_gt. intros Hl. assert (Hin : k ∈ w_order ws) by (apply H1; by rewrite Em).
    assert (Hd : default [] (w_groups ws !! k) = x :: g) by (by rewrite H2, Em).
    pose proof (find_none _ _ E (x :: g)) as Hn. cbv beta in Hn. apply Nat.leb_gt in Hn; [lia|]. apply list_elem_of_In, list_elem_of_fmap. by exists k.
Qed.

Lemma members_lies r k bs : Forall info_fits bs -> in_i64 r -> 0 < r -> members r k bs = bi_ID <$> filter (lies_in r k) bs.
Proof.
  intros HF Hr H0. unfold members. f_equal. induction HF as [|b bs Hb _ IH]; [done|]. rewrite !filter_cons, IH.
  destruct (decide (window r b = Some k)) as [H|H], (decide (lies_in r k b)) as [H'|H']; try done; exfalso; [apply H'|apply H]; by apply (window_exact r b k Hb Hr H0).
Qed.
(** A plan is one mergeable group, or nothing is mergeable. Whatever order the
    sort leaves blocks of one start in, a plan for 64-bit timestamps is either empty,
    and then no window of any positive range holds two blocks of one tenant, or one
    group: all blocks of one tenant within one aligned window of a range, at least
    two, none straddling its ends, at the first range that has such a window. A
    window is never computed wrong for negative or extreme timestamps. *)
Theorem plan_exact infos ranges sorted (Hfit : Forall info_fits infos) (Hr : Forall in_i64 ranges) (Hs : sorted ≡ₚ infos) :
  match plan_ranges ranges sorted with
  | [] => forall r, r ∈ ranges -> 0 < r -> forall k, (length (filter (lies_in r k) infos) < 2)%nat
  | [g] => exists before r after k, ranges = before ++ r :: after /\ 0 < r /\ g ≡ₚ bi_ID <$> filter (lies_in r k) infos /\ (2 <= length g)%nat /\
      forall r', r' ∈ before -> 0 < r' -> forall k', (length (filter (lies_in r' k') infos) < 2)%nat
  | _ => False
  end.
Proof.
  assert (Hfit' : Forall info_fits sorted) by (by rewrite Hs). assert (Hlen : forall r k, length (filter (lies_in r k) infos) = length (filter (lies_in r k) sorted)) by (intros r k; by rewrite Hs).
  induction Hr as [|r ranges Hri _ IH]; cbn [plan_ranges]; [intros r Hin; by apply not_elem_of_nil in Hin|].
  destruct (Z.leb_spec r 0) as [H0|H0]; [|pose proof (plan_range_exact r sorted) as Hp; destruct (plan_range r sorted) as [g|]].
  2:{ destruct Hp as (k & -> & Hl). rewrite (members_lies r k sorted) in * by done. exists [], r, ranges, k. split_and!; [done|done|by rewrite Hs|done|]. intros r' Hin. by apply not_elem_of_nil in Hin. }
  all: assert (Hnone : 0 < r -> forall k, (length (filter (lies_in r k) infos) < 2)%nat) by (intros Hpos k; first [lia|rewrite Hlen; specialize (Hp k); rewrite (members_lies r k sorted) in Hp by done; by rewrite length_fmap in Hp]).
  all: destruct (plan_ranges ranges sorted) as [|g [|? ?]]; try done; [intros r' [->|Hin]%elem_of_cons; [done|by apply IH]|].
  all: destruct IH as (before & r1 & after & k & -> & H1 & H2 & H3 & H4); exists (r :: before), r1, after, k; split_and!; try done; intros r' [->|Hin]%elem_of_cons; [done|by apply H4].
Qed.

(** ** A stable block set is reached *)

Section Reaches.
Context {St E : Type} (once : nat -> St -> Z * option E * St).
(** The states a run of passes that each merge something goes through. *)
Inductive passes (st0 : St) : nat -> St -> Prop :=
  | passes_start : passes st0 0 st0
  | passes_next i st n st' : passes st0 i st -> once i st = (n, None, st') -> n <> 0 -> passes st0 (S i) st'.
Context (st0 : St) (size : St -> nat) (Hless : forall i st n st', passes st0 i st -> once i st = (n, None, st') -> n <> 0 -> (size st' < size st)%nat).
Lemma compactToStable_ends cancelled fuel i st : passes st0 i st -> (size st < fuel)%nat -> exists why st' j stj, compactToStable once cancelled fuel i st = Some (why, st') /\ passes st0 j stj /\
  match why with Cancelled => st' = stj | Failed e => exists n, once j stj = (n, Some e, st') | Stable => once j stj = (0, None, st') end.
Proof.
  revert i st. induction fuel as [|fuel IH]; intros i st Hp Hf; [lia|]. cbn [compactToStable]. destruct (cancelled i); [by exists Cancelled, st, i, st|].
  destruct (once i st) as [[n [e|]] st'] eqn:Eo; [exists (Failed e), st', i, st; split_and!; [done|done|by exists n]|]. destruct (Z.eqb_spec n 0) as [->|Hn]; [by exists Stable, st', i, st|].
  apply IH; [by eapply passes_next|]. pose proof (Hless _ _ _ _ Hp Eo Hn). lia.
Qed.
Lemma store_to_stable_ends fuel i total st : passes st0 i st -> (size st < fuel)%nat -> exists total' err st' j stj n, store_to_stable once fuel i total st = Some (total', err, st') /\ passes st0 j stj /\ once j stj = (n, err, st') /\ (err = None -> n = 0).
Proof.
  revert i total st. induction fuel as [|fuel IH]; intros i total st Hp Hf; [lia|]. cbn [store_to_stable]. destruct (once i st) as [[n [e|]] st'] eqn:Eo; [by exists (total + n), (Some e), st', i, st, n|].
  rewrite bool_decide_eq_false_2 by (by intros [? ?]). cbn [orb]. destruct (Z.eqb_spec n 0) as [->|Hn]; [by exists (total + 0), None, st', i, st, 0|].
  apply IH; [by eapply passes_next|]. pose proof (Hless _ _ _ _ Hp Eo Hn). lia.
Qed.
End Reaches.

Lemma Plan_groups ranges infos : NoDup (bi_ID <$> infos) -> Plan infos ranges = [] \/ exists g, Plan infos ranges = [g] /\ NoDup g /\ (2 <= length g)%nat /\ forall id, id ∈ g -> id ∈ bi_ID <$> infos.
Proof.
  unfold Plan. set (sorted := SliceStable _ infos). assert (Hs : sorted ≡ₚ infos) by apply SliceStable_perm. intros Hnd. assert (Hnd' : NoDup (bi_ID <$> sorted)) by (by rewrite Hs). clearbody sorted.
  induction ranges as [|r ranges IH]; cbn [plan_ranges]; [by left|]. destruct (r <=? 0); [done|]. pose proof (plan_range_exact r sorted) as Hp. destruct (plan_range r sorted) as [g|]; [|done].
  destruct Hp as (k & -> & Hl). right. exists (members r k sorted). assert (Hsub : members r k sorted `sublist_of` bi_ID <$> sorted) by (apply fmap_sublist, sublist_filter).
  split; [done|]. split; [by eapply sublist_NoDup|]. split; [done|]. intros id Hin. rewrite <- Hs. by eapply sublist_subseteq.
Qed.
Lemma infos_ids st : bi_ID <$> BlockInfos st ≡ₚ (fun r => m_BlockID (r_meta r)) <$> b_blocks st.
Proof. unfold BlockInfos. rewrite SliceStable_perm, <- list_fmap_compose. done. Qed.
Lemma readerByID_some blocks id : id ∈ (fun r => m_BlockID (r_meta r)) <$> blocks -> is_Some (readerByID blocks id).
Proof.
  intros (r & -> & Hr)%list_elem_of_fmap. unfold readerByID. destruct (find _ _) as [x|] eqn:E; [by eexists|]. pose proof (find_none _ _ E r) as Hn. cbv beta in Hn. rewrite String.eqb_refl in Hn. by apply list_elem_of_In in Hr; specialize (Hn Hr).
Qed.
(** A group is passed over only when it is too small or names a block that is gone. *)
Lemma compact_group_skips io rio group st st' : compact_group io rio group st = (Ok false, st') -> (length group < 2)%nat \/ mapM (readerByID (b_blocks st)) group = None.
Proof.
  unfold compact_group. destruct (Nat.ltb_spec (length group) 2) as [|_]; [by left|]. destruct (mapM _ group) as [sources|]; [|by right]. destruct (Compact io sources (b_blockDir st)) as [[meta|e] blocks]; [|done].
  cbv zeta. destruct (default _ _) as [r|e]; [|done]. destruct (retireBlocks _ _ _) as [[? failed] st1]. by destruct failed.
Qed.

Section Maintain.
Context (ranges : list Z) (ios : nat -> nat -> write_io) (rios : nat -> nat -> retire_io) (st0 : bstate).
Context (Hst : store_ok st0) (Hfit : forall i st, passes (plan_pass ranges ios rios) st0 i st -> groups_fit (ios i) (rios i) 0 (Plan (BlockInfos st) ranges) st).
Record kept_by (st : bstate) : Prop := {
  kb_ok : store_ok st;
  kb_reads : db_equiv (bs_db (b_store st)) (bs_db (b_store st0));
  kb_mem : b_mem st = b_mem st0 }.
Lemma pass_step i st n e st' : passes (plan_pass ranges ios rios) st0 i st -> kept_by st -> plan_pass ranges ios rios i st = (n, e, st') -> kept_by st' /\ (n <> 0 -> (length (b_blocks st') < length (b_blocks st))%nat).
Proof.
  intros Hp [K1 K2 K3] Hpass. destruct (compact_groups_spec _ _ _ _ _ _ _ _ _ K1 (Hfit i st Hp) Hpass) as ([S1 S2 S3 _] & Hn & Hlen).
  split; [split; [done|by rewrite S2|congruence]|]. intros Hn0. apply Hlen; [|lia].
  destruct (Plan_groups ranges (BlockInfos st)) as [->|(g & -> & Hg & _)]; [rewrite infos_ids; apply (sk_ids _ K1)|constructor|by apply Forall_singleton].
Qed.
Lemma passes_kept i st : passes (plan_pass ranges ios rios) st0 i st -> kept_by st.
Proof. induction 1 as [|i st n st' Hp IH Hpass _]; [by split|]. exact (proj1 (pass_step _ _ _ _ _ Hp IH Hpass)). Qed.
(** A pass that merges nothing had nothing to merge. *)
Lemma pass_stable i st st' : store_ok st -> plan_pass ranges ios rios i st = (0, None, st') -> st' = st /\ Plan (BlockInfos st) ranges = [].
Proof.
  intros K1. unfold plan_pass, CompactOnce. cbv beta. destruct (Plan_groups ranges (BlockInfos st)) as [->|(g & -> & _ & Hl & Hin)]; [rewrite infos_ids; apply (sk_ids _ K1)|by intros [= <-]|].
  cbn [compact_groups]. destruct (compact_group _ _ g st) as [[[|]|err] st1] eqn:E; intros [=]. exfalso. apply compact_group_skips in E as [Hlt|HN]; [lia|].
  assert (Hsome : is_Some (mapM (readerByID (b_blocks st)) g)); [|rewrite HN in Hsome; by destruct Hsome].
  apply mapM_is_Some_2, Forall_forall. intros id Hid. apply readerByID_some. rewrite <- infos_ids. by apply Hin.
Qed.
End Maintain.

Lemma compactToStable_spec ranges ios rios cancelled st (Hst : store_ok st)
  (Hfit : forall i st', passes (plan_pass ranges ios rios) st i st' -> groups_fit (ios i) (rios i) 0 (Plan (BlockInfos st') ranges) st') :
  exists why st', compactToStable (plan_pass ranges ios rios) cancelled (S (length (b_blocks st))) 0 st = Some (why, st') /\
    store_ok st' /\ db_equiv (bs_db (b_store st')) (bs_db (b_store st)) /\ b_mem st' = b_mem st /\ (why = Stable -> Plan (BlockInfos st') ranges = []).
Proof.
  destruct (compactToStable_ends (plan_pass ranges ios rios) st (fun st => length (b_blocks st))) with (cancelled := cancelled) (fuel := S (length (b_blocks st))) (i := 0%nat) (st := st) as (why & st' & j & stj & E & Hj & Hwhy).
  - intros i s n s' Hp Hpass Hn. exact (proj2 (pass_step ranges ios rios st Hfit i s n None s' Hp (passes_kept ranges ios rios st Hst Hfit i s Hp) Hpass) Hn).
  - constructor.
  - lia.
  - pose proof (passes_kept ranges ios rios st Hst Hfit j stj Hj) as Hk. exists why, st'. split; [exact E|].
    assert (Hk' : kept_by st st' /\ (why = Stable -> Plan (BlockInfos st') ranges = [])).
    { destruct why as [|e|]; [by subst st'|destruct Hwhy as [n Hn]; split; [exact (proj1 (pass_step ranges ios rios st Hfit j stj n (Some e) st' Hj Hk Hn))|done]|].
      apply pass_stable in Hwhy as [-> Hpl]; [by split|apply (kb_ok _ _ Hk)]. }
    destruct Hk' as [[K1 K2 K3] K4]. done.
Qed.

(** C39. Compaction to a stable block set ends. Each pass that reports progress
    leaves strictly fewer blocks, so the loop returns after at most one pass more
    than there are blocks, wherever writes, checks and deletions fail. The store it
    leaves answers every query as before. When it stops by itself, the planner finds
    nothing more to merge; otherwise the context was cancelled or a pass reported
    its error. *)
Theorem compactToStable_terminates ranges ios rios cancelled st (Hst : store_ok st)
  (Hfit : forall i st', passes (plan_pass ranges ios rios) st i st' -> groups_fit (ios i) (rios i) 0 (Plan (BlockInfos st') ranges) st') :
  exists why st', compactToStable (plan_pass ranges ios rios) cancelled (S (length (b_blocks st))) 0 st = Some (why, st') /\
    store_ok st' /\ db_equiv (bs_db (b_store st')) (bs_db (b_store st)) /\ b_mem st' = b_mem st /\ (why = Stable -> Plan (BlockInfos st') ranges = []).
Proof. exact (compactToStable_spec ranges ios rios cancelled st Hst Hfit). Qed.

(** *** Several stores *)

Definition answer {St E : Type} (total : Z) (first : option E) (rs : list (Z * option E * St)) : Z * option E * list St :=
  (total + foldr Z.add 0 (rs.*1).*1, match first with Some e => Some e | None => head (omap id (rs.*1).*2) end, rs.*2).
Lemma each_spec {St E : Type} (call : nat -> St -> option (Z * option E * St)) (Q : nat -> St -> Z -> option E -> St -> Prop) i total first stores :
  (forall k st, stores !! k = Some st -> exists n err st', call (i + k)%nat st = Some (n, err, st') /\ Q (i + k)%nat st n err st') ->
  exists rs, each call i total first stores = Some (answer total first rs) /\ length rs = length stores /\
    forall k st, stores !! k = Some st -> exists n err st', rs !! k = Some (n, err, st') /\ Q (i + k)%nat st n err st'.
Proof.
  revert i total first. induction stores as [|st stores IH]; intros i total first Hc; cbn [each]; [exists []; unfold answer; cbn; rewrite Z.add_0_r; by destruct first|].
  destruct (Hc 0%nat st eq_refl) as (n & err & st' & Ec & Hq). rewrite Nat.add_0_r in Ec, Hq. rewrite Ec. cbn [mbind option_bind].
  destruct (IH (S i) (total + n) (match first with Some e => Some e | None => err end)) as (rs & Er & Hl & Hrs).
  { intros k s Hk. destruct (Hc (S k) s Hk) as (n' & err' & s' & H). exists n', err', s'. by rewrite Nat.add_succ_r in H. }
  rewrite Er. unfold answer at 1. cbn [mbind option_bind]. exists ((n, err, st') :: rs). split.
  - unfold answer. cbn [fmap list_fmap foldr fst snd]. rewrite Z.add_assoc. destruct first, err; done.
  - cbn [length]. split; [lia|]. intros [|k] s Hk; [injection Hk as <-; exists n, err, st'; by rewrite Nat.add_0_r|]. destruct (Hrs k s Hk) as (n' & err' & s' & H). exists n', err', s'. by rewrite Nat.add_succ_r.
Qed.

(** One store's failure stops no other. [MultiBlockManager.CompactOnce] ends and
    runs every store as if it were alone: each is left answering as before, and
    with nothing to merge unless it reported an error itself. The count is the sum
    over the stores, and the error returned the first in store order. *)
Theorem stores_compact_independently ranges ios rios stores (Hst : Forall store_ok stores)
  (Hfit : forall k st, stores !! k = Some st -> forall i st', passes (plan_pass ranges (ios k) (rios k)) st i st' -> groups_fit (ios k i) (rios k i) 0 (Plan (BlockInfos st') ranges) st') :
  exists rs, multi_CompactOnce ranges ios rios stores = Some (answer 0 None rs) /\ length rs = length stores /\
    forall k st, stores !! k = Some st -> exists n err st', rs !! k = Some (n, err, st') /\
      store_to_stable (plan_pass ranges (ios k) (rios k)) (S (length (b_blocks st))) 0 0 st = Some (n, err, st') /\
      store_ok st' /\ db_equiv (bs_db (b_store st')) (bs_db (b_store st)) /\ (err = None -> Plan (BlockInfos st') ranges = []).
Proof.
  set (Q := fun k st n err st' => store_to_stable (plan_pass ranges (ios k) (rios k)) (S (length (b_blocks st))) 0 0 st = Some (n, err, st') /\
    store_ok st' /\ db_equiv (bs_db (b_store st')) (bs_db (b_store st)) /\ (err = None -> Plan (BlockInfos st') ranges = [])).
  apply (each_spec _ Q 0 0 None stores). intros k st Hk. unfold Q. rewrite Forall_forall in Hst. pose proof (Hst st (list_elem_of_lookup_2 _ _ _ Hk)) as Hok. specialize (Hfit k st Hk). cbn [plus].
  destruct (store_to_stable_ends (plan_pass ranges (ios k) (rios k)) st (fun st => length (b_blocks st))) with (fuel := S (length (b_blocks st))) (i := 0%nat) (total := 0) (st := st) as (n & err & st' & j & stj & m & E & Hj & Hp & Hn).
  - intros i s m s' Hp Hpass Hm. exact (proj2 (pass_step _ _ _ st Hfit i s m None s' Hp (passes_kept _ _ _ st Hok Hfit i s Hp) Hpass) Hm).
  - constructor.
  - lia.
  - exists n, err, st'. split; [exact E|]. split; [exact E|]. pose proof (passes_kept _ _ _ st Hok Hfit j stj Hj) as Hkj. destruct (pass_step _ _ _ st Hfit j stj m err st' Hj Hkj Hp) as [[K1 K2 _] _].
    split; [done|]. split; [done|]. intros ->. rewrite (Hn eq_refl) in Hp. by apply pass_stable in Hp as [-> ?]; [|apply (kb_ok _ _ Hkj)].
Qed.

(** ** What retention removes *)

Definition owner (l : Labels) : string := displayTenant (block_tenant l).
(** Samples of [l] at [ts] are older than its tenant keeps them. *)
Definition outlived (nowMs : Z) (policy : RetentionPolicy) (l : Labels) (ts : Z) : Prop :=
  0 < For policy (owner l) /\ ts < nowMs - Z.quot (For policy (owner l)) 1000000.
Lemma blockExpired_exact m nowMs policy : 0 <= nowMs <= MaxInt64 -> For policy (displayTenant (m_Tenant m)) <= MaxInt64 ->
  blockExpired m nowMs policy = true <-> 0 < For policy (displayTenant (m_Tenant m)) /\ m_MaxTime m < nowMs - Z.quot (For policy (displayTenant (m_Tenant m))) 1000000.
Proof.
  unfold MaxInt64. intros Hnow Hret. unfold blockExpired. destruct (Z.leb_spec (For policy (displayTenant (m_Tenant m))) 0) as [|H0]; [split; [done|lia]|].
  assert (Hq : 0 <= Z.quot (For policy (displayTenant (m_Tenant m))) 1000000 < 2 ^ 62).
  { split; [apply Z.quot_pos; lia|]. apply Z.quot_lt_upper_bound; lia. }
  rewrite i64_id by (unfold in_i64; lia). rewrite Z.ltb_lt. tauto.
Qed.

Section Expire.
Context (io : expire_io) (nowMs : Z) (policy : RetentionPolicy) (b0 : gmap string blockDir).
Notation id_of r := (m_BlockID (r_meta r)).
Notation expired r := (blockExpired (r_meta r) nowMs policy = true).
Record expire_rep (seen : list Reader) (x : expiring) : Prop := {
  xr_kept : x_kept x `sublist_of` seen;
  xr_all : seen ≡ₚ x_kept x ++ x_reclaimed x;
  xr_expired : Forall (fun r => expired r) (x_reclaimed x);
  xr_done : x_firstErr x = None -> Forall (fun r => ~ expired r) (x_kept x);
  xr_failed : forall id, x_firstErr x = Some id -> exists r, r ∈ x_kept x /\ id_of r = id /\ expired r /\ ei_move io id = true;
  xr_blocks : forall id, id ∉ (fun r => id_of r) <$> x_reclaimed x -> x_blocks x !! id = b0 !! id;
  xr_gone : forall id, id ∈ (fun r => id_of r) <$> x_reclaimed x -> x_blocks x !! id = None }.
Lemma expire_block_rep seen x r : expire_rep seen x -> expire_rep (seen ++ [r]) (expire_block io nowMs policy x r).
Proof.
  intros [K1 K2 K3 K4 K5 K6 K7]. unfold expire_block. destruct (_ || _)%bool eqn:Ec.
  - split; cbn [x_kept x_reclaimed x_firstErr x_blocks x_tmp]; try done.
    + by apply sublist_app.
    + rewrite K2, <- !app_assoc. f_equiv. apply Permutation_app_comm.
    + intros Hn. apply Forall_app. split; [by apply K4|]. apply Forall_singleton. rewrite Hn in Ec. rewrite bool_decide_eq_false_2 in Ec by (by intros [? ?]). cbn [orb] in Ec. intros E. by rewrite E in Ec.
    + intros id Hid. destruct (K5 id Hid) as (r' & H1 & H2). exists r'. split; [apply elem_of_app; by left|done].
  - apply orb_false_iff in Ec as [Hn%bool_decide_eq_false He%negb_false_iff]. assert (Hf : x_firstErr x = None) by (destruct (x_firstErr x); [destruct Hn; by eexists|done]). cbn zeta.
    assert (Hperm : seen ++ [r] ≡ₚ x_kept x ++ x_reclaimed x ++ [r]) by (by rewrite K2, app_assoc).
    assert (Hsub : x_kept x `sublist_of` seen ++ [r]) by (by apply sublist_inserts_r).
    assert (Hexp : Forall (fun r => expired r) (x_reclaimed x ++ [r])) by (apply Forall_app; split; [done|by apply Forall_singleton]).
    assert (Hin : forall id, id ∈ (fun r => id_of r) <$> (x_reclaimed x ++ [r]) <-> id ∈ (fun r => id_of r) <$> x_reclaimed x \/ id = id_of r) by (intros id; rewrite fmap_app, elem_of_app; cbn; by rewrite list_elem_of_singleton).
    destruct (x_blocks x !! id_of r) as [d|] eqn:Ed; [destruct (ei_move io (id_of r)) eqn:Em|]; split; cbn [x_kept x_reclaimed x_firstErr x_blocks x_tmp]; try done.
    + by apply sublist_app.
    + rewrite K2, <- !app_assoc. f_equiv. apply Permutation_app_comm.
    + intros id [= <-]. exists r. split_and!; try done. apply elem_of_app; right; by left.
    + by intros _; apply K4.
    + intros id Hid. rewrite Hin in Hid. rewrite lookup_delete_ne by (intros <-; tauto). apply K6. tauto.
    + intros id Hid. destruct (decide (id = id_of r)) as [->|Hne]; [by rewrite lookup_delete_eq|]. rewrite lookup_delete_ne by done. apply K7. apply Hin in Hid. tauto.
    + by intros _; apply K4.
    + intros id Hid. rewrite Hin in Hid. apply K6. tauto.
    + intros id [Hid| ->]%Hin; [by apply K7|done].
Qed.
Lemma expire_all seen rest x : expire_rep seen x -> expire_rep (seen ++ rest) (fold_left (expire_block io nowMs policy) rest x).
Proof.
  revert seen x. induction rest as [|r rest IH]; intros seen x Hx; [by rewrite app_nil_r|]. cbn [fold_left]. rewrite cons_middle, app_assoc. by apply IH, expire_block_rep.
Qed.
End Expire.
#[export] Instance outlived_dec nowMs policy l ts : Decision (outlived nowMs policy l ts).
Proof. unfold outlived. apply _. Defined.

(** *** Clearing the head of series without data *)

Lemma RemoveEmpty_sub s i id ms : st_series (RemoveEmptySeries s i).2 !! id = Some ms -> st_series s !! id = Some ms.
Proof. unfold RemoveEmptySeries. destruct (st_series s !! i) as [m|]; [|done]. destruct (ms_chunks m); [|done]. cbn [snd st_series]. by intros [_ ?]%lookup_delete_Some. Qed.
Lemma RemoveEmpty_gone s id ms : st_series (RemoveEmptySeries s id).2 !! id = Some ms -> ms_chunks ms <> [].
Proof. unfold RemoveEmptySeries. destruct (st_series s !! id) as [m|] eqn:E; [|cbn [snd]; by rewrite E]. destruct (ms_chunks m) eqn:Ec; cbn [snd st_series]; [by rewrite lookup_delete_eq|]. rewrite E. intros [= <-]. by rewrite Ec. Qed.
Record cleared (blocks : list Reader) (ids : list Z) (s s' : MemoryStore) : Prop := {
  cl_wf : store_wf s';
  cl_sub : forall id ms, st_series s' !! id = Some ms -> st_series s !! id = Some ms;
  cl_samples : forall l, default [] (store_db s' l) = default [] (store_db s l);
  cl_held : forall id ms, id ∈ ids -> st_series s' !! id = Some ms -> ms_chunks ms = [] -> exists r, r ∈ blocks /\ is_Some (SeriesByID r id) }.
Lemma gc_all blocks ids s : store_wf s -> cleared blocks ids s (fold_left (gc_series blocks) ids s).
Proof.
  intros Hs. change ids with ([] ++ ids) at 1. assert (H0 : cleared blocks [] s s) by (split; [done|done|done|intros id ms Hin; by apply not_elem_of_nil in Hin]). revert H0. generalize s at 2 4 as s1. generalize (@nil Z).
  induction ids as [|i ids IH]; intros seen s1 H1; [by rewrite app_nil_r|]. cbn [fold_left]. rewrite cons_middle, app_assoc. apply IH. clear IH.
  destruct H1 as [C1 C2 C3 C4]. unfold gc_series. destruct (existsb _ _) eqn:Ex.
  - split; [done|done|done|]. intros id ms [Hin| ->%list_elem_of_singleton]%elem_of_app E Ec; [by eapply C4|]. apply existsb_exists in Ex as (r & Hr & Hb%bool_decide_eq_true). exists r. split; [by apply list_elem_of_In|done].
  - destruct (RemoveEmptySeries_spec s1 i C1) as (R1 & _ & _ & R4). split; [done| | |].
    + intros id ms E. by apply C2, (RemoveEmpty_sub s1 i).
    + intros l. by rewrite R4.
    + intros id ms [Hin| ->%list_elem_of_singleton]%elem_of_app E Ec; [eapply C4; [done|by eapply RemoveEmpty_sub|done]|]. by apply RemoveEmpty_gone in E.
Qed.
Lemma empty_candidates s id ms : st_series s !! id = Some ms -> ms_chunks ms = [] -> id ∈ EmptyHeadSeriesIDs s.
Proof. intros E Ec. unfold EmptyHeadSeriesIDs. apply list_elem_of_omap. exists (id, ms). split; [by apply elem_of_map_to_list|]. cbn [fst snd]. by rewrite Ec. Qed.
Lemma store_db_sub s s' l : (forall id ms, st_series s' !! id = Some ms -> st_series s !! id = Some ms) -> is_Some (store_db s' l) -> is_Some (store_db s l).
Proof. intros Hsub. unfold store_db. destruct (st_series s' !! Hash l) as [ms|] eqn:E; [|by intros [? ?]]. by rewrite (Hsub _ _ E). Qed.

(** *** The pass *)

(** What a store keeps when it serves fewer blocks and its head drops series without samples. *)
Lemma fewer_ok st mem blocks bd td : store_ok st -> blocks `sublist_of` b_blocks st -> store_wf mem -> (forall l, is_Some (store_db mem l) -> is_Some (store_db (b_mem st) l)) ->
  (forall r, r ∈ blocks -> bd !! m_BlockID (r_meta r) = b_blockDir st !! m_BlockID (r_meta r)) -> store_ok (mkBState mem blocks bd td).
Proof.
  intros [[S1 S2 S3] S4 S5 S6] Hsub Hm Hsome Hbd. cbn [b_store bs_mem bs_blocks] in *. assert (Hin : forall r, r ∈ blocks -> r ∈ b_blocks st) by (intros r Hr; by eapply sublist_subseteq).
  assert (HF : forall P : Reader -> Prop, Forall P (b_blocks st) -> Forall P blocks) by (intros P; rewrite !Forall_forall; auto).
  split; [split; cbn [b_store bs_mem bs_blocks b_mem b_blocks]; [done|by apply HF|]|..]; cbn [b_blocks b_blockDir].
  - eapply no_collision_covered; [|exact S3]. intros d l [->|(r & -> & Hr)%list_elem_of_fmap]%elem_of_cons Hd; [exists (store_db (b_mem st)); split; [by left|by apply Hsome]|].
    exists (block_db r). split; [right; by apply list_elem_of_fmap_2, Hin|done].
  - eapply sublist_NoDup; [exact S4|by apply fmap_sublist].
  - by apply HF.
  - rewrite Forall_forall. intros r Hr. rewrite (Hbd r Hr). rewrite Forall_forall in S6. by apply S6, Hin.
Qed.

(** What is left of the samples of the reclaimed blocks was older than its tenant keeps. *)
Lemma expired_outlived nowMs policy st r l x : 0 <= nowMs <= MaxInt64 -> (forall id, For policy id <= MaxInt64) -> store_ok st -> r ∈ b_blocks st -> blockExpired (r_meta r) nowMs policy = true ->
  x ∈ default [] (block_db r l) -> outlived nowMs policy l (s_ts x).
Proof.
  intros Hnow Hpol [[_ S2 _] _ S5 S6] Hr He Hx. cbn [b_store bs_blocks] in S2. rewrite Forall_forall in S2, S6.
  destruct (block_db r l) as [ws|] eqn:E; [|by apply not_elem_of_nil in Hx]. destruct (S6 r Hr) as (d & _ & Hd). pose proof (serves_tenant d r l Hd (mk_is_Some _ _ E)) as Ht.
  apply block_db_some in E as (se & cs & _ & Hg & ->); [|by apply S2]. pose proof (ge_bounds _ _ _ _ Hg) as Hb. rewrite Forall_forall in Hb. specialize (Hb x Hx).
  unfold outlived, owner. rewrite Ht. apply blockExpired_exact in He; [|done|apply Hpol]. lia.
Qed.

(** The state a retention pass leaves, however its clean-up went. *)
Lemma retention_left io nowMs policy st n e st' : ApplyRetention io nowMs policy st = (n, e, st') -> exists x mem tmp,
  expire_rep io nowMs policy (b_blockDir st) (b_blocks st) x /\ st' = mkBState mem (x_kept x) (x_blocks x) tmp /\ n = Z.of_nat (length (x_reclaimed x)) /\
  (x_firstErr x = None -> forall id, e <> Some (RetainRename id)) /\ (forall id, x_firstErr x = Some id -> e = Some (RetainRename id)) /\
  ((x_reclaimed x = [] /\ mem = b_mem st) \/ mem = fold_left (gc_series (x_kept x)) (EmptyHeadSeriesIDs (b_mem st)) (b_mem st)).
Proof.
  unfold ApplyRetention. cbn [sweepTmpDir set_dirs b_mem b_blocks b_blockDir b_tmpDir]. set (x0 := mkExpiring _ _ _ _ _). set (x := fold_left _ (b_blocks st) x0). cbn zeta.
  assert (H0 : expire_rep io nowMs policy (b_blockDir st) [] x0) by (split; try done; intros id Hid; by apply not_elem_of_nil in Hid). apply (expire_all io nowMs policy (b_blockDir st) [] (b_blocks st)) in H0. fold x in H0. cbn [app] in H0.
  intros [= <- <- <-]. exists x, (match x_reclaimed x with [] => b_mem st | _ => fold_left (gc_series (x_kept x)) (EmptyHeadSeriesIDs (b_mem st)) (b_mem st) end),
    (fold_left (fun tmp id => if ei_remove io id then tmp else delete id tmp) ((fun r => m_BlockID (r_meta r)) <$> x_reclaimed x) (x_tmp x)).
  split; [exact H0|]. split; [destruct (x_reclaimed x); reflexivity|]. split; [done|]. split; [intros -> id; destruct (find _ _); cbn; congruence|]. split; [by intros id ->|]. destruct (x_reclaimed x); [by left|by right].
Qed.
Lemma ApplyRetention_spec io nowMs policy st n e st' (Hst : store_ok st) (Hnow : 0 <= nowMs <= MaxInt64) (Hpol : forall id, For policy id <= MaxInt64)
  (Hret : ApplyRetention io nowMs policy st = (n, e, st')) :
  store_ok st' /\ (forall l x, x ∈ default [] (bs_db (b_store st') l) -> x ∈ default [] (bs_db (b_store st) l)) /\
  (forall l, filter (fun x => ~ outlived nowMs policy l (s_ts x)) (sortAndDedup (default [] (bs_db (b_store st') l))) = filter (fun x => ~ outlived nowMs policy l (s_ts x)) (sortAndDedup (default [] (bs_db (b_store st) l)))) /\
  n = Z.of_nat (length (b_blocks st)) - Z.of_nat (length (b_blocks st')) /\
  match e with Some (RetainRename id) => exists r, r ∈ b_blocks st' /\ m_BlockID (r_meta r) = id | _ => Forall (fun r => blockExpired (r_meta r) nowMs policy = false) (b_blocks st') end /\
  (0 < n -> forall id ms, st_series (b_mem st') !! id = Some ms -> ms_chunks ms = [] -> exists r, r ∈ b_blocks st' /\ is_Some (SeriesByID r id)).
Proof.
  apply retention_left in Hret as (x & mem & tmp & [K1 K2 K3 K4 K5 K6 K7] & -> & -> & E1 & E2 & Hmem). pose proof (bo_mem _ (sk_bs _ Hst)) as Hs. cbn in Hs.
  assert (Hclear : cleared (x_kept x) (if decide (x_reclaimed x = []) then [] else EmptyHeadSeriesIDs (b_mem st)) (b_mem st) mem).
  { destruct Hmem as [[-> ->]| ->]; [split; try done; intros id ms Hid; by apply not_elem_of_nil in Hid|]. destruct (gc_all (x_kept x) (EmptyHeadSeriesIDs (b_mem st)) _ Hs) as [C1 C2 C3 C4]. split; try done. intros id ms Hid. apply C4. destruct (decide _); [by apply not_elem_of_nil in Hid|done]. }
  destruct Hclear as [C1 C2 C3 C4]. assert (Hnd : NoDup ((fun r => m_BlockID (r_meta r)) <$> x_kept x ++ x_reclaimed x)) by (rewrite <- K2; apply (sk_ids _ Hst)). rewrite fmap_app in Hnd. apply NoDup_app in Hnd as (_ & Hnd & _).
  assert (Hdata : forall l y, y ∈ default [] (bs_db (b_store st) l) <-> y ∈ default [] (bs_db (mkBlockStore mem (x_kept x)) l) \/ exists r, r ∈ x_reclaimed x /\ y ∈ default [] (block_db r l)).
  { intros l y. unfold bs_db. cbn [b_store bs_mem bs_blocks]. rewrite !blocks_db_samples, C3. setoid_rewrite K2. setoid_rewrite elem_of_app. split; [intros [?|(r & [?|?] & ?)]; eauto|intros [[?|(r & ? & ?)]|(r & ? & ?)]; eauto 6]. }
  change (bs_db (b_store (mkBState mem (x_kept x) (x_blocks x) tmp))) with (bs_db (mkBlockStore mem (x_kept x))). cbn [b_blocks b_mem]. split_and!.
  - eapply fewer_ok; [exact Hst|done|done| |]; [intros l; by apply store_db_sub|]. intros r Hr. apply K6. intros Hin. eapply Hnd; [|exact Hin]. by apply (list_elem_of_fmap_2 (fun r => m_BlockID (r_meta r))).
  - intros l y Hy. apply Hdata. by left.
  - intros l. rewrite <- !sortAndDedup_filter by (intros s1 s2 E; by rewrite E). apply same_samples_equiv. intros y. rewrite !list_elem_of_filter, Hdata. split; [tauto|]. intros [Hf [Hy|(r & Hr & Hy)]]; [done|]. destruct Hf.
    rewrite Forall_forall in K3. assert (Hin : r ∈ b_blocks st) by (rewrite K2; apply elem_of_app; by right). exact (expired_outlived nowMs policy st r l y Hnow Hpol Hst Hin (K3 r Hr) Hy).
  - apply Permutation_length in K2. rewrite length_app in K2. lia.
  - destruct (x_firstErr x) as [id|] eqn:Ef; [rewrite (E2 id eq_refl); destruct (K5 id eq_refl) as (r & ? & ? & _); by exists r|]. assert (HF : Forall (fun r => blockExpired (r_meta r) nowMs policy = false) (x_kept x)) by (eapply Forall_impl; [by apply K4|]; intros r; apply not_true_is_false).
    destruct e as [[id|]|]; [by destruct (E1 eq_refl id)|done..].
  - intros Hn id ms E Ec. eapply C4; [|done|done]. rewrite decide_False by (intros Hnil; rewrite Hnil in Hn; cbn in Hn; lia). eapply empty_candidates; [by apply C2|done].
Qed.

(** C12. Retention removes what is older than its tenant keeps, and nothing else. The
    store keeps its invariant, nothing new is read, and reads at or after a
    tenant's cutoff are unchanged: every sample gone was older than the retention
    of the tenant its series belongs to. The count is that of the blocks gone.
    Unless moving a block out failed, no expired block is left; the block whose move
    failed is still served. When blocks went, the head knows no series that neither
    it nor a block holds data of. *)
Theorem retention_exact io nowMs policy st n e st' (Hst : store_ok st) (Hnow : 0 <= nowMs <= MaxInt64) (Hpol : forall id, For policy id <= MaxInt64)
  (Hret : ApplyRetention io nowMs policy st = (n, e, st')) :
  store_ok st' /\ (forall l x, x ∈ default [] (bs_db (b_store st') l) -> x ∈ default [] (bs_db (b_store st) l)) /\
  (forall l, filter (fun x => ~ outlived nowMs policy l (s_ts x)) (sortAndDedup (default [] (bs_db (b_store st') l))) = filter (fun x => ~ outlived nowMs policy l (s_ts x)) (sortAndDedup (default [] (bs_db (b_store st) l)))) /\
  n = Z.of_nat (length (b_blocks st)) - Z.of_nat (length (b_blocks st')) /\
  match e with Some (RetainRename id) => exists r, r ∈ b_blocks st' /\ m_BlockID (r_meta r) = id | _ => Forall (fun r => blockExpired (r_meta r) nowMs policy = false) (b_blocks st') end /\
  (0 < n -> forall id ms, st_series (b_mem st') !! id = Some ms -> ms_chunks ms = [] -> exists r, r ∈ b_blocks st' /\ is_Some (SeriesByID r id)).
Proof. exact (ApplyRetention_spec io nowMs policy st n e st' Hst Hnow Hpol Hret). Qed.

Lemma maybeFlush_spec cfg io c : store_ok (c_store c) -> flush_ready (SealedChunksSnapshot (b_mem (c_store c))) ->
  store_ok (c_store (maybeFlush cfg io c)) /\ db_equiv (bs_db (b_store (c_store (maybeFlush cfg io c)))) (bs_db (b_store (c_store c))).
Proof.
  intros Hst Hready. unfold maybeFlush. destruct (flush_due _ _ _ _); cbn [negb]; [|done]. destruct (FlushBlock (pi_flush io) [] (c_store c)) as [res st'] eqn:E.
  destruct (flush_spec (pi_flush io) [] (c_store c) res st' Hst I (Forall_nil_2 _) Hready (bo_clash _ (sk_bs _ Hst)) E) as (H1 & H2 & _). by destruct res.
Qed.
(** C11. A maintenance pass loses only what retention allows. [RunOnce] flushes if
    due, compacts to a stable block set and applies retention to metrics and then to
    logs; whatever fails on the way, it ends, the store keeps its invariant, every
    read at or after a tenant's cutoff is what it was before the pass, and the logs,
    if there are any, have had one retention pass under the same policy. *)
Theorem maintenance_keeps_reads {L E : Type} (ApplyLogsRetention : Z -> RetentionPolicy -> L -> Z * option E * L) cfg io c (logs : option L) (Hst : store_ok (c_store c)) (Hready : flush_ready (SealedChunksSnapshot (b_mem (c_store c))))
  (Hnow : 0 <= pi_now io 2 / 1000000 <= MaxInt64) (Hpol : forall id, For (cfg_Policy cfg) id <= MaxInt64)
  (Hfit : forall i st, passes (plan_pass (cfg_Ranges cfg) (pi_compact io) (pi_retire io)) (c_store (maybeFlush cfg io c)) i st ->
    groups_fit (pi_compact io i) (pi_retire io i) 0 (Plan (BlockInfos st) (cfg_Ranges cfg)) st) :
  exists c', RunOnce ApplyLogsRetention cfg io (S (length (b_blocks (c_store (maybeFlush cfg io c))))) c logs = Some (c', (fun l => (ApplyLogsRetention (pi_now io 3) (cfg_Policy cfg) l).2) <$> logs) /\ store_ok (c_store c') /\
    forall l, let fresh := fun x => ~ outlived (pi_now io 2 / 1000000) (cfg_Policy cfg) l (s_ts x) in
      filter fresh (sortAndDedup (default [] (bs_db (b_store (c_store c')) l))) = filter fresh (sortAndDedup (default [] (bs_db (b_store (c_store c)) l))).
Proof.
  destruct (maybeFlush_spec cfg io c Hst Hready) as [Hf1 Hf2]. destruct (compactToStable_spec (cfg_Ranges cfg) (pi_compact io) (pi_retire io) (pi_cancelled io) _ Hf1 Hfit) as (why & st1 & Ec & H1 & H2 & _).
  unfold RunOnce. rewrite Ec. cbn [mbind option_bind]. eexists. split; [by destruct logs|]. unfold applyRetention. cbn [c_store lastFlush]. destruct (ApplyRetention _ _ _ st1) as [[n e] st2] eqn:Er.
  destruct (ApplyRetention_spec _ _ _ _ _ _ _ H1 Hnow Hpol Er) as (R1 & _ & R3 & _). split; [exact R1|]. intros l. cbn zeta. cbn [snd]. rewrite R3. f_equal. etrans; [apply H2|apply Hf2].
Qed.

(** ** A maintenance pass over two blocks *)

Definition demo_infos : list BlockInfo := [mkInfo "a" 1 (-5) (-1) ""; mkInfo "b" 1 (-9) (-2) ""; mkInfo "c" 1 (-3) 4 ""; mkInfo "d" 1 MinInt64 MaxInt64 ""].
Lemma demo_infos_fit : Forall info_fits demo_infos.
Proof. repeat (apply Forall_cons; split; [split; vm_compute; split; discriminate || reflexivity|]). apply Forall_nil_2. Qed.
Lemma demo_ranges_fit : Forall in_i64 [0; 10].
Proof. repeat (apply Forall_cons; split; [vm_compute; split; discriminate || reflexivity|]). apply Forall_nil_2. Qed.
(** The two blocks below zero share the window [[-10, 0)]; the third straddles zero and the last overflows. *)
Lemma plan_exact_witness : Plan demo_infos [0; 10] = [["b"; "a"]%string] /\ exists k, ["b"; "a"]%string ≡ₚ bi_ID <$> filter (lies_in 10 k) demo_infos.
Proof.
  assert (E : Plan demo_infos [0; 10] = [["b"; "a"]%string]) by (vm_compute; reflexivity). split; [exact E|].
  pose proof (plan_exact demo_infos [0; 10] (SliceStable (fun a b => bi_MinTime a <? bi_MinTime b) demo_infos) demo_infos_fit demo_ranges_fit (SliceStable_perm _ _)) as H. unfold Plan in E. rewrite E in H.
  destruct H as (before & r & after & k & Er & H0 & Hg & _). exists k. destruct before as [|x [|y before]]; cbn [app] in Er; [injection Er as <- _; lia|injection Er as _ <- _; exact Hg|]. injection Er as _ _ Er. by destruct before.
Defined.

Definition one_range : list Z := [7200000].
Definition demo_pass_ios : nat -> nat -> write_io := fun _ => demo_ios.
Definition demo_pass_rios : nat -> nat -> retire_io := fun _ => demo_rios.
Lemma demo_plan_groups : Plan (BlockInfos two_blocks) one_range = [demo_group].
Proof. vm_compute. reflexivity. Qed.
Definition demo_merged : bstate := (plan_pass one_range demo_pass_ios demo_pass_rios 0 two_blocks).2.
Lemma demo_merged_done : Plan (BlockInfos demo_merged) one_range = [].
Proof. vm_compute. reflexivity. Qed.
Lemma demo_passes i st : passes (plan_pass one_range demo_pass_ios demo_pass_rios) two_blocks i st -> (i = 0%nat /\ st = two_blocks) \/ Plan (BlockInfos st) one_range = [].
Proof.
  induction 1 as [|i st n st' _ IH Hp Hn]; [by left|right]. destruct IH as [[-> ->]|Hnil].
  - assert (E : st' = demo_merged) by (unfold demo_merged; by rewrite Hp). rewrite E. exact demo_merged_done.
  - unfold plan_pass, CompactOnce in Hp. rewrite Hnil in Hp. cbn [compact_groups] in Hp. by injection Hp as <- _.
Qed.
Lemma demo_passes_fit i st : passes (plan_pass one_range demo_pass_ios demo_pass_rios) two_blocks i st -> groups_fit (demo_pass_ios i) (demo_pass_rios i) 0 (Plan (BlockInfos st) one_range) st.
Proof. intros [[-> ->]| ->]%demo_passes; [|exact I]. rewrite demo_plan_groups. exact demo_groups_fit. Qed.
Lemma compactToStable_terminates_witness : exists st', compactToStable (plan_pass one_range demo_pass_ios demo_pass_rios) (fun _ => false) 3 0 two_blocks = Some (Stable, st') /\ db_equiv (bs_db (b_store st')) (bs_db (b_store two_blocks)).
Proof.
  destruct (compactToStable_terminates one_range demo_pass_ios demo_pass_rios (fun _ => false) two_blocks (proj1 two_blocks_ok) demo_passes_fit) as (why & st' & E & _ & H & _).
  assert (El : S (length (b_blocks two_blocks)) = 3%nat) by (vm_compute; reflexivity). rewrite El in E. exists st'. split; [|exact H].
  assert (Ew : match compactToStable (plan_pass one_range demo_pass_ios demo_pass_rios) (fun _ => false) 3 0 two_blocks with Some (Stable, _) => true | _ => false end = true) by (vm_compute; reflexivity).
  rewrite E in Ew |- *. destruct why; [discriminate Ew|discriminate Ew|reflexivity].
Defined.
Lemma twice_same {A} (x y : A) (k : nat) : [x; x] !! k = Some y -> x = y.
Proof. destruct k as [|[|k]]; cbn; [by intros [= ->]|by intros [= ->]|done]. Qed.
Lemma stores_compact_independently_witness : exists rs, multi_CompactOnce one_range (fun _ => demo_pass_ios) (fun _ => demo_pass_rios) [two_blocks; two_blocks] = Some (answer 0 None rs) /\ length rs = 2%nat.
Proof.
  destruct (stores_compact_independently one_range (fun _ => demo_pass_ios) (fun _ => demo_pass_rios) [two_blocks; two_blocks]) as (rs & H1 & H2 & _).
  - apply Forall_cons. split; [exact (proj1 two_blocks_ok)|]. apply Forall_singleton. exact (proj1 two_blocks_ok).
  - intros k st Hk. rewrite <- (twice_same _ _ _ Hk). exact demo_passes_fit.
  - exists rs. split; [exact H1|exact H2].
Defined.

Definition demo_policy : RetentionPolicy := mkPolicy 1000000000 ∅.
Lemma demo_policy_fits id : For demo_policy id <= MaxInt64.
Proof. unfold For, demo_policy. cbn [rp_Overrides rp_Default]. rewrite lookup_empty. vm_compute. discriminate. Qed.
Definition demo_expire : expire_io := mkExpire (fun _ => false) (fun _ => false) (fun _ => false).
Definition demo_retained := ApplyRetention demo_expire 9000 demo_policy two_blocks.
(** Two seconds of samples are gone six seconds later; nothing else can tell. *)
Lemma retention_exact_witness : demo_retained.1.1 = 2 /\ b_blocks demo_retained.2 = [] /\ store_ok demo_retained.2.
Proof.
  destruct demo_retained as [[n e] st'] eqn:E. destruct (retention_exact demo_expire 9000 demo_policy two_blocks n e st' (proj1 two_blocks_ok) ltac:(split; [lia|vm_compute; discriminate]) demo_policy_fits E) as (H1 & _).
  assert (Hc : (demo_retained.1.1, length (b_blocks demo_retained.2)) = (2, 0%nat)) by (vm_compute; reflexivity). rewrite E in Hc. injection Hc as Hn Hl. split; [exact Hn|]. split; [by apply length_zero_iff_nil|exact H1].
Defined.

Definition demo_cfg : Config := mkConfig 0 0 0 one_range (mkPolicy 0 ∅).
Definition demo_io : pass_io := mkPass (fun _ => 9000000000) None (fun _ => false) (fun _ => mkIO None 0 None None) demo_pass_ios demo_pass_rios demo_expire.
Definition demo_c : maintenance := mkMaintenance 0 two_blocks.
Lemma demo_no_flush : SealedChunksSnapshot (b_mem two_blocks) = [].
Proof. vm_compute. reflexivity. Qed.
Lemma flush_ready_nil : flush_ready [].
Proof. split; [constructor|constructor|intros t; exact block_fits_nil|intros t; vm_compute; discriminate]. Qed.
Lemma nothing_to_flush cfg io last st : flush_due cfg (time_Sub (pi_now io 0) last) (Z.of_nat (SealedChunkCount (b_mem st))) (pi_walBytes io) = true -> SealedChunksSnapshot (b_mem st) = [] -> maybeFlush cfg io (mkMaintenance last st) = mkMaintenance (pi_now io 1) st.
Proof. intros Hd Hs. unfold maybeFlush. cbn [c_store lastFlush]. rewrite Hd. unfold FlushBlock. rewrite Hs. by destruct st. Qed.
Lemma demo_maybe : maybeFlush demo_cfg demo_io demo_c = mkMaintenance 9000000000 two_blocks.
Proof. apply nothing_to_flush; [vm_compute; reflexivity|exact demo_no_flush]. Qed.
Lemma demo_maybe_store : c_store (maybeFlush demo_cfg demo_io demo_c) = two_blocks.
Proof. rewrite demo_maybe. reflexivity. Qed.
Lemma keep_forever id : For (mkPolicy 0 ∅) id <= MaxInt64.
Proof. unfold For. cbn [rp_Overrides rp_Default]. rewrite lookup_empty. vm_compute. discriminate. Qed.
(** Logs counted in files, of which a pass deletes two. *)
Definition demo_logs (_ : Z) (_ : RetentionPolicy) (l : Z) : Z * option unit * Z := (2, None, l - 2).
Lemma maintenance_keeps_reads_witness : exists c', RunOnce demo_logs demo_cfg demo_io 3 demo_c (Some 5) = Some (c', Some 3) /\ store_ok (c_store c') /\ length (b_blocks (c_store c')) = 1%nat.
Proof.
  destruct (maintenance_keeps_reads demo_logs demo_cfg demo_io demo_c (Some 5) (proj1 two_blocks_ok)) as (c' & E & H & _).
  - cbn [demo_c c_store]. rewrite demo_no_flush. exact flush_ready_nil.
  - split; [vm_compute; discriminate|vm_compute; discriminate].
  - exact keep_forever.
  - rewrite demo_maybe_store. exact demo_passes_fit.
  - rewrite demo_maybe_store in E. assert (El : S (length (b_blocks two_blocks)) = 3%nat) by (vm_compute; reflexivity). rewrite El in E. exists c'. split; [exact E|]. split; [exact H|].
    assert (Ew : match RunOnce demo_logs demo_cfg demo_io 3 demo_c (Some 5) with Some (c, _) => length (b_blocks (c_store c)) | None => 0%nat end = 1%nat) by (vm_compute; reflexivity). rewrite E in Ew. exact Ew.
Defined.
