(* ===== verification/BlockLoad.v ===== *)
(** * BlockLoad: start-up of the block store

    [NewBlockStore] and [openWitness] of [internal/metrics/blockstore.go]: every
    block is opened and decoded before anything is deleted, superseded sources are
    reclaimed only along proven edges to a block that stays, and the head's
    generations start above every stored one. *)
From stdpp Require Import strings.
From S2P Require Import Prelude GoLib GoSort Chunk Dedup Labels Source ReadEquiv MemStore BlockIndex Block BlockStore BlockCheck BlockIngest BlockCompact Compactor.

(** ** Opening *)

Definition check_block (name : string) (d : blockDir) : result loadErr (Reader * Z) := r ← lift_block (open_block name d); deep_check r.
(** A block read for its samples only. *)
Definition openWitness (name : string) (d : blockDir) : option Reader :=
  match OpenReader name d with
  | Err _ => None
  | Ok r =>
      match ValidateChunkRefs r with
      | Err _ => None
      | Ok _ => match validateBlockChunks r with Err _ => None | Ok _ => Some r end
      end
  end.
Definition open_all (blocks : gmap string blockDir) : gmap string (Reader * Z) := map_imap (fun name d => match check_block name d with Ok x => Some x | Err _ => None end) blocks.
Definition failed_blocks (blocks : gmap string blockDir) : gmap string loadErr := map_imap (fun name d => match check_block name d with Ok _ => None | Err e => Some e end) blocks.
Notation readers := (gmap string Reader).
Definition superseded_names (opened : readers) : gset string := list_to_set ((map_to_list opened).*2 ≫= fun r => m_Sources (r_meta r)).

(** ** Which sources are proven superseded *)

Definition survivorAttest (opened witnesses : readers) (sv : Reader) : attestor :=
  blocksAttest (omap (fun name => match opened !! name with Some r => Some r | None => witnesses !! name end) (m_Sources (r_meta sv))) (m_BlockID (r_meta sv)).
(** The survivors listing [name] that provably hold all of [r]. *)
Definition verified (opened witnesses : readers) (name : string) (r : Reader) : list string :=
  omap (fun e : string * Reader =>
    let sv := e.2 in
    if bool_decide (name ∈ m_Sources (r_meta sv)) then
      match decodeBlockGens sv with
      | Err _ => None
      | Ok gens => match survivorSupersedesSource gens (m_BlockID (r_meta sv)) r (survivorAttest opened witnesses sv) with Ok true => Some (m_BlockID (r_meta sv)) | _ => None end
      end
    else None) (map_to_list opened).
Definition verifiedBy (opened witnesses : readers) : gmap string (list string) :=
  map_imap (fun name r => match verified opened witnesses name r with [] => None | svs => Some svs end) opened.

(** ** The reclaim fixpoint *)

Section Reclaim.
Context (verifiedBy : gmap string (list string)).
Definition isRoot (id : string) : bool := bool_decide (verifiedBy !! id = None).
Definition reclaim_one (reclaim : gset string) (e : string * list string) : gset string :=
  if bool_decide (e.1 ∈ reclaim) then reclaim else
  if existsb (fun sv => isRoot sv || bool_decide (sv ∈ reclaim))%bool e.2 then {[e.1]} ∪ reclaim else reclaim.
(** One pass, over the entries in the order the map yields them. *)
Definition reclaim_pass (entries : list (string * list string)) (reclaim : gset string) : gset string := fold_left reclaim_one entries reclaim.
Fixpoint reclaim_loop (order : nat -> list (string * list string)) (fuel i : nat) (reclaim : gset string) : option (gset string) :=
  match fuel with
  | O => None
  | S fuel => let reclaim' := reclaim_pass (order i) reclaim in if decide (reclaim' = reclaim) then Some reclaim else reclaim_loop order fuel (S i) reclaim'
  end.
(** A verified chain of survivors leads to a block that is kept. *)
Inductive reaches_root : string -> Prop :=
  | reaches_now name svs sv : verifiedBy !! name = Some svs -> sv ∈ svs -> verifiedBy !! sv = None -> reaches_root name
  | reaches_later name svs sv : verifiedBy !! name = Some svs -> sv ∈ svs -> reaches_root sv -> reaches_root name.
End Reclaim.

(** ** The store after start-up *)

Inductive startErr := StartCorrupt (name : string) (e : loadErr).
Definition max_gen (opened : list (Reader * Z)) : Z := fold_left (fun m x => if m <? x.2 then x.2 else m) opened 0.
(** [reclaim] is the fixpoint for the survivors found. *)
Definition load_blocks (io : retire_io) (keeps : string -> bool) (opened : gmap string (Reader * Z)) (reclaim : gset string) (blockDir tmpDir : gmap string blockDir) : bstate :=
  let names := superseded_names (fst <$> opened) in
  let retire := filter (fun name => opened !! name = None \/ name ∈ reclaim) names in
  let live := filter (fun e : string * (Reader * Z) => e.1 ∉ retire) opened in
  let kept := SliceStable (fun a b => m_MinTime (r_meta a.1) <? m_MinTime (r_meta b.1)) (map_to_list live).*2 in
  let '(allMoved, _, st) := retireBlocks io (sort_str id (elements retire)) (mkBState (EnsureGenFloor NewMemoryStore (i64 (max_gen kept + 1))) kept.*1 blockDir tmpDir) in
  if (allMoved : bool) then sweepTmpDir keeps st else st.
Definition NewBlockStore (io : retire_io) (keeps : string -> bool) (order : nat -> list (string * list string)) (fuel : nat) (blockDir tmpDir : gmap string blockDir) : option (result startErr bstate) :=
  let opened := open_all blockDir in
  let witnesses := map_imap openWitness tmpDir in
  let superseded := superseded_names (fst <$> opened) in
  match map_to_list (filter (fun e : string * loadErr => e.1 ∉ superseded) (failed_blocks blockDir)) with
  | (name, e) :: _ => Some (Err (StartCorrupt name e))
  | [] =>
      reclaim ← reclaim_loop (verifiedBy (fst <$> opened) witnesses) order fuel 0 ∅;
      Some (Ok (load_blocks io keeps opened reclaim blockDir tmpDir))
  end.
Definition range_order (vb : gmap string (list string)) : nat -> list (string * list string) := fun _ => map_to_list vb.

(** ** The fixpoint is reachability *)

Section ReclaimSpec.
Context (vb : gmap string (list string)).
Notation rch := (reaches_root vb).
Lemma reclaim_one_mono rc e : rc ⊆ reclaim_one vb rc e.
Proof. unfold reclaim_one. destruct (bool_decide _); [done|]. destruct (existsb _ _); set_solver. Qed.
Lemma reclaim_pass_mono entries rc : rc ⊆ reclaim_pass vb entries rc.
Proof.
  unfold reclaim_pass. revert rc. induction entries as [|e entries IH]; intros rc; [done|]. cbn [fold_left]. etrans; [apply (reclaim_one_mono rc e)|apply IH].
Qed.
Lemma reclaim_one_sound rc name svs : (forall x, x ∈ rc -> rch x) -> vb !! name = Some svs -> forall x, x ∈ reclaim_one vb rc (name, svs) -> rch x.
Proof.
  intros Hrc Hvb x. unfold reclaim_one. cbn [fst snd]. destruct (bool_decide (name ∈ rc)); [apply Hrc|]. destruct (existsb _ svs) eqn:Ex; [|apply Hrc].
  intros [->%elem_of_singleton|Hx]%elem_of_union; [|by apply Hrc]. apply existsb_exists in Ex as (sv & Hin%list_elem_of_In & Hsv). apply orb_true_iff in Hsv as [Hroot|Hd]; [eapply reaches_now; [done..|by apply bool_decide_eq_true in Hroot]|].
  apply bool_decide_eq_true in Hd. eapply reaches_later; [done..|by apply Hrc].
Qed.
Lemma reclaim_pass_sound entries rc : (forall e, e ∈ entries -> vb !! e.1 = Some e.2) -> (forall x, x ∈ rc -> rch x) -> forall x, x ∈ reclaim_pass vb entries rc -> rch x.
Proof.
  unfold reclaim_pass. revert rc. induction entries as [|[name svs] entries IH]; intros rc He Hrc; [exact Hrc|]. cbn [fold_left]. apply IH; [intros e Hin; apply He; by right|].
  apply reclaim_one_sound; [done|]. exact (He (name, svs) (list_elem_of_here _ _)).
Qed.
(** A pass that changes nothing has looked at every entry. *)
Lemma reclaim_pass_closed entries rc : reclaim_pass vb entries rc = rc -> forall e, e ∈ entries -> reclaim_one vb rc e = rc.
Proof.
  unfold reclaim_pass. intros Hrc. induction entries as [|e entries IH]; [intros e He; by apply not_elem_of_nil in He|]. cbn [fold_left] in Hrc.
  assert (E : reclaim_one vb rc e = rc) by (apply set_eq; intros x; split; [|apply reclaim_one_mono]; intros Hx; rewrite <- Hrc; by apply (reclaim_pass_mono entries)).
  rewrite E in Hrc. intros e' [->|He]%elem_of_cons; [done|by apply IH].
Qed.
Lemma reclaim_one_closed rc name svs sv : reclaim_one vb rc (name, svs) = rc -> sv ∈ svs -> vb !! sv = None \/ sv ∈ rc -> name ∈ rc.
Proof.
  unfold reclaim_one. cbn [fst snd]. case_bool_decide as Hn; [done|]. intros E Hin Hsv. destruct (existsb _ svs) eqn:Ex; [rewrite <- E; set_solver|]. exfalso.
  assert (Ht : existsb (fun sv => isRoot vb sv || bool_decide (sv ∈ rc))%bool svs = true); [|congruence]. apply existsb_exists. exists sv. split; [by apply list_elem_of_In|]. apply orb_true_iff. unfold isRoot. destruct Hsv; [left|right]; by apply bool_decide_eq_true.
Qed.
Lemma reclaim_fixpoint entries rc : entries ≡ₚ map_to_list vb -> reclaim_pass vb entries rc = rc -> (forall x, x ∈ rc -> rch x) -> forall x, x ∈ rc <-> rch x.
Proof.
  intros Hp Hfix Hs x. split; [apply Hs|]. assert (Hcl : forall name svs, vb !! name = Some svs -> reclaim_one vb rc (name, svs) = rc) by (intros name svs Hv; apply (reclaim_pass_closed entries); [done|]; rewrite Hp; by apply elem_of_map_to_list).
  induction 1 as [name svs sv Hv Hin Hr|name svs sv Hv Hin _ IH]; eapply reclaim_one_closed; [by apply Hcl|done|by left|by apply Hcl|done|by right].
Qed.
Lemma reaches_listed name : rch name -> name ∈ dom vb.
Proof. intros Hr. apply elem_of_dom. destruct Hr as [name svs sv Hv _ _|name svs sv Hv _ _]; by eexists. Qed.
Lemma reclaim_loop_spec order fuel i rc : (forall i, order i ≡ₚ map_to_list vb) -> (forall x, x ∈ rc -> rch x) -> (size (dom vb) < size rc + fuel)%nat ->
  exists rc', reclaim_loop vb order fuel i rc = Some rc' /\ forall x, x ∈ rc' <-> rch x.
Proof.
  intros Ho. revert i rc. induction fuel as [|fuel IH]; intros i rc Hs Hf.
  - assert (size rc <= size (dom vb))%nat by (apply subseteq_size; intros x Hx; by apply reaches_listed, Hs). lia.
  - cbn [reclaim_loop]. assert (Hs' : forall x, x ∈ reclaim_pass vb (order i) rc -> rch x).
    { apply reclaim_pass_sound; [|done]. intros [name svs] He. rewrite Ho in He. by apply elem_of_map_to_list in He. }
    destruct (decide (reclaim_pass vb (order i) rc = rc)) as [E|Hne]; [exists rc; split; [done|]; exact (reclaim_fixpoint _ _ (Ho i) E Hs)|].
    apply IH; [done|]. assert (size rc < size (reclaim_pass vb (order i) rc))%nat; [|lia]. apply subset_size. split; [apply reclaim_pass_mono|]. intros Hsub. apply Hne, set_eq. intros x. split; [apply Hsub|apply reclaim_pass_mono].
Qed.
End ReclaimSpec.

(** C37. Reclamation ends, and deletes exactly what a kept block proves. In whatever
    order the map yields its entries, the loop of start-up reaches its fixpoint
    within one pass more than there are candidates, and what it marks is exactly
    the blocks from which a chain of verified survivors leads to a block nothing
    supersedes. In particular blocks that only supersede each other stay. *)
Theorem reclaim_exact (vb : gmap string (list string)) (order : nat -> list (string * list string)) (Ho : forall i, order i ≡ₚ map_to_list vb) :
  exists reclaim, reclaim_loop vb order (S (size vb)) 0 ∅ = Some reclaim /\ forall name, name ∈ reclaim <-> reaches_root vb name.
Proof. apply reclaim_loop_spec; [done|intros x Hx; by apply not_elem_of_empty in Hx|]. rewrite size_dom, size_empty. lia. Qed.
Definition demo_verified : gmap string (list string) := {["a" := ["b"]; "b" := ["c"]; "x" := ["y"]; "y" := ["x"]]}%string.
Lemma reclaim_exact_witness : exists reclaim, reclaim_loop demo_verified (range_order demo_verified) 5 0 ∅ = Some reclaim /\ ("a" ∈ reclaim)%string /\ ("x" ∉ reclaim)%string.
Proof.
  destruct (reclaim_exact demo_verified (range_order demo_verified) (fun _ => reflexivity _)) as (reclaim & E & Hin). exists reclaim. split; [exact E|].
  assert (Hd : reclaim_loop demo_verified (range_order demo_verified) 5 0 ∅ = Some {["a"; "b"]}%string) by (vm_compute; reflexivity). change (S (size demo_verified)) with 5%nat in E. rewrite Hd in E. injection E as <-.
  split; [set_solver|]. intros Hx. vm_compute in Hx. discriminate Hx.
Defined.

(** ** What start-up opens *)

Section Opened.
Context (blocks tmpDir : gmap string blockDir) (Hdirs : forall name d, blocks !! name = Some d -> dir_ok d).
Notation opened := (open_all blocks).
Notation id_of r := (m_BlockID (r_meta r)).
Lemma opened_at name x : opened !! name = Some x <-> exists d, blocks !! name = Some d /\ check_block name d = Ok x.
Proof.
  unfold open_all. rewrite map_lookup_imap. destruct (blocks !! name) as [d|]; cbn [mbind option_bind]; [|split; [done|by intros (d & ? & _)]].
  destruct (check_block name d) as [y|] eqn:E; split; [intros [= ->]; by exists d|intros (d' & [= <-] & H); congruence|done|intros (d' & [= <-] & H); congruence].
Qed.
Record opens_well (name : string) (r : Reader) (g : Z) : Prop := {
  ow_good : block_good r;
  ow_figures : figures_true r;
  ow_id : id_of r = name;
  ow_gen : g = block_gen r;
  ow_disk : exists d, blocks !! name = Some d /\ serves d r }.
Lemma opened_well name r g : opened !! name = Some (r, g) -> opens_well name r g.
Proof.
  intros (d & Hd & Hc)%opened_at. unfold check_block in Hc. destruct (open_block name d) as [r0|] eqn:Eo; [|done]. cbn [lift_block] in Hc. rewrite bind_Ok in Hc.
  pose proof Eo as (Hopen & Hv & _)%open_block_ok. destruct (OpenReader_opened _ _ _ (Hdirs name d Hd) Hopen) as (Hop & _ & Hid & _). destruct (deep_check_spec r0 r g Hop Hv Hc) as (H1 & H2 & H3 & H4 & _ & E1 & _ & E3 & _).
  split; [done|done|congruence|done|]. exists d. split; [done|]. exists r0, r, g. rewrite E1, Hid. split_and!; [done|done|by split|done].
Qed.
Definition opened_readers : list Reader := (map_to_list opened).*2.*1.
Lemma opened_readers_in r : r ∈ opened_readers <-> exists g, opened !! id_of r = Some (r, g).
Proof.
  unfold opened_readers. split.
  - intros (p & -> & ([name [r' g]] & -> & H%elem_of_map_to_list)%list_elem_of_fmap)%list_elem_of_fmap. cbn [fst snd] in *. exists g. by rewrite (ow_id _ _ _ (opened_well _ _ _ H)).
  - intros [g Hg]. apply list_elem_of_fmap. exists (r, g). split; [done|]. apply list_elem_of_fmap. exists (id_of r, (r, g)). split; [done|]. by apply elem_of_map_to_list.
Qed.

(** *** Proven edges *)

Context (Hnc : no_collision (block_db <$> opened_readers)).
Notation vb := (verifiedBy (fst <$> opened) (map_imap openWitness tmpDir)).
Lemma opened_no_collision r1 r2 : r1 ∈ opened_readers -> r2 ∈ opened_readers -> no_collision [block_db r1; block_db r2].
Proof. intros H1 H2. eapply no_collision_sub; [|exact Hnc]. intros x [->| ->%list_elem_of_singleton]%elem_of_cons; by apply (list_elem_of_fmap_2 block_db). Qed.
Lemma verified_edge name svs sv : vb !! name = Some svs -> sv ∈ svs -> exists r r' g g', opened !! name = Some (r, g) /\ opened !! sv = Some (r', g') /\ db_covered (block_db r) (block_db r').
Proof.
  unfold verifiedBy. rewrite map_lookup_imap, lookup_fmap. destruct (opened !! name) as [[r g]|] eqn:Er; [|done]. cbn [fmap option_fmap option_map mbind option_bind fst].
  assert (H : forall sv, sv ∈ verified (fst <$> opened) (map_imap openWitness tmpDir) name r -> exists r' g', opened !! sv = Some (r', g') /\ db_covered (block_db r) (block_db r')).
  { intros s ([i x] & Hx%elem_of_map_to_list & Hs)%list_elem_of_omap. rewrite lookup_fmap in Hx. destruct (opened !! i) as [[r' g']|] eqn:Er'; [|done]. injection Hx as <-. cbn [snd fst] in Hs.
    destruct (bool_decide _); [|done]. destruct (decodeBlockGens r') as [gens|] eqn:Eg; [|done]. destruct (survivorSupersedesSource _ _ _ _) as [[|]|] eqn:Es; [|done..]. injection Hs as <-.
    pose proof (opened_well _ _ _ Er) as [R1 _ R3 _ _]. pose proof (opened_well _ _ _ Er') as [S1 _ S3 _ _]. exists r', g'. rewrite S3. split; [done|].
    eapply supersedes_covers; [done|done| |exact Eg|exact Es]. apply opened_no_collision; apply opened_readers_in; [rewrite S3|rewrite R3]; by eexists. }
  destruct (verified _ _ name r) as [|s l] eqn:Ev; [done|]. intros [= <-] Hin. destruct (H sv Hin) as (r' & g' & H1 & H2). by exists r, r', g, g'.
Qed.
Lemma root_covers name : reaches_root vb name -> exists root r g, opened !! root = Some (r, g) /\ vb !! root = None /\ forall r0 g0, opened !! name = Some (r0, g0) -> db_covered (block_db r0) (block_db r).
Proof.
  induction 1 as [name svs sv Hv Hin Hroot|name svs sv Hv Hin _ IH]; destruct (verified_edge _ _ _ Hv Hin) as (r1 & r2 & g1 & g2 & E1 & E2 & Hc).
  - exists sv, r2, g2. split_and!; [done|done|]. intros r0 g0 E0. rewrite E0 in E1. by injection E1 as -> ->.
  - destruct IH as (root & r & g & Er & Hr & Hcov). exists root, r, g. split_and!; [done|done|]. intros r0 g0 E0. rewrite E0 in E1. injection E1 as -> ->. etrans; [exact Hc|by eapply Hcov].
Qed.
End Opened.

(** ** What start-up serves *)

Lemma superseded_in (opened : readers) name : name ∈ superseded_names opened <-> exists id r, opened !! id = Some r /\ name ∈ m_Sources (r_meta r).
Proof.
  unfold superseded_names. rewrite elem_of_list_to_set, list_elem_of_bind. split.
  - intros (r & Hn & ([id r'] & -> & H%elem_of_map_to_list)%list_elem_of_fmap). by exists id, r'.
  - intros (id & r & H & Hn). exists r. split; [done|]. apply list_elem_of_fmap. exists (id, r). split; [done|]. by apply elem_of_map_to_list.
Qed.
Lemma max_gen_spec (l : list (Reader * Z)) m : m <= fold_left (fun m x => if m <? x.2 then x.2 else m) l m /\ Forall (fun x => x.2 <= fold_left (fun m x => if m <? x.2 then x.2 else m) l m) l /\
  (fold_left (fun m x => if m <? x.2 then x.2 else m) l m = m \/ exists x, x ∈ l /\ fold_left (fun m x => if m <? x.2 then x.2 else m) l m = x.2).
Proof.
  revert m. induction l as [|x l IH]; intros m; cbn [fold_left]; [split; [lia|split; [constructor|by left]]|]. destruct (IH (if m <? x.2 then x.2 else m)) as (H1 & H2 & H3).
  assert (Hm : m <= (if m <? x.2 then x.2 else m) /\ x.2 <= (if m <? x.2 then x.2 else m)) by (destruct (Z.ltb_spec m x.2); lia). split; [lia|]. split; [constructor; [lia|done]|].
  destruct H3 as [H3|(y & Hy & H3)]; [|right; exists y; split; [by right|done]]. destruct (m <? x.2); [right; exists x; split; [by left|done]|by left].
Qed.
Lemma floor_no_samples floor l : store_db (EnsureGenFloor NewMemoryStore floor) l = None.
Proof. unfold EnsureGenFloor, store_db. destruct (_ <? _); cbn [set_nextGen st_series NewMemoryStore]; by rewrite lookup_empty. Qed.
Lemma reader_gens r y : block_good r -> y ∈ reader_samples r -> s_gen y <= MaxGeneration.
Proof.
  intros Hr (se & Hy & Hse)%list_elem_of_bind. pose proof (bg_entries r Hr) as HF. rewrite Forall_forall in HF. destruct (HF se Hse) as (l & cs & Hg).
  unfold entry_samples in Hy. rewrite (ge_read _ _ _ _ Hg) in Hy. apply list_elem_of_bind in Hy as (c & Hy & Hc). pose proof (ge_sound _ _ _ _ Hg) as HS. rewrite Forall_forall in HS. pose proof (sound_valid c (HS c Hc)) as HV.
  rewrite Forall_forall in HV. destruct (HV y Hy) as [_ H]. lia.
Qed.
Lemma block_gen_max r : block_good r -> block_gen r <= MaxGeneration.
Proof.
  intros Hr. unfold block_gen. destruct (max_from_spec (s_gen <$> reader_samples r) 0) as (_ & _ & [->|(y & -> & Hy)%list_elem_of_In%list_elem_of_fmap]); [unfold MaxGeneration; lia|]. by apply (reader_gens r).
Qed.
Lemma block_db_gen r l x : block_good r -> x ∈ default [] (block_db r l) -> s_gen x <= block_gen r.
Proof.
  intros Hr Hx. destruct (block_db r l) as [ws|] eqn:E; [|by apply not_elem_of_nil in Hx]. apply block_db_some in E as (se & cs & Hse & Hg & ->); [|done].
  unfold block_gen. destruct (max_from_spec (s_gen <$> reader_samples r) 0) as (_ & H2 & _). rewrite Forall_forall in H2. apply H2, (list_elem_of_fmap_2 s_gen), list_elem_of_bind.
  exists se. split; [unfold entry_samples; by rewrite (ge_read _ _ _ _ Hg)|]. by apply (proj1 (bg_byID r Hr (Hash l) se)).
Qed.

Section Load.
Context (blocks tmpDir : gmap string blockDir) (Hdirs : forall name d, blocks !! name = Some d -> dir_ok d) (Hnc : no_collision (block_db <$> opened_readers blocks)).
Notation opened := (open_all blocks).
Notation id_of r := (m_BlockID (r_meta r)).
Notation vb := (verifiedBy (fst <$> opened) (map_imap openWitness tmpDir)).
Context (reclaim : gset string) (Hre : forall name, name ∈ reclaim <-> reaches_root vb name).
Definition is_retired (name : string) : Prop := name ∈ superseded_names (fst <$> opened) /\ (opened !! name = None \/ name ∈ reclaim).
#[local] Instance is_retired_dec name : Decision (is_retired name).
Proof. unfold is_retired. apply _. Defined.
Lemma load_spec io keeps : let st := load_blocks io keeps opened reclaim blocks tmpDir in
  (forall r, r ∈ b_blocks st <-> r ∈ opened_readers blocks /\ ~ is_retired (id_of r)) /\ NoDup ((fun r => id_of r) <$> b_blocks st) /\
  (exists floor, b_mem st = EnsureGenFloor NewMemoryStore floor /\ forall r, r ∈ b_blocks st -> forall l x, x ∈ default [] (block_db r l) -> s_gen x < floor) /\
  (forall name, ~ is_retired name -> b_blockDir st !! name = blocks !! name).
Proof.
  cbn zeta. unfold load_blocks. set (retire := filter _ (superseded_names _)).
  assert (Hret : forall name, name ∈ retire <-> is_retired name) by (intros name; unfold retire, is_retired; rewrite elem_of_filter; tauto).
  set (live := filter (fun e : string * (Reader * Z) => e.1 ∉ retire) opened). set (kept := SliceStable _ (map_to_list live).*2).
  assert (Hkept : forall r g, (r, g) ∈ kept <-> opened !! id_of r = Some (r, g) /\ ~ is_retired (id_of r)).
  { intros r g. unfold kept. rewrite SliceStable_perm. split.
    - intros ([name x] & E & H%elem_of_map_to_list)%list_elem_of_fmap. cbn [snd] in E. subst x. unfold live in H. apply map_lookup_filter_Some in H as [H Hn]. cbn [fst] in Hn. rewrite (ow_id _ _ _ _ (opened_well _ Hdirs _ _ _ H)). by rewrite <- Hret.
    - intros [H Hn]. apply list_elem_of_fmap. exists (id_of r, (r, g)). split; [done|]. apply elem_of_map_to_list, map_lookup_filter_Some. split; [done|]. cbn [fst]. by rewrite Hret. }
  assert (Hin : forall r, r ∈ kept.*1 <-> r ∈ opened_readers blocks /\ ~ is_retired (id_of r)).
  { intros r. rewrite (opened_readers_in _ Hdirs). split; [intros ([r' g] & -> & [H1 H2]%Hkept)%list_elem_of_fmap; split; [by exists g|done]|]. intros [[g Hg] Hn]. apply list_elem_of_fmap. exists (r, g). split; [done|]. by apply Hkept. }
  assert (Hnd : NoDup ((fun r => id_of r) <$> kept.*1)).
  { assert (E : (fun r => id_of r) <$> kept.*1 ≡ₚ (map_to_list live).*1); [|rewrite E; apply NoDup_fst_map_to_list]. unfold kept. rewrite SliceStable_perm, <- !list_fmap_compose. erewrite list_fmap_ext; [reflexivity|].
    intros i [name [r g]] H%list_elem_of_lookup_2%elem_of_map_to_list. unfold live in H. apply map_lookup_filter_Some in H as [H _]. unfold compose. cbn [fst snd]. apply (ow_id _ _ _ _ (opened_well _ Hdirs _ _ _ H)). }
  set (floor := i64 (max_gen kept + 1)). set (st0 := mkBState _ kept.*1 blocks tmpDir).
  assert (Hfloor : forall r, r ∈ kept.*1 -> forall l x, x ∈ default [] (block_db r l) -> s_gen x < floor).
  { intros r Hr l x Hx. apply list_elem_of_fmap in Hr as ([r' g] & -> & Hr). cbn [fst] in *. destruct (proj1 (Hkept _ _) Hr) as [Ho _]. destruct (opened_well _ Hdirs _ _ _ Ho) as [W1 _ _ -> _]. pose proof (block_db_gen r' l x W1 Hx) as G1.
    destruct (max_gen_spec kept 0) as (M0 & M1 & M2). rewrite Forall_forall in M1. specialize (M1 _ Hr). cbn [snd] in M1. unfold floor, max_gen in *.
    assert (Hm : fold_left (fun m x => if m <? x.2 then x.2 else m) kept 0 <= MaxGeneration).
    { destruct M2 as [->|([r2 g2] & H2 & ->)]; [unfold MaxGeneration; lia|]. cbn [snd]. destruct (proj1 (Hkept _ _) H2) as [Ho2 _]. destruct (opened_well _ Hdirs _ _ _ Ho2) as [W2 _ _ -> _]. by apply block_gen_max. }
    rewrite i64_id by (unfold in_i64, MaxGeneration in *; lia). lia. }
  pose proof (retireBlocks_spec io (sort_str id (elements retire)) st0) as HR. destruct (retireBlocks io _ st0) as [[allMoved failed] st]. destruct HR as (R1 & R2 & R3 & _).
  assert (Hdir : forall name, ~ is_retired name -> b_blockDir st !! name = blocks !! name).
  { intros name Hn. destruct (R3 name) as [-> _]; [|done]. intros Hx. apply Hn, Hret. rewrite sort_str_perm in Hx. by apply elem_of_elements in Hx. }
  destruct allMoved; cbn [sweepTmpDir set_dirs b_blocks b_mem b_blockDir]; rewrite ?R1, ?R2; (split_and!; [exact Hin|exact Hnd|exists floor; split; [reflexivity|exact Hfloor]|exact Hdir]).
Qed.

Lemma load_good io keeps : let st := load_blocks io keeps opened reclaim blocks tmpDir in
  store_ok st /\ db_equiv (bs_db (b_store st)) (blocks_db (fun _ => None) (opened_readers blocks)) /\
  (forall l x, x ∈ default [] (bs_db (b_store st) l) -> s_gen x < st_nextGen (b_mem st)).
Proof.
  cbn zeta. destruct (load_spec io keeps) as (Hin & Hnd & (floor & Hmem & Hfloor) & Hdir). set (st := load_blocks io keeps opened reclaim blocks tmpDir) in *.
  assert (Hopen : forall r, r ∈ b_blocks st -> exists g, opened !! id_of r = Some (r, g)) by (intros r [Hr _]%Hin; by apply (opened_readers_in _ Hdirs)).
  assert (Hall : forall P : Reader -> Prop, (forall r g, opened !! id_of r = Some (r, g) -> ~ is_retired (id_of r) -> P r) -> Forall P (b_blocks st)).
  { intros P HP. apply Forall_forall. intros r Hr. destruct (Hopen r Hr) as [g Hg]. apply (HP r g Hg). by apply Hin. }
  assert (Hnone : forall l, store_db (b_mem st) l = None) by (intros l; rewrite Hmem; apply floor_no_samples).
  split; [|split].
  - split; [split; cbn [b_store bs_mem bs_blocks]|exact Hnd| |].
    + rewrite Hmem. unfold EnsureGenFloor. destruct (Z.ltb_spec (st_nextGen NewMemoryStore) floor); [|apply NewMemoryStore_wf]. apply set_nextGen_wf; [apply NewMemoryStore_wf|lia].
    + apply Hall. intros r g H _. apply (ow_good _ _ _ _ (opened_well _ Hdirs _ _ _ H)).
    + eapply no_collision_covered; [|exact Hnc]. intros d l [->|(r & -> & [Hr _]%Hin)%list_elem_of_fmap]%elem_of_cons Hd; [rewrite Hnone in Hd; by destruct Hd|]. exists (block_db r). split; [by apply (list_elem_of_fmap_2 block_db)|done].
    + apply Hall. intros r g H _. apply (ow_figures _ _ _ _ (opened_well _ Hdirs _ _ _ H)).
    + apply Hall. intros r g H Hn. rewrite (Hdir _ Hn). apply (ow_disk _ _ _ _ (opened_well _ Hdirs _ _ _ H)).
  - unfold bs_db. cbn [b_store bs_mem bs_blocks]. apply db_covered_antisym; apply blocks_covered.
    + intros l. rewrite Hnone. split; [by intros [? ?]|]. intros x Hx. by apply not_elem_of_nil in Hx.
    + intros r [Hr _]%Hin. by apply covered_block.
    + intros l. split; [by intros [? ?]|]. intros x Hx. by apply not_elem_of_nil in Hx.
    + intros r Hr. destruct (decide (is_retired (id_of r))) as [Hret|Hk]; [|by apply covered_block, Hin]. apply (opened_readers_in _ Hdirs) in Hr as Hg. destruct Hg as [g Hg].
      destruct Hret as [_ [Hn|Hre']]; [congruence|]. apply Hre in Hre'.
      destruct (root_covers blocks tmpDir Hdirs Hnc _ Hre') as (root & r' & g' & Er & Hroot & Hcov). etrans; [by eapply Hcov|]. apply covered_block, Hin. pose proof (ow_id _ _ _ _ (opened_well _ Hdirs _ _ _ Er)) as Ei. split; [apply (opened_readers_in _ Hdirs); exists g'; by rewrite Ei|].
      rewrite Ei. intros [_ [Hn|Hr'%Hre]]; [congruence|]. apply reaches_listed in Hr'. apply elem_of_dom in Hr' as [? Hr']. congruence.
  - intros l x Hx. unfold bs_db in Hx. cbn [b_store bs_mem bs_blocks] in Hx. apply blocks_db_samples in Hx as [Hx|(r & Hr & Hx)]; [rewrite Hnone in Hx; by apply not_elem_of_nil in Hx|]. specialize (Hfloor r Hr l x Hx).
    rewrite Hmem. unfold EnsureGenFloor. destruct (Z.ltb_spec (st_nextGen NewMemoryStore) floor); cbn [set_nextGen st_nextGen]; lia.
Qed.
End Load.

Lemma startup_spec io keeps order blocks tmpDir (Hdirs : forall name d, blocks !! name = Some d -> dir_ok d) (Hnc : no_collision (block_db <$> opened_readers blocks))
  (Ho : forall i, order i ≡ₚ map_to_list (verifiedBy (fst <$> open_all blocks) (map_imap openWitness tmpDir))) :
  exists res, NewBlockStore io keeps order (S (size (verifiedBy (fst <$> open_all blocks) (map_imap openWitness tmpDir)))) blocks tmpDir = Some res /\
    match res with
    | Err (StartCorrupt name e) => (exists d, blocks !! name = Some d /\ check_block name d = Err e) /\ (forall r, r ∈ opened_readers blocks -> name ∉ m_Sources (r_meta r))
    | Ok st => store_ok st /\ db_equiv (bs_db (b_store st)) (blocks_db (fun _ => None) (opened_readers blocks)) /\
        (forall l x, x ∈ default [] (bs_db (b_store st) l) -> s_gen x < st_nextGen (b_mem st)) /\
        (forall name d e, blocks !! name = Some d -> check_block name d = Err e -> exists r, r ∈ opened_readers blocks /\ name ∈ m_Sources (r_meta r))
    end.
Proof.
  assert (Hsup : forall name, name ∈ superseded_names (fst <$> open_all blocks) <-> exists r, r ∈ opened_readers blocks /\ name ∈ m_Sources (r_meta r)).
  { intros name. rewrite superseded_in. split.
    - intros (id & r & H & Hn). rewrite lookup_fmap in H. destruct (open_all blocks !! id) as [[r' g]|] eqn:E; [|done]. injection H as <-. exists r'. split; [|done]. apply (opened_readers_in _ Hdirs). exists g. by rewrite (ow_id _ _ _ _ (opened_well _ Hdirs _ _ _ E)).
    - intros (r & [g Hg]%(opened_readers_in _ Hdirs) & Hn). exists (m_BlockID (r_meta r)), r. by rewrite lookup_fmap, Hg. }
  assert (Hfail : forall name e, (name, e) ∈ map_to_list (filter (fun e : string * loadErr => e.1 ∉ superseded_names (fst <$> open_all blocks)) (failed_blocks blocks)) <->
    (exists d, blocks !! name = Some d /\ check_block name d = Err e) /\ name ∉ superseded_names (fst <$> open_all blocks)).
  { intros name e. rewrite elem_of_map_to_list, map_lookup_filter_Some. cbn [fst]. unfold failed_blocks. rewrite map_lookup_imap. apply and_iff_compat_r. destruct (blocks !! name) as [d|]; cbn [mbind option_bind]; [|split; [done|by intros (d & ? & _)]].
    destruct (check_block name d) as [x|err] eqn:E; split; [done|intros (d' & [= <-] & H); congruence|intros [= <-]; by exists d|intros (d' & [= <-] & H); congruence]. }
  unfold NewBlockStore. destruct (map_to_list (filter _ (failed_blocks blocks))) as [|[name e] rest].
  - destruct (reclaim_loop_spec _ order (S (size (verifiedBy (fst <$> open_all blocks) (map_imap openWitness tmpDir)))) 0 ∅ Ho) as (reclaim & E & Hre); [intros x Hx; by apply not_elem_of_empty in Hx|rewrite size_dom, size_empty; lia|].
    rewrite E. cbn [mbind option_bind]. eexists. split; [reflexivity|]. destruct (load_good blocks tmpDir Hdirs Hnc reclaim Hre io keeps) as (H1 & H2 & H3). split_and!; [exact H1|exact H2|exact H3|].
    intros name d e Hd He. apply Hsup. destruct (decide (name ∈ superseded_names (fst <$> open_all blocks))) as [|Hn]; [done|]. destruct (not_elem_of_nil (name, e)). apply Hfail. split; [by exists d|done].
  - eexists. split; [reflexivity|]. destruct (proj1 (Hfail name e) (list_elem_of_here _ _)) as [H1 H2]. split; [exact H1|]. intros r Hr Hn. apply H2, Hsup. by exists r.
Qed.
(** C9. Start-up loses nothing it can read. Whatever the directories hold, with any
    iteration order and wherever retiring fails, [NewBlockStore] ends. It refuses to
    start only over a block that fails the checks and that no validated block lists
    as a source, having deleted nothing. Otherwise the store keeps the invariant and
    answers as all the blocks that passed the checks together would: a reclaimed
    block is covered by one that is served. Every later write outranks every stored
    one. *)
Theorem startup_exact io keeps order blocks tmpDir (Hdirs : forall name d, blocks !! name = Some d -> dir_ok d) (Hnc : no_collision (block_db <$> opened_readers blocks))
  (Ho : forall i, order i ≡ₚ map_to_list (verifiedBy (fst <$> open_all blocks) (map_imap openWitness tmpDir))) :
  exists res, NewBlockStore io keeps order (S (size (verifiedBy (fst <$> open_all blocks) (map_imap openWitness tmpDir)))) blocks tmpDir = Some res /\
    match res with
    | Err (StartCorrupt name e) => (exists d, blocks !! name = Some d /\ check_block name d = Err e) /\ (forall r, r ∈ opened_readers blocks -> name ∉ m_Sources (r_meta r))
    | Ok st => store_ok st /\ db_equiv (bs_db (b_store st)) (blocks_db (fun _ => None) (opened_readers blocks)) /\
        (forall l x, x ∈ default [] (bs_db (b_store st) l) -> s_gen x < st_nextGen (b_mem st)) /\
        (forall name d e, blocks !! name = Some d -> check_block name d = Err e -> exists r, r ∈ opened_readers blocks /\ name ∈ m_Sources (r_meta r))
    end.
Proof. exact (startup_spec io keeps order blocks tmpDir Hdirs Hnc Ho). Qed.

(** A served directory opens again, to the same samples. *)
Lemma serves_opens d r : serves d r -> exists r' g, check_block (m_BlockID (r_meta r)) d = Ok (r', g) /\ same_files r r'.
Proof. intros (r0 & r' & g & Ho & Hc & Hs & _). exists r', g. split; [|done]. unfold check_block. rewrite Ho. cbn [lift_block]. by rewrite bind_Ok. Qed.
(** What may lie in [blocks/] beside the blocks served: whole blocks whose samples they hold. *)
Definition leftover (st : bstate) (name : string) (d : blockDir) : Prop :=
  exists r g, check_block name d = Ok (r, g) /\ db_covered (block_db r) (blocks_db (fun _ => None) (b_blocks st)).
Definition tidy (st : bstate) : Prop := forall name d, b_blockDir st !! name = Some d -> dir_ok d /\ (name ∈ (fun r => m_BlockID (r_meta r)) <$> b_blocks st \/ leftover st name d).

Section Tidy.
Context (st : bstate) (Hst : store_ok st) (Htidy : tidy st).
Lemma tidy_dirs name d : b_blockDir st !! name = Some d -> dir_ok d.
Proof. intros Hd. by apply Htidy in Hd as [? _]. Qed.
Lemma tidy_opens name d : b_blockDir st !! name = Some d -> exists r g, check_block name d = Ok (r, g) /\ db_covered (block_db r) (blocks_db (fun _ => None) (b_blocks st)).
Proof.
  intros Hd. destruct (Htidy name d Hd) as [_ [(r & -> & Hr)%list_elem_of_fmap|Hl]]; [|exact Hl]. pose proof (sk_disk _ Hst) as HF. rewrite Forall_forall in HF. destruct (HF r Hr) as (d' & Hd' & Hs).
  assert (d' = d) as -> by congruence. destruct (serves_opens d r Hs) as (r' & g & Hc & Hsame). exists r', g. split; [exact Hc|]. etrans; [|by apply (covered_block _ _ r)]. apply db_equiv_covered. intros l. by rewrite (same_block_db r r' l Hsame).
Qed.
Lemma tidy_covered r : r ∈ opened_readers (b_blockDir st) -> db_covered (block_db r) (blocks_db (fun _ => None) (b_blocks st)).
Proof.
  intros [g Hg]%(opened_readers_in _ tidy_dirs). apply opened_at in Hg as (d & Hd & Hc). destruct (tidy_opens _ d Hd) as (r' & g' & Hc' & H). rewrite Hc in Hc'. by injection Hc' as <- <-.
Qed.
Lemma tidy_no_collision : no_collision (block_db <$> opened_readers (b_blockDir st)).
Proof.
  eapply no_collision_covered; [|exact (bo_clash _ (sk_bs _ Hst))]. intros d l (r & -> & Hr)%list_elem_of_fmap Hl. destruct (tidy_covered r Hr l) as [Hsome _]. apply Hsome, blocks_db_some in Hl as (e & [->|He]%elem_of_cons & Hl); [by destruct Hl|]. exists e. split; [by right|done].
Qed.
Lemma tidy_live r : r ∈ b_blocks st -> exists r', r' ∈ opened_readers (b_blockDir st) /\ same_files r r'.
Proof.
  intros Hr. pose proof (sk_disk _ Hst) as HF. rewrite Forall_forall in HF. destruct (HF r Hr) as (d & Hd & Hs). destruct (serves_opens d r Hs) as (r' & g & Hc & Hsame). exists r'. split; [|done].
  assert (Ho' : open_all (b_blockDir st) !! m_BlockID (r_meta r) = Some (r', g)) by (apply opened_at; by exists d). apply (opened_readers_in _ tidy_dirs). exists g. by rewrite (ow_id _ _ _ _ (opened_well _ tidy_dirs _ _ _ Ho')).
Qed.
End Tidy.

(** C36. A store can always be restarted. From the directories of any state that keeps
    the invariant, with nothing else in [blocks/] than whole blocks whose samples
    the served ones hold - what a crash in the middle of retiring sources leaves -
    start-up succeeds, and the new store answers as the old one's blocks did. *)
Theorem restart_keeps_reads io keeps order st (Hst : store_ok st) (Htidy : tidy st)
  (Ho : forall i, order i ≡ₚ map_to_list (verifiedBy (fst <$> open_all (b_blockDir st)) (map_imap openWitness (b_tmpDir st)))) :
  exists st', NewBlockStore io keeps order (S (size (verifiedBy (fst <$> open_all (b_blockDir st)) (map_imap openWitness (b_tmpDir st))))) (b_blockDir st) (b_tmpDir st) = Some (Ok st') /\
    store_ok st' /\ db_equiv (bs_db (b_store st')) (blocks_db (fun _ => None) (b_blocks st)).
Proof.
  destruct (startup_spec io keeps order (b_blockDir st) (b_tmpDir st) (tidy_dirs st Htidy) (tidy_no_collision st Hst Htidy) Ho) as ([st'|[name e]] & E & H).
  - exists st'. destruct H as (H1 & H2 & _). split; [exact E|]. split; [exact H1|]. rewrite H2. apply db_covered_antisym; apply blocks_covered; try (intros r; by apply tidy_covered).
    1,2: intros l; split; [by intros [? ?]|]; intros x Hx; by apply not_elem_of_nil in Hx.
    intros r Hr. destruct (tidy_live st Hst Htidy r Hr) as (r' & Hr' & Hsame). etrans; [|by apply (covered_block _ _ r')]. apply db_equiv_covered. intros l. by rewrite (same_block_db r r' l Hsame).
  - exfalso. destruct H as [(d & Hd & He) _]. destruct (tidy_opens st Hst Htidy name d Hd) as (r & g & Hc & _). congruence.
Qed.

(** ** A crash between publishing a merged block and retiring its sources *)

Definition crash_st : bstate := set_dirs (b_blockDir demo_pass.2 ∪ b_blockDir two_blocks) ∅ demo_pass.2.
Definition dir_okb (d : blockDir) : bool := (forallb (fun x => (0 <=? x) && (x <? 256)) (default [] (d_index d)) && (Z.of_nat (length (default [] (d_postings d))) <=? MaxInt64))%bool.
(** A check over every directory of a map. *)
Lemma every_dir (m : gmap string blockDir) (P : string -> blockDir -> bool) : forallb (fun e => P e.1 e.2) (map_to_list m) = true -> forall name d, m !! name = Some d -> P name d = true.
Proof. rewrite forallb_forall. intros H name d Hd. by apply (H (name, d)), list_elem_of_In, elem_of_map_to_list. Qed.
Lemma every_name (m : gmap string blockDir) (ids : list string) : forallb (fun e => existsb (String.eqb e.1) ids) (map_to_list m) = true -> forall name d, m !! name = Some d -> name ∈ ids.
Proof.
  intros H name d Hd. pose proof (every_dir m (fun name _ => existsb (String.eqb name) ids) H name d Hd) as Hx. apply existsb_exists in Hx as (x & Hx & E%String.eqb_eq). subst x. by apply list_elem_of_In.
Qed.
Lemma pass_reads : same_reads demo_group two_blocks demo_pass.2.
Proof.
  destruct demo_pass as [[n e] st'] eqn:E. unfold demo_pass, CompactOnce in E. destruct (compact_groups_spec _ _ _ _ _ _ _ _ _ (proj1 two_blocks_ok) demo_groups_fit E) as (H & _). exact H.
Qed.
Lemma set_dirs_blocks bd td st : b_blocks (set_dirs bd td st) = b_blocks st.
Proof. done. Qed.
Lemma crash_blocks : b_blocks crash_st = b_blocks demo_pass.2.
Proof. exact (set_dirs_blocks _ _ _). Qed.
Lemma crash_st_ok : store_ok crash_st.
Proof.
  apply (sr_ok [] demo_pass.2). unfold crash_st. apply same_reads_dirs; [exact (sr_ok _ _ _ pass_reads)|]. intros x d Hd. by apply lookup_union_Some_l.
Qed.
Lemma two_blocks_head : b_mem two_blocks = NewMemoryStore.
Proof. vm_compute. reflexivity. Qed.
Lemma headless_blocks st : b_mem st = NewMemoryStore -> db_equiv (bs_db (b_store st)) (blocks_db (fun _ => None) (b_blocks st)).
Proof.
  intros Hm. unfold bs_db. cbn [b_store bs_mem bs_blocks]. rewrite Hm. assert (Hn : forall l, store_db NewMemoryStore l = None) by (intros l; unfold store_db; cbn; by rewrite lookup_empty).
  apply db_covered_antisym; apply blocks_covered; try (intros r Hr; by apply covered_block); intros l; rewrite ?Hn; (split; [by intros [? ?]|]); intros x Hx; by apply not_elem_of_nil in Hx.
Qed.
(** Each directory under a served name opens, to samples the store holds. *)
Lemma live_leftover st st' name d : store_ok st -> b_blockDir st !! name = Some d -> name ∈ (fun r => m_BlockID (r_meta r)) <$> b_blocks st ->
  db_covered (blocks_db (fun _ => None) (b_blocks st)) (blocks_db (fun _ => None) (b_blocks st')) -> leftover st' name d.
Proof.
  intros Hst Hd (r & -> & Hr)%list_elem_of_fmap Hcov. pose proof (sk_disk _ Hst) as HF. rewrite Forall_forall in HF. destruct (HF r Hr) as (d' & Hd' & Hs). assert (d' = d) as -> by congruence.
  destruct (serves_opens d r Hs) as (r' & g & Hc & Hsame). exists r', g. split; [exact Hc|]. etrans; [|exact Hcov]. etrans; [|by apply (covered_block _ _ r)]. apply db_equiv_covered. intros l. by rewrite (same_block_db r r' l Hsame).
Qed.
Lemma merged_names : forallb (fun e => existsb (String.eqb e.1) ["c"%string]) (map_to_list (b_blockDir demo_pass.2)) = true.
Proof. vm_compute. reflexivity. Qed.
Lemma merged_served : (fun r => m_BlockID (r_meta r)) <$> b_blocks demo_pass.2 = ["c"%string].
Proof. vm_compute. reflexivity. Qed.
Lemma source_names : forallb (fun e => existsb (String.eqb e.1) demo_group) (map_to_list (b_blockDir two_blocks)) = true.
Proof. vm_compute. reflexivity. Qed.
Lemma source_ids : (fun r => m_BlockID (r_meta r)) <$> b_blocks two_blocks = demo_group.
Proof. vm_compute. reflexivity. Qed.
Lemma union_tidy st st0 : store_ok st0 -> (forall name d, b_blockDir st !! name = Some d -> dir_ok d /\ name ∈ (fun r => m_BlockID (r_meta r)) <$> b_blocks st) ->
  (forall name d, b_blockDir st0 !! name = Some d -> dir_ok d /\ name ∈ (fun r => m_BlockID (r_meta r)) <$> b_blocks st0) ->
  db_covered (blocks_db (fun _ => None) (b_blocks st0)) (blocks_db (fun _ => None) (b_blocks st)) -> tidy (set_dirs (b_blockDir st ∪ b_blockDir st0) ∅ st).
Proof.
  intros Hst0 H1 H2 Hcov name d Hd. cbn [set_dirs b_blockDir b_blocks] in Hd |- *. apply lookup_union_Some_raw in Hd as [Hd|[_ Hd]]; [destruct (H1 name d Hd); split; [done|by left]|]. destruct (H2 name d Hd). split; [done|right].
  by apply (live_leftover st0 (set_dirs (b_blockDir st ∪ b_blockDir st0) ∅ st) name d Hst0 Hd).
Qed.
Lemma merged_dirs_ok : forallb (fun e => dir_okb e.2) (map_to_list (b_blockDir demo_pass.2)) = true.
Proof. vm_compute. reflexivity. Qed.
Lemma source_dirs_ok : forallb (fun e => dir_okb e.2) (map_to_list (b_blockDir two_blocks)) = true.
Proof. vm_compute. reflexivity. Qed.
Lemma crash_st_tidy : tidy crash_st.
Proof.
  unfold crash_st. apply union_tidy; [exact (proj1 two_blocks_ok)| | |].
  - intros name d Hd. split; [apply dir_ok_check; exact (every_dir _ (fun _ => dir_okb) merged_dirs_ok name d Hd)|]. rewrite merged_served. exact (every_name _ _ merged_names name d Hd).
  - intros name d Hd. split; [apply dir_ok_check; exact (every_dir _ (fun _ => dir_okb) source_dirs_ok name d Hd)|]. rewrite source_ids. exact (every_name _ _ source_names name d Hd).
  - apply db_equiv_covered. rewrite <- (headless_blocks two_blocks two_blocks_head), <- (headless_blocks demo_pass.2); [symmetry; exact (sr_equiv _ _ _ pass_reads)|]. rewrite (sr_mem _ _ _ pass_reads). exact two_blocks_head.
Qed.

Definition crash_order : nat -> list (string * list string) := range_order (verifiedBy (fst <$> open_all (b_blockDir crash_st)) (map_imap openWitness (b_tmpDir crash_st))).
Definition no_fault : retire_io := mkRetire (fun _ => false) (fun _ => false) (fun _ => false).
Definition crash_restart : option (result startErr bstate) := NewBlockStore no_fault (fun _ => false) crash_order 3 (b_blockDir crash_st) (b_tmpDir crash_st).
(** Both sources are reclaimed; the merged block answers alone. *)
Lemma restart_keeps_reads_witness : exists st', crash_restart = Some (Ok st') /\ (fun r => m_BlockID (r_meta r)) <$> b_blocks st' = ["c"%string] /\
  db_equiv (bs_db (b_store st')) (blocks_db (fun _ => None) (b_blocks crash_st)).
Proof.
  destruct (restart_keeps_reads no_fault (fun _ => false) crash_order crash_st crash_st_ok crash_st_tidy (fun _ => reflexivity _)) as (st' & E & _ & H). exists st'.
  assert (Es : S (size (verifiedBy (fst <$> open_all (b_blockDir crash_st)) (map_imap openWitness (b_tmpDir crash_st)))) = 3%nat) by (vm_compute; reflexivity). rewrite Es in E. split; [exact E|]. split; [|exact H].
  assert (Ec : match crash_restart with Some (Ok st) => (fun r => m_BlockID (r_meta r)) <$> b_blocks st | _ => [] end = ["c"%string]) by (vm_compute; reflexivity). unfold crash_restart in Ec. rewrite E in Ec. exact Ec.
Defined.
Lemma startup_exact_witness : exists st', crash_restart = Some (Ok st') /\ store_ok st'.
Proof.
  destruct (startup_exact no_fault (fun _ => false) crash_order (b_blockDir crash_st) (b_tmpDir crash_st)) as (res & E & H).
  - intros name d Hd. exact (proj1 (crash_st_tidy name d Hd)).
  - exact (tidy_no_collision crash_st crash_st_ok crash_st_tidy).
  - intros i. reflexivity.
  - assert (Es : S (size (verifiedBy (fst <$> open_all (b_blockDir crash_st)) (map_imap openWitness (b_tmpDir crash_st)))) = 3%nat) by (vm_compute; reflexivity). rewrite Es in E.
    assert (Ec : match crash_restart with Some (Ok st) => true | _ => false end = true) by (vm_compute; reflexivity). unfold crash_restart in Ec. rewrite E in Ec. destruct res as [st'|]; [|discriminate Ec]. exists st'. split; [exact E|exact (proj1 H)].
Defined.
