(* ===== verification/BlockLife.v ===== *)
(** * BlockLife: the block store against its specification

    What a block store promises, whatever it does with chunks, blocks and
    directories: its reads are those of the writes it accepted, minus what
    retention let go. Every operation of [internal/metrics/blockstore.go] that
    changes the store is a step of that specification. *)
From stdpp Require Import strings.
From S2P Require Import Prelude GoLib GoSort Chunk Dedup Labels Source ReadEquiv MemStore Limits BlockIndex Block BlockStore BlockCheck BlockIngest BlockCompact Compactor.

(** ** The specification: a database and what may happen to it *)

(** What a step did, told by its inputs and its answer: nothing, a write accepted, a
    batch accepted, a batch refused part way, a retention pass. *)
Inductive event :=
  | EvNone | EvWrite (l : Labels) (x : sample) | EvBatch (series : list SeriesChunks) | EvTorn (series : list SeriesChunks)
  | EvExpire (nowMs : Z) (policy : RetentionPolicy).
Inductive ledger_step : event -> database -> database -> Prop :=
  | ledger_same D D' : db_equiv D' D -> ledger_step EvNone D D'
  | ledger_write D D' l x : db_equiv D' (db_union D (single l [x])) -> ledger_step (EvWrite l x) D D'
  | ledger_batch D D' series : db_equiv D' (db_union D (ingest_db series)) -> ledger_step (EvBatch series) D D'
  (** A batch that failed is there in part; sending it again completes it. *)
  | ledger_torn D D' series : db_covered D D' -> db_equiv (db_union D' (ingest_db series)) (db_union D (ingest_db series)) -> ledger_step (EvTorn series) D D'
  | ledger_expire D D' nowMs policy :
      (forall l x, x ∈ default [] (D' l) -> x ∈ default [] (D l)) ->
      (forall l, let fresh := fun x => ~ outlived nowMs policy l (s_ts x) in filter fresh (sortAndDedup (default [] (D' l))) = filter fresh (sortAndDedup (default [] (D l)))) ->
      ledger_step (EvExpire nowMs policy) D D'.
(** The databases a sequence of events leaves, from none. *)
Inductive ledger : list event -> database -> Prop :=
  | ledger_empty D : db_equiv D (fun _ => None) -> ledger [] D
  | ledger_next evs ev D D' : ledger evs D -> ledger_step ev D D' -> ledger (evs ++ [ev]) D'.

(** ** The store *)

Definition append_event (s : MemoryStore) (now : Z) (l : Labels) (ts val seg gen : Z) : event :=
  match (appendInternal s now l ts val seg gen).1 with Ok _ => EvWrite l (mkSample ts val (assigned s now gen)) | Err _ => EvNone end.
Definition ingest_event {A} (series : list SeriesChunks) (res : result ingestErr A) : event := match res with Ok _ => EvBatch series | Err _ => EvTorn series end.
Inductive store_life : event -> bstate -> bstate -> Prop :=
  | life_append st now l ts val seg gen : labels_wf l -> no_clash (b_mem st) l -> in_i64 ts -> in_u64 val -> 0 <= gen ->
      no_collision (store_db (appendInternal (b_mem st) now l ts val seg gen).2 :: (block_db <$> b_blocks st)) ->
      store_life (append_event (b_mem st) now l ts val seg gen) st (set_mem (appendInternal (b_mem st) now l ts val seg gen).2 st)
  | life_seal st : store_life EvNone st (set_mem (SealHeadChunks (b_mem st)).2 st)
  | life_flush st ios res st' : flush_ready (SealedChunksSnapshot (b_mem st)) -> FlushBlock ios [] st = (res, st') -> store_life EvNone st st'
  | life_ingest st c0 c1 ios series res st' : Forall (fun sc => labels_wf (sc_Labels sc)) series ->
      (forall t, block_fits (to_seriesData <$> tenant_group t series)) -> (forall t, Z.of_nat (length ((to_seriesData <$> tenant_group t series) ≫= series_samples)) <= MaxInt64) ->
      no_collision (ingest_db series :: store_db (b_mem st) :: (block_db <$> b_blocks st)) ->
      IngestSeriesChunks c0 c1 ios series st = (res, st') -> store_life (ingest_event series res) st st'
  | life_compact st ios rios plan n e st' : groups_fit ios rios 0 (plan (BlockInfos st)) st -> CompactOnce ios rios plan st = (n, e, st') -> store_life EvNone st st'
  | life_retain st io nowMs policy n e st' : 0 <= nowMs <= MaxInt64 -> (forall id, For policy id <= MaxInt64) -> ApplyRetention io nowMs policy st = (n, e, st') ->
      store_life (EvExpire nowMs policy) st st'.
(** The runs of a store, with what each step did. *)
Inductive lives : list event -> bstate -> Prop :=
  | lives_new : lives [] (mkBState NewMemoryStore [] ∅ ∅)
  | lives_step evs ev st st' : lives evs st -> store_life ev st st' -> lives (evs ++ [ev]) st'.

(** ** Every step is one of the specification's *)

Lemma head_step st mem : store_ok st -> store_wf mem -> no_collision (store_db mem :: (block_db <$> b_blocks st)) -> store_ok (set_mem mem st).
Proof. intros [[_ S1 _] S2 S3 S4] Hm Hnc. by split; [split|..]. Qed.
Lemma union_head d d' bl : db_equiv d d' -> db_equiv (blocks_db d bl) (blocks_db d' bl).
Proof. unfold blocks_db. revert d d'. induction bl as [|r bl IH]; intros d d' H; [done|]. cbn [fold_left]. apply IH. by rewrite H. Qed.
Lemma db_add_union d l x : db_equiv (db_add d l x) (db_union d (single l [x])).
Proof.
  intros l'. unfold db_add, db_union, single. destruct (decide (l' = l)) as [->|]; [destruct (d l); reflexivity|destruct (d l'); reflexivity].
Qed.
Lemma blocks_db_union d e bl : db_equiv (blocks_db (db_union d e) bl) (db_union (blocks_db d bl) e).
Proof.
  intros l. apply series_equiv_ext.
  - rewrite db_union_some, !blocks_db_some. setoid_rewrite elem_of_cons. split.
    + intros (f & [->|Hf] & H); [apply db_union_some in H as [H|H]; [left; exists d; eauto|by right]|left; exists f; eauto].
    + intros [(f & [->|Hf] & H)|H]; [exists (db_union d e); split; [by left|apply db_union_some; by left]|exists f; eauto|exists (db_union d e); split; [by left|apply db_union_some; by right]].
  - intros x. rewrite db_union_default, elem_of_app, !blocks_db_samples, db_union_default, elem_of_app. tauto.
Qed.
Lemma life_refines ev st st' : store_ok st -> store_life ev st st' -> store_ok st' /\ ledger_step ev (bs_db (b_store st)) (bs_db (b_store st')).
Proof.
  intros Hst. pose proof (bo_mem _ (sk_bs _ Hst)) as Hm. cbn in Hm. destruct 1 as [st now l ts val seg gen Hl Hnc Hts Hval Hgen Hc|st|st ios res st' Hr Hf|st c0 c1 ios series res st' H1 H2 H3 H4 Hi|st ios rios plan n e st' Hg Hc|st io nowMs policy n e st' Hn Hp Hr].
  - destruct (appendInternal_spec (b_mem st) now l ts val seg gen Hm Hl Hnc Hts Hval) as (W & _ & Hok & Hno). split; [by apply head_step|]. unfold append_event.
    assert (Hd : Decision (append_ok (b_mem st) now gen)) by (unfold append_ok; apply _). destruct (decide (append_ok (b_mem st) now gen)) as [Ha|Ha].
    + destruct (Hok Ha) as (-> & _ & Hdb). apply ledger_write. unfold bs_db. cbn [b_store bs_mem bs_blocks set_mem b_mem b_blocks]. etrans; [apply union_head; intros l'; rewrite Hdb; apply db_add_union|apply blocks_db_union].
    + destruct (Hno Ha) as ([e ->] & E & _). rewrite E by done. apply ledger_same. by destruct st.
  - destruct (SealHeadChunks_wf (b_mem st) Hm) as [W Hdb]. split; [apply head_step; [done|done|]|].
    + eapply no_collision_covered; [|exact (bo_clash _ (sk_bs _ Hst))]. intros d l [->|Hd]%elem_of_cons Hl; [exists (store_db (b_mem st)); split; [by left|by rewrite <- Hdb]|exists d; split; [by right|done]].
    + apply ledger_same. unfold bs_db. cbn [b_store bs_mem bs_blocks set_mem b_mem b_blocks]. apply union_head. intros l. by rewrite Hdb.
  - destruct (flush_spec ios [] st res st' Hst I (Forall_nil_2 _) Hr (bo_clash _ (sk_bs _ Hst)) Hf) as (W & He & _). split; [done|]. apply ledger_same. exact He.
  - destruct (ingest_exact c0 c1 ios series st res st' Hst H1 H2 H3 H4 Hi) as (W & _ & Em & [rs Eb] & Hall & He & _). split; [done|]. destruct res as [m|e]; [by apply ledger_batch, (Hall m)|]. apply ledger_torn; [|done].
    unfold bs_db. cbn [b_store bs_mem bs_blocks]. rewrite Em, Eb, blocks_db_app. apply covered_head.
  - destruct (compact_groups_spec _ _ _ _ _ _ _ _ _ Hst Hg Hc) as ([S1 S2 _ _] & _). split; [done|by apply ledger_same].
  - destruct (ApplyRetention_spec io nowMs policy st n e st' Hst Hn Hp Hr) as (S1 & S2 & S3 & _). split; [done|]. by apply ledger_expire.
Qed.

(** C2. The block store refines its ledger. Take any run from an empty store:
    appends, seals, flushes, ingests, compaction passes with any plan and retention
    passes, each failing wherever it may. Write down what each step accepted: the
    sample of an append that answered nil, the batch of an ingest that did, the batch
    of an ingest that failed, the policy of a retention pass, and nothing for seals,
    flushes, compactions and refused appends. Then the store keeps its invariant and
    every query is answered as by the ledger of exactly that sequence: a database in
    which the accepted samples and batches were added in turn, of a failed batch any
    part, and from which a retention pass took nothing but samples older than their
    tenant keeps. *)
Theorem store_refines_ledger evs st (Hl : lives evs st) : store_ok st /\
  exists D, ledger evs D /\ db_equiv (bs_db (b_store st)) D /\ forall enc ctxErr ctx, (forall i, ctxErr i = None) -> Implements (bs_source enc (b_store st) ctxErr) ctx D.
Proof.
  assert (H : store_ok st /\ ledger evs (bs_db (b_store st))).
  { induction Hl as [|evs ev st st' _ [IH1 IH2] Hs].
    - split; [apply empty_st_ok|]. apply ledger_empty. intros l. unfold bs_db. cbn. unfold store_db. cbn. by rewrite lookup_empty.
    - destruct (life_refines ev st st' IH1 Hs) as [H1 H2]. split; [done|]. by eapply ledger_next. }
  destruct H as [H1 H2]. split; [done|]. exists (bs_db (b_store st)). split_and!; [done|done|]. intros enc ctxErr ctx Hctx. apply bs_implements; [apply (sk_bs _ H1)|done].
Qed.

(** ** A sample written, sealed and flushed *)

Definition first_head : MemoryStore := (appendInternal NewMemoryStore 100 demo_set 1500 7 0 0).2.
Definition flushed : bstate := (FlushBlock flush_ios [] flush_st).2.
Lemma first_head_series : forall l, is_Some (store_db first_head l) -> l = demo_set.
Proof. apply store_one_series; [|vm_compute; reflexivity]. apply (proj1 (step_wf NewMemoryStore (OpAppend 100 demo_set 1500 7 0 0) NewMemoryStore_wf ltac:(unfold demo_set; op_ok_solve))). Qed.
Definition flushed_events : list event := [EvWrite demo_set (mkSample 1500 7 100); EvNone; EvNone].
Lemma flushed_lives : lives flushed_events flushed.
Proof.
  apply (lives_step [EvWrite demo_set (mkSample 1500 7 100); EvNone] EvNone flush_st); [|eapply (life_flush flush_st flush_ios (FlushBlock flush_ios [] flush_st).1 flushed); [exact flush_st_ready|apply surjective_pairing]].
  change flush_st with (set_mem (SealHeadChunks (b_mem (set_mem first_head empty_st))).2 (set_mem first_head empty_st)). apply (lives_step [EvWrite demo_set (mkSample 1500 7 100)] EvNone (set_mem first_head empty_st)); [|apply life_seal].
  assert (Ee : append_event NewMemoryStore 100 demo_set 1500 7 0 0 = EvWrite demo_set (mkSample 1500 7 100)) by (vm_compute; reflexivity). rewrite <- Ee; clear Ee.
  apply (lives_step [] _ empty_st); [apply lives_new|]. apply (life_append empty_st 100 demo_set 1500 7 0 0).
  - apply build_wf.
  - intros ms. cbn. by rewrite lookup_empty.
  - vm_compute; split; discriminate || reflexivity.
  - vm_compute; split; discriminate || reflexivity.
  - lia.
  - apply (one_series_no_collision demo_set), Forall_singleton. exact first_head_series.
Qed.
Lemma store_refines_ledger_witness : length (b_blocks flushed) = 1%nat /\ store_ok flushed /\ exists D, ledger flushed_events D /\ db_equiv (bs_db (b_store flushed)) D.
Proof.
  split; [vm_compute; reflexivity|]. destruct (store_refines_ledger flushed_events flushed flushed_lives) as (H & D & H1 & H2 & _). split; [exact H|]. exists D. split; [exact H1|exact H2].
Defined.
