(* ===== verification/GoCodec.v ===== *)
(** * GoCodec: CRC-32C and DEFLATE

    What [internal/storage/logchunk] and [internal/logs] use of [hash/crc32] and
    [compress/flate]. The checksum is the Castagnoli CRC itself. Compression is an
    interface: a writer and a reader, and the documented laws a client relies on
    (the reader undoes the writer; a stream is not blown up past the 32-bit length
    field). The laws are discharged for stored blocks, DEFLATE's uncompressed mode. *)
From S2P Require Import Prelude GoLib.

(** ** [crc32.Checksum(data, crc32.MakeTable(crc32.Castagnoli))] *)

Definition castagnoli : Z := 2197175160. (* 0x82f63b78, reversed *)
Fixpoint crc_entry (n : nat) (c : Z) : Z :=
  match n with
  | O => c
  | S n => crc_entry n (if Z.testbit c 0 then Z.lxor (Z.shiftr c 1) castagnoli else Z.shiftr c 1)
  end.
Definition crc_step (c b : Z) : Z := Z.lxor (crc_entry 8 (Z.lxor (Z.land c 255) b)) (Z.shiftr c 8).
Definition crc32c (data : list Z) : Z := u32 (Z.lnot (fold_left crc_step data (u32 (Z.lnot 0)))).

Example crc32c_check : crc32c (str_bytes "123456789") = 3808858755. (* 0xE3069283 *)
Proof. vm_compute. reflexivity. Qed.

Lemma crc32c_in data : in_u32 (crc32c data).
Proof. apply in_u32_u32. Qed.
#[export] Hint Resolve crc32c_in : width.

(** ** [compress/flate] *)

(** [deflate b] is what a writer closed after writing [b] has emitted; [inflate l]
    is every byte a reader over [l] yields, and whether it then reports [io.EOF]
    rather than a fault. *)
Class Flate := { deflate : list Z -> list Z; inflate : list Z -> list Z * bool }.
Class FlateLaws (F : Flate) : Prop := {
  inflate_deflate b : bytes_ok b -> inflate (deflate b) = (b, true);
  deflate_ok b : bytes_ok b -> bytes_ok (deflate b);
  inflate_ok l : bytes_ok l -> bytes_ok (inflate l).1;
  deflate_short b : Z.of_nat (length b) <= 2 ^ 27 -> Z.of_nat (length (deflate b)) < 2 ^ 32 }.

(** *** Stored blocks: a header byte, the length and its complement, the bytes *)

Definition stored_block (final : Z) (b : list Z) : list Z :=
  let n := Z.of_nat (length b) in [final; n; 0; 255 - n; 255] ++ b.
Fixpoint stored_deflate_go (fuel : nat) (b : list Z) : list Z :=
  match fuel with
  | O => stored_block 1 (take 255 b)
  | S f => if (length b <=? 255)%nat then stored_block 1 b else stored_block 0 (take 255 b) ++ stored_deflate_go f (drop 255 b)
  end.
Definition stored_deflate (b : list Z) : list Z := stored_deflate_go (length b) b.
Fixpoint stored_inflate_go (fuel : nat) (l : list Z) : list Z * bool :=
  match fuel, l with
  | S f, hdr :: l0 :: l1 :: n0 :: n1 :: rest =>
      if (negb ((hdr =? 0) || (hdr =? 1)) || negb ((n0 =? 255 - l0) && (n1 =? 255 - l1)))%bool then ([], false)
      else if Z.of_nat (length rest) <? l0 + 256 * l1 then (rest, false)
      else let n := Z.to_nat (l0 + 256 * l1) in
           if hdr =? 1 then (take n rest, true)
           else let '(out, ok) := stored_inflate_go f (drop n rest) in (take n rest ++ out, ok)
  | _, _ => ([], false)
  end.
Definition stored_inflate (l : list Z) : list Z * bool := stored_inflate_go (length l) l.

Lemma stored_inflate_block f final b rest : (length b <= 255)%nat -> final = 0 \/ final = 1 ->
  stored_inflate_go (S f) (stored_block final b ++ rest) =
  if final =? 1 then (b, true) else let '(out, ok) := stored_inflate_go f rest in (b ++ out, ok).
Proof.
  intros Hb Hf. unfold stored_block. cbn [app stored_inflate_go].
  assert (((final =? 0) || (final =? 1))%bool = true) as -> by (destruct Hf; subst; done).
  rewrite !Z.eqb_refl. cbn [negb andb orb]. rewrite length_app.
  destruct (Z.ltb_spec (Z.of_nat (length b + length rest)) (Z.of_nat (length b) + 256 * 0)); [lia|].
  replace (Z.to_nat (Z.of_nat (length b) + 256 * 0)) with (length b) by lia.
  by rewrite take_app_length, drop_app_length.
Qed.
Lemma stored_roundtrip_go f g b : (length b <= f)%nat -> (f < g)%nat -> stored_inflate_go g (stored_deflate_go f b) = (b, true).
Proof.
  revert g b. induction f as [|f IH]; intros [|g] b Hb Hg; try lia; cbn [stored_deflate_go].
  - destruct b; [|cbn in Hb; lia]. rewrite <- (app_nil_r (stored_block _ _)). by rewrite stored_inflate_block by (cbn; lia || auto).
  - destruct (Nat.leb_spec (length b) 255).
    + rewrite <- (app_nil_r (stored_block _ _)). by rewrite stored_inflate_block by auto.
    + rewrite stored_inflate_block by (rewrite ?length_take; lia || by left). change (0 =? 1) with false. cbv beta iota.
      rewrite IH by (rewrite ?length_drop; lia). by rewrite take_drop.
Qed.
Lemma stored_deflate_len f b : (length b <= f)%nat -> (length b < length (stored_deflate_go f b))%nat.
Proof.
  revert b. induction f as [|f IH]; intros b Hb; cbn [stored_deflate_go].
  - cbn. rewrite length_take. lia.
  - destruct (_ <=? _)%nat eqn:E.
    + cbn. lia.
    + apply Nat.leb_gt in E. rewrite length_app. specialize (IH (drop 255 b)). rewrite length_drop in IH. cbn [length stored_block app]. rewrite length_take. lia.
Qed.
Lemma stored_inflate_deflate b : stored_inflate (stored_deflate b) = (b, true).
Proof.
  unfold stored_inflate, stored_deflate. pose proof (stored_deflate_len (length b) b ltac:(lia)) as H.
  by apply stored_roundtrip_go.
Qed.
Lemma stored_block_ok final b : final = 0 \/ final = 1 -> (length b <= 255)%nat -> bytes_ok b -> bytes_ok (stored_block final b).
Proof.
  intros Hf Hl Hb. unfold stored_block. apply Forall_app. split; [|done]. repeat constructor; unfold in_u8; change (2 ^ 8) with 256; destruct Hf; lia.
Qed.
Lemma stored_deflate_ok b : bytes_ok b -> bytes_ok (stored_deflate b).
Proof.
  unfold stored_deflate. generalize (length b). intros f. revert b. induction f as [|f IH]; intros b Hb; cbn [stored_deflate_go].
  - apply stored_block_ok; [by right|rewrite length_take; lia|by apply Forall_take].
  - destruct (Nat.leb_spec (length b) 255); [apply stored_block_ok; auto|]. apply Forall_app. split.
    + apply stored_block_ok; [by left|rewrite length_take; lia|by apply Forall_take].
    + apply IH. by apply Forall_drop.
Qed.
Lemma stored_inflate_go_ok f l : bytes_ok l -> bytes_ok (stored_inflate_go f l).1.
Proof.
  revert l. induction f as [|f IH]; intros l Hl; [constructor|]. destruct l as [|h [|l0 [|l1 [|n0 [|n1 rest]]]]]; try constructor.
  cbn [stored_inflate_go]. do 5 apply Forall_inv_tail in Hl as Hl. destruct (_ || _)%bool; [constructor|]. destruct (_ <? _); [done|].
  destruct (h =? 1); [by apply Forall_take|]. specialize (IH (drop (Z.to_nat (l0 + 256 * l1)) rest) ltac:(by apply Forall_drop)).
  destruct (stored_inflate_go f _) as [out ok]. cbn [fst] in *. apply Forall_app. split; [by apply Forall_take|done].
Qed.
Lemma stored_deflate_bound f b : (length b <= f)%nat -> (length (stored_deflate_go f b) <= 6 * length b + 5)%nat.
Proof.
  revert b. induction f as [|f IH]; intros b Hb; cbn [stored_deflate_go].
  - cbn. rewrite length_take. lia.
  - destruct (Nat.leb_spec (length b) 255); [cbn; lia|]. rewrite length_app. specialize (IH (drop 255 b)). rewrite length_drop in IH.
    cbn [length stored_block app]. rewrite length_take. lia.
Qed.

Definition stored_flate : Flate := {| deflate := stored_deflate; inflate := stored_inflate |}.
Lemma stored_laws : FlateLaws stored_flate.
Proof.
  split; cbn [deflate inflate stored_flate].
  - intros b _. apply stored_inflate_deflate.
  - apply stored_deflate_ok.
  - intros l. apply stored_inflate_go_ok.
  - intros b Hb. pose proof (stored_deflate_bound (length b) b ltac:(lia)) as H. unfold stored_deflate. lia.
Qed.
