(* ===== verification/LogChunk.v ===== *)
(** * LogChunk: the compressed log chunk

    [internal/storage/logchunk/logchunk.go]: appending lines, the serialised form
    with its two checksums, the header-only read and the validating decoder.
    Positions into a buffer are the rest of the list from there; a Go string is a
    byte string. *)
From stdpp Require Import strings.
From S2P Require Import Prelude GoLib GoCodec.

(** ** Data *)

Inductive lcErr :=
  | LcUnrecognized | LcVersion (v : Z) | LcHeaderCRC | LcUncompLen (n : Z) | LcCompLen (n : Z) | LcPayloadCRC
  | LcDecompress | LcLonger | LcBadTs (i : Z) | LcBadLineLen (i : Z) | LcLineExceeds (i : Z) | LcTrailing (n : Z)
  | LcBounds (minTs maxTs gotMin gotMax : Z) | LcFuel.

Record lc_entry := mkLcEntry { lce_ts : Z; lce_line : string }.
#[export] Instance lc_entry_eq_dec : EqDecision lc_entry.
Proof. solve_decision. Defined.
Record lc_Chunk := mkLC { lc_minTs : Z; lc_maxTs : Z; lc_lastTs : Z; lc_entries : list lc_entry; lc_uncompressed : Z }.

Definition lc_magic : list Z := [156; 76; 67; 1].
Definition lc_version : Z := 2.
Definition lc_headerLen : nat := 41.
Definition lc_headerCRCScope : nat := 33.
Definition MaxUncompressedBytes : Z := Z.shiftl 128 20.

(** ** Appending *)

Definition lc_NewChunk : lc_Chunk := mkLC 0 0 0 [] 0.
Definition signedVarintLen (v : Z) : Z := Z.of_nat (length (PutVarint v)).
Definition uvarintLen (v : Z) : Z := Z.of_nat (length (PutUvarint v)).

(** [d] wraps at 64 bits, as the subtraction of two [int64] does. *)
Definition lc_Append (c : lc_Chunk) (tsNs : Z) (line : string) : lc_Chunk :=
  let '(d, mn, mx) :=
    match lc_entries c with
    | [] => (tsNs, tsNs, tsNs)
    | _ => (i64 (tsNs - lc_lastTs c), if tsNs <? lc_minTs c then tsNs else lc_minTs c, if lc_maxTs c <? tsNs then tsNs else lc_maxTs c)
    end in
  mkLC mn mx tsNs (lc_entries c ++ [mkLcEntry tsNs line])
    (lc_uncompressed c + (signedVarintLen d + uvarintLen (str_len line) + str_len line)).
Definition NumEntries (c : lc_Chunk) : Z := Z.of_nat (length (lc_entries c)).

(** A chunk built by appending [es] in order. *)
Definition lc_add (c : lc_Chunk) (e : lc_entry) : lc_Chunk := lc_Append c (lce_ts e) (lce_line e).
Definition lc_of (es : list lc_entry) : lc_Chunk := fold_left lc_add es lc_NewChunk.

(** ** Encoding *)

Definition encode_lc_line (line : string) : list Z := PutUvarint (str_len line) ++ str_bytes line.
Fixpoint encode_lc_go (first : bool) (prev : Z) (es : list lc_entry) : list Z :=
  match es with
  | [] => []
  | e :: es =>
      PutVarint (if first then lce_ts e else i64 (lce_ts e - prev)) ++ encode_lc_line (lce_line e) ++ encode_lc_go false (lce_ts e) es
  end.
Definition encodeEntries (c : lc_Chunk) : list Z := encode_lc_go true 0 (lc_entries c).

(** The authenticated part of the header, bytes [0:33]. *)
Definition lc_header (c : lc_Chunk) (blockLen compLen : Z) : list Z :=
  lc_magic ++ [lc_version] ++ be_bytes 8 (u64 (lc_minTs c)) ++ be_bytes 8 (u64 (lc_maxTs c)) ++
  be_bytes 4 (u32 (NumEntries c)) ++ be_bytes 4 (u32 blockLen) ++ be_bytes 4 (u32 compLen).
Definition lc_Bytes `{Flate} (c : lc_Chunk) : list Z :=
  let block := encodeEntries c in
  let compressed := deflate block in
  let head := lc_header c (Z.of_nat (length block)) (Z.of_nat (length compressed)) in
  head ++ be_bytes 4 (crc32c head) ++ be_bytes 4 (crc32c compressed) ++ compressed.

(** ** Decoding *)

(** [data[lo:lo+n]], and the big-endian number there. *)
Definition slice (lo n : nat) (data : list Z) : list Z := take n (drop lo data).
Definition be_at (lo n : nat) (data : list Z) : Z := be_val (slice lo n data).

Definition PeekBounds (data : list Z) : result lcErr (Z * Z * Z * Z) :=
  if ((length data <? lc_headerLen)%nat || negb (bool_decide (slice 0 4 data = lc_magic)))%bool then Err LcUnrecognized
  else if negb (be_at 4 1 data =? lc_version) then Err (LcVersion (be_at 4 1 data))
  else if negb (crc32c (take lc_headerCRCScope data) =? be_at 33 4 data) then Err LcHeaderCRC
  else Ok (i64 (be_at 5 8 data), i64 (be_at 13 8 data), be_at 21 4 data, be_at 29 4 data).

(** The entry loop: entry [i] of [n], the previous timestamp, [block[pos:]] and
    the chunk so far. Each entry consumes two bytes at least, so a fuel above the
    length of the block is never used up. *)
Fixpoint decode_lc_go (fuel : nat) (i n prev : Z) (block : list Z) (c : lc_Chunk) : result lcErr lc_Chunk :=
  if n <=? i then if (length block =? 0)%nat then Ok c else Err (LcTrailing (Z.of_nat (length block)))
  else match fuel with
  | O => Err LcFuel
  | S fuel =>
      let '(d, m) := Varint block in
      if m <=? 0 then Err (LcBadTs i) else
      let block := drop (Z.to_nat m) block in
      let ts := if i =? 0 then d else i64 (prev + d) in
      let '(ll, m2) := Uvarint block in
      if m2 <=? 0 then Err (LcBadLineLen i) else
      let block := drop (Z.to_nat m2) block in
      if Z.of_nat (length block) <? ll then Err (LcLineExceeds i) else
      decode_lc_go fuel (i + 1) n ts (drop (Z.to_nat ll) block) (lc_Append c ts (bytes_str (take (Z.to_nat ll) block)))
  end.
Definition decodeEntries (block : list Z) (n : Z) : result lcErr lc_Chunk :=
  decode_lc_go (S (length block)) 0 n 0 block lc_NewChunk.

(** [io.ReadFull(fr, block)], then the one-byte read that must meet the end. *)
Definition inflate_exactly `{Flate} (compressed : list Z) (uncompLen : Z) : result lcErr (list Z) :=
  let '(out, eof) := inflate compressed in
  if Z.of_nat (length out) <? uncompLen then Err LcDecompress
  else if (uncompLen <? Z.of_nat (length out)) || negb eof then Err LcLonger
  else Ok out.

Definition lc_FromBytes `{Flate} (data : list Z) : result lcErr lc_Chunk :=
  if ((length data <? lc_headerLen)%nat || negb (bool_decide (slice 0 4 data = lc_magic)))%bool then Err LcUnrecognized
  else if negb (be_at 4 1 data =? lc_version) then Err (LcVersion (be_at 4 1 data))
  else if negb (crc32c (take lc_headerCRCScope data) =? be_at 33 4 data) then Err LcHeaderCRC
  else
    let minTs := i64 (be_at 5 8 data) in
    let maxTs := i64 (be_at 13 8 data) in
    let numEntries := be_at 21 4 data in
    let uncompLen := be_at 25 4 data in
    let compLen := be_at 29 4 data in
    if MaxUncompressedBytes <? uncompLen then Err (LcUncompLen uncompLen)
    else if negb (Z.of_nat lc_headerLen + compLen =? Z.of_nat (length data)) then Err (LcCompLen compLen)
    else
      let compressed := drop lc_headerLen data in
      if negb (crc32c compressed =? be_at 37 4 data) then Err LcPayloadCRC
      else
        block ← inflate_exactly compressed uncompLen;
        c ← decodeEntries block numEntries;
        if (negb (lc_minTs c =? minTs) || negb (lc_maxTs c =? maxTs))%bool
        then Err (LcBounds minTs maxTs (lc_minTs c) (lc_maxTs c))
        else Ok c.

(** [Iterator], [Next] and [At] walk [lc_entries] in order. *)
Record lc_Iterator := mkLcIter { it_entries : list lc_entry; it_i : Z }.
Definition lc_iterator (c : lc_Chunk) : lc_Iterator := mkLcIter (lc_entries c) (-1).
Definition lc_Next (it : lc_Iterator) : lc_Iterator * bool :=
  (mkLcIter (it_entries it) (it_i it + 1), it_i it + 1 <? Z.of_nat (length (it_entries it))).
Definition lc_At (it : lc_Iterator) : option lc_entry := it_entries it !! Z.to_nat (it_i it).

(** ** Varints read back: what a read value costs to write *)

Lemma put_uvarint_go_short f x k : 0 <= x < 2 ^ (7 * Z.of_nat k) -> (0 < k)%nat -> (length (put_uvarint_go f x) <= k)%nat.
Proof.
  revert x k. induction f as [|f IH]; intros x k Hx Hk; cbn [put_uvarint_go]; [cbn; lia|].
  destruct (Z.ltb_spec x 128); [cbn; lia|]. cbn [length]. destruct k as [|[|k]]; [lia|change (2 ^ (7 * Z.of_nat 1)) with 128 in Hx; lia|].
  enough (length (put_uvarint_go f (Z.shiftr x 7)) <= S k)%nat by lia. apply IH; [|lia]. rewrite Z.shiftr_div_pow2 by lia.
  replace (7 * Z.of_nat (S (S k))) with (7 + 7 * Z.of_nat (S k)) in Hx by lia. rewrite Z.pow_add_r in Hx by lia.
  split; [apply Z.div_pos; lia|]. apply Z.div_lt_upper_bound; lia.
Qed.

Lemma uvarint_go_facts buf : bytes_ok buf -> forall i x v m, 0 <= x < 2 ^ (7 * Z.of_nat i) -> (i <= 10)%nat ->
  uvarint_go buf i x (7 * Z.of_nat i) = (v, m) -> 0 < m ->
  Z.of_nat i < m <= 10 /\ m - Z.of_nat i <= Z.of_nat (length buf) /\ in_u64 v /\ v < 2 ^ (7 * m).
Proof.
  induction 1 as [|b buf Hb Hbuf IH]; intros i x v m Hx Hi Hu Hm; cbn [uvarint_go] in Hu; [by injection Hu as <- <-|].
  unfold byte_ok, in_u8 in Hb. change (2 ^ 8) with 256 in Hb. assert (Hs : 0 < 2 ^ (7 * Z.of_nat i)) by (apply Z.pow_pos_nonneg; lia).
  destruct (Nat.eqb_spec i MaxVarintLen64) as [->|Hi10]; [injection Hu as <- <-; lia|]. unfold MaxVarintLen64 in *.
  assert (Hsh : forall c, 0 <= c < 128 -> (i = 9%nat -> c <= 1) -> u64 (Z.shiftl c (7 * Z.of_nat i)) = Z.shiftl c (7 * Z.of_nat i)).
  { intros c Hc H9. apply u64_id. unfold in_u64. rewrite Z.shiftl_mul_pow2 by lia. split; [nia|].
    destruct (Nat.eq_dec i 9) as [->|]; [specialize (H9 eq_refl); change (7 * Z.of_nat 9) with 63; lia|].
    assert (2 ^ (7 * Z.of_nat i) <= 2 ^ 56) by (apply Z.pow_le_mono_r; lia). nia. }
  assert (Hp7 : 2 ^ (7 * (Z.of_nat i + 1)) = 128 * 2 ^ (7 * Z.of_nat i)) by (rewrite Z.mul_add_distr_l, Z.pow_add_r by lia; change (2 ^ (7 * 1)) with 128; lia).
  destruct (Z.ltb_spec b 128).
  - destruct (Nat.eqb_spec i (10 - 1)%nat) as [->|Hi9]; cbn [andb] in Hu.
    + destruct (Z.ltb_spec 1 b); [injection Hu as <- <-; lia|]. injection Hu as <- <-. rewrite Hsh, lor_shiftl_add by first [lia | intros ->; lia | done].
      cbn [length]. unfold in_u64. change (7 * Z.of_nat (10 - 1)) with 63 in *. change (7 * (Z.of_nat (10 - 1) + 1)) with 70. lia.
    + injection Hu as <- <-. rewrite Hsh, lor_shiftl_add by first [lia | intros ->; lia | done]. cbn [length]. unfold in_u64.
      assert (2 ^ (7 * Z.of_nat i) <= 2 ^ 56) by (apply Z.pow_le_mono_r; lia). rewrite Hp7. repeat split; nia.
  - destruct (Nat.eq_dec i 9) as [->|Hi9].
    { destruct buf as [|b' buf']; cbn [uvarint_go] in Hu; [injection Hu as <- <-; lia|]. rewrite Nat.eqb_refl in Hu. injection Hu as <- <-. lia. }
    rewrite land_127, Hsh, lor_shiftl_add in Hu by (try (apply Z.mod_pos_bound; lia); lia).
    pose proof (Z.mod_pos_bound b 128 ltac:(lia)). replace (7 * Z.of_nat i + 7) with (7 * Z.of_nat (S i)) in Hu by lia.
    apply IH in Hu; [cbn [length]; destruct Hu as (H1 & H2 & H3 & H4); split; [lia|]; split; [lia|done]| |lia|done].
    replace (7 * Z.of_nat (S i)) with (7 * (Z.of_nat i + 1)) by lia. rewrite Hp7. nia.
Qed.
Lemma Uvarint_facts buf v m : bytes_ok buf -> Uvarint buf = (v, m) -> 0 < m ->
  in_u64 v /\ m <= Z.of_nat (length buf) /\ uvarintLen v <= m.
Proof.
  intros Hb Hu Hm. destruct (uvarint_go_facts buf Hb 0 0 v m ltac:(change (2 ^ _) with 1; lia) ltac:(lia) Hu Hm) as (H1 & H2 & H3 & H4).
  split; [done|]. split; [lia|]. unfold uvarintLen, PutUvarint.
  pose proof (put_uvarint_go_short MaxVarintLen64 v (Z.to_nat m)) as Hl. rewrite Z2Nat.id in Hl by lia. unfold in_u64 in H3. lia.
Qed.
Lemma zigzag_back ux : in_u64 ux -> let x := i64 (Z.shiftr ux 1) in let d := if Z.land ux 1 =? 0 then x else Z.lnot x in
  in_i64 d /\ PutVarint d = PutUvarint ux.
Proof.
  intros Hux. cbv zeta. change (Z.land ux 1) with (Z.land ux (Z.ones 1)). rewrite Z.land_ones by lia. change (2 ^ 1) with 2.
  rewrite Z.shiftr_div_pow2 by lia. change (2 ^ 1) with 2. pose proof (Z.div_mod ux 2 ltac:(lia)) as Hdm. pose proof (Z.mod_pos_bound ux 2 ltac:(lia)) as Hm.
  assert (Hr : 0 <= ux / 2 < 2 ^ 63) by wsolve. rewrite i64_id by (unfold in_i64; lia).
  assert (Hz : forall y, u64 (Z.shiftl (u64 y) 1) = (2 * y) mod 2 ^ 64).
  { intros y. rewrite Z.shiftl_mul_pow2 by lia. unfold u64. rewrite Zmult_mod_idemp_l. f_equal. lia. }
  unfold PutVarint. rewrite Hz. destruct (Z.eqb_spec (ux mod 2) 0) as [E|E].
  - split; [unfold in_i64; lia|]. destruct (Z.ltb_spec (ux / 2) 0); [lia|]. f_equal. rewrite Z.mod_small; unfold in_u64 in *; lia.
  - unfold Z.lnot. split; [unfold in_i64; lia|]. destruct (Z.ltb_spec (Z.pred (- (ux / 2))) 0); [|lia]. f_equal.
    assert ((2 * Z.pred (- (ux / 2))) mod 2 ^ 64 = 2 ^ 64 - ux - 1) as -> by (symmetry; apply (Z.mod_unique_pos _ _ (-1)); unfold in_u64 in *; lia).
    unfold u64. symmetry. apply (Z.mod_unique_pos _ _ (-1)); unfold in_u64 in *; lia.
Qed.
Lemma Varint_facts buf d m : bytes_ok buf -> Varint buf = (d, m) -> 0 < m ->
  in_i64 d /\ m <= Z.of_nat (length buf) /\ signedVarintLen d <= m.
Proof.
  unfold Varint. intros Hb. destruct (Uvarint buf) as [ux n] eqn:E. intros H Hm. apply pair_equal_spec in H as [<- <-].
  destruct (Uvarint_facts buf ux n Hb E Hm) as (H1 & H2 & H3). destruct (zigzag_back ux H1) as [H4 H5]. split; [done|]. split; [done|].
  unfold signedVarintLen. rewrite H5. done.
Qed.

(** ** What appending builds *)

Definition line_cost (d : Z) (line : string) : Z := signedVarintLen d + uvarintLen (str_len line) + str_len line.
Lemma encode_lc_line_length line : Z.of_nat (length (encode_lc_line line)) = uvarintLen (str_len line) + str_len line.
Proof. unfold encode_lc_line, uvarintLen, str_len. rewrite length_app, length_str_bytes. lia. Qed.
Lemma encode_lc_snoc es e first prev : encode_lc_go first prev (es ++ [e]) =
  encode_lc_go first prev es ++
  PutVarint (match last es with None => if first then lce_ts e else i64 (lce_ts e - prev) | Some l => i64 (lce_ts e - lce_ts l) end) ++ encode_lc_line (lce_line e).
Proof.
  revert first prev. induction es as [|x es IH]; intros first prev; cbn [encode_lc_go app last]; [by rewrite app_nil_r|].
  rewrite IH. rewrite <- !app_assoc. destruct es as [|y es]; [done|]. cbn [last]. destruct (last (y :: es)) eqn:E; [done|by apply last_None in E].
Qed.

(** The header fields of a chunk, from its entries. *)
Definition bounds_of (es : list lc_entry) (mn mx : Z) : Prop :=
  match es with
  | [] => mn = 0 /\ mx = 0
  | _ => Forall (fun e => mn <= lce_ts e <= mx) es /\ Exists (fun e => lce_ts e = mn) es /\ Exists (fun e => lce_ts e = mx) es
  end.
Record lc_rep (c : lc_Chunk) (es : list lc_entry) : Prop := {
  rep_entries : lc_entries c = es;
  rep_bounds : bounds_of es (lc_minTs c) (lc_maxTs c);
  rep_last : lc_lastTs c = default 0 (lce_ts <$> last es);
  rep_uncomp : lc_uncompressed c = Z.of_nat (length (encode_lc_go true 0 es)) }.

Lemma lc_add_rep c es e : lc_rep c es -> lc_rep (lc_add c e) (es ++ [e]).
Proof.
  intros [He Hb Hl Hu]. unfold lc_add, lc_Append. rewrite He. split.
  - by destruct es, e.
  - destruct es as [|x es]; cbn [app bounds_of lc_minTs lc_maxTs].
    + split; [repeat constructor; lia|split; by constructor].
    + cbn [bounds_of] in Hb. destruct Hb as (HF & Hmn & Hmx).
      change (x :: es ++ [e]) with ((x :: es) ++ [e]). rewrite Forall_app, !Exists_app, !Exists_cons, !Forall_cons, !Exists_nil in *.
      rewrite Forall_forall in *. destruct HF as [Hx HF].
      destruct (Z.ltb_spec (lce_ts e) (lc_minTs c)), (Z.ltb_spec (lc_maxTs c) (lce_ts e)); (split; [split; [split; [lia|]|]|split; tauto]);
        try (intros y Hy; specialize (HF y Hy); lia); by (split; [lia|constructor]).
  - rewrite last_snoc. by destruct es.
  - rewrite encode_lc_snoc, !length_app, !Nat2Z.inj_add, encode_lc_line_length. rewrite <- Hu.
    destruct es as [|x es]; [cbn [lc_uncompressed last]; unfold signedVarintLen; cbn [encode_lc_go length]; lia|].
    destruct (last (x :: es)) eqn:E; [|by apply last_None in E]. cbn [fmap option_fmap option_map default from_option id] in Hl. cbn [lc_uncompressed]. rewrite Hl. unfold signedVarintLen. lia.
Qed.
Lemma lc_of_rep es : lc_rep (lc_of es) es.
Proof.
  unfold lc_of. induction es as [|e es IH] using rev_ind; [by split|]. rewrite fold_left_app. by apply lc_add_rep.
Qed.
Lemma lc_of_entries es : lc_entries (lc_of es) = es.
Proof. apply rep_entries, lc_of_rep. Qed.
Lemma lc_of_snoc es e : lc_of (es ++ [e]) = lc_add (lc_of es) e.
Proof. unfold lc_of. by rewrite fold_left_app. Qed.

(** ** Reading back what was written *)

Definition storable (e : lc_entry) : Prop := in_i64 (lce_ts e) /\ str_len (lce_line e) < 2 ^ 32.

Lemma drop_length_app {A} n (l1 l2 : list A) : Z.to_nat n = length l1 -> drop (Z.to_nat n) (l1 ++ l2) = l2.
Proof. intros ->. apply drop_app_length. Qed.
Lemma decode_encode_lc es fuel i n prev c : Forall storable es -> in_i64 prev -> 0 <= i -> i + Z.of_nat (length es) = n -> (length es < fuel)%nat ->
  decode_lc_go fuel i n prev (encode_lc_go (i =? 0) prev es) c = Ok (fold_left lc_add es c).
Proof.
  revert fuel i prev c. induction es as [|e es IH]; intros [|fuel] i prev c Hs Hp Hi Hn Hf; try (cbn in Hf; lia); cbn [decode_lc_go encode_lc_go length] in *.
  { destruct (Z.leb_spec n i); [done|lia]. }
  apply Forall_cons in Hs as [[Hts Hll] Hs]. destruct (Z.leb_spec n i); [lia|].
  set (d := if i =? 0 then lce_ts e else i64 (lce_ts e - prev)).
  assert (Hd : in_i64 d) by (subst d; destruct (i =? 0); [done|apply in_i64_i64]).
  rewrite Varint_PutVarint by done. pose proof (PutVarint_pos d). destruct (Z.leb_spec (Z.of_nat (length (PutVarint d))) 0); [lia|].
  rewrite drop_length_app by lia. unfold encode_lc_line. rewrite <- !app_assoc.
  assert (Hl0 : 0 <= str_len (lce_line e)) by (unfold str_len; lia).
  rewrite Uvarint_PutUvarint by (unfold in_u64; lia). pose proof (PutUvarint_pos (str_len (lce_line e))).
  destruct (Z.leb_spec (Z.of_nat (length (PutUvarint (str_len (lce_line e))))) 0); [lia|]. rewrite drop_length_app by lia.
  rewrite length_app, length_str_bytes. destruct (Z.ltb_spec (Z.of_nat (String.length (lce_line e) + length (encode_lc_go false (lce_ts e) es))) (str_len (lce_line e))); [unfold str_len in *; lia|].
  rewrite drop_length_app by (rewrite length_str_bytes; unfold str_len; lia).
  replace (Z.to_nat (str_len (lce_line e))) with (length (str_bytes (lce_line e))) by (rewrite length_str_bytes; unfold str_len; lia).
  rewrite take_app_length, bytes_str_bytes.
  assert ((if i =? 0 then d else i64 (prev + d)) = lce_ts e) as ->.
  { subst d. destruct (i =? 0); [done|]. rewrite i64_add_r. replace (prev + (lce_ts e - prev)) with (lce_ts e) by lia. by apply i64_id. }
  change false with (0 =? 1) at 1. assert ((0 =? 1) = (i + 1 =? 0)) as -> by (destruct (Z.eqb_spec (i + 1) 0); [lia|done]).
  rewrite IH by (done || lia). done.
Qed.

Lemma encode_lc_ok first prev es : bytes_ok (encode_lc_go first prev es).
Proof.
  revert first prev. induction es as [|e es IH]; intros; cbn [encode_lc_go]; [constructor|]. unfold encode_lc_line.
  repeat (apply Forall_app; split); [apply PutVarint_ok|apply PutUvarint_ok; unfold str_len; lia|apply str_bytes_ok|apply IH].
Qed.
Lemma encode_lc_length first prev es : (2 * length es <= length (encode_lc_go first prev es))%nat.
Proof.
  revert first prev. induction es as [|e es IH]; intros; cbn [encode_lc_go length]; [lia|]. unfold encode_lc_line. rewrite !length_app.
  specialize (IH false (lce_ts e)). pose proof (PutVarint_pos (if first then lce_ts e else i64 (lce_ts e - prev))). pose proof (PutUvarint_pos (str_len (lce_line e))). lia.
Qed.
Lemma encode_lc_line_le first prev es e : e ∈ es -> (String.length (lce_line e) <= length (encode_lc_go first prev es))%nat.
Proof.
  revert first prev. induction es as [|x es IH]; intros first prev He; [by apply elem_of_nil in He|]. cbn [encode_lc_go]. unfold encode_lc_line. rewrite !length_app, length_str_bytes.
  apply elem_of_cons in He as [->|He]; [lia|]. specialize (IH false (lce_ts x) He). lia.
Qed.

Lemma decodeEntries_encode es : Forall storable es -> decodeEntries (encode_lc_go true 0 es) (Z.of_nat (length es)) = Ok (lc_of es).
Proof.
  intros Hs. unfold decodeEntries. change true with (0 =? 0). rewrite decode_encode_lc; [done|done|unfold in_i64; lia|lia|lia|].
  pose proof (encode_lc_length (0 =? 0) 0 es). lia.
Qed.

(** *** The fields of a serialised chunk *)

Lemma slice_at lo n (a b c l : list Z) : l = a ++ b ++ c -> length a = lo -> length b = n -> slice lo n l = b.
Proof. intros -> <- <-. unfold slice. by rewrite drop_app_length, take_app_length. Qed.
Lemma be_at_field lo n v (a c l : list Z) : l = a ++ be_bytes n v ++ c -> length a = lo -> be_at lo n l = v mod 2 ^ (8 * Z.of_nat n).
Proof. intros Hl Ha. unfold be_at. rewrite (slice_at lo n a (be_bytes n v) c l Hl Ha (length_be_bytes n v)). apply be_val_bytes. Qed.
Ltac field := rewrite ?app_nil_r, <- ?app_assoc; reflexivity.

(** What both readers find in [head ++ crc ++ payloadCRC ++ compressed]. *)
Record lc_fields (data : list Z) (c : lc_Chunk) (blockLen compLen hcrc pcrc : Z) : Prop := {
  lf_len : Z.of_nat (length data) = 41 + compLen;
  lf_magic : slice 0 4 data = lc_magic;
  lf_version : be_at 4 1 data = lc_version;
  lf_min : be_at 5 8 data = u64 (lc_minTs c);
  lf_max : be_at 13 8 data = u64 (lc_maxTs c);
  lf_num : be_at 21 4 data = u32 (NumEntries c);
  lf_block : be_at 25 4 data = u32 blockLen;
  lf_comp : be_at 29 4 data = u32 compLen;
  lf_hcrc : be_at 33 4 data = hcrc;
  lf_pcrc : be_at 37 4 data = pcrc }.
Lemma lc_header_length c b n : length (lc_header c b n) = 33%nat.
Proof. unfold lc_header. rewrite !length_app, !length_be_bytes. done. Qed.
Lemma mod_u8_id v w : v mod 2 ^ (8 * Z.of_nat 8) = w -> v mod 2 ^ 64 = w.
Proof. done. Qed.
Lemma lc_fields_of c blockLen hcrc pcrc comp : in_u32 hcrc -> in_u32 pcrc ->
  lc_fields (lc_header c blockLen (Z.of_nat (length comp)) ++ be_bytes 4 hcrc ++ be_bytes 4 pcrc ++ comp) c blockLen (Z.of_nat (length comp)) hcrc pcrc.
Proof.
  intros Hh Hp. set (n := Z.of_nat (length comp)). set (data := _ ++ _).
  set (f1 := be_bytes 8 (u64 (lc_minTs c))). set (f2 := be_bytes 8 (u64 (lc_maxTs c))). set (f3 := be_bytes 4 (u32 (NumEntries c))).
  set (f4 := be_bytes 4 (u32 blockLen)). set (f5 := be_bytes 4 (u32 n)).
  assert (E : data = lc_magic ++ [lc_version] ++ f1 ++ f2 ++ f3 ++ f4 ++ f5 ++ be_bytes 4 hcrc ++ be_bytes 4 pcrc ++ comp) by (unfold data, lc_header; rewrite <- !app_assoc; done).
  assert (Hm8 : forall x, u64 x mod 2 ^ (8 * Z.of_nat 8) = u64 x) by (intros; apply Z.mod_small, in_u64_u64).
  assert (Hm4 : forall x, in_u32 x -> x mod 2 ^ (8 * Z.of_nat 4) = x) by (intros; by apply Z.mod_small).
  rewrite E. split.
  - rewrite !length_app. unfold f1, f2, f3, f4, f5. rewrite !length_be_bytes. cbn [length lc_magic]. lia.
  - apply (slice_at 0 4 [] lc_magic _ _ eq_refl); done.
  - unfold be_at. by rewrite (slice_at 4 1 lc_magic [lc_version] _ _ eq_refl).
  - rewrite (be_at_field 5 8 (u64 (lc_minTs c)) (lc_magic ++ [lc_version]) (f2 ++ f3 ++ f4 ++ f5 ++ be_bytes 4 hcrc ++ be_bytes 4 pcrc ++ comp)); [apply Hm8|field|done].
  - rewrite (be_at_field 13 8 (u64 (lc_maxTs c)) (lc_magic ++ [lc_version] ++ f1) (f3 ++ f4 ++ f5 ++ be_bytes 4 hcrc ++ be_bytes 4 pcrc ++ comp)); [apply Hm8|field|done].
  - rewrite (be_at_field 21 4 (u32 (NumEntries c)) (lc_magic ++ [lc_version] ++ f1 ++ f2) (f4 ++ f5 ++ be_bytes 4 hcrc ++ be_bytes 4 pcrc ++ comp)); [apply Hm4, in_u32_u32|field|done].
  - rewrite (be_at_field 25 4 (u32 blockLen) (lc_magic ++ [lc_version] ++ f1 ++ f2 ++ f3) (f5 ++ be_bytes 4 hcrc ++ be_bytes 4 pcrc ++ comp)); [apply Hm4, in_u32_u32|field|done].
  - rewrite (be_at_field 29 4 (u32 n) (lc_magic ++ [lc_version] ++ f1 ++ f2 ++ f3 ++ f4) (be_bytes 4 hcrc ++ be_bytes 4 pcrc ++ comp)); [apply Hm4, in_u32_u32|field|done].
  - rewrite (be_at_field 33 4 hcrc (lc_magic ++ [lc_version] ++ f1 ++ f2 ++ f3 ++ f4 ++ f5) (be_bytes 4 pcrc ++ comp)); [by apply Hm4|field|done].
  - rewrite (be_at_field 37 4 pcrc (lc_magic ++ [lc_version] ++ f1 ++ f2 ++ f3 ++ f4 ++ f5 ++ be_bytes 4 hcrc) comp); [by apply Hm4|field|done].
Qed.

(** ** The chunk round trip *)

Definition encoded_size (es : list lc_entry) : Z := lc_uncompressed (lc_of es).
Lemma encoded_size_eq es : encoded_size es = Z.of_nat (length (encode_lc_go true 0 es)).
Proof. apply rep_uncomp, lc_of_rep. Qed.
(** What the writer must keep to: in-range timestamps and the size cap. *)
Definition fits (es : list lc_entry) : Prop := Forall (fun e => in_i64 (lce_ts e)) es /\ encoded_size es <= MaxUncompressedBytes.
Lemma fits_storable es : fits es -> Forall storable es.
Proof.
  intros [Ht Hs]. rewrite encoded_size_eq in Hs. rewrite Forall_forall in *. intros e He. split; [by apply Ht|].
  pose proof (encode_lc_line_le true 0 es e He). unfold str_len, MaxUncompressedBytes in *. change (Z.shiftl 128 20) with (2 ^ 27) in Hs. lia.
Qed.
Lemma bounds_in_i64 es mn mx : Forall (fun e => in_i64 (lce_ts e)) es -> bounds_of es mn mx -> in_i64 mn /\ in_i64 mx.
Proof.
  destruct es as [|e es]; cbn [bounds_of]; [intros _ [-> ->]; split; unfold in_i64; lia|]. intros HF (_ & H1 & H2).
  rewrite Forall_forall in HF. apply Exists_exists in H1 as (a & Ha & <-), H2 as (b & Hb & <-). split; by apply HF.
Qed.

Section codec.
Context `{F : Flate} (FL : FlateLaws F).

Lemma lc_Bytes_fields c : lc_fields (lc_Bytes c) c (Z.of_nat (length (encodeEntries c))) (Z.of_nat (length (deflate (encodeEntries c))))
  (crc32c (lc_header c (Z.of_nat (length (encodeEntries c))) (Z.of_nat (length (deflate (encodeEntries c)))))) (crc32c (deflate (encodeEntries c))).
Proof. apply lc_fields_of; apply crc32c_in. Qed.
Lemma lc_Bytes_drop c : drop lc_headerLen (lc_Bytes c) = deflate (encodeEntries c).
Proof.
  unfold lc_Bytes. rewrite !app_assoc. apply drop_app_length'. rewrite !length_app, lc_header_length, !length_be_bytes. done.
Qed.
Lemma lc_Bytes_take c : take lc_headerCRCScope (lc_Bytes c) = lc_header c (Z.of_nat (length (encodeEntries c))) (Z.of_nat (length (deflate (encodeEntries c)))).
Proof. unfold lc_Bytes. apply take_app_length'. by rewrite lc_header_length. Qed.

Lemma entries_num es : fits es -> u32 (NumEntries (lc_of es)) = Z.of_nat (length es).
Proof.
  intros [_ Hs]. unfold NumEntries. rewrite lc_of_entries. apply u32_id. rewrite encoded_size_eq in Hs. pose proof (encode_lc_length true 0 es).
  unfold MaxUncompressedBytes in Hs. change (Z.shiftl 128 20) with (2 ^ 27) in Hs. unfold in_u32. lia.
Qed.
Lemma comp_len_u32 es : fits es -> u32 (Z.of_nat (length (deflate (encode_lc_go true 0 es)))) = Z.of_nat (length (deflate (encode_lc_go true 0 es))).
Proof.
  intros [_ Hs]. rewrite encoded_size_eq in Hs. apply u32_id. split; [lia|]. by apply deflate_short.
Qed.

Lemma PeekBounds_Bytes es : fits es ->
  PeekBounds (lc_Bytes (lc_of es)) = Ok (lc_minTs (lc_of es), lc_maxTs (lc_of es), Z.of_nat (length es), Z.of_nat (length (lc_Bytes (lc_of es))) - 41).
Proof.
  intros Hf. pose proof (lc_Bytes_fields (lc_of es)) as H. destruct H as [Hl Hm Hv H1 H2 H3 H4 H5 H6 H7]. unfold PeekBounds.
  rewrite Hm, bool_decide_eq_true_2, Hv, lc_Bytes_take, H6, !Z.eqb_refl by done. unfold lc_headerLen.
  destruct (Nat.ltb_spec (length (lc_Bytes (lc_of es))) 41); [lia|]. cbn [orb negb].
  destruct (bounds_in_i64 es _ _ (proj1 Hf) (rep_bounds _ _ (lc_of_rep es))) as [Hmn Hmx].
  rewrite H1, H2, H3, H5, !i64_u64, !i64_id, entries_num by done. unfold encodeEntries in *. rewrite lc_of_entries in *. rewrite comp_len_u32, Hl by done. repeat f_equal. lia.
Qed.
Lemma lc_FromBytes_Bytes es : fits es -> lc_FromBytes (lc_Bytes (lc_of es)) = Ok (lc_of es).
Proof.
  intros Hf. pose proof (lc_Bytes_fields (lc_of es)) as H. destruct H as [Hl Hm Hv H1 H2 H3 H4 H5 H6 H7]. unfold lc_FromBytes.
  rewrite Hm, bool_decide_eq_true_2, Hv, lc_Bytes_take, H6, !Z.eqb_refl by done. unfold lc_headerLen.
  destruct (Nat.ltb_spec (length (lc_Bytes (lc_of es))) 41); [lia|]. cbn [orb negb]. cbv zeta.
  destruct (bounds_in_i64 es _ _ (proj1 Hf) (rep_bounds _ _ (lc_of_rep es))) as [Hmn Hmx].
  rewrite H1, H2, H3, H4, H5, H7, !i64_u64, !i64_id, entries_num by done. unfold encodeEntries in *. rewrite lc_of_entries in *.
  pose proof Hf as [_ Hs]. rewrite encoded_size_eq in Hs. pose proof Hs as Hs'. unfold MaxUncompressedBytes in Hs'. change (Z.shiftl 128 20) with (2 ^ 27) in Hs'.
  rewrite comp_len_u32 by exact Hf. rewrite (u32_id (Z.of_nat (length (encode_lc_go true 0 es)))) by (unfold in_u32; lia). clear Hs'.
  rewrite (proj2 (Z.ltb_ge _ _) Hs), Hl, Z.eqb_refl. cbn [negb].
  change 41%nat with lc_headerLen. rewrite lc_Bytes_drop. unfold encodeEntries. rewrite lc_of_entries, Z.eqb_refl. cbn [negb].
  unfold inflate_exactly. rewrite inflate_deflate by apply encode_lc_ok. rewrite Z.ltb_irrefl. cbn [orb negb].
  rewrite bind_Ok, decodeEntries_encode, bind_Ok, !Z.eqb_refl by (by apply fits_storable). done.
Qed.
End codec.

(** ** What the decoder accepts *)

Lemma bytes_str_len l : bytes_ok l -> str_len (bytes_str l) = Z.of_nat (length l).
Proof. intros Hl. unfold str_len. by rewrite <- length_str_bytes, str_bytes_str. Qed.

Lemma decode_lc_sound fuel i n prev block c c' : bytes_ok block -> in_i64 prev -> 0 <= i <= n ->
  decode_lc_go fuel i n prev block c = Ok c' ->
  exists es, c' = fold_left lc_add es c /\ Forall (fun e => in_i64 (lce_ts e)) es /\ i + Z.of_nat (length es) = n /\
    (length (encode_lc_go (i =? 0)%Z prev es) <= length block)%nat.
Proof.
  revert i prev block c. induction fuel as [|fuel IH]; intros i prev block c Hb Hp Hi; cbn [decode_lc_go];
    (destruct (Z.leb_spec n i); [destruct (_ =? 0)%nat; [|done]; intros [= <-]; exists []; split; [done|]; split; [constructor|]; cbn; lia|]); [done|].
  destruct (Varint block) as [d m] eqn:Ev. destruct (Z.leb_spec m 0); [done|]. destruct (Varint_facts _ _ _ Hb Ev) as (Hd & Hm & Hcost); [done|].
  set (b1 := drop (Z.to_nat m) block). assert (Hb1 : bytes_ok b1) by (by apply Forall_drop).
  destruct (Uvarint b1) as [ll m2] eqn:Eu. destruct (Z.leb_spec m2 0); [done|]. destruct (Uvarint_facts _ _ _ Hb1 Eu) as (Hll & Hm2 & Hcost2); [done|].
  set (b2 := drop (Z.to_nat m2) b1). assert (Hb2 : bytes_ok b2) by (by apply Forall_drop).
  destruct (Z.ltb_spec (Z.of_nat (length b2)) ll); [done|]. set (ts := if i =? 0 then d else i64 (prev + d)). set (line := bytes_str _).
  assert (Hts : in_i64 ts) by (subst ts; destruct (i =? 0); [done|apply in_i64_i64]).
  intros Hdec. apply IH in Hdec as (es & -> & HF & Hn & Hl); [|by apply Forall_drop|done|lia].
  exists (mkLcEntry ts line :: es). split; [done|]. split; [by constructor|]. split; [cbn [length]; lia|].
  assert ((i + 1 =? 0) = false) as Ei by (destruct (Z.eqb_spec (i + 1) 0); [lia|done]). rewrite Ei in Hl.
  assert (Hll2 : str_len line = ll) by (subst line; rewrite bytes_str_len by (by apply Forall_take); rewrite length_take; unfold in_u64 in Hll; lia).
  assert (Hdd : (if i =? 0 then ts else i64 (ts - prev)) = d).
  { subst ts. destruct (i =? 0); [done|]. replace (i64 (prev + d) - prev) with (i64 (prev + d) + - prev) by lia. rewrite i64_add_l.
    replace (prev + d + - prev) with d by lia. by apply i64_id. }
  cbn [encode_lc_go lce_ts lce_line]. rewrite !length_app, Hdd. pose proof (encode_lc_line_length line) as Hll3. rewrite Hll2 in Hll3.
  unfold signedVarintLen, uvarintLen in *. assert (Hb2l : length b2 = (length b1 - Z.to_nat m2)%nat) by apply length_drop.
  assert (Hb1l : length b1 = (length block - Z.to_nat m)%nat) by apply length_drop. rewrite length_drop in Hl. lia.
Qed.

(** The loop never runs out of fuel: each entry consumes at least a byte. *)
Lemma Varint_nil : Varint [] = (0, 0).
Proof. done. Qed.
Lemma decode_lc_fuel fuel i n prev block c : (length block < fuel)%nat -> decode_lc_go fuel i n prev block c <> Err LcFuel.
Proof.
  revert i prev block c. induction fuel as [|fuel IH]; intros i prev block c Hf; [lia|]. cbn [decode_lc_go].
  destruct (n <=? i); [by destruct (_ =? 0)%nat|]. destruct (Varint block) as [d m] eqn:Ev. destruct (Z.leb_spec m 0); [done|].
  destruct (Uvarint _) as [ll m2]. destruct (m2 <=? 0); [done|]. destruct (_ <? ll); [done|]. apply IH.
  destruct block as [|b block]; [rewrite Varint_nil in Ev; apply pair_equal_spec in Ev as [_ <-]; lia|]. rewrite !length_drop. cbn [length] in *. lia.
Qed.

Section sound.
Context `{F : Flate} (FL : FlateLaws F).

Lemma be_at_range lo n data : bytes_ok data -> 0 <= be_at lo n data < 2 ^ (8 * Z.of_nat n).
Proof.
  intros Hd. assert (Hs : bytes_ok (slice lo n data)) by (by apply Forall_take, Forall_drop). pose proof (be_val_range _ Hs) as H. unfold be_at.
  assert (Hl : (length (slice lo n data) <= n)%nat) by (unfold slice; rewrite length_take; lia).
  assert (2 ^ (8 * Z.of_nat (length (slice lo n data))) <= 2 ^ (8 * Z.of_nat n)) by (apply Z.pow_le_mono_r; lia). lia.
Qed.
Lemma lc_FromBytes_sound data c : bytes_ok data -> lc_FromBytes data = Ok c ->
  exists es, c = lc_of es /\ fits es /\
    PeekBounds data = Ok (lc_minTs c, lc_maxTs c, Z.of_nat (length es), Z.of_nat (length data) - 41).
Proof.
  intros Hd. unfold lc_FromBytes, PeekBounds. destruct (_ || _)%bool; [done|]. destruct (negb (be_at 4 1 data =? _)); [done|]. destruct (negb (crc32c (take _ data) =? _)); [done|].
  cbv zeta. destruct (Z.ltb_spec MaxUncompressedBytes (be_at 25 4 data)); [done|].
  destruct (Z.eqb_spec (Z.of_nat lc_headerLen + be_at 29 4 data) (Z.of_nat (length data))) as [Hc|]; [|done]. cbn [negb]. destruct (negb _); [done|].
  intros Hr. unfold inflate_exactly in Hr. destruct (inflate (drop lc_headerLen data)) as [block eof] eqn:Ei.
  destruct (Z.ltb_spec (Z.of_nat (length block)) (be_at 25 4 data)); [done|]. destruct (Z.ltb_spec (be_at 25 4 data) (Z.of_nat (length block))); [done|]. destruct eof; [|done]. cbn [orb negb] in Hr.
  rewrite bind_Ok in Hr. destruct (decodeEntries block (be_at 21 4 data)) as [c'|e] eqn:Ed; [|done]. rewrite bind_Ok in Hr.
  destruct (negb (lc_minTs c' =? i64 (be_at 5 8 data)) || negb (lc_maxTs c' =? i64 (be_at 13 8 data)))%bool eqn:Eb; [done|]. injection Hr as <-.
  apply orb_false_iff in Eb as [E1 E2]. apply negb_false_iff, Z.eqb_eq in E1, E2.
  assert (Hblk : bytes_ok block) by (pose proof (inflate_ok (drop lc_headerLen data) ltac:(by apply Forall_drop)) as Hok; by rewrite Ei in Hok).
  pose proof (be_at_range 21 4 data Hd). apply decode_lc_sound in Ed as (es & -> & HF & Hn & Hl); [|done|unfold in_i64; lia|lia].
  fold (lc_of es) in *. exists es. split; [done|]. split.
  - split; [done|]. rewrite encoded_size_eq. change (0 =? 0) with true in Hl. lia.
  - rewrite <- E1, <- E2. replace (be_at 21 4 data) with (Z.of_nat (length es)) by lia. repeat f_equal. unfold lc_headerLen in Hc. lia.
Qed.

(** ** Properties *)

(** C18. A chunk built by appending lines in any order, with timestamps anywhere
    in the [int64] range (so the deltas wrap) and under the size cap, survives
    serialisation: [FromBytes] gives back the very chunk, and the header-only read
    gives its bounds, its entry count and the payload's length, from the first 41
    bytes alone. *)
Theorem logchunk_roundtrip (es : list lc_entry) : fits es ->
  lc_FromBytes (lc_Bytes (lc_of es)) = Ok (lc_of es) /\ lc_entries (lc_of es) = es /\
  lc_uncompressed (lc_of es) = Z.of_nat (length (encodeEntries (lc_of es))) /\
  bounds_of es (lc_minTs (lc_of es)) (lc_maxTs (lc_of es)) /\
  PeekBounds (lc_Bytes (lc_of es)) = Ok (lc_minTs (lc_of es), lc_maxTs (lc_of es), Z.of_nat (length es), Z.of_nat (length (lc_Bytes (lc_of es))) - 41).
Proof.
  intros Hf. destruct (lc_of_rep es) as [He Hb _ Hu]. split; [by apply lc_FromBytes_Bytes|]. split; [done|]. split; [by unfold encodeEntries; rewrite He|].
  split; [done|]. by apply PeekBounds_Bytes.
Qed.

(** C27. Whatever bytes [FromBytes] accepts, the chunk is one appending could have
    built: timestamps in range, within the size cap, with the bounds, count and
    payload length the header-only read reports for the same bytes; so it can be
    written again, and reads back as itself. *)
Theorem logchunk_decode_sound (data : list Z) (c : lc_Chunk) : bytes_ok data -> lc_FromBytes data = Ok c ->
  exists es, c = lc_of es /\ fits es /\
    PeekBounds data = Ok (lc_minTs c, lc_maxTs c, Z.of_nat (length es), Z.of_nat (length data) - 41) /\
    lc_FromBytes (lc_Bytes c) = Ok c.
Proof.
  intros Hd H. destruct (lc_FromBytes_sound data c Hd H) as (es & -> & Hf & Hp). exists es. split; [done|]. split; [done|]. split; [done|]. by apply lc_FromBytes_Bytes.
Qed.
End sound.

(** ** Witnesses *)

Definition demo_lc : list lc_entry := [mkLcEntry 100 "level=info a"; mkLcEntry 40 "b"; mkLcEntry MaxInt64 ""; mkLcEntry MinInt64 "c"].
Lemma demo_lc_fits : fits demo_lc.
Proof. split; [repeat constructor; unfold in_i64, MaxInt64, MinInt64; cbn [lce_ts]; lia|]. vm_compute. discriminate. Qed.
Definition demo_lc_bytes : list Z := Eval vm_compute in @lc_Bytes stored_flate (lc_of demo_lc).
Lemma demo_lc_bytes_ok : bytes_ok demo_lc_bytes.
Proof. by apply bytes_ok_check. Qed.
Lemma demo_lc_decodes : @lc_FromBytes stored_flate demo_lc_bytes = Ok (lc_of demo_lc).
Proof. vm_compute. reflexivity. Qed.
Lemma logchunk_roundtrip_witness : @lc_FromBytes stored_flate (@lc_Bytes stored_flate (lc_of demo_lc)) = Ok (lc_of demo_lc).
Proof. exact (proj1 (logchunk_roundtrip stored_laws demo_lc demo_lc_fits)). Defined.
Lemma logchunk_decode_sound_witness : exists es, lc_of demo_lc = lc_of es /\ fits es /\
    PeekBounds demo_lc_bytes = Ok (lc_minTs (lc_of demo_lc), lc_maxTs (lc_of demo_lc), Z.of_nat (length es), Z.of_nat (length demo_lc_bytes) - 41) /\
    @lc_FromBytes stored_flate (@lc_Bytes stored_flate (lc_of demo_lc)) = Ok (lc_of demo_lc).
Proof. exact (logchunk_decode_sound stored_laws demo_lc_bytes (lc_of demo_lc) demo_lc_bytes_ok demo_lc_decodes). Defined.
(** A flipped payload byte, a forged count and a truncated file are refused. *)
Example demo_lc_refused :
  @lc_FromBytes stored_flate (<[50%nat := 1]> demo_lc_bytes) = Err LcPayloadCRC /\
  @lc_FromBytes stored_flate (<[24%nat := 9]> demo_lc_bytes) = Err LcHeaderCRC /\
  @lc_FromBytes stored_flate (take 60 demo_lc_bytes) = Err (LcCompLen 37) /\
  PeekBounds (take 41 demo_lc_bytes) = PeekBounds demo_lc_bytes.
Proof. repeat split; vm_compute; reflexivity. Qed.
