(* ===== verification/LogStream.v ===== *)
(** * LogStream: log entries, reads of a stream, and the read interfaces

    [internal/logs/model.go], [validation.go], [source.go] ([Source], [AsSource]),
    [query.go] ([Reader]), [head.go] ([mergeEntries]), [merge.go] ([Merge]) and
    [tenant_source.go]. A read of a stream is one function of everything ever
    stored for it ([view]); the classes state what a reader and a source promise in
    those terms, and merging and tenant filtering are proved against them. *)
From stdpp Require Import strings.
From S2P Require Import Prelude GoLib GoSort Labels Postings Source.

(** ** Data *)

Record LogEntry := mkLE { le_id : Z; le_ts : Z; le_line : string }.
#[export] Instance LogEntry_eq_dec : EqDecision LogEntry.
Proof. solve_decision. Defined.
Record StreamData := mkSD { st_labels : Labels; st_entries : list LogEntry }.
Definition StreamIDOf (l : Labels) : Z := Hash l.
Definition sid (sd : StreamData) : Z := StreamIDOf (st_labels sd).

Definition MaxLineBytes : Z := 256 * 1024.
Inductive entryErr := ErrTimestamp | ErrLine.
Definition ValidateEntry (e : LogEntry) : result entryErr unit :=
  if le_ts e <=? 0 then Err ErrTimestamp
  else if MaxLineBytes <? str_len (le_line e) then Err ErrLine
  else Ok tt.

(** Errors a read can report: a chunk file that cannot be decoded, or one that
    belongs to another stream; anything else a remote source reports. *)
Inductive logErr := LogErrChunk (name : string) | LogErrForeign (name : string) (got want : Z) | LogErrOther (code : Z).

(** ** Reading a stream: range, deduplication by (timestamp, line), stable order *)

Definition le_key (e : LogEntry) : Z * string := (le_ts e, le_line e).
Definition in_window (lo hi : Z) (e : LogEntry) : bool := negb ((le_ts e <? lo) || (hi <? le_ts e)).
Fixpoint keep_new (lo hi : Z) (seen : gset (Z * string)) (es : list LogEntry) : list LogEntry :=
  match es with
  | [] => []
  | e :: es =>
      if negb (in_window lo hi e) then keep_new lo hi seen es
      else if decide (le_key e ∈ seen) then keep_new lo hi seen es
      else e :: keep_new lo hi ({[le_key e]} ∪ seen) es
  end.
Definition keys_of (es : list LogEntry) : gset (Z * string) := list_to_set (le_key <$> es).
Definition mergeEntries (persisted head : list LogEntry) (minTs maxTs : Z) : list LogEntry :=
  sort_by le_ts (persisted ++ keep_new minTs maxTs (keys_of persisted) head).

(** ** The two read interfaces *)

Record Reader := mkReader {
  rd_MatchingStreamIDs : list Pair -> list Z;
  rd_StreamEntries : Z -> Z -> Z -> result logErr (list LogEntry);
  rd_StreamLabelSet : Z -> option Labels;
  rd_LabelNames : list string;
  rd_LabelValues : string -> list string }.
Record LogSource := mkLogSource {
  ls_SelectStreams : context -> list Pair -> Z -> Z -> result logErr (list StreamData);
  ls_SelectLabelNames : context -> result logErr (list string);
  ls_SelectLabelValues : context -> string -> result logErr (list string) }.

(** [readerSource]: unknown streams and empty answers are left out, the first
    error ends the read. *)
Fixpoint reader_select (r : Reader) (minTs maxTs : Z) (ids : list Z) : result logErr (list StreamData) :=
  match ids with
  | [] => Ok []
  | id :: ids =>
      match rd_StreamLabelSet r id with
      | None => reader_select r minTs maxTs ids
      | Some labels =>
          entries ← rd_StreamEntries r id minTs maxTs;
          out ← reader_select r minTs maxTs ids;
          Ok (match entries with [] => out | _ => mkSD labels entries :: out end)
      end
  end.
Definition AsSource (r : Reader) : LogSource := mkLogSource
  (fun _ ms minTs maxTs => reader_select r minTs maxTs (rd_MatchingStreamIDs r ms))
  (fun _ => Ok (rd_LabelNames r))
  (fun _ name => Ok (rd_LabelValues r name)).

(** ** Merge *)

Definition put_persisted (byID : gmap Z StreamData) (sd : StreamData) : gmap Z StreamData := <[sid sd := sd]> byID.
Definition put_head (minTs maxTs : Z) (byID : gmap Z StreamData) (sd : StreamData) : gmap Z StreamData :=
  match byID !! sid sd with
  | Some p => <[sid sd := mkSD (st_labels p) (mergeEntries (st_entries p) (st_entries sd) minTs maxTs)]> byID
  | None => <[sid sd := sd]> byID
  end.
Definition merge_streams (minTs maxTs : Z) (heads persisted : list StreamData) : list StreamData :=
  let byID := fold_left (put_head minTs maxTs) heads (fold_left put_persisted persisted ∅) in
  omap (fun id => byID !! id) (sort_by id (elements (dom byID))).
Definition log_Merge (first second : LogSource) : LogSource := mkLogSource
  (fun ctx ms minTs maxTs =>
     heads ← ls_SelectStreams first ctx ms minTs maxTs;
     persisted ← ls_SelectStreams second ctx ms minTs maxTs;
     Ok (merge_streams minTs maxTs heads persisted))
  (fun ctx => a ← ls_SelectLabelNames first ctx; b ← ls_SelectLabelNames second ctx; Ok (unionSorted a b))
  (fun ctx name => a ← ls_SelectLabelValues first ctx name; b ← ls_SelectLabelValues second ctx name; Ok (unionSorted a b)).

(** ** Tenant isolation *)

Definition tenant_matchers (ctx : context) (ms : list Pair) : list Pair :=
  if String.eqb (tenant_From ctx) tenant_Default then ms else ms ++ [mkPair tenant_Label (tenant_From ctx)].
Definition strip_stream (sd : StreamData) : StreamData := mkSD (Without (st_labels sd) tenant_Label) (st_entries sd).
Definition tenant_SelectStreams (inner : LogSource) (ctx : context) (ms : list Pair) (minTs maxTs : Z) : result logErr (list StreamData) :=
  if existsb (fun m => String.eqb (p_name m) tenant_Label) ms then Ok [] else
  match ls_SelectStreams inner ctx (tenant_matchers ctx ms) minTs maxTs with
  | Err e => Err e
  | Ok got => Ok (strip_stream <$> filter (fun sd => TenantOf (st_labels sd) = tenant_From ctx) got)
  end.
Definition tenantLabelSets (r : Reader) (ctx : context) : list Labels :=
  (fun l => Without l tenant_Label) <$>
  filter (fun l => TenantOf l = tenant_From ctx) (omap (rd_StreamLabelSet r) (rd_MatchingStreamIDs r (tenant_matchers ctx []))).
Definition label_names (ls : list Labels) : gset string := ⋃ ((fun l => dom (labels_Map l)) <$> ls).
Definition label_values (name : string) (ls : list Labels) : gset string := list_to_set (omap (fun l => Get l name) ls).
Definition log_TenantSource (r : Reader) (inner : LogSource) : LogSource := mkLogSource
  (tenant_SelectStreams inner)
  (fun ctx => Ok (sortedStringSet (label_names (tenantLabelSets r ctx))))
  (fun ctx name => Ok (sortedStringSet (label_values name (tenantLabelSets r ctx)))).

(** ** The specification: everything ever stored, per stream *)

Definition log_db := Labels -> option (list LogEntry).
Definition log_matches (ms : list Pair) (l : Labels) : Prop := Forall (fun m => Get l (p_name m) = Some (p_value m)) ms.
#[export] Instance log_matches_dec ms l : Decision (log_matches ms l).
Proof. unfold log_matches. apply _. Defined.

(** What a read of a stream returns, given everything stored for it, oldest copy
    first. *)
Definition view (lo hi : Z) (raw : list LogEntry) : list LogEntry := sort_by le_ts (keep_new lo hi ∅ raw).

Definition log_answers (db : log_db) (ms : list Pair) (lo hi : Z) (out : list StreamData) : Prop :=
  NoDup (st_labels <$> out) /\
  forall sd, sd ∈ out <-> exists raw, db (st_labels sd) = Some raw /\ log_matches ms (st_labels sd) /\
    st_entries sd = view lo hi raw /\ st_entries sd <> [].
Definition log_names (db : log_db) (out : list string) : Prop :=
  StronglySorted str_lt out /\ forall n, n ∈ out <-> exists l, is_Some (db l) /\ is_Some (Get l n).
Definition log_values (db : log_db) (name : string) (out : list string) : Prop :=
  StronglySorted str_lt out /\ forall v, v ∈ out <-> exists l, is_Some (db l) /\ Get l name = Some v.

Class LogImplements (src : LogSource) (ctx : context) (db : log_db) : Prop := {
  streams_answer : forall ms lo hi, exists out, ls_SelectStreams src ctx ms lo hi = Ok out /\ log_answers db ms lo hi out;
  log_names_answer : exists out, ls_SelectLabelNames src ctx = Ok out /\ log_names db out;
  log_values_answer : forall name, exists out, ls_SelectLabelValues src ctx name = Ok out /\ log_values db name out }.
Class ReaderImplements (r : Reader) (db : log_db) : Prop := {
  reader_ids : forall ms, StronglySorted Z.lt (rd_MatchingStreamIDs r ms) /\
    forall id, id ∈ rd_MatchingStreamIDs r ms <-> exists l, StreamIDOf l = id /\ is_Some (db l) /\ log_matches ms l;
  reader_labels : forall id l, rd_StreamLabelSet r id = Some l <-> StreamIDOf l = id /\ is_Some (db l);
  reader_entries : forall l raw lo hi, db l = Some raw -> rd_StreamEntries r (StreamIDOf l) lo hi = Ok (view lo hi raw);
  reader_names : log_names db (rd_LabelNames r);
  reader_values : forall name, log_values db name (rd_LabelValues r name) }.

(** [d2] holds the newer copies. *)
Definition ldb_union (d1 d2 : log_db) : log_db := fun l =>
  match d1 l, d2 l with
  | Some a, Some b => Some (a ++ b)
  | Some a, None => Some a
  | None, b => b
  end.
Definition ldb_tenant (db : log_db) (tid : string) : log_db := fun l =>
  if decide (l = build (labels_Map l)) then
    match Get l tenant_Label with Some _ => None | None => db (WithTenant l tid) end
  else None.
Definition log_clean (db : log_db) : Prop :=
  forall l, is_Some (db l) -> labels_wf l /\ Get l tenant_Label <> Some tenant_Default.
Definition log_no_collision (d1 d2 : log_db) : Prop :=
  forall l1 l2, is_Some (d1 l1) \/ is_Some (d2 l1) -> is_Some (d1 l2) \/ is_Some (d2 l2) -> StreamIDOf l1 = StreamIDOf l2 -> l1 = l2.
Existing Class log_clean.
Existing Class log_no_collision.

(** ** Deduplication *)

Lemma keys_of_app a b : keys_of (a ++ b) = keys_of a ∪ keys_of b.
Proof. unfold keys_of. rewrite fmap_app, list_to_set_app_L. done. Qed.
Lemma elem_of_keys k es : k ∈ keys_of es <-> exists e, e ∈ es /\ le_key e = k.
Proof. unfold keys_of. rewrite elem_of_list_to_set, list_elem_of_fmap. naive_solver. Qed.
Lemma keys_of_perm a b : a ≡ₚ b -> keys_of a = keys_of b.
Proof. intros H. apply set_eq. intros k. rewrite !elem_of_keys. by setoid_rewrite H. Qed.

Section dedup.
Context (lo hi : Z).
Notation keep := (keep_new lo hi).

Lemma keep_app seen a b : keep seen (a ++ b) = keep seen a ++ keep (seen ∪ keys_of (keep seen a)) b.
Proof.
  revert seen. induction a as [|e a IH]; intros seen; cbn [keep_new app].
  - unfold keys_of. cbn. by rewrite union_empty_r_L.
  - destruct (negb (in_window lo hi e)); [apply IH|]. destruct (decide (le_key e ∈ seen)); [apply IH|].
    rewrite IH. cbn [app]. do 3 f_equal. unfold keys_of. cbn [fmap list_fmap list_to_set]. set_solver.
Qed.
Lemma keep_filter s1 s2 es : keep (s1 ∪ s2) es = filter (fun e => le_key e ∉ s1) (keep s2 es).
Proof.
  revert s2. induction es as [|e es IH]; intros s2; cbn [keep_new]; [done|]. destruct (negb (in_window lo hi e)); [apply IH|].
  destruct (decide (le_key e ∈ s2)) as [H2|H2].
  - rewrite decide_True by set_solver. apply IH.
  - rewrite filter_cons. destruct (decide (le_key e ∈ s1)) as [H1|H1].
    + rewrite decide_True by set_solver. rewrite decide_False by tauto.
      rewrite <- IH. f_equal. set_solver.
    + rewrite decide_False by set_solver. rewrite decide_True by done. f_equal. rewrite <- IH. f_equal. set_solver.
Qed.
Lemma keep_spec seen es e : e ∈ keep seen es -> e ∈ es /\ in_window lo hi e = true /\ le_key e ∉ seen.
Proof.
  revert seen. induction es as [|x es IH]; intros seen; cbn [keep_new]; [by intros ?%elem_of_nil|].
  destruct (in_window lo hi x) eqn:Ew; cbn [negb]; [|intros H%IH; rewrite elem_of_cons; naive_solver].
  destruct (decide (le_key x ∈ seen)); [intros H%IH; rewrite elem_of_cons; naive_solver|].
  rewrite !elem_of_cons. intros [->|H%IH]; [tauto|]. destruct H as (H1 & H2 & H3). split; [tauto|]. split; [done|]. set_solver.
Qed.
Lemma keep_NoDup seen es : NoDup (le_key <$> keep seen es).
Proof.
  revert seen. induction es as [|x es IH]; intros seen; cbn [keep_new]; [constructor|]. destruct (negb _); [done|]. destruct (decide _); [done|].
  rewrite fmap_cons. constructor; [|done]. intros (y & Hy & Hin)%list_elem_of_fmap. apply keep_spec in Hin as (_ & _ & Hn).
  apply Hn, elem_of_union_l, elem_of_singleton. done.
Qed.
(** Every key in the window is kept once, whoever came first. *)
Lemma keep_keys seen es k : k ∈ keys_of (keep seen es) <-> k ∉ seen /\ exists e, e ∈ es /\ in_window lo hi e = true /\ le_key e = k.
Proof.
  revert seen. induction es as [|x es IH]; intros seen; cbn [keep_new].
  - unfold keys_of. cbn. split; [set_solver|]. intros (_ & e & []%not_elem_of_nil & _).
  - assert (Hskip : (in_window lo hi x = false \/ le_key x ∈ seen) ->
      (k ∉ seen /\ exists e, e ∈ es /\ in_window lo hi e = true /\ le_key e = k) <-> k ∉ seen /\ exists e, e ∈ x :: es /\ in_window lo hi e = true /\ le_key e = k).
    { intros Hx. split; intros [Hn (e & He & Hw & Ek)]; (split; [done|]); exists e; [by rewrite elem_of_cons; auto|].
      apply elem_of_cons in He as [->|He]; [|done]. exfalso. destruct Hx as [Hx|Hx]; [congruence|]. rewrite Ek in Hx. done. }
    destruct (in_window lo hi x) eqn:Ew; cbn [negb]; [|rewrite IH; apply Hskip; by left].
    destruct (decide (le_key x ∈ seen)) as [Hin|Hin]; [rewrite IH; apply Hskip; by right|]. clear Hskip.
    unfold keys_of. cbn [fmap list_fmap list_to_set]. fold (keys_of (keep ({[le_key x]} ∪ seen) es)). rewrite elem_of_union, elem_of_singleton, IH, not_elem_of_union, not_elem_of_singleton. split.
    + intros [->|[[Hk Hn] (e & He & Hw & Ek)]]; (split; [done|]); [exists x|exists e]; (split; [by rewrite elem_of_cons; auto|done]).
    + intros [Hn (e & He & Hw & Ek)]. destruct (decide (k = le_key x)) as [->|Hk]; [by left|right]. split; [done|].
      exists e. split; [|done]. apply elem_of_cons in He as [->|He]; [by destruct Hk|done].
Qed.
(** A list of distinct keys in the window is only filtered. *)
Lemma keep_distinct seen es : NoDup (le_key <$> es) -> Forall (fun e => in_window lo hi e = true) es -> keep seen es = filter (fun e => le_key e ∉ seen) es.
Proof.
  revert seen. induction es as [|x es IH]; intros seen; [done|]. rewrite fmap_cons, NoDup_cons, Forall_cons. intros [Hx Hnd] [Hw HF].
  cbn [keep_new]. rewrite Hw. cbn [negb]. rewrite filter_cons. destruct (decide (le_key x ∈ seen)).
  - rewrite decide_False by tauto. by apply IH.
  - rewrite decide_True by done. f_equal. rewrite IH by done. apply filter_ext_in. intros y Hy. rewrite not_elem_of_union, not_elem_of_singleton.
    split; [tauto|]. intros Hn. split; [|done]. intros E. apply Hx. rewrite <- E. by apply list_elem_of_fmap_2.
Qed.
Lemma keep_in_window seen es : Forall (fun e => in_window lo hi e = true) (keep seen es).
Proof. apply Forall_forall. intros e He. by apply keep_spec in He as (_ & ? & _). Qed.
End dedup.

(** ** Stable sorts are determined by their classes *)

Lemma sort_by_unique {A} (key : A -> Z) (l1 l2 : list A) : StronglySorted (key_le key) l1 -> StronglySorted (key_le key) l2 ->
  (forall k, filter (fun x => key x = k) l1 = filter (fun x => key x = k) l2) -> l1 = l2.
Proof.
  intros H1. revert l2. induction H1 as [|a l1 H1 IH Ha]; intros l2 H2 Hk.
  - destruct l2 as [|b l2]; [done|]. specialize (Hk (key b)). rewrite filter_nil, filter_cons_True in Hk by done. done.
  - assert (Hhead : forall b l2', StronglySorted (key_le key) (b :: l2') -> (forall k, filter (fun x => key x = k) (a :: l1) = filter (fun x => key x = k) (b :: l2')) -> key b <= key a).
    { intros b l2' Hs Hk'. specialize (Hk' (key a)). rewrite filter_cons_True in Hk' by done.
      assert (Hin : a ∈ b :: l2') by (eapply (proj2 (A := key a = key a)); apply (list_elem_of_filter (fun x => key x = key a)); rewrite <- Hk'; by left).
      apply elem_of_cons in Hin as [->|Hin]; [lia|]. inversion Hs as [|?? _ HF]; subst. rewrite Forall_forall in HF. by apply HF. }
    destruct l2 as [|b l2]; [specialize (Hk (key a)); rewrite filter_nil, filter_cons_True in Hk by done; done|].
    pose proof (Hhead b l2 H2 Hk) as Hle. assert (Hge : key a <= key b).
    { pose proof (Hk (key b)) as Hkb. rewrite (filter_cons_True _ b) in Hkb by done.
      assert (Hin : b ∈ a :: l1) by (eapply (proj2 (A := key b = key b)); apply (list_elem_of_filter (fun x => key x = key b)); rewrite Hkb; by left).
      apply elem_of_cons in Hin as [->|Hin]; [lia|]. rewrite Forall_forall in Ha. by apply Ha. }
    assert (Hab : key a = key b) by lia. pose proof (Hk (key a)) as Hka. rewrite !filter_cons_True in Hka by done. injection Hka as -> Hrest.
    f_equal. inversion H2; subst. apply IH; [done|]. intros k. destruct (decide (key b = k)) as [<-|Hne]; [done|].
    specialize (Hk k). by rewrite !filter_cons_False in Hk.
Qed.
Lemma sort_by_parts {A} (key : A -> Z) (a b : list A) : sort_by key (sort_by key a ++ sort_by key b) = sort_by key (a ++ b).
Proof.
  apply (sort_by_unique key); [apply sort_by_sorted..|]. intros k. by rewrite !sort_by_filter, !filter_app, !sort_by_filter.
Qed.
Lemma sort_by_part_l {A} (key : A -> Z) (a b : list A) : sort_by key (sort_by key a ++ b) = sort_by key (a ++ b).
Proof. apply (sort_by_unique key); [apply sort_by_sorted..|]. intros k. by rewrite !sort_by_filter, !filter_app, !sort_by_filter. Qed.
Lemma filter_sort_by {A} (key : A -> Z) (P : A -> Prop) `{!forall x, Decision (P x)} l : filter P (sort_by key l) = sort_by key (filter P l).
Proof.
  assert (Hs : forall m, StronglySorted (key_le key) m -> StronglySorted (key_le key) (filter P m)).
  { induction 1 as [|a m Hm IH Ha]; [constructor|]. rewrite filter_cons. destruct (decide (P a)); [|done]. constructor; [done|].
    rewrite Forall_forall in *. intros x [_ Hx]%list_elem_of_filter. by apply Ha. }
  apply (sort_by_unique key); [apply Hs, sort_by_sorted|apply sort_by_sorted|]. intros k. rewrite sort_by_filter, !list_filter_filter.
  rewrite (filter_ext_in (fun x => key x = k /\ P x) (fun x => P x /\ key x = k)) by naive_solver.
  rewrite (filter_ext_in (fun x => key x = k /\ P x) (fun x => P x /\ key x = k) l) by naive_solver.
  by rewrite <- !list_filter_filter, sort_by_filter.
Qed.

(** ** Views compose *)

Lemma view_sorted lo hi raw : StronglySorted (key_le le_ts) (view lo hi raw).
Proof. apply sort_by_sorted. Qed.
Lemma view_NoDup lo hi raw : NoDup (le_key <$> view lo hi raw).
Proof. unfold view. rewrite (sort_by_perm le_ts). apply keep_NoDup. Qed.
Lemma view_keys lo hi raw k : k ∈ keys_of (view lo hi raw) <-> exists e, e ∈ raw /\ in_window lo hi e = true /\ le_key e = k.
Proof. unfold view. rewrite (keys_of_perm _ _ (sort_by_perm le_ts _)), keep_keys. set_solver. Qed.

(** A head read raw, and a head answer already read: both merge into the view of
    the two histories in order. *)
Lemma mergeEntries_raw lo hi p h : mergeEntries (view lo hi p) h lo hi = view lo hi (p ++ h).
Proof.
  unfold mergeEntries, view. rewrite (keys_of_perm _ _ (sort_by_perm le_ts _)), sort_by_part_l, keep_app, union_empty_l_L. done.
Qed.
Lemma mergeEntries_view lo hi p h : mergeEntries (view lo hi p) (view lo hi h) lo hi = view lo hi (p ++ h).
Proof.
  rewrite <- mergeEntries_raw. unfold mergeEntries. rewrite keep_distinct.
  - unfold view. rewrite (filter_sort_by le_ts), sort_by_parts, sort_by_part_l. rewrite <- keep_filter, union_empty_r_L. done.
  - apply view_NoDup.
  - unfold view. rewrite (sort_by_perm le_ts). apply keep_in_window.
Qed.
Lemma mergeEntries_nil lo hi h : mergeEntries [] h lo hi = view lo hi h.
Proof. done. Qed.
Lemma view_nil_iff lo hi raw : view lo hi raw = [] <-> keys_of (keep_new lo hi ∅ raw) = ∅.
Proof.
  unfold view. split.
  - intros H. pose proof (sort_by_perm le_ts (keep_new lo hi ∅ raw)) as Hp. rewrite H in Hp. apply Permutation_nil_l in Hp. by rewrite <- Hp.
  - intros H. destruct (keep_new lo hi ∅ raw) as [|e l]; [done|]. unfold keys_of in H. cbn in H. set_solver.
Qed.
Lemma view_app_nil lo hi p h : view lo hi (p ++ h) = [] <-> view lo hi p = [] /\ view lo hi h = [].
Proof.
  rewrite !view_nil_iff. split.
  - intros H. split; apply elem_of_equiv_empty_L; intros k Hk; apply (not_elem_of_empty (C := gset (Z * string)) k); rewrite <- H;
      apply keep_keys; apply keep_keys in Hk as (_ & e & He & Hw & Ek); (split; [set_solver|]); exists e; (split; [apply elem_of_app; tauto|done]).
  - intros [H1 H2]. apply elem_of_equiv_empty_L. intros k (_ & e & [He|He]%elem_of_app & Hw & Ek)%keep_keys.
    + apply (not_elem_of_empty (C := gset (Z * string)) k). rewrite <- H1. apply keep_keys. split; [set_solver|]. by exists e.
    + apply (not_elem_of_empty (C := gset (Z * string)) k). rewrite <- H2. apply keep_keys. split; [set_solver|]. by exists e.
Qed.
Lemma view_app_nil_r lo hi p h : view lo hi h = [] -> view lo hi (p ++ h) = view lo hi p.
Proof.
  intros H. rewrite <- mergeEntries_view, H. unfold mergeEntries. cbn [keep_new]. rewrite app_nil_r. apply sort_by_id, view_sorted.
Qed.
Lemma view_app_nil_l lo hi p h : view lo hi p = [] -> view lo hi (p ++ h) = view lo hi h.
Proof. intros H. rewrite <- mergeEntries_view, H, mergeEntries_nil. unfold view. rewrite keep_distinct; [|apply view_NoDup|unfold view; rewrite (sort_by_perm le_ts); apply keep_in_window].
  rewrite filter_all by (apply Forall_forall; set_solver). apply sort_by_id, sort_by_sorted. Qed.
(** Storing what is already stored changes no read: the crash window. *)
Lemma view_absorbs lo hi p h : (forall e, e ∈ h -> exists e', e' ∈ p /\ le_key e' = le_key e) -> view lo hi (p ++ h) = view lo hi p.
Proof.
  intros Hsub. rewrite <- mergeEntries_raw. unfold mergeEntries. assert (keep_new lo hi (keys_of (view lo hi p)) h = []) as ->.
  { destruct (keep_new lo hi (keys_of (view lo hi p)) h) as [|e l] eqn:E; [done|]. assert (He : e ∈ keep_new lo hi (keys_of (view lo hi p)) h) by (rewrite E; by left).
    apply keep_spec in He as (He & Hw & Hn). destruct (Hsub e He) as (e' & He' & Ek). exfalso. apply Hn. apply view_keys. exists e'. split; [done|]. split; [|done].
    unfold le_key in Ek. apply pair_equal_spec in Ek as [Et _]. unfold in_window in *. by rewrite Et. }
  rewrite app_nil_r. apply sort_by_id, view_sorted.
Qed.

(** ** Answers, stream by stream *)

Definition wanted_stream (db : log_db) (ms : list Pair) (lo hi : Z) (l : Labels) : option StreamData :=
  raw ← db l; if decide (log_matches ms l) then match view lo hi raw with [] => None | es => Some (mkSD l es) end else None.
Lemma wanted_stream_spec db ms lo hi l sd : wanted_stream db ms lo hi l = Some sd <->
  st_labels sd = l /\ exists raw, db l = Some raw /\ log_matches ms l /\ st_entries sd = view lo hi raw /\ st_entries sd <> [].
Proof.
  unfold wanted_stream. destruct (db l) as [raw|]; cbn [mbind option_bind]; [|naive_solver].
  destruct (decide (log_matches ms l)) as [Hm|Hm]; [|split; [done|by intros (_ & ? & _ & ? & _)]]. split.
  - destruct (view lo hi raw) as [|e es] eqn:Ev; [done|]. intros [= <-]. split; [done|]. exists raw. rewrite Ev. done.
  - intros (<- & raw' & [= <-] & _ & Hv & Hne). rewrite <- Hv. by destruct sd as [l [|e es]].
Qed.
Lemma answers_stream db ms lo hi out : log_answers db ms lo hi out <->
  NoDup (st_labels <$> out) /\ forall sd, sd ∈ out <-> wanted_stream db ms lo hi (st_labels sd) = Some sd.
Proof.
  unfold log_answers. apply and_iff_compat_l. split; intros H sd; rewrite H, wanted_stream_spec; naive_solver.
Qed.
Lemma wanted_known db ms lo hi l sd : wanted_stream db ms lo hi l = Some sd -> is_Some (db l).
Proof. unfold wanted_stream. by destruct (db l). Qed.

(** Streams looked up by ascending ID ascend, so their label sets are distinct. *)
Lemma omap_sids (f : Z -> option StreamData) ids : StronglySorted Z.lt ids -> (forall id sd, f id = Some sd -> sid sd = id) -> StronglySorted Z.lt (sid <$> omap f ids).
Proof.
  intros Hids Hf. induction Hids as [|x l Hl IH Ha]; [constructor|]. cbn [omap list_omap]. destruct (f x) as [sd|] eqn:E; [|done].
  rewrite fmap_cons. constructor; [done|]. rewrite (Hf _ _ E), Forall_forall in *. intros k (sd' & -> & (x' & Hx' & E')%list_elem_of_omap)%list_elem_of_fmap. rewrite (Hf _ _ E'). by apply Ha.
Qed.
Lemma sids_labels out : StronglySorted Z.lt (sid <$> out) -> NoDup (st_labels <$> out).
Proof.
  intros Hs. assert (Hnd : NoDup (sid <$> out)) by (eapply StronglySorted_strict_NoDup, Hs; intros; lia). unfold sid in Hnd. apply (NoDup_fmap_1 StreamIDOf). by rewrite <- list_fmap_compose.
Qed.
Lemma sort_ids_NoDup (ids : list Z) : NoDup ids -> StronglySorted Z.lt (sort_by id ids).
Proof.
  pose proof (sort_by_sorted id ids) as Hs. intros Hnd0. assert (Hnd : NoDup (sort_by id ids)) by (by rewrite sort_by_perm). revert Hnd.
  induction Hs as [|x l Hl IH Hx]; [constructor|]. intros [Hni Hnd]%NoDup_cons. constructor; [by apply IH|]. rewrite Forall_forall in *.
  intros y Hy. specialize (Hx y Hy). unfold key_le, id in Hx. assert (x <> y) by (by intros ->). lia.
Qed.
Lemma sort_ids_strict (X : gset Z) : StronglySorted Z.lt (sort_by id (elements X)) /\ forall x, x ∈ sort_by id (elements X) <-> x ∈ X.
Proof. split; [apply sort_ids_NoDup, NoDup_elements|intros x; by rewrite sort_by_perm, elem_of_elements]. Qed.

(** ** The adapter: a reader is a source *)

Section adapter.
Context (r : Reader) (db : log_db) {Hr : ReaderImplements r db}.

Definition read_one (lo hi id : Z) : option StreamData :=
  l ← rd_StreamLabelSet r id; raw ← db l; match view lo hi raw with [] => None | es => Some (mkSD l es) end.
Lemma reader_select_ok lo hi ids : reader_select r lo hi ids = Ok (omap (read_one lo hi) ids).
Proof.
  induction ids as [|id ids IH]; [done|]. cbn [reader_select omap list_omap]. unfold read_one at 1.
  destruct (rd_StreamLabelSet r id) as [l|] eqn:El; cbn [mbind option_bind]; [|exact IH].
  apply reader_labels in El as [<- [raw Hraw]]. rewrite (reader_entries l raw lo hi Hraw), IH, !bind_Ok, Hraw. cbn [mbind option_bind].
  by destruct (view lo hi raw).
Qed.
Lemma read_one_spec lo hi id sd : read_one lo hi id = Some sd <-> sid sd = id /\ exists raw, db (st_labels sd) = Some raw /\ st_entries sd = view lo hi raw /\ st_entries sd <> [].
Proof.
  unfold read_one, sid. split.
  - destruct (rd_StreamLabelSet r id) as [l|] eqn:El; cbn [mbind option_bind]; [|done]. apply reader_labels in El as [Hid _].
    destruct (db l) as [raw|] eqn:Eraw; cbn [mbind option_bind]; [|done]. destruct (view lo hi raw) as [|e es] eqn:Ev; [done|]. intros [= <-].
    cbn [st_labels st_entries]. split; [done|]. exists raw. by rewrite Ev.
  - intros [Hid (raw & Hraw & Hv & Hne)]. assert (El : rd_StreamLabelSet r id = Some (st_labels sd)) by (apply reader_labels; split; [done|by eexists]).
    rewrite El. cbn [mbind option_bind]. rewrite Hraw. cbn [mbind option_bind]. rewrite <- Hv. destruct sd as [l [|e es]]; [done|]. done.
Qed.
Lemma AsSource_select ctx ms lo hi : exists out, ls_SelectStreams (AsSource r) ctx ms lo hi = Ok out /\ log_answers db ms lo hi out /\ StronglySorted Z.lt (sid <$> out).
Proof.
  destruct (reader_ids ms) as [Hs Hids]. eexists. split; [apply reader_select_ok|]. set (ids := rd_MatchingStreamIDs r ms) in *.
  assert (Hsort : StronglySorted Z.lt (sid <$> omap (read_one lo hi) ids)) by (apply omap_sids; [done|]; by intros id sd [? _]%read_one_spec).
  split; [|done]. split; [by apply sids_labels|]. intros sd. rewrite list_elem_of_omap. split.
  - intros (id & Hid & (Hsid & raw & Hraw & Hv & Hne)%read_one_spec). exists raw. split; [done|]. split; [|done].
    apply Hids in Hid as (l & Hl & Hdb & Hm). assert (l = st_labels sd) as <-; [|done].
    assert (E1 : rd_StreamLabelSet r id = Some l) by (by apply reader_labels). assert (E2 : rd_StreamLabelSet r id = Some (st_labels sd)) by (apply reader_labels; split; [done|by eexists]). congruence.
  - intros (raw & Hraw & Hm & Hv & Hne). exists (sid sd). split; [apply Hids; exists (st_labels sd); split; [done|]; split; [by eexists|done]|].
    apply read_one_spec. split; [done|]. by exists raw.
Qed.
#[export] Instance AsSource_implements ctx : LogImplements (AsSource r) ctx db.
Proof.
  split.
  - intros ms lo hi. destruct (AsSource_select ctx ms lo hi) as (out & Hout & Ha & _). by exists out.
  - eexists. split; [reflexivity|]. apply reader_names.
  - intros name. eexists. split; [reflexivity|]. apply reader_values.
Qed.
End adapter.

(** ** Merging is union *)

Lemma ldb_union_some d1 d2 l : is_Some (ldb_union d1 d2 l) <-> is_Some (d1 l) \/ is_Some (d2 l).
Proof. unfold ldb_union. destruct (d1 l), (d2 l); split; eauto; intros [[? ?]|[? ?]]; eauto. Qed.

Section merging.
Context (lo hi : Z).

Lemma put_persisted_all l m : NoDup (sid <$> l) -> forall id, fold_left put_persisted l m !! id = match find (fun sd => sid sd =? id) l with Some sd => Some sd | None => m !! id end.
Proof.
  revert m. induction l as [|x l IH]; intros m; [done|]. rewrite fmap_cons, NoDup_cons. intros [Hx Hnd] id. cbn [fold_left find]. rewrite IH by done. unfold put_persisted.
  destruct (Z.eqb_spec (sid x) id) as [<-|Hne].
  - destruct (find _ l) as [y|] eqn:E; [|by rewrite lookup_insert_eq]. apply find_some in E as [Hy%list_elem_of_In E%Z.eqb_eq]. destruct Hx. rewrite <- E. by apply list_elem_of_fmap_2.
  - by rewrite lookup_insert_ne.
Qed.
Definition merge_one (p : option StreamData) (h : option StreamData) : option StreamData :=
  match p, h with
  | Some p, Some h => Some (mkSD (st_labels p) (mergeEntries (st_entries p) (st_entries h) lo hi))
  | Some p, None => Some p
  | None, h => h
  end.
Lemma put_head_all l m : NoDup (sid <$> l) -> (forall k sd, m !! k = Some sd -> sid sd = k) -> forall id,
  fold_left (put_head lo hi) l m !! id = merge_one (m !! id) (find (fun sd => sid sd =? id) l).
Proof.
  revert m. induction l as [|x l IH]; intros m; [intros; cbn; unfold merge_one; by destruct (m !! id)|]. rewrite fmap_cons, NoDup_cons. intros [Hx Hnd] Hm id. cbn [fold_left find].
  assert (Hput : forall k, put_head lo hi m x !! k = if decide (k = sid x) then merge_one (m !! k) (Some x) else m !! k).
  { intros k. unfold put_head. destruct (decide (k = sid x)) as [->|Hk]; destruct (m !! sid x); cbn; rewrite ?lookup_insert_eq, ?lookup_insert_ne by done; done. }
  rewrite IH; [|done|].
  - rewrite Hput. destruct (Z.eqb_spec (sid x) id) as [<-|Hne].
    + rewrite decide_True by done. destruct (find _ l) as [y|] eqn:E.
      * apply find_some in E as [Hy%list_elem_of_In E%Z.eqb_eq]. destruct Hx. rewrite <- E. by apply list_elem_of_fmap_2.
      * unfold merge_one. by destruct (m !! sid x).
    + by rewrite decide_False.
  - intros k sd. rewrite Hput. destruct (decide (k = sid x)) as [->|]; [|apply Hm]. destruct (m !! sid x) as [p|] eqn:Ep; cbn; intros [= <-]; [|done].
    unfold sid. cbn [st_labels]. by apply (Hm (sid x)) in Ep.
Qed.

Lemma answers_sids (db : log_db) ms out : (forall l1 l2, is_Some (db l1) -> is_Some (db l2) -> StreamIDOf l1 = StreamIDOf l2 -> l1 = l2) ->
  log_answers db ms lo hi out -> NoDup (sid <$> out).
Proof.
  intros Hnc [Hnd Hans]. assert (Hin : forall x, x ∈ out -> is_Some (db (st_labels x))) by (intros x (raw & Hraw & _)%Hans; by eexists).
  clear Hans. induction out as [|x out IH]; [constructor|]. rewrite fmap_cons in *. apply NoDup_cons in Hnd as [Hx Hnd]. constructor; [|apply IH; [done|]; intros; apply Hin; by right].
  intros (y & E & Hy)%list_elem_of_fmap. apply Hx, list_elem_of_fmap. exists y. split; [|done]. apply Hnc; [apply Hin; by left|apply Hin; by right|done].
Qed.
Lemma find_sid out id : NoDup (sid <$> out) -> forall sd, find (fun sd => sid sd =? id) out = Some sd <-> sd ∈ out /\ sid sd = id.
Proof.
  intros Hnd sd. split.
  - intros [H%list_elem_of_In E%Z.eqb_eq]%find_some. done.
  - intros [Hin Hid]. destruct (find _ out) as [y|] eqn:E.
    + apply find_some in E as [Hy%list_elem_of_In E%Z.eqb_eq]. f_equal. apply (NoDup_fmap_same sid out); [done..|congruence].
    + apply list_elem_of_In in Hin. apply (find_none _ _ E) in Hin. lia.
Qed.
(** Looking an ID up in an answer is looking its stream up in the database. *)
Lemma find_answer (db : log_db) ms out l : log_answers db ms lo hi out -> NoDup (sid <$> out) ->
  (forall l', is_Some (db l') -> StreamIDOf l' = StreamIDOf l -> l' = l) -> find (fun sd => sid sd =? StreamIDOf l) out = wanted_stream db ms lo hi l.
Proof.
  intros [_ Ha]%answers_stream Hnd Hl. destruct (wanted_stream db ms lo hi l) as [sd|] eqn:E.
  - pose proof E as [<- _]%wanted_stream_spec. apply find_sid; [done|]. split; [by apply Ha|done].
  - destruct (find _ out) as [sd|] eqn:Ef; [|done]. apply find_sid in Ef as [Hin Hid]; [|done]. apply Ha in Hin. rewrite <- (Hl (st_labels sd)) in E; [congruence|by eapply wanted_known|done].
Qed.
Lemma wanted_log_union d1 d2 ms l : wanted_stream (ldb_union d2 d1) ms lo hi l = merge_one (wanted_stream d2 ms lo hi l) (wanted_stream d1 ms lo hi l).
Proof.
  unfold wanted_stream, ldb_union. destruct (d2 l) as [rp|], (d1 l) as [rh|]; cbn [mbind option_bind merge_one]; try done.
  - destruct (decide (log_matches ms l)); [|done]. destruct (view lo hi rp) as [|e1 l1] eqn:E1, (view lo hi rh) as [|e2 l2] eqn:E2; cbn [merge_one].
    + by rewrite (proj2 (view_app_nil lo hi rp rh)).
    + by rewrite view_app_nil_l, E2.
    + by rewrite view_app_nil_r, E1.
    + cbn [st_labels st_entries]. rewrite <- E1, <- E2, mergeEntries_view. destruct (view lo hi (rp ++ rh)) eqn:E; [|done]. apply view_app_nil in E as [E _]. congruence.
  - destruct (decide (log_matches ms l)); [|done]. by destruct (view lo hi rp).
Qed.
Lemma byID_merged heads persisted id : NoDup (sid <$> heads) -> NoDup (sid <$> persisted) ->
  fold_left (put_head lo hi) heads (fold_left put_persisted persisted ∅) !! id =
  merge_one (find (fun sd => sid sd =? id) persisted) (find (fun sd => sid sd =? id) heads).
Proof.
  intros Nh Np. rewrite put_head_all; [|done|].
  - rewrite put_persisted_all by done. by destruct (find _ persisted).
  - intros k sd. rewrite put_persisted_all by done. destruct (find _ persisted) eqn:E; [|done]. intros [= <-]. by apply find_some in E as [_ E%Z.eqb_eq].
Qed.
Lemma merge_one_sid p h sd id : merge_one p h = Some sd -> (forall x, p = Some x -> sid x = id) -> (forall x, h = Some x -> sid x = id) -> sid sd = id.
Proof. destruct p as [p|], h as [h|]; cbn [merge_one]; intros E Hp Hh; try discriminate E; injection E as <-; [exact (Hp _ eq_refl)|exact (Hp _ eq_refl)|exact (Hh _ eq_refl)]. Qed.

Lemma merge_streams_union d1 d2 ms heads persisted : log_no_collision d1 d2 ->
  log_answers d1 ms lo hi heads -> log_answers d2 ms lo hi persisted ->
  log_answers (ldb_union d2 d1) ms lo hi (merge_streams lo hi heads persisted) /\ StronglySorted Z.lt (sid <$> merge_streams lo hi heads persisted).
Proof.
  intros Hnc Hh Hp. assert (Nh : NoDup (sid <$> heads)) by (eapply answers_sids; [|exact Hh]; intros; apply Hnc; tauto).
  assert (Np : NoDup (sid <$> persisted)) by (eapply answers_sids; [|exact Hp]; intros; apply Hnc; tauto).
  unfold merge_streams. pose proof (fun id => byID_merged heads persisted id Nh Np) as Hby. set (byID := fold_left (put_head lo hi) heads _) in *.
  assert (Hid : forall id sd, byID !! id = Some sd -> sid sd = id).
  { intros id sd. rewrite Hby. intros E. eapply merge_one_sid; [exact E| |]; intros x Hx; by apply find_sid in Hx as [_ ?]. }
  destruct (sort_ids_strict (dom byID)) as [Hids Hdom]. set (ids := sort_by id (elements (dom byID))) in *.
  assert (Hsort : StronglySorted Z.lt (sid <$> omap (fun id => byID !! id) ids)) by (by apply omap_sids). split; [|done].
  apply answers_stream. split; [by apply sids_labels|]. intros sd. rewrite wanted_log_union, list_elem_of_omap.
  assert (Hlook : is_Some (d1 (st_labels sd)) \/ is_Some (d2 (st_labels sd)) -> byID !! sid sd = merge_one (wanted_stream d2 ms lo hi (st_labels sd)) (wanted_stream d1 ms lo hi (st_labels sd))).
  { intros Hsome. rewrite Hby. change (sid sd) with (StreamIDOf (st_labels sd)). rewrite (find_answer d2 ms persisted), (find_answer d1 ms heads); try (done || (intros l' Hl'; apply Hnc; tauto)). }
  split.
  - intros (id & Hin & E). pose proof (Hid _ _ E) as <-. rewrite <- Hlook; [done|]. rewrite Hby in E. apply answers_stream in Hh as [_ Hh], Hp as [_ Hp].
    destruct (find _ persisted) as [p|] eqn:Ep; cbn [merge_one] in E; [|apply find_sid in E as [E%Hh%wanted_known _]; [by left|done]].
    apply find_sid in Ep as [Ep%Hp%wanted_known _]; [|done]. right. by destruct (find _ heads); injection E as <-.
  - intros E. assert (Hsome : is_Some (d1 (st_labels sd)) \/ is_Some (d2 (st_labels sd))).
    { destruct (wanted_stream d2 _ _ _ _) eqn:E2; [right; by eapply wanted_known|]. left. by eapply wanted_known. }
    exists (sid sd). rewrite (Hlook Hsome). split; [|done]. apply Hdom, elem_of_dom. rewrite (Hlook Hsome). by eexists.
Qed.
End merging.

Lemma log_names_union d1 d2 a b : log_names d1 a -> log_names d2 b -> log_names (ldb_union d2 d1) (unionSorted a b).
Proof.
  intros [_ Ha] [_ Hb]. destruct (unionSorted_spec a b) as [H1 H2]. split; [done|]. intros n. rewrite H2, Ha, Hb. setoid_rewrite ldb_union_some. naive_solver.
Qed.
Lemma log_values_union d1 d2 name a b : log_values d1 name a -> log_values d2 name b -> log_values (ldb_union d2 d1) name (unionSorted a b).
Proof.
  intros [_ Ha] [_ Hb]. destruct (unionSorted_spec a b) as [H1 H2]. split; [done|]. intros n. rewrite H2, Ha, Hb. setoid_rewrite ldb_union_some. naive_solver.
Qed.
#[export] Instance log_Merge_implements first second ctx d1 d2 : LogImplements first ctx d1 -> LogImplements second ctx d2 -> log_no_collision d1 d2 ->
  LogImplements (log_Merge first second) ctx (ldb_union d2 d1).
Proof.
  intros H1 H2 Hnc. split.
  - intros ms lo hi. destruct (streams_answer (src := first) ms lo hi) as (a & Ea & Ha), (streams_answer (src := second) ms lo hi) as (b & Eb & Hb).
    exists (merge_streams lo hi a b). cbn [log_Merge ls_SelectStreams]. rewrite Ea, bind_Ok, Eb, bind_Ok. split; [done|]. by apply merge_streams_union.
  - destruct (log_names_answer (src := first)) as (a & Ea & Ha), (log_names_answer (src := second)) as (b & Eb & Hb). exists (unionSorted a b).
    cbn [log_Merge ls_SelectLabelNames]. rewrite Ea, bind_Ok, Eb, bind_Ok. split; [done|]. by apply log_names_union.
  - intros name. destruct (log_values_answer (src := first) name) as (a & Ea & Ha), (log_values_answer (src := second) name) as (b & Eb & Hb). exists (unionSorted a b).
    cbn [log_Merge ls_SelectLabelValues]. rewrite Ea, bind_Ok, Eb, bind_Ok. split; [done|]. by apply log_values_union.
Qed.

(** ** Tenants *)

Lemma ldb_tenant_some db tid l raw : ldb_tenant db tid l = Some raw <-> labels_wf l /\ Get l tenant_Label = None /\ db (WithTenant l tid) = Some raw.
Proof.
  unfold ldb_tenant. destruct (decide (l = build (labels_Map l))) as [E|E].
  - destruct (Get l tenant_Label) as [v|] eqn:Eg; [naive_solver|]. split; [|tauto]. intros H. split_and!; [|done|done]. rewrite E. apply build_wf.
  - split; [done|]. intros (Hl & _). exfalso. apply E. symmetry. by apply build_labels_Map.
Qed.
Lemma existsb_pairs (ms : list Pair) : existsb (fun m => String.eqb (p_name m) tenant_Label) ms = false <-> Forall (fun m => p_name m <> tenant_Label) ms.
Proof. induction ms as [|m ms IH]; cbn; [split; [constructor|done]|]. rewrite orb_false_iff, IH, Forall_cons, String.eqb_neq. done. Qed.
Lemma tenant_pairs ctx ms l : labels_wf l -> Get l tenant_Label = None -> Forall (fun m => p_name m <> tenant_Label) ms ->
  log_matches (tenant_matchers ctx ms) (WithTenant l (tenant_From ctx)) <-> log_matches ms l.
Proof.
  intros Hl Hno Hn. set (tid := tenant_From ctx).
  assert (Hm : log_matches ms (WithTenant l tid) <-> log_matches ms l).
  { split; (intros HF; rewrite ?Forall_forall in *; unfold log_matches in *; rewrite Forall_forall in *; intros m Hm; specialize (HF m Hm); specialize (Hn m Hm));
      [by rewrite <- (Get_WithTenant l tid)|by rewrite Get_WithTenant]. }
  unfold tenant_matchers. fold tid. destruct (String.eqb_spec tid tenant_Default) as [E|Hne]; [done|]. rewrite <- Hm.
  unfold log_matches. rewrite Forall_app, Forall_singleton. cbn [p_name p_value].
  assert (Get (WithTenant l tid) tenant_Label = Some tid) by (unfold WithTenant; rewrite (proj2 (String.eqb_neq _ _) Hne), Get_build; apply lookup_insert_eq).
  tauto.
Qed.
(** The stored label sets of a tenant are the stamped ones of its view. *)
Lemma tenant_stored (db : log_db) tid l : log_clean db -> is_Some (db l) -> TenantOf l = tid ->
  let l' := Without l tenant_Label in labels_wf l' /\ Get l' tenant_Label = None /\ WithTenant l' tid = l.
Proof.
  intros Hc Hdb Ht. destruct (Hc l Hdb) as [Hwf Hcl]. cbn zeta. split_and!; [by apply Without_wf|by rewrite Get_Without, String.eqb_refl|]. rewrite <- Ht. by apply restamp.
Qed.

Section tenants.
Context (r : Reader) (inner : LogSource) (ctx : context) (db : log_db) (Hclean : log_clean db).
Context {Hr : ReaderImplements r db} {Hi : LogImplements inner ctx db}.
Notation tid := (tenant_From ctx).

Lemma tenant_SelectStreams_answers ms lo hi : exists out, tenant_SelectStreams inner ctx ms lo hi = Ok out /\ log_answers (ldb_tenant db tid) ms lo hi out.
Proof.
  unfold tenant_SelectStreams. destruct (existsb _ ms) eqn:Ex.
  - exists []. split; [done|]. split; [constructor|]. intros sd. rewrite elem_of_nil. split; [done|]. intros (raw & (Hl & Hno & _)%ldb_tenant_some & Hm & _).
    assert (Hall : Forall (fun m => p_name m <> tenant_Label) ms) by (eapply Forall_impl; [exact Hm|]; intros m E1 E2; cbv beta in E1; rewrite E2 in E1; congruence).
    apply existsb_pairs in Hall. congruence.
  - apply existsb_pairs in Ex. destruct (streams_answer (src := inner) (tenant_matchers ctx ms) lo hi) as (got & -> & Hnd & Hans). eexists. split; [reflexivity|].
    set (keep := filter (fun sd => TenantOf (st_labels sd) = tid) got).
    assert (Hkeep : forall x, x ∈ keep -> TenantOf (st_labels x) = tid /\ is_Some (db (st_labels x))) by (intros x [Ht (raw & Hraw & _)%Hans]%list_elem_of_filter; split; [done|by eexists]).
    split.
    + rewrite <- list_fmap_compose. assert (Hnd' : NoDup (st_labels <$> keep)) by (eapply sublist_NoDup; [exact Hnd|]; apply fmap_sublist, sublist_filter).
      apply NoDup_fmap_2_strong; [|by apply NoDup_fmap_1 in Hnd']. intros x y Hx Hy E. cbn in E. apply (NoDup_fmap_same st_labels keep); [done..|].
      destruct (Hkeep x Hx) as [Tx Dx], (Hkeep y Hy) as [Ty Dy]. destruct (tenant_stored db _ _ Hclean Dx Tx) as (_ & _ & <-), (tenant_stored db _ _ Hclean Dy Ty) as (_ & _ & <-). by rewrite E.
    + intros sd. rewrite list_elem_of_fmap. split.
      * intros (x & -> & Hx). destruct (Hkeep x Hx) as [Tx Dx]. destruct (tenant_stored db _ _ Hclean Dx Tx) as (Hwf & Hno & Hst). apply list_elem_of_filter in Hx as [_ (raw & Hraw & Hm & Hv & Hne)%Hans].
        exists raw. cbn [strip_stream st_labels st_entries]. split_and!; [|apply (tenant_pairs ctx); [done..|]; by rewrite Hst|done|done]. apply ldb_tenant_some. by rewrite Hst.
      * intros (raw & (Hwf & Hno & Hdb)%ldb_tenant_some & Hm & Hv & Hne). destruct (unstamp (st_labels sd) tid Hwf Hno) as [Ht Hw].
        exists (mkSD (WithTenant (st_labels sd) tid) (st_entries sd)). split; [unfold strip_stream; cbn [st_labels st_entries]; rewrite Hw; by destruct sd|].
        apply list_elem_of_filter. split; [done|]. apply Hans. exists raw. split; [done|]. split; [by apply tenant_pairs|done].
Qed.
Lemma tenantLabelSets_spec l : l ∈ tenantLabelSets r ctx <-> is_Some (ldb_tenant db tid l).
Proof.
  unfold tenantLabelSets. rewrite list_elem_of_fmap. setoid_rewrite list_elem_of_filter. setoid_rewrite list_elem_of_omap. destruct (reader_ids (r := r) (tenant_matchers ctx [])) as [_ Hids]. setoid_rewrite Hids.
  setoid_rewrite reader_labels. split.
  - intros (x & -> & Ht & id & _ & _ & Hdb). destruct (tenant_stored db _ _ Hclean Hdb Ht) as (Hwf & Hno & Hst). destruct Hdb as [raw Hraw]. exists raw. apply ldb_tenant_some. by rewrite Hst.
  - intros [raw (Hwf & Hno & Hdb)%ldb_tenant_some]. destruct (unstamp l tid Hwf Hno) as [Ht Hw]. exists (WithTenant l tid). split; [done|]. split; [done|].
    exists (StreamIDOf (WithTenant l tid)). split; [|split; [done|by eexists]]. exists (WithTenant l tid). split; [done|]. split; [by eexists|]. apply tenant_pairs; [done..|constructor|constructor].
Qed.
Lemma ldb_tenant_wf l : is_Some (ldb_tenant db tid l) -> labels_wf l.
Proof. intros [raw (? & _)%ldb_tenant_some]. done. Qed.
#[export] Instance log_TenantSource_implements : LogImplements (log_TenantSource r inner) ctx (ldb_tenant db tid).
Proof.
  split.
  - apply tenant_SelectStreams_answers.
  - eexists. split; [reflexivity|]. destruct (sortedStringSet_spec (label_names (tenantLabelSets r ctx))) as [H1 H2]. split; [done|]. intros n. rewrite H2. unfold label_names.
    rewrite elem_of_union_list. setoid_rewrite list_elem_of_fmap. setoid_rewrite tenantLabelSets_spec. split.
    + intros (X & (l & -> & Hl) & Hn). exists l. split; [done|]. rewrite Get_Map by (by apply ldb_tenant_wf). by apply elem_of_dom.
    + intros (l & Hl & Hn). exists (dom (labels_Map l)). split; [by exists l|]. rewrite Get_Map in Hn by (by apply ldb_tenant_wf). by apply elem_of_dom.
  - intros name. eexists. split; [reflexivity|]. destruct (sortedStringSet_spec (label_values name (tenantLabelSets r ctx))) as [H1 H2]. split; [done|]. intros v. rewrite H2. unfold label_values.
    rewrite elem_of_list_to_set, list_elem_of_omap. setoid_rewrite tenantLabelSets_spec. naive_solver.
Qed.
End tenants.

(** Tenants are disjoint views of one database. *)
Lemma ldb_tenant_disjoint db tid tid' l l' : log_clean db -> is_Some (ldb_tenant db tid l) -> is_Some (ldb_tenant db tid' l') -> tid <> tid' -> WithTenant l tid <> WithTenant l' tid'.
Proof.
  intros Hc [r1 (H1 & N1 & _)%ldb_tenant_some] [r2 (H2 & N2 & _)%ldb_tenant_some] Hne E. apply Hne.
  rewrite <- (proj1 (unstamp l tid H1 N1)), <- (proj1 (unstamp l' tid' H2 N2)). by rewrite E.
Qed.
