(* ===== verification/LogFile.v ===== *)
(** * LogFile: persisted log chunk files

    [internal/logs/chunkfile.go]: the file's name, its header (stream identity and
    labels), the header-only read recovery uses and the full read. A file is its
    bytes; the durable write (temporary file, fsync, rename, directory fsync) is one
    step of the store. The order in which Go ranges over a label map is a parameter
    ([map_order]) and so are the four random bytes of a name. *)
From stdpp Require Import strings.
From S2P Require Import Prelude GoLib GoSort Labels WalCodec SegName HeadWal GoCodec LogChunk LogStream.

(** [for name, val := range m]: some order of the map's entries. *)
Class MapOrder := { map_order : gmap string string -> list (string * string); map_order_perm m : map_order m ≡ₚ map_to_list m }.
Definition sorted_order : MapOrder := {| map_order := map_to_list; map_order_perm := fun m => Permutation_refl (map_to_list m) |}.

Definition chunkFileMagic : list Z := [156; 76; 70; 1].
Definition chunkFileVersion : Z := 1.
Record ChunkRef := mkRef { cr_Name : string; cr_MinTs : Z; cr_MaxTs : Z }.
#[export] Instance ChunkRef_eq_dec : EqDecision ChunkRef.
Proof. solve_decision. Defined.

(** The four places a truncated header is noticed are one error here. *)
Inductive cfErr :=
  | CfUnrecognized | CfVersion (v : Z) | CfTruncated | CfLabels (e : Labels.labelErr) | CfIdMismatch
  | CfChunk (e : lcErr) | CfBounds (minTs maxTs : Z) | CfSize (got want : Z).

(** ** Names: [%016x-%020d-] and the random bytes in hexadecimal *)

Definition hex_digit (d : Z) : Ascii.ascii := Ascii.ascii_of_N (Z.to_N (if d <? 10 then 48 + d else 87 + d)).
Fixpoint pad_hex (k : nat) (n : Z) : string :=
  match k with O => EmptyString | S k => pad_hex k (n / 16) +:+ String (hex_digit (n mod 16)) EmptyString end.
Definition fmt_016x (n : Z) : string := pad_hex 16 n.
Definition fmt_020d (n : Z) : string := if n <? 0 then "-" +:+ pad_digits 19 (- n) else pad_digits 20 n.
Definition EncodeToString (bs : list Z) : string := String.concat "" (pad_hex 2 <$> bs).
Definition chunk_ext : string := ".chunk"%string.
Definition chunkFileName (id minTs : Z) (rnd : list Z) : string :=
  fmt_016x (u64 id) +:+ "-" +:+ fmt_020d minTs +:+ "-" +:+ EncodeToString rnd +:+ chunk_ext.

Example chunkFileName_format : chunkFileName 255 1700000000000000000 [10; 0; 255; 1] = "00000000000000ff-01700000000000000000-0a00ff01.chunk"%string /\
  fmt_020d (-5) = "-0000000000000000005"%string.
Proof. vm_compute. split; reflexivity. Qed.

Section file.
Context `{MO : MapOrder} `{F : Flate}.

(** ** Writing *)

Definition stream_pairs (l : Labels) : list LabelPair := (fun e : string * string => mkLP e.1 e.2) <$> map_order (labels_Map l).
Definition encodeChunkFileHeader (id : Z) (l : Labels) : list Z :=
  chunkFileMagic ++ [chunkFileVersion] ++ be_bytes 8 (u64 id) ++ encode_labels (stream_pairs l).
(** The payload [writeChunkFile] makes durable, and the reference it returns. *)
Definition chunk_payload (id : Z) (l : Labels) (c : lc_Chunk) : list Z := encodeChunkFileHeader id l ++ lc_Bytes c.
Definition writeChunkFile (id : Z) (l : Labels) (c : lc_Chunk) (rnd : list Z) : ChunkRef * list Z :=
  (mkRef (chunkFileName id (lc_minTs c) rnd) (lc_minTs c) (lc_maxTs c), chunk_payload id l c).

(** ** Reading *)

(** The labels that follow a count byte: [m[name] = val] in turn, validated, and
    cross-checked against the stored fingerprint. *)
Definition header_labels (id : Z) (ps : list LabelPair) : result cfErr Labels :=
  match NewStoredStreamLabels (pairs_map ps) with
  | Err e => Err (CfLabels e)
  | Ok l => if StreamIDOf l =? id then Ok l else Err CfIdMismatch
  end.
Definition decodeChunkFileHeader (data : list Z) : result cfErr (Z * Labels * list Z) :=
  if ((length data <? 14)%nat || negb (bool_decide (slice 0 4 data = chunkFileMagic)))%bool then Err CfUnrecognized
  else if negb (be_at 4 1 data =? chunkFileVersion) then Err (CfVersion (be_at 4 1 data))
  else
    let id := be_at 5 8 data in
    match decode_pairs (Z.to_nat (be_at 13 1 data)) (drop 14 data) with
    | None => Err CfTruncated
    | Some (ps, rest) => l ← header_labels id ps; Ok (id, l, rest)
    end.
Definition readChunkFile (data : list Z) : result cfErr (Z * Labels * lc_Chunk) :=
  match decodeChunkFileHeader data with
  | Err e => Err e
  | Ok (id, l, rest) => match lc_FromBytes rest with Err e => Err (CfChunk e) | Ok c => Ok (id, l, c) end
  end.

(** The header-only read: 14 bytes, the labels, the 41 bytes of the chunk's own
    header, and the size of the file. *)
Definition readChunkFileHeader (data : list Z) : result cfErr (Z * Labels * Z * Z) :=
  match cut 14 data with
  | None => Err CfTruncated
  | Some (fixed, r) =>
      if negb (bool_decide (slice 0 4 fixed = chunkFileMagic)) then Err CfUnrecognized
      else if negb (be_at 4 1 fixed =? chunkFileVersion) then Err (CfVersion (be_at 4 1 fixed))
      else
        let id := be_at 5 8 fixed in
        match decode_pairs (Z.to_nat (be_at 13 1 fixed)) r with
        | None => Err CfTruncated
        | Some (ps, r') =>
            let fileHeaderLen := 14 + Z.of_nat (length r - length r') in
            l ← header_labels id ps;
            match cut lc_headerLen r' with
            | None => Err CfTruncated
            | Some (lch, _) =>
                match PeekBounds lch with
                | Err e => Err (CfChunk e)
                | Ok (minTs, maxTs, _, compLen) =>
                    if maxTs <? minTs then Err (CfBounds minTs maxTs)
                    else
                      let want := fileHeaderLen + Z.of_nat lc_headerLen + compLen in
                      if negb (Z.of_nat (length data) =? want) then Err (CfSize (Z.of_nat (length data)) want)
                      else Ok (id, l, minTs, maxTs)
                end
            end
        end
  end.
End file.

(** ** The header's round trip *)

(** What every stream's label set is: validated with the tenant label allowed. *)
Definition stored_labels (l : Labels) : Prop := NewStoredStreamLabels (labels_Map l) = Ok l.

Lemma stored_labels_spec l : stored_labels l -> labels_wf l /\ (0 < size (labels_Map l) <= 255)%nat /\ map_Forall (fun k v => entry_ok true k v) (labels_Map l).
Proof.
  unfold stored_labels, NewStoredStreamLabels, labels_NewStored. case_bool_decide; [done|]. destruct (validateLabelMap (labels_Map l) true) as [[]|e] eqn:E; [|done].
  rewrite bind_Ok. intros H'. injection H' as <-. apply validateLabelMap_ok in E as [H1 H2]. split; [apply build_wf|]. rewrite labels_Map_build in *. split; [lia|done].
Qed.
Lemma entry_ok_short k v : entry_ok true k v -> str_len k <= 255 /\ str_len v <= 65535.
Proof.
  unfold entry_ok, validate_entry. destruct (String.eqb_spec k tenant_Label) as [->|Hk]; cbn [andb].
  - destruct (String.eqb v tenant_Default); [done|]. unfold tenant_Validate. intros H. split; [by vm_compute|].
    destruct (Z.ltb_spec 65535 (str_len v)); [|done]. exfalso. revert H. unfold tenant_MaxLength.
    repeat match goal with |- context [if ?b then _ else _] => destruct b eqn:? end; try done. unfold str_len in *. lia.
  - intros H. destruct (if String.eqb k "__name__" then _ else _) as [[]|]; [|done]. rewrite bind_Ok in H.
    destruct (Z.ltb_spec 255 (str_len k)); [done|]. destruct (negb _); [done|]. destruct (Z.ltb_spec 65535 (str_len v)); [done|]. lia.
Qed.

Section file_lemmas.
Context {MO : MapOrder} {F : Flate} (FL : FlateLaws F).

Lemma stream_pairs_names l : NoDup (lp_Name <$> stream_pairs l).
Proof.
  unfold stream_pairs. rewrite <- list_fmap_compose. assert (Hp : (fun e : string * string => e.1) <$> map_order (labels_Map l) ≡ₚ (map_to_list (labels_Map l)).*1) by (by rewrite (map_order_perm (labels_Map l))).
  unfold compose. cbn. rewrite Hp. apply NoDup_fst_map_to_list.
Qed.
Lemma pairs_map_stream l : pairs_map (stream_pairs l) = labels_Map l.
Proof.
  rewrite fold_insert_map by apply stream_pairs_names. transitivity (list_to_map (M := gmap string string) (map_to_list (labels_Map l))); [|apply list_to_map_to_list].
  assert (E : (fun p => (lp_Name p, lp_Value p)) <$> stream_pairs l = map_order (labels_Map l)).
  { unfold stream_pairs. rewrite <- list_fmap_compose. rewrite <- (list_fmap_id (map_order _)) at 2. apply list_fmap_ext. intros _ [k v] _. done. }
  rewrite E. apply list_to_map_proper; [|apply map_order_perm]. rewrite (map_order_perm (labels_Map l)). apply NoDup_fst_map_to_list.
Qed.
Lemma stream_pairs_length l : length (stream_pairs l) = size (labels_Map l).
Proof. unfold stream_pairs. rewrite length_fmap, (Permutation_length (map_order_perm _)). apply length_map_to_list. Qed.
Lemma stream_pairs_short l : stored_labels l -> Forall (fun lp => str_len (lp_Name lp) <= 255 /\ str_len (lp_Value lp) <= 65535) (stream_pairs l).
Proof.
  intros (_ & _ & HF)%stored_labels_spec. unfold stream_pairs. rewrite Forall_fmap, (map_order_perm (labels_Map l)). apply map_Forall_to_list in HF.
  eapply Forall_impl; [exact HF|]. intros [k v] H. cbn in *. by apply entry_ok_short.
Qed.
Lemma encode_pairs_ok (ps : list LabelPair) : bytes_ok (ps ≫= encode_pair).
Proof.
  induction ps as [|p ps IH]; [constructor|]. cbn [mbind list_bind]. apply Forall_app. split; [|exact IH]. unfold encode_pair. constructor; [apply in_u8_u8|].
  repeat (apply Forall_app; split); first [apply str_bytes_ok|apply be_bytes_ok].
Qed.
Lemma header_labels_stored l : stored_labels l -> header_labels (StreamIDOf l) (stream_pairs l) = Ok l.
Proof. intros Hs. unfold header_labels. rewrite pairs_map_stream, Hs. by rewrite Z.eqb_refl. Qed.

(** Fields of the fixed part of the header. *)
Lemma header_fields id l rest : in_u64 id -> stored_labels l ->
  let data := encodeChunkFileHeader id l ++ rest in
  (14 <= length data)%nat /\ slice 0 4 data = chunkFileMagic /\ be_at 4 1 data = chunkFileVersion /\ be_at 5 8 data = id /\
  be_at 13 1 data = Z.of_nat (length (stream_pairs l)) /\ drop 14 data = (stream_pairs l ≫= encode_pair) ++ rest /\ length (encodeChunkFileHeader id l) = (14 + length (stream_pairs l ≫= encode_pair))%nat.
Proof.
  intros Hid Hs. set (f := be_bytes 8 (u64 id)). set (ps := stream_pairs l). set (n := u8 (Z.of_nat (length ps))).
  assert (Hlf : length f = 8%nat) by apply length_be_bytes. cbn zeta.
  assert (E : encodeChunkFileHeader id l ++ rest = chunkFileMagic ++ [chunkFileVersion] ++ f ++ [n] ++ (ps ≫= encode_pair) ++ rest).
  { unfold encodeChunkFileHeader, encode_labels. fold ps f n. by rewrite <- !app_assoc. }
  apply stored_labels_spec in Hs as (_ & Hsz & _). assert (Hn : n = Z.of_nat (length ps)) by (unfold n; apply u8_id; unfold ps; rewrite stream_pairs_length; unfold in_u8; change (2 ^ 8) with 256; lia).
  rewrite E. split_and!.
  - rewrite !length_app, Hlf. cbn. lia.
  - apply (slice_at 0 4 [] chunkFileMagic _ _ eq_refl); done.
  - unfold be_at. by rewrite (slice_at 4 1 chunkFileMagic [chunkFileVersion] _ _ eq_refl).
  - rewrite (be_at_field 5 8 (u64 id) (chunkFileMagic ++ [chunkFileVersion]) ([n] ++ (ps ≫= encode_pair) ++ rest)); [|unfold f; field|done].
    rewrite (u64_id id Hid). change (8 * Z.of_nat 8) with 64. by apply Z.mod_small.
  - unfold be_at. rewrite (slice_at 13 1 (chunkFileMagic ++ [chunkFileVersion] ++ f) [n] ((ps ≫= encode_pair) ++ rest)); [by rewrite be_val_one| |by rewrite !length_app, Hlf|done]. by rewrite <- !app_assoc.
  - change ((ps ≫= encode_pair) ++ rest) with ([] ++ (ps ≫= encode_pair) ++ rest) at 2. rewrite !app_assoc. rewrite <- app_assoc. apply drop_app_length'. rewrite !length_app, Hlf. done.
  - unfold encodeChunkFileHeader, encode_labels. rewrite !length_app, length_be_bytes. cbn [length chunkFileMagic]. fold ps. lia.
Qed.
Lemma decode_header l rest : stored_labels l -> decodeChunkFileHeader (encodeChunkFileHeader (StreamIDOf l) l ++ rest) = Ok (StreamIDOf l, l, rest).
Proof.
  intros Hs. destruct (stored_labels_spec l Hs) as ((_ & Hh) & _ & _). assert (Hid : in_u64 (StreamIDOf l)) by (unfold StreamIDOf, Hash; rewrite Hh; apply fnv64a_in).
  destruct (header_fields (StreamIDOf l) l rest Hid Hs) as (H1 & H2 & H3 & H4 & H5 & H6 & _). unfold decodeChunkFileHeader.
  rewrite H2, bool_decide_eq_true_2, H3, H4, H5, H6, Z.eqb_refl by done. destruct (Nat.ltb_spec (length (encodeChunkFileHeader (StreamIDOf l) l ++ rest)) 14); [lia|]. cbn [orb negb].
  rewrite Nat2Z.id, decode_encode_pairs by (by apply stream_pairs_short). rewrite header_labels_stored by done. done.
Qed.
Lemma readChunkFile_payload l es : stored_labels l -> LogChunk.fits es -> readChunkFile (chunk_payload (StreamIDOf l) l (lc_of es)) = Ok (StreamIDOf l, l, lc_of es).
Proof. intros Hs Hf. unfold readChunkFile, chunk_payload. rewrite decode_header by done. by rewrite (lc_FromBytes_Bytes FL). Qed.

(** ** The header-only read agrees with the full one *)

Lemma slice_take lo n m (data : list Z) : (lo + n <= m)%nat -> slice lo n (take m data) = slice lo n data.
Proof. intros H. unfold slice. rewrite skipn_firstn_comm, take_take. f_equal. lia. Qed.
Lemma be_at_take lo n m (data : list Z) : (lo + n <= m)%nat -> be_at lo n (take m data) = be_at lo n data.
Proof. intros H. unfold be_at. by rewrite slice_take. Qed.
Lemma PeekBounds_prefix data : PeekBounds (take lc_headerLen data) = PeekBounds data.
Proof.
  unfold PeekBounds, lc_headerLen, lc_headerCRCScope. rewrite !be_at_take, slice_take, take_take by lia. change (33 `min` 41)%nat with 33%nat.
  rewrite length_take. destruct (Nat.ltb_spec (length data) 41), (Nat.ltb_spec (41 `min` length data) 41); try lia; done.
Qed.
Lemma FromBytes_length data c : lc_FromBytes data = Ok c -> (lc_headerLen <= length data)%nat.
Proof. unfold lc_FromBytes. destruct (Nat.ltb_spec (length data) lc_headerLen); [done|lia]. Qed.

Lemma chunk_bounds_ordered es : lc_minTs (lc_of es) <= lc_maxTs (lc_of es).
Proof.
  pose proof (rep_bounds _ _ (lc_of_rep es)) as Hb. destruct es as [|e es]; cbn [bounds_of] in Hb; [lia|]. destruct Hb as (HF & _ & _). apply Forall_cons in HF as [? _]. lia.
Qed.
Lemma header_read_agrees data id l c : bytes_ok data -> readChunkFile data = Ok (id, l, c) ->
  readChunkFileHeader data = Ok (id, l, lc_minTs c, lc_maxTs c) /\ exists es, c = lc_of es /\ LogChunk.fits es.
Proof.
  intros Hd. unfold readChunkFile, decodeChunkFileHeader. destruct (Nat.ltb_spec (length data) 14); [done|]. cbn [orb].
  destruct (negb (bool_decide (slice 0 4 data = chunkFileMagic))) eqn:Em; [done|]. destruct (negb (be_at 4 1 data =? chunkFileVersion)) eqn:Ev; [done|].
  destruct (decode_pairs (Z.to_nat (be_at 13 1 data)) (drop 14 data)) as [[ps rest]|] eqn:Ep; [|done]. destruct (header_labels (be_at 5 8 data) ps) as [l'|e] eqn:El; [|done].
  rewrite bind_Ok. destruct (lc_FromBytes rest) as [c'|e] eqn:Ec; [|done]. intros E. apply (f_equal (fun r => match r with Ok x => Some x | Err _ => None end)) in E.
  apply (inj Some) in E. apply pair_equal_spec in E as [E ->]. apply pair_equal_spec in E as [<- ->].
  destruct (decode_pairs_sound _ _ _ _ ltac:(by apply Forall_drop) Ep) as (_ & Edrop & Hrest). destruct (lc_FromBytes_sound FL rest c Hrest Ec) as (es & -> & Hf & Hpk). split; [|by exists es].
  unfold readChunkFileHeader, cut at 1. destruct (Nat.ltb_spec (length data) 14); [lia|]. rewrite slice_take, !be_at_take by lia. rewrite Em, Ev, Ep, El, bind_Ok.
  pose proof (FromBytes_length _ _ Ec). unfold cut. destruct (Nat.ltb_spec (length rest) lc_headerLen); [lia|]. rewrite PeekBounds_prefix, Hpk.
  pose proof (chunk_bounds_ordered es). destruct (Z.ltb_spec (lc_maxTs (lc_of es)) (lc_minTs (lc_of es))); [lia|].
  assert (El2 : (length (drop 14 data) = length (ps ≫= encode_pair) + length rest)%nat) by (by rewrite Edrop, length_app). rewrite length_drop in El2. unfold lc_headerLen in *. rewrite length_drop.
  match goal with |- context [?a =? ?b] => replace (a =? b) with true by (symmetry; apply Z.eqb_eq; lia) end. done.
Qed.
End file_lemmas.

(** ** What ingest hands to the store *)

Definition line_fits (e : LogEntry) : Prop := in_i64 (le_ts e) /\ str_len (le_line e) <= MaxLineBytes.
Definition ingestable (sd : StreamData) : Prop := stored_labels (st_labels sd) /\ Forall line_fits (st_entries sd).
