(* ===== verification/LogIndex.v ===== *)
(** * LogIndex: the stream index and its manifest

    [internal/logs/streamindex.go]: label pairs to streams (the shared postings),
    streams to chunk references, the manifest written after every change, its
    loader, and the rebuild from chunk headers that replaces a missing or corrupt
    manifest. *)
From stdpp Require Import strings.
From S2P Require Import Prelude GoLib GoSort Labels Postings WalCodec SegName HeadWal GoCodec LogChunk LogStream LogFile.

Definition manifestMagic : list Z := [156; 83; 73; 1].
Definition manifestVersion : Z := 1.

Record streamIndex := mkIdx { x_postings : MemPostings; x_refs : gmap Z (list ChunkRef); x_labels : gmap Z Labels }.
Definition newStreamIndex : streamIndex := mkIdx NewMemPostings ∅ ∅.
Definition refs_of (x : streamIndex) (id : Z) : list ChunkRef := default [] (x_refs x !! id).

Inductive mfErr :=
  | MfUnrecognized | MfVersion (v : Z) | MfChecksum | MfTruncated (i : Z) | MfLabels (i : Z) (e : Labels.labelErr)
  | MfIdMismatch (i : Z) | MfBounds (i minTs maxTs : Z) | MfTrailing (n : Z) | MfFuel.

Section index.
Context `{MO : MapOrder}.

Definition labelPairsOf (l : Labels) : list Pair := (fun e : string * string => mkPair e.1 e.2) <$> map_order (labels_Map l).

Definition index_add (x : streamIndex) (id : Z) (l : Labels) (ref : ChunkRef) : streamIndex :=
  let x := match x_labels x !! id with
    | Some _ => x
    | None => mkIdx (postings_Add (x_postings x) id (labelPairsOf l)) (x_refs x) (<[id := l]> (x_labels x))
    end in
  mkIdx (x_postings x) (<[id := refs_of x id ++ [ref]]> (x_refs x)) (x_labels x).

(** The first reference of that name, cut out. *)
Fixpoint cut_ref (name : string) (refs : list ChunkRef) : list ChunkRef :=
  match refs with
  | [] => []
  | r :: refs => if String.eqb (cr_Name r) name then refs else r :: cut_ref name refs
  end.
Definition removeRef (x : streamIndex) (id : Z) (name : string) : streamIndex :=
  let refs := cut_ref name (refs_of x id) in
  match refs with
  | _ :: _ => mkIdx (x_postings x) (<[id := refs]> (x_refs x)) (x_labels x)
  | [] =>
      let rs := delete id (x_refs x) in
      match x_labels x !! id with
      | Some l => mkIdx (postings_Delete (x_postings x) id (labelPairsOf l)) rs (delete id (x_labels x))
      | None => mkIdx (x_postings x) rs (x_labels x)
      end
  end.

Definition index_matching (x : streamIndex) (ms : list Pair) : list Z := postings_Select (x_postings x) ms.
Definition overlaps (lo hi : Z) (r : ChunkRef) : bool := ((lo <=? cr_MaxTs r) && (cr_MinTs r <=? hi))%bool.
Definition chunkRefs (x : streamIndex) (id lo hi : Z) : list ChunkRef := filter (fun r => overlaps lo hi r = true) (refs_of x id).

(** ** The manifest *)

Definition stream_record := (Z * Labels * ChunkRef)%type.
Definition encode_record (r : stream_record) : list Z :=
  let '(id, l, ref) := r in
  be_bytes 2 (u16 (str_len (cr_Name ref))) ++ str_bytes (cr_Name ref) ++ be_bytes 8 (u64 id) ++
  be_bytes 8 (u64 (cr_MinTs ref)) ++ be_bytes 8 (u64 (cr_MaxTs ref)) ++ encode_labels (stream_pairs l).
(** Streams by ID, references in insertion order. *)
Definition sorted_ids (x : streamIndex) : list Z := sort_by id (elements (dom (x_refs x))).
Definition manifest_records (x : streamIndex) : list stream_record :=
  sorted_ids x ≫= fun id => (fun ref => (id, default (mkLabels [] 0) (x_labels x !! id), ref)) <$> refs_of x id.
Definition manifest_count (x : streamIndex) : Z := fold_left (fun n id => u32 (n + u32 (Z.of_nat (length (refs_of x id))))) (sorted_ids x) 0.
Definition manifest_body (x : streamIndex) : list Z := be_bytes 4 (manifest_count x) ++ (manifest_records x ≫= encode_record).
Definition writeManifest (x : streamIndex) : list Z :=
  manifestMagic ++ [manifestVersion] ++ be_bytes 4 (crc32c (manifest_body x)) ++ manifest_body x.

(** One record: the reference, the stream and its labels. *)
Definition decode_record (i : Z) (rest : list Z) : result mfErr (stream_record * list Z) :=
  match cut 2 rest with
  | None => Err (MfTruncated i)
  | Some (nl, rest) =>
      let nl := Z.to_nat (be_val nl) in
      if (length rest <? nl + 24 + 1)%nat then Err (MfTruncated i) else
      let name := bytes_str (take nl rest) in
      let rest := drop nl rest in
      let id := be_at 0 8 rest in
      let minTs := i64 (be_at 8 8 rest) in
      let maxTs := i64 (be_at 16 8 rest) in
      match decode_pairs (Z.to_nat (be_at 24 1 rest)) (drop 25 rest) with
      | None => Err (MfTruncated i)
      | Some (ps, rest) =>
          match NewStoredStreamLabels (pairs_map ps) with
          | Err e => Err (MfLabels i e)
          | Ok l =>
              if negb (StreamIDOf l =? id) then Err (MfIdMismatch i)
              else if maxTs <? minTs then Err (MfBounds i minTs maxTs)
              else Ok (id, l, mkRef name minTs maxTs, rest)
          end
      end
  end.
Definition add_record (x : streamIndex) (r : stream_record) : streamIndex := let '(id, l, ref) := r in index_add x id l ref.
(** Every record consumes bytes, so a fuel above their number is never used up. *)
Fixpoint load_records (fuel : nat) (i count : Z) (rest : list Z) (x : streamIndex) : result mfErr streamIndex :=
  if count <=? i then if (length rest =? 0)%nat then Ok x else Err (MfTrailing (Z.of_nat (length rest)))
  else match fuel with
  | O => Err MfFuel
  | S fuel =>
      match decode_record i rest with
      | Err e => Err e
      | Ok (r, rest) => load_records fuel (i + 1) count rest (add_record x r)
      end
  end.
Definition loadManifest (data : list Z) : result mfErr streamIndex :=
  if ((length data <? 13)%nat || negb (bool_decide (slice 0 4 data = manifestMagic)))%bool then Err MfUnrecognized
  else if negb (be_at 4 1 data =? manifestVersion) then Err (MfVersion (be_at 4 1 data))
  else
    let body := drop 9 data in
    if negb (crc32c body =? be_at 5 4 data) then Err MfChecksum
    else load_records (S (length data)) 0 (be_at 9 4 data) (drop 13 data) newStreamIndex.

(** ** Rebuilding from chunk headers *)

Definition chunk_names (files : gmap string (list Z)) : list string :=
  sort_str id (filter (fun n => HasSuffix n chunk_ext = true) (map_to_list files).*1).
Fixpoint rebuild_names (files : gmap string (list Z)) (names : list string) (x : streamIndex) : result cfErr streamIndex :=
  match names with
  | [] => Ok x
  | name :: names =>
      match readChunkFileHeader (default [] (files !! name)) with
      | Err e => Err e
      | Ok (id, l, minTs, maxTs) => rebuild_names files names (index_add x id l (mkRef name minTs maxTs))
      end
  end.
Definition rebuildFromScan (files : gmap string (list Z)) : result cfErr streamIndex := rebuild_names files (chunk_names files) newStreamIndex.

(** ** The index's invariant *)

Record idx_wf (x : streamIndex) : Prop := {
  iw_rep : postings_rep (x_postings x) (labelPairsOf <$> x_labels x);
  iw_dom : dom (x_refs x) = dom (x_labels x);
  iw_refs : forall id rs, x_refs x !! id = Some rs -> rs <> [];
  iw_labels : forall id l, x_labels x !! id = Some l -> stored_labels l /\ StreamIDOf l = id }.
Definition record_ok (r : stream_record) : Prop := let '(id, l, _) := r in stored_labels l /\ StreamIDOf l = id.

Lemma elem_of_labelPairs l p : p ∈ labelPairsOf l <-> labels_Map l !! p_name p = Some (p_value p).
Proof.
  unfold labelPairsOf. rewrite list_elem_of_fmap. setoid_rewrite (map_order_perm (labels_Map l)). split.
  - intros ([k v] & -> & H%elem_of_map_to_list). done.
  - intros H. exists (p_name p, p_value p). split; [by destruct p|by apply elem_of_map_to_list].
Qed.
Lemma newStreamIndex_wf : idx_wf newStreamIndex.
Proof. split; [cbn [newStreamIndex x_postings x_labels]; rewrite fmap_empty; apply NewMemPostings_rep|done|done|done]. Qed.
Lemma index_add_lookup x id l ref : idx_wf x -> forall k, x_refs (index_add x id l ref) !! k = (if decide (k = id) then Some (refs_of x id ++ [ref]) else x_refs x !! k) /\
  x_labels (index_add x id l ref) !! k = (if decide (k = id) then Some (default l (x_labels x !! id)) else x_labels x !! k).
Proof.
  intros Hx k. unfold index_add, refs_of. destruct (x_labels x !! id) as [l'|] eqn:E; cbn [x_refs x_labels]; (destruct (decide (k = id)) as [->|Hk]; [by rewrite ?lookup_insert_eq|by rewrite ?lookup_insert_ne]).
Qed.
Lemma index_add_wf x id l ref : idx_wf x -> stored_labels l -> StreamIDOf l = id -> idx_wf (index_add x id l ref).
Proof.
  intros Hx Hl Hid. pose proof (index_add_lookup x id l ref Hx) as Hlk. destruct Hx as [Hrep Hdom Hrefs Hlab]. split.
  - unfold index_add. destruct (x_labels x !! id) as [l'|] eqn:E; cbn [x_postings x_labels]; [done|]. rewrite fmap_insert. apply Add_rep; [done|]. by rewrite lookup_fmap, E.
  - unfold index_add. destruct (x_labels x !! id) as [l'|] eqn:E; cbn [x_refs x_labels].
    + rewrite dom_insert_L, Hdom. apply elem_of_dom_2 in E. set_solver.
    + by rewrite !dom_insert_L, Hdom.
  - intros k rs. rewrite (proj1 (Hlk k)). destruct (decide (k = id)); [intros [= <-]; by destruct (refs_of x id)|apply Hrefs].
  - intros k l0. rewrite (proj2 (Hlk k)). destruct (decide (k = id)) as [->|]; [|apply Hlab]. destruct (x_labels x !! id) as [l'|] eqn:E; cbn; intros [= <-]; [by apply Hlab|done].
Qed.
Lemma cut_ref_sublist name rs : cut_ref name rs `sublist_of` rs.
Proof. induction rs as [|r rs IH]; cbn; [done|]. destruct (String.eqb _ _); [by constructor|by apply sublist_skip]. Qed.
Lemma removeRef_wf x id name : idx_wf x -> idx_wf (removeRef x id name).
Proof.
  intros [Hrep Hdom Hrefs Hlab]. unfold removeRef. destruct (cut_ref name (refs_of x id)) as [|r rs] eqn:Ec.
  - destruct (x_labels x !! id) as [l|] eqn:El; cbn; split; cbn [x_postings x_refs x_labels].
    + rewrite fmap_delete. eapply Delete_rep; [done|by rewrite lookup_fmap, El|done].
    + by rewrite !dom_delete_L, Hdom.
    + intros k rs [Hk Hr]%lookup_delete_Some. by eapply Hrefs.
    + intros k l' [Hk Hr]%lookup_delete_Some. by apply Hlab.
    + done.
    + rewrite dom_delete_L, Hdom. apply not_elem_of_dom in El. set_solver.
    + intros k rs [Hk Hr]%lookup_delete_Some. by eapply Hrefs.
    + done.
  - split; cbn [x_postings x_refs x_labels]; [done| | |done].
    + rewrite dom_insert_L, Hdom. unfold refs_of in Ec. destruct (x_refs x !! id) as [rs'|] eqn:Er; [|done]. apply elem_of_dom_2 in Er. rewrite Hdom in Er. set_solver.
    + intros k rs'. destruct (decide (k = id)) as [->|Hk]; [rewrite lookup_insert_eq; by intros [= <-]|rewrite lookup_insert_ne by done; apply Hrefs].
Qed.
Lemma add_records_wf rs x : Forall record_ok rs -> idx_wf x -> idx_wf (fold_left add_record rs x).
Proof.
  intros HF. revert x. induction HF as [|[[id l] ref] rs [Hl Hid] HF IH]; intros x Hx; [done|]. cbn [fold_left add_record]. apply IH. by apply index_add_wf.
Qed.

(** The index as a map: what adding records yields, stream by stream. *)
Definition rec_id (r : stream_record) : Z := r.1.1.
Definition records_of (id : Z) (rs : list stream_record) : list stream_record := filter (fun r => rec_id r = id) rs.
Lemma add_records_lookup rs x : Forall record_ok rs -> idx_wf x -> forall id,
  refs_of (fold_left add_record rs x) id = refs_of x id ++ (snd <$> records_of id rs) /\
  x_labels (fold_left add_record rs x) !! id = match x_labels x !! id with Some l => Some l | None => snd ∘ fst <$> head (records_of id rs) end.
Proof.
  intros HF. revert x. induction HF as [|[[k l] ref] rs [Hl Hid] HF IH]; intros x Hx id; cbn [fold_left add_record]; [rewrite app_nil_r; by destruct (x_labels x !! id)|].
  destruct (IH (index_add x k l ref) ltac:(by apply index_add_wf) id) as [-> ->]. destruct (index_add_lookup x k l ref Hx id) as [H1 H2]. unfold records_of. rewrite filter_cons. cbn [rec_id fst snd].
  assert (Hr : refs_of (index_add x k l ref) id = if decide (id = k) then refs_of x k ++ [ref] else refs_of x id) by (unfold refs_of at 1; rewrite H1; by destruct (decide (id = k))).
  rewrite Hr, H2. destruct (decide (id = k)) as [->|Hne].
  - rewrite decide_True by done. split; [cbn; by rewrite <- app_assoc|]. by destruct (x_labels x !! k).
  - rewrite decide_False by congruence. done.
Qed.

(** ** The manifest holds the index *)

Lemma filter_bind_ids {A} (key : A -> Z) (f : Z -> list A) (ids : list Z) k : (forall i a, a ∈ f i -> key a = i) -> NoDup ids ->
  filter (fun a => key a = k) (ids ≫= f) = if decide (k ∈ ids) then f k else [].
Proof.
  intros Hf. induction ids as [|i ids IH]; intros Hnd; [done|]. apply NoDup_cons in Hnd as [Hi Hnd]. cbn [mbind list_bind]. change (list_bind _ _ f ids) with (ids ≫= f). rewrite filter_app, IH by done.
  destruct (decide (i = k)) as [->|Hne].
  - rewrite decide_False by done. rewrite decide_True by (by left). rewrite app_nil_r. apply filter_all, Forall_forall. intros a Ha. by apply Hf.
  - assert (filter (fun a => key a = k) (f i) = []) as -> by (apply filter_nothing, Forall_forall; intros a Ha E; apply Hne; rewrite <- E; symmetry; by apply Hf). cbn [app].
    destruct (decide (k ∈ ids)) as [Hin|Hin]; [rewrite decide_True by (by right); done|]. rewrite decide_False; [done|]. intros [E|E]%elem_of_cons; [by apply Hne|done].
Qed.
Lemma sorted_ids_spec x : NoDup (sorted_ids x) /\ forall id, id ∈ sorted_ids x <-> is_Some (x_refs x !! id).
Proof.
  destruct (sort_ids_strict (dom (x_refs x))) as [Hs Hd]. split; [eapply StronglySorted_strict_NoDup, Hs; intros; lia|]. intros id. unfold sorted_ids. by rewrite Hd, elem_of_dom.
Qed.
Lemma records_of_manifest x id : records_of id (manifest_records x) = (fun ref => (id, default (mkLabels [] 0) (x_labels x !! id), ref)) <$> refs_of x id.
Proof.
  destruct (sorted_ids_spec x) as [Hnd Hin]. unfold records_of, manifest_records. rewrite (filter_bind_ids rec_id) by (try done; intros i a (ref & -> & _)%list_elem_of_fmap; done).
  destruct (decide (id ∈ sorted_ids x)) as [H|H]; [done|]. unfold refs_of. destruct (x_refs x !! id) as [rs|] eqn:E; [|done]. destruct H. apply Hin. by eexists.
Qed.
Lemma elem_of_manifest x r : idx_wf x -> r ∈ manifest_records x -> exists id l ref, r = (id, l, ref) /\ x_labels x !! id = Some l /\ ref ∈ refs_of x id.
Proof.
  intros Hx. unfold manifest_records. rewrite list_elem_of_bind. intros (id & Hr & Hid). destruct (sorted_ids_spec x) as [_ Hin]. apply Hin in Hid. apply list_elem_of_fmap in Hr as (ref & -> & Href).
  apply elem_of_dom in Hid. rewrite (iw_dom x Hx) in Hid. apply elem_of_dom in Hid as [l Hl]. exists id, l, ref. rewrite Hl. done.
Qed.
Lemma manifest_records_ok x : idx_wf x -> Forall record_ok (manifest_records x).
Proof. intros Hx. apply Forall_forall. intros r Hr. destruct (elem_of_manifest x r Hx Hr) as (id & l & ref & -> & Hl & _). by apply (iw_labels x Hx). Qed.
Lemma idx_refs_none x id : idx_wf x -> x_refs x !! id = None <-> refs_of x id = [].
Proof. intros Hx. unfold refs_of. destruct (x_refs x !! id) as [rs|] eqn:E; [|done]. cbn. split; [done|]. intros ->. by apply (iw_refs x Hx) in E. Qed.
Lemma idx_ext x y : idx_wf x -> idx_wf y -> (forall id, refs_of x id = refs_of y id) -> x_refs x = x_refs y.
Proof.
  intros Hx Hy H. apply map_eq. intros id. specialize (H id). destruct (x_refs x !! id) as [rx|] eqn:Ex, (x_refs y !! id) as [ry|] eqn:Ey; unfold refs_of in H; rewrite Ex, Ey in H; cbn in H; try congruence.
  - apply (iw_refs x Hx) in Ex. congruence.
  - apply (iw_refs y Hy) in Ey. congruence.
Qed.
(** Replaying the manifest's records rebuilds the index. *)
Lemma reload x : idx_wf x -> let y := fold_left add_record (manifest_records x) newStreamIndex in idx_wf y /\ x_refs y = x_refs x /\ x_labels y = x_labels x.
Proof.
  intros Hx. cbn zeta. set (y := fold_left _ _ _). assert (Hy : idx_wf y) by (apply add_records_wf; [by apply manifest_records_ok|apply newStreamIndex_wf]).
  pose proof (add_records_lookup (manifest_records x) newStreamIndex (manifest_records_ok x Hx) newStreamIndex_wf) as Hlk. split; [done|]. split.
  - apply idx_ext; [done..|]. intros id. destruct (Hlk id) as [Hr _]. unfold y. rewrite Hr, records_of_manifest, <- list_fmap_compose. cbn. apply list_fmap_id.
  - apply map_eq. intros id. destruct (Hlk id) as [_ Hl]. unfold y. rewrite Hl, records_of_manifest. cbn [newStreamIndex x_labels]. rewrite lookup_empty.
    pose proof (iw_dom x Hx) as Hd. destruct (x_labels x !! id) as [l|] eqn:El.
    + apply elem_of_dom_2 in El as Hin. rewrite <- Hd in Hin. apply elem_of_dom in Hin as [rs Hrs]. pose proof (iw_refs x Hx _ _ Hrs). unfold refs_of. rewrite Hrs. destruct rs; [done|]. cbn. done.
    + assert (Hn : x_refs x !! id = None) by (apply not_elem_of_dom; rewrite Hd; by apply not_elem_of_dom). unfold refs_of. by rewrite Hn.
Qed.

(** What the format can hold: names of 16-bit length and [int64] bounds in order. *)
Definition ref_ok (r : ChunkRef) : Prop := str_len (cr_Name r) <= 65535 /\ in_i64 (cr_MinTs r) /\ in_i64 (cr_MaxTs r) /\ cr_MinTs r <= cr_MaxTs r.
Lemma stored_id_u64 l : stored_labels l -> in_u64 (StreamIDOf l).
Proof. intros ((_ & Hh) & _ & _)%stored_labels_spec. unfold StreamIDOf, Hash. rewrite Hh. apply fnv64a_in. Qed.
Lemma decode_encode_record i r rest : record_ok r -> ref_ok r.2 -> decode_record i (encode_record r ++ rest) = Ok (r, rest).
Proof.
  destruct r as [[id l] [name mn mx]]. intros [Hl Hid] (Hn & Hmn & Hmx & Hle). cbn [snd cr_Name cr_MinTs cr_MaxTs] in *. unfold encode_record, decode_record. cbn [cr_Name cr_MinTs cr_MaxTs].
  set (b1 := be_bytes 8 (u64 id)). set (b2 := be_bytes 8 (u64 mn)). set (b3 := be_bytes 8 (u64 mx)). set (ps := stream_pairs l). set (nl := u16 (str_len name)).
  assert (Hnl : nl = str_len name) by (apply Z.mod_small; unfold str_len in *; lia). rewrite <- !app_assoc, cut_app by apply length_be_bytes.
  rewrite be_val_bytes, Hnl, Z.mod_small by (change (8 * Z.of_nat 2) with 16; unfold str_len in *; lia).
  assert (Hlen : Z.to_nat (str_len name) = length (str_bytes name)) by (rewrite length_str_bytes; unfold str_len; lia). rewrite Hlen.
  set (tl := b1 ++ b2 ++ b3 ++ encode_labels ps ++ rest). assert (Htl : (25 <= length tl)%nat) by (unfold tl, b1, b2, b3, encode_labels; rewrite !length_app, !length_be_bytes; cbn; lia).
  rewrite length_app. destruct (Nat.ltb_spec (length (str_bytes name) + length tl) (length (str_bytes name) + 24 + 1)); [lia|].
  rewrite take_app_length, drop_app_length, bytes_str_bytes. pose proof (stored_id_u64 l Hl) as Hu. rewrite Hid in Hu.
  assert (Hm : forall v, u64 v mod 2 ^ (8 * Z.of_nat 8) = u64 v) by (intros; apply Z.mod_small, in_u64_u64).
  assert (E1 : be_at 0 8 tl = id) by (rewrite (be_at_field 0 8 (u64 id) [] (b2 ++ b3 ++ encode_labels ps ++ rest)) by done; rewrite Hm; by apply u64_id).
  assert (E2 : be_at 8 8 tl = u64 mn) by (rewrite (be_at_field 8 8 (u64 mn) b1 (b3 ++ encode_labels ps ++ rest)) by (done || apply length_be_bytes); apply Hm).
  assert (E3 : be_at 16 8 tl = u64 mx) by (rewrite (be_at_field 16 8 (u64 mx) (b1 ++ b2) (encode_labels ps ++ rest)) by (first [by rewrite length_app; unfold b1, b2; rewrite !length_be_bytes | by rewrite <- !app_assoc]); apply Hm).
  pose proof (stored_labels_spec l Hl) as (_ & Hsz & _).
  assert (E4 : be_at 24 1 tl = Z.of_nat (length ps)).
  { unfold be_at. rewrite (slice_at 24 1 (b1 ++ b2 ++ b3) [u8 (Z.of_nat (length ps))] ((ps ≫= encode_pair) ++ rest)); [|unfold tl, encode_labels; by rewrite <- !app_assoc|by rewrite !length_app; unfold b1, b2, b3; rewrite !length_be_bytes|done].
    rewrite be_val_one. apply u8_id. unfold ps. rewrite stream_pairs_length. unfold in_u8. change (2 ^ 8) with 256. lia. }
  assert (E5 : drop 25 tl = (ps ≫= encode_pair) ++ rest).
  { unfold tl, encode_labels. transitivity (drop 25 ((b1 ++ b2 ++ b3 ++ [u8 (Z.of_nat (length ps))]) ++ (ps ≫= encode_pair) ++ rest)); [by rewrite <- !app_assoc|]. apply drop_app_length'. by rewrite !length_app; unfold b1, b2, b3; rewrite !length_be_bytes. }
  rewrite E1, E2, E3, E4, E5, Nat2Z.id, decode_encode_pairs by (by apply stream_pairs_short). unfold ps. rewrite pairs_map_stream, Hl, Hid, Z.eqb_refl, !i64_u64, !i64_id by done. cbn [negb].
  destruct (Z.ltb_spec mx mn); [lia|]. done.
Qed.
Lemma encode_record_pos r : (0 < length (encode_record r))%nat.
Proof. destruct r as [[id l] ref]. unfold encode_record. rewrite length_app, length_be_bytes. lia. Qed.
Lemma load_encoded rs fuel i x : Forall record_ok rs -> Forall (fun r => ref_ok r.2) rs -> (length rs < fuel)%nat -> 0 <= i ->
  load_records fuel i (i + Z.of_nat (length rs)) (rs ≫= encode_record) x = Ok (fold_left add_record rs x).
Proof.
  intros HF HR. revert fuel i x. induction HF as [|r rs Hr HF IH]; intros [|fuel] i x Hf Hi; try (cbn in Hf; lia); cbn [load_records length] in *; [destruct (Z.leb_spec (i + Z.of_nat 0) i); [done|lia]|].
  apply Forall_cons in HR as [Hrr HR]. destruct (Z.leb_spec (i + Z.of_nat (S (length rs))) i); [lia|]. cbn [mbind list_bind]. change (list_bind _ _ encode_record rs) with (rs ≫= encode_record).
  rewrite decode_encode_record by done. replace (i + Z.of_nat (S (length rs))) with (i + 1 + Z.of_nat (length rs)) by lia. cbn [fold_left]. apply IH; [done|lia|lia].
Qed.
Lemma manifest_count_exact x : Z.of_nat (length (manifest_records x)) < 2 ^ 32 -> manifest_count x = Z.of_nat (length (manifest_records x)).
Proof.
  unfold manifest_count, manifest_records. generalize (sorted_ids x). intros ids.
  assert (Hgen : forall n, 0 <= n -> n + Z.of_nat (length (ids ≫= fun id => (fun ref => (id, default (mkLabels [] 0) (x_labels x !! id), ref)) <$> refs_of x id)) < 2 ^ 32 ->
    fold_left (fun n id => u32 (n + u32 (Z.of_nat (length (refs_of x id))))) ids n = n + Z.of_nat (length (ids ≫= fun id => (fun ref => (id, default (mkLabels [] 0) (x_labels x !! id), ref)) <$> refs_of x id))).
  { induction ids as [|id ids IH]; intros n Hn; [cbn; lia|]. cbn [fold_left]. rewrite bind_cons, length_app, length_fmap. set (k := length (refs_of x id)).
    intros Hb. assert (Hk : 0 <= n + Z.of_nat k < 2 ^ 32) by (split; [lia|]; eapply Z.le_lt_trans, Hb; lia).
    rewrite (u32_id (Z.of_nat k)) by (unfold in_u32; lia). rewrite (u32_id (n + Z.of_nat k)) by exact Hk. rewrite IH; lia. }
  intros H. by rewrite Hgen.
Qed.

Definition manifest_fits (x : streamIndex) : Prop := Z.of_nat (length (manifest_records x)) < 2 ^ 32 /\ forall id r, r ∈ refs_of x id -> ref_ok r.
Lemma load_write x : idx_wf x -> manifest_fits x -> exists y, loadManifest (writeManifest x) = Ok y /\ idx_wf y /\ x_refs y = x_refs x /\ x_labels y = x_labels x.
Proof.
  intros Hx [Hn Hr]. pose proof (reload x Hx) as Hy. exists (fold_left add_record (manifest_records x) newStreamIndex). split; [|done].
  set (body := manifest_body x). set (recs := manifest_records x ≫= encode_record). unfold loadManifest. set (data := writeManifest x).
  assert (E : data = manifestMagic ++ [manifestVersion] ++ be_bytes 4 (crc32c body) ++ be_bytes 4 (manifest_count x) ++ recs) by done.
  assert (Hm4 : forall v, in_u32 v -> v mod 2 ^ (8 * Z.of_nat 4) = v) by (intros; by apply Z.mod_small).
  assert (E1 : slice 0 4 data = manifestMagic) by (by apply (slice_at 0 4 [] manifestMagic _ _ E)).
  assert (E2 : be_at 4 1 data = manifestVersion) by (unfold be_at; by rewrite (slice_at 4 1 manifestMagic [manifestVersion] _ _ E)).
  assert (E3 : be_at 5 4 data = crc32c body) by (rewrite (be_at_field 5 4 (crc32c body) (manifestMagic ++ [manifestVersion]) (be_bytes 4 (manifest_count x) ++ recs)) by done; apply Hm4, crc32c_in).
  assert (E4 : be_at 9 4 data = Z.of_nat (length (manifest_records x))).
  { rewrite (be_at_field 9 4 (manifest_count x) (manifestMagic ++ [manifestVersion] ++ be_bytes 4 (crc32c body)) recs); [|done|by rewrite !length_app, length_be_bytes]. rewrite manifest_count_exact by done. apply Hm4. unfold in_u32. lia. }
  assert (E5 : drop 9 data = body).
  { transitivity (drop 9 ((manifestMagic ++ [manifestVersion] ++ be_bytes 4 (crc32c body)) ++ body)); [done|]. apply drop_app_length'. by rewrite !length_app, length_be_bytes. }
  assert (E6 : drop 13 data = recs).
  { transitivity (drop 13 ((manifestMagic ++ [manifestVersion] ++ be_bytes 4 (crc32c body) ++ be_bytes 4 (manifest_count x)) ++ recs)); [rewrite E; f_equal; by rewrite <- !app_assoc|]. apply drop_app_length'. by rewrite !length_app, !length_be_bytes. }
  assert (Hlen : (13 + length recs = length data)%nat) by (rewrite E, !length_app, !length_be_bytes; cbn; lia).
  assert (Hrecs : (length (manifest_records x) <= length recs)%nat).
  { unfold recs. generalize (manifest_records x). induction l as [|r l IH]; [done|]. rewrite bind_cons, length_app. pose proof (encode_record_pos r). cbn [length]. lia. }
  rewrite E1, bool_decide_eq_true_2, E2, E3, E4, E5, E6, !Z.eqb_refl by done. destruct (Nat.ltb_spec (length data) 13); [lia|]. cbn [orb negb].
  apply (load_encoded (manifest_records x) (S (length data)) 0 newStreamIndex); [by apply manifest_records_ok| |lia|lia].
  apply Forall_forall. intros r Hin. destruct (elem_of_manifest x r Hx Hin) as (id & l & ref & -> & _ & Href). by apply (Hr id).
Qed.

(** What the loader accepts is a well-formed index. *)
Lemma decode_record_ok i rest r rest' : decode_record i rest = Ok (r, rest') -> record_ok r /\ cr_MinTs r.2 <= cr_MaxTs r.2.
Proof.
  unfold decode_record. destruct (cut 2 rest) as [[nl rest1]|]; [|done]. destruct (_ <? _)%nat; [done|]. destruct (decode_pairs _ _) as [[ps rest2]|]; [|done].
  destruct (NewStoredStreamLabels (pairs_map ps)) as [l|e] eqn:El; [|done]. destruct (Z.eqb_spec (StreamIDOf l) (be_at 0 8 (drop (Z.to_nat (be_val nl)) rest1))) as [Hid|]; [|done]. cbn [negb].
  destruct (Z.ltb_spec (i64 (be_at 16 8 (drop (Z.to_nat (be_val nl)) rest1))) (i64 (be_at 8 8 (drop (Z.to_nat (be_val nl)) rest1)))); [done|]. intros E.
  apply (f_equal (fun r => match r with Ok x => Some x | Err _ => None end)), (inj Some), pair_equal_spec in E as [<- _]. cbn. split; [|lia]. split; [|done].
  unfold stored_labels. unfold NewStoredStreamLabels in El. case_bool_decide; [done|]. unfold labels_NewStored in El. destruct (validateLabelMap (pairs_map ps) true) as [[]|] eqn:Ev; [|done].
  rewrite bind_Ok in El. injection El as <-. rewrite labels_Map_build. unfold NewStoredStreamLabels. rewrite bool_decide_eq_false_2 by done. unfold labels_NewStored. by rewrite Ev.
Qed.
Lemma load_records_wf fuel i n rest x y : idx_wf x -> load_records fuel i n rest x = Ok y -> idx_wf y.
Proof.
  revert i rest x. induction fuel as [|fuel IH]; intros i rest x Hx; cbn [load_records]; (destruct (n <=? i); [destruct (_ =? 0)%nat; [by intros [= <-]|done]|]); [done|].
  destruct (decode_record i rest) as [[r rest']|e] eqn:E; [|done]. apply IH. destruct r as [[id l] ref]. apply decode_record_ok in E as [[Hl Hid] _]. by apply index_add_wf.
Qed.
Lemma loadManifest_wf data y : loadManifest data = Ok y -> idx_wf y.
Proof.
  unfold loadManifest. destruct (_ || _)%bool; [done|]. destruct (negb _); [done|]. destruct (negb _); [done|]. apply load_records_wf, newStreamIndex_wf.
Qed.
(** The loop never runs out of fuel. *)
Lemma decode_record_consumes i rest r rest' : decode_record i rest = Ok (r, rest') -> (length rest' < length rest)%nat.
Proof.
  unfold decode_record, cut. destruct (Nat.ltb_spec (length rest) 2); [done|]. destruct (_ <? _)%nat eqn:El; [done|]. apply Nat.ltb_ge in El.
  set (tl := drop _ (drop 2 rest)) in *. destruct (decode_pairs _ _) as [[ps rest2]|] eqn:Ep; [|done].
  destruct (NewStoredStreamLabels _); [|done]. destruct (negb _); [done|]. destruct (_ <? _); [done|]. intros E. apply (f_equal (fun r => match r with Ok x => Some x | Err _ => None end)), (inj Some), pair_equal_spec in E as [_ <-].
  assert (Hle : forall n b ls r, decode_pairs n b = Some (ls, r) -> (length r <= length b)%nat).
  { clear. induction n as [|n IH]; intros b ls r; cbn [decode_pairs]; [by intros [= <- <-]|].
    destruct (cut 1 b) as [[x1 b1]|] eqn:E1; [|done]. apply cut_some in E1 as [-> _]. cbn [mbind option_bind]. destruct (cut _ b1) as [[x2 b2]|] eqn:E2; [|done]. apply cut_some in E2 as [-> _]. cbn [mbind option_bind].
    destruct (cut 2 b2) as [[x3 b3]|] eqn:E3; [|done]. apply cut_some in E3 as [-> _]. cbn [mbind option_bind]. destruct (cut _ b3) as [[x4 b4]|] eqn:E4; [|done]. apply cut_some in E4 as [-> _]. cbn [mbind option_bind].
    destruct (decode_pairs n b4) as [[ls' r']|] eqn:E; [|done]. cbn [mbind option_bind]. intros H. injection H as _ <-. apply IH in E. rewrite !length_app. lia. }
  apply Hle in Ep. unfold tl in Ep. rewrite !length_drop in Ep. lia.
Qed.
Lemma load_records_fuel fuel i n rest x : (length rest < fuel)%nat -> load_records fuel i n rest x <> Err MfFuel.
Proof.
  revert i rest x. induction fuel as [|fuel IH]; intros i rest x Hf; [lia|]. cbn [load_records]. destruct (n <=? i); [by destruct (_ =? 0)%nat|].
  destruct (decode_record i rest) as [[r rest']|e] eqn:E; [apply IH; apply decode_record_consumes in E; lia|]. intros [= ->]. revert E. unfold decode_record.
  destruct (cut 2 rest) as [[? ?]|]; [|done]. destruct (_ <? _)%nat; [done|]. destruct (decode_pairs _ _) as [[? ?]|]; [|done]. destruct (NewStoredStreamLabels _); [|done]. destruct (negb _); [done|]. by destruct (_ <? _).
Qed.
End index.
