(* ===== verification/LogBatch.v ===== *)
(** * LogBatch: cutting a flush into requests

    [internal/logs/head.go]: [BatchStreams] and the wire-size estimates it sums.
    The JSON string cost is the one of [Batch]. *)
From stdpp Require Import strings.
From S2P Require Import Prelude GoLib GoSort Labels Source LogStream Batch.

Definition logEntryFramingBytes : Z := 1 + 19 + 1 + 1 + 1.
Definition wireStreamFramingBytes : Z := 32.
Definition wireLabelFramingBytes : Z := 1 + 1.
Definition entryWireBytes (e : LogEntry) : Z := logEntryFramingBytes + jsonStringBytes (le_line e).
Definition streamOpenWireBytes (l : Labels) : Z :=
  map_fold (fun name value n => n + (wireLabelFramingBytes + jsonStringBytes name + jsonStringBytes value)) wireStreamFramingBytes (labels_Map l).

(** The batches closed, the one being filled and its size. *)
Record log_batching := mkLB { lb_batches : list (list StreamData); lb_cur : list StreamData; lb_size : Z }.
(** The entry loop of one stream: the part being filled, and what opening it costs
    until its first entry is charged. *)
Definition add_entry (limit : Z) (l : Labels) (acc : log_batching * list LogEntry * Z) (e : LogEntry) : log_batching * list LogEntry * Z :=
  let '(st, part, openCost) := acc in
  let n := entryWireBytes e + openCost in
  if ((0 <? lb_size st) && (limit <? lb_size st + n))%bool then
    match part with
    | [] => (mkLB (lb_batches st ++ [lb_cur st]) [] n, [e], 0)
    | _ => (mkLB (lb_batches st ++ [lb_cur st ++ [mkSD l part]]) [] (entryWireBytes e + streamOpenWireBytes l), [e], 0)
    end
  else (mkLB (lb_batches st) (lb_cur st) (lb_size st + n), part ++ [e], 0).
Definition add_stream (limit : Z) (st : log_batching) (sd : StreamData) : log_batching :=
  let '(st, part, _) := fold_left (add_entry limit (st_labels sd)) (st_entries sd) (st, [], streamOpenWireBytes (st_labels sd)) in
  match part with
  | [] => st
  | _ => mkLB (lb_batches st) (lb_cur st ++ [mkSD (st_labels sd) part]) (lb_size st)
  end.
Definition BatchStreams (streams : list StreamData) (limit : Z) : list (list StreamData) :=
  if limit <=? 0 then [streams] else
  let st := fold_left (add_stream limit) streams (mkLB [] [] 0) in
  match lb_cur st with [] => lb_batches st | cur => lb_batches st ++ [cur] end.

(** ** What a batch is *)

Definition log_flat (b : list StreamData) : list (Labels * LogEntry) := b ≫= fun sd => pair (st_labels sd) <$> st_entries sd.
Definition sum_entries (es : list LogEntry) : Z := foldr (fun e n => entryWireBytes e + n) 0 es.
Definition stream_size (sd : StreamData) : Z := streamOpenWireBytes (st_labels sd) + sum_entries (st_entries sd).
Definition streams_size (b : list StreamData) : Z := foldr (fun sd n => stream_size sd + n) 0 b.
(** Within the limit, unless one entry alone is not. *)
Record log_batch_ok (limit : Z) (b : list StreamData) : Prop := {
  lbo_nonempty : b <> [];
  lbo_parts : Forall (fun sd => st_entries sd <> []) b;
  lbo_size : streams_size b <= limit \/ length (log_flat b) = 1%nat }.

Lemma entryWire_pos e : 0 < entryWireBytes e.
Proof. unfold entryWireBytes, logEntryFramingBytes, jsonStringBytes. pose proof (json_bytes_nonneg (String.length (le_line e)) (str_bytes (le_line e))). lia. Qed.
Lemma streamOpen_pos l : 0 < streamOpenWireBytes l.
Proof.
  unfold streamOpenWireBytes. apply (map_fold_weak_ind (fun n _ => 0 < n)); [unfold wireStreamFramingBytes; lia|]. intros k v m n _ Hn. unfold wireLabelFramingBytes, jsonStringBytes.
  pose proof (json_bytes_nonneg (String.length k) (str_bytes k)). pose proof (json_bytes_nonneg (String.length v) (str_bytes v)). lia.
Qed.
Lemma sum_entries_nonneg es : 0 <= sum_entries es.
Proof. induction es as [|e es IH]; cbn; [lia|]. pose proof (entryWire_pos e). unfold sum_entries in IH. lia. Qed.
Lemma streams_size_app b b' : streams_size (b ++ b') = streams_size b + streams_size b'.
Proof. unfold streams_size. induction b as [|x b IH]; cbn; lia. Qed.
Lemma sum_entries_app a b : sum_entries (a ++ b) = sum_entries a + sum_entries b.
Proof. unfold sum_entries. induction a as [|x a IH]; cbn; lia. Qed.
Lemma streams_size_zero b : streams_size b <= 0 -> b = [].
Proof.
  destruct b as [|sd b]; [done|]. intros H. exfalso. unfold streams_size in H. cbn in H. unfold stream_size in H. pose proof (streamOpen_pos (st_labels sd)). pose proof (sum_entries_nonneg (st_entries sd)).
  assert (Hn : 0 <= foldr (fun sd n => stream_size sd + n) 0 b); [|unfold stream_size in Hn; lia]. clear. induction b as [|x b IH]; cbn; [lia|]. unfold stream_size at 1. pose proof (streamOpen_pos (st_labels x)). pose proof (sum_entries_nonneg (st_entries x)). lia.
Qed.
Lemma log_flat_app b b' : log_flat (b ++ b') = log_flat b ++ log_flat b'.
Proof. apply bind_app. Qed.

Section cutting.
Context (limit : Z).

Definition log_part (l : Labels) (part : list LogEntry) : list StreamData := match part with [] => [] | _ => [mkSD l part] end.
Definition log_open (l : Labels) (st : log_batching) (part : list LogEntry) : list StreamData := lb_cur st ++ log_part l part.
Record log_filling (l : Labels) (st : log_batching) (part : list LogEntry) (openCost : Z) (seen : list (Labels * LogEntry)) : Prop := {
  lf_flat : (lb_batches st ≫= log_flat) ++ log_flat (log_open l st part) = seen;
  lf_batches : Forall (log_batch_ok limit) (lb_batches st);
  lf_open : log_open l st part = [] \/ log_batch_ok limit (log_open l st part);
  lf_size : lb_size st = streams_size (log_open l st part);
  lf_charge : openCost = match part with [] => streamOpenWireBytes l | _ => 0 end }.

Lemma log_flat_part l es : log_flat (log_part l es) = pair l <$> es.
Proof. destruct es; [done|]. unfold log_flat. cbn [log_part]. rewrite bind_cons. apply app_nil_r. Qed.
Lemma log_part_snoc l part e : log_part l (part ++ [e]) = [mkSD l (part ++ [e])].
Proof. by destruct part. Qed.
Lemma log_single l e : log_batch_ok limit [mkSD l [e]].
Proof. split; [done|by apply Forall_singleton|by right]. Qed.
Lemma log_bind_one (b : list StreamData) : [b] ≫= log_flat = log_flat b.
Proof. apply app_nil_r. Qed.

Lemma add_entry_filling l st part openCost seen e : log_filling l st part openCost seen ->
  let '(st', part', open') := add_entry limit l (st, part, openCost) e in log_filling l st' part' open' (seen ++ [(l, e)]).
Proof.
  intros [Hflat Hb Ho Hs Hc]. unfold add_entry. set (n := entryWireBytes e + openCost). destruct ((0 <? lb_size st) && (limit <? lb_size st + n))%bool eqn:Hcut.
  - apply andb_true_iff in Hcut as [H0 _]. apply Z.ltb_lt in H0. destruct Ho as [E|Hok]; [rewrite Hs, E in H0; cbn in H0; lia|]. pose proof (log_single l e) as Hnew. unfold log_open in *.
    destruct part as [|e0 part]; cbn [log_part] in *; split; cbn [lb_batches lb_cur lb_size log_open log_part app]; try done; try (by right).
    + rewrite bind_app, log_bind_one, <- Hflat, !app_nil_r. reflexivity.
    + apply Forall_app. split; [done|]. rewrite app_nil_r in Hok. by apply Forall_singleton.
    + unfold n. rewrite Hc. unfold streams_size, stream_size, sum_entries. cbn [foldr st_labels st_entries]. lia.
    + rewrite bind_app, log_bind_one, <- Hflat. reflexivity.
    + apply Forall_app. split; [done|]. by apply Forall_singleton.
    + unfold streams_size, stream_size, sum_entries. cbn [foldr st_labels st_entries]. lia.
  - assert (Hsize : lb_size st + n = streams_size (log_open l st (part ++ [e]))).
    { rewrite Hs. unfold log_open. rewrite !streams_size_app, log_part_snoc. unfold n. destruct part; subst openCost; unfold log_part, streams_size; cbn [foldr]; unfold stream_size; cbn [st_labels st_entries]; rewrite ?sum_entries_app; unfold sum_entries; cbn [foldr app]; lia. }
    split; cbn [lb_batches lb_cur lb_size]; try done.
    + rewrite <- Hflat. unfold log_open. cbn [lb_cur]. by rewrite !log_flat_app, !log_flat_part, fmap_app, !app_assoc.
    + right. change (log_open l (mkLB (lb_batches st) (lb_cur st) (lb_size st + n)) (part ++ [e])) with (log_open l st (part ++ [e])).
      assert (Hcur : Forall (fun sd => st_entries sd <> []) (lb_cur st)).
      { destruct Ho as [E|[_ H1 _]]; [apply app_nil in E as [-> _]; constructor|]. by apply Forall_app in H1 as [H1 _]. }
      unfold log_open in *. split; rewrite ?log_part_snoc in *.
      * by destruct (lb_cur st).
      * apply Forall_app. split; [done|]. apply Forall_singleton. cbn. by destruct part.
      * rewrite <- Hsize. destruct (Z.ltb_spec 0 (lb_size st)) as [Hp|Hp]; cbn [andb] in Hcut; [left; by apply Z.ltb_ge in Hcut|]. right.
        rewrite Hs in Hp. apply streams_size_zero in Hp. apply app_nil in Hp as [-> E]. by destruct part.
    + by destruct part.
Qed.
Lemma add_entries_filling l es st part openCost seen : log_filling l st part openCost seen ->
  let '(st', part', open') := fold_left (add_entry limit l) es (st, part, openCost) in log_filling l st' part' open' (seen ++ (pair l <$> es)).
Proof.
  revert st part openCost seen. induction es as [|e es IH]; intros st part openCost seen Hf; cbn [fold_left fmap list_fmap]; [by rewrite app_nil_r|].
  pose proof (add_entry_filling l st part openCost seen e Hf) as Hf'. destruct (add_entry limit l (st, part, openCost) e) as [[st1 part1] open1]. specialize (IH _ _ _ _ Hf'). by rewrite <- app_assoc in IH.
Qed.

Record log_filled (st : log_batching) (seen : list StreamData) : Prop := {
  lfd_flat : (lb_batches st ≫= log_flat) ++ log_flat (lb_cur st) = log_flat seen;
  lfd_batches : Forall (log_batch_ok limit) (lb_batches st);
  lfd_cur : lb_cur st = [] \/ log_batch_ok limit (lb_cur st);
  lfd_size : lb_size st = streams_size (lb_cur st) }.
Lemma add_stream_filled st seen sd : log_filled st seen -> log_filled (add_stream limit st sd) (seen ++ [sd]).
Proof.
  intros [Hflat Hb Hc Hs]. assert (Hf : log_filling (st_labels sd) st [] (streamOpenWireBytes (st_labels sd)) (log_flat seen)) by (split; unfold log_open; cbn [log_part]; rewrite ?app_nil_r; auto).
  unfold add_stream. pose proof (add_entries_filling (st_labels sd) (st_entries sd) _ _ _ _ Hf) as Hf'. destruct (fold_left _ _ _) as [[st' part'] open']. destruct Hf' as [Hflat' Hb' Ho' Hs' _].
  assert (Hbind : log_flat (seen ++ [sd]) = log_flat seen ++ (pair (st_labels sd) <$> st_entries sd)) by (rewrite log_flat_app; f_equal; apply app_nil_r).
  unfold log_open in *. destruct part' as [|e part']; cbn [log_part] in *; [rewrite app_nil_r in *|]; split; cbn [lb_batches lb_cur lb_size]; rewrite ?Hbind; done.
Qed.
Lemma add_streams_filled streams st seen : log_filled st seen -> log_filled (fold_left (add_stream limit) streams st) (seen ++ streams).
Proof.
  revert st seen. induction streams as [|sd streams IH]; intros st seen Hf; [by rewrite app_nil_r|]. cbn [fold_left]. replace (seen ++ sd :: streams) with ((seen ++ [sd]) ++ streams) by (by rewrite <- app_assoc).
  by apply IH, add_stream_filled.
Qed.
End cutting.

Lemma BatchStreams_flat streams limit : (BatchStreams streams limit ≫= log_flat) = log_flat streams.
Proof.
  unfold BatchStreams. destruct (limit <=? 0); [apply app_nil_r|]. destruct (add_streams_filled limit streams (mkLB [] [] 0) []) as [Hflat _ _ _]; [split; cbn; auto|].
  cbn [app] in Hflat. destruct (lb_cur (fold_left _ _ _)) as [|sd cur]; [by rewrite app_nil_r in Hflat|]. rewrite bind_app, <- Hflat. f_equal. apply app_nil_r.
Qed.
Lemma BatchStreams_ok streams limit : 0 < limit -> Forall (log_batch_ok limit) (BatchStreams streams limit).
Proof.
  intros Hl. unfold BatchStreams. destruct (Z.leb_spec limit 0); [lia|]. destruct (add_streams_filled limit streams (mkLB [] [] 0) []) as [_ Hb Hc _]; [split; cbn; auto|].
  destruct (lb_cur (fold_left _ _ _)) as [|sd cur]; [done|]. destruct Hc as [|Hok]; [done|]. apply Forall_app. split; [done|]. by apply Forall_singleton.
Qed.

(** Cutting a flush into requests keeps every line of every stream, in order,
    once; every request stays within the limit on its estimated wire size unless a
    single entry alone exceeds it, and carries no empty stream. *)
Theorem log_batches_exact (streams : list StreamData) (limit : Z) :
  (BatchStreams streams limit ≫= log_flat) = log_flat streams /\ (0 < limit -> Forall (log_batch_ok limit) (BatchStreams streams limit)).
Proof. split; [apply BatchStreams_flat|apply BatchStreams_ok]. Qed.

Definition demo_stream_labels : Labels := build {["app" := "api"]}.
Definition demo_batch_streams : list StreamData :=
  [mkSD demo_stream_labels [mkLE 1 5 "aa"; mkLE 1 6 "bb"; mkLE 1 7 "cc"]; mkSD (build {["app" := "db"]}) [mkLE 2 5 "x"]].
Lemma log_batches_exact_witness : Forall (log_batch_ok 100) (BatchStreams demo_batch_streams 100) /\ length (BatchStreams demo_batch_streams 100) = 3%nat.
Proof. split; [exact (proj2 (log_batches_exact demo_batch_streams 100) ltac:(lia))|vm_compute; reflexivity]. Defined.
