(* ===== verification/LogStore.v ===== *)
(** * LogStore: the persisted half of the log store

    [internal/logs/chunkstore.go] and [splitIntoChunks] of [diskstore.go]: entries
    cut into chunks, chunk files and the index written by [IngestStreams], reads
    that decode the chunks, retention, start-up and export. What the disk does to
    each write is an argument. *)
From stdpp Require Import strings.
From S2P Require Import Prelude GoLib GoSort Labels Postings Source WalCodec SegName HeadWal Limits GoCodec LogChunk LogStream LogFile LogIndex LogBatch.

(** ** Cutting entries into chunks *)

Definition maxEntryEncodingOverhead : Z := 2 * Z.of_nat MaxVarintLen64.
Fixpoint split_go (maxUncompressed : Z) (cur : lc_Chunk) (entries : list LogEntry) : list lc_Chunk :=
  match entries with
  | [] => if 0 <? NumEntries cur then [cur] else []
  | e :: entries =>
      let entryMax := str_len (le_line e) + maxEntryEncodingOverhead in
      if ((0 <? NumEntries cur) && (maxUncompressed <? lc_uncompressed cur + entryMax))%bool
      then cur :: split_go maxUncompressed (lc_Append lc_NewChunk (le_ts e) (le_line e)) entries
      else split_go maxUncompressed (lc_Append cur (le_ts e) (le_line e)) entries
  end.
Definition splitIntoChunks (entries : list LogEntry) (maxUncompressed : Z) : list lc_Chunk := split_go maxUncompressed lc_NewChunk entries.

(** ** State *)

(** The directories: chunk files, the manifest, expired files not yet removed. *)
Record logdir := mkDir { dir_chunks : gmap string (list Z); dir_manifest : option (list Z); dir_tmp : gmap string (list Z) }.
Record ChunkStore := mkCS { cs_index : streamIndex; cs_dir : logdir }.

Inductive storeErr := LsWriteChunk | LsManifest | LsRename (name : string) | LsRemove (name : string) | LsRebuild (e : cfErr) | LsRead (e : logErr) | LsCallback.
(** A chunk write: made durable under these random bytes; failed, perhaps after the
    rename (then the file is there, unreferenced). *)
Inductive write_outcome := WriteOk (rnd : list Z) | WriteFailed (renamed : option (list Z)).
(** The manifest: replaced, or not, possibly with an error after the rename. *)
Inductive manifest_outcome := ManifestOk | ManifestFailed (replaced : bool).

Section store.
Context `{MO : MapOrder} `{F : Flate}.

Definition put_chunk (d : logdir) (name : string) (data : list Z) : logdir := mkDir (<[name := data]> (dir_chunks d)) (dir_manifest d) (dir_tmp d).
Definition put_manifest (d : logdir) (data : list Z) : logdir := mkDir (dir_chunks d) (Some data) (dir_tmp d).

Definition store_manifest (cs : ChunkStore) (out : manifest_outcome) : result storeErr unit * ChunkStore :=
  let replaced := mkCS (cs_index cs) (put_manifest (cs_dir cs) (writeManifest (cs_index cs))) in
  match out with
  | ManifestOk => (Ok tt, replaced)
  | ManifestFailed r => (Err LsManifest, if r then replaced else cs)
  end.

(** ** Ingest *)

(** The chunks of one stream, [outs] saying what each write in the call does; the
    outcomes left, and whether to go on. *)
Fixpoint ingest_chunks (id : Z) (l : Labels) (chs : list lc_Chunk) (outs : nat -> write_outcome) (n : nat) (cs : ChunkStore) : result storeErr nat * ChunkStore :=
  match chs with
  | [] => (Ok n, cs)
  | ch :: chs =>
      match outs n with
      | WriteFailed renamed =>
          (Err LsWriteChunk, match renamed with
           | Some rnd => let '(ref, data) := writeChunkFile id l ch rnd in mkCS (cs_index cs) (put_chunk (cs_dir cs) (cr_Name ref) data)
           | None => cs
           end)
      | WriteOk rnd =>
          let '(ref, data) := writeChunkFile id l ch rnd in
          ingest_chunks id l chs outs (S n) (mkCS (index_add (cs_index cs) id l ref) (put_chunk (cs_dir cs) (cr_Name ref) data))
      end
  end.
Fixpoint ingest_streams (streams : list StreamData) (outs : nat -> write_outcome) (n : nat) (cs : ChunkStore) : result storeErr nat * ChunkStore :=
  match streams with
  | [] => (Ok n, cs)
  | sd :: streams =>
      match ingest_chunks (sid sd) (st_labels sd) (splitIntoChunks (st_entries sd) MaxUncompressedBytes) outs n cs with
      | (Err e, cs) => (Err e, cs)
      | (Ok n, cs) => ingest_streams streams outs n cs
      end
  end.
Definition IngestStreams (streams : list StreamData) (outs : nat -> write_outcome) (mout : manifest_outcome) (cs : ChunkStore) : result storeErr unit * ChunkStore :=
  match ingest_streams streams outs 0 cs with
  | (Err e, cs) => (Err e, cs)
  | (Ok _, cs) => store_manifest cs mout
  end.

(** ** Reads *)

Definition to_entry (id : Z) (e : lc_entry) : LogEntry := mkLE id (lce_ts e) (lce_line e).
(** The loop over the references: a missing file is skipped, [seen] goes from chunk
    to chunk. *)
Fixpoint read_refs (files : gmap string (list Z)) (id minTs maxTs : Z) (seen : gset (Z * string)) (refs : list ChunkRef) : result logErr (list LogEntry) :=
  match refs with
  | [] => Ok []
  | ref :: refs =>
      match files !! cr_Name ref with
      | None => read_refs files id minTs maxTs seen refs
      | Some data =>
          match readChunkFile data with
          | Err _ => Err (LogErrChunk (cr_Name ref))
          | Ok (gotID, _, ch) =>
              if negb (gotID =? id) then Err (LogErrForeign (cr_Name ref) gotID id) else
              let kept := keep_new minTs maxTs seen (to_entry id <$> lc_entries ch) in
              out ← read_refs files id minTs maxTs (seen ∪ keys_of kept) refs;
              Ok (kept ++ out)
          end
      end
  end.
Definition cs_StreamEntries (cs : ChunkStore) (id minTs maxTs : Z) : result logErr (list LogEntry) :=
  out ← read_refs (dir_chunks (cs_dir cs)) id minTs maxTs ∅ (chunkRefs (cs_index cs) id minTs maxTs);
  Ok (sort_by le_ts out).
Definition cs_MatchingStreamIDs (cs : ChunkStore) (ms : list Pair) : list Z := sort_by id (index_matching (cs_index cs) ms).
Definition cs_StreamLabelSet (cs : ChunkStore) (id : Z) : option Labels := x_labels (cs_index cs) !! id.
Definition cs_reader (cs : ChunkStore) : Reader := mkReader
  (cs_MatchingStreamIDs cs) (cs_StreamEntries cs) (cs_StreamLabelSet cs)
  (idx_LabelNames (x_postings (cs_index cs))) (idx_LabelValues (x_postings (cs_index cs))).
Definition cs_streamIDs (cs : ChunkStore) : gset Z := dom (x_labels (cs_index cs)).

(** [Stats]: streams, chunk files, chunk bytes. *)
Definition fileStats (cs : ChunkStore) : Z * Z :=
  fold_left (fun acc (e : string * list Z) => if HasSuffix e.1 chunk_ext then (acc.1 + 1, i64 (acc.2 + Z.of_nat (length e.2))) else acc)
    (map_to_list (dir_chunks (cs_dir cs))) (0, 0).
Definition cs_Stats (cs : ChunkStore) : Z * Z * Z := (Z.of_nat (size (cs_streamIDs cs)), (fileStats cs).1, (fileStats cs).2).

(** [ExportStreams]: every persisted stream, whole, in batches; [fn] is the callback,
    which may refuse a batch. *)
Fixpoint export_all (cs : ChunkStore) (ids : list Z) : result logErr (list StreamData) :=
  match ids with
  | [] => Ok []
  | id :: ids =>
      match cs_StreamLabelSet cs id with
      | None => export_all cs ids
      | Some l =>
          entries ← cs_StreamEntries cs id MinInt64 MaxInt64;
          all ← export_all cs ids;
          Ok (match entries with [] => all | _ => mkSD l entries :: all end)
      end
  end.
Fixpoint export_batches (fn : list StreamData -> bool) (batches : list (list StreamData)) : list (list StreamData) * bool :=
  match batches with
  | [] => ([], true)
  | b :: batches => if fn b then let '(sent, ok) := export_batches fn batches in (b :: sent, ok) else ([b], false)
  end.
(** The batches handed to [fn], and the number of streams or an error. *)
Definition ExportStreams (cs : ChunkStore) (batchBytes : Z) (fn : list StreamData -> bool) : list (list StreamData) * result storeErr Z :=
  match export_all cs (sort_by id (elements (cs_streamIDs cs))) with
  | Err e => ([], Err (LsRead e))
  | Ok all =>
      let '(sent, ok) := export_batches fn (BatchStreams all batchBytes) in
      (sent, if ok then Ok (Z.of_nat (length all)) else Err LsCallback)
  end.

(** ** Retention *)

(** [now] as seconds and nanoseconds; [time.UnixNano] is their 64-bit combination. *)
Definition nanos_per_second : Z := 1000000000.
Definition retentionCutoffNs (sec nsec ret : Z) : Z :=
  let maxSec := MaxInt64 / nanos_per_second - 1 in
  let nowNs := if maxSec <? sec then MaxInt64 else if sec <? - maxSec then MinInt64 else i64 (sec * nanos_per_second + nsec) in
  if nowNs <? i64 (MinInt64 + ret) then MinInt64 else i64 (nowNs - ret).

(** What the pass leaves: the index, the files, the names moved out, the count, and
    the name at which a rename failed. [fails] says which renames fail. *)
Record ret_state := mkRet { rt_cs : ChunkStore; rt_moved : list string; rt_dropped : Z; rt_err : option string }.
Definition move_chunk (d : logdir) (name : string) : logdir :=
  match dir_chunks d !! name with
  | Some data => mkDir (delete name (dir_chunks d)) (dir_manifest d) (<[name := data]> (dir_tmp d))
  | None => d
  end.
Fixpoint expire_refs (fails : string -> bool) (id cutoff : Z) (refs : list ChunkRef) (st : ret_state) : ret_state :=
  match refs with
  | [] => st
  | ref :: refs =>
      if cutoff <=? cr_MaxTs ref then expire_refs fails id cutoff refs st else
      let cs := rt_cs st in
      let there := bool_decide (is_Some (dir_chunks (cs_dir cs) !! cr_Name ref)) in
      if (there && fails (cr_Name ref))%bool then mkRet cs (rt_moved st) (rt_dropped st) (Some (cr_Name ref)) else
      expire_refs fails id cutoff refs
        (mkRet (mkCS (removeRef (cs_index cs) id (cr_Name ref)) (move_chunk (cs_dir cs) (cr_Name ref)))
           (if there then rt_moved st ++ [cr_Name ref] else rt_moved st) (rt_dropped st + 1) None)
  end.
Definition expire_stream (fails : string -> bool) (sec nsec : Z) (policy : RetentionPolicy) (st : ret_state) (id : Z) : ret_state :=
  match rt_err st with
  | Some _ => st
  | None =>
      let ret := For policy (TenantOf (default (mkLabels [] 0) (x_labels (cs_index (rt_cs st)) !! id))) in
      if ret <=? 0 then st else expire_refs fails id (retentionCutoffNs sec nsec ret) (refs_of (cs_index (rt_cs st)) id) st
  end.
Definition expire_all (fails : string -> bool) (sec nsec : Z) (policy : RetentionPolicy) (cs : ChunkStore) : ret_state :=
  fold_left (expire_stream fails sec nsec policy) (sorted_ids (cs_index cs)) (mkRet cs [] 0 None).
(** The removals outside the lock; [rm] says which fail. *)
Definition remove_moved (rm : string -> bool) (moved : list string) (d : logdir) : logdir :=
  mkDir (dir_chunks d) (dir_manifest d) (fold_left (fun t n => if rm n then t else delete n t) moved (dir_tmp d)).
Definition ApplyRetention (fails : string -> bool) (mout : manifest_outcome) (rm : string -> bool) (sec nsec : Z) (policy : RetentionPolicy) (cs : ChunkStore)
  : Z * option storeErr * ChunkStore :=
  let st := expire_all fails sec nsec policy cs in
  let err0 := LsRename <$> rt_err st in
  let '(err1, cs1) :=
    if 0 <? rt_dropped st then
      let '(res, cs1) := store_manifest (rt_cs st) mout in
      (match err0, res with Some e, _ => Some e | None, Err e => Some e | None, Ok _ => None end, cs1)
    else (err0, rt_cs st) in
  let err2 := match err1 with Some e => Some e | None => LsRemove <$> List.find rm (rt_moved st) end in
  (rt_dropped st, err2, mkCS (cs_index cs1) (remove_moved rm (rt_moved st) (cs_dir cs1))).

(** ** Start-up *)

(** [OpenChunkStore]: sweep, load, or rebuild and write the manifest. [mout] is for
    that write. *)
Definition OpenChunkStore (d : logdir) (mout : manifest_outcome) : result storeErr ChunkStore * logdir :=
  let d := mkDir (dir_chunks d) (dir_manifest d) ∅ in
  match (match dir_manifest d with Some m => match loadManifest m with Ok x => Some x | Err _ => None end | None => None end) with
  | Some x => (Ok (mkCS x d), d)
  | None =>
      match rebuildFromScan (dir_chunks d) with
      | Err e => (Err (LsRebuild e), d)
      | Ok x =>
          match store_manifest (mkCS x d) mout with
          | (Ok _, cs) => (Ok cs, cs_dir cs)
          | (Err e, cs) => (Err e, cs_dir cs)
          end
      end
  end.


(** ** Cutting keeps every entry, and keeps every chunk decodable *)

Definition to_lc (e : LogEntry) : lc_entry := mkLcEntry (le_ts e) (le_line e).
Lemma put_uvarint_le f x : (length (put_uvarint_go f x) <= f)%nat.
Proof. revert x. induction f as [|f IH]; intros x; cbn [put_uvarint_go]; [done|]. destruct (x <? 128); [cbn; lia|]. cbn [length]. specialize (IH (Z.shiftr x 7)). lia. Qed.
Lemma lc_snoc_size es e : encoded_size (es ++ [e]) <= encoded_size es + (str_len (lce_line e) + maxEntryEncodingOverhead).
Proof.
  unfold encoded_size. rewrite lc_of_snoc. unfold lc_add, lc_Append. destruct (match lc_entries (lc_of es) with [] => _ | _ => _ end) as [[d mn] mx]. cbn [lc_uncompressed].
  unfold signedVarintLen, uvarintLen, PutVarint, PutUvarint, maxEntryEncodingOverhead. pose proof (put_uvarint_le MaxVarintLen64 (if d <? 0 then u64 (Z.lnot (u64 (Z.shiftl (u64 d) 1))) else u64 (Z.shiftl (u64 d) 1))).
  pose proof (put_uvarint_le MaxVarintLen64 (str_len (lce_line e))). lia.
Qed.
Lemma NumEntries_of es : NumEntries (lc_of es) = Z.of_nat (length es).
Proof. unfold NumEntries. by rewrite lc_of_entries. Qed.

Lemma split_go_spec maxu cur es : 
  exists pieces, split_go maxu (lc_of cur) es = lc_of <$> pieces /\ concat pieces = cur ++ (to_lc <$> es) /\ Forall (fun p => p <> []) pieces /\
    (encoded_size cur <= maxu -> Forall (fun e => str_len (le_line e) + maxEntryEncodingOverhead <= maxu) es -> Forall (fun p => encoded_size p <= maxu) pieces).
Proof.
  revert cur. induction es as [|e es IH]; intros cur; cbn [split_go].
  - rewrite NumEntries_of. destruct cur as [|x cur]; cbn [length]; [exists []; split_and!; try done; constructor|].
    destruct (Z.ltb_spec 0 (Z.of_nat (S (length cur)))); [|lia]. exists [x :: cur]. split_and!; [done|done|by apply Forall_singleton|]. intros. by apply Forall_singleton.
  - assert (Ha : forall c, lc_Append (lc_of c) (le_ts e) (le_line e) = lc_of (c ++ [to_lc e])) by (intros c; by rewrite lc_of_snoc).
    change lc_NewChunk with (lc_of []). rewrite !Ha, NumEntries_of. destruct (Z.ltb_spec 0 (Z.of_nat (length cur))) as [Hn|Hn]; cbn [andb].
    + destruct (Z.ltb_spec maxu (lc_uncompressed (lc_of cur) + (str_len (le_line e) + maxEntryEncodingOverhead))) as [Hm|Hm].
      * destruct (IH ([] ++ [to_lc e])) as (ps & E & Hc & Hne & Hsz). exists (cur :: ps). rewrite E. split_and!; [done|change (concat (cur :: ps)) with (cur ++ concat ps); rewrite Hc; reflexivity|constructor; [intros E0; rewrite E0 in Hn; cbn in Hn; lia|done]|].
        intros Hcur HF. apply Forall_cons in HF as [He HF]. constructor; [done|]. apply Hsz; [|done]. pose proof (lc_snoc_size [] (to_lc e)) as Hs. cbn [app] in *. change (encoded_size []) with 0 in Hs. cbn [to_lc lce_line] in Hs. lia.
      * destruct (IH (cur ++ [to_lc e])) as (ps & E & Hc & Hne & Hsz). exists ps. split_and!; [done|rewrite Hc; by rewrite <- app_assoc|done|]. intros Hcur HF. apply Forall_cons in HF as [He HF]. apply Hsz; [|done].
        pose proof (lc_snoc_size cur (to_lc e)) as Hs. cbn [to_lc lce_line] in Hs. unfold encoded_size in *. lia.
    + destruct cur; [|cbn in Hn; lia]. destruct (IH ([] ++ [to_lc e])) as (ps & E & Hc & Hne & Hsz). exists ps. split_and!; [done|rewrite Hc; reflexivity|done|]. intros Hcur HF. apply Forall_cons in HF as [He HF]. apply Hsz; [|done].
      pose proof (lc_snoc_size [] (to_lc e)) as Hs. change (encoded_size []) with 0 in Hs. cbn [to_lc lce_line] in Hs. cbn [app] in *. lia.
Qed.
Lemma splitIntoChunks_spec es maxu : Forall (fun e => str_len (le_line e) + maxEntryEncodingOverhead <= maxu) es ->
  exists pieces, splitIntoChunks es maxu = lc_of <$> pieces /\ concat pieces = to_lc <$> es /\ Forall (fun p => p <> [] /\ encoded_size p <= maxu) pieces.
Proof.
  intros HF. destruct (split_go_spec maxu [] es) as (ps & E & Hc & Hne & Hsz). exists ps. split_and!; [done|done|]. apply Forall_and. split; [done|].
  destruct es as [|e es]; [cbn [split_go] in E; change (0 <? NumEntries (lc_of [])) with false in E; destruct ps; [constructor|done]|]. apply Hsz; [|done]. apply Forall_cons in HF as [He _].
  change (encoded_size []) with 0. unfold maxEntryEncodingOverhead, str_len in He. lia.
Qed.

Lemma split_fits es : Forall line_fits es -> exists pieces, splitIntoChunks es MaxUncompressedBytes = lc_of <$> pieces /\ concat pieces = to_lc <$> es /\ Forall (fun p => p <> [] /\ LogChunk.fits p) pieces.
Proof.
  intros HF. destruct (splitIntoChunks_spec es MaxUncompressedBytes) as (ps & E & Hc & Hps).
  { eapply Forall_impl; [exact HF|]. intros e [_ He]. unfold MaxLineBytes, maxEntryEncodingOverhead, MaxVarintLen64, MaxUncompressedBytes in *. change (Z.shiftl 128 20) with (2 ^ 27). lia. }
  exists ps. split_and!; [done|done|]. assert (Ht : Forall (fun e => in_i64 (lce_ts e)) (concat ps)) by (rewrite Hc; apply Forall_fmap; eapply Forall_impl; [exact HF|]; by intros e [? _]).
  apply Forall_concat in Ht. rewrite Forall_forall in *. intros p Hp. destruct (Hps p Hp) as [? ?]. split; [done|]. split; [|done]. by apply Ht.
Qed.

(** ** What the store holds *)

Abbreviation raw_list := (list LogEntry).
Definition chunk_raw (files : gmap string (list Z)) (id : Z) (ref : ChunkRef) : raw_list :=
  match files !! cr_Name ref with
  | Some data => match readChunkFile data with Ok (_, _, c) => to_entry id <$> lc_entries c | Err _ => [] end
  | None => []
  end.
Definition raw_of (files : gmap string (list Z)) (x : streamIndex) (id : Z) : raw_list := refs_of x id ≫= chunk_raw files id.
Definition raw_at (cs : ChunkStore) (id : Z) : raw_list := raw_of (dir_chunks (cs_dir cs)) (cs_index cs) id.
(** A reference's file, if it is there, is that stream's chunk, with those bounds. *)
Definition ref_good (files : gmap string (list Z)) (id : Z) (ref : ChunkRef) : Prop := forall data, files !! cr_Name ref = Some data ->
  exists l es, readChunkFile data = Ok (id, l, lc_of es) /\ LogChunk.fits es /\ cr_MinTs ref = lc_minTs (lc_of es) /\ cr_MaxTs ref = lc_maxTs (lc_of es).
Definition refs_good (files : gmap string (list Z)) (x : streamIndex) : Prop := forall id ref, ref ∈ refs_of x id -> ref_good files id ref.
(** No two references share a file. *)
Definition names_distinct (x : streamIndex) : Prop :=
  (forall i, NoDup (cr_Name <$> refs_of x i)) /\ forall i j r s, r ∈ refs_of x i -> s ∈ refs_of x j -> cr_Name r = cr_Name s -> i = j.
Record cs_inv (cs : ChunkStore) : Prop := {
  ci_idx : idx_wf (cs_index cs);
  ci_refs : refs_good (dir_chunks (cs_dir cs)) (cs_index cs);
  ci_names : names_distinct (cs_index cs) }.

Lemma chunk_raw_good files id ref data l es : files !! cr_Name ref = Some data -> readChunkFile data = Ok (id, l, lc_of es) -> chunk_raw files id ref = to_entry id <$> es.
Proof. intros H1 H2. unfold chunk_raw. by rewrite H1, H2, lc_of_entries. Qed.
Lemma read_refs_raw files id lo hi refs seen : (forall ref, ref ∈ refs -> ref_good files id ref) ->
  read_refs files id lo hi seen refs = Ok (keep_new lo hi seen (refs ≫= chunk_raw files id)).
Proof.
  revert seen. induction refs as [|ref refs IH]; intros seen Hg; [done|]. cbn [read_refs]. rewrite bind_cons. assert (Hg' : forall r, r ∈ refs -> ref_good files id r) by (intros; apply Hg; by right).
  destruct (files !! cr_Name ref) as [data|] eqn:Ef.
  - destruct (Hg ref ltac:(by left) data Ef) as (l & es & Hr & _). rewrite (chunk_raw_good _ _ _ _ _ _ Ef Hr), Hr, Z.eqb_refl. cbn [negb]. rewrite lc_of_entries, IH, bind_Ok by done. by rewrite keep_app.
  - rewrite IH by done. unfold chunk_raw at 2. by rewrite Ef.
Qed.
Lemma keep_none lo hi seen es : Forall (fun e => in_window lo hi e = false) es -> keep_new lo hi seen es = [].
Proof. induction 1 as [|e es He HF IH]; [done|]. cbn [keep_new]. by rewrite He. Qed.
Lemma keep_overlapping files id lo hi refs seen : (forall ref, ref ∈ refs -> ref_good files id ref) ->
  keep_new lo hi seen (filter (fun r => overlaps lo hi r = true) refs ≫= chunk_raw files id) = keep_new lo hi seen (refs ≫= chunk_raw files id).
Proof.
  revert seen. induction refs as [|ref refs IH]; intros seen Hg; [done|]. assert (Hg' : forall r, r ∈ refs -> ref_good files id r) by (intros; apply Hg; by right).
  rewrite filter_cons, bind_cons, keep_app. destruct (decide (overlaps lo hi ref = true)) as [Ho|Ho]; [rewrite bind_cons, keep_app; by rewrite IH|].
  assert (keep_new lo hi seen (chunk_raw files id ref) = []) as ->; [|cbn [app]; unfold keys_of at 1; cbn; rewrite union_empty_r_L; by apply IH].
  apply keep_none. unfold chunk_raw. destruct (files !! cr_Name ref) as [data|] eqn:Ef; [|constructor]. destruct (Hg ref ltac:(by left) data Ef) as (l & es & Hr & _ & Hmn & Hmx). rewrite Hr, lc_of_entries. apply Forall_fmap, Forall_forall. intros e He. cbn.
  pose proof (rep_bounds _ _ (lc_of_rep es)) as Hb. destruct es as [|e0 es]; [by apply elem_of_nil in He|]. cbn [bounds_of] in Hb. destruct Hb as (HF & _). rewrite Forall_forall in HF. specialize (HF e He). rewrite <- Hmn, <- Hmx in HF.
  unfold overlaps in Ho. unfold in_window. cbn [to_entry le_ts]. apply not_true_iff_false, andb_false_iff in Ho. apply negb_false_iff, orb_true_iff. rewrite !Z.leb_gt in Ho. rewrite !Z.ltb_lt. lia.
Qed.
Lemma StreamEntries_view cs id lo hi : cs_inv cs -> cs_StreamEntries cs id lo hi = Ok (view lo hi (raw_at cs id)).
Proof.
  intros [Hx Hg _]. unfold cs_StreamEntries, chunkRefs. rewrite read_refs_raw by (intros r [_ Hr]%list_elem_of_filter; by apply Hg). rewrite bind_Ok, keep_overlapping by (by apply Hg). done.
Qed.

(** The store's database, and its contract as a reader. *)
Definition cs_db (cs : ChunkStore) : log_db := fun l =>
  match x_labels (cs_index cs) !! StreamIDOf l with Some l' => if decide (l' = l) then Some (raw_at cs (StreamIDOf l)) else None | None => None end.
Lemma cs_db_some cs l raw : cs_db cs l = Some raw <-> x_labels (cs_index cs) !! StreamIDOf l = Some l /\ raw = raw_at cs (StreamIDOf l).
Proof.
  unfold cs_db. destruct (x_labels (cs_index cs) !! StreamIDOf l) as [l'|] eqn:E; [|naive_solver]. destruct (decide (l' = l)) as [->|Hne]; [naive_solver|]. split; [done|]. intros [[= ->] _]. done.
Qed.
Lemma cs_db_known cs l : is_Some (cs_db cs l) <-> x_labels (cs_index cs) !! StreamIDOf l = Some l.
Proof. split; [intros [raw [H _]%cs_db_some]; done|]. intros H. exists (raw_at cs (StreamIDOf l)). by apply cs_db_some. Qed.
Lemma pairs_match l ms : labels_wf l -> Forall (fun m => m ∈ labelPairsOf l) ms <-> log_matches ms l.
Proof. intros Hl. unfold log_matches. rewrite !Forall_forall. setoid_rewrite elem_of_labelPairs. setoid_rewrite Get_Map; [done|done..]. Qed.

#[export] Instance cs_reader_implements cs : cs_inv cs -> ReaderImplements (cs_reader cs) (cs_db cs).
Proof.
  intros Hc. pose proof Hc as [Hx Hg _]. assert (Hlab : forall id l, x_labels (cs_index cs) !! id = Some l -> labels_wf l /\ StreamIDOf l = id) by (intros id l [H1 H2]%(iw_labels _ Hx); split; [by apply stored_labels_spec|done]).
  split; cbn [cs_reader rd_MatchingStreamIDs rd_StreamEntries rd_StreamLabelSet rd_LabelNames rd_LabelValues].
  - intros ms. destruct (Select_rep (x_postings (cs_index cs)) _ ms (iw_rep _ Hx)) as [Hs Hin]. unfold cs_MatchingStreamIDs, index_matching. split.
    + rewrite sort_by_id; [done|]. eapply StronglySorted_impl; [|exact Hs]. unfold key_le, id. lia.
    + intros i. rewrite sort_by_perm, Hin. split.
      * intros (ls & Hls & HF). rewrite lookup_fmap in Hls. destruct (x_labels (cs_index cs) !! i) as [l|] eqn:El; [|done]. injection Hls as <-. destruct (Hlab i l El) as [Hwf <-]. exists l. split; [done|]. split; [by apply cs_db_known|]. by apply pairs_match.
      * intros (l & <- & Hdb%cs_db_known & Hm). exists (labelPairsOf l). rewrite lookup_fmap, Hdb. split; [done|]. apply pairs_match; [|done]. by apply Hlab in Hdb as [? _].
  - intros id l. unfold cs_StreamLabelSet. split.
    + intros El. destruct (Hlab id l El) as [_ <-]. split; [done|]. by apply cs_db_known.
    + intros [<- H%cs_db_known]. done.
  - intros l raw lo hi [_ ->]%cs_db_some. by apply StreamEntries_view.
  - destruct (LabelNames_rep (x_postings (cs_index cs)) _ (iw_rep _ Hx)) as [Hs Hin]. split; [done|]. intros n. rewrite Hin. split.
    + intros (i & ls & v & Hls & Hp). rewrite lookup_fmap in Hls. destruct (x_labels (cs_index cs) !! i) as [l|] eqn:El; [|done]. injection Hls as <-. destruct (Hlab i l El) as [Hwf <-]. exists l. split; [by apply cs_db_known|].
      apply elem_of_labelPairs in Hp. rewrite Get_Map by done. by eexists.
    + intros (l & Hdb%cs_db_known & [v Hv]). exists (StreamIDOf l), (labelPairsOf l), v. rewrite lookup_fmap, Hdb. split; [done|]. apply elem_of_labelPairs. destruct (Hlab _ _ Hdb) as [Hwf _]. by rewrite Get_Map in Hv.
  - intros name. destruct (LabelValues_rep (x_postings (cs_index cs)) _ name (iw_rep _ Hx)) as [Hs Hin]. split; [done|]. intros v. rewrite Hin. split.
    + intros (i & ls & Hls & Hp). rewrite lookup_fmap in Hls. destruct (x_labels (cs_index cs) !! i) as [l|] eqn:El; [|done]. injection Hls as <-. destruct (Hlab i l El) as [Hwf <-]. exists l. split; [by apply cs_db_known|].
      apply elem_of_labelPairs in Hp. by rewrite Get_Map.
    + intros (l & Hdb%cs_db_known & Hv). exists (StreamIDOf l), (labelPairsOf l). rewrite lookup_fmap, Hdb. split; [done|]. apply elem_of_labelPairs. destruct (Hlab _ _ Hdb) as [Hwf _]. by rewrite Get_Map in Hv.
Qed.

(** ** Ingest *)

Context (FL : FlateLaws F).

(** The references of the manifest on disk. *)
Definition manifest_ref (cs : ChunkStore) (name : string) : Prop :=
  exists m x i r, dir_manifest (cs_dir cs) = Some m /\ loadManifest m = Ok x /\ r ∈ refs_of x i /\ cr_Name r = name.
(** The name of a chunk write, not in use: no file of that name, no reference to it
    in memory or in the manifest. *)
Definition fresh_name (cs : ChunkStore) (name : string) : Prop :=
  dir_chunks (cs_dir cs) !! name = None /\ (forall i r, r ∈ refs_of (cs_index cs) i -> cr_Name r <> name) /\ ~ manifest_ref cs name.
Definition add_chunk_file (cs : ChunkStore) (id : Z) (l : Labels) (ch : lc_Chunk) (rnd : list Z) : ChunkStore :=
  let '(ref, data) := writeChunkFile id l ch rnd in mkCS (index_add (cs_index cs) id l ref) (put_chunk (cs_dir cs) (cr_Name ref) data).
Fixpoint fresh_chunks (id : Z) (l : Labels) (chs : list lc_Chunk) (outs : nat -> write_outcome) (n : nat) (cs : ChunkStore) : Prop :=
  match chs with
  | [] => True
  | ch :: chs =>
      match outs n with
      | WriteFailed None => True
      | WriteFailed (Some rnd) => fresh_name cs (chunkFileName id (lc_minTs ch) rnd)
      | WriteOk rnd => fresh_name cs (chunkFileName id (lc_minTs ch) rnd) /\ fresh_chunks id l chs outs (S n) (add_chunk_file cs id l ch rnd)
      end
  end.
Fixpoint fresh_streams (streams : list StreamData) (outs : nat -> write_outcome) (n : nat) (cs : ChunkStore) : Prop :=
  match streams with
  | [] => True
  | sd :: streams =>
      let chs := splitIntoChunks (st_entries sd) MaxUncompressedBytes in
      fresh_chunks (sid sd) (st_labels sd) chs outs n cs /\
      match ingest_chunks (sid sd) (st_labels sd) chs outs n cs with
      | (Ok n, cs) => fresh_streams streams outs n cs
      | (Err _, _) => True
      end
  end.

(** What any part of an ingest may do to the store: add files and references, and
    leave the manifest alone. [adds] are the entries that became readable. *)
Record grows (cs cs' : ChunkStore) (adds : list LogEntry) : Prop := {
  gr_inv : cs_inv cs';
  gr_raw : forall i, raw_at cs' i = raw_at cs i ++ filter (fun e => le_id e = i) adds;
  gr_files : dir_chunks (cs_dir cs) ⊆ dir_chunks (cs_dir cs');
  gr_refs : forall i r, r ∈ refs_of (cs_index cs) i -> r ∈ refs_of (cs_index cs') i;
  gr_labels : x_labels (cs_index cs) ⊆ x_labels (cs_index cs');
  gr_known : forall e, e ∈ adds -> is_Some (x_labels (cs_index cs') !! le_id e);
  gr_stale : forall n, manifest_ref cs n -> dir_chunks (cs_dir cs) !! n = None -> dir_chunks (cs_dir cs') !! n = None;
  gr_manifest : dir_manifest (cs_dir cs') = dir_manifest (cs_dir cs) }.
Lemma grows_refl cs : cs_inv cs -> grows cs cs [].
Proof. intros H. split; try done; [intros i; by rewrite filter_nil, app_nil_r|by intros e ?%elem_of_nil]. Qed.
Lemma grows_trans c1 c2 c3 a b : grows c1 c2 a -> grows c2 c3 b -> grows c1 c3 (a ++ b).
Proof.
  intros [I1 R1 F1 S1 L1 K1 T1 M1] [I2 R2 F2 S2 L2 K2 T2 M2]. split; [done|..].
  - intros i. by rewrite R2, R1, filter_app, app_assoc.
  - by etrans.
  - auto.
  - by etrans.
  - intros e [H|H]%elem_of_app; [|auto]. destruct (K1 e H) as [l Hl]. exists l. by eapply lookup_weaken.
  - intros n Hn Hf. apply T2; [|by apply T1]. unfold manifest_ref in *. by rewrite M1.
  - by rewrite M2.
Qed.

(** Files that appear under unused names change no read. *)
Lemma chunk_raw_insert files id name data ref : cr_Name ref <> name -> chunk_raw (<[name := data]> files) id ref = chunk_raw files id ref.
Proof. intros H. unfold chunk_raw. by rewrite lookup_insert_ne. Qed.
Lemma raw_of_ext files files' x id : (forall r, r ∈ refs_of x id -> files' !! cr_Name r = files !! cr_Name r) -> raw_of files' x id = raw_of files x id.
Proof.
  unfold raw_of. generalize (refs_of x id). induction l as [|r l IH]; intros H; [done|]. rewrite !bind_cons, IH by (intros; apply H; by right). f_equal. unfold chunk_raw. by rewrite H by (by left).
Qed.
Lemma put_chunk_grows cs name data : cs_inv cs -> fresh_name cs name -> grows cs (mkCS (cs_index cs) (put_chunk (cs_dir cs) name data)) [].
Proof.
  intros [Hx Hg Hn] (Hf & Hr & Hm). assert (Hrest : forall i r, r ∈ refs_of (cs_index cs) i -> <[name := data]> (dir_chunks (cs_dir cs)) !! cr_Name r = dir_chunks (cs_dir cs) !! cr_Name r) by (intros i r Hin; apply lookup_insert_ne; intros E; by apply (Hr i r Hin)).
  split; cbn [cs_index cs_dir put_chunk dir_chunks dir_manifest]; try done; [split; cbn [cs_index cs_dir dir_chunks]; [done| |done]| |by apply insert_subseteq|by intros e ?%elem_of_nil|].
  - intros i r Hin d Hd. change (<[name := data]> (dir_chunks (cs_dir cs)) !! cr_Name r = Some d) in Hd. rewrite (Hrest i r Hin) in Hd. by apply (Hg i r).
  - intros i. rewrite filter_nil, app_nil_r. apply raw_of_ext. by apply Hrest.
  - intros n Hn' E. rewrite lookup_insert_ne; [done|]. by intros <-.
Qed.
Lemma refs_of_add x id l ref i : idx_wf x -> refs_of (index_add x id l ref) i = if decide (i = id) then refs_of x id ++ [ref] else refs_of x i.
Proof. intros Hx. destruct (index_add_lookup x id l ref Hx i) as [H _]. unfold refs_of at 1. rewrite H. by destruct (decide (i = id)). Qed.
Lemma filter_same_id id (es : list lc_entry) i : filter (fun e => le_id e = i) (to_entry id <$> es) = if decide (i = id) then to_entry id <$> es else [].
Proof.
  destruct (decide (i = id)) as [->|Hne]; [apply filter_all|apply filter_nothing]; apply Forall_fmap, Forall_forall; intros e _; cbn; congruence.
Qed.
Lemma add_chunk_grows cs id l es rnd : cs_inv cs -> stored_labels l -> StreamIDOf l = id -> LogChunk.fits es -> fresh_name cs (chunkFileName id (lc_minTs (lc_of es)) rnd) ->
  grows cs (add_chunk_file cs id l (lc_of es) rnd) (to_entry id <$> es).
Proof.
  intros Hc Hl <- Hf Hfr. set (id := StreamIDOf l). set (name := chunkFileName id (lc_minTs (lc_of es)) rnd) in *. set (ref := mkRef name (lc_minTs (lc_of es)) (lc_maxTs (lc_of es))). set (data := chunk_payload id l (lc_of es)).
  pose proof (put_chunk_grows cs name data Hc Hfr) as [[Hx Hg Hn] Hraw Hfiles _ _ _ Hst _]. cbn [cs_index cs_dir put_chunk dir_chunks] in *. set (files := <[name := data]> (dir_chunks (cs_dir cs))) in *.
  assert (Hread : readChunkFile data = Ok (id, l, lc_of es)) by (by apply (readChunkFile_payload FL)).
  assert (Hrefs : forall i, refs_of (index_add (cs_index cs) id l ref) i = if decide (i = id) then refs_of (cs_index cs) id ++ [ref] else refs_of (cs_index cs) i) by (intros; by apply refs_of_add).
  assert (Hwf : idx_wf (index_add (cs_index cs) id l ref)) by (by apply index_add_wf).
  assert (Hlook : files !! name = Some data) by apply lookup_insert_eq.
  assert (Hgood : ref_good files id ref) by (intros d Hd; cbn [ref cr_Name] in Hd; rewrite Hlook in Hd; injection Hd as <-; by exists l, es).
  assert (Hin : forall i r, r ∈ refs_of (index_add (cs_index cs) id l ref) i <-> r ∈ refs_of (cs_index cs) i \/ (i = id /\ r = ref)).
  { intros i r. rewrite Hrefs. destruct (decide (i = id)) as [->|]; [rewrite elem_of_app, list_elem_of_singleton; naive_solver|naive_solver]. }
  split; cbn [add_chunk_file writeChunkFile cs_index cs_dir put_chunk dir_chunks dir_manifest]; fold id name ref data files; try done.
  - split; cbn [cs_index cs_dir dir_chunks]; [done| |split].
    + intros i r [Hr|[-> ->]]%Hin; [by apply Hg|done].
    + intros i. rewrite Hrefs. destruct (decide (i = id)) as [->|]; [|apply Hn]. rewrite fmap_app. apply NoDup_app. split_and!; [apply Hn| |apply NoDup_singleton]. intros n (r & -> & Hr)%list_elem_of_fmap. cbn. rewrite list_elem_of_singleton. apply (proj1 (proj2 Hfr) id r Hr).
    + intros i j r s [Hr|[-> ->]]%Hin [Hs|[-> ->]]%Hin E; [by apply (proj2 Hn i j r s)|destruct (proj1 (proj2 Hfr) i r Hr); done|destruct (proj1 (proj2 Hfr) j s Hs); done|done].
  - intros i. unfold raw_at, raw_of. cbn [cs_index cs_dir dir_chunks]. rewrite Hrefs, filter_same_id. specialize (Hraw i). unfold raw_at, raw_of in Hraw. cbn [cs_index cs_dir put_chunk dir_chunks] in Hraw. fold files in Hraw. rewrite filter_nil, app_nil_r in Hraw.
    destruct (decide (i = id)) as [->|]; [|by rewrite app_nil_r]. rewrite bind_app. change (dir_chunks (put_chunk (cs_dir cs) (cr_Name ref) data)) with files. rewrite Hraw. f_equal. rewrite bind_cons, (chunk_raw_good files id ref data l es Hlook Hread). apply app_nil_r.
  - intros i r Hr. apply Hin. by left.
  - unfold index_add. destruct (x_labels (cs_index cs) !! id) eqn:E; cbn [x_labels]; [done|by apply insert_subseteq].
  - intros e (e' & -> & _)%list_elem_of_fmap. destruct (index_add_lookup (cs_index cs) id l ref Hx id) as [_ E]. rewrite decide_True in E by done. eexists. exact E.
Qed.

Lemma ingest_chunks_grows id l pieces outs n cs res cs' : cs_inv cs -> stored_labels l -> StreamIDOf l = id -> Forall LogChunk.fits pieces ->
  fresh_chunks id l (lc_of <$> pieces) outs n cs -> ingest_chunks id l (lc_of <$> pieces) outs n cs = (res, cs') ->
  exists k, grows cs cs' (to_entry id <$> concat (take k pieces)) /\ match res with Ok _ => (length pieces <= k)%nat | Err _ => True end.
Proof.
  intros Hc Hl Hid HF. revert n cs Hc. induction HF as [|p pieces Hp HF IH]; intros n cs Hc Hfr Hi; cbn [fmap list_fmap ingest_chunks fresh_chunks] in *.
  - injection Hi as <- <-. exists 0%nat. split; [by apply grows_refl|done].
  - destruct (outs n) as [rnd|[rnd|]].
    + destruct Hfr as [Hf Hfr]. pose proof (add_chunk_grows cs id l p rnd Hc Hl Hid Hp Hf) as Hg. destruct (IH (S n) (add_chunk_file cs id l (lc_of p) rnd) (gr_inv _ _ _ Hg) Hfr Hi) as (k & Hk & Hres).
      exists (S k). split; [|destruct res; [cbn [length]; lia|done]]. cbn [take]. change (concat (p :: take k pieces)) with (p ++ concat (take k pieces)). rewrite fmap_app. by eapply grows_trans.
    + injection Hi as <- <-. exists 0%nat. split; [|done]. by apply put_chunk_grows.
    + injection Hi as <- <-. exists 0%nat. split; [by apply grows_refl|done].
Qed.

(** The entries of a call, under the IDs of their label sets. *)
Definition ingested (streams : list StreamData) : list LogEntry := streams ≫= fun sd => (fun e => mkLE (sid sd) (le_ts e) (le_line e)) <$> st_entries sd.
Lemma ingest_streams_grows streams outs n cs res cs' : cs_inv cs -> Forall ingestable streams -> fresh_streams streams outs n cs -> ingest_streams streams outs n cs = (res, cs') ->
  exists adds, grows cs cs' adds /\ adds `prefix_of` ingested streams /\ match res with Ok _ => adds = ingested streams | Err _ => True end.
Proof.
  intros Hc HF. revert n cs Hc. induction HF as [|sd streams [Hl Hes] HF IH]; intros n cs Hc Hfr Hi; cbn [ingest_streams fresh_streams] in *.
  - injection Hi as <- <-. exists []. split_and!; [by apply grows_refl|done|done].
  - destruct Hfr as [Hf Hfr]. destruct (split_fits _ Hes) as (pieces & E & Hcat & Hps). rewrite E in *. assert (HFp : Forall LogChunk.fits pieces) by (eapply Forall_impl; [exact Hps|]; intros ? []; assumption).
    destruct (ingest_chunks _ _ _ outs n cs) as [r1 cs1] eqn:E1. destruct (ingest_chunks_grows _ _ _ _ _ _ _ _ Hc Hl eq_refl HFp Hf E1) as (k & Hg & Hk).
    change (grows cs cs1 (to_entry (sid sd) <$> concat (take k pieces))) in Hg. assert (Hall : to_entry (sid sd) <$> concat pieces = (fun e => mkLE (sid sd) (le_ts e) (le_line e)) <$> st_entries sd) by (rewrite Hcat, <- list_fmap_compose; done).
    assert (Hpre : to_entry (sid sd) <$> concat (take k pieces) `prefix_of` ((fun e => mkLE (sid sd) (le_ts e) (le_line e)) <$> st_entries sd)).
    { rewrite <- Hall. exists (to_entry (sid sd) <$> concat (drop k pieces)). rewrite <- fmap_app, <- concat_app, take_drop. done. }
    unfold ingested. rewrite bind_cons. fold (ingested streams). destruct r1 as [n1|e].
    + rewrite take_ge, Hall in Hg by done. destruct (IH n1 cs1 (gr_inv _ _ _ Hg) Hfr Hi) as (adds & Hg2 & Hp2 & Hr2). eexists. split; [by eapply grows_trans|]. split; [by apply prefix_app|]. destruct res; [by rewrite Hr2|done].
    + injection Hi as <- <-. eexists. split; [exact Hg|]. split; [by apply prefix_app_r|done].
Qed.

Lemma IngestStreams_grows streams outs mout cs res cs' : cs_inv cs -> Forall ingestable streams -> fresh_streams streams outs 0 cs -> IngestStreams streams outs mout cs = (res, cs') ->
  exists adds cs1, grows cs cs1 adds /\ adds `prefix_of` ingested streams /\ cs_index cs' = cs_index cs1 /\ dir_chunks (cs_dir cs') = dir_chunks (cs_dir cs1) /\
    (dir_manifest (cs_dir cs') = dir_manifest (cs_dir cs) \/ dir_manifest (cs_dir cs') = Some (writeManifest (cs_index cs'))) /\
    match res with Ok _ => adds = ingested streams /\ dir_manifest (cs_dir cs') = Some (writeManifest (cs_index cs')) | Err _ => True end.
Proof.
  intros Hc HF Hfr. unfold IngestStreams. destruct (ingest_streams streams outs 0 cs) as [r1 cs1] eqn:E. destruct (ingest_streams_grows _ _ _ _ _ _ Hc HF Hfr E) as (adds & Hg & Hp & Hr). destruct r1 as [n1|e].
  - unfold store_manifest. intros H. exists adds, cs1. pose proof (gr_manifest _ _ _ Hg). destruct mout as [|[]]; injection H as <- <-; cbn [cs_index cs_dir put_manifest dir_chunks dir_manifest]; split_and!; auto.
  - intros H. injection H as <- <-. exists adds, cs1. split_and!; try done. left. apply (gr_manifest _ _ _ Hg).
Qed.

(** ** What survives a restart *)

(** What the manifest refers to, the store refers to, or the file is gone. *)
Definition committed (cs : ChunkStore) (x0 : streamIndex) : Prop :=
  (exists m, dir_manifest (cs_dir cs) = Some m /\ loadManifest m = Ok x0) /\ names_distinct x0 /\ (forall i r, r ∈ refs_of x0 i -> r ∈ refs_of (cs_index cs) i \/ dir_chunks (cs_dir cs) !! cr_Name r = None).
(** An entry a restart finds. *)
Definition durable_entry (cs : ChunkStore) (e : LogEntry) : Prop := exists x0, committed cs x0 /\ e ∈ raw_of (dir_chunks (cs_dir cs)) x0 (le_id e).

Lemma elem_of_raw files x i e : e ∈ raw_of files x i <-> exists r, r ∈ refs_of x i /\ e ∈ chunk_raw files i r.
Proof. unfold raw_of. rewrite list_elem_of_bind. naive_solver. Qed.
Lemma committed_raw cs x0 i e : committed cs x0 -> e ∈ raw_of (dir_chunks (cs_dir cs)) x0 i -> e ∈ raw_at cs i.
Proof.
  intros (_ & _ & Hr) (r & Hin & He)%elem_of_raw. apply elem_of_raw. destruct (Hr i r Hin) as [|E]; [eauto|]. unfold chunk_raw in He. rewrite E in He. by apply elem_of_nil in He.
Qed.
Lemma chunk_raw_grows files files' i r e : files ⊆ files' -> e ∈ chunk_raw files i r -> e ∈ chunk_raw files' i r.
Proof. intros Hs. unfold chunk_raw. destruct (files !! cr_Name r) as [data|] eqn:E; [|by intros ?%elem_of_nil]. by rewrite (lookup_weaken _ _ _ _ E Hs). Qed.
Lemma written_committed cs : idx_wf (cs_index cs) -> names_distinct (cs_index cs) -> manifest_fits (cs_index cs) -> dir_manifest (cs_dir cs) = Some (writeManifest (cs_index cs)) ->
  exists x0, committed cs x0 /\ forall i, refs_of x0 i = refs_of (cs_index cs) i.
Proof.
  intros Hx Hn Hf Hm. destruct (load_write _ Hx Hf) as (y & Hl & _ & Hr & _). exists y. assert (E : forall i, refs_of y i = refs_of (cs_index cs) i) by (intros i; unfold refs_of; by rewrite Hr).
  split; [|done]. split; [by eexists|]. split; [|intros i r; rewrite E; auto]. split; [intros i; rewrite E; apply Hn|intros i j r s; rewrite !E; apply Hn].
Qed.
(** Whatever happens to an ingest, a restart finds what it would have found, and
    after success everything the store can read. *)
Lemma IngestStreams_durable streams outs mout cs res cs' x0 : cs_inv cs -> committed cs x0 -> Forall ingestable streams -> fresh_streams streams outs 0 cs ->
  IngestStreams streams outs mout cs = (res, cs') -> manifest_fits (cs_index cs') ->
  cs_inv cs' /\ (exists x1, committed cs' x1) /\ (forall e, durable_entry cs e -> durable_entry cs' e) /\
  match res with Ok _ => forall i e, e ∈ raw_at cs' i -> le_id e = i -> durable_entry cs' e | Err _ => True end.
Proof.
  intros Hc Hcom HF Hfr Hi Hfit. destruct (IngestStreams_grows _ _ _ _ _ _ Hc HF Hfr Hi) as (adds & cs1 & Hg & _ & Ex & Ec & Hm & Hres).
  pose proof (gr_inv _ _ _ Hg) as Hinv. assert (Hinv' : cs_inv cs') by (destruct Hinv as [A B C]; split; rewrite ?Ex, ?Ec; done).
  assert (Hraw : forall i, raw_at cs' i = raw_at cs1 i) by (intros i; unfold raw_at; by rewrite Ex, Ec).
  assert (Hlift : forall x, committed cs x -> dir_manifest (cs_dir cs') = dir_manifest (cs_dir cs) -> committed cs' x).
  { intros x ((m & Hm1 & Hm2) & Hx & Hr) Em. split; [exists m; by rewrite Em|]. split; [done|]. intros i r Hin. rewrite Ex, Ec. destruct (Hr i r Hin) as [H|H]; [left; by apply (gr_refs _ _ _ Hg)|right]. apply (gr_stale _ _ _ Hg); [by exists m, x, i, r|done]. }
  split; [done|]. assert (Hnew : dir_manifest (cs_dir cs') = Some (writeManifest (cs_index cs')) -> exists x1, committed cs' x1 /\ forall i, refs_of x1 i = refs_of (cs_index cs') i) by (intros; apply written_committed; [apply Hinv'|apply Hinv'|done|done]).
  assert (Hall : dir_manifest (cs_dir cs') = Some (writeManifest (cs_index cs')) -> forall i e, e ∈ raw_at cs' i -> le_id e = i -> durable_entry cs' e).
  { intros Em i e He <-. destruct (Hnew Em) as (x1 & Hx1 & Er). exists x1. split; [done|]. unfold raw_at, raw_of in *. by rewrite Er. }
  split_and!.
  - destruct Hm as [Em|Em]; [eauto|]. destruct (Hnew Em) as (x1 & ? & _). eauto.
  - intros e (x & Hx & He). destruct Hm as [Em|Em].
    + exists x. split; [by apply Hlift|]. apply elem_of_raw in He as (r & Hr & He). apply elem_of_raw. exists r. split; [done|]. rewrite Ec. eapply chunk_raw_grows; [apply (gr_files _ _ _ Hg)|done].
    + apply (Hall Em (le_id e)); [|done]. rewrite Hraw, (gr_raw _ _ _ Hg). apply elem_of_app. left. by eapply committed_raw.
  - destruct res; [|done]. destruct Hres as [_ Em]. by apply Hall.
Qed.
(** Opening the directory again. *)
Lemma Open_committed cs x0 mout : cs_inv cs -> committed cs x0 ->
  exists d, OpenChunkStore (cs_dir cs) mout = (Ok (mkCS x0 d), d) /\ dir_chunks d = dir_chunks (cs_dir cs) /\ dir_manifest d = dir_manifest (cs_dir cs) /\
    cs_inv (mkCS x0 d) /\ committed (mkCS x0 d) x0.
Proof.
  intros [Hx Hg Hn] ((m & Hm & Hl) & Hn0 & Hr). unfold OpenChunkStore. cbn [dir_manifest]. rewrite Hm, Hl. eexists. split; [reflexivity|]. cbn [dir_chunks dir_manifest]. split; [done|]. split; [done|]. split.
  - split; cbn [cs_index cs_dir dir_chunks]; [by eapply loadManifest_wf| |done]. intros i r Hin data Hd. destruct (Hr i r Hin) as [H|H]; [by apply (Hg i r)|by rewrite H in Hd].
  - split; [exists m; done|]. split; [done|]. intros i r Hin. by left.
Qed.
(** What the reopened store reads is what was durable. *)
Lemma Open_durable cs x0 d e : committed cs x0 -> dir_chunks d = dir_chunks (cs_dir cs) -> durable_entry cs e -> e ∈ raw_at (mkCS x0 d) (le_id e).
Proof.
  intros ((m & Hm & Hl) & _ & _) Ed (x & ((m' & Hm' & Hl') & _ & _) & He). unfold raw_at. cbn [cs_index cs_dir]. rewrite Ed. congruence.
Qed.

(** ** Retention *)

(** What removing the chunks named in [D] leaves. *)
Record trimmed (cs cs' : ChunkStore) (D : gset string) : Prop := {
  tr_idx : idx_wf (cs_index cs');
  tr_refs : forall i, refs_of (cs_index cs') i = filter (fun r => cr_Name r ∉ D) (refs_of (cs_index cs) i);
  tr_files : forall n, dir_chunks (cs_dir cs') !! n = if decide (n ∈ D) then None else dir_chunks (cs_dir cs) !! n;
  tr_labels : x_labels (cs_index cs') ⊆ x_labels (cs_index cs) }.

Lemma trimmed_refl cs : idx_wf (cs_index cs) -> trimmed cs cs ∅.
Proof. intros H. split; try done. intros i. rewrite filter_all; [done|]. apply Forall_forall. intros; set_solver. Qed.
Lemma trimmed_trans c1 c2 c3 D E : trimmed c1 c2 D -> trimmed c2 c3 E -> trimmed c1 c3 (D ∪ E).
Proof.
  intros [_ R1 F1 L1] [I2 R2 F2 L2]. split; [done|..].
  - intros i. rewrite R2, R1, list_filter_filter. apply list_filter_iff. intros r. rewrite not_elem_of_union. tauto.
  - intros n. rewrite F2, F1. repeat case_decide; set_solver.
  - by etrans.
Qed.
Lemma trimmed_elem cs cs' D i r : trimmed cs cs' D -> r ∈ refs_of (cs_index cs') i <-> r ∈ refs_of (cs_index cs) i /\ cr_Name r ∉ D.
Proof. intros H. rewrite (tr_refs _ _ _ H), list_elem_of_filter. tauto. Qed.
Lemma trimmed_inv cs cs' D : cs_inv cs -> trimmed cs cs' D -> cs_inv cs'.
Proof.
  intros [Hx Hg [Hn Hd]] T. pose proof T as [Ix Rx Fx Lx]. split; [done| |split].
  - intros i r [Hr HD]%(trimmed_elem _ _ _ _ _ T) data Hf. rewrite Fx, decide_False in Hf by done. by apply (Hg i r).
  - intros i. rewrite Rx. eapply sublist_NoDup; [apply Hn|apply fmap_sublist, sublist_filter].
  - intros i j r s [Hr _]%(trimmed_elem _ _ _ _ _ T) [Hs _]%(trimmed_elem _ _ _ _ _ T). by apply Hd.
Qed.
Lemma idx_labels_refs x i : idx_wf x -> refs_of x i <> [] <-> is_Some (x_labels x !! i).
Proof.
  intros Hx. rewrite <- elem_of_dom, <- (iw_dom _ Hx), elem_of_dom. pose proof (idx_refs_none x i Hx). destruct (x_refs x !! i) eqn:E; split; intros; [done| |tauto|by destruct (is_Some_None H0)].
  intros E'. apply H in E'. done.
Qed.
Lemma trimmed_label cs cs' D i l : trimmed cs cs' D -> refs_of (cs_index cs') i <> [] -> x_labels (cs_index cs) !! i = Some l -> x_labels (cs_index cs') !! i = Some l.
Proof.
  intros [Ix _ _ Lx] H El. apply (idx_labels_refs _ _ Ix) in H as [l' El']. rewrite El'. rewrite <- El. symmetry. by apply (lookup_weaken _ _ _ _ El' Lx).
Qed.

Lemma cut_ref_distinct name rs : NoDup (cr_Name <$> rs) -> cut_ref name rs = filter (fun r => cr_Name r ∉ ({[name]} : gset string)) rs.
Proof.
  induction rs as [|r rs IH]; [done|]. rewrite fmap_cons. intros [Hr Hn]%NoDup_cons. cbn [cut_ref]. rewrite filter_cons. destruct (String.eqb_spec (cr_Name r) name) as [<-|Hne].
  - rewrite decide_False by set_solver. symmetry. apply filter_all, Forall_forall. intros s Hs. rewrite elem_of_singleton. intros E. apply Hr. rewrite <- E. by apply list_elem_of_fmap_2.
  - rewrite decide_True by set_solver. by rewrite IH.
Qed.
Lemma removeRef_lookup x id name i : refs_of (removeRef x id name) i = if decide (i = id) then cut_ref name (refs_of x id) else refs_of x i.
Proof.
  unfold removeRef. destruct (cut_ref name (refs_of x id)) as [|r rs]; [destruct (x_labels x !! id)|]; unfold refs_of; cbn [x_refs]; destruct (decide (i = id)) as [->|];
    by rewrite ?lookup_delete_eq, ?lookup_insert_eq, ?lookup_delete_ne, ?lookup_insert_ne by done.
Qed.
Lemma removeRef_labels x id name : x_labels (removeRef x id name) ⊆ x_labels x.
Proof. unfold removeRef. destruct (cut_ref name (refs_of x id)); [destruct (x_labels x !! id)|]; cbn [x_labels]; [apply delete_subseteq|done|done]. Qed.
(** One expired chunk goes, whether or not its file is still there. *)
Lemma remove_trimmed cs id r : cs_inv cs -> r ∈ refs_of (cs_index cs) id ->
  trimmed cs (mkCS (removeRef (cs_index cs) id (cr_Name r)) (move_chunk (cs_dir cs) (cr_Name r))) {[cr_Name r]}.
Proof.
  intros [Hx _ [Hn Hd]] Hr. split; cbn [cs_index cs_dir].
  - by apply removeRef_wf.
  - intros i. rewrite removeRef_lookup. destruct (decide (i = id)) as [->|Hi]; [by apply cut_ref_distinct|]. symmetry. apply filter_all, Forall_forall. intros s Hs. rewrite elem_of_singleton. intros E. apply Hi. by apply (Hd i id s r).
  - intros n. unfold move_chunk. case_decide as E.
    + apply elem_of_singleton in E as ->. destruct (dir_chunks (cs_dir cs) !! cr_Name r) eqn:Ef; [apply lookup_delete_eq|done].
    + rewrite elem_of_singleton in E. destruct (dir_chunks (cs_dir cs) !! cr_Name r) eqn:Ef; [by apply lookup_delete_ne|done].
  - apply removeRef_labels.
Qed.

(** A scan from [cs0]: what it has removed so far, how many, and why. *)
Record scanned (cs0 : ChunkStore) (dead : Z -> ChunkRef -> Prop) (D : gset string) (st : ret_state) : Prop := {
  sc_trim : trimmed cs0 (rt_cs st) D;
  sc_dropped : rt_dropped st = Z.of_nat (size D);
  sc_dead : forall n, n ∈ D -> exists i r, r ∈ refs_of (cs_index cs0) i /\ cr_Name r = n /\ dead i r;
  sc_kept : dir_manifest (cs_dir (rt_cs st)) = dir_manifest (cs_dir cs0) }.

Lemma move_manifest d name : dir_manifest (move_chunk d name) = dir_manifest d.
Proof. unfold move_chunk. by destruct (_ !! _). Qed.
Lemma expire_refs_scanned cs0 (dead : Z -> ChunkRef -> Prop) fails id cutoff refs D st : cs_inv cs0 -> scanned cs0 dead D st -> rt_err st = None ->
  NoDup (cr_Name <$> refs) -> (forall r, r ∈ refs -> r ∈ refs_of (cs_index cs0) id /\ cr_Name r ∉ D /\ (cr_MaxTs r < cutoff -> dead id r)) ->
  exists D', scanned cs0 dead D' (expire_refs fails id cutoff refs st) /\ D ⊆ D' /\ (forall n, n ∈ D' -> n ∈ D \/ n ∈ cr_Name <$> refs) /\
    (rt_err (expire_refs fails id cutoff refs st) = None -> forall r, r ∈ refs -> cr_MaxTs r < cutoff -> cr_Name r ∈ D') /\
    ((forall n, fails n = false) -> rt_err (expire_refs fails id cutoff refs st) = None).
Proof.
  intros Hc. revert D st. induction refs as [|ref refs IH]; intros D st Hs He Hn Hrefs; cbn [expire_refs].
  { exists D. split_and!; try done; [auto|by intros _ r ?%elem_of_nil]. }
  rewrite fmap_cons in Hn. apply NoDup_cons in Hn as [Hhd Hn]. destruct (Hrefs ref ltac:(by left)) as (Hin & HD & Hdead).
  assert (Htl : forall r, r ∈ refs -> r ∈ refs_of (cs_index cs0) id /\ cr_Name r ∉ D /\ (cr_MaxTs r < cutoff -> dead id r)) by (intros; apply Hrefs; by right).
  destruct (Z.leb_spec cutoff (cr_MaxTs ref)) as [Hk|Hk].
  { destruct (IH D st Hs He Hn Htl) as (D' & H1 & H2 & H3 & H4 & H5). exists D'. split_and!; [done|done| | |done].
    - intros n [H|H]%H3; [by left|right]. rewrite fmap_cons. by right.
    - intros E r [->|Hr]%elem_of_cons ?; [lia|by apply H4]. }
  destruct (bool_decide _ && fails _)%bool eqn:Ef.
  { exists D. cbn [rt_err]. split_and!; [by destruct Hs|done|auto|done|]. intros Hall. rewrite Hall, andb_false_r in Ef. done. }
  set (st1 := mkRet _ _ _ _). set (D1 := D ∪ {[cr_Name ref]}).
  assert (Hs1 : scanned cs0 dead D1 st1).
  { destruct Hs as [Ht Hd Hx Hm]. split; cbn [st1 rt_cs rt_dropped].
    - eapply trimmed_trans; [exact Ht|]. apply remove_trimmed; [by eapply trimmed_inv|]. by apply (trimmed_elem _ _ _ _ _ Ht).
    - unfold D1. rewrite size_union by set_solver. rewrite size_singleton. lia.
    - intros n [H|H%elem_of_singleton]%elem_of_union; [by apply Hx|]. subst n. exists id, ref. auto.
    - cbn [cs_dir]. by rewrite move_manifest. }
  destruct (IH D1 st1 Hs1 eq_refl Hn) as (D' & H1 & H2 & H3 & H4 & H5).
  { intros r Hr. destruct (Htl r Hr) as (Ha & Hb & Hd). split_and!; [done| |done]. unfold D1. rewrite elem_of_union, elem_of_singleton. intros [?|E]; [done|]. apply Hhd. rewrite <- E. by apply list_elem_of_fmap_2. }
  exists D'. unfold D1 in *. split_and!; [done|set_solver| | |done].
  - intros n Hn'%H3. rewrite fmap_cons, elem_of_cons. set_solver.
  - intros E r [->|Hr]%elem_of_cons Hlt; [set_solver|by apply H4].
Qed.

Section policy.
Context (fails : string -> bool) (sec nsec : Z) (policy : RetentionPolicy) (cs0 : ChunkStore).

(** The tenant's retention for a stream, and a chunk older than it. *)
Definition retention_of (id : Z) : Z := For policy (TenantOf (default (mkLabels [] 0) (x_labels (cs_index cs0) !! id))).
Definition expired_ref (id : Z) (r : ChunkRef) : Prop := 0 < retention_of id /\ cr_MaxTs r < retentionCutoffNs sec nsec (retention_of id).
#[export] Instance expired_ref_dec id r : Decision (expired_ref id r).
Proof. apply _. Defined.

Lemma expire_stream_scanned id D st : cs_inv cs0 -> scanned cs0 expired_ref D st -> (forall r, r ∈ refs_of (cs_index cs0) id -> cr_Name r ∉ D) -> refs_of (cs_index cs0) id <> [] ->
  exists D', scanned cs0 expired_ref D' (expire_stream fails sec nsec policy st id) /\ D ⊆ D' /\ (forall n, n ∈ D' -> n ∈ D \/ n ∈ cr_Name <$> refs_of (cs_index cs0) id) /\
    (rt_err (expire_stream fails sec nsec policy st id) = None -> rt_err st = None /\ forall r, r ∈ refs_of (cs_index cs0) id -> expired_ref id r -> cr_Name r ∈ D') /\
    ((forall n, fails n = false) -> rt_err st = None -> rt_err (expire_stream fails sec nsec policy st id) = None).
Proof.
  intros Hc Hs HD Hne. unfold expire_stream. destruct (rt_err st) as [e|] eqn:Ee; [exists D; split_and!; auto; by rewrite Ee|].
  assert (Hrefs : refs_of (cs_index (rt_cs st)) id = refs_of (cs_index cs0) id).
  { rewrite (tr_refs _ _ _ (sc_trim _ _ _ _ Hs)). apply filter_all, Forall_forall. done. }
  pose proof Hne as [l El]%(idx_labels_refs _ _ (ci_idx _ Hc)). assert (El' : x_labels (cs_index (rt_cs st)) !! id = Some l) by (eapply trimmed_label; [apply Hs|by rewrite Hrefs|done]).
  assert (Er : For policy (TenantOf (default (mkLabels [] 0) (x_labels (cs_index (rt_cs st)) !! id))) = retention_of id) by (unfold retention_of; by rewrite El, El'). rewrite Hrefs, Er. destruct (Z.leb_spec (retention_of id) 0) as [H0|H0].
  - exists D. split_and!; auto. rewrite Ee. intros _. split; [done|]. intros r Hr [? _]. lia.
  - destruct (expire_refs_scanned cs0 expired_ref fails id (retentionCutoffNs sec nsec (retention_of id)) (refs_of (cs_index cs0) id) D st Hc Hs Ee) as (D' & H1 & H2 & H3 & H4 & H5).
    + apply (proj1 (ci_names _ Hc)).
    + intros r Hr. split_and!; [done|by apply HD|]. intros Hlt. by split.
    + exists D'. split_and!; auto. intros E. split; [done|]. intros r Hr [_ Hlt]. by apply H4.
Qed.

Lemma expire_fold ids D st : cs_inv cs0 -> scanned cs0 expired_ref D st -> NoDup ids -> (forall id, id ∈ ids -> refs_of (cs_index cs0) id <> []) ->
  (forall id r, id ∈ ids -> r ∈ refs_of (cs_index cs0) id -> cr_Name r ∉ D) ->
  exists D', scanned cs0 expired_ref D' (fold_left (expire_stream fails sec nsec policy) ids st) /\ D ⊆ D' /\
    (rt_err (fold_left (expire_stream fails sec nsec policy) ids st) = None -> rt_err st = None /\ forall id r, id ∈ ids -> r ∈ refs_of (cs_index cs0) id -> expired_ref id r -> cr_Name r ∈ D') /\
    ((forall n, fails n = false) -> rt_err st = None -> rt_err (fold_left (expire_stream fails sec nsec policy) ids st) = None).
Proof.
  intros Hc. revert D st. induction ids as [|id ids IH]; intros D st Hs Hn Hne HD; cbn [fold_left].
  { exists D. split_and!; auto. intros E. split; [done|]. by intros id r ?%elem_of_nil. }
  apply NoDup_cons in Hn as [Hhd Hn]. destruct (expire_stream_scanned id D st Hc Hs) as (D1 & H1 & H2 & H3 & H4 & H5); [intros; by apply (HD id); [left|]|by apply Hne; left|].
  destruct (IH D1 _ H1 Hn) as (D' & G1 & G2 & G3 & G4); [intros; by apply Hne; right| |].
  { intros j r Hj Hr [HnD|(s & E & Hs')%list_elem_of_fmap]%H3; [by apply (HD j r); [right| |]|]. apply Hhd. by rewrite <- (proj2 (ci_names _ Hc) j id r s Hr Hs' E). }
  exists D'. split_and!; [done|by etrans| |intros Hall ?; auto]. intros E. apply G3 in E as [E1 E2]. apply H4 in E1 as [E0 E1]. split; [done|]. intros j r [->|Hj]%elem_of_cons Hr Hx; [apply G2; by apply E1|by apply (E2 j)].
Qed.

Lemma expire_all_scanned : cs_inv cs0 -> exists D, scanned cs0 expired_ref D (expire_all fails sec nsec policy cs0) /\
  (rt_err (expire_all fails sec nsec policy cs0) = None -> forall id r, r ∈ refs_of (cs_index cs0) id -> expired_ref id r -> cr_Name r ∈ D) /\
  ((forall n, fails n = false) -> rt_err (expire_all fails sec nsec policy cs0) = None).
Proof.
  intros Hc. destruct (sorted_ids_spec (cs_index cs0)) as [Hn Hin]. assert (Hids : forall id, id ∈ sorted_ids (cs_index cs0) <-> refs_of (cs_index cs0) id <> []).
  { intros id. rewrite Hin, idx_labels_refs by apply Hc. rewrite <- !elem_of_dom. by rewrite (iw_dom _ (ci_idx _ Hc)). }
  destruct (expire_fold (sorted_ids (cs_index cs0)) ∅ (mkRet cs0 [] 0 None) Hc) as (D & H1 & _ & H3 & H4); [|done|by intros id ?%Hids|set_solver|].
  - split; cbn; [apply trimmed_refl, Hc|done|set_solver|done].
  - exists D. split_and!; [done| |by intros; apply H4]. intros E id r Hr. apply (proj2 (H3 E)); [|done]. apply Hids. intros E'. rewrite E' in Hr. by apply elem_of_nil in Hr.
Qed.
End policy.

(** References whose chunk has no entry in the window may be left out. *)
Lemma keep_dropped files id lo hi (P : ChunkRef -> Prop) `{!forall r, Decision (P r)} refs seen : (forall ref, ref ∈ refs -> ref_good files id ref) -> (forall ref, ref ∈ refs -> ~ P ref -> overlaps lo hi ref = false) ->
  keep_new lo hi seen (filter P refs ≫= chunk_raw files id) = keep_new lo hi seen (refs ≫= chunk_raw files id).
Proof.
  intros Hg HP. rewrite <- (keep_overlapping files id lo hi refs seen Hg). rewrite <- (keep_overlapping files id lo hi (filter P refs) seen) by (intros r [_ Hr]%list_elem_of_filter; by apply Hg).
  f_equal. f_equal. rewrite list_filter_filter. clear Hg. induction refs as [|r refs IH]; [done|]. rewrite !filter_cons, IH by (intros; apply HP; [by right|done]).
  destruct (decide (P r)) as [Hp|Hp]; [by repeat case_decide; try tauto|]. assert (Ho : overlaps lo hi r = false) by (apply HP; [by left|done]). rewrite decide_False by tauto. rewrite decide_False; [done|]. by rewrite Ho.
Qed.
Lemma trimmed_chunk_raw cs cs' D i r : trimmed cs cs' D -> cr_Name r ∉ D -> chunk_raw (dir_chunks (cs_dir cs')) i r = chunk_raw (dir_chunks (cs_dir cs)) i r.
Proof. intros T H. unfold chunk_raw. by rewrite (tr_files _ _ _ T), decide_False. Qed.
(** A read no removed chunk overlaps is unchanged. *)
Lemma trimmed_reads cs cs' D id lo hi : cs_inv cs -> trimmed cs cs' D -> (forall r, r ∈ refs_of (cs_index cs) id -> cr_Name r ∈ D -> overlaps lo hi r = false) ->
  cs_StreamEntries cs' id lo hi = cs_StreamEntries cs id lo hi.
Proof.
  intros Hc T Ho. rewrite !StreamEntries_view by (done || by eapply trimmed_inv). unfold view, raw_at, raw_of. rewrite (tr_refs _ _ _ T). do 2 f_equal.
  rewrite <- (keep_dropped (dir_chunks (cs_dir cs)) id lo hi (fun r => cr_Name r ∉ D) (refs_of (cs_index cs) id)); [|by apply (ci_refs _ Hc)|intros r Hr HD; apply Ho; [done|by apply dec_stable]].
  f_equal. generalize (refs_of (cs_index cs) id). intros rs. induction rs as [|r rs IH]; [done|]. rewrite filter_cons. case_decide; [|done]. by rewrite !bind_cons, IH, (trimmed_chunk_raw _ _ _ _ _ T).
Qed.

Definition retention_exactness (fails : string -> bool) (sec nsec : Z) (policy : RetentionPolicy) (cs cs' : ChunkStore) (n : Z) : Prop :=
  exists D : gset string, trimmed cs cs' D /\ n = Z.of_nat (size D) /\
    (forall id r, r ∈ refs_of (cs_index cs) id -> cr_Name r ∈ D -> expired_ref sec nsec policy cs id r) /\
    ((forall name, fails name = false) -> forall id r, r ∈ refs_of (cs_index cs) id -> expired_ref sec nsec policy cs id r -> cr_Name r ∈ D).
Lemma retention_effect fails mout rm sec nsec policy cs n err cs' : cs_inv cs -> ApplyRetention fails mout rm sec nsec policy cs = (n, err, cs') -> retention_exactness fails sec nsec policy cs cs' n.
Proof.
  intros Hc H. destruct (expire_all_scanned fails sec nsec policy cs Hc) as (D & [T Hn Hd _] & Hall & Hok). unfold ApplyRetention in H. set (st := expire_all fails sec nsec policy cs) in *. cbv zeta in H.
  assert (E : n = rt_dropped st /\ cs_index cs' = cs_index (rt_cs st) /\ dir_chunks (cs_dir cs') = dir_chunks (cs_dir (rt_cs st))).
  { destruct (0 <? rt_dropped st); [destruct mout as [|[]]; cbn [store_manifest] in H|]; injection H as <- _ <-; done. }
  destruct E as (-> & Ei & Ed). exists D. split_and!; [|done| |].
  - destruct T as [A B C E]. split; rewrite ?Ei, ?Ed; done.
  - intros id r Hr HD. destruct (Hd _ HD) as (j & s & Hs & En & Hx). destruct (ci_names _ Hc) as [Hnd Hdis]. assert (j = id) as -> by (by apply (Hdis j id s r)). assert (s = r) as ->; [|done].
    apply list_elem_of_lookup in Hr as [a Ha], Hs as [b Hb]. assert (a = b) as ->; [|congruence]. eapply (NoDup_lookup _ _ _ (cr_Name r) (Hnd id)); rewrite list_lookup_fmap, ?Ha, ?Hb; cbn; congruence.
  - intros Hf id r Hr. apply Hall; [by apply Hok|done].
Qed.
(** A manifest written after the pass holds the index it leaves. *)
Lemma retention_manifest fails rm sec nsec policy cs n err cs' : cs_inv cs -> ApplyRetention fails ManifestOk rm sec nsec policy cs = (n, err, cs') -> 0 < n ->
  dir_manifest (cs_dir cs') = Some (writeManifest (cs_index cs')).
Proof.
  intros _ H Hn. unfold ApplyRetention in H. set (st := expire_all fails sec nsec policy cs) in *. cbv zeta in H. destruct (Z.ltb_spec 0 (rt_dropped st)); cbn [store_manifest] in H; injection H as <- _ <-; [done|lia].
Qed.

(** An entry inside its stream's retention. *)
Definition retained (sec nsec : Z) (policy : RetentionPolicy) (cs : ChunkStore) (e : LogEntry) : Prop :=
  0 < retention_of policy cs (le_id e) -> retentionCutoffNs sec nsec (retention_of policy cs (le_id e)) <= le_ts e.

Lemma chunk_entry_bounds files i r e : ref_good files i r -> e ∈ chunk_raw files i r -> cr_MinTs r <= le_ts e <= cr_MaxTs r.
Proof.
  intros Hg He. unfold chunk_raw in He. destruct (files !! cr_Name r) as [data|] eqn:Ef; [|by apply elem_of_nil in He]. destruct (Hg data Ef) as (l & es & Hr & _ & -> & ->). rewrite Hr, lc_of_entries in He.
  apply list_elem_of_fmap in He as (e' & -> & He). pose proof (rep_bounds _ _ (lc_of_rep es)) as Hb. destruct es as [|e0 es]; [by apply elem_of_nil in He|]. cbn [bounds_of] in Hb. destruct Hb as (HF & _). rewrite Forall_forall in HF. by apply HF.
Qed.
Lemma retained_raw sec nsec policy cs cs' D e : cs_inv cs -> trimmed cs cs' D -> (forall id r, r ∈ refs_of (cs_index cs) id -> cr_Name r ∈ D -> expired_ref sec nsec policy cs id r) ->
  retained sec nsec policy cs e -> forall r, r ∈ refs_of (cs_index cs) (le_id e) -> e ∈ chunk_raw (dir_chunks (cs_dir cs)) (le_id e) r -> cr_Name r ∉ D /\ e ∈ chunk_raw (dir_chunks (cs_dir cs')) (le_id e) r.
Proof.
  intros Hc T HD Hk r Hr He. assert (Hn : cr_Name r ∉ D).
  { intros H. destruct (HD _ r Hr H) as [H0 H1]. specialize (Hk H0). pose proof (chunk_entry_bounds _ _ _ _ (ci_refs _ Hc _ _ Hr) He). lia. }
  split; [done|]. by rewrite (trimmed_chunk_raw _ _ _ _ _ T).
Qed.
Lemma retention_durable fails mout rm sec nsec policy cs n err cs' x0 : cs_inv cs -> committed cs x0 -> ApplyRetention fails mout rm sec nsec policy cs = (n, err, cs') -> manifest_fits (cs_index cs') ->
  cs_inv cs' /\ (exists x1, committed cs' x1) /\ (forall e, durable_entry cs e -> retained sec nsec policy cs e -> durable_entry cs' e).
Proof.
  intros Hc Hcom H Hfit. destruct (retention_effect _ _ _ _ _ _ _ _ _ _ Hc H) as (D & T & _ & HD & _). pose proof (trimmed_inv _ _ _ Hc T) as Hc'. split; [done|].
  assert (Hm : dir_manifest (cs_dir cs') = dir_manifest (cs_dir cs) \/ dir_manifest (cs_dir cs') = Some (writeManifest (cs_index cs'))).
  { destruct (expire_all_scanned fails sec nsec policy cs Hc) as (D2 & [_ _ _ Hk] & _). unfold ApplyRetention in H. set (st := expire_all fails sec nsec policy cs) in *. cbv zeta in H.
    destruct (0 <? rt_dropped st); [destruct mout as [|[]]; cbn [store_manifest] in H|]; injection H as _ _ <-; cbn; auto. }
  assert (Hraw : forall e r, r ∈ refs_of (cs_index cs) (le_id e) \/ dir_chunks (cs_dir cs) !! cr_Name r = None -> e ∈ chunk_raw (dir_chunks (cs_dir cs)) (le_id e) r -> retained sec nsec policy cs e ->
    r ∈ refs_of (cs_index cs') (le_id e) /\ e ∈ chunk_raw (dir_chunks (cs_dir cs')) (le_id e) r).
  { intros e r [Hr|E] He Hk; [|unfold chunk_raw in He; rewrite E in He; by apply elem_of_nil in He]. destruct (retained_raw _ _ _ _ _ _ _ Hc T HD Hk r Hr He) as [Hn He']. split; [|done]. by apply (trimmed_elem _ _ _ _ _ T). }
  destruct Hm as [Em|Em].
  - assert (Hlift : forall x, committed cs x -> committed cs' x).
    { intros x ((m & Hm1 & Hm2) & Hx & Hr). split; [exists m; by rewrite Em|]. split; [done|]. intros i r Hin. rewrite (tr_files _ _ _ T). destruct (decide (cr_Name r ∈ D)); [by right|]. destruct (Hr i r Hin) as [Hi|Hi]; [left|by right]. by apply (trimmed_elem _ _ _ _ _ T). }
    split; [eauto|]. intros e (x & Hx & (r & Hr & He)%elem_of_raw) Hk. exists x. split; [by apply Hlift|]. apply elem_of_raw. exists r. split; [done|]. apply Hraw; [|done..]. destruct Hx as (_ & _ & Hx). by apply Hx.
  - destruct (written_committed cs' (ci_idx _ Hc') (ci_names _ Hc') Hfit Em) as (x1 & Hx1 & Er). split; [eauto|]. intros e (x & Hx & (r & Hr & He)%elem_of_raw) Hk. exists x1. split; [done|]. apply elem_of_raw. exists r. rewrite Er. apply Hraw; [|done..].
    destruct Hx as (_ & _ & Hx). by apply Hx.
Qed.

(** ** Properties *)

(** What can happen to the store of an entry [e]: ingests and retention passes with
    any failures (no pass after the entry's retention is over), restarts. *)
Inductive store_step (e : LogEntry) : ChunkStore -> ChunkStore -> Prop :=
  | step_ingest streams outs mout cs res cs' : Forall ingestable streams -> fresh_streams streams outs 0 cs -> IngestStreams streams outs mout cs = (res, cs') ->
      manifest_fits (cs_index cs') -> store_step e cs cs'
  | step_retain fails mout rm sec nsec policy cs n err cs' : retained sec nsec policy cs e -> ApplyRetention fails mout rm sec nsec policy cs = (n, err, cs') ->
      manifest_fits (cs_index cs') -> store_step e cs cs'
  | step_restart mout cs cs' d : OpenChunkStore (cs_dir cs) mout = (Ok cs', d) -> store_step e cs cs'.
Definition store_ready (cs : ChunkStore) : Prop := cs_inv cs /\ exists x0, committed cs x0.

Lemma store_step_ready e cs cs' : store_step e cs cs' -> store_ready cs -> store_ready cs' /\ (durable_entry cs e -> durable_entry cs' e).
Proof.
  intros Hstep [Hc [x0 Hx]]. destruct Hstep as [streams outs mout cs res cs' HF Hfr Hi Hfit|fails mout rm sec nsec policy cs n err cs' Hk Hr Hfit|mout cs cs' d Ho].
  - destruct (IngestStreams_durable _ _ _ _ _ _ _ Hc Hx HF Hfr Hi Hfit) as (H1 & H2 & H3 & _). split; [done|]. apply H3.
  - destruct (retention_durable _ _ _ _ _ _ _ _ _ _ _ Hc Hx Hr Hfit) as (H1 & H2 & H3). split; [done|]. intros He. by apply H3.
  - destruct (Open_committed cs x0 mout Hc Hx) as (d' & E & Ed & _ & H1 & H2). rewrite E in Ho. injection Ho as <- <-. split; [split; [done|by exists x0]|].
    intros He. exists x0. split; [done|]. by apply (Open_durable cs x0 d' e Hx Ed He).
Qed.
Lemma store_steps_durable e cs cs' : rtc (store_step e) cs cs' -> store_ready cs -> durable_entry cs e -> store_ready cs' /\ durable_entry cs' e.
Proof. induction 1 as [|x y z Hs _ IH]; intros Hr Hd; [done|]. destruct (store_step_ready _ _ _ Hs Hr) as [H1 H2]. by apply IH; [|apply H2]. Qed.
Lemma durable_read cs e lo hi : cs_inv cs -> durable_entry cs e -> lo <= le_ts e <= hi ->
  exists es, cs_StreamEntries cs (le_id e) lo hi = Ok es /\ le_key e ∈ le_key <$> es.
Proof.
  intros Hc (x & Hx & He) Hw. eexists. split; [by apply StreamEntries_view|]. assert (Hk : le_key e ∈ keys_of (view lo hi (raw_at cs (le_id e)))).
  { apply view_keys. exists e. split_and!; [by eapply committed_raw| |done]. unfold in_window. apply negb_true_iff, orb_false_iff. rewrite !Z.ltb_ge. lia. }
  apply elem_of_keys in Hk as (e' & He' & <-). by apply list_elem_of_fmap_2.
Qed.
Lemma ingest_reads streams outs mout cs cs' : cs_inv cs -> Forall ingestable streams -> fresh_streams streams outs 0 cs -> IngestStreams streams outs mout cs = (Ok tt, cs') ->
  forall i, raw_at cs' i = raw_at cs i ++ filter (fun e => le_id e = i) (ingested streams).
Proof.
  intros Hc HF Hfr Hi. destruct (IngestStreams_grows _ _ _ _ _ _ Hc HF Hfr Hi) as (adds & cs1 & Hg & _ & Ex & Ec & _ & -> & _). intros i. unfold raw_at. rewrite Ex, Ec. apply (gr_raw _ _ _ Hg).
Qed.

(** Once [IngestStreams] has returned without an error, no line of it is lost
    while its retention lasts: after any later ingests and retention passes, whatever
    writes, renames and manifest updates fail in them, and any restarts in between,
    a read of its stream over a window that holds its timestamp returns it. *)
Theorem ingested_lines_kept (streams : list StreamData) (outs : nat -> write_outcome) (mout : manifest_outcome) (cs cs1 cs2 : ChunkStore) (e : LogEntry) (lo hi : Z) :
  store_ready cs -> Forall ingestable streams -> fresh_streams streams outs 0 cs -> IngestStreams streams outs mout cs = (Ok tt, cs1) -> manifest_fits (cs_index cs1) ->
  e ∈ ingested streams -> rtc (store_step e) cs1 cs2 -> lo <= le_ts e <= hi ->
  exists es, cs_StreamEntries cs2 (le_id e) lo hi = Ok es /\ le_key e ∈ le_key <$> es.
Proof.
  intros [Hc [x0 Hx]] HF Hfr Hi Hfit He Hsteps Hw. destruct (IngestStreams_durable _ _ _ _ _ _ _ Hc Hx HF Hfr Hi Hfit) as (Hc1 & Hx1 & _ & Hd).
  destruct (store_steps_durable e cs1 cs2 Hsteps) as [[Hc2 _] Hd2]; [done| |by apply durable_read].
  apply (Hd (le_id e)); [|done]. rewrite (ingest_reads _ _ _ _ _ Hc HF Hfr Hi). apply elem_of_app. right. by apply list_elem_of_filter.
Qed.

(** C13. Retention removes what it should and nothing else. Only chunks whose newest
    entry is older than their stream's retention leave the index, with their files,
    and the count returned is theirs; when no rename fails they all leave; and
    whatever fails, a read from the cutoff on, or of a stream kept for ever, is
    unchanged. *)
Theorem log_retention_exact (fails : string -> bool) (mout : manifest_outcome) (rm : string -> bool) (sec nsec : Z) (policy : RetentionPolicy) (cs cs' : ChunkStore) (n : Z) (err : option storeErr) :
  cs_inv cs -> ApplyRetention fails mout rm sec nsec policy cs = (n, err, cs') ->
  cs_inv cs' /\ retention_exactness fails sec nsec policy cs cs' n /\
  forall id lo hi, (0 < retention_of policy cs id -> retentionCutoffNs sec nsec (retention_of policy cs id) <= lo) -> cs_StreamEntries cs' id lo hi = cs_StreamEntries cs id lo hi.
Proof.
  intros Hc H. pose proof (retention_effect _ _ _ _ _ _ _ _ _ _ Hc H) as He. split_and!; [|done|]; destruct He as (D & T & _ & HD & _); [by eapply trimmed_inv|].
  intros id lo hi Hlo. apply (trimmed_reads cs cs' D); [done..|]. intros r Hr Hx. destruct (HD id r Hr Hx) as [H0 H1]. specialize (Hlo H0). unfold overlaps. apply andb_false_iff. left. apply Z.leb_gt. lia.
Qed.

(** The cutoff is computed without wrapping, for any clock: it is the time of
    the pass, held within 64 bits of nanoseconds, less the retention, and never below
    the smallest timestamp. *)
Theorem retention_cutoff_bounds (sec nsec ret : Z) : 0 <= nsec < nanos_per_second -> 0 <= ret <= MaxInt64 ->
  in_i64 (retentionCutoffNs sec nsec ret) /\
  exists now, retentionCutoffNs sec nsec ret = Z.max MinInt64 (now - ret) /\ (Z.abs sec <= 9223372035 -> now = sec * nanos_per_second + nsec) /\
    (9223372035 < sec -> now = MaxInt64) /\ (sec < -9223372035 -> now = MinInt64).
Proof.
  intros Hn Hr. unfold retentionCutoffNs, nanos_per_second in *. cbv zeta. change (MaxInt64 / 1000000000 - 1) with 9223372035. set (nowNs := if 9223372035 <? sec then _ else _).
  assert (Hnow : in_i64 nowNs /\ (Z.abs sec <= 9223372035 -> nowNs = sec * 1000000000 + nsec) /\ (9223372035 < sec -> nowNs = MaxInt64) /\ (sec < -9223372035 -> nowNs = MinInt64)).
  { unfold nowNs, in_i64, MaxInt64, MinInt64 in *. clear nowNs. destruct (Z.ltb_spec 9223372035 sec); [lia|]. destruct (Z.ltb_spec sec (- (9223372035))); [lia|]. rewrite i64_id by (unfold in_i64; lia). lia. }
  destruct Hnow as (Hi & H1 & H2 & H3). generalize dependent nowNs. intros now Hi H1 H2 H3. rewrite (i64_id (MinInt64 + ret)) by (unfold in_i64, MaxInt64, MinInt64 in *; lia).
  destruct (Z.ltb_spec now (MinInt64 + ret)) as [Hlt|Hge]; [|rewrite i64_id by (unfold in_i64, MaxInt64, MinInt64 in *; lia)]; (split; [unfold in_i64, MaxInt64, MinInt64 in *; lia|]); exists now; (split; [lia|done]).
Qed.

Lemma Forall_app_2' {A} (P : A -> Prop) a b : Forall P a -> Forall P b -> Forall P (a ++ b).
Proof. intros. by apply Forall_app. Qed.
Lemma payload_ok id l c : bytes_ok (chunk_payload id l c).
Proof.
  unfold chunk_payload, encodeChunkFileHeader, lc_Bytes, lc_header, encode_labels, chunkFileMagic, lc_magic. cbv zeta. assert (Hc : bytes_ok (deflate (encodeEntries c))) by (apply (deflate_ok), encode_lc_ok).
  repeat apply Forall_app_2'; first [apply be_bytes_ok|exact Hc|constructor; [apply in_u8_u8|apply encode_pairs_ok]|repeat constructor; unfold in_u8; lia|by apply bytes_ok_check].
Qed.
(** C21. A flush never writes a chunk the reader refuses. Entries that ingest accepts
    are cut, in order and without loss, into chunks that are not empty, whose
    payload is within the decoder's cap, and whose files decode to the same chunk,
    with the same bounds in a header-only read. *)
Theorem chunks_bounded (id : Z) (l : Labels) (es : list LogEntry) : stored_labels l -> StreamIDOf l = id -> Forall line_fits es ->
  (splitIntoChunks es MaxUncompressedBytes ≫= lc_entries) = (to_lc <$> es) /\
  Forall (fun c => 0 < NumEntries c /\ lc_uncompressed c <= MaxUncompressedBytes /\
    readChunkFile (chunk_payload id l c) = Ok (id, l, c) /\ readChunkFileHeader (chunk_payload id l c) = Ok (id, l, lc_minTs c, lc_maxTs c)) (splitIntoChunks es MaxUncompressedBytes).
Proof.
  intros Hl <- HF. destruct (split_fits es HF) as (ps & -> & Hcat & Hps). split.
  - rewrite <- Hcat. clear. induction ps as [|p ps IH]; [done|]. rewrite fmap_cons, bind_cons, lc_of_entries, IH. done.
  - apply Forall_fmap. eapply Forall_impl; [exact Hps|]. intros p [Hne Hf]. cbn [compose]. assert (Hr : readChunkFile (chunk_payload (StreamIDOf l) l (lc_of p)) = Ok (StreamIDOf l, l, lc_of p)) by (apply (readChunkFile_payload FL); done).
    split_and!; [rewrite NumEntries_of; destruct p; [done|cbn; lia]|apply Hf|done|]. by apply (header_read_agrees FL); [apply payload_ok|].
Qed.

(** ** Export *)

Definition exported (cs : ChunkStore) (id : Z) : option StreamData :=
  l ← cs_StreamLabelSet cs id; match view MinInt64 MaxInt64 (raw_at cs id) with [] => None | es => Some (mkSD l es) end.
Lemma export_all_exact cs ids : cs_inv cs -> export_all cs ids = Ok (omap (exported cs) ids).
Proof.
  intros Hc. induction ids as [|id ids IH]; [done|]. cbn [export_all omap list_omap]. unfold exported at 1. destruct (cs_StreamLabelSet cs id) as [l|]; cbn [mbind option_bind]; [|exact IH].
  rewrite StreamEntries_view, IH, !bind_Ok by done. by destruct (view MinInt64 MaxInt64 (raw_at cs id)).
Qed.
Lemma export_batches_all batches : export_batches (fun _ => true) batches = (batches, true).
Proof. induction batches as [|b batches IH]; [done|]. cbn [export_batches]. by rewrite IH. Qed.
Lemma log_flat_elem l e sds : (l, e) ∈ log_flat sds <-> exists sd, sd ∈ sds /\ st_labels sd = l /\ e ∈ st_entries sd.
Proof.
  unfold log_flat. rewrite list_elem_of_bind. split.
  - intros (sd & (e' & [= -> ->] & He)%list_elem_of_fmap & Hsd). eauto.
  - intros (sd & Hsd & <- & He). exists sd. split; [|done]. by apply list_elem_of_fmap_2.
Qed.
(** What a full read answers for one stream of the index. *)
Definition full_read (cs : ChunkStore) (id : Z) : list (Labels * LogEntry) :=
  match cs_StreamLabelSet cs id, cs_StreamEntries cs id MinInt64 MaxInt64 with Some l, Ok es => pair l <$> es | _, _ => [] end.
Lemma exported_read cs id : cs_inv cs -> log_flat (option_list (exported cs id)) = full_read cs id.
Proof.
  intros Hc. unfold exported, full_read. rewrite StreamEntries_view by done. destruct (cs_StreamLabelSet cs id) as [l|]; [|done]. cbn [mbind option_bind].
  destruct (view MinInt64 MaxInt64 (raw_at cs id)) as [|e es]; [done|]. cbn [option_list log_flat]. unfold log_flat. cbn [mbind list_bind st_labels st_entries]. apply app_nil_r.
Qed.
Lemma exported_count cs ids : cs_inv cs -> length (omap (exported cs) ids) = length (filter (fun id => full_read cs id <> []) ids).
Proof.
  intros Hc. induction ids as [|id ids IH]; [done|]. rewrite filter_cons. cbn [omap list_omap]. rewrite <- (exported_read cs id Hc).
  destruct (exported cs id) as [sd|] eqn:E; [|by rewrite decide_False by (by intros ?)].
  rewrite decide_True; [cbn [length]; by rewrite IH|]. unfold exported in E. destruct (cs_StreamLabelSet cs id) as [l|]; [|done]. cbn [mbind option_bind] in E. by destruct (view _ _ _); [|injection E as <-].
Qed.

(** C28. An export hands out everything the store holds, once. With a callback that
    accepts, the batches, one after the other, are the answers of full reads of the
    streams of the index in ascending order of ID, each stream once, each line of an
    answer once and in its order; the count returned is the number of streams that
    have lines. A batch stays within a positive limit unless a single line alone
    passes it, and that line travels alone. *)
Theorem export_exact (cs : ChunkStore) (batchBytes : Z) : cs_inv cs ->
  let ids := sort_by id (elements (cs_streamIDs cs)) in
  StronglySorted Z.lt ids /\ (forall i, i ∈ ids <-> is_Some (cs_StreamLabelSet cs i)) /\
  (forall i, exists es, cs_StreamEntries cs i MinInt64 MaxInt64 = Ok es) /\
  exists batches, ExportStreams cs batchBytes (fun _ => true) = (batches, Ok (Z.of_nat (length (filter (fun i => full_read cs i <> []) ids)))) /\
    (batches ≫= log_flat) = (ids ≫= full_read cs) /\ (0 < batchBytes -> Forall (log_batch_ok batchBytes) batches).
Proof.
  intros Hc ids. destruct (sort_ids_strict (cs_streamIDs cs)) as [Hs Hin]. fold ids in Hs, Hin. split; [done|]. split; [intros i; rewrite Hin; apply elem_of_dom|].
  split; [intros i; eexists; by apply StreamEntries_view|]. exists (BatchStreams (omap (exported cs) ids) batchBytes). split_and!; [| |apply BatchStreams_ok].
  - unfold ExportStreams. fold ids. by rewrite export_all_exact, export_batches_all, exported_count.
  - rewrite BatchStreams_flat. clear Hs Hin. induction ids as [|i l IH]; [done|]. rewrite bind_cons, <- IH, <- (exported_read cs i Hc). cbn [omap list_omap]. destruct (exported cs i) as [sd|]; [|done].
    change (option_list (Some sd)) with [sd]. unfold log_flat. rewrite !bind_cons. change ([] ≫= _) with (@nil (Labels * LogEntry)). by rewrite app_nil_r.
Qed.
End store.

(** ** Witnesses *)

#[local] Existing Instances sorted_order stored_flate.

Definition demo_log_labels : Labels := build {["app" := "api"]}.
Definition demo_log_id : Z := Eval vm_compute in StreamIDOf demo_log_labels.
Definition demo_entry1 : LogEntry := mkLE demo_log_id 5000000000 "GET /".
Definition demo_entry2 : LogEntry := mkLE demo_log_id 9000000000 "POST /".
Definition demo_sd : StreamData := mkSD demo_log_labels [demo_entry1; demo_entry2].
Definition demo_rnd : list Z := [1; 2; 3; 4].
Definition demo_cs0 : ChunkStore := mkCS newStreamIndex (mkDir ∅ (Some (writeManifest newStreamIndex)) ∅).
Definition demo_cs1 : ChunkStore := (IngestStreams [demo_sd] (fun _ => WriteOk demo_rnd) ManifestOk demo_cs0).2.
Lemma demo_log_stored : stored_labels demo_log_labels.
Proof. unfold stored_labels. vm_compute. reflexivity. Qed.
Lemma demo_log_sid : StreamIDOf demo_log_labels = demo_log_id.
Proof. vm_compute. reflexivity. Qed.
Lemma demo_lines_fit : Forall line_fits [demo_entry1; demo_entry2].
Proof. repeat constructor; try (vm_compute; discriminate); vm_compute; reflexivity. Qed.
Lemma demo_sd_ok : Forall ingestable [demo_sd].
Proof. apply Forall_singleton. split; [exact demo_log_stored|exact demo_lines_fit]. Qed.
Lemma demo_cs0_loads : loadManifest (writeManifest newStreamIndex) = Ok newStreamIndex.
Proof. vm_compute. reflexivity. Qed.
Lemma refs_of_new i : refs_of newStreamIndex i = [].
Proof. done. Qed.
Lemma demo_cs0_ready : store_ready demo_cs0.
Proof.
  assert (Hn : names_distinct newStreamIndex) by (split; [intros i; constructor|intros i j r s H; by apply elem_of_nil in H]).
  split; [split; [exact newStreamIndex_wf|intros i r H; by apply elem_of_nil in H|exact Hn]|].
  exists newStreamIndex. split; [exists (writeManifest newStreamIndex); split; [done|exact demo_cs0_loads]|]. split; [exact Hn|]. intros i r H. by apply elem_of_nil in H.
Qed.
Lemma demo_fresh0 name : fresh_name demo_cs0 name.
Proof.
  split; [done|]. split; [intros i r H; by apply elem_of_nil in H|]. intros (m & x & i & r & Em & El & Hr & _).
  assert (E : m = writeManifest newStreamIndex) by (unfold demo_cs0 in Em; cbn [cs_dir dir_manifest] in Em; congruence). subst m. pose proof demo_cs0_loads. assert (x = newStreamIndex) as -> by congruence. by apply elem_of_nil in Hr.
Qed.
Lemma demo_split : splitIntoChunks (st_entries demo_sd) MaxUncompressedBytes = [lc_of (to_lc <$> [demo_entry1; demo_entry2])].
Proof. vm_compute. reflexivity. Qed.
Lemma demo_fresh : fresh_streams [demo_sd] (fun _ => WriteOk demo_rnd) 0 demo_cs0.
Proof.
  cbn [fresh_streams]. rewrite demo_split. cbn [fresh_chunks]. split; [split; [apply demo_fresh0|done]|].
  destruct (ingest_chunks _ _ _ _ _ _) as [[] ?]; exact I.
Qed.
Lemma demo_ingest_ok : IngestStreams [demo_sd] (fun _ => WriteOk demo_rnd) ManifestOk demo_cs0 = (Ok tt, demo_cs1).
Proof. apply injective_projections; [vm_compute; reflexivity|reflexivity]. Qed.
Lemma demo_refs1 i : refs_of (cs_index demo_cs1) i = if decide (i = demo_log_id) then [mkRef (chunkFileName demo_log_id 5000000000 demo_rnd) 5000000000 9000000000] else [].
Proof.
  destruct (decide (i = demo_log_id)) as [->|Hne]; [vm_compute; reflexivity|]. assert (E : x_refs (cs_index demo_cs1) = {[demo_log_id := [mkRef (chunkFileName demo_log_id 5000000000 demo_rnd) 5000000000 9000000000]]}) by (vm_compute; reflexivity).
  unfold refs_of. rewrite E, lookup_singleton_ne by done. done.
Qed.
Lemma demo_fits1 : manifest_fits (cs_index demo_cs1).
Proof.
  split; [vm_compute; reflexivity|]. intros i r. rewrite demo_refs1. destruct (decide _); [|by intros ?%elem_of_nil]. intros ->%list_elem_of_singleton. split; [vm_compute; discriminate|]. unfold in_i64. cbn [cr_MinTs cr_MaxTs]. lia.
Qed.
Lemma demo_entry_in : demo_entry2 ∈ ingested [demo_sd].
Proof.
  apply list_elem_of_bind. exists demo_sd. split; [|by left]. apply list_elem_of_fmap. exists demo_entry2. split; [|right; by left].
  unfold sid. change (st_labels demo_sd) with demo_log_labels. by rewrite demo_log_sid.
Qed.

(** The store reopened after a pass that has expired nothing. *)
Definition demo_policy : RetentionPolicy := mkPolicy 3000000000 ∅.
Definition demo_pass : Z * option storeErr * ChunkStore := ApplyRetention (fun _ => false) ManifestOk (fun _ => false) 10 0 demo_policy demo_cs1.
Lemma demo_retained : retained 10 0 demo_policy demo_cs1 demo_entry2.
Proof. intros _. vm_compute. discriminate. Qed.
Lemma demo_pass_fits : manifest_fits (cs_index demo_pass.2).
Proof. assert (E : cs_index demo_pass.2 = cs_index demo_cs1) by (vm_compute; reflexivity). rewrite E. exact demo_fits1. Qed.
Lemma demo_steps : rtc (store_step demo_entry2) demo_cs1 demo_pass.2.
Proof.
  apply rtc_once. eapply step_retain; [exact demo_retained| |exact demo_pass_fits]. unfold demo_pass. rewrite (surjective_pairing (ApplyRetention _ _ _ _ _ _ _)) at 1. rewrite (surjective_pairing (ApplyRetention _ _ _ _ _ _ _).1) at 1. reflexivity.
Qed.
Lemma ingested_lines_kept_witness : exists es, cs_StreamEntries demo_pass.2 demo_log_id 0 MaxInt64 = Ok es /\ le_key demo_entry2 ∈ le_key <$> es.
Proof.
  apply (ingested_lines_kept stored_laws [demo_sd] (fun _ => WriteOk demo_rnd) ManifestOk demo_cs0 demo_cs1 demo_pass.2 demo_entry2 0 MaxInt64 demo_cs0_ready demo_sd_ok demo_fresh demo_ingest_ok demo_fits1 demo_entry_in demo_steps).
  vm_compute. split; discriminate.
Defined.
Lemma demo_cs1_inv : cs_inv demo_cs1.
Proof.
  destruct demo_cs0_ready as [Hc [x0 Hx]]. exact (proj1 (IngestStreams_durable stored_laws _ _ _ _ _ _ _ Hc Hx demo_sd_ok demo_fresh demo_ingest_ok demo_fits1)).
Qed.
(** Ten seconds later the chunk is past a one-second retention, and goes. *)
Definition demo_expiry : ChunkStore := (ApplyRetention (fun _ => false) ManifestOk (fun _ => false) 20 0 (mkPolicy 1000000000 ∅) demo_cs1).2.
Lemma demo_expiry_eq : ApplyRetention (fun _ => false) ManifestOk (fun _ => false) 20 0 (mkPolicy 1000000000 ∅) demo_cs1 = (1, None, demo_expiry).
Proof. apply injective_projections; [vm_compute; reflexivity|reflexivity]. Qed.
Lemma log_retention_exact_witness : cs_inv demo_expiry /\ retention_exactness (fun _ => false) 20 0 (mkPolicy 1000000000 ∅) demo_cs1 demo_expiry 1.
Proof. destruct (log_retention_exact stored_laws _ _ _ _ _ _ _ _ _ _ demo_cs1_inv demo_expiry_eq) as (H1 & H2 & _). split; [exact H1|exact H2]. Defined.
Lemma retention_cutoff_bounds_witness : in_i64 (retentionCutoffNs 9223372036 5 1000).
Proof. exact (proj1 (retention_cutoff_bounds 9223372036 5 1000 ltac:(unfold nanos_per_second; lia) ltac:(unfold MaxInt64; lia))). Defined.
Lemma chunks_bounded_witness : (splitIntoChunks (st_entries demo_sd) MaxUncompressedBytes ≫= lc_entries) = to_lc <$> st_entries demo_sd.
Proof. exact (proj1 (chunks_bounded stored_laws demo_log_id demo_log_labels (st_entries demo_sd) demo_log_stored demo_log_sid demo_lines_fit)). Defined.
Lemma export_exact_witness : exists batches, ExportStreams demo_cs1 50 (fun _ => true) = (batches, Ok (Z.of_nat (length (filter (fun i => full_read demo_cs1 i <> []) (sort_by id (elements (cs_streamIDs demo_cs1))))))) /\
  (batches ≫= log_flat) = (sort_by id (elements (cs_streamIDs demo_cs1)) ≫= full_read demo_cs1).
Proof. destruct (export_exact demo_cs1 50 demo_cs1_inv) as (_ & _ & _ & batches & H1 & H2 & _). exists batches. split; [exact H1|exact H2]. Defined.
