(* ===== verification/LogHead.v ===== *)
(** * LogHead: the in-memory half of the log store

    [internal/logs/head.go]: lines logged and buffered per stream, the whole head
    sent to a sink at a threshold, the log checkpointed and the head reset once the
    sink has everything, restart by replay. The sink, its failures and the clock are
    arguments. Also the plain [MemoryStore] and [WALStore] of [store.go]. *)
From stdpp Require Import strings.
From S2P Require Import Prelude GoLib GoSort Labels Postings Source WalCodec SegName Wal WalRecovery WalLogs HeadWal Limits GoCodec LogChunk LogStream LogFile LogBatch.

(** ** Buffered lines *)

Record memoryStream := mkMS { ls_labels : Labels; ls_entries : list LogEntry }.
(** Streams, streams per tenant, and the size the threshold is compared with. *)
Record buffer := mkBuf { bf_head : gmap Z memoryStream; bf_tenants : gmap string Z; bf_bytes : Z }.
Definition empty_buffer : buffer := mkBuf ∅ ∅ 0.
Definition put_line (streams : gmap Z memoryStream) (l : Labels) (e : LogEntry) : gmap Z memoryStream :=
  match streams !! le_id e with
  | Some hs => <[le_id e := mkMS (ls_labels hs) (ls_entries hs ++ [e])]> streams
  | None => <[le_id e := mkMS l [e]]> streams
  end.
Definition count_stream (streams : gmap Z memoryStream) (tenants : gmap string Z) (l : Labels) : gmap string Z :=
  match streams !! StreamIDOf l with
  | Some _ => tenants
  | None => <[TenantOf l := default 0 (tenants !! TenantOf l) + 1]> tenants
  end.
Definition buffer_line (b : buffer) (l : Labels) (ts : Z) (line : string) : buffer :=
  mkBuf (put_line (bf_head b) l (mkLE (StreamIDOf l) ts line)) (count_stream (bf_head b) (bf_tenants b) l) (i64 (bf_bytes b + (8 + str_len line))).

(** ** [store.go] *)

Definition mem_Append (streams : gmap Z memoryStream) (l : Labels) (ts : Z) (line : string) : gmap Z memoryStream := put_line streams l (mkLE (StreamIDOf l) ts line).
Definition mem_StreamEntries (streams : gmap Z memoryStream) (id : Z) : list LogEntry := match streams !! id with Some hs => ls_entries hs | None => [] end.
Definition mem_StreamCount (streams : gmap Z memoryStream) : Z := Z.of_nat (size streams).
Definition log_record (l : Labels) (ts : Z) (line : string) : logRecord := mkLog (labelsToWALPairs l) ts line.
Definition logs_WALStore_Append (streams : gmap Z memoryStream) (w : WAL) (d : disk) (l : Labels) (ts : Z) (line : string) (flt : fault) : result walErr unit * gmap Z memoryStream * WAL * disk :=
  match WriteRecord w d (log_record l ts line) flt with
  | (Err e, w, d) => (Err e, streams, w, d)
  | (Ok _, w, d) => (Ok tt, mem_Append streams l ts line, w, d)
  end.

(** ** The head *)

Record HeadOptions := mkOpts { ho_TolerateFlushErrors : bool; ho_FlushBackoff : Z; ho_FlushTimeout : Z; ho_BatchBytes : Z }.
Definition DefaultLogFlushBackoff : Z := 30000000000.
Definition DefaultLogFlushTimeout : Z := 10000000000.
Definition DefaultLogFlushBatchBytes : Z := Z.shiftl 16 20.
Definition or_default (v dflt : Z) : Z := if v <=? 0 then dflt else v.
Definition with_defaults (o : HeadOptions) : HeadOptions :=
  if ho_TolerateFlushErrors o then
    mkOpts true (or_default (ho_FlushBackoff o) DefaultLogFlushBackoff) (or_default (ho_FlushTimeout o) DefaultLogFlushTimeout) (or_default (ho_BatchBytes o) DefaultLogFlushBatchBytes)
  else o.
(** Instants are nanoseconds; the zero [time.Time] is before any clock. *)
Definition zeroTime : Z := -62135596800000000000.
Record Head := mkHead { hd_buf : buffer; hd_wal : WAL; hd_flushThresh : Z; hd_opts : HeadOptions; hd_backoffUntil : Z }.
Definition set_buf (b : buffer) (w : WAL) (h : Head) : Head := mkHead b w (hd_flushThresh h) (hd_opts h) (hd_backoffUntil h).
Definition set_backoff (t : Z) (h : Head) : Head := mkHead (hd_buf h) (hd_wal h) (hd_flushThresh h) (hd_opts h) t.

(** Replay: a record whose labels do not validate is skipped. *)
Definition restore_line (b : buffer) (r : logRecord) : buffer :=
  match NewStoredStreamLabels (pairs_map (lr_labels r)) with
  | Err _ => b
  | Ok l => buffer_line b l (lr_ts r) (lr_line r)
  end.
Definition OpenHead (d : disk) (segMax syncEvery thresh : Z) (opts : HeadOptions) (flt : fault) : result walErr Head * disk :=
  match Replay (R := logRecord) d with
  | (_, Err e, d) => (Err e, d)
  | (rs, Ok _, d) =>
      match Open (R := logRecord) d segMax syncEvery flt with
      | (Err e, d) => (Err e, d)
      | (Ok w, d) => (Ok (mkHead (fold_left restore_line rs empty_buffer) w thresh (with_defaults opts) zeroTime), d)
      end
  end.

(** Streams by ID, each with its lines in the order they were appended. *)
Definition snapshotLocked (b : buffer) : list StreamData :=
  omap (fun id => (fun hs => mkSD (ls_labels hs) (ls_entries hs)) <$> bf_head b !! id) (sort_by id (elements (dom (bf_head b)))).

Inductive headErr (E : Type) := HeWAL (e : walErr) | HeSink (e : E) | HeLockWait.
Arguments HeWAL {E} e.
Arguments HeSink {E} e.
Arguments HeLockWait {E}.

Section head.
Context {S I E : Type} (ingest : I -> S -> list StreamData -> result E unit * S).

Record world := mkWorld { w_head : Head; w_disk : disk; w_sink : S }.
(** What a flush meets: the sink's part in each call, and the faults of the
    checkpoint. *)
Record flush_env := mkFE { fe_sink : nat -> I; fe_wal : fault; fe_rm : option nat }.

Fixpoint send_batches (ins : nat -> I) (n : nat) (batches : list (list StreamData)) (s : S) : result E unit * S :=
  match batches with
  | [] => (Ok tt, s)
  | b :: batches =>
      match ingest (ins n) s b with
      | (Err e, s) => (Err e, s)
      | (Ok _, s) => send_batches ins (n + 1) batches s
      end
  end.
(** Whether there was anything to flush, and how it went. *)
Definition flushLocked (w : world) (env : flush_env) : bool * result (headErr E) unit * world :=
  let h := w_head w in
  if decide (bf_head (hd_buf h) = ∅) then (false, Ok tt, w) else
  match send_batches (fe_sink env) 0 (BatchStreams (snapshotLocked (hd_buf h)) (ho_BatchBytes (hd_opts h))) (w_sink w) with
  | (Err e, s) => (true, Err (HeSink e), mkWorld h (w_disk w) s)
  | (Ok _, s) =>
      match Checkpoint (hd_wal h) (w_disk w) (fe_wal env) (fe_rm env) with
      | (Err e, wal, d) => (true, Err (HeWAL e), mkWorld (set_buf (hd_buf h) wal h) d s)
      | (Ok _, wal, d) => (true, Ok tt, mkWorld (set_buf empty_buffer wal h) d s)
      end
  end.
(** The calls of the flush hook. *)
Definition report (flushed : bool) (res : result (headErr E) unit) : list (result (headErr E) unit) :=
  match flushed, res with false, Ok _ => [] | _, _ => [res] end.

(** [now1] is the clock at the check, [now2] after a failure. *)
Definition thresholdFlushLocked (w : world) (now1 now2 : Z) (env : flush_env) : result (headErr E) unit * list (result (headErr E) unit) * world :=
  let tolerant := ho_TolerateFlushErrors (hd_opts (w_head w)) in
  if (tolerant && (now1 <? hd_backoffUntil (w_head w)))%bool then (Ok tt, [], w) else
  let '(flushed, res, w) := flushLocked w env in
  match res with
  | Err _ => if tolerant then (Ok tt, report flushed res, mkWorld (set_backoff (now2 + ho_FlushBackoff (hd_opts (w_head w))) (w_head w)) (w_disk w) (w_sink w))
             else (res, report flushed res, w)
  | Ok _ => (res, report flushed res, w)
  end.
Definition head_Append (w : world) (l : Labels) (ts : Z) (line : string) (flt : fault) (now1 now2 : Z) (env : flush_env)
  : result (headErr E) unit * list (result (headErr E) unit) * world :=
  let h := w_head w in
  match WriteRecord (hd_wal h) (w_disk w) (log_record l ts line) flt with
  | (Err e, wal, d) => (Err (HeWAL e), [], mkWorld (set_buf (hd_buf h) wal h) d (w_sink w))
  | (Ok _, wal, d) =>
      let h := set_buf (buffer_line (hd_buf h) l ts line) wal h in
      let w := mkWorld h d (w_sink w) in
      if ((0 <? hd_flushThresh h) && (hd_flushThresh h <=? bf_bytes (hd_buf h)))%bool then thresholdFlushLocked w now1 now2 env else (Ok tt, [], w)
  end.
(** [locked]: whether the lock was had before the context ended. *)
Definition FlushContext (w : world) (locked : bool) (env : flush_env) : result (headErr E) unit * list (result (headErr E) unit) * world :=
  if negb locked then (Err HeLockWait, [], w) else
  let '(flushed, res, w) := flushLocked w env in (res, report flushed res, w).
(** Both errors, the flush's and the close's. *)
Definition head_Close (w : world) (env : flush_env) (flt : fault) : result (headErr E) unit * result walErr unit * list (result (headErr E) unit) * world :=
  let '(flushed, res, w) := flushLocked w env in
  let '(cres, wal, d) := Close (R := logRecord) (hd_wal (w_head w)) (w_disk w) flt in
  (res, cres, report flushed res, mkWorld (set_buf (hd_buf (w_head w)) wal (w_head w)) d (w_sink w)).
Definition CloseWithoutFlushContext (w : world) (locked : bool) (flt : fault) : result (headErr E) unit * option (result walErr unit) * world :=
  if locked then
    let '(cres, wal, d) := Close (R := logRecord) (hd_wal (w_head w)) (w_disk w) flt in
    (match cres with Ok _ => Ok tt | Err e => Err (HeWAL e) end, None, mkWorld (set_buf (hd_buf (w_head w)) wal (w_head w)) d (w_sink w))
  else
    let '(sres, d) := Sync (hd_wal (w_head w)) (w_disk w) flt in
    (Err HeLockWait, Some sres, mkWorld (w_head w) d (w_sink w)).
Definition Empty (w : world) : bool := bool_decide (bf_head (hd_buf (w_head w)) = ∅).
End head.
Arguments world : clear implicits.
Arguments flush_env : clear implicits.

(** ** Reads *)

Definition streamMatches (l : Labels) (ms : list Pair) : bool := forallb (fun m => match Get l (p_name m) with Some v => String.eqb v (p_value m) | None => false end) ms.
Definition headEntries (b : buffer) (id : Z) : list LogEntry := match bf_head b !! id with Some hs => ls_entries hs | None => [] end.
Definition head_MatchingStreamIDs (b : buffer) (ms : list Pair) : list Z :=
  sort_by id (omap (fun e : Z * memoryStream => if streamMatches (ls_labels e.2) ms then Some e.1 else None) (map_to_list (bf_head b))).
Definition head_StreamLabelSet (b : buffer) (id : Z) : option Labels := ls_labels <$> bf_head b !! id.
Definition head_StreamEntries (b : buffer) (id minTs maxTs : Z) : list LogEntry := mergeEntries [] (headEntries b id) minTs maxTs.
Definition sortedKeys (set : gset string) : list string := sortedStringSet set.
Definition head_label_sets (b : buffer) : list Labels := (fun e : Z * memoryStream => ls_labels e.2) <$> map_to_list (bf_head b).
Definition head_LabelNames (b : buffer) : list string := sortedKeys (label_names (head_label_sets b)).
Definition head_LabelValues (b : buffer) (name : string) : list string := sortedKeys (label_values name (head_label_sets b)).
Definition head_reader (b : buffer) : Reader := mkReader (head_MatchingStreamIDs b) (fun id lo hi => Ok (head_StreamEntries b id lo hi)) (head_StreamLabelSet b) (head_LabelNames b) (head_LabelValues b).
Definition TenantStreams (b : buffer) (id : string) : Z := default 0 (bf_tenants b !! id).
Definition HasStream (b : buffer) (id : Z) : bool := bool_decide (is_Some (bf_head b !! id)).
Definition TenantStreamCounts (b : buffer) : gmap string Z := bf_tenants b.
Definition head_StreamCount (b : buffer) : Z := Z.of_nat (size (bf_head b)).
Definition head_streamIDs (b : buffer) : gset Z := dom (bf_head b).

(** ** The buffer as a function of what was appended *)

Record line_in := mkLine { li_labels : Labels; li_ts : Z; li_line : string }.
Definition li_entry (x : line_in) : LogEntry := mkLE (StreamIDOf (li_labels x)) (li_ts x) (li_line x).
Definition put_in (b : buffer) (x : line_in) : buffer := buffer_line b (li_labels x) (li_ts x) (li_line x).
Definition buffer_of (xs : list line_in) : buffer := fold_left put_in xs empty_buffer.
Definition li_ok (x : line_in) : Prop := stored_labels (li_labels x) /\ in_i64 (li_ts x) /\ str_len (li_line x) <= MaxLineBytes.
Definition of_stream (id : Z) (xs : list line_in) : list line_in := filter (fun x => StreamIDOf (li_labels x) = id) xs.
Definition bytes_of (xs : list line_in) : Z := foldr (fun x n => 8 + str_len (li_line x) + n) 0 xs.

Lemma buffer_of_snoc xs x : buffer_of (xs ++ [x]) = put_in (buffer_of xs) x.
Proof. unfold buffer_of. by rewrite fold_left_app. Qed.
Lemma put_line_lookup streams l e id : put_line streams l e !! id =
  if decide (id = le_id e) then Some (match streams !! id with Some hs => mkMS (ls_labels hs) (ls_entries hs ++ [e]) | None => mkMS l [e] end) else streams !! id.
Proof. unfold put_line. destruct (decide (id = le_id e)) as [->|Hne]; destruct (streams !! le_id e) eqn:E; by rewrite ?lookup_insert_eq, ?lookup_insert_ne. Qed.
(** A stream is there from its first line, with that line's labels. *)
Lemma buffer_stream xs id : bf_head (buffer_of xs) !! id = match of_stream id xs with [] => None | x :: _ => Some (mkMS (li_labels x) (li_entry <$> of_stream id xs)) end.
Proof.
  induction xs as [|x xs IH] using rev_ind; [done|]. rewrite buffer_of_snoc. unfold put_in, buffer_line. cbn [bf_head]. rewrite put_line_lookup, IH. cbn [le_id].
  unfold of_stream. rewrite filter_app, filter_cons, filter_nil. fold (of_stream id xs). destruct (decide (id = StreamIDOf (li_labels x))) as [->|Hne].
  - rewrite decide_True by done. destruct (of_stream _ xs) as [|y ys]; [done|]. cbn [app ls_labels ls_entries]. do 2 f_equal. by rewrite app_comm_cons, fmap_app.
  - rewrite decide_False by congruence. by rewrite app_nil_r.
Qed.
Lemma buffer_entries xs id : headEntries (buffer_of xs) id = li_entry <$> of_stream id xs.
Proof. unfold headEntries. rewrite buffer_stream. by destruct (of_stream id xs). Qed.
Lemma bytes_of_app xs ys : bytes_of (xs ++ ys) = bytes_of xs + bytes_of ys.
Proof. unfold bytes_of. induction xs as [|x xs IH]; cbn [app foldr]; lia. Qed.
Lemma buffer_bytes xs : bf_bytes (buffer_of xs) = i64 (bytes_of xs).
Proof.
  induction xs as [|x xs IH] using rev_ind; [done|]. rewrite buffer_of_snoc. unfold put_in, buffer_line. cbn [bf_bytes]. rewrite IH, i64_add_l, bytes_of_app. f_equal. cbn. lia.
Qed.
Lemma of_stream_elem id xs x : x ∈ of_stream id xs <-> x ∈ xs /\ StreamIDOf (li_labels x) = id.
Proof. unfold of_stream. rewrite list_elem_of_filter. tauto. Qed.
Lemma buffer_known xs id hs : bf_head (buffer_of xs) !! id = Some hs -> exists x, x ∈ xs /\ StreamIDOf (li_labels x) = id /\ ls_labels hs = li_labels x.
Proof.
  rewrite buffer_stream. destruct (of_stream id xs) as [|x ys] eqn:E; [done|]. intros [= <-]. exists x. assert (Hx : x ∈ of_stream id xs) by (rewrite E; by left). apply of_stream_elem in Hx as [? ?]. done.
Qed.
Lemma buffer_has xs id : is_Some (bf_head (buffer_of xs) !! id) <-> exists x, x ∈ xs /\ StreamIDOf (li_labels x) = id.
Proof.
  split; [intros [hs (x & ? & ? & _)%buffer_known]; eauto|]. intros (x & Hx & Hid). rewrite buffer_stream. destruct (of_stream id xs) eqn:E; [|done].
  assert (H : x ∈ of_stream id xs) by (by apply of_stream_elem). rewrite E in H. by apply elem_of_nil in H.
Qed.
Lemma buffer_empty xs : bf_head (buffer_of xs) = ∅ <-> xs = [].
Proof.
  split; [|by intros ->]. intros E. destruct xs as [|x xs]; [done|]. assert (H : is_Some (bf_head (buffer_of (x :: xs)) !! StreamIDOf (li_labels x))) by (apply buffer_has; exists x; split; [by left|done]).
  rewrite E in H. by destruct H.
Qed.

(** Streams per tenant, counted. *)
Definition tenant_streams (streams : gmap Z memoryStream) (t : string) : nat := size (filter (fun e : Z * memoryStream => TenantOf (ls_labels e.2) = t) streams).
Lemma tenant_streams_put streams l ts line t : tenant_streams (put_line streams l (mkLE (StreamIDOf l) ts line)) t =
  (tenant_streams streams t + match streams !! StreamIDOf l with Some _ => 0 | None => if decide (TenantOf l = t) then 1 else 0 end)%nat.
Proof.
  unfold put_line, tenant_streams. cbn [le_id]. destruct (streams !! StreamIDOf l) as [hs|] eqn:E.
  - rewrite Nat.add_0_r. assert (Hk : forall (m : gmap Z memoryStream), size m = size (dom m)) by (intros; by rewrite size_dom). rewrite !Hk. f_equal. apply set_eq. intros i. rewrite !elem_of_dom. unfold is_Some.
    setoid_rewrite map_lookup_filter_Some. setoid_rewrite lookup_insert_Some. cbn. split.
    + intros (x & [[<- <-]|[? ?]] & Ht); [by exists hs|by exists x].
    + intros (x & Hx & Ht). destruct (decide (StreamIDOf l = i)) as [<-|]; [|by exists x; auto]. rewrite E in Hx. injection Hx as <-. eexists. split; [by left|done].
  - destruct (decide (TenantOf l = t)) as [Ht|Ht].
    + rewrite map_filter_insert_True by done. rewrite map_size_insert_None; [lia|]. apply map_lookup_filter_None. by left.
    + rewrite map_filter_insert_False by done. rewrite delete_id by done. lia.
Qed.
Lemma buffer_tenants xs t : bf_tenants (buffer_of xs) !! t = let n := tenant_streams (bf_head (buffer_of xs)) t in if (n =? 0)%nat then None else Some (Z.of_nat n).
Proof.
  induction xs as [|x xs IH] using rev_ind; [unfold tenant_streams; cbn; by rewrite lookup_empty|]. rewrite buffer_of_snoc. unfold put_in, buffer_line. cbn [bf_tenants bf_head]. rewrite tenant_streams_put. unfold count_stream.
  set (n := tenant_streams (bf_head (buffer_of xs)) t) in *. cbv zeta in *. destruct (bf_head (buffer_of xs) !! StreamIDOf (li_labels x)) as [hs|]; [by rewrite Nat.add_0_r|].
  destruct (decide (TenantOf (li_labels x) = t)) as [<-|Ht].
  - rewrite lookup_insert_eq, IH. destruct (Nat.eqb_spec (n + 1) 0); [lia|]. f_equal. destruct (Nat.eqb_spec n 0); cbn; lia.
  - rewrite lookup_insert_ne by done. by rewrite Nat.add_0_r.
Qed.

(** ** The head as a reader *)

Definition head_db (b : buffer) : log_db := fun l => hs ← bf_head b !! StreamIDOf l; if decide (ls_labels hs = l) then Some (ls_entries hs) else None.
Definition buffer_wf (b : buffer) : Prop := forall id hs, bf_head b !! id = Some hs -> stored_labels (ls_labels hs) /\ StreamIDOf (ls_labels hs) = id.
Lemma head_db_some b l raw : head_db b l = Some raw <-> exists hs, bf_head b !! StreamIDOf l = Some hs /\ ls_labels hs = l /\ raw = ls_entries hs.
Proof.
  unfold head_db. destruct (bf_head b !! StreamIDOf l) as [hs|]; cbn [mbind option_bind]; [|naive_solver]. destruct (decide (ls_labels hs = l)); naive_solver.
Qed.
Lemma head_db_known b l : buffer_wf b -> is_Some (head_db b l) <-> exists id hs, bf_head b !! id = Some hs /\ ls_labels hs = l.
Proof.
  intros Hb. split; [intros [raw (hs & H1 & H2 & _)%head_db_some]; eauto|]. intros (id & hs & H & El). destruct (Hb id hs H) as [_ Hid]. exists (ls_entries hs). apply head_db_some. exists hs. by rewrite <- El, Hid.
Qed.
Lemma streamMatches_spec l ms : streamMatches l ms = true <-> log_matches ms l.
Proof.
  unfold streamMatches, log_matches. rewrite forallb_forall, Forall_forall. apply forall_proper. intros m. rewrite list_elem_of_In. destruct (Get l (p_name m)) as [v|]; [|naive_solver].
  destruct (String.eqb_spec v (p_value m)); naive_solver.
Qed.
Lemma head_label_sets_spec b l : buffer_wf b -> l ∈ head_label_sets b <-> is_Some (head_db b l).
Proof.
  intros Hb. rewrite head_db_known by done. unfold head_label_sets. rewrite list_elem_of_fmap. split.
  - intros ([id hs] & -> & H%elem_of_map_to_list). by exists id, hs.
  - intros (id & hs & H & <-). exists (id, hs). split; [done|]. by apply elem_of_map_to_list.
Qed.
Lemma mergeEntries_nil_view lo hi raw : mergeEntries [] raw lo hi = view lo hi raw.
Proof. apply mergeEntries_nil. Qed.

#[export] Instance head_reader_implements b : buffer_wf b -> ReaderImplements (head_reader b) (head_db b).
Proof.
  intros Hb. assert (Hmap : forall l, is_Some (head_db b l) -> labels_wf l) by (intros l (id & hs & H & <-)%head_db_known; [|done]; destruct (Hb id hs H) as [[? _]%stored_labels_spec _]; done).
  split; cbn [head_reader rd_MatchingStreamIDs rd_StreamEntries rd_StreamLabelSet rd_LabelNames rd_LabelValues].
  - intros ms. set (f := fun e : Z * memoryStream => if streamMatches (ls_labels e.2) ms then Some e.1 else None).
    assert (Hf : omap f (map_to_list (bf_head b)) = (filter (fun e => streamMatches (ls_labels e.2) ms = true) (map_to_list (bf_head b))).*1).
    { induction (map_to_list (bf_head b)) as [|e es IH]; [done|]. cbn [omap list_omap]. rewrite filter_cons, IH. unfold f at 1. destruct (streamMatches (ls_labels e.2) ms); by case_decide. }
    split.
    + unfold head_MatchingStreamIDs. fold f. rewrite Hf. apply sort_ids_NoDup. eapply sublist_NoDup; [apply (NoDup_fst_map_to_list (bf_head b))|]. apply fmap_sublist, sublist_filter.
    + intros i. unfold head_MatchingStreamIDs. fold f. rewrite sort_by_perm, Hf, list_elem_of_fmap. setoid_rewrite list_elem_of_filter. setoid_rewrite streamMatches_spec. split.
      * intros ([j hs] & -> & Hm & H%elem_of_map_to_list). destruct (Hb j hs H) as [_ Hid]. exists (ls_labels hs). split_and!; [done| |done]. apply head_db_known; [done|]. by exists j, hs.
      * intros (l & <- & [raw (hs & H & <- & _)%head_db_some] & Hm). exists (StreamIDOf (ls_labels hs), hs). split_and!; [done|done|]. by apply elem_of_map_to_list.
  - intros id l. unfold head_StreamLabelSet. rewrite fmap_Some. split.
    + intros (hs & H & ->). destruct (Hb id hs H) as [_ Hid]. split; [done|]. apply head_db_known; [done|]. eauto.
    + intros [<- [raw (hs & H & <- & _)%head_db_some]]. eauto.
  - intros l raw lo hi (hs & H & _ & ->)%head_db_some. unfold head_StreamEntries, headEntries. by rewrite H, mergeEntries_nil.
  - destruct (sortedStringSet_spec (label_names (head_label_sets b))) as [H1 H2]. split; [done|]. intros n. unfold head_LabelNames, sortedKeys. rewrite H2. unfold label_names.
    rewrite elem_of_union_list. setoid_rewrite list_elem_of_fmap. setoid_rewrite (head_label_sets_spec b); [|done]. split.
    + intros (X & (l & -> & Hl) & Hn). exists l. split; [done|]. rewrite Get_Map by (by apply Hmap). by apply elem_of_dom.
    + intros (l & Hl & Hn). exists (dom (labels_Map l)). split; [by exists l|]. rewrite Get_Map in Hn by (by apply Hmap). by apply elem_of_dom.
  - intros name. destruct (sortedStringSet_spec (label_values name (head_label_sets b))) as [H1 H2]. split; [done|]. intros v. unfold head_LabelValues, sortedKeys. rewrite H2. unfold label_values.
    rewrite elem_of_list_to_set, list_elem_of_omap. setoid_rewrite (head_label_sets_spec b); [|done]. naive_solver.
Qed.

(** ** Flushing to a sink *)

(** What the head relies on in its sink, for one line [e0] of the stream [l0]: a
    call that succeeds has the batch durably, and nothing the sink does otherwise
    loses the line. [may] is what a call needs of its surroundings, [moves] whatever
    else happens to the sink. *)
Class LogSink {S I E : Type} (ingest : I -> S -> list StreamData -> result E unit * S) (may : I -> S -> list StreamData -> Prop) (moves : S -> S -> Prop)
    (ok : S -> Prop) (kept : S -> Prop) (l0 : Labels) (e0 : LogEntry) : Prop := {
  sink_ingest i s b res s' : ok s -> Forall ingestable b -> may i s b -> ingest i s b = (res, s') ->
    ok s' /\ (kept s -> kept s') /\ (res = Ok tt -> (l0, e0) ∈ log_flat b -> kept s');
  sink_moves s s' : ok s -> moves s s' -> ok s' /\ (kept s -> kept s') }.

Section flush.
Context {S I E : Type} (ingest : I -> S -> list StreamData -> result E unit * S) (may : I -> S -> list StreamData -> Prop) (moves : S -> S -> Prop) (ok kept : S -> Prop).

Fixpoint may_send (ins : nat -> I) (n : nat) (batches : list (list StreamData)) (s : S) : Prop :=
  match batches with
  | [] => True
  | b :: batches => may (ins n) s b /\ match ingest (ins n) s b with (Ok _, s) => may_send ins (n + 1) batches s | _ => True end
  end.
Definition flush_allowed (b : buffer) (o : HeadOptions) (env : flush_env I) (s : S) : Prop := may_send (fe_sink env) 0 (BatchStreams (snapshotLocked b) (ho_BatchBytes o)) s.

Context (l0 : Labels) (e0 : LogEntry) `{!LogSink ingest may moves ok kept l0 e0}.
Lemma send_batches_keeps ins n batches s res s' : ok s -> Forall (Forall ingestable) batches -> may_send ins n batches s -> send_batches ingest ins n batches s = (res, s') ->
  ok s' /\ (kept s -> kept s') /\ (res = Ok tt -> (l0, e0) ∈ (batches ≫= log_flat) -> kept s').
Proof.
  intros Hok HF. revert n s Hok. induction HF as [|b batches Hb HF IH]; intros n s Hok Hm Hs; cbn [send_batches may_send] in *.
  - injection Hs as <- <-. split_and!; [done|done|]. by intros _ ?%elem_of_nil.
  - destruct Hm as [Hm1 Hm2]. destruct (ingest (ins n) s b) as [[[]|e] s1] eqn:Ei; destruct (sink_ingest _ _ _ _ _ Hok Hb Hm1 Ei) as (H1 & H2 & H3).
    + destruct (IH _ _ H1 Hm2 Hs) as (G1 & G2 & G3). split_and!; [done|auto|]. intros Hr. rewrite bind_cons, elem_of_app. intros [Hin|Hin]; [apply G2; by apply H3|by apply G3].
    + injection Hs as <- <-. by split_and!.
Qed.
End flush.

(** What the head hands out. *)
Section snapshot.
Context (U : Labels -> Prop).
Record label_universe : Prop := { LU_stored l : U l -> stored_labels l; LU_hash l l' : U l -> U l' -> StreamIDOf l = StreamIDOf l' -> l = l' }.
Definition line_known (x : line_in) : Prop := U (li_labels x) /\ in_i64 (li_ts x) /\ str_len (li_line x) <= MaxLineBytes.
Context (HU : label_universe).

Lemma buffer_stream_known xs id hs : Forall line_known xs -> bf_head (buffer_of xs) !! id = Some hs ->
  U (ls_labels hs) /\ StreamIDOf (ls_labels hs) = id /\ ls_entries hs <> [] /\ Forall line_fits (ls_entries hs).
Proof.
  intros HF Hh. destruct (buffer_known xs id hs Hh) as (x & Hx & Hid & El). rewrite Forall_forall in HF. pose proof (HF x Hx) as (HUx & _). rewrite El. split_and!; [done|done|..].
  - rewrite buffer_stream in Hh. destruct (of_stream id xs); [done|]. by injection Hh as <-.
  - assert (E : ls_entries hs = headEntries (buffer_of xs) id) by (unfold headEntries; by rewrite Hh). rewrite E, buffer_entries. apply Forall_fmap, Forall_forall. intros y [Hy _]%of_stream_elem. destruct (HF y Hy) as (_ & H1 & H2). by split.
Qed.
Lemma buffer_wf_of xs : Forall line_known xs -> buffer_wf (buffer_of xs).
Proof. intros HF id hs Hh. destruct (buffer_stream_known xs id hs HF Hh) as (H1 & H2 & _). split; [by apply LU_stored|done]. Qed.
Lemma elem_of_log_snapshot b sd : sd ∈ snapshotLocked b <-> exists id hs, bf_head b !! id = Some hs /\ sd = mkSD (ls_labels hs) (ls_entries hs).
Proof.
  unfold snapshotLocked. rewrite list_elem_of_omap. destruct (sort_ids_strict (dom (bf_head b))) as [_ Hin]. split.
  - intros (id & _ & H). destruct (bf_head b !! id) as [hs|] eqn:E; [|done]. injection H as <-. eauto.
  - intros (id & hs & H & ->). exists id. split; [apply Hin, elem_of_dom; eauto|]. by rewrite H.
Qed.
Lemma snapshot_flat xs x : Forall line_known xs -> x ∈ xs -> (li_labels x, li_entry x) ∈ log_flat (snapshotLocked (buffer_of xs)).
Proof.
  intros HF Hx. assert (Hh : is_Some (bf_head (buffer_of xs) !! StreamIDOf (li_labels x))) by (apply buffer_has; eauto). destruct Hh as [hs Hh].
  destruct (buffer_stream_known xs _ hs HF Hh) as (HUl & Hid & _). rewrite Forall_forall in HF. destruct (HF x Hx) as (HUx & _). assert (El : ls_labels hs = li_labels x) by (by apply (LU_hash HU)).
  unfold log_flat. apply list_elem_of_bind. exists (mkSD (ls_labels hs) (ls_entries hs)). split; [|apply elem_of_log_snapshot; eauto]. cbn [st_labels st_entries]. rewrite El. apply list_elem_of_fmap_2.
  assert (E : ls_entries hs = headEntries (buffer_of xs) (StreamIDOf (li_labels x))) by (unfold headEntries; by rewrite Hh). rewrite E, buffer_entries. apply list_elem_of_fmap_2. by apply of_stream_elem.
Qed.
Lemma batches_ingestable xs limit : Forall line_known xs -> Forall (Forall ingestable) (BatchStreams (snapshotLocked (buffer_of xs)) limit).
Proof.
  intros HF. assert (Hsnap : forall sd, sd ∈ snapshotLocked (buffer_of xs) -> ingestable sd /\ st_entries sd <> []).
  { intros sd (id & hs & Hh & ->)%elem_of_log_snapshot. destruct (buffer_stream_known xs id hs HF Hh) as (H1 & _ & H3 & H4). split; [|done]. split; [by apply LU_stored|done]. }
  apply Forall_forall. intros b Hb. apply Forall_forall. intros sd Hsd.
  assert (Hin : forall e, e ∈ st_entries sd -> exists sd0, sd0 ∈ snapshotLocked (buffer_of xs) /\ st_labels sd0 = st_labels sd /\ e ∈ st_entries sd0).
  { intros e He. assert (Hf : (st_labels sd, e) ∈ log_flat (snapshotLocked (buffer_of xs))).
    { rewrite <- (BatchStreams_flat _ limit). apply list_elem_of_bind. exists b. split; [|done]. apply list_elem_of_bind. exists sd. split; [by apply list_elem_of_fmap_2|done]. }
    unfold log_flat in Hf. apply list_elem_of_bind in Hf as (sd0 & (e' & [El ->]%pair_equal_spec & He')%list_elem_of_fmap & Hsd0). eauto. }
  assert (Hne : st_entries sd <> []).
  { destruct (Z.leb_spec limit 0) as [Hl|Hl].
    - unfold BatchStreams in Hb. destruct (Z.leb_spec limit 0); [|lia]. apply list_elem_of_singleton in Hb as ->. by apply Hsnap.
    - pose proof (BatchStreams_ok (snapshotLocked (buffer_of xs)) limit Hl) as Hok. rewrite Forall_forall in Hok. destruct (Hok b Hb) as [_ Hne _]. rewrite Forall_forall in Hne. by apply Hne. }
  split.
  - destruct (st_entries sd) as [|e es] eqn:Ee; [done|]. destruct (Hin e ltac:(by left)) as (sd0 & H0 & <- & _). by apply Hsnap.
  - apply Forall_forall. intros e He. destruct (Hin e He) as (sd0 & H0 & _ & He0). destruct (Hsnap sd0 H0) as [[_ Hf] _]. rewrite Forall_forall in Hf. by apply Hf.
Qed.
End snapshot.

(** ** The head over its life *)

Lemma elem_of_take_grows {A} (l k : list A) (a b : nat) x : x ∈ take a l -> (a <= b)%nat -> x ∈ take b (l ++ k).
Proof.
  intros Hx Hab. apply list_elem_of_lookup in Hx as [i Hi]. apply lookup_take_Some in Hi as [Hi Hlt]. apply (list_elem_of_lookup_2 _ i). apply lookup_take_Some. split; [by apply lookup_app_l_Some|lia].
Qed.

Record lsys (S : Type) := mkLSys { lg_up : option Head; lg_disk : disk; lg_sink : S; lg_acked : list line_in }.
Arguments lsys : clear implicits.
Arguments mkLSys {S} _ _ _ _.
Arguments lg_up {S} _.
Arguments lg_disk {S} _.
Arguments lg_sink {S} _.
Arguments lg_acked {S} _.
Definition line_record (x : line_in) : logRecord := log_record (li_labels x) (li_ts x) (li_line x).
Definition log_room (d : disk) : Prop := forall i, 0 <= i <= MaxInt64 -> is_Some (d !! segmentPath i) -> i + 2 <= MaxInt64.
Definition acknowledge {A} (res : result A unit) (x : line_in) (ac : list line_in) : list line_in := match res with Ok _ => ac ++ [x] | Err _ => ac end.

Section life.
Context {S I E : Type} (ingest : I -> S -> list StreamData -> result E unit * S) (may : I -> S -> list StreamData -> Prop) (moves : S -> S -> Prop) (ok kept : S -> Prop).
Context (U : Labels -> Prop) (s0 : S).

(** Pushes, flushes and closes with any outcome of the log, the sink and the clock;
    whatever the sink does in between; crashes; starts. The log syncs every record.
    [exposed] is the set of hazards the run may meet. *)
Inductive log_step (exposed : hazard -> Prop) : lsys S -> lsys S -> Prop :=
  | log_append h d s ac x flt now1 now2 env res hooks w' :
      line_known U x -> (forall k, flt = FailWrite (Datatypes.S k) -> exposed ShortWrite) -> segIndex (hd_wal h) + 2 <= MaxInt64 -> sinceSynced (hd_wal h) < MaxInt64 ->
      flush_allowed ingest may (put_in (hd_buf h) x) (hd_opts h) env s ->
      head_Append ingest (mkWorld h d s) (li_labels x) (li_ts x) (li_line x) flt now1 now2 env = (res, hooks, w') ->
      log_step exposed (mkLSys (Some h) d s ac) (mkLSys (Some (w_head w')) (w_disk w') (w_sink w') (acknowledge res x ac))
  | log_flush h d s ac locked env res hooks w' :
      flush_allowed ingest may (hd_buf h) (hd_opts h) env s -> FlushContext ingest (mkWorld h d s) locked env = (res, hooks, w') ->
      log_step exposed (mkLSys (Some h) d s ac) (mkLSys (Some (w_head w')) (w_disk w') (w_sink w') ac)
  | log_close h d s ac env flt res cres hooks w' :
      flush_allowed ingest may (hd_buf h) (hd_opts h) env s -> head_Close ingest (mkWorld h d s) env flt = (res, cres, hooks, w') ->
      log_step exposed (mkLSys (Some h) d s ac) (mkLSys (Some (w_head w')) (w_disk w') (w_sink w') ac)
  | log_close_only h d s ac locked flt res sres w' :
      CloseWithoutFlushContext (E := E) (mkWorld h d s) locked flt = (res, sres, w') ->
      log_step exposed (mkLSys (Some h) d s ac) (mkLSys (Some (w_head w')) (w_disk w') (w_sink w') ac)
  | log_sink h d s s' ac : moves s s' -> log_step exposed (mkLSys h d s ac) (mkLSys h d s' ac)
  | log_crash o d d' s ac : crash d d' -> (prefix_torn line_ok d' -> exposed PrefixTear) -> log_step exposed (mkLSys o d s ac) (mkLSys None d' s ac)
  (** The process dies, the machine stays up. *)
  | log_kill o d s ac : (~ all_synced d -> exposed UnsyncedKill) -> log_step exposed (mkLSys o d s ac) (mkLSys None d s ac)
  | log_boot d s ac segMax thresh opts flt o d' :
      log_room d -> OpenHead d segMax 1 thresh opts flt = (o, d') ->
      log_step exposed (mkLSys None d s ac) (mkLSys (match o with Ok h => Some h | Err _ => None end) d' s ac).
Definition log_reachable (exposed : hazard -> Prop) : lsys S -> Prop := rtc (log_step exposed) (mkLSys None ∅ s0 []).

Context (HU : label_universe U) (x0 : line_in) `{!LogSink ingest may moves ok kept (li_labels x0) (li_entry x0)}.

Definition rec_known (r : logRecord) : Prop := exists x, r = line_record x /\ line_known U x.
(** The head, its log, and where [x0] is once acknowledged. *)
Record log_live (h : Head) (d : disk) (s : S) (acked : Prop) (xs : list line_in) (idx : Z) (hist : list (Z * logRecord)) (u : nat) : Prop := {
  ll_holds : holds line_ok MaxInt64 d idx hist u;
  ll_tracks : tracks (hd_wal h) idx;
  ll_sync : syncEveryN (hd_wal h) = 1 /\ 0 <= sinceSynced (hd_wal h);
  ll_buf : hd_buf h = buffer_of xs;
  ll_lines : Forall (line_known U) xs;
  ll_recs : Forall (fun e => rec_known e.2) hist;
  ll_acked : acked -> kept s \/ (x0 ∈ xs /\ line_record x0 ∈ take u (hist.*2)) }.
(** A checkpoint that failed half-way: the sink has everything, the log takes no more. *)
Record log_spent (h : Head) (d : disk) (s : S) (acked : Prop) (xs : list line_in) (hist : list (Z * logRecord)) : Prop := {
  lp_down : down line_ok MaxInt64 d hist (length hist);
  lp_closed : current (hd_wal h) <> OpenFile;
  lp_buf : hd_buf h = buffer_of xs;
  lp_lines : Forall (line_known U) xs;
  lp_recs : Forall (fun e => rec_known e.2) hist;
  lp_acked : acked -> kept s }.
Definition log_up (h : Head) (d : disk) (s : S) (acked : Prop) : Prop :=
  exists xs, (exists idx hist u, log_live h d s acked xs idx hist u) \/ (exists hist, log_spent h d s acked xs hist).
Definition log_asleep (d : disk) (s : S) (acked : Prop) : Prop := exists hist u,
  down line_ok MaxInt64 d hist u /\ Forall (fun e => rec_known e.2) hist /\ (acked -> kept s \/ line_record x0 ∈ take u (hist.*2)).
Definition log_inv (g : lsys S) : Prop := ok (lg_sink g) /\
  match lg_up g with Some h => log_up h (lg_disk g) (lg_sink g) (x0 ∈ lg_acked g) | None => log_asleep (lg_disk g) (lg_sink g) (x0 ∈ lg_acked g) end.

(** Changes of the acknowledged set, of the sink, and of parts of the head that the
    invariant does not read. *)
Lemma live_mono h d s (a a' : Prop) s' xs idx hist u : log_live h d s a xs idx hist u -> (a' -> a) -> (kept s -> kept s') -> log_live h d s' a' xs idx hist u.
Proof. intros [] Ha Hk. split; try done. intros [?|?]%Ha%ll_acked0; auto. Qed.
Lemma spent_mono h d s (a a' : Prop) s' xs hist : log_spent h d s a xs hist -> (a' -> a) -> (kept s -> kept s') -> log_spent h d s' a' xs hist.
Proof. intros [] Ha Hk. split; try done. auto. Qed.
Lemma up_mono h d s (a a' : Prop) s' : log_up h d s a -> (a' -> a) -> (kept s -> kept s') -> log_up h d s' a'.
Proof. intros (xs & [(idx & hist & u & H)|(hist & H)]) Ha Hk; exists xs; [left|right]; [exists idx, hist, u; by eapply live_mono|exists hist; by eapply spent_mono]. Qed.
Lemma up_backoff h t d s a : log_up h d s a -> log_up (set_backoff t h) d s a.
Proof. intros (xs & [(idx & hist & u & [])|(hist & [])]); exists xs; [left; exists idx, hist, u|right; exists hist]; by split. Qed.
Lemma up_lines h d s a : log_up h d s a -> exists xs, hd_buf h = buffer_of xs /\ Forall (line_known U) xs.
Proof. intros (xs & [(idx & hist & u & [])|(hist & [])]); by exists xs. Qed.

(** A flush, its batches sent or not. *)
Definition sent_all (batches : list (list StreamData)) (s' : S) : Prop := (li_labels x0, li_entry x0) ∈ (batches ≫= log_flat) -> kept s'.
Lemma checkpoint_up h d s (a : Prop) xs flt rm r wal d' : (exists idx hist u, log_live h d s a xs idx hist u) \/ (exists hist, log_spent h d s a xs hist) -> (x0 ∈ xs -> kept s) ->
  Checkpoint (hd_wal h) d flt rm = (r, wal, d') ->
  log_up (set_buf (match r with Ok _ => empty_buffer | Err _ => hd_buf h end) wal h) d' s a.
Proof.
  intros [(idx & hist & u & HL)|(hist & HP)] Hx Hc.
  - pose proof HL as []. assert (Hk : a -> kept s) by (intros [?|[Hxs _]]%ll_acked0; auto). pose proof (Checkpoint_effect _ _ _ _ _ _ _ _ _ _ ll_holds0 ll_tracks0 Hc) as He. destruct r as [[]|e].
    + destruct He as (H1 & H2 & H3 & H4 & H5). exists []. left. exists 1, [], 0%nat. split; cbn [set_buf hd_wal hd_buf]; try done; [|by left; auto]. rewrite H4, H5. split; [apply ll_sync0|lia].
    + exists xs. destruct He as [[-> ->]|(Hn & hs & [k Hsuf] & Hd)].
      * left. exists idx, hist, u. by split.
      * right. exists hs. split; cbn [set_buf hd_wal hd_buf]; try done. rewrite Forall_forall in *. intros [i r] Hr. assert (Hr' : r ∈ hist.*2) by (rewrite Hsuf; apply elem_of_app; right; apply list_elem_of_fmap; by exists (i, r)).
        apply list_elem_of_fmap in Hr' as ([i' r'] & -> & Hr'). by apply (ll_recs0 (i', r')).
  - destruct HP. assert (Eq : r = Err (match current (hd_wal h) with NoFile => ErrClosed | _ => if broken (hd_wal h) then ErrBroken else ErrClosed end) /\ wal = hd_wal h /\ d' = d).
    { unfold Checkpoint in Hc. destruct (decide (current (hd_wal h) = NoFile)) as [En|]; [rewrite En; injection Hc as <- <- <-; done|]. destruct (current (hd_wal h)) eqn:Ecur; try done. destruct (broken (hd_wal h)); injection Hc as <- <- <-; done. }
    destruct Eq as (-> & -> & ->). exists xs. right. exists hist. by split.
Qed.
Lemma flush_up h d s (a : Prop) env fl res w' : ok s -> log_up h d s a -> flush_allowed ingest may (hd_buf h) (hd_opts h) env s -> flushLocked ingest (mkWorld h d s) env = (fl, res, w') ->
  ok (w_sink w') /\ log_up (w_head w') (w_disk w') (w_sink w') a.
Proof.
  intros Hok Hup Hm. unfold flushLocked. cbn [w_head w_disk w_sink]. destruct (decide (bf_head (hd_buf h) = ∅)); [intros [= _ _ <-]; by split|].
  destruct Hup as (xs & Hup). assert (HE : hd_buf h = buffer_of xs /\ Forall (line_known U) xs) by (by destruct Hup as [(idx & hist & u & [])|(hist & [])]). destruct HE as [Eb HF].
  unfold flush_allowed in Hm. rewrite Eb in Hm |- * at 1. set (batches := BatchStreams (snapshotLocked (buffer_of xs)) (ho_BatchBytes (hd_opts h))) in *.
  assert (Hb : Forall (Forall ingestable) batches) by (by eapply batches_ingestable). assert (Hflat : (batches ≫= log_flat) = log_flat (snapshotLocked (buffer_of xs))) by apply BatchStreams_flat.
  destruct (send_batches ingest (fe_sink env) 0 batches s) as [r1 s1] eqn:Es. destruct (send_batches_keeps ingest may moves ok kept _ _ _ _ _ _ _ _ Hok Hb Hm Es) as (Hok1 & Hk1 & Hall). clear Es.
  assert (Hup1 : (exists idx hist u, log_live h d s1 a xs idx hist u) \/ (exists hist, log_spent h d s1 a xs hist)).
  { destruct Hup as [(idx & hist & u & H)|(hist & H)]; [left; exists idx, hist, u; by eapply live_mono|right; exists hist; by eapply spent_mono]. }
  destruct r1 as [[]|e]; [|intros [= _ _ <-]; split; [done|]; by exists xs].
  assert (Hx : x0 ∈ xs -> kept s1) by (intros Hx; apply (Hall eq_refl); rewrite Hflat; by eapply snapshot_flat).
  destruct (Checkpoint (hd_wal h) d (fe_wal env) (fe_rm env)) as [[r2 wal] d2] eqn:Ec. pose proof (checkpoint_up _ _ _ _ _ _ _ _ _ _ Hup1 Hx Ec) as Hnew.
  destruct r2 as [[]|e]; intros [= _ _ <-]; by split.
Qed.
Lemma threshold_up h d s (a : Prop) now1 now2 env res hooks w' : ok s -> log_up h d s a -> flush_allowed ingest may (hd_buf h) (hd_opts h) env s -> thresholdFlushLocked ingest (mkWorld h d s) now1 now2 env = (res, hooks, w') ->
  ok (w_sink w') /\ log_up (w_head w') (w_disk w') (w_sink w') a.
Proof.
  intros Hok Hup Hm. unfold thresholdFlushLocked. destruct (_ && _)%bool; [intros [= _ _ <-]; by split|]. destruct (flushLocked ingest (mkWorld h d s) env) as [[fl r] w1] eqn:Ef.
  destruct (flush_up _ _ _ _ _ _ _ _ Hok Hup Hm Ef) as [H1 H2]. destruct r as [[]|e]; [intros [= _ _ <-]; by split|]. destruct (ho_TolerateFlushErrors _); intros [= _ _ <-]; split; try done. by apply up_backoff.
Qed.

(** A closed writer refuses, and changes nothing. *)
Lemma write_closed w d r flt : current w <> OpenFile -> exists e, WriteRecord (R := logRecord) w d r flt = (Err e, w, d).
Proof.
  intros Hn. unfold WriteRecord. destruct (decide (current w = NoFile)); [by eexists|]. destruct (broken w); [by eexists|]. destruct (validateLabels _); [by eexists|].
  destruct (decide (current w = ClosedFile)); [by eexists|]. by destruct (current w).
Qed.
Lemma line_record_ok x : line_known U x -> line_ok (line_record x).
Proof. intros (_ & H1 & H2). split; [done|]. cbn. unfold MaxLineBytes in H2. lia. Qed.
Lemma line_record_inj x y : line_known U x -> line_known U y -> line_record x = line_record y -> x = y.
Proof.
  intros (Hx & _) (Hy & _) Er. unfold line_record, log_record in Er. destruct x as [l t m], y as [l' t' m']. cbn [li_labels li_ts li_line] in *. injection Er as El -> ->. f_equal.
  pose proof (LU_stored U HU l Hx) as H1. pose proof (LU_stored U HU l' Hy) as H2. unfold stored_labels in *. rewrite <- pairs_map_labels, El, pairs_map_labels, H2 in H1. by injection H1.
Qed.
(** The buffer and the log after one line. *)
Lemma write_up h d s (a : Prop) x flt r wal d' : log_up h d s a -> line_known U x -> (forall k, flt <> FailWrite (Datatypes.S k)) -> segIndex (hd_wal h) + 2 <= MaxInt64 -> sinceSynced (hd_wal h) < MaxInt64 ->
  WriteRecord (hd_wal h) d (line_record x) flt = (r, wal, d') ->
  match r with Ok _ => log_up (set_buf (put_in (hd_buf h) x) wal h) d' s (a \/ x0 = x) | Err _ => log_up (set_buf (hd_buf h) wal h) d' s a end.
Proof.
  intros (xs & [(idx & hist & u & HL)|(hist & HP)]) Hx Hflt Hroom Hsi Hw.
  - pose proof HL as []. destruct ll_sync0 as [Hsy Hs0]. destruct (WriteRecord_effect line_ok MaxInt64 _ _ _ _ _ _ _ _ _ _ ll_holds0 ll_tracks0 (line_record_ok x Hx) Hflt Hroom (conj Hs0 Hsi) Hw) as ((u' & idx' & Hh & Ht & Hu & _) & Hn & Hs & Hsync).
    set (hist' := if reached_file r then _ else _) in *. assert (Hp : exists k, hist' = hist ++ k) by (subst hist'; destruct (reached_file r); [by eexists|by exists []; rewrite app_nil_r]).
    assert (Hrecs : Forall (fun e => rec_known e.2) hist') by (subst hist'; destruct (reached_file r); [|done]; apply Forall_app; split; [done|]; apply Forall_singleton; by exists x).
    assert (Hs' : 0 <= sinceSynced wal) by (destruct (reached_file r); [destruct Hs as [->|[_ ->]]|rewrite Hs]; lia).
    assert (Hold : a -> kept s \/ (x0 ∈ xs /\ line_record x0 ∈ take u' (hist'.*2))).
    { intros [?|[? Hr]]%ll_acked0; [by left|right]. split; [done|]. destruct Hp as [k ->]. rewrite fmap_app. by eapply elem_of_take_grows. }
    destruct r as [[]|e]; cbn [reached_file] in *.
    + exists (xs ++ [x]). left. exists idx', hist', u'. split; cbn [set_buf hd_wal hd_buf]; try done; [by rewrite Hn|by rewrite ll_buf0, buffer_of_snoc|apply Forall_app; split; [done|by apply Forall_singleton]|].
      assert (Hall : all_synced d') by (destruct (Hsync eq_refl ltac:(lia)) as [?|Hlt]; [done|]; destruct Hs as [Hs|[? _]]; [lia|done]). assert (Hu' : u' = length hist') by (by apply (holds_synced line_ok MaxInt64 _ _ _ _ Hh)).
      intros [Ha|<-]; [destruct (Hold Ha) as [?|[? ?]]; [by left|right; split; [apply elem_of_app; by left|done]]|right].
      split; [apply elem_of_app; right; by left|]. rewrite take_ge by (rewrite length_fmap; lia). subst hist'. rewrite fmap_app. apply elem_of_app. right. by left.
    + exists xs. left. exists idx', hist', u'. split; cbn [set_buf hd_wal hd_buf]; try done. by rewrite Hn.
  - destruct HP. destruct (write_closed (hd_wal h) d (line_record x) flt lp_closed0) as [e Ew]. rewrite Ew in Hw. injection Hw as <- <- <-. exists xs. right. exists hist. by split.
Qed.
Lemma append_up h d s (a : Prop) x flt now1 now2 env res hooks w' : ok s -> log_up h d s a -> line_known U x -> (forall k, flt <> FailWrite (Datatypes.S k)) -> segIndex (hd_wal h) + 2 <= MaxInt64 -> sinceSynced (hd_wal h) < MaxInt64 ->
  flush_allowed ingest may (put_in (hd_buf h) x) (hd_opts h) env s -> head_Append ingest (mkWorld h d s) (li_labels x) (li_ts x) (li_line x) flt now1 now2 env = (res, hooks, w') ->
  ok (w_sink w') /\ log_up (w_head w') (w_disk w') (w_sink w') (a \/ x0 = x /\ res = Ok tt).
Proof.
  intros Hok Hup Hx Hflt Hroom Hsi Hm. unfold head_Append. cbn [w_head w_disk w_sink]. destruct (WriteRecord _ _ _ flt) as [[r wal] d1] eqn:Ew. pose proof (write_up _ _ _ _ _ _ _ _ _ Hup Hx Hflt Hroom Hsi Ew) as H1.
  destruct r as [[]|e]; [|intros [= <- _ <-]; split; [done|]; cbn [w_head w_disk w_sink]; eapply up_mono; [exact H1|by intros [?|[_ ?]]|done]].
  set (h1 := set_buf _ wal h). change (buffer_line (hd_buf h) (li_labels x) (li_ts x) (li_line x)) with (put_in (hd_buf h) x) in *. destruct (_ && _)%bool.
  - intros Hf. destruct (threshold_up h1 d1 s (a \/ x0 = x) now1 now2 env res hooks w' Hok H1 Hm Hf) as [G1 G2]. split; [done|]. eapply up_mono; [exact G2|tauto|done].
  - intros [= <- _ <-]. split; [done|]. eapply up_mono; [exact H1|cbn [w_head w_disk w_sink]; tauto|done].
Qed.
Lemma close_up h d s (a : Prop) flt res wal d' : log_up h d s a -> Close (R := logRecord) (hd_wal h) d flt = (res, wal, d') -> log_up (set_buf (hd_buf h) wal h) d' s a.
Proof.
  intros (xs & [(idx & hist & u & HL)|(hist & HP)]) Hc; exists xs.
  - left. pose proof HL as []. destruct (Close_effect line_ok MaxInt64 _ _ _ _ _ _ _ _ _ ll_holds0 ll_tracks0 Hc) as (u' & Hh & Hu & Ht & Hsi). exists idx, hist, u'.
    assert (Hn : syncEveryN wal = syncEveryN (hd_wal h)) by (unfold Close in Hc; destruct (current (hd_wal h)); [by simplify_eq| |]; repeat case_match; by simplify_eq).
    split; cbn [set_buf hd_wal hd_buf]; try done; [by rewrite Hn, Hsi|]. intros [?|[? Hr]]%ll_acked0; [by left|right]. split; [done|]. rewrite <- (app_nil_r (hist.*2)). by eapply elem_of_take_grows.
  - right. exists hist. destruct HP. unfold Close in Hc. destruct (current (hd_wal h)) eqn:Ecur; [| |done]; simplify_eq; split; cbn [set_buf hd_wal hd_buf]; try done; by rewrite Ecur.
Qed.
Lemma sync_up h d s (a : Prop) flt res d' : log_up h d s a -> Sync (hd_wal h) d flt = (res, d') -> log_up h d' s a.
Proof.
  intros (xs & [(idx & hist & u & HL)|(hist & HP)]) Hc; exists xs.
  - left. pose proof HL as []. destruct (Sync_effect line_ok MaxInt64 _ _ _ _ _ _ _ _ ll_holds0 ll_tracks0 Hc) as (u' & Hh & Hu & _). exists idx, hist, u'. split; try done.
    intros [?|[? Hr]]%ll_acked0; [by left|right]. split; [done|]. rewrite <- (app_nil_r (hist.*2)). by eapply elem_of_take_grows.
  - right. exists hist. destruct HP. unfold Sync in Hc. assert (d' = d) as ->; [|by split]. destruct (decide (current (hd_wal h) = NoFile)); [by simplify_eq|]. destruct (broken _); [by simplify_eq|].
    destruct (decide (current (hd_wal h) = ClosedFile)); [by simplify_eq|]. by destruct (current (hd_wal h)).
Qed.
Lemma crash_up h d s (a : Prop) d' : log_up h d s a -> crash d d' -> map_Forall (fun _ f => ~ prefix_tear line_ok (f_data f)) d' -> log_asleep d' s a.
Proof.
  intros (xs & [(idx & hist & u & [])|(hist & [])]) Hc Hp.
  - exists hist, u. split; [right; exists idx; by eapply (crash_holds line_ok MaxInt64)|]. split; [done|]. intros [?|[_ ?]]%ll_acked0; auto.
  - exists hist, (length hist). rewrite (crash_synced d d') by (done || by eapply (down_synced line_ok MaxInt64)). split_and!; [done|done|]. auto.
Qed.

Lemma up_not_torn h d s (a : Prop) : log_up h d s a -> map_Forall (fun _ f => ~ prefix_tear line_ok (f_data f)) d.
Proof.
  intros (xs & [(idx & hist & u & [])|(hist & [])]); apply not_torn; [by eapply (holds_not_torn line_ok MaxInt64)|by eapply (down_not_torn line_ok MaxInt64)].
Qed.

(** A start: replay rebuilds the head from the log. *)
Lemma restore_known xs b : Forall (line_known U) xs -> fold_left restore_line (line_record <$> xs) b = fold_left put_in xs b.
Proof.
  intros HF. revert b. induction HF as [|x xs (Hx & _) HF IH]; intros b; [done|]. cbn [fmap list_fmap fold_left]. rewrite <- IH. f_equal.
  unfold restore_line, line_record, log_record. cbn [lr_labels lr_ts lr_line]. rewrite pairs_map_labels. pose proof (LU_stored U HU _ Hx) as Hs. unfold stored_labels in Hs. by rewrite Hs.
Qed.
Lemma known_lines (rs : list logRecord) : Forall rec_known rs -> exists xs, rs = line_record <$> xs /\ Forall (line_known U) xs.
Proof. induction 1 as [|r rs (x & -> & Hx) _ (xs & -> & HF)]; [by exists []|]. exists (x :: xs). split; [done|by constructor]. Qed.
Lemma Open_policy (d : disk) segMax syncEvery flt w d' : Open (R := logRecord) d segMax syncEvery flt = (Ok w, d') -> syncEveryN w = syncEvery /\ sinceSynced w = 0.
Proof. unfold Open, openSegment. repeat (destruct (decide _); [done|]). intros H. by simplify_eq. Qed.
Lemma boot_up d s (a : Prop) segMax thresh opts flt o d' : (a -> line_known U x0) -> log_asleep d s a -> log_room d -> OpenHead d segMax 1 thresh opts flt = (o, d') ->
  match o with Ok h => log_up h d' s a /\ (~ kept s -> a -> exists xs, hd_buf h = buffer_of xs /\ Forall (line_known U) xs /\ x0 ∈ xs) | Err _ => flt <> NoFault /\ log_asleep d' s a end.
Proof using HU.
  clear LogSink0. clear ok moves may ingest. intros Hx0 (hist & u & Hd & Hr & Ha) Hroom. unfold OpenHead. destruct (replay_down line_ok MaxInt64 d hist u Hd) as (rs & lo & segs & Hpre & Hu & Hrep & _ & HFs & Hf & _). rewrite Hrep.
  destruct (Open (R := logRecord) (layout lo segs) segMax 1 flt) as [o2 d2] eqn:Eo. destruct (restart_inv line_ok MaxInt64 _ _ _ _ _ _ _ _ _ _ Hd Hroom Hrep Eo) as (Hinv & _ & _).
  assert (Ers : (take (length rs) hist).*2 = rs) by (rewrite fmap_take; destruct Hpre as [k Hk]; rewrite Hk; by apply take_app_length).
  assert (Hrecs : Forall (fun e => rec_known e.2) (take (length rs) hist)) by (by apply Forall_take).
  assert (Hin : line_record x0 ∈ take u hist.*2 -> line_record x0 ∈ rs) by (intros H; rewrite <- Ers, fmap_take, <- (app_nil_r (hist.*2)); by eapply elem_of_take_grows).
  destruct o2 as [w|e].
  - intros [= <- <-]. destruct Hinv as (idx & u' & Hh & Ht & Hu' & Hs0 & Hl). cbn [s_disk s_hist s_dur] in *. destruct (Open_policy _ _ _ _ _ _ Eo) as [Hsy Hsi].
    destruct (known_lines rs) as (xs & -> & HF); [rewrite <- Ers; by apply Forall_fmap|]. rewrite restore_known by done. fold (buffer_of xs).
    assert (Hxs : a -> kept s \/ x0 ∈ xs).
    { intros H. destruct (Ha H) as [?|(x & Ex & Hx)%Hin%list_elem_of_fmap]; [by left|right]. assert (x0 = x) as ->; [|done]. apply line_record_inj; [auto| |done]. rewrite Forall_forall in HF. by apply HF. }
    split; [|intros Hk H; exists xs; split; [done|]; split; [done|]; by destruct (Hxs H)]. exists xs. left. exists idx, (take (length (line_record <$> xs)) hist), u'. split; cbn [hd_wal hd_buf]; try done.
    intros H. destruct (Hxs H) as [?|Hx]; [by left|right]. split; [done|]. rewrite Ers. rewrite take_ge by lia. by apply list_elem_of_fmap_2.
  - intros [= <- <-]. cbn in Hinv. split.
    + intros ->. unfold Open, openSegment in Eo. by rewrite !decide_False in Eo.
    + exists (take (length rs) hist), (length rs). split; [done|]. split; [done|]. intros H. destruct (Ha H) as [?|Hx]; [by left|right]. rewrite Ers, take_ge by done. by apply Hin.
Qed.

Lemma log_step_inv g g' : (x0 ∈ lg_acked g -> line_known U x0) -> log_step spared g g' -> log_inv g -> log_inv g'.
Proof.
  intros Hx0 Hst [Hok Hi]. destruct Hst; cbn [lg_up lg_disk lg_sink lg_acked] in *.
  - eapply append_up in Hi; [|done..]. destruct Hi as [G1 G2]. split; [done|]. eapply up_mono; [exact G2| |done]. unfold acknowledge. destruct res as [[]|e]; [|by left]. intros [?| ->%list_elem_of_singleton]%elem_of_app; [by left|by right].
  - unfold FlushContext in *. destruct locked; cbn [negb] in *; [|simplify_eq; by split]. destruct (flushLocked ingest _ env) as [[fl r] w1] eqn:Ef. destruct (flush_up _ _ _ _ _ _ _ _ Hok Hi ltac:(done) Ef) as [G1 G2]. by simplify_eq.
  - unfold head_Close in *. destruct (flushLocked ingest _ env) as [[fl r] w1] eqn:Ef. destruct (flush_up _ _ _ _ _ _ _ _ Hok Hi ltac:(done) Ef) as [G1 G2]. destruct (Close _ _ flt) as [[cr wal] d1] eqn:Ec.
    pose proof (close_up _ _ _ _ _ _ _ _ G2 Ec) as G3. by simplify_eq.
  - unfold CloseWithoutFlushContext in *. cbn [w_head w_disk w_sink] in *. destruct locked.
    + destruct (Close _ _ flt) as [[cr wal] d1] eqn:Ec. pose proof (close_up _ _ _ _ _ _ _ _ Hi Ec) as G3. by simplify_eq.
    + destruct (Sync _ _ flt) as [sr d1] eqn:Ec. pose proof (sync_up _ _ _ _ _ _ _ Hi Ec) as G3. by simplify_eq.
  - destruct (sink_moves _ _ Hok ltac:(done)) as [G1 G2]. split; [done|]. destruct h as [h|]; [by eapply up_mono|]. destruct Hi as (hist & u & ? & ? & Ha). exists hist, u. split_and!; [done|done|]. intros [?|?]%Ha; auto.
  - split; [done|]. assert (Hp : map_Forall (fun _ f => ~ prefix_tear line_ok (f_data f)) d') by (apply not_torn; unfold spared in *; tauto). destruct o as [h|]; [by eapply crash_up|].
    destruct Hi as (hist & u & Hd & ?). exists hist, u. rewrite (crash_synced d d') by (done || by eapply (down_synced line_ok MaxInt64)). done.
  - split; [done|]. destruct o as [h|]; [|done]. assert (Hall : all_synced d) by (destruct (decide (all_synced d)); unfold spared in *; tauto). eapply crash_up; [exact Hi|by apply crash_refl|]. by eapply up_not_torn.
  - split; [done|]. pose proof (boot_up _ _ _ _ _ _ _ _ _ Hx0 Hi ltac:(done) ltac:(done)) as Hb. destruct o as [h|e]; [apply Hb|]. by destruct Hb.
Qed.
End life.

(** ** What is found of an acknowledged line *)

(** A line a reader of the head finds, under its labels. *)
Definition head_finds (b : buffer) (x : line_in) : Prop :=
  head_StreamLabelSet b (StreamIDOf (li_labels x)) = Some (li_labels x) /\
  forall lo hi, lo <= li_ts x <= hi -> le_key (li_entry x) ∈ le_key <$> head_StreamEntries b (StreamIDOf (li_labels x)) lo hi.
Lemma view_finds lo hi raw e : e ∈ raw -> lo <= le_ts e <= hi -> le_key e ∈ le_key <$> view lo hi raw.
Proof.
  intros He Hw. assert (Hk : le_key e ∈ keys_of (view lo hi raw)).
  { apply view_keys. exists e. split_and!; [done| |done]. unfold in_window. apply negb_true_iff, orb_false_iff. rewrite !Z.ltb_ge. lia. }
  apply elem_of_keys in Hk as (e' & He' & <-). by apply list_elem_of_fmap_2.
Qed.
Lemma buffer_label U xs x : label_universe U -> Forall (line_known U) xs -> x ∈ xs -> head_StreamLabelSet (buffer_of xs) (StreamIDOf (li_labels x)) = Some (li_labels x).
Proof.
  intros HU HF Hx. assert (Hh : is_Some (bf_head (buffer_of xs) !! StreamIDOf (li_labels x))) by (apply buffer_has; eauto). destruct Hh as [hs Hh].
  destruct (buffer_stream_known U xs _ hs HF Hh) as (HUl & Hid & _). unfold head_StreamLabelSet. rewrite Hh. cbn. f_equal. rewrite Forall_forall in HF. destruct (HF x Hx) as (HUx & _). by apply (LU_hash U HU).
Qed.
Lemma buffer_finds U xs x : label_universe U -> Forall (line_known U) xs -> x ∈ xs -> head_finds (buffer_of xs) x.
Proof.
  intros HU HF Hx. split; [by eapply buffer_label|]. intros lo hi Hw. unfold head_StreamEntries. rewrite mergeEntries_nil. apply view_finds; [|done]. rewrite buffer_entries. apply list_elem_of_fmap_2. by apply of_stream_elem.
Qed.

Section theorems.
Context {S I E : Type} (ingest : I -> S -> list StreamData -> result E unit * S) (may : I -> S -> list StreamData -> Prop) (moves : S -> S -> Prop) (ok kept : S -> Prop) (U : Labels -> Prop) (s0 : S).

Lemma acked_known exposed g g' : Forall (line_known U) (lg_acked g) -> log_step ingest may moves U exposed g g' -> Forall (line_known U) (lg_acked g').
Proof.
  intros HF Hst. destruct Hst; cbn [lg_acked] in *; try done. unfold acknowledge. destruct res; [|done]. apply Forall_app. split; [done|]. by apply Forall_singleton.
Qed.
Lemma reachable_acked exposed g : log_reachable ingest may moves U s0 exposed g -> Forall (line_known U) (lg_acked g).
Proof.
  unfold log_reachable. assert (H0 : Forall (line_known U) (lg_acked (mkLSys None ∅ s0 []))) by constructor. revert H0. generalize (mkLSys None ∅ s0 []). intros g0 H0 Hr. revert H0.
  induction Hr as [|g1 g2 g3 Hs _ IH]; [done|]. intros H1. apply IH. by eapply acked_known.
Qed.
Lemma log_reachable_inv x0 g : label_universe U -> LogSink ingest may moves ok kept (li_labels x0) (li_entry x0) -> ok s0 -> log_reachable ingest may moves U s0 spared g -> log_inv ok kept U x0 g.
Proof.
  intros HU HS Hok Hr. assert (H0 : log_inv ok kept U x0 (mkLSys None ∅ s0 [])).
  { split; [done|]. exists [], 0%nat. split_and!; [by left|constructor|]. by intros ?%elem_of_nil. }
  assert (Ha : Forall (line_known U) (lg_acked (mkLSys None ∅ s0 []))) by constructor. revert H0 Ha. unfold log_reachable in Hr. revert Hr. generalize (mkLSys None ∅ s0 []). intros g0 Hr.
  induction Hr as [|g1 g2 g3 Hs _ IH]; [done|]. intros H1 Ha. apply IH; [|by eapply acked_known]. eapply log_step_inv; [done..| |done|done]. intros Hx. rewrite Forall_forall in Ha. by apply Ha.
Qed.

(** C25. No acknowledged line is lost in a run that is spared the log's hazards: no
    append cut short after some of its bytes, no crash that leaves just the length
    prefix of a record, no process that dies on a running machine with unsynced bytes
    in its log (the code survives none of the three). However pushes, flushes, sink
    failures, half-done checkpoints, closes, machine crashes, processes killed and
    starts follow one another otherwise, a line the head has acknowledged is durable
    in the sink, or it is in the head under its labels where every read over its
    timestamp finds it; and while the process is down, the next start that the
    operating system does not fail succeeds and brings it back. *)
Theorem no_acknowledged_line_lost (x0 : line_in) (g : lsys S) : label_universe U -> LogSink ingest may moves ok kept (li_labels x0) (li_entry x0) -> ok s0 ->
  log_reachable ingest may moves U s0 spared g -> x0 ∈ lg_acked g ->
  kept (lg_sink g) \/
  match lg_up g with
  | Some h => head_finds (hd_buf h) x0
  | None => forall segMax thresh opts, log_room (lg_disk g) -> exists h d', OpenHead (lg_disk g) segMax 1 thresh opts NoFault = (Ok h, d') /\ head_finds (hd_buf h) x0
  end.
Proof.
  intros HU HS Hok Hr Hx. pose proof (reachable_acked spared g Hr) as Ha. rewrite Forall_forall in Ha. specialize (Ha x0 Hx). destruct (log_reachable_inv x0 g HU HS Hok Hr) as [_ Hi].
  destruct (lg_up g) as [h|].
  - destruct Hi as (xs & [(idx & hist & u & [])|(hist & [])]); [|left; auto]. destruct (ll_acked0 Hx) as [?|[Hin _]]; [by left|right]. rewrite ll_buf0. by eapply buffer_finds.
  - destruct Hi as (hist & u & Hd & Hrec & Hk). destruct (Hk Hx) as [?|Hin]; [by left|right]. intros segMax thresh opts Hroom. destruct (OpenHead (lg_disk g) segMax 1 thresh opts NoFault) as [o d'] eqn:Eo.
    assert (Hsl : log_asleep (S := S) (fun _ => False) U x0 (lg_disk g) s0 True) by (exists hist, u; split_and!; [done|done|by right]).
    pose proof (boot_up (S := S) (fun _ => False) U HU x0 _ s0 True segMax thresh opts NoFault o d' ltac:(done) Hsl Hroom Eo) as Hb. destruct o as [h|e]; [|by destruct Hb]. exists h, d'. split; [done|].
    destruct (proj2 Hb ltac:(tauto) Logic.I) as (xs & -> & HF & Hxs). by eapply buffer_finds.
Qed.
End theorems.

(** The head's figures are exact. After any lines, each stream holds its own
    lines in the order they were appended; a tenant's count is the number of its
    streams, absent when there is none; and the size compared with the flush
    threshold is the number of bytes appended, kept in 64 bits. *)
Theorem head_buffer_exact (xs : list line_in) :
  (forall id, headEntries (buffer_of xs) id = li_entry <$> of_stream id xs) /\
  (forall id, HasStream (buffer_of xs) id = bool_decide (of_stream id xs <> [])) /\
  (forall t, TenantStreams (buffer_of xs) t = Z.of_nat (tenant_streams (bf_head (buffer_of xs)) t) /\
    (TenantStreamCounts (buffer_of xs) !! t = None <-> tenant_streams (bf_head (buffer_of xs)) t = 0%nat)) /\
  bf_bytes (buffer_of xs) = i64 (bytes_of xs).
Proof.
  split_and!; [apply buffer_entries| | |apply buffer_bytes].
  - intros id. unfold HasStream. apply bool_decide_ext. rewrite buffer_stream. destruct (of_stream id xs); [split; [by intros [? ?]|done]|split; [done|by eexists]].
  - intros t. unfold TenantStreams, TenantStreamCounts. rewrite buffer_tenants. cbv zeta. destruct (Nat.eqb_spec (tenant_streams (bf_head (buffer_of xs)) t) 0) as [E|E]; [by rewrite E|]. split; [done|]. split; [done|]. by intros.
Qed.

(** What a flush of the lines of [b] comes to: the batches go to the sink in turn until
    one is refused, and then the log is checkpointed. *)
Definition flush_outcome {S I E : Type} (ingest : I -> S -> list StreamData -> result E unit * S) (b : buffer) (opts : HeadOptions) (wal : WAL) (d : disk) (sink : S) (env : flush_env I) : result (headErr E) unit :=
  match send_batches ingest (fe_sink env) 0 (BatchStreams (snapshotLocked b) (ho_BatchBytes opts)) sink with
  | (Err e, _) => Err (HeSink e)
  | (Ok _, _) => match Checkpoint wal d (fe_wal env) (fe_rm env) with (Err e, _, _) => Err (HeWAL e) | (Ok _, _, _) => Ok tt end
  end.

(** C26. What a push comes to, on every branch. A push the log refused answers the
    log's error, tells the hook nothing and changes neither the lines nor the sink.
    Once the line is logged it is in the head; below the threshold, and in a tolerant
    head that is backing off, nothing is sent, the hook is told nothing and the push
    answers success. Otherwise one flush is attempted and the hook is told its
    outcome, success or error, exactly once. After a success the head is empty and
    the push succeeds. After a failure every line stays in the head; a strict head
    answers the failure and starts no backoff, a tolerant one answers success and
    backs off for [FlushBackoff] from the failure on. *)
Theorem push_outcome {S I E : Type} (ingest : I -> S -> list StreamData -> result E unit * S) (w w' : world S) (x : line_in) (flt : fault) (now1 now2 : Z) (env : flush_env I)
    (res : result (headErr E) unit) (hooks : list (result (headErr E) unit)) (logged : result walErr unit) (wal : WAL) (d : disk) :
  let h := w_head w in
  let tolerant := ho_TolerateFlushErrors (hd_opts h) in
  let b := put_in (hd_buf h) x in
  WriteRecord (hd_wal h) (w_disk w) (line_record x) flt = (logged, wal, d) ->
  head_Append ingest w (li_labels x) (li_ts x) (li_line x) flt now1 now2 env = (res, hooks, w') ->
  match logged with
  | Err e => res = Err (HeWAL e) /\ hooks = [] /\ hd_buf (w_head w') = hd_buf h /\ hd_backoffUntil (w_head w') = hd_backoffUntil h /\ w_sink w' = w_sink w
  | Ok _ =>
      if ((0 <? hd_flushThresh h) && (hd_flushThresh h <=? bf_bytes b) && negb (tolerant && (now1 <? hd_backoffUntil h)))%bool then
        let outcome := flush_outcome ingest b (hd_opts h) wal d (w_sink w) env in
        hooks = [outcome] /\
        match outcome with
        | Ok _ => res = Ok tt /\ hd_buf (w_head w') = empty_buffer /\ hd_backoffUntil (w_head w') = hd_backoffUntil h
        | Err _ => hd_buf (w_head w') = b /\ res = (if tolerant then Ok tt else outcome) /\
            hd_backoffUntil (w_head w') = (if tolerant then now2 + ho_FlushBackoff (hd_opts h) else hd_backoffUntil h)
        end
      else res = Ok tt /\ hooks = [] /\ hd_buf (w_head w') = b /\ hd_backoffUntil (w_head w') = hd_backoffUntil h /\ w_sink w' = w_sink w
  end.
Proof.
  intros h0 tolerant b Hw. unfold head_Append. change (log_record (li_labels x) (li_ts x) (li_line x)) with (line_record x). fold h0. rewrite Hw. destruct logged as [[]|e]; [|by intros [= <- <- <-]].
  set (h := set_buf _ wal h0). assert (Hne : bf_head (hd_buf h) <> ∅).
  { intros Eh. assert (Hl : bf_head (hd_buf h) !! StreamIDOf (li_labels x) = None) by (rewrite Eh; apply lookup_empty). cbn [h set_buf hd_buf buffer_line bf_head] in Hl. rewrite put_line_lookup in Hl. by rewrite decide_True in Hl. }
  change (hd_flushThresh h) with (hd_flushThresh h0). change (bf_bytes (hd_buf h)) with (bf_bytes b). destruct (_ && (hd_flushThresh h0 <=? bf_bytes b))%bool; [|by intros [= <- <- <-]]. cbn [andb].
  unfold thresholdFlushLocked. cbn [w_head w_sink]. change (ho_TolerateFlushErrors (hd_opts h)) with tolerant. change (hd_backoffUntil h) with (hd_backoffUntil h0).
  destruct (tolerant && _)%bool eqn:Eb; cbn [negb]; [by intros [= <- <- <-]|]. unfold flushLocked, flush_outcome. cbn [w_head w_disk w_sink]. rewrite decide_False by done.
  change (hd_buf h) with b. change (hd_opts h) with (hd_opts h0). change (hd_wal h) with wal.
  destruct (send_batches _ _ _ _ _) as [[[]|e1] s1]; [destruct (Checkpoint _ _ _ _) as [[[[]|e2] wal2] d2]|]; cbn [report]; destruct tolerant; intros Hres; simplify_eq; done.
Qed.

(** ** Witnesses: a sink that records what it is given *)

Definition record_sink (i : bool) (s : list StreamData) (b : list StreamData) : result unit unit * list StreamData := if i then (Ok tt, s ++ b) else (Err tt, s).
Definition record_kept (l : Labels) (e : LogEntry) (s : list StreamData) : Prop := (l, e) ∈ log_flat s.
Lemma record_sink_laws l e : LogSink record_sink (fun _ _ _ => True) (fun s s' => s' = s) (fun _ => True) (record_kept l e) l e.
Proof.
  split.
  - intros i s b res s' _ _ _. unfold record_sink, record_kept. destruct i; intros [= <- <-]; rewrite ?log_flat_app; (split; [done|]); split; [by intros; apply elem_of_app; left|by intros _ ?; apply elem_of_app; right|done|done].
  - by intros s s' _ ->.
Qed.
Definition demo_push_labels : Labels := build {["app" := "api"]}.
Definition demo_line_in : line_in := mkLine demo_push_labels 5 "hello".
Definition demo_push_U (l : Labels) : Prop := l = demo_push_labels.
Lemma demo_push_universe : label_universe demo_push_U.
Proof. split; [intros l ->; unfold stored_labels; vm_compute; reflexivity|by intros l l' -> ->]. Qed.
Definition demo_head_boot : result walErr Head * disk := OpenHead ∅ 1000 1 20 (mkOpts true 0 0 0) NoFault.
Definition demo_head0 : Head := match demo_head_boot.1 with Ok h => h | Err _ => mkHead empty_buffer (mkWAL 0 0 NoFile 0 0 0 true 0 0) 0 (mkOpts true 0 0 0) 0 end.
Definition demo_env : flush_env bool := mkFE (fun _ => false) NoFault None.
(** The push crosses no threshold; a flush then fails in the sink. *)
Definition demo_pushed : result (headErr unit) unit * list (result (headErr unit) unit) * world (list StreamData) :=
  head_Append record_sink (mkWorld demo_head0 demo_head_boot.2 []) demo_push_labels 5 "hello" NoFault 0 0 demo_env.
Definition demo_refused : result (headErr unit) unit * list (result (headErr unit) unit) * world (list StreamData) := FlushContext record_sink demo_pushed.2 true demo_env.
Definition demo_crash_state : lsys (list StreamData) := mkLSys None (w_disk demo_refused.2) (w_sink demo_refused.2) [demo_line_in].
Lemma demo_push_ok : demo_pushed = (Ok tt, [], demo_pushed.2).
Proof. apply injective_projections; [vm_compute; reflexivity|reflexivity]. Qed.
Lemma demo_line_known : line_known demo_push_U demo_line_in.
Proof. split; [done|]. split; [unfold in_i64; cbn [demo_line_in li_ts]; lia|vm_compute; discriminate]. Qed.
Lemma demo_room0 : log_room ∅.
Proof. intros i _ [? H]. done. Qed.
Lemma demo_allowed (b : buffer) o s : flush_allowed record_sink (fun _ _ _ => True) b o demo_env s.
Proof. unfold flush_allowed. generalize 0%nat. revert s. induction (BatchStreams _ _) as [|x xs IH]; intros s n; cbn [may_send]; [done|]. split; [done|]. destruct (record_sink _ _ _) as [[] ?]; [apply IH|done]. Qed.
Lemma demo_log_synced : w_disk demo_refused.2 = {[segmentPath 1 := mkFile (seg_bytes [line_record demo_line_in]) (length (seg_bytes [line_record demo_line_in]))]}.
Proof. vm_compute. reflexivity. Qed.
Lemma demo_line_writable_in : writable line_ok (line_record demo_line_in).
Proof. split; [exact (line_record_ok demo_push_U demo_line_in demo_line_known)|vm_compute; reflexivity]. Qed.
Lemma demo_boot_log : log_step record_sink (fun _ _ _ => True) (fun s s' => s' = s) demo_push_U spared (mkLSys None ∅ [] []) (mkLSys (Some demo_head0) demo_head_boot.2 [] []).
Proof. refine (log_boot _ _ _ _ spared ∅ [] [] 1000 20 (mkOpts true 0 0 0) NoFault (Ok demo_head0) demo_head_boot.2 demo_room0 _). apply injective_projections; [vm_compute; reflexivity|reflexivity]. Qed.
Lemma demo_append_log : log_step record_sink (fun _ _ _ => True) (fun s s' => s' = s) demo_push_U spared (mkLSys (Some demo_head0) demo_head_boot.2 [] [])
  (mkLSys (Some (w_head demo_pushed.2)) (w_disk demo_pushed.2) (w_sink demo_pushed.2) [demo_line_in]).
Proof.
  refine (log_append _ _ _ _ spared demo_head0 demo_head_boot.2 [] [] demo_line_in NoFault 0 0 demo_env (Ok tt) [] demo_pushed.2 demo_line_known _ _ _ (demo_allowed _ _ _) demo_push_ok); [done|vm_compute; discriminate|vm_compute; reflexivity].
Qed.
Lemma demo_flush_log : log_step record_sink (fun _ _ _ => True) (fun s s' => s' = s) demo_push_U spared (mkLSys (Some (w_head demo_pushed.2)) (w_disk demo_pushed.2) (w_sink demo_pushed.2) [demo_line_in])
  (mkLSys (Some (w_head demo_refused.2)) (w_disk demo_refused.2) (w_sink demo_refused.2) [demo_line_in]).
Proof.
  refine (log_flush _ _ _ _ spared (w_head demo_pushed.2) (w_disk demo_pushed.2) (w_sink demo_pushed.2) _ true demo_env demo_refused.1.1 demo_refused.1.2 demo_refused.2 (demo_allowed _ _ _) _).
  rewrite <- !surjective_pairing. unfold demo_refused. f_equal.
Qed.
Lemma demo_crash_log : log_step record_sink (fun _ _ _ => True) (fun s s' => s' = s) demo_push_U spared (mkLSys (Some (w_head demo_refused.2)) (w_disk demo_refused.2) (w_sink demo_refused.2) [demo_line_in]) demo_crash_state.
Proof.
  apply log_crash; [rewrite demo_log_synced|intros (p & f & Hp & Ht)].
  - intros p. destruct (decide (p = segmentPath 1)) as [->|Hne].
    + rewrite lookup_singleton_eq. constructor. eexists. split; [split; [apply le_n|done]|]. cbn [f_data f_synced]. by rewrite firstn_all.
    + rewrite lookup_singleton_ne by done. constructor.
  - rewrite demo_log_synced in Hp. apply lookup_singleton_Some in Hp as [_ <-]. cbn [f_data] in Ht. rewrite <- (app_nil_r (seg_bytes _)) in Ht. apply (not_prefix_tear line_ok MaxInt64) in Ht; [done| |by left]. constructor; [exact demo_line_writable_in|constructor].
Qed.
Lemma demo_log_reachable : log_reachable record_sink (fun _ _ _ => True) (fun s s' => s' = s) demo_push_U [] spared demo_crash_state.
Proof.
  eapply rtc_l; [exact demo_boot_log|]. eapply rtc_l; [exact demo_append_log|]. eapply rtc_l; [exact demo_flush_log|]. apply rtc_once. exact demo_crash_log.
Qed.
Lemma demo_log_room : log_room (lg_disk demo_crash_state).
Proof.
  change (lg_disk demo_crash_state) with (w_disk demo_refused.2). rewrite demo_log_synced. intros i Hi [f Hf]. apply lookup_singleton_Some in Hf as [Hp _]. apply segmentPath_inj in Hp; unfold MaxInt64 in *; lia.
Qed.
Lemma no_acknowledged_line_lost_witness : demo_line_in ∈ lg_acked demo_crash_state /\
  (record_kept demo_push_labels (li_entry demo_line_in) (lg_sink demo_crash_state) \/
   exists h d', OpenHead (lg_disk demo_crash_state) 1000 1 20 (mkOpts true 0 0 0) NoFault = (Ok h, d') /\ head_finds (hd_buf h) demo_line_in).
Proof.
  split; [by left|]. destruct (no_acknowledged_line_lost record_sink (fun _ _ _ => True) (fun s s' => s' = s) (fun _ => True) (record_kept demo_push_labels (li_entry demo_line_in)) demo_push_U [] demo_line_in demo_crash_state
    demo_push_universe (record_sink_laws _ _) Logic.I demo_log_reachable ltac:(by left)) as [H|H]; [by left|right]. exact (H 1000 20 (mkOpts true 0 0 0) demo_log_room).
Defined.
(** The push crosses a threshold of one byte, and the sink refuses the flush. *)
Definition demo_small : world (list StreamData) := mkWorld (mkHead empty_buffer (hd_wal demo_head0) 1 (mkOpts true 30 0 0) 0) demo_head_boot.2 [].
Definition demo_over : result (headErr unit) unit * list (result (headErr unit) unit) * world (list StreamData) := head_Append record_sink demo_small demo_push_labels 5 "hello" NoFault 100 200 demo_env.
Lemma demo_push_logged : exists wal d, WriteRecord (R := logRecord) (hd_wal (w_head demo_small)) (w_disk demo_small) (line_record demo_line_in) NoFault = (Ok tt, wal, d).
Proof. eexists _, _. vm_compute. reflexivity. Qed.
Lemma demo_over_due : ((0 <? hd_flushThresh (w_head demo_small)) && (hd_flushThresh (w_head demo_small) <=? bf_bytes (put_in (hd_buf (w_head demo_small)) demo_line_in)) &&
  negb (ho_TolerateFlushErrors (hd_opts (w_head demo_small)) && (100 <? hd_backoffUntil (w_head demo_small))))%bool = true.
Proof. vm_compute. reflexivity. Qed.
Lemma demo_over_outcome wal d : flush_outcome record_sink (put_in (hd_buf (w_head demo_small)) demo_line_in) (hd_opts (w_head demo_small)) wal d (w_sink demo_small) demo_env = Err (HeSink tt).
Proof. vm_compute. reflexivity. Qed.
Lemma demo_over_eq : head_Append record_sink demo_small (li_labels demo_line_in) (li_ts demo_line_in) (li_line demo_line_in) NoFault 100 200 demo_env = (demo_over.1.1, demo_over.1.2, demo_over.2).
Proof. rewrite <- !surjective_pairing. reflexivity. Qed.
#[local] Strategy 100 [demo_over demo_small].
(** The hook hears of it, the push succeeds, and the head backs off. *)
Lemma push_outcome_witness : demo_over.1.2 = [Err (HeSink tt)] /\ demo_over.1.1 = Ok tt /\ hd_backoffUntil (w_head demo_over.2) = 230.
Proof.
  destruct demo_push_logged as (wal & d & Hw). pose proof (push_outcome record_sink demo_small demo_over.2 demo_line_in NoFault 100 200 demo_env demo_over.1.1 demo_over.1.2 (Ok tt) wal d Hw demo_over_eq) as H.
  cbv zeta iota in H. rewrite demo_over_due, demo_over_outcome in H. destruct H as (H1 & _ & H2 & H3). split; [exact H1|]. split; [exact H2|exact H3].
Defined.
