(* ===== verification/LogDisk.v ===== *)
(** * LogDisk: head and chunks as one log store

    [internal/logs/diskstore.go]: the all-in-one store, a head whose sink is the chunk
    store beside it. Every read is over both halves; a flush moves lines from one to
    the other without changing an answer. *)
From stdpp Require Import strings.
From S2P Require Import Prelude GoLib GoSort Labels Postings Source WalCodec SegName Wal WalRecovery WalLogs HeadWal Limits GoCodec LogChunk LogStream LogFile LogIndex LogBatch LogStore LogHead.

Section disk.
Context `{MO : MapOrder} `{F : Flate}.

(** The sink's part in one call: what each chunk write and the manifest write do. *)
Definition store_input : Type := (nat -> write_outcome) * manifest_outcome.
Definition store_ingest (i : store_input) (cs : ChunkStore) (b : list StreamData) : result storeErr unit * ChunkStore := IngestStreams b i.1 i.2 cs.
(** [Store]: the head, its log directory, the chunk store. *)
Definition Store : Type := world ChunkStore.
Inductive openErr := OeChunks (e : storeErr) | OeHead (e : walErr).
Definition NewStore (logs : disk) (chunks : logdir) (segMax syncEvery thresh : Z) (mout : manifest_outcome) (flt : fault) : result openErr Store :=
  match OpenChunkStore chunks mout with
  | (Err e, _) => Err (OeChunks e)
  | (Ok cs, _) =>
      match OpenHead logs segMax syncEvery thresh (mkOpts false 0 0 0) flt with
      | (Err e, _) => Err (OeHead e)
      | (Ok h, d) => Ok (mkWorld h d cs)
      end
  end.
Definition Store_Append (s : Store) (l : Labels) (ts : Z) (line : string) (flt : fault) (env : flush_env store_input) : result (headErr storeErr) unit * list (result (headErr storeErr) unit) * Store :=
  head_Append store_ingest s l ts line flt 0 0 env.
Definition Store_Flush (s : Store) (env : flush_env store_input) : result (headErr storeErr) unit * list (result (headErr storeErr) unit) * Store := FlushContext store_ingest s true env.
Definition Store_Close (s : Store) (env : flush_env store_input) (flt : fault) : result (headErr storeErr) unit * result walErr unit * list (result (headErr storeErr) unit) * Store := head_Close store_ingest s env flt.

(** ** Reads *)

Section reads.
Context (b : buffer) (cs : ChunkStore).
Definition Store_MatchingStreamIDs (ms : list Pair) : list Z :=
  sort_by id (elements (list_to_set (head_MatchingStreamIDs b ms) ∪ list_to_set (cs_MatchingStreamIDs cs ms) : gset Z)).
(** The head first. *)
Definition Store_StreamEntries (id minTs maxTs : Z) : result logErr (list LogEntry) :=
  let head := headEntries b id in
  persisted ← cs_StreamEntries cs id minTs maxTs;
  Ok (mergeEntries persisted head minTs maxTs).
Definition Store_StreamLabelSet (id : Z) : option Labels := match head_StreamLabelSet b id with Some l => Some l | None => cs_StreamLabelSet cs id end.
Definition Store_LabelNames : list string := sortedKeys (list_to_set (head_LabelNames b) ∪ list_to_set (idx_LabelNames (x_postings (cs_index cs)))).
Definition Store_LabelValues (name : string) : list string := sortedKeys (list_to_set (head_LabelValues b name) ∪ list_to_set (idx_LabelValues (x_postings (cs_index cs)) name)).
Definition store_reader : Reader := mkReader Store_MatchingStreamIDs Store_StreamEntries Store_StreamLabelSet Store_LabelNames Store_LabelValues.
(** Streams of either half once, chunk files and their bytes. *)
Definition Store_Stats : Z * Z * Z := (Z.of_nat (size (head_streamIDs b ∪ cs_streamIDs cs)), (fileStats cs).1, (fileStats cs).2).
End reads.
Definition Store_ApplyRetention (s : Store) (fails : string -> bool) (mout : manifest_outcome) (rm : string -> bool) (sec nsec : Z) (policy : RetentionPolicy) : Z * option storeErr * Store :=
  let '(n, e, cs) := ApplyRetention fails mout rm sec nsec policy (w_sink s) in (n, e, mkWorld (w_head s) (w_disk s) cs).

(** ** The reader's contract *)

Lemma StreamEntries_store b cs id lo hi : cs_inv cs -> Store_StreamEntries b cs id lo hi = Ok (view lo hi (raw_at cs id ++ headEntries b id)).
Proof. intros Hc. unfold Store_StreamEntries. rewrite StreamEntries_view, bind_Ok by done. by rewrite mergeEntries_raw. Qed.
Lemma head_db_entries b l raw : head_db b l = Some raw -> headEntries b (StreamIDOf l) = raw.
Proof. intros (hs & H & _ & ->)%head_db_some. unfold headEntries. by rewrite H. Qed.
Lemma head_db_none b cs l : log_no_collision (cs_db cs) (head_db b) -> buffer_wf b -> is_Some (cs_db cs l) -> head_db b l = None -> headEntries b (StreamIDOf l) = [].
Proof.
  intros Hnc Hb Hl Hn. unfold headEntries. destruct (bf_head b !! StreamIDOf l) as [hs|] eqn:E; [|done]. destruct (Hb _ _ E) as [_ Hid].
  assert (ls_labels hs = l) as El; [|exfalso; unfold head_db in Hn; rewrite E in Hn; cbn in Hn; by rewrite decide_True in Hn]. apply Hnc; [right|by left|done]. apply head_db_known; [done|]. eauto.
Qed.
Lemma cs_db_none b cs l : log_no_collision (cs_db cs) (head_db b) -> cs_inv cs -> is_Some (head_db b l) -> cs_db cs l = None -> raw_at cs (StreamIDOf l) = [].
Proof.
  intros Hnc [Hx _ _] Hl Hn. assert (Hr : refs_of (cs_index cs) (StreamIDOf l) = []); [|unfold raw_at, raw_of; by rewrite Hr].
  destruct (x_labels (cs_index cs) !! StreamIDOf l) as [l'|] eqn:E.
  - destruct (iw_labels _ Hx _ _ E) as [_ Hid]. assert (l' = l) as ->; [|rewrite (proj2 (cs_db_some cs l (raw_at cs (StreamIDOf l)))) in Hn by done; done]. apply Hnc; [left|by right|done]. apply cs_db_known. by rewrite Hid.
  - destruct (refs_of (cs_index cs) (StreamIDOf l)) eqn:Er; [done|]. exfalso. assert (H : refs_of (cs_index cs) (StreamIDOf l) <> []) by (by rewrite Er). apply (idx_labels_refs _ _ Hx) in H as [? H]. congruence.
Qed.
Lemma matching_union (r1 r2 : Reader) (d1 d2 : log_db) ms i : ReaderImplements r1 d1 -> ReaderImplements r2 d2 ->
  i ∈ rd_MatchingStreamIDs r1 ms \/ i ∈ rd_MatchingStreamIDs r2 ms <-> exists l, StreamIDOf l = i /\ is_Some (ldb_union d2 d1 l) /\ log_matches ms l.
Proof.
  intros R1 R2. rewrite (proj2 (reader_ids (r := r1) ms)), (proj2 (reader_ids (r := r2) ms)). setoid_rewrite ldb_union_some. naive_solver.
Qed.
Lemma store_names_union d1 d2 a b : log_names d1 a -> log_names d2 b -> log_names (ldb_union d2 d1) (sortedKeys (list_to_set a ∪ list_to_set b)).
Proof.
  intros [_ Ha] [_ Hb]. destruct (sortedStringSet_spec (list_to_set a ∪ list_to_set b)) as [H1 H2]. split; [done|]. intros n. unfold sortedKeys. rewrite H2, elem_of_union, !elem_of_list_to_set, Ha, Hb. setoid_rewrite ldb_union_some. naive_solver.
Qed.
Lemma store_values_union d1 d2 name a b : log_values d1 name a -> log_values d2 name b -> log_values (ldb_union d2 d1) name (sortedKeys (list_to_set a ∪ list_to_set b)).
Proof.
  intros [_ Ha] [_ Hb]. destruct (sortedStringSet_spec (list_to_set a ∪ list_to_set b)) as [H1 H2]. split; [done|]. intros n. unfold sortedKeys. rewrite H2, elem_of_union, !elem_of_list_to_set, Ha, Hb. setoid_rewrite ldb_union_some. naive_solver.
Qed.

#[export] Instance store_reader_implements b cs : cs_inv cs -> buffer_wf b -> log_no_collision (cs_db cs) (head_db b) -> ReaderImplements (store_reader b cs) (ldb_union (cs_db cs) (head_db b)).
Proof.
  intros Hc Hb Hnc. pose proof (cs_reader_implements cs Hc) as RC. pose proof (head_reader_implements b Hb) as RH. split; cbn [store_reader rd_MatchingStreamIDs rd_StreamEntries rd_StreamLabelSet rd_LabelNames rd_LabelValues].
  - intros ms. unfold Store_MatchingStreamIDs. destruct (sort_ids_strict (list_to_set (head_MatchingStreamIDs b ms) ∪ list_to_set (cs_MatchingStreamIDs cs ms))) as [H1 H2]. split; [done|]. intros i. rewrite H2, elem_of_union, !elem_of_list_to_set.
    apply (matching_union (head_reader b) (cs_reader cs)); done.
  - intros i l. unfold Store_StreamLabelSet. pose proof (reader_labels (r := head_reader b) (db := head_db b) i) as Lh. pose proof (reader_labels (r := cs_reader cs) (db := cs_db cs) i) as Lc. cbn [head_reader cs_reader rd_StreamLabelSet] in Lh, Lc.
    rewrite ldb_union_some. destruct (head_StreamLabelSet b i) as [l'|] eqn:E.
    + destruct (proj1 (Lh l') eq_refl) as [Hi Hs]. split; [intros [= <-]; auto|]. intros [Hi' Hor]. f_equal. apply Hnc; [by right|tauto|congruence].
    + rewrite Lc. split; [tauto|]. intros [Hi [?|Hs]]; [done|]. exfalso. assert (H : None = Some l) by (by apply Lh). done.
  - intros l raw lo hi Hl. rewrite StreamEntries_store by done. do 2 f_equal. unfold ldb_union in Hl. destruct (cs_db cs l) as [p|] eqn:Ec; destruct (head_db b l) as [h|] eqn:Eh; try done.
    + apply head_db_entries in Eh as ->. apply cs_db_some in Ec as [_ ->]. by injection Hl as <-.
    + rewrite (head_db_none b cs) by (done || by eexists). apply cs_db_some in Ec as [_ ->]. injection Hl as <-. apply app_nil_r.
    + rewrite (cs_db_none b cs) by (done || by eexists). apply head_db_entries in Eh as ->. by injection Hl as <-.
  - apply store_names_union; [exact (reader_names (r := head_reader b))|exact (reader_names (r := cs_reader cs))].
  - intros name. apply store_values_union; [exact (reader_values (r := head_reader b) name)|exact (reader_values (r := cs_reader cs) name)].
Qed.

(** ** A flush into the chunks beside it *)

Context (FL : FlateLaws F).
(** What a call needs: unused file names, and a manifest that can hold the result. *)
Definition store_may (i : store_input) (cs : ChunkStore) (b : list StreamData) : Prop :=
  fresh_streams b i.1 0 cs /\ manifest_fits (cs_index (store_ingest i cs b).2).

(** The streams an ingest may add to the index are those it is given lines of. *)
Definition labels_from (cs cs' : ChunkStore) (D : list (Labels * LogEntry)) : Prop :=
  forall i l, x_labels (cs_index cs') !! i = Some l -> x_labels (cs_index cs) !! i = Some l \/ (i = StreamIDOf l /\ exists e, (l, e) ∈ D).
Lemma labels_from_trans c1 c2 c3 a b : labels_from c1 c2 a -> labels_from c2 c3 b -> labels_from c1 c3 (a ++ b).
Proof. intros H1 H2 i l H. destruct (H2 i l H) as [H'|(-> & e & He)]; [destruct (H1 i l H') as [?|(-> & e & He)]; [by left|]|]; right; (split; [done|]); exists e; apply elem_of_app; auto. Qed.
Lemma labels_from_sub cs cs' a b : labels_from cs cs' a -> a ⊆ b -> labels_from cs cs' b.
Proof. intros H Hs i l Hl. destruct (H i l Hl) as [?|(-> & e & He)]; [by left|right; eauto]. Qed.
Lemma index_add_from x id l ref i l' : x_labels (index_add x id l ref) !! i = Some l' -> x_labels x !! i = Some l' \/ (i = id /\ l' = l).
Proof. unfold index_add. destruct (x_labels x !! id) eqn:E; cbn [x_labels]; [by left|]. rewrite lookup_insert_Some. intros [[<- <-]|[_ H]]; auto. Qed.
Lemma ingest_chunks_from id l chs outs n cs res cs' : ingest_chunks id l chs outs n cs = (res, cs') ->
  forall i l', x_labels (cs_index cs') !! i = Some l' -> x_labels (cs_index cs) !! i = Some l' \/ (i = id /\ l' = l /\ chs <> []).
Proof.
  revert n cs. induction chs as [|ch chs IH]; intros n cs H i l' Hl; cbn [ingest_chunks] in H; [injection H as _ <-; by left|].
  destruct (outs n) as [rnd|[rnd|]]; cbn [writeChunkFile] in H; [|injection H as _ <-; by left..].
  destruct (IH _ _ H i l' Hl) as [H'|(-> & -> & _)]; [|by right]. cbn [cs_index] in H'. apply index_add_from in H' as [?|[-> ->]]; [by left|by right].
Qed.
Lemma ingest_streams_from streams outs n cs res cs' : ingest_streams streams outs n cs = (res, cs') -> labels_from cs cs' (log_flat streams).
Proof.
  revert n cs. induction streams as [|sd streams IH]; intros n cs H; cbn [ingest_streams] in H; [injection H as _ <-; by left|].
  change (log_flat (sd :: streams)) with ((pair (st_labels sd) <$> st_entries sd) ++ log_flat streams).
  destruct (ingest_chunks _ _ _ outs n cs) as [r1 cs1] eqn:E1. assert (Hf : labels_from cs cs1 (pair (st_labels sd) <$> st_entries sd)).
  { intros i l Hl. destruct (ingest_chunks_from _ _ _ _ _ _ _ _ E1 i l Hl) as [?|(-> & -> & Hne)]; [by left|right]. split; [done|]. destruct (st_entries sd) as [|e es]; [done|]. exists e. by left. }
  destruct r1 as [n1|e]; [eapply labels_from_trans; [exact Hf|by eapply IH]|]. injection H as _ <-. eapply labels_from_sub; [exact Hf|]. set_solver.
Qed.
Lemma IngestStreams_from streams outs mout cs res cs' : IngestStreams streams outs mout cs = (res, cs') -> labels_from cs cs' (log_flat streams).
Proof.
  unfold IngestStreams. destruct (ingest_streams streams outs 0 cs) as [r1 cs1] eqn:E. apply ingest_streams_from in E. destruct r1; [|intros [= _ <-]; done].
  unfold store_manifest. destruct mout as [|[]]; intros [= _ <-]; exact E.
Qed.
Lemma send_from ins n batches cs res cs' : send_batches store_ingest ins n batches cs = (res, cs') -> labels_from cs cs' (batches ≫= log_flat).
Proof.
  revert n cs. induction batches as [|b batches IH]; intros n cs H; cbn [send_batches] in H; [injection H as _ <-; by left|]. rewrite bind_cons.
  destruct (store_ingest (ins n) cs b) as [[[]|e] cs1] eqn:Ei; apply IngestStreams_from in Ei; [eapply labels_from_trans; [exact Ei|by eapply IH]|]. injection H as _ <-. eapply labels_from_sub; [exact Ei|]. set_solver.
Qed.

(** What one call, and a run of calls, add to what is read. *)
Definition took (cs cs' : ChunkStore) (all adds : list LogEntry) : Prop :=
  adds `prefix_of` all /\ (forall i, raw_at cs' i = raw_at cs i ++ filter (fun e => le_id e = i) adds) /\
  x_labels (cs_index cs) ⊆ x_labels (cs_index cs') /\ forall e, e ∈ adds -> is_Some (x_labels (cs_index cs') !! le_id e).
Lemma ingest_reads_partly streams outs mout cs res cs' : cs_inv cs -> Forall ingestable streams -> fresh_streams streams outs 0 cs -> IngestStreams streams outs mout cs = (res, cs') ->
  cs_inv cs' /\ exists adds, took cs cs' (ingested streams) adds /\ (res = Ok tt -> adds = ingested streams).
Proof.
  intros Hc HF Hfr Hi. destruct (IngestStreams_grows FL _ _ _ _ _ _ Hc HF Hfr Hi) as (adds & cs1 & Hg & Hp & Ex & Ec & _ & Hr). pose proof (gr_inv _ _ _ Hg) as [A B C]. split; [split; by rewrite ?Ex, ?Ec|].
  exists adds. split; [|intros ->; apply Hr]. split; [done|]. rewrite Ex. split; [|split; [apply (gr_labels _ _ _ Hg)|apply (gr_known _ _ _ Hg)]]. intros i. unfold raw_at. rewrite Ex, Ec. apply (gr_raw _ _ _ Hg).
Qed.
Lemma send_store ins n batches cs res cs' : cs_inv cs -> Forall (Forall ingestable) batches -> may_send store_ingest store_may ins n batches cs -> send_batches store_ingest ins n batches cs = (res, cs') ->
  cs_inv cs' /\ exists adds, took cs cs' (batches ≫= ingested) adds /\ (res = Ok tt -> adds = batches ≫= ingested).
Proof.
  intros Hc HF. revert n cs Hc. induction HF as [|b batches Hb HF IH]; intros n cs Hc Hm Hs; cbn [send_batches may_send] in *.
  - injection Hs as <- <-. split; [done|]. exists []. split; [|done]. split_and!; [done| |done|by intros e ?%elem_of_nil]. intros i. by rewrite filter_nil, app_nil_r.
  - destruct Hm as [[Hfr _] Hm]. rewrite bind_cons. destruct (store_ingest (ins n) cs b) as [[[]|e] cs1] eqn:Ei; destruct (ingest_reads_partly _ _ _ _ _ _ Hc Hb Hfr Ei) as (Hc1 & a1 & (Hp1 & Hr1 & Hl1 & Hk1) & Ha1).
    + rewrite (Ha1 eq_refl) in *. destruct (IH _ _ Hc1 Hm Hs) as (Hc2 & a2 & (Hp2 & Hr2 & Hl2 & Hk2) & Ha2). split; [done|]. exists (ingested b ++ a2). split; [|by intros ->%Ha2]. split_and!; [by apply prefix_app| |by etrans|].
      * intros i. by rewrite Hr2, Hr1, filter_app, app_assoc.
      * intros x [Hx|Hx]%elem_of_app; [|auto]. destruct (Hk1 x Hx) as [l Hl]. exists l. by eapply lookup_weaken.
    + injection Hs as <- <-. split; [done|]. exists a1. split; [|done]. split_and!; [by apply prefix_app_r|done..].
Qed.
(** What a head hands out, stream by stream. *)
Definition relabelled (p : Labels * LogEntry) : LogEntry := mkLE (StreamIDOf p.1) (le_ts p.2) (le_line p.2).
Lemma ingested_flat streams : ingested streams = relabelled <$> log_flat streams.
Proof. unfold ingested, log_flat. induction streams as [|sd streams IH]; [done|]. rewrite !bind_cons, fmap_app, IH. f_equal. by rewrite <- list_fmap_compose. Qed.
Lemma ingested_batches batches : (batches ≫= ingested) = relabelled <$> (batches ≫= log_flat).
Proof. induction batches as [|b batches IH]; [done|]. rewrite !bind_cons, fmap_app, IH. f_equal. apply ingested_flat. Qed.
Lemma filter_omap_ids {A} (f : Z -> option StreamData) (g : StreamData -> list A) (key : A -> Z) ids i : NoDup ids -> (forall j sd a, f j = Some sd -> a ∈ g sd -> key a = j) ->
  filter (fun a => key a = i) (omap f ids ≫= g) = if decide (i ∈ ids) then match f i with Some sd => g sd | None => [] end else [].
Proof.
  intros Hn Hk. induction Hn as [|j ids Hj Hn IH]; [done|]. cbn [omap list_omap].
  assert (Hcase : filter (fun a => key a = i) (match f j with Some sd => g sd | None => [] end) = if decide (i = j) then match f j with Some sd => g sd | None => [] end else []).
  { destruct (f j) as [sd|] eqn:E; [|by destruct (decide (i = j))]. destruct (decide (i = j)) as [Eij|Eij]; [apply filter_all|apply filter_nothing]; apply Forall_forall; intros a Ha; rewrite (Hk j sd a E Ha); congruence. }
  transitivity (filter (fun a => key a = i) (match f j with Some sd => g sd | None => [] end) ++ filter (fun a => key a = i) (omap f ids ≫= g)).
  { destruct (f j); [by rewrite bind_cons, filter_app|done]. }
  rewrite Hcase, IH. destruct (decide (i = j)) as [->|Hij].
  - rewrite (decide_False (P := j ∈ ids)) by done. rewrite decide_True by (by left). apply app_nil_r.
  - cbn [app]. destruct (decide (i ∈ ids)); [rewrite decide_True by (by right)|rewrite decide_False by (rewrite elem_of_cons; tauto)]; done.
Qed.
Lemma snapshot_stream U xs i : label_universe U -> Forall (line_known U) xs -> filter (fun e => le_id e = i) (ingested (snapshotLocked (buffer_of xs))) = headEntries (buffer_of xs) i.
Proof.
  intros HU HF. unfold ingested, snapshotLocked. set (f := fun id => (fun hs => mkSD (ls_labels hs) (ls_entries hs)) <$> bf_head (buffer_of xs) !! id). destruct (sort_ids_strict (dom (bf_head (buffer_of xs)))) as [Hs Hin].
  assert (Hf : forall j sd, f j = Some sd -> sid sd = j /\ st_entries sd = headEntries (buffer_of xs) j).
  { intros j sd. unfold f, headEntries. destruct (bf_head (buffer_of xs) !! j) as [hs|] eqn:E; [|done]. intros [= <-]. destruct (buffer_stream_known U xs j hs HF E) as (_ & Hid & _). by split. }
  rewrite (filter_omap_ids f _ le_id); [|rewrite sort_by_perm; apply NoDup_elements|].
  - assert (Hhe : forall hs, bf_head (buffer_of xs) !! i = Some hs -> headEntries (buffer_of xs) i = ls_entries hs) by (intros hs E; unfold headEntries; by rewrite E).
    destruct (decide _) as [Hd|Hd]; rewrite Hin, elem_of_dom in Hd.
    + destruct (f i) as [sd|] eqn:E; [|unfold f in E; destruct Hd as [hs Hd]; by rewrite Hd in E]. destruct (Hf i sd E) as [Hid He]. rewrite He, Hid, buffer_entries, <- list_fmap_compose. apply list_fmap_ext. intros k x Hx. apply list_elem_of_lookup_2 in Hx. apply of_stream_elem in Hx as [_ <-]. done.
    + unfold headEntries. destruct (bf_head (buffer_of xs) !! i) eqn:E; [|done]. exfalso. apply Hd. by eexists.
  - intros j sd a E (e & -> & _)%list_elem_of_fmap. by destruct (Hf j sd E) as [<- _].
Qed.
Lemma view_repeat lo hi p a t : view lo hi (p ++ a ++ a ++ t) = view lo hi (p ++ a ++ t).
Proof.
  rewrite !app_assoc. rewrite <- !(mergeEntries_view lo hi _ t). f_equal. rewrite view_absorbs; [done|]. intros e He. exists e. split; [|done]. apply elem_of_app. by right.
Qed.
Lemma filter_prefix (P : LogEntry -> Prop) `{!forall x, Decision (P x)} a b : a `prefix_of` b -> filter P a `prefix_of` filter P b.
Proof. intros [k ->]. rewrite filter_app. by apply prefix_app_r. Qed.

(** Two readers no query tells apart. *)
Definition same_reads (r r' : Reader) : Prop :=
  (forall ms, rd_MatchingStreamIDs r' ms = rd_MatchingStreamIDs r ms) /\ (forall id, rd_StreamLabelSet r' id = rd_StreamLabelSet r id) /\
  rd_LabelNames r' = rd_LabelNames r /\ (forall name, rd_LabelValues r' name = rd_LabelValues r name) /\
  forall id lo hi, exists es, rd_StreamEntries r id lo hi = Ok es /\ rd_StreamEntries r' id lo hi = Ok es.
Lemma same_strings l l' : StronglySorted str_lt l -> StronglySorted str_lt l' -> (forall x, x ∈ l' <-> x ∈ l) -> l' = l.
Proof.
  intros H H' E. apply (StronglySorted_strict_unique str_lt); [|done..|].
  - intros x y. apply str_lt_asym.
  - intros x. rewrite <- !list_elem_of_In. apply E.
Qed.
(** Readers of the same streams answer alike whatever is not about lines. *)
Lemma readers_agree r r' D D' : ReaderImplements r D -> ReaderImplements r' D' -> (forall l, is_Some (D' l) <-> is_Some (D l)) ->
  (forall id lo hi, exists es, rd_StreamEntries r id lo hi = Ok es /\ rd_StreamEntries r' id lo hi = Ok es) -> same_reads r r'.
Proof.
  intros [I L _ [N1 N2] V] [I' L' _ [N1' N2'] V'] E Hes. split_and!; [| | | |done].
  - intros ms. destruct (I ms) as [S1 S2], (I' ms) as [S1' S2']. apply (StronglySorted_strict_unique Z.lt); [lia|done..|]. intros x. rewrite <- !list_elem_of_In, S2, S2'. by setoid_rewrite E.
  - intros id. apply option_eq. intros l. by rewrite L, L', E.
  - apply same_strings; [done..|]. intros n. rewrite N2, N2'. by setoid_rewrite E.
  - intros name. destruct (V name) as [S1 S2], (V' name) as [S1' S2']. apply same_strings; [done..|]. intros v. rewrite S2, S2'. by setoid_rewrite E.
Qed.
(** The streams of a store: those of its index and those of its buffer. *)
Lemma store_streams b cs l : is_Some (ldb_union (cs_db cs) (head_db b) l) <-> x_labels (cs_index cs) !! StreamIDOf l = Some l \/ exists hs, bf_head b !! StreamIDOf l = Some hs /\ ls_labels hs = l.
Proof. rewrite ldb_union_some, cs_db_known. f_equiv. split; [intros [raw (hs & H1 & H2 & _)%head_db_some]; eauto|]. intros (hs & H1 & H2). exists (ls_entries hs). apply head_db_some. eauto. Qed.
Lemma universe_apart U b cs : label_universe U -> (forall l, is_Some (ldb_union (cs_db cs) (head_db b) l) -> U l) -> log_no_collision (cs_db cs) (head_db b).
Proof. intros HU H l1 l2 H1 H2. apply (LU_hash U HU); apply H; by apply ldb_union_some. Qed.

(** What is in the store after a flush, whichever way it went: the entries of every
    stream and the set of streams are those from before. *)
Record flushed_alike (b b' : buffer) (cs cs' : ChunkStore) : Prop := {
  fa_inv : cs_inv cs';
  fa_entries : forall id lo hi, view lo hi (raw_at cs' id ++ headEntries b' id) = view lo hi (raw_at cs id ++ headEntries b id);
  fa_streams : forall l, is_Some (ldb_union (cs_db cs') (head_db b') l) <-> is_Some (ldb_union (cs_db cs) (head_db b) l) }.
Lemma flush_alike U xs batches cs cs1 adds : label_universe U -> Forall (line_known U) xs -> (forall l, is_Some (cs_db cs l) -> U l) -> cs_inv cs1 ->
  (batches ≫= log_flat) = log_flat (snapshotLocked (buffer_of xs)) -> took cs cs1 (ingested (snapshotLocked (buffer_of xs))) adds -> labels_from cs cs1 (batches ≫= log_flat) ->
  flushed_alike (buffer_of xs) (buffer_of xs) cs cs1 /\ (adds = ingested (snapshotLocked (buffer_of xs)) -> flushed_alike (buffer_of xs) empty_buffer cs cs1).
Proof.
  intros HU HF HcsU Hc1 Hflat (Hp & Hraw & Hsub & Hknown) Hfrom. rewrite Hflat in Hfrom.
  assert (Hstream : forall i hs, bf_head (buffer_of xs) !! i = Some hs -> U (ls_labels hs) /\ StreamIDOf (ls_labels hs) = i /\ ls_entries hs <> []) by (intros i hs H; destruct (buffer_stream_known U xs i hs HF H) as (A & B & C & _); done).
  assert (Hgiven : forall i l, x_labels (cs_index cs1) !! i = Some l -> x_labels (cs_index cs) !! i = Some l \/ exists hs, bf_head (buffer_of xs) !! i = Some hs /\ ls_labels hs = l).
  { intros i l H. destruct (Hfrom i l H) as [?|(-> & e & He)]; [by left|right]. apply log_flat_elem in He as (sd & (i & hs & Hh & ->)%elem_of_log_snapshot & <- & _). exists hs. cbn [st_labels]. destruct (Hstream i hs Hh) as (_ & -> & _). done. }
  assert (Hback : forall l, x_labels (cs_index cs) !! StreamIDOf l = Some l -> x_labels (cs_index cs1) !! StreamIDOf l = Some l) by (intros l H; by eapply lookup_weaken).
  split; [|intros ->]; (split; [done|..]).
  - intros id lo hi. rewrite Hraw. apply (filter_prefix (fun e => le_id e = id)) in Hp as [t Ht]. rewrite (snapshot_stream U) in Ht by done. rewrite Ht, <- app_assoc. apply view_repeat.
  - intros l. rewrite !store_streams. split; [intros [H|H]; [destruct (Hgiven _ _ H) as [?|?]; tauto|tauto]|intros [H|H]; auto].
  - intros id lo hi. unfold headEntries at 1. cbn [empty_buffer bf_head]. rewrite lookup_empty, app_nil_r, Hraw. by rewrite (snapshot_stream U).
  - intros l. rewrite !store_streams. split.
    + intros [H|(hs & H & _)]; [by apply Hgiven|]. cbn [empty_buffer bf_head] in H. by rewrite lookup_empty in H.
    + intros [H|(hs & Hh & El)]; [auto|left]. destruct (Hstream _ _ Hh) as (HUl & Hid & Hne). destruct (ls_entries hs) as [|e es] eqn:Ees; [done|].
      destruct (Hknown (mkLE (StreamIDOf l) (le_ts e) (le_line e))) as [l' Hl'].
      { rewrite ingested_flat. apply list_elem_of_fmap. exists (l, e). split; [done|]. apply log_flat_elem. exists (mkSD (ls_labels hs) (ls_entries hs)). cbn [st_labels st_entries]. split_and!; [apply elem_of_log_snapshot; by exists (StreamIDOf l), hs|done|rewrite Ees; by left]. }
      cbn [le_id] in Hl'. rewrite Hl'. f_equal. destruct (Hgiven _ _ Hl') as [H|(hs' & Hh' & El')]; [|congruence]. apply (LU_hash U HU); [|by rewrite <- El|].
      * apply HcsU. apply cs_db_known. destruct (iw_labels _ (ci_idx _ Hc1) _ _ Hl') as [_ Hid']. by rewrite Hid'.
      * by destruct (iw_labels _ (ci_idx _ Hc1) _ _ Hl') as [_ ->].
Qed.

(** C20. A flush changes no read. Whatever happens in it - batches sent and batches
    refused, a checkpoint that fails - the store answers alike before and after it:
    the streams that match any matchers, the labels of any stream, the label names
    and values, and for any stream and window the same entries in the same order;
    and when it succeeds the head is empty. *)
Theorem flush_invisible (U : Labels -> Prop) (xs : list line_in) (s s' : Store) (env : flush_env store_input) (fl : bool) (res : result (headErr storeErr) unit) :
  label_universe U -> Forall (line_known U) xs -> (forall l, is_Some (cs_db (w_sink s) l) -> U l) -> hd_buf (w_head s) = buffer_of xs -> cs_inv (w_sink s) ->
  flush_allowed store_ingest store_may (hd_buf (w_head s)) (hd_opts (w_head s)) env (w_sink s) -> flushLocked store_ingest s env = (fl, res, s') ->
  same_reads (store_reader (hd_buf (w_head s)) (w_sink s)) (store_reader (hd_buf (w_head s')) (w_sink s')) /\
  (res = Ok tt -> bf_head (hd_buf (w_head s')) = ∅).
Proof.
  intros HU HF HcsU Hb Hc Hm Hfl. assert (HU0 : forall l, is_Some (ldb_union (cs_db (w_sink s)) (head_db (buffer_of xs)) l) -> U l).
  { intros l [H|[raw (hs & Hh & <- & _)%head_db_some]]%ldb_union_some; [by apply HcsU|]. by destruct (buffer_stream_known U xs _ hs HF Hh) as [? _]. }
  assert (Hsuf : buffer_wf (hd_buf (w_head s')) /\ flushed_alike (buffer_of xs) (hd_buf (w_head s')) (w_sink s) (w_sink s') /\ (res = Ok tt -> bf_head (hd_buf (w_head s')) = ∅)).
  { unfold flushLocked in Hfl. destruct (decide (bf_head (hd_buf (w_head s)) = ∅)) as [He|He].
    - injection Hfl as _ _ <-. rewrite Hb. split_and!; [by eapply buffer_wf_of|by split|by rewrite <- Hb].
    - unfold flush_allowed in Hm. rewrite Hb in *. set (batches := BatchStreams _ _) in *. assert (HFb : Forall (Forall ingestable) batches) by (by eapply batches_ingestable).
      destruct (send_batches _ _ _ _ _) as [r1 cs1] eqn:Es. destruct (send_store _ _ _ _ _ _ Hc HFb Hm Es) as (Hc1 & adds & Ht & Hall). apply send_from in Es.
      assert (Hflat : (batches ≫= log_flat) = log_flat (snapshotLocked (buffer_of xs))) by apply BatchStreams_flat. rewrite ingested_batches, Hflat, <- ingested_flat in Ht, Hall.
      destruct (flush_alike U xs batches _ _ _ HU HF HcsU Hc1 Hflat Ht Es) as [Hsame Hempty]. assert (Hwe : buffer_wf empty_buffer) by (intros i hs H; cbn in H; by rewrite lookup_empty in H).
      destruct r1 as [[]|e1]; [destruct (Checkpoint _ _ _ _) as [[[[]|e2] wal] d2]|]; injection Hfl as _ <- <-; cbn [w_head w_sink set_buf hd_buf]; rewrite ?Hb; split_and!; try done; auto; by eapply buffer_wf_of. }
  destruct Hsuf as (Hw' & [Hc' Hes Hst] & Hok). split; [|done]. rewrite Hb in *. apply (readers_agree _ _ (ldb_union (cs_db (w_sink s)) (head_db (buffer_of xs))) (ldb_union (cs_db (w_sink s')) (head_db (hd_buf (w_head s'))))).
  - apply store_reader_implements; [done|by eapply buffer_wf_of|by eapply universe_apart].
  - apply store_reader_implements; [done|done|]. eapply universe_apart; [done|]. intros l H. by apply HU0, Hst.
  - done.
  - intros id lo hi. exists (view lo hi (raw_at (w_sink s) id ++ headEntries (buffer_of xs) id)). cbn [store_reader rd_StreamEntries]. rewrite !StreamEntries_store by done. by rewrite Hes.
Qed.

(** ** The chunk store as a sink *)

(** The chunk store keeps the head's contract, for any line within its retention:
    [store_step] is what else happens to it (retention passes, restarts). *)
#[export] Instance store_sink l e : le_id e = StreamIDOf l -> LogSink store_ingest store_may (store_step e) store_ready (fun cs => durable_entry cs e) l e.
Proof.
  intros Hid. split.
  - intros i s b res s' [Hc [x0 Hx]] HF [Hfr Hfit] Hi. unfold store_ingest in *. rewrite Hi in Hfit. cbn [snd] in Hfit. destruct (IngestStreams_durable FL _ _ _ _ _ _ _ Hc Hx HF Hfr Hi Hfit) as (H1 & H2 & H3 & H4).
    split; [done|]. split; [apply H3|]. intros -> He. apply (H4 (le_id e)); [|done]. rewrite (ingest_reads FL _ _ _ _ _ Hc HF Hfr Hi). apply elem_of_app. right. apply list_elem_of_filter. split; [done|].
    rewrite ingested_flat. apply list_elem_of_fmap. exists (l, e). split; [|done]. destruct e. cbn in *. by subst.
  - intros s s' Hr Hs. by apply (store_step_ready FL e s s').
Qed.

(** What a read of the whole store finds. *)
Definition store_finds (b : buffer) (cs : ChunkStore) (x : line_in) : Prop := forall lo hi, lo <= li_ts x <= hi ->
  exists es, Store_StreamEntries b cs (StreamIDOf (li_labels x)) lo hi = Ok es /\ le_key (li_entry x) ∈ le_key <$> es.
Lemma chunks_find b cs x : cs_inv cs -> durable_entry cs (li_entry x) -> store_finds b cs x.
Proof.
  intros Hc (x0 & Hx & He) lo hi Hw. eexists. split; [by apply StreamEntries_store|]. apply view_finds; [|done]. apply elem_of_app. left. by eapply committed_raw.
Qed.
Lemma heads_find U xs cs x : label_universe U -> Forall (line_known U) xs -> x ∈ xs -> cs_inv cs -> store_finds (buffer_of xs) cs x.
Proof.
  intros HU HF Hx Hc lo hi Hw. eexists. split; [by apply StreamEntries_store|]. apply view_finds; [|done]. apply elem_of_app. right. rewrite buffer_entries. apply list_elem_of_fmap_2. by apply of_stream_elem.
Qed.
Lemma reopened_ready cs mout cs' d : store_ready cs -> OpenChunkStore (cs_dir cs) mout = (Ok cs', d) -> store_ready cs' /\ forall e, durable_entry cs e -> durable_entry cs' e.
Proof. intros Hr Ho. split; [|intros e]; destruct (store_step_ready FL (mkLE 0 0 "") cs cs' (step_restart _ mout cs cs' d Ho) Hr) as [H _]; [done|]. by apply (store_step_ready FL e cs cs' (step_restart _ mout cs cs' d Ho)). Qed.
Lemma NewStore_open chunks mout : (exists cs, cs_dir cs = chunks /\ store_ready cs) -> exists cs' d, OpenChunkStore chunks mout = (Ok cs', d).
Proof. intros (cs & <- & Hc & [x0 Hx]). destruct (Open_committed cs x0 mout Hc Hx) as (d & E & _). by eexists _, _. Qed.

(** C4. The all-in-one store loses no acknowledged line in a run that is spared the
    log's hazards: no append cut short after some of its bytes, no crash that leaves
    just the length prefix of a record, no process that dies on a running machine
    with unsynced bytes in its log (the code survives none of the three). Through
    pushes, threshold flushes, explicit flushes and closes, with failures of chunk
    writes, manifest writes, the log and its checkpoints, through retention passes
    that the line outlives, machine crashes, processes killed and restarts: a read of
    its stream over any window that holds its timestamp returns it, from the running
    store, or from the store the next start builds out of the two directories. *)
Theorem store_keeps_acknowledged (U : Labels -> Prop) (cs0 : ChunkStore) (x0 : line_in) (g : lsys ChunkStore) : label_universe U -> store_ready cs0 ->
  log_reachable store_ingest store_may (store_step (li_entry x0)) U cs0 spared g -> x0 ∈ lg_acked g ->
  match lg_up g with
  | Some h => store_finds (hd_buf h) (lg_sink g) x0
  | None => forall segMax thresh mout, log_room (lg_disk g) ->
      exists s, NewStore (lg_disk g) (cs_dir (lg_sink g)) segMax 1 thresh mout NoFault = Ok s /\ store_finds (hd_buf (w_head s)) (w_sink s) x0
  end.
Proof.
  intros HU Hok Hr Hx. pose proof (reachable_acked _ _ _ _ _ _ _ Hr) as Ha. rewrite Forall_forall in Ha. specialize (Ha x0 Hx).
  destruct (log_reachable_inv store_ingest store_may (store_step (li_entry x0)) store_ready (fun cs => durable_entry cs (li_entry x0)) U cs0 x0 g HU (store_sink (li_labels x0) (li_entry x0) eq_refl) Hok Hr) as [Hready Hi]. destruct (lg_up g) as [h|].
  - destruct Hi as (xs & [(idx & hist & u & [_ _ _ Eb HFx _ Hack])|(hist & [_ _ _ _ _ Hack])]); [|apply chunks_find; [apply Hready|auto]]. destruct (Hack Hx) as [?|[Hin _]]; [apply chunks_find; [apply Hready|done]|]. rewrite Eb. eapply heads_find; [done..|apply Hready].
  - intros segMax thresh mout Hroom. destruct (NewStore_open _ mout (ex_intro _ (lg_sink g) (conj eq_refl Hready))) as (cs' & d1 & Eo). destruct (reopened_ready _ _ _ _ Hready Eo) as [[Hc' _] Hdur].
    unfold NewStore. rewrite Eo. destruct (OpenHead (lg_disk g) segMax 1 thresh (mkOpts false 0 0 0) NoFault) as [o d'] eqn:Eh. destruct Hi as (hist & u & Hd & Hrec & Hk).
    set (stored := line_record x0 ∈ take u hist.*2). assert (Hsl : log_asleep (S := ChunkStore) (fun _ => False) U x0 (lg_disk g) cs' stored) by (exists hist, u; split_and!; [done|done|by right]).
    pose proof (boot_up (S := ChunkStore) (fun _ => False) U HU x0 _ cs' stored segMax thresh _ NoFault o d' ltac:(done) Hsl Hroom Eh) as Hb. destruct o as [h|e]; [|by destruct Hb]. eexists. split; [reflexivity|]. cbn [w_head w_sink].
    destruct (Hk Hx) as [Hdx|Hin]; [apply chunks_find; [done|by apply Hdur]|]. destruct (proj2 Hb ltac:(tauto) Hin) as (xs & -> & HF & Hxs). by eapply heads_find.
Qed.
End disk.

(** ** Witnesses *)

#[local] Existing Instances sorted_order stored_flate.

Definition disk_labels : Labels := build {["app" := "api"]}.
Definition disk_line : line_in := mkLine disk_labels 5 "hello".
Definition disk_U (l : Labels) : Prop := l = disk_labels.
Lemma disk_universe : label_universe disk_U.
Proof. split; [intros l ->; unfold stored_labels; vm_compute; reflexivity|by intros l l' -> ->]. Qed.
Lemma disk_known : line_known disk_U disk_line.
Proof. split; [done|]. split; [unfold in_i64; cbn [disk_line li_ts]; lia|vm_compute; discriminate]. Qed.
Definition disk_boot : result walErr Head * disk := OpenHead ∅ 1000 1 0 (mkOpts false 0 0 0) NoFault.
Definition disk_head0 : Head := match disk_boot.1 with Ok h => h | Err _ => mkHead empty_buffer (mkWAL 0 0 NoFile 0 0 0 true 0 0) 0 (mkOpts true 0 0 0) 0 end.
(** The first chunk is written, the manifest is not: the flush fails. *)
Definition disk_env : flush_env store_input := mkFE (fun _ => ((fun _ => WriteOk demo_rnd), ManifestFailed false)) NoFault None.
Definition disk_pushed : result (headErr LogStore.storeErr) unit * list (result (headErr LogStore.storeErr) unit) * Store := Store_Append (mkWorld disk_head0 disk_boot.2 demo_cs0) disk_labels 5 "hello" NoFault disk_env.
Definition disk_flushed : bool * result (headErr LogStore.storeErr) unit * Store := flushLocked store_ingest disk_pushed.2 disk_env.
Lemma disk_pushed_buf : hd_buf (w_head disk_pushed.2) = buffer_of [disk_line].
Proof. vm_compute. reflexivity. Qed.
Lemma disk_pushed_sink : w_sink disk_pushed.2 = demo_cs0.
Proof. vm_compute. reflexivity. Qed.
Lemma disk_pushed_opts : ho_BatchBytes (hd_opts (w_head disk_pushed.2)) = 0.
Proof. vm_compute. reflexivity. Qed.
Definition disk_sd : StreamData := mkSD disk_labels [mkLE demo_log_id 5 "hello"].
Lemma disk_snapshot : BatchStreams (snapshotLocked (buffer_of [disk_line])) 0 = [[disk_sd]].
Proof. vm_compute. reflexivity. Qed.
Definition disk_cs1 : ChunkStore := (IngestStreams [disk_sd] (fun _ => WriteOk demo_rnd) (ManifestFailed false) demo_cs0).2.
Lemma disk_split : splitIntoChunks (st_entries disk_sd) MaxUncompressedBytes = [lc_of [mkLcEntry 5 "hello"]].
Proof. vm_compute. reflexivity. Qed.
Lemma disk_refs i : refs_of (cs_index disk_cs1) i = if decide (i = demo_log_id) then [mkRef (chunkFileName demo_log_id 5 demo_rnd) 5 5] else [].
Proof.
  destruct (decide (i = demo_log_id)) as [->|Hne]; [vm_compute; reflexivity|]. assert (E : x_refs (cs_index disk_cs1) = {[demo_log_id := [mkRef (chunkFileName demo_log_id 5 demo_rnd) 5 5]]}) by (vm_compute; reflexivity).
  unfold refs_of. rewrite E, lookup_singleton_ne by done. done.
Qed.
Lemma disk_fits : manifest_fits (cs_index disk_cs1).
Proof.
  split; [vm_compute; reflexivity|]. intros i r. rewrite disk_refs. destruct (decide _); [|by intros ?%elem_of_nil]. intros ->%list_elem_of_singleton. split; [vm_compute; discriminate|]. unfold in_i64. cbn [cr_MinTs cr_MaxTs]. lia.
Qed.
Lemma disk_fresh : fresh_streams [disk_sd] (fun _ => WriteOk demo_rnd) 0 demo_cs0.
Proof.
  cbn [fresh_streams]. rewrite disk_split. cbn [fresh_chunks]. split; [split; [apply demo_fresh0|done]|]. destruct (ingest_chunks _ _ _ _ _ _) as [[] ?]; exact I.
Qed.
Lemma disk_allowed : flush_allowed store_ingest store_may (hd_buf (w_head disk_pushed.2)) (hd_opts (w_head disk_pushed.2)) disk_env (w_sink disk_pushed.2).
Proof.
  unfold flush_allowed. rewrite disk_pushed_buf, disk_pushed_sink, disk_pushed_opts, disk_snapshot. cbn [may_send disk_env fe_sink]. split; [split; [exact disk_fresh|exact disk_fits]|]. destruct (store_ingest _ _ _) as [[] ?]; exact I.
Qed.
Lemma disk_all_known : Forall (line_known disk_U) [disk_line].
Proof. apply Forall_singleton. exact disk_known. Qed.
Lemma disk_cs0_inv : cs_inv (w_sink disk_pushed.2).
Proof. rewrite disk_pushed_sink. exact (proj1 demo_cs0_ready). Qed.
Lemma disk_cs0_known l : is_Some (cs_db (w_sink disk_pushed.2) l) -> disk_U l.
Proof. rewrite disk_pushed_sink. intros H%cs_db_known. cbn in H. by rewrite lookup_empty in H. Qed.
Lemma flush_invisible_witness : disk_flushed.1.2 = Err (HeSink LsManifest) /\
  same_reads (store_reader (hd_buf (w_head disk_pushed.2)) (w_sink disk_pushed.2)) (store_reader (hd_buf (w_head disk_flushed.2)) (w_sink disk_flushed.2)).
Proof.
  split; [vm_compute; reflexivity|].
  exact (proj1 (flush_invisible stored_laws disk_U [disk_line] disk_pushed.2 disk_flushed.2 disk_env disk_flushed.1.1 disk_flushed.1.2 disk_universe disk_all_known disk_cs0_known disk_pushed_buf disk_cs0_inv disk_allowed
    ltac:(rewrite <- !surjective_pairing; reflexivity))).
Defined.

Definition disk_after (w : Store) : lsys ChunkStore := mkLSys (Some (w_head w)) (w_disk w) (w_sink w) [disk_line].
Lemma disk_room0 : log_room ∅.
Proof. intros i _ [? H]. done. Qed.
Lemma disk_boot_step : log_step store_ingest store_may (store_step (li_entry disk_line)) disk_U spared (mkLSys None ∅ demo_cs0 []) (mkLSys (Some disk_head0) disk_boot.2 demo_cs0 []).
Proof. refine (log_boot _ _ _ _ spared ∅ demo_cs0 [] 1000 0 (mkOpts false 0 0 0) NoFault (Ok disk_head0) disk_boot.2 disk_room0 _). apply injective_projections; [vm_compute; reflexivity|reflexivity]. Qed.
Lemma disk_allowed0 : flush_allowed store_ingest store_may (put_in (hd_buf disk_head0) disk_line) (hd_opts disk_head0) disk_env demo_cs0.
Proof.
  pose proof disk_allowed as H. rewrite disk_pushed_buf, disk_pushed_sink in H. assert (E1 : put_in (hd_buf disk_head0) disk_line = buffer_of [disk_line]) by (vm_compute; reflexivity).
  assert (E2 : hd_opts disk_head0 = hd_opts (w_head disk_pushed.2)) by (vm_compute; reflexivity). by rewrite E1, E2.
Qed.
Lemma disk_append_eq : head_Append store_ingest (mkWorld disk_head0 disk_boot.2 demo_cs0) disk_labels 5 "hello" NoFault 0 0 disk_env = (Ok tt, [], disk_pushed.2).
Proof. apply injective_projections; [vm_compute; reflexivity|reflexivity]. Qed.
Lemma disk_append_step : log_step store_ingest store_may (store_step (li_entry disk_line)) disk_U spared (mkLSys (Some disk_head0) disk_boot.2 demo_cs0 []) (disk_after disk_pushed.2).
Proof.
  refine (log_append _ _ _ _ spared disk_head0 disk_boot.2 demo_cs0 [] disk_line NoFault 0 0 disk_env (Ok tt) [] disk_pushed.2 disk_known _ _ _ disk_allowed0 disk_append_eq); [done|vm_compute; discriminate|vm_compute; reflexivity].
Qed.
Lemma disk_flush_step : log_step store_ingest store_may (store_step (li_entry disk_line)) disk_U spared (disk_after disk_pushed.2) (disk_after disk_flushed.2).
Proof.
  refine (log_flush _ _ _ _ spared (w_head disk_pushed.2) (w_disk disk_pushed.2) (w_sink disk_pushed.2) _ true disk_env disk_flushed.1.2 (report disk_flushed.1.1 disk_flushed.1.2) disk_flushed.2 disk_allowed _).
  unfold FlushContext. cbn [negb]. change (mkWorld (w_head disk_pushed.2) (w_disk disk_pushed.2) (w_sink disk_pushed.2)) with (disk_pushed.2). change (flushLocked store_ingest disk_pushed.2 disk_env) with disk_flushed.
  rewrite (surjective_pairing disk_flushed) at 1. by rewrite (surjective_pairing disk_flushed.1) at 1.
Qed.
Lemma disk_reachable : log_reachable store_ingest store_may (store_step (li_entry disk_line)) disk_U demo_cs0 spared (disk_after disk_flushed.2).
Proof. eapply rtc_l; [exact disk_boot_step|]. eapply rtc_l; [exact disk_append_step|]. apply rtc_once. exact disk_flush_step. Qed.
Lemma store_keeps_acknowledged_witness : store_finds (hd_buf (w_head disk_flushed.2)) (w_sink disk_flushed.2) disk_line.
Proof. exact (store_keeps_acknowledged stored_laws disk_U demo_cs0 disk_line (disk_after disk_flushed.2) disk_universe demo_cs0_ready disk_reachable ltac:(by left)). Defined.
