(* ===== verification/LogQuery.v ===== *)
(** * LogQuery: log queries

    [internal/logs/query.go], the line filters of [logql.go] and the label-set key of
    [metriceval.go]: the engine reads the matching streams, filters lines, caps each
    stream before the global order and cut, and groups by what is left of the labels.
    Compiled regular expressions are predicates on lines. *)
From stdpp Require Import strings.
From S2P Require Import Prelude GoLib GoSort Labels Postings Source WalCodec Limits LogStream LogFile LogHead.

(** ** Line filters *)

Inductive FilterOp := FilterContains | FilterNotContains | FilterMatch | FilterNotMatch.
(** [lf_re] is [Regexp.MatchString] of the compiled value, for the last two. *)
Record LineFilter := mkLF { lf_Op : FilterOp; lf_Value : string; lf_re : string -> bool }.
(** [strings.Contains]. *)
Fixpoint Contains (s sub : string) : bool :=
  String.prefix sub s || match s with String _ s => Contains s sub | EmptyString => false end.
Definition Keep (f : LineFilter) (line : string) : bool :=
  match lf_Op f with
  | FilterContains => Contains line (lf_Value f)
  | FilterNotContains => negb (Contains line (lf_Value f))
  | FilterMatch => lf_re f line
  | FilterNotMatch => negb (lf_re f line)
  end.
Definition passesFilters (line : string) (filters : list LineFilter) : bool := forallb (fun f => Keep f line) filters.
Record LogSelector := mkSel { sel_Matchers : list Pair; sel_LineFilters : list LineFilter; sel_DropLabels : list string }.

(** ** The engine *)

Inductive Direction := Backward | Forward.
Record StreamResult := mkSR { sr_Labels : gmap string string; sr_Entries : list LogEntry }.
Record taggedEntry := mkTE { te_id : Z; te_entry : LogEntry; te_seq : Z }.
Definition earlier (dir : Direction) (a b : LogEntry) : bool := match dir with Forward => le_ts a <? le_ts b | Backward => le_ts b <? le_ts a end.
Definition sortEntries (dir : Direction) (entries : list LogEntry) : list LogEntry := SliceStable (earlier dir) entries.
Definition tagged_less (dir : Direction) (a b : taggedEntry) : bool :=
  if negb (le_ts (te_entry a) =? le_ts (te_entry b)) then earlier dir (te_entry a) (te_entry b)
  else if negb (te_id a =? te_id b) then te_id a <? te_id b
  else te_seq a <? te_seq b.
Definition cap {A} (limit : Z) (l : list A) : list A := if ((0 <? limit) && (limit <? Z.of_nat (length l)))%bool then take (Z.to_nat limit) l else l.
Definition kept_entries (sel : LogSelector) (endNs : Z) (endInclusive : bool) (entries : list LogEntry) : list LogEntry :=
  filter (fun en => (negb (negb endInclusive && (le_ts en =? endNs)) && passesFilters (le_line en) (sel_LineFilters sel))%bool = true) entries.
Fixpoint tag_all (id seq : Z) (entries : list LogEntry) : list taggedEntry :=
  match entries with [] => [] | en :: entries => mkTE id en seq :: tag_all id (seq + 1) entries end.
(** One stream's part in [all]. *)
Definition stream_part (sel : LogSelector) (endNs : Z) (endInclusive : bool) (limit : Z) (dir : Direction) (sd : StreamData) : list LogEntry :=
  cap limit (sortEntries dir (kept_entries sel endNs endInclusive (st_entries sd))).
Fixpoint collect_all (part : StreamData -> list LogEntry) (seq : Z) (streams : list StreamData) : list taggedEntry :=
  match streams with
  | [] => []
  | sd :: streams => let kept := part sd in tag_all (sid sd) seq kept ++ collect_all part (seq + Z.of_nat (length kept)) streams
  end.

(** [encodeLabelSet]: names in order, every string after its length. *)
Definition encode_str (s : string) : list Z := be_bytes 4 (u32 (str_len s)) ++ str_bytes s.
Definition sorted_pairs (m : gmap string string) : list (string * string) := sort_str fst (map_to_list m).
Definition encodeLabelSet (m : gmap string string) : list Z := sorted_pairs m ≫= fun e => encode_str e.1 ++ encode_str e.2.
Definition drop_labels (names : list string) (m : gmap string string) : gmap string string := fold_left (fun m n => delete n m) names m.

(** Grouping: keys in order of first use, memoized per stream. *)
Record grouping := mkGrp { gr_order : list (list Z); gr_keyOf : gmap Z (list Z); gr_grouped : gmap (list Z) (list LogEntry); gr_labelsOf : gmap (list Z) (gmap string string) }.
Definition group_one (labelsByID : gmap Z Labels) (drops : list string) (g : grouping) (t : taggedEntry) : grouping :=
  let '(key, keyOf, labelsOf) :=
    match gr_keyOf g !! te_id t with
    | Some key => (key, gr_keyOf g, gr_labelsOf g)
    | None =>
        let m := drop_labels drops (match labelsByID !! te_id t with Some l => labels_Map l | None => ∅ end) in
        let key := encodeLabelSet m in
        (key, <[te_id t := key]> (gr_keyOf g), match gr_labelsOf g !! key with Some _ => gr_labelsOf g | None => <[key := m]> (gr_labelsOf g) end)
    end in
  let order := match gr_grouped g !! key with Some _ => gr_order g | None => gr_order g ++ [key] end in
  mkGrp order keyOf (<[key := default [] (gr_grouped g !! key) ++ [te_entry t]]> (gr_grouped g)) labelsOf.
Definition group_all (labelsByID : gmap Z Labels) (drops : list string) (all : list taggedEntry) : list StreamResult :=
  let g := fold_left (group_one labelsByID drops) all (mkGrp [] ∅ ∅ ∅) in
  (fun key => mkSR (default ∅ (gr_labelsOf g !! key)) (default [] (gr_grouped g !! key))) <$> gr_order g.

Definition labels_by_id (streams : list StreamData) : gmap Z Labels := fold_left (fun m sd => <[sid sd := st_labels sd]> m) streams ∅.
Definition query_streams (sel : LogSelector) (endNs : Z) (endInclusive : bool) (limit : Z) (dir : Direction) (streams : list StreamData) : list StreamResult :=
  let all := collect_all (stream_part sel endNs endInclusive limit dir) 0 streams in
  group_all (labels_by_id streams) (sel_DropLabels sel) (cap limit (SliceStable (tagged_less dir) all)).
Definition log_query (src : LogSource) (ctx : context) (sel : LogSelector) (startNs endNs : Z) (endInclusive : bool) (limit : Z) (dir : Direction) : result logErr (list StreamResult) :=
  streams ← ls_SelectStreams src ctx (sel_Matchers sel) startNs endNs;
  Ok (query_streams sel endNs endInclusive limit dir streams).
Definition log_QueryRange (src : LogSource) (ctx : context) (sel : LogSelector) (startNs endNs limit : Z) (dir : Direction) := log_query src ctx sel startNs endNs false limit dir.
Definition log_QueryInstant (src : LogSource) (ctx : context) (sel : LogSelector) (timeNs limit : Z) (dir : Direction) := log_query src ctx sel 0 timeNs true limit dir.

(** ** One sort, one cut *)

(** The order of the answer: by time in the direction asked, then stream; lines of a
    stream at one instant keep their order. *)
Definition dir_ts (dir : Direction) (ts : Z) : Z := match dir with Forward => ts | Backward => - ts end.
Definition rank (dir : Direction) (p : Z * LogEntry) : Z := dir_ts dir (le_ts p.2) * 2 ^ 64 + p.1.
Definition untag (t : taggedEntry) : Z * LogEntry := (te_id t, te_entry t).
Definition wanted_lines (sel : LogSelector) (endNs : Z) (endInclusive : bool) (sd : StreamData) : list (Z * LogEntry) := pair (sid sd) <$> kept_entries sel endNs endInclusive (st_entries sd).
Definition answer_lines (sel : LogSelector) (endNs : Z) (endInclusive : bool) (limit : Z) (dir : Direction) (streams : list StreamData) : list (Z * LogEntry) :=
  cap limit (sort_by (rank dir) (streams ≫= wanted_lines sel endNs endInclusive)).

Lemma earlier_dir dir a b : earlier dir a b = (dir_ts dir (le_ts a) <? dir_ts dir (le_ts b)).
Proof. destruct dir; cbn; [|done]. destruct (Z.ltb_spec (le_ts b) (le_ts a)); destruct (Z.ltb_spec (- le_ts a) (- le_ts b)); lia. Qed.
Lemma insert_stable_ext {A} (less1 less2 : A -> A -> bool) x l : (forall y, y ∈ l -> less1 y x = less2 y x) -> insert_stable less1 x l = insert_stable less2 x l.
Proof. induction l as [|y l IH]; intros H; [done|]. cbn [insert_stable]. rewrite H by (by left). destruct (less2 y x); [|done]. f_equal. apply IH. intros; apply H. by right. Qed.
Lemma sortEntries_by dir es : sortEntries dir es = sort_by (fun e => dir_ts dir (le_ts e)) es.
Proof.
  unfold sortEntries, sort_by. induction es as [|e es IH]; [done|]. cbn [SliceStable foldr]. fold (SliceStable (earlier dir) es). rewrite IH. apply insert_stable_ext. intros y _. apply earlier_dir.
Qed.
Lemma rank_less dir i j a b : in_u64 i -> in_u64 j -> (rank dir (i, a) <? rank dir (j, b)) =
  if negb (le_ts a =? le_ts b) then earlier dir a b else i <? j.
Proof.
  unfold in_u64, rank. cbn [fst snd]. intros Hi Hj. rewrite earlier_dir. assert (E : (le_ts a =? le_ts b) = (dir_ts dir (le_ts a) =? dir_ts dir (le_ts b))) by (destruct dir; cbn; [destruct (Z.eqb_spec (le_ts a) (le_ts b)); destruct (Z.eqb_spec (- le_ts a) (- le_ts b)); lia|done]).
  rewrite E. generalize (dir_ts dir (le_ts a)) (dir_ts dir (le_ts b)). intros x y. destruct (Z.eqb_spec x y) as [->|Hne]; cbn [negb].
  - destruct (Z.ltb_spec i j); [apply Z.ltb_lt|apply Z.ltb_ge]; lia.
  - destruct (Z.ltb_spec x y); [apply Z.ltb_lt|apply Z.ltb_ge]; nia.
Qed.
Lemma tagged_sorted dir ts : StronglySorted (fun a b => te_seq a < te_seq b) ts -> Forall (fun t => in_u64 (te_id t)) ts -> SliceStable (tagged_less dir) ts = sort_by (fun t => rank dir (untag t)) ts.
Proof.
  intros Hs HF. unfold sort_by. induction Hs as [|t ts Hs IH Ht]; [done|]. apply Forall_cons in HF as [Hi HF]. cbn [SliceStable foldr]. fold (SliceStable (tagged_less dir) ts). rewrite IH by done. apply insert_stable_ext.
  intros y Hy. assert (Hy' : y ∈ ts) by (by rewrite <- (sort_by_perm (fun t => rank dir (untag t)) ts)). rewrite Forall_forall in Ht, HF. specialize (Ht y Hy'). specialize (HF y Hy'). unfold tagged_less, less_by, untag. rewrite rank_less by done.
  destruct (negb _); [done|]. destruct (Z.eqb_spec (te_id y) (te_id t)) as [->|]; cbn [negb]; [|done]. rewrite Z.ltb_irrefl. apply Z.ltb_ge. lia.
Qed.
Lemma sort_by_fmap {A B} (f : A -> B) (key : B -> Z) l : f <$> sort_by (fun x => key (f x)) l = sort_by key (f <$> l).
Proof.
  unfold sort_by. induction l as [|x l IH]; [done|]. cbn [fmap list_fmap SliceStable foldr]. change (foldr (insert_stable (less_by key)) [] (f <$> l)) with (SliceStable (less_by key) (f <$> l)). rewrite <- IH.
  change (foldr (insert_stable (less_by (fun x => key (f x)))) [] l) with (SliceStable (less_by (fun x => key (f x))) l). generalize (SliceStable (less_by (fun x => key (f x))) l). clear IH. intros l'.
  induction l' as [|y l' IH]; [done|]. cbn [insert_stable fmap list_fmap]. unfold less_by at 1 3. destruct (key (f y) <? key (f x)); [|done]. cbn [fmap list_fmap]. by rewrite IH.
Qed.
Lemma cap_fmap {A B} (f : A -> B) limit l : f <$> cap limit l = cap limit (f <$> l).
Proof. unfold cap. rewrite length_fmap. destruct (_ && _)%bool; [apply fmap_take|done]. Qed.

(** The sequence numbers of [all], and what it holds. *)
Lemma tag_all_spec id seq es : untag <$> tag_all id seq es = pair id <$> es /\ StronglySorted (fun a b => te_seq a < te_seq b) (tag_all id seq es) /\
  Forall (fun t => te_id t = id /\ seq <= te_seq t < seq + Z.of_nat (length es)) (tag_all id seq es).
Proof.
  revert seq. induction es as [|e es IH]; intros seq; [split_and!; constructor|]. cbn [tag_all]. destruct (IH (seq + 1)) as (H1 & H2 & H3). split_and!.
  - cbn [fmap list_fmap]. by rewrite <- H1.
  - constructor; [done|]. eapply Forall_impl; [exact H3|]. cbn. lia.
  - cbn [length]. constructor; [cbn; lia|]. eapply Forall_impl; [exact H3|]. cbn. lia.
Qed.
Lemma StronglySorted_app {A} (R : A -> A -> Prop) a b : StronglySorted R a -> StronglySorted R b -> (forall x y, x ∈ a -> y ∈ b -> R x y) -> StronglySorted R (a ++ b).
Proof.
  intros Ha Hb Hab. induction Ha as [|x a Ha IH Hx]; [done|]. cbn [app]. constructor; [apply IH; intros; apply Hab; [by right|done]|]. apply Forall_app. split; [done|]. apply Forall_forall. intros. apply Hab; [by left|done].
Qed.
Lemma collect_all_spec part seq streams : untag <$> collect_all part seq streams = (streams ≫= fun sd => pair (sid sd) <$> part sd) /\ StronglySorted (fun a b => te_seq a < te_seq b) (collect_all part seq streams) /\
  Forall (fun t => seq <= te_seq t /\ exists sd, sd ∈ streams /\ te_id t = sid sd) (collect_all part seq streams).
Proof.
  revert seq. induction streams as [|sd streams IH]; intros seq; [split_and!; constructor|]. cbn [collect_all]. destruct (IH (seq + Z.of_nat (length (part sd)))) as (H1 & H2 & H3). destruct (tag_all_spec (sid sd) seq (part sd)) as (G1 & G2 & G3).
  rewrite Forall_forall in H3, G3. split_and!.
  - by rewrite fmap_app, bind_cons, G1, H1.
  - apply StronglySorted_app; [done..|]. intros x y Hx Hy. destruct (G3 x Hx) as [_ ?]. destruct (H3 y Hy) as [? _]. lia.
  - apply Forall_forall. intros t [Ht|Ht]%elem_of_app; [destruct (G3 t Ht); split; [lia|]; exists sd; split; [by left|done]|]. destruct (H3 t Ht) as [? (sd' & ? & ?)]. split; [lia|]. exists sd'. split; [by right|done].
Qed.

(** ** A cap per stream loses nothing *)

Section top.
Context {A : Type} (key : A -> Z).
(** An element is put after those on its left that are not greater. *)
Lemma sort_split X b Y : exists P Q, sort_by key (X ++ b :: Y) = P ++ b :: Q /\ sort_by key (X ++ Y) = P ++ Q /\ (length (filter (fun x => (key x <= key b)%Z) X) <= length P)%nat.
Proof.
  set (P := sort_by key (filter (fun x => key x <= key b) X ++ filter (fun x => key x < key b) Y)). set (Q := sort_by key (filter (fun x => key b < key x) X ++ filter (fun x => key b <= key x) Y)).
  assert (HP : Forall (fun x => key x <= key b) P) by (unfold P; rewrite sort_by_perm; apply Forall_app; split; apply Forall_forall; intros x [Hx _]%list_elem_of_filter; lia).
  assert (HQ : Forall (fun x => key b <= key x) Q) by (unfold Q; rewrite sort_by_perm; apply Forall_app; split; apply Forall_forall; intros x [Hx _]%list_elem_of_filter; lia).
  assert (HPQ : forall x y, x ∈ P -> y ∈ Q -> key_le key x y) by (rewrite Forall_forall in HP, HQ; intros x y Hx Hy; specialize (HP x Hx); specialize (HQ y Hy); unfold key_le; cbn in *; lia).
  assert (Hk : forall k, filter (fun x => key x = k) P ++ filter (fun x => key x = k) Q = filter (fun x => key x = k) X ++ filter (fun x => key x = k) Y).
  { intros k. unfold P, Q. rewrite !sort_by_filter, !filter_app, !list_filter_filter. destruct (Z.lt_trichotomy k (key b)) as [Hlt|[->|Hgt]].
    - rewrite (filter_nothing (fun x => key x = k /\ key b < key x)), (filter_nothing (fun x => key x = k /\ key b <= key x)) by (apply Forall_forall; lia). rewrite !app_nil_r. f_equal; apply list_filter_iff; lia.
    - rewrite (filter_nothing (fun x => key x = key b /\ key x < key b)), (filter_nothing (fun x => key x = key b /\ key b < key x)) by (apply Forall_forall; lia). rewrite app_nil_r. cbn [app]. f_equal; apply list_filter_iff; lia.
    - rewrite (filter_nothing (fun x => key x = k /\ key x <= key b)), (filter_nothing (fun x => key x = k /\ key x < key b)) by (apply Forall_forall; lia). cbn [app]. f_equal; apply list_filter_iff; lia. }
  exists P, Q. split_and!.
  - apply (sort_by_unique key); [apply sort_by_sorted| |].
    + apply StronglySorted_app; [apply sort_by_sorted|constructor; [apply sort_by_sorted|eapply Forall_impl; [exact HQ|done]]|]. intros x y Hx [->|Hy]%elem_of_cons; [rewrite Forall_forall in HP; by apply HP|by apply HPQ].
    + intros k. rewrite sort_by_filter, !filter_app, !filter_cons. specialize (Hk k). destruct (decide (key b = k)) as [Eb|Eb].
      * assert (E1 : filter (fun x => key x = k) P = filter (fun x => key x = k) X) by (unfold P; rewrite sort_by_filter, filter_app, !list_filter_filter; rewrite (filter_nothing (fun x => key x = k /\ key x < key b)) by (apply Forall_forall; lia); rewrite app_nil_r; apply list_filter_iff; lia).
        rewrite E1 in *. apply app_inv_head in Hk. by rewrite Hk.
      * done.
  - apply (sort_by_unique key); [apply sort_by_sorted|apply StronglySorted_app; [apply sort_by_sorted..|done]|]. intros k. by rewrite sort_by_filter, !filter_app, Hk.
  - unfold P. rewrite (Permutation_length (sort_by_perm key _)), length_app. lia.
Qed.
Lemma take_drop_late n X B1 B2 Y : (n <= length B1)%nat -> (forall x y, x ∈ B1 -> y ∈ B2 -> key x <= key y) -> take n (sort_by key (X ++ B1 ++ B2 ++ Y)) = take n (sort_by key (X ++ B1 ++ Y)).
Proof.
  intros Hn. induction B2 as [|b B2 IH]; intros Hle; [done|]. rewrite <- IH by (intros; apply Hle; [done|by right]). destruct (sort_split (X ++ B1) b (B2 ++ Y)) as (P & Q & E1 & E2 & HP).
  rewrite <- !app_assoc in *. cbn [app] in *. rewrite E1, E2. assert (HnP : (n <= length P)%nat).
  { rewrite filter_app, length_app, (filter_all (fun x => key x <= key b) B1) in HP by (apply Forall_forall; intros x Hx; apply Hle; [done|by left]). lia. }
  by rewrite !take_app_le.
Qed.
Lemma capped_blocks n X (blocks : list (list A)) : Forall (StronglySorted (key_le key)) blocks -> take n (sort_by key (X ++ (blocks ≫= take n))) = take n (sort_by key (X ++ concat blocks)).
Proof.
  intros HF. revert X. induction HF as [|B blocks HB HF IH]; intros X; [done|]. rewrite bind_cons. cbn [concat]. change (concat (B :: blocks)) with (B ++ concat blocks). rewrite app_assoc, IH, <- app_assoc. destruct (decide (length B <= n)%nat); [by rewrite (take_ge B)|].
  rewrite <- (take_drop n B) at 2. rewrite <- app_assoc. symmetry. apply take_drop_late; [rewrite length_take; lia|]. intros x y Hx Hy. rewrite <- (take_drop n B) in HB.
  clear -HB Hx Hy. induction (take n B) as [|z l IH]; [by apply elem_of_nil in Hx|]. cbn [app] in HB. inversion HB as [|?? HB' Hz]; subst. apply elem_of_cons in Hx as [->|Hx]; [|by apply IH].
  apply Forall_app in Hz as [_ Hz]. rewrite Forall_forall in Hz. by apply Hz.
Qed.
End top.

Lemma cap_take {A} limit (l : list A) : 0 < limit -> cap limit l = take (Z.to_nat limit) l.
Proof. intros H. unfold cap. rewrite (proj2 (Z.ltb_lt 0 limit)) by done. destruct (Z.ltb_spec limit (Z.of_nat (length l))); cbn [andb]; [done|]. by rewrite take_ge by lia. Qed.
Lemma cap_none {A} limit (l : list A) : limit <= 0 -> cap limit l = l.
Proof. intros H. unfold cap. by rewrite (proj2 (Z.ltb_ge 0 limit)) by done. Qed.
Lemma cap_incl {A} limit (l : list A) x : x ∈ cap limit l -> x ∈ l.
Proof. unfold cap. destruct (_ && _)%bool; [|done]. intros H. rewrite <- (take_drop (Z.to_nat limit) l). apply elem_of_app. by left. Qed.

Lemma concat_bind {A B} (f : A -> list B) l : concat (f <$> l) = l ≫= f.
Proof. induction l as [|x l IH]; [done|]. rewrite bind_cons. cbn [fmap list_fmap concat]. by rewrite IH. Qed.
(** Sorting the pieces first changes nothing. *)
Lemma sort_by_blocks {A} (key : A -> Z) {B} (f : B -> list A) bs : sort_by key (bs ≫= fun b => sort_by key (f b)) = sort_by key (bs ≫= f).
Proof.
  apply (sort_by_unique key); [apply sort_by_sorted..|]. intros k. rewrite !sort_by_filter. induction bs as [|b bs IH]; [done|]. by rewrite !bind_cons, !filter_app, sort_by_filter, IH.
Qed.

Section answer.
Context (sel : LogSelector) (endNs : Z) (endInclusive : bool) (limit : Z) (dir : Direction).
Abbreviation part := (stream_part sel endNs endInclusive limit dir).
Abbreviation wanted := (wanted_lines sel endNs endInclusive).

Lemma stream_part_sorted sd : pair (sid sd) <$> part sd = cap limit (sort_by (rank dir) (wanted sd)).
Proof.
  unfold stream_part, wanted_lines. rewrite cap_fmap, sortEntries_by, <- sort_by_fmap. f_equal. f_equal. unfold sort_by. induction (kept_entries sel endNs endInclusive (st_entries sd)) as [|e es IH]; [done|].
  cbn [SliceStable foldr]. unfold SliceStable in IH. rewrite IH. apply insert_stable_ext. intros y _. unfold less_by, rank. cbn [fst snd].
  destruct (Z.ltb_spec (dir_ts dir (le_ts y)) (dir_ts dir (le_ts e))); symmetry; [apply Z.ltb_lt|apply Z.ltb_ge]; lia.
Qed.
(** The engine's cap per stream, global sort and cut are one sort and one cut. *)
Lemma capped_answer streams : Forall (fun sd => in_u64 (sid sd)) streams ->
  untag <$> cap limit (SliceStable (tagged_less dir) (collect_all part 0 streams)) = answer_lines sel endNs endInclusive limit dir streams.
Proof.
  intros Hu. destruct (collect_all_spec part 0 streams) as (H1 & H2 & H3). rewrite tagged_sorted; [|done|].
  - rewrite cap_fmap, sort_by_fmap, H1. unfold answer_lines. rewrite (list_bind_ext (fun sd => pair (sid sd) <$> part sd) (fun sd => cap limit (sort_by (rank dir) (wanted sd))) streams streams) by (done || intros; apply stream_part_sorted).
    destruct (Z.le_gt_cases limit 0) as [Hl|Hl].
    + rewrite !cap_none by done. rewrite <- (sort_by_blocks _ wanted). f_equal. apply list_bind_ext; [|done]. intros. by apply cap_none.
    + rewrite !cap_take by lia. rewrite (list_bind_ext _ (fun sd => take (Z.to_nat limit) (sort_by (rank dir) (wanted sd))) streams streams) by (done || intros; apply cap_take; lia).
      rewrite <- (sort_by_blocks _ wanted). pose proof (capped_blocks (rank dir) (Z.to_nat limit) [] ((fun sd => sort_by (rank dir) (wanted sd)) <$> streams)) as H. cbn [app] in H. rewrite list_fmap_bind, concat_bind in H.
      rewrite <- (H ltac:(apply Forall_fmap, Forall_true; intros; apply sort_by_sorted)). done.
  - eapply Forall_impl; [exact H3|]. intros t (_ & sd & Hsd & ->). rewrite Forall_forall in Hu. by apply Hu.
Qed.
End answer.

(** ** The answer does not depend on the order of the source *)

Section order.
Context (sel : LogSelector) (endNs : Z) (endInclusive : bool) (limit : Z) (dir : Direction).
Abbreviation wanted := (wanted_lines sel endNs endInclusive).

Lemma rank_id (a b : Z * LogEntry) : in_u64 a.1 -> in_u64 b.1 -> rank dir a = rank dir b -> a.1 = b.1.
Proof. unfold in_u64, rank. intros. nia. Qed.
Lemma wanted_apart a b k : in_u64 (sid a) -> in_u64 (sid b) -> sid a <> sid b ->
  filter (fun p => rank dir p = k) (wanted a) = [] \/ filter (fun p => rank dir p = k) (wanted b) = [].
Proof.
  intros Ha Hb Hne. destruct (filter _ (wanted a)) as [|x l] eqn:Ex; [by left|]. destruct (filter _ (wanted b)) as [|y m] eqn:Ey; [by right|]. exfalso. apply Hne.
  assert (Hx : x ∈ filter (fun p => rank dir p = k) (wanted a)) by (rewrite Ex; by left). assert (Hy : y ∈ filter (fun p => rank dir p = k) (wanted b)) by (rewrite Ey; by left).
  apply list_elem_of_filter in Hx as [Kx (ex & -> & _)%list_elem_of_fmap], Hy as [Ky (ey & -> & _)%list_elem_of_fmap]. apply (rank_id (sid a, ex) (sid b, ey)); [done..|congruence].
Qed.
Lemma answer_lines_perm s1 s2 : s1 ≡ₚ s2 -> NoDup (sid <$> s1) -> Forall (fun sd => in_u64 (sid sd)) s1 ->
  answer_lines sel endNs endInclusive limit dir s1 = answer_lines sel endNs endInclusive limit dir s2.
Proof.
  intros Hp Hnd Hu. unfold answer_lines. f_equal. apply (sort_by_unique (rank dir)); [apply sort_by_sorted..|]. intros k. rewrite !sort_by_filter.
  induction Hp as [|x l l' Hp IH|x y l|l l' l'' Hp IH Hp' IH'].
  - done.
  - rewrite !bind_cons, !filter_app. cbn [fmap list_fmap] in Hnd. apply NoDup_cons in Hnd as [_ Hnd]. apply Forall_cons in Hu as [_ Hu]. by rewrite IH.
  - rewrite !bind_cons, !filter_app. cbn [fmap list_fmap] in Hnd. apply NoDup_cons in Hnd as [Hn _]. apply Forall_cons in Hu as [Hy [Hx _]%Forall_cons].
    destruct (wanted_apart x y k Hx Hy) as [-> | ->]; [intros E; apply Hn; rewrite E; by left|by rewrite app_nil_l|by rewrite app_nil_l].
  - rewrite IH, IH'; [done|by rewrite <- Hp|by rewrite <- Hp|done..].
Qed.
End order.

(** ** Grouping by what is left of the labels *)

(** Keys in order of first use. *)
Definition first_use {A} `{EqDecision A} (l : list A) : list A := fold_left (fun acc x => if decide (x ∈ acc) then acc else acc ++ [x]) l [].
(** The lines of the answer, under the label sets they end up with. *)
Definition group_answer (labs : Z -> gmap string string) (lines : list (Z * LogEntry)) : list StreamResult :=
  (fun m => mkSR m (snd <$> filter (fun p => labs p.1 = m) lines)) <$> first_use ((fun p => labs p.1) <$> lines).
Definition short_labels (m : gmap string string) : Prop := map_Forall (fun k v => str_len k < 2 ^ 32 /\ str_len v < 2 ^ 32) m.

Lemma filter_fmap {A B} (f : A -> B) (P : B -> Prop) `{!forall x, Decision (P x)} (l : list A) : filter P (f <$> l) = f <$> filter (fun x => P (f x)) l.
Proof. induction l as [|x l IH]; [done|]. cbn [fmap list_fmap]. rewrite !filter_cons. case_decide; [|done]. cbn [fmap list_fmap]. by rewrite <- IH. Qed.
Lemma first_use_snoc {A} `{EqDecision A} (l : list A) x : first_use (l ++ [x]) = if decide (x ∈ first_use l) then first_use l else first_use l ++ [x].
Proof. unfold first_use. by rewrite fold_left_app. Qed.
Lemma elem_of_first_use {A} `{EqDecision A} (l : list A) x : x ∈ first_use l <-> x ∈ l.
Proof.
  induction l as [|y l IH] using rev_ind; [done|]. rewrite first_use_snoc, elem_of_app, list_elem_of_singleton. case_decide as Hy; [set_solver|]. rewrite elem_of_app, list_elem_of_singleton. tauto.
Qed.
Lemma encode_str_inj s t a b : 0 <= str_len s < 2 ^ 32 -> 0 <= str_len t < 2 ^ 32 -> encode_str s ++ a = encode_str t ++ b -> s = t /\ a = b.
Proof.
  intros Hs Ht E. unfold encode_str in E. rewrite <- !app_assoc in E. apply app_inj_1 in E as [El E]; [|by rewrite !length_be_bytes].
  apply (f_equal be_val) in El. rewrite !be_val_bytes in El. change (2 ^ (8 * Z.of_nat 4)) with (2 ^ 32) in El. unfold u32 in El. rewrite !Z.mod_mod, !Z.mod_small in El by lia. unfold str_len in El.
  apply app_inj_1 in E as [Es ->]; [|rewrite !length_str_bytes; lia]. by apply str_bytes_inj in Es.
Qed.
Lemma encodeLabelSet_inj m1 m2 : short_labels m1 -> short_labels m2 -> encodeLabelSet m1 = encodeLabelSet m2 -> m1 = m2.
Proof.
  assert (Hall : forall m, short_labels m -> Forall (fun e => str_len e.1 < 2 ^ 32 /\ str_len e.2 < 2 ^ 32) (sorted_pairs m)).
  { intros m Hm. unfold sorted_pairs. rewrite (sort_str_perm fst). apply map_Forall_to_list in Hm. eapply Forall_impl; [exact Hm|]. by intros [k v]. }
  intros H1%Hall H2%Hall E. apply (map_to_list_inj (M := gmap string)). rewrite <- (sort_str_perm fst (map_to_list m1)), <- (sort_str_perm fst (map_to_list m2)).
  unfold encodeLabelSet in E. fold (sorted_pairs m1) (sorted_pairs m2). revert H2 E. generalize (sorted_pairs m2). induction H1 as [|[k v] l [Hk Hv] Hl IH]; intros l2 H2 E.
  - destruct H2 as [|[k v] l2 _ _]; [done|]. rewrite bind_cons in E. done.
  - destruct H2 as [|[k2 v2] l2 [Hk2 Hv2] Hl2]; [rewrite bind_cons in E; done|]. rewrite !bind_cons, <- !app_assoc in E. cbn [fst snd] in *.
    apply encode_str_inj in E as [-> E]; [|unfold str_len in *; lia..]. apply encode_str_inj in E as [-> E]; [|unfold str_len in *; lia..]. constructor. by apply IH.
Qed.
Lemma drop_labels_lookup names m k : drop_labels names m !! k = if decide (k ∈ names) then None else m !! k.
Proof.
  unfold drop_labels. revert m. induction names as [|n names IH]; intros m; [done|]. cbn [fold_left]. rewrite IH. destruct (decide (k ∈ names)); [rewrite decide_True by (by right); done|]. destruct (decide (k = n)) as [->|]; [by rewrite lookup_delete_eq, decide_True by (by left)|].
  rewrite lookup_delete_ne by done. rewrite decide_False; [done|]. by intros [?|?]%elem_of_cons.
Qed.
Lemma drop_labels_short names m : short_labels m -> short_labels (drop_labels names m).
Proof. intros Hm k v H. rewrite drop_labels_lookup in H. case_decide; [done|]. by apply Hm. Qed.

Section group.
Context (lbls : gmap Z Labels) (drops : list string).
Definition result_labels (id : Z) : gmap string string := drop_labels drops (match lbls !! id with Some l => labels_Map l | None => ∅ end).
Context (Hshort : forall id l, lbls !! id = Some l -> short_labels (labels_Map l)).
Abbreviation lab t := (result_labels (te_id t)).
Definition grp_inv (ts : list taggedEntry) (g : grouping) : Prop :=
  gr_order g = encodeLabelSet <$> first_use ((fun t => lab t) <$> ts) /\
  (forall id key, gr_keyOf g !! id = Some key -> key = encodeLabelSet (result_labels id) /\ result_labels id ∈ (fun t => lab t) <$> ts) /\
  (forall m, short_labels m -> gr_grouped g !! encodeLabelSet m = match te_entry <$> filter (fun t => lab t = m) ts with [] => None | es => Some es end) /\
  (forall t, t ∈ ts -> gr_labelsOf g !! encodeLabelSet (lab t) = Some (lab t)) /\
  (forall key m, gr_labelsOf g !! key = Some m -> short_labels m /\ key = encodeLabelSet m).

Lemma lab_short id : short_labels (result_labels id).
Proof. apply drop_labels_short. destruct (lbls !! id) as [l|] eqn:E; [by eapply Hshort|]. by intros k v ?. Qed.
(** Looking the key up, or making it. *)
Lemma key_step ts g t : grp_inv ts g -> exists keyOf labelsOf,
  group_one lbls drops g t = (let key := encodeLabelSet (lab t) in
    mkGrp (match gr_grouped g !! key with Some _ => gr_order g | None => gr_order g ++ [key] end) keyOf
      (<[key := default [] (gr_grouped g !! key) ++ [te_entry t]]> (gr_grouped g)) labelsOf) /\
  (forall id key, keyOf !! id = Some key -> key = encodeLabelSet (result_labels id) /\ (result_labels id ∈ (fun t => lab t) <$> ts \/ id = te_id t)) /\
  (forall x, x ∈ ts \/ x = t -> labelsOf !! encodeLabelSet (lab x) = Some (lab x)) /\
  (forall key m, labelsOf !! key = Some m -> short_labels m /\ key = encodeLabelSet m).
Proof using Hshort.
  intros (Ho & Hk & Hg & Hl & Hs). unfold group_one. destruct (gr_keyOf g !! te_id t) as [key|] eqn:E.
  - destruct (Hk _ _ E) as [-> Hin]. exists (gr_keyOf g), (gr_labelsOf g). split_and!; [done| |intros x [Hx | ->]|done].
    + intros id key' Hid. destruct (Hk _ _ Hid). eauto.
    + by apply Hl.
    + apply list_elem_of_fmap in Hin as (y & Ey & Hy). rewrite Ey. by apply Hl.
  - fold (result_labels (te_id t)). set (m := lab t). set (key := encodeLabelSet m). eexists _, _. split; [done|]. split_and!.
    + intros id key' Hid. rewrite lookup_insert in Hid. case_decide as Hi; [subst id; injection Hid as <-; eauto|]. destruct (Hk _ _ Hid). eauto.
    + intros x Hx. destruct (gr_labelsOf g !! key) as [m'|] eqn:Em.
      * destruct Hx as [Hx | ->]; [by apply Hl|]. destruct (Hs _ _ Em) as [Hm' Ee]. unfold key in Ee. apply encodeLabelSet_inj in Ee; [|apply lab_short|done]. rewrite <- Ee in Em. exact Em.
      * rewrite lookup_insert. case_decide as Hi; [apply encodeLabelSet_inj in Hi; [by rewrite <- Hi|apply lab_short..]|]. destruct Hx as [Hx | ->]; [by apply Hl|done].
    + intros key' m' H. destruct (gr_labelsOf g !! key) as [m''|]; [by apply Hs|]. rewrite lookup_insert in H. case_decide as Hi; [|by apply Hs]. injection H as <-. subst key'. split; [apply lab_short|done].
Qed.
Lemma group_one_inv ts g t : grp_inv ts g -> grp_inv (ts ++ [t]) (group_one lbls drops g t).
Proof using Hshort.
  intros HI. destruct (key_step ts g t HI) as (keyOf & labelsOf & -> & Hk & Hl & Hs). destruct HI as (Ho & _ & Hg & _ & _). cbn zeta.
  pose proof (Hg (lab t) (lab_short _)) as Ht. unfold grp_inv. cbn [gr_order gr_keyOf gr_grouped gr_labelsOf]. rewrite fmap_app. split_and!.
  - change ((fun t => lab t) <$> [t]) with [lab t]. rewrite first_use_snoc, Ho, Ht. destruct (decide (lab t ∈ first_use ((fun t => lab t) <$> ts))) as [Hin|Hout].
    + rewrite elem_of_first_use in Hin. apply list_elem_of_fmap in Hin as (y & Ey & Hy). destruct (te_entry <$> filter (fun t0 => lab t0 = lab t) ts) eqn:E; [|done]. apply fmap_nil_inv in E.
      assert (y ∈ filter (fun t0 => lab t0 = lab t) ts) as H by (by apply list_elem_of_filter). rewrite E in H. by apply elem_of_nil in H.
    + rewrite fmap_app. rewrite (filter_nothing (fun t0 => lab t0 = lab t)); [done|]. apply Forall_forall. intros y Hy Ey. apply Hout. rewrite elem_of_first_use. apply list_elem_of_fmap. eauto.
  - intros id key Hid. destruct (Hk id key Hid) as [-> [Hin | ->]]; (split; [done|]); apply elem_of_app; [by left|right; by left].
  - intros m Hm. rewrite lookup_insert, filter_app, filter_cons, filter_nil. case_decide as Hi.
    + apply encodeLabelSet_inj in Hi; [|apply lab_short|done]. subst m. rewrite decide_True by done. rewrite Ht, fmap_app. by destruct (te_entry <$> filter _ ts).
    + rewrite decide_False by congruence. rewrite app_nil_r. by apply Hg.
  - intros x [Hx|Hx%list_elem_of_singleton]%elem_of_app; apply Hl; [by left|by right].
  - done.
Qed.
Lemma group_all_inv ts : grp_inv ts (fold_left (group_one lbls drops) ts (mkGrp [] ∅ ∅ ∅)).
Proof using Hshort.
  induction ts as [|t ts IH] using rev_ind; [|rewrite fold_left_app; by apply group_one_inv]. split_and!; cbn; [done|by intros ?? ?|by intros m _; rewrite lookup_empty|by intros t ?%elem_of_nil|by intros ?? ?].
Qed.
Lemma group_all_exact ts : group_all lbls drops ts = group_answer result_labels (untag <$> ts).
Proof using Hshort.
  destruct (group_all_inv ts) as (Ho & _ & Hg & Hl & _). unfold group_all, group_answer. cbn zeta. rewrite Ho, <- !list_fmap_compose. apply list_fmap_ext. intros i m Hm%list_elem_of_lookup_2. unfold compose. cbv beta.
  rewrite elem_of_first_use in Hm. apply list_elem_of_fmap in Hm as (t & -> & Ht). change (((fun p => result_labels p.1) ∘ untag) t) with (lab t). rewrite (Hl t Ht), (Hg _ (lab_short _)). cbn [default]. f_equal.
  rewrite filter_fmap, <- list_fmap_compose. unfold compose, untag. cbn [fst snd]. by destruct (te_entry <$> filter _ ts).
Qed.
End group.

(** ** The engine over any source *)

Definition short_db (db : log_db) : Prop := forall l, is_Some (db l) -> labels_wf l /\ short_labels (labels_Map l).
Lemma short_sid (db : log_db) l : short_db db -> is_Some (db l) -> in_u64 (StreamIDOf l).
Proof. intros Hs Hl. destruct (Hs l Hl) as [[_ Hh] _]. unfold StreamIDOf, Hash. rewrite Hh. apply fnv64a_in. Qed.
Lemma labels_by_id_lookup streams : NoDup (sid <$> streams) -> forall id, labels_by_id streams !! id = st_labels <$> find (fun sd => sid sd =? id) streams.
Proof.
  intros Hnd id. unfold labels_by_id. assert (H : forall m : gmap Z Labels, fold_left (fun m sd => <[sid sd := st_labels sd]> m) streams m !! id = match find (fun sd => sid sd =? id) streams with Some sd => Some (st_labels sd) | None => m !! id end).
  { induction streams as [|sd streams IH]; intros m; [done|]. cbn [fmap list_fmap] in Hnd. apply NoDup_cons in Hnd as [Hn Hnd]. cbn [fold_left find]. rewrite (IH Hnd). destruct (Z.eqb_spec (sid sd) id) as [<-|Hne].
    - destruct (find _ streams) as [sd'|] eqn:E; [|by rewrite lookup_insert_eq]. apply find_some in E as [Hin%list_elem_of_In E%Z.eqb_eq]. exfalso. apply Hn, list_elem_of_fmap. by exists sd'.
    - destruct (find _ streams); [done|]. by rewrite lookup_insert_ne. }
  rewrite H. by destruct (find _ streams).
Qed.

Section engine.
Context (db : log_db) (Hshort : short_db db) `{Hnc : !log_no_collision db db}.
Lemma answer_ids ms lo hi out : log_answers db ms lo hi out -> NoDup (sid <$> out) /\ Forall (fun sd => in_u64 (sid sd)) out /\ (forall id l, labels_by_id out !! id = Some l -> short_labels (labels_Map l)).
Proof using Hnc Hshort.
  intros Ha. assert (Hnd : NoDup (sid <$> out)) by (eapply answers_sids; [|exact Ha]; intros; apply Hnc; auto). destruct Ha as [_ Ha].
  assert (Hin : forall sd, sd ∈ out -> is_Some (db (st_labels sd))) by (intros sd (raw & -> & _)%Ha; done). split_and!; [done| |].
  - apply Forall_forall. intros sd Hsd. eapply short_sid; eauto.
  - intros id l. rewrite labels_by_id_lookup by done. destruct (find _ out) as [sd|] eqn:E; [|done]. intros E2. injection E2 as <-. apply find_some in E as [Hsd%list_elem_of_In _]. by apply Hshort, Hin.
Qed.
Lemma query_streams_exact sel lo hi incl limit dir out : log_answers db (sel_Matchers sel) lo hi out ->
  query_streams sel hi incl limit dir out = group_answer (result_labels (labels_by_id out) (sel_DropLabels sel)) (answer_lines sel hi incl limit dir out).
Proof using Hnc Hshort. intros (Hnd & Hu & Hs)%answer_ids. unfold query_streams. by rewrite group_all_exact, capped_answer. Qed.
(** Two answers of one database are the same streams. *)
Lemma answers_perm ms lo hi o1 o2 : log_answers db ms lo hi o1 -> log_answers db ms lo hi o2 -> o1 ≡ₚ o2.
Proof using.
  intros [N1 A1] [N2 A2]. apply NoDup_Permutation; [by eapply NoDup_fmap_1|by eapply NoDup_fmap_1|]. intros sd. by rewrite A1, A2.
Qed.
Lemma labels_by_id_perm o1 o2 : o1 ≡ₚ o2 -> NoDup (sid <$> o1) -> labels_by_id o1 = labels_by_id o2.
Proof using.
  intros Hp Hnd. assert (Hnd2 : NoDup (sid <$> o2)) by (by rewrite <- Hp). apply map_eq. intros id. rewrite !labels_by_id_lookup by done. f_equal.
  apply option_eq. intros sd. rewrite !find_sid by done. by rewrite Hp.
Qed.
End engine.

(** C15. A log query over any source that implements a database, from the first
    matching stream to the grouped result: whichever streams the source lists and in
    whatever order, the answer is the matching lines of every stream in one stable
    sort by time in the direction asked and then by stream, cut once at the limit,
    and listed under the labels left after the drops, in order of first use. The cap
    each stream is cut to beforehand and the keys the groups are built from never
    change it. *)
Theorem log_query_exact (src : LogSource) (ctx : context) (db : log_db) `{!LogImplements src ctx db} `{!log_no_collision db db} (Hshort : short_db db)
    sel startNs endNs endInclusive limit dir streams (Hans : log_answers db (sel_Matchers sel) startNs endNs streams) :
  log_query src ctx sel startNs endNs endInclusive limit dir =
  Ok (group_answer (result_labels (labels_by_id streams) (sel_DropLabels sel)) (answer_lines sel endNs endInclusive limit dir streams)).
Proof.
  destruct (streams_answer (src := src) (ctx := ctx) (db := db) (sel_Matchers sel) startNs endNs) as (out & Eo & Ho). unfold log_query. rewrite Eo, bind_Ok.
  rewrite (query_streams_exact db Hshort sel startNs endNs endInclusive limit dir out Ho). pose proof (answers_perm db _ _ _ _ _ Ho Hans) as Hp. destruct (answer_ids db Hshort _ _ _ _ Ho) as (Hnd & Hu & _).
  by rewrite (labels_by_id_perm out streams Hp Hnd), (answer_lines_perm sel endNs endInclusive limit dir out streams Hp Hnd Hu).
Qed.

(** Two streams that differ by pod; the pod is dropped, and the answer is cut. *)
Definition demo_pod (n : string) : Labels := build (<["pod" := n]> {["app" := "api"]}).
Definition demo_entry (n : string) (ts : Z) (line : string) : LogEntry := mkLE (StreamIDOf (demo_pod n)) ts line.
Definition demo_query_lines : list line_in := [mkLine (demo_pod "a") 5 "hello"; mkLine (demo_pod "b") 7 "noise"; mkLine (demo_pod "b") 6 "hello"; mkLine (demo_pod "a") 9 "hello"].
Definition demo_query_buffer : buffer := buffer_of demo_query_lines.
Definition demo_query_db : log_db := head_db demo_query_buffer.
Definition demo_query_sel : LogSelector := mkSel [mkPair "app" "api"] [mkLF FilterContains "ell" (fun _ => false)] ["pod"].
Definition demo_query_streams : list StreamData := [mkSD (demo_pod "a") [demo_entry "a" 5 "hello"; demo_entry "a" 9 "hello"]; mkSD (demo_pod "b") [demo_entry "b" 6 "hello"; demo_entry "b" 7 "noise"]].
Lemma demo_pod_stored n : n = "a" \/ n = "b" -> stored_labels (demo_pod n).
Proof. intros [-> | ->]; vm_compute; reflexivity. Qed.
Lemma demo_query_wf : buffer_wf demo_query_buffer.
Proof.
  intros id hs H. unfold demo_query_buffer in H. rewrite buffer_stream in H. destruct (of_stream id demo_query_lines) as [|x xs] eqn:E; [done|]. injection H as <-. cbn [ls_labels].
  assert (Hx : x ∈ of_stream id demo_query_lines) by (rewrite E; by left). apply list_elem_of_filter in Hx as [Hid Hx]. split; [|done].
  unfold demo_query_lines in Hx. rewrite !elem_of_cons, elem_of_nil in Hx. destruct Hx as [-> |[-> |[-> |[-> |[]]]]]; apply demo_pod_stored; auto.
Qed.
Lemma demo_query_known l : is_Some (demo_query_db l) <-> l = demo_pod "a" \/ l = demo_pod "b".
Proof.
  unfold demo_query_db. rewrite <- (head_label_sets_spec _ _ demo_query_wf). assert (E : sort_by StreamIDOf (head_label_sets demo_query_buffer) = sort_by StreamIDOf [demo_pod "a"; demo_pod "b"]) by (vm_compute; reflexivity).
  rewrite <- (sort_by_perm StreamIDOf (head_label_sets _)), E, sort_by_perm, elem_of_cons, list_elem_of_singleton. done.
Qed.
Lemma demo_query_apart : log_no_collision demo_query_db demo_query_db.
Proof.
  assert (Hne : StreamIDOf (demo_pod "a") <> StreamIDOf (demo_pod "b")) by (vm_compute; discriminate).
  assert (Hin : forall l, is_Some (demo_query_db l) \/ is_Some (demo_query_db l) -> l = demo_pod "a" \/ l = demo_pod "b") by (intros l [H|H]; by apply demo_query_known).
  revert Hin Hne. generalize (demo_pod "a") (demo_pod "b") demo_query_db. intros a b db Hin Hne l1 l2 H1%Hin H2%Hin. destruct H1 as [-> | ->], H2 as [-> | ->]; congruence.
Qed.
Lemma demo_query_short : short_db demo_query_db.
Proof.
  intros l Hl. assert (Hs : stored_labels l) by (apply demo_query_known in Hl as [-> | ->]; apply demo_pod_stored; auto). apply stored_labels_spec in Hs as (Hwf & _ & HF). split; [done|].
  intros k v Hk. destruct (entry_ok_short k v (HF k v Hk)). lia.
Qed.
Lemma demo_query_answers : log_answers demo_query_db (sel_Matchers demo_query_sel) 0 9 demo_query_streams.
Proof.
  apply answers_stream. split; [repeat constructor; rewrite ?elem_of_cons, elem_of_nil; [intros [H|[]]; vm_compute in H; discriminate|intros []]|].
  assert (Ea : wanted_stream demo_query_db (sel_Matchers demo_query_sel) 0 9 (demo_pod "a") = Some (mkSD (demo_pod "a") [demo_entry "a" 5 "hello"; demo_entry "a" 9 "hello"])) by (vm_compute; reflexivity).
  assert (Eb : wanted_stream demo_query_db (sel_Matchers demo_query_sel) 0 9 (demo_pod "b") = Some (mkSD (demo_pod "b") [demo_entry "b" 6 "hello"; demo_entry "b" 7 "noise"])) by (vm_compute; reflexivity).
  intros sd. unfold demo_query_streams. rewrite !elem_of_cons, elem_of_nil. split.
  - intros [-> |[-> |[]]]; cbn [st_labels]; done.
  - intros H. destruct (proj1 (demo_query_known (st_labels sd)) (wanted_known _ _ _ _ _ _ H)) as [E|E]; rewrite E in H; [rewrite Ea in H|rewrite Eb in H]; injection H as <-; auto.
Qed.

Lemma log_query_exact_witness :
  log_QueryRange (AsSource (head_reader demo_query_buffer)) None demo_query_sel 0 9 1 Backward = Ok [mkSR {["app" := "api"]} [demo_entry "b" 6 "hello"]] /\
  log_query (AsSource (head_reader demo_query_buffer)) None demo_query_sel 0 9 false 1 Backward =
    Ok (group_answer (result_labels (labels_by_id demo_query_streams) ["pod"]) (answer_lines demo_query_sel 9 false 1 Backward demo_query_streams)).
Proof.
  split; [vm_compute; reflexivity|].
  exact (log_query_exact (AsSource (head_reader demo_query_buffer)) None demo_query_db (LogImplements0 := AsSource_implements _ _ None (Hr := head_reader_implements _ demo_query_wf)) (log_no_collision0 := demo_query_apart) demo_query_short demo_query_sel 0 9 false 1 Backward demo_query_streams demo_query_answers).
Defined.
