(* ===== verification/LogQL.v ===== *)
(** * LogQL: parsing log queries

    [internal/logs/logql.go]. [regexp.Compile] is a parameter; [strconv.Unquote] is spelt out for the
    double-quoted literals the scanner hands it. *)
From S2P Require Import Prelude GoLib GoSort Labels Postings Batch Text LogQuery.

(** ** Errors: the rule that was broken, with the text or name it quotes *)

(** [strconv.Unquote] answers ErrSyntax for every literal it refuses. *)
Inductive strErr := SeExpected (near : text) | SeUnterminated (s : text) | SeUnterminatedRaw (s : text) | SeSyntax (lit : text) | SeNotUTF8 (lit : text).
Inductive qlErr :=
  | QlEmpty | QlMetricQuery | QlNoSelector | QlNoMatcher | QlPipeline | QlTrailing (s : text)
  | QlUnclosed | QlLabelName (s : text) | QlMatcherOp (op name : text) | QlExpectedEq (name s : text) | QlLabelString (name : text) (e : strErr) | QlLabelUTF8 (name : text) (lit : text) | QlExpectedComma (name s : text)
  | QlFilterString (op : text) (e : strErr) | QlRegexp (value : text)
  | QlDropName (s : text) | QlDropInvalid (name : text) | QlDropMatcher (name s : text).

Definition scanLabelName (s : text) : result qlErr (text * text) :=
  let '(name, rest) := span alnum_ s in if labelNameRe (bytes_str name) then Ok (name, rest) else Err (QlLabelName s).
(** ** String literals *)

Definition unhex (c : Z) : option Z :=
  if in_range c 48 57 then Some (c - 48) else if in_range c 97 102 then Some (c - 97 + 10) else if in_range c 65 70 then Some (c - 65 + 10) else None.
Fixpoint hex_val (n : nat) (v : Z) (s : text) : option (Z * text) :=
  match n, s with
  | O, _ => Some (v, s)
  | S n, c :: r => x ← unhex c; hex_val n (v * 16 + x) r
  | S _, [] => None
  end.
Definition octal (c : Z) : option Z := if in_range c 48 55 then Some (c - 48) else None.
Definition ValidRune (v : Z) : bool := (((0 <=? v) && (v <? 55296)) || ((57343 <? v) && (v <=? 1114111)))%bool.
(** [utf8.AppendRune] of a valid rune. *)
Definition encode_rune (v : Z) : text :=
  if v <? 128 then [v]
  else if v <? 2048 then [192 + v / 64; 128 + v mod 64]
  else if v <? 65536 then [224 + v / 4096; 128 + v / 64 mod 64; 128 + v mod 64]
  else [240 + v / 262144; 128 + v / 4096 mod 64; 128 + v / 64 mod 64; 128 + v mod 64].
Definition simple_escape (c : Z) : option Z :=
  if c =? 97 then Some 7 else if c =? 98 then Some 8 else if c =? 102 then Some 12 else if c =? 110 then Some 10 else if c =? 114 then Some 13
  else if c =? 116 then Some 9 else if c =? 118 then Some 11 else if c =? 92 then Some 92 else if c =? 34 then Some 34 else None.
(** One character of a literal, as its bytes; a raw byte that starts no rune becomes
    U+FFFD. *)
Definition unquote_char (s : text) : option (text * text) :=
  match s with
  | [] => None
  | c :: r =>
      if c =? 10 then None
      else if 128 <=? c then match rune_len s with Some n => Some (take n s, drop n s) | None => Some ([239; 191; 189], r) end
      else if negb (c =? 92) then Some ([c], r)
      else match r with
           | [] => None
           | c :: r =>
               match simple_escape c with
               | Some v => Some ([v], r)
               | None =>
                   if c =? 120 then '(v, r) ← hex_val 2 0 r; Some ([v], r)
                   else if c =? 117 then '(v, r) ← hex_val 4 0 r; if ValidRune v then Some (encode_rune v, r) else None
                   else if c =? 85 then '(v, r) ← hex_val 8 0 r; if ValidRune v then Some (encode_rune v, r) else None
                   else match octal c, r with
                        | Some a, x :: y :: r => b ← octal x; d ← octal y; let v := (a * 8 + b) * 8 + d in if 255 <? v then None else Some ([v], r)
                        | _, _ => None
                        end
               end
           end
  end.
(** [strconv.Unquote] of the literal whose text between the quotes is [s]. *)
Fixpoint unquote_go (fuel : nat) (s : text) : option text :=
  match fuel, s with
  | _, [] => Some []
  | O, _ => None
  | S f, _ => '(v, r) ← unquote_char s; out ← unquote_go f r; Some (v ++ out)
  end.
Definition Unquote (body : text) : option text := unquote_go (length body) body.
(** Up to the closing quote: what is inside, and what follows. *)
Fixpoint scan_quoted (s : text) : option (text * text) :=
  match s with
  | [] => None
  | c :: r =>
      if c =? 92 then match r with [] => None | d :: r => '(a, b) ← scan_quoted r; Some (c :: d :: a, b) end
      else if c =? 34 then Some ([], r)
      else '(a, b) ← scan_quoted r; Some (c :: a, b)
  end.
Definition scanStringLiteral (s : text) : result strErr (text * text * text) :=
  match s with
  | [] => Err (SeExpected [])
  | c :: r =>
      if c =? 96 then match span (fun d => negb (d =? 96)) r with (raw, _ :: rest) => Ok (raw, c :: raw ++ [96], rest) | _ => Err (SeUnterminatedRaw s) end
      else if c =? 34 then
        match scan_quoted r with
        | None => Err (SeUnterminated s)
        | Some (body, rest) => let lit := c :: body ++ [34] in match Unquote body with Some v => Ok (v, lit, rest) | None => Err (SeSyntax lit) end
        end
      else Err (SeExpected s)
  end.
(** The value, the literal as written, and the rest. *)
Definition scanString (s : text) : result strErr (text * text * text) :=
  '(v, lit, rest) ← scanStringLiteral s; if valid_utf8 lit then Ok (v, lit, rest) else Err (SeNotUTF8 lit).

(** ** The query *)

Section parser.
Context (re_compile : string -> option (string -> bool)).

(** [parseStreamSelector], past the brace. *)
Fixpoint selector_loop (fuel : nat) (matchers : list Pair) (s : text) : result qlErr (list Pair * text) :=
  match fuel with
  | O => Err QlUnclosed
  | S f =>
      let s := skipSpace s in
      match s with
      | [] => Err QlUnclosed
      | c :: r =>
          if c =? 125 then Ok (matchers, r) else
          '(name, next) ← scanLabelName s;
          let s := skipSpace next in
          match s with
          | [] => Err QlUnclosed
          | c :: r =>
              if (begins [61; 126] s || begins [33; 61] s || begins [33; 126] s)%bool then Err (QlMatcherOp (take 2 s) name)
              else if negb (c =? 61) then Err (QlExpectedEq name s)
              else match scanString (skipSpace r) with
                   | Err e => Err (QlLabelString name e)
                   | Ok (value, lit, rest) =>
                       if negb (valid_utf8 value) then Err (QlLabelUTF8 name lit) else
                       let matchers := matchers ++ [mkPair (bytes_str name) (bytes_str value)] in
                       match skipSpace rest with
                       | [] => Err QlUnclosed
                       | c :: r => if c =? 44 then selector_loop f matchers r else if c =? 125 then Ok (matchers, r) else Err (QlExpectedComma name (c :: r))
                       end
                   end
          end
      end
  end.
Definition parseStreamSelector (s : text) : result qlErr (list Pair * text) := selector_loop (length s) [] (drop 1 s).

Definition filter_op (a b : Z) : option FilterOp :=
  if ((a =? 124) && (b =? 61))%bool then Some FilterContains else if ((a =? 33) && (b =? 61))%bool then Some FilterNotContains
  else if ((a =? 124) && (b =? 126))%bool then Some FilterMatch else if ((a =? 33) && (b =? 126))%bool then Some FilterNotMatch else None.
Definition make_filter (op : FilterOp) (value : text) : option LineFilter :=
  match op with
  | FilterContains | FilterNotContains => Some (mkLF op (bytes_str value) (fun _ => false))
  | FilterMatch | FilterNotMatch => re ← re_compile (bytes_str value); Some (mkLF op (bytes_str value) re)
  end.
Fixpoint filters_loop (fuel : nat) (filters : list LineFilter) (s : text) : result qlErr (list LineFilter * text) :=
  match fuel, s with
  | S f, a :: b :: r =>
      match filter_op a b with
      | None => Ok (filters, s)
      | Some op =>
          match scanString (skipSpace r) with
          | Err e => Err (QlFilterString [a; b] e)
          | Ok (value, _, rest) =>
              match make_filter op value with None => Err (QlRegexp value) | Some flt => filters_loop f (filters ++ [flt]) (skipSpace rest) end
          end
      end
  | _, _ => Ok (filters, s)
  end.
Definition parseLineFiltersPrefix (s : text) : result qlErr (list LineFilter * text) := filters_loop (length s) [] (skipSpace s).

Definition drop_kw : text := str_bytes "drop".
Fixpoint drop_loop (fuel : nat) (names : list string) (s : text) : result qlErr (list string * text) :=
  match fuel with
  | O => Err (QlDropName s)
  | S f =>
      match scanIdent s with
      | None => Err (QlDropName s)
      | Some (name, next) =>
          if negb (labelNameRe (bytes_str name)) then Err (QlDropInvalid name) else
          let names := names ++ [bytes_str name] in
          match skipSpace next with
          | c :: r => if c =? 61 then Err (QlDropMatcher name (c :: r)) else if c =? 44 then drop_loop f names (skipSpace r) else Ok (names, c :: r)
          | [] => Ok (names, [])
          end
      end
  end.
(** Anything that is not a drop stage is left where it is. *)
Definition parseDropStagePrefix (s : text) : result qlErr (list string * text) :=
  match skipSpace s with
  | c :: r => if c =? 124 then let j := skipSpace r in if hasKeyword j drop_kw then drop_loop (length s) [] (skipSpace (drop 4 j)) else Ok ([], s) else Ok ([], s)
  | [] => Ok ([], s)
  end.

Definition re_space (c : Z) : bool := ((c =? 9) || (c =? 10) || (c =? 12) || (c =? 13) || (c =? 32))%bool.
Definition metricQueryRe (s : text) : bool :=
  let '(name, rest) := span alnum_ s in labelNameRe (bytes_str name) && match (span re_space rest).2 with c :: _ => c =? 40 | [] => false end.
Definition ParseLogQL (q : text) : result qlErr LogSelector :=
  let s := TrimSpace q in
  match s with
  | [] => Err QlEmpty
  | c :: _ =>
      if negb (c =? 123) then (if metricQueryRe s then Err QlMetricQuery else Err QlNoSelector) else
      '(matchers, rest) ← parseStreamSelector s;
      match matchers with
      | [] => Err QlNoMatcher
      | _ =>
          '(filters, rest) ← parseLineFiltersPrefix rest;
          '(dropLabels, rest) ← parseDropStagePrefix rest;
          match TrimSpace rest with
          | [] => Ok (mkSel matchers filters dropLabels)
          | c :: r => if c =? 124 then Err QlPipeline else Err (QlTrailing (c :: r))
          end
      end
  end.
End parser.

(** ** The language *)

Definition hex_text (ds : text) (v : Z) : Prop := hex_val (length ds) 0 ds = Some (v, []).
(** One character between double quotes, and what it stands for. *)
Inductive quoted_char : text -> text -> Prop :=
  | qc_plain c : c < 128 -> c <> 10 -> c <> 34 -> c <> 92 -> quoted_char [c] [c]
  | qc_rune u : rune_len u = Some (length u) -> (2 <= length u)%nat -> quoted_char u u
  | qc_escape c v : simple_escape c = Some v -> quoted_char [92; c] [v]
  | qc_hex ds v : length ds = 2%nat -> hex_text ds v -> quoted_char (92 :: 120 :: ds) [v]
  | qc_u4 ds v : length ds = 4%nat -> hex_text ds v -> ValidRune v = true -> quoted_char (92 :: 117 :: ds) (encode_rune v)
  | qc_u8 ds v : length ds = 8%nat -> hex_text ds v -> ValidRune v = true -> quoted_char (92 :: 85 :: ds) (encode_rune v)
  | qc_octal x y z a b d : octal x = Some a -> octal y = Some b -> octal z = Some d -> (a * 8 + b) * 8 + d <= 255 -> quoted_char [92; x; y; z] [(a * 8 + b) * 8 + d].
Inductive quoted : text -> text -> Prop :=
  | quoted_nil : quoted [] []
  | quoted_cons u v b w : quoted_char u v -> quoted b w -> quoted (u ++ b) (v ++ w).
Inductive string_literal : text -> text -> Prop :=
  | lit_raw v : ~ 96 ∈ v -> string_literal (96 :: v ++ [96]) v
  | lit_quoted b v : quoted b v -> string_literal (34 :: b ++ [34]) v.
Definition literal (lit v : text) : Prop := string_literal lit v /\ valid_utf8 lit = true.
Definition label_name (s : text) : Prop := labelNameRe (bytes_str s) = true /\ Forall (fun c => alnum_ c = true) s.

(** Matchers up to and with the closing brace; a comma may close the list. *)
Inductive matcher_list : text -> list Pair -> Prop :=
  | ml_end w : ws w -> matcher_list (w ++ [125]) []
  | ml_last w1 name w2 w3 lit v w4 : ws w1 -> label_name name -> ws w2 -> ws w3 -> literal lit v -> valid_utf8 v = true -> ws w4 ->
      matcher_list (w1 ++ name ++ w2 ++ [61] ++ w3 ++ lit ++ w4 ++ [125]) [mkPair (bytes_str name) (bytes_str v)]
  | ml_more w1 name w2 w3 lit v w4 t ms : ws w1 -> label_name name -> ws w2 -> ws w3 -> literal lit v -> valid_utf8 v = true -> ws w4 -> matcher_list t ms ->
      matcher_list (w1 ++ name ++ w2 ++ [61] ++ w3 ++ lit ++ w4 ++ [44] ++ t) (mkPair (bytes_str name) (bytes_str v) :: ms).
Inductive drop_names : text -> list string -> Prop :=
  | dn_last name w : label_name name -> ws w -> drop_names (name ++ w) [bytes_str name]
  | dn_more name w1 w2 t ns : label_name name -> ws w1 -> ws w2 -> drop_names t ns -> drop_names (name ++ w1 ++ [44] ++ w2 ++ t) (bytes_str name :: ns).
Inductive drop_stage : text -> list string -> Prop :=
  | ds_none : drop_stage [] []
  | ds_drop w1 w2 t ns : ws w1 -> ws w2 -> w2 <> [] -> drop_names t ns -> drop_stage ([124] ++ w1 ++ drop_kw ++ w2 ++ t) ns.
Inductive filter_list (re_compile : string -> option (string -> bool)) : text -> list LineFilter -> Prop :=
  | fl_nil : filter_list re_compile [] []
  | fl_cons a b op w1 lit v w2 t f fs : filter_op a b = Some op -> ws w1 -> literal lit v -> make_filter re_compile op v = Some f -> ws w2 -> filter_list re_compile t fs ->
      filter_list re_compile ([a; b] ++ w1 ++ lit ++ w2 ++ t) (f :: fs).
(** [{] matchers [}] filters, a drop stage. *)
Inductive log_query_text (re_compile : string -> option (string -> bool)) : text -> LogSelector -> Prop :=
  | lq sb ms w ft fs dt ns rest : matcher_list sb ms -> ms <> [] -> ws w -> filter_list re_compile ft fs -> drop_stage dt ns -> blank rest -> no_head is_space rest ->
      log_query_text re_compile ([123] ++ sb ++ w ++ ft ++ dt ++ rest) (mkSel ms fs ns).

(** ** Scanning *)

Lemma label_name_nonempty name : label_name name -> exists c r, name = c :: r /\ alnum_ c = true.
Proof. intros [H1 H2]. destruct name as [|c r]; [done|]. inversion H2; subst. eauto. Qed.
Lemma scanLabelName_spec s name rest : scanLabelName s = Ok (name, rest) <-> s = name ++ rest /\ label_name name /\ no_head alnum_ rest.
Proof.
  unfold scanLabelName, label_name. split.
  - destruct (span alnum_ s) as [a b] eqn:E. apply span_spec in E as (-> & H1 & H2). destruct (labelNameRe (bytes_str a)) eqn:Er; [|done]. intros [= <- <-]. done.
  - intros (-> & [Hr Hf] & Hn). by rewrite span_app, Hr.
Qed.
Lemma scanIdent_name name rest : label_name name -> no_head alnum_ rest -> scanIdent (name ++ rest) = Some (name, rest).
Proof. intros Hl Hn. unfold scanIdent. destruct (label_name_nonempty _ Hl) as (c & r & -> & _). destruct Hl as [_ Hf]. by rewrite span_app. Qed.
Lemma scanIdent_spec s name rest : scanIdent s = Some (name, rest) -> s = name ++ rest /\ Forall (fun c => alnum_ c = true) name /\ no_head alnum_ rest.
Proof. unfold scanIdent. destruct (span alnum_ s) as [a b] eqn:E. apply span_spec in E as H. destruct a as [|c a]; [done|]. intros [= <- <-]. done. Qed.

(** ** String literals *)

Lemma rune_len_app s t n : rune_len s = Some n -> rune_len (s ++ t) = Some n.
Proof. destruct s as [|b0 [|b1 [|b2 [|b3 s]]]]; cbn [app rune_len]; intros H; try done; repeat (match type of H with context [if ?c then _ else _] => destruct c end); done. Qed.
Lemma rune_len_high u : rune_len u = Some (length u) -> (2 <= length u)%nat -> Forall (fun c => 128 <= c) u.
Proof.
  destruct u as [|b0 [|b1 [|b2 [|b3 [|b4 u]]]]]; cbn [rune_len length]; intros H Hl; try lia; destruct (Z.ltb_spec b0 128); try (injection H; lia);
    repeat (case_match; try done); unfold cont in *; rewrite ?andb_true_iff, ?Z.leb_le in *; repeat constructor; lia.
Qed.
Lemma rune_len_quote s n : s <> [] -> rune_len (s ++ [34]) = Some n -> rune_len s = Some n.
Proof.
  destruct s as [|b0 [|b1 [|b2 [|b3 s]]]]; cbn [app rune_len]; intros Hn H; try done; change (cont 34) with false in H; rewrite ?andb_false_r in H;
    repeat (match type of H with context [if ?c then _ else _] => destruct c end); done.
Qed.
Lemma unhex_not_special c x : unhex c = Some x -> c <> 34 /\ c <> 92 /\ 0 <= x < 16.
Proof. unfold unhex, in_range. repeat case_match; intros [= <-]; rewrite ?andb_true_iff, ?Z.leb_le in *; lia. Qed.
Lemma octal_not_special c x : octal c = Some x -> c <> 34 /\ c <> 92 /\ simple_escape c = None /\ c <> 120 /\ c <> 117 /\ c <> 85 /\ 0 <= x < 8.
Proof. unfold octal, in_range. case_match; intros [= <-]; rewrite ?andb_true_iff, ?Z.leb_le in *. assert (Hs : simple_escape c = None) by (unfold simple_escape; repeat (case_match; [rewrite Z.eqb_eq in *; lia|]); done). split_and!; (done || lia). Qed.
Lemma hex_val_app n v s t w r : hex_val n v s = Some (w, r) -> hex_val n v (s ++ t) = Some (w, r ++ t).
Proof.
  revert v s. induction n as [|n IH]; intros v s; cbn [hex_val]; [intros [= <- <-]; done|]. destruct s as [|c s]; [done|]. cbn [app].
  destruct (unhex c) as [x|]; [|done]. apply IH.
Qed.
Lemma hex_val_split n v s w r : hex_val n v s = Some (w, r) -> exists ds, s = ds ++ r /\ length ds = n /\ hex_val n v ds = Some (w, []) /\ Forall (fun c => exists x, unhex c = Some x) ds.
Proof.
  revert v s. induction n as [|n IH]; intros v s; cbn [hex_val].
  - intros [= <- <-]. by exists [].
  - destruct s as [|c s]; [done|]. destruct (unhex c) as [x|] eqn:Ec; [|done]. intros H. apply IH in H as (ds & -> & Hl & Hv & Hd). exists (c :: ds).
    cbn [app length hex_val]. rewrite Ec. split_and!; [done|lia|done|constructor; eauto].
Qed.
Lemma hex_text_digits ds v : hex_text ds v -> Forall (fun c => exists x, unhex c = Some x) ds.
Proof. intros H. apply hex_val_split in H as (ds' & E & _ & _ & Hd). by rewrite app_nil_r in E; subst. Qed.

(** A character of a literal hides no quote. *)
Lemma scan_plain u s : Forall (fun c => c <> 34 /\ c <> 92) u -> scan_quoted (u ++ s) = ('(a, b) ← scan_quoted s; Some (u ++ a, b)).
Proof.
  induction 1 as [|c u [H1 H2] Hu IH]; cbn [app]; [by destruct (scan_quoted s) as [[]|]|]. cbn [scan_quoted].
  destruct (Z.eqb_spec c 92); [done|]. destruct (Z.eqb_spec c 34); [done|]. rewrite IH. by destruct (scan_quoted s) as [[]|].
Qed.
Lemma scan_escape d u s : Forall (fun c => c <> 34 /\ c <> 92) u -> scan_quoted ((92 :: d :: u) ++ s) = ('(a, b) ← scan_quoted s; Some ((92 :: d :: u) ++ a, b)).
Proof. intros Hu. cbn [app scan_quoted]. rewrite Z.eqb_refl, scan_plain by done. by destruct (scan_quoted s) as [[]|]. Qed.
Lemma digits_plain ds : Forall (fun c => exists x, unhex c = Some x) ds -> Forall (fun c => c <> 34 /\ c <> 92) ds.
Proof. intros H. eapply Forall_impl; [exact H|]. intros c (x & Hx). destruct (unhex_not_special _ _ Hx) as (H1 & H2 & _). done. Qed.
Lemma scan_char u v s : quoted_char u v -> scan_quoted (u ++ s) = ('(a, b) ← scan_quoted s; Some (u ++ a, b)).
Proof.
  intros [c H1 H2 H3 H4|w H1 H2|c x H|ds x H1 H2|ds x H1 H2 H3|ds x H1 H2 H3|x y z a b d H1 H2 H3 H4].
  - apply scan_plain. by repeat constructor.
  - apply scan_plain. eapply Forall_impl; [by apply rune_len_high|]. cbn. lia.
  - apply scan_escape. constructor.
  - apply scan_escape, digits_plain. by eapply hex_text_digits.
  - apply scan_escape, digits_plain. by eapply hex_text_digits.
  - apply scan_escape, digits_plain. by eapply hex_text_digits.
  - apply octal_not_special in H2 as (? & ? & _), H3 as (? & ? & _). apply scan_escape. by repeat constructor.
Qed.
Lemma scan_quoted_body b v s : quoted b v -> scan_quoted (b ++ 34 :: s) = Some (b, s).
Proof. induction 1 as [|u v b w Hu Hb IH]; [done|]. rewrite <- app_assoc, (scan_char _ _ _ Hu), IH. done. Qed.
Lemma scan_quoted_split s b r : scan_quoted s = Some (b, r) -> s = b ++ 34 :: r.
Proof.
  revert b r. induction s as [s IH] using (induction_ltof1 _ (@length Z)). unfold ltof in IH. intros b r. destruct s as [|c s]; [done|]. cbn [scan_quoted].
  destruct (Z.eqb_spec c 92) as [->|].
  - destruct s as [|d s]; [done|]. destruct (scan_quoted s) as [[x y]|] eqn:E; [|done]. intros [= <- <-]. apply IH in E as ->; [done|cbn; lia].
  - destruct (Z.eqb_spec c 34) as [->|]; [intros [= <- <-]; done|]. destruct (scan_quoted s) as [[x y]|] eqn:E; [|done]. intros [= <- <-]. apply IH in E as ->; [done|cbn; lia].
Qed.

Lemma unquote_hex ds s n v : length ds = n -> hex_text ds v -> hex_val n 0 (ds ++ s) = Some (v, s).
Proof. intros <- H. by apply (hex_val_app _ _ _ s) in H. Qed.
Lemma unquote_char_of u v s : quoted_char u v -> unquote_char (u ++ s) = Some (v, s).
Proof.
  intros [c H1 H2 H3 H4|w H1 H2|c x H|ds x H1 H2|ds x H1 H2 H3|ds x H1 H2 H3|x y z a b d H1 H2 H3 H4].
  - cbn [app unquote_char]. destruct (Z.eqb_spec c 10); [done|]. destruct (Z.leb_spec 128 c); [lia|]. destruct (Z.eqb_spec c 92); done.
  - pose proof (rune_len_high _ H1 H2) as Hh. pose proof (rune_len_app _ s _ H1) as Hr. destruct w as [|c w]; [done|]. inversion Hh; subst. cbn [app unquote_char] in *. destruct (Z.eqb_spec c 10); [lia|]. destruct (Z.leb_spec 128 c); [|lia].
    rewrite Hr. cbn [length]. rewrite firstn_cons, skipn_cons, take_app_length, drop_app_length. done.
  - cbn [app unquote_char]. cbn. by rewrite H.
  - cbn [app unquote_char]. cbn -[hex_val]. by rewrite (unquote_hex ds s 2 x).
  - cbn [app unquote_char]. cbn -[hex_val]. rewrite (unquote_hex ds s 4 x) by done. cbn -[encode_rune]. by rewrite H3.
  - cbn [app unquote_char]. cbn -[hex_val]. rewrite (unquote_hex ds s 8 x) by done. cbn -[encode_rune]. by rewrite H3.
  - apply octal_not_special in H1 as Hx. destruct Hx as (_ & _ & Hs & ? & ? & ? & _). cbn [app unquote_char]. cbn -[simple_escape octal]. rewrite Hs. zbool; try done. rewrite H1, H2. cbn -[octal]. rewrite H3. cbn. destruct (Z.ltb_spec 255 ((a * 8 + b) * 8 + d)); [lia|done].
Qed.
Lemma quoted_char_cons u v : quoted_char u v -> u <> [].
Proof. intros []; try done. intros ->. cbn in *. lia. Qed.
Lemma unquote_go_of b v f : quoted b v -> (length b <= f)%nat -> unquote_go f b = Some v.
Proof.
  intros Hb. revert f. induction Hb as [|u v b w Hu Hb IH]; intros f Hf; [by destruct f|]. pose proof (quoted_char_cons _ _ Hu) as Hn. pose proof (unquote_char_of _ _ b Hu) as Hc.
  destruct u as [|c u]; [done|]. destruct f as [|f]; [cbn in Hf; lia|]. rewrite length_app in Hf. cbn [app unquote_go length] in *. rewrite Hc. cbn. rewrite IH by lia. done.
Qed.

Definition well (s : text) : Prop := exists f, (length s <= f)%nat /\ utf8_valid_go (S f) s = true.
Lemma well_rune s : s <> [] -> well s -> exists n, rune_len s = Some n /\ well (drop n s).
Proof.
  intros Hs (f & Hf & Hv). destruct (utf8_rune f s Hs Hv) as (n & Hn & Hv'). exists n. split; [done|]. pose proof (rune_len_bound _ _ Hn).
  destruct f as [|f]; [destruct s; [done|cbn in Hf; lia]|]. exists f. split; [rewrite length_drop; lia|done].
Qed.
Lemma well_ascii c s : c < 128 -> well (c :: s) -> well s.
Proof. intros Hc H. apply well_rune in H as (n & Hn & Hw); [|done]. cbn [rune_len] in Hn. destruct (Z.ltb_spec c 128); [|lia]. by injection Hn as <-. Qed.
Lemma unhex_ascii c x : unhex c = Some x -> c < 128.
Proof. unfold unhex, in_range. repeat case_match; intros [= <-]; rewrite ?andb_true_iff, ?Z.leb_le in *; lia. Qed.
Lemma well_digits ds s : Forall (fun c => exists x, unhex c = Some x) ds -> well (ds ++ s) -> well s.
Proof. induction 1 as [|c ds (x & Hx) Hd IH]; [done|]. intros H. apply IH. eapply well_ascii; [|exact H]. by eapply unhex_ascii. Qed.
Lemma octal_ascii c x : octal c = Some x -> c < 128.
Proof. unfold octal, in_range. case_match; intros [= <-]; rewrite ?andb_true_iff, ?Z.leb_le in *; lia. Qed.
Lemma escape_ascii c v : simple_escape c = Some v -> c < 128.
Proof. unfold simple_escape. repeat (case_match; [rewrite Z.eqb_eq in *; lia|]). done. Qed.

Definition char_read (s : text) (v r : text) : Prop := exists u, s = u ++ r /\ quoted_char u v /\ well (r ++ [34]).
Lemma hex_char_read n s v r : hex_val n 0 s = Some (v, r) -> well (s ++ [34]) -> exists ds, s = ds ++ r /\ length ds = n /\ hex_text ds v /\ well (r ++ [34]).
Proof.
  intros H Hw. apply hex_val_split in H as (ds & -> & Hl & Hv & Hd). exists ds. split_and!; [done|done|by unfold hex_text; rewrite Hl|].
  rewrite <- app_assoc in Hw. by eapply well_digits.
Qed.
Lemma escape_read s v r : unquote_char (92 :: s) = Some (v, r) -> well (s ++ [34]) -> char_read (92 :: s) v r.
Proof.
  intros H Hw. cbn -[hex_val encode_rune ValidRune octal simple_escape] in H. destruct s as [|c s]; [done|]. destruct (simple_escape c) as [x|] eqn:Es.
  - injection H as <- <-. exists [92; c]. split_and!; [done|by constructor|]. eapply well_ascii; [|exact Hw]. by eapply escape_ascii.
  - destruct (Z.eqb_spec c 120) as [->|]; [|destruct (Z.eqb_spec c 117) as [->|]; [|destruct (Z.eqb_spec c 85) as [->|]]].
    + cbn [app] in Hw. apply well_ascii in Hw; [|lia]. destruct (hex_val 2 0 s) as [[x y]|] eqn:E; [|done]. injection H as <- <-. apply hex_char_read in E as (ds & -> & Hl & Hv & Hy); [|done].
      exists (92 :: 120 :: ds). split_and!; [done|by constructor|done].
    + cbn [app] in Hw. apply well_ascii in Hw; [|lia]. destruct (hex_val 4 0 s) as [[x y]|] eqn:E; [|done]. cbn -[encode_rune ValidRune] in H. destruct (ValidRune x) eqn:Er; [|done]. injection H as <- <-.
      apply hex_char_read in E as (ds & -> & Hl & Hv & Hy); [|done]. exists (92 :: 117 :: ds). split_and!; [done|by constructor|done].
    + cbn [app] in Hw. apply well_ascii in Hw; [|lia]. destruct (hex_val 8 0 s) as [[x y]|] eqn:E; [|done]. cbn -[encode_rune ValidRune] in H. destruct (ValidRune x) eqn:Er; [|done]. injection H as <- <-.
      apply hex_char_read in E as (ds & -> & Hl & Hv & Hy); [|done]. exists (92 :: 85 :: ds). split_and!; [done|by constructor|done].
    + destruct (octal c) as [a|] eqn:Ea; [|done]. destruct s as [|x [|y s]]; try done. destruct (octal x) as [b|] eqn:Eb; [|done]. destruct (octal y) as [d|] eqn:Ed; [|done].
      cbn in H. destruct (Z.ltb_spec 255 ((a * 8 + b) * 8 + d)); [done|]. injection H as <- <-. exists [92; c; x; y]. split_and!; [done|by constructor|].
      cbn [app] in Hw. apply well_ascii in Hw; [|by eapply octal_ascii]. apply well_ascii in Hw; [|by eapply octal_ascii]. apply well_ascii in Hw; [done|by eapply octal_ascii].
Qed.
Lemma char_reads s v r : unquote_char s = Some (v, r) -> no_head (Z.eqb 34) s -> well (s ++ [34]) -> char_read s v r.
Proof.
  intros H Hq Hw. destruct s as [|c s]; [done|]. destruct (Z.eqb_spec c 92) as [->|Hb]; [apply escape_read; [done|]; eapply well_ascii; [|exact Hw]; lia|].
  cbn [unquote_char] in H. destruct (Z.eqb_spec c 10) as [|H10]; [done|]. destruct (Z.leb_spec 128 c) as [Hc|Hc].
  - destruct (well_rune ((c :: s) ++ [34]) ltac:(done) Hw) as (n & Hn & Hw'). apply rune_len_quote in Hn; [|done]. rewrite Hn in H. injection H as <- <-.
    pose proof (rune_len_bound _ _ Hn) as Hl. exists (take n (c :: s)). split; [by rewrite take_drop|]. split.
    + assert (n <> 1%nat). { intros ->. cbn [rune_len] in Hn. destruct (Z.ltb_spec c 128); [lia|]. repeat (case_match; try done). }
      apply qc_rune; rewrite length_take, Nat.min_l by lia; [|lia]. clear Hw Hw' Hq. revert Hn. clear -Hl. intros Hn.
      destruct s as [|b1 [|b2 [|b3 s]]]; cbn [rune_len] in Hn; repeat (case_match; try done); injection Hn as <-; cbn [take rune_len]; repeat (case_match; try done); congruence.
    + rewrite drop_app_le in Hw' by lia. done.
  - cbn [no_head] in Hq. apply Z.eqb_neq in Hq. destruct (Z.eqb_spec c 92); [done|]. cbn in H. injection H as <- <-. exists [c]. split_and!; [done|by apply qc_plain|]. eapply well_ascii; [|exact Hw]. lia.
Qed.
Lemma scan_quoted_self s b r t : scan_quoted s = Some (b, r) -> scan_quoted (b ++ 34 :: t) = Some (b, t).
Proof.
  revert b r. induction s as [s IH] using (induction_ltof1 _ (@length Z)). unfold ltof in IH. intros b r. destruct s as [|c s]; [done|]. cbn [scan_quoted].
  destruct (Z.eqb_spec c 92) as [->|].
  - destruct s as [|d s]; [done|]. destruct (scan_quoted s) as [[x y]|] eqn:E; [|done]. intros [= <- <-]. apply IH in E; [|cbn; lia]. cbn [app scan_quoted]. by rewrite Z.eqb_refl, E.
  - destruct (Z.eqb_spec c 34) as [->|]; [intros [= <- <-]; done|]. destruct (scan_quoted s) as [[x y]|] eqn:E; [|done]. intros [= <- <-]. apply IH in E; [|cbn; lia].
    cbn [app scan_quoted]. destruct (Z.eqb_spec c 92); [done|]. destruct (Z.eqb_spec c 34); [done|]. by rewrite E.
Qed.
Lemma unquote_go_quoted f b v : unquote_go f b = Some v -> scan_quoted (b ++ [34]) = Some (b, []) -> well (b ++ [34]) -> quoted b v.
Proof.
  revert b v. induction f as [|f IH]; intros b v H Hs Hw; destruct b as [|c b]; cbn [unquote_go] in H; try done; try (injection H as <-; constructor).
  destruct (unquote_char (c :: b)) as [[x r]|] eqn:Ec; [|done]. cbn in H. destruct (unquote_go f r) as [out|] eqn:Er; [|done]. injection H as <-.
  apply char_reads in Ec as (u & Eu & Hu & Hr); [| |done].
  - rewrite Eu in *. constructor; [done|]. apply (IH r out Er); [|done]. rewrite <- app_assoc, (scan_char _ _ _ Hu) in Hs. destruct (scan_quoted (r ++ [34])) as [[a b']|]; [|done].
    injection Hs as Ha ->. apply app_inv_head in Ha as ->. done.
  - cbn [no_head]. cbn [app scan_quoted] in Hs. destruct (Z.eqb_spec 34 c) as [<-|]; done.
Qed.

(** [scanString] reads exactly a literal. *)
Lemma scanString_spec s v lit rest : scanString s = Ok (v, lit, rest) <-> s = lit ++ rest /\ literal lit v.
Proof.
  unfold scanString, literal. split.
  - intros H. destruct (scanStringLiteral s) as [[[v' lit'] rest']|] eqn:Hx; [|done]. cbn -[valid_utf8] in H. destruct (valid_utf8 lit') eqn:Ev; [|done]. injection H as -> -> ->. unfold scanStringLiteral in Hx. destruct s as [|c r]; [done|].
    destruct (Z.eqb_spec c 96) as [->|].
    + destruct (span _ r) as [raw [|d t]] eqn:E; [done|]. apply span_spec in E as (-> & Hf & Hn). cbn in Hn. apply negb_false_iff, Z.eqb_eq in Hn as ->. injection Hx as <- <- <-.
      split; [cbn; by rewrite <- app_assoc|]. split; [|done]. constructor. intros Hin. rewrite Forall_forall in Hf. by specialize (Hf _ Hin).
    + destruct (Z.eqb_spec c 34) as [->|]; [|done]. destruct (scan_quoted r) as [[body t]|] eqn:E; [|done]. destruct (Unquote body) as [w|] eqn:Eu; [|done]. injection Hx as <- <- <-.
      split; [cbn; rewrite <- app_assoc; f_equal; by apply scan_quoted_split|]. split; [|done]. constructor. apply (unquote_go_quoted (length body)); [done|by eapply scan_quoted_self|].
      apply (well_ascii 34); [lia|]. by exists (length (34 :: body ++ [34])).
  - intros (-> & [v' Hn|b v' Hb] & Hv).
    + unfold scanStringLiteral. cbn [app]. cbn -[span valid_utf8]. rewrite <- app_assoc, span_app; cbn -[valid_utf8]; [by rewrite Hv| |done].
      apply Forall_forall. intros x Hx. apply negb_true_iff, Z.eqb_neq. intros ->. done.
    + unfold scanStringLiteral. cbn [app]. cbn -[scan_quoted Unquote valid_utf8]. rewrite <- app_assoc. cbn [app]. rewrite (scan_quoted_body _ _ _ Hb). unfold Unquote. rewrite (unquote_go_of _ _ _ Hb) by lia.
      cbn -[valid_utf8]. by rewrite Hv.
Qed.

(** ** The parts of a query *)

Section parts.
Context (re_compile : string -> option (string -> bool)).

Lemma literal_head lit v : literal lit v -> exists c r, lit = c :: r /\ (c = 34 \/ c = 96).
Proof. intros [[w H|b w H] _]; cbn; eauto. Qed.
Lemma literal_no_space lit v s : literal lit v -> no_head is_space (lit ++ s).
Proof. intros (c & r & -> & [->| ->])%literal_head; done. Qed.
Lemma label_no_space name s : label_name name -> no_head is_space (name ++ s).
Proof. intros (c & r & -> & Hc)%label_name_nonempty. cbn. by apply alnum_bounds. Qed.
Lemma no_alnum_ws w s : ws w -> no_head alnum_ s -> no_head alnum_ (w ++ s).
Proof. intros Hw. apply no_head_ws; [done|]. intros c Hc. by apply space_bounds. Qed.

(** What the loop does past the spaces, when the list goes on. *)
Lemma selector_item f ms w1 name w2 w3 lit v w4 s : ws w1 -> label_name name -> ws w2 -> ws w3 -> literal lit v -> valid_utf8 v = true -> ws w4 -> no_head is_space s ->
  selector_loop (S f) ms (w1 ++ name ++ w2 ++ [61] ++ w3 ++ lit ++ w4 ++ s) =
    match s with
    | [] => Err QlUnclosed
    | c :: r => let ms := ms ++ [mkPair (bytes_str name) (bytes_str v)] in if c =? 44 then selector_loop f ms r else if c =? 125 then Ok (ms, r) else Err (QlExpectedComma name s)
    end.
Proof.
  intros H1 Hn H2 H3 Hl Hv H4 Hs. cbn [selector_loop]. rewrite (skipSpace_to w1) by (done || by apply label_no_space).
  assert (En : scanLabelName (name ++ w2 ++ [61] ++ w3 ++ lit ++ w4 ++ s) = Ok (name, w2 ++ [61] ++ w3 ++ lit ++ w4 ++ s)) by (apply scanLabelName_spec; split_and!; [done|done|by apply no_alnum_ws]).
  destruct (label_name_nonempty _ Hn) as (c & r & -> & Hc). cbn [app] in *. rewrite En. cbn [mbind result_bind]. destruct (Z.eqb_spec c 125) as [->|_]; [done|].
  rewrite (skipSpace_to w2) by done. assert (E0 : begins [61; 126] (61 :: w3 ++ lit ++ w4 ++ s) = false).
  { unfold begins. apply bool_decide_eq_false. cbn. destruct (literal_head _ _ Hl) as (d & t & -> & Hd). destruct H3 as [|e w3 He Hw]; cbn.
    - destruct Hd as [->| ->]; done.
    - intros [= ->]. done. }
  rewrite E0. change (begins [33; 61] (61 :: w3 ++ lit ++ w4 ++ s)) with false. change (begins [33; 126] (61 :: w3 ++ lit ++ w4 ++ s)) with false. cbn [orb].
  rewrite Z.eqb_refl. cbn [negb]. rewrite (skipSpace_to w3) by (done || by eapply literal_no_space). assert (El : scanString (lit ++ w4 ++ s) = Ok (v, lit, w4 ++ s)) by (by apply scanString_spec).
  rewrite El, Hv. cbn [negb]. rewrite (skipSpace_to w4) by done. by destruct s.
Qed.
Lemma selector_reads t new : matcher_list t new -> forall f ms rest, (length t <= f)%nat -> selector_loop f ms (t ++ rest) = Ok (ms ++ new, rest).
Proof.
  induction 1 as [w Hw|w1 name w2 w3 lit v w4 H1 Hn H2 H3 Hl Hv H4|w1 name w2 w3 lit v w4 t new H1 Hn H2 H3 Hl Hv H4 Ht IH]; intros f ms rest Hf; rewrite !length_app in Hf; cbn [length] in Hf.
  - destruct f as [|f]; [lia|]. cbn [selector_loop]. rewrite <- app_assoc, skipSpace_to by done. cbn. by rewrite app_nil_r.
  - destruct f as [|f]; [lia|]. rewrite <- !app_assoc. rewrite (selector_item f ms w1 name w2 w3 lit v w4) by done. done.
  - destruct f as [|f]; [lia|]. rewrite <- !app_assoc. rewrite (selector_item f ms w1 name w2 w3 lit v w4) by done. cbn -[selector_loop]. rewrite IH by lia. by rewrite <- app_assoc.
Qed.
Lemma selector_sound f ms s out rest : selector_loop f ms s = Ok (out, rest) -> exists t new, s = t ++ rest /\ matcher_list t new /\ out = ms ++ new.
Proof.
  revert ms s. induction f as [|f IH]; intros ms s H; [done|]. cbn [selector_loop] in H. destruct (skipSpace_spec s) as (w1 & H1 & E1 & Hn1). rewrite E1. set (s1 := skipSpace s) in *.
  destruct s1 as [|c r]; [done|]. destruct (Z.eqb_spec c 125) as [->|_].
  { injection H as <- <-. exists (w1 ++ [125]), []. split_and!; [by rewrite <- app_assoc|by constructor|by rewrite app_nil_r]. }
  destruct (scanLabelName (c :: r)) as [[name next]|] eqn:En; [|done]. apply scanLabelName_spec in En as (Es & Hname & Hna). cbn [mbind result_bind] in H. rewrite Es. clear Es Hn1 E1.
  destruct (skipSpace_spec next) as (w2 & H2 & E2 & Hn2). rewrite E2. set (s2 := skipSpace next) in *. destruct s2 as [|d r2]; [done|].
  destruct (_ || _)%bool; [done|]. destruct (Z.eqb_spec d 61) as [->|]; [|done]. cbn [negb] in H. destruct (skipSpace_spec r2) as (w3 & H3 & E3 & _). rewrite E3. set (s3 := skipSpace r2) in *.
  destruct (scanString s3) as [[[v lit] r3]|] eqn:El; [|done]. apply scanString_spec in El as (-> & Hl). destruct (valid_utf8 v) eqn:Ev; [|done]. cbn [negb] in H.
  destruct (skipSpace_spec r3) as (w4 & H4 & E4 & _). rewrite E4. set (s4 := skipSpace r3) in *. destruct s4 as [|e r4]; [done|]. destruct (Z.eqb_spec e 44) as [->|].
  - apply IH in H as (t & new & -> & Ht & ->). exists (w1 ++ name ++ w2 ++ [61] ++ w3 ++ lit ++ w4 ++ [44] ++ t), (mkPair (bytes_str name) (bytes_str v) :: new).
    split_and!; [by rewrite <- !app_assoc|by constructor|by rewrite <- app_assoc].
  - destruct (Z.eqb_spec e 125) as [->|]; [|done]. injection H as <- <-. exists (w1 ++ name ++ w2 ++ [61] ++ w3 ++ lit ++ w4 ++ [125]), [mkPair (bytes_str name) (bytes_str v)].
    split_and!; [by rewrite <- !app_assoc|by constructor|done].
Qed.

Definition no_filter (s : text) : Prop := match s with a :: b :: _ => filter_op a b = None | _ => True end.
Lemma filter_op_head a b op : filter_op a b = Some op -> (a = 124 \/ a = 33) /\ (b = 61 \/ b = 126).
Proof. unfold filter_op. repeat case_match; intros [= <-]; rewrite ?andb_true_iff, ?Z.eqb_eq in *; lia. Qed.
Lemma filter_list_no_space t fs rest : filter_list re_compile t fs -> no_head is_space rest -> no_head is_space (t ++ rest).
Proof. intros [|a b op w1 lit v w2 t' f fs' Ho _ _ _ _ _] Hr; [done|]. destruct (filter_op_head _ _ _ Ho) as [[->| ->] _]; done. Qed.
Lemma filters_read t new : filter_list re_compile t new -> forall f fs rest, (length t <= f)%nat -> no_head is_space rest -> no_filter rest ->
  filters_loop re_compile f fs (t ++ rest) = Ok (fs ++ new, rest).
Proof.
  induction 1 as [|a b op w1 lit v w2 t flt new Ho H1 Hl Hm H2 Ht IH]; intros f fs rest Hf Hs Hn.
  - cbn [app]. rewrite app_nil_r. destruct f as [|f]; [by destruct rest|]. destruct rest as [|x [|y r]]; [done|done|]. cbn [filters_loop]. cbn in Hn. by rewrite Hn.
  - rewrite !length_app in Hf. cbn [length] in Hf. destruct f as [|f]; [lia|]. rewrite <- !app_assoc. cbn [app filters_loop]. rewrite Ho.
    rewrite (skipSpace_to w1) by (done || by eapply literal_no_space). assert (El : scanString (lit ++ w2 ++ t ++ rest) = Ok (v, lit, w2 ++ t ++ rest)) by (by apply scanString_spec).
    rewrite El, Hm, (skipSpace_to w2) by (done || by eapply filter_list_no_space). rewrite IH by (done || lia). by rewrite <- app_assoc.
Qed.
Lemma filters_sound f fs s out rest : filters_loop re_compile f fs s = Ok (out, rest) -> (length s <= f)%nat -> no_head is_space s ->
  exists t new, s = t ++ rest /\ filter_list re_compile t new /\ out = fs ++ new /\ no_head is_space rest /\ no_filter rest.
Proof.
  revert fs s. induction f as [|f IH]; intros fs s H Hf Hs.
  - destruct s; [|cbn in Hf; lia]. cbn in H. injection H as <- <-. exists [], []. split_and!; [done|constructor|by rewrite app_nil_r|done..].
  - destruct s as [|a [|b r]]; cbn [filters_loop] in H; try (injection H as <- <-; exists [], []; split_and!; [done|constructor|by rewrite app_nil_r|done..]).
    destruct (filter_op a b) as [op|] eqn:Eo; [|injection H as <- <-; exists [], []; split_and!; [done|constructor|by rewrite app_nil_r|done..]].
    destruct (skipSpace_spec r) as (w1 & H1 & E1 & _). rewrite E1. set (s1 := skipSpace r) in *. destruct (scanString s1) as [[[v lit] r1]|] eqn:El; [|done]. apply scanString_spec in El as (Es & Hl).
    destruct (make_filter re_compile op v) as [flt|] eqn:Em; [|done]. destruct (skipSpace_spec r1) as (w2 & H2 & E2 & Hn2). apply IH in H as (t & new & Et & Ht & -> & Hr); [| |done].
    + exists ([a; b] ++ w1 ++ lit ++ w2 ++ t), (flt :: new). split_and!; [|by econstructor|by rewrite <- app_assoc|apply Hr..]. rewrite Es, E2, Et. by rewrite <- !app_assoc.
    + apply (f_equal length) in E1, Es, E2. rewrite !length_app in *. cbn [length] in *. lia.
Qed.
End parts.

Definition after_name (c : Z) : bool := (alnum_ c || (c =? 61) || (c =? 44))%bool.
Lemma drop_names_no_space t ns rest : drop_names t ns -> no_head is_space (t ++ rest).
Proof. intros [name w Hn _|name w1 w2 t' ns' Hn _ _ _]; rewrite <- app_assoc; by apply label_no_space. Qed.
Lemma drop_names_read t new : drop_names t new -> forall f names rest, (length t <= f)%nat -> no_head is_space rest -> no_head after_name rest ->
  drop_loop f names (t ++ rest) = Ok (names ++ new, rest).
Proof.
  induction 1 as [name w Hn Hw|name w1 w2 t new Hn H1 H2 Ht IH]; intros f names rest Hf Hs Ha; rewrite !length_app in Hf; cbn [length] in Hf;
    destruct (label_name_nonempty _ Hn) as (c & r & En & _); rewrite En in Hf; cbn [length] in Hf; (destruct f as [|f]; [lia|]); rewrite <- ?app_assoc; cbn [drop_loop]; subst name.
  - rewrite scanIdent_name; [|done|].
    + destruct Hn as [-> _]. cbn [negb]. rewrite skipSpace_to by done. destruct rest as [|d rest]; [done|]. cbn in Ha. apply orb_false_iff in Ha as [Ha ->]. apply orb_false_iff in Ha as [_ ->]. done.
    + apply no_alnum_ws; [done|]. destruct rest as [|d rest]; [done|]. cbn in *. by apply orb_false_iff in Ha as [[Ha _]%orb_false_iff _].
  - rewrite scanIdent_name; [|done|by apply no_alnum_ws]. destruct Hn as [-> _]. cbn [negb]. rewrite skipSpace_to by done. cbn [app]. rewrite Z.eqb_refl. change (44 =? 61) with false. cbn [app].
    rewrite (skipSpace_to w2) by (done || by eapply drop_names_no_space). rewrite IH by (done || lia). by rewrite <- app_assoc.
Qed.
Lemma drop_names_sound f names s out rest : drop_loop f names s = Ok (out, rest) -> exists t new, s = t ++ rest /\ drop_names t new /\ out = names ++ new /\ no_head is_space rest.
Proof.
  revert names s. induction f as [|f IH]; intros names s H; [done|]. cbn [drop_loop] in H. destruct (scanIdent s) as [[name next]|] eqn:E; [|done]. apply scanIdent_spec in E as (-> & Hf & Hn).
  destruct (labelNameRe (bytes_str name)) eqn:El; [|done]. cbn [negb] in H. assert (Hl : label_name name) by done. destruct (skipSpace_spec next) as (w1 & H1 & E1 & Hn1). rewrite E1. set (s1 := skipSpace next) in *.
  destruct s1 as [|c r].
  - injection H as <- <-. exists (name ++ w1), [bytes_str name]. split_and!; [by rewrite <- app_assoc|by constructor|done..].
  - destruct (c =? 61); [done|]. destruct (Z.eqb_spec c 44) as [->|].
    + destruct (skipSpace_spec r) as (w2 & H2 & E2 & Hn2). apply IH in H as (t & new & Et & Ht & -> & Hr). exists (name ++ w1 ++ [44] ++ w2 ++ t), (bytes_str name :: new).
      split_and!; [|by constructor|by rewrite <- app_assoc|done]. rewrite E2, Et. by rewrite <- !app_assoc.
    + injection H as <- <-. exists (name ++ w1), [bytes_str name]. split_and!; [by rewrite <- app_assoc|by constructor|done..].
Qed.
Lemma drop_stage_read dt ns rest : drop_stage dt ns -> no_head is_space rest -> no_head after_name rest -> no_head (Z.eqb 124) rest -> parseDropStagePrefix (dt ++ rest) = Ok (ns, rest).
Proof.
  intros [|w1 w2 t ns' H1 H2 Hne Ht] Hs Ha Hp; unfold parseDropStagePrefix.
  - cbn [app]. rewrite skipSpace_stop by done. destruct rest as [|c r]; [done|]. cbn [no_head] in Hp. by rewrite Z.eqb_sym, Hp.
  - pose proof (drop_names_no_space _ _ rest Ht) as Ht'. rewrite skipSpace_stop by done. cbn [app]. rewrite Z.eqb_refl. rewrite <- !app_assoc, (skipSpace_to w1) by done.
    rewrite (hasKeyword_app drop_kw _ Ht') by done. rewrite drop_app_length' by done. rewrite (skipSpace_to w2) by done.
    rewrite (drop_names_read _ _ Ht) by (done || (cbn [length]; rewrite !length_app; lia)). done.
Qed.
Lemma drop_stage_sound s ns rest : no_head is_space s -> parseDropStagePrefix s = Ok (ns, rest) -> exists dt, s = dt ++ rest /\ drop_stage dt ns /\ no_head is_space rest.
Proof.
  intros Hs H. unfold parseDropStagePrefix in H. rewrite skipSpace_stop in H by done. assert (Hno : @Ok qlErr _ ([], s) = Ok (ns, rest) -> exists dt, s = dt ++ rest /\ drop_stage dt ns /\ no_head is_space rest).
  { intros [= <- <-]. exists []. split_and!; [done|constructor|done]. }
  destruct s as [|c r]; [by apply Hno|]. destruct (Z.eqb_spec c 124) as [->|]; [|by apply Hno]. destruct (skipSpace_spec r) as (w1 & H1 & E1 & _). set (j := skipSpace r) in *.
  destruct (hasKeyword j drop_kw) eqn:Ek; [|by apply Hno]. apply andb_prop in Ek as [Eb Ek]. apply bool_decide_eq_true in Eb. change (length drop_kw) with 4%nat in Eb, Ek.
  destruct (skipSpace_spec (drop 4 j)) as (w2 & H2 & E2 & _). apply drop_names_sound in H as (t & new & Et & Ht & -> & Hr).
  exists ([124] ++ w1 ++ drop_kw ++ w2 ++ t). split_and!; [|constructor; try done|done].
  - rewrite E1, <- (take_drop 4 j), Eb, E2, Et. by rewrite <- !app_assoc.
  - intros ->. cbn [app] in E2.
    assert (Hh : exists c x, drop 4 j = c :: x /\ alnum_ c = true).
    { rewrite E2, Et. destruct Ht as [name w Hn _|name a b t' ns' Hn _ _ _]; destruct (label_name_nonempty _ Hn) as (c & x & -> & Hc); cbn; eauto. }
    destruct Hh as (c & x & Ex & Hc). rewrite Ex in Ek. apply alnum_bounds in Hc as (Hc & _ & _ & Hsp). rewrite Hsp, orb_false_r in Ek. apply Z.eqb_eq in Ek. lia.
Qed.


(** ** The query *)

Section query.
Context (re_compile : string -> option (string -> bool)).

Lemma blank_stops rest : blank rest -> no_head is_space rest -> no_head after_name rest /\ no_head (Z.eqb 124) rest /\ no_filter rest.
Proof.
  intros Hb Hs. split_and!.
  - apply blank_no_head; [done|]. intros c. unfold after_name, alnum_, alpha_, in_range, printable. rewrite !orb_true_iff, !andb_true_iff, !Z.leb_le, !Z.eqb_eq. lia.
  - apply blank_no_head; [done|]. intros c Hc. apply Z.eqb_eq in Hc. unfold printable. lia.
  - destruct rest as [|a [|b r]]; [done..|]. cbn. destruct (filter_op a b) as [op|] eqn:E; [|done]. apply filter_op_head in E as [Ha _]. exfalso. eapply blank_head; [exact Hb|]. unfold printable. lia.
Qed.
Lemma drop_stage_no_filter dt ns rest : drop_stage dt ns -> no_filter rest -> no_filter (dt ++ rest).
Proof.
  intros [|w1 w2 t ns' H1 _ _ _] Hr; [done|]. destruct H1 as [|c w1 Hc _]; [done|]. cbn. destruct (filter_op 124 c) as [op|] eqn:E; [|done]. apply filter_op_head in E as [_ Hb]. apply space_bounds in Hc. lia.
Qed.
Lemma drop_stage_no_space dt ns rest : drop_stage dt ns -> no_head is_space rest -> no_head is_space (dt ++ rest).
Proof. intros [|]; done. Qed.

(** Every text of the language is read as what it says. *)
Lemma query_reads q t sel : log_query_text re_compile t sel -> TrimSpace q = t -> ParseLogQL re_compile q = Ok sel.
Proof.
  intros [sb ms w ft fs dt ns rest Hm Hne Hw Hf Hd Hb Hs] Hq. destruct (blank_stops rest Hb Hs) as (Ha & Hp & Hn).
  pose proof (drop_stage_no_space _ _ _ Hd Hs) as Hds. unfold ParseLogQL. rewrite Hq. cbn [app]. change (123 =? 123) with true. cbn [negb]. unfold parseStreamSelector. change (drop 1 (123 :: sb ++ w ++ ft ++ dt ++ rest)) with (sb ++ w ++ ft ++ dt ++ rest).
  rewrite (selector_reads _ _ Hm) by (cbn [length]; rewrite !length_app; lia). cbn [app mbind result_bind]. destruct ms as [|p ms]; [done|].
  unfold parseLineFiltersPrefix. rewrite (skipSpace_to w) by (done || by eapply filter_list_no_space). rewrite (filters_read re_compile _ _ Hf) by first [done|by eapply drop_stage_no_filter|rewrite !length_app; lia].
  cbn [app mbind result_bind]. rewrite (drop_stage_read _ _ _ Hd) by done. cbn [mbind result_bind]. unfold blank in Hb. by rewrite Hb.
Qed.
(** Nothing else is accepted. *)
Lemma query_accepts q sel : ParseLogQL re_compile q = Ok sel -> log_query_text re_compile (TrimSpace q) sel.
Proof.
  unfold ParseLogQL. intros H. destruct (TrimSpace q) as [|c s]; [done|]. destruct (Z.eqb_spec c 123) as [->|]; [|cbn [negb] in H; by destruct (metricQueryRe _)]. cbn [negb] in H.
  destruct (parseStreamSelector (123 :: s)) as [[ms r1]|] eqn:E1; [|done]. cbn [mbind result_bind] in H. destruct ms as [|p ms]; [done|].
  unfold parseStreamSelector in E1. change (drop 1 (123 :: s)) with s in E1. apply selector_sound in E1 as (sb & new & -> & Hm & Enew). cbn [app] in Enew. subst new.
  destruct (parseLineFiltersPrefix re_compile r1) as [[fs r2]|] eqn:E2; [|done]. cbn [mbind result_bind] in H.
  unfold parseLineFiltersPrefix in E2. destruct (skipSpace_spec r1) as (w & Hw & Ew & Hs1). assert (Hl : (length (skipSpace r1) <= length r1)%nat) by (rewrite Ew at 2; rewrite length_app; lia).
  apply filters_sound in E2 as (ft & new & Eft & Hf & -> & Hs2 & _); [|done..]. cbn [app] in *.
  destruct (parseDropStagePrefix r2) as [[ns r3]|] eqn:E3; [|done]. cbn [mbind result_bind] in H. apply drop_stage_sound in E3 as (dt & -> & Hd & Hs3); [|done].
  destruct (TrimSpace r3) as [|c t] eqn:Et; [|by destruct (c =? 124)]. injection H as <-. rewrite Ew, Eft. by apply (lq re_compile sb (p :: ms) w ft new dt ns r3).
Qed.

(** The parser accepts exactly the language of log queries, with its meaning:
    trimmed, a query is a brace list of one equality matcher or more with UTF-8 values,
    line filters whose regular expressions compile, and at most one drop stage; strings
    are Go literals, quoted or raw, and what they decode to is what is asked for. *)
Theorem log_query_language q sel : ParseLogQL re_compile q = Ok sel <-> log_query_text re_compile (TrimSpace q) sel.
Proof. split; [apply query_accepts|intros H; by eapply query_reads]. Qed.
End query.

(** ** Writing a query down *)

Definition hex_digit (v : Z) : Z := if v <? 10 then 48 + v else 87 + v.
Definition quote_char (c : Z) : text :=
  if ((c =? 34) || (c =? 92))%bool then [92; c] else if in_range c 32 126 then [c] else [92; 120; hex_digit (c / 16); hex_digit (c mod 16)].
Definition quote (s : text) : text := 34 :: (s ≫= quote_char) ++ [34].
Definition print_pair (p : Pair) : text := str_bytes (p_name p) ++ [61] ++ quote (str_bytes (p_value p)).
Fixpoint print_matchers (ms : list Pair) : text :=
  match ms with [] => [125] | [p] => print_pair p ++ [125] | p :: ms => print_pair p ++ [44] ++ print_matchers ms end.
Definition op_text (op : FilterOp) : text := match op with FilterContains => [124; 61] | FilterNotContains => [33; 61] | FilterMatch => [124; 126] | FilterNotMatch => [33; 126] end.
Definition print_filter (f : LineFilter) : text := op_text (lf_Op f) ++ quote (str_bytes (lf_Value f)).
Fixpoint print_names (ns : list string) : text :=
  match ns with [] => [] | [n] => str_bytes n | n :: ns => str_bytes n ++ [44] ++ print_names ns end.
Definition print_drop (ns : list string) : text := match ns with [] => [] | _ => [124] ++ drop_kw ++ [32] ++ print_names ns end.
Definition print_query (sel : LogSelector) : text :=
  [123] ++ print_matchers (sel_Matchers sel) ++ (sel_LineFilters sel ≫= print_filter) ++ print_drop (sel_DropLabels sel).
(** What a query can say: label names, text values, and filters as [Compile] makes
    them. *)
Record sayable (re_compile : string -> option (string -> bool)) (sel : LogSelector) : Prop := {
  sy_some : sel_Matchers sel <> [];
  sy_pairs : Forall (fun p => labelNameRe (p_name p) = true /\ utf8_ValidString (p_value p) = true) (sel_Matchers sel);
  sy_filters : Forall (fun f => make_filter re_compile (lf_Op f) (str_bytes (lf_Value f)) = Some f) (sel_LineFilters sel);
  sy_names : Forall (fun n => labelNameRe n = true) (sel_DropLabels sel) }.

Lemma ws_nil : ws [].
Proof. constructor. Qed.
#[local] Hint Resolve ws_nil : core.
Lemma unhex_digit v : 0 <= v < 16 -> unhex (hex_digit v) = Some v /\ hex_digit v < 128.
Proof. 
  intros H. assert (Hf : Forall (fun v => unhex (hex_digit v) = Some v /\ hex_digit v < 128) (seqZ 0 16)) by (repeat constructor).
  rewrite Forall_forall in Hf. apply Hf, elem_of_seqZ. lia.
Qed.
Lemma quote_char_ok c : byte_ok c -> quoted_char (quote_char c) [c] /\ Forall (fun d => d < 128) (quote_char c).
Proof.
  intros Hc. unfold byte_ok, in_u8 in Hc. change (2 ^ 8) with 256 in Hc. unfold quote_char, in_range. destruct (Z.eqb_spec c 34) as [->|H1]; [split; [by constructor|by repeat constructor]|].
  destruct (Z.eqb_spec c 92) as [->|H2]; [split; [by constructor|by repeat constructor]|]. cbn [orb].
  destruct (Z.leb_spec 32 c); [destruct (Z.leb_spec c 126)|]; cbn [andb]; try (split; [apply qc_plain; lia|constructor; [lia|constructor]]).
  all: destruct (unhex_digit (c / 16)) as [Ha Ha']; [Z.to_euclidean_division_equations; lia|]; destruct (unhex_digit (c mod 16)) as [Hb Hb']; [Z.to_euclidean_division_equations; lia|].
  all: split; [apply qc_hex; [done|]; unfold hex_text; cbn; rewrite Ha, Hb; cbn; do 2 f_equal; Z.to_euclidean_division_equations; lia|repeat constructor; lia].
Qed.
Lemma utf8_ascii f l : Forall (fun d => d < 128) l -> utf8_valid_go f l = true.
Proof. intros H. revert f. induction H as [|c l Hc Hl IH]; intros [|f]; cbn [utf8_valid_go]; try done. destruct (Z.ltb_spec c 128); [done|lia]. Qed.
Lemma quote_literal s : bytes_ok s -> literal (quote s) s.
Proof.
  intros Hs. assert (H : quoted (s ≫= quote_char) s /\ Forall (fun d => d < 128) (s ≫= quote_char)).
  { induction Hs as [|c s Hc Hs [IH1 IH2]]; [split; constructor|]. destruct (quote_char_ok c Hc) as [H1 H2]. rewrite bind_cons. split; [by apply (quoted_cons _ [c])|by apply Forall_app]. }
  destruct H as [H1 H2]. split; [by constructor|]. apply utf8_ascii. constructor; [lia|]. apply Forall_app. split; [done|]. by repeat constructor.
Qed.
Lemma label_name_str n : labelNameRe n = true -> label_name (str_bytes n).
Proof.
  intros H. split; [by rewrite bytes_str_bytes|]. unfold labelNameRe in H. destruct (str_bytes n) as [|c r]; [done|]. apply andb_prop in H as [Hc Hr]. constructor; [unfold alnum_; by rewrite Hc|].
  apply Forall_forall. intros x Hx. rewrite forallb_forall in Hr. apply Hr. by apply list_elem_of_In.
Qed.
Lemma value_text v : utf8_ValidString v = true -> valid_utf8 (str_bytes v) = true.
Proof. unfold utf8_ValidString, valid_utf8. by rewrite length_str_bytes. Qed.
Lemma print_matchers_ok ms : Forall (fun p => labelNameRe (p_name p) = true /\ utf8_ValidString (p_value p) = true) ms -> matcher_list (print_matchers ms) ms.
Proof.
  induction 1 as [|p ms [Hn Hv] Hms IH]; [by apply (ml_end [])|]. pose proof (label_name_str _ Hn) as Hl. pose proof (quote_literal _ (str_bytes_ok (p_value p))) as Hq. pose proof (value_text _ Hv) as Ht.
  assert (Ep : mkPair (bytes_str (str_bytes (p_name p))) (bytes_str (str_bytes (p_value p))) = p) by (rewrite !bytes_str_bytes; by destruct p).
  destruct ms as [|p' ms]; cbn [print_matchers]; unfold print_pair at 1; rewrite <- !app_assoc.
  - rewrite <- Ep at 3. by apply (ml_last [] _ [] [] _ _ []).
  - rewrite <- Ep at 3. by apply (ml_more [] _ [] [] _ _ []).
Qed.
Lemma print_filters_ok re_compile fs : Forall (fun f => make_filter re_compile (lf_Op f) (str_bytes (lf_Value f)) = Some f) fs -> filter_list re_compile (fs ≫= print_filter) fs.
Proof.
  induction 1 as [|f fs Hf Hfs IH]; [constructor|]. rewrite bind_cons. unfold print_filter at 1. rewrite <- app_assoc. pose proof (quote_literal _ (str_bytes_ok (lf_Value f))) as Hq.
  destruct (lf_Op f) eqn:Eo; cbn [op_text]; by apply (fl_cons re_compile _ _ (lf_Op f) [] _ (str_bytes (lf_Value f)) []); rewrite ?Eo.
Qed.
Lemma print_drop_ok ns : Forall (fun n => labelNameRe n = true) ns -> drop_stage (print_drop ns) ns.
Proof.
  intros H. destruct ns as [|n ns]; [constructor|]. unfold print_drop. apply (ds_drop [] [32]); [constructor|by repeat constructor|done|].
  revert n H. induction ns as [|n' ns IH]; intros n H; apply Forall_cons in H as [Hn Hns]; apply label_name_str in Hn.
  - cbn [print_names]. pose proof (dn_last (str_bytes n) [] Hn (List.Forall_nil _)) as Hd. by rewrite app_nil_r, bytes_str_bytes in Hd.
  - pose proof (dn_more (str_bytes n) [] [] _ _ Hn (List.Forall_nil _) (List.Forall_nil _) (IH n' Hns)) as Hd. by rewrite bytes_str_bytes in Hd.
Qed.

(** The text ends in a character no trimming removes. *)
Definition shut (t : text) : Prop := exists m d, t = m ++ [d] /\ printable d.
Lemma shut_app a t : shut t -> shut (a ++ t).
Proof. intros (m & d & -> & Hd). exists (a ++ m), d. by rewrite app_assoc. Qed.
Lemma quote_shut s : shut (quote s).
Proof. by exists (34 :: (s ≫= quote_char)), 34. Qed.
Lemma print_matchers_shut ms : shut (print_matchers ms).
Proof. induction ms as [|p [|p' ms] IH]; [by exists [], 125|by exists (print_pair p), 125|]. cbn [print_matchers]. by do 2 apply shut_app. Qed.
Lemma print_filters_shut f fs : shut ((f :: fs) ≫= print_filter).
Proof.
  revert f. induction fs as [|f' fs IH]; intros f; rewrite bind_cons.
  - cbn. rewrite app_nil_r. apply shut_app, quote_shut.
  - apply shut_app, IH.
Qed.
Lemma label_name_shut n : labelNameRe n = true -> shut (str_bytes n).
Proof.
  intros H%label_name_str. destruct (label_name_nonempty _ H) as (c & r & E & _). destruct H as [_ Hf]. destruct (str_bytes n) as [|d l _] using rev_ind; [done|].
  exists l, d. split; [done|]. apply Forall_app in Hf as [_ Hf]. apply Forall_cons in Hf as [Hd _]. apply alnum_bounds in Hd. unfold printable. lia.
Qed.
Lemma print_names_shut n ns : Forall (fun n => labelNameRe n = true) (n :: ns) -> shut (print_names (n :: ns)).
Proof.
  revert n. induction ns as [|n' ns IH]; intros n H; apply Forall_cons in H as [Hn Hns]; cbn [print_names]; [by apply label_name_shut|]. do 2 apply shut_app. by apply IH.
Qed.
Lemma print_query_trimmed sel : Forall (fun n => labelNameRe n = true) (sel_DropLabels sel) -> TrimSpace (print_query sel) = print_query sel.
Proof.
  intros Hn. assert (H : shut (print_matchers (sel_Matchers sel) ++ (sel_LineFilters sel ≫= print_filter) ++ print_drop (sel_DropLabels sel))).
  { destruct (sel_DropLabels sel) as [|n ns]; [|do 2 apply shut_app; unfold print_drop; do 3 apply shut_app; by apply print_names_shut].
    cbn [print_drop]. rewrite app_nil_r. destruct (sel_LineFilters sel) as [|f fs]; [|apply shut_app, print_filters_shut]. cbn. rewrite app_nil_r. apply print_matchers_shut. }
  destruct H as (m & d & E & Hd). unfold print_query. rewrite E. apply (TrimSpace_shut 123 m d); [unfold printable; lia|done].
Qed.

(** Whatever a log query can say can be written, and the parser reads it back:
    every selector of named equality matchers with UTF-8 values, of filters, whatever
    bytes they look for, and of dropped names is what parsing its printed form gives. *)
Theorem log_query_roundtrip (re_compile : string -> option (string -> bool)) (sel : LogSelector) : sayable re_compile sel ->
  ParseLogQL re_compile (print_query sel) = Ok sel.
Proof.
  intros [Hs Hp Hf Hn]. apply (query_reads re_compile _ (print_query sel)); [|by apply print_query_trimmed]. unfold print_query. rewrite <- (app_nil_r (print_drop _)). destruct sel as [ms fs ns].
  apply (lq re_compile _ ms [] _ fs _ ns []); by first [apply print_matchers_ok|apply print_filters_ok|apply print_drop_ok|done].
Qed.

(** ** A query *)

(** A quote inside a label value, a raw byte in a filter. *)
Definition demo_re (s : string) : option (string -> bool) := Some (String.prefix s).
Definition demo_sel : LogSelector :=
  mkSel [mkPair "job" (bytes_str [97; 34; 98]); mkPair "env" "prod"] [mkLF FilterNotContains (bytes_str [255; 10]) (fun _ => false); mkLF FilterMatch "err" (String.prefix "err")] ["host"; "pod"].
Lemma demo_sayable : sayable demo_re demo_sel.
Proof. split; [done|repeat constructor..]. Qed.
Lemma log_query_roundtrip_witness : ParseLogQL demo_re (print_query demo_sel) = Ok demo_sel /\ (length (print_query demo_sel) = 56)%nat.
Proof. split; [exact (log_query_roundtrip demo_re demo_sel demo_sayable)|vm_compute; reflexivity]. Defined.
