(* ===== verification/LogMetric.v ===== *)
(** * LogMetric: metric queries over logs

    [internal/logs/metriceval.go]: a two-pointer window slides over each stream, the
    group sums the streams tick by tick, and series come out sorted by their labels as
    text. [strconv.Quote], whose escapes follow the Unicode tables, is a parameter.
    Every product and every sum is rounded, as on amd64; the language lets a compiler
    fuse a product with the sum it goes into on other machines. *)
From stdpp Require Import strings.
From S2P Require Import Prelude GoLib GoSort Float FloatInt Labels Postings Source WalCodec Limits LogStream LogFile WalLogs LogHead LogQuery.

(** ** Queries *)

Inductive RangeOp := OpCountOverTime | OpRate | OpBytesOverTime | OpBytesRate.
Inductive AggKind := AggNone | AggSum.
Record Grouping := mkGrouping { gp_Without : bool; gp_Labels : list string }.
Record MetricQuery := mkMQ { mq_Op : RangeOp; mq_Selector : LogSelector; mq_RangeNs : Z; mq_Agg : AggKind; mq_Grouping : Grouping }.
Record MetricPoint := mkMP { mp_ts : Z; mp_value : Z }.
Record MetricSeries := mkMSeries { mr_Labels : gmap string string; mr_Points : list MetricPoint }.
Record MetricSample := mkMSample { mx_Labels : gmap string string; mx_ts : Z; mx_value : Z }.
Inductive evalErr := EvStep | EvEnd | EvRange | EvSource (e : logErr).

(** ** One stream *)

Definition bytes_op (op : RangeOp) : bool := match op with OpBytesOverTime | OpBytesRate => true | _ => false end.
Definition rate_op (op : RangeOp) : bool := match op with OpRate | OpBytesRate => true | _ => false end.
Definition entryWeight (e : LogEntry) (op : RangeOp) : Z := if bytes_op op then float64_of_int (str_len (le_line e)) else float64_of_int 1.
Definition windowStart (t rangeNs : Z) : Z := if t <? i64 (MinInt64 + rangeNs) then MinInt64 else i64 (t - rangeNs).
Definition metric_scale (q : MetricQuery) : Z := if rate_op (mq_Op q) then fdiv (float64_of_int 1000000000) (float64_of_int (mq_RangeNs q)) else float64_of_int 1.
(** The window is [entries[tail:head]], what is ahead of it [entries[head:]]. *)
Fixpoint take_in (op : RangeOp) (t : Z) (win : list LogEntry) (acc : Z) (ahead : list LogEntry) : list LogEntry * Z * list LogEntry :=
  match ahead with
  | e :: rest => if le_ts e <=? t then take_in op t (win ++ [e]) (fadd acc (entryWeight e op)) rest else (win, acc, ahead)
  | [] => (win, acc, [])
  end.
Fixpoint drop_out (op : RangeOp) (lo : Z) (acc : Z) (win : list LogEntry) : list LogEntry * Z :=
  match win with
  | e :: rest => if le_ts e <=? lo then drop_out op lo (fsub acc (entryWeight e op)) rest else (win, acc)
  | [] => ([], acc)
  end.
Definition put_value (scale acc t : Z) (win : list LogEntry) (values : gmap Z Z) : gmap Z Z :=
  match win with [] => values | _ => <[t := fadd (default 0 (values !! t)) (fmul scale acc)]> values end.
Fixpoint tick_loop (fuel : nat) (q : MetricQuery) (endNs stepNs t : Z) (win : list LogEntry) (acc : Z) (ahead : list LogEntry) (values : gmap Z Z) : gmap Z Z :=
  match fuel with
  | O => values
  | S f =>
      let '(win, acc, ahead) := take_in (mq_Op q) t win acc ahead in
      let '(win, acc) := drop_out (mq_Op q) (windowStart t (mq_RangeNs q)) acc win in
      let values := put_value (metric_scale q) acc t win values in
      if u64 (u64 endNs - u64 t) <? u64 stepNs then values else tick_loop f q endNs stepNs (i64 (t + stepNs)) win acc ahead values
  end.
(** One tick for each step the span holds. *)
Definition tick_fuel (startNs endNs stepNs : Z) : nat := S (Z.to_nat (u64 (u64 endNs - u64 startNs) / stepNs)).
Definition accumulate (values : gmap Z Z) (entries : list LogEntry) (q : MetricQuery) (startNs endNs stepNs : Z) : gmap Z Z :=
  tick_loop (tick_fuel startNs endNs stepNs) q endNs stepNs startNs [] 0 entries values.

(** ** Groups *)

Definition label_kept (names : list string) (e : string * string) : Prop := e.1 ∉ names /\ e.2 <> ""%string.
Definition pick_label (m : gmap string string) (out : gmap string string) (n : string) : gmap string string :=
  match m !! n with Some v => if String.eqb v "" then out else <[n := v]> out | None => out end.
Definition groupOf (l : Labels) (q : MetricQuery) : list Z * gmap string string :=
  let m := drop_labels (sel_DropLabels (mq_Selector q)) (labels_Map l) in
  match mq_Agg q with
  | AggNone => (encodeLabelSet m, m)
  | AggSum =>
      let names := gp_Labels (mq_Grouping q) in
      let out := match names with
                 | [] => ∅
                 | _ => if gp_Without (mq_Grouping q) then filter (label_kept names) m else fold_left (pick_label m) names ∅
                 end in
      (encodeLabelSet out, out)
  end.
Record metricGroup := mkGroup { mg_labels : gmap string string; mg_values : gmap Z Z }.
Definition metric_kept (q : MetricQuery) (entries : list LogEntry) : list LogEntry := filter (fun en => passesFilters (le_line en) (sel_LineFilters (mq_Selector q)) = true) entries.
Definition eval_stream (q : MetricQuery) (startNs endNs stepNs : Z) (groups : gmap (list Z) metricGroup) (sd : StreamData) : gmap (list Z) metricGroup :=
  match metric_kept q (st_entries sd) with
  | [] => groups
  | kept =>
      let '(key, outLabels) := groupOf (st_labels sd) q in
      let g := default (mkGroup outLabels ∅) (groups !! key) in
      <[key := mkGroup (mg_labels g) (accumulate (mg_values g) kept q startNs endNs stepNs)]> groups
  end.

(** ** The answer *)

Section eval.
Context (Quote : string -> string).
Fixpoint render_pairs (first : bool) (ps : list (string * string)) : string :=
  match ps with
  | [] => ""
  | (n, v) :: ps => (if first then "" else ",") +:+ n +:+ "=" +:+ Quote v +:+ render_pairs false ps
  end.
Definition renderLabels (m : gmap string string) : string := "{" +:+ render_pairs true (sorted_pairs m) +:+ "}".
Definition series_of (g : metricGroup) : option MetricSeries :=
  match map_to_list (mg_values g) with
  | [] => None
  | vs => Some (mkMSeries (mg_labels g) (sort_by mp_ts ((fun e : Z * Z => mkMP e.1 e.2) <$> vs)))
  end.
Definition evalMetric (src : LogSource) (ctx : context) (q : MetricQuery) (startNs endNs stepNs : Z) : result evalErr (list MetricSeries) :=
  if stepNs <=? 0 then Err EvStep
  else if endNs <? startNs then Err EvEnd
  else if mq_RangeNs q <=? 0 then Err EvRange
  else match ls_SelectStreams src ctx (sel_Matchers (mq_Selector q)) (windowStart startNs (mq_RangeNs q)) endNs with
       | Err e => Err (EvSource e)
       | Ok streams =>
           let groups := fold_left (eval_stream q startNs endNs stepNs) streams ∅ in
           Ok (sort_str (fun s => renderLabels (mr_Labels s)) (omap (fun e => series_of e.2) (map_to_list groups)))
       end.
Definition EvalMetricRange (src : LogSource) (ctx : context) (q : MetricQuery) (startNs endNs stepNs : Z) := evalMetric src ctx q startNs endNs stepNs.
Definition EvalMetricInstant (src : LogSource) (ctx : context) (q : MetricQuery) (tsNs : Z) : result evalErr (list MetricSample) :=
  series ← evalMetric src ctx q tsNs tsNs 1;
  Ok (series ≫= fun s => (fun p => mkMSample (mr_Labels s) (mp_ts p) (mp_value p)) <$> mr_Points s).
End eval.

(** ** The window, tick by tick *)

Definition weight (op : RangeOp) (e : LogEntry) : Z := if bytes_op op then str_len (le_line e) else 1.
Definition weight_sum (op : RangeOp) (es : list LogEntry) : Z := foldr (fun e n => weight op e + n) 0 es.
Fixpoint ticks_go (n : nat) (t stepNs : Z) : list Z := match n with O => [] | S n => t :: ticks_go n (t + stepNs) stepNs end.
(** [start], [start + step], up to [end]. *)
Definition ticks (startNs endNs stepNs : Z) : list Z := ticks_go (S (Z.to_nat ((endNs - startNs) / stepNs))) startNs stepNs.
(** The entries a tick counts: after the start of its window, up to the tick. *)
Definition tick_window (q : MetricQuery) (t : Z) (es : list LogEntry) : list LogEntry := filter (fun e => windowStart t (mq_RangeNs q) < le_ts e <= t) es.
Definition stream_tick (q : MetricQuery) (t : Z) (es : list LogEntry) : option Z :=
  match tick_window q t es with [] => None | w => Some (fmul (metric_scale q) (float64_of_int (weight_sum (mq_Op q) w))) end.
Definition add_tick (acc : option Z) (v : option Z) : option Z := match v with Some x => Some (fadd (default 0 acc) x) | None => acc end.

Lemma weight_nonneg op e : 0 <= weight op e.
Proof. unfold weight, str_len. destruct (bytes_op op); lia. Qed.
Lemma weight_sum_app op a b : weight_sum op (a ++ b) = weight_sum op a + weight_sum op b.
Proof. induction a as [|e a IH]; [done|]. cbn [app weight_sum foldr]. fold (weight_sum op (a ++ b)) (weight_sum op a). lia. Qed.
Lemma weight_sum_nonneg op es : 0 <= weight_sum op es.
Proof. induction es as [|e es IH]; [done|]. cbn [weight_sum foldr]. fold (weight_sum op es). pose proof (weight_nonneg op e). lia. Qed.
Lemma entryWeight_float e op : entryWeight e op = float64_of_int (weight op e).
Proof. unfold entryWeight, weight. by destruct (bytes_op op). Qed.
Lemma ticks_go_elem n t s u : u ∈ ticks_go n t s <-> exists k, 0 <= k < Z.of_nat n /\ u = t + k * s.
Proof.
  revert t. induction n as [|n IH]; intros t; cbn [ticks_go]; [rewrite elem_of_nil; split; [done|intros (k & ? & _); lia]|]. rewrite elem_of_cons, IH. split.
  - intros [->|(k & Hk & ->)]; [exists 0; lia|exists (k + 1); lia].
  - intros (k & Hk & ->). destruct (decide (k = 0)) as [->|]; [left; lia|]. right. exists (k - 1). lia.
Qed.
Lemma elem_of_metric_ticks a b s u : 0 < s -> a <= b -> u ∈ ticks a b s <-> exists k, 0 <= k /\ u = a + k * s /\ u <= b.
Proof.
  intros Hs Hab. unfold ticks. rewrite ticks_go_elem. assert (0 <= (b - a) / s) by (apply Z.div_pos; lia). rewrite Nat2Z.inj_succ, Z2Nat.id by lia. split.
  - intros (k & Hk & ->). exists k. split; [lia|]. split; [done|]. assert (k <= (b - a) / s) by lia. pose proof (Z.mul_div_le (b - a) s Hs). nia.
  - intros (k & Hk & -> & Hle). exists k. split; [|done]. assert (k <= (b - a) / s) by (apply Z.div_le_lower_bound; nia). lia.
Qed.

Section stream.
Context (q : MetricQuery) (endNs stepNs : Z) (es : list LogEntry).
Context (Hr : 0 < mq_RangeNs q <= MaxInt64) (Hstep : 0 < stepNs <= MaxInt64) (Hend : in_i64 endNs).
Context (Hsort : StronglySorted (key_le le_ts) es) (Hsmall : weight_sum (mq_Op q) es < 2 ^ 53).
Abbreviation op := (mq_Op q).
Abbreviation lo t := (windowStart t (mq_RangeNs q)).

Lemma windowStart_eq t : in_i64 t -> lo t = Z.max MinInt64 (t - mq_RangeNs q).
Proof using Hr.
  intros Ht. unfold windowStart. rewrite (i64_id (MinInt64 + _)) by (unfold in_i64, MinInt64, MaxInt64 in *; lia). destruct (Z.ltb_spec t (MinInt64 + mq_RangeNs q)); [lia|]. rewrite i64_id by (unfold in_i64, MinInt64, MaxInt64 in *; lia). lia.
Qed.
Lemma take_in_spec t win ahead : StronglySorted (key_le le_ts) ahead -> 0 <= weight_sum op win -> weight_sum op (win ++ ahead) < 2 ^ 53 ->
  exists a1 a2, ahead = a1 ++ a2 /\ Forall (fun e => le_ts e <= t) a1 /\ Forall (fun e => t < le_ts e) a2 /\
    take_in op t win (float64_of_int (weight_sum op win)) ahead = (win ++ a1, float64_of_int (weight_sum op (win ++ a1)), a2).
Proof using.
  intros Hs. revert win. induction Hs as [|e ahead Hs IH He]; intros win Hw Hlt; [exists [], []; rewrite !app_nil_r; split_and!; (done || constructor)|]. cbn [take_in]. destruct (Z.leb_spec (le_ts e) t) as [Hle|Hgt].
  - rewrite entryWeight_float. pose proof (weight_nonneg op e). assert (Ew : weight_sum op (win ++ [e]) = weight_sum op win + weight op e) by (rewrite weight_sum_app; cbn [weight_sum foldr]; lia).
    pose proof Hlt as Hlt'. change (e :: ahead) with ([e] ++ ahead) in Hlt'. rewrite app_assoc, weight_sum_app, Ew in Hlt'. pose proof (weight_sum_nonneg op ahead).
    rewrite fadd_int, <- Ew by (unfold small_int; lia). destruct (IH (win ++ [e])) as (a1 & a2 & -> & H1 & H2 & E); [lia|rewrite weight_sum_app, Ew; lia|].
    exists (e :: a1), a2. split; [done|]. split; [by constructor|]. split; [done|]. rewrite E, <- app_assoc. done.
  - exists [], (e :: ahead). rewrite !app_nil_r. split_and!; [done|constructor| |done]. constructor; [lia|]. eapply Forall_impl; [exact He|]. unfold key_le. cbn. lia.
Qed.
Lemma drop_out_spec u win : StronglySorted (key_le le_ts) win -> weight_sum op win < 2 ^ 53 ->
  exists d w, win = d ++ w /\ Forall (fun e => le_ts e <= u) d /\ Forall (fun e => u < le_ts e) w /\ drop_out op u (float64_of_int (weight_sum op win)) win = (w, float64_of_int (weight_sum op w)).
Proof using.
  intros Hs. induction Hs as [|e win Hs IH He]; intros Hlt; [exists [], []; split_and!; (done || constructor)|]. cbn [drop_out]. cbn [weight_sum foldr] in *. fold (weight_sum op win) in *. pose proof (weight_nonneg op e). pose proof (weight_sum_nonneg op win). destruct (Z.leb_spec (le_ts e) u) as [Hle|Hgt].
  - rewrite entryWeight_float, fsub_int by (unfold small_int; lia). replace (weight op e + weight_sum op win - weight op e) with (weight_sum op win) by lia.
    destruct IH as (d & w & -> & Hd & Hw & E); [lia|]. exists (e :: d), w. split; [done|]. split; [by constructor|]. split; [done|exact E].
  - exists [], (e :: win). split_and!; [done|constructor| |done]. constructor; [lia|]. eapply Forall_impl; [exact He|]. unfold key_le. cbn. lia.
Qed.
Lemma SS_app_inv {A} (R : A -> A -> Prop) a b : StronglySorted R (a ++ b) -> StronglySorted R a /\ StronglySorted R b.
Proof using. induction a as [|x a IH]; cbn [app]; [split; [constructor|done]|]. intros H. inversion H as [|?? H1 H2]; subst. destruct (IH H1). apply Forall_app in H2 as [? ?]. split; [by constructor|done]. Qed.
(** What is dropped, in the window, and ahead, at a tick. *)
Record window_at (t : Z) (win : list LogEntry) (acc : Z) (ahead : list LogEntry) : Prop := {
  wa_dropped : exists d, es = d ++ win ++ ahead /\ Forall (fun e => le_ts e <= lo t) d;
  wa_win : Forall (fun e => le_ts e <= t) win;
  wa_acc : acc = float64_of_int (weight_sum op win) }.
Lemma window_step t win acc ahead win1 acc1 ahead1 win2 acc2 : window_at t win acc ahead ->
  take_in op t win acc ahead = (win1, acc1, ahead1) -> drop_out op (lo t) acc1 win1 = (win2, acc2) ->
  window_at t win2 acc2 ahead1 /\ win2 = tick_window q t es /\ acc2 = float64_of_int (weight_sum op win2).
Proof using Hsmall Hsort.
  intros [(d & Ees & Hd) Hw ->] E1 E2. pose proof Hsort as Hs. rewrite Ees in Hs. apply SS_app_inv in Hs as [_ Hs]. pose proof Hs as Hs'. apply SS_app_inv in Hs' as [_ Ha].
  pose proof Hsmall as Hlt. rewrite Ees, weight_sum_app in Hlt. pose proof (weight_sum_nonneg op d). destruct (take_in_spec t win ahead Ha (weight_sum_nonneg op win) ltac:(lia)) as (a1 & a2 & -> & H1 & H2 & E). rewrite E in E1. injection E1 as <- <- <-.
  rewrite (app_assoc win) in Hs, Hlt, Ees. apply SS_app_inv in Hs as [Hs _]. pose proof (weight_sum_nonneg op a2). rewrite weight_sum_app in Hlt. destruct (drop_out_spec (lo t) (win ++ a1) Hs ltac:(lia)) as (d2 & w & Ew & Hd2 & Hw2 & E'). rewrite E' in E2. injection E2 as <- <-.
  assert (Hwt : Forall (fun e => le_ts e <= t) w) by (assert (HF : Forall (fun e => le_ts e <= t) (win ++ a1)) by (by apply Forall_app); rewrite Ew in HF; by apply Forall_app in HF as [_ ?]).
  split; [|split; [|done]].
  - split; [|done|done]. exists (d ++ d2). rewrite Ees, Ew, <- !app_assoc. split; [done|]. by apply Forall_app.
  - unfold tick_window. rewrite Ees, Ew, !filter_app. rewrite (filter_nothing _ d), (filter_nothing _ d2), (filter_nothing _ a2), (filter_all _ w); [by rewrite app_nil_r|..].
    + rewrite Forall_forall in *. intros e He. specialize (Hw2 e He). specialize (Hwt e He). cbn in *. lia.
    + eapply Forall_impl; [exact H2|]. cbn. lia.
    + eapply Forall_impl; [exact Hd2|]. cbn. lia.
    + eapply Forall_impl; [exact Hd|]. cbn. lia.
Qed.
Lemma window_next t win acc ahead : in_i64 t -> in_i64 (t + stepNs) -> window_at t win acc ahead -> window_at (t + stepNs) win acc ahead.
Proof using Hr Hstep.
  intros Ht Ht' [(d & Ees & Hd) Hw Ha]. split; [|eapply Forall_impl; [exact Hw|]; cbn; lia|done]. exists d. split; [done|]. eapply Forall_impl; [exact Hd|]. cbn. rewrite !windowStart_eq by done. lia.
Qed.
Lemma stop_exact t : in_i64 t -> t <= endNs -> (u64 (u64 endNs - u64 t) <? u64 stepNs) = (endNs - t <? stepNs).
Proof using Hstep Hend.
  intros Ht Hle. rewrite (u64_id stepNs) by (unfold in_u64, MaxInt64 in *; lia). f_equal. unfold u64, in_i64, MinInt64, MaxInt64 in *. rewrite <- Zminus_mod. apply Z.mod_small. lia.
Qed.
Lemma put_tick values t win acc u : acc = float64_of_int (weight_sum op win) -> win = tick_window q t es ->
  put_value (metric_scale q) acc t win values !! u = if decide (u = t) then add_tick (values !! u) (stream_tick q u es) else values !! u.
Proof using.
  intros -> Ew. unfold put_value, stream_tick. destruct (decide (u = t)) as [->|Hne].
  - rewrite <- Ew. destruct win; [done|]. by rewrite lookup_insert_eq.
  - destruct win; [done|]. by rewrite lookup_insert_ne.
Qed.
Lemma tick_loop_exact fuel t win acc ahead values u : in_i64 t -> t <= endNs -> window_at t win acc ahead -> (endNs - t) / stepNs < Z.of_nat fuel ->
  tick_loop fuel q endNs stepNs t win acc ahead values !! u = if decide (u ∈ ticks t endNs stepNs) then add_tick (values !! u) (stream_tick q u es) else values !! u.
Proof using Hr Hstep Hend Hsort Hsmall.
  revert t win acc ahead values. induction fuel as [|f IH]; intros t win acc ahead values Ht Hle Hwa Hf; [assert (0 <= (endNs - t) / stepNs) by (apply Z.div_pos; lia); lia|]. cbn [tick_loop].
  destruct (take_in op t win acc ahead) as [[win1 acc1] ahead1] eqn:E1. destruct (drop_out op (lo t) acc1 win1) as [win2 acc2] eqn:E2. destruct (window_step t win acc ahead win1 acc1 ahead1 win2 acc2 Hwa E1 E2) as (Hwa2 & Ew & Ea).
  rewrite stop_exact by done. destruct (Z.ltb_spec (endNs - t) stepNs) as [Hstop|Hgo].
  - rewrite (put_tick values t win2 acc2 u Ea Ew). apply decide_ext. rewrite elem_of_metric_ticks by lia. split; [intros ->; exists 0; lia|intros (k & Hk & -> & Hk2); assert (k = 0) by nia; lia].
  - assert (Ht' : in_i64 (t + stepNs)) by (unfold in_i64, MinInt64, MaxInt64 in *; lia). rewrite i64_id by done. rewrite IH; [|done|lia|by apply window_next|].
    + rewrite (put_tick values t win2 acc2 u Ea Ew). destruct (decide (u = t)) as [->|Hne].
      * rewrite decide_False, decide_True; [done| |]; rewrite elem_of_metric_ticks by lia; [exists 0; lia|intros (k & Hk & E & _); nia].
      * apply decide_ext. rewrite !elem_of_metric_ticks by lia. split; [intros (k & Hk & -> & Hk2); exists (k + 1); lia|]. intros (k & Hk & -> & Hk2). exists (k - 1). assert (k <> 0) by (intros ->; lia). lia.
    + replace (endNs - (t + stepNs)) with (endNs - t + (-1) * stepNs) by lia. rewrite Z.div_add by lia. lia.
Qed.
Lemma accumulate_exact values startNs u : in_i64 startNs -> startNs <= endNs ->
  accumulate values es q startNs endNs stepNs !! u = if decide (u ∈ ticks startNs endNs stepNs) then add_tick (values !! u) (stream_tick q u es) else values !! u.
Proof using Hr Hstep Hend Hsort Hsmall.
  intros Hs Hle. unfold accumulate. apply tick_loop_exact; [done|done| |].
  - split; [exists []; done|constructor|done].
  - unfold tick_fuel. assert (E : u64 (u64 endNs - u64 startNs) = endNs - startNs) by (unfold u64, in_i64, MinInt64, MaxInt64 in *; rewrite <- Zminus_mod; apply Z.mod_small; lia). rewrite E. assert (0 <= (endNs - startNs) / stepNs) by (apply Z.div_pos; lia). lia.
Qed.
End stream.

(** ** Which labels a series shows *)

Definition shown (q : MetricQuery) (n v : string) : Prop :=
  n ∉ sel_DropLabels (mq_Selector q) /\
  match mq_Agg q with
  | AggNone => True
  | AggSum => v <> ""%string /\ gp_Labels (mq_Grouping q) <> [] /\ if gp_Without (mq_Grouping q) then n ∉ gp_Labels (mq_Grouping q) else n ∈ gp_Labels (mq_Grouping q)
  end.
#[export] Instance shown_dec q n v : Decision (shown q n v).
Proof. unfold shown. destruct (mq_Agg q), (gp_Without (mq_Grouping q)); apply _. Defined.
Definition metric_labels (q : MetricQuery) (l : Labels) : gmap string string := filter (fun e => shown q e.1 e.2) (labels_Map l).

Lemma pick_labels_lookup m names out n : fold_left (pick_label m) names out !! n =
  match m !! n with Some v => if decide (n ∈ names /\ v <> ""%string) then Some v else out !! n | None => out !! n end.
Proof.
  revert out. induction names as [|x names IH]; intros out.
  - cbn [fold_left]. destruct (m !! n) as [v|]; [|done]. rewrite decide_False; [done|]. by intros [?%elem_of_nil _].
  - cbn [fold_left]. rewrite IH. unfold pick_label. destruct (m !! n) as [v|] eqn:En.
    + destruct (decide (n ∈ names /\ v <> ""%string)) as [[H1 H2]|Hno]; [by rewrite decide_True by (split; [by right|done])|].
      destruct (decide (x = n)) as [->|Hne].
      * rewrite En. destruct (String.eqb_spec v "") as [->|Hv]; [rewrite decide_False; [done|by intros [_ []]]|]. rewrite lookup_insert_eq, decide_True; [done|]. split; [by left|done].
      * rewrite (decide_False (P := n ∈ x :: names /\ _)) by (intros [[->|?]%elem_of_cons ?]; [done|by apply Hno]). destruct (m !! x) as [w|]; [|done]. destruct (String.eqb w ""); [done|]. by rewrite lookup_insert_ne.
    + destruct (decide (x = n)) as [->|Hne]; [by rewrite En|]. destruct (m !! x) as [w|]; [|done]. destruct (String.eqb w ""); [done|]. by rewrite lookup_insert_ne.
Qed.
Lemma metric_labels_lookup q l n v : metric_labels q l !! n = Some v <-> labels_Map l !! n = Some v /\ shown q n v.
Proof. unfold metric_labels. by rewrite map_lookup_filter_Some. Qed.
Lemma drop_labels_some names m n v : drop_labels names m !! n = Some v <-> m !! n = Some v /\ n ∉ names.
Proof. rewrite drop_labels_lookup. case_decide; naive_solver. Qed.
Lemma groupOf_exact q l : groupOf l q = (encodeLabelSet (metric_labels q l), metric_labels q l).
Proof.
  unfold groupOf. set (m := drop_labels _ _). assert (Hm : forall n v, m !! n = Some v <-> labels_Map l !! n = Some v /\ n ∉ sel_DropLabels (mq_Selector q)) by (intros; apply drop_labels_some).
  assert (E : forall m', (forall n v, m' !! n = Some v <-> labels_Map l !! n = Some v /\ shown q n v) -> (encodeLabelSet m', m') = (encodeLabelSet (metric_labels q l), metric_labels q l)).
  { intros m' H. assert (m' = metric_labels q l) as ->; [|done]. apply map_eq. intros n. apply option_eq. intros v. by rewrite H, metric_labels_lookup. }
  clearbody m. unfold shown in E. destruct (mq_Agg q).
  - apply E. intros n v. rewrite Hm. tauto.
  - apply E. intros n v. set (names := gp_Labels (mq_Grouping q)) in *. destruct names as [|x names]; [rewrite lookup_empty; split; [done|intros (_ & _ & _ & [] & _); done]|]. destruct (gp_Without (mq_Grouping q)).
    + rewrite map_lookup_filter_Some, Hm. unfold label_kept. cbn [fst snd]. split; [intros ((?&?)&?&?); split_and!; done|intros (?&?&?&_&?); split_and!; done].
    + rewrite pick_labels_lookup, lookup_empty. destruct (m !! n) as [w|] eqn:Ew.
      * apply Hm in Ew as [Ew Hd]. rewrite Ew. case_decide as Hin; [split; [intros H; injection H as <-; split_and!; naive_solver|intros [H _]; done]|]. split; [done|]. intros (H & _ & Hv & _ & Hn). injection H as <-. exfalso. by apply Hin.
      * split; [done|]. intros (H & Hd & _). assert (Hs : m !! n = Some v) by (by apply Hm). congruence.
Qed.
Lemma metric_labels_short q l : short_labels (labels_Map l) -> short_labels (metric_labels q l).
Proof. intros H k v Hk. apply metric_labels_lookup in Hk as [Hk _]. by apply H. Qed.

(** ** Groups, stream by stream *)

Section groups.
Context (q : MetricQuery) (startNs endNs stepNs : Z).
Context (Hr : 0 < mq_RangeNs q <= MaxInt64) (Hstep : 0 < stepNs <= MaxInt64) (Hstart : in_i64 startNs) (Hend : in_i64 endNs) (Hle : startNs <= endNs).
Abbreviation op := (mq_Op q).
Abbreviation kept sd := (metric_kept q (st_entries sd)).
Abbreviation lab sd := (metric_labels q (st_labels sd)).

(** The streams that have lines for the query, and what a group of them is at a tick. *)
Definition contributing (streams : list StreamData) : list StreamData := filter (fun sd => kept sd <> []) streams.
Definition members (m : gmap string string) (streams : list StreamData) : list StreamData := filter (fun sd => lab sd = m) (contributing streams).
Definition group_tick (t : Z) (ms : list StreamData) : option Z := fold_left (fun acc sd => add_tick acc (stream_tick q t (kept sd))) ms None.
Definition metric_points (ms : list StreamData) : list MetricPoint := omap (fun t => mkMP t <$> group_tick t ms) (ticks startNs endNs stepNs).
Definition metric_series (streams : list StreamData) (m : gmap string string) : option MetricSeries :=
  match metric_points (members m streams) with [] => None | ps => Some (mkMSeries m ps) end.
Definition metric_answer (streams : list StreamData) : list MetricSeries := omap (metric_series streams) (first_use ((fun sd => lab sd) <$> contributing streams)).

Definition stream_fits (sd : StreamData) : Prop := StronglySorted (key_le le_ts) (st_entries sd) /\ weight_sum op (kept sd) < 2 ^ 53 /\ short_labels (labels_Map (st_labels sd)).
Definition groups_inv (ss : list StreamData) (g : gmap (list Z) metricGroup) : Prop :=
  (forall key x, g !! key = Some x -> short_labels (mg_labels x) /\ key = encodeLabelSet (mg_labels x)) /\
  forall m, short_labels m -> match g !! encodeLabelSet m with
    | None => members m ss = []
    | Some x => members m ss <> [] /\ mg_labels x = m /\ forall t, mg_values x !! t = if decide (t ∈ ticks startNs endNs stepNs) then group_tick t (members m ss) else None
    end.

Lemma kept_sorted sd : stream_fits sd -> StronglySorted (key_le le_ts) (kept sd).
Proof using.
  intros [Hs _]. unfold metric_kept. induction Hs as [|e es Hs IH He]; [constructor|]. rewrite filter_cons. case_decide; [|done]. constructor; [done|]. apply Forall_forall. intros x [_ Hx]%list_elem_of_filter. rewrite Forall_forall in He. by apply He.
Qed.
Lemma metric_members_snoc m ss sd : members m (ss ++ [sd]) = members m ss ++ (if decide (kept sd <> [] /\ lab sd = m) then [sd] else []).
Proof using.
  clear Hr Hstep Hstart Hend Hle. unfold members, contributing. rewrite !filter_app, filter_cons, filter_nil. destruct (decide (kept sd <> [])) as [Hk|Hk].
  - rewrite filter_cons, filter_nil. destruct (decide (lab sd = m)) as [Hm|Hm]; [by rewrite decide_True by done|rewrite decide_False by tauto; done].
  - rewrite filter_nil. by rewrite decide_False by tauto.
Qed.
Lemma eval_stream_inv ss g sd : stream_fits sd -> groups_inv ss g -> groups_inv (ss ++ [sd]) (eval_stream q startNs endNs stepNs g sd).
Proof using Hr Hstep Hstart Hend Hle.
  intros Hf [Hk Hg]. pose proof (kept_sorted sd Hf) as Hs. destruct Hf as (_ & Hw & Hsh). unfold eval_stream. destruct (kept sd) as [|e0 es] eqn:Ek.
  - split; [done|]. intros m Hm. rewrite metric_members_snoc, Ek, decide_False by (intros [[] _]; done). rewrite app_nil_r. by apply Hg.
  - rewrite groupOf_exact. rewrite <- Ek in *. assert (Hne : kept sd <> []) by (rewrite Ek; done). clear e0 es Ek. set (m0 := lab sd). assert (Hm0 : short_labels m0) by (by apply metric_labels_short). set (key := encodeLabelSet m0). set (x0 := default (mkGroup m0 ∅) (g !! key)).
    assert (Hx0 : mg_labels x0 = m0 /\ forall t, mg_values x0 !! t = if decide (t ∈ ticks startNs endNs stepNs) then group_tick t (members m0 ss) else None).
    { pose proof (Hg m0 Hm0) as H0. fold key in H0. unfold x0. destruct (g !! key) as [x|]; [by destruct H0 as (_ & ? & ?)|]. split; [done|]. intros t. rewrite H0. by destruct (decide _). }
    destruct Hx0 as [Hl0 Hv0]. clearbody x0. cbn zeta. rewrite Hl0. split.
    + intros k x Hx. rewrite lookup_insert in Hx. case_decide as Hkk; [injection Hx as <-; done|by apply Hk].
    + intros m Hm. rewrite lookup_insert, metric_members_snoc. case_decide as Hkk.
      * apply encodeLabelSet_inj in Hkk; [|done..]. subst m. rewrite decide_True by done. cbn [mg_labels mg_values]. split; [by destruct (members m0 ss)|]. split; [done|].
        intros t. rewrite (accumulate_exact q endNs stepNs (kept sd)), Hv0 by done. unfold group_tick. rewrite fold_left_app. cbn [fold_left]. by destruct (decide (t ∈ ticks startNs endNs stepNs)).
      * rewrite (decide_False (P := kept sd <> [] /\ lab sd = m)) by (intros [_ <-]; done). rewrite app_nil_r. by apply Hg.
Qed.
Lemma eval_streams_inv ss : Forall stream_fits ss -> groups_inv ss (fold_left (eval_stream q startNs endNs stepNs) ss ∅).
Proof using Hr Hstep Hstart Hend Hle.
  induction ss as [|sd ss IH] using rev_ind; intros HF; [split; [done|]; intros m _; cbn [fold_left]; by rewrite lookup_empty|]. apply Forall_app in HF as [HF [Hsd _]%Forall_cons]. rewrite fold_left_app. cbn [fold_left]. apply eval_stream_inv; [done|by apply IH].
Qed.
End groups.

(** ** From the groups to the series *)

Lemma first_use_NoDup {A} `{EqDecision A} (l : list A) : NoDup (first_use l).
Proof.
  induction l as [|x l IH] using rev_ind; [constructor|]. rewrite first_use_snoc. case_decide; [done|]. apply NoDup_app. split_and!; [done| |apply NoDup_singleton]. intros y Hy ->%list_elem_of_singleton. done.
Qed.
Lemma NoDup_omap_inj {A B} (f : A -> option B) l : NoDup l -> (forall x y b, x ∈ l -> y ∈ l -> f x = Some b -> f y = Some b -> x = y) -> NoDup (omap f l).
Proof.
  intros Hnd. induction Hnd as [|x l Hx Hnd IH]; intros Hinj; [constructor|]. cbn [omap list_omap]. destruct (f x) as [b|] eqn:E; [|apply IH; intros; eapply Hinj; eauto; by right]. constructor.
  - intros (y & Hy & Ey)%list_elem_of_omap. apply Hx. rewrite (Hinj x y b); [done|by left|by right|done|done].
  - apply IH. intros; eapply Hinj; eauto; by right.
Qed.
Lemma ticks_go_sorted n t s : 0 < s -> StronglySorted Z.lt (ticks_go n t s).
Proof.
  intros Hs. revert t. induction n as [|n IH]; intros t; cbn [ticks_go]; constructor; [apply IH|]. apply Forall_forall. intros u (k & Hk & ->)%ticks_go_elem. nia.
Qed.

Section answer.
Context (q : MetricQuery) (startNs endNs stepNs : Z).
Context (Hr : 0 < mq_RangeNs q <= MaxInt64) (Hstep : 0 < stepNs <= MaxInt64) (Hstart : in_i64 startNs) (Hend : in_i64 endNs) (Hle : startNs <= endNs).
Abbreviation op := (mq_Op q).
Abbreviation kept sd := (metric_kept q (st_entries sd)).
Abbreviation lab sd := (metric_labels q (st_labels sd)).
Abbreviation points ms := (metric_points q startNs endNs stepNs ms).
Abbreviation tks := (ticks startNs endNs stepNs).

Lemma elem_of_points ms p : p ∈ points ms <-> mp_ts p ∈ tks /\ group_tick q (mp_ts p) ms = Some (mp_value p).
Proof using.
  unfold metric_points. rewrite list_elem_of_omap. split.
  - intros (t & Ht & E). destruct (group_tick q t ms) as [v|] eqn:Ev; [|done]. injection E as <-. done.
  - intros [Ht E]. exists (mp_ts p). split; [done|]. rewrite E. by destruct p.
Qed.
Lemma points_sorted ms : StronglySorted (key_lt mp_ts) (points ms).
Proof using Hstep.
  unfold metric_points, ticks. induction (ticks_go_sorted (S (Z.to_nat ((endNs - startNs) / stepNs))) startNs stepNs ltac:(lia)) as [|t l Hl IH Ht]; [constructor|]. cbn [omap list_omap]. destruct (group_tick q t ms) as [v|]; [|done]. cbn [fmap option_fmap option_map]. constructor; [done|].
  apply Forall_forall. intros p (u & Hu & E)%list_elem_of_omap. destruct (group_tick q u ms); [|done]. injection E as <-. rewrite Forall_forall in Ht. by apply Ht.
Qed.
Lemma series_of_exact streams m x : mg_labels x = m -> (forall t, mg_values x !! t = if decide (t ∈ tks) then group_tick q t (members q m streams) else None) ->
  series_of x = metric_series q startNs endNs stepNs streams m.
Proof using Hstep.
  intros Hl Hv. unfold series_of, metric_series. set (ps := points (members q m streams)). assert (Hperm : (fun e : Z * Z => mkMP e.1 e.2) <$> map_to_list (mg_values x) ≡ₚ ps).
  { apply NoDup_Permutation.
    - apply (NoDup_fmap_1 mp_ts). rewrite <- list_fmap_compose. apply (NoDup_fst_map_to_list (mg_values x)).
    - eapply StronglySorted_strict_NoDup, points_sorted. unfold key_lt. intros; lia.
    - intros p. unfold ps. rewrite elem_of_points, list_elem_of_fmap. split.
      + intros ([t v] & -> & H%elem_of_map_to_list). cbn [fst snd mp_ts mp_value]. rewrite Hv in H. by case_decide.
      + intros [Ht E]. exists (mp_ts p, mp_value p). split; [by destruct p|]. apply elem_of_map_to_list. rewrite Hv. by rewrite decide_True. }
  assert (Hsort : sort_by mp_ts ((fun e : Z * Z => mkMP e.1 e.2) <$> map_to_list (mg_values x)) = ps).
  { apply sort_by_distinct; [done| |apply points_sorted]. rewrite <- list_fmap_compose. apply (NoDup_fst_map_to_list (mg_values x)). }
  destruct (map_to_list (mg_values x)) as [|e es]; [apply Permutation_nil_l in Hperm; by rewrite <- Hperm|]. rewrite Hsort, Hl. destruct ps; [|done]. by apply Permutation_nil_r in Hperm.
Qed.
Lemma elem_of_contributing sd streams : sd ∈ contributing q streams <-> kept sd <> [] /\ sd ∈ streams.
Proof using. unfold contributing. by rewrite list_elem_of_filter. Qed.
Lemma answer_perm streams : Forall (stream_fits q) streams ->
  omap (fun e => series_of e.2) (map_to_list (fold_left (eval_stream q startNs endNs stepNs) streams ∅)) ≡ₚ metric_answer q startNs endNs stepNs streams.
Proof using Hr Hstep Hstart Hend Hle.
  intros HF. destruct (eval_streams_inv q startNs endNs stepNs Hr Hstep Hstart Hend Hle streams HF) as [Hk Hg]. set (g := fold_left _ streams ∅) in *.
  assert (Hx : forall key x, g !! key = Some x -> key = encodeLabelSet (mg_labels x) /\ members q (mg_labels x) streams <> [] /\ series_of x = metric_series q startNs endNs stepNs streams (mg_labels x)).
  { intros key x H. destruct (Hk key x H) as [Hs ->]. pose proof (Hg _ Hs) as H0. rewrite H in H0. destruct H0 as (H1 & _ & H2). split; [done|]. split; [done|]. by apply series_of_exact. }
  assert (Hlab : forall x s, series_of x = Some s -> mr_Labels s = mg_labels x) by (intros x s H; unfold series_of in H; destruct (map_to_list _); [done|]; by injection H as <-).
  apply NoDup_Permutation.
  - apply NoDup_omap_inj; [apply NoDup_map_to_list|]. intros [k1 x1] [k2 x2] s H1%elem_of_map_to_list H2%elem_of_map_to_list E1 E2. cbn [snd] in *. destruct (Hx k1 x1 H1) as (K1 & _), (Hx k2 x2 H2) as (K2 & _).
    assert (k1 = k2) as <- by (rewrite K1, K2; f_equal; by rewrite <- (Hlab _ _ E1), <- (Hlab _ _ E2)). rewrite H1 in H2. by injection H2 as <-.
  - unfold metric_answer. apply NoDup_omap_inj; [apply first_use_NoDup|]. intros a b s _ _ Ea Eb. unfold metric_series in *. destruct (points (members q a streams)); [done|]. destruct (points (members q b streams)); [done|]. injection Ea as <-. by injection Eb as ->.
  - intros s. unfold metric_answer. rewrite !list_elem_of_omap. split.
    + intros ([key x] & H%elem_of_map_to_list & E). cbn [snd] in E. destruct (Hx key x H) as (_ & Hne & Es). exists (mg_labels x). rewrite <- Es. split; [|done]. rewrite elem_of_first_use. destruct (members q (mg_labels x) streams) as [|sd ms] eqn:Em; [done|].
      assert (Hin : sd ∈ members q (mg_labels x) streams) by (rewrite Em; by left). apply list_elem_of_filter in Hin as [<- Hin]. apply list_elem_of_fmap. eauto.
    + intros (m & Hm & E). rewrite elem_of_first_use in Hm. apply list_elem_of_fmap in Hm as (sd & -> & Hsd). pose proof Hsd as [_ Hin]%elem_of_contributing. rewrite Forall_forall in HF. destruct (HF sd Hin) as (_ & _ & Hs%(metric_labels_short q)).
      pose proof (Hg _ Hs) as H0. destruct (g !! encodeLabelSet (lab sd)) as [x|] eqn:Ex.
      * destruct H0 as (_ & Hl & Hv). exists (encodeLabelSet (lab sd), x). split; [by apply elem_of_map_to_list|]. cbn [snd]. by rewrite (series_of_exact streams (lab sd) x Hl Hv).
      * exfalso. assert (Hin2 : sd ∈ members q (lab sd) streams) by (apply list_elem_of_filter; done). rewrite H0 in Hin2. by apply elem_of_nil in Hin2.
Qed.
End answer.

(** ** Counts are exact *)

Definition count_at (q : MetricQuery) (streams : list StreamData) (m : gmap string string) (t : Z) : Z :=
  foldr (fun sd n => weight_sum (mq_Op q) (tick_window q t (metric_kept q (st_entries sd))) + n) 0 (members q m streams).
Definition total_weight (q : MetricQuery) (streams : list StreamData) : Z := foldr (fun sd n => weight_sum (mq_Op q) (metric_kept q (st_entries sd)) + n) 0 streams.

Lemma weight_sum_filter op (P : LogEntry -> Prop) `{!forall e, Decision (P e)} es : weight_sum op (filter P es) <= weight_sum op es.
Proof. induction es as [|e es IH]; [done|]. rewrite filter_cons. pose proof (weight_nonneg op e). case_decide; cbn [weight_sum foldr]; fold (weight_sum op es) (weight_sum op (filter P es)); lia. Qed.
Lemma total_weight_nonneg q ss : 0 <= total_weight q ss.
Proof. induction ss as [|sd ss IH]; [done|]. cbn [total_weight foldr]. fold (total_weight q ss). pose proof (weight_sum_nonneg (mq_Op q) (metric_kept q (st_entries sd))). lia. Qed.
Lemma total_weight_filter q (P : StreamData -> Prop) `{!forall e, Decision (P e)} ss : total_weight q (filter P ss) <= total_weight q ss.
Proof.
  induction ss as [|sd ss IH]; [done|]. rewrite filter_cons. pose proof (weight_sum_nonneg (mq_Op q) (metric_kept q (st_entries sd))). case_decide; cbn [total_weight foldr]; fold (total_weight q ss) (total_weight q (filter P ss)); lia.
Qed.
Lemma total_weight_elem q ss sd : sd ∈ ss -> weight_sum (mq_Op q) (metric_kept q (st_entries sd)) <= total_weight q ss.
Proof.
  induction ss as [|x ss IH]; intros H; [by apply elem_of_nil in H|]. cbn [total_weight foldr]. fold (total_weight q ss). pose proof (weight_sum_nonneg (mq_Op q) (metric_kept q (st_entries x))). pose proof (total_weight_nonneg q ss). apply elem_of_cons in H as [->|H]; [lia|]. specialize (IH H). lia.
Qed.
(** Adding a small count never rounds. *)
Lemma add_tick_count q t sd n : rate_op (mq_Op q) = false -> 0 <= n -> n + weight_sum (mq_Op q) (metric_kept q (st_entries sd)) < 2 ^ 53 ->
  let w := weight_sum (mq_Op q) (tick_window q t (metric_kept q (st_entries sd))) in 0 <= w <= weight_sum (mq_Op q) (metric_kept q (st_entries sd)) /\
  (forall acc, acc = Some (float64_of_int n) \/ acc = None /\ n = 0 -> add_tick acc (stream_tick q t (metric_kept q (st_entries sd))) = acc /\ w = 0 \/
    add_tick acc (stream_tick q t (metric_kept q (st_entries sd))) = Some (float64_of_int (n + w))).
Proof.
  intros Hop Hn Hlt w. assert (Hw : 0 <= w <= weight_sum (mq_Op q) (metric_kept q (st_entries sd))) by (split; [apply weight_sum_nonneg|apply weight_sum_filter]). split; [done|]. intros acc Hacc. unfold w in *. clear w.
  unfold stream_tick. destruct (tick_window q t (metric_kept q (st_entries sd))) as [|e es]; [by left|]. right. set (w := weight_sum _ (e :: es)) in *. cbn [add_tick]. unfold metric_scale. rewrite Hop, fmul_one by (unfold small_int; lia). f_equal.
  assert (Ed : default 0 acc = float64_of_int n) by (destruct Hacc as [->|[-> ->]]; reflexivity). rewrite Ed. apply fadd_int; unfold small_int; lia.
Qed.
Lemma count_sum q t ms n acc v : rate_op (mq_Op q) = false -> 0 <= n -> n + total_weight q ms < 2 ^ 53 -> acc = Some (float64_of_int n) \/ acc = None /\ n = 0 ->
  fold_left (fun acc sd => add_tick acc (stream_tick q t (metric_kept q (st_entries sd)))) ms acc = Some v ->
  v = float64_of_int (n + foldr (fun sd n => weight_sum (mq_Op q) (tick_window q t (metric_kept q (st_entries sd))) + n) 0 ms).
Proof.
  intros Hop. revert n acc. induction ms as [|sd ms IH]; intros n acc Hn Hlt Hacc H; cbn [fold_left foldr] in *.
  - rewrite Z.add_0_r. destruct Hacc as [->|[-> _]]; [by injection H|done].
  - cbn [total_weight foldr] in Hlt. fold (total_weight q ms) in Hlt. pose proof (total_weight_nonneg q ms). destruct (add_tick_count q t sd n Hop Hn ltac:(lia)) as [Hw Hadd]. rewrite Z.add_assoc. destruct (Hadd acc Hacc) as [[E Ew]|E]; rewrite E in H.
    + rewrite Ew, Z.add_0_r in *. apply (IH n acc); [lia|lia|done|done].
    + apply (IH _ (Some (float64_of_int (n + weight_sum (mq_Op q) (tick_window q t (metric_kept q (st_entries sd))))))); [lia|lia|by left|done].
Qed.
Lemma count_exact q t ms v : rate_op (mq_Op q) = false -> total_weight q ms < 2 ^ 53 -> group_tick q t ms = Some v ->
  v = float64_of_int (foldr (fun sd n => weight_sum (mq_Op q) (tick_window q t (metric_kept q (st_entries sd))) + n) 0 ms).
Proof. intros Hop Hlt H. apply (count_sum q t ms 0 None v Hop); [lia|lia|by right|exact H]. Qed.

(** C40. A metric query over logs computes what its windows define. Over any source
    that implements a database, it answers one series for each label set the
    contributing streams have left after drops and grouping, in the order of those
    labels as text; a series has a point at exactly the ticks whose half-open window
    holds a line, valued as the sum over its streams, in the source's order, of scaled
    window weights; and for the two ops that do not scale the value is the exact number
    of lines or bytes, the sliding additions and subtractions never having rounded. *)
Theorem metric_query_exact (Quote : string -> string) (src : LogSource) (ctx : context) (db : log_db) `{!LogImplements src ctx db} (Hshort : short_db db)
    (q : MetricQuery) (startNs endNs stepNs : Z) (Hr : 0 < mq_RangeNs q <= MaxInt64) (Hstep : 0 < stepNs <= MaxInt64) (Hstart : in_i64 startNs) (Hend : in_i64 endNs) (Hle : startNs <= endNs)
    (Hsmall : forall streams, log_answers db (sel_Matchers (mq_Selector q)) (windowStart startNs (mq_RangeNs q)) endNs streams -> total_weight q streams < 2 ^ 53) :
  exists streams out, ls_SelectStreams src ctx (sel_Matchers (mq_Selector q)) (windowStart startNs (mq_RangeNs q)) endNs = Ok streams /\
    log_answers db (sel_Matchers (mq_Selector q)) (windowStart startNs (mq_RangeNs q)) endNs streams /\
    EvalMetricRange Quote src ctx q startNs endNs stepNs = Ok out /\ out ≡ₚ metric_answer q startNs endNs stepNs streams /\
    StronglySorted (fun a b => String.le (renderLabels Quote (mr_Labels a)) (renderLabels Quote (mr_Labels b))) out /\
    forall s p, s ∈ out -> p ∈ mr_Points s -> rate_op (mq_Op q) = false -> mp_value p = float64_of_int (count_at q streams (mr_Labels s) (mp_ts p)).
Proof.
  destruct (streams_answer (src := src) (ctx := ctx) (db := db) (sel_Matchers (mq_Selector q)) (windowStart startNs (mq_RangeNs q)) endNs) as (streams & Es & Ha). pose proof (Hsmall streams Ha) as Hw.
  assert (HF : Forall (stream_fits q) streams).
  { apply Forall_forall. intros sd Hsd. destruct Ha as [_ Ha]. pose proof (proj1 (Ha sd) Hsd) as (raw & Hraw & _ & Hv & _). split; [rewrite Hv; apply view_sorted|]. split; [pose proof (total_weight_elem q streams sd Hsd); lia|]. by apply (Hshort (st_labels sd)). }
  pose proof (answer_perm q startNs endNs stepNs Hr Hstep Hstart Hend Hle streams HF) as Hp. unfold EvalMetricRange, evalMetric. rewrite !(proj2 (Z.leb_gt _ _)), (proj2 (Z.ltb_ge _ _)), Es by lia. eexists streams, _. split; [done|]. split; [done|]. split; [done|].
  set (out := sort_str _ _). assert (Ho : out ≡ₚ metric_answer q startNs endNs stepNs streams) by (unfold out; by rewrite (sort_str_perm (fun s => renderLabels Quote (mr_Labels s)))). split; [exact Ho|]. split; [apply (sort_str_weak (fun s => renderLabels Quote (mr_Labels s)))|].
  intros s p Hs Hpt Hop. rewrite Ho in Hs. unfold metric_answer in Hs. apply list_elem_of_omap in Hs as (m & _ & E). unfold metric_series in E. destruct (metric_points q startNs endNs stepNs (members q m streams)) as [|p0 ps] eqn:Em; [done|]. injection E as <-. cbn [mr_Labels mr_Points] in *.
  rewrite <- Em in Hpt. apply (elem_of_points q startNs endNs stepNs) in Hpt as [_ Hv]. apply (count_exact q (mp_ts p) (members q m streams) _ Hop); [|exact Hv]. unfold members, contributing. pose proof (total_weight_filter q (fun sd => metric_labels q (st_labels sd) = m) (filter (fun sd => metric_kept q (st_entries sd) <> []) streams)).
  pose proof (total_weight_filter q (fun sd => metric_kept q (st_entries sd) <> []) streams). lia.
Qed.

Lemma total_weight_perm q a b : a ≡ₚ b -> total_weight q a = total_weight q b.
Proof. induction 1; cbn [total_weight foldr]; repeat match goal with |- context [foldr ?f 0 ?l] => change (foldr f 0 l) with (total_weight q l) end; lia. Qed.
Definition demo_metric : MetricQuery := mkMQ OpCountOverTime (mkSel [mkPair "app" "api"] [mkLF FilterContains "ell" (fun _ => false)] []) 9 AggSum (mkGrouping false ["app"]).
Lemma metric_query_exact_witness :
  EvalMetricRange (fun s => s) (AsSource (head_reader demo_query_buffer)) None demo_metric 9 9 1 = Ok [mkMSeries {["app" := "api"]} [mkMP 9 (float64_of_int 3)]] /\
  exists streams out, ls_SelectStreams (AsSource (head_reader demo_query_buffer)) None [mkPair "app" "api"] 0 9 = Ok streams /\ log_answers demo_query_db [mkPair "app" "api"] 0 9 streams /\
    EvalMetricRange (fun s => s) (AsSource (head_reader demo_query_buffer)) None demo_metric 9 9 1 = Ok out /\ out ≡ₚ metric_answer demo_metric 9 9 1 streams /\
    StronglySorted (fun a b => String.le (renderLabels (fun s => s) (mr_Labels a)) (renderLabels (fun s => s) (mr_Labels b))) out /\
    forall s p, s ∈ out -> p ∈ mr_Points s -> rate_op OpCountOverTime = false -> mp_value p = float64_of_int (count_at demo_metric streams (mr_Labels s) (mp_ts p)).
Proof.
  split; [vm_compute; reflexivity|].
  refine (metric_query_exact (fun s => s) (AsSource (head_reader demo_query_buffer)) None demo_query_db (LogImplements0 := AsSource_implements _ _ None (Hr := head_reader_implements _ demo_query_wf)) demo_query_short demo_metric 9 9 1 _ _ _ _ _ _).
  - cbn [mq_RangeNs demo_metric]. unfold MaxInt64. lia.
  - unfold MaxInt64. lia.
  - unfold in_i64, MinInt64, MaxInt64. lia.
  - unfold in_i64, MinInt64, MaxInt64. lia.
  - lia.
  - intros streams Ha. rewrite (total_weight_perm _ _ _ (answers_perm demo_query_db _ _ _ streams demo_query_streams Ha demo_query_answers)). vm_compute. reflexivity.
Defined.
