(* ===== verification/LogHeads.v ===== *)
(** * LogHeads: log reads over replicated ingesters

    The rest of [internal/logs/merge.go]: [MergeHeads] and [MergeHeadsWith], the
    concurrent read of [Gather] over log sources, composed with the routing of pushes
    ([Router.PushEntries] of internal/rpc/router.go). *)
From S2P Require Import Prelude GoLib GoSort Labels Postings Ring Source Quorum Gather Heads LogStream LogHead LogQuery.

(** ** The code *)

Definition log_fixedSource (streams : list StreamData) (strs : list string) : LogSource :=
  mkLogSource (fun _ _ _ _ => Ok streams) (fun _ => Ok strs) (fun _ _ => Ok strs).
(** [collect], with its [gather] and [skip]. *)
Definition log_collect {A} := collect (F := logErr) (A := A) log_Merge.
Definition heads_SelectStreams (canceled : logErr -> bool) (opts : HeadsOptions logErr) (sched : schedule) (heads : list LogSource) (ctx : context) (ms : list Pair) (minTs maxTs : Z)
  : result logErr (list StreamData * list nat) :=
  log_collect canceled opts sched heads (fun h => ls_SelectStreams h ctx ms minTs maxTs) (fun a => log_fixedSource a []) (fun s => ls_SelectStreams s ctx ms minTs maxTs) [].
Definition heads_SelectLabelNames (canceled : logErr -> bool) (opts : HeadsOptions logErr) (sched : schedule) (heads : list LogSource) (ctx : context) : result logErr (list string * list nat) :=
  log_collect canceled opts sched heads (fun h => ls_SelectLabelNames h ctx) (fun a => log_fixedSource [] a) (fun s => ls_SelectLabelNames s ctx) [].
Definition heads_SelectLabelValues (canceled : logErr -> bool) (opts : HeadsOptions logErr) (sched : schedule) (heads : list LogSource) (ctx : context) (name : string) : result logErr (list string * list nat) :=
  log_collect canceled opts sched heads (fun h => ls_SelectLabelValues h ctx name) (fun a => log_fixedSource [] a) (fun s => ls_SelectLabelValues s ctx name) [].
(** [MergeHeadsWith], as a source. *)
Definition log_tolerantHeads (canceled : logErr -> bool) (opts : HeadsOptions logErr) (sched : schedule) (heads : list LogSource) : LogSource := mkLogSource
  (fun ctx ms minTs maxTs => out ← heads_SelectStreams canceled opts sched heads ctx ms minTs maxTs; Ok out.1)
  (fun ctx => out ← heads_SelectLabelNames canceled opts sched heads ctx; Ok out.1)
  (fun ctx name => out ← heads_SelectLabelValues canceled opts sched heads ctx name; Ok out.1).
Definition log_MergeHeads (canceled : logErr -> bool) (sched : schedule) (heads : list LogSource) : option LogSource :=
  match heads with
  | [] => None
  | [h] => Some h
  | _ => Some (log_tolerantHeads canceled (mkHeadsOptions 0 None) sched heads)
  end.

(** A line on its way to the ring, and its push. *)
Record PendingEntry := mkPE { pe_Labels : Labels; pe_ts : Z; pe_line : string }.
Definition PushEntries (MemberLabel : string -> string) (route : Z -> result ringErr (list string)) (rf : nat) (entries : list PendingEntry) (results : list (string * option pushErr)) : result _ unit :=
  replicate_batch MemberLabel route rf (fun e => Hash (pe_Labels e)) entries None false results None.

(** ** What all the replicas hold *)

Abbreviation log_ingester := (Ingester LogSource log_db).
(** The first replica's copies are the newest. *)
Fixpoint ldb_all (ds : list log_db) : log_db := match ds with [] => fun _ => None | d :: rest => ldb_union (ldb_all rest) d end.
Definition ldb_holds (d : log_db) (l : Labels) (k : Z * string) : Prop := exists raw e, d l = Some raw /\ e ∈ raw /\ le_key e = k.
Definition log_apart (ds : list log_db) : Prop := forall l1 l2 d1 d2, d1 ∈ ds -> d2 ∈ ds -> is_Some (d1 l1) -> is_Some (d2 l2) -> StreamIDOf l1 = StreamIDOf l2 -> l1 = l2.

Lemma ldb_all_some ds l : is_Some (ldb_all ds l) <-> exists d, d ∈ ds /\ is_Some (d l).
Proof.
  induction ds as [|d ds IH]; cbn [ldb_all].
  - split; [by intros [? ?]|]. by intros (? & []%not_elem_of_nil & _).
  - rewrite ldb_union_some, IH. setoid_rewrite elem_of_cons. naive_solver.
Qed.
Lemma ldb_all_holds ds l k : ldb_holds (ldb_all ds) l k <-> exists d, d ∈ ds /\ ldb_holds d l k.
Proof.
  induction ds as [|d ds IH]; cbn [ldb_all].
  - split; [by intros (? & ? & ? & _)|]. by intros (? & []%not_elem_of_nil & _).
  - setoid_rewrite elem_of_cons. assert (H : ldb_holds (ldb_union (ldb_all ds) d) l k <-> ldb_holds d l k \/ ldb_holds (ldb_all ds) l k); [|rewrite H, IH; naive_solver].
    unfold ldb_holds, ldb_union. destruct (ldb_all ds l) as [a|], (d l) as [b|].
    + split.
      * intros (raw & e & E & [He|He]%elem_of_app & Hk) || intros (raw & e & E & He & Hk). injection E as <-. apply elem_of_app in He as [He|He]; [right|left]; eauto.
      * intros [(raw & e & E & He & Hk)|(raw & e & E & He & Hk)]; injection E as <-; exists (a ++ b), e; rewrite elem_of_app; auto.
    + split; [intros (raw & e & E & He & Hk); right; eauto|intros [(? & ? & ? & _)|?]; done].
    + split; [intros (raw & e & E & He & Hk); left; eauto|intros [?|(? & ? & ? & _)]; done].
    + split; [intros (? & ? & ? & _); done|intros [(? & ? & ? & _)|(? & ? & ? & _)]; done].
Qed.
Lemma log_apart_all d ds : log_apart (d :: ds) -> log_no_collision d (ldb_all ds).
Proof.
  intros H l1 l2 H1 H2. assert (Hin : forall l, is_Some (d l) \/ is_Some (ldb_all ds l) -> exists d0, d0 ∈ d :: ds /\ is_Some (d0 l)).
  { intros l [Hl|(d0 & Hd & Hl)%ldb_all_some]; [exists d; split; [by left|done]|exists d0; split; [by right|done]]. }
  destruct (Hin l1 H1) as (e1 & E1 & F1), (Hin l2 H2) as (e2 & E2 & F2). by apply (H l1 l2 e1 e2).
Qed.
Lemma log_apart_sub ds ds' : (forall d, d ∈ ds' -> d ∈ ds) -> log_apart ds -> log_apart ds'.
Proof. intros Hsub H l1 l2 d1 d2 H1 H2. apply H; by apply Hsub. Qed.

(** ** The merged read *)

Section log_replicated.
Context (canceled : logErr -> bool) (opts : HeadsOptions logErr) (sched : schedule) (ings : list log_ingester) (ctx : context).
Abbreviation heads := (ing_source <$> ings).
Abbreviation down := (filter (fun x => ing_up x = false) ings).
Abbreviation alive := (ing_db <$> filter (fun x => ing_up x = true) ings).
Abbreviation failed o := (skippable_error canceled opts o).

(** A head that is down fails every read with an error the options may skip. *)
Definition log_Down (src : LogSource) : Prop :=
  (forall ms lo hi, failed (ls_SelectStreams src ctx ms lo hi)) /\ failed (ls_SelectLabelNames src ctx) /\ forall name, failed (ls_SelectLabelValues src ctx name).
Definition log_behaves (x : log_ingester) : Prop := if ing_up x then LogImplements (ing_source x) ctx (ing_db x) else log_Down (ing_source x).

Context (Hsched : live_schedule sched heads) (Hbehave : Forall log_behaves ings) (Hnc : log_apart (ing_db <$> ings)).
Context (Hdown : Z.of_nat (length down) <= Tolerate opts) (Hup : exists x, x ∈ ings /\ ing_up x = true).

Lemma fold_streams ms lo hi d ds a outs : log_apart (d :: ds) -> log_answers d ms lo hi a -> Forall2 (fun d a => log_answers d ms lo hi a) ds outs ->
  exists out, ls_SelectStreams (fold_heads log_Merge (log_fixedSource a []) ((fun a => log_fixedSource a []) <$> outs)) ctx ms lo hi = Ok out /\ log_answers (ldb_all (d :: ds)) ms lo hi out.
Proof using.
  intros Hn Ha HF. revert d a Hn Ha. induction HF as [|d' a' ds outs Ha' HF IH]; intros d a Hn Ha.
  - exists a. split; [done|]. cbn [ldb_all]. unfold ldb_union. cbn [ldb_all]. exact Ha.
  - destruct (IH d' a') as (b & Eb & Hb); [by eapply log_apart_sub, Hn; intros ? ?; right|done|]. exists (merge_streams lo hi a b). cbn [fmap list_fmap fold_heads log_Merge log_fixedSource ls_SelectStreams]. rewrite bind_Ok. rewrite Eb, bind_Ok. split; [done|].
    change (ldb_all (d :: d' :: ds)) with (ldb_union (ldb_all (d' :: ds)) d). apply merge_streams_union; [by apply log_apart_all|done|done].
Qed.
Lemma fold_label_names d ds a outs : log_names d a -> Forall2 log_names ds outs ->
  exists out, ls_SelectLabelNames (fold_heads log_Merge (log_fixedSource [] a) ((fun a => log_fixedSource [] a) <$> outs)) ctx = Ok out /\ log_names (ldb_all (d :: ds)) out.
Proof using.
  intros Ha HF. revert d a Ha. induction HF as [|d' a' ds outs Ha' HF IH]; intros d a Ha; [exists a; split; [done|exact Ha]|].
  destruct (IH d' a' Ha') as (b & Eb & Hb). exists (unionSorted a b). cbn [fmap list_fmap fold_heads log_Merge log_fixedSource ls_SelectLabelNames]. rewrite bind_Ok, Eb, bind_Ok. split; [done|].
  change (ldb_all (d :: d' :: ds)) with (ldb_union (ldb_all (d' :: ds)) d). by apply log_names_union.
Qed.
Lemma fold_label_values name d ds a outs : log_values d name a -> Forall2 (fun d a => log_values d name a) ds outs ->
  exists out, ls_SelectLabelValues (fold_heads log_Merge (log_fixedSource [] a) ((fun a => log_fixedSource [] a) <$> outs)) ctx name = Ok out /\ log_values (ldb_all (d :: ds)) name out.
Proof using.
  intros Ha HF. revert d a Ha. induction HF as [|d' a' ds outs Ha' HF IH]; intros d a Ha; [exists a; split; [done|exact Ha]|].
  destruct (IH d' a' Ha') as (b & Eb & Hb). exists (unionSorted a b). cbn [fmap list_fmap fold_heads log_Merge log_fixedSource ls_SelectLabelValues]. rewrite bind_Ok, Eb, bind_Ok. split; [done|].
  change (ldb_all (d :: d' :: ds)) with (ldb_union (ldb_all (d' :: ds)) d). by apply log_values_union.
Qed.
Lemma log_alive_apart : log_apart alive.
Proof using Hnc. eapply log_apart_sub, Hnc. intros d (x & -> & [_ Hx]%list_elem_of_filter)%list_elem_of_fmap. by apply list_elem_of_fmap_2. Qed.
Lemma log_behaves_up x : x ∈ ings -> ing_up x = true -> LogImplements (ing_source x) ctx (ing_db x).
Proof using Hbehave. intros Hx E. rewrite Forall_forall in Hbehave. specialize (Hbehave x Hx). unfold log_behaves in Hbehave. by rewrite E in Hbehave. Qed.
Lemma log_behaves_down x : x ∈ ings -> ing_up x = false -> log_Down (ing_source x).
Proof using Hbehave. intros Hx E. rewrite Forall_forall in Hbehave. specialize (Hbehave x Hx). unfold log_behaves in Hbehave. by rewrite E in Hbehave. Qed.

(** Within the tolerance, the reader is the merge of the heads that are up. *)
Lemma log_tolerantHeads_implements : LogImplements (log_tolerantHeads canceled opts sched heads) ctx (ldb_all alive).
Proof using Hsched Hbehave Hnc Hdown Hup.
  pose proof log_alive_apart as Hanc. split; cbn [log_tolerantHeads ls_SelectStreams ls_SelectLabelNames ls_SelectLabelValues].
  - intros ms lo hi. unfold log_collect, heads_SelectStreams. destruct (read_every canceled opts ings Hdown Hup (fun h => ls_SelectStreams h ctx ms lo hi) (fun d a => log_answers d ms lo hi a)) as (Hs & d & ds & a & outs & Ed & Eo & Ha & HF).
    { intros x Hx E. pose proof (log_behaves_up x Hx E) as Hi. by apply streams_answer. }
    { intros x Hx E. by apply (log_behaves_down x Hx E). }
    rewrite (collect_survives log_Merge canceled opts sched heads _ _ _ _ Hsched Hs), Eo. rewrite Ed in *. destruct (fold_streams ms lo hi d ds a outs Hanc Ha HF) as (out & -> & Hout). by exists out.
  - unfold log_collect, heads_SelectLabelNames. destruct (read_every canceled opts ings Hdown Hup (fun h => ls_SelectLabelNames h ctx) log_names) as (Hs & d & ds & a & outs & Ed & Eo & Ha & HF).
    { intros x Hx E. pose proof (log_behaves_up x Hx E) as Hi. by apply log_names_answer. }
    { intros x Hx E. by apply (log_behaves_down x Hx E). }
    rewrite (collect_survives log_Merge canceled opts sched heads _ _ _ _ Hsched Hs), Eo. rewrite Ed. destruct (fold_label_names d ds a outs Ha HF) as (out & -> & Hout). by exists out.
  - intros name. unfold log_collect, heads_SelectLabelValues. destruct (read_every canceled opts ings Hdown Hup (fun h => ls_SelectLabelValues h ctx name) (fun d a => log_values d name a)) as (Hs & d & ds & a & outs & Ed & Eo & Ha & HF).
    { intros x Hx E. pose proof (log_behaves_up x Hx E) as Hi. by apply log_values_answer. }
    { intros x Hx E. by apply (log_behaves_down x Hx E). }
    rewrite (collect_survives log_Merge canceled opts sched heads _ _ _ _ Hsched Hs), Eo. rewrite Ed. destruct (fold_label_values name d ds a outs Ha HF) as (out & -> & Hout). by exists out.
Qed.
End log_replicated.

(** A line some database holds is in every read over its stream and timestamp. *)
Lemma read_shows_line src ctx db l ts line ms lo hi : LogImplements src ctx db -> ldb_holds db l (ts, line) -> log_matches ms l -> lo <= ts <= hi ->
  exists out sd e, ls_SelectStreams src ctx ms lo hi = Ok out /\ sd ∈ out /\ st_labels sd = l /\ e ∈ st_entries sd /\ le_ts e = ts /\ le_line e = line.
Proof.
  intros Hi (raw & e0 & Eraw & He0 & Hk) Hm Hr. destruct (streams_answer (src := src) (ctx := ctx) ms lo hi) as (out & E & _ & Hout). assert (Hv : (ts, line) ∈ keys_of (view lo hi raw)).
  { apply view_keys. exists e0. split; [done|]. split; [|done]. unfold in_window. unfold le_key in Hk. injection Hk as Ht _. rewrite Ht. destruct (Z.ltb_spec ts lo), (Z.ltb_spec hi ts); cbn; (done || lia). }
  apply elem_of_keys in Hv as (e & He & Ek). exists out, (mkSD l (view lo hi raw)), e. unfold le_key in Ek. injection Ek as E1 E2. split_and!; try done. apply Hout. exists raw. cbn [st_labels st_entries]. split_and!; [done|done|done|]. intros En. rewrite En in He. by apply elem_of_nil in He.
Qed.

(** C19. An acknowledged line is readable while a minority is down. The gateway
    answered OK to a push; each ingester that acknowledged its part holds the lines it
    was sent. Then, with fewer ingesters down than a quorum and a reader that tolerates
    at most that, every read whose matchers select the line's stream and whose window
    holds its timestamp returns it, whatever order the ingesters answer in. *)
Theorem acknowledged_line_is_read (MemberLabel : string -> string) (route : Z -> result ringErr (list string)) (rf : nat) (ms : list string)
  (canceled : logErr -> bool) (opts : HeadsOptions logErr) (sched : schedule) (ings : list log_ingester) (ctx : context)
  (entries : list PendingEntry) (p : plan PendingEntry) (results : list (string * option pushErr)) :
  let key := fun e => Hash (pe_Labels e) in
  Routes route rf ms -> (1 <= rf)%nat -> make_plan key route entries = Ok p -> results.*1 ≡ₚ (map_to_list (groups p)).*1 ->
  PushEntries MemberLabel route rf entries results = Ok tt ->
  (forall m, m ∈ ms -> exists x, x ∈ ings /\ ing_name x = m) -> NoDup (ing_name <$> ings) ->
  (forall x, x ∈ ings -> (ing_name x, None) ∈ results -> forall e, e ∈ default [] (groups p !! ing_name x) -> ldb_holds (ing_db x) (pe_Labels e) (pe_ts e, pe_line e)) ->
  live_schedule sched (ing_source <$> ings) -> Forall (log_behaves canceled opts ctx) ings -> log_apart (ing_db <$> ings) ->
  Z.of_nat (length (filter (fun x => ing_up x = false) ings)) <= Tolerate opts -> Tolerate opts < Z.of_nat (quorum rf) ->
  forall e matchers lo hi, e ∈ entries -> log_matches matchers (pe_Labels e) -> lo <= pe_ts e <= hi ->
  exists out sd x, ls_SelectStreams (log_tolerantHeads canceled opts sched (ing_source <$> ings)) ctx matchers lo hi = Ok out /\
    sd ∈ out /\ st_labels sd = pe_Labels e /\ x ∈ st_entries sd /\ le_ts x = pe_ts e /\ le_line x = pe_line e.
Proof.
  intros key Hroute Hrf Ep Hres Hok Hmem Hnd Hstored Hsched Hb Hnc Hdown Hw e matchers lo hi He Hm Hr.
  destruct (make_plan_ok key route rf ms entries) as (p' & Ep' & Hp). rewrite Ep in Ep'. injection Ep' as <-.
  assert (Hrnd : NoDup results.*1) by (rewrite Hres; apply NoDup_fst_map_to_list).
  pose proof (batch_acked key route rf ms MemberLabel Hrf entries p results Hp Ep Hres Hok e He) as Hack.
  destruct (acked_names results (replicas_of route (key e)) Hrnd) as (An & Al & Ain). set (names := (filter _ results).*1) in *.
  assert (Hrep : replicated_on ings (quorum rf) (fun x : log_ingester => ldb_holds (ing_db x) (pe_Labels e) (pe_ts e, pe_line e))).
  { exists names. split_and!; [done|by rewrite Al|]. intros n Hn. destruct (Ain n Hn) as [Hnr Hnres].
    destruct (route_spec (key e)) as (reps & Er & _ & _ & Hsub). assert (Hreps : replicas_of route (key e) = reps) by (unfold replicas_of; by rewrite Er).
    rewrite Hreps in Hnr. destruct (Hmem n (Hsub n Hnr)) as (x & Hx & En). exists x. split_and!; [done|done|].
    apply (Hstored x Hx); [by rewrite En|]. rewrite (po_groups _ _ _ _ Hp), En. apply list_elem_of_filter. by rewrite Hreps. }
  destruct (up_replica ings (quorum rf) _ Hnd ltac:(lia) Hrep) as (x & Hx & Eu & Hh).
  apply (read_shows_line _ ctx (ldb_all (ing_db <$> filter (fun x => ing_up x = true) ings)) (pe_Labels e) (pe_ts e) (pe_line e) matchers lo hi); try done.
  - apply log_tolerantHeads_implements; try done. by exists x.
  - apply ldb_all_holds. exists (ing_db x). split; [|done]. apply list_elem_of_fmap_2. by apply list_elem_of_filter.
Qed.

(** *** Witness: three ingesters, the middle one down *)

Definition log_no_cancel (e : logErr) : bool := false.
Definition log_outage_only : HeadsOptions logErr := mkHeadsOptions 1 (Some (fun e => match e with LogErrOther _ => true | _ => false end)).
Definition dead_log_source : LogSource := mkLogSource (fun _ _ _ _ => Err (LogErrOther 503)) (fun _ => Err (LogErrOther 503)) (fun _ _ => Err (LogErrOther 503)).
Definition log_three : list log_ingester :=
  [mkIngester "a" (AsSource (head_reader demo_query_buffer)) demo_query_db true; mkIngester "b" dead_log_source demo_query_db false; mkIngester "c" (AsSource (head_reader demo_query_buffer)) demo_query_db true].
Definition log_arrivals : schedule := mkSchedule [(2%nat, false); (0%nat, false); (1%nat, false)] 5.
Definition pushed_line : PendingEntry := mkPE (demo_pod "a") 5 "hello".
Definition pushed_plan : plan PendingEntry := match make_plan (fun e => Hash (pe_Labels e)) trio [pushed_line] with Ok p => p | Err _ => empty_plan end.
Definition pushed_results : list (string * option pushErr) := [("c"%string, None); ("a"%string, None); ("b"%string, Some an_outage)].

Lemma log_three_db x : x ∈ log_three -> ing_db x = demo_query_db.
Proof. intros Hx. unfold log_three in Hx. repeat (apply elem_of_cons in Hx as [->|Hx]; [done|]). by apply not_elem_of_nil in Hx. Qed.
Lemma log_three_behave : Forall (log_behaves log_no_cancel log_outage_only None) log_three.
Proof.
  pose proof (AsSource_implements (head_reader demo_query_buffer) demo_query_db None (Hr := head_reader_implements _ demo_query_wf)) as Hr.
  assert (Hd : log_Down log_no_cancel log_outage_only None dead_log_source) by (split_and!; intros; exists (LogErrOther 503); split; reflexivity).
  repeat (apply Forall_cons_2); [exact Hr|exact Hd|exact Hr|constructor].
Qed.
Lemma log_three_apart : log_apart (ing_db <$> log_three).
Proof.
  intros l1 l2 d1 d2 (x1 & -> & H1)%list_elem_of_fmap (x2 & -> & H2)%list_elem_of_fmap S1 S2. rewrite (log_three_db _ H1) in S1. rewrite (log_three_db _ H2) in S2. apply demo_query_apart; by left.
Qed.
Lemma pushed_line_held : ldb_holds demo_query_db (demo_pod "a") (5, "hello"%string).
Proof.
  assert (E : demo_query_db (demo_pod "a") = Some [demo_entry "a" 5 "hello"; demo_entry "a" 9 "hello"]) by (vm_compute; reflexivity). eexists _, _. split; [exact E|]. split; [by left|done].
Qed.

Lemma acknowledged_line_is_read_witness : exists out sd x,
  ls_SelectStreams (log_tolerantHeads log_no_cancel log_outage_only log_arrivals (ing_source <$> log_three)) None [mkPair "app" "api"] 0 9 = Ok out /\
  sd ∈ out /\ st_labels sd = demo_pod "a" /\ x ∈ st_entries sd /\ le_ts x = 5 /\ le_line x = "hello"%string.
Proof.
  apply (acknowledged_line_is_read (fun s => s) trio 3 ["a"; "b"; "c"]%string log_no_cancel log_outage_only log_arrivals log_three None [pushed_line] pushed_plan pushed_results) with (e := pushed_line).
  - apply trio_routes.
  - lia.
  - reflexivity.
  - vm_compute. reflexivity.
  - vm_compute. reflexivity.
  - intros m Hm. destruct (list_elem_of_lookup_1 _ _ Hm) as [i Hi]. destruct i as [|[|[|i]]]; cbn in Hi; [| | |done]; injection Hi as <-.
    + eexists. split; [by left|done].
    + eexists. split; [by right; left|done].
    + eexists. split; [by right; right; left|done].
  - apply (bool_decide_unpack _). by vm_compute.
  - intros x Hx _ e He. rewrite (log_three_db x Hx). assert (E : e = pushed_line).
    { unfold log_three in Hx. repeat (apply elem_of_cons in Hx as [->|Hx]; [vm_compute in He; apply list_elem_of_singleton in He; exact He|]). by apply not_elem_of_nil in Hx. }
    rewrite E. exact pushed_line_held.
  - split; [|repeat constructor]. cbn. change [0%nat; 1%nat; 2%nat] with ([0%nat; 1%nat] ++ [2%nat]). apply Permutation_cons_append.
  - exact log_three_behave.
  - exact log_three_apart.
  - vm_compute. discriminate.
  - vm_compute. reflexivity.
  - by left.
  - apply (bool_decide_unpack _). by vm_compute.
  - cbn. lia.
Defined.
